(* ===== verification/_CoqProject ===== *)
-Q . S2P
Prelude.v
MemoryKvStore.v
TtlManager.v
WatchRegistry.v
WatchDispatcher.v
CoordinatorStore.v
NetUtil.v
MurmurHash.v
Topology.v
HashRing.v
PlanBuilder.v
Replan.v
Membership.v
FailureClassifier.v
KeyHelper.v
RepositoryCodec.v
Repository.v
Materializer.v
Janitor.v
SnapshotState.v
Placement.v
EventDispatcher.v
Executor.v
Controller.v
ExecutorRun.v
Observer.v
SlotFile.v
SlotIndex.v
SlotManifest.v
SlotSnapshot.v
SlotPlan.v
Slot.v
SlotStore.v
SlotRefine.v
SlotCompact.v
EvictionList.v
ObjectRef.v
ShmRef.v
