(* ===== verification/Prelude.v ===== *)
(** * openYuanrong datasystem: verification of the cluster control plane, the slot store and the reference tables

    openYuanrong datasystem is a distributed cache written in C++.  Its workers hold objects and streams; which
    worker owns a piece of metadata is decided by a consistent-hash ring whose topology changes as workers
    join, leave and fail.  This development models the part of the system that keeps that topology correct,
    [src/datasystem/cluster], and the coordination service it is stored in,
    [src/datasystem/common/coordinator], together with the hashing and endpoint utilities both depend on, and the store
    that keeps objects on disk as a second-level cache, [src/datasystem/common/l2cache/slot_client].  Of the object cache it models
    the structures that decide how long an object stays: the eviction list of a worker and the tables of references.
    All paths below are under [src/].

    ** The parts and how they interact

    - The _coordinator_ is a watched key-value store in memory.  [MemoryKvStore] keeps the rows and a revision
      and reports every mutation to a callback; [TtlManager] expires rows; [WatchRegistry] knows who watches
      which range; [WatchDispatcher] queues events per watcher and delivers them in batches;
      [CoordinatorStore] binds the four together and is what the RPC service calls.
    - The _topology_ of a cluster ([datasystem::cluster::TopologyState]) is one row of such a store.  Workers
      route by a snapshot of it; the placement algorithm computes who owns which token and plans changes of
      the ring; the plan builder turns a plan into the next topology; the controller decides what to plan
      from the members' leases; the repository reads and compare-and-swaps the row through a codec.
    - The _work_ of a topology change is derived from that row: the materializer plans the active batch again
      and turns it into tasks and notifies, which are rows of their own; the janitor removes those that belong
      to batches that are over; on every worker the executor runs the tasks it is notified of.
    - Every process keeps a _local copy_: a reader publishes the stored topology as an immutable snapshot, the placement
      facade answers from it who serves a key and whether a client has to wait for a hand-over, and the endpoint
      view combines it with what the process knows of its peers.  Watch events and completions of callbacks reach the
      thread that does this through a bounded queue.
    - A _slot_ of the second-level cache is a directory: a manifest that names its files, an index, which is a log of
      puts and deletions, and data files.  Every change is an append or the replacement of the manifest, and whoever opens the
      slot replays the index; compaction rewrites the live objects, and a takeover merges the slot of another
      worker into this one.

    - A worker evicts objects by a _clock_ that goes round a list of them, and keeps those that somebody _refers_ to: references of
      clients to objects are counted on the worker and, per worker, on the master, and references to the shared memory
      a client has mapped are counted per client and per unit.

    ** Files

    - [Prelude]: status codes and the error monad ([res], [let!], [check!]), 64- and 32-bit arithmetic, string
      order, lists, sorted maps, and the automation shared by the files.
    - [MemoryKvStore], [TtlManager], [WatchRegistry], [WatchDispatcher], [CoordinatorStore]: the classes of
      [common/coordinator/], one file each, one definition per method.  A method that runs under a mutex is one
      atomic step; the threads of the dispatcher and of the TTL manager are steps of a run, and the notify RPC
      is a parameter.
    - [NetUtil]: [HostPort] and the endpoint validators of [common/util/].  [MurmurHash]: [MurmurHash3_32].
    - [Topology]: [cluster/model/], validation and canonical form of a topology, snapshots, lookups, routing.
    - [HashRing]: [cluster/algorithm/hash_algorithm.cpp], token allocation and the plans.
    - [PlanBuilder]: [cluster/control/topology_plan_builder.cpp].  The algorithm it calls is the class
      [PlanningOps] with the laws [PlanningLaws], which [HashRing] discharges.
    - [Membership]: [cluster/membership/], the value of a member's lease.
    - [FailureClassifier]: [cluster/control/topology_failure_classifier.cpp].
    - [KeyHelper], [RepositoryCodec], [Repository]: [cluster/repository/], key space, values and operations.
    - [Replan]: the plans of a topology that already contains the batch; no code of its own, what [Materializer]
      needs to know of [HashRing] and [PlanBuilder] together.
    - [Materializer]: [cluster/control/topology_task_materializer.cpp].  [Janitor]: a pass of
      [cluster/control/topology_task_janitor.cpp] and the reader of [cluster/runtime/topology_reader.cpp].
    - [SnapshotState]: [cluster/runtime/topology_snapshot_state.cpp].  A publication is two atomic steps, the store of the
      snapshot and the increment of its generation, between which other threads may load.
    - [Placement]: [cluster/routing/placement_facade.cpp], [cluster/membership/membership_endpoint_view.cpp] and the key
      filters of [cluster/executor/].  The routing algorithm is the class [RoutingOps], an instance of which is [Topology]'s.
    - [EventDispatcher]: [cluster/runtime/coordination_event_dispatcher.cpp] and the watch plans of the roles.  List
      iterators are node numbers, so that a dangling one would show.
    - [Executor]: [cluster/executor/topology_task_executor.cpp].  A method is a program of sections under the mutex and calls to
      the other components ([prog]).  [ExecutorRun]: the serial loop, the threads of the pool and [Stop] interleaved, what
      each of them holds, and that every program respects it ([safe]).  The snapshots it loads are those of a history of [Controller].
    - [Controller]: the operations of [cluster/control/topology_controller.cpp] that commit a topology, the replacement of a cluster whose
      members are all absent included.
    - [Observer]: [cluster/runtime/topology_observer.cpp].
    - [SlotFile]: a disk with directories, files and inodes, the functions of [common/util/file_util.cpp] on it and the names of
      [slot_file_util.cpp].  A program on the disk also returns the disks it goes through, one per system call and per byte
      written: these are the states in which a process can die.  [DiskSpec] has the rules for such programs.
    - [SlotIndex], [SlotManifest], [SlotSnapshot], [SlotPlan]: [slot_index_codec.cpp], [slot_manifest.cpp], [slot_snapshot.cpp],
      [slot_takeover_planner.cpp].  [Slot]: [slot_writer.cpp] and [slot.cpp].  [SlotCompact]: [slot_compactor.cpp] and
      [Slot::Compact], cut where it releases the lock.
    - [SlotStore], [SlotRefine]: the abstract store, the invariants that relate it to the memory and the disk of a slot, and the
      proof that [Save], [Delete] and [Get] implement it; no code of their own.

    - [EvictionList]: [worker/object_cache/eviction_list.cpp], with list iterators as node numbers and the threads interleaved where
      they hold one of their two locks.  [ObjectRef]: [ObjectRefInfo] and [ObjectGlobalRefTable] of
      [common/object_cache/object_ref_info.h], over any persistence functions.  [ShmRef]: [SharedMemoryRefTable] of the same header;
      a flush is a sequence of sections under its locks, between which clients and other flushes run.

    State is a [Record] per class with the names of its fields, errors are values of [res], time and random
    choices are arguments.  Definitions keep the names of the functions they translate; a loop body or a lambda
    that needs a name of its own is a separate definition beside them.

    ** What the theorems show

    - Coordinator: replaying the events of any run of the store gives its contents ([kv_run_replay]); the
      composed store keeps its parts consistent ([coordinator_run_sound]); a watcher misses nothing of what
      its snapshot does not contain ([watch_contract], [fan_out_exact], [commit_lossless]); a row with a lease
      that is not renewed goes away ([no_key_outlives_its_ttl], [passes_drain]), and only then
      ([stale_expiry_is_noop]); [Put_cas] and [Delete_exact] are the full behaviour of writes.
    - Placement: routing is total and exact ([LocateOwner_exact]); the plans name exactly the tokens that
      change hands ([PlanScaleOut_exact], [PlanScaleIn_exact], [PlanFailure_exact]), and carrying a plan out
      through the plan builder changes exactly these owners ([scale_out_handover], [scale_in_handover]).
    - Control: a failure is declared when the absence has lasted and never before
      ([failure_confirmed_exactly]); controllers that share a store, reading it at any age and with any
      failure of the backend, produce one serial history of valid topologies ([controllers_serialize]), in which a member keeps its
      identity while a batch lasts ([batch_keeps_identities]).
    - Derived work: planning the batch of a stored topology again gives the plan it was started with
      ([rebuild_recovers_plan]); the tasks move every token that changes hands exactly once
      ([derived_tasks_exact]), their ids name their scope ([task_id_names_scope]), and the notifies reach their
      executors ([notifies_exact]).  A janitor pass, interleaved with anything other clients do, leaves the
      tasks of a batch that is not over alone ([janitor_spares_live_task]), removes exactly the others
      ([stale_tasks_removed_exactly]) and gets to every row ([rotation_visits_all]).
    - Execution: the workers can run every task that is derived, on exactly the keys it is for ([derived_tasks_executable]); however
      the threads interleave, whatever fails, is cancelled or retried, no task is marked finished before its work is done, in the
      order of the protocol, unless ids of operations of different phases collide ([progress_after_work]); no operation is run twice at once or forgotten in the counters
      ([executor_accounts]); delays between retries are bounded ([backoff_bounds]).
    - Local copies: no thread ever sees the topology go back, and what it sees is never older than what had been published
      when it asked ([loads_never_go_back]); a worker turns away exactly the keys the derived tasks move and names their
      targets ([redirect_matches_tasks]), a hand-over is reported complete exactly when tasks covering the key have
      been recorded in the current batch ([handoff_complete_exact], [waiting_key_released]); the queue loses no event
      without asking for a resynchronisation as long as it is open ([doorbells_never_lost]); an observer ends up with the newest topology it
      has read and can always be started again ([observer_catches_up], [observer_restartable]).
    - Storage: the compare-and-swap is atomic and truthful ([topology_cas_atomic]); values read back as they
      were written ([topology_roundtrip], [tasks_roundtrip], [notify_canonical], [membership_roundtrip],
      [legacy_value_decodes]); progress of tasks is monotone ([task_progress_monotone]); deletions do not hit
      live rows ([tombstone_shields_row]); clusters do not see each other's keys ([keyspaces_disjoint]).
    - Slot store: an index is read up to its first damaged record and no further ([index_recovers_prefix]), an append
      that is cut off leaves a prefix of its records ([append_crash_safe]); the manifest is replaced as a whole
      ([manifest_store_atomic]) and read back as written ([manifest_roundtrip]), and what is read is in a row of the table of states, operations,
      phases and roles of the protocol, which is exactly what the validator accepts ([decode_valid]); lookups give exactly the newest live version ([lookups_exact], [collect_exact]); an
      imported batch counts as a whole or not at all ([import_batch_atomic]).  On top of this, a slot refines the
      abstract store across any sequence of operations and crashes ([slot_refines_store]), each operation is
      atomic ([slot_operation_atomic]) and what has been saved is not lost ([saved_object_survives]).
    - Object cache: the eviction list is a clock, whatever threads do to it, and its search for a candidate stops at the first
      object with the least counter ([eviction_list_refines], [eviction_list_sound], [evictions_drain]); raising and lowering
      references changes exactly what it should and reports first and last references exactly ([increase_exact],
      [decrease_exact], [references_agree]); a reference to shared memory that is held is going to be offered to its client
      ([no_reference_forgotten], [expired_reference_offered]), also while flushes run, and a unit counts its holders ([shm_count_exact]).
    - Behaviour that is surely not intended is stated too: [failed_removal_drops_reference], [disconnect_leaks_count],
      [compaction_loses_object], [range_deletion_lost], [rewatch_notice_swallowed],
      [late_event_lost], [two_janitors_drop_notify], [oversized_topology_unreadable] and
      [reparse_keeps_ipv6_flag] each prove that the code loses or refuses something it should not.

    ** Bounds and fuel

    Versions, revisions and epochs are 64-bit and wrap where the code wraps ([u64], [i64]); theorems that need
    no overflow say so, and a topology's version is bounded by its validation.  Definitions with fuel
    are the printing of numbers ([NetUtil.digits_of]): ten digits for an [int], twenty for 64 bits, which is
    every digit such a number has ([dec_val_digits]); in the slot store the loops that read a file, whose fuel is its
    size, and the four phases of a takeover; in the eviction list the turns of the hand, of which there are at most 256 because a
    counter is a byte.  Loops of the code that are bounded, such as the probing
    for a free token, recurse on the bound.

    ** Third-party code

    Protobuf is a parameter with two laws ([RepositoryCodec.wire_ok]), in [Membership] two hypotheses; SHA-256
    is a parameter of which nothing is assumed; RE2 is replaced by an executable matcher proved to decide the patterns.

    ** Not modelled

    RPC services and clients, threads and their shutdown, logging and metrics; how members are chosen to be probed before a
    failure is committed (what the probes confirm is arbitrary); a second life of an executor that is started again after its stop; the engine that composes the roles of a process; in the slot store the loss of writes that were
    not synchronised before the machine, and not only the process, fails ([fsync] has no effect in the model), failures of
    system calls on files that exist, and the table of slots of [slot_client.cpp]; the services of the object cache, which are RPC
    handlers over the modelled tables, RocksDB and shared memory; the stream cache, the device transports and
    the client libraries of the other directories. *)

From Corelib Require Export ssreflect.
From Stdlib Require Export Ascii.
From stdpp Require Export sorting prelude gmap strings numbers.
From stdpp Require Export list.
Global Open Scope general_if_scope.

(** ** Status codes and fallible operations

    [StatusCode] is the common range of the enum of
    [include/datasystem/utils/status.h] (codes 0 to 39) with the RPC codes that the code modelled here tells
    apart; the object, stream and device ranges are never produced by it.  A [Status] also carries a message, a line and a file,
    which are diagnostics and are not modelled: a failing operation is its code. *)
Inductive StatusCode : Type :=
| K_OK | K_DUPLICATED | K_INVALID | K_NOT_FOUND | K_KVSTORE_ERROR | K_RUNTIME_ERROR | K_OUT_OF_MEMORY
| K_IO_ERROR | K_NOT_READY | K_NOT_AUTHORIZED | K_UNKNOWN_ERROR | K_INTERRUPTED | K_OUT_OF_RANGE
| K_NO_SPACE | K_NOT_LEADER_MASTER | K_RECOVERY_ERROR | K_RECOVERY_IN_PROGRESS | K_FILE_NAME_TOO_LONG
| K_FILE_LIMIT_REACHED | K_TRY_AGAIN | K_DATA_INCONSISTENCY | K_SHUTTING_DOWN | K_WORKER_ABNORMAL
| K_CLIENT_WORKER_DISCONNECT | K_WORKER_TIMEOUT | K_MASTER_TIMEOUT | K_NOT_FOUND_IN_L2CACHE
| K_REPLICA_NOT_READY | K_CLIENT_WORKER_VERSION_MISMATCH | K_SERVER_FD_CLOSED | K_RETRY_IF_LEAVING
| K_SCALE_DOWN | K_SCALING | K_CLIENT_DEADLOCK | K_LRU_HARD_LIMIT | K_LRU_SOFT_LIMIT | K_NOT_SUPPORTED
| K_NO_AVAILABLE_WORKER | K_NOT_OWNER | K_METADATA_OWNER_UNAVAILABLE
| K_RPC_CANCELLED | K_RPC_DEADLINE_EXCEEDED | K_RPC_UNAVAILABLE | K_RPC_STREAM_END | K_URMA_WAIT_TIMEOUT
| K_RPC_PEER_DEAD | K_RPC_NETWORK_BLIP.

#[export] Instance StatusCode_eq_dec : EqDecision StatusCode.
Proof. solve_decision. Defined.

(** The outcome of a call returning [Status] with out-parameters: the out-parameters on [Status::OK()],
    the code otherwise. *)
Inductive res (A : Type) : Type :=
| Ok (a : A)
| Fail (c : StatusCode).
Arguments Ok {A} _.
Arguments Fail {A} _.

#[export] Instance res_eq_dec `{EqDecision A} : EqDecision (res A).
Proof. solve_decision. Defined.

Definition is_ok {A} (r : res A) : bool := match r with Ok _ => true | Fail _ => false end.

(** [Status::GetCode]. *)
Definition res_code {A} (r : res A) : StatusCode := match r with Ok _ => K_OK | Fail c => c end.

Definition res_bind {A B} (r : res A) (f : A → res B) : res B :=
  match r with Ok a => f a | Fail c => Fail c end.

Declare Scope ds_scope.
Delimit Scope ds_scope with ds.

(** [RETURN_IF_NOT_OK] and [CHECK_FAIL_RETURN_STATUS]. *)
Notation "'let!' x := r 'in' k" := (res_bind r (λ x, k))
  (at level 10, x pattern, r at level 100, k at level 200) : ds_scope.
Notation "'check!' b 'else' c 'in' k" := (if b%bool then k else Fail c)
  (at level 10, b at level 100, c at level 100, k at level 200) : ds_scope.
Open Scope ds_scope.

Lemma res_bind_Ok {A B} (r : res A) (f : A → res B) b :
  res_bind r f = Ok b ↔ ∃ a, r = Ok a ∧ f a = Ok b.
Proof. destruct r; simpl; naive_solver. Qed.

Lemma res_bind_Fail {A B} (r : res A) (f : A → res B) c :
  res_bind r f = Fail c ↔ r = Fail c ∨ ∃ a, r = Ok a ∧ f a = Fail c.
Proof. destruct r; simpl; naive_solver. Qed.

(** ** Machine integers

    Machine words are [Z] with their wrap-around written out. *)
Definition u32 (z : Z) : Z := (z mod 2 ^ 32)%Z.
Definition u64 (z : Z) : Z := (z mod 2 ^ 64)%Z.
Definition i64 (z : Z) : Z := ((z + 2 ^ 63) mod 2 ^ 64 - 2 ^ 63)%Z.

Definition UINT32_MAX : Z := (2 ^ 32 - 1)%Z.
Definition INT64_MAX : Z := (2 ^ 63 - 1)%Z.

Lemma u32_range z : (0 ≤ u32 z < 2 ^ 32)%Z.
Proof. apply Z.mod_pos_bound. lia. Qed.
Lemma u64_range z : (0 ≤ u64 z < 2 ^ 64)%Z.
Proof. apply Z.mod_pos_bound. lia. Qed.
Lemma i64_range z : (- 2 ^ 63 ≤ i64 z < 2 ^ 63)%Z.
Proof. unfold i64. pose proof (Z.mod_pos_bound (z + 2 ^ 63) (2 ^ 64)). lia. Qed.
Lemma u32_small z : (0 ≤ z < 2 ^ 32)%Z → u32 z = z.
Proof. apply Z.mod_small. Qed.
Lemma u64_small z : (0 ≤ z < 2 ^ 64)%Z → u64 z = z.
Proof. apply Z.mod_small. Qed.
Lemma i64_small z : (- 2 ^ 63 ≤ z ≤ INT64_MAX)%Z → i64 z = z.
Proof. unfold i64, INT64_MAX. intros. rewrite Z.mod_small; lia. Qed.

(** ** [std::string] order

    [std::string::operator<] compares lexicographically on unsigned characters, a proper prefix being
    smaller: [String.compare] on [Ascii.compare]. *)
Definition str_lt (a b : string) : Prop := String.ltb a b = true.

#[export] Instance str_lt_dec : RelDecision str_lt.
Proof. intros a b. unfold str_lt. apply _. Defined.

Lemma str_compare_refl a : String.compare a a = Eq.
Proof.
  induction a as [|c a IH]; simpl; [done|].
  unfold Ascii.compare. by rewrite N.compare_refl.
Qed.

Lemma str_lt_iff a b : str_lt a b ↔ String.le a b ∧ a ≠ b.
Proof.
  unfold str_lt, String.ltb, String.le, String.leb.
  destruct (String.compare a b) eqn:E; simpl; split; try done.
  - intros [_ Hne]. by apply String.compare_eq_iff in E.
  - intros _. split; [done|]. intros ->. by rewrite str_compare_refl in E.
  - by intros [[] _].
Qed.

#[export] Instance str_lt_strict : StrictOrder str_lt.
Proof.
  split.
  - intros a [_ ?]%str_lt_iff. done.
  - intros a b c [Hab Hne]%str_lt_iff [Hbc Hne']%str_lt_iff. apply str_lt_iff. split; [by etrans|].
    intros ->. by apply Hne, (anti_symm String.le).
Qed.

Lemma str_lt_le a b : str_lt a b → String.le a b.
Proof. by intros [? _]%str_lt_iff. Qed.

Lemma str_nlt_le a b : ¬ str_lt a b ↔ String.le b a.
Proof.
  rewrite str_lt_iff. split.
  - intros Hn. destruct (total String.le a b) as [H|H]; [|done].
    destruct (decide (a = b)) as [->|Hne]; [done|]. destruct Hn. by split.
  - intros Hba [Hab Hne]. apply Hne. by apply (anti_symm String.le).
Qed.

Lemma str_lt_trichotomy a b : str_lt a b ∨ a = b ∨ str_lt b a.
Proof.
  destruct (decide (str_lt a b)) as [|Hn]; [by left|]. right. apply str_nlt_le in Hn.
  destruct (decide (a = b)) as [|Hne]; [by left|]. right. apply str_lt_iff. naive_solver.
Qed.

(** ** Partition points

    [std::lower_bound] and [std::upper_bound] return the first position of a range at which a predicate
    that holds on a prefix stops holding.  An iterator is modelled by the suffix it starts, [end()] by
    [[]]. *)
Fixpoint partition_point {A} (p : A → bool) (l : list A) : list A :=
  match l with
  | [] => []
  | x :: l' => if p x then partition_point p l' else l
  end.

Lemma partition_point_suffix {A} (p : A → bool) (l : list A) :
  ∃ pre, l = pre ++ partition_point p l ∧ Forall (λ x, p x = true) pre.
Proof.
  induction l as [|x l [pre [Hl Hp]]]; simpl; [by exists []|].
  destruct (p x) eqn:E; [|by exists []].
  exists (x :: pre). split; [by rewrite /= -Hl|by constructor].
Qed.

Lemma partition_point_head {A} (p : A → bool) (l : list A) x l' :
  partition_point p l = x :: l' → p x = false ∧ x ∈ l.
Proof.
  induction l as [|y l IH]; simpl; [done|]. destruct (p y) eqn:E.
  - intros [??]%IH. split; [done|]. by right.
  - intros [= <- <-]. split; [done|]. by left.
Qed.

Lemma partition_point_nil {A} (p : A → bool) (l : list A) :
  partition_point p l = [] ↔ Forall (λ x, p x = true) l.
Proof.
  induction l as [|x l IH]; simpl; [by split; [constructor|]|].
  rewrite Forall_cons -IH. destruct (p x); split; naive_solver.
Qed.

(** ** Lists *)
Lemma elem_of_merge_sort {A} (R : relation A) `{!∀ x y, Decision (R x y)} (l : list A) x :
  x ∈ merge_sort R l ↔ x ∈ l.
Proof. by rewrite merge_sort_Permutation. Qed.

Lemma length_merge_sort {A} (R : relation A) `{!∀ x y, Decision (R x y)} (l : list A) :
  length (merge_sort R l) = length l.
Proof. by rewrite merge_sort_Permutation. Qed.

Lemma list_filter_all {A} (P : A → Prop) `{!∀ x, Decision (P x)} (l : list A) :
  Forall P l → filter P l = l.
Proof.
  induction 1 as [|x l Hx _ IH]; [done|]. rewrite filter_cons_True //. by rewrite IH.
Qed.

Lemma list_filter_none {A} (P : A → Prop) `{!∀ x, Decision (P x)} (l : list A) :
  Forall (λ x, ¬ P x) l → filter P l = [].
Proof. induction 1 as [|x l Hx _ IH]; [done|]. by rewrite filter_cons_False. Qed.

Lemma list_filter_ext_in {A} (P Q : A → Prop) `{!∀ x, Decision (P x), !∀ x, Decision (Q x)} (l : list A) :
  (∀ x, x ∈ l → P x ↔ Q x) → filter P l = filter Q l.
Proof.
  induction l as [|x l IH]; intros Hx; [done|]. rewrite !filter_cons.
  assert (filter P l = filter Q l) as -> by (apply IH; intros y Hy; apply Hx; by right).
  pose proof (Hx x ltac:(by left)) as E. do 2 case_decide; tauto || done.
Qed.

Lemma list_filter_complement {A} (P : A → Prop) `{!∀ x, Decision (P x)} (l : list A) :
  l ≡ₚ filter P l ++ filter (λ x, ¬ P x) l.
Proof.
  induction l as [|x l IH]; [done|]. destruct (decide (P x)).
  - rewrite filter_cons_True // filter_cons_False; [naive_solver|]. simpl. by rewrite -IH.
  - rewrite filter_cons_False // filter_cons_True //. rewrite {1}IH. apply Permutation_middle.
Qed.

Lemma fmap_Permutation_inv {A B} (f : A → B) (l1 : list B) (l2 : list A) :
  l1 ≡ₚ f <$> l2 → ∃ l3, l1 = f <$> l3 ∧ l2 ≡ₚ l3.
Proof. apply Permutation_map_inv. Qed.

Lemma NoDup_fmap_elem {A B} (f : A → B) (l : list A) x y : NoDup (f <$> l) → x ∈ l → y ∈ l → f x = f y → x = y.
Proof.
  induction l as [|z l IH]; [by intros _ ?%elem_of_nil|]. rewrite fmap_cons. intros [Hn Hnd]%NoDup_cons.
  assert (∀ w, w ∈ l → f w ≠ f z) as Hz. { intros w Hw E. apply Hn. rewrite -E. by apply list_elem_of_fmap_2. }
  intros [->|Hx]%elem_of_cons [->|Hy]%elem_of_cons E; [done|by destruct (Hz y Hy)|by destruct (Hz x Hx)|by apply IH].
Qed.

(** ** Ordered maps

    A [std::map<std::string, V>] is a [gmap string V] for lookups, and its iteration order is that of
    [smap_to_list]: ascending keys. *)
Definition key_le {V} (x y : string * V) : Prop := String.le x.1 y.1.
Definition key_lt {V} (x y : string * V) : Prop := str_lt x.1 y.1.

#[export] Instance key_le_dec {V} : RelDecision (@key_le V).
Proof. intros x y. unfold key_le. apply _. Defined.
#[export] Instance key_le_total {V} : Total (@key_le V).
Proof. intros x y. apply (total String.le). Qed.
#[export] Instance key_le_trans {V} : Transitive (@key_le V).
Proof. intros x y z. unfold key_le. apply transitivity. Qed.

Definition smap_to_list {V} (m : gmap string V) : list (string * V) :=
  merge_sort key_le (map_to_list m).

Lemma elem_of_smap_to_list {V} (m : gmap string V) k v :
  (k, v) ∈ smap_to_list m ↔ m !! k = Some v.
Proof. by rewrite /smap_to_list elem_of_merge_sort elem_of_map_to_list. Qed.

Lemma StronglySorted_strict {A} (R S : relation A) (l : list A) :
  StronglySorted R l → NoDup l → (∀ x y, x ∈ l → y ∈ l → R x y → x ≠ y → S x y) → StronglySorted S l.
Proof.
  induction 1 as [|x l Hl IH Hx]; [constructor|]. intros [Hnin Hnd]%NoDup_cons HRS. constructor.
  - apply IH; [done|]. intros y z ??. apply HRS; by right.
  - rewrite !Forall_forall in Hx |- *. intros y Hy. apply HRS; [by left|by right|by apply Hx|].
    intros ->. done.
Qed.

Lemma smap_to_list_sorted {V} (m : gmap string V) : StronglySorted key_lt (smap_to_list m).
Proof.
  apply (StronglySorted_strict key_le).
  - apply StronglySorted_merge_sort; apply _.
  - rewrite /smap_to_list merge_sort_Permutation. apply NoDup_map_to_list.
  - intros [k1 v1] [k2 v2] H1%elem_of_smap_to_list H2%elem_of_smap_to_list Hle Hne.
    apply str_lt_iff. split; [done|]. simpl. intros ->. congruence.
Qed.

Fixpoint take_while {A} (p : A → bool) (l : list A) : list A :=
  match l with
  | [] => []
  | x :: l' => if p x then x :: take_while p l' else []
  end.

Lemma take_while_filter {A} (R : relation A) (p : A → bool) (l : list A) :
  StronglySorted R l → (∀ x y, R x y → p y = true → p x = true) →
  take_while p l = filter (λ x, p x = true) l.
Proof.
  intros Hs Hdown. induction Hs as [|x l Hs IH Hx]; [done|]. simpl. destruct (p x) eqn:E.
  - rewrite filter_cons_True //. by rewrite IH.
  - rewrite filter_cons_False; [by rewrite E|]. rewrite list_filter_none //.
    eapply Forall_impl; [exact Hx|]. intros y HR Hpy. by rewrite (Hdown x y) in E.
Qed.

Lemma partition_point_filter {A} (R : relation A) (p : A → bool) (l : list A) :
  StronglySorted R l → (∀ x y, R x y → p y = true → p x = true) →
  partition_point p l = filter (λ x, p x = false) l.
Proof.
  intros Hs Hdown. induction Hs as [|x l Hs IH Hx]; [done|]. simpl. destruct (p x) eqn:E.
  - rewrite filter_cons_False; [by rewrite E|]. done.
  - rewrite filter_cons_True //. rewrite list_filter_all //.
    eapply Forall_impl; [exact Hx|]. intros y HR. destruct (p y) eqn:Ey; [|done].
    by rewrite (Hdown x y) in E.
Qed.

Lemma StronglySorted_filter {A} (R : relation A) (P : A → Prop) `{!∀ x, Decision (P x)} (l : list A) :
  StronglySorted R l → StronglySorted R (filter P l).
Proof.
  induction 1 as [|x l Hl IH Hx]; [constructor|]. destruct (decide (P x)).
  - rewrite filter_cons_True //. constructor; [done|].
    rewrite !Forall_forall in Hx |- *. intros y [_ Hy]%list_elem_of_filter. by apply Hx.
  - by rewrite filter_cons_False.
Qed.

Lemma StronglySorted_NoDup {A} (R : relation A) `{!Irreflexive R} (l : list A) : StronglySorted R l → NoDup l.
Proof.
  induction 1 as [|x l Hl IH Hx]; constructor; [|done]. intros Hin. rewrite Forall_forall in Hx.
  by apply (irreflexivity R x), Hx.
Qed.

(** The loop [for (it = m.lower_bound(key); it != m.end() && it->first < rangeEnd; ++it)]. *)
Definition smap_range {V} (m : gmap string V) (key rangeEnd : string) : list (string * V) :=
  take_while (λ kv, bool_decide (str_lt kv.1 rangeEnd))
    (partition_point (λ kv, bool_decide (str_lt kv.1 key)) (smap_to_list m)).

Lemma smap_range_filter {V} (m : gmap string V) key rangeEnd :
  smap_range m key rangeEnd =
    filter (λ kv, bool_decide (str_lt kv.1 rangeEnd) = true)
      (filter (λ kv, bool_decide (str_lt kv.1 key) = false) (smap_to_list m)).
Proof.
  assert (∀ (b : string) (x y : string * V), key_lt x y → bool_decide (str_lt y.1 b) = true →
    bool_decide (str_lt x.1 b) = true) as Hdown.
  { intros b x y Hxy ?%bool_decide_eq_true. apply bool_decide_eq_true. by trans y.1. }
  pose proof (smap_to_list_sorted m) as Hs. rewrite /smap_range.
  rewrite (partition_point_filter key_lt _ _ Hs (Hdown key)).
  apply (take_while_filter key_lt); [by apply StronglySorted_filter|by apply Hdown].
Qed.

Lemma elem_of_smap_range {V} (m : gmap string V) key rangeEnd k v :
  (k, v) ∈ smap_range m key rangeEnd ↔ m !! k = Some v ∧ String.le key k ∧ str_lt k rangeEnd.
Proof.
  rewrite smap_range_filter !list_elem_of_filter elem_of_smap_to_list /=.
  rewrite bool_decide_eq_true bool_decide_eq_false str_nlt_le. naive_solver.
Qed.

Lemma smap_range_sorted {V} (m : gmap string V) key rangeEnd :
  StronglySorted key_lt (smap_range m key rangeEnd).
Proof. rewrite smap_range_filter. do 2 apply StronglySorted_filter. apply smap_to_list_sorted. Qed.

(** ** Key scopes

    The coordinator describes a set of keys by a start key and an exclusive end, an empty end meaning the
    start key alone. *)
Definition empty_str (s : string) : bool := bool_decide (s = "").

Lemma empty_str_true s : empty_str s = true ↔ s = "".
Proof. apply bool_decide_eq_true. Qed.
Lemma empty_str_false s : empty_str s = false ↔ s ≠ "".
Proof. apply bool_decide_eq_false. Qed.

(** Membership in [[key, rangeEnd)], an empty [rangeEnd] meaning the key itself. *)
Definition in_scope (k key rangeEnd : string) : Prop :=
  if empty_str rangeEnd then k = key else String.le key k ∧ str_lt k rangeEnd.

#[export] Instance in_scope_dec k key rangeEnd : Decision (in_scope k key rangeEnd).
Proof. unfold in_scope. destruct (empty_str rangeEnd); apply _. Defined.

(** ** Strings by characters *)
(** [find(c)]: the parts before and after the first occurrence. *)
Fixpoint split_first (c : ascii) (s : list ascii) : option (list ascii * list ascii) :=
  match s with
  | [] => None
  | x :: s' => if bool_decide (x = c) then Some ([], s')
               else match split_first c s' with Some (l, r) => Some (x :: l, r) | None => None end
  end.

Lemma split_first_app c l r : (c ∉ l) → split_first c (l ++ c :: r) = Some (l, r).
Proof.
  induction l as [|x l IH]; intros Hn; simpl.
  - by rewrite bool_decide_eq_true_2.
  - apply not_elem_of_cons in Hn as [Hx Hn]. rewrite bool_decide_eq_false_2; [congruence|]. by rewrite IH.
Qed.

Lemma split_first_none c l : (c ∉ l) → split_first c l = None.
Proof.
  induction l as [|x l IH]; intros Hn; simpl; [done|].
  apply not_elem_of_cons in Hn as [Hx Hn]. rewrite bool_decide_eq_false_2; [congruence|]. by rewrite IH.
Qed.

(** ** Automation

    [ds] collects the lemmas that close the common side conditions (string order, machine ranges);
    [case_guards] splits the guards of a translated operation. *)
Create HintDb ds discriminated.
#[export] Hint Resolve u32_range u64_range i64_range str_lt_le : ds.

Ltac case_guards :=
  repeat match goal with
  | H : context [if ?b then _ else _] |- _ => let E := fresh "Hg" in destruct b eqn:E; simplify_eq/=
  | |- context [if ?b then _ else _] => let E := fresh "Hg" in destruct b eqn:E; simplify_eq/=
  end.

Ltac inv_res :=
  repeat match goal with
  | H : res_bind _ _ = Ok _ |- _ => apply res_bind_Ok in H as (? & ? & ?)
  | H : Ok _ = Ok _ |- _ => injection H as H
  | H : Fail _ = Ok _ |- _ => discriminate H
  end.
