(* ===== verification/MemoryKvStore.v ===== *)
(** * MemoryKvStore: the coordinator's in-memory key-value store

    Model of [src/datasystem/common/coordinator/memory_kv_store.{h,cpp}] with the entry and event types of
    [key_value_entry.h] and [watch_event.h].

    The store is [data_] (a [std::map]), the global revision [revision_] (an [std::atomic<int64_t>],
    wrapping) and whether a mutation callback is installed.  Every operation runs under [mutex_], so it is
    one state transition; the events it hands to [mutationCallback_] after releasing the lock are returned
    as a list, in call order.  [entry.version++] is written with its two's complement wrap-around; that it
    never wraps (where C++ has no defined behaviour) is part of [kv_step_wf]. *)
From S2P Require Import Prelude.

Module MemoryKvStore.
Local Open Scope Z_scope.

Definition COORDINATOR_NO_VERSION_CHECK : Z := -1.
Definition COORDINATOR_KEY_NOT_EXISTS_VERSION : Z := 0.
Definition COORDINATOR_NO_MOD_REVISION_CHECK : Z := 0.
Definition COORDINATOR_NO_GLOBAL_REVISION_CHECK : Z := 0.

Record KeyValueEntry := MkKeyValueEntry {
  kv_key : string;
  kv_value : string;
  kv_version : Z;
  kv_modRevision : Z }.

#[export] Instance KeyValueEntry_eq_dec : EqDecision KeyValueEntry.
Proof. solve_decision. Defined.

Inductive WatchEventType := PUT | DELETE | REWATCH.

#[export] Instance WatchEventType_eq_dec : EqDecision WatchEventType.
Proof. solve_decision. Defined.

Record WatchEvent := MkWatchEvent {
  ev_type : WatchEventType;
  ev_entry : KeyValueEntry;
  ev_revision : Z }.

#[export] Instance WatchEvent_eq_dec : EqDecision WatchEvent.
Proof. solve_decision. Defined.

Record ValueEntry := MkValueEntry {
  value : string;
  version : Z;
  createRevision : Z;
  modRevision : Z;
  ttlMs : Z;
  ttlGeneration : Z }.

Record store := MkStore {
  data_ : gmap string ValueEntry;
  revision_ : Z;
  mutationCallback_ : bool }.

(** A freshly constructed store. *)
Definition init : store := MkStore ∅ 1 false.

Definition SetMutationCallback (s : store) (installed : bool) : store :=
  MkStore (data_ s) (revision_ s) installed.

Definition CurrentRevision (s : store) : Z := revision_ s.

(** [KeyValueEntry{ it->first, it->second.value, it->second.version, it->second.modRevision }]. *)
Definition entry_of (k : string) (e : ValueEntry) : KeyValueEntry :=
  MkKeyValueEntry k (value e) (version e) (modRevision e).

(** The CAS guards of [Put], in the order of the code. *)
Definition put_guard (s : store) (it : option ValueEntry)
    (expectedVersion expectedModRevision expectedGlobalRevision : Z) : res unit :=
  if negb (expectedGlobalRevision =? COORDINATOR_NO_GLOBAL_REVISION_CHECK)
     && negb (revision_ s =? expectedGlobalRevision)
  then Fail K_TRY_AGAIN
  else if negb (expectedModRevision =? COORDINATOR_NO_MOD_REVISION_CHECK)
     && negb (match it with Some e => modRevision e =? expectedModRevision | None => false end)
  then Fail K_TRY_AGAIN
  else if expectedVersion =? COORDINATOR_KEY_NOT_EXISTS_VERSION
  then match it with Some _ => Fail K_INVALID | None => Ok tt end
  else if negb (expectedVersion =? COORDINATOR_NO_VERSION_CHECK)
  then match it with
       | None => Fail K_NOT_FOUND
       | Some e => if negb (version e =? expectedVersion) then Fail K_INVALID else Ok tt
       end
  else Ok tt.

(** The entry [Put] leaves in the map. *)
Definition put_entry (it : option ValueEntry) (val : string) (ttl newRevision : Z) : ValueEntry :=
  match it with
  | Some e => MkValueEntry val (i64 (version e + 1)) (createRevision e) newRevision ttl
                (u64 (ttlGeneration e + 1))
  | None => MkValueEntry val 1 newRevision newRevision ttl 1
  end.

Definition Put (s : store) (key val : string) (ttl expectedVersion expectedModRevision
    expectedGlobalRevision : Z) : store * list WatchEvent * res (Z * Z * Z) :=
  let it := data_ s !! key in
  match put_guard s it expectedVersion expectedModRevision expectedGlobalRevision with
  | Fail c => (s, [], Fail c)
  | Ok _ =>
    let newRevision := i64 (revision_ s + 1) in
    let stored := put_entry it val ttl newRevision in
    let event := MkWatchEvent PUT (entry_of key stored) newRevision in
    (MkStore (<[key := stored]> (data_ s)) newRevision (mutationCallback_ s),
     if mutationCallback_ s then [event] else [],
     Ok (version stored, newRevision, ttlGeneration stored))
  end.

(** The positions [Range] and [Delete] visit: one exact key, or [[key, rangeEnd)]. *)
Definition in_range_list (s : store) (key rangeEnd : string) : list (string * ValueEntry) :=
  if empty_str rangeEnd
  then match data_ s !! key with Some e => [(key, e)] | None => [] end
  else smap_range (data_ s) key rangeEnd.

(** [kvs] is the in-out vector the results are appended to. *)
Definition Range (s : store) (key rangeEnd : string) (kvs : list KeyValueEntry)
    : list KeyValueEntry * Z :=
  (kvs ++ map (λ ke, entry_of ke.1 ke.2) (in_range_list s key rangeEnd), revision_ s).

Definition erase_all (d : gmap string ValueEntry) (toDelete : list (string * ValueEntry))
    : gmap string ValueEntry :=
  foldl (λ d ke, delete ke.1 d) d toDelete.

Definition Delete (s : store) (key rangeEnd : string) (deletedEntries : list KeyValueEntry)
    (expectedModRevision : Z) : store * list WatchEvent * res (Z * Z * list KeyValueEntry) :=
  if negb (expectedModRevision =? COORDINATOR_NO_MOD_REVISION_CHECK) && negb (empty_str rangeEnd)
  then (s, [], Fail K_INVALID)
  else
    match in_range_list s key rangeEnd with
    | [] => (s, [], Ok (0, revision_ s, deletedEntries))
    | (front :: _) as toDelete =>
      if negb (expectedModRevision =? COORDINATOR_NO_MOD_REVISION_CHECK)
         && negb (modRevision front.2 =? expectedModRevision)
      then (s, [], Fail K_TRY_AGAIN)
      else
        let newRevision := i64 (revision_ s + 1) in
        let kves := map (λ ke, entry_of ke.1 ke.2) toDelete in
        let deleted' := deletedEntries ++ kves in
        (MkStore (erase_all (data_ s) toDelete) newRevision (mutationCallback_ s),
         if mutationCallback_ s then map (λ kve, MkWatchEvent DELETE kve newRevision) kves else [],
         Ok (i64 (Z.of_nat (length deleted')), newRevision, deleted'))
    end.

Definition DeleteIfTtlExpired (s : store) (key : string) (revision generation : Z)
    : store * list WatchEvent * bool :=
  match data_ s !! key with
  | None => (s, [], false)
  | Some e =>
    if negb (modRevision e =? revision) then (s, [], false)
    else if (ttlMs e <=? 0) || negb (ttlGeneration e =? generation) then (s, [], false)
    else
      let deleteRevision := i64 (revision_ s + 1) in
      (MkStore (delete key (data_ s)) deleteRevision (mutationCallback_ s),
       if mutationCallback_ s then [MkWatchEvent DELETE (entry_of key e) deleteRevision] else [],
       true)
  end.

(** Returns [(ttlMs, remainingTtlMs, revision, ttlGeneration)]. *)
Definition KeepAlive (s : store) (key : string) (expectedModRevision : Z)
    : store * res (Z * Z * Z * Z) :=
  match data_ s !! key with
  | None => (s, Fail K_NOT_FOUND)
  | Some e =>
    if ttlMs e <=? 0 then (s, Fail K_NOT_FOUND)
    else if negb (expectedModRevision =? COORDINATOR_NO_MOD_REVISION_CHECK)
       && negb (modRevision e =? expectedModRevision)
    then (s, Fail K_TRY_AGAIN)
    else
      let e' := MkValueEntry (value e) (version e) (createRevision e) (modRevision e) (ttlMs e)
                  (u64 (ttlGeneration e + 1)) in
      (MkStore (<[key := e']> (data_ s)) (revision_ s) (mutationCallback_ s),
       Ok (ttlMs e', ttlMs e', modRevision e', ttlGeneration e'))
  end.

(** ** Histories

    The mutating calls of the store, and a sequential history of them. *)
Inductive kv_op :=
| OpPut (key val : string) (ttl expectedVersion expectedModRevision expectedGlobalRevision : Z)
| OpDelete (key rangeEnd : string) (expectedModRevision : Z)
| OpExpire (key : string) (revision generation : Z)
| OpKeepAlive (key : string) (expectedModRevision : Z).

Definition kv_step (s : store) (op : kv_op) : store * list WatchEvent :=
  match op with
  | OpPut k v ttl ev em eg => (Put s k v ttl ev em eg).1
  | OpDelete k re em => (Delete s k re [] em).1
  | OpExpire k rv g => (DeleteIfTtlExpired s k rv g).1
  | OpKeepAlive k em => ((KeepAlive s k em).1, [])
  end.

Fixpoint kv_run (s : store) (ops : list kv_op) : store * list WatchEvent :=
  match ops with
  | [] => (s, [])
  | op :: ops' => let '(s1, es) := kv_step s op in let '(s2, es') := kv_run s1 ops' in (s2, es ++ es')
  end.

(** ** The reader's view

    What [Range] shows of each key, and the effect of a watch event on a reader that keeps a copy. *)
Definition view (s : store) : gmap string KeyValueEntry := map_imap (λ k e, Some (entry_of k e)) (data_ s).

Definition apply_event (m : gmap string KeyValueEntry) (e : WatchEvent) : gmap string KeyValueEntry :=
  match ev_type e with
  | PUT => <[kv_key (ev_entry e) := ev_entry e]> m
  | DELETE => delete (kv_key (ev_entry e)) m
  | REWATCH => m
  end.

(** ** Well-formedness

    [kv_wf] relates the counters of every entry to the global revision; [kv_budget n] says that [n] more
    mutations stay within the machine widths. *)
Definition entry_wf (rev : Z) (e : ValueEntry) : Prop :=
  1 ≤ version e ∧ 2 ≤ createRevision e ∧ createRevision e + version e - 1 ≤ modRevision e ∧ modRevision e ≤ rev.

Definition kv_wf (s : store) : Prop :=
  1 ≤ revision_ s
  ∧ (∀ k e, data_ s !! k = Some e → entry_wf (revision_ s) e)
  ∧ (∀ k1 k2 e1 e2, data_ s !! k1 = Some e1 → data_ s !! k2 = Some e2 →
       modRevision e1 = modRevision e2 → k1 = k2).

Definition kv_budget (n : nat) (s : store) : Prop :=
  revision_ s + Z.of_nat n ≤ INT64_MAX
  ∧ ∀ k e, data_ s !! k = Some e → 0 ≤ ttlGeneration e ∧ ttlGeneration e + Z.of_nat n < 2 ^ 64.

(** ** Lemmas on the maps *)
Lemma lookup_view s k : view s !! k = entry_of k <$> data_ s !! k.
Proof. rewrite /view map_lookup_imap. by destruct (data_ s !! k). Qed.

Lemma lookup_erase_all (l : list (string * ValueEntry)) d (k : string) :
  erase_all d l !! k = if decide (k ∈ l.*1) then None else d !! k.
Proof.
  revert d. induction l as [|[k' e] l IH]; intros d.
  - case_decide as Hin; [by apply elem_of_nil in Hin|done].
  - change (erase_all d ((k', e) :: l)) with (erase_all (delete k' d) l). rewrite IH fmap_cons /=.
    destruct (decide (k ∈ l.*1)) as [Hin|Hin]; case_decide as Hin'; try done.
    + destruct Hin'. by right.
    + apply elem_of_cons in Hin' as [->|?]; [apply lookup_delete_eq|done].
    + rewrite lookup_delete_ne //. intros ->. destruct Hin'. by left.
Qed.

Lemma elem_of_in_range_list s key rangeEnd k e :
  (k, e) ∈ in_range_list s key rangeEnd ↔ data_ s !! k = Some e ∧ in_scope k key rangeEnd.
Proof.
  rewrite /in_range_list /in_scope. destruct (empty_str rangeEnd).
  - destruct (data_ s !! key) as [e'|] eqn:E; simpl.
    + rewrite list_elem_of_singleton. split; [intros [= -> ->]; done|]. intros [? ->]. by simplify_eq.
    + split; [by inversion 1|]. intros [? ->]. by simplify_eq.
  - apply elem_of_smap_range.
Qed.

Lemma in_range_list_keys s key rangeEnd k :
  k ∈ (in_range_list s key rangeEnd).*1 ↔ is_Some (data_ s !! k) ∧ in_scope k key rangeEnd.
Proof.
  rewrite list_elem_of_fmap. split.
  - intros ([k' e] & -> & [??]%elem_of_in_range_list). eauto.
  - intros [[e ?] ?]. exists (k, e). by rewrite elem_of_in_range_list.
Qed.

Lemma in_range_list_sorted s key rangeEnd : StronglySorted key_lt (in_range_list s key rangeEnd).
Proof.
  rewrite /in_range_list. destruct (empty_str rangeEnd); [|apply smap_range_sorted].
  destruct (data_ s !! key); repeat constructor.
Qed.

(** ** [Put] *)

(** The conditions under which [Put] commits. *)
Definition put_allowed (s : store) (key : string) (ev em eg : Z) : Prop :=
  (eg = COORDINATOR_NO_GLOBAL_REVISION_CHECK ∨ eg = revision_ s)
  ∧ (em = COORDINATOR_NO_MOD_REVISION_CHECK ∨ ∃ e, data_ s !! key = Some e ∧ modRevision e = em)
  ∧ (ev = COORDINATOR_NO_VERSION_CHECK
     ∨ (ev = COORDINATOR_KEY_NOT_EXISTS_VERSION ∧ data_ s !! key = None)
     ∨ (ev ≠ COORDINATOR_KEY_NOT_EXISTS_VERSION ∧ ∃ e, data_ s !! key = Some e ∧ version e = ev)).

Lemma put_guard_ok s key ev em eg u :
  put_guard s (data_ s !! key) ev em eg = Ok u ↔ put_allowed s key ev em eg.
Proof.
  rewrite /put_guard /put_allowed /COORDINATOR_NO_GLOBAL_REVISION_CHECK /COORDINATOR_NO_MOD_REVISION_CHECK
    /COORDINATOR_NO_VERSION_CHECK /COORDINATOR_KEY_NOT_EXISTS_VERSION.
  destruct u, (Z.eqb_spec eg 0), (Z.eqb_spec (revision_ s) eg), (Z.eqb_spec em 0); simpl;
    destruct (data_ s !! key) as [x|]; simpl; try destruct (Z.eqb_spec (modRevision x) em); simpl;
    destruct (Z.eqb_spec ev 0), (Z.eqb_spec ev (-1)); simpl;
    try destruct (Z.eqb_spec (version x) ev); simpl; split; intros; try done; naive_solver lia.
Qed.

Lemma Put_frame s key val ttl ev em eg k :
  k ≠ key → data_ (Put s key val ttl ev em eg).1.1 !! k = data_ s !! k.
Proof. intros. rewrite /Put. destruct put_guard; [|done]. by rewrite /= lookup_insert_ne. Qed.

(** ** Replaying the events of one step gives the new view *)
Lemma view_insert s d r cb k e :
  data_ s = d → view (MkStore (<[k := e]> d) r cb) = <[k := entry_of k e]> (view s).
Proof.
  intros <-. apply map_eq. intros k'. rewrite lookup_view /=.
  destruct (decide (k = k')) as [->|]; [by rewrite !lookup_insert_eq|].
  by rewrite !lookup_insert_ne // lookup_view.
Qed.

Lemma foldl_delete_events (l : list (string * ValueEntry)) rev (m : gmap string KeyValueEntry) :
  foldl apply_event m (map (λ kve, MkWatchEvent DELETE kve rev) (map (λ ke, entry_of ke.1 ke.2) l))
  = foldl (λ m ke, delete ke.1 m) m l.
Proof. revert m. induction l as [|[k e] l IH]; intros m; simpl; [done|]. by rewrite IH. Qed.

Lemma view_erase_all s l r cb :
  view (MkStore (erase_all (data_ s) l) r cb) = foldl (λ m ke, delete ke.1 m) (view s) l.
Proof.
  revert s. induction l as [|[k e] l IH]; intros s; simpl.
  - apply map_eq. intros k. by rewrite !lookup_view.
  - rewrite (IH (MkStore (delete k (data_ s)) r cb)). f_equal. apply map_eq. intros k'.
    rewrite lookup_view /=. destruct (decide (k = k')) as [->|]; [by rewrite !lookup_delete_eq|].
    by rewrite !lookup_delete_ne // lookup_view.
Qed.

Lemma kv_step_callback s op : mutationCallback_ (kv_step s op).1 = mutationCallback_ s.
Proof.
  destruct op; simpl.
  - rewrite /Put. by destruct put_guard.
  - rewrite /Delete. case_match; [done|]. case_match; [done|]. by case_match.
  - rewrite /DeleteIfTtlExpired. by repeat case_match.
  - rewrite /KeepAlive. by repeat case_match.
Qed.

Lemma kv_step_replay s op :
  mutationCallback_ s = true →
  foldl apply_event (view s) (kv_step s op).2 = view (kv_step s op).1.
Proof.
  intros Hcb. destruct op as [k v ttl ev em eg|k re em|k rv g|k em]; simpl.
  - rewrite /Put. destruct put_guard; [|done]. by rewrite Hcb /= (view_insert s).
  - rewrite /Delete. case_match; [done|]. destruct in_range_list as [|front l] eqn:El; [done|].
    case_match; [done|]. rewrite Hcb view_erase_all. apply (foldl_delete_events (front :: l)).
  - rewrite /DeleteIfTtlExpired. destruct (data_ s !! k) as [e|] eqn:E; [|done].
    do 2 (case_match; [done|]). rewrite Hcb /=. symmetry. apply (view_erase_all s [(k, e)]).
  - rewrite /KeepAlive. destruct (data_ s !! k) as [e|] eqn:E; [|done].
    do 2 (case_match; [done|]). rewrite /= (view_insert s) //. symmetry. apply insert_id.
    by rewrite lookup_view E.
Qed.

(** ** The counters *)
Lemma kv_budget_le n m s : (m ≤ n)%nat → kv_budget n s → kv_budget m s.
Proof. intros Hle [Hr Hg]. split; [lia|]. intros k e He. specialize (Hg k e He). lia. Qed.

Lemma kv_budget_1_pos n s : kv_wf s → kv_budget (S n) s → Z.of_nat n < INT64_MAX.
Proof. intros [? _] [? _]. lia. Qed.

Lemma kv_wf_delete s l :
  kv_wf s → kv_budget 1 s →
  kv_wf (MkStore (erase_all (data_ s) l) (i64 (revision_ s + 1)) (mutationCallback_ s)).
Proof.
  intros (Hr & He & Hu) [Hb _]. rewrite i64_small; [unfold INT64_MAX in *; lia|]. split; [simpl; lia|].
  assert (∀ k e, erase_all (data_ s) l !! k = Some e → data_ s !! k = Some e) as Hsub.
  { intros k e. rewrite lookup_erase_all. by case_decide. }
  split; simpl.
  - intros k e Hk%Hsub. specialize (He k e Hk) as (?&?&?&?). split_and!; lia.
  - intros k1 k2 e1 e2 H1%Hsub H2%Hsub. by apply Hu.
Qed.

Lemma kv_step_wf s op : kv_wf s → kv_budget 1 s → kv_wf (kv_step s op).1.
Proof.
  intros Hwf Hbud. pose proof Hwf as (Hr & He & Hu). pose proof Hbud as [Hb _].
  destruct op as [k v ttl ev em eg|k re em|k rv g|k em]; simpl.
  - rewrite /Put. destruct put_guard; [|done]. rewrite i64_small; [unfold INT64_MAX in *; lia|]. simpl.
    assert (entry_wf (revision_ s + 1) (put_entry (data_ s !! k) v ttl (revision_ s + 1))
      ∧ modRevision (put_entry (data_ s !! k) v ttl (revision_ s + 1)) = revision_ s + 1) as [Hnew Hmod].
    { destruct (data_ s !! k) as [e|] eqn:E; (split; [|done]); simpl; [|split_and!; simpl; lia].
      destruct (He _ _ E) as (?&?&?&?). split_and!; simpl; rewrite ?i64_small; unfold INT64_MAX in *; lia. }
    split; [simpl; lia|]. split; simpl.
    + intros k' e'. rewrite lookup_insert. case_decide; [by intros [= <-]|]. intros Hk'.
      destruct (He _ _ Hk') as (?&?&?&?). split_and!; lia.
    + intros k1 k2 e1 e2. rewrite !lookup_insert.
      case_decide as D1; case_decide as D2; intros H1 H2; simplify_eq; try done.
      * rewrite Hmod. intros Heq. destruct (He _ _ H2) as (?&?&?&?). lia.
      * rewrite Hmod. intros Heq. destruct (He _ _ H1) as (?&?&?&?). lia.
      * by apply (Hu _ _ _ _ H1 H2).
  - rewrite /Delete. case_match; [done|]. destruct in_range_list as [|front l] eqn:El; [done|].
    case_match; [done|]. by apply kv_wf_delete.
  - rewrite /DeleteIfTtlExpired. destruct (data_ s !! k) as [e|]; [|done].
    do 2 (case_match; [done|]). by apply (kv_wf_delete s [(k, e)]).
  - rewrite /KeepAlive. destruct (data_ s !! k) as [e|] eqn:E; [|done].
    do 2 (case_match; [done|]). split; [done|]. split; simpl.
    + intros k' e'. rewrite lookup_insert. case_decide; [|by apply He]. intros [= <-]. by apply (He k e).
    + intros k1 k2 e1 e2. rewrite !lookup_insert.
      case_decide as D1; case_decide as D2; intros H1 H2; simplify_eq; simpl; try done.
      * by apply (Hu _ _ _ _ E H2).
      * by apply (Hu _ _ _ _ H1 E).
      * by apply (Hu _ _ _ _ H1 H2).
Qed.

Lemma kv_step_revision s op :
  kv_wf s → kv_budget 1 s →
  (revision_ (kv_step s op).1 = revision_ s ∧ (kv_step s op).2 = [])
  ∨ (revision_ (kv_step s op).1 = revision_ s + 1
     ∧ Forall (λ e, ev_revision e = revision_ s + 1) (kv_step s op).2).
Proof.
  intros Hwf [Hb _]. pose proof Hwf as [Hr _].
  assert (i64 (revision_ s + 1) = revision_ s + 1) as Hi by (apply i64_small; unfold INT64_MAX in *; lia).
  destruct op as [k v ttl ev em eg|k re em|k rv g|k em]; simpl.
  - rewrite /Put. destruct put_guard; [|by left]. right. rewrite /= Hi. split; [done|].
    destruct mutationCallback_; repeat constructor.
  - rewrite /Delete. case_match; [by left|]. destruct in_range_list as [|front l] eqn:El; [by left|].
    case_match; [by left|]. right. rewrite /= Hi. split; [done|].
    destruct mutationCallback_; [|constructor]. constructor; [done|].
    apply Forall_forall. intros e (kve & <- & _)%list_elem_of_In%in_map_iff. done.
  - rewrite /DeleteIfTtlExpired. destruct (data_ s !! k) as [e|]; [|by left].
    do 2 (case_match; [by left|]). right. rewrite /= Hi. split; [done|].
    destruct mutationCallback_; repeat constructor.
  - left. rewrite /KeepAlive. by repeat case_match.
Qed.

Lemma kv_step_budget s op n : kv_wf s → kv_budget (S n) s → kv_budget n (kv_step s op).1.
Proof.
  intros Hwf Hbud. pose proof (kv_budget_1_pos _ _ Hwf Hbud) as Hn. pose proof Hbud as [Hb Hg].
  assert (kv_budget 1 s) as Hb1 by (eapply kv_budget_le; [|done]; lia). split.
  { destruct (kv_step_revision s op Hwf Hb1) as [[-> _]|[-> _]]; lia. }
  assert (∀ k e, data_ s !! k = Some e → 0 ≤ ttlGeneration e ∧ ttlGeneration e + Z.of_nat n < 2 ^ 64) as Hold.
  { intros k e He. specialize (Hg k e He). lia. }
  assert (∀ k e, data_ s !! k = Some e →
    0 ≤ u64 (ttlGeneration e + 1) ∧ u64 (ttlGeneration e + 1) + Z.of_nat n < 2 ^ 64) as Hnew.
  { intros k e He. specialize (Hg k e He). rewrite u64_small; lia. }
  intros k' e'. destruct op as [k v ttl ev em eg|k re em|k rv g|k em]; simpl.
  - rewrite /Put. destruct put_guard; [|by apply Hold]. rewrite /= lookup_insert. case_decide; [|by apply Hold].
    intros [= <-]. destruct (data_ s !! k) as [e|] eqn:E; simpl; [by eapply Hnew|].
    unfold INT64_MAX in *. lia.
  - rewrite /Delete. case_match; [by apply Hold|]. destruct in_range_list as [|front l] eqn:El; [by apply Hold|].
    case_match; [by apply Hold|]. cbn [data_ fst]. rewrite lookup_erase_all. case_decide; [done|]. by apply Hold.
  - rewrite /DeleteIfTtlExpired. destruct (data_ s !! k) as [e|]; [|by apply Hold].
    do 2 (case_match; [by apply Hold|]). simpl. intros [_ ?]%lookup_delete_Some. by eapply Hold.
  - rewrite /KeepAlive. destruct (data_ s !! k) as [e|] eqn:E; [|by apply Hold].
    do 2 (case_match; [by apply Hold|]). rewrite /= lookup_insert. case_decide; [|by apply Hold].
    intros [= <-]. simpl. by eapply Hnew.
Qed.

(** Induction over a history that stays within the machine widths. *)
Lemma kv_run_ind (P : store → list kv_op → Prop) :
  (∀ s, kv_wf s → P s []) →
  (∀ s op ops, kv_wf s → kv_budget (S (length ops)) s → kv_wf (kv_step s op).1 →
     P (kv_step s op).1 ops → P s (op :: ops)) →
  ∀ ops s, kv_wf s → kv_budget (length ops) s → P s ops.
Proof.
  intros Hnil Hcons. induction ops as [|op ops IH]; intros s Hwf Hb; [by apply Hnil|].
  assert (kv_wf (kv_step s op).1) as Hwf'.
  { apply kv_step_wf; [done|]. eapply kv_budget_le; [|done]. simpl; lia. }
  apply Hcons; try done. apply IH; [done|]. by apply kv_step_budget.
Qed.

Lemma kv_run_cons s op ops :
  kv_run s (op :: ops) =
    ((kv_run (kv_step s op).1 ops).1, (kv_step s op).2 ++ (kv_run (kv_step s op).1 ops).2).
Proof. simpl. destruct (kv_step s op) as [s1 es]. simpl. by destruct (kv_run s1 ops). Qed.

Lemma kv_run_revisions (s : store) (ops : list kv_op)
    (Hwf : kv_wf s) (Hb : kv_budget (length ops) s) :
  revision_ s ≤ revision_ (kv_run s ops).1
  ∧ StronglySorted Z.le (map ev_revision (kv_run s ops).2)
  ∧ Forall (λ e, revision_ s < ev_revision e ≤ revision_ (kv_run s ops).1) (kv_run s ops).2.
Proof.
  revert ops s Hwf Hb. apply kv_run_ind.
  { intros s _. simpl. split_and!; [lia|constructor..]. }
  intros s op ops Hwf Hb Hwf' (IHr & IHs & IHe). rewrite kv_run_cons /=.
  assert (kv_budget 1 s) as Hb1 by (eapply kv_budget_le; [|done]; lia).
  destruct (kv_step_revision s op Hwf Hb1) as [[Hr ->]|[Hr Hes]]; rewrite Hr in IHr IHe; [by split_and!|].
  rewrite map_app. split_and!; [lia| |].
  - apply StronglySorted_app_2; [ | |done].
    + intros x y (e1&->&He1%(proj1 (Forall_forall _ _) Hes))%list_elem_of_fmap
        (e2&->&He2%(proj1 (Forall_forall _ _) IHe))%list_elem_of_fmap. lia.
    + clear -Hes. induction Hes as [|e es He Hes IH]; simpl; constructor; [done|]. apply Forall_forall.
      intros x (e2&->&He2%(proj1 (Forall_forall _ _) Hes))%list_elem_of_fmap. lia.
  - apply Forall_app. split; [eapply Forall_impl; [exact Hes|]|eapply Forall_impl; [exact IHe|]];
      simpl; intros; lia.
Qed.

(** ** Expiry fencing

    A TTL schedule carries the modification revision and the TTL generation of the entry it was made for.
    The schedule is [fenced] once the key has moved past that pair. *)
Definition fenced (key : string) (rev gen : Z) (s : store) : Prop :=
  rev ≤ revision_ s ∧ ∀ e, data_ s !! key = Some e → modRevision e = rev → gen < ttlGeneration e.

Definition renews (s : store) (key : string) (op : kv_op) : bool :=
  match op with
  | OpPut k v ttl ev em eg => bool_decide (k = key) && is_ok (Put s k v ttl ev em eg).2
  | OpKeepAlive k em => bool_decide (k = key) && is_ok (KeepAlive s k em).2
  | _ => false
  end.

Lemma fenced_expire key rev gen s : fenced key rev gen s → DeleteIfTtlExpired s key rev gen = (s, [], false).
Proof.
  intros [_ Hf]. rewrite /DeleteIfTtlExpired. destruct (data_ s !! key) as [e|] eqn:E; [|done].
  destruct (Z.eqb_spec (modRevision e) rev) as [Hm|]; [|done]. specialize (Hf e eq_refl Hm). simpl.
  destruct (Z.eqb_spec (ttlGeneration e) gen); [lia|]. by rewrite orb_true_r.
Qed.

(** A step either keeps the entry of a key, renews it under a newer modification revision or a newer
    generation, or removes it. *)
Lemma kv_step_entry s op key e' :
  kv_wf s → kv_budget 1 s → data_ (kv_step s op).1 !! key = Some e' →
  modRevision e' = revision_ s + 1
  ∨ ∃ e, data_ s !! key = Some e ∧ modRevision e' = modRevision e
         ∧ (ttlGeneration e' = ttlGeneration e ∨ ttlGeneration e' = ttlGeneration e + 1).
Proof.
  intros [Hr _] [Hb Hg]. assert (i64 (revision_ s + 1) = revision_ s + 1) as Hi.
  { apply i64_small; unfold INT64_MAX in *; lia. }
  destruct op as [k v ttl ev em eg|k re em|k rv g|k em]; simpl.
  - rewrite /Put. destruct put_guard; [|by eauto 10]. rewrite /= Hi lookup_insert. case_decide; [|by eauto 10].
    intros [= <-]. left. by destruct (data_ s !! k).
  - rewrite /Delete. case_match; [by eauto 10|]. destruct in_range_list as [|front l] eqn:El; [by eauto 10|].
    case_match; [by eauto 10|]. cbn [data_ fst]. rewrite lookup_erase_all. case_decide; [done|]. by eauto 10.
  - rewrite /DeleteIfTtlExpired. destruct (data_ s !! k) as [e|]; [|by eauto 10].
    do 2 (case_match; [by eauto 10|]). simpl. intros [_ ?]%lookup_delete_Some. by eauto 10.
  - rewrite /KeepAlive. destruct (data_ s !! k) as [e|] eqn:E; [|by eauto 10].
    do 2 (case_match; [by eauto 10|]). rewrite /= lookup_insert. case_decide as Hk; [|by eauto 10].
    intros [= <-]. right. subst k. exists e. split_and!; [done..|]. right. simpl. destruct (Hg key e E).
    rewrite u64_small; lia.
Qed.

Lemma fenced_step key rev gen s op :
  kv_wf s → kv_budget 1 s → fenced key rev gen s → fenced key rev gen (kv_step s op).1.
Proof.
  intros Hwf Hb [Hrev Hf]. split.
  { destruct (kv_step_revision s op Hwf Hb) as [[-> _]|[-> _]]; lia. }
  intros e' He' Hm. destruct (kv_step_entry s op key e' Hwf Hb He') as [Hn|(e & He & Hm' & Hgen)]; [lia|].
  specialize (Hf e He). lia.
Qed.

Lemma renews_fenced key e s op :
  kv_wf s → kv_budget 1 s → data_ s !! key = Some e → renews s key op = true →
  fenced key (modRevision e) (ttlGeneration e) (kv_step s op).1.
Proof.
  intros Hwf Hb He Hren. pose proof Hwf as (_ & Hent & _). destruct (Hent _ _ He) as (_&_&_&Hle). split.
  { destruct (kv_step_revision s op Hwf Hb) as [[-> _]|[-> _]]; lia. }
  intros e' He' Hm. destruct Hb as [Hb Hg]. destruct (Hg _ _ He). pose proof Hwf as [Hr _].
  destruct op as [k v ttl ev em eg| | |k em]; simpl in Hren; try done;
    apply andb_true_iff in Hren as [->%bool_decide_eq_true Hok].
  - simpl in He'. rewrite /Put in Hok He'. destruct put_guard; [|done]. simpl in He'.
    rewrite lookup_insert_eq He in He'. injection He' as <-. simpl in Hm.
    rewrite i64_small in Hm; unfold INT64_MAX in *; lia.
  - simpl in He'. rewrite /KeepAlive He in Hok He'. repeat case_match; simplify_eq/=.
    rewrite lookup_insert_eq in He'. injection He' as <-. simpl. rewrite u64_small; lia.
Qed.

(** A store used by the witnesses: one key with a TTL, one without, and the callback installed. *)
Definition demo : store :=
  (kv_run (SetMutationCallback init true)
     [OpPut "/a" "1" 100 (-1) 0 0; OpPut "/b" "2" 0 (-1) 0 0]).1.

Lemma demo_data : map_to_list (data_ demo) ≡ₚ
  [("/a", MkValueEntry "1" 1 2 2 100 1); ("/b", MkValueEntry "2" 1 3 3 0 1)].
Proof. by vm_compute. Qed.

Lemma demo_lookup k e : data_ demo !! k = Some e →
  (k, e) ∈ [("/a", MkValueEntry "1" 1 2 2 100 1); ("/b", MkValueEntry "2" 1 3 3 0 1)].
Proof. intros H. rewrite -demo_data. by apply elem_of_map_to_list. Qed.

Lemma demo_wf : kv_wf demo.
Proof.
  split; [vm_compute; congruence|]. split.
  - intros k e He%demo_lookup. set_unfold in He. destruct He as [[= -> ->]|[[= -> ->]|[]]];
      split_and!; vm_compute; congruence.
  - intros k1 k2 e1 e2 H1%demo_lookup H2%demo_lookup Heq. set_unfold in H1. set_unfold in H2.
    destruct H1 as [[= -> ->]|[[= -> ->]|[]]], H2 as [[= -> ->]|[[= -> ->]|[]]]; simpl in Heq; congruence.
Qed.

Lemma demo_budget : kv_budget 5 demo.
Proof.
  split; [vm_compute; congruence|]. intros k e He%demo_lookup. set_unfold in He.
  destruct He as [[= -> ->]|[[= -> ->]|[]]]; simpl; lia.
Qed.

(** ** Properties *)

(** C5: watch events are a complete log of the store.  Whatever history of puts, exact or range deletes,
    TTL expiries and keep-alives runs, a reader that starts from the view of the store (what [Range]
    returned) and applies the emitted events in order holds exactly the view of the final store: no
    mutation is missing from the events and no event is spurious. *)
Theorem kv_run_replay (s : store) (ops : list kv_op) (Hcb : mutationCallback_ s = true) :
  foldl apply_event (view s) (kv_run s ops).2 = view (kv_run s ops).1.
Proof.
  revert s Hcb. induction ops as [|op ops IH]; intros s Hcb; [done|].
  rewrite kv_run_cons foldl_app kv_step_replay // IH //. by rewrite kv_step_callback.
Qed.

Lemma kv_run_replay_witness :
  foldl apply_event (view demo) (kv_run demo [OpDelete "/a" "/c" 0; OpPut "/d" "x" 0 0 0 0]).2
  = view (kv_run demo [OpDelete "/a" "/c" 0; OpPut "/d" "x" 0 0 0 0]).1.
Proof. apply kv_run_replay. reflexivity. Defined.

(** the counters are sound along every history that does not exhaust the 64-bit counters: versions
    start at one and never exceed the number of revisions since creation (so [version++] never
    overflows), no entry is newer than the global revision, and two keys never share a modification
    revision (so a modification revision identifies one incarnation of one key). *)
Theorem kv_run_wf (s : store) (ops : list kv_op) (Hwf : kv_wf s) (Hb : kv_budget (length ops) s) :
  kv_wf (kv_run s ops).1.
Proof.
  revert ops s Hwf Hb. apply (kv_run_ind (λ s ops, kv_wf (kv_run s ops).1)); [done|].
  intros s op ops _ _ _ IH. by rewrite kv_run_cons.
Qed.

Lemma kv_run_wf_witness :
  kv_wf (kv_run demo [OpKeepAlive "/a" 2; OpPut "/a" "3" 0 1 2 0; OpExpire "/a" 2 1]).1.
Proof. apply kv_run_wf; [apply demo_wf|]. eapply kv_budget_le; [|apply demo_budget]. simpl; lia. Defined.

(** event revisions are ordered and fresh: along a history the events carry non-decreasing revisions,
    all of them greater than the revision at the start (what a snapshot taken there carries) and at most
    the final revision, which never decreases. *)
Theorem kv_run_event_revisions (s : store) (ops : list kv_op)
    (Hwf : kv_wf s) (Hb : kv_budget (length ops) s) :
  revision_ s ≤ revision_ (kv_run s ops).1
  ∧ StronglySorted Z.le (map ev_revision (kv_run s ops).2)
  ∧ Forall (λ e, revision_ s < ev_revision e ≤ revision_ (kv_run s ops).1) (kv_run s ops).2.
Proof. by apply kv_run_revisions. Qed.

Lemma kv_run_event_revisions_witness :
  let ops := [OpDelete "/a" "/c" 0; OpPut "/d" "x" 0 0 0 0] in
  revision_ demo ≤ revision_ (kv_run demo ops).1
  ∧ StronglySorted Z.le (map ev_revision (kv_run demo ops).2)
  ∧ Forall (λ e, revision_ demo < ev_revision e ≤ revision_ (kv_run demo ops).1) (kv_run demo ops).2.
Proof.
  intros ops. apply kv_run_event_revisions; [apply demo_wf|].
  eapply kv_budget_le; [|apply demo_budget]. simpl; lia.
Defined.

(** compare-and-swap.  [Put] commits exactly when its fences hold (global revision, modification
    revision, expected version or absence).  Otherwise nothing changes and no event is sent; when it
    commits, the key reads back as the new value at the returned version and revision, no other key
    changes, and exactly one PUT event is sent. *)
Theorem Put_cas (s : store) (key val : string) (ttl ev em eg : Z) :
  match Put s key val ttl ev em eg with
  | (s', es, Fail c) => s' = s ∧ es = [] ∧ ¬ put_allowed s key ev em eg ∧ c ≠ K_OK
  | (s', es, Ok (ver, rev, gen)) =>
      put_allowed s key ev em eg
      ∧ rev = i64 (revision_ s + 1) ∧ CurrentRevision s' = rev
      ∧ ver = match data_ s !! key with Some e => i64 (version e + 1) | None => 1 end
      ∧ Range s' key "" [] = ([MkKeyValueEntry key val ver rev], rev)
      ∧ (∀ k, k ≠ key → data_ s' !! k = data_ s !! k)
      ∧ es = (if mutationCallback_ s then [MkWatchEvent PUT (MkKeyValueEntry key val ver rev) rev] else [])
  end.
Proof.
  pose proof (Put_frame s key val ttl ev em eg) as Hframe. rewrite /Put in Hframe |- *.
  destruct put_guard as [[]|c] eqn:Hg.
  - apply put_guard_ok in Hg. split; [done|]. do 2 (split; [done|]).
    split; [by destruct (data_ s !! key)|]. split; [|split; [done|]].
    + rewrite /Range /in_range_list /= lookup_insert_eq /=. by destruct (data_ s !! key).
    + by destruct (data_ s !! key).
  - split_and!; try done.
    + intros Ha. by rewrite (proj2 (put_guard_ok s key ev em eg tt) Ha) in Hg.
    + clear Hframe. rewrite /put_guard in Hg. by repeat case_match; simplify_eq.
Qed.

(** [Range] is an exact ordered snapshot: it returns precisely the entries of the scope (the key, or
    [[key, rangeEnd)]), each once, in strictly ascending key order, with the revision of that state. *)
Theorem Range_exact (s : store) (key rangeEnd : string) :
  let '(kvs, rev) := Range s key rangeEnd [] in
  rev = CurrentRevision s
  ∧ StronglySorted str_lt (map kv_key kvs)
  ∧ ∀ kve, kve ∈ kvs ↔ in_scope (kv_key kve) key rangeEnd ∧ view s !! kv_key kve = Some kve.
Proof.
  simpl. split; [done|]. split.
  - rewrite map_map. pose proof (in_range_list_sorted s key rangeEnd) as Hs.
    apply (StronglySorted_fmap fst key_lt str_lt); done.
  - intros kve. rewrite list_elem_of_In in_map_iff. setoid_rewrite <- list_elem_of_In. split.
    + intros ([k e] & <- & [Hk Hsc]%elem_of_in_range_list). simpl. by rewrite lookup_view Hk.
    + rewrite lookup_view. intros [Hsc Hv]. apply fmap_Some in Hv as (e & Hk & Heq).
      exists (kv_key kve, e). split; [by rewrite -Heq|]. by apply elem_of_in_range_list.
Qed.

(** [Delete] removes exactly its scope.  A fenced range delete and a stale fence change nothing.  A
    delete that matches no key succeeds without taking a revision.  Otherwise one new revision is taken,
    the entries of the scope (those [Range] showed) are gone and all others untouched, and one DELETE
    event per removed key is sent, in key order, all carrying that single revision. *)
Theorem Delete_exact (s : store) (key rangeEnd : string) (em : Z) :
  let old := (Range s key rangeEnd []).1 in
  match Delete s key rangeEnd [] em with
  | (s', es, Fail c) => s' = s ∧ es = [] ∧ em ≠ 0 ∧
      ((c = K_INVALID ∧ rangeEnd ≠ "")
       ∨ (c = K_TRY_AGAIN ∧ rangeEnd = "" ∧ ∃ e, data_ s !! key = Some e ∧ modRevision e ≠ em))
  | (s', es, Ok (n, rev, kves)) =>
      kves = old
      ∧ (∀ k, data_ s' !! k = if decide (in_scope k key rangeEnd) then None else data_ s !! k)
      ∧ (old = [] → s' = s ∧ es = [] ∧ n = 0 ∧ rev = revision_ s)
      ∧ (old ≠ [] → rev = i64 (revision_ s + 1) ∧ CurrentRevision s' = rev ∧ n = i64 (Z.of_nat (length old))
         ∧ es = (if mutationCallback_ s then map (λ kve, MkWatchEvent DELETE kve rev) old else []))
  end.
Proof.
  simpl. rewrite /Delete. unfold COORDINATOR_NO_MOD_REVISION_CHECK.
  destruct (negb (em =? 0) && negb (empty_str rangeEnd)) eqn:Hg.
  { apply andb_true_iff in Hg as [?%negb_true_iff%Z.eqb_neq ?%negb_true_iff%empty_str_false]. naive_solver. }
  assert (∀ k, k ∉ (in_range_list s key rangeEnd).*1 → in_scope k key rangeEnd → data_ s !! k = None) as Hout.
  { intros k Hn Hsc. destruct (data_ s !! k) eqn:E; [|done]. destruct Hn. apply in_range_list_keys. by rewrite E. }
  destruct (in_range_list s key rangeEnd) as [|front l] eqn:El.
  - split_and!; [done| |done|done]. intros k. case_decide as Hsc; [|done]. apply Hout; [|done]. apply not_elem_of_nil.
  - destruct (negb (em =? 0) && negb (modRevision front.2 =? em)) eqn:Hf.
    + apply andb_true_iff in Hf as [Hem%negb_true_iff%Z.eqb_neq Hm%negb_true_iff%Z.eqb_neq].
      apply andb_false_iff in Hg as [Hg|Hg]; [by apply negb_false_iff, Z.eqb_eq in Hg|].
      apply negb_false_iff, empty_str_true in Hg as ->. split_and!; try done. right. split_and!; [done..|].
      destruct front as [kf ef]. assert ((kf, ef) ∈ in_range_list s key "") as Hin by (rewrite El; by left).
      apply elem_of_in_range_list in Hin as [Hk ->]. eauto.
    + split_and!; [done| |done|by intros _; split_and!].
      intros k. cbn [data_]. rewrite lookup_erase_all -El.
      case_decide as Hin; case_decide as Hsc; try done.
      * by apply in_range_list_keys in Hin as [_ ?].
      * apply Hout; [by rewrite -El|done].
Qed.

(** renewal fences stale expiries.  Once a key's entry has been renewed, by a successful keep-alive or
    by a successful put, the TTL check scheduled for the entry before the renewal never deletes anything,
    whatever happens to the store in between. *)
Theorem stale_expiry_is_noop (s : store) (key : string) (e : ValueEntry) (op : kv_op) (ops : list kv_op)
    (Hwf : kv_wf s) (Hb : kv_budget (S (length ops)) s)
    (He : data_ s !! key = Some e) (Hren : renews s key op = true) :
  let later := (kv_run (kv_step s op).1 ops).1 in
  DeleteIfTtlExpired later key (modRevision e) (ttlGeneration e) = (later, [], false).
Proof.
  intros later. apply fenced_expire. assert (kv_budget 1 s) as Hb1 by (eapply kv_budget_le; [|done]; lia).
  pose proof (renews_fenced key e s op Hwf Hb1 He Hren) as Hf.
  pose proof (kv_step_budget s op _ Hwf Hb) as Hb'. pose proof (kv_step_wf s op Hwf Hb1) as Hwf'.
  subst later. revert Hf. revert ops Hb Hb'. clear He Hren.
  generalize (kv_step s op).1 Hwf'. intros s' Hw' ops _ Hb'. revert ops s' Hw' Hb'.
  apply (kv_run_ind (λ s' ops, fenced key _ _ s' → fenced key _ _ (kv_run s' ops).1)); [done|].
  intros s' op' ops Hw' Hb' _ IH Hf. rewrite kv_run_cons. apply IH. apply fenced_step; [done| |done].
  eapply kv_budget_le; [|done]. lia.
Qed.

Lemma stale_expiry_is_noop_witness :
  let later := (kv_run (kv_step demo (OpKeepAlive "/a" 0)).1 [OpPut "/c" "z" 0 0 0 0]).1 in
  DeleteIfTtlExpired later "/a" 2 1 = (later, [], false)
  ∧ DeleteIfTtlExpired demo "/a" 2 1 ≠ (demo, [], false).
Proof.
  intros later. split; [|by vm_compute].
  apply (stale_expiry_is_noop demo "/a" (MkValueEntry "1" 1 2 2 100 1) (OpKeepAlive "/a" 0)
           [OpPut "/c" "z" 0 0 0 0]).
  - apply demo_wf.
  - eapply kv_budget_le; [|apply demo_budget]. simpl; lia.
  - reflexivity.
  - reflexivity.
Defined.
End MemoryKvStore.
