(* ===== verification/TtlManager.v ===== *)
(** * TtlManager: the expiry schedule of the coordinator store

    Model of [src/datasystem/common/coordinator/ttl_manager.{h,cpp}].

    [expiryMap_] is a [std::multimap] from expiry time to schedule record; [expiryIndex_] maps a key to the
    iterator of its record.  An iterator is modelled by the identity of the node it points to, so that an
    index entry that outlived its node would be visible: dereferencing it is undefined, and [Schedule]
    returns [None] there.  Times are [steady_clock] ticks (nanoseconds).  The critical section of one pass
    of the expiry thread is [CheckExpiration_pass]; the expired records are then handed to the callback
    outside the lock. *)
From S2P Require Import Prelude.

Module TtlManager.
Local Open Scope Z_scope.

Definition MAX_EXPIRED_KEYS_PER_CHECK : nat := Z.to_nat 1024.
Definition NS_PER_MS : Z := 1000000.

Record TtlScheduleRecord := MkRecord {
  rec_key : string;
  rec_revision : Z;
  rec_ttlGeneration : Z;
  rec_expireTime : Z }.

(** A node of [expiryMap_]: its identity, its multimap key and its record. *)
Record node := MkNode { node_id : nat; node_time : Z; node_rec : TtlScheduleRecord }.

Record ttl := MkTtl {
  expiryMap_ : list node;
  expiryIndex_ : gmap string nat;
  nextNode : nat;
  running_ : bool }.

Definition init : ttl := MkTtl [] ∅ 0 false.

(** [multimap::emplace]: after the elements with an equal key. *)
Fixpoint mm_emplace (n : node) (l : list node) : list node :=
  match l with
  | [] => [n]
  | m :: l' => if node_time m <=? node_time n then m :: mm_emplace n l' else n :: l
  end.

Definition mm_find (id : nat) (l : list node) : option node :=
  head (filter (λ n, node_id n = id) l).

Definition mm_erase (id : nat) (l : list node) : list node := filter (λ n, node_id n ≠ id) l.

(** The schedule already held is newer: [revision < existing.revision || (revision ==
    existing.revision && ttlGeneration < existing.ttlGeneration)]. *)
Definition is_stale (existing : TtlScheduleRecord) (revision generation : Z) : bool :=
  (revision <? rec_revision existing)
  || ((revision =? rec_revision existing) && (generation <? rec_ttlGeneration existing)).

(** The emplacement at the end of [Schedule]; the flag is [needNotify]. *)
Definition schedule_emplace (st : ttl) (l : list node) (expireTime : Z) (key : string)
    (revision generation : Z) : ttl * bool :=
  let needNotify := match l with [] => true | b :: _ => expireTime <? node_time b end in
  let n := MkNode (nextNode st) expireTime (MkRecord key revision generation expireTime) in
  (MkTtl (mm_emplace n l) (<[key := nextNode st]> (expiryIndex_ st)) (S (nextNode st)) (running_ st),
   needNotify).

(** [Schedule] at time [now]; [None] is the dereference of a dangling iterator. *)
Definition Schedule (st : ttl) (now : Z) (key : string) (ttlMs revision generation : Z)
    : option (ttl * bool) :=
  if ttlMs <=? 0 then Some (st, false)
  else
    let expireTime := i64 (now + ttlMs * NS_PER_MS) in
    match expiryIndex_ st !! key with
    | None => Some (schedule_emplace st (expiryMap_ st) expireTime key revision generation)
    | Some id =>
      match mm_find id (expiryMap_ st) with
      | None => None
      | Some n =>
        if is_stale (node_rec n) revision generation then Some (st, false)
        else Some (schedule_emplace st (mm_erase id (expiryMap_ st)) expireTime key revision generation)
      end
    end.

(** The collecting loop of [CheckExpiration]; [count] is [expiredKeys.size()]. *)
Fixpoint collect (now : Z) (count : nat) (l : list node) (index : gmap string nat)
    : list TtlScheduleRecord * list node * gmap string nat :=
  match l with
  | [] => ([], [], index)
  | n :: l' =>
    if (node_time n <=? now) && bool_decide (count < MAX_EXPIRED_KEYS_PER_CHECK)%nat then
      let index' :=
        match index !! rec_key (node_rec n) with
        | Some id => if bool_decide (id = node_id n) then delete (rec_key (node_rec n)) index else index
        | None => index
        end in
      let '(expired, rest, index'') := collect now (S count) l' index' in
      (node_rec n :: expired, rest, index'')
    else ([], l, index)
  end.

Definition CheckExpiration_pass (st : ttl) (now : Z) : ttl * list TtlScheduleRecord :=
  if running_ st then
    let '(expired, rest, index) := collect now 0 (expiryMap_ st) (expiryIndex_ st) in
    (MkTtl rest index (nextNode st) (running_ st), expired)
  else (st, []).

Definition Start (st : ttl) : ttl := MkTtl (expiryMap_ st) (expiryIndex_ st) (nextNode st) true.
Definition Stop (st : ttl) : ttl := MkTtl (expiryMap_ st) (expiryIndex_ st) (nextNode st) false.

(** ** Invariant *)
Definition node_key (n : node) : string := rec_key (node_rec n).

Definition list_inv (l : list node) (index : gmap string nat) (next : nat) : Prop :=
  StronglySorted (λ a b, node_time a ≤ node_time b) l
  ∧ NoDup (node_key <$> l)
  ∧ NoDup (node_id <$> l)
  ∧ (∀ n, n ∈ l → rec_expireTime (node_rec n) = node_time n ∧ (node_id n < next)%nat)
  ∧ (∀ k id, index !! k = Some id ↔ ∃ n, n ∈ l ∧ node_key n = k ∧ node_id n = id).

Definition ttl_inv (st : ttl) : Prop := list_inv (expiryMap_ st) (expiryIndex_ st) (nextNode st).

(** ** Abstraction: the pending check of each key *)
Definition pending_of (l : list node) : gmap string TtlScheduleRecord :=
  list_to_map ((λ n, (node_key n, node_rec n)) <$> l).

Definition pending (st : ttl) : gmap string TtlScheduleRecord := pending_of (expiryMap_ st).

Definition spec_schedule (p : gmap string TtlScheduleRecord) (now : Z) (key : string)
    (ttlMs revision generation : Z) : gmap string TtlScheduleRecord :=
  if ttlMs <=? 0 then p
  else match p !! key with
       | Some r => if is_stale r revision generation then p
                   else <[key := MkRecord key revision generation (i64 (now + ttlMs * NS_PER_MS))]> p
       | None => <[key := MkRecord key revision generation (i64 (now + ttlMs * NS_PER_MS))]> p
       end.

(** ** Lemmas *)
Lemma mm_emplace_perm n l : mm_emplace n l ≡ₚ n :: l.
Proof.
  induction l as [|m l IH]; simpl; [done|]. case_match; [|done]. rewrite IH. apply Permutation_swap.
Qed.

Lemma mm_emplace_sorted n l :
  StronglySorted (λ a b, node_time a ≤ node_time b) l →
  StronglySorted (λ a b, node_time a ≤ node_time b) (mm_emplace n l).
Proof.
  induction 1 as [|m l Hl IH Hm]; simpl; [repeat constructor|]. case_match eqn:E.
  - apply Z.leb_le in E. constructor; [done|]. rewrite mm_emplace_perm. by constructor.
  - apply Z.leb_gt in E. constructor; [by constructor|]. constructor; [lia|].
    eapply Forall_impl; [exact Hm|]. simpl. lia.
Qed.

Lemma mm_find_Some id l n : mm_find id l = Some n → n ∈ l ∧ node_id n = id.
Proof.
  rewrite /mm_find. intros H. apply head_Some_elem_of in H. apply list_elem_of_filter in H. naive_solver.
Qed.

Lemma mm_find_elem l n : NoDup (node_id <$> l) → n ∈ l → mm_find (node_id n) l = Some n.
Proof.
  intros Hnd Hin. destruct (mm_find (node_id n) l) as [n'|] eqn:E.
  - apply mm_find_Some in E as [Hin' Hid]. f_equal.
    apply elem_of_Permutation in Hin as [l' Hl]. rewrite Hl in Hnd Hin'.
    apply NoDup_cons in Hnd as [Hn _]. apply elem_of_cons in Hin' as [->|Hin']; [done|].
    destruct Hn. rewrite -Hid. by apply list_elem_of_fmap_2.
  - rewrite /mm_find in E. apply head_None in E. exfalso.
    assert (n ∈ filter (λ n0, node_id n0 = node_id n) l) as Hf by by apply list_elem_of_filter.
    rewrite E in Hf. by apply elem_of_nil in Hf.
Qed.

Lemma lookup_pending_of l k r :
  NoDup (node_key <$> l) → pending_of l !! k = Some r ↔ ∃ n, n ∈ l ∧ node_key n = k ∧ node_rec n = r.
Proof.
  intros Hnd. rewrite /pending_of -elem_of_list_to_map.
  - by rewrite -list_fmap_compose.
  - rewrite list_elem_of_fmap. naive_solver.
Qed.

Lemma pending_of_perm l l' : NoDup (node_key <$> l) → l ≡ₚ l' → pending_of l = pending_of l'.
Proof.
  intros Hnd Hp. apply list_to_map_proper; [by rewrite -list_fmap_compose|by rewrite Hp].
Qed.

Lemma elem_of_mm_erase id l n : n ∈ mm_erase id l ↔ n ∈ l ∧ node_id n ≠ id.
Proof. rewrite /mm_erase list_elem_of_filter. tauto. Qed.

Lemma mm_erase_perm l n :
  NoDup (node_id <$> l) → n ∈ l → l ≡ₚ n :: mm_erase (node_id n) l.
Proof.
  intros Hnd [l' Hl]%elem_of_Permutation. rewrite Hl in Hnd. apply NoDup_cons in Hnd as [Hn _].
  rewrite {1}Hl. f_equiv. rewrite /mm_erase Hl filter_cons_False; [naive_solver|].
  rewrite list_filter_all //. apply Forall_forall. intros n' Hn' Heq. destruct Hn. rewrite -Heq.
  by apply list_elem_of_fmap_2.
Qed.

(** Removing one node keeps the invariant for the index without its key. *)
Lemma list_inv_erase l index next n :
  list_inv l index next → n ∈ l →
  list_inv (mm_erase (node_id n) l) (delete (node_key n) index) next.
Proof.
  intros (Hs & Hk & Hi & Hn & Hx) Hin. pose proof (mm_erase_perm l n Hi Hin) as Hp.
  rewrite Hp in Hk Hi. apply NoDup_cons in Hk as [Hk1 Hk2]. apply NoDup_cons in Hi as [Hi1 Hi2].
  split_and!; [by apply StronglySorted_filter|done|done| |].
  - intros m [Hm _]%elem_of_mm_erase. by apply Hn.
  - intros k id. destruct (decide (k = node_key n)) as [->|Hne].
    + rewrite lookup_delete_eq. split; [done|]. intros (m & Hm & Hkm & _). destruct Hk1. rewrite -Hkm.
      by apply list_elem_of_fmap_2.
    + rewrite lookup_delete_ne // Hx. split; intros (m & Hm & Hkm & Him); exists m.
      * split_and!; [|done..]. apply elem_of_mm_erase. split; [done|]. intros Heq. apply Hne. rewrite -Hkm.
        rewrite Hp in Hm. apply elem_of_cons in Hm as [->|Hm]; [done|].
        by apply elem_of_mm_erase in Hm as [_ ?].
      * apply elem_of_mm_erase in Hm as [? _]. by split_and!.
Qed.

Lemma list_inv_emplace st l t k r g :
  list_inv l (delete k (expiryIndex_ st)) (nextNode st) →
  ttl_inv (schedule_emplace st l t k r g).1.
Proof.
  intros (Hs & Hk & Hi & Hn & Hx). rewrite /ttl_inv /list_inv /=. split_and!.
  - by apply mm_emplace_sorted.
  - rewrite mm_emplace_perm fmap_cons. apply NoDup_cons. split; [|done].
    intros (m & Hkm & Hm)%list_elem_of_fmap.
    assert (delete k (expiryIndex_ st) !! k = Some (node_id m)) as Hd by (apply Hx; eauto).
    by rewrite lookup_delete_eq in Hd.
  - rewrite mm_emplace_perm fmap_cons. apply NoDup_cons. split; [|done].
    intros (m & Him & Hm)%list_elem_of_fmap. destruct (Hn m Hm). simpl in Him. lia.
  - intros m. rewrite mm_emplace_perm elem_of_cons. intros [->|Hm]; simpl; [split; [done|lia]|].
    destruct (Hn m Hm). split; [done|lia].
  - intros k' id. rewrite lookup_insert. setoid_rewrite mm_emplace_perm. setoid_rewrite elem_of_cons.
    case_decide as Hkk; [subst k'|].
    + split; [intros [= <-]; eexists; split_and!; [by left|done..]|].
      intros (m & [->|Hm] & Hkm & <-); [done|].
      assert (delete k (expiryIndex_ st) !! k = Some (node_id m)) as Hd by (apply Hx; eauto).
      by rewrite lookup_delete_eq in Hd.
    + rewrite -(lookup_delete_ne _ k k') // Hx. split; [naive_solver|].
      intros (m & [->|Hm] & Hkm & <-); [done|]. eauto.
Qed.

Lemma pending_emplace st l t k r g :
  NoDup (node_key <$> l) → (∀ n, n ∈ l → node_key n ≠ k) →
  pending (schedule_emplace st l t k r g).1 = <[k := MkRecord k r g t]> (pending_of l).
Proof.
  intros Hk Hnk. rewrite /pending /=.
  set (n := MkNode _ _ _). change (<[k := _]> (pending_of l)) with (pending_of (n :: l)).
  apply pending_of_perm; [|apply mm_emplace_perm].
  rewrite mm_emplace_perm fmap_cons. apply NoDup_cons. split; [|done].
  intros (m & Hkm & Hm)%list_elem_of_fmap. by apply (Hnk m).
Qed.

Lemma mm_erase_other_keys l n m :
  NoDup (node_key <$> l) → NoDup (node_id <$> l) → n ∈ l → m ∈ mm_erase (node_id n) l → node_key m ≠ node_key n.
Proof.
  intros Hk Hi Hin Hm Heq. rewrite (mm_erase_perm l n) // in Hk. apply NoDup_cons in Hk as [Hk _].
  destruct Hk. rewrite -Heq. by apply list_elem_of_fmap_2.
Qed.

Lemma delete_absent_index l index next k :
  list_inv l index next → index !! k = None → list_inv l (delete k index) next ∧ ∀ n, n ∈ l → node_key n ≠ k.
Proof.
  intros Hinv Hk. rewrite delete_id //. split; [done|]. destruct Hinv as (_&_&_&_&Hx).
  intros n Hn Heq. assert (index !! k = Some (node_id n)) by (apply Hx; eauto). congruence.
Qed.

(** One scheduling call, in all its cases. *)
Lemma Schedule_spec st now key ms r g :
  ttl_inv st →
  ∃ st' b, Schedule st now key ms r g = Some (st', b) ∧ ttl_inv st'
           ∧ pending st' = spec_schedule (pending st) now key ms r g ∧ running_ st' = running_ st.
Proof.
  intros Hinv. pose proof Hinv as (Hs & Hk & Hi & Hn & Hx). rewrite /Schedule /spec_schedule.
  destruct (ms <=? 0); [by eauto 10|]. destruct (expiryIndex_ st !! key) as [id|] eqn:E.
  - apply Hx in E as (n & Hin & Hkn & Hid). subst id. rewrite (mm_find_elem _ _ Hi Hin).
    assert (pending st !! key = Some (node_rec n)) as -> by (apply lookup_pending_of; [done|]; eauto).
    destruct (is_stale (node_rec n) r g); [by eauto 10|].
    pose proof (list_inv_erase _ _ _ _ Hinv Hin) as He. rewrite Hkn in He.
    eexists _, _. split; [by rewrite [schedule_emplace _ _ _ _ _ _]surjective_pairing|].
    split; [by apply list_inv_emplace|]. split; [|done].
    rewrite pending_emplace; [by destruct He as (_&?&_)| |].
    + intros m Hm. rewrite -Hkn. by apply (mm_erase_other_keys (expiryMap_ st)).
    + rewrite /pending (pending_of_perm _ _ Hk (mm_erase_perm _ _ Hi Hin)) /pending_of fmap_cons /=.
      by rewrite Hkn insert_insert_eq.
  - destruct (delete_absent_index _ _ _ _ Hinv E) as [He Hne].
    assert (pending st !! key = None) as ->.
    { destruct (pending st !! key) eqn:Ep; [|done]. apply lookup_pending_of in Ep as (n&Hin&Hkn&_); [|done].
      by apply Hne in Hkn. }
    eexists _, _. split; [by rewrite [schedule_emplace _ _ _ _ _ _]surjective_pairing|].
    split; [by apply list_inv_emplace|]. split; [|done]. by apply pending_emplace.
Qed.

(** ** The expiry pass *)
Lemma mm_erase_head n l : NoDup (node_id <$> (n :: l)) → mm_erase (node_id n) (n :: l) = l.
Proof.
  intros [Hn _]%NoDup_cons. rewrite /mm_erase filter_cons_False; [naive_solver|].
  apply list_filter_all, Forall_forall. intros m Hm Heq. destruct Hn. rewrite -Heq.
  by apply list_elem_of_fmap_2.
Qed.

Lemma collect_spec now c l index next expired rest index' :
  list_inv l index next → collect now c l index = (expired, rest, index') →
  ∃ due, l = due ++ rest ∧ expired = node_rec <$> due ∧ Forall (λ n, node_time n ≤ now) due
         ∧ list_inv rest index' next
         ∧ (due = [] ∨ c + length due ≤ MAX_EXPIRED_KEYS_PER_CHECK)%nat
         ∧ ((c + length due < MAX_EXPIRED_KEYS_PER_CHECK)%nat → Forall (λ n, now < node_time n) rest).
Proof.
  revert c index expired. induction l as [|n l IH]; intros c index expired Hinv; simpl.
  { intros [= <- <- <-]. exists []. split_and!; [done..|by left|]. intros _. constructor. }
  destruct (node_time n <=? now) eqn:Ht; simpl.
  - case_bool_decide as Hc.
    + pose proof Hinv as (_ & _ & Hi & _ & Hx).
      assert (index !! rec_key (node_rec n) = Some (node_id n)) as ->.
      { apply Hx. exists n. split_and!; [by left|done..]. }
      rewrite bool_decide_true //.
      destruct (collect now (S c) l _) as [[ex rs] ix] eqn:E. intros [= <- <- <-].
      pose proof (list_inv_erase _ _ _ n Hinv) as He. rewrite mm_erase_head // in He.
      destruct (IH _ _ _ (He ltac:(by left)) E) as (due & -> & -> & Hdue & Hr & Hcap & Hlt).
      exists (n :: due). apply Z.leb_le in Ht. split_and!; simpl; [done|done|by constructor|done| |].
      * right. destruct Hcap as [->|]; simpl; lia.
      * intros ?. apply Hlt. lia.
    + intros [= <- <- <-]. exists []. split_and!; [done..|by left|]. simpl. lia.
  - intros [= <- <- <-]. exists []. split_and!; [done..|by left|]. intros _. destruct Hinv as (Hs & _).
    apply Z.leb_gt in Ht. apply StronglySorted_cons in Hs as [Hf _]. constructor; [done|].
    eapply Forall_impl; [exact Hf|]. simpl. lia.
Qed.

(** The pending checks that are due at [now]. *)
Definition due_at (now : Z) (st : ttl) : Prop :=
  ∃ k r, pending st !! k = Some r ∧ rec_expireTime r ≤ now.

Lemma CheckExpiration_spec (st : ttl) (now : Z) (Hinv : ttl_inv st) (Hrun : running_ st = true) :
  let '(st', expired) := CheckExpiration_pass st now in
  ttl_inv st'
  ∧ (length expired ≤ MAX_EXPIRED_KEYS_PER_CHECK)%nat
  ∧ StronglySorted (λ a b, rec_expireTime a ≤ rec_expireTime b) expired
  ∧ (∀ r, r ∈ expired → pending st !! rec_key r = Some r ∧ rec_expireTime r ≤ now)
  ∧ (∀ k, pending st' !! k = if decide (k ∈ rec_key <$> expired) then None else pending st !! k)
  ∧ ((length expired < MAX_EXPIRED_KEYS_PER_CHECK)%nat → ¬ due_at now st').
Proof.
  rewrite /CheckExpiration_pass Hrun. pose proof Hinv as (Hs & Hk & Hi & Hn & Hx).
  destruct (collect now 0 _ _) as [[ex rs] ix] eqn:E.
  destruct (collect_spec _ _ _ _ _ _ _ _ Hinv E) as (due & Hl & -> & Hdue & Hr & Hcap & Hlt).
  rewrite length_fmap. rewrite Hl in Hs Hk Hn. rewrite fmap_app in Hk. apply NoDup_app in Hk as (Hk1 & Hk2 & Hk3).
  apply StronglySorted_app in Hs as (_ & Hs1 & _).
  assert (∀ n, n ∈ due → node_time n ≤ now ∧ rec_expireTime (node_rec n) = node_time n) as Hd.
  { intros n Hin. split; [by apply (proj1 (Forall_forall _ _) Hdue)|]. apply Hn. apply elem_of_app. by left. }
  assert (NoDup (node_key <$> due ++ rs)) as Hk by (rewrite fmap_app; by apply NoDup_app).
  split; [done|]. split; [destruct Hcap as [->|]; simpl; lia|]. split; [|split; [|split]].
  - clear -Hs1 Hd. induction Hs1 as [|n due Hs1 IH Hf]; constructor.
    + apply IH. intros m Hm. apply Hd. by right.
    + apply Forall_fmap, Forall_forall. intros m Hm. simpl. rewrite (proj2 (Hd n ltac:(by left))).
      rewrite (proj2 (Hd m ltac:(by right))). by apply (proj1 (Forall_forall _ _) Hf).
  - intros r (n & -> & Hin)%list_elem_of_fmap. destruct (Hd n Hin) as [? Heq]. split; [|lia].
    rewrite /pending Hl. apply lookup_pending_of; [done|]. exists n. split_and!; try done.
    apply elem_of_app. by left.
  - intros k. rewrite -list_fmap_compose /pending /=. apply option_eq. intros r.
    rewrite lookup_pending_of //. case_decide as Hin.
    + split; [|done]. intros (n & Hn' & <- & _). exfalso. apply (Hk2 (node_key n)); [done|].
      by apply list_elem_of_fmap_2.
    + rewrite Hl lookup_pending_of //. split; intros (n & Hn' & <- & <-); exists n; split_and!; try done.
      * apply elem_of_app. by right.
      * apply elem_of_app in Hn' as [Hn'|]; [|done]. destruct Hin. by apply (list_elem_of_fmap_2 node_key).
  - intros Hc (k & r & Hp & Ht). rewrite /pending /= lookup_pending_of // in Hp.
    destruct Hp as (n & Hin & _ & <-). specialize (Hlt Hc). rewrite Forall_forall in Hlt.
    specialize (Hlt n Hin). destruct Hr as (_&_&_&Hr&_). destruct (Hr n Hin) as [Heq _]. lia.
Qed.

(** A schedule of three keys, the second of them rescheduled, used by the witnesses. *)
Definition sched (st : ttl) (k : string) (ms r g : Z) : ttl :=
  match Schedule st 0 k ms r g with Some (st', _) => st' | None => st end.

Definition demo : ttl :=
  sched (sched (sched (sched (Start init) "/a" 5 2 1) "/b" 3 3 1) "/b" 9 3 2) "/c" 1 4 1.

Lemma init_inv : ttl_inv (Start init).
Proof.
  split_and!; [constructor..| |]; simpl.
  - by intros n ?%elem_of_nil.
  - intros k id. rewrite lookup_empty. split; [done|]. intros (n & Hn & _). by apply elem_of_nil in Hn.
Qed.

Lemma sched_inv st k ms r g : ttl_inv st → ttl_inv (sched st k ms r g).
Proof.
  intros Hinv. rewrite /sched. destruct (Schedule_spec st 0 k ms r g Hinv) as (st' & b & -> & Hinv' & _). done.
Qed.

Lemma demo_inv : ttl_inv demo.
Proof. do 4 apply sched_inv. apply init_inv. Qed.

(** ** Properties *)

(** scheduling refines a map from keys to their pending check.  On every reachable schedule [Schedule]
    is defined (the index never holds a dangling iterator), keeps the schedule well formed (ordered by
    expiry time, one node per key, index and multimap in bijection), and its effect is that of the
    abstract map: a stale (revision, generation) pair is ignored, anything else replaces the pending check
    of that key and of no other. *)
Theorem Schedule_refines (st : ttl) (now : Z) (key : string) (ms r g : Z) (Hinv : ttl_inv st) :
  ∃ st' notified, Schedule st now key ms r g = Some (st', notified) ∧ ttl_inv st'
    ∧ pending st' = spec_schedule (pending st) now key ms r g.
Proof.
  destruct (Schedule_spec st now key ms r g Hinv) as (st' & b & H1 & H2 & H3 & _). eauto.
Qed.

(** one pass of the expiry thread is exact and bounded.  It hands out at most 1024 records; each was
    the pending check of its key and is due; afterwards exactly those keys have no pending check; and if
    the bound was not reached no due check is left. *)
Theorem CheckExpiration_exact (st : ttl) (now : Z) (Hinv : ttl_inv st) (Hrun : running_ st = true) :
  let '(st', expired) := CheckExpiration_pass st now in
  ttl_inv st'
  ∧ (length expired ≤ MAX_EXPIRED_KEYS_PER_CHECK)%nat
  ∧ StronglySorted (λ a b, rec_expireTime a ≤ rec_expireTime b) expired
  ∧ (∀ r, r ∈ expired → pending st !! rec_key r = Some r ∧ rec_expireTime r ≤ now)
  ∧ (∀ k, pending st' !! k = if decide (k ∈ rec_key <$> expired) then None else pending st !! k)
  ∧ ((length expired < MAX_EXPIRED_KEYS_PER_CHECK)%nat → ¬ due_at now st').
Proof. by apply CheckExpiration_spec. Qed.

Lemma Schedule_refines_witness :
  ∃ st' notified, Schedule demo 0 "/a" 7 2 2 = Some (st', notified) ∧ ttl_inv st'
    ∧ pending st' = spec_schedule (pending demo) 0 "/a" 7 2 2.
Proof. apply Schedule_refines. apply demo_inv. Defined.

Lemma CheckExpiration_exact_witness :
  (CheckExpiration_pass demo 6000000).2 = [MkRecord "/c" 4 1 1000000; MkRecord "/a" 2 1 5000000]
  ∧ ¬ due_at 6000000 (CheckExpiration_pass demo 6000000).1.
Proof.
  pose proof (CheckExpiration_exact demo 6000000 demo_inv eq_refl) as H.
  assert (CheckExpiration_pass demo 6000000 =
    ((CheckExpiration_pass demo 6000000).1, [MkRecord "/c" 4 1 1000000; MkRecord "/a" 2 1 5000000])) as E
    by (vm_compute; reflexivity).
  rewrite E in H. split; [vm_compute; reflexivity|]. apply H. vm_compute. lia.
Defined.

(** ** Draining *)
Fixpoint passes (k : nat) (st : ttl) (now : Z) : ttl :=
  match k with O => st | S k' => passes k' (CheckExpiration_pass st now).1 now end.

Lemma pass_progress st now :
  ttl_inv st → running_ st = true →
  let st' := (CheckExpiration_pass st now).1 in
  ttl_inv st' ∧ running_ st' = true
  ∧ (¬ due_at now st' ∨ length (expiryMap_ st') + MAX_EXPIRED_KEYS_PER_CHECK = length (expiryMap_ st))%nat.
Proof.
  intros Hinv Hrun. rewrite /CheckExpiration_pass Hrun.
  destruct (collect now 0 _ _) as [[ex rs] ix] eqn:E. simpl.
  destruct (collect_spec _ _ _ _ _ _ _ _ Hinv E) as (due & Hl & -> & Hdue & Hr & Hcap & Hlt).
  split_and!; [done|done|]. rewrite Hl length_app.
  destruct (decide (length due < MAX_EXPIRED_KEYS_PER_CHECK)%nat) as [Hc|Hc].
  - left. intros (k & r & Hp & Ht). rewrite /pending /= in Hp.
    pose proof Hr as (_&Hk&_&Hr'&_). apply lookup_pending_of in Hp as (n & Hin & _ & <-); [|done].
    specialize (Hlt Hc). rewrite Forall_forall in Hlt. specialize (Hlt n Hin). destruct (Hr' n Hin). lia.
  - right. destruct Hcap as [->|]; simpl in *; [|lia]. unfold MAX_EXPIRED_KEYS_PER_CHECK in Hc. lia.
Qed.

Lemma not_due_pass st now : ttl_inv st → running_ st = true → ¬ due_at now st → (CheckExpiration_pass st now).1 = st.
Proof.
  intros Hinv Hrun Hnd. rewrite /CheckExpiration_pass Hrun. destruct st as [l index next run]. simpl in *.
  destruct l as [|n l]; simpl; [by subst|]. destruct (node_time n <=? now) eqn:Ht; simpl; [|by subst].
  exfalso. apply Hnd. exists (node_key n), (node_rec n). pose proof Hinv as (_&Hk&_&Hn&_).
  destruct (Hn n ltac:(by left)) as [Heq _]. apply Z.leb_le in Ht. split; [|lia].
  apply lookup_pending_of; [done|]. exists n. split_and!; [by left|done..].
Qed.

(** every due check fires.  However many checks are pending, [k] passes at one clock reading drain all
    that are due as soon as the schedule holds at most [1024 * k] nodes: expiry makes progress and the
    per-pass bound never starves a key. *)
Theorem passes_drain (st : ttl) (now : Z) (k : nat) (Hinv : ttl_inv st) (Hrun : running_ st = true)
    (Hk : (length (expiryMap_ st) < MAX_EXPIRED_KEYS_PER_CHECK * k)%nat) :
  ¬ due_at now (passes k st now).
Proof.
  assert (¬ due_at now (passes k st now) ∧ ttl_inv (passes k st now)) as [??]; [|done].
  revert st Hinv Hrun Hk. induction k as [|k IH]; intros st Hinv Hrun Hk; [lia|]. simpl.
  destruct (pass_progress st now Hinv Hrun) as (Hinv' & Hrun' & [Hnd|Hlen]); [|apply IH; [done..|lia]].
  clear IH Hk. revert Hinv' Hrun' Hnd. generalize (CheckExpiration_pass st now).1. clear.
  induction k as [|k IH]; intros st Hinv Hrun Hnd; simpl; [done|]. rewrite not_due_pass //. by apply IH.
Qed.

Lemma passes_drain_witness : due_at 6000000 demo ∧ ¬ due_at 6000000 (passes 1 demo 6000000).
Proof.
  split.
  - exists "/a", (MkRecord "/a" 2 1 5000000). split; [vm_compute; reflexivity|simpl; lia].
  - apply passes_drain; [apply demo_inv|reflexivity|]. vm_compute. lia.
Defined.
End TtlManager.
