(* ===== verification/WatchRegistry.v ===== *)
(** * WatchRegistry: who watches which keys

    Model of [src/datasystem/common/coordinator/watch_registry.{h,cpp}].

    The registry keeps five tables under one mutex: the watchers by id, the ids by client registration
    token, the scope of each watch, an index from exact keys to ids, and a vector of watched ranges, each
    with its set of ids.  The iteration order of an [unordered_set] is unspecified; [elements] stands for
    it.  [WatcherEntry] objects are immutable except for [active], which is cleared only when the entry
    leaves the registry, so they are held by value. *)
From S2P Require Import Prelude.

Module WatchRegistry.
Local Open Scope Z_scope.

Record WatcherEntry := MkWatcherEntry {
  watchId : Z;
  watcherAddr : string;
  registrationId : string;
  active : bool }.

Record WatchRange := MkWatchRange {
  wr_key : string;
  wr_rangeEnd : string;
  wr_watchIds : gset Z }.

Record registry := MkRegistry {
  watchers_ : gmap Z WatcherEntry;
  watchIdsByRegistrationId_ : gmap string Z;
  watchScopesById_ : gmap Z (string * string);
  exactWatchIdsByKey_ : gmap string (gset Z);
  rangeWatches_ : list WatchRange;
  nextWatchId_ : Z }.

Definition init : registry := MkRegistry ∅ ∅ ∅ ∅ [] 1.

Definition IsSameRange (r : WatchRange) (key rangeEnd : string) : bool :=
  bool_decide (wr_key r = key) && bool_decide (wr_rangeEnd r = rangeEnd).

Definition IsKeyInRange (key : string) (r : WatchRange) : bool :=
  bool_decide (String.le (wr_key r) key) && bool_decide (str_lt key (wr_rangeEnd r)).

Definition IsInTableScope (key table : string) : bool :=
  bool_decide (key = table)
  || (bool_decide (String.length table < String.length key)%nat
      && String.prefix table key
      && bool_decide (String.get (String.length table) key = Some "/"%char)).

(** [exactWatchIdsByKey_[key].insert(watchId)]. *)
Definition insert_exact (m : gmap string (gset Z)) (key : string) (id : Z) : gmap string (gset Z) :=
  <[key := {[id]} ∪ default ∅ (m !! key)]> m.

(** [find_if] on the ranges, then insert into the group found or append a new one. *)
Fixpoint insert_range (l : list WatchRange) (key rangeEnd : string) (id : Z) : list WatchRange :=
  match l with
  | [] => [MkWatchRange key rangeEnd {[id]}]
  | r :: l' =>
    if IsSameRange r key rangeEnd
    then MkWatchRange (wr_key r) (wr_rangeEnd r) ({[id]} ∪ wr_watchIds r) :: l'
    else r :: insert_range l' key rangeEnd id
  end.

(** The part of [Register] that creates a new watch. *)
Definition register_new (st : registry) (key rangeEnd addr rid : string) : registry * Z :=
  let id := nextWatchId_ st in
  (MkRegistry
     (<[id := MkWatcherEntry id addr rid true]> (watchers_ st))
     (if empty_str rid then watchIdsByRegistrationId_ st else <[rid := id]> (watchIdsByRegistrationId_ st))
     (<[id := (key, rangeEnd)]> (watchScopesById_ st))
     (if empty_str rangeEnd then insert_exact (exactWatchIdsByKey_ st) key id else exactWatchIdsByKey_ st)
     (if empty_str rangeEnd then rangeWatches_ st else insert_range (rangeWatches_ st) key rangeEnd id)
     (i64 (id + 1)),
   id).

(** Returns the watch id and whether it was created. *)
Definition Register (st : registry) (key rangeEnd addr rid : string) : registry * res (Z * bool) :=
  match (if empty_str rid then None else watchIdsByRegistrationId_ st !! rid) with
  | Some id =>
    (st,
     check! match watchers_ st !! id with Some w => bool_decide (watcherAddr w = addr) | None => false end
       else K_INVALID in
     check! bool_decide (watchScopesById_ st !! id = Some (key, rangeEnd)) else K_INVALID in
     Ok (id, false))
  | None => let '(st', id) := register_new st key rangeEnd addr rid in (st', Ok (id, true))
  end.

(** The two-argument overload without a registration token. *)
Definition Register_anonymous (st : registry) (key rangeEnd addr : string) : registry * Z :=
  match Register st key rangeEnd addr "" with
  | (st', Ok (id, _)) => (st', id)
  | (st', Fail _) => (st', 0)
  end.

Definition erase_exact (m : gmap string (gset Z)) (key : string) (id : Z) : gmap string (gset Z) :=
  match m !! key with
  | Some ids => let ids' := ids ∖ {[id]} in if decide (ids' = ∅) then delete key m else <[key := ids']> m
  | None => m
  end.

Fixpoint erase_ranges (l : list WatchRange) (id : Z) : list WatchRange :=
  match l with
  | [] => []
  | r :: l' =>
    let ids' := wr_watchIds r ∖ {[id]} in
    if decide (ids' = ∅) then erase_ranges l' id
    else MkWatchRange (wr_key r) (wr_rangeEnd r) ids' :: erase_ranges l' id
  end.

Definition Cancel (st : registry) (id : Z) (addr : string) : registry * res unit :=
  match watchers_ st !! id with
  | None => (st, Fail K_NOT_FOUND)
  | Some w =>
    if negb (empty_str addr) && negb (bool_decide (watcherAddr w = addr)) then (st, Fail K_INVALID)
    else
      let exactKey := match watchScopesById_ st !! id with
                      | Some (k, re) => if empty_str re then Some k else None
                      | None => None
                      end in
      (MkRegistry
         (delete id (watchers_ st))
         (if empty_str (registrationId w) then watchIdsByRegistrationId_ st
          else delete (registrationId w) (watchIdsByRegistrationId_ st))
         (delete id (watchScopesById_ st))
         (match exactKey with Some k => erase_exact (exactWatchIdsByKey_ st) k id
                            | None => exactWatchIdsByKey_ st end)
         (match exactKey with Some _ => rangeWatches_ st | None => erase_ranges (rangeWatches_ st) id end)
         (nextWatchId_ st),
       Ok tt)
  end.

(** The active watchers among a set of ids, in iteration order. *)
Definition active_watchers (st : registry) (ids : gset Z) : list WatcherEntry :=
  omap (λ id, match watchers_ st !! id with Some w => if active w then Some w else None | None => None end)
    (elements ids).

(** [matched] is appended to by the code; every caller passes an empty vector. *)
Definition MatchWatchers (st : registry) (key : string) : list WatcherEntry :=
  match exactWatchIdsByKey_ st !! key with Some ids => active_watchers st ids | None => [] end
  ++ flat_map (λ r, if IsKeyInRange key r then active_watchers st (wr_watchIds r) else []) (rangeWatches_ st).

Definition IsWatchInScopes (st : registry) (id : Z) (tableScopes : list string) : bool :=
  match watchScopesById_ st !! id with
  | None => false
  | Some (key, _) => existsb (IsInTableScope key) tableScopes
  end.

(** ** Specification: a map from watch ids to watches *)
Record watch := MkWatch { w_addr : string; w_rid : string; w_key : string; w_rangeEnd : string }.

Definition abs (st : registry) : gmap Z watch :=
  map_imap (λ id w, (λ scope, MkWatch (watcherAddr w) (registrationId w) scope.1 scope.2)
                      <$> watchScopesById_ st !! id) (watchers_ st).

(** ** Invariant *)
Definition pair_of (r : WatchRange) : string * string := (wr_key r, wr_rangeEnd r).

(** [id] is in the group of [[key, re)]. *)
Definition in_group (l : list WatchRange) (key re : string) (id : Z) : Prop :=
  ∃ r, r ∈ l ∧ pair_of r = (key, re) ∧ id ∈ wr_watchIds r.

Definition reg_inv (st : registry) : Prop :=
  (∀ id, is_Some (watchers_ st !! id) ↔ is_Some (watchScopesById_ st !! id))
  ∧ (∀ id w, watchers_ st !! id = Some w → watchId w = id ∧ active w = true ∧ 1 ≤ id < nextWatchId_ st)
  ∧ (∀ rid id, watchIdsByRegistrationId_ st !! rid = Some id ↔
       rid ≠ "" ∧ ∃ w, watchers_ st !! id = Some w ∧ registrationId w = rid)
  ∧ (∀ k id, id ∈ (default ∅ (exactWatchIdsByKey_ st !! k) : gset Z) ↔ watchScopesById_ st !! id = Some (k, ""))
  ∧ NoDup (pair_of <$> rangeWatches_ st)
  ∧ (∀ k re id, in_group (rangeWatches_ st) k re id ↔ re ≠ "" ∧ watchScopesById_ st !! id = Some (k, re))
  ∧ 1 ≤ nextWatchId_ st.

(** ** Lemmas on the indexes *)
Lemma elem_of_insert_exact m key id k id' :
  id' ∈ (default ∅ (insert_exact m key id !! k) : gset Z)
  ↔ (k = key ∧ id' = id) ∨ id' ∈ (default ∅ (m !! k) : gset Z).
Proof.
  rewrite /insert_exact lookup_insert. case_decide as Hk; simpl.
  - subst. rewrite elem_of_union elem_of_singleton. tauto.
  - split; [by right|]. intros [[-> _]|?]; done.
Qed.

Lemma elem_of_erase_exact m key id k id' :
  id' ∈ (default ∅ (erase_exact m key id !! k) : gset Z)
  ↔ id' ∈ (default ∅ (m !! k) : gset Z) ∧ ¬ (k = key ∧ id' = id).
Proof.
  rewrite /erase_exact. destruct (m !! key) as [ids|] eqn:E.
  - case_decide as He.
    + rewrite lookup_delete. case_decide as Hk; simpl; [subst; rewrite E /=|naive_solver].
      split; [by intros ?%elem_of_empty|]. intros [Hin Hne]. rewrite -He. set_solver.
    + rewrite lookup_insert. case_decide as Hk; simpl; [subst; rewrite E /=; set_solver|naive_solver].
  - split; [|by intros [? _]]. intros Hin. split; [done|]. intros [-> ->]. by rewrite E in Hin.
Qed.

Lemma in_group_nil k re id : ¬ in_group [] k re id.
Proof. intros (r & Hr & _). by apply elem_of_nil in Hr. Qed.

Lemma in_group_cons r l k re id :
  in_group (r :: l) k re id ↔ (pair_of r = (k, re) ∧ id ∈ wr_watchIds r) ∨ in_group l k re id.
Proof.
  rewrite /in_group. setoid_rewrite elem_of_cons. split.
  - intros (r' & [->|Hr] & Hp & Hid); [by left|right; eauto].
  - intros [[Hp Hid]|(r' & Hr & Hp & Hid)]; eauto.
Qed.

Lemma IsSameRange_true r key re : IsSameRange r key re = true ↔ pair_of r = (key, re).
Proof.
  rewrite /IsSameRange /pair_of andb_true_iff !bool_decide_eq_true. naive_solver.
Qed.

Lemma insert_range_pairs l key re id :
  pair_of <$> insert_range l key re id
  = (pair_of <$> l) ++ (if decide ((key, re) ∈ pair_of <$> l) then [] else [(key, re)]).
Proof.
  induction l as [|r l IH]; [done|]. simpl. destruct (IsSameRange r key re) eqn:E.
  - apply IsSameRange_true in E. rewrite decide_True; [rewrite -E; by left|]. rewrite app_nil_r /=.
    by f_equal.
  - rewrite fmap_cons IH /=. f_equal. f_equal. apply not_true_iff_false in E. rewrite IsSameRange_true in E.
    destruct (decide ((key, re) ∈ pair_of <$> l)) as [Hd|Hd]; case_decide as Hd'; try done.
    + destruct Hd'. by right.
    + apply elem_of_cons in Hd' as [Heq|?]; [|done]. by destruct E.
Qed.

Lemma insert_range_NoDup l key re id :
  NoDup (pair_of <$> l) → NoDup (pair_of <$> insert_range l key re id).
Proof.
  intros Hnd. rewrite insert_range_pairs. case_decide as Hin; [by rewrite app_nil_r|].
  apply NoDup_app. split_and!; [done| |apply NoDup_singleton]. intros x Hx ->%list_elem_of_singleton. done.
Qed.

Lemma in_group_insert l key re id k re' id' :
  in_group (insert_range l key re id) k re' id'
  ↔ in_group l k re' id' ∨ (k = key ∧ re' = re ∧ id' = id).
Proof.
  induction l as [|r l IH]; simpl.
  - rewrite in_group_cons /pair_of /=. pose proof (in_group_nil k re' id'). rewrite elem_of_singleton. naive_solver.
  - destruct (IsSameRange r key re) eqn:E.
    + apply IsSameRange_true in E. rewrite !in_group_cons /= elem_of_union elem_of_singleton.
      change (pair_of (MkWatchRange _ _ _)) with (pair_of r). rewrite E. naive_solver.
    + rewrite !in_group_cons IH. tauto.
Qed.

Lemma in_group_erase l id k re id' :
  in_group (erase_ranges l id) k re id' ↔ in_group l k re id' ∧ id' ≠ id.
Proof.
  induction l as [|r l IH]; simpl.
  - pose proof (in_group_nil k re id'). tauto.
  - case_decide as He.
    + rewrite IH in_group_cons. split; [tauto|]. intros [[[_ Hin]|?] Hne]; [|done]. set_solver.
    + rewrite !in_group_cons IH /= elem_of_difference elem_of_singleton.
      change (pair_of (MkWatchRange _ _ _)) with (pair_of r). tauto.
Qed.

Lemma erase_ranges_pairs l id x : x ∈ pair_of <$> erase_ranges l id → x ∈ pair_of <$> l.
Proof.
  induction l as [|r l IH]; simpl; [done|]. case_decide; [by right; apply IH|].
  rewrite fmap_cons !elem_of_cons. intros [->|?]; [by left|right; by apply IH].
Qed.

Lemma erase_ranges_NoDup l id : NoDup (pair_of <$> l) → NoDup (pair_of <$> erase_ranges l id).
Proof.
  induction l as [|r l IH]; simpl; [done|]. intros [Hn Hnd]%NoDup_cons. case_decide; [by apply IH|].
  apply NoDup_cons. split; [|by apply IH]. intros ?%erase_ranges_pairs. done.
Qed.

(** ** The abstraction *)
Lemma lookup_abs st id :
  abs st !! id = w ← watchers_ st !! id; sc ← watchScopesById_ st !! id;
                 Some (MkWatch (watcherAddr w) (registrationId w) sc.1 sc.2).
Proof.
  rewrite /abs map_lookup_imap. destruct (watchers_ st !! id); simpl; [|done].
  by destruct (watchScopesById_ st !! id).
Qed.

Lemma abs_Some st id w :
  abs st !! id = Some w ↔
  ∃ e, watchers_ st !! id = Some e ∧ watcherAddr e = w_addr w ∧ registrationId e = w_rid w
       ∧ watchScopesById_ st !! id = Some (w_key w, w_rangeEnd w).
Proof.
  rewrite lookup_abs. destruct w as [a r k re]. destruct (watchers_ st !! id) as [e|]; simpl.
  - destruct (watchScopesById_ st !! id) as [[k' re']|]; simpl; naive_solver.
  - naive_solver.
Qed.

(** ** Preservation *)
Lemma watcher_scope_None st id : reg_inv st → watchers_ st !! id = None → watchScopesById_ st !! id = None.
Proof.
  intros [Hd _] Hw. apply eq_None_not_Some. rewrite -Hd. by rewrite Hw; intros [? ?].
Qed.

Lemma fresh_id st : reg_inv st → watchers_ st !! nextWatchId_ st = None.
Proof.
  intros (_ & Hw & _). destruct (watchers_ st !! nextWatchId_ st) as [w|] eqn:E; [|done].
  apply Hw in E as (_ & _ & ?). lia.
Qed.

Lemma register_new_inv st key re addr rid :
  reg_inv st → nextWatchId_ st < INT64_MAX →
  (rid = "" ∨ watchIdsByRegistrationId_ st !! rid = None) →
  reg_inv (register_new st key re addr rid).1.
Proof.
  intros Hinv Hmax Hrid. pose proof (fresh_id st Hinv) as Hfw.
  pose proof (watcher_scope_None _ _ Hinv Hfw) as Hfs.
  destruct Hinv as (Hd & Hw & Hr & He & Hnd & Hg & Hn).
  assert (i64 (nextWatchId_ st + 1) = nextWatchId_ st + 1) as Hi by (apply i64_small; unfold INT64_MAX in *; lia).
  rewrite /register_new. split_and!; cbn [fst watchers_ watchIdsByRegistrationId_ watchScopesById_
    exactWatchIdsByKey_ rangeWatches_ nextWatchId_]; rewrite ?Hi.
  - intros id. rewrite !lookup_insert. case_decide; [by split; eauto|apply Hd].
  - intros id w. rewrite lookup_insert. case_decide as Hid.
    + intros [= <-]. simpl. subst. split_and!; [done|done|lia..].
    + intros (?&?&?)%Hw. split_and!; [done|done|lia..].
  - intros rid' id. rewrite lookup_insert. destruct (empty_str rid) eqn:Erid.
    + apply empty_str_true in Erid as ->. rewrite Hr. case_decide as Hid.
      * subst. rewrite Hfw. naive_solver.
      * done.
    + apply empty_str_false in Erid. destruct Hrid as [?|Hnone]; [done|].
      rewrite lookup_insert. case_decide as Hrr; case_decide as Hid; subst; simpl.
      * naive_solver.
      * split; [congruence|]. intros [_ (w & Hw1 & Hw2)].
        assert (watchIdsByRegistrationId_ st !! rid' = Some id) by (apply Hr; eauto). congruence.
      * rewrite Hr Hfw. naive_solver.
      * apply Hr.
  - intros k id. rewrite lookup_insert. destruct (empty_str re) eqn:Ere.
    + apply empty_str_true in Ere as ->. rewrite elem_of_insert_exact He.
      case_decide as Hid; subst; [rewrite Hfs|]; naive_solver.
    + apply empty_str_false in Ere. rewrite He. case_decide as Hid; subst; [rewrite Hfs|]; naive_solver.
  - destruct (empty_str re); [done|]. by apply insert_range_NoDup.
  - intros k re' id. rewrite lookup_insert. destruct (empty_str re) eqn:Ere.
    + apply empty_str_true in Ere as ->. rewrite Hg. case_decide as Hid; subst; [rewrite Hfs|]; naive_solver.
    + apply empty_str_false in Ere. rewrite in_group_insert Hg.
      case_decide as Hid; subst; [rewrite Hfs|]; naive_solver.
  - lia.
Qed.

Lemma Cancel_inv st id addr : reg_inv st → reg_inv (Cancel st id addr).1.
Proof.
  intros Hinv. rewrite /Cancel. destruct (watchers_ st !! id) as [w|] eqn:Ew; [|done].
  destruct (negb _ && negb _); [done|]. destruct Hinv as (Hd & Hw & Hr & He & Hnd & Hg & Hn).
  assert (is_Some (watchScopesById_ st !! id)) as [[k0 re0] Esc] by (apply Hd; eauto). rewrite Esc.
  split_and!; cbn [fst watchers_ watchIdsByRegistrationId_ watchScopesById_
    exactWatchIdsByKey_ rangeWatches_ nextWatchId_].
  - intros id'. rewrite !lookup_delete. case_decide; [|apply Hd]. by split; intros [??].
  - intros id' w' [_ ?]%lookup_delete_Some. by apply Hw.
  - intros rid id'. rewrite lookup_delete.
    assert (∀ id2 w2, watchers_ st !! id2 = Some w2 → registrationId w2 = registrationId w →
      registrationId w ≠ "" → id2 = id) as Huniq.
    { intros id2 w2 H2 Heq Hne. assert (watchIdsByRegistrationId_ st !! registrationId w = Some id2) by (apply Hr; eauto).
      assert (watchIdsByRegistrationId_ st !! registrationId w = Some id) by (apply Hr; eauto). congruence. }
    destruct (empty_str (registrationId w)) eqn:Er.
    + apply empty_str_true in Er. rewrite Hr. case_decide as Hid; [subst; rewrite Ew|done]. naive_solver.
    + apply empty_str_false in Er. rewrite lookup_delete. case_decide as Hrr.
      * split; [done|]. intros [_ (w' & Hw' & <-)]. case_decide as Hid; [done|].
        destruct Hid. symmetry. by eapply Huniq.
      * rewrite Hr. case_decide as Hid; [subst; rewrite Ew|done]. naive_solver.
  - intros k id'. rewrite lookup_delete. destruct (empty_str re0) eqn:Ere.
    + apply empty_str_true in Ere as ->. rewrite elem_of_erase_exact He.
      case_decide as Hid; subst; [rewrite Esc|]; naive_solver.
    + apply empty_str_false in Ere. rewrite He. case_decide as Hid; subst; [rewrite Esc|done]. naive_solver.
  - destruct (empty_str re0); [done|]. by apply erase_ranges_NoDup.
  - intros k re id'. rewrite lookup_delete. destruct (empty_str re0) eqn:Ere.
    + apply empty_str_true in Ere as ->. rewrite Hg. case_decide as Hid; subst; [rewrite Esc|done]. naive_solver.
    + rewrite in_group_erase Hg. case_decide as Hid; subst; [|naive_solver]. split; [by intros [_ ?]|by intros [_ ?]].
  - done.
Qed.

Lemma Cancel_scopes st id addr :
  reg_inv st → (Cancel st id addr).2 = Ok tt →
  watchScopesById_ (Cancel st id addr).1 = delete id (watchScopesById_ st).
Proof.
  intros (Hd & _). rewrite /Cancel. destruct (watchers_ st !! id) as [w|] eqn:Ew; [|done].
  destruct (negb _ && negb _); [done|]. intros _.
  assert (is_Some (watchScopesById_ st !! id)) as [[k0 re0] Esc] by (apply Hd; eauto). by rewrite Esc.
Qed.

(** ** Matching *)
Lemma active_watchers_ids st ids :
  reg_inv st → (∀ id, id ∈ ids → is_Some (watchers_ st !! id)) →
  watchId <$> active_watchers st ids = elements ids.
Proof.
  intros (_ & Hw & _) Hall. rewrite /active_watchers.
  assert (∀ id, id ∈ elements ids → is_Some (watchers_ st !! id)) as Hel.
  { intros id ?%elem_of_elements. by apply Hall. }
  clear Hall. induction (elements ids) as [|id l IH]; simpl; [done|].
  destruct (Hel id ltac:(by left)) as [w Hid]. rewrite Hid. destruct (Hw _ _ Hid) as (Hwid & -> & _). simpl.
  rewrite Hwid. f_equal. apply IH. intros id' ?. apply Hel. by right.
Qed.

Lemma ranges_match (scopes : gmap Z (string * string)) key l :
  NoDup (pair_of <$> l) →
  (∀ r id, r ∈ l → id ∈ wr_watchIds r → scopes !! id = Some (pair_of r)) →
  let ids := flat_map (λ r, if IsKeyInRange key r then elements (wr_watchIds r) else []) l in
  NoDup ids ∧ ∀ id, id ∈ ids ↔ ∃ r, r ∈ l ∧ IsKeyInRange key r = true ∧ id ∈ wr_watchIds r.
Proof.
  intros Hnd Hsc. induction l as [|r l IH]; simpl.
  { split; [constructor|]. intros id. split; [by intros ?%elem_of_nil|].
    intros (r & Hr & _). by apply elem_of_nil in Hr. }
  apply NoDup_cons in Hnd as [Hn Hnd]. destruct IH as [IHnd IHin]; [done| |].
  { intros r' id Hr'. apply Hsc. by right. }
  assert (∀ id, id ∈ (if IsKeyInRange key r then elements (wr_watchIds r) else [])
    ↔ IsKeyInRange key r = true ∧ id ∈ wr_watchIds r) as Hhd.
  { intros id. destruct (IsKeyInRange key r); [rewrite elem_of_elements; naive_solver|].
    split; [by intros ?%elem_of_nil|by intros [? _]]. }
  split.
  - apply NoDup_app. split_and!; [destruct (IsKeyInRange key r); [apply NoDup_elements|constructor]| |done].
    intros id [_ Hid]%Hhd (r' & Hr' & _ & Hid')%IHin. apply Hn.
    pose proof (Hsc r id ltac:(by left) Hid) as H1. pose proof (Hsc r' id ltac:(by right) Hid') as H2.
    assert (pair_of r = pair_of r') as -> by congruence. by apply list_elem_of_fmap_2.
  - intros id. rewrite elem_of_app Hhd IHin. setoid_rewrite elem_of_cons. naive_solver.
Qed.

Lemma MatchWatchers_ids st key :
  reg_inv st →
  NoDup (watchId <$> MatchWatchers st key)
  ∧ ∀ id, id ∈ watchId <$> MatchWatchers st key ↔
       ∃ k re, watchScopesById_ st !! id = Some (k, re) ∧ in_scope key k re.
Proof.
  intros Hinv. pose proof Hinv as (Hd & Hw & Hr & He & Hnd & Hg & Hn).
  assert (∀ r id, r ∈ rangeWatches_ st → id ∈ wr_watchIds r →
    wr_rangeEnd r ≠ "" ∧ watchScopesById_ st !! id = Some (pair_of r)) as Hrng.
  { intros r id Hr' Hid. apply Hg. by exists r. }
  assert (watchId <$> MatchWatchers st key =
    elements (default ∅ (exactWatchIdsByKey_ st !! key) : gset Z)
    ++ flat_map (λ r, if IsKeyInRange key r then elements (wr_watchIds r) else []) (rangeWatches_ st)) as ->.
  { rewrite /MatchWatchers fmap_app. f_equal.
    - assert (∀ id, id ∈ (default ∅ (exactWatchIdsByKey_ st !! key) : gset Z) → is_Some (watchers_ st !! id)) as Hex.
      { intros id Hid%He. apply Hd. eauto. }
      destruct (exactWatchIdsByKey_ st !! key); simpl in *; [by apply active_watchers_ids|done].
    - revert Hrng. generalize (rangeWatches_ st) as l.
      induction l as [|r l IH]; intros Hrng; simpl; [done|]. rewrite fmap_app IH.
      + intros r' id Hr'. apply Hrng. by right.
      + f_equal. destruct (IsKeyInRange key r); [|done]. apply active_watchers_ids; [done|].
        intros id Hid. apply Hd. exists (pair_of r). apply (Hrng r id); [by left|done]. }
  destruct (ranges_match (watchScopesById_ st) key (rangeWatches_ st) Hnd) as [Hnd2 Hin2].
  { intros r id ??. by apply Hrng. }
  assert (∀ r, IsKeyInRange key r = true ↔ String.le (wr_key r) key ∧ str_lt key (wr_rangeEnd r)) as Hik.
  { intros r. by rewrite /IsKeyInRange andb_true_iff !bool_decide_eq_true. }
  split.
  - apply NoDup_app. split_and!; [apply NoDup_elements| |done].
    intros id Hid%elem_of_elements%He (r & Hr' & _ & Hid')%Hin2. destruct (Hrng r id Hr' Hid') as [Hne Hsc].
    rewrite Hid in Hsc. injection Hsc as _ Hre. done.
  - intros id. rewrite elem_of_app elem_of_elements He Hin2. split.
    + intros [Hsc|(r & Hr' & Hk & Hid)]; [by exists key, ""|].
      destruct (Hrng r id Hr' Hid) as [Hne Hsc]. exists (wr_key r), (wr_rangeEnd r). split; [done|].
      rewrite /in_scope. apply empty_str_false in Hne as ->. by apply Hik.
    + intros (k & re & Hsc & Hin). rewrite /in_scope in Hin. destruct (empty_str re) eqn:Ere.
      * apply empty_str_true in Ere as ->. subst. by left.
      * apply empty_str_false in Ere. right. destruct (proj2 (Hg k re id)) as (r & Hr' & Hp & Hid); [done|].
        exists r. injection Hp as <- <-. split_and!; [done|by apply Hik|done].
Qed.

(** A registry with an exact watch and two range watches. *)
Definition demo : registry :=
  (Register (Register (Register init "/a" "" "w1" "t1").1 "/a" "/c" "w2" "t2").1 "/b" "/z" "w1" "").1.

Lemma registry_init_inv : reg_inv init.
Proof.
  split_and!; simpl.
  - intros id. by rewrite !lookup_empty.
  - intros id w. by rewrite lookup_empty.
  - intros rid id. rewrite lookup_empty. split; [done|]. intros [_ (w & Hw & _)]. by rewrite lookup_empty in Hw.
  - intros k id. rewrite !lookup_empty /=. split; [by intros ?%elem_of_empty|done].
  - constructor.
  - intros k re id. rewrite lookup_empty. split; [by intros ?%in_group_nil|by intros [_ ?]].
  - lia.
Qed.

Lemma Register_inv st key re addr rid :
  reg_inv st → nextWatchId_ st < INT64_MAX → reg_inv (Register st key re addr rid).1.
Proof.
  intros Hinv Hmax. rewrite /Register. destruct (empty_str rid) eqn:Er.
  - apply register_new_inv; [done|done|]. left. by apply empty_str_true.
  - destruct (watchIdsByRegistrationId_ st !! rid) as [id|] eqn:E; [done|].
    apply register_new_inv; auto.
Qed.

Lemma registry_demo_inv : reg_inv demo.
Proof. repeat apply Register_inv; try by vm_compute. apply registry_init_inv. Qed.

(** ** Properties *)

(** the registry refines a map from watch ids to watches.  [Register] without a known token creates a
    watch under a fresh id; with a token that is already registered it returns the existing id and
    changes nothing, provided address and range agree, and fails with K_INVALID otherwise, again without
    any change.  The consistency of the five tables is preserved. *)
Theorem Register_refines (st : registry) (key re addr rid : string)
    (Hinv : reg_inv st) (Hmax : nextWatchId_ st < INT64_MAX) :
  match Register st key re addr rid with
  | (st', Ok (id, true)) =>
      reg_inv st' ∧ abs st !! id = None ∧ abs st' = <[id := MkWatch addr rid key re]> (abs st)
      ∧ (rid ≠ "" → ∀ id' w, abs st !! id' = Some w → w_rid w ≠ rid)
  | (st', Ok (id, false)) => st' = st ∧ rid ≠ "" ∧ abs st !! id = Some (MkWatch addr rid key re)
  | (st', Fail c) => st' = st ∧ c = K_INVALID ∧ rid ≠ ""
      ∧ ∃ id w, abs st !! id = Some w ∧ w_rid w = rid ∧ w ≠ MkWatch addr rid key re
  end.
Proof.
  pose proof (Register_inv st key re addr rid Hinv Hmax) as Hinv'.
  pose proof Hinv as (Hd & _ & Hr & _). rewrite /Register in Hinv' |- *.
  destruct (if empty_str rid then None else watchIdsByRegistrationId_ st !! rid) as [id|] eqn:E.
  - destruct (empty_str rid) eqn:Er; [done|]. apply empty_str_false in Er.
    apply Hr in E as [_ (w & Hw & Hrid)]. rewrite Hw. destruct (Hd id) as [[[k0 re0] Hsc] _]; [by eauto|].
    assert (abs st !! id = Some (MkWatch (watcherAddr w) rid k0 re0)) as Habs.
    { apply abs_Some. simpl. rewrite -Hrid. eauto. }
    destruct (bool_decide (watcherAddr w = addr)) eqn:Ha;
      [destruct (bool_decide (watchScopesById_ st !! id = Some (key, re))) eqn:Hs|].
    + apply bool_decide_eq_true in Ha, Hs. split_and!; [done..|]. rewrite Habs. congruence.
    + apply bool_decide_eq_false in Hs. split_and!; [done..|]. eexists _, _. split_and!; [done|done|]. congruence.
    + apply bool_decide_eq_false in Ha. split_and!; [done..|]. eexists _, _. split_and!; [done|done|]. congruence.
  - simpl in Hinv' |- *. pose proof (fresh_id st Hinv) as Hf. split; [done|]. split; [by rewrite lookup_abs Hf|]. split.
    + apply map_eq. intros id'. rewrite lookup_abs /= !lookup_insert. case_decide; [done|].
      by rewrite lookup_abs.
    + intros Hne id' w (e & He1 & _ & He2 & _)%abs_Some Heq. apply empty_str_false in Hne as Hb. rewrite Hb in E.
      assert (watchIdsByRegistrationId_ st !! rid = Some id'); [|congruence].
      apply Hr. split; [done|]. exists e. split; [done|congruence].
Qed.

Lemma Register_refines_witness :
  Register demo "/a" "/c" "w2" "t2" = (demo, Ok (2, false))
  ∧ abs demo !! 2 = Some (MkWatch "w2" "t2" "/a" "/c").
Proof.
  pose proof (Register_refines demo "/a" "/c" "w2" "t2" registry_demo_inv) as H.
  assert (Register demo "/a" "/c" "w2" "t2" = (demo, Ok (2, false))) as E by (vm_compute; reflexivity).
  rewrite E in H. split; [done|]. apply H. vm_compute. reflexivity.
Defined.

(** [Cancel] removes exactly the watch it names.  It succeeds only for the owner's address (an empty
    address cancels unconditionally), reports an unknown id as K_NOT_FOUND and a foreign address as
    K_INVALID without any change, and keeps the tables consistent. *)
Theorem Cancel_refines (st : registry) (id : Z) (addr : string) (Hinv : reg_inv st) :
  match Cancel st id addr with
  | (st', Ok _) => reg_inv st' ∧ abs st' = delete id (abs st)
      ∧ ∃ w, abs st !! id = Some w ∧ (addr = "" ∨ w_addr w = addr)
  | (st', Fail c) => st' = st
      ∧ ((c = K_NOT_FOUND ∧ abs st !! id = None)
         ∨ (c = K_INVALID ∧ ∃ w, abs st !! id = Some w ∧ addr ≠ "" ∧ w_addr w ≠ addr))
  end.
Proof.
  pose proof (Cancel_inv st id addr Hinv) as Hinv'. pose proof Hinv as (Hd & _).
  rewrite /Cancel in Hinv' |- *. destruct (watchers_ st !! id) as [w|] eqn:Ew.
  - destruct (Hd id) as [[[k0 re0] Hsc] _]; [by eauto|].
    assert (abs st !! id = Some (MkWatch (watcherAddr w) (registrationId w) k0 re0)) as Habs.
    { apply abs_Some. simpl. eauto. }
    destruct (negb (empty_str addr) && negb (bool_decide (watcherAddr w = addr))) eqn:Hg.
    + apply andb_true_iff in Hg as [?%negb_true_iff%empty_str_false ?%negb_true_iff%bool_decide_eq_false].
      split; [done|]. right. split; [done|]. eauto.
    + split; [done|]. split.
      * apply map_eq. intros id'. rewrite lookup_abs /= !lookup_delete.
        destruct (decide (id = id')); [done|]. by rewrite lookup_abs.
      * exists (MkWatch (watcherAddr w) (registrationId w) k0 re0). split; [done|]. simpl.
        apply andb_false_iff in Hg as [Hg|Hg]; apply negb_false_iff in Hg;
          [left; by apply empty_str_true|right; by apply bool_decide_eq_true in Hg].
  - split; [done|]. left. split; [done|]. by rewrite lookup_abs Ew.
Qed.

Lemma Cancel_refines_witness :
  reg_inv (Cancel demo 2 "w2").1 ∧ abs (Cancel demo 2 "w2").1 = delete 2 (abs demo).
Proof. pose proof (Cancel_refines demo 2 "w2" registry_demo_inv) as H. split; apply H. Defined.

(** matching is exact.  For a mutated key the registry returns every live watch whose scope contains
    the key, exactly once, and no other: the exact-key index and the grouped ranges together answer the
    same query as the specification map. *)
Theorem MatchWatchers_exact (st : registry) (key : string) (Hinv : reg_inv st) :
  NoDup (watchId <$> MatchWatchers st key)
  ∧ ∀ id, id ∈ watchId <$> MatchWatchers st key ↔
       ∃ w, abs st !! id = Some w ∧ in_scope key (w_key w) (w_rangeEnd w).
Proof.
  destruct (MatchWatchers_ids st key Hinv) as [Hnd Hin]. split; [done|]. intros id. rewrite Hin.
  pose proof Hinv as (Hd & _). split.
  - intros (k & re & Hsc & Hk). destruct (Hd id) as [_ [e He]]; [by eauto|].
    exists (MkWatch (watcherAddr e) (registrationId e) k re). split; [|done]. apply abs_Some. simpl. eauto.
  - intros (w & (e & _ & _ & _ & Hsc)%abs_Some & Hk). eauto.
Qed.

Lemma MatchWatchers_exact_witness :
  NoDup (watchId <$> MatchWatchers demo "/b") ∧ watchId <$> MatchWatchers demo "/b" = [2; 3].
Proof.
  split; [|vm_compute; reflexivity]. apply MatchWatchers_exact. apply registry_demo_inv.
Defined.
End WatchRegistry.
