(* ===== verification/WatchDispatcher.v ===== *)
(** * WatchDispatcher: fan-out and delivery of watch events

    Model of [src/datasystem/common/coordinator/watch_dispatcher.{h,cpp}] and of [watch_event.h]'s limits.

    A [WatcherChannel] is shared (by [shared_ptr]) between the channel table, the ready queues and the
    retry queues of the dispatch groups, and survives its removal from the table while a worker still holds
    it: channels live in a heap and every structure holds pointers to them.  Each definition is one
    critical section, or the composition of critical sections the code runs; where another thread can run
    between two of them ([DoNotify] is called without any lock held) the composition takes that
    interference as an argument.  The watch registry is used through the interface [RegistryOps]; what the
    dispatcher relies on is [RegistryLaws].  [DoNotify] is virtual (an RPC in production) and is a
    parameter, as is [std::hash<int64_t>], whose value the standard leaves open. *)
From S2P Require Import Prelude MemoryKvStore WatchRegistry.
Import MemoryKvStore.

(** ** What the dispatcher asks of the watch registry *)
Class RegistryOps (R : Type) := {
  reg_match : R → string → list Z;
  reg_cancel : R → Z → string → R * res unit;
  reg_in_scopes : R → Z → list string → bool }.

(** The ids matched by a key are distinct, are those of live watches, and a cancelled watch is never
    matched again. *)
Class RegistryLaws (R : Type) `{RegistryOps R} := {
  reg_ok : R → Prop;
  reg_match_NoDup r key : reg_ok r → NoDup (reg_match r key);
  reg_cancel_ok r id addr : reg_ok r → reg_ok (reg_cancel r id addr).1;
  reg_cancel_match r id addr key : reg_ok r → (reg_cancel r id addr).2 = Ok tt →
    ∀ id', id' ∈ reg_match (reg_cancel r id addr).1 key ↔ id' ∈ reg_match r key ∧ id' ≠ id }.

(** The watch registry of the coordinator store implements the interface. *)
#[export] Instance WatchRegistry_ops : RegistryOps WatchRegistry.registry := {
  reg_match st key := WatchRegistry.watchId <$> WatchRegistry.MatchWatchers st key;
  reg_cancel := WatchRegistry.Cancel;
  reg_in_scopes := WatchRegistry.IsWatchInScopes }.

#[export] Program Instance WatchRegistry_laws : RegistryLaws WatchRegistry.registry := {
  reg_ok := WatchRegistry.reg_inv }.
Next Obligation. intros r key Hok. by apply WatchRegistry.MatchWatchers_ids. Qed.
Next Obligation. intros r id addr Hok. by apply WatchRegistry.Cancel_inv. Qed.
Next Obligation.
  intros r id addr key Hok Hc id'. pose proof (WatchRegistry.Cancel_inv r id addr Hok) as Hok'. simpl.
  rewrite (proj2 (WatchRegistry.MatchWatchers_ids _ key Hok')) (proj2 (WatchRegistry.MatchWatchers_ids _ key Hok)).
  rewrite (WatchRegistry.Cancel_scopes r id addr Hok Hc). setoid_rewrite lookup_delete.
  case_decide; naive_solver.
Qed.

Module WatchDispatcher.
Local Open Scope Z_scope.

Definition MAX_WATCH_EVENTS_PER_BATCH : nat := 32.
Definition WATCH_EVENT_BATCH_MERGE_THRESHOLD_BYTES : Z := 256 * 1024.
Definition WATCH_EVENT_WIRE_OVERHEAD_BYTES : Z := 128.
Definition MAX_PENDING_EVENTS : nat := Z.to_nat 10000.
Definition INITIAL_RETRY_DELAY_MS : Z := 100.
Definition MAX_RETRY_DELAY_MS : Z := 5000.
Definition RETRY_DELAY_MULTIPLIER : Z := 2.
Definition RETRY_JITTER_PERCENT : Z := 20.
Definition PERCENT_SCALE : Z := 100.
Definition MAX_READY_CHANNEL_GROUPS : nat := 8.
Definition MAX_WATCH_EVENTS_PER_FAN_OUT : nat := Z.to_nat 4096.
Definition NS_PER_MS : Z := 1000000.

#[global] Arguments MAX_WATCH_EVENTS_PER_BATCH : simpl never.
#[global] Arguments MAX_PENDING_EVENTS : simpl never.
#[global] Arguments MAX_WATCH_EVENTS_PER_FAN_OUT : simpl never.

Record channel := MkChannel {
  ch_watchId : Z;
  ch_addr : string;
  queue : list WatchEvent;
  backpressureLimit : nat;
  snapshotRevision : Z;
  needReWatch : bool;
  dispatchQueued : bool;
  retryDelayMs : Z;
  cancelled : bool }.

(** A freshly made channel: [backpressureLimit] is 1024. *)
Definition new_channel (id : Z) (addr : string) : channel :=
  MkChannel id addr [] (Z.to_nat 1024) 0 false false 0 false.

Record group := MkGroup { readyChannels : list nat; retryChannels : list (Z * nat) }.

Record dispatcher := MkDispatcher {
  pendingQueue_ : list WatchEvent;
  droppedPendingEvents_ : Z;
  cancelFailures_ : Z;
  notifyFailures_ : Z;
  pendingOverflow_ : bool;
  heap : gmap nat channel;
  nextPtr : nat;
  channels_ : gmap Z nat;
  watchIdsByWatcher_ : gmap string (gset Z);
  groups : list group;
  running_ : bool }.

Definition init : dispatcher := MkDispatcher [] 0 0 0 false ∅ 0 ∅ ∅ [] false.

(** Field updates. *)
Definition with_pending (q : list WatchEvent) (d : dispatcher) : dispatcher :=
  MkDispatcher q (droppedPendingEvents_ d) (cancelFailures_ d) (notifyFailures_ d) (pendingOverflow_ d) (heap d)
    (nextPtr d) (channels_ d) (watchIdsByWatcher_ d) (groups d) (running_ d).
Definition with_overflow (n : Z) (b : bool) (d : dispatcher) : dispatcher :=
  MkDispatcher (pendingQueue_ d) n (cancelFailures_ d) (notifyFailures_ d) b (heap d)
    (nextPtr d) (channels_ d) (watchIdsByWatcher_ d) (groups d) (running_ d).
Definition with_failures (c n : Z) (d : dispatcher) : dispatcher :=
  MkDispatcher (pendingQueue_ d) (droppedPendingEvents_ d) c n (pendingOverflow_ d) (heap d)
    (nextPtr d) (channels_ d) (watchIdsByWatcher_ d) (groups d) (running_ d).
Definition with_heap (h : gmap nat channel) (d : dispatcher) : dispatcher :=
  MkDispatcher (pendingQueue_ d) (droppedPendingEvents_ d) (cancelFailures_ d) (notifyFailures_ d)
    (pendingOverflow_ d) h (nextPtr d) (channels_ d) (watchIdsByWatcher_ d) (groups d) (running_ d).
Definition with_table (c : gmap Z nat) (w : gmap string (gset Z)) (d : dispatcher) : dispatcher :=
  MkDispatcher (pendingQueue_ d) (droppedPendingEvents_ d) (cancelFailures_ d) (notifyFailures_ d)
    (pendingOverflow_ d) (heap d) (nextPtr d) c w (groups d) (running_ d).
Definition with_groups (g : list group) (d : dispatcher) : dispatcher :=
  MkDispatcher (pendingQueue_ d) (droppedPendingEvents_ d) (cancelFailures_ d) (notifyFailures_ d)
    (pendingOverflow_ d) (heap d) (nextPtr d) (channels_ d) (watchIdsByWatcher_ d) g (running_ d).
Definition with_running (b : bool) (d : dispatcher) : dispatcher :=
  MkDispatcher (pendingQueue_ d) (droppedPendingEvents_ d) (cancelFailures_ d) (notifyFailures_ d)
    (pendingOverflow_ d) (heap d) (nextPtr d) (channels_ d) (watchIdsByWatcher_ d) (groups d) b.

Definition with_queue (q : list WatchEvent) (c : channel) : channel :=
  MkChannel (ch_watchId c) (ch_addr c) q (backpressureLimit c) (snapshotRevision c) (needReWatch c)
    (dispatchQueued c) (retryDelayMs c) (cancelled c).
Definition with_snapshot (r : Z) (c : channel) : channel :=
  MkChannel (ch_watchId c) (ch_addr c) (queue c) (backpressureLimit c) r (needReWatch c)
    (dispatchQueued c) (retryDelayMs c) (cancelled c).
Definition with_rewatch (c : channel) : channel :=
  MkChannel (ch_watchId c) (ch_addr c) (queue c) (backpressureLimit c) (snapshotRevision c) true
    (dispatchQueued c) (retryDelayMs c) (cancelled c).
Definition with_queued (b : bool) (c : channel) : channel :=
  MkChannel (ch_watchId c) (ch_addr c) (queue c) (backpressureLimit c) (snapshotRevision c) (needReWatch c)
    b (retryDelayMs c) (cancelled c).
Definition with_retry (r : Z) (c : channel) : channel :=
  MkChannel (ch_watchId c) (ch_addr c) (queue c) (backpressureLimit c) (snapshotRevision c) (needReWatch c)
    (dispatchQueued c) r (cancelled c).

Definition set_channel (p : nat) (c : channel) (d : dispatcher) : dispatcher :=
  with_heap (<[p := c]> (heap d)) d.

(** [overflowEvent == nullptr] is [None]. *)
Definition MakeRewatchEvent (overflowEvent : option WatchEvent) : WatchEvent :=
  MkWatchEvent REWATCH (MkKeyValueEntry "" "" 0 0)
    (match overflowEvent with Some e => ev_revision e | None => 0 end).

Definition Enqueue (d : dispatcher) (event : WatchEvent) : dispatcher :=
  if bool_decide (MAX_PENDING_EVENTS ≤ length (pendingQueue_ d))%nat
  then with_overflow (u64 (droppedPendingEvents_ d + 1)) true d
  else with_pending (pendingQueue_ d ++ [event]) d.

Definition GetPendingEventCount (d : dispatcher) : nat := length (pendingQueue_ d).

Definition CancelChannel (c : channel) : channel :=
  MkChannel (ch_watchId c) (ch_addr c) [] (backpressureLimit c) (snapshotRevision c) (needReWatch c)
    false 0 true.

Definition RemoveReverseIndexLocked (w : gmap string (gset Z)) (c : channel) : gmap string (gset Z) :=
  match w !! ch_addr c with
  | None => w
  | Some ids => let ids' := ids ∖ {[ch_watchId c]} in
                if decide (ids' = ∅) then delete (ch_addr c) w else <[ch_addr c := ids']> w
  end.

(** Cancel the channel of [id] if there is one, and drop its reverse index entry. *)
Definition cancel_by_id (d : dispatcher) (id : Z) : dispatcher :=
  match channels_ d !! id with
  | None => d
  | Some p =>
    match heap d !! p with
    | None => d
    | Some c => with_table (channels_ d) (RemoveReverseIndexLocked (watchIdsByWatcher_ d) c)
                  (set_channel p (CancelChannel c) d)
    end
  end.

Definition AddChannel (d : dispatcher) (id : Z) (addr : string) : dispatcher :=
  let p := nextPtr d in
  let d1 := cancel_by_id d id in
  MkDispatcher (pendingQueue_ d1) (droppedPendingEvents_ d1) (cancelFailures_ d1) (notifyFailures_ d1)
    (pendingOverflow_ d1) (<[p := new_channel id addr]> (heap d1)) (S p)
    (<[id := p]> (channels_ d1))
    (<[addr := {[id]} ∪ default ∅ (watchIdsByWatcher_ d1 !! addr)]> (watchIdsByWatcher_ d1))
    (groups d1) (running_ d1).

Definition RemoveChannel (d : dispatcher) (id : Z) : dispatcher :=
  let d1 := cancel_by_id d id in with_table (delete id (channels_ d1)) (watchIdsByWatcher_ d1) d1.

Section Dispatch.
Context {R : Type} `{RegistryOps R}.
Context (std_hash : Z → Z).
Context (DoNotify : Z → string → list WatchEvent → res unit).

(** The cancellation loop of [RemoveChannelsByWatcher]: failures other than K_NOT_FOUND are counted. *)
Fixpoint cancel_all (r : R) (failures : Z) (ids : list Z) (addr : string) : R * Z :=
  match ids with
  | [] => (r, failures)
  | id :: ids' =>
    let '(r', st) := reg_cancel r id addr in
    let failures' := match st with
                     | Ok _ => failures
                     | Fail c => if decide (c = K_NOT_FOUND) then failures else u64 (failures + 1)
                     end in
    cancel_all r' failures' ids' addr
  end.

Definition RemoveChannelsByWatcher (d : dispatcher) (r : R) (addr : string) : dispatcher * R :=
  match watchIdsByWatcher_ d !! addr with
  | None => (d, r)
  | Some ids =>
    let '(r', failures) := cancel_all r (cancelFailures_ d) (elements ids) addr in
    (foldl RemoveChannel (with_failures failures (notifyFailures_ d) d) (elements ids), r')
  end.

Definition RemoveChannelsByWatcherInScopes (d : dispatcher) (r : R) (addr : string)
    (tableScopes : list string) : dispatcher * R :=
  match watchIdsByWatcher_ d !! addr with
  | None => (d, r)
  | Some ids =>
    foldl (λ dr id, (RemoveChannel dr.1 id, (reg_cancel dr.2 id addr).1)) (d, r)
      (filter (λ id, reg_in_scopes r id tableScopes = true) (elements ids))
  end.

Definition GetReadyGroupIndex (d : dispatcher) (c : channel) : nat :=
  Z.to_nat (u64 (std_hash (ch_watchId c)) mod Z.of_nat (length (groups d))).

Definition push_ready (g : group) (p : nat) : group := MkGroup (readyChannels g ++ [p]) (retryChannels g).

Definition ScheduleChannelLocked (d : dispatcher) (p : nat) (c : channel) : dispatcher :=
  if cancelled c || dispatchQueued c || bool_decide (groups d = [])
  then set_channel p c d
  else with_groups (alter (λ g, push_ready g p) (GetReadyGroupIndex d c) (groups d))
         (set_channel p (with_queued true c) d).

Definition SetSnapshotRevision (d : dispatcher) (id revision : Z) : dispatcher :=
  match channels_ d !! id with
  | None => d
  | Some p =>
    match heap d !! p with
    | None => d
    | Some c =>
      let c' := with_snapshot revision c in
      match queue c with [] => set_channel p c' d | _ => ScheduleChannelLocked d p c' end
    end
  end.

(** One channel receiving one event in [FanOutLoop]. *)
Definition deliver_to_channel (d : dispatcher) (event : WatchEvent) (id : Z) : dispatcher :=
  match channels_ d !! id with
  | None => d
  | Some p =>
    match heap d !! p with
    | None => d
    | Some c =>
      if cancelled c || needReWatch c then d
      else if bool_decide (length (queue c) < backpressureLimit c)%nat
      then ScheduleChannelLocked d p (with_queue (queue c ++ [event]) c)
      else ScheduleChannelLocked d p (with_rewatch (with_queue [MakeRewatchEvent (Some event)] c))
    end
  end.

Definition fan_out_event (d : dispatcher) (r : R) (event : WatchEvent) : dispatcher :=
  foldl (λ d id, deliver_to_channel d event id) d (reg_match r (kv_key (ev_entry event))).

Definition rewatch_channel (d : dispatcher) (p : nat) : dispatcher :=
  match heap d !! p with
  | None => d
  | Some c => if cancelled c || needReWatch c then d
              else ScheduleChannelLocked d p (with_rewatch (with_queue [MakeRewatchEvent None] c))
  end.

Definition ScheduleAllChannelsForRewatch (d : dispatcher) : dispatcher :=
  foldl rewatch_channel d (map_to_list (channels_ d)).*2.

(** One turn of [FanOutLoop]: drain a bounded batch, answer a pending overflow, then fan out. *)
Definition FanOut_pass (d : dispatcher) (r : R) : dispatcher :=
  let count := Nat.min MAX_WATCH_EVENTS_PER_FAN_OUT (length (pendingQueue_ d)) in
  let batch := take count (pendingQueue_ d) in
  let d1 := with_pending (drop count (pendingQueue_ d)) d in
  let d2 := if pendingOverflow_ d1
            then ScheduleAllChannelsForRewatch (with_overflow (droppedPendingEvents_ d1) false d1) else d1 in
  foldl (λ d e, fan_out_event d r e) d2 batch.

(** The batch loop of [PrepareChannelEvents]: at most [n] events, stopping after the one that exceeds the
    byte threshold. *)
Definition event_bytes (e : WatchEvent) : Z :=
  WATCH_EVENT_WIRE_OVERHEAD_BYTES
  + match ev_type e with
    | REWATCH => 0
    | _ => Z.of_nat (String.length (kv_key (ev_entry e)) + String.length (kv_value (ev_entry e)))
    end.

Fixpoint take_batch (n : nat) (bytes maxRev : Z) (q : list WatchEvent) : list WatchEvent * Z :=
  match n, q with
  | S n', e :: q' =>
    let bytes' := bytes + event_bytes e in
    let maxRev' := Z.max maxRev (ev_revision e) in
    if WATCH_EVENT_BATCH_MERGE_THRESHOLD_BYTES <? bytes' then ([e], maxRev')
    else let '(es, m) := take_batch n' bytes' maxRev' q' in (e :: es, m)
  | _, _ => ([], maxRev)
  end.

(** [while (!queue.empty() && queue.front()->revision <= rev) queue.pop_front()]. *)
Definition pop_until (rev : Z) (q : list WatchEvent) : list WatchEvent :=
  partition_point (λ e, ev_revision e <=? rev) q.

(** [None] when no notification is to be sent, otherwise [(needReWatch, maxEventRevision, events)]. *)
Definition PrepareChannelEvents (running : bool) (c : channel)
    : channel * option (bool * Z * list WatchEvent) :=
  if negb running || cancelled c then (c, None)
  else
    match queue c with
    | [] => (with_queued false c, None)
    | front :: _ =>
      if needReWatch c then (c, Some (true, 0, [front]))
      else if snapshotRevision c <=? 0 then (with_queued false c, None)
      else
        match pop_until (snapshotRevision c) (queue c) with
        | [] => (with_queued false (with_queue [] c), None)
        | q =>
          let '(es, m) := take_batch (Nat.min MAX_WATCH_EVENTS_PER_BATCH (length q)) 0 0 q in
          (with_queue q c, Some (false, m, es))
        end
    end.

Inductive HandleResult := NONE | READY_AGAIN | RETRY_LATER.

(** The critical section after a successful, non-rewatch notification. *)
Definition commit_channel (c : channel) (maxRev : Z) : channel * HandleResult :=
  if cancelled c then (c, NONE)
  else
    let c1 := with_queue (pop_until maxRev (queue c)) (with_retry 0 c) in
    match queue c1 with
    | [] => (with_queued false c1, NONE)
    | _ => (c1, READY_AGAIN)
    end.

Definition RemoveRewatchRequiredWatcher (d : dispatcher) (r : R) (id : Z) (addr : string) : dispatcher * R :=
  (RemoveChannel d id, (reg_cancel r id addr).1).

(** [HandleChannelEvents] for the channel at [p].  [interfere] is what the other threads do to the
    dispatcher and the registry while [DoNotify] runs. *)
Definition HandleChannelEvents (interfere : dispatcher * R → dispatcher * R) (d : dispatcher) (r : R) (p : nat)
    : dispatcher * R * HandleResult :=
  match heap d !! p with
  | None => (d, r, NONE)
  | Some c =>
    match PrepareChannelEvents (running_ d) c with
    | (c', None) => (set_channel p c' d, r, NONE)
    | (c', Some (rewatch, maxRev, events)) =>
      let status := DoNotify (ch_watchId c) (ch_addr c) events in
      let '(d1, r1) := interfere (set_channel p c' d, r) in
      match heap d1 !! p with
      | None => (d1, r1, NONE)
      | Some c1 =>
        if negb (running_ d1) || cancelled c1 then (d1, r1, NONE)
        else
          match status with
          | Fail code =>
            if decide (code = K_NOT_FOUND)
            then (RemoveRewatchRequiredWatcher d1 r1 (ch_watchId c1) (ch_addr c1), NONE)
            else (with_failures (cancelFailures_ d1) (u64 (notifyFailures_ d1 + 1)) d1, r1, RETRY_LATER)
          | Ok _ =>
            if rewatch then (RemoveRewatchRequiredWatcher d1 r1 (ch_watchId c1) (ch_addr c1), NONE)
            else let '(c2, res) := commit_channel c1 maxRev in (set_channel p c2 d1, r1, res)
          end
      end
    end
  end.

(** The next retry delay and the jittered wait. *)
Definition next_retry (retry : Z) : Z :=
  if retry =? 0 then INITIAL_RETRY_DELAY_MS else Z.min (retry * RETRY_DELAY_MULTIPLIER) MAX_RETRY_DELAY_MS.

Definition retry_wait (id retry : Z) : Z :=
  let jitterRange := Z.quot (retry * RETRY_JITTER_PERCENT) PERCENT_SCALE in
  let jitterWidth := u64 (jitterRange * RETRY_DELAY_MULTIPLIER + 1) in
  let seed := Z.lxor (u64 id) (u64 retry) in
  let offset := seed mod jitterWidth - jitterRange in
  Z.max INITIAL_RETRY_DELAY_MS (Z.min (retry + offset) MAX_RETRY_DELAY_MS).

Definition PrepareRetry (running : bool) (c : channel) : option (channel * Z) :=
  if negb running || cancelled c then None
  else let c' := with_retry (next_retry (retryDelayMs c)) c in Some (c', retry_wait (ch_watchId c) (retryDelayMs c')).

(** [std::upper_bound] on the ready time, then insert. *)
Fixpoint insert_retry (x : Z * nat) (l : list (Z * nat)) : list (Z * nat) :=
  match l with
  | [] => [x]
  | y :: l' => if x.1 <? y.1 then x :: l else y :: insert_retry x l'
  end.

Definition InsertRetryLocked (g : group) (x : Z * nat) : group :=
  MkGroup (readyChannels g) (insert_retry x (retryChannels g)).

Definition is_live (h : gmap nat channel) (p : nat) : bool :=
  match h !! p with Some c => negb (cancelled c) | None => false end.

(** Due retries move to the ready queue (cancelled ones are dropped), then the first live ready channel is
    taken; [None] stands for waiting on the condition variable. *)
Definition WaitForReadyChannel (h : gmap nat channel) (now : Z) (g : group) : group * option nat :=
  let due := take_while (λ x, x.1 <=? now) (retryChannels g) in
  let ready := readyChannels g ++ filter (λ p, is_live h p = true) due.*2 in
  match partition_point (λ p, negb (is_live h p)) ready with
  | [] => (MkGroup [] (drop (length due) (retryChannels g)), None)
  | p :: ready' => (MkGroup ready' (drop (length due) (retryChannels g)), Some p)
  end.

(** One turn of [DispatchLoop] for the worker of group [gi]. *)
Definition DispatchLoop_step (interfere : dispatcher * R → dispatcher * R) (d : dispatcher) (r : R)
    (gi : nat) (now : Z) : dispatcher * R :=
  match groups d !! gi with
  | None => (d, r)
  | Some g =>
    let '(g', chosen) := WaitForReadyChannel (heap d) now g in
    let d0 := with_groups (<[gi := g']> (groups d)) d in
    match chosen with
    | None => (d0, r)
    | Some p =>
      let '(d1, r1, result) := HandleChannelEvents interfere d0 r p in
      match heap d1 !! p with
      | None => (d1, r1)
      | Some c =>
        if negb (running_ d1) || cancelled c then (d1, r1)
        else
          match result with
          | NONE => (d1, r1)
          | READY_AGAIN => (with_groups (alter (λ g, push_ready g p) gi (groups d1)) d1, r1)
          | RETRY_LATER =>
            match PrepareRetry (running_ d1) c with
            | None => (d1, r1)
            | Some (c', delay) =>
              let d2 := set_channel p c' d1 in
              (with_groups (alter (λ g, InsertRetryLocked g (now + delay * NS_PER_MS, p))
                              (GetReadyGroupIndex d2 c') (groups d2)) d2, r1)
            end
          end
      end
    end
  end.
End Dispatch.

(** [Start] with [n] dispatch threads (the notify executor is started successfully); [Stop]. *)
Definition Start (d : dispatcher) (n : nat) : dispatcher :=
  if running_ d then d
  else with_running true
         (with_groups (groups d ++ replicate (Nat.min n MAX_READY_CHANNEL_GROUPS) (MkGroup [] [])) d).

Definition Stop (d : dispatcher) : dispatcher :=
  if running_ d then with_running false (with_groups [] d) else d.

(** ** Invariant

    [queued d] lists the channels waiting in a ready or retry queue; [fl] lists the channels a worker has
    taken out and is handling.  A live channel is in one of these places exactly when its [dispatchQueued]
    flag is set, and in one place only: no two workers ever handle the same channel. *)
Definition group_ptrs (g : group) : list nat := readyChannels g ++ (retryChannels g).*2.
Definition queued (d : dispatcher) : list nat := flat_map group_ptrs (groups d).

(** Bounded queue, and no lost wake-up: a live channel with something deliverable is scheduled. *)
Definition ch_ok (c : channel) : Prop :=
  (length (queue c) ≤ backpressureLimit c)%nat ∧ backpressureLimit c = Z.to_nat 1024
  ∧ (cancelled c = false → queue c ≠ [] → needReWatch c = true ∨ 0 < snapshotRevision c →
     dispatchQueued c = true).

Section Invariant.
(** One more than the number of dispatch groups is [ngroups]. *)
Context (ngroups : nat).

Record disp_inv (fl : list nat) (d : dispatcher) : Prop := MkInv {
  di_running : running_ d = true;
  di_groups : length (groups d) = S ngroups;
  di_pending : (length (pendingQueue_ d) ≤ MAX_PENDING_EVENTS)%nat;
  di_fresh p c : heap d !! p = Some c → (p < nextPtr d)%nat;
  di_ch p c : heap d !! p = Some c → ch_ok c;
  di_nodup : NoDup (fl ++ queued d);
  di_alloc p : p ∈ fl ++ queued d → is_Some (heap d !! p);
  di_flag p c : heap d !! p = Some c → cancelled c = false → dispatchQueued c = true ↔ p ∈ fl ++ queued d;
  di_table id p : channels_ d !! id = Some p ↔
    ∃ c, heap d !! p = Some c ∧ ch_watchId c = id ∧ cancelled c = false;
  di_index addr id : id ∈ default ∅ (watchIdsByWatcher_ d !! addr) ↔
    ∃ p c, channels_ d !! id = Some p ∧ heap d !! p = Some c ∧ ch_addr c = addr }.

(** A live channel replaced by one with the same identity and the same flag. *)
Definition same_channel (c c' : channel) : Prop :=
  ch_watchId c' = ch_watchId c ∧ ch_addr c' = ch_addr c ∧ cancelled c' = cancelled c.

Lemma reflag_inv fl fl' d p c c' :
  disp_inv fl d → heap d !! p = Some c → same_channel c c' → ch_ok c' →
  NoDup (fl' ++ queued d) →
  (∀ p', p' ≠ p → p' ∈ fl' ++ queued d ↔ p' ∈ fl ++ queued d) →
  (cancelled c = false → dispatchQueued c' = true ↔ p ∈ fl' ++ queued d) →
  disp_inv fl' (set_channel p c' d).
Proof.
  intros [] Hp (Hid & Ha & Hc) Hok Hnd Hoth Hq. split; try done.
  - intros p' c2. simpl. rewrite lookup_insert. case_decide; [subst; eauto|eauto].
  - intros p' c2. simpl. rewrite lookup_insert. case_decide; [by intros [= <-]|eauto].
  - intros p' Hp'. simpl. rewrite lookup_insert. case_decide; [done|].
    apply di_alloc0. by apply Hoth.
  - intros p' c2. simpl. rewrite lookup_insert. case_decide as Hpp.
    + intros [= <-]. subst. rewrite Hc. by apply Hq.
    + intros Hc2 Hl. rewrite (di_flag0 _ _ Hc2 Hl). symmetry. by apply Hoth.
  - intros id p'. simpl. rewrite di_table0 lookup_insert. case_decide; [subst; naive_solver|done].
  - intros addr id. simpl. rewrite di_index0. split; intros (p' & c2 & H1 & H2 & H3).
    + destruct (decide (p = p')) as [<-|Hne].
      * exists p, c'. rewrite lookup_insert_eq. naive_solver.
      * exists p', c2. by rewrite lookup_insert_ne.
    + destruct (decide (p = p')) as [<-|Hne].
      * rewrite lookup_insert_eq in H2. injection H2 as <-. exists p, c. naive_solver.
      * rewrite lookup_insert_ne in H2; [done|]. exists p', c2. done.
Qed.

Lemma set_channel_inv fl d p c c' :
  disp_inv fl d → heap d !! p = Some c → same_channel c c' → ch_ok c' →
  dispatchQueued c' = dispatchQueued c → disp_inv fl (set_channel p c' d).
Proof.
  intros Hinv Hp Hs Hok Hq. eapply reflag_inv; eauto; [by destruct Hinv|].
  intros Hc. rewrite Hq. by eapply di_flag.
Qed.

(** A worker gives up the channel it holds. *)
Lemma release_inv fl d p c c' :
  disp_inv (p :: fl) d → heap d !! p = Some c → same_channel c c' → ch_ok c' →
  (cancelled c = false → dispatchQueued c' = false) → disp_inv fl (set_channel p c' d).
Proof.
  intros Hinv Hp Hs Hok Hq. pose proof (di_nodup _ _ Hinv) as [Hn Hnd]%NoDup_cons.
  eapply reflag_inv; eauto.
  - intros p' Hne. simpl. rewrite elem_of_cons. naive_solver.
  - intros Hc. rewrite (Hq Hc). done.
Qed.

Lemma drop_cancelled_inv fl d p c :
  disp_inv (p :: fl) d → heap d !! p = Some c → cancelled c = true → disp_inv fl d.
Proof.
  intros Hinv Hp Hc. destruct Hinv. pose proof di_nodup0 as [Hn Hnd]%NoDup_cons. split; try done.
  - intros p' Hp'. apply di_alloc0. by right.
  - intros p' c' Hp' Hl. rewrite (di_flag0 _ _ Hp' Hl) /= elem_of_cons. split; [|by right].
    intros [->|?]; [congruence|done].
Qed.

Lemma regroup_inv fl fl' d gs :
  disp_inv fl d → length gs = length (groups d) → fl' ++ flat_map group_ptrs gs ≡ₚ fl ++ queued d → disp_inv fl' (with_groups gs d).
Proof.
  intros [] Hne Hp. split; try done.
  - by rewrite /= Hne.
  - by rewrite Hp.
  - intros p. rewrite Hp. apply di_alloc0.
  - intros p c. rewrite Hp. apply di_flag0.
Qed.

Lemma queued_alter gs gi f g :
  gs !! gi = Some g →
  flat_map group_ptrs (alter f gi gs) ≡ₚ flat_map group_ptrs (delete gi gs) ++ group_ptrs (f g).
Proof.
  revert gi. induction gs as [|g0 gs IH]; intros [|gi]; simpl; try done.
  - intros [= ->]. apply Permutation_app_comm.
  - intros Hg. by rewrite (IH gi Hg) assoc.
Qed.

Lemma queued_split (gs : list group) gi g :
  gs !! gi = Some g → flat_map group_ptrs gs ≡ₚ flat_map group_ptrs (delete gi gs) ++ group_ptrs g.
Proof.
  intros Hg. rewrite -(queued_alter gs gi (λ g, g) g Hg).
  by rewrite (list_alter_id (λ g : group, g)).
Qed.

Lemma push_ready_inv fl d p gi :
  disp_inv (p :: fl) d → (gi < length (groups d))%nat →
  disp_inv fl (with_groups (alter (λ g, push_ready g p) gi (groups d)) d).
Proof.
  intros Hinv [g Hg]%lookup_lt_is_Some_2. eapply regroup_inv; [done|by rewrite length_alter|].
  - rewrite /queued (queued_alter _ _ _ _ Hg) (queued_split _ _ _ Hg) /group_ptrs /=. solve_Permutation.
Qed.

Lemma insert_retry_Permutation x l : insert_retry x l ≡ₚ x :: l.
Proof.
  induction l as [|y l IH]; simpl; [done|]. destruct (x.1 <? y.1); [done|]. rewrite IH. constructor.
Qed.

Lemma insert_retry_inv fl d p gi t :
  disp_inv (p :: fl) d → (gi < length (groups d))%nat →
  disp_inv fl (with_groups (alter (λ g, InsertRetryLocked g (t, p)) gi (groups d)) d).
Proof.
  intros Hinv [g Hg]%lookup_lt_is_Some_2. eapply regroup_inv; [done|by rewrite length_alter|].
  - rewrite /queued (queued_alter _ _ _ _ Hg) (queued_split _ _ _ Hg) /group_ptrs /=.
    rewrite insert_retry_Permutation /=. solve_Permutation.
Qed.

Lemma ready_index_bound std_hash d c :
  groups d ≠ [] → (GetReadyGroupIndex std_hash d c < length (groups d))%nat.
Proof.
  intros Hne. unfold GetReadyGroupIndex. assert (0 < Z.of_nat (length (groups d))).
  { destruct (groups d); [done|simpl; lia]. }
  pose proof (Z.mod_pos_bound (u64 (std_hash (ch_watchId c))) _ ltac:(eassumption)). lia.
Qed.

(** Scheduling a live channel that may have become deliverable. *)
Lemma schedule_inv std_hash fl d p c c' :
  disp_inv fl d → heap d !! p = Some c → same_channel c c' → cancelled c = false →
  dispatchQueued c' = dispatchQueued c → ch_ok (with_queued true c') →
  disp_inv fl (ScheduleChannelLocked std_hash d p c').
Proof.
  intros Hinv Hp Hs Hl Hq Hok. pose proof Hs as (Hid & Ha & Hc). unfold ScheduleChannelLocked.
  assert (groups d ≠ []) as Hgne by (intros E; pose proof (di_groups _ _ Hinv) as Hn; by rewrite E in Hn).
  rewrite Hc Hl (bool_decide_eq_false_2 (groups d = [])) //.
  destruct (dispatchQueued c') eqn:Eq; simpl.
  - eapply set_channel_inv; [done|done|done| |congruence]. destruct Hok as (?&?&?). split_and!; try done.
  - apply (push_ready_inv fl (set_channel p (with_queued true c') d)).
    + pose proof (di_flag _ _ Hinv p c Hp Hl) as Hf. rewrite -Hq in Hf.
      eapply (reflag_inv fl (p :: fl) d p c (with_queued true c')); eauto.
      * simpl. apply NoDup_cons. split; [naive_solver|by destruct Hinv].
      * intros p' Hne. simpl. rewrite elem_of_cons. naive_solver.
      * intros _. simpl. rewrite elem_of_cons. naive_solver.
    + by apply (ready_index_bound std_hash d).
Qed.

(** ** Every operation preserves the invariant *)
Lemma Enqueue_inv fl d e : disp_inv fl d → disp_inv fl (Enqueue d e).
Proof.
  intros Hinv. unfold Enqueue. case_bool_decide; destruct Hinv; split; try done.
  simpl. rewrite length_app /=. lia.
Qed.

Lemma cancel_live c : ch_ok c → ch_ok (CancelChannel c).
Proof. intros (?&?&?). split_and!; simpl; [lia|done|done]. Qed.

(** Removing a channel: its pointer may stay in the queues, but it is no longer live. *)
Lemma RemoveChannel_inv fl d id : disp_inv fl d → disp_inv fl (RemoveChannel d id).
Proof.
  intros Hinv. unfold RemoveChannel, cancel_by_id. destruct (channels_ d !! id) as [p|] eqn:Eid.
  2:{ simpl. rewrite delete_id //. by destruct Hinv. }
  pose proof Hinv as []. destruct (di_table0 id p) as [(c & Hp & Hid & Hl) _]; [done|]. rewrite Hp.
  split; cbn [running_ groups pendingQueue_ heap nextPtr channels_ watchIdsByWatcher_ with_table set_channel with_heap queued]; try done.
  - intros p' c2. rewrite lookup_insert. case_decide; subst; eauto.
  - intros p' c2. rewrite lookup_insert. case_decide; [intros [= <-]; apply cancel_live; eauto|eauto].
  - intros p' ?. rewrite lookup_insert. case_decide; [done|eauto].
  - intros p' c2. rewrite lookup_insert. case_decide; [by intros [= <-]|eauto].
  - intros id' p'. rewrite lookup_delete lookup_insert. case_decide as Hne.
    + subst. split; [done|]. intros (c2 & H2 & Hid2 & Hl2). case_decide as Hpp; [by simplify_eq|].
      assert (channels_ d !! ch_watchId c = Some p') by (apply di_table0; eauto). congruence.
    + rewrite di_table0. case_decide as Hpp; [|done]. subst p'. rewrite Hp. naive_solver.
  - intros addr id'. rewrite lookup_delete.
    assert (id' ∈ default ∅ (RemoveReverseIndexLocked (watchIdsByWatcher_ d) c !! addr) ↔
      id' ∈ default ∅ (watchIdsByWatcher_ d !! addr) ∧ id' ≠ id) as ->.
    { assert (ch_watchId c = id' → id' ∈ default ∅ (watchIdsByWatcher_ d !! addr) → ch_addr c = addr) as Hadd.
      { intros <- (p2 & c2 & ? & ? & ?)%di_index0. rewrite Hid in H. congruence. }
      unfold RemoveReverseIndexLocked. destruct (watchIdsByWatcher_ d !! ch_addr c) as [ids|] eqn:Ei.
      - case_decide as Hemp; rewrite ?lookup_delete ?lookup_insert; case_decide as Ha; subst; try rewrite Ei /=; set_solver.
      - destruct (decide (ch_addr c = addr)) as [<-|]; [rewrite Ei /=; set_solver|]. naive_solver. }
    rewrite di_index0. case_decide as Hne; [naive_solver|]. split.
    + intros [(p2 & c2 & H1 & H2 & H3) _]. exists p2, c2. rewrite lookup_insert_ne; [|done].
      intros <-. apply di_table0 in H1 as (c3 & ? & ? & ?). naive_solver.
    + intros (p2 & c2 & H1 & H2 & H3). split; [|done]. exists p2, c2. split; [done|].
      rewrite lookup_insert_ne in H2; [|done]. intros <-. apply di_table0 in H1 as (c3 & ? & ? & ?). naive_solver.
Qed.

Lemma RemoveChannel_gone d id : channels_ (RemoveChannel d id) !! id = None.
Proof. unfold RemoveChannel. simpl. by rewrite lookup_delete_eq. Qed.

Lemma AddChannel_RemoveChannel d id addr : AddChannel d id addr = AddChannel (RemoveChannel d id) id addr.
Proof.
  assert (cancel_by_id (RemoveChannel d id) id = RemoveChannel d id) as E.
  { by rewrite {1}/cancel_by_id RemoveChannel_gone. }
  assert (nextPtr (RemoveChannel d id) = nextPtr d) as En.
  { unfold RemoveChannel, cancel_by_id. repeat case_match; done. }
  unfold AddChannel. rewrite E En. unfold RemoveChannel. simpl. by rewrite insert_delete_eq.
Qed.

Lemma new_channel_ok id addr : ch_ok (new_channel id addr).
Proof. split_and!; simpl; [lia|done|done]. Qed.

Lemma AddChannel_inv fl d id addr : disp_inv fl d → disp_inv fl (AddChannel d id addr).
Proof.
  intros Hinv%(RemoveChannel_inv fl d id). rewrite AddChannel_RemoveChannel.
  pose proof (RemoveChannel_gone d id) as Hgone. revert Hinv Hgone. generalize (RemoveChannel d id).
  clear d. intros d [] Hgone. unfold AddChannel, cancel_by_id. rewrite Hgone.
  assert (heap d !! nextPtr d = None) as Hfr.
  { destruct (heap d !! nextPtr d) eqn:E; [|done]. apply di_fresh0 in E. lia. }
  split; cbn [running_ groups pendingQueue_ heap nextPtr channels_ watchIdsByWatcher_ queued]; try done.
  - intros p c. rewrite lookup_insert. case_decide; subst; [lia|]. intros ?%di_fresh0. lia.
  - intros p c. rewrite lookup_insert. case_decide; [intros [= <-]; apply new_channel_ok|eauto].
  - intros p ?. rewrite lookup_insert. case_decide; [done|eauto].
  - intros p c. rewrite lookup_insert. case_decide; [|eauto]. intros [= <-] _. subst p. simpl. split; [done|].
    intros [? ?]%di_alloc0. congruence.
  - intros id' p. rewrite !lookup_insert. destruct (decide (id = id')) as [<-|Hne].
    + split; [intros [= <-]; rewrite decide_True //; eauto|]. case_decide; [naive_solver|].
      intros Hc%di_table0. congruence.
    + rewrite di_table0. case_decide; [|done]. subst p. rewrite Hfr. naive_solver.
  - intros addr' id'. rewrite lookup_insert.
    assert (id' ∈ default ∅ (if decide (addr = addr') then Some ({[id]} ∪ default ∅ (watchIdsByWatcher_ d !! addr))
      else watchIdsByWatcher_ d !! addr') ↔
      (id' = id ∧ addr' = addr) ∨ id' ∈ default ∅ (watchIdsByWatcher_ d !! addr')) as ->.
    { case_decide; subst; simpl; set_solver. }
    rewrite di_index0. split.
    + intros [[-> ->]|(p & c & H1 & H2 & H3)].
      * exists (nextPtr d), (new_channel id addr). by rewrite !lookup_insert_eq.
      * exists p, c. rewrite !lookup_insert_ne //; congruence.
    + intros (p & c & H1 & H2 & H3). rewrite lookup_insert in H1. case_decide as Hid.
      * simplify_eq. rewrite lookup_insert_eq in H2. simplify_eq. by left.
      * right. exists p, c. pose proof H1 as (c2 & ? & _)%di_table0.
        rewrite lookup_insert_ne in H2; [congruence|done].
Qed.

Section Preservation.
Context {R : Type} `{RegistryOps R}.
Context (std_hash : Z → Z).
Context (DoNotify : Z → string → list WatchEvent → res unit).

Lemma foldl_inv {A} (P : dispatcher → Prop) (f : dispatcher → A → dispatcher) d l :
  P d → (∀ d x, P d → P (f d x)) → P (foldl f d l).
Proof. intros Hd Hf. revert d Hd. induction l; simpl; auto. Qed.

Lemma SetSnapshotRevision_inv fl d id rev : disp_inv fl d → disp_inv fl (SetSnapshotRevision std_hash d id rev).
Proof.
  intros Hinv. unfold SetSnapshotRevision. destruct (channels_ d !! id) as [p|] eqn:Eid; [|done].
  apply (di_table _ _ Hinv) in Eid as (c & Hp & Hid & Hl). rewrite Hp.
  destruct (di_ch _ _ Hinv _ _ Hp) as (H1 & H2 & H3). destruct (queue c) eqn:Eq.
  - eapply set_channel_inv; eauto; [done|]. split_and!; simpl; rewrite ?Eq //.
  - eapply schedule_inv; eauto; [done|]. split_and!; simpl; rewrite ?Eq //.
Qed.

Lemma deliver_inv fl d e id : disp_inv fl d → disp_inv fl (deliver_to_channel std_hash d e id).
Proof.
  intros Hinv. unfold deliver_to_channel. destruct (channels_ d !! id) as [p|] eqn:Eid; [|done].
  apply (di_table _ _ Hinv) in Eid as (c & Hp & Hid & Hl). rewrite Hp Hl.
  destruct (di_ch _ _ Hinv _ _ Hp) as (H1 & H2 & H3). destruct (needReWatch c); [done|]. simpl.
  case_bool_decide; (eapply schedule_inv; eauto; [done|]); split_and!; simpl; try done.
  - rewrite length_app /=. lia.
  - lia.
Qed.

Lemma rewatch_inv fl d p : disp_inv fl d → disp_inv fl (rewatch_channel std_hash d p).
Proof.
  intros Hinv. unfold rewatch_channel. destruct (heap d !! p) as [c|] eqn:Hp; [|done].
  destruct (cancelled c) eqn:Hl; [done|]. destruct (needReWatch c); [done|]. simpl.
  destruct (di_ch _ _ Hinv _ _ Hp) as (H1 & H2 & H3).
  eapply schedule_inv; eauto; [done|]. split_and!; simpl; try done. lia.
Qed.

Lemma FanOut_inv fl d (r : R) : disp_inv fl d → disp_inv fl (FanOut_pass std_hash d r).
Proof.
  intros Hinv. unfold FanOut_pass.
  match goal with |- context [with_pending ?q d] => set (d1 := with_pending q d) end.
  assert (disp_inv fl d1) as H1. { destruct Hinv; split; try done. simpl. rewrite length_drop. lia. }
  apply (foldl_inv (disp_inv fl)).
  - destruct (pendingOverflow_ d1); [|done]. unfold ScheduleAllChannelsForRewatch. apply (foldl_inv (disp_inv fl)); [destruct H1; by split|].
    intros. by apply rewatch_inv.
  - intros d2 e H2. unfold fan_out_event. apply (foldl_inv (disp_inv fl)); [done|]. intros. by apply deliver_inv.
Qed.

Lemma RemoveChannelsByWatcher_inv fl d (r : R) addr :
  disp_inv fl d → disp_inv fl (RemoveChannelsByWatcher d r addr).1.
Proof.
  intros Hinv. unfold RemoveChannelsByWatcher. destruct (watchIdsByWatcher_ d !! addr); [|done].
  destruct (cancel_all _ _ _ _). simpl. apply (foldl_inv (disp_inv fl)); [destruct Hinv; by split|].
  intros. by apply RemoveChannel_inv.
Qed.

Lemma RemoveChannelsByWatcherInScopes_inv fl d (r : R) addr scopes :
  disp_inv fl d → disp_inv fl (RemoveChannelsByWatcherInScopes d r addr scopes).1.
Proof.
  intros Hinv. unfold RemoveChannelsByWatcherInScopes. destruct (watchIdsByWatcher_ d !! addr); [|done].
  generalize (filter (λ id, reg_in_scopes r id scopes = true) (elements g)).
  intros l. revert d r Hinv. induction l as [|id l IH]; intros d r Hinv; simpl; [done|].
  apply IH. by apply RemoveChannel_inv.
Qed.

Lemma Prepare_channel running c :
  ch_ok c → running = true → cancelled c = false → dispatchQueued c = true →
  match PrepareChannelEvents running c with
  | (c', None) => same_channel c c' ∧ ch_ok c' ∧ dispatchQueued c' = false
  | (c', Some _) => same_channel c c' ∧ ch_ok c' ∧ dispatchQueued c' = true
  end.
Proof.
  intros (H1 & H2 & H3) -> Hl Hq. unfold PrepareChannelEvents. rewrite Hl /=.
  destruct (queue c) as [|e q] eqn:Eq.
  { unfold ch_ok. split_and!; simpl; rewrite ?Eq //. }
  destruct (needReWatch c) eqn:Er. { unfold ch_ok. split_and!; rewrite ?Eq //. }
  destruct (Z.leb_spec (snapshotRevision c) 0) as [Hs|Hs].
  { unfold ch_ok. split_and!; simpl; rewrite ?Eq ?Er //. intros _ _ [|]; [congruence|lia]. }
  unfold ch_ok.
  destruct (partition_point_suffix (λ e, ev_revision e <=? snapshotRevision c) (e :: q)) as (pre & Hpre & _).
  apply (f_equal length) in Hpre. rewrite length_app in Hpre.
  change (pop_until _ _) with (partition_point (λ e, ev_revision e <=? snapshotRevision c) (e :: q)).
  destruct (partition_point _ _) as [|e' q'] eqn:Ep.
  { split_and!; simpl; try done. lia. }
  destruct (if _ <? _ then _ else _) as [es m]. simpl in *; split_and!; try done. lia.
Qed.

Lemma commit_ok c m :
  ch_ok c → cancelled c = false → dispatchQueued c = true →
  match commit_channel c m with
  | (c', READY_AGAIN) => same_channel c c' ∧ ch_ok c' ∧ dispatchQueued c' = true
  | (c', NONE) => same_channel c c' ∧ ch_ok c' ∧ dispatchQueued c' = false
  | (_, RETRY_LATER) => False
  end.
Proof.
  intros (H1 & H2 & H3) Hl Hq. unfold commit_channel. rewrite Hl /=.
  destruct (partition_point_suffix (λ e, ev_revision e <=? m) (queue c)) as (pre & Hpre & _).
  apply (f_equal length) in Hpre. rewrite length_app in Hpre. unfold pop_until.
  unfold ch_ok. destruct (partition_point _ _) eqn:E; split_and!; simpl in *; rewrite ?E /=; try done; lia.
Qed.

Lemma Wait_ptrs h now g g' chosen :
  WaitForReadyChannel h now g = (g', chosen) →
  ∃ dropped, group_ptrs g ≡ₚ dropped ++ option_list chosen ++ group_ptrs g'
    ∧ Forall (λ p, is_live h p = false) dropped
    ∧ (∀ p, chosen = Some p → is_live h p = true).
Proof.
  unfold WaitForReadyChannel. set (due := take_while _ _). intros E.
  assert (∃ rest, retryChannels g = due ++ rest) as [rest Hrest].
  { subst due. clear. induction (retryChannels g) as [|x l [rest IH]]; simpl; [by exists []|].
    destruct (x.1 <=? now); [|by exists (x :: l)]. exists rest. by rewrite /= -IH. }
  rewrite Hrest drop_app_length in E.
  set (live := filter (λ p, is_live h p = true) due.*2) in E.
  set (dead := filter (λ p, ¬ is_live h p = true) due.*2).
  assert (group_ptrs g ≡ₚ dead ++ (readyChannels g ++ live) ++ rest.*2) as Hg.
  { rewrite /group_ptrs Hrest fmap_app /live /dead.
    rewrite {1}(list_filter_complement (λ p, is_live h p = true) due.*2). solve_Permutation. }
  assert (Forall (λ p, is_live h p = false) dead) as Hdead.
  { apply Forall_forall. intros p [Hp _]%list_elem_of_filter. by destruct (is_live h p). }
  destruct (partition_point_suffix (λ p, negb (is_live h p)) (readyChannels g ++ live)) as (pre & Hpre & Hf).
  assert (Forall (λ p, is_live h p = false) (dead ++ pre)) as Hall.
  { apply Forall_app. split; [done|]. eapply Forall_impl; [exact Hf|]. intros p ?%negb_true_iff. done. }
  exists (dead ++ pre). rewrite Hg Hpre. clear Hg Hpre.
  destruct (partition_point _ _) as [|p ready'] eqn:Ep; simplify_eq; simpl; split_and!; try done.
  - rewrite /group_ptrs /=. solve_Permutation.
  - rewrite /group_ptrs /=. solve_Permutation.
  - intros p' [= <-]. apply partition_point_head in Ep as [Hl _]. by destruct (is_live h p).
Qed.

Lemma drop_dead_inv fl d dropped :
  disp_inv (dropped ++ fl) d → Forall (λ p, is_live (heap d) p = false) dropped → disp_inv fl d.
Proof.
  intros Hinv Hf. revert Hinv. induction Hf as [|p l Hp _ IH]; [done|]. simpl. intros Hinv. apply IH.
  destruct (di_alloc _ _ Hinv p) as [c Hc]; [by left|]. unfold is_live in Hp. rewrite Hc in Hp.
  apply negb_false_iff in Hp. by eapply drop_cancelled_inv.
Qed.

(** What may happen between the critical sections of a worker that holds [p]: any change that keeps the
    invariant, does not move the channel's identity and does not unschedule it behind the worker's back. *)
Definition benign (fl : list nat) (interfere : dispatcher * R → dispatcher * R) : Prop :=
  ∀ d r, disp_inv fl d → disp_inv fl (interfere (d, r)).1.

(** A worker of group [gi] takes its next channel. *)
Lemma take_channel_inv fl d gi g now g' chosen :
  disp_inv fl d → groups d !! gi = Some g → WaitForReadyChannel (heap d) now g = (g', chosen) →
  disp_inv (option_list chosen ++ fl) (with_groups (<[gi := g']> (groups d)) d).
Proof.
  intros Hinv Hg HW. destruct (Wait_ptrs _ _ _ _ _ HW) as (dropped & Hperm & Hdead & _).
  pose proof (lookup_lt_Some _ _ _ Hg) as Hlt.
  apply (drop_dead_inv _ _ dropped); [|done]. eapply regroup_inv; [exact Hinv|by rewrite length_insert|].
  rewrite /queued (queued_split (groups d) gi g Hg) Hperm list_insert_alter.
  rewrite (queued_alter _ _ _ _ Hg). solve_Permutation.
Qed.

Lemma release_none fl d p c' :
  disp_inv (p :: fl) d →
  (∃ c, heap d !! p = Some c ∧ same_channel c c' ∧ ch_ok c' ∧ (cancelled c = false → dispatchQueued c' = false)) →
  disp_inv fl (set_channel p c' d).
Proof. intros Hinv (c & ? & ? & ? & ?). by eapply release_inv. Qed.

(** Handling a channel: on [NONE] it has been given up, otherwise the worker still holds it. *)
Lemma Handle_inv fl d (r : R) p c interfere d' r' result :
  disp_inv (p :: fl) d → heap d !! p = Some c → cancelled c = false → benign (p :: fl) interfere →
  HandleChannelEvents DoNotify interfere d r p = (d', r', result) →
  match result with NONE => disp_inv fl d' | _ => disp_inv (p :: fl) d' end.
Proof.
  intros Hinv Hp Hl Hben. unfold HandleChannelEvents. rewrite Hp (di_running _ _ Hinv).
  assert (dispatchQueued c = true) as Hq. { apply (di_flag _ _ Hinv p c Hp Hl). by left. }
  pose proof (Prepare_channel true c (di_ch _ _ Hinv _ _ Hp) eq_refl Hl Hq) as HP.
  destruct (PrepareChannelEvents true c) as [c' [[[rw m] evs]|]]; destruct HP as (Hs & Hok & Hq').
  2:{ intros [= <- <- <-]. by eapply release_inv. }
  assert (disp_inv (p :: fl) (set_channel p c' d)) as Hinv1 by (eapply set_channel_inv; eauto; congruence).
  pose proof (Hben _ r Hinv1) as Hinv2. destruct (interfere (set_channel p c' d, r)) as [d1 r1]. simpl in Hinv2.
  destruct (di_alloc _ _ Hinv2 p) as [c1 Hc1]; [by left|]. rewrite Hc1 (di_running _ _ Hinv2) /=.
  destruct (cancelled c1) eqn:Hl1. { intros [= <- <- <-]. by eapply drop_cancelled_inv. }
  assert (disp_inv fl (RemoveChannel d1 (ch_watchId c1))) as Hrem.
  { pose proof (RemoveChannel_inv _ _ (ch_watchId c1) Hinv2) as H3.
    eapply (drop_cancelled_inv _ _ p (CancelChannel c1)); [done| |done].
    assert (channels_ d1 !! ch_watchId c1 = Some p) as Ht by (apply (di_table _ _ Hinv2); eauto).
    unfold RemoveChannel, cancel_by_id. rewrite Ht Hc1 /=. apply lookup_insert_eq. }
  assert (dispatchQueued c1 = true) as Hq1. { apply (di_flag _ _ Hinv2 p c1 Hc1 Hl1). by left. }
  destruct (DoNotify _ _ _) as [[]|code].
  - destruct rw; [by intros [= <- <- <-]|].
    pose proof (commit_ok c1 m (di_ch _ _ Hinv2 _ _ Hc1) Hl1 Hq1) as HC.
    destruct (commit_channel c1 m) as [c2 []]; [..|done]; destruct HC as (?&?&?); intros [= <- <- <-].
    + by eapply release_inv.
    + eapply set_channel_inv; eauto; congruence.
  - case_decide; intros [= <- <- <-]; [done|]. destruct Hinv2; by split.
Qed.

Lemma DispatchLoop_step_inv fl d (r : R) gi now interfere :
  disp_inv fl d → (∀ p, benign (p :: fl) interfere) →
  disp_inv fl (DispatchLoop_step std_hash DoNotify interfere d r gi now).1.
Proof.
  intros Hinv Hben. unfold DispatchLoop_step. destruct (groups d !! gi) as [g|] eqn:Hg; [|done].
  destruct (WaitForReadyChannel _ _ _) as [g' chosen] eqn:HW.
  pose proof (take_channel_inv _ _ _ _ _ _ _ Hinv Hg HW) as Hinv0.
  destruct (Wait_ptrs _ _ _ _ _ HW) as (_ & _ & _ & Hlive).
  destruct chosen as [p|]; [|done]. simpl in Hinv0. specialize (Hlive p eq_refl).
  set (d0 := with_groups _ d) in *. destruct (HandleChannelEvents _ _ _ _ _) as [[d1 r1] result] eqn:HH.
  assert (∃ c, heap d0 !! p = Some c ∧ cancelled c = false) as (c & Hp & Hl).
  { unfold is_live in Hlive. simpl. destruct (heap d !! p) as [c|]; [|done]. exists c. by destruct (cancelled c). }
  pose proof (Handle_inv _ _ _ _ _ _ _ _ _ Hinv0 Hp Hl (Hben p) HH) as Hinv1.
  assert (gi < S ngroups)%nat as Hgi by (rewrite -(di_groups _ _ Hinv); by eapply lookup_lt_Some).
  destruct (heap d1 !! p) as [c1|] eqn:Hc1.
  2:{ destruct result; [done|..]; (destruct (di_alloc _ _ Hinv1 p) as [? ?]; [by left|congruence]). }
  destruct result; [by destruct (_ || _)|..]; rewrite (di_running _ _ Hinv1) /=.
  - destruct (cancelled c1) eqn:Hl1; [by eapply drop_cancelled_inv|].
    apply (push_ready_inv fl d1); [done|]. by rewrite (di_groups _ _ Hinv1).
  - destruct (cancelled c1) eqn:Hl1; [by eapply drop_cancelled_inv|]. unfold PrepareRetry. rewrite Hl1 /=.
    set (c2 := with_retry _ c1).
    assert (disp_inv (p :: fl) (set_channel p c2 d1)) as Hinv2.
    { eapply set_channel_inv; eauto; [done|]. apply (di_ch _ _ Hinv1 _ _ Hc1). }
    apply (insert_retry_inv fl (set_channel p c2 d1)); [done|].
    apply (ready_index_bound std_hash d1). intros E. pose proof (di_groups _ _ Hinv1) as Hn. by rewrite E in Hn.
Qed.
End Preservation.
End Invariant.

(** ** Runs

    [d_op] are the critical sections of the API calls and of the fan-out thread; a worker's turn carries
    the operations that other threads complete while its [DoNotify] is in progress. *)
Inductive d_op :=
| OEnqueue (e : WatchEvent)
| OAddChannel (id : Z) (addr : string)
| ORemoveChannel (id : Z)
| ORemoveWatcher (addr : string)
| ORemoveScopes (addr : string) (scopes : list string)
| OSnapshot (id rev : Z)
| OFanOut.

Inductive d_step :=
| Op (o : d_op)
| Dispatch (gi : nat) (now : Z) (during : list d_op).

Section Runs.
Context {R : Type} `{RegistryOps R}.
Context (std_hash : Z → Z).
Context (DoNotify : Z → string → list WatchEvent → res unit).

Definition exec_op (s : dispatcher * R) (o : d_op) : dispatcher * R :=
  let '(d, r) := s in
  match o with
  | OEnqueue e => (Enqueue d e, r)
  | OAddChannel id addr => (AddChannel d id addr, r)
  | ORemoveChannel id => (RemoveChannel d id, r)
  | ORemoveWatcher addr => RemoveChannelsByWatcher d r addr
  | ORemoveScopes addr scopes => RemoveChannelsByWatcherInScopes d r addr scopes
  | OSnapshot id rev => (SetSnapshotRevision std_hash d id rev, r)
  | OFanOut => (FanOut_pass std_hash d r, r)
  end.

Definition exec_step (s : dispatcher * R) (t : d_step) : dispatcher * R :=
  match t with
  | Op o => exec_op s o
  | Dispatch gi now during =>
    DispatchLoop_step std_hash DoNotify (λ s, foldl exec_op s during) s.1 s.2 gi now
  end.

Lemma exec_op_inv n fl d (r : R) o : disp_inv n fl d → disp_inv n fl (exec_op (d, r) o).1.
Proof.
  intros Hinv. destruct o; simpl; eauto using Enqueue_inv, AddChannel_inv, RemoveChannel_inv,
    RemoveChannelsByWatcher_inv, RemoveChannelsByWatcherInScopes_inv, SetSnapshotRevision_inv, FanOut_inv.
Qed.

Lemma exec_ops_inv n fl d (r : R) os : disp_inv n fl d → disp_inv n fl (foldl exec_op (d, r) os).1.
Proof.
  revert d r. induction os as [|o os IH]; intros d r Hinv; [done|]. cbn [foldl].
  pose proof (exec_op_inv n fl d r o Hinv) as Hinv'. destruct (exec_op (d, r) o) as [d' r']. by apply IH.
Qed.

Lemma exec_step_inv n d (r : R) t : disp_inv n [] d → disp_inv n [] (exec_step (d, r) t).1.
Proof.
  intros Hinv. destruct t; cbn [exec_step].
  - by apply exec_op_inv.
  - apply DispatchLoop_step_inv; [done|]. intros p d' r' Hd'. by apply exec_ops_inv.
Qed.

Lemma exec_run_inv n d (r : R) ts : disp_inv n [] d → disp_inv n [] (foldl exec_step (d, r) ts).1.
Proof.
  revert d r. induction ts as [|t ts IH]; intros d r Hinv; [done|]. cbn [foldl].
  pose proof (exec_step_inv n d r t Hinv) as Hinv'. destruct (exec_step (d, r) t) as [d' r']. by apply IH.
Qed.
End Runs.

Lemma Start_inv n : (0 < n)%nat → disp_inv (pred (Nat.min n MAX_READY_CHANNEL_GROUPS)) [] (Start init n).
Proof.
  intros Hn. assert (∀ k, flat_map group_ptrs (replicate k (MkGroup [] [])) = []) as Hr.
  { induction k; [done|]. simpl. by rewrite IHk. }
  split; unfold queued; simpl; try done; rewrite ?Hr; try done.
  - rewrite length_replicate. unfold MAX_READY_CHANNEL_GROUPS. lia.
  - lia.
  - constructor.
  - by intros p ?%elem_of_nil.
  - intros id p. rewrite lookup_empty. split; [done|]. intros (c & Hc & _). by rewrite lookup_empty in Hc.
  - intros addr id. rewrite lookup_empty /=. split; [by intros ?%elem_of_empty|].
    intros (p & c & Hc & _). by rewrite lookup_empty in Hc.
Qed.

(** ** Fan-out *)
Definition channel_of (d : dispatcher) (id : Z) : option channel := channels_ d !! id ≫= λ p, heap d !! p.

(** The queue and the rewatch flag of a channel that is offered an event. *)
Definition receive (e : WatchEvent) (c : channel) : list WatchEvent * bool :=
  if needReWatch c then (queue c, true)
  else if bool_decide (length (queue c) < backpressureLimit c)%nat then (queue c ++ [e], false)
  else ([MakeRewatchEvent (Some e)], true).

Lemma schedule_channel_of std_hash d id p c c' id' :
  channels_ d !! id = Some p → (∀ id2, channels_ d !! id2 = Some p → id2 = id) → heap d !! p = Some c →
  channel_of (ScheduleChannelLocked std_hash d p c') id' =
    if decide (id' = id) then Some (with_queued (dispatchQueued c' ||
        negb (cancelled c' || bool_decide (groups d = []))) c')
    else channel_of d id'.
Proof.
  intros Hid Huniq Hp. unfold ScheduleChannelLocked, channel_of.
  assert (∀ c2, (channels_ d !! id' ≫= λ p0, <[p:=c2]> (heap d) !! p0) =
    if decide (id' = id) then Some c2 else channels_ d !! id' ≫= λ p0, heap d !! p0) as Hup.
  { intros c2. case_decide as E; [subst; rewrite Hid /=; apply lookup_insert_eq|].
    destruct (channels_ d !! id') as [p'|] eqn:E'; [|done]. simpl. rewrite lookup_insert_ne //. naive_solver. }
  destruct c' as [i a q b s w dq rt cn]; destruct dq, cn, (bool_decide (groups d = [])); simpl; rewrite Hup; done.
Qed.

Lemma deliver_channel_of std_hash n fl d e id id' c :
  disp_inv n fl d → channel_of d id' = Some c →
  ∃ c', channel_of (deliver_to_channel std_hash d e id) id' = Some c'
    ∧ snapshotRevision c' = snapshotRevision c ∧ if decide (id' = id) then (queue c', needReWatch c') = receive e c else c' = c.
Proof.
  intros Hinv Hc. unfold deliver_to_channel, receive. destruct (channels_ d !! id) as [p|] eqn:Eid.
  2:{ exists c. do 2 (split; [done|]). case_decide; [|done]. subst. unfold channel_of in Hc. by rewrite Eid in Hc. }
  pose proof (proj1 (di_table _ _ _ Hinv id p) Eid) as (c0 & Hp & Hid & Hl). rewrite Hp Hl /=.
  assert (∀ id2, channels_ d !! id2 = Some p → id2 = id) as Huniq.
  { intros id2 (c2 & ? & ? & ?)%(di_table _ _ _ Hinv). congruence. }
  assert (id' = id → c0 = c) as Hcc. { intros ->. unfold channel_of in Hc. rewrite Eid /= in Hc. congruence. }
  destruct (needReWatch c0) eqn:Er.
  { exists c. do 2 (split; [done|]). case_decide; [|done]. rewrite -Hcc // Er //. }
  case_bool_decide as Hb; rewrite (schedule_channel_of _ _ _ _ _ _ _ Eid Huniq Hp);
    (case_decide as E; [rewrite -(Hcc E) Er|by exists c]); eexists; (do 2 (split; [done|])); simpl; rewrite ?Er.
  - by rewrite bool_decide_eq_true_2.
  - by rewrite bool_decide_eq_false_2.
Qed.

Lemma deliver_all_channel_of std_hash n fl d e ids id c :
  NoDup ids → disp_inv n fl d → channel_of d id = Some c →
  ∃ c', channel_of (foldl (λ d id, deliver_to_channel std_hash d e id) d ids) id = Some c' ∧ snapshotRevision c' = snapshotRevision c
    ∧ (queue c', needReWatch c') = (if decide (id ∈ ids) then receive e c else (queue c, needReWatch c)).
Proof.
  intros Hnd. revert d c. induction Hnd as [|id0 ids Hn Hnd IH]; intros d c Hinv Hc; cbn [foldl].
  { exists c. do 2 (split; [done|]). destruct (decide (id ∈ [])) as [[]%elem_of_nil|]; done. }
  destruct (deliver_channel_of std_hash n fl d e id0 id c Hinv Hc) as (c1 & Hc1 & Es1 & E1).
  destruct (IH _ c1 (deliver_inv n std_hash fl d e id0 Hinv) Hc1) as (c2 & Hc2 & Es2 & E2).
  exists c2. split; [done|]. split; [congruence|]. rewrite E2. destruct (decide (id = id0)) as [->|Hne].
  - destruct (decide (id0 ∈ ids)); [done|]. destruct (decide (id0 ∈ id0 :: ids)) as [|Hx]; [done|].
    destruct Hx. by left.
  - subst c1. destruct (decide (id ∈ ids)), (decide (id ∈ id0 :: ids)) as [Hx|Hx]; set_solver.
Qed.

(** ** Batches *)
Definition rev_lt (a b : WatchEvent) : Prop := ev_revision a < ev_revision b.

Lemma take_batch_prefix n b m0 q es m :
  take_batch n b m0 q = (es, m) → ∃ rest, q = es ++ rest ∧ (length es ≤ n)%nat ∧ (n ≠ O → q ≠ [] → es ≠ []).
Proof.
  revert b m0 q es m. induction n as [|n IH]; intros b m0 q es m; simpl.
  { intros [= <- <-]. exists q. by split_and!; [|simpl; lia|]. }
  destruct q as [|e q]; [intros [= <- <-]; exists []; by split_and!; [|simpl; lia|]|].
  destruct (_ <? _). { intros [= <- <-]. exists q. by split_and!; [|simpl; lia|]. }
  destruct (take_batch n _ _ q) as [es' m'] eqn:E. intros [= <- <-].
  destruct (IH _ _ _ _ _ E) as (rest & -> & Hl & _). exists rest. by split_and!; [|simpl; lia|].
Qed.

Lemma take_batch_ge n b m0 q es m : n ≠ O → take_batch n b m0 q = (es, m) →
  m0 ≤ m ∧ ∀ e q', q = e :: q' → ev_revision e ≤ m.
Proof.
  revert b m0 q es m. induction n as [|n IH]; intros b m0 q es m; [done|]. intros _. simpl.
  destruct q as [|e q]; [intros [= <- <-]; split; [lia|done]|].
  destruct (_ <? _). { intros [= <- <-]. split; [lia|]. intros ?? [= <- <-]. lia. }
  destruct (take_batch n _ _ q) as [es' m'] eqn:E. intros [= <- <-].
  assert (Z.max m0 (ev_revision e) ≤ m') as Hm.
  { destruct n; [simpl in E; simplify_eq; lia|]. by destruct (IH _ _ _ _ _ (Nat.neq_succ_0 n) E). }
  split; [lia|]. intros ?? [= <- <-]. lia.
Qed.

(** The commit revision of a batch taken from a strictly increasing queue separates it from the rest. *)
Lemma take_batch_max n b m0 q es m :
  take_batch n b m0 q = (es, m) → StronglySorted rev_lt q → (n ≠ O) → q ≠ [] →
  Forall (λ e, m0 < ev_revision e) q →
  Forall (λ e, ev_revision e ≤ m) es ∧ ∃ l e, es = l ++ [e] ∧ m = ev_revision e.
Proof.
  revert b m0 q es m. induction n as [|n IH]; intros b m0 q es m; [done|]. simpl.
  destruct q as [|e q]; [done|]. intros E Hs _ _ Hall.
  apply Forall_cons in Hall as [He Hall]. apply StronglySorted_cons in Hs as [Hlt Hs].
  rewrite Z.max_r in E; [lia|].
  assert (([e] : list WatchEvent, ev_revision e) = (es, m) →
    Forall (λ e, ev_revision e ≤ m) es ∧ ∃ l e, es = l ++ [e] ∧ m = ev_revision e) as Hone.
  { intros [= <- <-]. split; [constructor; [lia|constructor]|]. by exists [], e. }
  destruct (_ <? _); [by apply Hone|].
  destruct (take_batch n _ _ q) as [es' m'] eqn:E'. destruct n as [|n].
  { simpl in E'. simplify_eq. by apply Hone. }
  destruct q as [|e' q]. { simpl in E'. simplify_eq. by apply Hone. }
  injection E as <- <-. destruct (IH _ _ _ _ _ E' Hs ltac:(done) ltac:(done) Hlt) as (Hle & l & e2 & -> & ->).
  split; [|by exists (e :: l), e2]. constructor; [|done].
  destruct (take_batch_prefix _ _ _ _ _ _ E') as (rest & Hq & _).
  rewrite Forall_forall in Hlt. apply Z.lt_le_incl, (Hlt e2). rewrite Hq. set_solver.
Qed.

Lemma pop_until_split rev l1 l2 :
  Forall (λ e, ev_revision e ≤ rev) l1 → Forall (λ e, rev < ev_revision e) l2 → pop_until rev (l1 ++ l2) = l2.
Proof.
  intros H1 H2. unfold pop_until. induction H1 as [|e l1 He _ IH]; simpl.
  - destruct H2 as [|e l2 He _]; [done|]. simpl. destruct (Z.leb_spec (ev_revision e) rev); [lia|done].
  - destruct (Z.leb_spec (ev_revision e) rev); [done|lia].
Qed.

Lemma Prepare_batch c c' m es :
  cancelled c = false → needReWatch c = false → StronglySorted rev_lt (queue c) →
  PrepareChannelEvents true c = (c', Some (false, m, es)) →
  ∃ rest, filter (λ e, snapshotRevision c < ev_revision e) (queue c) = es ++ rest
    ∧ queue c' = es ++ rest ∧ cancelled c' = false ∧ es ≠ [] ∧ (length es ≤ MAX_WATCH_EVENTS_PER_BATCH)%nat
    ∧ Forall (λ e, ev_revision e ≤ m) es ∧ ∃ l e, es = l ++ [e] ∧ m = ev_revision e.
Proof.
  intros Hl Hr Hs. unfold PrepareChannelEvents. rewrite Hl Hr. cbn [negb orb].
  destruct (queue c) as [|e0 q0] eqn:Eq; [done|]. rewrite -Eq.
  destruct (Z.leb_spec (snapshotRevision c) 0) as [|Hpos]; [done|].
  assert (pop_until (snapshotRevision c) (queue c) =
    filter (λ e, snapshotRevision c < ev_revision e) (queue c)) as Hpop.
  { unfold pop_until. rewrite (partition_point_filter rev_lt).
    - by rewrite Eq.
    - unfold rev_lt. intros x y ? ?%Z.leb_le. apply Z.leb_le. lia.
    - apply list_filter_iff. intros e. rewrite Z.leb_gt. done. }
  rewrite Hpop. clear Hpop. set (q := filter _ (queue c)).
  assert (StronglySorted rev_lt q) as Hsq by (apply StronglySorted_filter; by rewrite Eq).
  assert (Forall (λ e, 0 < ev_revision e) q) as Hall.
  { apply Forall_forall. intros e [? _]%list_elem_of_filter. lia. }
  destruct q as [|e q]; [done|]. destruct (take_batch _ _ _ _) as [es' m'] eqn:E. intros [= <- <- <-].
  assert (Nat.min MAX_WATCH_EVENTS_PER_BATCH (length (e :: q)) ≠ 0%nat) as Hn.
  { unfold MAX_WATCH_EVENTS_PER_BATCH. cbn [length]. lia. }
  destruct (take_batch_prefix _ _ _ _ _ _ E) as (rest & Hq & Hlen & Hne).
  destruct (take_batch_max _ _ _ _ _ _ E Hsq Hn ltac:(done) Hall) as (Hle & Hlast).
  exists rest. split_and!; auto. lia.
Qed.

Lemma RemoveChannel_other d id id' : id' ≠ id → channels_ (RemoveChannel d id) !! id' = channels_ d !! id'.
Proof.
  intros Hne. unfold RemoveChannel, cancel_by_id. destruct (channels_ d !! id); [destruct (heap d !! n)|];
    simpl; by rewrite lookup_delete_ne.
Qed.

Lemma RemoveChannels_table d ids id' :
  channels_ (foldl RemoveChannel d ids) !! id' = if decide (id' ∈ ids) then None else channels_ d !! id'.
Proof.
  revert d. induction ids as [|id ids IH]; intros d; cbn [foldl].
  { destruct (decide (id' ∈ [])) as [[]%elem_of_nil|]; done. }
  rewrite IH. destruct (decide (id' ∈ ids)), (decide (id' ∈ id :: ids)) as [Hx|Hx]; try set_solver.
  - assert (id' = id) as -> by set_solver. apply RemoveChannel_gone.
  - apply RemoveChannel_other. set_solver.
Qed.

(** Backoff after [k] failed notifications in a row. *)
Fixpoint backoff (k : nat) : Z := match k with O => 0 | S k' => next_retry (backoff k') end.

Lemma next_retry_range r : r = 0 ∨ 100 ≤ r ≤ 5000 → 100 ≤ next_retry r ≤ 5000.
Proof.
  unfold next_retry, INITIAL_RETRY_DELAY_MS, RETRY_DELAY_MULTIPLIER, MAX_RETRY_DELAY_MS.
  destruct (Z.eqb_spec r 0); lia.
Qed.

Lemma backoff_value k : backoff (S k) = Z.min (100 * 2 ^ Z.of_nat k) 5000.
Proof.
  induction k as [|k IH]; [done|]. change (backoff (S (S k))) with (next_retry (backoff (S k))). rewrite IH.
  unfold next_retry, INITIAL_RETRY_DELAY_MS, RETRY_DELAY_MULTIPLIER, MAX_RETRY_DELAY_MS.
  rewrite Nat2Z.inj_succ Z.pow_succ_r; [lia|]. pose proof (Z.pow_pos_nonneg 2 (Z.of_nat k)).
  destruct (Z.eqb_spec (Z.min (100 * 2 ^ Z.of_nat k) 5000) 0); lia.
Qed.

Lemma retry_wait_range id r : 100 ≤ r ≤ 5000 →
  100 ≤ retry_wait id r ≤ 5000 ∧ Z.abs (retry_wait id r - r) ≤ r / 5.
Proof.
  intros Hr. unfold retry_wait, INITIAL_RETRY_DELAY_MS, RETRY_DELAY_MULTIPLIER, MAX_RETRY_DELAY_MS,
    RETRY_JITTER_PERCENT, PERCENT_SCALE.
  rewrite Z.quot_div_nonneg; [lia|lia|]. assert (r * 20 / 100 = r / 5) as ->.
  { replace (r * 20) with (20 * r) by lia. by rewrite (Z.div_mul_cancel_l r 5 20). }
  assert (0 ≤ r / 5 ≤ 1000) by (split; [apply Z.div_pos; lia|apply Z.div_le_upper_bound; lia]).
  rewrite (u64_small (r / 5 * 2 + 1)); [lia|].
  pose proof (Z.mod_pos_bound (Z.lxor (u64 id) (u64 r)) (r / 5 * 2 + 1)). lia.
Qed.

(** A dispatcher with one group and one channel (watch 1, key "k"), and its registry. *)
Definition mk_event (k : string) (rev : Z) : WatchEvent := MkWatchEvent PUT (MkKeyValueEntry k "v" 0 1) rev.
Definition demo_reg : WatchRegistry.registry := (WatchRegistry.Register WatchRegistry.init "k" "" "w" "").1.
Definition id_hash (z : Z) : Z := z.
Definition notify_ok (id : Z) (addr : string) (es : list WatchEvent) : res unit := Ok tt.
Definition demo_run (ts : list d_step) : dispatcher * WatchRegistry.registry :=
  foldl (exec_step id_hash notify_ok) (Start init 1, demo_reg) ts.
Definition demo_setup : list d_step :=
  [Op (OAddChannel 1 "w"); Op (OSnapshot 1 1); Op (OEnqueue (mk_event "k" 2)); Op OFanOut].
Lemma fan_out_inv {R : Type} `{RegistryOps R} std_hash n fl d (r : R) e : disp_inv n fl d → disp_inv n fl (fan_out_event std_hash d r e).
Proof. intros Hd. unfold fan_out_event. apply foldl_inv; [done|]. intros. by apply deliver_inv. Qed.

(** Events that all match a channel with room for them. *)
Lemma fan_out_matching {R : Type} `{RegistryLaws R} std_hash n d (r : R) es id c :
  disp_inv n [] d → reg_ok r → channel_of d id = Some c → needReWatch c = false → (length (queue c) + length es ≤ Z.to_nat 1024)%nat →
  (∀ e, e ∈ es → id ∈ reg_match r (kv_key (ev_entry e))) →
  ∃ c', channel_of (foldl (λ d e, fan_out_event std_hash d r e) d es) id = Some c' ∧ snapshotRevision c' = snapshotRevision c ∧ needReWatch c' = false
    ∧ cancelled c' = false ∧ queue c' = queue c ++ es.
Proof.
  revert d c. induction es as [|e es IH]; intros d c Hd Hr Hc Hw Hl Hm.
  - exists c. rewrite app_nil_r. split_and!; try done. unfold channel_of in Hc. apply bind_Some in Hc as (p & Hp & Hc). apply (di_table _ _ _ Hd) in Hp as (? & ? & _ & ?). congruence.
  - cbn [foldl]. cbn in Hl. assert (backpressureLimit c = Z.to_nat 1024) as Hb.
    { unfold channel_of in Hc. apply bind_Some in Hc as (p & Hp & Hc). by destruct (di_ch _ _ _ Hd _ _ Hc) as (_ & ? & _). }
    destruct (deliver_all_channel_of std_hash n [] d e (reg_match r (kv_key (ev_entry e))) id c) as (c1 & Hc1 & Es1 & E1); [by apply reg_match_NoDup|done..|].
    rewrite decide_True in E1; [apply Hm; by left|]. unfold receive in E1. rewrite Hw bool_decide_eq_true_2 in E1; [rewrite Hb; lia|]. injection E1 as E1 E2.
    destruct (IH (fan_out_event std_hash d r e) c1) as (c2 & ? & ? & ? & ? & Eq2); [by apply fan_out_inv|done..|rewrite E1 length_app /=; lia|intros; apply Hm; by right|].
    exists c2. split_and!; [done|congruence|done|done|]. by rewrite Eq2 E1 -app_assoc.
Qed.

(** ** Properties *)

(** safety and no lost wake-up of the dispatcher.  From [Start] with at least one dispatch thread, and
    for every sequence of API calls, fan-out passes and worker turns, each worker turn interleaved with
    arbitrary operations of other threads while its notification is in progress: the pending queue and
    every channel queue stay within their bounds; no channel is queued twice (so no two workers deliver
    to one watcher concurrently); and every live channel that has something deliverable is waiting in a
    ready or retry queue. *)
Theorem dispatcher_run_sound {R : Type} `{RegistryOps R} (std_hash : Z → Z)
    (DoNotify : Z → string → list WatchEvent → res unit) (n : nat) (r : R) (ts : list d_step)
    (Hn : (0 < n)%nat) :
  let d := (foldl (exec_step std_hash DoNotify) (Start init n, r) ts).1 in
  (length (pendingQueue_ d) ≤ MAX_PENDING_EVENTS)%nat
  ∧ NoDup (queued d)
  ∧ ∀ id c, channel_of d id = Some c →
      cancelled c = false ∧ ch_watchId c = id ∧ (length (queue c) ≤ Z.to_nat 1024)%nat
      ∧ (queue c ≠ [] → needReWatch c = true ∨ 0 < snapshotRevision c →
         ∃ p, channels_ d !! id = Some p ∧ p ∈ queued d).
Proof.
  intros d. pose proof (exec_run_inv std_hash DoNotify _ _ r ts (Start_inv n Hn)) as Hinv. fold d in Hinv.
  split_and!; [apply (di_pending _ _ _ Hinv)|apply (di_nodup _ _ _ Hinv)|].
  intros id c Hc. unfold channel_of in Hc. apply bind_Some in Hc as (p & Hp & Hc).
  pose proof (proj1 (di_table _ _ _ Hinv id p) Hp) as (c' & Hc' & Hid & Hl). simplify_eq.
  destruct (di_ch _ _ _ Hinv _ _ Hc) as (Hlen & Hlim & Hwake). rewrite Hlim in Hlen. split_and!; try done.
  intros Hq Hd. exists p. split; [done|]. apply (di_flag _ _ _ Hinv p c Hc Hl). auto.
Qed.

Lemma dispatcher_run_sound_witness :
  (0 < 1)%nat ∧ NoDup (queued (demo_run demo_setup).1) ∧ queued (demo_run demo_setup).1 = [0%nat].
Proof.
  split; [lia|]. split; [|vm_compute; reflexivity].
  apply (dispatcher_run_sound id_hash notify_ok 1 demo_reg demo_setup). lia.
Defined.

(** fan-out is exact.  Offering an event to the channels matched by the registry appends it exactly
    once to the queue of every matched live channel below its backpressure limit, turns a full channel
    into one that only carries a REWATCH event with the overflow revision, leaves a channel that already
    needs a rewatch alone, and touches no other channel's queue. *)
Theorem fan_out_exact {R : Type} `{RegistryLaws R} (std_hash : Z → Z) (n : nat) (d : dispatcher) (r : R)
    (e : WatchEvent) (id : Z) (c : channel)
    (Hinv : disp_inv n [] d) (Hr : reg_ok r) (Hc : channel_of d id = Some c) :
  ∃ c', channel_of (fan_out_event std_hash d r e) id = Some c'
    ∧ (queue c', needReWatch c') =
        if decide (id ∈ reg_match r (kv_key (ev_entry e))) then receive e c else (queue c, needReWatch c).
Proof. edestruct deliver_all_channel_of as (c' & ? & _ & ?); eauto. by apply reg_match_NoDup. Qed.

Lemma fan_out_exact_witness :
  ∃ c', channel_of (fan_out_event id_hash (demo_run demo_setup).1 demo_reg (mk_event "k" 3)) 1 = Some c'
    ∧ (queue c', needReWatch c') = ([mk_event "k" 2; mk_event "k" 3], false).
Proof.
  destruct (fan_out_exact id_hash 0 (demo_run demo_setup).1 demo_reg (mk_event "k" 3) 1
    (MkChannel 1 "w" [mk_event "k" 2] (Z.to_nat 1024) 1 false true 0 false)) as (c' & Hc' & E).
  - apply (exec_run_inv id_hash notify_ok 0), (Start_inv 1). lia.
  - apply WatchRegistry.Register_inv; [apply WatchRegistry.registry_init_inv|vm_compute; reflexivity].
  - vm_compute. reflexivity.
  - exists c'. split; [exact Hc'|]. rewrite E. vm_compute. reflexivity.
Defined.

(** delivery is in order and loses nothing when revisions strictly increase.  The batch sent is a
    nonempty prefix, of at most 32 events, of the queued events newer than the snapshot the watcher
    already has; after a successful notification the queue holds exactly the events that follow the
    batch and those that arrived meanwhile. *)
Theorem commit_lossless (c c' : channel) (extra es : list WatchEvent) (m : Z)
    (Hl : cancelled c = false) (Hr : needReWatch c = false)
    (Hs : StronglySorted rev_lt (queue c ++ extra))
    (HP : PrepareChannelEvents true c = (c', Some (false, m, es))) :
  ∃ rest, filter (λ e, snapshotRevision c < ev_revision e) (queue c) = es ++ rest
    ∧ es ≠ [] ∧ (length es ≤ MAX_WATCH_EVENTS_PER_BATCH)%nat
    ∧ queue (commit_channel (with_queue (queue c' ++ extra) c') m).1 = rest ++ extra.
Proof.
  apply StronglySorted_app in Hs as (Hx & Hs1 & Hs2).
  destruct (Prepare_batch c c' m es Hl Hr Hs1 HP) as (rest & Hf & Hq & Hl' & Hne & Hlen & Hle & l & e & -> & ->).
  exists rest. split_and!; try done.
  assert (Forall (λ e', ev_revision e < ev_revision e') (rest ++ extra)) as Hgt.
  { apply (StronglySorted_filter rev_lt (λ e, snapshotRevision c < ev_revision e)) in Hs1. rewrite Hf in Hs1.
    apply StronglySorted_app in Hs1 as (Hlt & _ & _). apply Forall_app. split; apply Forall_forall.
    - intros e' He'. apply Hlt; [set_solver|done].
    - intros e' He'. apply Hx; [|done]. assert (e ∈ (l ++ [e]) ++ rest) as Hin by set_solver.
      rewrite -Hf in Hin. by apply list_elem_of_filter in Hin as [_ ?]. }
  unfold commit_channel. simpl. rewrite Hl' Hq -assoc. rewrite pop_until_split //.
  by destruct (rest ++ extra).
Qed.

Lemma commit_lossless_witness :
  let c := MkChannel 1 "w" [mk_event "k" 1; mk_event "k" 2; mk_event "k" 3] 1024 1 false true 0 false in
  ∃ rest, filter (λ e, snapshotRevision c < ev_revision e) (queue c) = [mk_event "k" 2; mk_event "k" 3] ++ rest
    ∧ rest = [].
Proof.
  intros c.
  destruct (commit_lossless c (with_queue [mk_event "k" 2; mk_event "k" 3] c) [mk_event "k" 4]
    [mk_event "k" 2; mk_event "k" 3] 3) as (rest & Hf & _).
  - reflexivity.
  - reflexivity.
  - repeat constructor; rewrite /rev_lt /=; lia.
  - vm_compute. reflexivity.
  - exists rest. split; [exact Hf|]. vm_compute in Hf. by injection Hf.
Defined.

(** A notification of a channel whose events are all new takes a prefix of them. *)
Lemma Prepare_new c :
  cancelled c = false → needReWatch c = false → queue c ≠ [] → 0 < snapshotRevision c → Forall (λ e, snapshotRevision c < ev_revision e) (queue c) →
  ∃ m es rest, PrepareChannelEvents true c = (with_queue (queue c) c, Some (false, m, es)) ∧ queue c = es ++ rest.
Proof.
  intros Hl Hr Hq Hs Hnew. unfold PrepareChannelEvents. rewrite Hl Hr. cbn [negb orb].
  assert (pop_until (snapshotRevision c) (queue c) = queue c) as Hpop by (by apply (pop_until_split _ [])). rewrite Hpop.
  destruct (queue c) as [|e q] eqn:Eq; [done|]. destruct (Z.leb_spec (snapshotRevision c) 0); [lia|].
  destruct (take_batch _ _ _ _) as [es m] eqn:E. destruct (take_batch_prefix _ _ _ _ _ _ E) as (rest & ? & _). by exists m, es, rest.
Qed.

(** Number of queued events still to be sent after a successful notification of [es]. *)
Definition after_commit (c : channel) (m : Z) : list WatchEvent := queue (commit_channel c m).1.

(** committing by revision loses events that share one.  When a channel holds more events of one
    revision than a batch can carry, a single successful notification of at most 32 of them empties the
    queue: the others are never sent.  A range deletion produces such events, since every DELETE event it
    emits carries the revision of the call. *)
Theorem commit_drops_shared_revision (c c' : channel) (rev m : Z) (rw : bool) (es : list WatchEvent)
    (Hl : cancelled c = false) (Hr : needReWatch c = false)
    (Hrev : Forall (λ e, ev_revision e = rev) (queue c)) (Hsnap : 0 < snapshotRevision c < rev)
    (Hlen : (MAX_WATCH_EVENTS_PER_BATCH < length (queue c))%nat)
    (HP : PrepareChannelEvents true c = (c', Some (rw, m, es))) :
  (length es ≤ MAX_WATCH_EVENTS_PER_BATCH)%nat ∧ queue c' = queue c ∧ after_commit c' m = [].
Proof.
  unfold PrepareChannelEvents in HP. rewrite Hl Hr in HP. cbn [negb orb] in HP.
  assert (pop_until (snapshotRevision c) (queue c) = queue c) as Hpop.
  { apply (pop_until_split _ []); [constructor|]. eapply Forall_impl; [exact Hrev|]. simpl. lia. }
  destruct (queue c) as [|e q] eqn:Eq; [simpl in Hlen; lia|].
  destruct (Z.leb_spec (snapshotRevision c) 0); [lia|]. rewrite Hpop in HP.
  destruct (take_batch _ _ _ _) as [es' m'] eqn:E. injection HP as <- <- <- <-.
  destruct (take_batch_prefix _ _ _ _ _ _ E) as (rest & _ & Hle & _). split_and!; [lia|done|].
  assert (rev ≤ m') as Hm.
  { apply Forall_cons in Hrev as [He _]. revert E. cbn [length].
    destruct (Nat.min MAX_WATCH_EVENTS_PER_BATCH (S (length q))) as [|k] eqn:Ek;
      [unfold MAX_WATCH_EVENTS_PER_BATCH in Ek; lia|].
    intros E. destruct (take_batch_ge (S k) _ _ _ _ _ ltac:(done) E) as [_ Hge]. rewrite -He. by eapply Hge. }
  unfold after_commit, commit_channel. simpl. rewrite Hl.
  assert (pop_until m' (e :: q) = []) as ->; [|done].
  rewrite -(app_nil_r (e :: q)). apply pop_until_split; [|constructor].
  eapply Forall_impl; [exact Hrev|]. simpl. lia.
Qed.

(** A range deletion of 33 keys, fanned out to one watcher: 32 of the 33 DELETE events are sent. *)
Definition shared_queue : list WatchEvent :=
  (λ i, MkWatchEvent DELETE (MkKeyValueEntry (String (ascii_of_nat (32 + i)) "") "v" 0 1) 34) <$> seq 0 33.

Lemma commit_drops_shared_revision_witness :
  let c := MkChannel 1 "w" shared_queue 1024 33 false true 0 false in
  ∃ c' m es, PrepareChannelEvents true c = (c', Some (false, m, es)) ∧ length es = 32%nat ∧ after_commit c' m = [].
Proof.
  intros c. exists c, 34, (take 32 shared_queue).
  assert (PrepareChannelEvents true c = (c, Some (false, 34, take 32 shared_queue))) as HP by (vm_compute; reflexivity).
  split; [exact HP|]. split; [reflexivity|].
  apply (commit_drops_shared_revision c c 34 34 false (take 32 shared_queue)).
  - reflexivity.
  - reflexivity.
  - repeat constructor.
  - simpl. lia.
  - vm_compute. lia.
  - exact HP.
Defined.

(** A turn of the worker during whose notification an event overflows the pending queue and the fan-out
    thread runs. *)
Definition overflow_turn : d_step := Dispatch 0 0 [OEnqueue (mk_event "x" 9); OFanOut].
Definition crowded (s : dispatcher * WatchRegistry.registry) : dispatcher * WatchRegistry.registry :=
  (with_pending (replicate MAX_PENDING_EVENTS (mk_event "x" 8)) s.1, s.2).
Definition wedged : dispatcher * WatchRegistry.registry :=
  exec_step id_hash notify_ok (crowded (demo_run demo_setup)) overflow_turn.

(** a rewatch notice raised by a pending-queue overflow can be swallowed.  If the overflow is answered
    while a worker is notifying the channel, the REWATCH event (revision 0) is popped by that worker's
    commit: the channel stays registered and marked as needing a rewatch, with nothing queued and not
    scheduled, so no later event is ever queued for the watcher and the notice is never sent. *)
Theorem rewatch_notice_swallowed :
  ∃ c, channel_of wedged.1 1 = Some c ∧ cancelled c = false ∧ needReWatch c = true ∧ queue c = []
    ∧ dispatchQueued c = false ∧ queued wedged.1 = []
    ∧ ∀ e, channel_of (fan_out_event id_hash wedged.1 wedged.2 e) 1 = Some c
           ∧ queued (fan_out_event id_hash wedged.1 wedged.2 e) = [].
Proof.
  assert (channel_of wedged.1 1 = Some (MkChannel 1 "w" [] (Z.to_nat 1024) 1 true false 0 false)) as Hc
    by (vm_compute; reflexivity).
  assert (queued wedged.1 = []) as Hq by (vm_compute; reflexivity).
  assert (channels_ wedged.1 = {[1 := 0%nat]}) as Ht by (vm_compute; reflexivity).
  revert Hc Hq Ht. generalize wedged. intros w Hc Hq Ht.
  eexists. split_and!; [exact Hc|done..|]. intros e. unfold fan_out_event.
  generalize (reg_match w.2 (kv_key (ev_entry e))) as ids.
  induction ids as [|id ids IH]; cbn [foldl]; [done|].
  assert (deliver_to_channel id_hash w.1 e id = w.1) as ->; [|done].
  unfold deliver_to_channel. unfold channel_of in Hc. rewrite Ht in Hc |- *.
  destruct (decide (id = 1)) as [->|Hne].
  - rewrite lookup_singleton_eq /= in Hc |- *. by rewrite Hc.
  - by rewrite lookup_singleton_ne.
Qed.

(** a departing watcher is removed exactly.  [RemoveChannelsByWatcher] drops the channels of that
    address and no other, and the reverse index and the dispatch invariant stay consistent. *)
Theorem RemoveChannelsByWatcher_exact {R : Type} `{RegistryOps R} (n : nat) (d : dispatcher) (r : R) (addr : string)
    (Hinv : disp_inv n [] d) :
  let d' := (RemoveChannelsByWatcher d r addr).1 in
  disp_inv n [] d' ∧
  ∀ id, channels_ d' !! id =
    match channel_of d id with
    | Some c => if decide (ch_addr c = addr) then None else channels_ d !! id
    | None => None
    end.
Proof.
  intros d'. split; [by apply RemoveChannelsByWatcher_inv|]. intros id.
  assert (channels_ d' !! id =
    if decide (id ∈ default ∅ (watchIdsByWatcher_ d !! addr)) then None else channels_ d !! id) as ->.
  { subst d'. unfold RemoveChannelsByWatcher. destruct (watchIdsByWatcher_ d !! addr) as [ids|]; cbn [default].
    - destruct (cancel_all _ _ _ _) as [r' f]. simpl. rewrite RemoveChannels_table.
      destruct (decide (id ∈ elements ids)), (decide (id ∈ ids)); set_solver.
    - done. }
  pose proof (di_index _ _ _ Hinv addr id) as Hi. pose proof (di_table _ _ _ Hinv id) as Ht.
  unfold channel_of. destruct (channels_ d !! id) as [p|] eqn:Ep; cbn.
  - destruct (proj1 (Ht p) eq_refl) as (c & Hc & Hid & Hl). rewrite Hc.
    destruct (decide (id ∈ _)) as [Hin|Hin], (decide (ch_addr c = addr)) as [Ha|Ha]; try done.
    + apply Hi in Hin as (? & ? & ? & ? & ?). congruence.
    + destruct Hin. apply Hi. eauto.
  - by destruct (decide (id ∈ _)).
Qed.

Lemma RemoveChannelsByWatcher_exact_witness :
  channels_ (RemoveChannelsByWatcher (demo_run demo_setup).1 demo_reg "w").1 !! 1 = None.
Proof.
  rewrite (proj2 (RemoveChannelsByWatcher_exact 0 (demo_run demo_setup).1 demo_reg "w"
    ltac:(apply (exec_run_inv id_hash notify_ok 0), (Start_inv 1); lia))).
  vm_compute. reflexivity.
Defined.

(** bounded exponential backoff.  After [k+1] failed notifications in a row the channel's retry delay
    is [min (100 * 2^k) 5000] ms, and the jittered wait stays between 100 and 5000 ms and within a fifth
    of that delay. *)
Theorem retry_backoff (c : channel) (k : nat) (Hl : cancelled c = false) (Hk : retryDelayMs c = backoff k) :
  ∃ c' delay, PrepareRetry true c = Some (c', delay)
    ∧ retryDelayMs c' = Z.min (100 * 2 ^ Z.of_nat k) 5000 ∧ queue c' = queue c
    ∧ 100 ≤ delay ≤ 5000 ∧ Z.abs (delay - retryDelayMs c') ≤ retryDelayMs c' / 5.
Proof.
  unfold PrepareRetry. rewrite Hl /= Hk. change (next_retry (backoff k)) with (backoff (S k)).
  eexists _, _. split; [done|]. cbn [retryDelayMs with_retry queue]. split; [apply backoff_value|]. split; [done|].
  apply retry_wait_range. rewrite backoff_value. pose proof (Z.pow_pos_nonneg 2 (Z.of_nat k)). lia.
Qed.

Lemma retry_backoff_witness :
  let c := MkChannel 7 "w" [] 1024 1 false true 400 false in
  ∃ c' delay, PrepareRetry true c = Some (c', delay) ∧ retryDelayMs c' = 800 ∧ 640 ≤ delay ≤ 960.
Proof.
  intros c. destruct (retry_backoff c 3) as (c' & delay & HP & Hr & _ & Hb & Hj); [reflexivity..|].
  exists c', delay. change (Z.min (100 * 2 ^ Z.of_nat 3) 5000) with 800 in Hr. rewrite Hr in Hj |- *.
  change (800 / 5) with 160 in Hj. split_and!; [done|done|lia|lia].
Defined.
End WatchDispatcher.
