(* ===== verification/CoordinatorStore.v ===== *)
(** * CoordinatorStore: the coordinator's store, composed

    Model of [src/datasystem/common/coordinator/coordinator_store.{h,cpp}]: the key-value store, the TTL
    schedule, the watch registry and the watch dispatcher, wired by [BindCallbacks].  Every committed
    mutation is reported to the committed-mutation observer and enqueued in the dispatcher; every expired
    TTL record is handed to [MemoryKvStore::DeleteIfTtlExpired].

    A default-constructed store has no components ([None]); [CheckInitialized] refuses every call on it.
    The calls of the observer are recorded, in order.  [undefined] records whether a TTL schedule call
    would have dereferenced a dangling iterator; it is never set. *)
From S2P Require Import Prelude MemoryKvStore TtlManager WatchRegistry WatchDispatcher.
Import MemoryKvStore.

Module CoordinatorStore.
Local Open Scope Z_scope.

Record components := MkComponents {
  memKvStore_ : store;
  watchRegistry_ : WatchRegistry.registry;
  watchDispatcher_ : WatchDispatcher.dispatcher;
  ttlManager_ : TtlManager.ttl;
  committedMutationObserver_ : bool;
  observed : list (WatchEventType * string);
  shutdown_ : bool;
  undefined : bool }.

Definition coordinator := option components.

(** The constructor: [BindCallbacks] installs the mutation and the expiry callback. *)
Definition new (kv : store) (reg : WatchRegistry.registry) (disp : WatchDispatcher.dispatcher)
    (ttl : TtlManager.ttl) : coordinator :=
  Some (MkComponents (SetMutationCallback kv true) reg disp ttl false [] false false).

Definition CheckInitialized (c : coordinator) : res components :=
  match c with Some s => Ok s | None => Fail K_NOT_READY end.

(** Field updates. *)
Definition with_kv (kv : store) (s : components) : components :=
  MkComponents kv (watchRegistry_ s) (watchDispatcher_ s) (ttlManager_ s) (committedMutationObserver_ s)
    (observed s) (shutdown_ s) (undefined s).
Definition with_watch (r : WatchRegistry.registry) (d : WatchDispatcher.dispatcher) (s : components) : components :=
  MkComponents (memKvStore_ s) r d (ttlManager_ s) (committedMutationObserver_ s)
    (observed s) (shutdown_ s) (undefined s).
Definition with_ttl (t : TtlManager.ttl) (s : components) : components :=
  MkComponents (memKvStore_ s) (watchRegistry_ s) (watchDispatcher_ s) t (committedMutationObserver_ s)
    (observed s) (shutdown_ s) (undefined s).

(** The mutation callback on one event: observer first, then the dispatcher. *)
Definition on_mutation (s : components) (e : WatchEvent) : components :=
  MkComponents (memKvStore_ s) (watchRegistry_ s) (WatchDispatcher.Enqueue (watchDispatcher_ s) e)
    (ttlManager_ s) (committedMutationObserver_ s)
    (if committedMutationObserver_ s then observed s ++ [(ev_type e, kv_key (ev_entry e))] else observed s)
    (shutdown_ s) (undefined s).

(** A store mutation followed by its callbacks. *)
Definition commit (s : components) (kv : store) (events : list WatchEvent) : components :=
  foldl on_mutation (with_kv kv s) events.

Definition Schedule (s : components) (now : Z) (key : string) (ttl revision generation : Z) : components :=
  match TtlManager.Schedule (ttlManager_ s) now key ttl revision generation with
  | Some (t, _) => with_ttl t s
  | None => MkComponents (memKvStore_ s) (watchRegistry_ s) (watchDispatcher_ s) (ttlManager_ s)
              (committedMutationObserver_ s) (observed s) (shutdown_ s) true
  end.

Definition Start (s : components) (dispatchThreads : nat) : components :=
  with_ttl (TtlManager.Start (ttlManager_ s))
    (with_watch (watchRegistry_ s) (WatchDispatcher.Start (watchDispatcher_ s) dispatchThreads) s).

(** Returns [(version, revision)]. *)
Definition Put (s : components) (now : Z) (key val : string) (ttl ev em eg : Z)
    : components * res (Z * Z) :=
  let '(kv, events, r) := MemoryKvStore.Put (memKvStore_ s) key val ttl ev em eg in
  let s1 := commit s kv events in
  match r with
  | Fail c => (s1, Fail c)
  | Ok (version, revision, generation) =>
    (if 0 <? ttl then Schedule s1 now key ttl revision generation else s1, Ok (version, revision))
  end.

Definition Range (s : components) (key rangeEnd : string) (kvs : list KeyValueEntry)
    : list KeyValueEntry * Z :=
  MemoryKvStore.Range (memKvStore_ s) key rangeEnd kvs.

(** Returns [(deleted, revision)]. *)
Definition DeleteRange (s : components) (key rangeEnd : string) (em : Z) : components * res (Z * Z) :=
  let '(kv, events, r) := MemoryKvStore.Delete (memKvStore_ s) key rangeEnd [] em in
  (commit s kv events, let! x := r in Ok (x.1.1, x.1.2)).

Section Watch.
Context (std_hash : Z → Z).

(** Returns [(watchId, initialKvs)]. *)
Definition WatchRange (s : components) (key rangeEnd watcherAddr registrationId : string)
    : components * res (Z * list KeyValueEntry) :=
  match WatchRegistry.Register (watchRegistry_ s) key rangeEnd watcherAddr registrationId with
  | (r, Fail c) => (with_watch r (watchDispatcher_ s) s, Fail c)
  | (r, Ok (watchId, created)) =>
    let d := if created then WatchDispatcher.AddChannel (watchDispatcher_ s) watchId watcherAddr
             else watchDispatcher_ s in
    let '(kvs, snapshot) := MemoryKvStore.Range (memKvStore_ s) key rangeEnd [] in
    (with_watch r (WatchDispatcher.SetSnapshotRevision std_hash d watchId snapshot) s, Ok (watchId, kvs))
  end.
End Watch.

Definition cancel_one (watcherAddr : string) (sr : components * res unit) (watchId : Z)
    : components * res unit :=
  let '(s, firstError) := sr in
  let '(r, status) := WatchRegistry.Cancel (watchRegistry_ s) watchId watcherAddr in
  if is_ok status || bool_decide (res_code status = K_NOT_FOUND)
  then (with_watch r (WatchDispatcher.RemoveChannel (watchDispatcher_ s) watchId) s, firstError)
  else (with_watch r (watchDispatcher_ s) s, if is_ok firstError then status else firstError).

Definition CancelWatch (s : components) (watcherAddr : string) (watchIds : list Z) : components * res unit :=
  foldl (cancel_one watcherAddr) (s, Ok tt) watchIds.

(** Returns [(ttlMs, remainingTtlMs)]. *)
Definition KeepAlive (s : components) (now : Z) (key : string) (em : Z) : components * res (Z * Z) :=
  match MemoryKvStore.KeepAlive (memKvStore_ s) key em with
  | (kv, Fail c) => (with_kv kv s, Fail c)
  | (kv, Ok (ttl, remaining, revision, generation)) =>
    (Schedule (with_kv kv s) now key ttl revision generation, Ok (ttl, remaining))
  end.

Definition SetCommittedMutationObserver (s : components) (installed : bool) : components :=
  MkComponents (memKvStore_ s) (watchRegistry_ s) (watchDispatcher_ s) (ttlManager_ s) installed
    (observed s) (shutdown_ s) (undefined s).

Definition StopTtl (s : components) : components := with_ttl (TtlManager.Stop (ttlManager_ s)) s.

Definition Shutdown (s : components) : components :=
  if shutdown_ s then s
  else
    let s1 := StopTtl s in
    MkComponents (SetMutationCallback (memKvStore_ s1) false) (watchRegistry_ s1)
      (WatchDispatcher.Stop (watchDispatcher_ s1)) (ttlManager_ s1) false (observed s1) true (undefined s1).

(** The expiry callback on one record. *)
Definition on_expired (s : components) (r : TtlManager.TtlScheduleRecord) : components :=
  let '(kv, events, _) := DeleteIfTtlExpired (memKvStore_ s) (TtlManager.rec_key r)
                            (TtlManager.rec_revision r) (TtlManager.rec_ttlGeneration r) in
  commit s kv events.

(** One pass of the expiry thread: collect the due records, then run the callback on each. *)
Definition ExpiryPass (s : components) (now : Z) : components :=
  let '(t, expired) := TtlManager.CheckExpiration_pass (ttlManager_ s) now in
  foldl on_expired (with_ttl t s) expired.

(** A call through the public interface: refused on a store without components. *)
Definition call {A} (f : components → components * res A) (c : coordinator) : coordinator * res A :=
  match CheckInitialized c with
  | Ok s => let '(s', r) := f s in (Some s', r)
  | Fail code => (c, Fail code)
  end.

(** ** Histories *)
Inductive c_op :=
| CPut (now : Z) (key val : string) (ttl ev em eg : Z)
| CDeleteRange (key rangeEnd : string) (em : Z)
| CKeepAlive (now : Z) (key : string) (em : Z)
| CExpiryPass (now : Z)
| CWatchRange (key rangeEnd watcherAddr registrationId : string)
| CCancelWatch (watcherAddr : string) (watchIds : list Z)
| CFanOut.

Section Run.
Context (std_hash : Z → Z).

Definition c_step (s : components) (o : c_op) : components :=
  match o with
  | CPut now k v ttl ev em eg => (Put s now k v ttl ev em eg).1
  | CDeleteRange k re em => (DeleteRange s k re em).1
  | CKeepAlive now k em => (KeepAlive s now k em).1
  | CExpiryPass now => ExpiryPass s now
  | CWatchRange k re addr rid => (WatchRange std_hash s k re addr rid).1
  | CCancelWatch addr ids => (CancelWatch s addr ids).1
  | CFanOut => with_watch (watchRegistry_ s)
                 (WatchDispatcher.FanOut_pass std_hash (watchDispatcher_ s) (watchRegistry_ s)) s
  end.

Definition c_run (s : components) (os : list c_op) : components := foldl c_step s os.

(** The mutations an operation performs on the key-value store. *)
Definition kv_trace (s : components) (o : c_op) : list kv_op :=
  match o with
  | CPut _ k v ttl ev em eg => [OpPut k v ttl ev em eg]
  | CDeleteRange k re em => [OpDelete k re em]
  | CKeepAlive _ k em => [OpKeepAlive k em]
  | CExpiryPass now =>
      (λ r, OpExpire (TtlManager.rec_key r) (TtlManager.rec_revision r) (TtlManager.rec_ttlGeneration r))
      <$> (TtlManager.CheckExpiration_pass (ttlManager_ s) now).2
  | _ => []
  end.

Fixpoint kv_traces (s : components) (os : list c_op) : list kv_op :=
  match os with [] => [] | o :: os' => kv_trace s o ++ kv_traces (c_step s o) os' end.

(** An upper bound on the mutations of an operation. *)
Definition cost (o : c_op) : nat :=
  match o with CExpiryPass _ => TtlManager.MAX_EXPIRED_KEYS_PER_CHECK | _ => 1 end.
Definition costs (os : list c_op) : nat := sum_list (cost <$> os).
End Run.

(** ** Frame lemmas *)
Lemma commit_frame s kv es :
  commit s kv es =
    MkComponents kv (watchRegistry_ s) (foldl WatchDispatcher.Enqueue (watchDispatcher_ s) es) (ttlManager_ s)
      (committedMutationObserver_ s)
      (observed s ++ (if committedMutationObserver_ s then (λ e, (ev_type e, kv_key (ev_entry e))) <$> es else []))
      (shutdown_ s) (undefined s).
Proof.
  unfold commit. revert s. induction es as [|e es IH]; intros s; simpl.
  - destruct s as [? ? ? ? [] ? ? ?]; simpl; by rewrite app_nil_r.
  - specialize (IH (on_mutation s e)). unfold with_kv, on_mutation in *. simpl in *.
    rewrite IH. destruct (committedMutationObserver_ s); [|done]. by rewrite -assoc.
Qed.

Lemma Schedule_frame s now k ttl rev gen :
  TtlManager.ttl_inv (ttlManager_ s) →
  ∃ t, Schedule s now k ttl rev gen = with_ttl t s ∧ TtlManager.ttl_inv t
    ∧ TtlManager.running_ t = TtlManager.running_ (ttlManager_ s)
    ∧ TtlManager.pending t = TtlManager.spec_schedule (TtlManager.pending (ttlManager_ s)) now k ttl rev gen.
Proof.
  intros Ht. unfold Schedule.
  destruct (TtlManager.Schedule_spec _ now k ttl rev gen Ht) as (t & b & -> & ? & ? & ?). eauto.
Qed.

(** ** The key-value store and its TTL schedule

    Every entry with a TTL has a check for its current revision and generation, either pending in the
    schedule or already taken out by the expiry thread and about to be run ([out]); and no pending check is
    ahead of the store. *)
Definition linked (out : list TtlManager.TtlScheduleRecord) (kv : store) (t : TtlManager.ttl) : Prop :=
  (∀ k e, data_ kv !! k = Some e → 0 < ttlMs e →
     ∃ r, (TtlManager.pending t !! k = Some r ∨ (r ∈ out ∧ TtlManager.rec_key r = k))
          ∧ TtlManager.rec_revision r = modRevision e ∧ TtlManager.rec_ttlGeneration r = ttlGeneration e)
  ∧ ∀ k r, TtlManager.pending t !! k = Some r →
      TtlManager.rec_revision r ≤ revision_ kv
      ∧ ∀ e, data_ kv !! k = Some e → modRevision e = TtlManager.rec_revision r →
          TtlManager.rec_ttlGeneration r ≤ ttlGeneration e.

Lemma linked_shrink out kv kv' t :
  data_ kv' ⊆ data_ kv → revision_ kv ≤ revision_ kv' → linked out kv t → linked out kv' t.
Proof.
  intros Hsub Hrev [H1 H2]. split.
  - intros k e He. apply H1. by eapply lookup_weaken.
  - intros k r Hr. destruct (H2 k r Hr) as [? Hg]. split; [lia|]. intros e He. apply Hg. by eapply lookup_weaken.
Qed.

Lemma not_stale_insert p now k ttl rev gen :
  0 < ttl → (∀ r, p !! k = Some r → TtlManager.is_stale r rev gen = false) →
  TtlManager.spec_schedule p now k ttl rev gen =
    <[k := TtlManager.MkRecord k rev gen (i64 (now + ttl * TtlManager.NS_PER_MS))]> p.
Proof.
  intros Ht Hst. unfold TtlManager.spec_schedule. destruct (Z.leb_spec ttl 0); [lia|].
  destruct (p !! k) as [r|] eqn:E; [|done]. by rewrite (Hst r eq_refl).
Qed.

(** Installing an entry and scheduling its check keeps the link. *)
Lemma linked_insert out kv t t' k e (ds : gmap string ValueEntry) now rev cb :
  linked out kv t → ds = <[k := e]> (data_ kv) → revision_ kv ≤ rev → modRevision e ≤ rev → 0 ≤ ttlGeneration e →
  (∀ r, TtlManager.pending t !! k = Some r → TtlManager.is_stale r (modRevision e) (ttlGeneration e) = false) →
  TtlManager.pending t' = TtlManager.spec_schedule (TtlManager.pending t) now k (ttlMs e) (modRevision e) (ttlGeneration e) →
  linked out (MkStore ds rev cb) t'.
Proof.
  intros [H1 H2] -> Hrev Hm Hg Hst Hp. unfold linked. cbn [data_ revision_]. rewrite Hp.
  destruct (Z.ltb_spec 0 (ttlMs e)) as [Ht|Ht].
  - rewrite not_stale_insert //. split.
    + intros k' e'. rewrite !lookup_insert. case_decide; [intros [= <-] _; eauto 10|by apply H1].
    + intros k' r. rewrite !lookup_insert. case_decide; [intros [= <-]; simpl|].
      * split; [done|]. intros e' [= <-] _. done.
      * intros Hr. destruct (H2 _ _ Hr). split; [lia|done].
  - assert (∀ p, TtlManager.spec_schedule p now k (ttlMs e) (modRevision e) (ttlGeneration e) = p) as ->.
    { intros p. unfold TtlManager.spec_schedule. by destruct (Z.leb_spec (ttlMs e) 0); [|lia]. }
    split.
    + intros k' e'. rewrite lookup_insert. case_decide; [intros [= <-]; lia|by apply H1].
    + intros k' r Hr. destruct (H2 _ _ Hr) as [? Hgen]. split; [lia|]. intros e'. rewrite lookup_insert.
      case_decide as E; [|by apply Hgen]. subst k'. intros [= <-] Heq. specialize (Hst r Hr).
      unfold TtlManager.is_stale in Hst. apply orb_false_iff in Hst as [_ Hst]. rewrite Heq Z.eqb_refl /= in Hst.
      by apply Z.ltb_ge in Hst.
Qed.

(** ** The invariant of the composed store *)
Record c_inv (n : nat) (out : list TtlManager.TtlScheduleRecord) (s : components) : Prop := MkCInv {
  ci_kv : kv_wf (memKvStore_ s);
  ci_cb : mutationCallback_ (memKvStore_ s) = true;
  ci_ttl : TtlManager.ttl_inv (ttlManager_ s);
  ci_running : TtlManager.running_ (ttlManager_ s) = true;
  ci_link : linked out (memKvStore_ s) (ttlManager_ s);
  ci_reg : WatchRegistry.reg_inv (watchRegistry_ s);
  ci_disp : WatchDispatcher.disp_inv n [] (watchDispatcher_ s);
  ci_defined : undefined s = false }.

Lemma enqueue_all_inv n d es :
  WatchDispatcher.disp_inv n [] d → WatchDispatcher.disp_inv n [] (foldl WatchDispatcher.Enqueue d es).
Proof. revert d. induction es; intros d Hd; simpl; [done|]. apply IHes. by apply WatchDispatcher.Enqueue_inv. Qed.

Lemma kv_step_shrink kv op :
  kv_wf kv → kv_budget 1 kv →
  match op with OpDelete _ _ _ | OpExpire _ _ _ => True | _ => False end →
  data_ (kv_step kv op).1 ⊆ data_ kv.
Proof.
  intros _ _ Hop. apply map_subseteq_spec. intros k' e'. destruct op as [| k re em|k rv g|]; try done; simpl.
  - rewrite /Delete. case_match; [done|]. destruct in_range_list; [done|]. case_match; [done|].
    cbn [data_ fst]. rewrite lookup_erase_all. by case_decide.
  - rewrite /DeleteIfTtlExpired. destruct (data_ kv !! k); [|done]. do 2 (case_match; [done|]). simpl.
    by intros [_ ?]%lookup_delete_Some.
Qed.

Lemma kv_step_rev_le kv op : kv_wf kv → kv_budget 1 kv → revision_ kv ≤ revision_ (kv_step kv op).1.
Proof. intros Hwf Hb. destruct (kv_step_revision kv op Hwf Hb) as [[-> _]|[-> _]]; lia. Qed.

(** Replacing the store by the result of a step, publishing its events. *)
Lemma commit_step_inv n out s op :
  c_inv n out s → kv_budget 1 (memKvStore_ s) →
  match op with OpDelete _ _ _ | OpExpire _ _ _ => True | _ => False end →
  c_inv n out (commit s (kv_step (memKvStore_ s) op).1 (kv_step (memKvStore_ s) op).2).
Proof.
  intros [] Hb Hop. rewrite commit_frame. split; simpl; try done.
  - by apply kv_step_wf.
  - by rewrite kv_step_callback.
  - eapply linked_shrink; [by apply kv_step_shrink|by apply kv_step_rev_le|done].
  - by apply enqueue_all_inv.
Qed.

Lemma DeleteRange_inv n s k re em :
  c_inv n [] s → kv_budget 1 (memKvStore_ s) → c_inv n [] (DeleteRange s k re em).1.
Proof.
  intros Hinv Hb. pose proof (commit_step_inv n [] s (OpDelete k re em) Hinv Hb I) as Hs. simpl in Hs.
  unfold DeleteRange. by destruct (Delete _ _ _ _ _) as [[kv es] r].
Qed.

Lemma on_expired_step s r :
  on_expired s r = let op := OpExpire (TtlManager.rec_key r) (TtlManager.rec_revision r) (TtlManager.rec_ttlGeneration r) in
    commit s (kv_step (memKvStore_ s) op).1 (kv_step (memKvStore_ s) op).2.
Proof. unfold on_expired. simpl. by destruct (DeleteIfTtlExpired _ _ _ _) as [[kv es] b]. Qed.

Lemma Put_inv n s now k v ttl ev em eg :
  c_inv n [] s → kv_budget 1 (memKvStore_ s) → c_inv n [] (Put s now k v ttl ev em eg).1.
Proof.
  intros Hinv Hb. pose proof Hinv as [].
  pose proof (kv_step_wf _ (OpPut k v ttl ev em eg) ci_kv0 Hb) as Hwf'. simpl in Hwf'.
  unfold Put. unfold MemoryKvStore.Put in *. destruct (put_guard _ _ _ _ _) as [|c].
  2:{ rewrite commit_frame /=. split; simpl; try done. }
  set (e := put_entry _ _ _ _) in *. set (rev := i64 _) in *. set (kv := MkStore _ _ _) in *. simpl in Hwf'.
  assert (rev = revision_ (memKvStore_ s) + 1) as Hrev.
  { apply i64_small. destruct Hb as [Hb _], ci_kv0 as [? _]. unfold INT64_MAX in *. lia. }
  assert (modRevision e = rev ∧ ttlMs e = ttl ∧ 0 ≤ ttlGeneration e) as (Hem & Het & Heg).
  { subst e. unfold put_entry. destruct (data_ _ !! k); simpl; split_and!; try done. apply u64_range. }
  assert (∀ r, TtlManager.pending (ttlManager_ s) !! k = Some r → TtlManager.is_stale r (modRevision e) (ttlGeneration e) = false) as Hst.
  { intros r Hr. destruct (proj2 ci_link0 k r Hr) as [Hle _]. unfold TtlManager.is_stale. apply orb_false_iff.
    split; [apply Z.ltb_ge; lia|]. apply andb_false_iff. left. apply Z.eqb_neq. lia. }
  rewrite commit_frame ci_cb0. set (s1 := MkComponents _ _ _ _ _ _ _ _).
  assert (∃ t, (if 0 <? ttl then Schedule s1 now k ttl rev (ttlGeneration e) else s1) = with_ttl t s1
    ∧ TtlManager.ttl_inv t ∧ TtlManager.running_ t = true
    ∧ TtlManager.pending t = TtlManager.spec_schedule (TtlManager.pending (ttlManager_ s)) now k ttl rev (ttlGeneration e)) as (t & Et & Ht1 & Ht2 & Ht3).
  { destruct (Z.ltb_spec 0 ttl).
    - destruct (Schedule_frame s1 now k ttl rev (ttlGeneration e) ci_ttl0) as (t & ? & ? & ? & ?).
      exists t. split_and!; try done. simpl in *. congruence.
    - exists (ttlManager_ s). split_and!; try done. unfold TtlManager.spec_schedule. by destruct (Z.leb_spec ttl 0); [|lia]. }
  cbn [fst]. rewrite Et. split; simpl; try done.
  - eapply (linked_insert [] _ _ t k e); eauto; rewrite ?Hem ?Het; try done; lia.
  - by apply WatchDispatcher.Enqueue_inv.
Qed.

Lemma KeepAlive_inv n s now k em :
  c_inv n [] s → kv_budget 1 (memKvStore_ s) → c_inv n [] (KeepAlive s now k em).1.
Proof.
  intros Hinv Hb. pose proof Hinv as [].
  pose proof (kv_step_wf _ (OpKeepAlive k em) ci_kv0 Hb) as Hwf'. simpl in Hwf'.
  unfold KeepAlive. unfold MemoryKvStore.KeepAlive in *.
  destruct (data_ (memKvStore_ s) !! k) as [e|] eqn:Ek; [|split; done].
  destruct (Z.leb_spec (ttlMs e) 0) as [|Hpos]; [split; done|].
  destruct (negb _ && negb _); [split; done|].
  set (e' := MkValueEntry _ _ _ _ _ _) in *. simpl in Hwf'.
  assert (ttlGeneration e' = ttlGeneration e + 1) as Hg.
  { simpl. apply u64_small. destruct Hb as [_ Hb]. specialize (Hb _ _ Ek). lia. }
  set (s1 := with_kv _ s).
  destruct (Schedule_frame s1 now k (ttlMs e') (modRevision e') (ttlGeneration e') ci_ttl0) as (t & Et & Ht1 & Ht2 & Ht3).
  cbn [fst]. rewrite Et. split; simpl; try done; [simpl in Ht2; congruence|].
  destruct ci_kv0 as (_ & Hent & _). destruct (Hent _ _ Ek) as (_ & _ & _ & Hle). destruct Hb as [_ Hb]. specialize (Hb _ _ Ek).
  eapply (linked_insert [] _ _ t k e'); eauto; simpl; try done; [apply u64_range|].
  intros r Hr. destruct (proj1 ci_link0 k e Ek Hpos) as (r' & [Hr'|[[]%elem_of_nil _]] & E1 & E2). simplify_eq.
  unfold TtlManager.is_stale. rewrite E1 E2 Z.ltb_irrefl Z.eqb_refl /=. apply Z.ltb_ge. simpl in Hg. lia.
Qed.

(** Running the check of a record discharges it. *)
Lemma on_expired_inv n r out s :
  c_inv n (r :: out) s → kv_budget 1 (memKvStore_ s) → c_inv n out (on_expired s r).
Proof.
  intros Hinv Hb. rewrite on_expired_step. cbv zeta.
  pose proof (commit_step_inv n _ s (OpExpire (TtlManager.rec_key r) (TtlManager.rec_revision r)
    (TtlManager.rec_ttlGeneration r)) Hinv Hb I) as Hinv'.
  rewrite commit_frame in Hinv' |- *. destruct Hinv'. split; try done. simpl in *.
  destruct ci_link0 as [H1 H2]. split; [|done]. intros k e He Ht.
  destruct (H1 k e He Ht) as (r' & Hr' & E1 & E2). exists r'. split_and!; try done.
  destruct Hr' as [?|[[->|?]%elem_of_cons Hk]]; [by left| |by right]. exfalso. subst k.
  revert He. unfold DeleteIfTtlExpired.
  destruct (data_ (memKvStore_ s) !! TtlManager.rec_key r) as [e0|] eqn:E0; [|by rewrite /= E0].
  destruct (Z.eqb_spec (modRevision e0) (TtlManager.rec_revision r)); simpl; [|rewrite E0; congruence].
  destruct (Z.leb_spec (ttlMs e0) 0); simpl; [rewrite E0; intros; simplify_eq; lia|].
  destruct (Z.eqb_spec (ttlGeneration e0) (TtlManager.rec_ttlGeneration r)); simpl; [|rewrite E0; congruence].
  by rewrite lookup_delete_eq.
Qed.

Lemma on_expired_budget n r out s m :
  c_inv n (r :: out) s → kv_budget (S m) (memKvStore_ s) → kv_budget m (memKvStore_ (on_expired s r)).
Proof. intros [] Hb. rewrite on_expired_step. cbv zeta. rewrite commit_frame. by apply kv_step_budget. Qed.

Lemma expire_all_inv n out s m :
  c_inv n out s → kv_budget (length out + m) (memKvStore_ s) →
  c_inv n [] (foldl on_expired s out) ∧ kv_budget m (memKvStore_ (foldl on_expired s out)).
Proof.
  revert s. induction out as [|r out IH]; intros s Hinv Hb; [done|]. cbn [foldl]. apply IH.
  - apply on_expired_inv; [done|]. eapply kv_budget_le; [|done]. simpl; lia.
  - by eapply on_expired_budget.
Qed.

(** Taking the due records out of the schedule moves them to [out]. *)
Lemma collect_inv n s now t expired :
  c_inv n [] s → TtlManager.CheckExpiration_pass (ttlManager_ s) now = (t, expired) →
  c_inv n expired (with_ttl t s) ∧ (length expired ≤ TtlManager.MAX_EXPIRED_KEYS_PER_CHECK)%nat.
Proof.
  intros [] E. pose proof (TtlManager.CheckExpiration_spec _ now ci_ttl0 ci_running0) as Hp. rewrite E in Hp.
  destruct Hp as (Ht & Hlen & _ & Hex & Hpend & _). split; [|done].
  assert (TtlManager.running_ t = true) as Hrun.
  { unfold TtlManager.CheckExpiration_pass in E. rewrite ci_running0 in E.
    destruct (TtlManager.collect _ _ _ _) as [[??]?]. by injection E as <- _. }
  split; simpl; try done. destruct ci_link0 as [H1 H2]. split.
  - intros k e He Hpos. destruct (H1 k e He Hpos) as (r & [Hr|[[]%elem_of_nil _]] & E1 & E2).
    exists r. split_and!; try done. rewrite Hpend. destruct (decide (k ∈ _)) as [Hin|]; [|by left].
    apply list_elem_of_fmap in Hin as (r' & -> & Hr'). right. destruct (Hex r' Hr') as [Hp' _]. by simplify_eq.
  - intros k r. rewrite Hpend. destruct (decide (k ∈ _)); [done|]. apply H2.
Qed.

Lemma ExpiryPass_inv n s now m :
  c_inv n [] s → kv_budget (TtlManager.MAX_EXPIRED_KEYS_PER_CHECK + m) (memKvStore_ s) →
  c_inv n [] (ExpiryPass s now) ∧ kv_budget m (memKvStore_ (ExpiryPass s now)).
Proof.
  intros Hinv Hb. unfold ExpiryPass. destruct (TtlManager.CheckExpiration_pass _ _) as [t expired] eqn:E.
  destruct (collect_inv _ _ _ _ _ Hinv E) as [Hinv' Hlen]. apply expire_all_inv; [done|].
  eapply kv_budget_le; [|done]. lia.
Qed.

Lemma WatchRange_inv std_hash n s k re addr rid :
  c_inv n [] s → WatchRegistry.nextWatchId_ (watchRegistry_ s) < INT64_MAX →
  c_inv n [] (WatchRange std_hash s k re addr rid).1.
Proof.
  intros [] Hmax. unfold WatchRange.
  pose proof (WatchRegistry.Register_inv _ k re addr rid ci_reg0 Hmax) as Hr.
  destruct (WatchRegistry.Register _ _ _ _ _) as [r [[id created]|c]]; simpl in *; split; simpl; try done.
  apply WatchDispatcher.SetSnapshotRevision_inv. destruct created; [by apply WatchDispatcher.AddChannel_inv|done].
Qed.

Lemma CancelWatch_inv n s addr ids : c_inv n [] s → c_inv n [] (CancelWatch s addr ids).1.
Proof.
  unfold CancelWatch. generalize (@Ok unit tt). revert s. induction ids as [|id ids IH]; intros s st Hinv; [done|].
  cbn [foldl]. assert (c_inv n [] (cancel_one addr (s, st) id).1) as Hi.
  { pose proof Hinv as []. unfold cancel_one. pose proof (WatchRegistry.Cancel_inv _ id addr ci_reg0) as Hr.
    destruct (WatchRegistry.Cancel _ _ _) as [r status]. destruct (_ || _); simpl in *; split; simpl; try done.
    by apply WatchDispatcher.RemoveChannel_inv. }
  destruct (cancel_one addr (s, st) id) as [s' st']. by apply IH.
Qed.

(** ** Runs *)
Lemma c_step_frame_kv std_hash s o :
  match o with CWatchRange _ _ _ _ | CCancelWatch _ _ | CFanOut => True | _ => False end →
  memKvStore_ (c_step std_hash s o) = memKvStore_ s.
Proof.
  destruct o as [| | | |k re addr rid|addr ids|]; try done; intros _; simpl.
  - unfold WatchRange. by destruct (WatchRegistry.Register _ _ _ _ _) as [r [[id created]|c]].
  - unfold CancelWatch. generalize (@Ok unit tt). revert s.
    induction ids as [|id ids IH]; intros s st; [done|]. cbn [foldl].
    assert (memKvStore_ (cancel_one addr (s, st) id).1 = memKvStore_ s) as <-.
    { unfold cancel_one. destruct (WatchRegistry.Cancel _ _ _) as [r status]. by destruct (_ || _). }
    destruct (cancel_one addr (s, st) id) as [s' st']. apply IH.
Qed.

Lemma kv_run_app s ops1 ops2 :
  kv_run s (ops1 ++ ops2) =
    ((kv_run (kv_run s ops1).1 ops2).1, (kv_run s ops1).2 ++ (kv_run (kv_run s ops1).1 ops2).2).
Proof.
  revert s. induction ops1 as [|op ops1 IH]; intros s; [simpl; by destruct (kv_run s ops2)|].
  change ((op :: ops1) ++ ops2) with (op :: (ops1 ++ ops2)). rewrite !kv_run_cons IH /=. by rewrite assoc.
Qed.

Lemma expire_trace s expired :
  let ops := (λ r, OpExpire (TtlManager.rec_key r) (TtlManager.rec_revision r) (TtlManager.rec_ttlGeneration r))
             <$> expired in
  memKvStore_ (foldl on_expired s expired) = (kv_run (memKvStore_ s) ops).1
  ∧ watchDispatcher_ (foldl on_expired s expired) =
      foldl WatchDispatcher.Enqueue (watchDispatcher_ s) (kv_run (memKvStore_ s) ops).2.
Proof.
  revert s. induction expired as [|r expired IH]; intros s; [done|]. cbv zeta. rewrite fmap_cons kv_run_cons.
  cbn [foldl fst snd]. rewrite foldl_app. specialize (IH (on_expired s r)). cbv zeta in IH.
  rewrite on_expired_step in IH |- *. cbv zeta in IH |- *. rewrite commit_frame in IH |- *. exact IH.
Qed.

(** What the callbacks of a mutation see: the store after it and the events appended for the dispatcher. *)
Lemma c_step_trace std_hash n s o :
  c_inv n [] s →
  memKvStore_ (c_step std_hash s o) = (kv_run (memKvStore_ s) (kv_trace s o)).1
  ∧ match o with
    | CWatchRange _ _ _ _ | CCancelWatch _ _ | CFanOut => True
    | _ => watchDispatcher_ (c_step std_hash s o) =
             foldl WatchDispatcher.Enqueue (watchDispatcher_ s) (kv_run (memKvStore_ s) (kv_trace s o)).2
    end.
Proof.
  intros Hinv. pose proof (ci_ttl _ _ _ Hinv) as Ht.
  assert (∀ s1 now k ttl rev gen, ttlManager_ s1 = ttlManager_ s →
    memKvStore_ (Schedule s1 now k ttl rev gen) = memKvStore_ s1
    ∧ watchDispatcher_ (Schedule s1 now k ttl rev gen) = watchDispatcher_ s1) as Hsch.
  { intros s1 now k ttl rev gen E. unfold Schedule. by destruct (TtlManager.Schedule _ _ _ _ _ _) as [[??]|]. }
  destruct o as [now k v ttl ev em eg|k re em|now k em|now|k re addr rid|addr ids|];
    try (split; [by apply c_step_frame_kv|done]); cbn [kv_trace c_step].
  - unfold Put. rewrite kv_run_cons /= app_nil_r. destruct (MemoryKvStore.Put _ _ _ _ _ _ _) as [[kv es] r]. simpl.
    rewrite commit_frame. destruct r as [[[ver rev] gen]|c]; [|done]. cbn [fst].
    destruct (0 <? ttl); [|done]. match goal with |- context [Schedule ?s1 _ _ _ _ _] => destruct (Hsch s1 now k ttl rev gen eq_refl) as [-> ->] end. done.
  - unfold DeleteRange. rewrite kv_run_cons /= app_nil_r. destruct (Delete _ _ _ _ _) as [[kv es] r]. simpl.
    by rewrite commit_frame.
  - unfold KeepAlive. rewrite kv_run_cons /=. destruct (MemoryKvStore.KeepAlive _ _ _) as [kv r]. simpl.
    destruct r as [[[[tt0 rem] rev] gen]|c]; [|done]. cbn [fst].
    destruct (Hsch (with_kv kv s) now k tt0 rev gen eq_refl) as [-> ->]. done.
  - unfold ExpiryPass. destruct (TtlManager.CheckExpiration_pass _ _) as [t expired]. simpl.
    by destruct (expire_trace (with_ttl t s) expired) as [-> ->].
Qed.

Lemma register_next st k re addr rid :
  WatchRegistry.nextWatchId_ st < INT64_MAX → 1 ≤ WatchRegistry.nextWatchId_ st →
  WatchRegistry.nextWatchId_ (WatchRegistry.Register st k re addr rid).1 ≤ WatchRegistry.nextWatchId_ st + 1.
Proof.
  intros Hm H1. unfold WatchRegistry.Register.
  destruct (if empty_str rid then _ else _) as [id|]; simpl; [|rewrite i64_small; unfold INT64_MAX in *; lia].
  repeat case_match; simpl; lia.
Qed.

Lemma Schedule_registry s now k ttl rev gen : watchRegistry_ (Schedule s now k ttl rev gen) = watchRegistry_ s.
Proof. unfold Schedule. by destruct (TtlManager.Schedule _ _ _ _ _ _) as [[??]|]. Qed.

Lemma expire_registry s l : watchRegistry_ (foldl on_expired s l) = watchRegistry_ s.
Proof.
  revert s. induction l as [|r l IH]; intros s; [done|]. cbn [foldl]. rewrite IH on_expired_step. cbv zeta.
  by rewrite commit_frame.
Qed.

Lemma Cancel_next st id addr :
  WatchRegistry.nextWatchId_ (WatchRegistry.Cancel st id addr).1 = WatchRegistry.nextWatchId_ st.
Proof.
  unfold WatchRegistry.Cancel. destruct (WatchRegistry.watchers_ st !! id); [|done]. by destruct (_ && _).
Qed.

Lemma c_step_next std_hash s o :
  WatchRegistry.nextWatchId_ (watchRegistry_ s) < INT64_MAX → 1 ≤ WatchRegistry.nextWatchId_ (watchRegistry_ s) →
  WatchRegistry.nextWatchId_ (watchRegistry_ (c_step std_hash s o)) ≤ WatchRegistry.nextWatchId_ (watchRegistry_ s) + 1.
Proof.
  intros Hm H1. destruct o as [now k v ttl ev em eg|k re em|now k em|now|k re addr rid|addr ids|]; simpl; [..|lia].
  - unfold Put. destruct (MemoryKvStore.Put _ _ _ _ _ _ _) as [[kv es] [[[ver rev] gen]|c]]; cbn [fst];
      rewrite commit_frame; [destruct (0 <? ttl); rewrite ?Schedule_registry|]; simpl; lia.
  - unfold DeleteRange. destruct (Delete _ _ _ _ _) as [[kv es] r]. cbn [fst]. rewrite commit_frame /=. lia.
  - unfold KeepAlive. destruct (MemoryKvStore.KeepAlive _ _ _) as [kv [[[[tt0 rem] rev] gen]|c]]; cbn [fst];
      rewrite ?Schedule_registry /=; lia.
  - unfold ExpiryPass. destruct (TtlManager.CheckExpiration_pass _ _) as [t expired]. rewrite expire_registry /=. lia.
  - unfold WatchRange. pose proof (register_next (watchRegistry_ s) k re addr rid Hm H1) as Hn.
    destruct (WatchRegistry.Register _ _ _ _ _) as [r [[id created]|c]]; exact Hn.
  - unfold CancelWatch. generalize (@Ok unit tt). clear Hm H1. revert s.
    induction ids as [|id ids IH]; intros s st; [simpl; lia|]. cbn [foldl].
    assert (WatchRegistry.nextWatchId_ (watchRegistry_ (cancel_one addr (s, st) id).1) =
      WatchRegistry.nextWatchId_ (watchRegistry_ s)) as <-.
    { unfold cancel_one. rewrite -(Cancel_next (watchRegistry_ s) id addr).
      destruct (WatchRegistry.Cancel _ _ _) as [r status]. by destruct (_ || _). }
    destruct (cancel_one addr (s, st) id) as [s' st']. apply IH.
Qed.

Lemma c_step_inv std_hash n s o m :
  c_inv n [] s → kv_budget (cost o + m) (memKvStore_ s) → WatchRegistry.nextWatchId_ (watchRegistry_ s) < INT64_MAX →
  c_inv n [] (c_step std_hash s o) ∧ kv_budget m (memKvStore_ (c_step std_hash s o)).
Proof.
  intros Hinv Hb Hm. destruct (c_step_trace std_hash n s o Hinv) as [Htr _].
  destruct o as [now k v ttl ev em eg|k re em|now k em|now|k re addr rid|addr ids|].
  4:{ by apply ExpiryPass_inv. }
  all: assert (kv_budget 1 (memKvStore_ s)) as Hb1 by (eapply kv_budget_le; [|exact Hb]; simpl; lia).
  all: assert (kv_budget m (memKvStore_ s)) as Hbm by (eapply kv_budget_le; [|exact Hb]; simpl; lia).
  all: split; [|rewrite Htr; cbn [kv_trace]; first [exact Hbm | rewrite kv_run_cons; apply kv_step_budget; [apply Hinv|exact Hb]]].
  - by apply Put_inv.
  - by apply DeleteRange_inv.
  - by apply KeepAlive_inv.
  - by apply WatchRange_inv.
  - by apply CancelWatch_inv.
  - simpl. destruct Hinv. split; try done. by apply WatchDispatcher.FanOut_inv.
Qed.

Lemma c_run_inv std_hash n s os :
  c_inv n [] s → kv_budget (costs os) (memKvStore_ s) →
  WatchRegistry.nextWatchId_ (watchRegistry_ s) + Z.of_nat (length os) ≤ INT64_MAX →
  c_inv n [] (c_run std_hash s os).
Proof.
  revert s. induction os as [|o os IH]; intros s Hinv Hb Hm; [done|]. cbn [length] in Hm.
  destruct (c_step_inv std_hash n s o (costs os) Hinv) as [Hinv' Hb']; [done|lia|].
  pose proof (ci_reg _ _ _ Hinv) as (_&_&_&_&_&_&H1). apply IH; [done|done|].
  pose proof (c_step_next std_hash s o ltac:(lia) H1). lia.
Qed.

Lemma c_run_budget std_hash n s os m :
  c_inv n [] s → kv_budget (costs os + m) (memKvStore_ s) →
  WatchRegistry.nextWatchId_ (watchRegistry_ s) + Z.of_nat (length os) ≤ INT64_MAX →
  kv_budget m (memKvStore_ (c_run std_hash s os)).
Proof.
  revert s. induction os as [|o os IH]; intros s Hinv Hb Hm; [done|]. cbn [length] in Hm.
  destruct (c_step_inv std_hash n s o (costs os + m) Hinv) as [Hinv' Hb']; [eapply kv_budget_le; [|exact Hb]; unfold costs; cbn; lia|lia|].
  pose proof (ci_reg _ _ _ Hinv) as (_&_&_&_&_&_&H1). apply IH; [done|done|].
  pose proof (c_step_next std_hash s o ltac:(lia) H1). lia.
Qed.

(** A started store over fresh components. *)
Definition boot (threads : nat) : components :=
  Start (MkComponents (SetMutationCallback MemoryKvStore.init true) WatchRegistry.init WatchDispatcher.init
           TtlManager.init false [] false false) threads.

Lemma boot_new threads :
  option_map (λ s, Start s threads) (new MemoryKvStore.init WatchRegistry.init WatchDispatcher.init TtlManager.init)
  = Some (boot threads).
Proof. done. Qed.

Lemma boot_inv threads :
  (0 < threads)%nat →
  c_inv (pred (Nat.min threads WatchDispatcher.MAX_READY_CHANNEL_GROUPS)) [] (boot threads).
Proof.
  intros Ht. split; simpl; try done.
  - apply TtlManager.init_inv.
  - apply WatchRegistry.registry_init_inv.
  - by apply WatchDispatcher.Start_inv.
Qed.

Lemma boot_budget threads m : Z.of_nat m < INT64_MAX → kv_budget m (memKvStore_ (boot threads)).
Proof. intros Hm. split; simpl; [lia|]. intros k e. by rewrite lookup_empty. Qed.

(** ** Snapshots and events *)
Definition scope_view (kv : store) (key rangeEnd : string) : gmap string KeyValueEntry :=
  filter (λ ke, in_scope ke.1 key rangeEnd) (view kv).

Definition snapshot_map (kvs : list KeyValueEntry) : gmap string KeyValueEntry :=
  list_to_map ((λ e, (kv_key e, e)) <$> kvs).

Lemma in_range_keys_NoDup kv key re : NoDup (in_range_list kv key re).*1.
Proof.
  apply (StronglySorted_NoDup str_lt). induction (in_range_list_sorted kv key re) as [|x l Hs IH Hf];
    simpl; constructor; [done|]. by apply Forall_fmap.
Qed.

Lemma snapshot_view kv key re : snapshot_map (MemoryKvStore.Range kv key re []).1 = scope_view kv key re.
Proof.
  apply map_eq. intros k. apply option_eq. intros e. unfold snapshot_map, scope_view. simpl.
  assert ((λ e, (kv_key e, e)) <$> map (λ ke, entry_of ke.1 ke.2) (in_range_list kv key re)
    = (λ ke, (ke.1, entry_of ke.1 ke.2)) <$> in_range_list kv key re) as ->.
  { induction (in_range_list kv key re); simpl; [done|]. by f_equal/=. }
  rewrite -elem_of_list_to_map.
  - rewrite -list_fmap_compose. apply in_range_keys_NoDup.
  - rewrite list_elem_of_fmap map_lookup_filter_Some lookup_view. split.
    + intros ([k' e'] & E & [Hd Hsc]%elem_of_in_range_list). simpl in E. injection E as -> ->. by rewrite Hd.
    + intros [Hv Hsc]. destruct (data_ kv !! k) as [e'|] eqn:Ek; [|done]. injection Hv as <-.
      exists (k, e'). split; [done|]. by apply elem_of_in_range_list.
Qed.

Lemma replay_filter key re (m : gmap string KeyValueEntry) es :
  foldl apply_event (filter (λ ke, in_scope ke.1 key re) m) (filter (λ e, in_scope (kv_key (ev_entry e)) key re) es)
  = filter (λ ke, in_scope ke.1 key re) (foldl apply_event m es).
Proof.
  revert m. induction es as [|e es IH]; intros m; [done|]. cbn [foldl]. rewrite -IH.
  destruct (decide (in_scope (kv_key (ev_entry e)) key re)) as [HP|HP].
  - rewrite filter_cons_True //. cbn [foldl]. f_equal. unfold apply_event. destruct (ev_type e); [| |done].
    + by rewrite map_filter_insert_True.
    + by rewrite map_filter_delete.
  - rewrite filter_cons_False //. f_equal. unfold apply_event. destruct (ev_type e); [| |done].
    + by rewrite map_filter_insert_not.
    + rewrite map_filter_delete delete_id //. apply map_lookup_filter_None. naive_solver.
Qed.

Lemma replay_run kv ops :
  mutationCallback_ kv = true → foldl apply_event (view kv) (kv_run kv ops).2 = view (kv_run kv ops).1.
Proof.
  revert kv. induction ops as [|op ops IH]; intros kv Hcb; [done|].
  rewrite kv_run_cons foldl_app kv_step_replay //. cbn [fst snd]. apply IH. by rewrite kv_step_callback.
Qed.

(** The store and the pending queue after a history without fan-out. *)
Lemma enqueue_all_pending d es :
  (length (WatchDispatcher.pendingQueue_ d) + length es ≤ WatchDispatcher.MAX_PENDING_EVENTS)%nat →
  WatchDispatcher.pendingQueue_ (foldl WatchDispatcher.Enqueue d es) = WatchDispatcher.pendingQueue_ d ++ es.
Proof.
  revert d. induction es as [|e es IH]; intros d Hl; simpl; [by rewrite app_nil_r|]. simpl in Hl.
  unfold WatchDispatcher.Enqueue at 2. case_bool_decide as Hb; [lia|]. rewrite IH /=.
  - rewrite length_app /=. lia.
  - by rewrite -assoc.
Qed.

Lemma RemoveChannel_pending d id :
  WatchDispatcher.pendingQueue_ (WatchDispatcher.RemoveChannel d id) = WatchDispatcher.pendingQueue_ d.
Proof. unfold WatchDispatcher.RemoveChannel, WatchDispatcher.cancel_by_id. by repeat case_match. Qed.

Lemma SetSnapshot_pending std_hash d id rev :
  WatchDispatcher.pendingQueue_ (WatchDispatcher.SetSnapshotRevision std_hash d id rev) = WatchDispatcher.pendingQueue_ d.
Proof.
  unfold WatchDispatcher.SetSnapshotRevision, WatchDispatcher.ScheduleChannelLocked. by repeat case_match.
Qed.

Lemma AddChannel_pending d id addr :
  WatchDispatcher.pendingQueue_ (WatchDispatcher.AddChannel d id addr) = WatchDispatcher.pendingQueue_ d.
Proof. unfold WatchDispatcher.AddChannel, WatchDispatcher.cancel_by_id. simpl. by repeat case_match. Qed.

Lemma watch_step_pending std_hash s o :
  match o with CWatchRange _ _ _ _ | CCancelWatch _ _ => True | _ => False end →
  WatchDispatcher.pendingQueue_ (watchDispatcher_ (c_step std_hash s o)) =
  WatchDispatcher.pendingQueue_ (watchDispatcher_ s).
Proof.
  destruct o as [| | | |k re addr rid|addr ids|]; try done; intros _; simpl.
  - unfold WatchRange. destruct (WatchRegistry.Register _ _ _ _ _) as [r [[id created]|c]]; [|done]. simpl.
    rewrite SetSnapshot_pending. destruct created; [apply AddChannel_pending|done].
  - unfold CancelWatch. generalize (@Ok unit tt). revert s.
    induction ids as [|id ids IH]; intros s st; [done|]. cbn [foldl].
    assert (WatchDispatcher.pendingQueue_ (watchDispatcher_ (cancel_one addr (s, st) id).1) =
      WatchDispatcher.pendingQueue_ (watchDispatcher_ s)) as <-.
    { unfold cancel_one. destruct (WatchRegistry.Cancel _ _ _) as [r status].
      destruct (_ || _); [apply RemoveChannel_pending|done]. }
    destruct (cancel_one addr (s, st) id) as [s' st']. apply IH.
Qed.

Lemma kv_trace_cost n s o : c_inv n [] s → (length (kv_trace s o) ≤ cost o)%nat.
Proof.
  intros Hinv. destruct o; cbn [kv_trace cost length]; try lia. rewrite length_fmap.
  destruct (TtlManager.CheckExpiration_pass _ _) as [t expired] eqn:E. by destruct (collect_inv _ _ _ _ _ Hinv E).
Qed.

Lemma c_run_events std_hash n s os :
  c_inv n [] s → kv_budget (costs os) (memKvStore_ s) →
  WatchRegistry.nextWatchId_ (watchRegistry_ s) + Z.of_nat (length os) ≤ INT64_MAX →
  memKvStore_ (c_run std_hash s os) = (kv_run (memKvStore_ s) (kv_traces std_hash s os)).1
  ∧ (length (kv_traces std_hash s os) ≤ costs os)%nat
  ∧ (CFanOut ∉ os →
     (length (WatchDispatcher.pendingQueue_ (watchDispatcher_ s))
      + length (kv_run (memKvStore_ s) (kv_traces std_hash s os)).2 ≤ WatchDispatcher.MAX_PENDING_EVENTS)%nat →
     WatchDispatcher.pendingQueue_ (watchDispatcher_ (c_run std_hash s os)) =
       WatchDispatcher.pendingQueue_ (watchDispatcher_ s) ++ (kv_run (memKvStore_ s) (kv_traces std_hash s os)).2).
Proof.
  revert s. induction os as [|o os IH]; intros s Hinv Hb Hm.
  { split_and!; [done|done|]. intros _ _. by rewrite /= app_nil_r. }
  cbn [length] in Hm. destruct (c_step_inv std_hash n s o (costs os) Hinv) as [Hinv' Hb']; [done|lia|].
  pose proof (ci_reg _ _ _ Hinv) as (_&_&_&_&_&_&H1). pose proof (c_step_next std_hash s o ltac:(lia) H1).
  destruct (c_step_trace std_hash n s o Hinv) as [Hkv Hd].
  destruct (IH (c_step std_hash s o) Hinv' Hb' ltac:(lia)) as (IH1 & IHl & IH2). rewrite Hkv in IH1 IH2.
  cbn [kv_traces]. rewrite kv_run_app. cbn [fst snd]. split; [exact IH1|]. split.
  { rewrite length_app. unfold costs in *. rewrite fmap_cons. cbn [sum_list_with id].
    pose proof (kv_trace_cost n s o Hinv). lia. }
  intros [Hne Hn]%not_elem_of_cons. rewrite length_app. intros Hlen.
  assert (WatchDispatcher.pendingQueue_ (watchDispatcher_ (c_step std_hash s o)) =
    WatchDispatcher.pendingQueue_ (watchDispatcher_ s) ++ (kv_run (memKvStore_ s) (kv_trace s o)).2) as Hp.
  { destruct o; try done; try (rewrite Hd; apply enqueue_all_pending; lia);
      rewrite watch_step_pending //= app_nil_r //. }
  cbn [c_run foldl]. rewrite Hp in IH2. unfold c_run in IH2. rewrite IH2 //; [rewrite length_app; lia|]. by rewrite assoc.
Qed.

Lemma expire_untouched s l k :
  k ∉ TtlManager.rec_key <$> l → data_ (memKvStore_ (foldl on_expired s l)) !! k = data_ (memKvStore_ s) !! k.
Proof.
  revert s. induction l as [|r l IH]; intros s; [done|]. rewrite fmap_cons. intros [Hne Hn]%not_elem_of_cons.
  cbn [foldl]. rewrite IH // on_expired_step. cbv zeta. rewrite commit_frame /=. unfold DeleteIfTtlExpired.
  destruct (data_ (memKvStore_ s) !! TtlManager.rec_key r); [|done]. do 2 (case_match; [done|]). simpl.
  by rewrite lookup_delete_ne.
Qed.

(** Events of one step have one revision and distinct keys. *)
Lemma kv_step_keys kv op : NoDup ((λ e, kv_key (ev_entry e)) <$> (kv_step kv op).2).
Proof.
  assert (∀ e : WatchEvent, NoDup ((λ e, kv_key (ev_entry e)) <$> [e])) as H1.
  { intros e. apply NoDup_singleton. }
  destruct op as [k v ttl ev em eg|k re em|k rv g|k em]; simpl; [| | |constructor].
  - unfold MemoryKvStore.Put. destruct (put_guard _ _ _ _ _); [|constructor].
    destruct (mutationCallback_ kv); [apply H1|constructor].
  - unfold Delete. case_match; [constructor|]. destruct (in_range_list kv k re) as [|front l] eqn:El; [constructor|].
    case_match; [constructor|]. destruct (mutationCallback_ kv); [|constructor]. cbn [fst snd].
    assert (∀ l : list (string * ValueEntry), (λ e, kv_key (ev_entry e)) <$> map (λ kve, MkWatchEvent DELETE kve (i64 (revision_ kv + 1)))
      (map (λ ke, entry_of ke.1 ke.2) l) = l.*1) as ->.
    { intros l0. induction l0 as [|[??] l0 IH]; simpl; [done|]. f_equal. exact IH. }
    rewrite -El. apply in_range_keys_NoDup.
  - unfold DeleteIfTtlExpired. destruct (data_ kv !! k); [|constructor]. do 2 (case_match; [constructor|]). cbn [fst snd].
    destruct (mutationCallback_ kv); [apply H1|constructor].
Qed.

(** The events of one key, what a single-key watch is offered. *)
Definition events_of (k : string) (es : list WatchEvent) : list WatchEvent := filter (λ e, kv_key (ev_entry e) = k) es.

Lemma filter_key_sorted k es rev :
  NoDup ((λ e, kv_key (ev_entry e)) <$> es) → Forall (λ e, ev_revision e = rev) es →
  StronglySorted WatchDispatcher.rev_lt (events_of k es).
Proof.
  unfold events_of. induction es as [|e es IH]; [constructor|]. rewrite fmap_cons. intros [Hn Hnd]%NoDup_cons [_ Hf]%Forall_cons.
  destruct (decide (kv_key (ev_entry e) = k)) as [Hk|Hk].
  - rewrite filter_cons_True // list_filter_none; [|repeat constructor].
    apply Forall_forall. intros e' He' Hk'. destruct Hn. simpl. rewrite Hk -Hk'.
    by apply (list_elem_of_fmap_2 (λ e, kv_key (ev_entry e))).
  - rewrite filter_cons_False //. by apply IH.
Qed.

(** ** Properties *)

(** C6: the composed store never breaks an invariant of its parts.  From a started store over fresh
    components, and for any history of calls, expiry passes and fan-outs that stays within the 63-bit
    counters: no TTL call dereferences a dangling iterator; revisions, versions and entries are
    consistent; every entry with a TTL has a pending check for exactly its current revision and
    generation; the registry's tables agree; and the dispatcher's queues are bounded, duplicate-free and
    cover every deliverable channel. *)
Theorem coordinator_run_sound (std_hash : Z → Z) (threads : nat) (os : list c_op)
    (Ht : (0 < threads)%nat) (Hb : Z.of_nat (costs os) < INT64_MAX) (Hn : Z.of_nat (length os) < INT64_MAX) :
  c_inv (pred (Nat.min threads WatchDispatcher.MAX_READY_CHANNEL_GROUPS)) [] (c_run std_hash (boot threads) os).
Proof.
  apply c_run_inv; [by apply boot_inv|by apply boot_budget|]. simpl. lia.
Qed.

(** A run: a watch, keys with and without a TTL, a renewal and an expiry. *)
Definition demo_ops : list c_op :=
  [CWatchRange "/a" "/z" "w" "t"; CPut 0 "/a" "1" 5 (-1) 0 0; CPut 0 "/b" "2" 0 (-1) 0 0;
   CKeepAlive 3000000 "/a" 0].
Definition demo : components := c_run WatchDispatcher.id_hash (boot 2) demo_ops.

Lemma coordinator_run_sound_witness : c_inv 1 [] demo.
Proof. apply (coordinator_run_sound WatchDispatcher.id_hash 2 demo_ops); [lia|by vm_compute..]. Defined.

(** C30: no key outlives its TTL and none dies early.  After an expiry pass that did not reach the per-pass
    bound every remaining entry with a TTL has a pending check in the future, for its current revision
    and generation; and an entry without a due check is left untouched. *)
Theorem no_key_outlives_its_ttl (n : nat) (s : components) (now : Z)
    (Hinv : c_inv n [] s) (Hb : kv_budget TtlManager.MAX_EXPIRED_KEYS_PER_CHECK (memKvStore_ s))
    (Hfew : (length (TtlManager.CheckExpiration_pass (ttlManager_ s) now).2 < TtlManager.MAX_EXPIRED_KEYS_PER_CHECK)%nat) :
  let s' := ExpiryPass s now in
  (∀ k e, data_ (memKvStore_ s') !! k = Some e → 0 < ttlMs e →
     ∃ r, TtlManager.pending (ttlManager_ s') !! k = Some r ∧ now < TtlManager.rec_expireTime r
          ∧ TtlManager.rec_revision r = modRevision e ∧ TtlManager.rec_ttlGeneration r = ttlGeneration e)
  ∧ (∀ k, (∀ r, TtlManager.pending (ttlManager_ s) !! k = Some r → now < TtlManager.rec_expireTime r) →
       data_ (memKvStore_ s') !! k = data_ (memKvStore_ s) !! k).
Proof.
  intros s'. destruct (ExpiryPass_inv n s now 0 Hinv) as [Hinv' _]; [by rewrite Nat.add_0_r|]. fold s' in Hinv'.
  subst s'. unfold ExpiryPass in *. pose proof Hinv as [].
  pose proof (TtlManager.CheckExpiration_spec _ now ci_ttl0 ci_running0) as Hp.
  destruct (TtlManager.CheckExpiration_pass _ _) as [t expired]. destruct Hp as (_ & _ & _ & Hex & _ & Hdue).
  assert (∀ s l, ttlManager_ (foldl on_expired s l) = ttlManager_ s) as Htt.
  { intros s0 l. revert s0. induction l as [|r l IH]; intros s0; [done|]. cbn [foldl].
    rewrite IH on_expired_step. cbv zeta. by rewrite commit_frame. }
  split.
  - intros k e He Hpos. destruct (proj1 (ci_link _ _ _ Hinv') k e He Hpos) as (r & [Hr|[[]%elem_of_nil _]] & E1 & E2).
    exists r. split_and!; try done. rewrite Htt /= in Hr. destruct (Z.ltb_spec now (TtlManager.rec_expireTime r)); [done|].
    destruct (Hdue Hfew). by exists k, r.
  - intros k Hk. rewrite expire_untouched //. intros (r & -> & Hr)%list_elem_of_fmap.
    destruct (Hex r Hr) as [Hpr Hle]. specialize (Hk r Hpr). lia.
Qed.

Lemma no_key_outlives_its_ttl_witness :
  data_ (memKvStore_ (ExpiryPass demo 9000000)) !! "/a" = None
  ∧ data_ (memKvStore_ (ExpiryPass demo 9000000)) !! "/b" = data_ (memKvStore_ demo) !! "/b".
Proof.
  split; [vm_compute; reflexivity|]. apply (no_key_outlives_its_ttl 1 demo 9000000).
  - apply (c_run_inv WatchDispatcher.id_hash 1 (boot 2)); [by apply (boot_inv 2); lia|by apply boot_budget|by vm_compute].
  - assert (data_ (memKvStore_ demo) = <["/a" := MkValueEntry "1" 1 2 2 5 2]> {["/b" := MkValueEntry "2" 1 3 3 0 1]})
      as Hd by (vm_compute; reflexivity).
    split; [vm_compute; congruence|]. rewrite Hd. intros k e. rewrite lookup_insert.
    case_decide; [intros [= <-]; vm_compute; split; congruence|].
    intros [_ <-]%lookup_singleton_Some. vm_compute. split; congruence.
  - vm_compute. lia.
  - intros r. replace (TtlManager.pending (ttlManager_ demo) !! "/b") with (@None TtlManager.TtlScheduleRecord)
      by (vm_compute; reflexivity). done.
Defined.

(** The channel of a watch after [SetSnapshotRevision]. *)
Lemma SetSnapshotRevision_channel std_hash n d id revision p :
  WatchDispatcher.disp_inv n [] d → WatchDispatcher.channels_ (WatchDispatcher.SetSnapshotRevision std_hash d id revision) !! id = Some p →
  ∃ c, WatchDispatcher.heap (WatchDispatcher.SetSnapshotRevision std_hash d id revision) !! p = Some c ∧ WatchDispatcher.snapshotRevision c = revision.
Proof.
  unfold WatchDispatcher.SetSnapshotRevision. intros Hd. destruct (WatchDispatcher.channels_ d !! id) as [q|] eqn:Eq; [|by rewrite Eq].
  destruct (proj1 (WatchDispatcher.di_table _ _ _ Hd id q) Eq) as (c & Ec & _). rewrite Ec. unfold WatchDispatcher.ScheduleChannelLocked, WatchDispatcher.set_channel.
  destruct (WatchDispatcher.queue c); [|destruct (_ || _)]; cbn; rewrite Eq; intros [= <-]; eexists; (split; [apply lookup_insert_eq|done]).
Qed.

(** A successful [WatchRange] returns the scope's entries and leaves the channel at the store's revision. *)
Lemma WatchRange_channel std_hash n s s1 key re addr rid id kvs :
  c_inv n [] s → WatchRange std_hash s key re addr rid = (s1, Ok (id, kvs)) →
  (∀ p, WatchDispatcher.channels_ (watchDispatcher_ s1) !! id = Some p →
     ∃ c, WatchDispatcher.heap (watchDispatcher_ s1) !! p = Some c ∧ WatchDispatcher.snapshotRevision c = revision_ (memKvStore_ s))
  ∧ ((WatchRegistry.Register (watchRegistry_ s) key re addr rid).2 = Ok (id, true) → is_Some (WatchDispatcher.channels_ (watchDispatcher_ s1) !! id)).
Proof.
  intros Hinv. unfold WatchRange. destruct (WatchRegistry.Register _ _ _ _ _) as [r [[id' created]|c]]; [|done].
  destruct (MemoryKvStore.Range _ _ _ _) as [kvs' snapshot] eqn:Er. intros [= <- <- <-]. cbn [with_watch watchDispatcher_].
  assert (snapshot = revision_ (memKvStore_ s)) as -> by (by injection Er).
  set (d := if created then _ else _). assert (WatchDispatcher.disp_inv n [] d) as Hd.
  { destruct created; [apply WatchDispatcher.AddChannel_inv|]; apply Hinv. }
  split; [intros p; by apply (SetSnapshotRevision_channel std_hash n)|]. cbn. intros [= ->]. unfold d, WatchDispatcher.SetSnapshotRevision, WatchDispatcher.AddChannel. cbn.
  rewrite lookup_insert_eq. rewrite lookup_insert_eq. cbn. by rewrite lookup_insert_eq.
Qed.

(** C7: the watch contract.  [WatchRange] returns the current entries of the scope and leaves the watcher's channel at the
    store's revision, so that no older event is sent to it; a watch that is new has a channel.  For any later history of calls and expiry passes
    (its fan-out still to come) the events handed to the dispatcher, restricted to the scope, are all newer than that
    snapshot, and replaying them over it in order yields exactly the scope's content at the end.  It holds from every state that satisfies
    the invariant of C6, while the counters last (the revision, the generations of the keys' time to live and the watch ids stay below their
    maximum through the history) and the queue of pending events has room for the events of the history. *)
Theorem watch_contract (std_hash : Z → Z) (n : nat) (s s1 : components) (key re addr rid : string) (id : Z)
    (kvs : list KeyValueEntry) (os : list c_op)
    (Hinv : c_inv n [] s) (Hb : kv_budget (costs os) (memKvStore_ s))
    (Hm : WatchRegistry.nextWatchId_ (watchRegistry_ s) + Z.of_nat (S (length os)) ≤ INT64_MAX)
    (Hno : CFanOut ∉ os)
    (HW : WatchRange std_hash s key re addr rid = (s1, Ok (id, kvs)))
    (Hfit : (length (WatchDispatcher.pendingQueue_ (watchDispatcher_ s))
             + length (kv_run (memKvStore_ s) (kv_traces std_hash s1 os)).2 ≤ WatchDispatcher.MAX_PENDING_EVENTS)%nat) :
  (∀ p, WatchDispatcher.channels_ (watchDispatcher_ s1) !! id = Some p →
     ∃ c, WatchDispatcher.heap (watchDispatcher_ s1) !! p = Some c ∧ WatchDispatcher.snapshotRevision c = revision_ (memKvStore_ s))
  ∧ ((WatchRegistry.Register (watchRegistry_ s) key re addr rid).2 = Ok (id, true) → is_Some (WatchDispatcher.channels_ (watchDispatcher_ s1) !! id))
  ∧ let s2 := c_run std_hash s1 os in
    ∃ es, WatchDispatcher.pendingQueue_ (watchDispatcher_ s2)
            = WatchDispatcher.pendingQueue_ (watchDispatcher_ s) ++ es
      ∧ Forall (λ e, revision_ (memKvStore_ s) < ev_revision e ≤ revision_ (memKvStore_ s2)) es
      ∧ foldl apply_event (snapshot_map kvs) (filter (λ e, in_scope (kv_key (ev_entry e)) key re) es)
        = scope_view (memKvStore_ s2) key re.
Proof.
  rewrite assoc. split; [by apply (WatchRange_channel std_hash n s s1 key re addr rid id kvs)|]. intros s2. pose proof (WatchRange_inv std_hash n s key re addr rid Hinv ltac:(lia)) as Hinv1.
  pose proof (c_step_frame_kv std_hash s (CWatchRange key re addr rid) I) as Hkv.
  pose proof (watch_step_pending std_hash s (CWatchRange key re addr rid) I) as Hpq.
  pose proof (ci_reg _ _ _ Hinv) as (_&_&_&_&_&_&H1).
  pose proof (c_step_next std_hash s (CWatchRange key re addr rid) ltac:(lia) H1) as Hnx.
  cbn [c_step] in *. rewrite HW in Hinv1 Hkv Hpq Hnx. cbn [fst] in *.
  destruct (c_run_events std_hash n s1 os Hinv1) as (Hs2 & Hcost & Hpend); [by rewrite Hkv|lia|].
  rewrite Hkv Hpq in Hs2 Hpend. fold s2 in Hs2, Hpend. eexists. split; [by apply Hpend|]. rewrite Hs2. split.
  - apply kv_run_revisions; [apply Hinv|]. eapply kv_budget_le; [|exact Hb]. lia.
  - assert (kvs = (MemoryKvStore.Range (memKvStore_ s) key re []).1) as ->.
    { unfold WatchRange in HW. by destruct (WatchRegistry.Register _ _ _ _ _) as [r [[? created]|c]]; simplify_eq/=. }
    rewrite snapshot_view. unfold scope_view.
    rewrite replay_filter replay_run //. apply Hinv.
Qed.

Lemma watch_contract_witness :
  let s1 := (WatchRange WatchDispatcher.id_hash demo "/a" "/b" "w" "t2").1 in
  let os := [CDeleteRange "/a" "/c" 0; CPut 4000000 "/aa" "x" 0 0 0 0] in
  ∃ es, WatchDispatcher.pendingQueue_ (watchDispatcher_ (c_run WatchDispatcher.id_hash s1 os))
          = WatchDispatcher.pendingQueue_ (watchDispatcher_ demo) ++ es
    ∧ foldl apply_event (snapshot_map [MkKeyValueEntry "/a" "1" 1 2])
        (filter (λ e, in_scope (kv_key (ev_entry e)) "/a" "/b") es)
      = scope_view (memKvStore_ (c_run WatchDispatcher.id_hash s1 os)) "/a" "/b".
Proof.
  intros s1 os.
  destruct (watch_contract WatchDispatcher.id_hash 1 demo s1 "/a" "/b" "w" "t2" 2 [MkKeyValueEntry "/a" "1" 1 2] os)
    as (Hch & Hnew & es & Hes & _ & Hr).
  - apply (c_run_inv WatchDispatcher.id_hash 1 (boot 2)); [by apply (boot_inv 2); lia|by apply boot_budget|by vm_compute].
  - assert (data_ (memKvStore_ demo) = <["/a" := MkValueEntry "1" 1 2 2 5 2]> {["/b" := MkValueEntry "2" 1 3 3 0 1]})
      as Hd by (vm_compute; reflexivity).
    split; [vm_compute; congruence|]. rewrite Hd. intros k e. rewrite lookup_insert.
    case_decide; [intros [= <-]; vm_compute; split; congruence|].
    intros [_ <-]%lookup_singleton_Some. vm_compute. split; congruence.
  - vm_compute. congruence.
  - subst os. clear. intros [?|[?|[]%elem_of_nil]%elem_of_cons]%elem_of_cons; discriminate.
  - vm_compute. reflexivity.
  - vm_compute. lia.
  - exists es. split; [exact Hes|exact Hr].
Defined.

(** a single-key watch sees strictly increasing revisions.  Along any history of the key-value store
    the events of one key carry strictly increasing revisions, so that the channel of a watch on one key
    meets the condition under which batches are committed without loss. *)
Theorem key_events_increasing (kv : store) (ops : list kv_op) (k : string)
    (Hwf : kv_wf kv) (Hb : kv_budget (length ops) kv) :
  StronglySorted WatchDispatcher.rev_lt (events_of k (kv_run kv ops).2).
Proof.
  revert ops kv Hwf Hb. apply (kv_run_ind (λ kv ops,
    StronglySorted WatchDispatcher.rev_lt (events_of k (kv_run kv ops).2))).
  { intros kv _. constructor. }
  intros kv op ops Hwf Hb Hwf' IH. rewrite kv_run_cons. cbn [snd]. unfold events_of in *. rewrite filter_app.
  assert (kv_budget 1 kv) as Hb1 by (eapply kv_budget_le; [|exact Hb]; lia).
  destruct (kv_run_revisions (kv_step kv op).1 ops Hwf') as (_ & _ & Hlater); [by apply kv_step_budget|].
  destruct (kv_step_revision kv op Hwf Hb1) as [[_ ->]|[Hr Hone]]; [done|].
  apply StronglySorted_app_2; [|by eapply filter_key_sorted; [apply kv_step_keys|]|done].
  intros e1 e2 [_ H1]%list_elem_of_filter [_ H2]%list_elem_of_filter. unfold WatchDispatcher.rev_lt.
  rewrite Forall_forall in Hone. rewrite Forall_forall in Hlater.
  specialize (Hone e1 H1). specialize (Hlater e2 H2). simpl in *. lia.
Qed.

Lemma key_events_increasing_witness :
  let es := events_of "/a"
    (kv_run MemoryKvStore.demo [OpPut "/a" "x" 0 (-1) 0 0; OpDelete "/a" "/c" 0; OpPut "/a" "y" 0 0 0 0]).2 in
  StronglySorted WatchDispatcher.rev_lt es ∧ length es = 3%nat.
Proof.
  split; [|vm_compute; reflexivity]. apply key_events_increasing; [apply demo_wf|].
  eapply kv_budget_le; [|apply demo_budget]. simpl; lia.
Defined.

(** ** Delivery of a range deletion *)
Lemma enqueue_all_frame d es :
  (length (WatchDispatcher.pendingQueue_ d) + length es ≤ WatchDispatcher.MAX_PENDING_EVENTS)%nat →
  foldl WatchDispatcher.Enqueue d es = WatchDispatcher.with_pending (WatchDispatcher.pendingQueue_ d ++ es) d.
Proof.
  revert d. induction es as [|e es IH]; intros d Hl; simpl; [rewrite app_nil_r; by destruct d|]. simpl in Hl.
  unfold WatchDispatcher.Enqueue at 2. case_bool_decide as Hb; [lia|]. rewrite IH /=; [rewrite length_app /=; lia|]. by rewrite -assoc.
Qed.

(** The events of a [Delete] are DELETE events of one revision, one for each entry it removes. *)
Lemma Delete_events kv key re em :
  kv_wf kv → kv_budget 1 kv →
  Forall (λ e, ev_type e = DELETE ∧ ev_revision e = revision_ kv + 1 ∧ view kv !! kv_key (ev_entry e) = Some (ev_entry e)
               ∧ view (Delete kv key re [] em).1.1 !! kv_key (ev_entry e) = None) (Delete kv key re [] em).1.2.
Proof.
  intros [Hr _] [Hb _]. unfold Delete. case_match; [constructor|]. destruct (in_range_list kv key re) as [|front l] eqn:El; [constructor|]. rewrite -El.
  case_match; [constructor|]. cbn [fst snd]. destruct (mutationCallback_ kv); [|constructor]. apply Forall_map, Forall_map, Forall_forall.
  intros [k e] Hin. cbn. rewrite !lookup_view /= lookup_erase_all decide_True; [by apply (list_elem_of_fmap_2 fst _ (k, e))|].
  apply elem_of_in_range_list in Hin as [-> _]. split_and!; try done. apply i64_small. lia.
Qed.

Lemma replay_deletes es (m : gmap string KeyValueEntry) k :
  Forall (λ e, ev_type e = DELETE) es → k ∉ ((λ e, kv_key (ev_entry e)) <$> es) → foldl apply_event m es !! k = m !! k.
Proof.
  intros Hd. revert m. induction Hd as [|e es Ee _ IH]; intros m; [done|]. rewrite fmap_cons. intros [Hne Hn]%not_elem_of_cons. cbn [foldl].
  rewrite IH //. unfold apply_event. by rewrite Ee lookup_delete_ne.
Qed.

(** C39: a large range deletion is lost on its way to a watcher.  Take any store that satisfies the invariant, with room in its revision counter, with
    nothing pending, and a watch that is up to date (a live channel with an empty queue, its snapshot at most the store's revision).  Let one
    [DeleteRange] remove more than 32 keys (and at most 1024), all of which the watch covers.  After the fan-out the channel holds one
    DELETE event per key; the next notification carries at most 32 of them, and its success empties the queue.  Every event that is
    not in it is never sent: a watcher that replays what it received still has those keys, which the store no longer has. *)
Theorem range_deletion_lost (std_hash : Z → Z) (n : nat) (s : components) (key re : string) (em id : Z) (c : WatchDispatcher.channel)
    (Hinv : c_inv n [] s) (Hb : kv_budget 1 (memKvStore_ s))
    (Hpending : WatchDispatcher.pendingQueue_ (watchDispatcher_ s) = [] ∧ WatchDispatcher.pendingOverflow_ (watchDispatcher_ s) = false)
    (Hc : WatchDispatcher.channel_of (watchDispatcher_ s) id = Some c)
    (Hidle : WatchDispatcher.queue c = [] ∧ WatchDispatcher.needReWatch c = false)
    (Hsnap : 0 < WatchDispatcher.snapshotRevision c ≤ revision_ (memKvStore_ s)) :
  let es := (Delete (memKvStore_ s) key re [] em).1.2 in
  let s' := c_run std_hash s [CDeleteRange key re em; CFanOut] in
  (WatchDispatcher.MAX_WATCH_EVENTS_PER_BATCH < length es ≤ Z.to_nat 1024)%nat →
  (∀ e, e ∈ es → id ∈ WatchDispatcher.reg_match (watchRegistry_ s) (kv_key (ev_entry e))) →
  ∃ c1 c2 m sent,
    WatchDispatcher.channel_of (watchDispatcher_ s') id = Some c1 ∧ WatchDispatcher.queue c1 = es
    ∧ WatchDispatcher.PrepareChannelEvents true c1 = (c2, Some (false, m, sent))
    ∧ (length sent ≤ WatchDispatcher.MAX_WATCH_EVENTS_PER_BATCH)%nat ∧ WatchDispatcher.after_commit c2 m = []
    ∧ ∀ e, e ∈ es → e ∉ sent →
        foldl apply_event (view (memKvStore_ s)) sent !! kv_key (ev_entry e) = Some (ev_entry e) ∧ view (memKvStore_ s') !! kv_key (ev_entry e) = None.
Proof.
  intros es s' Hlen Hm. pose proof (Delete_events _ key re em (ci_kv _ _ _ Hinv) Hb) as Hes. fold es in Hes. destruct Hpending as [Hp Ho], Hidle as [Hq Hw].
  set (d := watchDispatcher_ s) in *. assert (WatchDispatcher.disp_inv n [] d) as Hd by apply Hinv.
  assert (watchDispatcher_ s' = foldl (λ d e, WatchDispatcher.fan_out_event std_hash d (watchRegistry_ s) e) d es
          ∧ memKvStore_ s' = (Delete (memKvStore_ s) key re [] em).1.1) as [-> ->].
  { subst s'. cbn [c_run foldl c_step]. unfold DeleteRange. subst es. destruct (Delete _ _ _ _ _) as [[kv es] r]. cbn [fst snd] in *. rewrite commit_frame. split; [|done].
    cbn [watchDispatcher_ watchRegistry_ with_watch]. fold d. rewrite enqueue_all_frame; [rewrite Hp; unfold WatchDispatcher.MAX_PENDING_EVENTS; cbn [length]; lia|]. rewrite Hp.
    unfold WatchDispatcher.FanOut_pass. cbn [WatchDispatcher.pendingQueue_ WatchDispatcher.with_pending app]. rewrite Nat.min_r; [unfold WatchDispatcher.MAX_WATCH_EVENTS_PER_FAN_OUT; lia|].
    rewrite firstn_all drop_all /=. rewrite Ho. f_equal. clear -Hp. by destruct d; cbn in *; subst. }
  destruct (WatchDispatcher.fan_out_matching std_hash n d (watchRegistry_ s) es id c) as (c1 & Hc1 & Hs1 & Hw1 & Hl1 & Hq1); [done|apply Hinv|done|done|rewrite Hq /=; lia|done|].
  rewrite Hq app_nil_l in Hq1.
  assert (Forall (λ e, ev_revision e = revision_ (memKvStore_ s) + 1) (WatchDispatcher.queue c1)) as Hrev by (rewrite Hq1; eapply Forall_impl; [exact Hes|]; simpl; tauto).
  destruct (WatchDispatcher.Prepare_new c1) as (m & sent & rest & HP & Hsplit); [done|done|rewrite Hq1; by destruct es; [cbn in Hlen; lia|]|lia|eapply Forall_impl; [exact Hrev|]; simpl; lia|].
  destruct (WatchDispatcher.commit_drops_shared_revision c1 _ _ m _ sent Hl1 Hw1 Hrev ltac:(lia) ltac:(rewrite Hq1; lia) HP) as (Hle & _ & Hempty).
  exists c1, (WatchDispatcher.with_queue (WatchDispatcher.queue c1) c1), m, sent. split_and!; try done. intros e He Hns. rewrite Hq1 in Hsplit.
  pose proof (kv_step_keys (memKvStore_ s) (OpDelete key re em)) as Hnd. cbn in Hnd. fold es in Hnd. rewrite Forall_forall in Hes. destruct (Hes e He) as (_ & _ & Hv & Hv').
  split; [|done]. rewrite replay_deletes //; [apply Forall_forall; intros x Hx; apply (Hes x); rewrite Hsplit; apply elem_of_app; by left|].
  intros (x & Ek & Hx)%list_elem_of_fmap. assert (x = e) as ->; [|done]. apply (NoDup_fmap_elem (λ e, kv_key (ev_entry e)) es); try done. rewrite Hsplit. apply elem_of_app. by left.
Qed.

(** A store with 33 keys, a watcher of all of them, and nothing pending. *)
Definition crowd_ops : list c_op :=
  ((λ i, CPut 0 (String (ascii_of_nat (33 + i)) EmptyString) "v" 0 (-1) 0 0) <$> seq 0 33) ++ [CFanOut; CWatchRange "!" "~" "w" EmptyString].
Definition crowd : components := c_run WatchDispatcher.id_hash (boot 1) crowd_ops.

Lemma crowd_covered e : In e (Delete (memKvStore_ crowd) "!" "~" [] 0).1.2 → 1 ∈ WatchDispatcher.reg_match (watchRegistry_ crowd) (kv_key (ev_entry e)).
Proof.
  intros He. pose (covered := λ e, bool_decide (1 ∈ WatchDispatcher.reg_match (watchRegistry_ crowd) (kv_key (ev_entry e)))).
  assert (forallb covered (Delete (memKvStore_ crowd) "!" "~" [] 0).1.2 = true) as Hall by (vm_compute; reflexivity).
  pose proof (proj1 (forallb_forall covered _) Hall e He) as Hb. exact (proj1 (bool_decide_eq_true _) Hb).
Qed.

Lemma range_deletion_lost_witness :
  ∃ c1 c2 m sent, WatchDispatcher.channel_of (watchDispatcher_ (c_run WatchDispatcher.id_hash crowd [CDeleteRange "!" "~" 0; CFanOut])) 1 = Some c1
    ∧ length (WatchDispatcher.queue c1) = 33%nat ∧ WatchDispatcher.PrepareChannelEvents true c1 = (c2, Some (false, m, sent))
    ∧ (length sent ≤ 32)%nat ∧ WatchDispatcher.after_commit c2 m = [].
Proof.
  destruct (range_deletion_lost WatchDispatcher.id_hash 0 crowd "!" "~" 0 1 (WatchDispatcher.MkChannel 1 "w" [] (Z.to_nat 1024) 34 false false 0 false))
    as (c1 & c2 & m & sent & H1 & H2 & H3 & H4 & H5 & _).
  - apply (c_run_inv WatchDispatcher.id_hash 0 (boot 1)); [by apply (boot_inv 1); lia|by apply boot_budget|by vm_compute].
  - apply (c_run_budget WatchDispatcher.id_hash 0 (boot 1)); [by apply (boot_inv 1); lia|by apply boot_budget|by vm_compute].
  - split; vm_compute; reflexivity.
  - vm_compute. reflexivity.
  - split; reflexivity.
  - split; vm_compute; congruence.
  - split; vm_compute; lia.
  - intros e He. apply crowd_covered. by rewrite list_elem_of_In in He.
  - exists c1, c2, m, sent. split; [exact H1|]. rewrite H2. split; [vm_compute; reflexivity|]. split; [exact H3|]. split; [exact H4|exact H5].
Defined.

(** ** Callbacks of concurrent mutations

    The store calls the mutation callback after releasing its lock, so that of two concurrent calls the
    one that committed second may enqueue its event first. *)
Definition two_puts : list WatchEvent :=
  (kv_run (SetMutationCallback MemoryKvStore.init true) [OpPut "/a" "1" 0 (-1) 0 0; OpPut "/b" "2" 0 (-1) 0 0]).2.
Definition late_run (first late : WatchEvent) : WatchDispatcher.dispatcher * WatchRegistry.registry :=
  foldl (WatchDispatcher.exec_step WatchDispatcher.id_hash WatchDispatcher.notify_ok)
    (WatchDispatcher.Start WatchDispatcher.init 1, (WatchRegistry.Register WatchRegistry.init "/a" "/z" "w" "").1)
    [WatchDispatcher.Op (WatchDispatcher.OAddChannel 1 "w"); WatchDispatcher.Op (WatchDispatcher.OSnapshot 1 1);
     WatchDispatcher.Op (WatchDispatcher.OEnqueue first); WatchDispatcher.Op WatchDispatcher.OFanOut;
     WatchDispatcher.Dispatch 0 0 [WatchDispatcher.OEnqueue late; WatchDispatcher.OFanOut]].

(** an event enqueued out of commit order can be lost.  Two calls commit at revisions 2 and 3; the event
    of the second reaches the dispatcher first and is being notified when the event of the first arrives.
    The success of that notification (of revision 3) removes the event of revision 2 unsent: nothing is
    left queued for the watcher and the channel is no longer scheduled. *)
Theorem late_event_lost :
  ∃ e2 e3, two_puts = [e2; e3] ∧ ev_revision e2 = 2 ∧ ev_revision e3 = 3
    ∧ ∃ c, WatchDispatcher.channel_of (late_run e3 e2).1 1 = Some c
        ∧ WatchDispatcher.queue c = [] ∧ WatchDispatcher.needReWatch c = false
        ∧ WatchDispatcher.queued (late_run e3 e2).1 = []
        ∧ WatchDispatcher.pendingQueue_ (late_run e3 e2).1 = [].
Proof.
  eexists _, _. split; [vm_compute; reflexivity|]. split_and!; [reflexivity..|].
  eexists. split; [vm_compute; reflexivity|]. split_and!; vm_compute; reflexivity.
Qed.
End CoordinatorStore.
