(* ===== verification/NetUtil.v ===== *)
(** * NetUtil: endpoint strings

    Model of [HostPort] and [ParseToHostPortString] of [src/datasystem/common/util/net_util.{h,cpp}], of the
    endpoint validators of [common/util/validator.h] and of [StringToInt] of [strings_util.h].

    The validators use RE2; the two patterns are transcribed in a small algebra of star-free regular
    expressions with their language as an inductive predicate, and RE2's [FullMatch] as an executable
    matcher that is proved to decide the language.  A string is a list of characters here, converted at the
    boundary.  Not modelled: [IsPortAvailable] (sockets) and the logging of rejected values. *)
From S2P Require Import Prelude.
From Stdlib Require Import Ascii String.

Module NetUtil.
Local Open Scope Z_scope.
Local Open Scope char_scope.

Definition chars := list ascii.

(** ** Regular expressions *)
Inductive regex :=
| Eps
| Cls (lo hi : ascii)
| Alt (r1 r2 : regex)
| Cat (r1 r2 : regex).

Definition in_cls (lo hi c : ascii) : bool :=
  (N_of_ascii lo <=? N_of_ascii c)%N && (N_of_ascii c <=? N_of_ascii hi)%N.

Inductive re_in : regex → chars → Prop :=
| in_Eps : re_in Eps []
| in_Cls lo hi c : in_cls lo hi c = true → re_in (Cls lo hi) [c]
| in_Alt_l r1 r2 s : re_in r1 s → re_in (Alt r1 r2) s
| in_Alt_r r1 r2 s : re_in r2 s → re_in (Alt r1 r2) s
| in_Cat r1 r2 s1 s2 : re_in r1 s1 → re_in r2 s2 → re_in (Cat r1 r2) (s1 ++ s2).

(** The remainders of [s] after each prefix of it in the language of [r]. *)
Fixpoint remainders (r : regex) (s : chars) : list chars :=
  match r with
  | Eps => [s]
  | Cls lo hi => match s with c :: s' => if in_cls lo hi c then [s'] else [] | [] => [] end
  | Alt r1 r2 => remainders r1 s ++ remainders r2 s
  | Cat r1 r2 => remainders r1 s ≫= remainders r2
  end.

Definition FullMatch (s : chars) (r : regex) : bool := bool_decide ([] ∈ remainders r s).

Definition lit (c : ascii) : regex := Cls c c.
Definition word (s : string) : regex := foldr (λ c r, Cat (lit c) r) Eps (list_ascii_of_string s).
(** [r{n}] and [r{1,n}]. *)
Fixpoint rep (n : nat) (r : regex) : regex := match n with O => Eps | S n' => Cat r (rep n' r) end.
Fixpoint rep1 (n : nat) (r : regex) : regex :=
  match n with O => r | S n' => Alt (rep (S n) r) (rep1 n' r) end.
Definition digit : regex := Cls "0" "9".

(** [25[0-5]|2[0-4][0-9]|1[0-9][0-9]|[0-9]{1,2}]. *)
Definition octet_re : regex :=
  Alt (Cat (word "25") (Cls "0" "5"))
    (Alt (Cat (word "2") (Cat (Cls "0" "4") digit))
       (Alt (Cat (word "1") (Cat digit digit)) (rep1 1 digit))).

(** [(6553[0-5])|(655[0-2][0-9])|(65[0-4][0-9]{2})|(6[0-4][0-9]{3})|([1-5][0-9]{4})|([0-5]{1,5})|([0-9]{1,4})]. *)
Definition port_re : regex :=
  Alt (Cat (word "6553") (Cls "0" "5"))
    (Alt (Cat (word "655") (Cat (Cls "0" "2") digit))
       (Alt (Cat (word "65") (Cat (Cls "0" "4") (rep 2 digit)))
          (Alt (Cat (word "6") (Cat (Cls "0" "4") (rep 3 digit)))
             (Alt (Cat (Cls "1" "5") (rep 4 digit))
                (Alt (rep1 4 (Cls "0" "5")) (rep1 3 digit)))))).

Definition host_re : regex :=
  Alt (Cat octet_re (rep 3 (Cat (lit ".") octet_re))) (word "localhost").

Definition ipv4_re : regex := Cat host_re (Cat (lit ":") port_re).

(** ** Validators *)
Definition IsValidIPv4HostPortString (value : chars) : bool := FullMatch value ipv4_re || bool_decide (value = []).

Definition IsInPortRange (value : chars) (allowEmpty : bool) : bool :=
  if negb allowEmpty && bool_decide (value = []) then false else FullMatch value port_re.

(** [find_last_of(c)]: the parts before and after the last occurrence. *)
Fixpoint split_last (c : ascii) (s : chars) : option (chars * chars) :=
  match s with
  | [] => None
  | x :: s' =>
    match split_last c s' with
    | Some (l, r) => Some (x :: l, r)
    | None => if bool_decide (x = c) then Some ([], s') else None
    end
  end.

Definition IsValidIPv6HostPortString (value : chars) : bool :=
  bool_decide (head value = Some "[")
  && match split_last ":" value with
     | None => false
     | Some (before, port) =>
       bool_decide (last before = Some "]")
       && negb (let addrPrefix := take 4 (drop 1 value) in
                (bool_decide (addrPrefix = ["f"; "e"; "8"; "0"]) || bool_decide (addrPrefix = ["F"; "E"; "8"; "0"]))
                && bool_decide ("%" ∉ value))
       && IsInPortRange port false
     end.

Definition ValidateHostPortString (value : chars) : bool :=
  if bool_decide (head value = Some "[") then IsValidIPv6HostPortString value else IsValidIPv4HostPortString value.

(** ** Numbers *)
Definition digit_val (c : ascii) : Z := Z.of_N (N_of_ascii c) - 48.
Definition dec_val (s : chars) : Z := foldl (λ n c, 10 * n + digit_val c) 0 s.

(** [std::stoi] on the strings the validators let through: digits, at most five of them, or empty, on
    which it throws and [StringToInt] leaves the number alone. *)
Definition StringToInt (s : chars) (num : Z) : Z := match s with [] => num | _ => dec_val s end.

Fixpoint digits_of (fuel : nat) (n : Z) (acc : chars) : chars :=
  match fuel with
  | O => acc
  | S fuel' =>
    let acc' := ascii_of_N (Z.to_N (n mod 10 + 48)) :: acc in
    if (n / 10 =? 0)%Z then acc' else digits_of fuel' (n / 10) acc'
  end.

(** [std::to_string(int)]. *)
Definition to_string (n : Z) : chars :=
  if (n <? 0)%Z then "-" :: digits_of 10 (- n) [] else digits_of 10 n [].

(** ** HostPort *)
Record HostPort := MkHostPort { host_ : chars; port_ : Z; isIPv6_ : bool }.

(** The default-constructed endpoint. *)
Definition HostPort_default : HostPort := MkHostPort [] (-1) false.

Definition HostPort_new (host : chars) (port : Z) : HostPort :=
  MkHostPort host port (bool_decide (":" ∈ host)).

Definition ToString (h : HostPort) : chars :=
  if bool_decide (host_ h = []) && (port_ h =? -1)%Z then []
  else if negb (isIPv6_ h) then host_ h ++ ":" :: to_string (port_ h)
  else "[" :: host_ h ++ "]" :: ":" :: to_string (port_ h).

Definition HostPort_eq (a b : HostPort) : bool := bool_decide (host_ a = host_ b) && (port_ a =? port_ b)%Z.

(** Returns [(host, port, isIPv6)]; without a colon (the empty string) [pos + 1] wraps to 0. *)
Definition ParseToHostPortString (str : chars) (isIPv6 : bool) : res (chars * chars * bool) :=
  check! ValidateHostPortString str else K_INVALID in
  let '(before, port) := match split_last ":" str with Some p => p | None => (str, str) end in
  if bool_decide (head str = Some "[")
  then Ok (take (List.length before - 2) (drop 1 str), port, true)
  else Ok (before, port, isIPv6).

Definition ParseString (h : HostPort) (str : chars) : res HostPort :=
  let! (host, port, v6) := ParseToHostPortString str (isIPv6_ h) in
  Ok (MkHostPort host (StringToInt port (port_ h)) v6).

(** The check the cluster code makes before it accepts an address:
    [endpoint.ParseString(address).IsOk() && endpoint.ToString() == address] on a fresh endpoint. *)
Definition canonical (address : chars) : bool :=
  match ParseString HostPort_default address with
  | Ok h => bool_decide (ToString h = address)
  | Fail _ => false
  end.

Definition is_canonical (address : string) : bool := canonical (list_ascii_of_string address).

(** ** The matcher decides the language *)
Lemma elem_of_remainders r s rest : rest ∈ remainders r s ↔ ∃ p, s = p ++ rest ∧ re_in r p.
Proof.
  revert s rest. induction r as [|lo hi|r1 IH1 r2 IH2|r1 IH1 r2 IH2]; intros s rest; simpl.
  - rewrite list_elem_of_singleton. split; [intros ->; exists []; by repeat constructor|].
    intros (p & -> & Hp). by inversion Hp.
  - split.
    + destruct s as [|c s]; [by intros ?%elem_of_nil|]. destruct (in_cls lo hi c) eqn:E; [|by intros ?%elem_of_nil].
      intros ->%list_elem_of_singleton. exists [c]. split; [done|by constructor].
    + intros (p & -> & Hp). inversion Hp as [|? ? c Hc| | |]; subst. simpl. rewrite Hc. by left.
  - rewrite elem_of_app IH1 IH2. split.
    + intros [(p & -> & Hp)|(p & -> & Hp)]; exists p; (split; [done|]); by constructor.
    + intros (p & -> & Hp). inversion Hp; subst; [left|right]; eauto.
  - rewrite list_elem_of_bind. split.
    + intros (mid & (p2 & -> & H2)%IH2 & (p1 & -> & H1)%IH1). exists (p1 ++ p2). split; [by rewrite assoc|by constructor].
    + intros (p & -> & Hp). inversion Hp as [| | | |? ? s1 s2 H1 H2]; subst. exists (s2 ++ rest).
      rewrite IH1 IH2. split; [eauto|]. exists s1. split; [by rewrite -assoc|done].
Qed.

Lemma FullMatch_spec s r : FullMatch s r = true ↔ re_in r s.
Proof.
  rewrite /FullMatch bool_decide_eq_true elem_of_remainders. split; [|by exists s; rewrite app_nil_r].
  intros (p & -> & Hp). by rewrite app_nil_r.
Qed.

(** ** Numeric value and characters of the words of a language

    [spans r] lists, for each way to match [r], the length of the match and bounds on its decimal value. *)
Fixpoint spans (r : regex) : list (Z * Z * Z) :=
  match r with
  | Eps => [(0, 0, 0)]
  | Cls lo hi => [(1, digit_val lo, digit_val hi)]
  | Alt r1 r2 => spans r1 ++ spans r2
  | Cat r1 r2 => '(n1, l1, h1) ← spans r1; '(n2, l2, h2) ← spans r2;
                 [(n1 + n2, l1 * 10 ^ n2 + l2, h1 * 10 ^ n2 + h2)]
  end%Z.

Lemma dec_val_acc s n : foldl (λ n c, 10 * n + digit_val c) n s = n * 10 ^ Z.of_nat (List.length s) + dec_val s.
Proof.
  unfold dec_val. revert n. induction s as [|c s IH]; intros n; cbn [foldl List.length]; [lia|].
  rewrite IH (IH (10 * 0 + _)) Nat2Z.inj_succ Z.pow_succ_r; lia.
Qed.

Lemma dec_val_app s1 s2 : dec_val (s1 ++ s2) = dec_val s1 * 10 ^ Z.of_nat (List.length s2) + dec_val s2.
Proof. unfold dec_val at 1. by rewrite foldl_app dec_val_acc. Qed.

Lemma spans_spec r s : re_in r s → ∃ lo hi, (Z.of_nat (List.length s), lo, hi) ∈ spans r ∧ lo ≤ dec_val s ≤ hi.
Proof.
  induction 1 as [|lo hi c Hc|r1 r2 s _ (l & h & Hin & Hb)|r1 r2 s _ (l & h & Hin & Hb)
    |r1 r2 s1 s2 _ (l1 & h1 & Hin1 & Hb1) _ (l2 & h2 & Hin2 & Hb2)].
  - exists 0, 0. split; [by left|]. unfold dec_val. simpl. lia.
  - exists (digit_val lo), (digit_val hi). split; [by left|]. unfold dec_val, digit_val. simpl.
    apply andb_true_iff in Hc as [?%N.leb_le ?%N.leb_le]. lia.
  - exists l, h. simpl. rewrite elem_of_app. auto.
  - exists l, h. simpl. rewrite elem_of_app. auto.
  - eexists _, _. split.
    + cbn [spans]. apply list_elem_of_bind. exists (Z.of_nat (List.length s1), l1, h1). split; [|done].
      apply list_elem_of_bind. exists (Z.of_nat (List.length s2), l2, h2). split; [|done].
      rewrite length_app Nat2Z.inj_add. by left.
    + rewrite dec_val_app. pose proof (Z.pow_pos_nonneg 10 (Z.of_nat (List.length s2))). nia.
Qed.

Definition within (n_lo n_hi v_hi : Z) (x : Z * Z * Z) : bool :=
  ((n_lo <=? x.1.1) && (x.1.1 <=? n_hi) && (0 <=? x.1.2) && (x.2 <=? v_hi))%Z.

Lemma spans_within n_lo n_hi v_hi r s :
  forallb (within n_lo n_hi v_hi) (spans r) = true → re_in r s →
  n_lo ≤ Z.of_nat (List.length s) ≤ n_hi ∧ 0 ≤ dec_val s ≤ v_hi.
Proof.
  intros Hall (lo & hi & Hin & Hb)%spans_spec. rewrite forallb_forall in Hall.
  apply list_elem_of_In in Hin. specialize (Hall _ Hin). unfold within in Hall. simpl in Hall.
  rewrite !andb_true_iff !Z.leb_le in Hall. lia.
Qed.

Lemma octet_bounds s : re_in octet_re s → 1 ≤ Z.of_nat (List.length s) ≤ 3 ∧ 0 ≤ dec_val s ≤ 255.
Proof. apply spans_within. vm_compute. reflexivity. Qed.

Lemma port_bounds s : re_in port_re s → 1 ≤ Z.of_nat (List.length s) ≤ 5 ∧ 0 ≤ dec_val s ≤ 65535.
Proof. apply spans_within. vm_compute. reflexivity. Qed.

(** The characters a language uses. *)
Fixpoint uses (r : regex) (c : ascii) : bool :=
  match r with
  | Eps => false
  | Cls lo hi => in_cls lo hi c
  | Alt r1 r2 | Cat r1 r2 => uses r1 c || uses r2 c
  end.

Lemma uses_spec r s : re_in r s → Forall (λ c, uses r c = true) s.
Proof.
  induction 1 as [|lo hi c Hc|r1 r2 s _ IH|r1 r2 s _ IH|r1 r2 s1 s2 _ IH1 _ IH2]; simpl.
  - constructor.
  - by repeat constructor.
  - eapply Forall_impl; [exact IH|]. intros c ->. done.
  - eapply Forall_impl; [exact IH|]. intros c ->. by rewrite orb_true_r.
  - apply Forall_app. split; (eapply Forall_impl; [eassumption|]); intros c ->; [done|by rewrite orb_true_r].
Qed.

Lemma port_no_colon s : re_in port_re s → ":" ∉ s.
Proof. intros Hp%uses_spec Hin. rewrite Forall_forall in Hp. by specialize (Hp _ Hin). Qed.

Lemma split_last_app c l r : c ∉ r → split_last c (l ++ c :: r) = Some (l, r).
Proof.
  intros Hr. induction l as [|x l IH]; simpl.
  - assert (split_last c r = None) as ->.
    { clear -Hr. induction r as [|y r IH]; simpl; [done|]. apply not_elem_of_cons in Hr as [Hne Hr].
      rewrite IH // bool_decide_eq_false_2 //. }
    by rewrite bool_decide_eq_true_2.
  - by rewrite IH.
Qed.

(** ** Decimal printing *)
Definition dotted (a b c d : Z) : chars :=
  to_string a ++ "." :: to_string b ++ "." :: to_string c ++ "." :: to_string d.

Definition endpoint (host : chars) (port : Z) : chars := host ++ ":" :: to_string port.

Definition dig (d : Z) : ascii := ascii_of_N (Z.to_N (d + 48)).

Lemma digits_last fuel d acc : 0 ≤ d ≤ 9 → digits_of (S fuel) d acc = dig d :: acc.
Proof.
  intros Hd. cbn [digits_of]. rewrite (Z.mod_small d 10) ?(Z.div_small d 10); [lia..|]. by rewrite Z.eqb_refl.
Qed.

Lemma digits_step fuel n d acc :
  0 < n → 0 ≤ d ≤ 9 → digits_of (S fuel) (10 * n + d) acc = digits_of fuel n (dig d :: acc).
Proof.
  intros Hn Hd. cbn [digits_of]. assert ((10 * n + d) mod 10 = d) as ->.
  { symmetry. apply (Z.mod_unique_pos _ _ n); lia. }
  assert ((10 * n + d) / 10 = n) as ->. { symmetry. apply (Z.div_unique_pos _ _ _ d); lia. }
  by destruct (Z.eqb_spec n 0); [lia|].
Qed.

Lemma digit_val_dig d : 0 ≤ d ≤ 9 → digit_val (dig d) = d.
Proof. intros Hd. unfold digit_val, dig. rewrite N_ascii_embedding; lia. Qed.

Lemma dig_cls lo hi d : 0 ≤ d ≤ 9 → digit_val lo ≤ d ≤ digit_val hi → re_in (Cls lo hi) [dig d].
Proof.
  intros Hd Hb. constructor. unfold in_cls. unfold digit_val in Hb. unfold dig. rewrite N_ascii_embedding; [lia|].
  apply andb_true_iff. rewrite !N.leb_le. lia.
Qed.

(** Every number below [10 ^ 5] is one to five digits without a leading zero. *)
Lemma decimal_cases z : 0 ≤ z < 100000 →
  ∃ l, to_string z = dig <$> l ∧ Forall (λ d, 0 ≤ d ≤ 9) l ∧
  match l with
  | [a] => z = a
  | [a; b] => 0 < a ∧ z = 10 * a + b
  | [a; b; c] => 0 < a ∧ z = 10 * (10 * a + b) + c
  | [a; b; c; d] => 0 < a ∧ z = 10 * (10 * (10 * a + b) + c) + d
  | [a; b; c; d; e] => 0 < a ∧ z = 10 * (10 * (10 * (10 * a + b) + c) + d) + e
  | _ => False
  end.
Proof.
  intros Hz. unfold to_string. destruct (Z.ltb_spec z 0); [lia|].
  assert (∀ n, 0 ≤ n → ∃ q r, n = 10 * q + r ∧ 0 ≤ r ≤ 9 ∧ q = n / 10) as Hdm.
  { intros n Hn. exists (n / 10), (n mod 10). pose proof (Z.div_mod n 10). pose proof (Z.mod_pos_bound n 10). lia. }
  destruct (Z.ltb_spec z 10) as [|H1].
  { exists [z]. rewrite digits_last; [lia|]. split_and!; [done|repeat constructor; lia|done]. }
  destruct (Hdm z) as (q1 & r1 & E1 & Hr1 & _); [lia|]. rewrite E1 digits_step; [lia..|].
  destruct (Z.ltb_spec q1 10) as [|H2].
  { exists [q1; r1]. rewrite digits_last; [lia|]. split_and!; [done|repeat constructor; lia|lia|lia]. }
  destruct (Hdm q1) as (q2 & r2 & E2 & Hr2 & _); [lia|]. rewrite E2 digits_step; [lia..|].
  destruct (Z.ltb_spec q2 10) as [|H3].
  { exists [q2; r2; r1]. rewrite digits_last; [lia|]. split_and!; [done|repeat constructor; lia|lia|lia]. }
  destruct (Hdm q2) as (q3 & r3 & E3 & Hr3 & _); [lia|]. rewrite E3 digits_step; [lia..|].
  destruct (Z.ltb_spec q3 10) as [|H4].
  { exists [q3; r3; r2; r1]. rewrite digits_last; [lia|]. split_and!; [done|repeat constructor; lia|lia|lia]. }
  destruct (Hdm q3) as (q4 & r4 & E4 & Hr4 & _); [lia|]. rewrite E4 digits_step; [lia..|].
  exists [q4; r4; r3; r2; r1]. rewrite digits_last; [lia|]. split_and!; [done|repeat constructor; lia|lia|lia].
Qed.

Lemma rep1_in n lo hi l :
  l ≠ [] → (List.length l ≤ S n)%nat → Forall (λ d, 0 ≤ d ≤ 9 ∧ digit_val lo ≤ d ≤ digit_val hi) l →
  re_in (rep1 n (Cls lo hi)) (dig <$> l).
Proof.
  intros Hne Hlen Hall.
  assert (∀ l, Forall (λ d, 0 ≤ d ≤ 9 ∧ digit_val lo ≤ d ≤ digit_val hi) l →
    re_in (rep (List.length l) (Cls lo hi)) (dig <$> l)) as Hrep.
  { induction 1 as [|d l' [] _ IH]; simpl; [constructor|]. apply (in_Cat _ _ [dig d]); [by apply dig_cls|done]. }
  revert l Hne Hlen Hall. induction n as [|n IH]; intros l Hne Hlen Hall.
  - destruct l as [|d [|]]; simpl in *; [done| |lia]. apply Forall_cons in Hall as [[] _]. by apply dig_cls.
  - destruct (decide (List.length l = S (S n))) as [E|]; [|apply in_Alt_r, IH; auto; lia].
    apply in_Alt_l. rewrite -E. by apply Hrep.
Qed.

Ltac forall_digits := repeat match goal with H : Forall _ (_ :: _) |- _ => apply Forall_cons in H as [? H] end.
(** Membership of a literal digit sequence, character by character. *)
Ltac cls_step := apply dig_cls; unfold digit_val; simpl; lia.
Ltac cat_steps := unfold word, lit, digit; cbn [list_ascii_of_string foldr rep];
  repeat first [cls_step | apply in_Eps | apply (in_Cat _ _ [_])].

Lemma octet_print z : 0 ≤ z ≤ 255 → re_in octet_re (to_string z).
Proof.
  intros Hz. destruct (decimal_cases z) as (l & -> & Hall & Hl); [lia|].
  destruct l as [|a [|b [|c [|d [|e []]]]]]; try done; forall_digits.
  - do 3 apply in_Alt_r. apply rep1_in; [done|simpl; lia|repeat constructor; unfold digit_val; simpl; lia].
  - do 3 apply in_Alt_r. apply rep1_in; [done|simpl; lia|repeat constructor; unfold digit_val; simpl; lia].
  - cbn [fmap list_fmap]. destruct (decide (a = 2)) as [->|].
    + destruct (decide (b = 5)) as [->|].
      * apply in_Alt_l. apply (in_Cat _ _ [dig 2; dig 5]); [cat_steps|cls_step].
      * apply in_Alt_r, in_Alt_l. apply (in_Cat _ _ [dig 2]); [cat_steps|cat_steps].
    + assert (a = 1) as -> by lia. do 2 apply in_Alt_r. apply in_Alt_l.
      apply (in_Cat _ _ [dig 1]); [cat_steps|cat_steps].
  - lia.
  - lia.
Qed.

Lemma port_print z : 0 ≤ z ≤ 65535 → re_in port_re (to_string z) ∧ dec_val (to_string z) = z.
Proof.
  intros Hz. destruct (decimal_cases z) as (l & -> & Hall & Hl); [lia|]. split.
  - destruct l as [|a [|b [|c [|d [|e []]]]]]; try done; forall_digits;
      try (do 6 apply in_Alt_r; apply rep1_in; [done|simpl; lia|repeat constructor; unfold digit_val; simpl; lia]).
    cbn [fmap list_fmap]. destruct Hl as [Ha Hl]. destruct (decide (a = 6)) as [->|].
    2:{ do 4 apply in_Alt_r. apply in_Alt_l. cat_steps. }
    destruct (decide (b = 5)) as [->|].
    2:{ do 3 apply in_Alt_r. apply in_Alt_l. apply (in_Cat _ _ [dig 6]); cat_steps. }
    destruct (decide (c = 5)) as [->|].
    2:{ do 2 apply in_Alt_r. apply in_Alt_l. apply (in_Cat _ _ [dig 6; dig 5]); cat_steps. }
    destruct (decide (d = 3)) as [->|].
    2:{ apply in_Alt_r, in_Alt_l. apply (in_Cat _ _ [dig 6; dig 5; dig 5]); cat_steps. }
    apply in_Alt_l. apply (in_Cat _ _ [dig 6; dig 5; dig 5; dig 3]); cat_steps.
  - unfold dec_val. destruct l as [|a [|b [|c [|d [|e []]]]]]; try done; forall_digits;
      cbn [fmap list_fmap foldl]; rewrite !digit_val_dig; lia.
Qed.

(** ** Endpoints *)
Lemma dotted_host a b c d :
  0 ≤ a ≤ 255 → 0 ≤ b ≤ 255 → 0 ≤ c ≤ 255 → 0 ≤ d ≤ 255 → re_in host_re (dotted a b c d).
Proof.
  intros Ha Hb Hc Hd. apply in_Alt_l. unfold dotted. constructor; [by apply octet_print|].
  assert (∀ z s r, 0 ≤ z ≤ 255 → re_in r s → re_in (Cat (Cat (lit ".") octet_re) r) ("." :: to_string z ++ s)) as Hdot.
  { intros z s r Hz Hs. apply (in_Cat _ _ ("." :: to_string z)); [|done].
    apply (in_Cat _ _ ["."]); [by constructor|by apply octet_print]. }
  simpl. apply Hdot; [done|]. apply Hdot; [done|]. rewrite -(app_nil_r (to_string d)).
  apply Hdot; [done|constructor].
Qed.

Lemma host_head s : re_in host_re s → s ≠ [] ∧ head s ≠ Some "[".
Proof.
  intros Hs. assert (∀ c, c ∈ s → c ≠ "[") as Hall.
  { apply uses_spec in Hs. rewrite Forall_forall in Hs. intros c Hc ->. by specialize (Hs _ Hc). }
  split.
  - intros ->. inversion Hs as [| |? ? ? H1|? ? ? H1|]; subst.
    + inversion H1 as [| | | |? ? s1 s2 H2 _ E1 E2]; subst. apply octet_bounds in H2 as [H2 _].
      apply app_nil in E2 as [-> _]. simpl in H2. lia.
    + by apply FullMatch_spec in H1.
  - intros Hh. apply head_Some_elem_of in Hh. by apply Hall in Hh.
Qed.

Lemma parse_v4 h host port :
  re_in host_re host → re_in port_re port →
  ParseString h (host ++ ":" :: port) = Ok (MkHostPort host (dec_val port) (isIPv6_ h)).
Proof.
  intros Hh Hp. destruct (host_head host Hh) as [Hne Hhd].
  assert (head (host ++ ":" :: port) ≠ Some "[") as Hhd'. { by destruct host. }
  unfold ParseString, ParseToHostPortString, ValidateHostPortString.
  rewrite (bool_decide_eq_false_2 (head _ = _)) //. unfold IsValidIPv4HostPortString.
  assert (FullMatch (host ++ ":" :: port) ipv4_re = true) as ->.
  { apply FullMatch_spec. constructor; [done|]. apply (in_Cat _ _ [":"]); [by constructor|done]. }
  simpl. rewrite (split_last_app ":" host port) /=; [by apply port_no_colon|].
  unfold StringToInt. destruct port; [|done]. apply port_bounds in Hp as [Hp _]. simpl in Hp. lia.
Qed.

Lemma to_string_nonneg z : 0 ≤ z → to_string z = digits_of 10 z [].
Proof. intros. unfold to_string. by destruct (Z.ltb_spec z 0); [lia|]. Qed.

(** ** Properties *)

(** printing and parsing endpoints agree.  For every IPv4 address and port the printed endpoint is
    accepted, parses back to the same host and port, prints to itself again, and is therefore canonical in
    the sense the cluster code requires of member addresses. *)
Theorem endpoint_roundtrip (a b c d port : Z) (Ha : 0 ≤ a ≤ 255) (Hb : 0 ≤ b ≤ 255) (Hc : 0 ≤ c ≤ 255)
    (Hd : 0 ≤ d ≤ 255) (Hp : 0 ≤ port ≤ 65535) :
  let s := ToString (HostPort_new (dotted a b c d) port) in
  s = endpoint (dotted a b c d) port
  ∧ ParseString HostPort_default s = Ok (HostPort_new (dotted a b c d) port)
  ∧ canonical s = true.
Proof.
  pose proof (dotted_host a b c d Ha Hb Hc Hd) as Hh. pose proof (host_head _ Hh) as [Hne _].
  pose proof (port_print port Hp) as [Hpr Hpv].
  assert (":" ∉ dotted a b c d) as Hcol.
  { apply uses_spec in Hh. rewrite Forall_forall in Hh. intros Hin. by specialize (Hh _ Hin). }
  assert (ToString (HostPort_new (dotted a b c d) port) = endpoint (dotted a b c d) port) as Es.
  { unfold ToString, HostPort_new. cbn [host_ port_ isIPv6_].
    rewrite bool_decide_eq_false_2 // bool_decide_eq_false_2 //. }
  assert (ParseString HostPort_default (endpoint (dotted a b c d) port) = Ok (HostPort_new (dotted a b c d) port)) as Ep.
  { unfold endpoint. rewrite parse_v4 // Hpv. unfold HostPort_new. by rewrite bool_decide_eq_false_2. }
  intros s. subst s. rewrite Es. split_and!; [done|done|]. unfold canonical. rewrite Ep. by apply bool_decide_eq_true.
Qed.

Lemma endpoint_roundtrip_witness :
  ToString (HostPort_new (dotted 10 0 0 255) 65535) = list_ascii_of_string "10.0.0.255:65535"
  ∧ canonical (ToString (HostPort_new (dotted 10 0 0 255) 65535)) = true.
Proof. split; [vm_compute; reflexivity|]. apply (endpoint_roundtrip 10 0 0 255 65535); lia. Defined.

(** an accepted endpoint has a port in range.  Whatever nonempty string [ParseString] accepts, IPv4,
    localhost or bracketed IPv6, the port it stores is between 0 and 65535. *)
Theorem parsed_port_in_range (h h' : HostPort) (s : chars) (Hne : s ≠ []) (HP : ParseString h s = Ok h') :
  0 ≤ port_ h' ≤ 65535.
Proof.
  assert (∀ port, re_in port_re port → 0 ≤ StringToInt port (port_ h) ≤ 65535) as Hport.
  { intros port Hp. pose proof (port_bounds _ Hp) as [Hl Hv]. destruct port; [simpl in Hl; lia|done]. }
  unfold ParseString, ParseToHostPortString in HP. destruct (ValidateHostPortString s) eqn:HV; [|done].
  unfold ValidateHostPortString in HV. destruct (bool_decide (head s = Some "[")) eqn:Hb.
  - unfold IsValidIPv6HostPortString in HV. rewrite Hb /= in HV.
    destruct (split_last ":" s) as [[before port]|]; [|done]. simpl in HP. injection HP as <-.
    apply andb_true_iff in HV as [_ HV]. unfold IsInPortRange in HV.
    destruct (negb false && bool_decide (port = [])); [done|]. by apply Hport, FullMatch_spec.
  - unfold IsValidIPv4HostPortString in HV. apply orb_true_iff in HV as [HV|HV]; [|by apply bool_decide_eq_true in HV].
    apply FullMatch_spec in HV. inversion HV as [| | | |? ? host rest _ Hrest]; subst.
    inversion Hrest as [| | | |? ? colon port Hc Hp]; subst. inversion Hc as [|? ? c Hcc| | |]; subst.
    assert (c = ":") as ->.
    { unfold in_cls in Hcc. apply andb_true_iff in Hcc as [?%N.leb_le ?%N.leb_le].
      rewrite -(ascii_N_embedding c) -(ascii_N_embedding ":"). f_equal. lia. }
    simpl in HP. rewrite (split_last_app ":" host port) in HP; [by apply port_no_colon|]. simpl in HP.
    injection HP as <-. by apply Hport.
Qed.

Lemma parsed_port_in_range_witness :
  ∃ h, ParseString HostPort_default (list_ascii_of_string "[fe80::1%eth0]:443") = Ok h ∧ 0 ≤ port_ h ≤ 65535.
Proof.
  eexists. split; [vm_compute; reflexivity|].
  apply (parsed_port_in_range HostPort_default _ (list_ascii_of_string "[fe80::1%eth0]:443"));
    [discriminate|vm_compute; reflexivity].
Defined.

(** the IPv6 flag is sticky.  [ParseString] sets the flag for a bracketed address but never clears it:
    parsing an IPv4 endpoint into an object that last held an IPv6 one yields an endpoint that does not
    print back to the string it was parsed from. *)
Theorem reparse_keeps_ipv6_flag (h : HostPort) (a b c d port : Z) (Hv6 : isIPv6_ h = true)
    (Ha : 0 ≤ a ≤ 255) (Hb : 0 ≤ b ≤ 255) (Hc : 0 ≤ c ≤ 255) (Hd : 0 ≤ d ≤ 255) (Hp : 0 ≤ port ≤ 65535) :
  ∃ h', ParseString h (endpoint (dotted a b c d) port) = Ok h'
    ∧ ToString h' ≠ endpoint (dotted a b c d) port.
Proof.
  pose proof (dotted_host a b c d Ha Hb Hc Hd) as Hh. pose proof (host_head _ Hh) as [Hne Hhd].
  pose proof (port_print port Hp) as [Hpr Hpv]. eexists. split; [by apply parse_v4|].
  unfold ToString. cbn [host_ port_ isIPv6_]. rewrite bool_decide_eq_false_2 // Hv6 /=.
  unfold endpoint. destruct (dotted a b c d) as [|x l]; [done|]. intros [= <- _]. done.
Qed.

Lemma reparse_keeps_ipv6_flag_witness :
  ∃ h h', ParseString HostPort_default (list_ascii_of_string "[::1]:443") = Ok h
    ∧ ParseString h (endpoint (dotted 1 2 3 4) 80) = Ok h' ∧ ToString h' ≠ endpoint (dotted 1 2 3 4) 80.
Proof.
  eexists. destruct (reparse_keeps_ipv6_flag (MkHostPort (list_ascii_of_string "::1") 443 true) 1 2 3 4 80)
    as (h' & H1 & H2); [reflexivity|lia..|]. exists h'. split; [vm_compute; reflexivity|]. split; [exact H1|exact H2].
Defined.
End NetUtil.
