(* ===== verification/MurmurHash.v ===== *)
(** * MurmurHash: the placement hash

    Model of [MurmurHash3_32] of [src/datasystem/common/util/hash_algorithm.{h,cpp}] (production build, without
    the test injection points).  Bytes are integers below 256; the block read
    [*(reinterpret_cast<const uint32_t *>(data))] is little-endian, as on the supported targets. *)
From S2P Require Import Prelude.

Module MurmurHash.
Local Open Scope Z_scope.

Definition C1 : Z := 0xcc9e2d51.
Definition C2 : Z := 0x1b873593.
Definition R1 : Z := 15.
Definition R2 : Z := 13.
Definition M : Z := 5.
Definition N : Z := 0xe6546b64.

Definition Rotl (val r : Z) : Z :=
  if val =? 0 then val else Z.lor (u32 (Z.shiftl val r)) (Z.shiftr val (32 - r)).

Definition Fmix (val : Z) : Z :=
  let val := Z.lxor val (Z.shiftr val 16) in
  let val := u32 (val * 0x85ebca6b) in
  let val := Z.lxor val (Z.shiftr val 13) in
  let val := u32 (val * 0xc2b2ae35) in
  Z.lxor val (Z.shiftr val 16).

(** A little-endian block of four bytes. *)
Definition block_of (b0 b1 b2 b3 : Z) : Z := b0 + b1 * 2 ^ 8 + b2 * 2 ^ 16 + b3 * 2 ^ 24.

(** The [while (index >= 0)] loop over the last one to three bytes; [index] is that of the last byte of
    the list, so the list is reversed. *)
Fixpoint GetRemain_loop (k : Z) (rev_remain : list Z) : Z :=
  match rev_remain with
  | [] => k
  | b :: rest => GetRemain_loop (Z.lxor k (u32 (Z.shiftl b (Z.of_nat (length rest) * 8)))) rest
  end.
Definition GetRemain (remain : list Z) : Z := GetRemain_loop 0 (rev remain).

(** [k *= C1; k = Rotl(k, R1); k *= C2]. *)
Definition mix_k (k : Z) : Z := u32 (Rotl (u32 (k * C1)) R1 * C2).

(** The block loop; at most three bytes remain. *)
Fixpoint process_body (result : Z) (data : list Z) : Z * list Z :=
  match data with
  | b0 :: b1 :: b2 :: b3 :: rest =>
    let result := Z.lxor result (mix_k (block_of b0 b1 b2 b3)) in
    let result := Rotl result R2 in
    process_body (u32 (result * M + N)) rest
  | _ => (result, data)
  end.

Definition MurmurHash3_32 (data : list Z) (seed : Z) : Z :=
  let '(result, remain) := process_body seed data in
  let result := match remain with [] => result | _ => Z.lxor result (mix_k (GetRemain remain)) end in
  Fmix (u32 (Z.lxor result (Z.of_nat (length data)))).

(** The overload on strings: the bytes of the string, seed 0. *)
Definition bytes_of (s : string) : list Z := (λ c, Z.of_N (N_of_ascii c)) <$> String.list_ascii_of_string s.
Definition Hash (s : string) : Z := MurmurHash3_32 (bytes_of s) 0.

(** Published values of MurmurHash3_x86_32 with seed 0. *)
Example hash_empty : Hash "" = 0.
Proof. vm_compute. reflexivity. Qed.
Example hash_test : Hash "test" = 0xba6bd213.
Proof. vm_compute. reflexivity. Qed.
Example hash_hello : Hash "Hello, world!" = 0xc0363e43.
Proof. vm_compute. reflexivity. Qed.
Example hash_fox : Hash "The quick brown fox jumps over the lazy dog" = 0x2e4ff723.
Proof. vm_compute. reflexivity. Qed.

(** ** 32-bit words *)
Definition w32 (z : Z) : Prop := 0 ≤ z < 2 ^ 32.

Lemma w32_shiftr z : w32 z ↔ Z.shiftr z 32 = 0.
Proof. unfold w32. rewrite Z.shiftr_div_pow2; [lia|]. rewrite Z.div_small_iff; lia. Qed.

Lemma w32_u32 z : w32 (u32 z).
Proof. apply u32_range. Qed.

Lemma w32_lxor a b : w32 a → w32 b → w32 (Z.lxor a b).
Proof. rewrite !w32_shiftr Z.shiftr_lxor. by intros -> ->. Qed.

Lemma w32_lor a b : w32 a → w32 b → w32 (Z.lor a b).
Proof. rewrite !w32_shiftr Z.shiftr_lor. by intros -> ->. Qed.

Lemma w32_shift a n : w32 a → 0 ≤ n → w32 (Z.shiftr a n).
Proof.
  rewrite !w32_shiftr. intros Ha Hn. rewrite Z.shiftr_shiftr; [lia|].
  rewrite Z.add_comm -Z.shiftr_shiftr; [lia|]. by rewrite Ha Z.shiftr_0_l.
Qed.

Lemma shiftr_high a n : w32 a → 32 ≤ n → Z.shiftr a n = 0.
Proof.
  intros Ha Hn. replace n with (32 + (n - 32)) by lia. rewrite -Z.shiftr_shiftr; [lia|].
  apply w32_shiftr in Ha. by rewrite Ha Z.shiftr_0_l.
Qed.

(** [x ^ (x >> s)] can be undone. *)
Lemma xorshift_inj s x y :
  0 < s → 32 ≤ 3 * s → w32 x → w32 y → Z.lxor x (Z.shiftr x s) = Z.lxor y (Z.shiftr y s) → x = y.
Proof.
  intros Hs H3 Hx Hy.
  assert (∀ x, w32 x → x = (let g := Z.lxor x (Z.shiftr x s) in Z.lxor (Z.lxor g (Z.shiftr g s)) (Z.shiftr g (s + s)))) as Hinv.
  { intros z Hz. cbv zeta. rewrite !Z.shiftr_lxor !Z.shiftr_shiftr; [lia..|]. rewrite (shiftr_high z (s + (s + s))); [done|lia|].
    rewrite Z.lxor_0_r. set (a := Z.shiftr z s). set (b := Z.shiftr z (s + s)).
    rewrite (Z.lxor_assoc z a) -(Z.lxor_assoc a a b) Z.lxor_nilpotent Z.lxor_0_l Z.lxor_assoc Z.lxor_nilpotent.
    by rewrite Z.lxor_0_r. }
  intros E. rewrite (Hinv x Hx) (Hinv y Hy). cbv zeta. by rewrite E.
Qed.

(** Multiplication by an odd constant can be undone. *)
Lemma mul_inj c c' x y : u32 (c * c') = 1 → w32 x → w32 y → u32 (x * c) = u32 (y * c) → x = y.
Proof.
  intros Hc Hx Hy E. assert (∀ z, w32 z → u32 (u32 (z * c) * c') = z) as Hinv.
  { intros z Hz. unfold u32 in *. rewrite Z.mul_mod_idemp_l; [lia|]. rewrite -Z.mul_assoc -Z.mul_mod_idemp_r; [lia|].
    rewrite Hc Z.mul_1_r. by apply Z.mod_small. }
  rewrite -(Hinv x Hx) -(Hinv y Hy). by rewrite E.
Qed.

Lemma lor_add r a b : 0 ≤ r → 0 ≤ b < 2 ^ r → Z.lor (a * 2 ^ r) b = a * 2 ^ r + b.
Proof.
  intros Hr Hb. rewrite -Z.add_lor_land. assert (Z.land (a * 2 ^ r) b = 0) as ->; [|lia].
  apply Z.bits_inj'. intros n Hn. rewrite Z.land_spec Z.bits_0. destruct (Z.ltb_spec n r).
  - by rewrite Z.mul_pow2_bits_low.
  - destruct (Z.eq_dec b 0) as [->|]; [by rewrite Z.bits_0 andb_false_r|].
    rewrite (Z.bits_above_log2 b n) ?andb_false_r //; [lia|].
    apply Z.lt_le_trans with r; [|done]. apply Z.log2_lt_pow2; lia.
Qed.

(** Rotation, arithmetically. *)
Lemma Rotl_arith r x : 0 < r < 32 → w32 x → Rotl x r = (x mod 2 ^ (32 - r)) * 2 ^ r + x / 2 ^ (32 - r).
Proof.
  intros Hr Hx. unfold Rotl. assert (2 ^ (32 - r) ≠ 0) by (apply Z.pow_nonzero; lia).
  destruct (Z.eqb_spec x 0) as [->|Hx0]; [rewrite Z.mod_0_l // Z.div_0_l //|].
  rewrite Z.shiftr_div_pow2; [lia|]. rewrite Z.shiftl_mul_pow2; [lia|].
  assert (2 ^ 32 = 2 ^ (32 - r) * 2 ^ r) as Hpow by (rewrite -Z.pow_add_r; [lia|lia|f_equal; lia]).
  assert (0 < 2 ^ r) by (apply Z.pow_pos_nonneg; lia). assert (0 < 2 ^ (32 - r)) by (apply Z.pow_pos_nonneg; lia).
  unfold u32. rewrite Hpow Z.mul_mod_distr_r; [lia|lia|]. apply lor_add; [lia|].
  unfold w32 in Hx. split; [apply Z.div_pos; lia|]. apply Z.div_lt_upper_bound; lia.
Qed.

Lemma w32_Rotl r x : 0 < r < 32 → w32 x → w32 (Rotl x r).
Proof.
  intros Hr Hx. unfold Rotl. destruct (x =? 0); [done|]. apply w32_lor; [apply w32_u32|apply w32_shift; [done|lia]].
Qed.

Lemma Rotl_inj r x y : 0 < r < 32 → w32 x → w32 y → Rotl x r = Rotl y r → x = y.
Proof.
  intros Hr Hx Hy. rewrite !Rotl_arith //. intros E.
  assert (2 ^ 32 = 2 ^ (32 - r) * 2 ^ r) as Hpow by (rewrite -Z.pow_add_r; [lia|lia|f_equal; lia]).
  assert (0 < 2 ^ r) by (apply Z.pow_pos_nonneg; lia). assert (0 < 2 ^ (32 - r)) by (apply Z.pow_pos_nonneg; lia).
  assert (∀ z, w32 z → 0 ≤ z / 2 ^ (32 - r) < 2 ^ r) as Hdiv.
  { intros z [Hz1 Hz2]. split; [apply Z.div_pos; lia|]. apply Z.div_lt_upper_bound; lia. }
  pose proof (Hdiv x Hx). pose proof (Hdiv y Hy).
  pose proof (Z.div_mod x (2 ^ (32 - r))) as Ex. pose proof (Z.div_mod y (2 ^ (32 - r))) as Ey.
  revert E H1 H2 Ex Ey H H0. generalize (x / 2 ^ (32 - r)) (y / 2 ^ (32 - r)) (x mod 2 ^ (32 - r)) (y mod 2 ^ (32 - r)).
  generalize (2 ^ (32 - r)) (2 ^ r). clear. intros P Q qx qy mx my E Hqx Hqy Ex Ey HQ HP.
  assert (mx = my) as -> by nia. assert (qx = qy) as -> by lia. rewrite Ex ?Ey; lia.
Qed.

Lemma lxor_inj_r a x y : Z.lxor a x = Z.lxor a y → x = y.
Proof. intros E. rewrite -(Z.lxor_0_l x) -(Z.lxor_0_l y) -(Z.lxor_nilpotent a) !Z.lxor_assoc. by rewrite E. Qed.

Lemma u32_lxor x y : u32 (Z.lxor x y) = Z.lxor (u32 x) (u32 y).
Proof.
  unfold u32. apply Z.bits_inj'. intros n Hn. rewrite Z.lxor_spec. destruct (Z.ltb_spec n 32).
  - by rewrite !Z.mod_pow2_bits_low // Z.lxor_spec.
  - by rewrite !Z.mod_pow2_bits_high.
Qed.

Lemma Fmix_inj x y : w32 x → w32 y → Fmix x = Fmix y → x = y.
Proof.
  intros Hx Hy E. assert (∀ z n, w32 z → 0 ≤ n → w32 (Z.lxor z (Z.shiftr z n))) as Hw.
  { intros. apply w32_lxor; [done|by apply w32_shift]. }
  unfold Fmix in E. apply xorshift_inj in E; [|lia..|apply w32_u32|apply w32_u32].
  apply (mul_inj _ 0x7ed1b41d) in E; [|vm_compute; reflexivity|apply Hw; [apply w32_u32|lia]..].
  apply xorshift_inj in E; [|lia..|apply w32_u32|apply w32_u32].
  apply (mul_inj _ 0xa5cb9243) in E; [|vm_compute; reflexivity|apply Hw; [done|lia]..].
  by apply xorshift_inj in E.
Qed.

Lemma w32_Fmix x : w32 x → w32 (Fmix x).
Proof. intros Hx. unfold Fmix. apply w32_lxor; [apply w32_u32|]. apply w32_shift; [apply w32_u32|lia]. Qed.

Lemma w32_mix_k k : w32 (mix_k k).
Proof. apply w32_u32. Qed.

Lemma mix_k_inj x y : w32 x → w32 y → mix_k x = mix_k y → x = y.
Proof.
  intros Hx Hy E. unfold mix_k in E.
  apply (mul_inj _ 0x56ed309b) in E; [|vm_compute; reflexivity|apply w32_Rotl; [unfold R1; lia|apply w32_u32]..].
  apply Rotl_inj in E; [|unfold R1; lia|apply w32_u32..].
  by apply (mul_inj _ 0xdee13bb1) in E; [|vm_compute; reflexivity|..].
Qed.

Definition byte (b : Z) : Prop := 0 ≤ b < 256.

Lemma block_inj a0 a1 a2 a3 b0 b1 b2 b3 :
  byte a0 → byte a1 → byte a2 → byte a3 → byte b0 → byte b1 → byte b2 → byte b3 →
  block_of a0 a1 a2 a3 = block_of b0 b1 b2 b3 → [a0; a1; a2; a3] = [b0; b1; b2; b3].
Proof.
  unfold byte, block_of. intros. assert (a0 = b0) by lia. assert (a1 = b1) by lia. assert (a2 = b2) by lia.
  assert (a3 = b3) by lia. congruence.
Qed.

Lemma block_w32 a0 a1 a2 a3 : byte a0 → byte a1 → byte a2 → byte a3 → w32 (block_of a0 a1 a2 a3).
Proof. unfold byte, block_of, w32. lia. Qed.

Lemma process_body_w32 n data result rest r' :
  (length data ≤ n)%nat → w32 result → process_body result data = (r', rest) → w32 r' ∧ (length rest < 4)%nat.
Proof.
  revert data result. induction n as [|n IH]; intros data result Hlen Hr.
  - destruct data; [|simpl in Hlen; lia]. intros [= <- <-]. split; [done|simpl; lia].
  - destruct data as [|b0 [|b1 [|b2 [|b3 data]]]]; simpl; try (intros [= <- <-]; split; [done|simpl; lia]).
    apply IH; [simpl in Hlen; lia|apply w32_u32].
Qed.

(** The body of a key whose length is a multiple of four leaves no remainder and carries over. *)
Lemma process_body_app n p q result :
  (length p = 4 * n)%nat → process_body result (p ++ q) = process_body (process_body result p).1 q.
Proof.
  revert p result. induction n as [|n IH]; intros p result Hlen.
  - destruct p; [done|simpl in Hlen; lia].
  - destruct p as [|b0 [|b1 [|b2 [|b3 p]]]]; simpl in Hlen; try lia. simpl. apply IH. lia.
Qed.

(** ** Properties *)

(** the hash is a 32-bit token, for every key and every 32-bit seed. *)
Theorem MurmurHash3_32_range (data : list Z) (seed : Z) (Hs : 0 ≤ seed < 2 ^ 32) :
  0 ≤ MurmurHash3_32 data seed < 2 ^ 32.
Proof.
  unfold MurmurHash3_32. destruct (process_body seed data) as [r rest]. apply w32_Fmix, w32_u32.
Qed.

Lemma MurmurHash3_32_range_witness : 0 ≤ MurmurHash3_32 (bytes_of "worker-1#17") 0x9747b28c < 2 ^ 32.
Proof. apply MurmurHash3_32_range. lia. Defined.

(** no collisions within a block.  Two keys of the same length that share everything but their last
    four bytes, the shared part being a whole number of 32-bit words, always hash to different tokens: every step from the
    last block to the result (multiplication by an odd constant, rotation, exclusive or, avalanche) is
    invertible on 32-bit words. *)
Theorem last_block_injective (p b b' : list Z) (seed : Z) (n : nat)
    (Hp : length p = (4 * n)%nat) (Hb : length b = 4%nat) (Hb' : length b' = 4%nat)
    (Hbytes : Forall byte b) (Hbytes' : Forall byte b') (Hs : 0 ≤ seed < 2 ^ 32) (Hne : b ≠ b') :
  MurmurHash3_32 (p ++ b) seed ≠ MurmurHash3_32 (p ++ b') seed.
Proof.
  intros E. apply Hne. unfold MurmurHash3_32 in E. rewrite !(process_body_app n) // in E.
  destruct (process_body seed p) as [r rest] eqn:Ep.
  destruct (process_body_w32 _ _ _ _ _ (Nat.le_refl _) Hs Ep) as [Hr _]. simpl in E.
  destruct b as [|a0 [|a1 [|a2 [|a3 []]]]]; try done. destruct b' as [|c0 [|c1 [|c2 [|c3 []]]]]; try done.
  repeat match goal with H : Forall _ (_ :: _) |- _ => apply Forall_cons in H as [? H] end.
  simpl in E. rewrite !length_app /= in E. apply Fmix_inj in E; [|apply w32_u32..].
  assert (∀ x, w32 x → u32 (Z.lxor x (Z.of_nat (length p + 4))) = Z.lxor x (u32 (Z.of_nat (length p + 4)))) as Hx.
  { intros x Hx. rewrite u32_lxor. f_equal. by apply u32_small. }
  rewrite !Hx in E; [apply w32_u32..|]. rewrite !(Z.lxor_comm _ (u32 (Z.of_nat _))) in E. apply lxor_inj_r in E.
  assert (∀ x y, w32 x → w32 y → u32 (x * M + N) = u32 (y * M + N) → x = y) as Haff.
  { intros x y Hx1 Hy1 Exy. apply (mul_inj M 0xcccccccd); [vm_compute; reflexivity|done|done|].
    unfold u32 in *. rewrite -(Z.add_simpl_r (x * M) N) -(Z.add_simpl_r (y * M) N).
    rewrite Zminus_mod Exy -Zminus_mod. done. }
  apply Haff in E; [|apply w32_Rotl; [unfold R2; lia|]; apply w32_lxor; [done|apply w32_mix_k]..].
  apply Rotl_inj in E; [|unfold R2; lia|apply w32_lxor; [done|apply w32_mix_k]..].
  apply lxor_inj_r, mix_k_inj in E; [|by apply block_w32..]. by apply block_inj.
Qed.

Lemma last_block_injective_witness : Hash "worker-a" ≠ Hash "worker-b".
Proof.
  apply (last_block_injective (bytes_of "work") (bytes_of "er-a") (bytes_of "er-b") 0 1);
    [reflexivity..| | |lia|discriminate];
    vm_compute; repeat constructor; discriminate.
Defined.
End MurmurHash.
