(* ===== verification/Topology.v ===== *)
(** * Topology: the cluster topology and its snapshots

    Model of [src/datasystem/cluster/model/topology_types.h] and [topology_snapshot.{h,cpp}]: the members of the
    cluster with their state and ring tokens, the batch in progress, the validation and canonical form of a
    topology, and the immutable snapshot with its indexes.

    Members are immutable once a snapshot is built, so the [const Member *] of the indexes are member values
    here.  [std::sort] is modelled by a stable sort; a topology on which the two could differ (two members
    with one address, two owners of one token) is rejected by the validation. *)
From S2P Require Import Prelude NetUtil.

Module Topology.
Local Open Scope Z_scope.

Inductive MemberState := INITIAL | JOINING | ACTIVE | PRE_LEAVING | LEAVING | FAILED.
Inductive TopologyChangeType := SCALE_OUT | SCALE_IN | FAILURE.

#[export] Instance MemberState_eq_dec : EqDecision MemberState.
Proof. solve_decision. Defined.
#[export] Instance TopologyChangeType_eq_dec : EqDecision TopologyChangeType.
Proof. solve_decision. Defined.

Definition MAX_MEMBER_ADDRESS_BYTES : nat := Z.to_nat 1024.
Definition MAX_TOPOLOGY_TASK_RANGES : nat := Z.to_nat 4096.
Definition MEMBER_ID_SIZE : nat := 16.
Definition SHA256_HEX_SIZE : nat := 64.
#[global] Arguments MAX_MEMBER_ADDRESS_BYTES : simpl never.
#[global] Arguments MAX_TOPOLOGY_TASK_RANGES : simpl never.

Definition IsCommittedMemberState (s : MemberState) : bool :=
  match s with ACTIVE | PRE_LEAVING | LEAVING => true | _ => false end.

Definition IsAdmittedScaleInMigrationTargetState (s : MemberState) : bool :=
  match s with ACTIVE | PRE_LEAVING => true | _ => false end.

Record MemberIdentity := MkIdentity { id : string; address : string }.
#[export] Instance MemberIdentity_eq_dec : EqDecision MemberIdentity.
Proof. solve_decision. Defined.

Record TokenRange := MkRange { from : Z; to : Z }.
#[export] Instance TokenRange_eq_dec : EqDecision TokenRange.
Proof. solve_decision. Defined.

Record Member := MkMember { identity : MemberIdentity; state : MemberState; tokens : list Z }.
#[export] Instance Member_eq_dec : EqDecision Member.
Proof. solve_decision. Defined.

Record ActiveBatch := MkBatch { btype : TopologyChangeType; epoch : Z }.
#[export] Instance ActiveBatch_eq_dec : EqDecision ActiveBatch.
Proof. solve_decision. Defined.

Record TopologyMigrationFence := MkFence {
  topologyVersion : Z; batchEpoch : Z; source : MemberIdentity; target : MemberIdentity }.

Record TopologyState := MkTopology {
  clusterHasInit : bool; version : Z; members : list Member; activeBatch : option ActiveBatch }.
#[export] Instance TopologyState_eq_dec : EqDecision TopologyState.
Proof. solve_decision. Defined.

Record TopologyOwnerChange := MkChange {
  ch_source : option MemberIdentity; ch_target : MemberIdentity; ch_ranges : list TokenRange }.
Record TopologyPlan := MkPlan { next : TopologyState; ownerChanges : list TopologyOwnerChange }.

Definition addr (m : Member) : string := address (identity m).
Definition mid (m : Member) : string := id (identity m).
Definition with_state (s : MemberState) (m : Member) : Member := MkMember (identity m) s (tokens m).

(** ** Validation *)
Definition IsProspective (s : MemberState) (batch : option ActiveBatch) : bool :=
  match batch with
  | None => false
  | Some b =>
    match btype b with
    | SCALE_OUT => IsCommittedMemberState s || bool_decide (s = JOINING)
    | SCALE_IN => IsCommittedMemberState s && negb (bool_decide (s = LEAVING))
    | FAILURE => false
    end
  end.

Definition MatchesBatch (s : MemberState) (type : TopologyChangeType) : bool :=
  match type with
  | SCALE_OUT => negb (bool_decide (s = LEAVING)) && negb (bool_decide (s = FAILED))
  | SCALE_IN => negb (bool_decide (s = JOINING)) && negb (bool_decide (s = FAILED))
  | FAILURE => true
  end.

Definition transitional (m : Member) : bool :=
  match state m with JOINING | LEAVING | FAILED => true | _ => false end.

Definition participant (type : TopologyChangeType) (m : Member) : bool :=
  match type, state m with
  | SCALE_OUT, JOINING | SCALE_IN, LEAVING | FAILURE, FAILED => true
  | _, _ => false
  end.

(** The loop over the members of a topology with an active batch. *)
Fixpoint batch_loop (type : TopologyChangeType) (hasParticipant : bool) (ms : list Member) : res bool :=
  match ms with
  | [] => Ok hasParticipant
  | m :: ms' => check! MatchesBatch (state m) type else K_INVALID in
                batch_loop type (hasParticipant || participant type m) ms'
  end.

Definition ValidateBatchStates (st : TopologyState) : res unit :=
  match activeBatch st with
  | None => check! negb (existsb transitional (members st)) else K_INVALID in Ok tt
  | Some b => let! has := batch_loop (btype b) false (members st) in check! has else K_INVALID in Ok tt
  end.

Definition ValidateAddress (a : string) : res unit :=
  check! negb (empty_str a) && bool_decide (String.length a ≤ MAX_MEMBER_ADDRESS_BYTES)%nat && NetUtil.is_canonical a
    else K_INVALID in Ok tt.

Definition addr_le (a b : Member) : Prop := String.le (addr a) (addr b).
#[export] Instance addr_le_dec : RelDecision addr_le.
Proof. intros a b. unfold addr_le. apply _. Defined.
#[export] Instance addr_le_total : Total addr_le.
Proof. intros a b. apply (total String.le). Qed.
#[export] Instance addr_le_trans : Transitive addr_le.
Proof. intros a b c. unfold addr_le. apply transitivity. Qed.

Definition sort_tokens (m : Member) : Member := MkMember (identity m) (state m) (merge_sort Z.le (tokens m)).

(** [for (ringPoint : member.tokens) CHECK(tokens.emplace(ringPoint).second)]. *)
Fixpoint insert_tokens (seen : gset Z) (ts : list Z) : res (gset Z) :=
  match ts with
  | [] => Ok seen
  | t :: ts' => check! bool_decide (t ∉ seen) else K_INVALID in insert_tokens ({[t]} ∪ seen) ts'
  end.

(** The loop over the sorted members; [prev] is the previous member's address.  Returns the members with
    sorted tokens, [hasCommittedMember] and [hasCommittedToken]. *)
Fixpoint canon_loop (prev : option string) (ids : gset string) (seen : gset Z) (hasMember hasToken : bool)
    (ms : list Member) : res (list Member * bool * bool) :=
  match ms with
  | [] => Ok ([], hasMember, hasToken)
  | m :: ms' =>
    let! _ := ValidateAddress (addr m) in
    check! bool_decide (String.length (mid m) = MEMBER_ID_SIZE) else K_INVALID in
    check! negb (bool_decide (prev = Some (addr m))) else K_INVALID in
    check! bool_decide (mid m ∉ ids) else K_INVALID in
    let m' := sort_tokens m in
    let! seen' := insert_tokens seen (tokens m') in
    let committed := IsCommittedMemberState (state m) in
    let! (rest, hm, ht) := canon_loop (Some (addr m)) ({[mid m]} ∪ ids) seen' (hasMember || committed)
                             (hasToken || (committed && negb (bool_decide (tokens m' = [])))) ms' in
    Ok (m' :: rest, hm, ht)
  end.

Definition ValidateAndCanonicalizeTopologyState (st : TopologyState) : res TopologyState :=
  check! (0 <? version st) && (version st <=? INT64_MAX) else K_INVALID in
  check! match activeBatch st with Some b => (0 <? epoch b) && (epoch b <=? version st) | None => true end
    else K_INVALID in
  let! _ := ValidateBatchStates st in
  let! (ms, hasMember, hasToken) := canon_loop None ∅ ∅ false false (merge_sort addr_le (members st)) in
  check! negb hasMember || hasToken else K_INVALID in
  Ok (MkTopology (clusterHasInit st) (version st) ms (activeBatch st)).

(** ** Snapshots *)
Record TopologySnapshot := MkSnapshot {
  state_ : TopologyState;
  authorityRevision_ : Z;
  canonicalDigest_ : string;
  addressIndex_ : gmap string nat;
  idIndex_ : gmap string nat;
  committedMembers_ : list Member;
  activeMembers_ : list Member;
  failedMembers_ : list Member;
  committedTokenOwners_ : list (Z * Member);
  prospectiveTokenOwners_ : list (Z * Member) }.

Definition is_hex (c : ascii) : bool :=
  let n := N_of_ascii c in
  ((48 <=? n)%N && (n <=? 57)%N) || ((97 <=? n)%N && (n <=? 102)%N).

Definition IsSha256Hex (digest : string) : bool :=
  bool_decide (String.length digest = SHA256_HEX_SIZE) && forallb is_hex (String.list_ascii_of_string digest).

(** [index.emplace(key, i)] for the members in order: the first member with a key wins. *)
Fixpoint build_index (key : Member → string) (i : nat) (ms : list Member) (index : gmap string nat)
    : gmap string nat :=
  match ms with
  | [] => index
  | m :: ms' => build_index key (S i) ms'
                  (match index !! key m with Some _ => index | None => <[key m := i]> index end)
  end.

Definition tok_le (a b : Z * Member) : Prop := a.1 ≤ b.1.
#[export] Instance tok_le_dec : RelDecision tok_le.
Proof. intros a b. unfold tok_le. apply _. Defined.
#[export] Instance tok_le_total : Total tok_le.
Proof. intros a b. unfold tok_le. lia. Qed.
#[export] Instance tok_le_trans : Transitive tok_le.
Proof. intros a b c. unfold tok_le. lia. Qed.

(** The ring points of the members that satisfy [p], sorted by token. *)
Definition owners_of (p : Member → bool) (ms : list Member) : list (Z * Member) :=
  merge_sort tok_le (flat_map (λ m, (λ t, (t, m)) <$> tokens m) (filter (λ m, p m = true) ms)).

Definition is_committed (m : Member) : bool := IsCommittedMemberState (state m).

Definition BuildIndexes (st : TopologyState) (authorityRevision : Z) (digest : string) : TopologySnapshot :=
  MkSnapshot st authorityRevision digest
    (build_index addr 0 (members st) ∅)
    (build_index mid 0 (members st) ∅)
    (filter (λ m, is_committed m = true) (members st))
    (filter (λ m, state m = ACTIVE) (members st))
    (filter (λ m, state m = FAILED) (members st))
    (owners_of is_committed (members st))
    (owners_of (λ m, IsProspective (state m) (activeBatch st)) (members st)).

Definition Create (st : TopologyState) (authorityRevision : Z) (digest : string) : res TopologySnapshot :=
  check! (0 <=? authorityRevision) && IsSha256Hex digest else K_INVALID in
  let! st' := ValidateAndCanonicalizeTopologyState st in
  Ok (BuildIndexes st' authorityRevision digest).

Definition member_at (snap : TopologySnapshot) (i : option nat) : res Member :=
  match i ≫= λ i, members (state_ snap) !! i with Some m => Ok m | None => Fail K_NOT_FOUND end.

Definition FindMemberByAddress (snap : TopologySnapshot) (a : string) : res Member :=
  member_at snap (addressIndex_ snap !! a).

Definition FindMemberById (snap : TopologySnapshot) (i : string) : res Member :=
  check! bool_decide (String.length i = MEMBER_ID_SIZE) else K_INVALID in member_at snap (idIndex_ snap !! i).

(** [upper_bound] on the address, wrapping to the front. *)
Definition next_member (ms : list Member) (a : string) : option Member :=
  match partition_point (λ m, negb (bool_decide (str_lt a (addr m)))) ms with
  | m :: _ => Some m
  | [] => head ms
  end.

Definition distinct_next (ms : list Member) (a : string) : res Member :=
  match next_member ms a with
  | None => Fail K_NOT_FOUND
  | Some m => check! negb (bool_decide (addr m = a)) else K_NOT_FOUND in Ok m
  end.

Definition FindNextCommittedMember (snap : TopologySnapshot) (a : string) : res Member :=
  check! match FindMemberByAddress snap a with Ok m => is_committed m | Fail _ => false end else K_NOT_FOUND in
  check! bool_decide (1 < length (committedMembers_ snap))%nat else K_NOT_FOUND in
  distinct_next (committedMembers_ snap) a.

Definition FindNextActiveMember (snap : TopologySnapshot) (a : string) : res Member :=
  distinct_next (activeMembers_ snap) a.

Definition FindExactMember (snap : TopologySnapshot) (i : MemberIdentity) : res Member :=
  check! negb (empty_str (id i)) && negb (empty_str (address i)) else K_INVALID in
  match FindMemberByAddress snap (address i) with
  | Ok m => check! bool_decide (identity m = i) else K_INVALID in Ok m
  | Fail _ => Fail K_INVALID
  end.

Definition ValidateMigrationFence (snap : TopologySnapshot) (fence : TopologyMigrationFence) : res unit :=
  if version (state_ snap) <? topologyVersion fence then Fail K_TRY_AGAIN
  else
    check! negb (topologyVersion fence =? 0) else K_INVALID in
    match activeBatch (state_ snap) with
    | None => Fail K_INVALID
    | Some b =>
      check! negb (batchEpoch fence =? 0) && (epoch b =? batchEpoch fence) else K_INVALID in
      let! src := FindExactMember snap (source fence) in
      let! dst := FindExactMember snap (target fence) in
      let scaleOut := bool_decide (btype b = SCALE_OUT) && IsCommittedMemberState (state src)
                      && bool_decide (state dst = JOINING) in
      let scaleIn := bool_decide (btype b = SCALE_IN) && bool_decide (state src = LEAVING)
                     && IsAdmittedScaleInMigrationTargetState (state dst)
                     && negb (bool_decide (identity src = identity dst)) in
      check! scaleOut || scaleIn else K_INVALID in Ok tt
    end.

(** ** Routing *)

(** [LocateIndexedOwner]: [lower_bound] on the token, wrapping to the front. *)
Definition LocateIndexedOwner {A} (owners : list (Z * A)) (token : Z) : res A :=
  match partition_point (λ o, o.1 <? token) owners, owners with
  | o :: _, _ => Ok o.2
  | [], o :: _ => Ok o.2
  | [], [] => Fail K_NOT_READY
  end.

Definition LocateOwner (snap : TopologySnapshot) (token : Z) : res Member :=
  LocateIndexedOwner (committedTokenOwners_ snap) token.

Definition LocateProspectiveOwner (snap : TopologySnapshot) (token : Z) : res Member :=
  LocateIndexedOwner
    (match prospectiveTokenOwners_ snap with [] => committedTokenOwners_ snap | os => os end) token.

(** ** What the validation accepts *)
Definition member_ok (m : Member) : Prop :=
  addr m ≠ "" ∧ (String.length (addr m) ≤ MAX_MEMBER_ADDRESS_BYTES)%nat ∧ NetUtil.is_canonical (addr m) = true
  ∧ String.length (mid m) = MEMBER_ID_SIZE.

Definition batch_ok (st : TopologyState) : Prop :=
  match activeBatch st with
  | None => Forall (λ m, transitional m = false) (members st)
  | Some b => 0 < epoch b ≤ version st ∧ Forall (λ m, MatchesBatch (state m) (btype b) = true) (members st)
              ∧ Exists (λ m, participant (btype b) m = true) (members st)
  end.

Record topo_valid (st : TopologyState) : Prop := MkValid {
  tv_version : 0 < version st ≤ INT64_MAX;
  tv_batch : batch_ok st;
  tv_members : Forall member_ok (members st);
  tv_addrs : NoDup (addr <$> members st);
  tv_ids : NoDup (mid <$> members st);
  tv_tokens : NoDup (flat_map tokens (members st));
  tv_owner : Exists (λ m, is_committed m = true) (members st) →
             Exists (λ m, is_committed m = true ∧ tokens m ≠ []) (members st) }.

Definition canon (st : TopologyState) : TopologyState :=
  MkTopology (clusterHasInit st) (version st) (sort_tokens <$> merge_sort addr_le (members st)) (activeBatch st).

(** ** Lemmas on the validation *)
Lemma ValidateAddress_ok a : ValidateAddress a = Ok tt ↔
  a ≠ "" ∧ (String.length a ≤ MAX_MEMBER_ADDRESS_BYTES)%nat ∧ NetUtil.is_canonical a = true.
Proof.
  unfold ValidateAddress. destruct (negb (empty_str a) && _ && _) eqn:E.
  - rewrite !andb_true_iff negb_true_iff empty_str_false bool_decide_eq_true in E. naive_solver.
  - split; [done|]. intros (H1 & H2 & H3). rewrite H3 bool_decide_eq_true_2 // in E.
    apply empty_str_false in H1. by rewrite H1 in E.
Qed.

Lemma batch_loop_ok type h ms b :
  batch_loop type h ms = Ok b ↔
  Forall (λ m, MatchesBatch (state m) type = true) ms ∧ b = (h || existsb (participant type) ms).
Proof.
  revert h. induction ms as [|m ms IH]; intros h; simpl.
  - rewrite orb_false_r. split; [intros [= ->]; split; [constructor|done]|by intros [_ ->]].
  - destruct (MatchesBatch (state m) type) eqn:E; rewrite Forall_cons E; [|naive_solver].
    rewrite IH orb_assoc. naive_solver.
Qed.

Lemma existsb_Exists {A} (f : A → bool) l : existsb f l = true ↔ Exists (λ x, f x = true) l.
Proof. rewrite existsb_exists Exists_exists. setoid_rewrite list_elem_of_In. done. Qed.

Lemma existsb_none {A} (f : A → bool) l : existsb f l = false ↔ Forall (λ x, f x = false) l.
Proof.
  induction l as [|x l IH]; simpl; [by split|]. rewrite orb_false_iff IH Forall_cons. done.
Qed.

Lemma ValidateBatchStates_ok st :
  (∀ b, activeBatch st = Some b → 0 < epoch b ≤ version st) → ValidateBatchStates st = Ok tt ↔ batch_ok st.
Proof.
  intros He. unfold ValidateBatchStates, batch_ok. destruct (activeBatch st) as [b|].
  - specialize (He b eq_refl). destruct (batch_loop (btype b) false (members st)) as [has|c] eqn:E; simpl.
    + apply batch_loop_ok in E as [Hall ->]. rewrite orb_false_l. rewrite -existsb_Exists.
      destruct (existsb _ _); split; naive_solver.
    + split; [done|]. intros (_ & Hall & _). exfalso.
      assert (batch_loop (btype b) false (members st) = Ok (false || existsb (participant (btype b)) (members st)))
        by by apply batch_loop_ok. congruence.
  - rewrite -existsb_none. destruct (existsb _ _); split; done.
Qed.

Lemma insert_tokens_ok seen ts seen' :
  insert_tokens seen ts = Ok seen' ↔
  NoDup ts ∧ (∀ t, t ∈ ts → t ∉ seen) ∧ seen' = list_to_set ts ∪ seen.
Proof.
  revert seen. induction ts as [|t ts IH]; intros seen; simpl.
  - split; [intros [= ->]; split_and!; [constructor|by intros ? ?%elem_of_nil|set_solver]|].
    intros (_ & _ & ->). f_equal. set_solver.
  - rewrite NoDup_cons. case_bool_decide as Ht.
    + rewrite IH. split.
      * intros (Hnd & Hn & ->). split_and!; [set_solver|done| |set_solver]. intros t' [->|?]%elem_of_cons; set_solver.
      * intros ([Hn Hnd] & Hs & ->). split_and!; [done| |set_solver]. intros t' Ht'. set_solver.
    + split; [done|]. intros (_ & Hs & _). exfalso. apply (Hs t); [by left|]. by destruct (decide (t ∈ seen)).
Qed.

Definition has_tokens (m : Member) : bool := is_committed m && negb (bool_decide (tokens m = [])).

Lemma sort_tokens_nil m : tokens (sort_tokens m) = [] ↔ tokens m = [].
Proof.
  simpl. split; intros E.
  - apply Permutation_nil_r. by rewrite -E merge_sort_Permutation.
  - by rewrite E.
Qed.

Lemma flat_sort_tokens ms : flat_map tokens (sort_tokens <$> ms) ≡ₚ flat_map tokens ms.
Proof. induction ms as [|m ms IH]; simpl; [done|]. by rewrite merge_sort_Permutation IH. Qed.

(** A sorted list has no duplicates as soon as neighbours differ. *)
Definition ok_from (prev : option string) (ids : gset string) (seen : gset Z) (ms : list Member) : Prop :=
  Forall member_ok ms ∧ NoDup (addr <$> ms) ∧ (∀ m, m ∈ ms → prev ≠ Some (addr m))
  ∧ NoDup (mid <$> ms) ∧ (∀ m, m ∈ ms → mid m ∉ ids)
  ∧ NoDup (flat_map tokens ms) ∧ (∀ t, t ∈ flat_map tokens ms → t ∉ seen).

Lemma ok_from_cons prev ids seen m ms :
  StronglySorted addr_le (m :: ms) → (∀ a, prev = Some a → String.le a (addr m)) →
  ok_from prev ids seen (m :: ms) ↔
  member_ok m ∧ prev ≠ Some (addr m) ∧ (mid m ∉ ids) ∧ NoDup (tokens m) ∧ (∀ t, t ∈ tokens m → t ∉ seen)
  ∧ ok_from (Some (addr m)) ({[mid m]} ∪ ids) (list_to_set (tokens m) ∪ seen) ms.
Proof.
  intros [Hle Hs]%StronglySorted_cons Hprev. unfold ok_from. simpl. rewrite Forall_cons !NoDup_cons NoDup_app.
  setoid_rewrite elem_of_cons. setoid_rewrite elem_of_app. rewrite Forall_forall in Hle. split.
  - intros ((Hm & Hms) & (Ha & Hnd) & Hp & (Hi & Hid) & Hids & (Ht1 & Htx & Ht2) & Hts).
    split; [done|]. split; [apply Hp; by left|]. split; [apply Hids; by left|]. split; [done|].
    split; [intros t Ht; apply Hts; by left|]. split_and!; [done|done| |done| |done|].
    + intros m' Hm' [= E]. apply Ha. rewrite E. by apply list_elem_of_fmap_2.
    + intros m' Hm'. rewrite elem_of_union elem_of_singleton. intros [E|?]; [|by apply (Hids m'); [right|]].
      apply Hi. rewrite -E. by apply list_elem_of_fmap_2.
    + intros t Ht. rewrite elem_of_union elem_of_list_to_set. intros [?|?]; [by apply (Htx t)|by apply (Hts t); [right|]].
  - intros (Hm & Hp & Hi & Ht1 & Hts & Hms & Hnd & Hpm & Hid & Hids & Ht2 & Hts2).
    split; [done|]. split; [split; [|done]|]; [|split; [|split; [split; [|done]|split; [|split; [split_and!; [done| |done]|]]]]].
    + intros (m' & E & Hm')%list_elem_of_fmap. by apply (Hpm m' Hm'); rewrite E.
    + intros m' [->|Hm']; [done|]. intros E. apply (Hpm m' Hm'). f_equal. specialize (Hprev _ E).
      apply (anti_symm String.le); [by apply Hle|]. done.
    + intros (m' & E & Hm')%list_elem_of_fmap. apply (Hids m' Hm'). set_solver.
    + intros m' [->|Hm']; [done|]. specialize (Hids m' Hm'). set_solver.
    + intros t Ht Ht'. specialize (Hts2 t Ht'). set_solver.
    + intros t [?|Ht]; [by apply Hts|]. specialize (Hts2 t Ht). set_solver.
Qed.

Lemma canon_loop_ok prev ids seen hm ht ms r :
  StronglySorted addr_le ms → (∀ a m, prev = Some a → m ∈ ms → String.le a (addr m)) →
  canon_loop prev ids seen hm ht ms = Ok r ↔
  ok_from prev ids seen ms
  ∧ r = (sort_tokens <$> ms, hm || existsb is_committed ms, ht || existsb has_tokens ms).
Proof.
  intros Hs. revert prev ids seen hm ht r. induction ms as [|m ms IH]; intros prev ids seen hm ht r Hprev.
  { simpl. rewrite !orb_false_r. split; [|by intros [_ ->]]. intros [= <-]. split; [|done].
    unfold ok_from. simpl. split_and!; try constructor; by intros ? ?%elem_of_nil. }
  rewrite ok_from_cons //; [intros a ->; by apply (Hprev a m); [|left]|].
  pose proof (proj1 (StronglySorted_cons _ _ _) Hs) as [Hle Hs']. specialize (IH Hs'). cbn [canon_loop].
  destruct (ValidateAddress (addr m)) as [[]|c] eqn:Ea; simpl.
  2:{ split; [done|]. intros [((H1 & H2 & H3 & _) & _) _].
      assert (ValidateAddress (addr m) = Ok tt) by by apply ValidateAddress_ok. congruence. }
  apply ValidateAddress_ok in Ea.
  case_bool_decide as Hid; [|by split; [|intros [((_&_&_&?)&_) _]]].
  case_bool_decide as Hpr; simpl; [by split; [|intros [(_&?&_) _]]|].
  case_bool_decide as Hids; [|split; [done|intros [(_&_&?&_) _]; done]].
  destruct (insert_tokens seen (merge_sort Z.le (tokens m))) as [seen'|c] eqn:Et; simpl.
  - apply insert_tokens_ok in Et as (Hnd & Hn & ->).
    assert (list_to_set (merge_sort Z.le (tokens m)) = (list_to_set (tokens m) : gset Z)) as ->.
    { apply set_eq. intros t. by rewrite !elem_of_list_to_set elem_of_merge_sort. }
    rewrite merge_sort_Permutation in Hnd.
    assert (∀ t, t ∈ tokens m → t ∉ seen) as Hn' by (intros t Ht; apply Hn; by rewrite elem_of_merge_sort). clear Hn.
    assert (bool_decide (merge_sort Z.le (tokens m) = []) = bool_decide (tokens m = [])) as ->.
    { apply bool_decide_ext. apply (sort_tokens_nil m). }
    fold (is_committed m). fold (has_tokens m).
    rewrite res_bind_Ok. split.
    + intros ([[rest hm'] ht'] & Hl & Hr). apply IH in Hl as [Hok E]; [|intros a m' [= <-] Hm'; by apply (proj1 (Forall_forall _ _) Hle)].
      injection E as -> -> ->. simpl in Hr. injection Hr as <-. split; [|by rewrite /= !orb_assoc]. unfold member_ok. naive_solver.
    + intros [(_ & _ & _ & _ & _ & Hok) ->]. eexists. split.
      * apply IH; [intros a m' [= <-] Hm'; by apply (proj1 (Forall_forall _ _) Hle)|]. split; [done|reflexivity].
      * simpl. by rewrite !orb_assoc.
  - split; [done|]. intros [(_ & _ & _ & Hnd & Hn & _) _]. exfalso.
    assert (insert_tokens seen (merge_sort Z.le (tokens m)) = Ok (list_to_set (merge_sort Z.le (tokens m)) ∪ seen)); [|congruence].
    apply insert_tokens_ok. split_and!; [by rewrite merge_sort_Permutation| |done].
    intros t. rewrite elem_of_merge_sort. apply Hn.
Qed.

#[export] Instance Exists_perm {A} (P : A → Prop) : Proper ((≡ₚ) ==> iff) (Exists P).
Proof.
  intros l1 l2 Hl. rewrite !Exists_exists. setoid_rewrite Hl. done.
Qed.

Lemma sorted_members st :
  merge_sort addr_le (members st) ≡ₚ members st ∧ StronglySorted addr_le (merge_sort addr_le (members st)).
Proof. split; [apply merge_sort_Permutation|apply StronglySorted_merge_sort; apply _]. Qed.

#[export] Instance flat_map_perm {A B} (f : A → list B) : Proper ((≡ₚ) ==> (≡ₚ)) (flat_map f).
Proof. intros l1 l2 Hl. by apply Permutation_flat_map. Qed.

Lemma Exists_has_tokens ms :
  Exists (λ m, is_committed m = true ∧ tokens m ≠ []) ms ↔ existsb has_tokens ms = true.
Proof.
  rewrite existsb_Exists !Exists_exists. split; intros (m & Hm & H); exists m; (split; [done|]); revert H;
    unfold has_tokens; rewrite andb_true_iff negb_true_iff bool_decide_eq_false; done.
Qed.

Lemma canonicalize_ok st st' : ValidateAndCanonicalizeTopologyState st = Ok st' ↔ topo_valid st ∧ st' = canon st.
Proof.
  unfold ValidateAndCanonicalizeTopologyState, canon.
  pose proof (sorted_members st) as [Hp Hs]. revert Hp Hs. generalize (merge_sort addr_le (members st)) as l.
  intros l Hp Hs.
  destruct ((0 <? version st) && (version st <=? INT64_MAX)) eqn:Hv.
  2:{ split; [done|]. intros [[[]] _]. apply andb_false_iff in Hv as [?%Z.ltb_ge|?%Z.leb_gt]; lia. }
  apply andb_true_iff in Hv as [Hv1%Z.ltb_lt Hv2%Z.leb_le].
  match goal with |- context [if ?c then _ else _] => destruct c eqn:He end.
  2:{ split; [done|]. intros [[_ Hb] _]. unfold batch_ok in Hb. destruct (activeBatch st) as [b|]; [|done].
      destruct Hb as [? _]. apply andb_false_iff in He as [?%Z.ltb_ge|?%Z.leb_gt]; lia. }
  assert (∀ b, activeBatch st = Some b → 0 < epoch b ≤ version st) as Hep.
  { intros b Eb. rewrite Eb in He. apply andb_true_iff in He as [?%Z.ltb_lt ?%Z.leb_le]. lia. }
  destruct (ValidateBatchStates st) as [[]|c] eqn:Eb; simpl.
  2:{ split; [done|]. intros [[_ Hb] _]. apply ValidateBatchStates_ok in Hb; [congruence|done]. }
  apply ValidateBatchStates_ok in Eb; [|done].
  assert (ok_from None ∅ ∅ l ↔
    Forall member_ok (members st) ∧ NoDup (addr <$> members st) ∧ NoDup (mid <$> members st)
    ∧ NoDup (flat_map tokens (members st))) as Hok.
  { assert (Forall member_ok l ↔ Forall member_ok (members st)) as <- by by rewrite Hp.
    assert (NoDup (addr <$> l) ↔ NoDup (addr <$> members st)) as <- by by rewrite Hp.
    assert (NoDup (mid <$> l) ↔ NoDup (mid <$> members st)) as <- by by rewrite Hp.
    assert (NoDup (flat_map tokens l) ↔ NoDup (flat_map tokens (members st))) as <- by by rewrite Hp.
    unfold ok_from. split; [intros (?&?&_&?&_&?&_); done|].
    intros (?&?&?&?). split_and!; try done; intros; apply not_elem_of_empty. }
  pose proof (λ r, canon_loop_ok None ∅ ∅ false false l r Hs ltac:(done)) as Hl.
  assert (existsb is_committed l = true ↔ Exists (λ m, is_committed m = true) (members st)) as Hc1.
  { by rewrite existsb_Exists Hp. }
  assert (existsb has_tokens l = true ↔ Exists (λ m, is_committed m = true ∧ tokens m ≠ []) (members st)) as Hc2.
  { by rewrite -Exists_has_tokens Hp. }
  rewrite res_bind_Ok. split.
  - intros ([[ms hm] ht] & [Hof E]%Hl & Hr). injection E as -> -> ->. apply Hok in Hof as (H1 & H2 & H3 & H4).
    simpl in Hr. destruct (negb _ || _) eqn:Ho; [|done]. injection Hr as <-. split; [|done]. split; try done.
    intros Hex. apply Hc2. apply Hc1 in Hex. rewrite Hex in Ho. by destruct (existsb has_tokens _).
  - intros [[] ->]. eexists. split; [apply Hl; split; [apply Hok; done|reflexivity]|]. simpl.
    destruct (existsb is_committed _) eqn:E1; simpl; [|done].
    rewrite (proj2 Hc2) //. by apply tv_owner0, Hc1.
Qed.

(** ** Canonical topologies *)
Lemma canon_members_perm st : members (canon st) ≡ₚ sort_tokens <$> members st.
Proof. simpl. by rewrite (proj1 (sorted_members st)). Qed.

Lemma fmap_sort_tokens {A} (f : Member → A) (ms : list Member) :
  (∀ m, f (sort_tokens m) = f m) → f <$> (sort_tokens <$> ms) = f <$> ms.
Proof. intros Hf. rewrite -list_fmap_compose. apply list_fmap_ext. intros i m _. apply Hf. Qed.

Lemma canon_addrs st : addr <$> members (canon st) ≡ₚ addr <$> members st.
Proof. rewrite canon_members_perm fmap_sort_tokens //. Qed.

Lemma canon_strict st : topo_valid st → StronglySorted (λ a b, str_lt (addr a) (addr b)) (members (canon st)).
Proof.
  intros Hv. apply (StronglySorted_strict addr_le).
  - simpl. pose proof (proj2 (sorted_members st)) as Hs. induction Hs as [|m ms Hs IH Hf]; simpl; constructor; [done|].
    apply Forall_fmap. done.
  - apply (NoDup_fmap_1 addr). rewrite canon_addrs. apply Hv.
  - intros a b Ha Hb Hle Hne. apply str_lt_iff. split; [done|]. intros E.
    apply Hne. pose proof (tv_addrs _ Hv) as Hnd. rewrite -(canon_addrs st) in Hnd. by eapply NoDup_fmap_elem.
Qed.

(** ** Indexes *)
Lemma build_index_lookup key i ms index k j :
  NoDup (key <$> ms) → (∀ m, m ∈ ms → index !! key m = None) →
  build_index key i ms index !! k = Some j ↔
  index !! k = Some j ∨ ∃ n m, ms !! n = Some m ∧ key m = k ∧ j = (i + n)%nat.
Proof.
  revert i index. induction ms as [|m ms IH]; intros i index Hnd Hn; simpl.
  { split; [by left|]. intros [?|(n & m & ? & _)]; [done|]. by rewrite lookup_nil in H. }
  rewrite fmap_cons in Hnd. apply NoDup_cons in Hnd as [Hm Hnd]. rewrite (Hn m); [by left|]. rewrite IH //.
  { intros m' Hm'. rewrite lookup_insert_ne; [|apply Hn; by right]. intros E. apply Hm. rewrite E.
    by apply list_elem_of_fmap_2. }
  rewrite lookup_insert. split.
  - intros [Hi|(n & m' & Hm' & Hk & ->)].
    + case_decide as E; [|by left]. injection Hi as <-. right. exists 0%nat, m. split_and!; [done|done|lia].
    + right. exists (S n), m'. split_and!; [done|done|lia].
  - intros [Hi|([|n] & m' & Hm' & Hk & ->)].
    + case_decide as E; [|by left]. subst. rewrite (Hn m) in Hi; [by left|done].
    + simpl in Hm'. injection Hm' as <-. left. rewrite decide_True //. f_equal. lia.
    + right. exists n, m'. split_and!; [done|done|lia].
Qed.

Lemma find_by_index st rev dig key k m :
  NoDup (key <$> members st) →
  member_at (BuildIndexes st rev dig) (build_index key 0 (members st) ∅ !! k) = Ok m ↔ m ∈ members st ∧ key m = k.
Proof.
  intros Hnd. unfold member_at. cbn [state_ BuildIndexes].
  pose proof (λ j, build_index_lookup key 0 (members st) ∅ k j Hnd (λ m _, lookup_empty _)) as Hb.
  destruct (build_index key 0 (members st) ∅ !! k) as [j|] eqn:E; simpl.
  - destruct (proj1 (Hb j) eq_refl) as [Hx|(n & m' & Hm' & Hk & ->)]; [by rewrite lookup_empty in Hx|]. simpl. rewrite Hm'.
    split; [intros [= <-]; split; [by eapply list_elem_of_lookup_2|done]|].
    intros [Hm Hkm]. f_equal. apply list_elem_of_lookup in Hm as (n' & Hn').
    assert (Some (0 + n)%nat = Some n') as [= <-]; [|congruence]. apply Hb. right. exists n', m. done.
  - split; [done|]. intros [(n & Hn)%list_elem_of_lookup Hk].
    assert (None = Some n) as E2; [|done]. apply Hb. right. exists n, m. done.
Qed.

Lemma member_at_code snap i c : member_at snap i = Fail c → c = K_NOT_FOUND.
Proof. unfold member_at. destruct (i ≫= _); [done|]. by intros [= <-]. Qed.

(** ** Cyclic successors *)

(** [m] is the next member after address [a], in address order, wrapping around. *)
Definition cyclic_next (ms : list Member) (a : string) (m : Member) : Prop :=
  m ∈ ms ∧
  ((str_lt a (addr m) ∧ ∀ m', m' ∈ ms → str_lt a (addr m') → String.le (addr m) (addr m'))
   ∨ ((∀ m', m' ∈ ms → String.le (addr m') a) ∧ ∀ m', m' ∈ ms → String.le (addr m) (addr m'))).

Lemma next_member_spec ms a m :
  StronglySorted (λ x y, str_lt (addr x) (addr y)) ms → next_member ms a = Some m ↔ cyclic_next ms a m.
Proof.
  intros Hs. assert (StronglySorted addr_le ms) as Hs'.
  { clear -Hs. induction Hs as [|x l Hs IH Hf]; constructor; [done|]. eapply Forall_impl; [exact Hf|]. intros. by apply str_lt_le. }
  assert (∀ m1 m2, m1 ∈ ms → m2 ∈ ms → addr m1 = addr m2 → m1 = m2) as Hinj.
  { assert (NoDup (addr <$> ms)) as Hnd.
    { apply (StronglySorted_NoDup str_lt). clear -Hs. induction Hs; simpl; constructor; [done|]. by apply Forall_fmap. }
    intros m1 m2 H1 H2 E. by eapply NoDup_fmap_elem. }
  unfold next_member. set (p := λ m, negb (bool_decide (str_lt a (addr m)))).
  assert (partition_point p ms = filter (λ m, p m = false) ms) as Ep.
  { apply (partition_point_filter addr_le); [done|]. intros x y Hxy. unfold p. rewrite !negb_true_iff !bool_decide_eq_false.
    rewrite !str_nlt_le. intros. by etrans. }
  assert (∀ m, p m = false ↔ str_lt a (addr m)) as Hpf.
  { intros x. unfold p. by rewrite negb_false_iff bool_decide_eq_true. }
  rewrite Ep. destruct (filter _ ms) as [|x l] eqn:Ef.
  - assert (∀ m', m' ∈ ms → String.le (addr m') a) as Hall.
    { intros m' Hm'. apply str_nlt_le. intros Hlt%Hpf. assert (m' ∈ filter (λ m, p m = false) ms) as Hin by by apply list_elem_of_filter.
      rewrite Ef in Hin. by apply elem_of_nil in Hin. }
    assert (∀ x, head ms = Some x ↔ x ∈ ms ∧ ∀ m', m' ∈ ms → String.le (addr x) (addr m')) as Hhd.
    { intros x. destruct ms as [|y l]; simpl; [split; [done|by intros [?%elem_of_nil _]]|].
      apply StronglySorted_cons in Hs' as [Hf _]. rewrite Forall_forall in Hf. split.
      - intros [= <-]. split; [by left|]. intros m' [->|?]%elem_of_cons; [done|by apply Hf].
      - intros [Hx Hm]. f_equal. apply Hinj; [by left|done|]. apply (anti_symm String.le); [|apply Hm; by left].
        apply elem_of_cons in Hx as [->|?]; [done|by apply Hf]. }
    rewrite Hhd. unfold cyclic_next. split; [intros [? ?]; auto|]. intros [Hm [[Hlt _]|[_ ?]]]; [|done].
    exfalso. specialize (Hall m Hm). by apply str_nlt_le in Hall.
  - assert (x ∈ ms ∧ str_lt a (addr x)) as [Hx Hlt].
    { assert (x ∈ filter (λ m, p m = false) ms) as Hin by (rewrite Ef; by left).
      apply list_elem_of_filter in Hin as [?%Hpf ?]. done. }
    assert (∀ m', m' ∈ ms → str_lt a (addr m') → String.le (addr x) (addr m')) as Hleast.
    { intros m' Hm' Hl. assert (m' ∈ filter (λ m, p m = false) ms) as Hin by (apply list_elem_of_filter; split; [by apply Hpf|done]).
      apply (StronglySorted_filter addr_le (λ m, p m = false)) in Hs'. rewrite Ef in Hin Hs'.
      apply StronglySorted_cons in Hs' as [Hf _]. rewrite Forall_forall in Hf.
      apply elem_of_cons in Hin as [->|?]; [done|by apply Hf]. }
    split.
    + intros [= <-]. split; [done|]. by left.
    + intros [Hm [[Hl Hle]|[Hall _]]].
      * f_equal. apply Hinj; [done|done|]. apply (anti_symm String.le); auto.
      * exfalso. specialize (Hall x Hx). by apply str_nlt_le in Hall.
Qed.

(** ** Ring successors

    The owner of a token on the ring formed by [os]: the entry with the least ring point at or after the
    token, or the least of all when the token is past the last point. *)
Definition ring_succ {A} (os : list (Z * A)) (t : Z) (a : A) : Prop :=
  ∃ p, (p, a) ∈ os ∧
    ((t ≤ p ∧ ∀ p' a', (p', a') ∈ os → t ≤ p' → p ≤ p')
     ∨ ((∀ p' a', (p', a') ∈ os → p' < t) ∧ ∀ p' a', (p', a') ∈ os → p ≤ p')).

Lemma ring_succ_unique {A} (os : list (Z * A)) t a b :
  NoDup os.*1 → ring_succ os t a → ring_succ os t b → a = b.
Proof.
  intros Hnd (p & Hp & Hpa) (q & Hq & Hqb).
  assert (p = q) as ->.
  { destruct Hpa as [[? Hm]|[Hlt Hm]], Hqb as [[? Hm']|[Hlt' Hm']].
    - specialize (Hm _ _ Hq). specialize (Hm' _ _ Hp). lia.
    - specialize (Hlt' _ _ Hp). lia.
    - specialize (Hlt _ _ Hq). lia.
    - specialize (Hm _ _ Hq). specialize (Hm' _ _ Hp). lia. }
  assert ((q, a) = (q, b)) as [= ->]; [|done]. by eapply (NoDup_fmap_elem fst).
Qed.

Lemma ring_succ_ext {A} (os os' : list (Z * A)) t a :
  (∀ x, x ∈ os ↔ x ∈ os') → ring_succ os t a ↔ ring_succ os' t a.
Proof. intros Hx. unfold ring_succ. by setoid_rewrite Hx. Qed.

Definition pt_sorted {A} (os : list (Z * A)) : Prop := StronglySorted (λ x y, x.1 ≤ y.1) os.

Lemma locate_succ {A} (os : list (Z * A)) t :
  pt_sorted os → os ≠ [] → ∃ a, LocateIndexedOwner os t = Ok a ∧ ring_succ os t a.
Proof.
  intros Hs Hne. unfold LocateIndexedOwner.
  assert (partition_point (λ o : Z * A, o.1 <? t) os = filter (λ o, (o.1 <? t) = false) os) as Ep.
  { apply (partition_point_filter (λ x y, x.1 ≤ y.1)); [done|]. intros x y ?. rewrite !Z.ltb_lt. lia. }
  assert (∀ x, x ∈ filter (λ o : Z * A, (o.1 <? t) = false) os ↔ t ≤ x.1 ∧ x ∈ os) as Hf.
  { intros x. by rewrite list_elem_of_filter Z.ltb_ge. }
  rewrite Ep. destruct (filter _ os) as [|[p a] l] eqn:Ef.
  - destruct os as [|[p a] l]; [done|]. exists a. split; [done|]. exists p. split; [by left|]. right. split.
    + intros p' a' Hin. destruct (Z.ltb_spec p' t); [done|]. exfalso.
      assert ((p', a') ∈ @nil (Z * A)) as Hx by (apply Hf; split; [done|exact Hin]). by apply elem_of_nil in Hx.
    + apply StronglySorted_cons in Hs as [Hfa _]. rewrite Forall_forall in Hfa.
      intros p' a' [[= -> ->]|Hin]%elem_of_cons; [lia|]. by apply (Hfa (p', a')).
  - exists a. split; [done|]. destruct (proj1 (Hf (p, a))) as [Ht Hin]; [by left|]. exists p. split; [done|]. left.
    split; [done|]. intros p' a' Hin' Ht'. assert ((p', a') ∈ (p, a) :: l) as Hx by (apply Hf; done).
    apply (StronglySorted_filter _ (λ o, (o.1 <? t) = false)) in Hs. rewrite Ef in Hs.
    apply StronglySorted_cons in Hs as [Hfa _]. rewrite Forall_forall in Hfa.
    apply elem_of_cons in Hx as [[= -> ->]|Hx]; [lia|]. by apply (Hfa (p', a')).
Qed.

Lemma locate_iff {A} (os : list (Z * A)) t a :
  pt_sorted os → NoDup os.*1 → os ≠ [] → LocateIndexedOwner os t = Ok a ↔ ring_succ os t a.
Proof.
  intros Hs Hnd Hne. destruct (locate_succ os t Hs Hne) as (b & -> & Hb). split; [by intros [= <-]|].
  intros Ha. f_equal. by eapply ring_succ_unique.
Qed.

Lemma owners_sorted p ms : pt_sorted (owners_of p ms).
Proof. apply (StronglySorted_merge_sort tok_le). Qed.

Lemma elem_of_owners p ms t m : (t, m) ∈ owners_of p ms ↔ m ∈ ms ∧ p m = true ∧ t ∈ tokens m.
Proof.
  unfold owners_of. rewrite elem_of_merge_sort list_elem_of_In in_flat_map. setoid_rewrite <-list_elem_of_In. split.
  - intros (m' & [Hp Hm]%list_elem_of_filter & (t' & E & Ht)%list_elem_of_fmap). injection E as -> ->. done.
  - intros (Hm & Hp & Ht). exists m. split; [by apply list_elem_of_filter|]. apply list_elem_of_fmap. by exists t.
Qed.

Lemma flat_map_filter_NoDup (p : Member → bool) ms :
  NoDup (flat_map tokens ms) → NoDup (flat_map tokens (filter (λ m, p m = true) ms)).
Proof.
  intros Hnd. induction ms as [|m ms IH]; [constructor|]. simpl in Hnd. apply NoDup_app in Hnd as (Hm & Hx & Hms).
  destruct (decide (p m = true)) as [Hp|Hp]; [|rewrite filter_cons_False //; by apply IH].
  rewrite filter_cons_True //=. apply NoDup_app. split_and!; [done| |by apply IH].
  intros t Ht Hin. apply (Hx t Ht). apply list_elem_of_In, in_flat_map in Hin as (m' & Hm' & Ht').
  apply list_elem_of_In, in_flat_map. exists m'. split; [|done]. apply list_elem_of_In.
  apply list_elem_of_In, list_elem_of_filter in Hm' as [_ ?]. done.
Qed.

Lemma owners_NoDup p ms : NoDup (flat_map tokens ms) → NoDup (owners_of p ms).*1.
Proof.
  intros Hnd. unfold owners_of. rewrite merge_sort_Permutation.
  assert ((flat_map (λ m, (λ t, (t, m)) <$> tokens m) (filter (λ m, p m = true) ms)).*1
    = flat_map tokens (filter (λ m, p m = true) ms)) as ->.
  { induction (filter (λ m, p m = true) ms) as [|m l IH]; simpl; [done|]. rewrite fmap_app IH. f_equal.
    rewrite -list_fmap_compose. apply list_fmap_id. }
  by apply flat_map_filter_NoDup.
Qed.

Lemma canon_tokens st : topo_valid st → NoDup (flat_map tokens (members (canon st))).
Proof. intros Hv. cbn [canon members]. rewrite flat_sort_tokens (proj1 (sorted_members st)). apply Hv. Qed.

Lemma Create_ok st rev dig snap :
  Create st rev dig = Ok snap → topo_valid st ∧ snap = BuildIndexes (canon st) rev dig ∧ 0 ≤ rev.
Proof.
  unfold Create. destruct ((0 <=? rev) && IsSha256Hex dig) eqn:E; [|done]. apply andb_true_iff in E as [?%Z.leb_le _].
  intros (st' & [Hv ->]%canonicalize_ok & [= <-])%res_bind_Ok. done.
Qed.

Lemma canon_valid st : topo_valid st → topo_valid (canon st).
Proof.
  intros Hv. pose proof (canon_members_perm st) as Hp. pose proof Hv as []. split; try done.
  - unfold batch_ok in *. cbn [canon activeBatch version]. destruct (activeBatch st) as [b|].
    + destruct tv_batch0 as (He & Hall & Hex). split; [done|].
      split; rewrite Hp; [by apply Forall_fmap|by apply Exists_fmap].
    + rewrite Hp. by apply Forall_fmap.
  - rewrite Hp. by apply Forall_fmap.
  - by rewrite canon_addrs.
  - rewrite Hp fmap_sort_tokens //.
  - by apply canon_tokens.
  - rewrite Hp !Exists_fmap. intros Hex. destruct (proj1 (Exists_exists _ _) (tv_owner0 Hex)) as (m & Hm & Hc & Ht).
    apply Exists_exists. exists m. split; [done|]. split; [done|]. intros E. apply Ht. by apply sort_tokens_nil.
Qed.

Lemma addr_sorted_unique (l1 l2 : list Member) :
  l1 ≡ₚ l2 → NoDup (addr <$> l1) → StronglySorted addr_le l1 → StronglySorted addr_le l2 → l1 = l2.
Proof.
  revert l2. induction l1 as [|x l1 IH]; intros l2 Hp Hnd Hs1 Hs2.
  - by apply Permutation_nil_l in Hp as ->.
  - destruct l2 as [|y l2]; [by apply Permutation_nil_r in Hp|].
    apply StronglySorted_cons in Hs1 as [Hf1 Hs1]. apply StronglySorted_cons in Hs2 as [Hf2 Hs2].
    rewrite Forall_forall in Hf1. rewrite Forall_forall in Hf2.
    assert (x = y) as ->.
    { assert (y ∈ x :: l1) as Hy by (rewrite Hp; by left). assert (x ∈ y :: l2) as Hx by (rewrite -Hp; by left).
      apply elem_of_cons in Hx as [->|Hx]; [done|]. apply elem_of_cons in Hy as [->|Hy]; [done|].
      eapply (NoDup_fmap_elem addr); [exact Hnd|by left|by right|]. apply (anti_symm String.le); [by apply Hf1|by apply Hf2]. }
    f_equal. apply IH; [by apply Permutation_cons_inv in Hp| |done|done]. by apply NoDup_cons in Hnd as [_ ?].
Qed.

Lemma sorted_merge_sort_id (l : list Member) :
  StronglySorted (λ a b, str_lt (addr a) (addr b)) l → merge_sort addr_le l = l.
Proof.
  intros Hs. assert (StronglySorted addr_le l) as Hs1.
  { clear -Hs. induction Hs as [|x l Hs IH Hf]; constructor; [done|]. eapply Forall_impl; [exact Hf|]. intros. by apply str_lt_le. }
  assert (NoDup (addr <$> l)) as Hnd.
  { apply (StronglySorted_NoDup str_lt). clear -Hs. induction Hs; simpl; constructor; [done|]. by apply Forall_fmap. }
  symmetry. apply addr_sorted_unique; [by rewrite merge_sort_Permutation|done|done|]. apply StronglySorted_merge_sort; apply _.
Qed.

Lemma merge_sort_Z_id l : merge_sort Z.le (merge_sort Z.le l) = merge_sort Z.le l.
Proof.
  apply (StronglySorted_unique Z.le); [apply StronglySorted_merge_sort; apply _..|]. apply merge_sort_Permutation.
Qed.

Lemma canon_canon st : topo_valid st → canon (canon st) = canon st.
Proof.
  intros Hv. unfold canon at 1. rewrite (sorted_merge_sort_id (members (canon st))); [by apply canon_strict|].
  unfold canon. cbn [clusterHasInit version activeBatch members]. f_equal. rewrite -list_fmap_compose.
  apply list_fmap_ext. intros i m _. unfold sort_tokens. simpl. by rewrite merge_sort_Z_id.
Qed.

(** Two workers and a joining one, used by the witnesses. *)
Definition digest0 : string := "e3b0c44298fc1c149afbf4c8996fb92427ae41e4649b934ca495991b7852b855".
Definition m1 : Member := MkMember (MkIdentity "id-000000000001x" "10.0.0.1:8001") ACTIVE [100; 3000000000].
Definition m2 : Member := MkMember (MkIdentity "id-000000000002x" "10.0.0.2:8001") ACTIVE [2000000000; 7].
Definition m3 : Member := MkMember (MkIdentity "id-000000000003x" "10.0.0.3:8001") JOINING [1000000000].
Definition demo : TopologyState := MkTopology true 5 [m2; m3; m1] (Some (MkBatch SCALE_OUT 4)).

(** ** Properties *)

(** validation accepts exactly the well-formed topologies, and its result is their canonical form:
    members ordered by address, tokens in ascending order, everything else unchanged.  Canonicalization is
    idempotent, so a canonical topology has one representation. *)
Theorem canonicalize_exact (st st' : TopologyState) :
  (ValidateAndCanonicalizeTopologyState st = Ok st' ↔ topo_valid st ∧ st' = canon st)
  ∧ (ValidateAndCanonicalizeTopologyState st = Ok st' → ValidateAndCanonicalizeTopologyState st' = Ok st').
Proof.
  split; [apply canonicalize_ok|]. intros [Hv ->]%canonicalize_ok. apply canonicalize_ok.
  split; [by apply canon_valid|]. by rewrite canon_canon.
Qed.

Lemma canonicalize_exact_witness :
  ValidateAndCanonicalizeTopologyState demo = Ok (canon demo)
  ∧ ValidateAndCanonicalizeTopologyState (canon demo) = Ok (canon demo).
Proof.
  assert (ValidateAndCanonicalizeTopologyState demo = Ok (canon demo)) as E by (vm_compute; reflexivity).
  split; [exact E|]. exact (proj2 (canonicalize_exact demo (canon demo)) E).
Defined.

(** C29: routing is total and exact.  On any snapshot with a committed member every token has exactly one
    owner: a committed member of the snapshot holding the first ring point at or after the token, wrapping
    around at the end of the ring. *)
Theorem LocateOwner_exact (st : TopologyState) (rev : Z) (dig : string) (snap : TopologySnapshot) (t : Z)
    (Hc : Create st rev dig = Ok snap) (Hex : ∃ m, m ∈ members st ∧ is_committed m = true) :
  ∃ m, LocateOwner snap t = Ok m ∧ m ∈ members (state_ snap) ∧ is_committed m = true
    ∧ ∀ m', LocateOwner snap t = Ok m' ↔ ring_succ (owners_of is_committed (members (state_ snap))) t m'.
Proof.
  apply Create_ok in Hc as (Hv & -> & _). cbn [state_ BuildIndexes]. unfold LocateOwner. cbn [committedTokenOwners_ BuildIndexes].
  pose proof (canon_valid st Hv) as Hv'. set (os := owners_of is_committed (members (canon st))).
  assert (os ≠ []) as Hne.
  { destruct Hex as (m & Hm & Hcm). assert (sort_tokens m ∈ members (canon st)) as Hm'.
    { rewrite canon_members_perm. by apply list_elem_of_fmap_2. }
    destruct (proj1 (Exists_exists _ _) (tv_owner _ Hv' (proj2 (Exists_exists _ _) (ex_intro _ _ (conj Hm' Hcm)))))
      as (m0 & Hm0 & Hc0 & Ht0). destruct (tokens m0) as [|t0 ts] eqn:Et; [done|]. intros E.
    assert ((t0, m0) ∈ os) as Hin by (apply elem_of_owners; rewrite Et; split_and!; [done|done|by left]).
    rewrite E in Hin. by apply elem_of_nil in Hin. }
  assert (pt_sorted os) as Hs by apply owners_sorted.
  assert (NoDup os.*1) as Hnd by (apply owners_NoDup; apply Hv').
  destruct (locate_succ os t Hs Hne) as (m & Hm & (p & Hp & Hsucc)). exists m. split; [done|].
  pose proof (proj1 (elem_of_owners _ _ _ _) Hp) as (? & ? & _). split_and!; [done|done|].
  intros m'. by apply locate_iff.
Qed.

Lemma LocateOwner_exact_witness :
  ∃ snap m, Create demo 9 digest0 = Ok snap ∧ LocateOwner snap 3000000001 = Ok m ∧ addr m = "10.0.0.2:8001".
Proof.
  eexists. destruct (LocateOwner_exact demo 9 digest0 (BuildIndexes (canon demo) 9 digest0) 3000000001) as (m & Hm & _).
  - vm_compute. reflexivity.
  - exists m1. split; [right; right; left|vm_compute; reflexivity].
  - exists m. split; [vm_compute; reflexivity|]. split; [exact Hm|]. vm_compute in Hm. injection Hm as <-. reflexivity.
Defined.

(** lookups and neighbours.  On a snapshot, looking a member up by address or by id finds exactly the
    member that has it; the next committed (or active) member after an address is the next one in address
    order among the committed (active) members, wrapping around, and never the member itself. *)
Theorem snapshot_lookups (st : TopologyState) (rev : Z) (dig : string) (snap : TopologySnapshot) (a i : string) (m : Member)
    (Hc : Create st rev dig = Ok snap) :
  (FindMemberByAddress snap a = Ok m ↔ m ∈ members (state_ snap) ∧ addr m = a)
  ∧ (FindMemberById snap i = Ok m ↔ m ∈ members (state_ snap) ∧ mid m = i)
  ∧ (FindNextActiveMember snap a = Ok m ↔
       cyclic_next (filter (λ m, state m = ACTIVE) (members (state_ snap))) a m ∧ addr m ≠ a)
  ∧ (FindNextCommittedMember snap a = Ok m →
       cyclic_next (filter (λ m, is_committed m = true) (members (state_ snap))) a m ∧ addr m ≠ a).
Proof.
  apply Create_ok in Hc as (Hv & -> & _). pose proof (canon_valid st Hv) as Hv'. pose proof (canon_strict st Hv) as Hs.
  assert (∀ ms, StronglySorted (λ x y, str_lt (addr x) (addr y)) ms →
    distinct_next ms a = Ok m ↔ cyclic_next ms a m ∧ addr m ≠ a) as Hd.
  { intros ms Hms. unfold distinct_next. rewrite -next_member_spec //. destruct (next_member ms a) as [m'|]; [|naive_solver].
    case_bool_decide; simpl; naive_solver. }
  split_and!.
  - apply find_by_index. apply Hv'.
  - unfold FindMemberById. case_bool_decide as Hl; [apply find_by_index; apply Hv'|]. split; [done|].
    intros [Hm <-]. destruct Hl. destruct Hv'. rewrite Forall_forall in tv_members0. by apply tv_members0.
  - apply Hd. by apply StronglySorted_filter.
  - unfold FindNextCommittedMember. case_guards; try done. apply Hd. by apply StronglySorted_filter.
Qed.

Lemma snapshot_lookups_witness :
  ∃ snap m, Create demo 9 digest0 = Ok snap ∧ FindNextActiveMember snap "10.0.0.2:8001" = Ok m
    ∧ cyclic_next (filter (λ m, state m = ACTIVE) (members (state_ snap))) "10.0.0.2:8001" m ∧ addr m = "10.0.0.1:8001".
Proof.
  eexists _, _. split; [vm_compute; reflexivity|]. split; [vm_compute; reflexivity|]. split; [|reflexivity].
  eapply (snapshot_lookups demo 9 digest0 _ "10.0.0.2:8001" "id-000000000001x"); vm_compute; reflexivity.
Defined.

(** What the lookup by identity answers on a snapshot. *)
Lemma FindExactMember_spec (st : TopologyState) (rev : Z) (dig : string) (i : MemberIdentity) (Hv : topo_valid st) :
  match FindExactMember (BuildIndexes (canon st) rev dig) i with
  | Ok m => m ∈ members (canon st) ∧ identity m = i
  | Fail c => c = K_INVALID ∧ ∀ m, m ∈ members (canon st) → identity m ≠ i
  end.
Proof.
  pose proof (canon_valid st Hv) as Hv'. set (snap := BuildIndexes (canon st) rev dig).
  unfold FindExactMember.
    assert (∀ m, m ∈ members (canon st) → identity m = i → id i ≠ "" ∧ address i ≠ "") as Hne.
    { intros m Hm <-. pose proof (tv_members _ Hv') as Hall. rewrite Forall_forall in Hall.
      destruct (Hall m Hm) as (Ha & _ & _ & Hl). split; [|done]. intros E. unfold mid in Hl. by rewrite E in Hl. }
    destruct (negb (empty_str (id i)) && negb (empty_str (address i))) eqn:Eg.
    2:{ split; [done|]. intros m Hm Hi. destruct (Hne m Hm Hi) as [H1 H2]. apply empty_str_false in H1, H2. by rewrite H1 H2 in Eg. }
    assert (∀ m, FindMemberByAddress snap (address i) = Ok m ↔ m ∈ members (canon st) ∧ addr m = address i) as Hx.
    { intros m. by apply find_by_index, Hv'. }
    destruct (FindMemberByAddress snap (address i)) as [m|c].
    - destruct (proj1 (Hx m) eq_refl) as [Hm Ha]. case_bool_decide as Ei; [done|]. split; [done|].
      intros m' Hm' <-. apply Ei. f_equal. eapply (NoDup_fmap_elem addr); [apply Hv'|done|done|done].
    - split; [done|]. intros m Hm <-. assert (Fail c = Ok m) as E by (by apply Hx). done.
Qed.

(** a migration fence is honoured only for the batch it was made for.  It is accepted exactly when the
    snapshot is at least as new, the active batch has the fence's epoch, both ends are members with the
    same identity, and their states are those of that batch (any committed source to a joining target, or
    a leaving source to a different active or pre-leaving target); a fence from a newer topology is asked
    to retry, everything else is invalid. *)
Theorem ValidateMigrationFence_exact (st : TopologyState) (rev : Z) (dig : string) (snap : TopologySnapshot)
    (fence : TopologyMigrationFence) (Hc : Create st rev dig = Ok snap) :
  (ValidateMigrationFence snap fence = Ok tt ↔
     0 ≠ topologyVersion fence ∧ topologyVersion fence ≤ version (state_ snap)
     ∧ ∃ b src dst, activeBatch (state_ snap) = Some b ∧ epoch b = batchEpoch fence
        ∧ src ∈ members (state_ snap) ∧ identity src = source fence
        ∧ dst ∈ members (state_ snap) ∧ identity dst = target fence
        ∧ ((btype b = SCALE_OUT ∧ is_committed src = true ∧ state dst = JOINING)
           ∨ (btype b = SCALE_IN ∧ state src = LEAVING ∧ IsAdmittedScaleInMigrationTargetState (state dst) = true
              ∧ source fence ≠ target fence)))
  ∧ (ValidateMigrationFence snap fence = Fail K_TRY_AGAIN ↔ version (state_ snap) < topologyVersion fence).
Proof.
  apply Create_ok in Hc as (Hv & -> & _). pose proof (canon_valid st Hv) as Hv'.
  set (snap := BuildIndexes (canon st) rev dig). change (state_ snap) with (canon st).
  pose proof (λ i, FindExactMember_spec st rev dig i Hv) as Hfind. fold snap in Hfind.
  unfold ValidateMigrationFence. change (state_ snap) with (canon st).
  destruct (Z.ltb_spec (version (canon st)) (topologyVersion fence)) as [Hlt|Hge].
  { split; [|done]. split; [done|]. intros (_ & ? & _). lia. }
  change (version (canon st)) with (version st) in *.
  destruct (Z.eqb_spec (topologyVersion fence) 0) as [E0|E0]; cbn [negb].
  { split; [|split; [done|lia]]. split; [done|]. intros (? & _). congruence. }
  assert (∀ c, c ≠ K_TRY_AGAIN → (@Fail unit c = Fail K_TRY_AGAIN ↔ version st < topologyVersion fence)) as Hretry.
  { intros c Hc. split; [congruence|lia]. }
  destruct (activeBatch (canon st)) as [b|] eqn:Eb.
  2:{ split; [|by apply Hretry]. split; [done|]. intros (_ & _ & b & _ & _ & ? & _). done. }
  assert (0 < epoch b) as Hep. { pose proof (tv_batch _ Hv') as Hb. unfold batch_ok in Hb. rewrite Eb in Hb. lia. }
  destruct (negb (batchEpoch fence =? 0) && (epoch b =? batchEpoch fence)) eqn:Ee.
  2:{ split; [|by apply Hretry]. split; [done|]. intros (_ & _ & b' & _ & _ & [= <-] & E & _).
      rewrite E Z.eqb_refl andb_true_r in Ee. apply negb_false_iff, Z.eqb_eq in Ee. lia. }
  apply andb_true_iff in Ee as [_ Ee%Z.eqb_eq].
  pose proof (Hfind (source fence)) as Hsrc. pose proof (Hfind (target fence)) as Hdst.
  assert (∀ m m' : Member, m ∈ members (canon st) → m' ∈ members (canon st) → identity m = identity m' → m = m') as Huniq.
  { intros m m' Hm Hm' E. eapply (NoDup_fmap_elem addr); [apply Hv'|done|done|]. unfold addr. by rewrite E. }
  destruct (FindExactMember snap (source fence)) as [src|c]; simpl.
  2:{ destruct Hsrc as [-> Hn]. split; [|by apply Hretry]. split; [done|]. intros (_ & _ & b' & src & dst & _ & _ & Hs & Hi & _). by destruct (Hn src Hs). }
  destruct (FindExactMember snap (target fence)) as [dst|c]; simpl.
  2:{ destruct Hdst as [-> Hn]. split; [|by apply Hretry]. split; [done|]. intros (_ & _ & b' & src' & dst & _ & _ & _ & _ & Hs & Hi & _). by destruct (Hn dst Hs). }
  destruct Hsrc as [Hs1 Hs2], Hdst as [Hd1 Hd2]. fold (is_committed src).
  match goal with |- context [if ?c then _ else _] => destruct c eqn:Eo end.
  - split; [|split; [done|lia]]. split; [|done]. intros _. split_and!; [lia|lia|]. exists b, src, dst.
    split_and!; try done. apply orb_true_iff in Eo as [Eo|Eo]; rewrite !andb_true_iff ?negb_true_iff ?bool_decide_eq_true ?bool_decide_eq_false in Eo.
    + left. naive_solver.
    + right. rewrite -Hs2 -Hd2. naive_solver.
  - split; [|by apply Hretry]. split; [done|].
    intros (_ & _ & b' & src' & dst' & [= <-] & _ & Hs1' & Hs2' & Hd1' & Hd2' & Hcase).
    assert (src' = src) as -> by (apply Huniq; [done|done|congruence]). assert (dst' = dst) as -> by (apply Huniq; [done|done|congruence]).
    apply orb_false_iff in Eo as [Eo1 Eo2]. destruct Hcase as [(H1 & H2 & H3)|(H1 & H2 & H3 & H4)].
    + by rewrite H1 H2 H3 !bool_decide_eq_true_2 in Eo1.
    + rewrite H1 H2 H3 (bool_decide_eq_false_2 (identity src = identity dst)) in Eo2; [congruence|].
      by rewrite !bool_decide_eq_true_2 in Eo2.
Qed.

Lemma ValidateMigrationFence_exact_witness :
  ∃ snap, Create demo 9 digest0 = Ok snap
    ∧ ValidateMigrationFence snap (MkFence 5 4 (identity m1) (identity m3)) = Ok tt
    ∧ ValidateMigrationFence snap (MkFence 6 4 (identity m1) (identity m3)) = Fail K_TRY_AGAIN.
Proof.
  eexists. split; [vm_compute; reflexivity|]. split; [vm_compute; reflexivity|].
  eapply (ValidateMigrationFence_exact demo 9 digest0); vm_compute; reflexivity.
Defined.
End Topology.
