(* ===== verification/HashRing.v ===== *)
(** * HashRing: token allocation and placement planning

    Model of [src/datasystem/cluster/algorithm/hash_algorithm.{h,cpp}] (the built-in consistent-hash algorithm):
    deterministic token allocation with probing, the owner lists of a topology, the difference of two
    placements as ranges of tokens, and the four planning operations.  Routing on a snapshot
    ([LocateOwner], [LocateProspectiveOwner]) is in [Topology].

    [std::sort] is a stable sort here, as in [Topology]; owner lists have distinct tokens and member lists
    distinct addresses whenever the validation has passed. *)
From S2P Require Import Prelude NetUtil MurmurHash Topology.
Import Topology.

Module HashRing.
Local Open Scope Z_scope.

Definition TOKEN_SEPARATOR : string := "#".
Definition MAX_TOKEN_PROBES : nat := Z.to_nat 1024.
Definition MAX_TOKENS_PER_MEMBER : Z := 4096.
Definition UUID_SIZE : nat := 16.
#[global] Arguments MAX_TOKEN_PROBES : simpl never.

(** [std::to_string(uint32_t)]. *)
Definition num_string (n : Z) : string := String.string_of_list_ascii (NetUtil.to_string n).

(** ** Checks *)
Fixpoint ids_loop (ids addresses : gset string) (is_ : list MemberIdentity) : res unit :=
  match is_ with
  | [] => Ok tt
  | i :: is' =>
    check! bool_decide (String.length (id i) = UUID_SIZE) && negb (empty_str (address i))
           && bool_decide (String.length (address i) ≤ MAX_MEMBER_ADDRESS_BYTES)%nat else K_INVALID in
    check! NetUtil.is_canonical (address i) else K_INVALID in
    check! bool_decide (id i ∉ ids) && bool_decide (address i ∉ addresses) else K_INVALID in
    ids_loop ({[id i]} ∪ ids) ({[address i]} ∪ addresses) is'
  end.

Definition ValidateIdentities (is_ : list MemberIdentity) : res unit := ids_loop ∅ ∅ is_.

Definition find_address (ms : list Member) (a : string) : option Member := head (filter (λ m, addr m = a) ms).

Fixpoint ValidateSelectedMembers (current : TopologyState) (selected : list MemberIdentity) : res unit :=
  match selected with
  | [] => Ok tt
  | i :: rest =>
    check! match find_address (members current) (address i) with
           | Some m => bool_decide (identity m = i) && is_committed m
           | None => false
           end else K_INVALID in
    ValidateSelectedMembers current rest
  end.

(** ** Tokens *)
Definition MakeToken (a : string) (index probe : Z) : Z :=
  let seed := (a +:+ TOKEN_SEPARATOR +:+ num_string index)%string in
  MurmurHash.Hash (if 0 <? probe then (seed +:+ TOKEN_SEPARATOR +:+ num_string probe)%string else seed).

(** The probe loop: the first free token among the remaining probes. *)
Fixpoint probe_loop (a : string) (index probe : Z) (fuel : nat) (occupied : gset Z) : option Z :=
  match fuel with
  | O => None
  | S fuel' =>
    let token := MakeToken a index probe in
    if bool_decide (token ∈ occupied) then probe_loop a index (probe + 1) fuel' occupied else Some token
  end.

Fixpoint tokens_loop (a : string) (index : Z) (count : nat) (occupied : gset Z) (acc : list Z)
    : res (gset Z * list Z) :=
  match count with
  | O => Ok (occupied, acc)
  | S count' =>
    match probe_loop a index 0 MAX_TOKEN_PROBES occupied with
    | None => Fail K_INVALID
    | Some token => tokens_loop a (index + 1) count' ({[token]} ∪ occupied) (acc ++ [token])
    end
  end.

(** Returns the occupied set and the sorted tokens. *)
Definition GenerateTokens (i : MemberIdentity) (count : Z) (occupied : gset Z) : res (gset Z * list Z) :=
  let! (occ, ts) := tokens_loop (address i) 0 (Z.to_nat count) occupied [] in
  Ok (occ, merge_sort Z.le ts).

(** ** Owners *)
Definition eligible (includeJoining activeOnly : bool) (m : Member) : bool :=
  if activeOnly then bool_decide (state m = ACTIVE)
  else IsCommittedMemberState (state m) || (includeJoining && bool_decide (state m = JOINING)).

Definition owner_le (a b : Z * MemberIdentity) : Prop := a.1 ≤ b.1.
#[export] Instance owner_le_dec : RelDecision owner_le.
Proof. intros a b. unfold owner_le. apply _. Defined.
#[export] Instance owner_le_total : Total owner_le.
Proof. intros a b. unfold owner_le. lia. Qed.
#[export] Instance owner_le_trans : Transitive owner_le.
Proof. intros a b c. unfold owner_le. lia. Qed.

Definition keeps (includeJoining activeOnly : bool) (excluded : gset string) (m : Member) : bool :=
  eligible includeJoining activeOnly m && negb (bool_decide (addr m ∈ excluded)).

Definition BuildOwners (ms : list Member) (includeJoining : bool) (excluded : gset string) (activeOnly : bool)
    : res (list (Z * MemberIdentity)) :=
  let owners := flat_map (λ m, (λ t, (t, identity m)) <$> tokens m)
                  (filter (λ m, keeps includeJoining activeOnly excluded m = true) ms) in
  check! negb (bool_decide (owners = [])) else K_NOT_READY in
  Ok (merge_sort owner_le owners).

(** [FindOwner] on a nonempty owner list; [None] on an empty one, where [front()] is undefined. *)
Definition FindOwner (owners : list (Z * MemberIdentity)) (token : Z) : option MemberIdentity :=
  match LocateIndexedOwner owners token with Ok i => Some i | Fail _ => None end.

(** ** Differences of placements *)
Definition AppendRange (ranges : list TokenRange) (f e : Z) : list TokenRange :=
  match last ranges with
  | Some r => if negb (to r =? UINT32_MAX) && (u32 (to r + 1) =? f)
              then removelast ranges ++ [MkRange (from r) e] else ranges ++ [MkRange f e]
  | None => ranges ++ [MkRange f e]
  end.

Definition boundary_of (owners : list (Z * MemberIdentity)) : list Z :=
  flat_map (λ o, if o.1 =? UINT32_MAX then [] else [u32 (o.1 + 1)]) owners.

(** [std::unique] on a sorted vector. *)
Fixpoint unique (l : list Z) : list Z :=
  match l with
  | x :: (y :: _) as l' => if x =? y then unique l' else x :: unique l'
  | l => l
  end.

Definition boundaries (fromOwners toOwners : list (Z * MemberIdentity)) : list Z :=
  unique (merge_sort Z.le (0 :: boundary_of fromOwners ++ boundary_of toOwners)).

(** The loop over consecutive boundaries; [None] if an owner list is empty. *)
Fixpoint diff_loop (fromOwners toOwners : list (Z * MemberIdentity)) (bs : list Z)
    (grouped : gmap (string * string) TopologyOwnerChange) : option (gmap (string * string) TopologyOwnerChange) :=
  match bs with
  | [] => Some grouped
  | f :: bs' =>
    let e := match bs' with b :: _ => u32 (b - 1) | [] => UINT32_MAX end in
    match FindOwner fromOwners f, FindOwner toOwners f with
    | Some src, Some dst =>
      if bool_decide (src = dst) then diff_loop fromOwners toOwners bs' grouped
      else
        let key := (address src, address dst) in
        let ranges := match grouped !! key with Some c => ch_ranges c | None => [] end in
        diff_loop fromOwners toOwners bs' (<[key := MkChange (Some src) dst (AppendRange ranges f e)]> grouped)
    | _, _ => None
    end
  end.

Definition pair_le (x y : (string * string) * TopologyOwnerChange) : Prop :=
  str_lt x.1.1 y.1.1 ∨ (x.1.1 = y.1.1 ∧ String.le x.1.2 y.1.2).
#[export] Instance pair_le_dec : RelDecision pair_le.
Proof. intros x y. unfold pair_le. apply _. Defined.

(** The changes in the order of the [std::map]: by source address, then target address. *)
Definition DiffOwners (fromOwners toOwners : list (Z * MemberIdentity)) : option (list TopologyOwnerChange) :=
  match diff_loop fromOwners toOwners (boundaries fromOwners toOwners) ∅ with
  | Some grouped => Some (merge_sort pair_le (map_to_list grouped)).*2
  | None => None
  end.

(** ** Planning *)
Record ScaleOutPlanInput := MkScaleOut { so_current : TopologyState; joining : list MemberIdentity; tokensPerMember : Z }.

Definition ident_le (a b : MemberIdentity) : Prop := String.le (address a) (address b).
#[export] Instance ident_le_dec : RelDecision ident_le.
Proof. intros a b. unfold ident_le. apply _. Defined.

Fixpoint allocate_loop (ordered : list MemberIdentity) (count : Z) (occupied : gset Z)
    : res (list (MemberIdentity * list Z)) :=
  match ordered with
  | [] => Ok []
  | i :: rest => let! (occ, ts) := GenerateTokens i count occupied in
                 let! more := allocate_loop rest count occ in Ok ((i, ts) :: more)
  end.

Definition AllocateTokens (ms : list MemberIdentity) (count : Z) : res (list (MemberIdentity * list Z)) :=
  check! (0 <? count) && (count <=? MAX_TOKENS_PER_MEMBER) else K_INVALID in
  let! _ := ValidateIdentities ms in
  allocate_loop (merge_sort ident_le ms) count ∅.

Definition BuildInitialPlacement (input : ScaleOutPlanInput) : res TopologyPlan :=
  check! bool_decide (members (so_current input) = []) && negb (bool_decide (joining input = [])) else K_INVALID in
  let! allocated := AllocateTokens (joining input) (tokensPerMember input) in
  Ok (MkPlan (MkTopology true (version (so_current input)) ((λ it, MkMember it.1 ACTIVE it.2) <$> allocated)
                (activeBatch (so_current input))) []).

Fixpoint validate_loop (ids addresses : gset string) (seen : gset Z) (hasCommitted : bool) (ms : list Member)
    : res bool :=
  match ms with
  | [] => Ok hasCommitted
  | m :: ms' =>
    check! bool_decide (String.length (mid m) = UUID_SIZE) && negb (empty_str (addr m)) else K_INVALID in
    check! bool_decide (mid m ∉ ids) && bool_decide (addr m ∉ addresses) else K_INVALID in
    let! seen' := insert_tokens seen (tokens m) in
    validate_loop ({[mid m]} ∪ ids) ({[addr m]} ∪ addresses) seen' (hasCommitted || is_committed m) ms'
  end.

Definition Validate (st : TopologyState) : res unit :=
  let! has := validate_loop ∅ ∅ ∅ false (members st) in
  check! bool_decide (members st = []) || has else K_INVALID in Ok tt.

(** The loop of [PlanScaleOut] over the joining identities. *)
Fixpoint join_loop (ms : list Member) (occupied : gset Z) (ordered : list MemberIdentity) (count : Z)
    : res (list Member) :=
  match ordered with
  | [] => Ok ms
  | i :: rest =>
    match find_address ms (address i) with
    | Some m => check! bool_decide (identity m = i) && bool_decide (state m = JOINING) else K_INVALID in
                join_loop ms occupied rest count
    | None =>
      check! negb (existsb (λ m, bool_decide (mid m = id i)) ms) else K_INVALID in
      let! (occ, ts) := GenerateTokens i count occupied in
      join_loop (ms ++ [MkMember i JOINING ts]) occ rest count
    end
  end.

Definition with_members (ms : list Member) (st : TopologyState) : TopologyState :=
  MkTopology (clusterHasInit st) (version st) ms (activeBatch st).

Definition diff_result (r : option (list TopologyOwnerChange)) : res (list TopologyOwnerChange) :=
  match r with Some c => Ok c | None => Fail K_NOT_READY end.

Definition PlanScaleOut (input : ScaleOutPlanInput) : res TopologyPlan :=
  let cur := so_current input in
  let! _ := Validate cur in
  let! _ := ValidateIdentities (joining input) in
  check! negb (bool_decide (joining input = [])) && (0 <? tokensPerMember input)
         && (tokensPerMember input <=? MAX_TOKENS_PER_MEMBER) else K_INVALID in
  let! ms := join_loop (members cur) (list_to_set (flat_map tokens (members cur)))
               (merge_sort ident_le (joining input)) (tokensPerMember input) in
  let! fromOwners := BuildOwners (members cur) false ∅ false in
  let! toOwners := BuildOwners ms true ∅ false in
  let! changes := diff_result (DiffOwners fromOwners toOwners) in
  Ok (MkPlan (with_members ms cur) changes).

Definition mark (s : MemberState) (selected : gset string) (ms : list Member) : list Member :=
  (λ m, if bool_decide (addr m ∈ selected) then with_state s m else m) <$> ms.

Definition PlanScaleIn (cur : TopologyState) (leaving : list MemberIdentity) : res TopologyPlan :=
  let! _ := Validate cur in
  let! _ := ValidateIdentities leaving in
  let! _ := ValidateSelectedMembers cur leaving in
  check! negb (bool_decide (leaving = [])) else K_INVALID in
  let excluded : gset string := list_to_set (address <$> leaving) in
  let! fromOwners := BuildOwners (members cur) false ∅ false in
  let! toOwners := BuildOwners (members cur) false excluded false in
  let! changes := diff_result (DiffOwners fromOwners toOwners) in
  Ok (MkPlan (with_members (mark PRE_LEAVING excluded (members cur)) cur) changes).

(** The changes [PlanFailure] keeps: those whose source is one of the failed members. *)
Definition from_selected (selected : gset string) (c : TopologyOwnerChange) : bool :=
  match ch_source c with Some i => bool_decide (address i ∈ selected) | None => false end.

Definition PlanFailure (cur : TopologyState) (failed : list MemberIdentity) : res TopologyPlan :=
  let! _ := Validate cur in
  let! _ := ValidateIdentities failed in
  let! _ := ValidateSelectedMembers cur failed in
  check! negb (bool_decide (failed = [])) else K_INVALID in
  let excluded : gset string := list_to_set (address <$> failed) in
  let! fromOwners := BuildOwners (members cur) false ∅ false in
  let! toOwners := BuildOwners (members cur) false excluded true in
  let! changes := diff_result (DiffOwners fromOwners toOwners) in
  Ok (MkPlan (with_members (mark FAILED excluded (members cur)) cur)
        (filter (λ c, from_selected excluded c = true) changes)).

(** ** Token allocation *)
Definition token_ok (t : Z) : Prop := 0 ≤ t ≤ UINT32_MAX.

Lemma MakeToken_range a i p : token_ok (MakeToken a i p).
Proof.
  unfold MakeToken, MurmurHash.Hash, MurmurHash.MurmurHash3_32, token_ok, UINT32_MAX.
  destruct (MurmurHash.process_body _ _) as [r rest].
  match goal with |- context [MurmurHash.Fmix (u32 ?x)] => pose proof (MurmurHash.w32_Fmix (u32 x) (MurmurHash.w32_u32 x)) as H end.
  unfold MurmurHash.w32 in H. lia.
Qed.

Lemma probe_loop_fresh a i p fuel occ t : probe_loop a i p fuel occ = Some t → (t ∉ occ) ∧ token_ok t.
Proof.
  revert p. induction fuel as [|fuel IH]; intros p; simpl; [done|]. case_bool_decide as Hin; [apply IH|].
  intros [= <-]. split; [done|apply MakeToken_range].
Qed.

Lemma tokens_loop_spec a i n occ acc occ' ts :
  tokens_loop a i n occ acc = Ok (occ', ts) →
  ∃ new, ts = acc ++ new ∧ length new = n ∧ NoDup new ∧ (∀ t, t ∈ new → t ∉ occ) ∧ Forall token_ok new
    ∧ occ' = list_to_set new ∪ occ.
Proof.
  revert i occ acc. induction n as [|n IH]; intros i occ acc; cbn [tokens_loop].
  { intros [= <- <-]. exists []. rewrite app_nil_r. split_and!; [done|done|constructor|by intros ? ?%elem_of_nil|constructor|set_solver]. }
  destruct (probe_loop a i 0 MAX_TOKEN_PROBES occ) as [t|] eqn:Et; [|done].
  apply probe_loop_fresh in Et as [Hn Hr]. intros (new & -> & Hl & Hnd & Hf & Hok & ->)%IH.
  exists (t :: new). rewrite -assoc. split_and!; [done|simpl; lia| | |by constructor|set_solver].
  - apply NoDup_cons. split; [|done]. intros Ht. specialize (Hf t Ht). set_solver.
  - intros t' [->|Ht']%elem_of_cons; [done|]. specialize (Hf t' Ht'). set_solver.
Qed.

Lemma GenerateTokens_spec i n occ occ' ts :
  GenerateTokens i n occ = Ok (occ', ts) →
  length ts = Z.to_nat n ∧ NoDup ts ∧ (∀ t, t ∈ ts → t ∉ occ) ∧ Forall token_ok ts
  ∧ StronglySorted Z.le ts ∧ occ' = list_to_set ts ∪ occ.
Proof.
  unfold GenerateTokens. intros ([occ1 ts1] & Hl & E)%res_bind_Ok. simpl in E. injection E as <- <-.
  apply tokens_loop_spec in Hl as (new & -> & Hlen & Hnd & Hf & Hok & ->). simpl.
  pose proof (merge_sort_Permutation Z.le new) as Hp. split_and!.
  - by rewrite length_merge_sort.
  - by rewrite Hp.
  - intros t. rewrite elem_of_merge_sort. apply Hf.
  - by rewrite Hp.
  - apply StronglySorted_merge_sort; apply _.
  - f_equal. apply set_eq. intros t. by rewrite !elem_of_list_to_set elem_of_merge_sort.
Qed.

(** ** Owner lists *)
Lemma elem_of_BuildOwners ms inc exc act os t i :
  BuildOwners ms inc exc act = Ok os →
  (t, i) ∈ os ↔ ∃ m, m ∈ ms ∧ identity m = i ∧ t ∈ tokens m ∧ keeps inc act exc m = true.
Proof.
  unfold BuildOwners. case_bool_decide; simpl; [done|]. intros [= <-].
  rewrite elem_of_merge_sort list_elem_of_In in_flat_map. setoid_rewrite <-list_elem_of_In. split.
  - intros (m & [Hk Hm]%list_elem_of_filter & (t' & E & Ht)%list_elem_of_fmap). injection E as -> ->. eauto.
  - intros (m & Hm & <- & Ht & Hk). exists m. split; [by apply list_elem_of_filter|]. apply list_elem_of_fmap. by exists t.
Qed.

Lemma BuildOwners_shape ms inc exc act os :
  BuildOwners ms inc exc act = Ok os → NoDup (flat_map tokens ms) → pt_sorted os ∧ NoDup os.*1 ∧ os ≠ [].
Proof.
  unfold BuildOwners. case_bool_decide as Hne; simpl; [done|]. intros [= <-] Hnd. split_and!.
  - apply (StronglySorted_merge_sort owner_le).
  - rewrite merge_sort_Permutation.
    assert ((flat_map (λ m, (λ t, (t, identity m)) <$> tokens m) (filter (λ m, keeps inc act exc m = true) ms)).*1
      = flat_map tokens (filter (λ m, keeps inc act exc m = true) ms)) as ->.
    { clear. induction (filter (λ m, keeps inc act exc m = true) ms) as [|m l IH]; simpl; [done|]. rewrite fmap_app IH. f_equal.
      rewrite -list_fmap_compose. apply list_fmap_id. }
    by apply flat_map_filter_NoDup.
  - intros E. apply Hne. apply Permutation_nil_r. by rewrite -E merge_sort_Permutation.
Qed.

Lemma FindOwner_succ os t i :
  pt_sorted os → NoDup os.*1 → os ≠ [] → FindOwner os t = Some i ↔ ring_succ os t i.
Proof.
  intros Hs Hnd Hne. rewrite -locate_iff //. unfold FindOwner. destruct (LocateIndexedOwner os t); naive_solver.
Qed.

Lemma FindOwner_total os t : pt_sorted os → os ≠ [] → ∃ i, FindOwner os t = Some i ∧ ∃ p, (p, i) ∈ os.
Proof.
  intros Hs Hne. unfold FindOwner. destruct (locate_succ os t Hs Hne) as (i & -> & (p & Hp & _)). eauto.
Qed.

(** Between two boundaries the owner does not change. *)
Lemma FindOwner_const os f t :
  pt_sorted os → NoDup os.*1 → os ≠ [] → f ≤ t → (∀ p i, (p, i) ∈ os → f ≤ p → t ≤ p) →
  FindOwner os t = FindOwner os f.
Proof.
  intros Hs Hnd Hne Hft Hgap. destruct (FindOwner_total os f Hs Hne) as (i & Hi & _). rewrite Hi.
  apply FindOwner_succ; [done..|]. apply FindOwner_succ in Hi as (p & Hp & Hcase); [|done..]. exists p. split; [done|].
  destruct Hcase as [[Hfp Hm]|[Hlt Hm]].
  - left. split; [by eapply Hgap|]. intros p' a' Hp' ?. eapply Hm; [done|lia].
  - right. split; [|done]. intros p' a' Hp'. specialize (Hlt _ _ Hp'). lia.
Qed.

(** ** Ranges *)
Definition in_range (t : Z) (r : TokenRange) : Prop := from r ≤ t ≤ to r.
Definition in_ranges (t : Z) (rs : list TokenRange) : Prop := ∃ r, r ∈ rs ∧ in_range t r.

(** Nonempty ranges in ascending order with a gap between neighbours, all of them below [bound]. *)
Definition ranges_ok (bound : Z) (rs : list TokenRange) : Prop :=
  Forall (λ r, 0 ≤ from r ≤ to r ∧ to r < bound) rs ∧ StronglySorted (λ a b, to a + 1 < from b) rs.

Lemma in_ranges_app t rs1 rs2 : in_ranges t (rs1 ++ rs2) ↔ in_ranges t rs1 ∨ in_ranges t rs2.
Proof. unfold in_ranges. setoid_rewrite elem_of_app. naive_solver. Qed.

Lemma in_ranges_single t r : in_ranges t [r] ↔ in_range t r.
Proof. unfold in_ranges. setoid_rewrite list_elem_of_singleton. naive_solver. Qed.

Lemma ranges_ok_mono b b' rs : b ≤ b' → ranges_ok b rs → ranges_ok b' rs.
Proof. intros Hb [H1 H2]. split; [|done]. eapply Forall_impl; [exact H1|]. simpl. lia. Qed.

Lemma AppendRange_ok rs f e :
  ranges_ok f rs → 0 ≤ f ≤ e → e ≤ UINT32_MAX →
  ranges_ok (e + 1) (AppendRange rs f e) ∧ ∀ t, in_ranges t (AppendRange rs f e) ↔ in_ranges t rs ∨ f ≤ t ≤ e.
Proof.
  intros [Hf Hs] Hfe He. unfold AppendRange. destruct rs as [|r0 rs0 _] using rev_ind.
  { simpl. split; [split; [repeat constructor; simpl; lia|repeat constructor]|]. intros t.
    rewrite in_ranges_single. unfold in_range. simpl. split; [auto|]. intros [(r & Hr & _)|?]; [by apply elem_of_nil in Hr|done]. }
  rewrite last_snoc removelast_last. apply Forall_app in Hf as [Hf0 Hr0]. rewrite Forall_singleton in Hr0.
  pose proof (proj1 (StronglySorted_app _ _ _) Hs) as (Hx & Hs0 & _).
  unfold UINT32_MAX in *. destruct (Z.eqb_spec (to r0) (2 ^ 32 - 1)) as [E|E]; simpl; [lia|].
  rewrite u32_small; [lia|]. destruct (Z.eqb_spec (to r0 + 1) f) as [E1|E1].
  - split; [split|].
    + apply Forall_app. split; [eapply Forall_impl; [exact Hf0|]; simpl; lia|]. apply Forall_singleton. simpl. lia.
    + apply StronglySorted_app_2; [|done|repeat constructor]. intros x y Hin ->%list_elem_of_singleton. simpl.
      apply (Hx x r0); [done|by left].
    + intros t. rewrite !in_ranges_app !in_ranges_single. unfold in_range. simpl. split; [|naive_solver lia].
      intros [?|?]; [auto|]. destruct (Z.le_gt_cases f t); [right; lia|left; right; lia].
  - split; [split|].
    + rewrite !Forall_app !Forall_singleton. split; [split|]; [eapply Forall_impl; [exact Hf0|]; simpl; lia|simpl; lia|simpl; lia].
    + apply StronglySorted_app_2; [|done|repeat constructor]. intros x y Hin ->%list_elem_of_singleton. simpl.
      apply elem_of_app in Hin as [Hin| ->%list_elem_of_singleton]; [|lia].
      specialize (Hx x r0 Hin ltac:(by left)). lia.
    + intros t. rewrite in_ranges_app in_ranges_single. unfold in_range. simpl. naive_solver.
Qed.

(** ** Boundaries *)
Lemma unique_spec l :
  StronglySorted Z.le l → StronglySorted Z.lt (unique l) ∧ (∀ x, x ∈ unique l ↔ x ∈ l) ∧ head (unique l) = head l.
Proof.
  induction 1 as [|x l Hs (IH1 & IH2 & IH3) Hf]; [by repeat constructor|].
  destruct l as [|y l]; [by split; [constructor; constructor|]|]. rewrite Forall_forall in Hf. cbn [unique].
  destruct (Z.eqb_spec x y) as [->|Hne].
  - split_and!; [done| |done]. intros z. rewrite IH2 !elem_of_cons. naive_solver.
  - split_and!; [| |done].
    + constructor; [done|]. apply Forall_forall. intros z Hz%IH2. apply StronglySorted_cons in Hs as [Hf' _].
      rewrite Forall_forall in Hf'. pose proof (Hf y ltac:(by left)).
      apply elem_of_cons in Hz as [->|Hz]; [lia|]. specialize (Hf' z Hz). lia.
    + intros z. rewrite elem_of_cons IH2. by rewrite !elem_of_cons.
Qed.

Definition owners_ok (os : list (Z * MemberIdentity)) : Prop :=
  pt_sorted os ∧ NoDup os.*1 ∧ os ≠ [] ∧ ∀ p i, (p, i) ∈ os → token_ok p.

Lemma elem_of_boundary os x :
  owners_ok os → x ∈ boundary_of os ↔ ∃ p i, (p, i) ∈ os ∧ p < UINT32_MAX ∧ x = p + 1.
Proof.
  intros (_ & _ & _ & Hr). unfold boundary_of. rewrite list_elem_of_In in_flat_map. setoid_rewrite <-list_elem_of_In. split.
  - intros ([p i] & Hp & Hx). specialize (Hr p i Hp). unfold token_ok in Hr. simpl in Hx.
    destruct (Z.eqb_spec p UINT32_MAX); [by apply elem_of_nil in Hx|]. apply list_elem_of_singleton in Hx as ->.
    exists p, i. split; [done|]. split; [lia|]. apply u32_small. unfold UINT32_MAX in *. lia.
  - intros (p & i & Hp & Hlt & ->). exists (p, i). split; [done|]. specialize (Hr p i Hp). unfold token_ok in Hr. simpl.
    destruct (Z.eqb_spec p UINT32_MAX); [lia|]. rewrite u32_small; [unfold UINT32_MAX in *; lia|]. by left.
Qed.

Lemma boundaries_spec os1 os2 :
  owners_ok os1 → owners_ok os2 →
  StronglySorted Z.lt (boundaries os1 os2) ∧ head (boundaries os1 os2) = Some 0
  ∧ (∀ x, x ∈ boundaries os1 os2 → token_ok x)
  ∧ (∀ p i, (p, i) ∈ os1 ∨ (p, i) ∈ os2 → p = UINT32_MAX ∨ p + 1 ∈ boundaries os1 os2).
Proof.
  intros H1 H2. unfold boundaries. set (l := 0 :: boundary_of os1 ++ boundary_of os2).
  assert (∀ x, x ∈ l → token_ok x) as Hok.
  { intros x. unfold l. rewrite elem_of_cons elem_of_app !elem_of_boundary //.
    destruct H1 as (_&_&_&Hr1), H2 as (_&_&_&Hr2). unfold token_ok in *.
    intros [->|[(p & i & Hp%Hr1 & ? & ->)|(p & i & Hp%Hr2 & ? & ->)]]; unfold UINT32_MAX in *; lia. }
  assert (StronglySorted Z.le (merge_sort Z.le l)) as Hs by (apply StronglySorted_merge_sort; apply _).
  destruct (unique_spec _ Hs) as (Hlt & Hin & Hhd). split_and!.
  - done.
  - rewrite Hhd. assert (0 ∈ merge_sort Z.le l) as H0 by (rewrite elem_of_merge_sort; by left).
    destruct (merge_sort Z.le l) as [|x l'] eqn:E; [by apply elem_of_nil in H0|]. simpl. f_equal.
    assert (token_ok x) as Hx. { apply Hok. rewrite -(elem_of_merge_sort Z.le) E. by left. }
    apply StronglySorted_cons in Hs as [Hf _]. rewrite Forall_forall in Hf. unfold token_ok in Hx.
    apply elem_of_cons in H0 as [->|H0]; [done|]. specialize (Hf 0 H0). lia.
  - intros x. rewrite Hin elem_of_merge_sort. apply Hok.
  - intros p i Hp. rewrite Hin elem_of_merge_sort. unfold l. rewrite elem_of_cons elem_of_app !elem_of_boundary //.
    destruct (decide (p = UINT32_MAX)) as [|Hne]; [by left|]. right. right.
    assert (token_ok p) as Ht by (destruct H1 as (_&_&_&?), H2 as (_&_&_&?), Hp; eauto). unfold token_ok in Ht.
    destruct Hp; [left|right]; exists p, i; (split; [done|]); lia.
Qed.

(** ** The difference of two placements *)
Section Diff.
Context (os1 os2 : list (Z * MemberIdentity)).
Context (H1 : owners_ok os1) (H2 : owners_ok os2).
(** An address names one member in each of the two placements. *)
Context (Hid1 : ∀ p q i j, (p, i) ∈ os1 → (q, j) ∈ os1 → address i = address j → i = j).
Context (Hid2 : ∀ p q i j, (p, i) ∈ os2 → (q, j) ∈ os2 → address i = address j → i = j).

Definition moved (t : Z) (src dst : MemberIdentity) : Prop :=
  FindOwner os1 t = Some src ∧ FindOwner os2 t = Some dst ∧ src ≠ dst.

(** The invariant of the loop at boundary [f]: the groups hold exactly the tokens below [f] that move. *)
Definition diff_inv (f : Z) (g : gmap (string * string) TopologyOwnerChange) : Prop :=
  (∀ k c, g !! k = Some c → ranges_ok f (ch_ranges c) ∧ ch_ranges c ≠ []
     ∧ (∃ i, ch_source c = Some i ∧ k = (address i, address (ch_target c)))
     ∧ ∀ t, in_ranges t (ch_ranges c) → ∃ i, ch_source c = Some i ∧ moved t i (ch_target c))
  ∧ (∀ t src dst, 0 ≤ t < f → moved t src dst →
       ∃ c, g !! (address src, address dst) = Some c ∧ in_ranges t (ch_ranges c)).

Lemma FindOwner1_elem t i : FindOwner os1 t = Some i → ∃ p, (p, i) ∈ os1.
Proof.
  destruct H1 as (Hs & _ & Hne & _). destruct (FindOwner_total os1 t Hs Hne) as (j & -> & Hp). by intros [= <-].
Qed.
Lemma FindOwner2_elem t i : FindOwner os2 t = Some i → ∃ p, (p, i) ∈ os2.
Proof.
  destruct H2 as (Hs & _ & Hne & _). destruct (FindOwner_total os2 t Hs Hne) as (j & -> & Hp). by intros [= <-].
Qed.

Lemma moved_key t u s d s' d' :
  moved t s d → moved u s' d' → address s = address s' → address d = address d' → s = s' ∧ d = d'.
Proof.
  intros ([p Hp]%FindOwner1_elem & [q Hq]%FindOwner2_elem & _)
         ([p' Hp']%FindOwner1_elem & [q' Hq']%FindOwner2_elem & _) E1 E2. eauto.
Qed.

(** One interval without a boundary inside: skipped if the owner stays. *)
Lemma diff_inv_skip f e g src :
  diff_inv f g → f ≤ e → (∀ t, f ≤ t ≤ e → FindOwner os1 t = Some src ∧ FindOwner os2 t = Some src) →
  diff_inv (e + 1) g.
Proof.
  intros [Hg Ht] Hfe Hc. split.
  - intros k c Hk. destruct (Hg k c Hk) as (? & ? & ? & ?). split_and!; [|done..]. eapply ranges_ok_mono; [|done]. lia.
  - intros t s d Hb Hm. destruct (Z.lt_ge_cases t f) as [Hlt|Hge]; [apply Ht; [lia|done]|].
    destruct (Hc t ltac:(lia)) as [E1 E2]. destruct Hm as (E3 & E4 & Hne). congruence.
Qed.

(** ... and appended to the group of its two owners otherwise. *)
Lemma diff_inv_append f e g src dst :
  diff_inv f g → 0 ≤ f ≤ e → e ≤ UINT32_MAX → (∀ t, f ≤ t ≤ e → moved t src dst) →
  let key := (address src, address dst) in
  let ranges := match g !! key with Some c => ch_ranges c | None => [] end in
  diff_inv (e + 1) (<[key := MkChange (Some src) dst (AppendRange ranges f e)]> g).
Proof.
  intros [Hg Ht] Hfe He Hc key ranges.
  assert (ranges_ok f ranges ∧ ∀ t, in_ranges t ranges → moved t src dst) as [Hok Hin].
  { unfold ranges. destruct (g !! key) as [c|] eqn:Ek.
    - destruct (Hg _ _ Ek) as (Ho & Hne & (i & Ei & Ek') & Hm). split; [done|]. intros t Hr.
      destruct (Hm t Hr) as (i' & Ei' & Hmv). rewrite Ei in Ei'. injection Ei' as <-. injection Ek' as E1 E2.
      by destruct (moved_key t f i (ch_target c) src dst Hmv (Hc f ltac:(lia)) (eq_sym E1) (eq_sym E2)) as [-> <-].
    - split; [by split; constructor|]. intros t (r & Hr & _). by apply elem_of_nil in Hr. }
  destruct (AppendRange_ok ranges f e Hok Hfe He) as [Hok' Hin']. split.
  - intros k c. rewrite lookup_insert_Some. intros [[<- <-]|[Hne Hk]]; simpl.
    + split_and!; [done| |by exists src|].
      * intros E. specialize (Hin' f). rewrite E in Hin'. destruct (proj2 Hin' ltac:(right; lia)) as (r & Hr & _).
        by apply elem_of_nil in Hr.
      * intros t. rewrite Hin'. intros [?|?]; exists src; (split; [done|]); auto.
    + destruct (Hg k c Hk) as (? & ? & ? & ?). split_and!; [|done..]. eapply ranges_ok_mono; [|done]. lia.
  - intros t s d Hb Hm. destruct (decide ((address s, address d) = key)) as [E|Hne].
    + rewrite E lookup_insert_eq. eexists. split; [done|]. simpl. rewrite Hin'.
      destruct (Z.lt_ge_cases t f) as [Hlt|Hge]; [left|right; lia].
      destruct (Ht t s d ltac:(lia) Hm) as (c & Ec & Hr). unfold ranges. rewrite -E Ec. done.
    + rewrite lookup_insert_ne //. apply Ht; [|done]. destruct (Z.lt_ge_cases t f) as [Hlt|Hge]; [lia|].
      destruct Hne. destruct (Hc t ltac:(lia)) as (E1 & E2 & _), Hm as (E3 & E4 & _). unfold key. congruence.
Qed.

(** One iteration of the loop, on the interval from [f] to [e]. *)
Lemma diff_step f e g :
  diff_inv f g → 0 ≤ f ≤ e → e ≤ UINT32_MAX →
  (∀ p i, (p, i) ∈ os1 ∨ (p, i) ∈ os2 → f ≤ p → e ≤ p) →
  ∃ src dst, FindOwner os1 f = Some src ∧ FindOwner os2 f = Some dst
    ∧ diff_inv (e + 1)
        (if bool_decide (src = dst) then g
         else let key := (address src, address dst) in
              let ranges := match g !! key with Some c => ch_ranges c | None => [] end in
              <[key := MkChange (Some src) dst (AppendRange ranges f e)]> g).
Proof.
  intros Hinv Hfe He Hgap. destruct H1 as (Hs1 & Hn1 & Hne1 & _), H2 as (Hs2 & Hn2 & Hne2 & _).
  destruct (FindOwner_total os1 f Hs1 Hne1) as (src & Es & _), (FindOwner_total os2 f Hs2 Hne2) as (dst & Ed & _).
  assert (∀ t, f ≤ t ≤ e → FindOwner os1 t = Some src ∧ FindOwner os2 t = Some dst) as Hc.
  { intros t Ht. rewrite -Es -Ed. split; (apply FindOwner_const; [done..|lia|]); intros p i Hp Hle.
    - pose proof (Hgap p i (or_introl Hp) Hle). lia.
    - pose proof (Hgap p i (or_intror Hp) Hle). lia. }
  exists src, dst. split_and!; [done..|]. case_bool_decide as E.
  - subst dst. eapply diff_inv_skip; [done|lia|done].
  - apply diff_inv_append; [done..|]. intros t Ht. by destruct (Hc t Ht).
Qed.

Lemma diff_loop_inv bs f g :
  StronglySorted Z.lt (f :: bs) → (∀ x, x ∈ f :: bs → token_ok x) →
  (∀ p i, (p, i) ∈ os1 ∨ (p, i) ∈ os2 → f ≤ p → p = UINT32_MAX ∨ p + 1 ∈ bs) →
  diff_inv f g →
  ∃ g', diff_loop os1 os2 (f :: bs) g = Some g' ∧ diff_inv (UINT32_MAX + 1) g'.
Proof.
  revert f g. induction bs as [|b bs IH]; intros f g Hs Hr Hp Hinv; pose proof (Hr f ltac:(by left)) as [Hf0 Hf1].
  - destruct (diff_step f UINT32_MAX g Hinv) as (src & dst & Es & Ed & Hi); [done|done| |].
    { intros p i Hpi Hle. destruct (Hp p i Hpi Hle) as [->|Hx]; [done|by apply elem_of_nil in Hx]. }
    cbn [diff_loop]. rewrite Es Ed. case_bool_decide; eauto.
  - apply StronglySorted_cons in Hs as [Hf Hs]. rewrite Forall_forall in Hf. pose proof (Hf b ltac:(by left)) as Hfb.
    pose proof (Hr b ltac:(right; by left)) as [Hb0 Hb1].
    assert (∀ x, x ∈ b :: bs → b ≤ x) as Hmin.
    { apply StronglySorted_cons in Hs as [Hfb' _]. rewrite Forall_forall in Hfb'.
      intros x [->|Hx]%elem_of_cons; [done|]. specialize (Hfb' x Hx). lia. }
    destruct (diff_step f (b - 1) g Hinv) as (src & dst & Es & Ed & Hi); [lia|lia| |].
    { intros p i Hpi Hle. destruct (Hp p i Hpi Hle) as [->|Hx%Hmin]; lia. }
    rewrite Z.sub_add in Hi.
    assert (u32 (b - 1) = b - 1) as Hu by (apply u32_small; unfold UINT32_MAX in *; lia).
    assert (∀ p i, (p, i) ∈ os1 ∨ (p, i) ∈ os2 → b ≤ p → p = UINT32_MAX ∨ p + 1 ∈ bs) as Hp'.
    { intros p i Hpi Hle. destruct (Hp p i Hpi ltac:(lia)) as [->|[E|Hx]%elem_of_cons]; [by left|lia|by right]. }
    assert (∀ x, x ∈ b :: bs → token_ok x) as Hr' by (intros x Hx; apply Hr; by right).
    remember (b :: bs) as l eqn:El. cbn [diff_loop]. rewrite Es Ed. subst l. rewrite Hu.
    case_bool_decide; by apply IH.
Qed.

(** The changes hold exactly the tokens whose owner differs, under their two owners. *)
Lemma DiffOwners_spec :
  ∃ changes, DiffOwners os1 os2 = Some changes
    ∧ (∀ c, c ∈ changes → ranges_ok (UINT32_MAX + 1) (ch_ranges c) ∧ ch_ranges c ≠ []
         ∧ ∃ i, ch_source c = Some i ∧ ∀ t, in_ranges t (ch_ranges c) → moved t i (ch_target c))
    ∧ (∀ t src dst, token_ok t → moved t src dst →
         ∃ c, c ∈ changes ∧ ch_source c = Some src ∧ ch_target c = dst ∧ in_ranges t (ch_ranges c)).
Proof.
  destruct (boundaries_spec os1 os2 H1 H2) as (Hs & Hhd & Hok & Hb).
  unfold DiffOwners. destruct (boundaries os1 os2) as [|f bs] eqn:Eb; [done|]. injection Hhd as ->.
  destruct (diff_loop_inv bs 0 ∅) as (g & -> & Hg & Ht); [done..| |split; [by intros ? ? ?%lookup_empty_Some|intros; lia]|].
  { intros p i Hpi Hp. destruct (Hb p i Hpi) as [?|[?|?]%elem_of_cons]; [by left|lia|by right]. }
  eexists. split; [done|].
  assert (∀ c, c ∈ (merge_sort pair_le (map_to_list g)).*2 ↔ ∃ k, g !! k = Some c) as Hin.
  { intros c. rewrite list_elem_of_fmap. setoid_rewrite elem_of_merge_sort. split.
    - intros ([k c'] & -> & Hk%elem_of_map_to_list). eauto.
    - intros [k Hk]. exists (k, c). split; [done|]. by apply elem_of_map_to_list. }
  split.
  - intros c [k Hk]%Hin. destruct (Hg k c Hk) as (? & ? & (i & Ei & _) & Hm). split_and!; [done..|]. exists i.
    split; [done|]. intros t Htr. destruct (Hm t Htr) as (i' & Ei' & ?). congruence.
  - intros t src dst [Ht0 Ht1] Hm. destruct (Ht t src dst ltac:(lia) Hm) as (c & Hk & Hr).
    exists c. split; [apply Hin; eauto|]. destruct (Hg _ _ Hk) as (_ & _ & _ & Hx). destruct (Hx t Hr) as (i & Ei & Hmv).
    destruct Hm as (E1 & E2 & _), Hmv as (E3 & E4 & _). split_and!; congruence.
Qed.
End Diff.

(** ** Valid rings *)
Record ring_valid (ms : list Member) : Prop := MkRing {
  rv_addrs : NoDup (addr <$> ms);
  rv_ids : NoDup (mid <$> ms);
  rv_tokens : NoDup (flat_map tokens ms);
  rv_range : Forall token_ok (flat_map tokens ms) }.

Lemma elem_of_tokens ms t : t ∈ flat_map tokens ms ↔ ∃ m, m ∈ ms ∧ t ∈ tokens m.
Proof. rewrite list_elem_of_In in_flat_map. by setoid_rewrite <-list_elem_of_In. Qed.

Lemma validate_loop_ok ids ads seen h ms b :
  validate_loop ids ads seen h ms = Ok b →
  NoDup (mid <$> ms) ∧ NoDup (addr <$> ms) ∧ NoDup (flat_map tokens ms)
  ∧ (∀ m, m ∈ ms → (mid m ∉ ids) ∧ (addr m ∉ ads) ∧ (∀ t, t ∈ tokens m → t ∉ seen)
       ∧ String.length (mid m) = UUID_SIZE ∧ addr m ≠ "")
  ∧ b = h || existsb is_committed ms.
Proof.
  revert ids ads seen h. induction ms as [|m ms IH]; intros ids ads seen h; cbn [validate_loop].
  { intros [= <-]. split_and!; [constructor..| |by rewrite orb_false_r]. by intros ? ?%elem_of_nil. }
  destruct (bool_decide (String.length (mid m) = UUID_SIZE) && negb (empty_str (addr m))) eqn:E1; [|done].
  destruct (bool_decide (mid m ∉ ids) && bool_decide (addr m ∉ ads)) eqn:E2; [|done].
  rewrite andb_true_iff bool_decide_eq_true negb_true_iff empty_str_false in E1.
  rewrite andb_true_iff !bool_decide_eq_true in E2. destruct E1 as [Hl Hne], E2 as [Hi Ha].
  intros (seen' & (Hnd & Hn & ->)%insert_tokens_ok & (IH1 & IH2 & IH3 & IH4 & ->)%IH)%res_bind_Ok.
  split_and!.
  - rewrite fmap_cons. apply NoDup_cons. split; [|done]. intros (m' & E & Hm')%list_elem_of_fmap.
    destruct (IH4 m' Hm') as ([Hx%not_elem_of_singleton _]%not_elem_of_union & _). by destruct Hx.
  - rewrite fmap_cons. apply NoDup_cons. split; [|done]. intros (m' & E & Hm')%list_elem_of_fmap.
    destruct (IH4 m' Hm') as (_ & [Hx%not_elem_of_singleton _]%not_elem_of_union & _). by destruct Hx.
  - simpl. apply NoDup_app. split_and!; [done| |done]. intros t Ht (m' & Hm' & Ht')%elem_of_tokens.
    destruct (IH4 m' Hm') as (_ & _ & Hs & _). 
    destruct (proj1 (not_elem_of_union _ _ _) (Hs t Ht')) as [Hx%not_elem_of_list_to_set _]. done.
  - intros m' [->|Hm']%elem_of_cons; [done|]. destruct (IH4 m' Hm') as ([_ ?]%not_elem_of_union & [_ ?]%not_elem_of_union & Hs & ? & ?).
    split_and!; [done..| |done|done]. intros t Ht. by destruct (proj1 (not_elem_of_union _ _ _) (Hs t Ht)).
  - cbn [existsb]. by rewrite orb_assoc.
Qed.

Lemma Validate_ok st :
  Validate st = Ok tt → Forall token_ok (flat_map tokens (members st)) →
  ring_valid (members st) ∧ (members st = [] ∨ ∃ m, m ∈ members st ∧ is_committed m = true).
Proof.
  unfold Validate. intros (b & (Hi & Ha & Ht & _ & ->)%validate_loop_ok & Hc)%res_bind_Ok Hr. split; [done|].
  case_bool_decide as E; [by left|]. right. simpl in Hc. destruct (existsb is_committed (members st)) eqn:Ee; [|done].
  apply existsb_Exists, Exists_exists in Ee. done.
Qed.

(** The owner of a token on the ring of the members [p] accepts. *)
Definition owner (p : Member → bool) (ms : list Member) (t : Z) (m : Member) : Prop := ring_succ (owners_of p ms) t m.

Lemma owner_elem p ms t m : owner p ms t m → m ∈ ms ∧ p m = true.
Proof. intros (q & (? & ? & _)%elem_of_owners & _). done. Qed.

Lemma owner_unique p ms t m m' : NoDup (flat_map tokens ms) → owner p ms t m → owner p ms t m' → m = m'.
Proof. intros Hnd. apply ring_succ_unique. by apply owners_NoDup. Qed.

(** Restricting a ring keeps the owners that stay on it. *)
Lemma owner_restrict p q ms ms' t m :
  (∀ x, x ∈ ms' → q x = true → x ∈ ms ∧ p x = true) → owner p ms t m → m ∈ ms' → q m = true → owner q ms' t m.
Proof.
  intros Hsub (pt & Hpt & Hcase) Hm Hq. apply elem_of_owners in Hpt as (_ & _ & Ht).
  assert (∀ p' a', (p', a') ∈ owners_of q ms' → (p', a') ∈ owners_of p ms) as Hin.
  { intros p' a' (Ha & Hqa & Hta)%elem_of_owners. apply elem_of_owners. destruct (Hsub a' Ha Hqa). done. }
  exists pt. split; [by apply elem_of_owners|].
  destruct Hcase as [[? Hmin]|[Hlt Hmin]]; [left|right]; (split; [first [done|eauto]|]); eauto.
Qed.

Lemma BuildOwners_owner ms inc exc act os :
  ring_valid ms → BuildOwners ms inc exc act = Ok os →
  owners_ok os ∧ (∀ p q i j, (p, i) ∈ os → (q, j) ∈ os → address i = address j → i = j)
  ∧ ∀ t i, FindOwner os t = Some i ↔ ∃ m, owner (keeps inc act exc) ms t m ∧ identity m = i.
Proof.
  intros Hv Hb. destruct (BuildOwners_shape _ _ _ _ _ Hb (rv_tokens _ Hv)) as (Hs & Hnd & Hne).
  pose proof (λ t i, elem_of_BuildOwners _ _ _ _ _ t i Hb) as Hin.
  assert (∀ p m, (p, m) ∈ owners_of (keeps inc act exc) ms → (p, identity m) ∈ os) as Hto.
  { intros p m (? & ? & ?)%elem_of_owners. apply Hin. eauto. }
  assert (∀ p i, (p, i) ∈ os → ∃ m, (p, m) ∈ owners_of (keeps inc act exc) ms ∧ identity m = i) as Hfrom.
  { intros p i (m & ? & ? & ? & ?)%Hin. exists m. split; [|done]. by apply elem_of_owners. }
  split_and!.
  - split_and!; [done..|]. intros p i (m & Hm & _ & Ht & _)%Hin. pose proof (rv_range _ Hv) as Hr. rewrite Forall_forall in Hr.
    apply Hr, elem_of_tokens. eauto.
  - intros p q i j (m & Hm & <- & _)%Hin (m' & Hm' & <- & _)%Hin E. f_equal.
    eapply (NoDup_fmap_elem addr); [apply Hv|done..].
  - intros t i. rewrite FindOwner_succ //. split.
    + intros (p & Hp & Hc). destruct (Hfrom p i Hp) as (m & Hm & Hi). exists m. split; [|done]. exists p. split; [done|].
      destruct Hc as [[? Hmin]|[Hlt Hmin]]; [left|right]; (split; [first [done|eauto]|]); eauto.
    + intros (m & (p & Hp & Hc) & <-). exists p. split; [by apply Hto|].
      destruct Hc as [[? Hmin]|[Hlt Hmin]]; [left|right]; (split; [try done|]); intros p' a' (m' & ? & _)%Hfrom; eauto.
Qed.

(** What a list of owner changes says about two placements, given by their owner relations. *)
Definition changes_exact (own1 own2 : Z → MemberIdentity → Prop) (changes : list TopologyOwnerChange) : Prop :=
  (∀ c, c ∈ changes → ranges_ok (UINT32_MAX + 1) (ch_ranges c) ∧ ch_ranges c ≠ [] ∧ is_Some (ch_source c))
  ∧ ∀ t s d, token_ok t →
      (∃ c, c ∈ changes ∧ ch_source c = Some s ∧ ch_target c = d ∧ in_ranges t (ch_ranges c))
      ↔ own1 t s ∧ own2 t d ∧ s ≠ d.

Definition owner_id (p : Member → bool) (ms : list Member) (t : Z) (i : MemberIdentity) : Prop :=
  ∃ m, owner p ms t m ∧ identity m = i.

Lemma DiffOwners_exact ms1 ms2 inc1 exc1 act1 inc2 exc2 act2 os1 os2 changes :
  ring_valid ms1 → ring_valid ms2 →
  BuildOwners ms1 inc1 exc1 act1 = Ok os1 → BuildOwners ms2 inc2 exc2 act2 = Ok os2 →
  diff_result (DiffOwners os1 os2) = Ok changes →
  changes_exact (owner_id (keeps inc1 act1 exc1) ms1) (owner_id (keeps inc2 act2 exc2) ms2) changes.
Proof.
  intros Hv1 Hv2 Hb1 Hb2. destruct (BuildOwners_owner _ _ _ _ _ Hv1 Hb1) as (Ho1 & Hi1 & Hf1).
  destruct (BuildOwners_owner _ _ _ _ _ Hv2 Hb2) as (Ho2 & Hi2 & Hf2).
  destruct (DiffOwners_spec os1 os2 Ho1 Ho2 Hi1 Hi2) as (cs & -> & Hc & Hm). intros [= <-]. split.
  { intros c Hin. destruct (Hc c Hin) as (? & ? & i & Ei & _). eauto. }
  intros t s d Ht. unfold owner_id. rewrite -Hf1 -Hf2. split.
  - intros (c & Hin & Es & <- & Hr). destruct (Hc c Hin) as (_ & _ & i & Ei & Hmv). rewrite Es in Ei. injection Ei as <-.
    by apply Hmv.
  - intros Hmv. apply Hm; done.
Qed.

(** ** Adding members *)
Lemma find_address_some ms a m : find_address ms a = Some m → m ∈ ms ∧ addr m = a.
Proof.
  unfold find_address. destruct (filter (λ m, addr m = a) ms) as [|m' l] eqn:E; [done|]. intros [= ->].
  assert (m ∈ filter (λ m, addr m = a) ms) as Hin by (rewrite E; left). apply list_elem_of_filter in Hin as [? ?]. done.
Qed.

Lemma find_address_none ms a : find_address ms a = None → a ∉ addr <$> ms.
Proof.
  unfold find_address. destruct (filter (λ m, addr m = a) ms) as [|m' l] eqn:E; [|done]. intros _ (m & -> & Hm)%list_elem_of_fmap.
  assert (m ∈ filter (λ m', addr m' = addr m) ms) as Hin by (by apply list_elem_of_filter). rewrite E in Hin.
  by apply elem_of_nil in Hin.
Qed.

Lemma ring_valid_snoc ms m :
  ring_valid ms → (addr m ∉ addr <$> ms) → (mid m ∉ mid <$> ms) → NoDup (tokens m) → Forall token_ok (tokens m) →
  (∀ t, t ∈ tokens m → t ∉ flat_map tokens ms) → ring_valid (ms ++ [m]).
Proof.
  intros [Ha Hi Ht Hr] Hna Hni Hnt Htr Hnew. split.
  - rewrite fmap_app. apply NoDup_app. split_and!; [done| |apply NoDup_singleton]. intros x Hx ->%list_elem_of_singleton. done.
  - rewrite fmap_app. apply NoDup_app. split_and!; [done| |apply NoDup_singleton]. intros x Hx ->%list_elem_of_singleton. done.
  - rewrite flat_map_app /= app_nil_r. apply NoDup_app. split_and!; [done| |done]. intros t Htm Htn. by apply (Hnew t).
  - rewrite flat_map_app /= app_nil_r. by apply Forall_app.
Qed.

(** The members [PlanScaleOut] ends with: those there were, then new joining ones with fresh tokens. *)
Lemma join_loop_spec ms occ ordered count ms' :
  join_loop ms occ ordered count = Ok ms' → ring_valid ms → (∀ t, t ∈ flat_map tokens ms → t ∈ occ) →
  ring_valid ms' ∧ ∃ new, ms' = ms ++ new
    ∧ (∀ m, m ∈ new → state m = JOINING ∧ identity m ∈ ordered ∧ length (tokens m) = Z.to_nat count)
    ∧ (∀ i, i ∈ ordered → ∃ m, m ∈ ms' ∧ identity m = i ∧ state m = JOINING).
Proof.
  revert ms occ. induction ordered as [|i rest IH]; intros ms occ; cbn [join_loop].
  { intros [= <-] Hv _. split; [done|]. exists []. rewrite app_nil_r. split_and!; [done|by intros ? ?%elem_of_nil..]. }
  intros Hj Hv Hocc. destruct (find_address ms (address i)) as [m|] eqn:Ef.
  - destruct (bool_decide (identity m = i) && bool_decide (state m = JOINING)) eqn:Eg; [|done].
    rewrite andb_true_iff !bool_decide_eq_true in Eg. destruct Eg as [Ei Es].
    destruct (IH ms occ Hj Hv Hocc) as (Hv' & new & -> & Hnew & Hsel). split; [done|]. exists new. split_and!; [done| |].
    + intros m' (? & ? & ?)%Hnew. split_and!; [done|by right|done].
    + apply find_address_some in Ef as [Hm _]. intros j [->|Hin]%elem_of_cons; [|by apply Hsel]. exists m.
      split; [|done]. apply elem_of_app. by left.
  - destruct (existsb (λ m, bool_decide (mid m = id i)) ms) eqn:Ec; [done|]. cbn [negb] in Hj.
    apply res_bind_Ok in Hj as ([occ' ts] & (Hlen & Hnd & Hfresh & Hok & _ & ->)%GenerateTokens_spec & Hj).
    apply existsb_none in Ec. rewrite Forall_forall in Ec.
    destruct (IH _ _ Hj) as (Hv' & new & -> & Hnew & Hsel).
    + apply ring_valid_snoc; simpl; [done|by apply find_address_none| |done|done|].
      * intros (m & E & Hm)%list_elem_of_fmap. specialize (Ec m Hm). by rewrite bool_decide_eq_true_2 in Ec.
      * intros t Ht Hin. by apply (Hfresh t Ht), Hocc.
    + intros t. rewrite flat_map_app /= app_nil_r elem_of_app elem_of_union elem_of_list_to_set. intros [?%Hocc|?]; auto.
    + split; [done|]. exists (MkMember i JOINING ts :: new). rewrite -assoc. split_and!; [done| |].
      * intros m' [->|(? & ? & ?)%Hnew]%elem_of_cons; [split_and!; [done|by left|done]|split_and!; [done|by right|done]].
      * intros j [->|Hin]%elem_of_cons; [|specialize (Hsel j Hin); by rewrite -assoc in Hsel].
        exists (MkMember i JOINING ts). split; [|done]. apply elem_of_app. right. by left.
Qed.

(** ** Selections *)
Lemma ids_loop_ok ids ads is_ :
  ids_loop ids ads is_ = Ok tt →
  NoDup (id <$> is_) ∧ NoDup (address <$> is_)
  ∧ ∀ i, i ∈ is_ → (id i ∉ ids) ∧ (address i ∉ ads) ∧ String.length (id i) = UUID_SIZE ∧ address i ≠ ""
      ∧ (String.length (address i) ≤ MAX_MEMBER_ADDRESS_BYTES)%nat ∧ NetUtil.is_canonical (address i) = true.
Proof.
  revert ids ads. induction is_ as [|i is_ IH]; intros ids ads; cbn [ids_loop].
  { intros _. split_and!; [constructor..|by intros ? ?%elem_of_nil]. }
  match goal with |- context [if ?b then _ else _] => destruct b eqn:E1; [|done] end.
  destruct (NetUtil.is_canonical (address i)) eqn:E2; [|done].
  destruct (bool_decide (id i ∉ ids) && bool_decide (address i ∉ ads)) eqn:E3; [|done].
  rewrite !andb_true_iff !bool_decide_eq_true negb_true_iff empty_str_false in E1.
  rewrite andb_true_iff !bool_decide_eq_true in E3. destruct E1 as [[? ?] ?], E3 as [? ?].
  intros (Hi & Ha & Hin)%IH. split_and!.
  - rewrite fmap_cons. apply NoDup_cons. split; [|done]. intros (j & E & Hj)%list_elem_of_fmap.
    destruct (Hin j Hj) as ([Hx%not_elem_of_singleton _]%not_elem_of_union & _). by destruct Hx.
  - rewrite fmap_cons. apply NoDup_cons. split; [|done]. intros (j & E & Hj)%list_elem_of_fmap.
    destruct (Hin j Hj) as (_ & [Hx%not_elem_of_singleton _]%not_elem_of_union & _). by destruct Hx.
  - intros j [->|Hj]%elem_of_cons; [done|]. destruct (Hin j Hj) as ([_ ?]%not_elem_of_union & [_ ?]%not_elem_of_union & ?). done.
Qed.

Lemma ValidateSelectedMembers_ok cur sel :
  ValidateSelectedMembers cur sel = Ok tt → ∀ i, i ∈ sel → ∃ m, m ∈ members cur ∧ identity m = i ∧ is_committed m = true.
Proof.
  induction sel as [|i sel IH]; cbn [ValidateSelectedMembers]; [by intros _ ? ?%elem_of_nil|].
  destruct (find_address (members cur) (address i)) as [m|] eqn:Ef; [|done].
  destruct (bool_decide (identity m = i) && is_committed m) eqn:E; [|done]. apply find_address_some in Ef as [Hm _].
  apply andb_true_iff in E as [Ei%bool_decide_eq_true Hc]. intros Hs j [->|Hj]%elem_of_cons; [|by apply IH]. eauto.
Qed.

(** A member is selected by address exactly when its identity is. *)
Lemma selected_iff cur sel m :
  ring_valid (members cur) → (∀ i, i ∈ sel → ∃ m, m ∈ members cur ∧ identity m = i ∧ is_committed m = true) →
  m ∈ members cur → addr m ∈ (list_to_set (address <$> sel) : gset string) ↔ identity m ∈ sel.
Proof.
  intros Hv Hs Hm. rewrite elem_of_list_to_set. split; [|intros Hi; exact (list_elem_of_fmap_2 address _ _ Hi)].
  intros (i & E & Hi)%list_elem_of_fmap. destruct (Hs i Hi) as (m' & Hm' & <- & _).
  by rewrite (NoDup_fmap_elem addr (members cur) m m' (rv_addrs _ Hv) Hm Hm' E).
Qed.

Lemma owner_ext p q ms t m : (∀ x, x ∈ ms → p x = q x) → owner p ms t m ↔ owner q ms t m.
Proof.
  intros E. apply ring_succ_ext. intros [pt x]. rewrite !elem_of_owners. split; intros (Hx & Hp & Ht); (split_and!; [done| |done]); [by rewrite -E|by rewrite E].
Qed.

Lemma owner_id_ext p q ms t i : (∀ x, x ∈ ms → p x = q x) → owner_id p ms t i ↔ owner_id q ms t i.
Proof. intros E. unfold owner_id. by setoid_rewrite (owner_ext p q ms t _ E). Qed.

Lemma keeps_committed m : keeps false false ∅ m = is_committed m.
Proof. unfold keeps, eligible. by rewrite (bool_decide_eq_false_2 _ (not_elem_of_empty (addr m))) orb_false_r andb_true_r. Qed.

Lemma keeps_joining m : keeps true false ∅ m = is_committed m || bool_decide (state m = JOINING).
Proof. unfold keeps, eligible. by rewrite (bool_decide_eq_false_2 _ (not_elem_of_empty (addr m))) andb_true_r. Qed.

Lemma BuildOwners_total ms inc exc act os :
  ring_valid ms → BuildOwners ms inc exc act = Ok os → ∀ t, ∃ i, owner_id (keeps inc act exc) ms t i.
Proof.
  intros Hv Hb t. destruct (BuildOwners_owner _ _ _ _ _ Hv Hb) as ((Hs & _ & Hne & _) & _ & Hf).
  destruct (FindOwner_total os t Hs Hne) as (i & Hi & _). exists i. by apply Hf.
Qed.

Lemma changes_inhabited own1 own2 changes c :
  changes_exact own1 own2 changes → c ∈ changes →
  ∃ t s, token_ok t ∧ own1 t s ∧ own2 t (ch_target c) ∧ s ≠ ch_target c.
Proof.
  intros [Hok Hx] Hc. destruct (Hok c Hc) as ([Hf _] & Hne & [s Hs]). destruct (ch_ranges c) as [|r rs] eqn:Er; [done|].
  apply Forall_cons in Hf as [Hr _]. assert (token_ok (from r)) as Ht by (unfold token_ok; lia).
  exists (from r), s. split; [done|]. apply Hx; [done|]. exists c. rewrite Er. split_and!; [done..|].
  exists r. split; [by left|]. unfold in_range. lia.
Qed.

(** A removal of members from the ring, as owner changes: each token of a removed member goes to its owner
    on the ring that remains, and no other token moves. *)
Definition handoff (p q : Member → bool) (ms : list Member) (sel : list MemberIdentity)
    (changes : list TopologyOwnerChange) : Prop :=
  (∀ c, c ∈ changes → ranges_ok (UINT32_MAX + 1) (ch_ranges c) ∧ ch_ranges c ≠ [] ∧ is_Some (ch_source c))
  ∧ (∀ t s d, token_ok t →
      (∃ c, c ∈ changes ∧ ch_source c = Some s ∧ ch_target c = d ∧ in_ranges t (ch_ranges c))
      ↔ owner_id p ms t s ∧ owner_id q ms t d ∧ s ∈ sel)
  ∧ ∀ t, ∃ d, owner_id q ms t d.

(** Removing the selected members: the kept ring [q] is part of the ring [p] without them. *)
Lemma handoff_of p q ms sel changes :
  ring_valid ms → (∀ x, x ∈ ms → q x = true → p x = true ∧ identity x ∉ sel) →
  (∀ t, ∃ d, owner_id q ms t d) →
  (∀ c, c ∈ changes → ranges_ok (UINT32_MAX + 1) (ch_ranges c) ∧ ch_ranges c ≠ [] ∧ is_Some (ch_source c)) →
  (∀ t s d, token_ok t →
      (∃ c, c ∈ changes ∧ ch_source c = Some s ∧ ch_target c = d ∧ in_ranges t (ch_ranges c))
      ↔ owner_id p ms t s ∧ owner_id q ms t d ∧ s ≠ d ∧ s ∈ sel) →
  handoff p q ms sel changes.
Proof.
  intros Hv Hsub Htot Hr Hx. split; [done|]. split; [|done]. intros t s d Ht. rewrite Hx //. split; [naive_solver|].
  intros (Hs & Hd & Hin). split_and!; [done|done| |done]. intros ->.
  destruct Hd as (m & Hm & <-). apply owner_elem in Hm as [Hm Hq]. by destruct (Hsub m Hm Hq).
Qed.

(** A token that moves when [q] keeps the unselected members moves away from a selected one. *)
Lemma moved_source p q ms (sel : list MemberIdentity) t s d :
  ring_valid ms → (∀ x, x ∈ ms → q x = true ↔ p x = true ∧ identity x ∉ sel) →
  owner_id p ms t s → owner_id q ms t d → s ≠ d → s ∈ sel.
Proof.
  intros Hv Hq (m & Hm & <-) (m' & Hm' & <-) Hne. destruct (decide (identity m ∈ sel)) as [|Hn]; [done|]. destruct Hne.
  pose proof (owner_elem _ _ _ _ Hm) as [Hin Hp]. f_equal. eapply owner_unique; [apply Hv| |exact Hm'].
  eapply owner_restrict; [|exact Hm|done|by apply Hq]. intros x Hx Hqx. split; [done|]. by apply Hq.
Qed.

(** ** What the plans promise

    Each planning operation has its promise as a predicate on input and plan, which the callers of the
    algorithm rely on. *)
Definition prospective (m : Member) : bool := is_committed m || bool_decide (state m = JOINING).

Definition initial_promise (input : ScaleOutPlanInput) (plan : TopologyPlan) : Prop :=
  next plan = MkTopology true (version (so_current input)) (members (next plan)) (activeBatch (so_current input))
  ∧ ring_valid (members (next plan))
  ∧ (identity <$> members (next plan)) = merge_sort ident_le (joining input)
  ∧ (∀ m, m ∈ members (next plan) → state m = ACTIVE ∧ StronglySorted Z.le (tokens m)
       ∧ length (tokens m) = Z.to_nat (tokensPerMember input) ∧ tokens m ≠ [])
  ∧ ownerChanges plan = [].

Definition scale_out_promise (input : ScaleOutPlanInput) (plan : TopologyPlan) : Prop :=
  let cur := members (so_current input) in let nxt := members (next plan) in
  next plan = with_members nxt (so_current input)
  ∧ ring_valid nxt
  ∧ (∃ new, nxt = cur ++ new ∧ ∀ m, m ∈ new → state m = JOINING ∧ identity m ∈ joining input
       ∧ length (tokens m) = Z.to_nat (tokensPerMember input) ∧ tokens m ≠ [])
  ∧ (∀ i, i ∈ joining input → ∃ m, m ∈ nxt ∧ identity m = i ∧ state m = JOINING)
  ∧ changes_exact (owner_id is_committed cur) (owner_id prospective nxt) (ownerChanges plan)
  ∧ ∀ c, c ∈ ownerChanges plan → ∃ m, m ∈ nxt ∧ identity m = ch_target c ∧ state m = JOINING.

(** The members of [sel] in state [s], the others as they are. *)
Definition marked (s : MemberState) (sel : list MemberIdentity) (ms : list Member) : list Member :=
  (λ m, if bool_decide (identity m ∈ sel) then with_state s m else m) <$> ms.

Definition scale_in_promise (cur : TopologyState) (leaving : list MemberIdentity) (plan : TopologyPlan) : Prop :=
  next plan = with_members (marked PRE_LEAVING leaving (members cur)) cur
  ∧ (∀ i, i ∈ leaving → ∃ m, m ∈ members cur ∧ identity m = i ∧ is_committed m = true)
  ∧ handoff is_committed (λ m, is_committed m && negb (bool_decide (identity m ∈ leaving))) (members cur) leaving
      (ownerChanges plan).

Definition failure_promise (cur : TopologyState) (failed : list MemberIdentity) (plan : TopologyPlan) : Prop :=
  next plan = with_members (marked FAILED failed (members cur)) cur
  ∧ failed ≠ [] ∧ (∀ i, i ∈ failed → ∃ m, m ∈ members cur ∧ identity m = i ∧ is_committed m = true)
  ∧ handoff is_committed (λ m, bool_decide (state m = ACTIVE) && negb (bool_decide (identity m ∈ failed))) (members cur)
      failed (ownerChanges plan).

Lemma PlanScaleOut_spec input plan :
  Forall token_ok (flat_map tokens (members (so_current input))) → PlanScaleOut input = Ok plan →
  scale_out_promise input plan.
Proof.
  intros Hr Hp. unfold scale_out_promise. set (cur := members (so_current input)). unfold PlanScaleOut in Hp. apply res_bind_Ok in Hp as ([] & HV & Hp).
  apply res_bind_Ok in Hp as ([] & _ & Hp). destruct (_ && _) eqn:Eg in Hp; [|done].
  apply andb_true_iff in Eg as [[_ Hpos%Z.ltb_lt]%andb_true_iff _].
  apply res_bind_Ok in Hp as (ms & Hj & Hp). apply res_bind_Ok in Hp as (os1 & Hb1 & Hp).
  apply res_bind_Ok in Hp as (os2 & Hb2 & Hp). apply res_bind_Ok in Hp as (cs & Hd & [= <-]). cbn [next with_members members ownerChanges].
  destruct (Validate_ok _ HV Hr) as [Hv _].
  destruct (join_loop_spec _ _ _ _ _ Hj Hv) as (Hv' & new & -> & Hnew & Hsel).
  { intros t Ht. by apply elem_of_list_to_set. }
  assert (changes_exact (owner_id is_committed cur) (owner_id prospective (cur ++ new)) cs) as Hx.
  { destruct (DiffOwners_exact _ _ _ _ _ _ _ _ _ _ _ Hv Hv' Hb1 Hb2 Hd) as [H1 H2]. split; [done|]. intros t s d Ht.
    rewrite H2 // -(owner_id_ext _ is_committed cur t s (λ x _, keeps_committed x)).
    by rewrite -(owner_id_ext _ prospective (cur ++ new) t d (λ x _, keeps_joining x)). }
  split; [done|]. split_and!; [done| | |done|].
  - exists new. split; [done|]. intros m Hm. destruct (Hnew m Hm) as (? & Hi & Hl). rewrite elem_of_merge_sort in Hi.
    split_and!; [done..|]. intros E0. rewrite E0 /= in Hl. lia.
  - intros i Hi. apply Hsel. by rewrite elem_of_merge_sort.
  - intros c Hc. destruct (changes_inhabited _ _ _ _ Hx Hc) as (t & s & Ht & (m1 & Ho1 & Ei1) & (m2 & Ho2 & Ei2) & Hne).
    pose proof (owner_elem _ _ _ _ Ho2) as [Hin Hpm]. exists m2. split_and!; [done|done|]. unfold prospective in Hpm.
    destruct (decide (state m2 = JOINING)) as [|Hnj]; [done|]. rewrite bool_decide_eq_false_2 // orb_false_r in Hpm.
    destruct Hne. rewrite -Ei1 -Ei2. f_equal. eapply owner_unique; [apply Hv|exact Ho1|].
    eapply owner_restrict; [|exact Ho2| |done].
    + intros x Hx' Hc'. split; [apply elem_of_app; by left|]. unfold prospective. by rewrite Hc'.
    + apply elem_of_app in Hin as [|Hin]; [done|]. by destruct (Hnew m2 Hin) as [? _].
Qed.

(** The two removals share their validation. *)
Lemma excluded_iff cur (sel : list MemberIdentity) p m :
  ring_valid (members cur) → (∀ i, i ∈ sel → ∃ m, m ∈ members cur ∧ identity m = i ∧ is_committed m = true) →
  m ∈ members cur →
  p m && negb (bool_decide (addr m ∈ (list_to_set (address <$> sel) : gset string)))
  = p m && negb (bool_decide (identity m ∈ sel)).
Proof. intros Hv Hs Hm. f_equal. f_equal. apply bool_decide_ext. by apply (selected_iff cur). Qed.

Lemma PlanScaleIn_spec cur leaving plan :
  Forall token_ok (flat_map tokens (members cur)) → PlanScaleIn cur leaving = Ok plan → scale_in_promise cur leaving plan.
Proof.
  intros Hr Hp. unfold PlanScaleIn in Hp. apply res_bind_Ok in Hp as ([] & HV & Hp). apply res_bind_Ok in Hp as ([] & _ & Hp).
  apply res_bind_Ok in Hp as ([] & Hs & Hp). destruct (negb _) eqn:Eg in Hp; [|done].
  apply res_bind_Ok in Hp as (os1 & Hb1 & Hp). apply res_bind_Ok in Hp as (os2 & Hb2 & Hp).
  apply res_bind_Ok in Hp as (cs & Hd & [= <-]). destruct (Validate_ok _ HV Hr) as [Hv _].
  pose proof (ValidateSelectedMembers_ok _ _ Hs) as Hsel. unfold scale_in_promise. cbn [next ownerChanges]. split; [|split; [done|]].
  { f_equal. unfold mark, marked. apply list_fmap_ext. intros k m Hm%list_elem_of_lookup_2.
    by rewrite (bool_decide_ext _ _ (selected_iff cur leaving m Hv Hsel Hm)). }
  set (q := λ m, is_committed m && negb (bool_decide (identity m ∈ leaving))).
  assert (∀ x, x ∈ members cur → keeps false false (list_to_set (address <$> leaving)) x = q x) as Hq.
  { intros x Hx. unfold q. rewrite -(excluded_iff cur leaving is_committed x Hv Hsel Hx) /keeps /eligible orb_false_r //. }
  destruct (DiffOwners_exact _ _ _ _ _ _ _ _ _ _ _ Hv Hv Hb1 Hb2 Hd) as [H1 H2].
  assert (∀ x, x ∈ members cur → q x = true ↔ is_committed x = true ∧ identity x ∉ leaving) as Hq'.
  { intros x _. unfold q. by rewrite andb_true_iff negb_true_iff bool_decide_eq_false. }
  apply handoff_of; [done|by intros x Hx ?%Hq'| |done|].
  - intros t. destruct (BuildOwners_total _ _ _ _ _ Hv Hb2 t) as [d Hd']. exists d. by apply (owner_id_ext _ q _ _ _ Hq).
  - intros t s d Ht. rewrite H2 // -(owner_id_ext _ q _ t d Hq) -(owner_id_ext _ is_committed _ t s (λ x _, keeps_committed x)).
    split; [|naive_solver]. intros (Ho1 & Ho2 & Hne). split_and!; [done..|].
    apply (moved_source is_committed q (members cur) leaving t s d); [done|done| | |done].
    + by apply (owner_id_ext _ is_committed _ t s (λ x _, keeps_committed x)).
    + by apply (owner_id_ext _ q _ t d Hq).
Qed.

Lemma PlanFailure_spec cur failed plan :
  Forall token_ok (flat_map tokens (members cur)) → PlanFailure cur failed = Ok plan → failure_promise cur failed plan.
Proof.
  intros Hr Hp. unfold PlanFailure in Hp. apply res_bind_Ok in Hp as ([] & HV & Hp). apply res_bind_Ok in Hp as ([] & _ & Hp).
  apply res_bind_Ok in Hp as ([] & Hs & Hp). destruct (negb _) eqn:Eg in Hp; [|done].
  apply res_bind_Ok in Hp as (os1 & Hb1 & Hp). apply res_bind_Ok in Hp as (os2 & Hb2 & Hp).
  apply res_bind_Ok in Hp as (cs & Hd & [= <-]). destruct (Validate_ok _ HV Hr) as [Hv _].
  pose proof (ValidateSelectedMembers_ok _ _ Hs) as Hsel. unfold failure_promise. cbn [next ownerChanges].
  apply negb_true_iff, bool_decide_eq_false in Eg. split; [|split; [done|split; [done|]]].
  { f_equal. unfold mark, marked. apply list_fmap_ext. intros k m Hm%list_elem_of_lookup_2.
    by rewrite (bool_decide_ext _ _ (selected_iff cur failed m Hv Hsel Hm)). }
  set (q := λ m, bool_decide (state m = ACTIVE) && negb (bool_decide (identity m ∈ failed))).
  assert (∀ x, x ∈ members cur → keeps false true (list_to_set (address <$> failed)) x = q x) as Hq.
  { intros x Hx. unfold q. by rewrite -(excluded_iff cur failed (λ m, bool_decide (state m = ACTIVE)) x Hv Hsel Hx) /keeps /eligible. }
  destruct (DiffOwners_exact _ _ _ _ _ _ _ _ _ _ _ Hv Hv Hb1 Hb2 Hd) as [H1 H2].
  apply handoff_of; [done| | | |].
  - intros x Hx Hqx. unfold q in Hqx. rewrite andb_true_iff negb_true_iff bool_decide_eq_true bool_decide_eq_false in Hqx.
    destruct Hqx as [Ha ?]. split; [|done]. unfold is_committed. by rewrite Ha.
  - intros t. destruct (BuildOwners_total _ _ _ _ _ Hv Hb2 t) as [d Hd']. exists d. by apply (owner_id_ext _ q _ _ _ Hq).
  - intros c [_ Hc]%list_elem_of_filter. by apply H1.
  - intros t s d Ht. setoid_rewrite list_elem_of_filter.
    rewrite -(owner_id_ext _ q _ t d Hq) -(owner_id_ext _ is_committed _ t s (λ x _, keeps_committed x)).
    assert (owner_id (keeps false false ∅) (members cur) t s →
      address s ∈ (list_to_set (address <$> failed) : gset string) ↔ s ∈ failed) as Hsf.
    { intros (m & Hm & <-). apply owner_elem in Hm as [Hm _]. by apply (selected_iff cur). }
    specialize (H2 t s d Ht). split.
    + intros (c & [Hf Hc] & Es & Ed & Hin). destruct (proj1 H2) as (Ho1 & Ho2 & Hne); [by exists c|].
      split_and!; [done..|]. apply Hsf; [done|]. unfold from_selected in Hf. rewrite Es in Hf. by apply bool_decide_eq_true in Hf.
    + intros (Ho1 & Ho2 & Hne & Hin). destruct (proj2 H2) as (c & Hc & Es & Ed & Htr); [done|]. exists c.
      split_and!; [|done..]. unfold from_selected. rewrite Es. apply bool_decide_eq_true. by apply Hsf.
Qed.

(** The tokens of a whole allocation. *)
Lemma allocate_loop_spec ordered count occ ts :
  allocate_loop ordered count occ = Ok ts →
  ts.*1 = ordered ∧ NoDup (flat_map snd ts)
  ∧ (∀ it, it ∈ ts → length it.2 = Z.to_nat count ∧ StronglySorted Z.le it.2 ∧ Forall token_ok it.2 ∧ ∀ t, t ∈ it.2 → t ∉ occ).
Proof.
  revert occ ts. induction ordered as [|i rest IH]; intros occ ts; cbn [allocate_loop].
  { intros [= <-]. split_and!; [done|constructor|by intros ? ?%elem_of_nil]. }
  intros ([occ' t0] & (Hlen & Hnd & Hf & Hok & Hso & ->)%GenerateTokens_spec & Hr)%res_bind_Ok.
  apply res_bind_Ok in Hr as (more & (E & Hnd' & Hall)%IH & [= <-]). split_and!.
  - rewrite fmap_cons. by f_equal.
  - simpl. apply NoDup_app. split_and!; [done| |done]. intros t Ht Hin.
    apply list_elem_of_In, in_flat_map in Hin as (it & Hit%list_elem_of_In & Hti%list_elem_of_In).
    destruct (Hall it Hit) as (_ & _ & _ & Hn). specialize (Hn t Hti).
    apply not_elem_of_union in Hn as [Hx%not_elem_of_list_to_set _]. done.
  - intros it [->|Hit]%elem_of_cons; [done|]. destruct (Hall it Hit) as (? & ? & ? & Hn). split_and!; [done..|].
    intros t Ht. by destruct (proj1 (not_elem_of_union _ _ _) (Hn t Ht)).
Qed.

Lemma BuildInitialPlacement_spec input plan : BuildInitialPlacement input = Ok plan → initial_promise input plan.
Proof.
  intros Hp. unfold BuildInitialPlacement in Hp. destruct (_ && _) eqn:Eg in Hp; [|done].
  apply res_bind_Ok in Hp as (al & Ha & [= <-]). unfold AllocateTokens in Ha. destruct (_ && _) eqn:Ec in Ha; [|done].
  apply andb_true_iff in Ec as [Hpos%Z.ltb_lt _].
  apply res_bind_Ok in Ha as ([] & (Hi & Had & _)%ids_loop_ok & (E & Hnd & Hall)%allocate_loop_spec).
  unfold initial_promise. cbn [next members version activeBatch ownerChanges].
  set (ms := (λ it, MkMember it.1 ACTIVE it.2) <$> al).
  assert (identity <$> ms = merge_sort ident_le (joining input)) as Eid by (rewrite -E /ms -list_fmap_compose; done).
  assert (flat_map tokens ms = flat_map snd al) as Et.
  { unfold ms. clear. induction al as [|it al IH]; [done|]. simpl. by rewrite IH. }
  assert (∀ f : MemberIdentity → string, (λ m, f (identity m)) <$> ms ≡ₚ f <$> joining input) as Hperm.
  { intros f. rewrite -(merge_sort_Permutation ident_le (joining input)) -Eid -list_fmap_compose. done. }
  split; [done|]. split_and!; [|done| |done].
  - split.
    + by rewrite (Hperm address).
    + by rewrite (Hperm id).
    + by rewrite Et.
    + rewrite Et. apply Forall_forall. intros t Hin.
      apply list_elem_of_In, in_flat_map in Hin as (it & Hit%list_elem_of_In & Hti%list_elem_of_In).
      destruct (Hall it Hit) as (_ & _ & Hok & _). rewrite Forall_forall in Hok. by apply Hok.
  - intros m (it & -> & Hit)%list_elem_of_fmap. destruct (Hall it Hit) as (Hl & ? & _). split_and!; [done..|]. intros E0.
    simpl in E0. rewrite E0 /= in Hl. lia.
Qed.

(** ** Properties *)

(** C13: a scale-out plan moves as little as possible.  The planned topology is a valid ring that extends the
    current one by the requested members, JOINING and with tokens of their own; the owner changes hold
    exactly the tokens whose owner on the planned ring differs from today's, under the right two members,
    and every one of them moves to a joining member. *)
Theorem PlanScaleOut_exact (input : ScaleOutPlanInput) (plan : TopologyPlan)
    (Hr : Forall token_ok (flat_map tokens (members (so_current input)))) (Hp : PlanScaleOut input = Ok plan) :
  scale_out_promise input plan.
Proof. by apply PlanScaleOut_spec. Qed.

Definition stable : TopologyState := MkTopology true 5 [m1; m2] None.

Lemma PlanScaleOut_exact_witness :
  ∃ plan, PlanScaleOut (MkScaleOut stable [identity m3] 2) = Ok plan ∧ length (ownerChanges plan) = 1%nat
    ∧ ∀ c, c ∈ ownerChanges plan → ∃ m, m ∈ members (next plan) ∧ identity m = ch_target c ∧ state m = JOINING.
Proof.
  destruct (PlanScaleOut (MkScaleOut stable [identity m3] 2)) as [plan|] eqn:E; [|by vm_compute in E].
  exists plan. split; [reflexivity|]. split; [vm_compute in E; by injection E as <-|].
  apply (PlanScaleOut_exact (MkScaleOut stable [identity m3] 2) plan); [|exact E].
  apply (bool_decide_unpack _). vm_compute. exact I.
Defined.

(** a scale-in plan hands over exactly the leaving members' tokens.  The leaving members are marked
    PRE_LEAVING and nothing else of the topology changes; every token they own today is in a range of an
    owner change to its owner on the ring of the remaining committed members, which exists for every token,
    and no other token is in any range. *)
Theorem PlanScaleIn_exact (cur : TopologyState) (leaving : list MemberIdentity) (plan : TopologyPlan)
    (Hr : Forall token_ok (flat_map tokens (members cur))) (Hp : PlanScaleIn cur leaving = Ok plan) :
  scale_in_promise cur leaving plan.
Proof. by apply PlanScaleIn_spec. Qed.

Lemma PlanScaleIn_exact_witness :
  ∃ plan, PlanScaleIn stable [identity m1] = Ok plan
    ∧ (∃ c, c ∈ ownerChanges plan ∧ ch_source c = Some (identity m1) ∧ ch_target c = identity m2 ∧ in_ranges 2500000000 (ch_ranges c))
    ∧ handoff is_committed (λ m, is_committed m && negb (bool_decide (identity m ∈ [identity m1]))) (members stable) [identity m1]
      (ownerChanges plan).
Proof.
  destruct (PlanScaleIn stable [identity m1]) as [plan|] eqn:E; [|by vm_compute in E].
  exists plan. split; [reflexivity|]. split.
  - vm_compute in E. injection E as <-. eexists. split; [by left|]. split; [done|]. split; [done|].
    exists (MkRange 2000000001 3000000000). split; [apply (bool_decide_unpack _); vm_compute; exact I|]. unfold in_range. simpl. lia.
  - apply (PlanScaleIn_exact stable [identity m1] plan); [|exact E]. apply (bool_decide_unpack _). vm_compute. exact I.
Defined.

(** a failure plan leaves no token of a failed member behind.  The failed members are marked FAILED;
    every token they own today is in a range of an owner change to its owner on the ring of the ACTIVE
    members that have not failed, which exists for every token, and no token of a surviving member is in
    any range. *)
Theorem PlanFailure_exact (cur : TopologyState) (failed : list MemberIdentity) (plan : TopologyPlan)
    (Hr : Forall token_ok (flat_map tokens (members cur))) (Hp : PlanFailure cur failed = Ok plan) :
  failure_promise cur failed plan.
Proof. by apply PlanFailure_spec. Qed.

Definition degraded : TopologyState := MkTopology true 5 [m1; m2; with_state PRE_LEAVING m3] None.

Lemma PlanFailure_exact_witness :
  ∃ plan, PlanFailure degraded [identity m1] = Ok plan ∧ length (ownerChanges plan) = 1%nat
    ∧ handoff is_committed (λ m, bool_decide (state m = ACTIVE) && negb (bool_decide (identity m ∈ [identity m1])))
        (members degraded) [identity m1] (ownerChanges plan).
Proof.
  destruct (PlanFailure degraded [identity m1]) as [plan|] eqn:E; [|by vm_compute in E].
  exists plan. split; [reflexivity|]. split; [vm_compute in E; by injection E as <-|].
  apply (PlanFailure_exact degraded [identity m1] plan); [|exact E]. apply (bool_decide_unpack _). vm_compute. exact I.
Defined.

(** the first placement is a valid ring of exactly the requested members, in address order: each of them
    ACTIVE with the configured number of ascending tokens in range, no token and no identity twice. *)
Theorem BuildInitialPlacement_exact (input : ScaleOutPlanInput) (plan : TopologyPlan)
    (Hp : BuildInitialPlacement input = Ok plan) :
  initial_promise input plan.
Proof. by apply BuildInitialPlacement_spec. Qed.

Lemma BuildInitialPlacement_exact_witness :
  ∃ plan, BuildInitialPlacement (MkScaleOut (MkTopology false 0 [] None) [identity m2; identity m1] 2) = Ok plan
    ∧ ring_valid (members (next plan)).
Proof.
  destruct (BuildInitialPlacement (MkScaleOut (MkTopology false 0 [] None) [identity m2; identity m1] 2)) as [plan|] eqn:E;
    [|by vm_compute in E].
  exists plan. split; [reflexivity|].
  apply (BuildInitialPlacement_exact (MkScaleOut (MkTopology false 0 [] None) [identity m2; identity m1] 2) plan). exact E.
Defined.
End HashRing.
