(* ===== verification/PlanBuilder.v ===== *)
(** * PlanBuilder: topology state transitions

    Model of [src/datasystem/cluster/control/topology_plan_builder.{h,cpp}]: the pure construction of the next
    topology from the latest one, for bootstrap and for the start, replan and finalization of the three
    kinds of batch.  The builder calls the placement algorithm through [IPlanningAlgorithm]
    ([topology_algorithm.h]); that interface is a class of operations with the promises the builder relies
    on, which [HashRing] discharges.

    [FLAGS_hash_ring_tokens_per_member] is a parameter.  Topology versions are 64-bit. *)
From S2P Require Import Prelude NetUtil Topology HashRing.
Import Topology HashRing.

(** ** The algorithm the builder plans with *)
Class PlanningOps := {
  pa_initial : ScaleOutPlanInput → res TopologyPlan;
  pa_scale_out : ScaleOutPlanInput → res TopologyPlan;
  pa_scale_in : TopologyState → list MemberIdentity → res TopologyPlan;
  pa_failure : TopologyState → list MemberIdentity → res TopologyPlan;
  pa_validate : TopologyState → res unit }.

Class PlanningLaws `{PlanningOps} := {
  law_initial input plan : pa_initial input = Ok plan → initial_promise input plan;
  law_scale_out input plan :
    Forall token_ok (flat_map tokens (members (so_current input))) → pa_scale_out input = Ok plan →
    scale_out_promise input plan;
  law_scale_in cur leaving plan :
    Forall token_ok (flat_map tokens (members cur)) → pa_scale_in cur leaving = Ok plan →
    scale_in_promise cur leaving plan;
  law_failure cur failed plan :
    Forall token_ok (flat_map tokens (members cur)) → pa_failure cur failed = Ok plan → failure_promise cur failed plan;
  law_validate st :
    Forall token_ok (flat_map tokens (members st)) → pa_validate st = Ok tt → ring_valid (members st) }.

#[export] Instance HashAlgorithm_ops : PlanningOps := {
  pa_initial := BuildInitialPlacement; pa_scale_out := PlanScaleOut; pa_scale_in := PlanScaleIn;
  pa_failure := PlanFailure; pa_validate := Validate }.

#[export] Instance HashAlgorithm_laws : PlanningLaws.
Proof.
  split; [apply BuildInitialPlacement_spec|apply PlanScaleOut_spec|apply PlanScaleIn_spec|apply PlanFailure_spec|].
  intros st Hr Hv. by destruct (Validate_ok st Hv Hr).
Qed.

Module PlanBuilder.
Local Open Scope Z_scope.

(** ** Helpers *)
Definition find_identity (ms : list Member) (i : MemberIdentity) : option Member := head (filter (λ m, identity m = i) ms).

Fixpoint selected_loop (ms : list Member) (s : MemberState) (addresses : gset string) (selected : list MemberIdentity)
    : res unit :=
  match selected with
  | [] => Ok tt
  | i :: rest =>
    check! match find_identity ms i with Some m => bool_decide (state m = s) | None => false end else K_INVALID in
    check! bool_decide (address i ∉ addresses) else K_INVALID in
    selected_loop ms s ({[address i]} ∪ addresses) rest
  end.

Definition ValidateSelected (latest : TopologyState) (selected : list MemberIdentity) (s : MemberState) : res unit :=
  check! negb (bool_decide (selected = [])) else K_INVALID in
  selected_loop (members latest) s ∅ selected.

Definition next_version (latest : TopologyState) : Z := u64 (version latest + 1).

Definition AdvanceEpoch (latest : TopologyState) (type : TopologyChangeType) (plan : TopologyPlan) : TopologyPlan :=
  MkPlan (MkTopology (clusterHasInit (next plan)) (next_version latest) (members (next plan))
            (Some (MkBatch type (next_version latest)))) (ownerChanges plan).

Definition MembersInState (st : TopologyState) (s : MemberState) : list MemberIdentity :=
  identity <$> filter (λ m, state m = s) (members st).

Definition RemoveMembers (st : TopologyState) (addresses : gset string) : TopologyState :=
  with_members (filter (λ m, addr m ∉ addresses) (members st)) st.

Definition ValidateBatch (latest : TopologyState) (type : TopologyChangeType) : res unit :=
  check! match activeBatch latest with Some b => bool_decide (btype b = type) | None => false end else K_INVALID in Ok tt.

Definition addresses_of (is_ : list MemberIdentity) : gset string := list_to_set (address <$> is_).

(** A topology with these members at the next version and this batch. *)
Definition commit_as (latest : TopologyState) (ms : list Member) (batch : option ActiveBatch) : TopologyState :=
  MkTopology (clusterHasInit latest) (next_version latest) ms batch.

Definition is_stable (st : TopologyState) : bool := bool_decide (activeBatch st = None).

(** ** Operations *)
Section Builder.
Context `{PlanningOps} (tokens_per_member : Z).

Definition BuildBootstrap (latest : TopologyState) (ready : list MemberIdentity) : res TopologyState :=
  check! negb (existsb is_committed (members latest)) && is_stable latest else K_INVALID in
  let! _ := ValidateSelected latest ready INITIAL in
  let! built := pa_initial (MkScaleOut (MkTopology false 0 [] None) ready tokens_per_member) in
  let rest := filter (λ m, addr m ∉ addresses_of ready) (members latest) in
  let nxt := MkTopology (clusterHasInit latest || clusterHasInit (next built)) (next_version latest)
               (members (next built) ++ rest) (activeBatch (next built)) in
  let! _ := pa_validate nxt in Ok nxt.

Definition BuildScaleOutStart (latest : TopologyState) (selected : list MemberIdentity) : res TopologyPlan :=
  check! clusterHasInit latest && is_stable latest else K_INVALID in
  let! _ := ValidateSelected latest selected INITIAL in
  let current := RemoveMembers latest (addresses_of selected) in
  let! built := pa_scale_out (MkScaleOut current selected tokens_per_member) in
  let built := AdvanceEpoch latest SCALE_OUT built in
  let! _ := pa_validate (next built) in Ok built.

Definition BuildScaleOutReplan (latest : TopologyState) (failedJoining : list MemberIdentity) : res TopologyPlan :=
  let! _ := ValidateBatch latest SCALE_OUT in
  let! _ := ValidateSelected latest failedJoining JOINING in
  let retained := RemoveMembers latest (addresses_of failedJoining) in
  match MembersInState retained JOINING with
  | [] => Ok (MkPlan (commit_as latest (members retained) None) [])
  | joining => let! built := pa_scale_out (MkScaleOut retained joining tokens_per_member) in
               Ok (AdvanceEpoch latest SCALE_OUT built)
  end.

Definition to_leaving (selected : list MemberIdentity) (m : Member) : Member :=
  if bool_decide (state m = PRE_LEAVING) && bool_decide (identity m ∈ selected) then with_state LEAVING m else m.

Definition BuildScaleInStart (latest : TopologyState) (selected : list MemberIdentity) : res TopologyPlan :=
  check! clusterHasInit latest && is_stable latest else K_INVALID in
  let! _ := ValidateSelected latest selected PRE_LEAVING in
  let! built := pa_scale_in latest selected in
  Ok (AdvanceEpoch latest SCALE_IN
        (MkPlan (with_members (to_leaving selected <$> members (next built)) (next built)) (ownerChanges built))).

(** The failed members as ACTIVE ones: what the failure is planned on. *)
Definition revive (m : Member) : Member := if bool_decide (state m = FAILED) then with_state ACTIVE m else m.

Definition fail_by_address (addresses : gset string) (m : Member) : Member :=
  if bool_decide (addr m ∈ addresses) then with_state FAILED m else m.

(** [iter->state = member.state] on the first member of the plan with this identity. *)
Fixpoint set_state (i : MemberIdentity) (s : MemberState) (ms : list Member) : list Member :=
  match ms with
  | [] => []
  | m :: ms' => if bool_decide (identity m = i) then with_state s m :: ms' else m :: set_state i s ms'
  end.

Definition ordinary_fact (addresses : gset string) (m : Member) : bool :=
  (bool_decide (state m = JOINING) || bool_decide (state m = LEAVING)) && negb (bool_decide (addr m ∈ addresses)).

Definition preserve_facts (addresses : gset string) (latest planned : list Member) : list Member :=
  foldl (λ ms m, if ordinary_fact addresses m then set_state (identity m) (state m) ms else ms) planned latest.

Definition BuildFailureStartOrReplan (latest : TopologyState) (confirmed : list MemberIdentity) : res TopologyPlan :=
  check! clusterHasInit latest else K_INVALID in
  let planning := with_members (revive <$> members latest) latest in
  check! forallb (λ m, negb (bool_decide (state m = FAILED)) || bool_decide (identity m ∈ confirmed)) (members latest)
    else K_INVALID in
  let failed := addresses_of confirmed in
  if negb (existsb (λ m, bool_decide (state m = ACTIVE) && negb (bool_decide (addr m ∈ failed))) (members latest))
  then Ok (AdvanceEpoch latest FAILURE (MkPlan (with_members (fail_by_address failed <$> members latest) latest) []))
  else
    let! built := pa_failure planning confirmed in
    let ms := preserve_facts failed (members latest) (members (next built)) in
    Ok (AdvanceEpoch latest FAILURE (MkPlan (with_members ms (next built)) (ownerChanges built))).

Definition activate (m : Member) : Member := if bool_decide (state m = JOINING) then with_state ACTIVE m else m.

Definition BuildScaleOutFinal (latest : TopologyState) : res TopologyState :=
  let! _ := ValidateBatch latest SCALE_OUT in
  check! negb (bool_decide (MembersInState latest JOINING = [])) else K_INVALID in
  Ok (commit_as latest (activate <$> members latest) None).

Definition BuildScaleInFinal (latest : TopologyState) : res TopologyState :=
  let! _ := ValidateBatch latest SCALE_IN in
  let leaving := MembersInState latest LEAVING in
  check! negb (bool_decide (leaving = [])) else K_INVALID in
  Ok (commit_as latest (members (RemoveMembers latest (addresses_of leaving))) None).

Definition BuildFailureFinal (latest : TopologyState) : res TopologyState :=
  let! _ := ValidateBatch latest FAILURE in
  let failed := MembersInState latest FAILED in
  check! negb (bool_decide (failed = [])) else K_INVALID in
  let built := RemoveMembers latest (addresses_of failed) in
  if negb (existsb is_committed (members built)) then Ok (commit_as latest [] None)
  else if negb (bool_decide (MembersInState built JOINING = []))
  then Ok (commit_as latest (members built) (Some (MkBatch SCALE_OUT (next_version latest))))
  else if negb (bool_decide (MembersInState built LEAVING = []))
  then Ok (commit_as latest (members built) (Some (MkBatch SCALE_IN (next_version latest))))
  else Ok (commit_as latest (members built) None).

Definition exiting (m : Member) : bool := match state m with PRE_LEAVING | LEAVING => true | _ => false end.

Definition BuildClusterShutdownFinal (latest : TopologyState) : res TopologyState :=
  check! negb (bool_decide (members latest = [])) else K_INVALID in
  check! forallb exiting (members latest) else K_INVALID in
  Ok (commit_as latest [] None).
End Builder.

(** ** The invariant of planned topologies *)
Definition has_state (s : MemberState) (ms : list Member) : Prop := ∃ m, m ∈ ms ∧ state m = s.

Record plan_inv (st : TopologyState) : Prop := MkPlanInv {
  pi_version : 0 < version st ≤ INT64_MAX;
  pi_batch : batch_ok st;
  pi_members : Forall member_ok (members st);
  pi_ring : ring_valid (members st);
  pi_tokens : ∀ m, m ∈ members st → state m ≠ INITIAL → tokens m ≠ [];
  pi_mix : ¬ (has_state JOINING (members st) ∧ has_state LEAVING (members st)) }.

Lemma plan_inv_valid st : plan_inv st → topo_valid st.
Proof.
  intros [Hv Hb Hm [Ha Hi Ht Hr] Hne _]. split; try done. intros (m & Hin & Hc)%Exists_exists.
  apply Exists_exists. exists m. split; [done|]. split; [done|]. apply Hne; [done|]. intros E. unfold is_committed in Hc. by rewrite E in Hc.
Qed.

(** Changes of state only. *)
Definition keeps_place (f : Member → Member) : Prop := ∀ m, identity (f m) = identity m ∧ tokens (f m) = tokens m.

Lemma keeps_place_tokens f ms : keeps_place f → flat_map tokens (f <$> ms) = flat_map tokens ms.
Proof. intros Hf. induction ms as [|m ms IH]; [done|]. simpl. by rewrite (proj2 (Hf m)) IH. Qed.

Lemma keeps_place_fmap {A} (g : MemberIdentity → A) f (ms : list Member) :
  keeps_place f → (λ m, g (identity m)) <$> (f <$> ms) = (λ m, g (identity m)) <$> ms.
Proof. intros Hf. rewrite -list_fmap_compose. apply list_fmap_ext. intros k m _. simpl. by rewrite (proj1 (Hf m)). Qed.

Lemma ring_valid_fmap f ms : keeps_place f → ring_valid ms → ring_valid (f <$> ms).
Proof.
  intros Hf [Ha Hi Ht Hr]. split; rewrite ?keeps_place_tokens //.
  - by rewrite (keeps_place_fmap address f ms Hf).
  - by rewrite (keeps_place_fmap id f ms Hf).
Qed.

Lemma member_ok_fmap f ms : keeps_place f → Forall member_ok ms → Forall member_ok (f <$> ms).
Proof.
  intros Hf Hm. apply Forall_fmap. eapply Forall_impl; [exact Hm|]. intros m. unfold member_ok, addr, mid. simpl.
  by rewrite (proj1 (Hf m)).
Qed.

Lemma flat_map_filter_sub (P : Member → Prop) `{∀ m, Decision (P m)} ms t :
  t ∈ flat_map tokens (filter P ms) → t ∈ flat_map tokens ms.
Proof. rewrite !elem_of_tokens. intros (m & [_ Hm]%list_elem_of_filter & Ht). eauto. Qed.

Lemma NoDup_fmap_filter {A B} (g : A → B) (P : A → Prop) `{∀ x, Decision (P x)} l :
  NoDup (g <$> l) → NoDup (g <$> filter P l).
Proof.
  induction l as [|x l IH]; [done|]. rewrite fmap_cons. intros [Hn Hnd]%NoDup_cons.
  destruct (decide (P x)) as [Hx|Hx]; [rewrite filter_cons_True // fmap_cons|rewrite filter_cons_False //; by apply IH].
  apply NoDup_cons. split; [|by apply IH]. intros (y & E & [_ Hy]%list_elem_of_filter)%list_elem_of_fmap. apply Hn. rewrite E.
  by apply list_elem_of_fmap_2.
Qed.

Lemma ring_valid_filter (P : Member → Prop) `{∀ m, Decision (P m)} ms : ring_valid ms → ring_valid (filter P ms).
Proof.
  intros [Ha Hi Ht Hr]. split; [by apply NoDup_fmap_filter..| |].
  - assert (filter P ms = filter (λ m, bool_decide (P m) = true) ms) as ->.
    { apply list_filter_iff. intros m. by rewrite bool_decide_eq_true. }
    by apply flat_map_filter_NoDup.
  - rewrite Forall_forall in Hr. apply Forall_forall. intros t Hin. apply Hr. by eapply flat_map_filter_sub.
Qed.

Lemma next_version_small st : 0 < version st < INT64_MAX → next_version st = version st + 1.
Proof. intros Hv. unfold next_version. apply u64_small. unfold INT64_MAX in Hv. lia. Qed.

Lemma removed_elem st sel m :
  m ∈ members (RemoveMembers st (addresses_of sel)) ↔ m ∈ members st ∧ addr m ∉ address <$> sel.
Proof.
  unfold RemoveMembers, addresses_of. cbn [members with_members]. rewrite list_elem_of_filter not_elem_of_list_to_set. tauto.
Qed.

Lemma find_identity_some ms i m : find_identity ms i = Some m → m ∈ ms ∧ identity m = i.
Proof.
  unfold find_identity. destruct (filter (λ m, identity m = i) ms) as [|m' l] eqn:E; [done|]. intros [= ->].
  assert (m ∈ filter (λ m, identity m = i) ms) as Hin by (rewrite E; left). apply list_elem_of_filter in Hin as [? ?]. done.
Qed.

Lemma selected_loop_ok ms s seen sel :
  selected_loop ms s seen sel = Ok tt →
  NoDup (address <$> sel) ∧ ∀ i, i ∈ sel → (address i ∉ seen) ∧ ∃ m, m ∈ ms ∧ identity m = i ∧ state m = s.
Proof.
  revert seen. induction sel as [|i sel IH]; intros seen; cbn [selected_loop].
  { intros _. split; [constructor|by intros ? ?%elem_of_nil]. }
  destruct (find_identity ms i) as [m|] eqn:Ef; [|done]. case_bool_decide as Es; [|done].
  case_bool_decide as Ea; [|done]. intros [Hnd Hall]%IH. apply find_identity_some in Ef as [Hm Hi]. split.
  - rewrite fmap_cons. apply NoDup_cons. split; [|done]. intros (j & E & Hj)%list_elem_of_fmap.
    destruct (Hall j Hj) as [[Hx%not_elem_of_singleton _]%not_elem_of_union _]. by destruct Hx.
  - intros j [->|Hj]%elem_of_cons; [split; [done|by exists m]|]. destruct (Hall j Hj) as [[_ ?]%not_elem_of_union ?]. done.
Qed.

Lemma ValidateSelected_ok latest sel s :
  ValidateSelected latest sel s = Ok tt →
  sel ≠ [] ∧ NoDup (address <$> sel) ∧ ∀ i, i ∈ sel → ∃ m, m ∈ members latest ∧ identity m = i ∧ state m = s.
Proof.
  unfold ValidateSelected. case_bool_decide; [done|]. intros [Hnd Hall]%selected_loop_ok. split_and!; [done..|].
  intros i Hi. by apply Hall.
Qed.

(** ** Every operation preserves the invariant *)
Lemma batch_no_mix st :
  batch_ok st → match activeBatch st with Some b => btype b ≠ FAILURE | None => True end →
  ¬ (has_state JOINING (members st) ∧ has_state LEAVING (members st)).
Proof.
  intros Hb Hn [(m & Hm & Em) (m' & Hm' & Em')]. unfold batch_ok in Hb. destruct (activeBatch st) as [b|].
  - destruct Hb as (_ & Hall & _). rewrite Forall_forall in Hall. pose proof (Hall m Hm) as H1. pose proof (Hall m' Hm') as H2.
    rewrite Em in H1. rewrite Em' in H2. by destruct (btype b).
  - rewrite Forall_forall in Hb. specialize (Hb m Hm). unfold transitional in Hb. by rewrite Em in Hb.
Qed.

(** What a step at version [v] has to establish for its members and batch. *)
Definition batch_fits (v : Z) (ms : list Member) (batch : option ActiveBatch) : Prop :=
  match batch with
  | None => ∀ m, m ∈ ms → transitional m = false
  | Some b => epoch b = v + 1 ∧ (∀ m, m ∈ ms → MatchesBatch (state m) (btype b) = true)
              ∧ (∃ m, m ∈ ms ∧ participant (btype b) m = true)
              ∧ (btype b = FAILURE → ¬ (has_state JOINING ms ∧ has_state LEAVING ms))
  end.

Lemma plan_inv_intro init v ms batch :
  0 < v < INT64_MAX → Forall member_ok ms → ring_valid ms → (∀ m, m ∈ ms → state m ≠ INITIAL → tokens m ≠ []) →
  batch_fits v ms batch → plan_inv (MkTopology init (v + 1) ms batch).
Proof.
  intros Hv Hm Hr Ht Hf. set (st := MkTopology init (v + 1) ms batch).
  assert (batch_ok st) as Hb.
  { unfold batch_ok, batch_fits in *. cbn [activeBatch version members st]. destruct batch as [b|].
    - destruct Hf as (E & Hall & Hex & _). split; [lia|]. split; [by apply Forall_forall|by apply Exists_exists].
    - by apply Forall_forall. }
  split; [cbn [version st]; lia|done..|]. destruct batch as [b|]; [|by apply batch_no_mix].
  destruct (decide (btype b = FAILURE)) as [E|E]; [by apply Hf|]. apply batch_no_mix; [done|]. done.
Qed.

Lemma inv_members st m : plan_inv st → m ∈ members st → member_ok m.
Proof. intros [_ _ Hm _ _ _] Hin. rewrite Forall_forall in Hm. by apply Hm. Qed.

Lemma stable_member st m : plan_inv st → activeBatch st = None → m ∈ members st → transitional m = false.
Proof. intros [_ Hb _ _ _ _] E Hm. unfold batch_ok in Hb. rewrite E in Hb. rewrite Forall_forall in Hb. by apply Hb. Qed.

Lemma batch_member st b m : plan_inv st → activeBatch st = Some b → m ∈ members st → MatchesBatch (state m) (btype b) = true.
Proof.
  intros [_ Hb _ _ _ _] E Hm. unfold batch_ok in Hb. rewrite E in Hb. destruct Hb as (_ & Hall & _).
  rewrite Forall_forall in Hall. by apply Hall.
Qed.

(** A member with the identity of a valid one is well formed. *)
Lemma member_ok_identity st m m' : plan_inv st → m' ∈ members st → identity m = identity m' → member_ok m.
Proof. intros Hi Hm E. pose proof (inv_members st m' Hi Hm) as Hok. unfold member_ok, addr, mid in *. by rewrite E. Qed.

Lemma ValidateBatch_ok latest type : ValidateBatch latest type = Ok tt → ∃ b, activeBatch latest = Some b ∧ btype b = type.
Proof.
  unfold ValidateBatch. destruct (activeBatch latest) as [b|]; [|done]. case_bool_decide; [|done]. intros _. by exists b.
Qed.

Lemma elem_of_in_state st s i : i ∈ MembersInState st s ↔ ∃ m, m ∈ members st ∧ identity m = i ∧ state m = s.
Proof.
  unfold MembersInState. rewrite list_elem_of_fmap. setoid_rewrite list_elem_of_filter. naive_solver.
Qed.

(** Removing the members in one state, by address, removes exactly them. *)
Lemma remove_in_state st s m :
  ring_valid (members st) →
  m ∈ members (RemoveMembers st (addresses_of (MembersInState st s))) ↔ m ∈ members st ∧ state m ≠ s.
Proof.
  intros Hr. rewrite removed_elem. split; intros [Hm Hn]; (split; [done|]).
  - intros E. apply Hn, list_elem_of_fmap. exists (identity m). split; [done|]. apply elem_of_in_state. by exists m.
  - intros (i & Ei & (m' & Hm' & <- & Hs)%elem_of_in_state)%list_elem_of_fmap.
    by rewrite (NoDup_fmap_elem addr _ _ _ (rv_addrs _ Hr) Hm Hm' Ei) in Hn.
Qed.

Lemma removed_ring st addresses : ring_valid (members st) → ring_valid (members (RemoveMembers st addresses)).
Proof. apply ring_valid_filter. Qed.

Lemma removed_members_ok st addresses : plan_inv st → Forall member_ok (members (RemoveMembers st addresses)).
Proof. intros Hi. apply Forall_forall. intros m [_ Hm]%list_elem_of_filter. by eapply inv_members. Qed.

Lemma removed_tokens st addresses m :
  plan_inv st → m ∈ members (RemoveMembers st addresses) → state m ≠ INITIAL → tokens m ≠ [].
Proof. intros Hi [_ Hm]%list_elem_of_filter. by apply (pi_tokens st Hi). Qed.

Definition advanced (latest st : TopologyState) : Prop := plan_inv st ∧ version st = version latest + 1.

Lemma advanced_intro latest init ms batch :
  plan_inv latest → version latest < INT64_MAX → Forall member_ok ms → ring_valid ms →
  (∀ m, m ∈ ms → state m ≠ INITIAL → tokens m ≠ []) → batch_fits (version latest) ms batch →
  advanced latest (MkTopology init (next_version latest) ms batch).
Proof.
  intros Hi Hv Hm Hr Ht Hb. pose proof (pi_version _ Hi) as Hpos. unfold advanced. rewrite next_version_small; [lia|].
  split; [|done]. apply plan_inv_intro; [lia|done..].
Qed.

Lemma elem_of_marked s0 sel ms m : m ∈ marked s0 sel ms → state m = s0 ∨ m ∈ ms.
Proof. intros (x & -> & Hx)%list_elem_of_fmap. case_bool_decide; [by left|by right]. Qed.

Lemma elem_of_marked_at s0 (sel : list MemberIdentity) ms m : m ∈ ms → identity m ∈ sel → with_state s0 m ∈ marked s0 sel ms.
Proof. intros Hm Hi. apply list_elem_of_fmap. exists m. by rewrite bool_decide_eq_true_2. Qed.

Lemma marked_place s0 (sel : list MemberIdentity) : keeps_place (λ m, if bool_decide (identity m ∈ sel) then with_state s0 m else m).
Proof. intros m. by case_bool_decide. Qed.

Section Steps.
Context `{PlanningLaws} (tokens_per_member : Z).
Context (latest : TopologyState) (Hinv : plan_inv latest) (Hver : version latest < INT64_MAX).

Lemma latest_range : Forall token_ok (flat_map tokens (members latest)).
Proof. apply Hinv. Qed.

Lemma filter_range (P : Member → Prop) `{∀ m, Decision (P m)} : Forall token_ok (flat_map tokens (filter P (members latest))).
Proof. by apply ring_valid_filter, Hinv. Qed.

Lemma Bootstrap_inv ready st : BuildBootstrap tokens_per_member latest ready = Ok st → advanced latest st.
Proof.
  unfold BuildBootstrap, is_stable. destruct (existsb is_committed (members latest)) eqn:Ec; [done|]. case_bool_decide as Eb; [|done]. cbn [negb andb].
  intros ([] & (_ & _ & Hsel)%ValidateSelected_ok & Hp)%res_bind_Ok.
  apply res_bind_Ok in Hp as (built & (En & Hrv & Hid & Hm & _)%law_initial & Hp). cbn [so_current joining tokensPerMember version activeBatch] in *.
  apply res_bind_Ok in Hp as ([] & Hval & [= <-]).
  apply existsb_none in Ec. rewrite Forall_forall in Ec.
  assert (∀ m, m ∈ members (next built) → ∃ m', m' ∈ members latest ∧ identity m = identity m') as Horig.
  { intros m Hin. assert (identity m ∈ merge_sort ident_le ready) as Hx by (rewrite -Hid; by apply list_elem_of_fmap_2).
    rewrite elem_of_merge_sort in Hx. destruct (Hsel _ Hx) as (m' & ? & ? & _). by exists m'. }
  apply advanced_intro; [done..| | | |].
  - apply Forall_app. split; apply Forall_forall; intros m Hin.
    + destruct (Horig m Hin) as (m' & ? & ?). by eapply member_ok_identity.
    + apply list_elem_of_filter in Hin as [_ Hin]. by eapply inv_members.
  - apply law_validate in Hval; [exact Hval|]. cbn [members]. rewrite flat_map_app. apply Forall_app.
    split; [apply Hrv|apply filter_range].
  - intros m [Hin|[_ Hin]%list_elem_of_filter]%elem_of_app Hn; [by destruct (Hm m Hin) as (_ & _ & _ & ?)|].
    by apply (pi_tokens _ Hinv).
  - rewrite En. intros m [Hin|[_ Hin]%list_elem_of_filter]%elem_of_app.
    + destruct (Hm m Hin) as [E _]. unfold transitional. by rewrite E.
    + by apply (stable_member latest).
Qed.

Lemma ScaleOutStart_inv selected plan :
  BuildScaleOutStart tokens_per_member latest selected = Ok plan → advanced latest (next plan).
Proof.
  unfold BuildScaleOutStart, is_stable. destruct (clusterHasInit latest); [|done]. case_bool_decide as Eb; [|done]. cbn [andb].
  intros ([] & (Hne & _ & Hsel)%ValidateSelected_ok & Hp)%res_bind_Ok.
  apply res_bind_Ok in Hp as (built & Hb & Hp). apply res_bind_Ok in Hp as ([] & _ & [= <-]).
  apply law_scale_out in Hb as (En & Hrv & (new & Enew & Hnew) & Hjoin & _); [|apply filter_range].
  cbn [so_current joining tokensPerMember] in *. cbn [next AdvanceEpoch].
  assert (∀ m, m ∈ members (next built) → m ∈ members latest ∨ (m ∈ new)) as Hsplit.
  { intros m. rewrite Enew elem_of_app removed_elem. tauto. }
  apply advanced_intro; [done..| |done| |].
  - apply Forall_forall. intros m [Hin|Hin]%Hsplit; [by eapply inv_members|]. destruct (Hnew m Hin) as (_ & Hi & _).
    destruct (Hsel _ Hi) as (m' & ? & ? & _). by eapply member_ok_identity.
  - intros m [Hin|Hin]%Hsplit; [by apply (pi_tokens _ Hinv)|]. by destruct (Hnew m Hin) as (_ & _ & _ & ?).
  - split_and!; [rewrite next_version_small; [pose proof (pi_version _ Hinv); lia|done]| | |done].
    + intros m [Hin|Hin]%Hsplit.
      * pose proof (stable_member _ _ Hinv Eb Hin) as Hs. unfold transitional in Hs. by destruct (state m).
      * destruct (Hnew m Hin) as [E _]. by rewrite E.
    + destruct selected as [|i sel]; [done|]. destruct (Hjoin i ltac:(by left)) as (m & Hm & _ & Hs). exists m.
      split; [done|]. unfold participant. simpl. by rewrite Hs.
Qed.

Lemma next_epoch type : epoch (MkBatch type (next_version latest)) = version latest + 1.
Proof. simpl. apply next_version_small. pose proof (pi_version _ Hinv). lia. Qed.

Lemma ScaleOutReplan_inv failedJoining plan :
  BuildScaleOutReplan tokens_per_member latest failedJoining = Ok plan → advanced latest (next plan).
Proof.
  unfold BuildScaleOutReplan. intros ([] & (b & Eb & Et)%ValidateBatch_ok & Hp)%res_bind_Ok.
  apply res_bind_Ok in Hp as ([] & _ & Hp). set (retained := RemoveMembers latest (addresses_of failedJoining)) in *.
  assert (∀ m, m ∈ members retained → MatchesBatch (state m) SCALE_OUT = true) as Hmatch.
  { intros m [Hin _]%removed_elem. rewrite -Et. by eapply batch_member. }
  destruct (MembersInState retained JOINING) as [|j js] eqn:Ej.
  - injection Hp as <-. cbn [next]. unfold commit_as. apply advanced_intro; [done..| | | |].
    + by apply removed_members_ok.
    + apply removed_ring, Hinv.
    + intros m. by apply removed_tokens.
    + intros m Hin. pose proof (Hmatch m Hin) as Hs. destruct (decide (state m = JOINING)) as [E|E].
      * assert (identity m ∈ MembersInState retained JOINING) as Hx by (apply elem_of_in_state; by exists m).
        rewrite Ej in Hx. by apply elem_of_nil in Hx.
      * unfold transitional. by destruct (state m).
  - apply res_bind_Ok in Hp as (built & Hb & [= <-]). cbn [next AdvanceEpoch].
    apply law_scale_out in Hb as (En & Hrv & (new & Enew & Hnew) & Hjoin & _); [|apply filter_range].
    cbn [so_current joining tokensPerMember] in *.
    assert (∀ m, m ∈ members (next built) → m ∈ members retained ∨ (m ∈ new)) as Hsplit by (intros m; by rewrite Enew elem_of_app).
    assert (∀ i, i ∈ j :: js → ∃ m, m ∈ members latest ∧ identity m = i) as Hold.
    { intros i. rewrite -Ej. intros (m & [Hm _]%removed_elem & Hi & _)%elem_of_in_state. by exists m. }
    apply advanced_intro; [done..| |done| |].
    + apply Forall_forall. intros m [[Hin _]%removed_elem|Hin]%Hsplit; [by eapply inv_members|].
      destruct (Hnew m Hin) as (_ & Hi & _). destruct (Hold _ Hi) as (m' & ? & ?). by eapply member_ok_identity.
    + intros m [[Hin _]%removed_elem|Hin]%Hsplit; [by apply (pi_tokens _ Hinv)|]. by destruct (Hnew m Hin) as (_ & _ & _ & ?).
    + split_and!; [apply next_epoch| | |done].
      * intros m [Hin|Hin]%Hsplit; [by apply Hmatch|]. destruct (Hnew m Hin) as [E _]. by rewrite E.
      * destruct (Hjoin j ltac:(by left)) as (m & Hm & _ & Hs). exists m. split; [done|]. unfold participant. simpl. by rewrite Hs.
Qed.

Lemma revive_place : keeps_place revive.
Proof. intros m. unfold revive. by case_match. Qed.
Lemma activate_place : keeps_place activate.
Proof. intros m. unfold activate. by case_match. Qed.

(** Steps that change states only. *)
Lemma fmap_inv init f batch :
  keeps_place f → (∀ m, m ∈ members latest → state (f m) ≠ INITIAL → state m ≠ INITIAL) →
  batch_fits (version latest) (f <$> members latest) batch →
  advanced latest (MkTopology init (next_version latest) (f <$> members latest) batch).
Proof.
  intros Hf Hst Hb. apply advanced_intro; [done..| | | |done].
  - apply member_ok_fmap; [done|apply Hinv].
  - apply ring_valid_fmap; [done|apply Hinv].
  - intros m' (m & -> & Hm)%list_elem_of_fmap Hs. rewrite (proj2 (Hf m)). by apply (pi_tokens _ Hinv), Hst.
Qed.

(** The selected members are exactly the ones that become LEAVING. *)
Lemma ScaleInStart_members selected plan :
  BuildScaleInStart latest selected = Ok plan →
  next plan = MkTopology (clusterHasInit latest) (next_version latest) (marked LEAVING selected (members latest))
                (Some (MkBatch SCALE_IN (next_version latest)))
  ∧ selected ≠ [] ∧ activeBatch latest = None
  ∧ (∀ i, i ∈ selected → ∃ m, m ∈ members latest ∧ identity m = i)
  ∧ (∀ m, m ∈ members latest → identity m ∈ selected → state m = PRE_LEAVING)
  ∧ handoff is_committed (λ m, is_committed m && negb (bool_decide (identity m ∈ selected))) (members latest) selected
      (ownerChanges plan).
Proof.
  unfold BuildScaleInStart, is_stable. destruct (clusterHasInit latest) eqn:Ei; [|done]. case_bool_decide as Eb; [|done]. cbn [andb].
  intros ([] & (Hne & _ & Hsel)%ValidateSelected_ok & Hp)%res_bind_Ok.
  apply res_bind_Ok in Hp as (built & (En & _ & Hh)%law_scale_in & [= <-]); [|apply latest_range].
  split_and!; [|done|done| | |done].
  - unfold AdvanceEpoch. cbn [next with_members members clusterHasInit]. rewrite En. cbn [with_members members clusterHasInit].
    rewrite Ei. f_equal. unfold marked. rewrite -list_fmap_compose. apply list_fmap_ext. intros k m _. unfold to_leaving. simpl.
    destruct (bool_decide (identity m ∈ selected)) eqn:Es; simpl; by rewrite Es ?andb_false_r.
  - intros i Hi. destruct (Hsel i Hi) as (m & ? & ? & _). by exists m.
  - intros m Hm Hi. destruct (Hsel _ Hi) as (m' & Hm' & E & Hs).
    by rewrite -(NoDup_fmap_elem addr (members latest) m m' (rv_addrs _ (pi_ring _ Hinv)) Hm Hm' ltac:(unfold addr; by rewrite E)) in Hs.
Qed.

Lemma ScaleInStart_inv selected plan : BuildScaleInStart latest selected = Ok plan → advanced latest (next plan).
Proof.
  intros (-> & Hne & Eb & Hsel & Hpre & _)%ScaleInStart_members. apply fmap_inv; [apply marked_place|..].
  - intros m Hm. case_bool_decide as Ei; [|done]. by rewrite (Hpre m Hm Ei).
  - split_and!; [apply next_epoch| | |done].
    + intros m' [E|Hm]%elem_of_marked; [by rewrite E|].
      pose proof (stable_member _ _ Hinv Eb Hm) as Hs. unfold transitional in Hs. by destruct (state m').
    + destruct selected as [|i sel]; [done|]. destruct (Hsel i ltac:(by left)) as (m & Hm & Ei). exists (with_state LEAVING m).
      split; [|done]. by apply elem_of_marked_at; [|rewrite Ei; left].
Qed.

Lemma ScaleOutFinal_inv st : BuildScaleOutFinal latest = Ok st → advanced latest st.
Proof.
  unfold BuildScaleOutFinal. intros ([] & (b & Eb & Et)%ValidateBatch_ok & Hp)%res_bind_Ok. destruct (negb _); [|done].
  injection Hp as <-. unfold commit_as. apply fmap_inv; [apply activate_place| |].
  - intros m _. unfold activate. case_bool_decide as E; [by rewrite E|done].
  - intros m' (m & -> & Hm)%list_elem_of_fmap. pose proof (batch_member _ _ _ Hinv Eb Hm) as Hs. rewrite Et in Hs.
    unfold activate, transitional. case_bool_decide; [done|]. by destruct (state m).
Qed.

(** Steps that remove the members in one state. *)
Lemma remove_inv init s batch :
  let ms := members (RemoveMembers latest (addresses_of (MembersInState latest s))) in
  batch_fits (version latest) ms batch → advanced latest (MkTopology init (next_version latest) ms batch).
Proof.
  intros ms Hb. apply advanced_intro; [done..| | | |done].
  - by apply removed_members_ok.
  - apply removed_ring, Hinv.
  - intros m. by apply removed_tokens.
Qed.

Lemma empty_inv init : advanced latest (MkTopology init (next_version latest) [] None).
Proof.
  apply advanced_intro; [done..|constructor|split; constructor| |]; by intros m ?%elem_of_nil.
Qed.

Lemma ScaleInFinal_inv st : BuildScaleInFinal latest = Ok st → advanced latest st.
Proof.
  unfold BuildScaleInFinal. intros ([] & (b & Eb & Et)%ValidateBatch_ok & Hp)%res_bind_Ok. destruct (negb _); [|done].
  injection Hp as <-. unfold commit_as. apply remove_inv. intros m [Hm Hn]%remove_in_state; [|apply Hinv].
  pose proof (batch_member _ _ _ Hinv Eb Hm) as Hs. rewrite Et in Hs. unfold transitional. by destruct (state m).
Qed.

Lemma Shutdown_inv st : BuildClusterShutdownFinal latest = Ok st → advanced latest st.
Proof.
  unfold BuildClusterShutdownFinal. destruct (negb _); [|done]. destruct (forallb _ _); [|done]. intros [= <-]. apply empty_inv.
Qed.

Lemma FailureFinal_inv st : BuildFailureFinal latest = Ok st → advanced latest st.
Proof.
  unfold BuildFailureFinal. intros ([] & (b & Eb & Et)%ValidateBatch_ok & Hp)%res_bind_Ok. destruct (negb _); [|done].
  set (built := RemoveMembers latest (addresses_of (MembersInState latest FAILED))) in *.
  assert (∀ m, m ∈ members built ↔ m ∈ members latest ∧ state m ≠ FAILED) as Hin by (intros m; apply remove_in_state, Hinv).
  destruct (existsb is_committed (members built)); cbn [negb] in Hp; [|injection Hp as <-; apply empty_inv].
  assert (∀ s, MembersInState built s ≠ [] → ∃ m, m ∈ members built ∧ state m = s) as Hex.
  { intros s0 Hne. destruct (MembersInState built s0) as [|i is_] eqn:E; [done|].
    assert (i ∈ MembersInState built s0) as Hi by (rewrite E; left). apply elem_of_in_state in Hi as (m & ? & _ & ?). by exists m. }
  assert (∀ s m, MembersInState built s = [] → m ∈ members built → state m ≠ s) as Hno.
  { intros s0 m E Hm Hs. assert (identity m ∈ MembersInState built s0) as Hi by (apply elem_of_in_state; by exists m).
    rewrite E in Hi. by apply elem_of_nil in Hi. }
  case_bool_decide as Ej; cbn [negb] in Hp.
  - case_bool_decide as El; cbn [negb] in Hp; injection Hp as <-; unfold commit_as; apply remove_inv.
    + intros m Hm. pose proof (Hno _ m Ej Hm). pose proof (Hno _ m El Hm). apply Hin in Hm as [_ Hn]. unfold transitional. by destruct (state m).
    + split_and!; [apply next_epoch| | |done].
      * intros m Hm. pose proof (Hno _ m Ej Hm). apply Hin in Hm as [_ Hn]. by destruct (state m).
      * destruct (Hex LEAVING El) as (m & Hm & Hs). exists m. split; [done|]. unfold participant. simpl. by rewrite Hs.
  - injection Hp as <-; unfold commit_as; apply remove_inv. destruct (Hex JOINING Ej) as (mj & Hmj & Hsj).
    split_and!; [apply next_epoch| | |done].
    + intros m [Hm Hn]%Hin. destruct (decide (state m = LEAVING)) as [El|El]; [|by destruct (state m)].
      destruct (pi_mix _ Hinv). split; [exists mj; split; [by apply Hin in Hmj as []|done]|by exists m].
    + exists mj. split; [done|]. unfold participant. simpl. by rewrite Hsj.
Qed.

(** The members a failure may name: committed ones, and those that have failed already. *)
Definition failure_candidates (confirmed : list MemberIdentity) : Prop :=
  confirmed ≠ [] ∧ ∀ i, i ∈ confirmed →
    ∃ m, m ∈ members latest ∧ identity m = i ∧ (is_committed m = true ∨ state m = FAILED).

Lemma candidate_iff confirmed m :
  failure_candidates confirmed → m ∈ members latest → addr m ∈ addresses_of confirmed ↔ identity m ∈ confirmed.
Proof.
  intros [_ Hc] Hm. unfold addresses_of. rewrite elem_of_list_to_set. split; [|intros Hi; exact (list_elem_of_fmap_2 address _ _ Hi)].
  intros (i & E & Hi)%list_elem_of_fmap. destruct (Hc i Hi) as (m' & Hm' & <- & _).
  by rewrite (NoDup_fmap_elem addr (members latest) m m' (rv_addrs _ (pi_ring _ Hinv)) Hm Hm' E).
Qed.

Lemma set_state_id i s0 ms : (∀ m, m ∈ ms → identity m = i → state m = s0) → set_state i s0 ms = ms.
Proof.
  induction ms as [|m ms IH]; [done|]. intros Hs. simpl. case_bool_decide as E.
  - f_equal. rewrite -(Hs m ltac:(by left) E). by destruct m.
  - f_equal. apply IH. intros m' Hm'. apply Hs. by right.
Qed.

(** Both branches mark exactly the confirmed members: the ordinary facts were never lost. *)
Lemma FailureStart_members confirmed plan :
  failure_candidates confirmed → BuildFailureStartOrReplan latest confirmed = Ok plan →
  next plan = MkTopology (clusterHasInit latest) (next_version latest) (marked FAILED confirmed (members latest))
                (Some (MkBatch FAILURE (next_version latest)))
  ∧ ∀ m, m ∈ members latest → state m = FAILED → identity m ∈ confirmed.
Proof.
  intros Hcand. unfold BuildFailureStartOrReplan. destruct (clusterHasInit latest) eqn:Ei; [|done].
  destruct (forallb _ (members latest)) eqn:Ef; [|done].
  assert (∀ m, m ∈ members latest → state m = FAILED → identity m ∈ confirmed) as Hold.
  { intros m Hm Hs. rewrite forallb_forall in Ef. specialize (Ef m ltac:(by apply list_elem_of_In)).
    rewrite Hs /= in Ef. by apply bool_decide_eq_true in Ef. }
  destruct (negb (existsb _ _)).
  - intros [= <-]. split; [|done]. unfold AdvanceEpoch. cbn [next members with_members clusterHasInit]. rewrite Ei. f_equal.
    apply list_fmap_ext. intros k m Hm%list_elem_of_lookup_2. unfold fail_by_address.
    by rewrite (bool_decide_ext _ _ (candidate_iff confirmed m Hcand Hm)).
  - intros (built & (En & _)%law_failure & [= <-])%res_bind_Ok.
    2:{ cbn [members with_members]. rewrite keeps_place_tokens; [apply revive_place|apply latest_range]. }
    split; [|done]. unfold AdvanceEpoch. cbn [next members with_members clusterHasInit]. rewrite En. cbn [with_members members clusterHasInit].
    rewrite Ei. f_equal.
    assert (marked FAILED confirmed (revive <$> members latest) = marked FAILED confirmed (members latest)) as ->.
    { unfold marked. rewrite -list_fmap_compose. apply list_fmap_ext. intros k m Hm%list_elem_of_lookup_2. simpl.
      rewrite (proj1 (revive_place m)). case_bool_decide as Hi; unfold revive; case_bool_decide as Hs; try done.
      destruct Hi. by apply Hold. }
    unfold preserve_facts.
    assert (∀ l, (∀ m, m ∈ l → m ∈ members latest) →
      foldl (λ ms m, if ordinary_fact (addresses_of confirmed) m then set_state (identity m) (state m) ms else ms)
        (marked FAILED confirmed (members latest)) l = marked FAILED confirmed (members latest)) as Hid; [|by apply Hid].
    intros l. induction l as [|m l IH]; intros Hl; [done|]. simpl.
    destruct (ordinary_fact (addresses_of confirmed) m) eqn:Eo; [|apply IH; intros x Hx; apply Hl; by right].
    rewrite set_state_id; [|apply IH; intros x Hx; apply Hl; by right].
    apply andb_true_iff in Eo as [_ Hna%negb_true_iff%bool_decide_eq_false]. pose proof (Hl m ltac:(by left)) as Hm.
    rewrite (candidate_iff confirmed m Hcand Hm) in Hna.
    intros m' (x & -> & Hx)%list_elem_of_fmap Hxi.
    assert (identity x = identity m) as E by (revert Hxi; by case_bool_decide).
    assert (x = m) as -> by (apply (NoDup_fmap_elem addr (members latest)); [apply Hinv|done|done|unfold addr; by rewrite E]).
    by rewrite bool_decide_eq_false_2.
Qed.

Lemma FailureStart_inv confirmed plan :
  failure_candidates confirmed → BuildFailureStartOrReplan latest confirmed = Ok plan → advanced latest (next plan).
Proof.
  intros Hcand Hp. destruct (FailureStart_members confirmed plan Hcand Hp) as [-> Hold].
  apply (fmap_inv _ (λ m, if bool_decide (identity m ∈ confirmed) then with_state FAILED m else m)); [apply marked_place|..].
  - intros m Hm. case_bool_decide as Hi; [|done]. intros _ E. destruct (proj2 Hcand _ Hi) as (m' & Hm' & Ei & Hs).
    rewrite (NoDup_fmap_elem addr (members latest) m' m (rv_addrs _ (pi_ring _ Hinv)) Hm' Hm ltac:(unfold addr; by rewrite Ei)) in Hs.
    unfold is_committed in Hs. rewrite E in Hs. naive_solver.
  - split_and!; [apply next_epoch|done| |].
    + destruct confirmed as [|i c] eqn:Ec; [by destruct Hcand|]. destruct (proj2 Hcand i ltac:(by left)) as (m & Hm & Ei & _).
      exists (with_state FAILED m). split; [|done]. by apply elem_of_marked_at; [|rewrite Ei; left].
    + intros _ [(m1' & Hm1 & E1) (m2' & Hm2 & E2)]. apply (pi_mix _ Hinv).
      split; [exists m1'|exists m2']; (split; [|done]).
      * by apply elem_of_marked in Hm1 as [E|]; [rewrite E in E1|].
      * by apply elem_of_marked in Hm2 as [E|]; [rewrite E in E2|].
Qed.
End Steps.

(** ** Routing across a batch

    Who owns a token depends only on the ring points of the members that count. *)
Definition point (p : Member → bool) (ms : list Member) (x : Z) (i : MemberIdentity) : Prop :=
  ∃ m, m ∈ ms ∧ p m = true ∧ x ∈ tokens m ∧ identity m = i.

Lemma owner_id_points p ms t i :
  owner_id p ms t i ↔ ∃ x, point p ms x i ∧
    ((t ≤ x ∧ ∀ x' i', point p ms x' i' → t ≤ x' → x ≤ x')
     ∨ ((∀ x' i', point p ms x' i' → x' < t) ∧ ∀ x' i', point p ms x' i' → x ≤ x')).
Proof.
  assert (∀ x m, (x, m) ∈ owners_of p ms → point p ms x (identity m)) as Hto.
  { intros x m (? & ? & ?)%elem_of_owners. by exists m. }
  assert (∀ x i', point p ms x i' → ∃ m, (x, m) ∈ owners_of p ms ∧ identity m = i') as Hfrom.
  { intros x i' (m & ? & ? & ? & ?). exists m. split; [by apply elem_of_owners|done]. }
  split.
  - intros (m & (x & Hx & Hc) & <-). exists x. split; [by apply Hto|].
    destruct Hc as [[? Hm]|[Hl Hm]]; [left|right]; (split; [try done|]); intros x' i' (m' & ? & _)%Hfrom; eauto.
  - intros (x & (m & Hm & <-)%Hfrom & Hc). exists m. split; [|done]. exists x. split; [done|].
    destruct Hc as [[? Hmin]|[Hl Hmin]]; [left|right]; (split; [try done|]); eauto.
Qed.

Lemma owner_id_same p q ms ms' t i :
  (∀ x i, point p ms x i ↔ point q ms' x i) → owner_id p ms t i ↔ owner_id q ms' t i.
Proof. intros E. rewrite !owner_id_points. by setoid_rewrite E. Qed.

(** A change of states seen through the predicate that selects the ring. *)
Lemma point_fmap p q f ms x i :
  keeps_place f → (∀ m, m ∈ ms → p (f m) = q m) → point p (f <$> ms) x i ↔ point q ms x i.
Proof.
  intros Hf Hpq. split.
  - intros (m' & (m & -> & Hm)%list_elem_of_fmap & Hp & Hx & Hi). exists m. rewrite Hpq // in Hp.
    by rewrite (proj1 (Hf m)) in Hi; rewrite (proj2 (Hf m)) in Hx.
  - intros (m & Hm & Hp & Hx & Hi). exists (f m). split; [by apply list_elem_of_fmap_2|].
    rewrite Hpq // (proj1 (Hf m)) (proj2 (Hf m)). done.
Qed.

Section Handover.
Context `{PlanningLaws} (tokens_per_member : Z).
Context (latest : TopologyState) (Hinv : plan_inv latest) (Hver : version latest < INT64_MAX).

Lemma scale_out_handover_spec selected plan st :
  BuildScaleOutStart tokens_per_member latest selected = Ok plan → BuildScaleOutFinal (next plan) = Ok st →
  (∀ t i, owner_id is_committed (members (next plan)) t i ↔ owner_id is_committed (members latest) t i)
  ∧ changes_exact (owner_id is_committed (members latest)) (owner_id is_committed (members st)) (ownerChanges plan)
  ∧ ∀ c, c ∈ ownerChanges plan → ch_target c ∈ selected.
Proof.
  unfold BuildScaleOutStart, is_stable. destruct (clusterHasInit latest); [|done]. case_bool_decide as Eb; [|done]. cbn [andb].
  intros ([] & (_ & _ & Hsel)%ValidateSelected_ok & Hp)%res_bind_Ok Hfin.
  apply res_bind_Ok in Hp as (built & Hb & Hp). apply res_bind_Ok in Hp as ([] & _ & [= <-]).
  apply law_scale_out in Hb as (En & Hrv & (new & Enew & Hnew) & _ & Hx & Htgt); [|by apply filter_range].
  cbn [so_current joining AdvanceEpoch next ownerChanges members] in *.
  set (cur := members (RemoveMembers latest (addresses_of selected))) in *.
  assert (∀ m, m ∈ members latest → is_committed m = true → m ∈ cur) as Hkept.
  { intros m Hm Hc. apply removed_elem. split; [done|]. intros (i & Ei & Hi)%list_elem_of_fmap.
    destruct (Hsel i Hi) as (m' & Hm' & <- & Hs).
    rewrite (NoDup_fmap_elem addr _ _ _ (rv_addrs _ (pi_ring _ Hinv)) Hm Hm' Ei) in Hc. unfold is_committed in Hc. by rewrite Hs in Hc. }
  assert (∀ x i, point is_committed (members latest) x i ↔ point is_committed cur x i) as Hcur.
  { intros x i. split; intros (m & Hm & Hc & ?); exists m; split; try done; [by apply Hkept|]. by apply removed_elem in Hm as [? _]. }
  unfold BuildScaleOutFinal in Hfin. apply res_bind_Ok in Hfin as ([] & _ & Hfin).
  destruct (negb _); [|done]. injection Hfin as <-. cbn [members commit_as].
  assert (∀ m, m ∈ members (next built) → is_committed (activate m) = prospective m) as Hact.
  { intros m _. unfold activate, prospective, is_committed. destruct (decide (state m = JOINING)) as [E|E].
    - by rewrite bool_decide_eq_true_2 // E.
    - by rewrite bool_decide_eq_false_2 // orb_false_r. }
  assert (∀ t i, owner_id is_committed cur t i ↔ owner_id is_committed (members latest) t i) as Hc1.
  { intros t i. apply owner_id_same. intros x j. by rewrite Hcur. }
  split_and!.
  - intros t i. rewrite -Hc1 Enew. apply owner_id_same. intros x j. split; intros (m & Hm & Hc & ?); exists m; (split; [|done]).
    + apply elem_of_app in Hm as [|Hm]; [done|]. destruct (Hnew m Hm) as [E _]. unfold is_committed in Hc. by rewrite E in Hc.
    + apply elem_of_app. by left.
  - destruct Hx as [H1 H2]. split; [done|]. intros t s d Ht. rewrite H2 // Hc1.
    assert (owner_id prospective (members (next built)) t d ↔ owner_id is_committed (activate <$> members (next built)) t d) as ->; [|done].
    apply owner_id_same. intros x i. symmetry. apply point_fmap; [apply activate_place|done].
  - intros c Hc. destruct (Htgt c Hc) as (m & Hm & <- & Hs). rewrite Enew in Hm. apply elem_of_app in Hm as [Hm|Hm].
    + apply removed_elem in Hm as [Hm _]. pose proof (stable_member _ _ Hinv Eb Hm) as Ht. unfold transitional in Ht. by rewrite Hs in Ht.
    + by destruct (Hnew m Hm) as (_ & ? & _).
Qed.

Lemma scale_in_handover_spec selected plan st :
  BuildScaleInStart latest selected = Ok plan → BuildScaleInFinal (next plan) = Ok st →
  (∀ t i, owner_id is_committed (members (next plan)) t i ↔ owner_id is_committed (members latest) t i)
  ∧ (∀ t s d, token_ok t →
      (∃ c, c ∈ ownerChanges plan ∧ ch_source c = Some s ∧ ch_target c = d ∧ in_ranges t (ch_ranges c))
      ↔ owner_id is_committed (members latest) t s ∧ owner_id is_committed (members st) t d ∧ s ∈ selected)
  ∧ ∀ t, ∃ d, owner_id is_committed (members st) t d.
Proof.
  intros Hstart Hfin. pose proof (ScaleInStart_inv latest Hinv Hver selected plan Hstart) as [Hinv' _].
  apply ScaleInStart_members in Hstart as (En & _ & Eb & _ & Hpre & (_ & Hh & Htot)); [|done].
  rewrite En in Hfin Hinv' |- *. set (st' := MkTopology _ _ _ _) in *.
  unfold BuildScaleInFinal in Hfin. apply res_bind_Ok in Hfin as ([] & _ & Hfin). destruct (negb _); [|done]. injection Hfin as <-.
  set (fin := members (RemoveMembers st' (addresses_of (MembersInState st' LEAVING)))).
  change (members (commit_as st' _ None)) with fin.
  pose proof (λ m, remove_in_state st' LEAVING m (pi_ring _ Hinv')) as Hrem.
  set (q := λ m, is_committed m && negb (bool_decide (identity m ∈ selected))) in *.
  assert (∀ t d, owner_id is_committed fin t d ↔ owner_id q (members latest) t d) as Hown.
  { intros t d. apply owner_id_same. intros x i. unfold q. split.
    - intros (m' & [Hm' Hn]%Hrem & Hc & Hx & Hi). pose proof Hm' as [?|Hm]%elem_of_marked; [done|]. exists m'.
      split_and!; [done| |done|done]. rewrite Hc bool_decide_eq_false_2 //. intros Hin.
      apply list_elem_of_fmap in Hm' as (m0 & E & Hm0). revert E. case_bool_decide as E0; intros ->; done.
    - intros (m & Hm & [Hc Hs]%andb_true_iff & Hx & Hi). apply negb_true_iff, bool_decide_eq_false in Hs. exists m.
      split_and!; [|done..]. apply Hrem. split; [apply list_elem_of_fmap; exists m; by rewrite bool_decide_eq_false_2|].
      pose proof (stable_member _ _ Hinv Eb Hm) as Ht. unfold transitional in Ht. by destruct (state m). }
  split_and!.
  - intros t i. apply owner_id_same. intros x j. apply point_fmap; [apply marked_place|]. intros m Hm. case_bool_decide as Es; [|done].
    unfold is_committed. by rewrite (Hpre m Hm Es).
  - intros t s d Ht. rewrite Hh // Hown. done.
  - intros t. destruct (Htot t) as [d Hd]. exists d. by apply Hown.
Qed.
End Handover.

(** ** Properties *)

(** C14: a scale-out moves exactly the ranges it announced.  From a valid stable topology, starting the batch
    changes no owner; finishing it changes the owner of exactly the tokens in the ranges of the plan, from the
    source to the target named there, and every target is one of the members that were selected to join. *)
Theorem scale_out_handover `{PlanningLaws} (tokens_per_member : Z) (latest : TopologyState) (Hinv : plan_inv latest)
    (selected : list MemberIdentity) (plan : TopologyPlan) (st : TopologyState)
    (Hs : BuildScaleOutStart tokens_per_member latest selected = Ok plan) (Hf : BuildScaleOutFinal (next plan) = Ok st) :
  (∀ t i, owner_id is_committed (members (next plan)) t i ↔ owner_id is_committed (members latest) t i)
  ∧ changes_exact (owner_id is_committed (members latest)) (owner_id is_committed (members st)) (ownerChanges plan)
  ∧ ∀ c, c ∈ ownerChanges plan → ch_target c ∈ selected.
Proof. by eapply scale_out_handover_spec. Qed.

(** Two workers that serve and one that has been admitted, used by the witnesses. *)
Definition admitted : TopologyState := MkTopology true 5 [m1; m2; MkMember (identity m3) INITIAL []] None.
Definition departing : TopologyState := MkTopology true 5 [with_state PRE_LEAVING m1; m2] None.

Ltac concrete_inv :=
  split;
  [cbn; unfold INT64_MAX; lia
  |apply (bool_decide_unpack _); vm_compute; exact I
  |repeat constructor; try discriminate; try (apply (bool_decide_unpack _); vm_compute; exact I)
  |split; apply (bool_decide_unpack _); vm_compute; exact I
  |intros m Hm; repeat (apply elem_of_cons in Hm as [->|Hm]; [done|]); by apply elem_of_nil in Hm
  |intros [(m & Hm & E) _]; repeat (apply elem_of_cons in Hm as [->|Hm]; [done|]); by apply elem_of_nil in Hm].

Lemma admitted_inv : plan_inv admitted.
Proof. concrete_inv. Qed.

Lemma departing_inv : plan_inv departing.
Proof. concrete_inv. Qed.

Lemma scale_out_handover_witness :
  ∃ plan st, BuildScaleOutStart 2 admitted [identity m3] = Ok plan ∧ BuildScaleOutFinal (next plan) = Ok st
    ∧ List.length (ownerChanges plan) = 1%nat
    ∧ changes_exact (owner_id is_committed (members admitted)) (owner_id is_committed (members st)) (ownerChanges plan).
Proof.
  destruct (BuildScaleOutStart 2 admitted [identity m3]) as [plan|] eqn:E; [|by vm_compute in E].
  destruct (BuildScaleOutFinal (next plan)) as [st|] eqn:Ef; [|vm_compute in E; injection E as <-; by vm_compute in Ef].
  exists plan, st. split; [done|]. split; [done|]. split; [vm_compute in E; by injection E as <-|].
  exact (proj1 (proj2 (scale_out_handover 2 admitted admitted_inv [identity m3] plan st E Ef))).
Defined.

(** C15: a scale-in hands over everything it owes.  From a valid stable topology, starting the batch changes no
    owner; after it is finished every token has an owner, and the ranges of the plan are exactly the tokens
    that the selected members owned, each under its owner before and its owner after. *)
Theorem scale_in_handover `{PlanningLaws} (latest : TopologyState) (Hinv : plan_inv latest) (Hver : version latest < INT64_MAX)
    (selected : list MemberIdentity) (plan : TopologyPlan) (st : TopologyState)
    (Hs : BuildScaleInStart latest selected = Ok plan) (Hf : BuildScaleInFinal (next plan) = Ok st) :
  (∀ t i, owner_id is_committed (members (next plan)) t i ↔ owner_id is_committed (members latest) t i)
  ∧ (∀ t s d, token_ok t →
      (∃ c, c ∈ ownerChanges plan ∧ ch_source c = Some s ∧ ch_target c = d ∧ in_ranges t (ch_ranges c))
      ↔ owner_id is_committed (members latest) t s ∧ owner_id is_committed (members st) t d ∧ s ∈ selected)
  ∧ ∀ t, ∃ d, owner_id is_committed (members st) t d.
Proof. by eapply scale_in_handover_spec. Qed.

Lemma scale_in_handover_witness :
  ∃ plan st, BuildScaleInStart departing [identity m1] = Ok plan ∧ BuildScaleInFinal (next plan) = Ok st
    ∧ ∀ t, ∃ d, owner_id is_committed (members st) t d.
Proof.
  destruct (BuildScaleInStart departing [identity m1]) as [plan|] eqn:E; [|by vm_compute in E].
  destruct (BuildScaleInFinal (next plan)) as [st|] eqn:Ef; [|vm_compute in E; injection E as <-; by vm_compute in Ef].
  exists plan, st. split; [done|]. split; [done|].
  exact (proj2 (proj2 (scale_in_handover departing departing_inv ltac:(unfold INT64_MAX; cbn; lia) [identity m1] plan st E Ef))).
Defined.
End PlanBuilder.
