(* ===== verification/Replan.v ===== *)
(** * Replan: planning a placement again

    The plan of a batch is not stored; whoever needs it (the controller after a restart, the janitor) computes it
    again from the committed topology.  This file holds what makes that possible: the checks of the hash
    algorithm ([src/datasystem/cluster/algorithm/hash_algorithm.cpp]) accept every topology the plan builder can
    commit, and its owner changes depend only on the ring points of the two placements, not on the order of
    members or on states that do not matter to them. *)
From S2P Require Import Prelude NetUtil Topology HashRing PlanBuilder.
Import Topology HashRing PlanBuilder.

Module Replan.
Local Open Scope Z_scope.

(** ** The checks accept valid input *)
Definition identity_ok (i : MemberIdentity) : Prop :=
  String.length (id i) = UUID_SIZE ∧ address i ≠ "" ∧ (String.length (address i) ≤ MAX_MEMBER_ADDRESS_BYTES)%nat
  ∧ NetUtil.is_canonical (address i) = true.

Lemma member_identity_ok m : member_ok m → identity_ok (identity m).
Proof. unfold member_ok, identity_ok, addr, mid. intros (? & ? & ? & ?). done. Qed.

Lemma ids_loop_complete ids ads is_ :
  NoDup (id <$> is_) → NoDup (address <$> is_) → (∀ i, i ∈ is_ → (id i ∉ ids) ∧ (address i ∉ ads) ∧ identity_ok i) →
  ids_loop ids ads is_ = Ok tt.
Proof.
  revert ids ads. induction is_ as [|i is_ IH]; intros ids ads Hi Ha Hall; [done|]. cbn [ids_loop].
  destruct (Hall i ltac:(by left)) as (Hni & Hna & Hl & Hne & Hb & Hc).
  rewrite (bool_decide_eq_true_2 _ Hl) (proj2 (empty_str_false _) Hne) (bool_decide_eq_true_2 _ Hb) Hc. cbn [negb andb].
  rewrite !bool_decide_eq_true_2 //. cbn [andb]. rewrite !fmap_cons !NoDup_cons in Hi Ha. destruct Hi as [Hi1 Hi2], Ha as [Ha1 Ha2].
  apply IH; [done..|]. intros j Hj. destruct (Hall j ltac:(by right)) as (? & ? & ?).
  split_and!; [| |done]; apply not_elem_of_union; (split; [|done]); apply not_elem_of_singleton; intros E.
  - apply Hi1. rewrite -E. by apply list_elem_of_fmap_2.
  - apply Ha1. rewrite -E. by apply list_elem_of_fmap_2.
Qed.

Lemma validate_loop_complete ids ads seen h ms :
  NoDup (mid <$> ms) → NoDup (addr <$> ms) → NoDup (flat_map tokens ms) → Forall member_ok ms →
  (∀ m, m ∈ ms → (mid m ∉ ids) ∧ (addr m ∉ ads) ∧ ∀ t, t ∈ tokens m → t ∉ seen) →
  validate_loop ids ads seen h ms = Ok (h || existsb is_committed ms).
Proof.
  revert ids ads seen h. induction ms as [|m ms IH]; intros ids ads seen h Hi Ha Ht Hok Hall; cbn [validate_loop existsb].
  { by rewrite orb_false_r. }
  destruct (Hall m ltac:(by left)) as (Hni & Hna & Hnt). apply Forall_cons in Hok as [(Hne & _ & _ & Hl) Hok].
  rewrite (bool_decide_eq_true_2 _ Hl) (proj2 (empty_str_false _) Hne) !bool_decide_eq_true_2 //. cbn [negb andb].
  rewrite !fmap_cons !NoDup_cons in Hi Ha. destruct Hi as [Hi1 Hi2], Ha as [Ha1 Ha2].
  cbn [flat_map] in Ht. apply NoDup_app in Ht as (Ht1 & Ht2 & Ht3).
  rewrite (proj2 (insert_tokens_ok seen (tokens m) (list_to_set (tokens m) ∪ seen))) //. cbn [res_bind].
  rewrite IH //; [|by rewrite orb_assoc]. intros m' Hm'. destruct (Hall m' ltac:(by right)) as (? & ? & Hnt').
  split_and!; [apply not_elem_of_union; (split; [|done]); apply not_elem_of_singleton; intros E..|].
  - apply Hi1. rewrite -E. by apply list_elem_of_fmap_2.
  - apply Ha1. rewrite -E. by apply list_elem_of_fmap_2.
  - intros t Htm. apply not_elem_of_union. split; [|by apply Hnt']. intros Hin%elem_of_list_to_set. apply (Ht2 t Hin).
    apply elem_of_tokens. by exists m'.
Qed.

Lemma Validate_complete st :
  ring_valid (members st) → Forall member_ok (members st) → (∃ m, m ∈ members st ∧ is_committed m = true) → Validate st = Ok tt.
Proof.
  intros [Ha Hi Ht _] Hok (m & Hm & Hc). unfold Validate. rewrite validate_loop_complete //.
  cbn [res_bind orb]. rewrite (proj2 (existsb_Exists _ _)); [apply Exists_exists; by exists m|by rewrite orb_true_r].
Qed.

Lemma find_address_complete ms m : NoDup (addr <$> ms) → m ∈ ms → find_address ms (addr m) = Some m.
Proof.
  intros Hnd Hm. destruct (find_address ms (addr m)) as [m'|] eqn:E.
  - apply find_address_some in E as [Hm' E]. f_equal. by eapply (NoDup_fmap_elem addr).
  - apply find_address_none in E. destruct E. by apply list_elem_of_fmap_2.
Qed.

Lemma ValidateSelectedMembers_complete cur sel :
  NoDup (addr <$> members cur) → (∀ i, i ∈ sel → ∃ m, m ∈ members cur ∧ identity m = i ∧ is_committed m = true) →
  ValidateSelectedMembers cur sel = Ok tt.
Proof.
  intros Hnd. induction sel as [|i sel IH]; intros Hall; [done|]. cbn [ValidateSelectedMembers].
  destruct (Hall i ltac:(by left)) as (m & Hm & <- & Hc). change (address (identity m)) with (addr m).
  rewrite find_address_complete // bool_decide_eq_true_2 // Hc. apply IH. intros j Hj. apply Hall. by right.
Qed.

(** The members in a state, as a selection. *)
Lemma in_state_ids ms s :
  ring_valid ms → Forall member_ok ms → let sel := identity <$> filter (λ m, state m = s) ms in ids_loop ∅ ∅ sel = Ok tt.
Proof.
  intros [Ha Hi _ _] Hok sel. apply ids_loop_complete.
  - unfold sel. rewrite -list_fmap_compose. by apply (NoDup_fmap_filter mid).
  - unfold sel. rewrite -list_fmap_compose. by apply (NoDup_fmap_filter addr).
  - intros i (m & -> & [_ Hm]%list_elem_of_filter)%list_elem_of_fmap. split_and!; [set_solver..|].
    rewrite Forall_forall in Hok. by apply member_identity_ok, Hok.
Qed.

(** ** Owner lists depend on ring points only *)
Definition owner_points (p : Member → bool) (ms : list Member) : list (Z * MemberIdentity) :=
  flat_map (λ m, (λ t, (t, identity m)) <$> tokens m) (filter (λ m, p m = true) ms).

Lemma elem_of_owner_points p ms x i : (x, i) ∈ owner_points p ms ↔ point p ms x i.
Proof.
  unfold owner_points, point. rewrite list_elem_of_In in_flat_map. setoid_rewrite <-list_elem_of_In. split.
  - intros (m & [Hp Hm]%list_elem_of_filter & (t & [= -> ->] & Ht)%list_elem_of_fmap). by exists m.
  - intros (m & Hm & Hp & Hx & <-). exists m. split; [by apply list_elem_of_filter|]. apply list_elem_of_fmap. by exists x.
Qed.

Lemma owner_points_fst p ms : NoDup (flat_map tokens ms) → NoDup (owner_points p ms).*1.
Proof.
  intros Hnd. assert ((owner_points p ms).*1 = flat_map tokens (filter (λ m, p m = true) ms)) as ->.
  { unfold owner_points. clear. induction (filter (λ m, p m = true) ms) as [|m l IH]; [done|]. cbn [flat_map].
    rewrite fmap_app IH. f_equal. rewrite -list_fmap_compose. apply list_fmap_id. }
  by apply flat_map_filter_NoDup.
Qed.

Lemma owner_points_perm p q ms ms' :
  NoDup (flat_map tokens ms) → NoDup (flat_map tokens ms') → (∀ x i, point p ms x i ↔ point q ms' x i) →
  owner_points p ms ≡ₚ owner_points q ms'.
Proof.
  intros H1 H2 Hp. apply NoDup_Permutation.
  - by eapply NoDup_fmap_1, owner_points_fst.
  - by eapply NoDup_fmap_1, owner_points_fst.
  - intros [x i]. by rewrite !elem_of_owner_points.
Qed.

Lemma BuildOwners_ext ms ms' inc exc act inc' exc' act' :
  NoDup (flat_map tokens ms) → NoDup (flat_map tokens ms') →
  (∀ x i, point (keeps inc act exc) ms x i ↔ point (keeps inc' act' exc') ms' x i) →
  BuildOwners ms inc exc act = BuildOwners ms' inc' exc' act'.
Proof.
  intros H1 H2 Hp. pose proof (owner_points_perm _ _ _ _ H1 H2 Hp) as Hperm. unfold BuildOwners.
  fold (owner_points (keeps inc act exc) ms). fold (owner_points (keeps inc' act' exc') ms').
  rewrite (bool_decide_ext (owner_points (keeps inc act exc) ms = []) (owner_points (keeps inc' act' exc') ms' = [])).
  { split; intros E; rewrite E in Hperm; [by apply Permutation_nil in Hperm|by apply Permutation_nil_r in Hperm]. }
  destruct (negb _); [|done]. f_equal. apply (StronglySorted_unique_strong owner_le).
  - intros [x i] [y j]. rewrite !elem_of_merge_sort -Hperm. intros Hx Hy Hxy Hyx. unfold owner_le in *. cbn in *.
    apply (NoDup_fmap_elem fst (owner_points (keeps inc act exc) ms)); [by apply owner_points_fst|done|done|]. cbn. lia.
  - apply StronglySorted_merge_sort; apply _.
  - apply StronglySorted_merge_sort; apply _.
  - by rewrite !merge_sort_Permutation.
Qed.

(** ** Changes are grouped by their two ends *)
Definition change_key (c : TopologyOwnerChange) : option string * string := (address <$> ch_source c, address (ch_target c)).

Lemma diff_loop_keys os1 os2 bs g g' :
  diff_loop os1 os2 bs g = Some g' → (∀ k c, g !! k = Some c → change_key c = (Some k.1, k.2)) →
  ∀ k c, g' !! k = Some c → change_key c = (Some k.1, k.2).
Proof.
  revert g. induction bs as [|f bs IH]; intros g; [by intros [= <-]|]. remember (f :: bs) as l eqn:El. 
  subst l. cbn [diff_loop]. destruct (FindOwner os1 f) as [src|]; [|done]. destruct (FindOwner os2 f) as [dst|]; [|done].
  case_bool_decide; [apply IH|]. intros Hd Hg. eapply IH; [exact Hd|]. intros k c Hk.
  apply lookup_insert_Some in Hk as [[<- <-]|[_ Hk]]; [done|by apply Hg].
Qed.

Lemma DiffOwners_keys os1 os2 changes : DiffOwners os1 os2 = Some changes → NoDup (change_key <$> changes).
Proof.
  unfold DiffOwners. destruct (diff_loop _ _ _ _) as [g|] eqn:E; [|done]. intros [= <-].
  assert (∀ k c, g !! k = Some c → change_key c = (Some k.1, k.2)) as Hk by (eapply diff_loop_keys; [exact E|]; intros k c Hx; by rewrite lookup_empty in Hx).
  rewrite -list_fmap_compose. eapply (NoDup_fmap_2_strong _ (merge_sort pair_le (map_to_list g))).
  - intros [k c] [k' c']. rewrite !elem_of_merge_sort !elem_of_map_to_list. intros H1 H2. cbn. rewrite (Hk k c H1) (Hk k' c' H2).
    intros [= E1 E2]. destruct k, k'; cbn in *; subst. rewrite H1 in H2. by injection H2 as ->.
  - rewrite merge_sort_Permutation. apply NoDup_map_to_list.
Qed.

Lemma diff_result_ok r changes : diff_result r = Ok changes ↔ r = Some changes.
Proof. destruct r; simpl; naive_solver. Qed.

Lemma PlanScaleOut_keys input plan : PlanScaleOut input = Ok plan → NoDup (change_key <$> ownerChanges plan).
Proof.
  unfold PlanScaleOut. intros Hp. repeat (apply res_bind_Ok in Hp as (? & _ & Hp)). destruct (_ && _) in Hp; [|done].
  apply res_bind_Ok in Hp as (? & _ & Hp). apply res_bind_Ok in Hp as (? & _ & Hp). apply res_bind_Ok in Hp as (? & _ & Hp).
  apply res_bind_Ok in Hp as (cs & Hd%diff_result_ok & [= <-]). by eapply DiffOwners_keys.
Qed.

Lemma PlanScaleIn_keys cur leaving plan : PlanScaleIn cur leaving = Ok plan → NoDup (change_key <$> ownerChanges plan).
Proof.
  unfold PlanScaleIn. intros Hp. repeat (apply res_bind_Ok in Hp as (? & _ & Hp)). destruct (negb _) in Hp; [|done].
  apply res_bind_Ok in Hp as (? & _ & Hp). apply res_bind_Ok in Hp as (? & _ & Hp).
  apply res_bind_Ok in Hp as (cs & Hd%diff_result_ok & [= <-]). by eapply DiffOwners_keys.
Qed.

Lemma PlanFailure_keys cur failed plan : PlanFailure cur failed = Ok plan → NoDup (change_key <$> ownerChanges plan).
Proof.
  unfold PlanFailure. intros Hp. repeat (apply res_bind_Ok in Hp as (? & _ & Hp)). destruct (negb _) in Hp; [|done].
  apply res_bind_Ok in Hp as (? & _ & Hp). apply res_bind_Ok in Hp as (? & _ & Hp).
  apply res_bind_Ok in Hp as (cs & Hd%diff_result_ok & [= <-]). cbn [ownerChanges]. apply NoDup_fmap_filter. by eapply DiffOwners_keys.
Qed.

(** ** The three plans, made again *)
Lemma point_ext p q ms x i : (∀ m, m ∈ ms → p m = q m) → point p ms x i ↔ point q ms x i.
Proof. intros E. unfold point. split; intros (m & Hm & Hp & ?); exists m; (split_and!; [done| |tauto..]); by rewrite ?E // -?E. Qed.

Lemma BuildOwners_inhabited ms inc exc act os : BuildOwners ms inc exc act = Ok os → ∃ x i, point (keeps inc act exc) ms x i.
Proof.
  unfold BuildOwners. fold (owner_points (keeps inc act exc) ms). case_bool_decide as E; [done|]. intros _.
  destruct (owner_points (keeps inc act exc) ms) as [|[x i] l] eqn:El; [done|]. exists x, i. apply elem_of_owner_points. rewrite El. by left.
Qed.

Lemma point_member p ms x i : point p ms x i → ∃ m, m ∈ ms ∧ p m = true.
Proof. intros (m & ? & ? & _). by exists m. Qed.

Lemma join_loop_existing ms occ ordered n :
  NoDup (addr <$> ms) → (∀ i, i ∈ ordered → ∃ m, m ∈ ms ∧ identity m = i ∧ state m = JOINING) → join_loop ms occ ordered n = Ok ms.
Proof.
  intros Hnd. induction ordered as [|i rest IH]; intros Hall; [done|]. cbn [join_loop].
  destruct (Hall i ltac:(by left)) as (m & Hm & <- & Hs). change (address (identity m)) with (addr m).
  rewrite find_address_complete // bool_decide_eq_true_2 // bool_decide_eq_true_2 //. apply IH. intros j Hj. apply Hall. by right.
Qed.

Section Again.
Context (st' : TopologyState) (Hr' : ring_valid (members st')) (Hok' : Forall member_ok (members st')).

(** The committed ring is the same: so are its owner list and the verdict of the checks. *)
Lemma committed_again cur os :
  ring_valid (members cur) → BuildOwners (members cur) false ∅ false = Ok os →
  (∀ x i, point is_committed (members st') x i ↔ point is_committed (members cur) x i) →
  BuildOwners (members st') false ∅ false = Ok os ∧ Validate st' = Ok tt.
Proof.
  intros Hr Hb Hpt. assert (BuildOwners (members st') false ∅ false = Ok os) as E.
  { rewrite -Hb. apply BuildOwners_ext; [apply Hr'|apply Hr|]. intros x i.
    rewrite (point_ext _ _ _ _ _ (λ m _, keeps_committed m)) Hpt. symmetry. apply point_ext. intros m _. apply keeps_committed. }
  split; [done|]. destruct (BuildOwners_inhabited _ _ _ _ _ E) as (x & i & (m0 & Hm0 & Hc0)%point_member).
  rewrite keeps_committed in Hc0. apply Validate_complete; [done..|]. by exists m0.
Qed.

Lemma replan_scale_out cur js n plan :
  Forall token_ok (flat_map tokens (members cur)) → PlanScaleOut (MkScaleOut cur js n) = Ok plan →
  MembersInState st' JOINING ≠ [] →
  (∀ x i, point is_committed (members st') x i ↔ point is_committed (members cur) x i) →
  (∀ x i, point prospective (members st') x i ↔ point prospective (members (next plan)) x i) →
  ∃ plan', PlanScaleOut (MkScaleOut st' (MembersInState st' JOINING) n) = Ok plan' ∧ ownerChanges plan' = ownerChanges plan.
Proof.
  intros Htok Hp Hne H1 H2. pose proof (PlanScaleOut_spec (MkScaleOut cur js n) plan Htok Hp) as (_ & Hrn & _). unfold PlanScaleOut in *. cbn [so_current joining tokensPerMember] in *.
  apply res_bind_Ok in Hp as ([] & HV & Hp). apply res_bind_Ok in Hp as ([] & _ & Hp). destruct (_ && _) eqn:Eg in Hp; [|done].
  apply andb_true_iff in Eg as [[_ Hn1]%andb_true_iff Hn2]. destruct (Validate_ok _ HV Htok) as [Hr _].
  apply res_bind_Ok in Hp as (ms & Hj & Hp). apply res_bind_Ok in Hp as (os1 & Hb1 & Hp). apply res_bind_Ok in Hp as (os2 & Hb2 & Hp).
  apply res_bind_Ok in Hp as (changes & Hd & [= <-]). cbn [next with_members members ownerChanges] in *.
  destruct (committed_again cur os1 Hr Hb1 H1) as [E1 EV].
  assert (BuildOwners (members st') true ∅ false = Ok os2) as E2.
  { rewrite -Hb2. apply BuildOwners_ext; [apply Hr'|apply Hrn|]. intros x i.
    rewrite (point_ext _ _ _ _ _ (λ m _, keeps_joining m)) H2. symmetry. apply point_ext. intros m _. apply keeps_joining. }
  rewrite EV. cbn [res_bind]. unfold ValidateIdentities. rewrite (in_state_ids (members st')) //. cbn [res_bind].
  rewrite bool_decide_eq_false_2 // Hn1 Hn2. cbn [negb andb]. rewrite join_loop_existing.
  - apply Hr'.
  - intros j. rewrite elem_of_merge_sort. intros Hj'%elem_of_in_state. done.
  - cbn [res_bind]. rewrite E1 E2. cbn [res_bind]. rewrite Hd. cbn [res_bind]. by eexists.
Qed.

Lemma replan_scale_in cur leaving plan :
  Forall token_ok (flat_map tokens (members cur)) → PlanScaleIn cur leaving = Ok plan →
  MembersInState st' LEAVING ≠ [] →
  (∀ x i, point is_committed (members st') x i ↔ point is_committed (members cur) x i) →
  (∀ x i, point (keeps false false (list_to_set (address <$> MembersInState st' LEAVING))) (members st') x i
          ↔ point (keeps false false (list_to_set (address <$> leaving))) (members cur) x i) →
  ∃ plan', PlanScaleIn st' (MembersInState st' LEAVING) = Ok plan' ∧ ownerChanges plan' = ownerChanges plan.
Proof.
  intros Htok Hp Hne H1 H2. unfold PlanScaleIn in *. apply res_bind_Ok in Hp as ([] & HV & Hp). apply res_bind_Ok in Hp as ([] & _ & Hp).
  apply res_bind_Ok in Hp as ([] & _ & Hp). destruct (negb _) in Hp; [|done]. destruct (Validate_ok _ HV Htok) as [Hr _].
  apply res_bind_Ok in Hp as (os1 & Hb1 & Hp). apply res_bind_Ok in Hp as (os2 & Hb2 & Hp). apply res_bind_Ok in Hp as (changes & Hd & [= <-]).
  destruct (committed_again cur os1 Hr Hb1 H1) as [E1 EV].
  assert (BuildOwners (members st') false (list_to_set (address <$> MembersInState st' LEAVING)) false = Ok os2) as E2.
  { rewrite -Hb2. apply BuildOwners_ext; [apply Hr'|apply Hr|done]. }
  rewrite EV. cbn [res_bind]. unfold ValidateIdentities. rewrite (in_state_ids (members st')) //. cbn [res_bind].
  rewrite ValidateSelectedMembers_complete.
  - apply Hr'.
  - intros j (m & Hm & Hi & Hs)%elem_of_in_state. exists m. split_and!; [done..|]. unfold is_committed. by rewrite Hs.
  - cbn [res_bind]. rewrite bool_decide_eq_false_2 //. cbn [negb]. rewrite E1 E2. cbn [res_bind]. rewrite Hd. cbn [res_bind]. by eexists.
Qed.

Lemma replan_failure cur failed (sel : list MemberIdentity) plan :
  Forall token_ok (flat_map tokens (members cur)) → PlanFailure cur failed = Ok plan →
  sel ≠ [] → ids_loop ∅ ∅ sel = Ok tt → (∀ i, i ∈ sel → ∃ m, m ∈ members st' ∧ identity m = i ∧ is_committed m = true) →
  (list_to_set (address <$> sel) : gset string) = list_to_set (address <$> failed) →
  (∀ x i, point is_committed (members st') x i ↔ point is_committed (members cur) x i) →
  (∀ x i, point (keeps false true (list_to_set (address <$> failed))) (members st') x i
          ↔ point (keeps false true (list_to_set (address <$> failed))) (members cur) x i) →
  ∃ plan', PlanFailure st' sel = Ok plan' ∧ ownerChanges plan' = ownerChanges plan.
Proof.
  intros Htok Hp Hne Hids Hsel Hset H1 H2. unfold PlanFailure in *. apply res_bind_Ok in Hp as ([] & HV & Hp). apply res_bind_Ok in Hp as ([] & _ & Hp).
  apply res_bind_Ok in Hp as ([] & _ & Hp). destruct (negb _) in Hp; [|done]. destruct (Validate_ok _ HV Htok) as [Hr _].
  apply res_bind_Ok in Hp as (os1 & Hb1 & Hp). apply res_bind_Ok in Hp as (os2 & Hb2 & Hp). apply res_bind_Ok in Hp as (changes & Hd & [= <-]).
  destruct (committed_again cur os1 Hr Hb1 H1) as [E1 EV].
  assert (BuildOwners (members st') false (list_to_set (address <$> failed)) true = Ok os2) as E2.
  { rewrite -Hb2. apply BuildOwners_ext; [apply Hr'|apply Hr|done]. }
  rewrite EV. cbn [res_bind]. unfold ValidateIdentities. rewrite Hids. cbn [res_bind].
  rewrite ValidateSelectedMembers_complete; [apply Hr'|done|]. cbn [res_bind]. rewrite bool_decide_eq_false_2 //. cbn [negb].
  rewrite Hset E1 E2. cbn [res_bind]. rewrite Hd. cbn [res_bind]. by eexists.
Qed.
End Again.
End Replan.
