(* ===== verification/Membership.v ===== *)
(** * Membership: worker lease values

    Model of [src/datasystem/cluster/membership/membership_types.h] and of
    [membership_value_codec.{h,cpp}]: what a worker publishes about itself under its lease, and the codec of
    that value, which also reads the textual format of older workers.

    The protobuf message [WorkerServiceInfoPb] ([protos/coordinator.proto]) is the record
    [MembershipValuePb]; the protobuf runtime is third-party code, so its two entry points are parameters of
    the codec.  What the round trip needs of them is documented behaviour of the wire format: parsing
    inverts serialization, and a message is a sequence of fields, each led by its tag. *)
From S2P Require Import Prelude NetUtil.
From Stdlib Require Import Ascii String.

Module Membership.
Local Open Scope Z_scope.
Local Open Scope char_scope.

Inductive MemberLifecycleState :=
  UNKNOWN | STARTING | RESTARTING | RECOVERING | READY | EXITING | DOWNGRADE_RESTARTING | LIFECYCLE_FAILED.
#[export] Instance MemberLifecycleState_eq_dec : EqDecision MemberLifecycleState.
Proof. solve_decision. Defined.

Record MembershipValue := MkMembershipValue {
  mv_timestamp : Z; mv_state : MemberLifecycleState; mv_hostId : NetUtil.chars; mv_compatibilityVersion : NetUtil.chars }.

Record MembershipRecord := MkMembershipRecord {
  mr_address : string; mr_state : MemberLifecycleState; mr_timestamp : Z; mr_hostId : string }.

(** ** The message *)
Inductive StatePb :=
| PB_UNSPECIFIED | PB_START | PB_RESTART | PB_RECOVER | PB_READY | PB_EXITING | PB_DOWNGRADE_RESTART
| PB_OTHER (n : Z).   (* proto3 enums are open *)

Record MembershipValuePb := MkPb { pb_timestamp : Z; pb_state : StatePb; pb_host_id : NetUtil.chars; pb_compatibility_version : NetUtil.chars }.

Definition MAX_MEMBERSHIP_VALUE_BYTES : Z := 64 * 1024.

Definition ToProtoState (s : MemberLifecycleState) : res StatePb :=
  match s with
  | STARTING => Ok PB_START
  | RESTARTING => Ok PB_RESTART
  | RECOVERING => Ok PB_RECOVER
  | READY => Ok PB_READY
  | EXITING => Ok PB_EXITING
  | DOWNGRADE_RESTARTING => Ok PB_DOWNGRADE_RESTART
  | _ => Fail K_INVALID
  end.

Definition FromProtoState (s : StatePb) : res MemberLifecycleState :=
  match s with
  | PB_START => Ok STARTING
  | PB_RESTART => Ok RESTARTING
  | PB_RECOVER => Ok RECOVERING
  | PB_READY => Ok READY
  | PB_EXITING => Ok EXITING
  | PB_DOWNGRADE_RESTART => Ok DOWNGRADE_RESTARTING
  | _ => Fail K_INVALID
  end.

(** ** The format of older workers: [timestamp;state;hostId;compatibilityVersion] *)

Definition is_digit (c : ascii) : bool := NetUtil.in_cls "0" "9" c.

Definition LooksLikeLegacyEtcdValue (bytes : NetUtil.chars) : bool :=
  match split_first ";" bytes with
  | None => false
  | Some ([], _) => false
  | Some (before, _) => bool_decide (before = ["_"]) || forallb is_digit before
  end.

(** Called on what [LooksLikeLegacyEtcdValue] accepts: ["_"] or digits, on which [std::stoul] reads the whole
    string and throws past the 64-bit range. *)
Definition ParseLegacyTimestamp (bytes : NetUtil.chars) : res Z :=
  if bool_decide (bytes = ["_"]) then Ok 0
  else check! forallb is_digit bytes && (NetUtil.dec_val bytes <? 2 ^ 64)%Z else K_INVALID in
       Ok (i64 (NetUtil.dec_val bytes)).

Definition FromLegacyState (s : NetUtil.chars) : res MemberLifecycleState :=
  if bool_decide (s = list_ascii_of_string "start") then Ok STARTING
  else if bool_decide (s = list_ascii_of_string "restart") then Ok RESTARTING
  else if bool_decide (s = list_ascii_of_string "recover") then Ok RECOVERING
  else if bool_decide (s = list_ascii_of_string "ready") then Ok READY
  else if bool_decide (s = list_ascii_of_string "exiting") then Ok EXITING
  else if bool_decide (s = list_ascii_of_string "d_rst") then Ok DOWNGRADE_RESTARTING
  else Fail K_INVALID.

(** The first field, and the rest if there is a delimiter. *)
Definition field (s : NetUtil.chars) : NetUtil.chars * option NetUtil.chars :=
  match split_first ";" s with Some (l, r) => (l, Some r) | None => (s, None) end.

Definition DecodeLegacyEtcdValue (bytes : NetUtil.chars) : res MembershipValue :=
  let '(ts, rest) := field bytes in
  let! timestamp := ParseLegacyTimestamp ts in
  let '(st, rest) := field (default [] rest) in
  let! state := FromLegacyState st in
  match rest with
  | None => Ok (MkMembershipValue timestamp state [] [])
  | Some rest => let '(host, rest) := field rest in Ok (MkMembershipValue timestamp state host (default [] rest))
  end.

(** ** The codec *)
Section Codec.
Context (SerializeToString : MembershipValuePb → option NetUtil.chars) (ParseFromString : NetUtil.chars → option MembershipValuePb).

Definition within_limit (bytes : NetUtil.chars) : bool := (Z.of_nat (List.length bytes) <=? MAX_MEMBERSHIP_VALUE_BYTES)%Z.

Definition Encode (value : MembershipValue) : res NetUtil.chars :=
  let! statePb := ToProtoState (mv_state value) in
  match SerializeToString (MkPb (mv_timestamp value) statePb (mv_hostId value) (mv_compatibilityVersion value)) with
  | None => Fail K_RUNTIME_ERROR
  | Some encoded => check! within_limit encoded else K_INVALID in Ok encoded
  end.

Definition Decode (bytes : NetUtil.chars) : res MembershipValue :=
  check! within_limit bytes else K_INVALID in
  if LooksLikeLegacyEtcdValue bytes then DecodeLegacyEtcdValue bytes
  else match ParseFromString bytes with
       | None => Fail K_INVALID
       | Some pb => let! state := FromProtoState (pb_state pb) in
                    Ok (MkMembershipValue (pb_timestamp pb) state (pb_host_id pb) (pb_compatibility_version pb))
       end.
End Codec.

(** A byte that can lead a field of the message: its number, 1 to 4, shifted by three, and a wire type. *)
Definition is_tag (c : ascii) : Prop := ∃ f w : N, (1 ≤ f ≤ 4)%N ∧ (w < 8)%N ∧ N_of_ascii c = (8 * f + w)%N.

Lemma tagged_not_legacy c s : is_tag c → LooksLikeLegacyEtcdValue (c :: s) = false.
Proof.
  intros (f & w & Hf & Hw & Hc). unfold LooksLikeLegacyEtcdValue. cbn [split_first]. case_bool_decide as E; [done|].
  destruct (split_first ";" s) as [[l r]|]; [|done].
  assert (is_digit c = false) as Hd.
  { unfold is_digit, NetUtil.in_cls. change (N_of_ascii "0") with 48%N. rewrite Hc. apply andb_false_iff. left. apply N.leb_gt. lia. }
  simpl. rewrite Hd /= orb_false_r. apply bool_decide_eq_false. intros [= -> _]. change (N_of_ascii "_") with 95%N in Hc. lia.
Qed.

Lemma state_roundtrip s pb : ToProtoState s = Ok pb → FromProtoState pb = Ok s.
Proof. destruct s; intros [= <-]; done. Qed.

(** The keyword of a state in the old format. *)
Definition legacy_keyword (s : MemberLifecycleState) : NetUtil.chars :=
  list_ascii_of_string
    match s with
    | STARTING => "start" | RESTARTING => "restart" | RECOVERING => "recover" | READY => "ready" | EXITING => "exiting"
    | DOWNGRADE_RESTARTING => "d_rst" | _ => ""
    end%string.

Definition has_keyword (s : MemberLifecycleState) : bool := match s with UNKNOWN | LIFECYCLE_FAILED => false | _ => true end.

Definition legacy_value (ts : NetUtil.chars) (s : MemberLifecycleState) (host compat : NetUtil.chars) : NetUtil.chars :=
  ts ++ ";" :: legacy_keyword s ++ ";" :: host ++ ";" :: compat.

Lemma keyword_parses s : has_keyword s = true → FromLegacyState (legacy_keyword s) = Ok s.
Proof. by destruct s. Qed.

Lemma keyword_plain s : ";" ∉ legacy_keyword s.
Proof. apply (bool_decide_unpack _). by destruct s. Qed.

Lemma digits_plain ts : forallb is_digit ts = true → ";" ∉ ts.
Proof.
  rewrite forallb_forall. intros Hd Hin. by specialize (Hd _ (proj1 (list_elem_of_In _ _) Hin)).
Qed.

Lemma dec_val_nonneg ts : forallb is_digit ts = true → (0 ≤ NetUtil.dec_val ts)%Z.
Proof.
  intros Hd. unfold NetUtil.dec_val.
  assert (∀ a, 0 ≤ a → 0 ≤ foldl (λ n c, 10 * n + NetUtil.digit_val c) a ts)%Z as Ha; [|by apply Ha].
  induction ts as [|c ts IH]; intros a Ha; [done|]. simpl in Hd |- *. apply andb_true_iff in Hd as [Hc Hd]. apply (IH Hd).
  unfold NetUtil.digit_val, is_digit, NetUtil.in_cls in *. apply andb_true_iff in Hc as [Hc%N.leb_le _].
  change (N_of_ascii "0") with 48%N in Hc. lia.
Qed.

(** ** Properties *)

(** what a worker publishes is what the others read.  For every serializer of the message that its parser
    inverts and whose output starts with a field tag, a value that encodes decodes to itself; in
    particular no encoded value is taken for one of the old textual format. *)
Theorem membership_roundtrip (serialize : MembershipValuePb → option NetUtil.chars)
    (parse : NetUtil.chars → option MembershipValuePb) (value : MembershipValue) (bytes : NetUtil.chars)
    (Hparse : ∀ pb s, serialize pb = Some s → parse s = Some pb)
    (Htag : ∀ pb c s, serialize pb = Some (c :: s) → is_tag c)
    (He : Encode serialize value = Ok bytes) :
  Decode parse bytes = Ok value.
Proof.
  unfold Encode in He. apply res_bind_Ok in He as (st & Hst & He). destruct (serialize _) as [enc|] eqn:Es; [|done].
  destruct (within_limit enc) eqn:El; [|done]. injection He as <-. unfold Decode. rewrite El.
  assert (LooksLikeLegacyEtcdValue enc = false) as ->.
  { destruct enc as [|c s]; [done|]. apply tagged_not_legacy. by eapply Htag. }
  rewrite (Hparse _ _ Es). cbn [pb_state]. rewrite (state_roundtrip _ _ Hst). simpl. by destruct value.
Qed.

(** A serializer for the witness: a tag byte and the fields that matter, each character of the two strings as
    it is; it handles the message of the witness and no other. *)
Definition sample : MembershipValue := MkMembershipValue 7 READY ["h"] [].
Definition sample_pb : MembershipValuePb := MkPb 7 PB_READY ["h"] [].
Definition sample_bytes : NetUtil.chars := ["008"; "007"; "016"; "004"; "026"; "001"; "h"].
Definition sample_serialize (pb : MembershipValuePb) : option NetUtil.chars :=
  match pb with
  | MkPb t PB_READY h c => if bool_decide (t = 7) && bool_decide (h = ["h"]) && bool_decide (c = []) then Some sample_bytes else None
  | _ => None
  end.
Definition sample_parse (s : NetUtil.chars) : option MembershipValuePb :=
  if bool_decide (s = sample_bytes) then Some sample_pb else None.

Lemma membership_roundtrip_witness :
  Encode sample_serialize sample = Ok sample_bytes ∧ Decode sample_parse sample_bytes = Ok sample.
Proof.
  assert (∀ pb s, sample_serialize pb = Some s → pb = sample_pb ∧ s = sample_bytes) as Hs.
  { intros [t [] h c] s; try done. simpl. repeat case_bool_decide; try done. intros [= <-]. by subst. }
  split; [vm_compute; reflexivity|]. apply (membership_roundtrip sample_serialize sample_parse sample).
  - intros pb s [-> ->]%Hs. vm_compute. reflexivity.
  - intros pb c s [_ [= -> _]]%Hs. exists 1%N, 0%N. split; [lia|]. split; [lia|]. reflexivity.
  - vm_compute. reflexivity.
Defined.

(** values written by older workers are understood.  Any timestamp below 2^63 in decimal, any state the
    old format has a word for, any host without a semicolon and any compatibility version decode to
    exactly those parts, whatever the protobuf parser would make of the bytes. *)
Theorem legacy_value_decodes (parse : NetUtil.chars → option MembershipValuePb) (ts host compat : NetUtil.chars)
    (s : MemberLifecycleState) (Hne : ts ≠ []) (Hd : forallb is_digit ts = true) (Hr : NetUtil.dec_val ts < 2 ^ 63)
    (Hs : has_keyword s = true) (Hh : ";" ∉ host) (Hl : within_limit (legacy_value ts s host compat) = true) :
  Decode parse (legacy_value ts s host compat) = Ok (MkMembershipValue (NetUtil.dec_val ts) s host compat).
Proof.
  unfold Decode. rewrite Hl. pose proof (digits_plain ts Hd) as Hp.
  pose proof (dec_val_nonneg ts Hd) as Hpos.
  assert (LooksLikeLegacyEtcdValue (legacy_value ts s host compat) = true) as ->.
  { unfold LooksLikeLegacyEtcdValue, legacy_value. rewrite split_first_app //. destruct ts; [done|]. by rewrite Hd orb_true_r. }
  unfold DecodeLegacyEtcdValue, field, legacy_value. rewrite split_first_app //. cbn [default].
  unfold ParseLegacyTimestamp. rewrite bool_decide_eq_false_2; [by intros ->|]. rewrite Hd.
  destruct (Z.ltb_spec (NetUtil.dec_val ts) (2 ^ 64)); [|lia]. cbn [andb res_bind].
  rewrite split_first_app; [apply keyword_plain|]. cbn [res_bind default]. rewrite keyword_parses //. cbn [res_bind].
  rewrite split_first_app //. rewrite i64_small; [unfold INT64_MAX; lia|]. done.
Qed.

Lemma legacy_value_decodes_witness :
  Decode (λ _, None) (list_ascii_of_string "1700;ready;node-3;v2") =
  Ok (MkMembershipValue 1700 READY (list_ascii_of_string "node-3") (list_ascii_of_string "v2")).
Proof.
  apply (legacy_value_decodes (λ _, None) (list_ascii_of_string "1700") (list_ascii_of_string "node-3")
           (list_ascii_of_string "v2") READY); [done|reflexivity|vm_compute; reflexivity|reflexivity| |reflexivity].
  apply (bool_decide_unpack _). vm_compute. exact I.
Defined.
End Membership.
