(* ===== verification/FailureClassifier.v ===== *)
(** * FailureClassifier: absence timers

    Model of [src/datasystem/cluster/control/topology_failure_classifier.{h,cpp}]: the controller's in-memory
    timers that turn the absence of a member's lease into a failure, and what one observation of the
    membership asks the controller to do.  Times are steady-clock nanoseconds and an argument of each
    operation. *)
From S2P Require Import Prelude NetUtil Topology HashRing Membership.
Import Topology Membership.

Module FailureClassifier.
Local Open Scope Z_scope.

Record classifier := MkClassifier {
  nodeDeadTimeout_ : Z;                    (* nanoseconds *)
  missingSince_ : gmap string Z;
  pausedAt_ : option Z }.

Record MemberAbsenceObservation := MkAbsence { ab_identity : MemberIdentity; ab_state : MemberState; missingMs : Z }.
Record MemberAbsenceSample := MkSample { sm_identity : MemberIdentity; sm_state : MemberState }.

Record FailureClassification := MkClassification {
  removeInitial : list MemberIdentity;
  removeJoining : list MemberIdentity;
  confirmedFailure : list MemberIdentity;
  newlyMissing : list MemberAbsenceObservation;
  restored : list MemberAbsenceObservation;
  confirmedMissing : list MemberAbsenceObservation }.

Definition no_classification : FailureClassification := MkClassification [] [] [] [] [] [].

Definition DurationMs (start end_ : Z) : Z := Z.quot (end_ - start) 1000000.

Definition with_missing (missing : gmap string Z) (c : classifier) : classifier :=
  MkClassifier (nodeDeadTimeout_ c) missing (pausedAt_ c).

Definition Resume (c : classifier) (now : Z) : classifier :=
  match pausedAt_ c with
  | None => c
  | Some p => MkClassifier (nodeDeadTimeout_ c) ((λ since, since + (now - p)) <$> missingSince_ c) None
  end.

Definition Pause (c : classifier) (now : Z) : classifier :=
  match pausedAt_ c with None => MkClassifier (nodeDeadTimeout_ c) (missingSince_ c) (Some now) | Some _ => c end.

Definition ResetMissing (c : classifier) (address : string) : classifier := with_missing (delete address (missingSince_ c)) c.

Definition Reset (c : classifier) : classifier := MkClassifier (nodeDeadTimeout_ c) ∅ None.

(** The addresses of the records; an empty or repeated one is an error. *)
Fixpoint present_loop (present : gset string) (records : list MembershipRecord) : res (gset string) :=
  match records with
  | [] => Ok present
  | r :: rest => check! negb (empty_str (mr_address r)) && bool_decide (mr_address r ∉ present) else K_INVALID in
                 present_loop ({[mr_address r]} ∪ present) rest
  end.

(** ** One observation *)
Section Observe.
Context (timeout now : Z) (present : gset string).

(** The body of the loop, for one member. *)
Definition observe_member (m : Member) (acc : gmap string Z * FailureClassification * list MemberIdentity)
    : gmap string Z * FailureClassification * list MemberIdentity :=
  let '(missing, o, retained) := acc in
  let a := addr m in
  if bool_decide (state m = FAILED) then (delete a missing, o, retained ++ [identity m])
  else if bool_decide (a ∈ present) then
    match missing !! a with
    | Some since =>
      (delete a missing,
       MkClassification (removeInitial o) (removeJoining o) (confirmedFailure o) (newlyMissing o)
         (restored o ++ [MkAbsence (identity m) (state m) (DurationMs since now)]) (confirmedMissing o), retained)
    | None => acc
    end
  else match state m with
  | INITIAL => (missing, MkClassification (removeInitial o ++ [identity m]) (removeJoining o) (confirmedFailure o)
                           (newlyMissing o) (restored o) (confirmedMissing o), retained)
  | JOINING => (missing, MkClassification (removeInitial o) (removeJoining o ++ [identity m]) (confirmedFailure o)
                           (newlyMissing o) (restored o) (confirmedMissing o), retained)
  | _ =>
    let inserted := bool_decide (missing !! a = None) in
    let since := default now (missing !! a) in
    let ms := if inserted then 0 else DurationMs since now in
    let ob := MkAbsence (identity m) (state m) ms in
    let confirmed := timeout <=? now - since in
    (<[a := since]> missing,
     MkClassification (removeInitial o) (removeJoining o)
       (if confirmed then confirmedFailure o ++ [identity m] else confirmedFailure o)
       (if inserted then newlyMissing o ++ [ob] else newlyMissing o) (restored o)
       (if confirmed then confirmedMissing o ++ [ob] else confirmedMissing o), retained)
  end.
End Observe.

Definition Observe (c : classifier) (topology : TopologySnapshot) (records : list MembershipRecord) (now : Z)
    : classifier * res FailureClassification :=
  if nodeDeadTimeout_ c <? 0 then (c, Fail K_INVALID)
  else
    let c := Resume c now in
    match present_loop ∅ records with
    | Fail code => (c, Fail code)
    | Ok present =>
      let '(missing, o, retained) :=
        foldl (λ acc m, observe_member (nodeDeadTimeout_ c) now present m acc) (missingSince_ c, no_classification, [])
          (members (state_ topology)) in
      let confirmed := match confirmedFailure o with
                       | [] => []
                       | l => merge_sort HashRing.ident_le (l ++ retained)
                       end in
      let kept := filter (λ kv, is_ok (FindMemberByAddress topology kv.1) = true) missing in
      (with_missing kept c,
       Ok (MkClassification (removeInitial o) (removeJoining o) confirmed (newlyMissing o) (restored o) (confirmedMissing o)))
    end.

(** ** A bounded set of samples *)
Fixpoint sampled_loop (sampled : gset string) (samples : list MemberAbsenceSample) : res (gset string) :=
  match samples with
  | [] => Ok sampled
  | s :: rest => check! negb (empty_str (address (sm_identity s))) && bool_decide (address (sm_identity s) ∉ sampled)
                   else K_INVALID in
                 sampled_loop ({[address (sm_identity s)]} ∪ sampled) rest
  end.

Definition sample_step (timeout now : Z) (acc : gmap string Z * list MemberAbsenceObservation) (s : MemberAbsenceSample)
    : gmap string Z * list MemberAbsenceObservation :=
  let '(missing, out) := acc in
  let a := address (sm_identity s) in
  let inserted := bool_decide (missing !! a = None) in
  let since := default now (missing !! a) in
  (<[a := since]> missing,
   if timeout <=? now - since
   then out ++ [MkAbsence (sm_identity s) (sm_state s) (if inserted then 0 else DurationMs since now)] else out).

Definition ObserveMissingSamples (c : classifier) (samples : list MemberAbsenceSample) (now : Z)
    : classifier * res (list MemberAbsenceObservation) :=
  if nodeDeadTimeout_ c <? 0 then (c, Fail K_INVALID)
  else match sampled_loop ∅ samples with
  | Fail code => (c, Fail code)
  | Ok sampled =>
    let c := Resume (with_missing (filter (λ kv, kv.1 ∈ sampled) (missingSince_ c)) c) now in
    let '(missing, out) := foldl (sample_step (nodeDeadTimeout_ c) now) (missingSince_ c, []) samples in
    (with_missing missing c, Ok out)
  end.

(** ** What the loop computes *)
Section Loop.
Context (timeout now : Z) (present : gset string).

(** A member that has not failed and whose lease is gone. *)
Definition absent (m : Member) : bool := negb (bool_decide (state m = FAILED)) && negb (bool_decide (addr m ∈ present)).

(** The timer of a member's address after the observation, from the one before. *)
Definition timer_after (m : Member) (old : option Z) : option Z :=
  if absent m then (if is_committed m then Some (default now old) else old) else None.

Definition is_confirmed (missing : gmap string Z) (m : Member) : bool :=
  absent m && is_committed m && (timeout <=? now - default now (missing !! addr m)).

Lemma observe_member_spec m missing o r :
  let '(missing', o', r') := observe_member timeout now present m (missing, o, r) in
  (∀ a, missing' !! a = if decide (addr m = a) then timer_after m (missing !! a) else missing !! a)
  ∧ removeInitial o' = removeInitial o ++ (if absent m && bool_decide (state m = INITIAL) then [identity m] else [])
  ∧ removeJoining o' = removeJoining o ++ (if absent m && bool_decide (state m = JOINING) then [identity m] else [])
  ∧ confirmedFailure o' = confirmedFailure o ++ (if is_confirmed missing m then [identity m] else [])
  ∧ r' = r ++ (if bool_decide (state m = FAILED) then [identity m] else []).
Proof.
  unfold observe_member, timer_after, is_confirmed, absent, is_committed.
  assert (∀ a, (if decide (addr m = a) then missing !! a else missing !! a) = missing !! a) as Hsame by (intros a; by case_decide).
  destruct (bool_decide (state m = FAILED)) eqn:Ef; cbn [negb andb].
  { rewrite !app_nil_r. split_and!; try done. intros a. rewrite lookup_delete. by case_decide. }
  apply bool_decide_eq_false in Ef. destruct (bool_decide (addr m ∈ present)) eqn:Ep; cbn [negb andb].
  { destruct (missing !! addr m) as [since|] eqn:Em; cbn [removeInitial removeJoining confirmedFailure]; rewrite !app_nil_r; split_and!; try done;
      intros a; [rewrite lookup_delete; by case_decide|]. destruct (decide (addr m = a)) as [<-|]; [done|done]. }
  destruct (state m) eqn:Es; try done; simpl; rewrite ?app_nil_r;
    (split_and!; [intros a; rewrite ?lookup_insert; by destruct (decide (addr m = a)) as [<-|]|..]); try done;
    by destruct (_ <=? _); rewrite ?app_nil_r.
Qed.

Lemma is_confirmed_ext missing missing' m :
  missing !! addr m = missing' !! addr m → is_confirmed missing m = is_confirmed missing' m.
Proof. intros E. unfold is_confirmed. by rewrite E. Qed.

Lemma find_address_cons m ms a :
  HashRing.find_address (m :: ms) a = if decide (addr m = a) then Some m else HashRing.find_address ms a.
Proof.
  unfold HashRing.find_address. destruct (decide (addr m = a)) as [E|E]; [by rewrite filter_cons_True|by rewrite filter_cons_False].
Qed.

Lemma observe_loop ms missing o r :
  NoDup (addr <$> ms) →
  let '(missing', o', r') := foldl (λ acc m, observe_member timeout now present m acc) (missing, o, r) ms in
  (∀ a, missing' !! a = match HashRing.find_address ms a with
                        | Some m => timer_after m (missing !! a) | None => missing !! a end)
  ∧ removeInitial o' = removeInitial o ++ (identity <$> filter (λ m, absent m && bool_decide (state m = INITIAL) = true) ms)
  ∧ removeJoining o' = removeJoining o ++ (identity <$> filter (λ m, absent m && bool_decide (state m = JOINING) = true) ms)
  ∧ confirmedFailure o' = confirmedFailure o ++ (identity <$> filter (λ m, is_confirmed missing m = true) ms)
  ∧ r' = r ++ (identity <$> filter (λ m, state m = FAILED) ms).
Proof.
  revert missing o r. induction ms as [|m ms IH]; intros missing o r.
  { intros _. simpl. rewrite !app_nil_r. done. }
  rewrite fmap_cons. intros [Hn Hnd]%NoDup_cons. cbn [foldl].
  pose proof (observe_member_spec m missing o r) as Hm.
  destruct (observe_member timeout now present m (missing, o, r)) as [[missing1 o1] r1].
  destruct Hm as (H1 & H2 & H3 & H4 & H5). specialize (IH missing1 o1 r1 Hnd).
  destruct (foldl _ (missing1, o1, r1) ms) as [[missing' o'] r'].
  destruct IH as (I1 & I2 & I3 & I4 & I5).
  assert (∀ x, x ∈ ms → missing1 !! addr x = missing !! addr x) as Hother.
  { intros x Hx. rewrite H1. destruct (decide (addr m = addr x)) as [E|]; [|done]. destruct Hn. rewrite E. by apply list_elem_of_fmap_2. }
  assert (∀ (P : Member → bool) (k : list MemberIdentity), k ++ (if P m then [identity m] else []) ++ (identity <$> filter (λ x, P x = true) ms)
    = k ++ (identity <$> filter (λ x, P x = true) (m :: ms))) as Hcons.
  { intros P k. f_equal. destruct (P m) eqn:E; [by rewrite filter_cons_True|rewrite filter_cons_False //; congruence]. }
  split_and!.
  - intros a. rewrite I1 H1 find_address_cons. destruct (decide (addr m = a)) as [<-|Hne]; [|done].
    destruct (HashRing.find_address ms (addr m)) as [x|] eqn:Ex; [|done].
    apply HashRing.find_address_some in Ex as [Hx E]. destruct Hn. rewrite -E. by apply list_elem_of_fmap_2.
  - by rewrite I2 H2 -assoc (Hcons (λ m, absent m && bool_decide (state m = INITIAL))).
  - by rewrite I3 H3 -assoc (Hcons (λ m, absent m && bool_decide (state m = JOINING))).
  - rewrite I4 H4 -assoc. rewrite -(Hcons (is_confirmed missing)). do 3 f_equal. apply list_filter_ext_in.
    intros x Hx. by rewrite (is_confirmed_ext missing1 missing x (Hother x Hx)).
  - rewrite I5 H5 -assoc. f_equal. case_bool_decide as E; [by rewrite filter_cons_True|by rewrite filter_cons_False].
Qed.
End Loop.

(** ** Abstract timers

    How long each address has been seen absent while the membership was readable, as of a moment of the
    clock; the clock of the timers is stopped while it is not readable. *)
Record timers := MkTimers { durations : gmap string Z; running_since : option Z }.

Definition elapsed (s : timers) (now : Z) : gmap string Z :=
  match running_since s with Some t => (λ d, d + (now - t)) <$> durations s | None => durations s end.

(** The timers a classifier stands for at time [t]. *)
Definition abs (c : classifier) (t : Z) : timers :=
  MkTimers ((λ since, default t (pausedAt_ c) - since) <$> missingSince_ c)
    (match pausedAt_ c with Some _ => None | None => Some t end).

Lemma lookup_elapsed c t now a :
  elapsed (abs c t) now !! a = (λ since, default now (pausedAt_ c) - since) <$> missingSince_ c !! a.
Proof.
  unfold elapsed, abs. destruct (pausedAt_ c) as [p|]; simpl; rewrite !lookup_fmap //. destruct (missingSince_ c !! a); simpl; [|done]. f_equal. lia.
Qed.

Lemma Resume_elapsed c t now a :
  (λ since, now - since) <$> missingSince_ (Resume c now) !! a = elapsed (abs c t) now !! a.
Proof.
  rewrite lookup_elapsed. unfold Resume. destruct (pausedAt_ c) as [p|]; [|done]. simpl. rewrite lookup_fmap.
  destruct (missingSince_ c !! a); simpl; [|done]. f_equal. lia.
Qed.

Lemma Resume_frame c now : pausedAt_ (Resume c now) = None ∧ nodeDeadTimeout_ (Resume c now) = nodeDeadTimeout_ c.
Proof. unfold Resume. by destruct (pausedAt_ c) eqn:E. Qed.

Lemma since_elapsed c t now a : now - default now (missingSince_ (Resume c now) !! a) = default 0 (elapsed (abs c t) now !! a).
Proof. rewrite -Resume_elapsed. destruct (missingSince_ (Resume c now) !! a); simpl; lia. Qed.

Lemma present_loop_ok seen records present :
  present_loop seen records = Ok present →
  NoDup (mr_address <$> records) ∧ present = list_to_set (mr_address <$> records) ∪ seen.
Proof.
  revert seen. induction records as [|r records IH]; intros seen; cbn [present_loop].
  { intros [= <-]. split; [constructor|set_solver]. }
  destruct (_ && _) eqn:E; [|done]. apply andb_true_iff in E as [_ Hn%bool_decide_eq_true]. intros Hl.
  assert (∀ x, x ∈ mr_address <$> records → x ∉ ({[mr_address r]} ∪ seen : gset string)) as Hfresh.
  { clear IH. revert Hl. generalize ({[mr_address r]} ∪ seen : gset string) as s0. induction records as [|q records IHr]; intros s0; cbn [present_loop].
    - intros _ x Hx. by apply elem_of_nil in Hx.
    - destruct (_ && _) eqn:E; [|done]. apply andb_true_iff in E as [_ Hq%bool_decide_eq_true]. intros Hl x [->|Hx]%elem_of_cons; [done|].
      specialize (IHr _ Hl x Hx). set_solver. }
  apply IH in Hl as [Hnd ->]. split; [|set_solver]. rewrite fmap_cons. apply NoDup_cons. split; [|done]. intros Hx%Hfresh. set_solver.
Qed.

Lemma FindMemberByAddress_none topo st rev dig a :
  Create st rev dig = Ok topo →
  is_ok (FindMemberByAddress topo a) = true ↔ is_Some (HashRing.find_address (members (state_ topo)) a).
Proof.
  intros Hc. assert (∀ m, FindMemberByAddress topo a = Ok m ↔ m ∈ members (state_ topo) ∧ addr m = a) as Hf.
  { apply Create_ok in Hc as (Hv & -> & _). intros m. apply find_by_index. cbn [state_ BuildIndexes]. apply (canon_valid st Hv). }
  destruct (HashRing.find_address (members (state_ topo)) a) as [m|] eqn:E.
  - apply HashRing.find_address_some in E as [Hm Ha]. rewrite (proj2 (Hf m)); [done|]. simpl. naive_solver.
  - apply HashRing.find_address_none in E. destruct (FindMemberByAddress topo a) as [m|] eqn:Ef; simpl; [|by split; [|intros [? ?]]].
    destruct (proj1 (Hf m) eq_refl) as [Hm Ha]. destruct E. rewrite -Ha. by apply list_elem_of_fmap_2.
Qed.

Lemma Create_addrs st rev dig topo : Create st rev dig = Ok topo → NoDup (addr <$> members (state_ topo)).
Proof. intros (Hv & -> & _)%Create_ok. cbn [state_ BuildIndexes]. apply (canon_valid st Hv). Qed.

(** The members whose absence has lasted long enough. *)
Definition overdue (timeout : Z) (present : gset string) (e : gmap string Z) (m : Member) : Prop :=
  absent present m = true ∧ is_committed m = true ∧ timeout ≤ default 0 (e !! addr m).

Lemma Observe_spec c t st rev dig topo records now :
  Create st rev dig = Ok topo → 0 ≤ nodeDeadTimeout_ c → is_ok (present_loop ∅ records) = true →
  let ms := members (state_ topo) in let e := elapsed (abs c t) now in
  let present : gset string := list_to_set (mr_address <$> records) in
  ∃ o, (Observe c topo records now).2 = Ok o
  ∧ running_since (abs (Observe c topo records now).1 now) = Some now
  ∧ nodeDeadTimeout_ (Observe c topo records now).1 = nodeDeadTimeout_ c
  ∧ (∀ a, durations (abs (Observe c topo records now).1 now) !! a =
       match HashRing.find_address ms a with
       | Some m => if absent present m then (if is_committed m then Some (default 0 (e !! a)) else e !! a) else None
       | None => None
       end)
  ∧ removeInitial o = (identity <$> filter (λ m, absent present m && bool_decide (state m = INITIAL) = true) ms)
  ∧ removeJoining o = (identity <$> filter (λ m, absent present m && bool_decide (state m = JOINING) = true) ms)
  ∧ ∀ i, i ∈ confirmedFailure o ↔
      (∃ m, m ∈ ms ∧ overdue (nodeDeadTimeout_ c) present e m)
      ∧ ∃ m, m ∈ ms ∧ identity m = i ∧ (overdue (nodeDeadTimeout_ c) present e m ∨ state m = FAILED).
Proof.
  intros Hc Hto Hp ms e present. unfold Observe. destruct (Z.ltb_spec (nodeDeadTimeout_ c) 0); [lia|].
  destruct (present_loop ∅ records) as [pr|] eqn:Ep; [|done]. apply present_loop_ok in Ep as [_ ->]. rewrite union_empty_r_L. fold present.
  destruct (Resume_frame c now) as [Hpz Hnt]. set (c1 := Resume c now) in *.
  pose proof (observe_loop (nodeDeadTimeout_ c1) now present ms (missingSince_ c1) no_classification [] (Create_addrs _ _ _ _ Hc)) as Hl.
  fold ms. destruct (foldl _ _ ms) as [[missing o] retained]. destruct Hl as (I1 & I2 & I3 & I4 & I5).
  cbn [no_classification removeInitial removeJoining confirmedFailure app] in I2, I3, I4, I5. rewrite Hnt in I4 |- *.
  assert (∀ m, is_confirmed (nodeDeadTimeout_ c) now present (missingSince_ c1) m = true ↔ overdue (nodeDeadTimeout_ c) present e m) as Hov.
  { intros m. unfold is_confirmed, overdue, c1. rewrite (since_elapsed c t now). rewrite !andb_true_iff Z.leb_le. unfold e. tauto. }
  eexists. split; [reflexivity|]. cbn [fst snd]. split_and!.
  - unfold abs. cbn [running_since with_missing pausedAt_]. by rewrite Hpz.
  - done.
  - intros a. unfold abs. cbn [durations with_missing pausedAt_ missingSince_]. rewrite Hpz lookup_fmap map_lookup_filter. cbn [default].
    pose proof (FindMemberByAddress_none topo st rev dig a Hc) as Hfind. fold ms in Hfind. rewrite I1.
    pose proof (Resume_elapsed c t now a) as Hre. fold c1 e in Hre.
    destruct (HashRing.find_address ms a) as [m|].
    + unfold timer_after. destruct (absent present m); [|done]. destruct (is_committed m); simpl.
      * rewrite option_guard_True; [by apply Hfind|]. simpl. f_equal. rewrite -Hre. destruct (missingSince_ c1 !! a); simpl; lia.
      * rewrite -Hre. destruct (missingSince_ c1 !! a); simpl; [|done]. rewrite option_guard_True; [by apply Hfind|done].
    + destruct (missingSince_ c1 !! a); simpl; [|done]. rewrite option_guard_False; [|done]. intros Hx. by apply Hfind in Hx as [? ?].
  - exact I2.
  - exact I3.
  - intros i. cbn [confirmedFailure]. rewrite I4 I5.
    destruct (filter (λ m, is_confirmed (nodeDeadTimeout_ c) now present (missingSince_ c1) m = true) ms) as [|m0 l] eqn:Ef.
    + simpl. split; [by intros ?%elem_of_nil|]. intros [(m & Hm & Ho%Hov) _].
      assert (m ∈ filter (λ m, is_confirmed (nodeDeadTimeout_ c) now present (missingSince_ c1) m = true) ms) as Hx by (by apply list_elem_of_filter).
      rewrite Ef in Hx. by apply elem_of_nil in Hx.
    + rewrite -Ef. assert (m0 ∈ ms ∧ overdue (nodeDeadTimeout_ c) present e m0) as H0.
      { assert (m0 ∈ filter (λ m, is_confirmed (nodeDeadTimeout_ c) now present (missingSince_ c1) m = true) ms) as Hx by (rewrite Ef; left).
        apply list_elem_of_filter in Hx as [?%Hov ?]. done. }
      assert (∀ X, match identity <$> filter (λ m, is_confirmed (nodeDeadTimeout_ c) now present (missingSince_ c1) m = true) ms with
        | [] => [] | l0 => merge_sort HashRing.ident_le (l0 ++ X) end = merge_sort HashRing.ident_le
          ((identity <$> filter (λ m, is_confirmed (nodeDeadTimeout_ c) now present (missingSince_ c1) m = true) ms) ++ X)) as ->.
      { intros X. by rewrite Ef. }
      rewrite elem_of_merge_sort elem_of_app !list_elem_of_fmap. setoid_rewrite list_elem_of_filter. setoid_rewrite Hov. split.
      * intros [(m & -> & ? & ?)|(m & -> & ? & ?)]; (split; [by exists m0|]); exists m; auto.
      * intros [_ (m & Hm & <- & [?|?])]; [left|right]; by exists m.
Qed.

(** one observation of the membership, against the abstract timers.  With a topology that validates, a
    timeout that is not negative and records with distinct addresses, [Observe] succeeds and the timers run
    again; a committed member without a record has the absence it had, or one that starts now; an INITIAL or
    JOINING one keeps its timer, and every other address has none.  The members to remove at once are the
    absent INITIAL and JOINING ones, in the order of the topology; failure is confirmed of nobody unless a
    committed member has been absent, while the membership was readable, for the timeout, and then of all
    such members and of those that have failed before. *)
Theorem Observe_exact c t st rev dig topo records now :
  Create st rev dig = Ok topo → 0 ≤ nodeDeadTimeout_ c → is_ok (present_loop ∅ records) = true →
  let ms := members (state_ topo) in let e := elapsed (abs c t) now in
  let present : gset string := list_to_set (mr_address <$> records) in
  ∃ o, (Observe c topo records now).2 = Ok o
  ∧ running_since (abs (Observe c topo records now).1 now) = Some now
  ∧ nodeDeadTimeout_ (Observe c topo records now).1 = nodeDeadTimeout_ c
  ∧ (∀ a, durations (abs (Observe c topo records now).1 now) !! a =
       match HashRing.find_address ms a with
       | Some m => if absent present m then (if is_committed m then Some (default 0 (e !! a)) else e !! a) else None
       | None => None
       end)
  ∧ removeInitial o = (identity <$> filter (λ m, absent present m && bool_decide (state m = INITIAL) = true) ms)
  ∧ removeJoining o = (identity <$> filter (λ m, absent present m && bool_decide (state m = JOINING) = true) ms)
  ∧ ∀ i, i ∈ confirmedFailure o ↔
      (∃ m, m ∈ ms ∧ overdue (nodeDeadTimeout_ c) present e m)
      ∧ ∃ m, m ∈ ms ∧ identity m = i ∧ (overdue (nodeDeadTimeout_ c) present e m ∨ state m = FAILED).
Proof. apply Observe_spec. Qed.

(** Two records of the membership, and an hour-long timeout in seconds of nanoseconds. *)
Definition snap0 : TopologySnapshot := BuildIndexes (canon demo) 9 digest0.
Definition only_second : list MembershipRecord := [MkMembershipRecord "10.0.0.2:8001" READY 0 "host-2"].
Definition timers0 : classifier := MkClassifier 60000000000 ∅ None.

Lemma Observe_exact_witness :
  ∃ o, (Observe timers0 snap0 only_second 1000).2 = Ok o ∧ removeJoining o = [identity m3] ∧ confirmedFailure o = []
    ∧ running_since (abs (Observe timers0 snap0 only_second 1000).1 1000) = Some 1000.
Proof.
  destruct (Observe_exact timers0 0 demo 9 digest0 snap0 only_second 1000) as (o & Ho & Hr & _); [reflexivity|by vm_compute|reflexivity|].
  exists o. split; [exact Ho|]. split; [|split; [|exact Hr]]; vm_compute in Ho; by injection Ho as <-.
Defined.

(** ** Runs of observations

    What the controller does with one classifier between two resets: it observes a membership that it could
    read and pauses when it could not. *)
Inductive observation :=
| OObserve (topo : TopologySnapshot) (records : list MembershipRecord) (now : Z)
| OPause (now : Z).

Definition ob_time (ob : observation) : Z := match ob with OObserve _ _ now | OPause now => now end.

Definition observe_step (c : classifier) (ob : observation) : classifier :=
  match ob with OObserve topo records now => (Observe c topo records now).1 | OPause now => Pause c now end.

(** The membership shows the member [i] as committed and without a record. *)
Definition shows_absent (i : MemberIdentity) (ob : observation) : Prop :=
  ∃ st rev dig topo records now m, ob = OObserve topo records now ∧ Create st rev dig = Ok topo
    ∧ is_ok (present_loop ∅ records) = true ∧ m ∈ members (state_ topo) ∧ identity m = i ∧ is_committed m = true
    ∧ address i ∉ mr_address <$> records.

(** The time between the steps of a run, from [t], in which the timers run: after an observation they do, after a
    pause they do not. *)
Fixpoint readable_time (running : bool) (t : Z) (obs : list observation) (now : Z) : Z :=
  match obs with
  | [] => if running then now - t else 0
  | ob :: rest => (if running then ob_time ob - t else 0)
                  + readable_time (match ob with OObserve _ _ _ => true | OPause _ => false end) (ob_time ob) rest now
  end.

Lemma find_address_in ms m : NoDup (addr <$> ms) → m ∈ ms → HashRing.find_address ms (addr m) = Some m.
Proof.
  intros Hnd Hm. destruct (HashRing.find_address ms (addr m)) as [x|] eqn:E.
  - apply HashRing.find_address_some in E as [Hx E]. f_equal. by apply (NoDup_fmap_elem addr ms).
  - apply HashRing.find_address_none in E. destruct E. by apply list_elem_of_fmap_2.
Qed.

Lemma shown_absent m records :
  is_committed m = true → addr m ∉ mr_address <$> records → absent (list_to_set (mr_address <$> records)) m = true.
Proof.
  intros Hs Hf. unfold absent. rewrite !bool_decide_eq_false_2 //; [|by rewrite elem_of_list_to_set].
  intros E. by rewrite /is_committed E in Hs.
Qed.

Lemma Pause_elapsed c t p now : elapsed (abs (Pause c p) t) now = elapsed (abs c t) p.
Proof. apply map_eq. intros a. rewrite !lookup_elapsed. unfold Pause. by destruct (pausedAt_ c) eqn:E; simpl; rewrite ?E. Qed.

Lemma elapsed_shift c t t' now : elapsed (abs c t) now = elapsed (abs c t') now.
Proof. apply map_eq. intros a. by rewrite !lookup_elapsed. Qed.

Definition is_observe (ob : observation) : bool := match ob with OObserve _ _ _ => true | OPause _ => false end.

(** One step of a run in which the member stays absent: the timer goes on from what it was, or from zero. *)
Lemma step_timer i c ob :
  0 ≤ nodeDeadTimeout_ c → shows_absent i ob ∨ is_observe ob = false →
  nodeDeadTimeout_ (observe_step c ob) = nodeDeadTimeout_ c
  ∧ bool_decide (pausedAt_ (observe_step c ob) = None) = is_observe ob
  ∧ ∀ t d, elapsed (abs c t) (ob_time ob) !! address i = Some d ∨ is_observe ob = true ∧ d = 0 ∧ missingSince_ c !! address i = None →
    ∀ t', elapsed (abs (observe_step c ob) t') (ob_time ob) !! address i = Some d.
Proof.
  intros Hto [(st & rev & dig & topo & records & now & m & -> & Hc & Hp & Hin & <- & Hm & Hab)|Hob].
  - cbn [ob_time observe_step is_observe]. pose proof (λ t, Observe_spec c t st rev dig topo records now Hc Hto Hp) as Hspec.
    destruct (Hspec now) as (_ & _ & Hr & Hn & _).
    assert (pausedAt_ (Observe c topo records now).1 = None) as Hpz by (revert Hr; unfold abs; simpl; by destruct (pausedAt_ _)).
    split_and!; [done|by rewrite Hpz|]. intros t d Hd t'. rewrite (elapsed_shift _ t' now).
    destruct (Hspec t) as (_ & _ & _ & _ & Hdur & _).
    unfold elapsed at 1. rewrite Hr lookup_fmap Hdur (find_address_in _ m); [by eapply Create_addrs|done|].
    rewrite shown_absent // Hm. destruct Hd as [->|(_ & -> & Hnone)]; simpl; [f_equal; lia|].
    rewrite lookup_elapsed Hnone. simpl. f_equal. lia.
  - destruct ob as [|p]; [done|]. cbn [ob_time observe_step is_observe]. split_and!; [by unfold Pause; destruct (pausedAt_ c)| |].
    + unfold Pause. destruct (pausedAt_ c) eqn:E; simpl; by rewrite ?E.
    + intros t d [Hd|[? _]] t'; [|done]. by rewrite (elapsed_shift _ t' t) Pause_elapsed.
Qed.

Lemma elapsed_advance c t x now a d :
  elapsed (abs c x) t !! a = Some d →
  elapsed (abs c x) now !! a = Some (d + if bool_decide (pausedAt_ c = None) then now - t else 0).
Proof.
  rewrite !lookup_elapsed. destruct (missingSince_ c !! a) as [s|]; [|done]. destruct (pausedAt_ c); simpl; intros [= <-]; f_equal; lia.
Qed.

Lemma run_timer i obs : ∀ c t d,
  0 ≤ nodeDeadTimeout_ c → Forall (λ ob, shows_absent i ob ∨ is_observe ob = false) obs →
  (∀ x, elapsed (abs c x) t !! address i = Some d) →
  nodeDeadTimeout_ (foldl observe_step c obs) = nodeDeadTimeout_ c
  ∧ ∀ x now, elapsed (abs (foldl observe_step c obs) x) now !! address i
             = Some (d + readable_time (bool_decide (pausedAt_ c = None)) t obs now).
Proof.
  induction obs as [|ob obs IH]; intros c t d Hto Hall Hd; cbn [foldl readable_time].
  { split; [done|]. intros x now. by apply elapsed_advance. }
  apply Forall_cons in Hall as [Hob Hall]. destruct (step_timer i c ob Hto Hob) as (Hn & Hp & Hs).
  assert (∀ x, elapsed (abs (observe_step c ob) x) (ob_time ob) !! address i
    = Some (d + if bool_decide (pausedAt_ c = None) then ob_time ob - t else 0)) as Hd'.
  { apply (Hs t). left. by apply elapsed_advance. }
  assert (0 ≤ nodeDeadTimeout_ (observe_step c ob)) as Hto' by (by rewrite Hn). destruct (IH _ _ _ Hto' Hall Hd') as [IH1 IH2]. split; [congruence|]. intros x now. rewrite IH2 Hp.
  replace (match ob with OObserve _ _ _ => true | OPause _ => false end) with (is_observe ob) by done. f_equal. lia.
Qed.

(** C28: the controller declares a failure when, and only when, the absence has lasted.  From the first
    observation that shows a committed member without a record (it had no timer before), through any
    observations that go on showing it absent and any pauses, the observation at [now] confirms the failure
    of the member exactly when the time the membership was readable, between the first observation and [now],
    has reached the timeout: pauses stop the clock and never lose what was measured. *)
Theorem failure_confirmed_exactly i c first obs topo records now st rev dig m o :
  0 ≤ nodeDeadTimeout_ c → missingSince_ c !! address i = None → shows_absent i first →
  Forall (λ ob, shows_absent i ob ∨ is_observe ob = false) obs →
  Create st rev dig = Ok topo → is_ok (present_loop ∅ records) = true →
  m ∈ members (state_ topo) → identity m = i → is_committed m = true → address i ∉ mr_address <$> records →
  (Observe (foldl observe_step (observe_step c first) obs) topo records now).2 = Ok o →
  i ∈ confirmedFailure o ↔ nodeDeadTimeout_ c ≤ readable_time true (ob_time first) obs now.
Proof.
  intros Hto Hfresh Hfirst Hall Hc Hp Hm <- Hcom Habs Ho. destruct (step_timer _ c first Hto (or_introl Hfirst)) as (Hn & Hpz & Hs).
  assert (is_observe first = true) as Ef by (by destruct Hfirst as (? & ? & ? & ? & ? & ? & ? & -> & _)).
  rewrite Ef in Hpz. destruct (run_timer (identity m) obs (observe_step c first) (ob_time first) 0 ltac:(by rewrite Hn) Hall) as [Hn' He].
  { apply (Hs 0). by right. }
  rewrite Hpz in He. set (c' := foldl _ _ _) in *.
  destruct (Observe_spec c' now st rev dig topo records now Hc ltac:(by rewrite Hn' Hn) Hp) as (o' & Ho' & _ & _ & _ & _ & _ & Hconf).
  rewrite Ho in Ho'. injection Ho' as <-. rewrite Hn' Hn in Hconf.
  assert (overdue (nodeDeadTimeout_ c) (list_to_set (mr_address <$> records)) (elapsed (abs c' now) now) m
    ↔ nodeDeadTimeout_ c ≤ readable_time true (ob_time first) obs now) as Hov.
  { unfold overdue. rewrite shown_absent // Hcom. unfold addr. rewrite He. simpl. tauto. }
  rewrite Hconf -Hov. split; [|by intros H; split; exists m; auto].
  intros [_ (m' & Hm' & E & Hor)].
  rewrite (NoDup_fmap_elem addr _ m' m (Create_addrs _ _ _ _ Hc) Hm' Hm ltac:(unfold addr; by rewrite E)) in Hor.
  destruct Hor as [|E']; [done|]. by rewrite /is_committed E' in Hcom.
Qed.

Lemma failure_confirmed_exactly_witness :
  ∃ o, (Observe (foldl observe_step (observe_step timers0 (OObserve snap0 only_second 1000)) [OPause 30000001000])
          snap0 only_second 50000001000).2 = Ok o
  ∧ (identity m1 ∈ confirmedFailure o ↔ 60000000000 ≤ readable_time true 1000 [OPause 30000001000] 50000001000).
Proof.
  assert (Create demo 9 digest0 = Ok snap0) as Hc by (vm_compute; reflexivity).
  assert (is_ok (present_loop ∅ only_second) = true) as Hp by (vm_compute; reflexivity).
  assert (sort_tokens m1 ∈ members (state_ snap0)) as Hm by (apply (bool_decide_unpack _); vm_compute; exact I).
  assert (address (identity m1) ∉ mr_address <$> only_second) as Ha by (apply (bool_decide_unpack _); vm_compute; exact I).
  assert (is_committed (sort_tokens m1) = true) as Hi by (vm_compute; reflexivity).
  eexists. split; [vm_compute; reflexivity|].
  eapply (failure_confirmed_exactly (identity m1) timers0 (OObserve snap0 only_second 1000) [OPause 30000001000] snap0 only_second
    50000001000 demo 9 digest0 (sort_tokens m1) _).
  - by vm_compute.
  - vm_compute. reflexivity.
  - exists demo, 9, digest0, snap0, only_second, 1000, (sort_tokens m1). by split_and!.
  - constructor; [by right|constructor].
  - exact Hc.
  - exact Hp.
  - exact Hm.
  - reflexivity.
  - exact Hi.
  - exact Ha.
  - vm_compute. reflexivity.
Defined.
End FailureClassifier.
