(* ===== verification/KeyHelper.v ===== *)
(** * KeyHelper: the key space of a cluster

    Model of [src/datasystem/cluster/repository/topology_key_helper.{h,cpp}]: the tables a cluster keeps in the
    coordination store, the keys of their rows, and the classification of the physical keys of watch
    events.  Strings are lists of characters. *)
From S2P Require Import Prelude NetUtil.
From Stdlib Require Import Ascii String.
Import NetUtil.

Module KeyHelper.
Local Open Scope Z_scope.

Definition lit_str (s : string) : chars := list_ascii_of_string s.


Definition MAX_CLUSTER_NAME_SIZE : nat := 128.
Definition TASK_DIGEST_SIZE : nat := 32.
Definition TASK_KIND_PREFIX_SIZE : nat := 3.
Definition MIN_TASK_ID_SIZE : nat := TASK_KIND_PREFIX_SIZE + 1 + 1 + TASK_DIGEST_SIZE.
Definition MAX_SOURCE_ID_SIZE : nat := 128.

Definition ROOT_PREFIX : chars := lit_str "/datasystem".
Definition COORDINATION_CLUSTER_TABLE : chars := lit_str "datasystem/cluster".
Definition RESERVED_CLUSTER_NAMES : list chars :=
  lit_str <$> ["topology"; "tasks"; "notify"; "probe"; "cluster"; "scale-in-metadata-done"]%string.

Definition IsAlphaNumeric (c : ascii) : bool := in_cls "0" "9" c || in_cls "A" "Z" c || in_cls "a" "z" c.

Definition IsValidClusterName (name : chars) : bool :=
  match name with
  | [] => false
  | c :: _ =>
    (List.length name <=? MAX_CLUSTER_NAME_SIZE)%nat && IsAlphaNumeric c
    && negb (bool_decide (name ∈ RESERVED_CLUSTER_NAMES))
    && forallb (λ v, IsAlphaNumeric v || bool_decide (v = ".") || bool_decide (v = "_") || bool_decide (v = "-")) name
  end%char.

(** [compare(0, n, prefix) == 0] on a string at least that long. *)
Definition is_prefix (p s : chars) : bool := bool_decide (take (List.length p) s = p).

Definition MatchesExactPhysicalKey (physicalKey table relativeKey : chars) : bool :=
  (List.length physicalKey =? List.length table + 1 + List.length relativeKey)%nat && is_prefix table physicalKey
  && bool_decide (physicalKey !! List.length table = Some "/"%char)
  && bool_decide (take (List.length relativeKey) (drop (List.length table + 1) physicalKey) = relativeKey).

Definition MatchesPhysicalTablePrefix (physicalKey table : chars) : bool :=
  (List.length table + 1 <=? List.length physicalKey)%nat && is_prefix table physicalKey
  && bool_decide (physicalKey !! List.length table = Some "/"%char).

Definition IsLowerHex (c : ascii) : bool := in_cls "0" "9" c || in_cls "a" "f" c.

Definition IsValidTaskId (taskId : chars) : bool :=
  (MIN_TASK_ID_SIZE <=? List.length taskId)%nat
  && (is_prefix (lit_str "m-e") taskId || is_prefix (lit_str "d-e") taskId)
  && match split_first "-" (drop TASK_KIND_PREFIX_SIZE taskId) with
     | Some (c :: digits, digest) =>
       in_cls "1" "9" c && (List.length digest =? TASK_DIGEST_SIZE)%nat && forallb (in_cls "0" "9") (c :: digits)
       && forallb IsLowerHex digest
     | _ => false
     end.

Definition ValidateAddress (address : chars) : res unit :=
  check! negb (bool_decide (address = [])) else K_INVALID in
  check! canonical address else K_INVALID in Ok tt.

Definition ValidateSourceId (sourceId : chars) : res unit :=
  check! negb (bool_decide (sourceId = [])) && (List.length sourceId <=? MAX_SOURCE_ID_SIZE)%nat else K_INVALID in Ok tt.

(** [LOWER_HEX[n]]. *)
Definition hex_digit (n : N) : ascii := default "0"%char (lit_str "0123456789abcdef" !! N.to_nat n).

Definition EncodeScaleInMetadataSourceId (sourceId : chars) : chars :=
  flat_map (λ c, [hex_digit (N.shiftr (N_of_ascii c) 4); hex_digit (N.land (N_of_ascii c) 15)]) sourceId.

(** ** The tables of a cluster *)
Record helper := MkHelper {
  clusterName_ : chars; topologyTable_ : chars; migrateTaskTable_ : chars; deleteTaskTable_ : chars; notifyTable_ : chars;
  probeTable_ : chars; membershipTable_ : chars; etcdMembershipTablePrefix_ : chars; scaleInMetadataDoneTable_ : chars }.

Definition TopologyKeyHelper (clusterName : chars) : helper :=
  let root := match clusterName with [] => ROOT_PREFIX | _ => ROOT_PREFIX ++ lit_str "/" ++ clusterName end in
  let legacy := lit_str "/" ++ COORDINATION_CLUSTER_TABLE in
  MkHelper clusterName (root ++ lit_str "/topology") (root ++ lit_str "/tasks/migrate") (root ++ lit_str "/tasks/delete")
    (root ++ lit_str "/notify") (root ++ lit_str "/probe") (root ++ lit_str "/cluster")
    (match clusterName with [] => legacy | _ => lit_str "/" ++ clusterName ++ legacy end)
    (root ++ lit_str "/scale-in-metadata-done").

Definition Create (clusterName : chars) : res helper :=
  check! bool_decide (clusterName = []) || IsValidClusterName clusterName else K_INVALID in
  Ok (TopologyKeyHelper clusterName).

Inductive TopologyPhysicalKeyKind := UNKNOWN | TOPOLOGY | LOCAL_NOTIFY | LOCAL_PROBE | MEMBERSHIP | MIGRATE_TASK | DELETE_TASK.
#[export] Instance TopologyPhysicalKeyKind_eq_dec : EqDecision TopologyPhysicalKeyKind.
Proof. solve_decision. Defined.

Definition TopologyKey : chars := [].

Definition ClassifyPhysicalKey (h : helper) (physicalKey localAddress : chars) : TopologyPhysicalKeyKind :=
  if MatchesExactPhysicalKey physicalKey (topologyTable_ h) TopologyKey then TOPOLOGY
  else if MatchesExactPhysicalKey physicalKey (notifyTable_ h) localAddress then LOCAL_NOTIFY
  else if MatchesExactPhysicalKey physicalKey (probeTable_ h) localAddress then LOCAL_PROBE
  else if MatchesPhysicalTablePrefix physicalKey (membershipTable_ h)
          || MatchesPhysicalTablePrefix physicalKey (etcdMembershipTablePrefix_ h) then MEMBERSHIP
  else if MatchesPhysicalTablePrefix physicalKey (migrateTaskTable_ h) then MIGRATE_TASK
  else if MatchesPhysicalTablePrefix physicalKey (deleteTaskTable_ h) then DELETE_TASK
  else UNKNOWN.

(** ** Keys *)
Definition TaskKey (taskId : chars) : res chars := check! IsValidTaskId taskId else K_INVALID in Ok taskId.
Definition NotifyKey (address : chars) : res chars := let! _ := ValidateAddress address in Ok address.
Definition ProbeKey (address : chars) : res chars := let! _ := ValidateAddress address in Ok address.
Definition MembershipKey (address : chars) : res chars := let! _ := ValidateAddress address in Ok address.

(** [std::to_string(uint64_t)]: at most twenty digits. *)
Definition u64_to_string (n : Z) : chars := digits_of 20 n [].

Definition ScaleInMetadataDonePrefix (batchEpoch : Z) (sourceId : chars) : res chars :=
  check! (0 <? batchEpoch) else K_INVALID in
  let! _ := ValidateSourceId sourceId in
  Ok (lit_str "e" ++ u64_to_string batchEpoch ++ lit_str "/" ++ EncodeScaleInMetadataSourceId sourceId ++ lit_str "/").

Definition ScaleInMetadataDoneKey (batchEpoch : Z) (sourceId taskId : chars) : res chars :=
  let! prefix := ScaleInMetadataDonePrefix batchEpoch sourceId in
  let! key := TaskKey taskId in
  Ok (prefix ++ key).

(** ** Matching *)
Lemma is_prefix_spec p s : is_prefix p s = true ↔ p `prefix_of` s.
Proof.
  unfold is_prefix. rewrite bool_decide_eq_true. split.
  - intros E. exists (drop (List.length p) s). by rewrite -{1}E take_drop.
  - intros [k ->]. by rewrite take_app_length.
Qed.

Lemma split_at (t k : chars) c : is_prefix t k = true → k !! List.length t = Some c → k = t ++ c :: drop (List.length t + 1) k.
Proof.
  intros [x ->]%is_prefix_spec. rewrite lookup_app_r // Nat.sub_diag. destruct x as [|y x]; [done|]. intros [= ->].
  f_equal. f_equal. rewrite -drop_drop drop_app_length. simpl. done.
Qed.

Lemma matches_prefix k t : MatchesPhysicalTablePrefix k t = true ↔ ∃ rest, k = t ++ "/"%char :: rest.
Proof.
  unfold MatchesPhysicalTablePrefix. rewrite !andb_true_iff bool_decide_eq_true Nat.leb_le. split.
  - intros [[_ Hp] Hc]. eexists. by apply split_at.
  - intros [rest ->]. split_and!; [rewrite length_app /=; lia|apply is_prefix_spec; by eexists|].
    by rewrite lookup_app_r // Nat.sub_diag.
Qed.

Lemma matches_exact k t rel : MatchesExactPhysicalKey k t rel = true ↔ k = t ++ "/"%char :: rel.
Proof.
  unfold MatchesExactPhysicalKey. rewrite !andb_true_iff Nat.eqb_eq. split.
  - intros [[[Hl Hp] Hc%bool_decide_eq_true] Hd%bool_decide_eq_true]. rewrite {1}(split_at t k _ Hp Hc). do 2 f_equal. rewrite -Hd take_ge //. rewrite length_drop. lia.
  - intros ->. rewrite length_app /=. split_and!; [lia|apply is_prefix_spec; by eexists|..]; apply bool_decide_eq_true; [by rewrite lookup_app_r // Nat.sub_diag|].
    rewrite -drop_drop drop_app_length. simpl. by rewrite firstn_all.
Qed.

(** ** Paths

    A key as the list of its components between slashes. *)
Fixpoint split_path (acc : chars) (s : chars) : list chars :=
  match s with
  | [] => [rev acc]
  | c :: s' => if bool_decide (c = "/"%char) then rev acc :: split_path [] s' else split_path (c :: acc) s'
  end.
Definition path (s : chars) : list chars := split_path [] s.

Lemma components_plain x acc s : ("/"%char ∉ x) → split_path acc (x ++ "/"%char :: s) = (rev acc ++ x) :: split_path [] s.
Proof.
  revert acc. induction x as [|c x IH]; intros acc Hx; simpl; [by rewrite app_nil_r|].
  apply not_elem_of_cons in Hx as [Hc Hx]. rewrite bool_decide_eq_false_2; [congruence|]. rewrite IH // /=. by rewrite -app_assoc.
Qed.

Lemma path_cons x s : ("/"%char ∉ x) → path (x ++ "/"%char :: s) = x :: path s.
Proof. intros Hx. unfold path. by rewrite components_plain. Qed.

Lemma valid_name_plain name :
  IsValidClusterName name = true → ("/"%char ∉ name) ∧ (name ∉ RESERVED_CLUSTER_NAMES) ∧ name ≠ [].
Proof.
  unfold IsValidClusterName. destruct name as [|c name]; [done|]. intros [[_ Hr]%andb_true_iff Hf]%andb_true_iff.
  apply negb_true_iff, bool_decide_eq_false in Hr. split_and!; [|done|done]. intros Hin. rewrite forallb_forall in Hf.
  specialize (Hf _ (proj1 (list_elem_of_In _ _) Hin)). done.
Qed.

(** The paths of the keys of a cluster's tables. *)
Definition family (name : chars) (p : list chars) : Prop :=
  match name with
  | [] => ∃ x rest, p = [] :: lit_str "datasystem" :: x :: rest ∧ x ∈ RESERVED_CLUSTER_NAMES
  | _ => (∃ rest, p = [] :: lit_str "datasystem" :: name :: rest)
         ∨ ∃ rest, p = [] :: name :: lit_str "datasystem" :: lit_str "cluster" :: rest
  end.

Lemma families_disjoint n n' p :
  (n = [] ∨ IsValidClusterName n = true) → (n' = [] ∨ IsValidClusterName n' = true) → n ≠ n' → family n p → ¬ family n' p.
Proof.
  assert (∀ n, IsValidClusterName n = true → family n p → ¬ family [] p) as Hempty.
  { intros m (Hs & Hr & Hne)%valid_name_plain Hf (x & rest & -> & Hx). unfold family in Hf. destruct m as [|c m]; [done|].
    destruct Hf as [[r Hp]|[r Hp]]; injection Hp.
    - intros _ ->. done.
    - intros _ -> _. by apply (bool_decide_eq_true_2 _) in Hx. }
  intros [->|Hn] [->|Hn'] Hne Hf Hf'; [done|by eapply (Hempty n')|by eapply (Hempty n)|].
  apply valid_name_plain in Hn as (_ & _ & Hn), Hn' as (_ & _ & Hn'). destruct n as [|c n]; [done|]. destruct n' as [|c' n']; [done|].
  destruct Hf as [[r ->]|[r ->]], Hf' as [[r' Hp]|[r' Hp]]; injection Hp; intros; simplify_eq; done.
Qed.

Definition tables (h : helper) : list chars :=
  [topologyTable_ h; notifyTable_ h; probeTable_ h; membershipTable_ h; etcdMembershipTablePrefix_ h; migrateTaskTable_ h; deleteTaskTable_ h].

Ltac split_table Ht :=
  unfold tables in Ht; repeat (apply elem_of_cons in Ht as [->|Ht]); [..|by apply elem_of_nil in Ht];
  cbn [TopologyKeyHelper topologyTable_ notifyTable_ probeTable_ membershipTable_ etcdMembershipTablePrefix_ migrateTaskTable_ deleteTaskTable_].

Lemma classified_table h k loc : ClassifyPhysicalKey h k loc ≠ UNKNOWN → ∃ t rest, t ∈ tables h ∧ k = t ++ "/"%char :: rest.
Proof.
  assert (∀ t, t ∈ tables h → MatchesPhysicalTablePrefix k t = true → ∃ t rest, t ∈ tables h ∧ k = t ++ "/"%char :: rest) as Hp
    by (intros t Ht [rest E]%matches_prefix; eauto).
  assert (∀ t rel, t ∈ tables h → MatchesExactPhysicalKey k t rel = true → ∃ t rest, t ∈ tables h ∧ k = t ++ "/"%char :: rest) as He
    by (intros t rel Ht E%matches_exact; eauto).
  unfold ClassifyPhysicalKey. intros Hk.
  destruct (MatchesExactPhysicalKey k (topologyTable_ h) _) eqn:E1; [eapply He, E1; unfold tables; set_solver|].
  destruct (MatchesExactPhysicalKey k (notifyTable_ h) _) eqn:E2; [eapply He, E2; unfold tables; set_solver|].
  destruct (MatchesExactPhysicalKey k (probeTable_ h) _) eqn:E3; [eapply He, E3; unfold tables; set_solver|].
  destruct (MatchesPhysicalTablePrefix k (membershipTable_ h)) eqn:E4; [eapply Hp, E4; unfold tables; set_solver|].
  destruct (MatchesPhysicalTablePrefix k (etcdMembershipTablePrefix_ h)) eqn:E5; [eapply Hp, E5; unfold tables; set_solver|].
  destruct (MatchesPhysicalTablePrefix k (migrateTaskTable_ h)) eqn:E6; [eapply Hp, E6; unfold tables; set_solver|].
  destruct (MatchesPhysicalTablePrefix k (deleteTaskTable_ h)) eqn:E7; [eapply Hp, E7; unfold tables; set_solver|done].
Qed.

Lemma classified_family h name k loc :
  Create name = Ok h → ClassifyPhysicalKey h k loc ≠ UNKNOWN → family name (path k).
Proof.
  unfold Create. destruct (bool_decide (name = []) || IsValidClusterName name) eqn:Ev; [|done]. intros [= <-] (t & rest & Ht & ->)%classified_table.
  destruct (decide (name = [])) as [->|Hne].
  { split_table Ht; eexists _, _; (split; [reflexivity|apply (bool_decide_unpack _); vm_compute; exact I]). }
  rewrite bool_decide_eq_false_2 // in Ev. apply valid_name_plain in Ev as (Hs & _ & _).
  assert (∀ s, path (lit_str "/datasystem/" ++ name ++ "/"%char :: s) = [] :: lit_str "datasystem" :: name :: path s) as Hroot.
  { intros s. change (path (lit_str "/datasystem/" ++ name ++ "/"%char :: s)) with ([] :: lit_str "datasystem" :: path (name ++ "/"%char :: s)).
    by rewrite path_cons. }
  assert (path (lit_str "/" ++ name ++ "/"%char :: (lit_str "datasystem/cluster" ++ "/"%char :: rest))
    = [] :: name :: lit_str "datasystem" :: lit_str "cluster" :: path rest) as Hlegacy.
  { change (path (lit_str "/" ++ name ++ "/"%char :: (lit_str "datasystem/cluster" ++ "/"%char :: rest)))
      with ([] :: path (name ++ "/"%char :: (lit_str "datasystem/cluster" ++ "/"%char :: rest))). by rewrite path_cons. }
  unfold family. destruct name as [|c name]; [done|].
  split_table Ht.
  5:{ right. exists (path rest). rewrite -Hlegacy. f_equal. rewrite -!app_assoc. reflexivity. }
  all: left; eexists; rewrite -!app_assoc; change ROOT_PREFIX with (lit_str "/datasystem"); rewrite app_assoc; apply Hroot.
Qed.

(** ** Numbers and hexadecimal *)
Lemma dec_val_cons c s : dec_val (c :: s) = digit_val c * 10 ^ Z.of_nat (List.length s) + dec_val s.
Proof. change (c :: s) with ([c] ++ s). by rewrite dec_val_app. Qed.

Lemma dec_val_digits fuel n acc :
  0 ≤ n < 10 ^ Z.of_nat fuel → dec_val (digits_of fuel n acc) = n * 10 ^ Z.of_nat (List.length acc) + dec_val acc.
Proof.
  revert n acc. induction fuel as [|fuel IH]; intros n acc Hn; cbn [digits_of].
  { change (10 ^ Z.of_nat 0) with 1 in Hn. replace n with 0 by lia. lia. }
  pose proof (Z.div_mod n 10 ltac:(lia)) as Hdm. pose proof (Z.mod_pos_bound n 10 ltac:(lia)) as Hm.
  assert (digit_val (ascii_of_N (Z.to_N (n mod 10 + 48))) = n mod 10) as Hd.
  { change (ascii_of_N (Z.to_N (n mod 10 + 48))) with (dig (n mod 10)). apply digit_val_dig. lia. }
  assert (10 ^ Z.of_nat (S (List.length acc)) = 10 * 10 ^ Z.of_nat (List.length acc)) as Hp by (rewrite Nat2Z.inj_succ Z.pow_succ_r; lia).
  destruct (Z.eqb_spec (n / 10) 0) as [E|E].
  - rewrite dec_val_cons Hd. nia.
  - rewrite IH.
    { rewrite Nat2Z.inj_succ Z.pow_succ_r in Hn; [lia|]. split; [apply Z.div_pos; lia|apply Z.div_lt_upper_bound; lia]. }
    cbn [List.length]. rewrite Hp dec_val_cons Hd. nia.
Qed.

Lemma u64_to_string_inj n n' : 0 ≤ n < 2 ^ 64 → 0 ≤ n' < 2 ^ 64 → u64_to_string n = u64_to_string n' → n = n'.
Proof.
  intros Hn Hn' E%(f_equal dec_val). unfold u64_to_string in E. rewrite !dec_val_digits in E; [lia..|]. simpl in E. lia.
Qed.

Lemma digits_of_digits fuel n acc : (∀ c, c ∈ acc → in_cls "0" "9" c = true) → ∀ c, c ∈ digits_of fuel n acc → in_cls "0" "9" c = true.
Proof.
  revert n acc. induction fuel as [|fuel IH]; intros n acc Ha; cbn [digits_of]; [done|].
  assert (∀ c, c ∈ ascii_of_N (Z.to_N (n mod 10 + 48)) :: acc → in_cls "0" "9" c = true) as Ha'.
  { intros c [->|Hc]%elem_of_cons; [|by apply Ha]. pose proof (Z.mod_pos_bound n 10 ltac:(lia)).
    unfold in_cls. rewrite N_ascii_embedding; [lia|]. change (N_of_ascii "0") with 48%N. change (N_of_ascii "9") with 57%N.
    apply andb_true_iff. split; apply N.leb_le; lia. }
  destruct (_ =? _); [done|by apply IH].
Qed.

(** A positive number starts with a digit that is not zero. *)
Lemma digits_head fuel n acc : 0 < n < 10 ^ Z.of_nat fuel → ∃ c s, digits_of fuel n acc = c :: s ∧ in_cls "1" "9" c = true.
Proof.
  revert n acc. induction fuel as [|fuel IH]; intros n acc Hn; cbn [digits_of].
  { change (10 ^ Z.of_nat 0) with 1 in Hn. lia. }
  destruct (Z.eqb_spec (n / 10) 0) as [E|E].
  - eexists _, _. split; [reflexivity|]. pose proof (Z.mod_pos_bound n 10 ltac:(lia)). pose proof (Z.div_mod n 10 ltac:(lia)).
    unfold in_cls. rewrite N_ascii_embedding; [lia|]. change (N_of_ascii "1") with 49%N. change (N_of_ascii "9") with 57%N.
    apply andb_true_iff. split; apply N.leb_le; lia.
  - apply IH. rewrite Nat2Z.inj_succ Z.pow_succ_r in Hn; [lia|]. pose proof (Z.div_pos n 10 ltac:(lia) ltac:(lia)).
    split; [lia|apply Z.div_lt_upper_bound; lia].
Qed.

Lemma u64_plain n : "/"%char ∉ u64_to_string n.
Proof. intros Hin. eapply digits_of_digits in Hin; [|by intros ? ?%elem_of_nil]. done. Qed.

Lemma hex_digit_cases n : (n < 16)%N → hex_digit n ∈ lit_str "0123456789abcdef".
Proof.
  intros Hn. unfold hex_digit. destruct (lit_str "0123456789abcdef" !! N.to_nat n) as [c|] eqn:E; [by eapply list_elem_of_lookup_2|].
  apply lookup_ge_None in E. simpl in E. lia.
Qed.

Lemma hex_digit_inj n n' : (n < 16)%N → (n' < 16)%N → hex_digit n = hex_digit n' → n = n'.
Proof.
  intros Hn Hn' E. assert (NoDup (lit_str "0123456789abcdef")) as Hnd by (apply (bool_decide_unpack _); vm_compute; exact I).
  rewrite NoDup_alt in Hnd. apply N2Nat.inj. unfold hex_digit in E.
  destruct (lit_str "0123456789abcdef" !! N.to_nat n) as [c|] eqn:E1; [|apply lookup_ge_None in E1; simpl in E1; lia].
  destruct (lit_str "0123456789abcdef" !! N.to_nat n') as [c'|] eqn:E2; [|apply lookup_ge_None in E2; simpl in E2; lia].
  simpl in E. subst c'. by eapply Hnd.
Qed.

Lemma nibbles c : (N.shiftr (N_of_ascii c) 4 < 16)%N ∧ (N.land (N_of_ascii c) 15 < 16)%N
  ∧ N_of_ascii c = (16 * N.shiftr (N_of_ascii c) 4 + N.land (N_of_ascii c) 15)%N.
Proof.
  assert (N_of_ascii c < 256)%N as Hc by apply N_ascii_bounded. rewrite N.shiftr_div_pow2. change 15%N with (N.ones 4). rewrite N.land_ones.
  change (2 ^ 4)%N with 16%N. pose proof (N.div_mod (N_of_ascii c) 16 ltac:(lia)). pose proof (N.mod_lt (N_of_ascii c) 16 ltac:(lia)).
  split_and!; [apply N.Div0.div_lt_upper_bound; lia|lia|lia].
Qed.

Lemma hex_plain s : "/"%char ∉ EncodeScaleInMetadataSourceId s.
Proof.
  intros (c & _ & Hc)%list_elem_of_In%in_flat_map. destruct (nibbles c) as (H1 & H2 & _).
  assert ("/"%char ∉ lit_str "0123456789abcdef") as Hn by (apply (bool_decide_unpack _); vm_compute; exact I).
  destruct Hc as [E|[E|[]]]; apply Hn; rewrite -E; by apply hex_digit_cases.
Qed.

Lemma hex_inj s s' : EncodeScaleInMetadataSourceId s = EncodeScaleInMetadataSourceId s' → s = s'.
Proof.
  revert s'. induction s as [|c s IH]; intros [|c' s']; try done. cbn [EncodeScaleInMetadataSourceId flat_map app]. intros [= E1 E2 E3].
  destruct (nibbles c) as (H1 & H2 & H3), (nibbles c') as (H1' & H2' & H3').
  apply hex_digit_inj in E1, E2; [|done..]. f_equal; [|by apply IH].
  rewrite -(ascii_N_embedding c) -(ascii_N_embedding c') H3 H3' E1 E2. done.
Qed.

Lemma split_unique (c : ascii) a b x y : (c ∉ a) → (c ∉ b) → a ++ c :: x = b ++ c :: y → a = b ∧ x = y.
Proof. intros Ha Hb E%(f_equal (split_first c)). rewrite !split_first_app // in E. by injection E. Qed.

(** ** Properties *)

(** clusters that share a coordination store never see each other's keys.  For two helpers created for
    different cluster names, the empty name of an unnamed cluster included, a physical key that one of them
    recognizes (its topology, a notify or a probe of some worker, a membership in either layout, a task) is
    unknown to the other, whatever the local addresses: the reserved names and the character set of a name
    are exactly what this needs. *)
Theorem keyspaces_disjoint (n n' : chars) (h h' : helper) (k loc loc' : chars)
    (Hc : Create n = Ok h) (Hc' : Create n' = Ok h') (Hne : n ≠ n') (Hk : ClassifyPhysicalKey h k loc ≠ UNKNOWN) :
  ClassifyPhysicalKey h' k loc' = UNKNOWN.
Proof.
  assert (∀ n h, Create n = Ok h → n = [] ∨ IsValidClusterName n = true) as Hv.
  { intros m g. unfold Create. destruct (_ || _) eqn:E; [|done]. intros _. apply orb_true_iff in E as [?%bool_decide_eq_true|?]; auto. }
  destruct (decide (ClassifyPhysicalKey h' k loc' = UNKNOWN)) as [|Hk']; [done|].
  destruct (families_disjoint n n' (path k)); [by eapply Hv..|done| |]; by eapply classified_family.
Qed.

Lemma keyspaces_disjoint_witness :
  ClassifyPhysicalKey (TopologyKeyHelper []) (lit_str "/datasystem/blue/topology/") [] = UNKNOWN
  ∧ ClassifyPhysicalKey (TopologyKeyHelper (lit_str "blue")) (lit_str "/datasystem/blue/topology/") [] = TOPOLOGY.
Proof.
  split; [|vm_compute; reflexivity].
  apply (keyspaces_disjoint (lit_str "blue") [] (TopologyKeyHelper (lit_str "blue")) (TopologyKeyHelper []) _ [] []);
    [vm_compute; reflexivity|vm_compute; reflexivity|done|]. by vm_compute.
Defined.

(** counting the markers of a member that leaves counts its own and no other.  The key of a marker starts
    with the prefix of a batch epoch and a source exactly when it is a marker of that epoch and that source,
    for any two 64-bit epochs and any bytes of the source ids. *)
Theorem metadata_marker_prefix_exact (e e' : Z) (s s' task k p : chars)
    (He : e < 2 ^ 64) (He' : e' < 2 ^ 64)
    (Hk : ScaleInMetadataDoneKey e s task = Ok k) (Hp : ScaleInMetadataDonePrefix e' s' = Ok p) :
  p `prefix_of` k ↔ e = e' ∧ s = s'.
Proof.
  assert (∀ e s p, ScaleInMetadataDonePrefix e s = Ok p →
    0 < e ∧ p = "e"%char :: u64_to_string e ++ "/"%char :: EncodeScaleInMetadataSourceId s ++ ["/"%char]) as Hpre.
  { intros x y q. unfold ScaleInMetadataDonePrefix. destruct (Z.ltb_spec 0 x); [|done]. destruct (ValidateSourceId y); [|done].
    intros [= <-]. done. }
  unfold ScaleInMetadataDoneKey in Hk. apply res_bind_Ok in Hk as (q & [Hpos ->]%Hpre & Hk). apply res_bind_Ok in Hk as (t & _ & [= <-]).
  apply Hpre in Hp as [Hpos' ->]. split.
  - intros [x E]. injection E as E. rewrite -!app_assoc /= in E. apply split_unique in E as [E1 E]; [|apply u64_plain..].
    rewrite -!app_assoc /= in E. apply split_unique in E as [E2 _]; [|apply hex_plain..]. split; [by apply u64_to_string_inj; [lia..|]|by apply hex_inj].
  - intros [-> ->]. by eexists.
Qed.

Definition sample_task : chars := lit_str "m-e7-0123456789abcdef0123456789abcdef".

Lemma metadata_marker_prefix_exact_witness :
  ∃ k p, ScaleInMetadataDoneKey 71 (lit_str "w1") sample_task = Ok k ∧ ScaleInMetadataDonePrefix 7 (lit_str "w1") = Ok p
    ∧ (p `prefix_of` k ↔ 71 = 7 ∧ lit_str "w1" = lit_str "w1").
Proof.
  eexists _, _. split; [vm_compute; reflexivity|]. split; [vm_compute; reflexivity|].
  apply (metadata_marker_prefix_exact 71 7 (lit_str "w1") (lit_str "w1") sample_task); [done|done|vm_compute; reflexivity..].
Defined.
End KeyHelper.
