(* ===== verification/RepositoryCodec.v ===== *)
(** * RepositoryCodec: the values of the coordination store

    Model of [src/datasystem/cluster/repository/topology_repository_codec.{h,cpp}] and of the task types of
    [model/topology_types.h]: the bytes under which the topology, the migration and deletion tasks and the
    notifies of the workers are kept.

    The protobuf runtime and the generated messages are third-party and generated code: a message is a
    record of its fields, and its serializer and parser are a parameter, [wire].  A map field is an
    association list, in the order in which the message iterates over it, which protobuf does not specify;
    what the code relies on is [wire_ok]: parsing gives back the message up to that order, and the
    deterministic serializer does not depend on it. *)
From S2P Require Import Prelude NetUtil Topology KeyHelper.
From Stdlib Require Import Ascii String.
Import Topology.

Module RepositoryCodec.
Local Open Scope Z_scope.

Abbreviation chars := NetUtil.chars.
Abbreviation cs := list_ascii_of_string.

(** ** Tasks *)
Record TopologyTaskRange := MkTaskRange { ownerAddress : string; range : TokenRange; finished : bool }.
#[export] Instance TopologyTaskRange_eq_dec : EqDecision TopologyTaskRange.
Proof. solve_decision. Defined.

Record TopologyMigrateTask := MkMigrateTask {
  mt_taskId : string; mt_type : TopologyChangeType; mt_epoch : Z; mt_executorAddress : string; mt_targetAddress : string;
  sourceRanges : list TopologyTaskRange }.

Record TopologyDeleteTask := MkDeleteTask {
  dt_taskId : string; dt_epoch : Z; dt_executorAddress : string; dt_failedAddress : string;
  recoveryRanges : list TopologyTaskRange }.

Record TopologyTaskNotify := MkNotify {
  nt_activeBatch : option ActiveBatch; taskIds : list string; restartTimestampsByAddress : gmap string Z }.

(** ** Messages *)
Record MembershipPb := MkMembershipPb { mp_tokens : list Z; mp_id : string; mp_state : Z }.
Record TokenRangePb := MkTokenRangePb { rp_owner : string; rp_from : Z; rp_end : Z; rp_finished : bool }.
Record MigrateTaskPb := MkMigrateTaskPb { mtp_target : string; mtp_ranges : list TokenRangePb }.
Record DeleteNodeTaskPb := MkDeleteTaskPb { dtp_failed : string; dtp_ranges : list TokenRangePb }.
Record ChangeBatchPb := MkBatchPb { bp_type : Z; bp_epoch : Z }.
Record TaskNotifyPb := MkNotifyPb { np_batch : option ChangeBatchPb; np_ids : list string; np_restarts : list (string * Z) }.
Record ClusterTopologyPb := MkClusterPb {
  cp_init : bool; cp_members : list (string * MembershipPb); cp_version : Z; cp_schema : string; cp_batch : option ChangeBatchPb }.

(** A message type's serializer and parser. *)
Record wire (M : Type) := MkWire { serialize : M → option chars; parse : chars → option M }.
Arguments serialize {M} _ _.
Arguments parse {M} _ _.

(** What the code relies on, for messages equal up to [same]. *)
Record wire_ok {M} (same : relation M) (w : wire M) : Prop := MkWireOk {
  wire_parse : ∀ pb s, serialize w pb = Some s → ∃ pb', parse w s = Some pb' ∧ same pb pb';
  wire_deterministic : ∀ pb pb', same pb pb' → serialize w pb = serialize w pb' }.

Definition same_topology (a b : ClusterTopologyPb) : Prop :=
  cp_init a = cp_init b ∧ cp_members a ≡ₚ cp_members b ∧ cp_version a = cp_version b ∧ cp_schema a = cp_schema b
  ∧ cp_batch a = cp_batch b.
Definition same_notify (a b : TaskNotifyPb) : Prop :=
  np_batch a = np_batch b ∧ np_ids a = np_ids b ∧ np_restarts a ≡ₚ np_restarts b.

(** ** Limits *)
Definition MAX_VALUE_BYTES : Z := 4 * 1024 * 1024.
Definition MAX_NOTIFY_TASK_REFS : Z := 4096.
Definition MAX_NOTIFY_VALUE_BYTES : Z := 4 * 1024 * 1024.
Definition MAX_RESTART_NOTIFY_ENTRIES : Z := 10000.
Definition MAX_TOPOLOGY_MEMBERS : Z := 10000.
Definition MAX_TOPOLOGY_TOKENS : Z := 40000.
Definition SCHEMA_VERSION : string := "1".

Definition len {A} (l : list A) : Z := Z.of_nat (List.length l).

Definition SerializeCanonical {M} (w : wire M) (message : M) : res chars :=
  match serialize w message with
  | None => Fail K_RUNTIME_ERROR
  | Some encoded => check! len encoded <=? MAX_VALUE_BYTES else K_INVALID in Ok encoded
  end.

(** ** Parts *)
Definition ToPbType (t : TopologyChangeType) : res Z := match t with SCALE_OUT => Ok 0 | SCALE_IN => Ok 1 | FAILURE => Ok 2 end.
Definition FromPbType (n : Z) : res TopologyChangeType :=
  if n =? 0 then Ok SCALE_OUT else if n =? 1 then Ok SCALE_IN else if n =? 2 then Ok FAILURE else Fail K_INVALID.

Definition state_number (s : MemberState) : Z :=
  match s with INITIAL => 0 | JOINING => 1 | ACTIVE => 2 | PRE_LEAVING => 3 | LEAVING => 4 | FAILED => 5 end.
Definition state_of_number (n : Z) : res MemberState :=
  check! (0 <=? n) && (n <=? 5) else K_INVALID in
  Ok (if n =? 0 then INITIAL else if n =? 1 then JOINING else if n =? 2 then ACTIVE else if n =? 3 then PRE_LEAVING
      else if n =? 4 then LEAVING else FAILED).

Definition ValidateTaskId (taskId : string) : res unit := let! _ := KeyHelper.TaskKey (cs taskId) in Ok tt.

Definition ValidateTaskContext (taskId : string) (kind : ascii) (epoch : Z) : res unit :=
  let! _ := ValidateTaskId taskId in
  let expected := [kind; "-"; "e"]%char ++ KeyHelper.u64_to_string epoch ++ ["-"]%char in
  check! KeyHelper.is_prefix expected (cs taskId) else K_INVALID in Ok tt.

Definition ValidateMemberAddress (address : string) : res unit := let! _ := KeyHelper.NotifyKey (cs address) in Ok tt.

Definition range_ok (executor : string) (r : TopologyTaskRange) : bool :=
  bool_decide (ownerAddress r = executor) && (from (range r) <=? to (range r)).

Fixpoint ranges_loop (executor : string) (prev : option TopologyTaskRange) (ranges : list TopologyTaskRange) : bool :=
  match ranges with
  | [] => true
  | r :: rest =>
    range_ok executor r
    && match prev with Some p => to (range p) <? from (range r) | None => true end
    && ranges_loop executor (Some r) rest
  end.

Definition IsCanonicalRanges (ranges : list TopologyTaskRange) (executor : string) : bool :=
  negb (bool_decide (ranges = [])) && bool_decide (List.length ranges ≤ MAX_TOPOLOGY_TASK_RANGES)%nat
  && negb (empty_str executor) && ranges_loop executor None ranges.

Definition EncodeRanges (ranges : list TopologyTaskRange) : list TokenRangePb :=
  (λ r, MkTokenRangePb (ownerAddress r) (from (range r)) (to (range r)) (finished r)) <$> ranges.

Definition DecodeRanges (input : list TokenRangePb) : res (list TopologyTaskRange * string) :=
  check! negb (bool_decide (List.length input = 0%nat)) && bool_decide (List.length input ≤ MAX_TOPOLOGY_TASK_RANGES)%nat else K_INVALID in
  let decoded := (λ p, MkTaskRange (rp_owner p) (MkRange (rp_from p) (rp_end p)) (rp_finished p)) <$> input in
  match decoded with
  | [] => Fail K_INVALID
  | r :: _ => check! IsCanonicalRanges decoded (ownerAddress r) else K_INVALID in Ok (decoded, ownerAddress r)
  end.

Fixpoint restart_loop (entries : list (string * Z)) : res unit :=
  match entries with
  | [] => Ok tt
  | (address, timestamp) :: rest =>
    let! _ := ValidateMemberAddress address in
    check! 0 <? timestamp else K_INVALID in
    restart_loop rest
  end.

Definition ValidateRestartFacts (restarts : gmap string Z) : res unit :=
  check! Z.of_nat (size restarts) <=? MAX_RESTART_NOTIFY_ENTRIES else K_INVALID in
  restart_loop (smap_to_list restarts).

Definition EncodeActiveBatch (b : ActiveBatch) : res ChangeBatchPb :=
  check! 0 <? epoch b else K_INVALID in let! t := ToPbType (btype b) in Ok (MkBatchPb t (epoch b)).

Definition DecodeActiveBatch (p : ChangeBatchPb) : res ActiveBatch :=
  check! 0 <? bp_epoch p else K_INVALID in let! t := FromPbType (bp_type p) in Ok (MkBatch t (bp_epoch p)).

(** ** Topology *)

(** [mutable_members[address]] and the fields set through it: a new entry, or more fields of the one
    that is there. *)
Fixpoint put_member (m : Member) (entries : list (string * MembershipPb)) : list (string * MembershipPb) :=
  match entries with
  | [] => [(addr m, MkMembershipPb (tokens m) (mid m) (state_number (state m)))]
  | (a, p) :: rest =>
    if bool_decide (a = addr m) then (a, MkMembershipPb (mp_tokens p ++ tokens m) (mid m) (state_number (state m))) :: rest
    else (a, p) :: put_member m rest
  end.

Definition EncodeTopology (w : wire ClusterTopologyPb) (st : TopologyState) : res chars :=
  let! canonical := ValidateAndCanonicalizeTopologyState st in
  let entries := foldl (λ es m, put_member m es) [] (members canonical) in
  let! batch := match activeBatch canonical with
                | Some b => let! t := ToPbType (btype b) in Ok (Some (MkBatchPb t (epoch b)))
                | None => Ok None
                end in
  SerializeCanonical w (MkClusterPb (clusterHasInit canonical) entries (version canonical) SCHEMA_VERSION batch).

Fixpoint count_tokens (count : Z) (entries : list (string * MembershipPb)) : res unit :=
  match entries with
  | [] => Ok tt
  | (_, p) :: rest => let count := count + len (mp_tokens p) in
                      check! count <=? MAX_TOPOLOGY_TOKENS else K_INVALID in count_tokens count rest
  end.

Fixpoint decode_members (entries : list (string * MembershipPb)) : res (list Member) :=
  match entries with
  | [] => Ok []
  | (address, p) :: rest =>
    let! s := state_of_number (mp_state p) in
    let! ms := decode_members rest in
    Ok (MkMember (MkIdentity (mp_id p) address) s (mp_tokens p) :: ms)
  end.

Definition DecodeTopology (w : wire ClusterTopologyPb) (value : chars) : res TopologyState :=
  check! len value <=? MAX_VALUE_BYTES else K_INVALID in
  match parse w value with
  | None => Fail K_INVALID
  | Some pb =>
    check! bool_decide (cp_schema pb = SCHEMA_VERSION) else K_INVALID in
    check! len (cp_members pb) <=? MAX_TOPOLOGY_MEMBERS else K_INVALID in
    let! _ := count_tokens 0 (cp_members pb) in
    let! ms := decode_members (cp_members pb) in
    let! batch := match cp_batch pb with
                  | Some b => let! t := FromPbType (bp_type b) in Ok (Some (MkBatch t (bp_epoch b)))
                  | None => Ok None
                  end in
    ValidateAndCanonicalizeTopologyState (MkTopology (cp_init pb) (cp_version pb) ms batch)
  end.

(** ** Tasks *)
Definition EncodeMigrateTask (w : wire MigrateTaskPb) (task : TopologyMigrateTask) : res chars :=
  let! _ := ValidateTaskContext (mt_taskId task) "m" (mt_epoch task) in
  let! _ := ValidateMemberAddress (mt_targetAddress task) in
  let! _ := ValidateMemberAddress (mt_executorAddress task) in
  check! (0 <? mt_epoch task) && IsCanonicalRanges (sourceRanges task) (mt_executorAddress task) else K_INVALID in
  SerializeCanonical w (MkMigrateTaskPb (mt_targetAddress task) (EncodeRanges (sourceRanges task))).

Definition DecodeMigrateTask (w : wire MigrateTaskPb) (taskId : string) (type : TopologyChangeType) (epoch : Z) (value : chars)
    : res TopologyMigrateTask :=
  let! _ := ValidateTaskContext taskId "m" epoch in
  check! (0 <? epoch) && (len value <=? MAX_VALUE_BYTES) else K_INVALID in
  match parse w value with
  | None => Fail K_INVALID
  | Some pb =>
    check! negb (empty_str (mtp_target pb)) else K_INVALID in
    let! _ := ValidateMemberAddress (mtp_target pb) in
    let! (ranges, executor) := DecodeRanges (mtp_ranges pb) in
    Ok (MkMigrateTask taskId type epoch executor (mtp_target pb) ranges)
  end.

Definition EncodeDeleteTask (w : wire DeleteNodeTaskPb) (task : TopologyDeleteTask) : res chars :=
  let! _ := ValidateTaskContext (dt_taskId task) "d" (dt_epoch task) in
  let! _ := ValidateMemberAddress (dt_failedAddress task) in
  let! _ := ValidateMemberAddress (dt_executorAddress task) in
  check! (0 <? dt_epoch task) && IsCanonicalRanges (recoveryRanges task) (dt_executorAddress task) else K_INVALID in
  SerializeCanonical w (MkDeleteTaskPb (dt_failedAddress task) (EncodeRanges (recoveryRanges task))).

Definition DecodeDeleteTask (w : wire DeleteNodeTaskPb) (taskId : string) (epoch : Z) (value : chars)
    : res TopologyDeleteTask :=
  let! _ := ValidateTaskContext taskId "d" epoch in
  check! (0 <? epoch) && (len value <=? MAX_VALUE_BYTES) else K_INVALID in
  match parse w value with
  | None => Fail K_INVALID
  | Some pb =>
    check! negb (empty_str (dtp_failed pb)) else K_INVALID in
    let! _ := ValidateMemberAddress (dtp_failed pb) in
    let! (ranges, executor) := DecodeRanges (dtp_ranges pb) in
    Ok (MkDeleteTask taskId epoch executor (dtp_failed pb) ranges)
  end.

(** ** Notifies *)
Fixpoint is_sorted (l : list string) : bool :=
  match l with
  | x :: (y :: _) as rest => negb (String.ltb y x) && is_sorted rest
  | _ => true
  end.

Fixpoint adjacent_find (l : list string) : bool :=
  match l with
  | x :: (y :: _) as rest => bool_decide (x = y) || adjacent_find rest
  | _ => false
  end.

Fixpoint task_refs_loop (batch : option ActiveBatch) (ids : list string) : res unit :=
  match ids with
  | [] => Ok tt
  | taskId :: rest =>
    let! _ := ValidateTaskId taskId in
    let prefix := match batch with Some b => if bool_decide (btype b = FAILURE) then "d-e"%string else "m-e"%string | None => "m-e"%string end in
    check! KeyHelper.is_prefix (cs prefix) (cs taskId) else K_INVALID in
    task_refs_loop batch rest
  end.

Definition EncodeNotify (w : wire TaskNotifyPb) (notify : TopologyTaskNotify) : res chars :=
  check! is_sorted (taskIds notify) && negb (adjacent_find (taskIds notify)) && (len (taskIds notify) <=? MAX_NOTIFY_TASK_REFS)
    else K_INVALID in
  check! negb (bool_decide (nt_activeBatch notify = None)) || bool_decide (taskIds notify = []) else K_INVALID in
  let! _ := ValidateRestartFacts (restartTimestampsByAddress notify) in
  let! batch := match nt_activeBatch notify with Some b => let! p := EncodeActiveBatch b in Ok (Some p) | None => Ok None end in
  let! _ := task_refs_loop (nt_activeBatch notify) (taskIds notify) in
  let! encoded := SerializeCanonical w (MkNotifyPb batch (taskIds notify) (smap_to_list (restartTimestampsByAddress notify))) in
  check! len encoded <=? MAX_NOTIFY_VALUE_BYTES else K_INVALID in
  Ok encoded.

Definition ComposeNotify (w : wire TaskNotifyPb) (taskNotify : TopologyTaskNotify) (canonicalRestartNotify : chars) : res chars :=
  check! bool_decide (restartTimestampsByAddress taskNotify = ∅) else K_INVALID in
  let! encoded := EncodeNotify w taskNotify in
  check! len canonicalRestartNotify <=? MAX_NOTIFY_VALUE_BYTES - len encoded else K_INVALID in
  Ok (encoded ++ canonicalRestartNotify).

Definition DecodeNotify (w : wire TaskNotifyPb) (value : chars) : res TopologyTaskNotify :=
  check! len value <=? MAX_NOTIFY_VALUE_BYTES else K_INVALID in
  match parse w value with
  | None => Fail K_INVALID
  | Some pb =>
    let! batch := match np_batch pb with Some p => let! b := DecodeActiveBatch p in Ok (Some b) | None => Ok None end in
    let decoded := MkNotify batch (np_ids pb) (list_to_map (np_restarts pb)) in
    let! canonical := EncodeNotify w decoded in
    check! bool_decide (canonical = value) else K_INVALID in
    Ok decoded
  end.

(** ** Topologies up to the order of their members *)
Definition reordered (st : TopologyState) (ms : list Member) : TopologyState :=
  MkTopology (clusterHasInit st) (version st) ms (activeBatch st).

Lemma valid_reordered st ms : topo_valid st → members st ≡ₚ ms → topo_valid (reordered st ms).
Proof.
  intros [Hv Hb Hm Ha Hi Ht Ho] Hp. split; cbn [reordered version members].
  - done.
  - unfold batch_ok in *. cbn [reordered activeBatch version members]. destruct (activeBatch st); [|by rewrite -Hp].
    destruct Hb as (? & ? & ?). by rewrite -Hp.
  - by rewrite -Hp.
  - by rewrite -Hp.
  - by rewrite -Hp.
  - by rewrite -Hp.
  - by rewrite -!Hp.
Qed.

Lemma canon_reordered st ms : topo_valid st → members st ≡ₚ ms → canon (reordered st ms) = canon st.
Proof.
  intros Hv Hp. pose proof (valid_reordered st ms Hv Hp) as Hv'. unfold canon. cbn [reordered clusterHasInit version activeBatch members].
  do 2 f_equal. apply addr_sorted_unique.
  - by rewrite !merge_sort_Permutation.
  - rewrite merge_sort_Permutation. apply Hv'.
  - apply StronglySorted_merge_sort; apply _.
  - apply StronglySorted_merge_sort; apply _.
Qed.

Lemma reordered_ok st ms : topo_valid st → members st ≡ₚ ms → ValidateAndCanonicalizeTopologyState (reordered st ms) = Ok (canon st).
Proof. intros Hv Hp. apply canonicalize_ok. split; [by apply valid_reordered|]. by rewrite canon_reordered. Qed.

(** ** The messages of valid values *)
Definition member_entry (m : Member) : string * MembershipPb := (addr m, MkMembershipPb (tokens m) (mid m) (state_number (state m))).

Lemma put_member_fresh m es : (addr m ∉ es.*1) → put_member m es = es ++ [member_entry m].
Proof.
  induction es as [|[a p] es IH]; intros Hn; [done|]. simpl in Hn |- *. apply not_elem_of_cons in Hn as [Ha Hn].
  rewrite bool_decide_eq_false_2; [congruence|]. by rewrite IH.
Qed.

Lemma put_members ms es :
  NoDup (es.*1 ++ (addr <$> ms)) → foldl (λ es m, put_member m es) es ms = es ++ (member_entry <$> ms).
Proof.
  revert es. induction ms as [|m ms IH]; intros es Hnd; simpl; [by rewrite app_nil_r|].
  rewrite put_member_fresh. { apply NoDup_app in Hnd as (_ & Hd & _). intros Hin. apply (Hd _ Hin). by left. }
  rewrite IH; [|by rewrite -assoc]. rewrite fmap_app -assoc. exact Hnd.
Qed.

Lemma type_roundtrip t n : ToPbType t = Ok n → FromPbType n = Ok t.
Proof. destruct t; by intros [= <-]. Qed.

Lemma decode_entries ms : decode_members (member_entry <$> ms) = Ok ms.
Proof.
  induction ms as [|[[i a] s ts] ms IH]; [done|]. cbn [fmap list_fmap member_entry decode_members mp_state state]. 
  assert (state_of_number (state_number s) = Ok s) as -> by (by destruct s). cbn [res_bind]. fold (fmap (M := list) member_entry ms). by rewrite IH.
Qed.

Lemma len_app {A} (l1 l2 : list A) : len (l1 ++ l2) = len l1 + len l2.
Proof. unfold len. rewrite length_app. lia. Qed.
Lemma len_nonneg {A} (l : list A) : 0 ≤ len l.
Proof. unfold len. lia. Qed.

Lemma count_tokens_spec c ms :
  ms ≠ [] ∨ c ≤ MAX_TOPOLOGY_TOKENS → is_ok (count_tokens c (member_entry <$> ms)) = (c + len (flat_map tokens ms) <=? MAX_TOPOLOGY_TOKENS).
Proof.
  revert c. induction ms as [|m ms IH]; intros c Hc.
  { destruct Hc as [?|Hc]; [done|]. symmetry. apply Z.leb_le. unfold len. cbn [flat_map List.length]. lia. }
  cbn [fmap list_fmap member_entry count_tokens flat_map mp_tokens]. rewrite len_app Z.add_assoc.
  pose proof (len_nonneg (flat_map tokens ms)).
  destruct (Z.leb_spec (c + len (tokens m)) MAX_TOPOLOGY_TOKENS) as [Hl|Hl]; [apply IH; by right|].
  symmetry. apply Z.leb_gt. lia.
Qed.

Definition batch_pb (b : ActiveBatch) : ChangeBatchPb :=
  MkBatchPb (match btype b with SCALE_OUT => 0 | SCALE_IN => 1 | FAILURE => 2 end) (epoch b).

Definition topology_pb (st : TopologyState) : ClusterTopologyPb :=
  MkClusterPb (clusterHasInit st) (member_entry <$> members st) (version st) SCHEMA_VERSION (batch_pb <$> activeBatch st).

(** Encoding serializes the message of the canonical form. *)
Lemma EncodeTopology_ok w st bytes :
  EncodeTopology w st = Ok bytes ↔
  topo_valid st ∧ serialize w (topology_pb (canon st)) = Some bytes ∧ len bytes ≤ MAX_VALUE_BYTES.
Proof.
  assert (∀ c, (match activeBatch c with Some b => let! t := ToPbType (btype b) in Ok (Some (MkBatchPb t (epoch b))) | None => Ok None end)
    = Ok (batch_pb <$> activeBatch c)) as Hb.
  { intros c. unfold batch_pb. destruct (activeBatch c) as [[[] e]|]; done. }
  assert (∀ st, topo_valid st → foldl (λ es m, put_member m es) [] (members (canon st)) = member_entry <$> members (canon st)) as Hm.
  { intros c Hv. rewrite put_members //. apply (canon_valid c Hv). }
  unfold EncodeTopology, SerializeCanonical. split.
  - intros (c & [Hv ->]%canonicalize_ok & He)%res_bind_Ok. rewrite Hb Hm // in He. cbn [res_bind] in He.
    fold (topology_pb (canon st)) in He. destruct (serialize w _) as [s|]; [|done].
    destruct (Z.leb_spec (len s) MAX_VALUE_BYTES); [|done]. by injection He as <-.
  - intros (Hv & Hs & Hl). rewrite (proj2 (canonicalize_ok st (canon st)) (conj Hv eq_refl)). cbn [res_bind]. rewrite Hb Hm //. cbn [res_bind].
    fold (topology_pb (canon st)). rewrite Hs. by apply Z.leb_le in Hl as ->.
Qed.

(** Decoding what was encoded: it is refused for its size, or it is the canonical form. *)
Lemma Decode_encoded w st bytes :
  wire_ok same_topology w → EncodeTopology w st = Ok bytes →
  DecodeTopology w bytes =
    if (len (members st) <=? MAX_TOPOLOGY_MEMBERS) && (len (flat_map tokens (members st)) <=? MAX_TOPOLOGY_TOKENS)
    then Ok (canon st) else Fail K_INVALID.
Proof.
  intros [Hparse _] (Hv & Hs & Hl)%EncodeTopology_ok. destruct (Hparse _ _ Hs) as (pb & Hpb & (Ei & Hp & Ev & Es & Eb)).
  unfold DecodeTopology. apply Z.leb_le in Hl as ->. rewrite Hpb. rewrite -Es bool_decide_eq_true_2 //.
  cbn [topology_pb cp_members cp_init cp_version cp_schema cp_batch] in *.
  symmetry in Hp. apply fmap_Permutation_inv in Hp as (ms & Em & Hms).
  pose proof (canon_valid st Hv) as Hv'. rewrite Em decode_entries. cbn [res_bind].
  assert (len (member_entry <$> ms) = len (members st)) as ->.
  { unfold len. rewrite length_fmap -(Permutation_length Hms) (Permutation_length (canon_members_perm st)) length_fmap //. }
  destruct (Z.leb_spec (len (members st)) MAX_TOPOLOGY_MEMBERS) as [Hn|Hn]; [|done]. cbn [andb].
  assert (len (flat_map tokens ms) = len (flat_map tokens (members st))) as Hlen.
  { unfold len. apply f_equal, Permutation_length. rewrite -Hms canon_members_perm. clear. induction (members st) as [|m l IH]; [done|].
    simpl. rewrite IH merge_sort_Permutation. done. }
  assert (is_ok (count_tokens 0 (member_entry <$> ms)) = (len (flat_map tokens (members st)) <=? MAX_TOPOLOGY_TOKENS)) as Hcount.
  { rewrite -Hlen. apply (count_tokens_spec 0). by right. }
  assert (∀ c es, count_tokens c es = if is_ok (count_tokens c es) then Ok tt else Fail K_INVALID) as Hshape.
  { clear. intros c es. revert c. induction es as [|[a p] es IH]; intros c; [done|]. simpl. destruct (_ <=? _); [apply IH|done]. }
  rewrite Hshape Hcount. destruct (_ <=? MAX_TOPOLOGY_TOKENS); [|done]. cbn [res_bind].
  assert ((match cp_batch pb with Some b => let! t := FromPbType (bp_type b) in Ok (Some (MkBatch t (bp_epoch b))) | None => Ok None end)
    = Ok (activeBatch (canon st))) as ->.
  { rewrite -Eb. by destruct (activeBatch (canon st)) as [[[] e]|]. }
  cbn [res_bind]. rewrite -Ei -Ev. fold (reordered (canon st) ms). rewrite reordered_ok //.
  rewrite (canon_canon st) //.
Qed.

(** ** Tasks *)
Lemma cs_inj s s' : cs s = cs s' → s = s'.
Proof. intros E%(f_equal string_of_list_ascii). by rewrite !string_of_list_ascii_of_string in E. Qed.

Lemma member_address_nonempty a : ValidateMemberAddress a = Ok tt → empty_str a = false.
Proof.
  unfold ValidateMemberAddress, KeyHelper.NotifyKey, KeyHelper.ValidateAddress. case_bool_decide as E; [done|]. intros _.
  apply empty_str_false. by intros ->.
Qed.

Lemma SerializeCanonical_ok {M} (w : wire M) pb bytes :
  SerializeCanonical w pb = Ok bytes ↔ serialize w pb = Some bytes ∧ len bytes ≤ MAX_VALUE_BYTES.
Proof.
  unfold SerializeCanonical. destruct (serialize w pb) as [s|]; [|naive_solver]. destruct (Z.leb_spec (len s) MAX_VALUE_BYTES); split.
  - by intros [= <-].
  - by intros [[= <-] _].
  - done.
  - intros [[= <-] ?]. lia.
Qed.

Lemma ranges_roundtrip ranges executor :
  IsCanonicalRanges ranges executor = true → DecodeRanges (EncodeRanges ranges) = Ok (ranges, executor).
Proof.
  intros Hc. unfold DecodeRanges.
  assert ((λ p, MkTaskRange (rp_owner p) (MkRange (rp_from p) (rp_end p)) (rp_finished p)) <$> EncodeRanges ranges = ranges) as ->.
  { unfold EncodeRanges. rewrite -list_fmap_compose -{2}(list_fmap_id ranges). apply list_fmap_ext. by intros _ [? [? ?] ?] _. }
  pose proof Hc as Hc'. unfold IsCanonicalRanges in Hc'. rewrite !andb_true_iff in Hc'. destruct Hc' as [[[Hne Hl] _] Hloop].
  unfold EncodeRanges. rewrite length_fmap Hl. destruct ranges as [|r rs]; [done|]. cbn [List.length ranges_loop] in *.
  assert (ownerAddress r = executor) as ->; [|by rewrite Hc].
  apply andb_true_iff in Hloop as [[Ho _]%andb_true_iff _]. apply andb_true_iff in Ho as [Ho _]. by apply bool_decide_eq_true in Ho.
Qed.

Lemma migrate_roundtrip w task bytes :
  wire_ok eq w → EncodeMigrateTask w task = Ok bytes → DecodeMigrateTask w (mt_taskId task) (mt_type task) (mt_epoch task) bytes = Ok task.
Proof.
  intros [Hparse _]. unfold EncodeMigrateTask, DecodeMigrateTask. destruct (ValidateTaskContext _ _ _) as [[]|]; [|done]. cbn [res_bind].
  destruct (ValidateMemberAddress (mt_targetAddress task)) as [[]|] eqn:Ht; [|done]. cbn [res_bind].
  intros ([] & _ & He)%res_bind_Ok. destruct (_ && _) eqn:Ec; [|done]. apply andb_true_iff in Ec as [-> Hc].
  apply SerializeCanonical_ok in He as [Hs Hl]. apply Z.leb_le in Hl as ->. destruct (Hparse _ _ Hs) as (pb & -> & <-). cbn [andb mtp_target mtp_ranges].
  rewrite (member_address_nonempty _ Ht) Ht (ranges_roundtrip _ _ Hc). simpl. by destruct task.
Qed.

Lemma delete_roundtrip w task bytes :
  wire_ok eq w → EncodeDeleteTask w task = Ok bytes → DecodeDeleteTask w (dt_taskId task) (dt_epoch task) bytes = Ok task.
Proof.
  intros [Hparse _]. unfold EncodeDeleteTask, DecodeDeleteTask. destruct (ValidateTaskContext _ _ _) as [[]|]; [|done]. cbn [res_bind].
  destruct (ValidateMemberAddress (dt_failedAddress task)) as [[]|] eqn:Ht; [|done]. cbn [res_bind].
  intros ([] & _ & He)%res_bind_Ok. destruct (_ && _) eqn:Ec; [|done]. apply andb_true_iff in Ec as [-> Hc].
  apply SerializeCanonical_ok in He as [Hs Hl]. apply Z.leb_le in Hl as ->. destruct (Hparse _ _ Hs) as (pb & -> & <-). cbn [andb dtp_failed dtp_ranges].
  rewrite (member_address_nonempty _ Ht) Ht (ranges_roundtrip _ _ Hc). simpl. by destruct task.
Qed.

(** ** Notifies *)
Lemma smap_to_list_map {V} (m : gmap string V) l : smap_to_list m ≡ₚ l → list_to_map l = m.
Proof.
  intros Hp. rewrite -(list_to_map_to_list m). apply list_to_map_proper.
  - rewrite -Hp. unfold smap_to_list. rewrite merge_sort_Permutation. apply NoDup_fst_map_to_list.
  - rewrite -Hp. unfold smap_to_list. by rewrite merge_sort_Permutation.
Qed.

Lemma notify_iff w notify bytes : wire_ok same_notify w → EncodeNotify w notify = Ok bytes ↔ DecodeNotify w bytes = Ok notify.
Proof.
  intros [Hparse Hdet]. split.
  - intros He. unfold DecodeNotify. pose proof He as He'. unfold EncodeNotify in He. destruct (_ && _); [|done]. destruct (_ || _); [|done].
    apply res_bind_Ok in He as ([] & _ & He). apply res_bind_Ok in He as (batch & Hb & He). apply res_bind_Ok in He as ([] & _ & He).
    apply res_bind_Ok in He as (enc & [Hs _]%SerializeCanonical_ok & He). destruct (len enc <=? _) eqn:El; [|done]. injection He as <-.
    rewrite El. destruct (Hparse _ _ Hs) as (pb & -> & (Eb & Ei & Hp)). cbn [np_batch np_ids np_restarts] in *.
    assert ((match np_batch pb with Some p => let! b := DecodeActiveBatch p in Ok (Some b) | None => Ok None end) = Ok (nt_activeBatch notify)) as ->.
    { rewrite -Eb. destruct (nt_activeBatch notify) as [[t e]|]; [|by injection Hb as <-].
      apply res_bind_Ok in Hb as (p & Hp' & [= <-]). unfold EncodeActiveBatch in Hp'. cbn [epoch btype] in Hp'. destruct (0 <? e) eqn:Ee; [|done].
      apply res_bind_Ok in Hp' as (n & Hn & [= <-]). unfold DecodeActiveBatch. cbn [bp_epoch bp_type]. by rewrite Ee (type_roundtrip _ _ Hn). }
    cbn [res_bind]. rewrite (smap_to_list_map _ _ Hp) -Ei. replace (MkNotify _ _ _) with notify by (by destruct notify).
    rewrite He'. cbn [res_bind]. by rewrite bool_decide_eq_true_2.
  - unfold DecodeNotify. destruct (_ <=? _); [|done]. destruct (parse w bytes) as [pb|]; [|done].
    intros (batch & _ & He)%res_bind_Ok. apply res_bind_Ok in He as (c & Hc & He). case_bool_decide as E; [|done]. injection He as <-. by subst c.
Qed.

(** ** Properties *)

(** the topology written is the topology read.  For any protobuf runtime as documented, what encodes is a
    valid topology, and decoding its bytes gives its canonical form, in whatever order the parsed message
    iterates over the members, as long as it has at most 10,000 members and 40,000 tokens. *)
Theorem topology_roundtrip (w : wire ClusterTopologyPb) (st : TopologyState) (bytes : chars) (Hw : wire_ok same_topology w)
    (He : EncodeTopology w st = Ok bytes) (Hm : len (members st) ≤ MAX_TOPOLOGY_MEMBERS)
    (Ht : len (flat_map tokens (members st)) ≤ MAX_TOPOLOGY_TOKENS) :
  DecodeTopology w bytes = Ok (canon st) ∧ topo_valid st.
Proof.
  split; [|by apply EncodeTopology_ok in He as [? _]]. rewrite (Decode_encoded w st bytes Hw He).
  by rewrite (proj2 (Z.leb_le _ _) Hm) (proj2 (Z.leb_le _ _) Ht).
Qed.

(** A protobuf runtime for one message, used by the witnesses. *)
Definition one_wire {M} `{EqDecision M} (pb0 : M) (s0 : chars) : wire M :=
  MkWire M (λ pb, if bool_decide (pb = pb0) then Some s0 else None) (λ s, if bool_decide (s = s0) then Some pb0 else None).

Lemma one_wire_ok {M} `{EqDecision M} (same : relation M) (pb0 : M) s0 :
  same pb0 pb0 → (∀ pb pb', same pb pb' → pb = pb0 ↔ pb' = pb0) → wire_ok same (one_wire pb0 s0).
Proof.
  intros Hr Hs. split; simpl.
  - intros pb s. case_bool_decide as E; [|done]. intros [= <-]. exists pb0. rewrite bool_decide_eq_true_2 //. by subst.
  - intros pb pb' Hpp. by rewrite (bool_decide_ext _ _ (Hs pb pb' Hpp)).
Qed.

#[export] Instance MembershipPb_eq_dec : EqDecision MembershipPb.
Proof. solve_decision. Defined.
#[export] Instance TokenRangePb_eq_dec : EqDecision TokenRangePb.
Proof. solve_decision. Defined.
#[export] Instance MigrateTaskPb_eq_dec : EqDecision MigrateTaskPb.
Proof. solve_decision. Defined.
#[export] Instance DeleteNodeTaskPb_eq_dec : EqDecision DeleteNodeTaskPb.
Proof. solve_decision. Defined.
#[export] Instance ChangeBatchPb_eq_dec : EqDecision ChangeBatchPb.
Proof. solve_decision. Defined.
#[export] Instance TaskNotifyPb_eq_dec : EqDecision TaskNotifyPb.
Proof. solve_decision. Defined.
#[export] Instance ClusterTopologyPb_eq_dec : EqDecision ClusterTopologyPb.
Proof. solve_decision. Defined.

(** A topology of one member has one message. *)
Lemma single_wire_ok st m s0 : members (canon st) = [m] → wire_ok same_topology (one_wire (topology_pb (canon st)) s0).
Proof.
  intros Em. assert (∀ a b, same_topology a b → cp_members a = [member_entry m] ∨ cp_members b = [member_entry m] → a = b) as Heq.
  { intros [] [] (H1 & H2 & H3 & H4 & H5) Ho. simpl in *. destruct Ho as [-> | ->].
    - apply Permutation_singleton_l in H2 as ->. congruence.
    - apply Permutation_singleton_r in H2 as ->. congruence. }
  apply one_wire_ok; [done|]. intros pb pb' Hs. unfold topology_pb. rewrite Em. split; intros ->; [symmetry|]; (apply Heq; [done|]); auto.
Qed.

Definition single : TopologyState := MkTopology true 5 [m1] None.

Lemma topology_roundtrip_witness :
  ∃ w bytes, EncodeTopology w single = Ok bytes ∧ DecodeTopology w bytes = Ok (canon single).
Proof.
  exists (one_wire (topology_pb (canon single)) ["x"%char]), ["x"%char].
  assert (EncodeTopology (one_wire (topology_pb (canon single)) ["x"%char]) single = Ok ["x"%char]) as He by (vm_compute; reflexivity).
  split; [exact He|]. apply (topology_roundtrip _ single _ (single_wire_ok single m1 ["x"%char] ltac:(vm_compute; reflexivity)) He); by vm_compute.
Defined.

(** a topology can be committed that nobody can read.  Encoding, and with it the compare-and-swap, has no
    limit on members and tokens, and decoding has: a valid topology with more than 10,000 members or 40,000
    tokens encodes, and every decoding of its bytes fails.  (Ten members at the 4096 tokens per member the
    flag allows are enough.) *)
Theorem oversized_topology_unreadable (w : wire ClusterTopologyPb) (st : TopologyState) (bytes : chars) (Hw : wire_ok same_topology w)
    (He : EncodeTopology w st = Ok bytes)
    (Hbig : MAX_TOPOLOGY_MEMBERS < len (members st) ∨ MAX_TOPOLOGY_TOKENS < len (flat_map tokens (members st))) :
  DecodeTopology w bytes = Fail K_INVALID.
Proof.
  rewrite (Decode_encoded w st bytes Hw He). destruct Hbig as [H1|H1]; apply Z.leb_gt in H1 as ->; by rewrite ?andb_false_r.
Qed.

Definition big : TopologyState := MkTopology true 5 [MkMember (identity m1) ACTIVE (seqZ 0 40001)] None.

Lemma oversized_topology_unreadable_witness :
  ∃ w bytes, EncodeTopology w big = Ok bytes ∧ DecodeTopology w bytes = Fail K_INVALID.
Proof.
  assert (topo_valid big) as Hv.
  { split.
    - cbn [big version]. unfold INT64_MAX. lia.
    - unfold batch_ok. cbn [big activeBatch members]. by repeat constructor.
    - cbn [big members]. apply Forall_singleton. change (member_ok m1).
      split_and!; [done|apply (bool_decide_unpack _); vm_compute; exact I|vm_compute; reflexivity|reflexivity].
    - cbn [big members]. apply NoDup_singleton.
    - cbn [big members]. apply NoDup_singleton.
    - cbn [big members flat_map tokens]. rewrite app_nil_r. apply NoDup_seqZ.
    - cbn [big members]. intros _. apply Exists_cons_hd. split; [done|]. cbn [tokens]. intros E%(f_equal List.length).
      rewrite length_seqZ in E. done. }
  exists (one_wire (topology_pb (canon big)) ["x"%char]), ["x"%char].
  assert (EncodeTopology (one_wire (topology_pb (canon big)) ["x"%char]) big = Ok ["x"%char]) as He.
  { apply EncodeTopology_ok. split; [exact Hv|]. split; [|by vm_compute]. unfold one_wire, serialize. by rewrite bool_decide_eq_true_2. }
  split; [exact He|]. eapply (oversized_topology_unreadable _ big _ (single_wire_ok big _ ["x"%char] eq_refl) He).
  right. cbn [big members flat_map tokens]. rewrite app_nil_r. unfold len. rewrite length_seqZ. by vm_compute.
Defined.

(** a task read back is the task written.  A migration or deletion task that encodes decodes, in the context
    of its own id, type and epoch, to itself: executor, other end, ranges and their progress. *)
Theorem tasks_roundtrip (wm : wire MigrateTaskPb) (wd : wire DeleteNodeTaskPb) (mt : TopologyMigrateTask) (dt : TopologyDeleteTask)
    (bm bd : chars) (Hm : wire_ok eq wm) (Hd : wire_ok eq wd)
    (Em : EncodeMigrateTask wm mt = Ok bm) (Ed : EncodeDeleteTask wd dt = Ok bd) :
  DecodeMigrateTask wm (mt_taskId mt) (mt_type mt) (mt_epoch mt) bm = Ok mt
  ∧ DecodeDeleteTask wd (dt_taskId dt) (dt_epoch dt) bd = Ok dt.
Proof. split; [by apply migrate_roundtrip|by apply delete_roundtrip]. Qed.

Definition sample_ranges : list TopologyTaskRange :=
  [MkTaskRange "10.0.0.1:8001" (MkRange 0 9) false; MkTaskRange "10.0.0.1:8001" (MkRange 20 29) true].
Definition sample_migrate : TopologyMigrateTask :=
  MkMigrateTask "m-e7-0123456789abcdef0123456789abcdef" SCALE_OUT 7 "10.0.0.1:8001" "10.0.0.3:8001" sample_ranges.
Definition sample_delete : TopologyDeleteTask :=
  MkDeleteTask "d-e7-0123456789abcdef0123456789abcdef" 7 "10.0.0.1:8001" "10.0.0.2:8001" sample_ranges.

Lemma tasks_roundtrip_witness :
  ∃ wm wd bm bd, EncodeMigrateTask wm sample_migrate = Ok bm ∧ EncodeDeleteTask wd sample_delete = Ok bd
    ∧ DecodeMigrateTask wm "m-e7-0123456789abcdef0123456789abcdef" SCALE_OUT 7 bm = Ok sample_migrate.
Proof.
  exists (one_wire (MkMigrateTaskPb "10.0.0.3:8001" (EncodeRanges sample_ranges)) ["x"%char]),
    (one_wire (MkDeleteTaskPb "10.0.0.2:8001" (EncodeRanges sample_ranges)) ["x"%char]), ["x"%char], ["x"%char].
  assert (EncodeMigrateTask (one_wire (MkMigrateTaskPb "10.0.0.3:8001" (EncodeRanges sample_ranges)) ["x"%char]) sample_migrate = Ok ["x"%char])
    as Em by (vm_compute; reflexivity).
  assert (EncodeDeleteTask (one_wire (MkDeleteTaskPb "10.0.0.2:8001" (EncodeRanges sample_ranges)) ["x"%char]) sample_delete = Ok ["x"%char])
    as Ed by (vm_compute; reflexivity).
  split; [exact Em|]. split; [exact Ed|].
  refine (proj1 (tasks_roundtrip _ _ sample_migrate sample_delete _ _ _ _ Em Ed)); (apply one_wire_ok; [done|by intros ? ? ->]).
Defined.

(** a notify has one encoding.  A notify encodes to some bytes exactly when these bytes decode to it: decoding
    accepts nothing but canonical values, and everything that encodes. *)
Theorem notify_canonical (w : wire TaskNotifyPb) (notify : TopologyTaskNotify) (bytes : chars) (Hw : wire_ok same_notify w) :
  EncodeNotify w notify = Ok bytes ↔ DecodeNotify w bytes = Ok notify.
Proof. by apply notify_iff. Qed.

Definition sample_notify : TopologyTaskNotify :=
  MkNotify (Some (MkBatch SCALE_OUT 7)) ["m-e7-0123456789abcdef0123456789abcdef"%string] ∅.

Lemma notify_canonical_witness :
  ∃ w bytes, EncodeNotify w sample_notify = Ok bytes ∧ DecodeNotify w bytes = Ok sample_notify.
Proof.
  set (pb := MkNotifyPb (Some (MkBatchPb 0 7)) ["m-e7-0123456789abcdef0123456789abcdef"%string] []).
  exists (one_wire pb ["x"%char]), ["x"%char].
  assert (EncodeNotify (one_wire pb ["x"%char]) sample_notify = Ok ["x"%char]) as He by (vm_compute; reflexivity).
  split; [exact He|]. apply (notify_canonical (one_wire pb ["x"%char]) sample_notify ["x"%char]); [|exact He].
  apply one_wire_ok; [done|]. intros [] [] (H1 & H2 & H3). simpl in *. subst. unfold pb.
  split; intros [= -> -> ->]; [apply Permutation_nil_l in H3|apply Permutation_nil_r in H3]; by subst.
Defined.
End RepositoryCodec.
