(* ===== verification/Repository.v ===== *)
(** * Repository: semantic operations on the coordination store

    Model of [src/datasystem/cluster/repository/topology_repository.{h,cpp}].  Every operation reads a row, or
    runs one callback-form compare-and-swap on it, through [ICoordinationBackend]; the backend is its
    contract: rows of bytes, a compare-and-swap that is atomic, and failures.  A failed compare-and-swap may
    not have run the callback, may have run it without the write taking effect, or may have taken effect
    with its reply lost; which of them happens is an argument of the operation.  [CASAtRevision] is a
    compare-and-swap that can also be refused, which is a failure before the callback.

    The callback runs once in a [CAS].  [EtcdStore::CAS] reads and runs it again when its transaction has failed, which is a sequence of
    these: the earlier runs are [FailWrite], or [FailAfter] when the write took effect and only its reply was lost, and the last one
    gives the answer; a run that writes nothing or fails is always the last, so what the callback captured then is what the operation sees. *)
From S2P Require Import Prelude NetUtil Topology KeyHelper Membership RepositoryCodec.
From Stdlib Require Import Ascii String.
Import Topology RepositoryCodec.

Module Repository.
Local Open Scope Z_scope.

(** ** The backend *)
Definition row := (chars * chars)%type.      (* table and key *)
Definition store := gmap row chars.

Inductive fault := NoFault | FailBefore (code : StatusCode) | FailWrite (code : StatusCode) | FailAfter (code : StatusCode).

(** [CAS(table, key, process)]: [captured] is what the callback captures by reference. *)
Definition CAS {A} (f : fault) (st : store) (r : row) (captured : A) (process : chars → A → A * res (option chars))
    : store * A * res unit :=
  match f with
  | FailBefore code => (st, captured, Fail code)
  | _ =>
    match process (default [] (st !! r)) captured with
    | (captured', Fail code) => (st, captured', Fail code)
    | (captured', Ok None) => (st, captured', Ok tt)
    | (captured', Ok (Some next)) =>
      match f with
      | FailWrite code => (st, captured', Fail code)
      | FailAfter code => (<[r := next]> st, captured', Fail code)
      | _ => (<[r := next]> st, captured', Ok tt)
      end
    end
  end.

Definition Get (f : option StatusCode) (st : store) (r : row) : res chars :=
  match f with
  | Some code => Fail code
  | None => match st !! r with Some v => Ok v | None => Fail K_NOT_FOUND end
  end.

(** [Delete]: a failure may come after the row is gone. *)
Definition Delete (f : fault) (st : store) (r : row) : store * res unit :=
  match f with
  | FailBefore code | FailWrite code => (st, Fail code)
  | FailAfter code => (delete r st, Fail code)
  | NoFault => (delete r st, Ok tt)
  end.

(** [GetAll]: the rows of a table, in some order. *)
Definition GetAll (f : option StatusCode) (st : store) (table : chars) : res (list (chars * chars)) :=
  match f with
  | Some code => Fail code
  | None => Ok ((λ kv, (kv.1.2, kv.2)) <$> filter (λ kv, kv.1.1 = table) (map_to_list st))
  end.

(** ** Tombstones *)
Definition TASK_DELETE_TOMBSTONE_PREFIX : chars := cs "cluster-task-delete-tombstone-v1-".
Definition NOTIFY_DELETE_TOMBSTONE_PREFIX : chars := cs "cluster-notify-delete-tombstone-v1-".
Definition SCALE_IN_METADATA_DONE_DELETE_TOMBSTONE_PREFIX : chars := cs "cluster-scalein-metadata-delete-tombstone-v1-".

Definition HasPrefix (bytes prefix : chars) : bool := KeyHelper.is_prefix prefix bytes.

Definition NextDeleteTombstone (prefix current : chars) : chars :=
  let first := prefix ++ ["0"%char] in
  if negb (bool_decide (current = first)) then first else prefix ++ ["1"%char].

Definition IsTaskDeleteTombstone (bytes : chars) : bool := HasPrefix bytes TASK_DELETE_TOMBSTONE_PREFIX.
Definition IsNotifyDeleteTombstone (bytes : chars) : bool := HasPrefix bytes NOTIFY_DELETE_TOMBSTONE_PREFIX.
Definition IsScaleInMetadataDoneDeleteTombstone (bytes : chars) : bool :=
  HasPrefix bytes SCALE_IN_METADATA_DONE_DELETE_TOMBSTONE_PREFIX.

(** ** Tasks *)
Inductive TopologyTask := Migrate (t : TopologyMigrateTask) | Remove (t : TopologyDeleteTask).
Inductive TopologyTaskKind := MIGRATE | DELETE_MEMBER.
#[export] Instance TopologyTaskKind_eq_dec : EqDecision TopologyTaskKind.
Proof. solve_decision. Defined.

Inductive TopologyCallbackPhase := PHASE_SCALE_OUT | PHASE_SCALE_IN | PHASE_SCALE_IN_CLEANUP | PHASE_FAILURE.
#[export] Instance TopologyCallbackPhase_eq_dec : EqDecision TopologyCallbackPhase.
Proof. solve_decision. Defined.

Record TopologyExecutionFence := MkExecFence {
  ef_taskId : string; ef_taskKind : TopologyTaskKind; ef_batchType : TopologyChangeType; ef_batchEpoch : Z;
  ef_phase : TopologyCallbackPhase; ef_executor : MemberIdentity; ef_source : option MemberIdentity;
  ef_target : option MemberIdentity; ef_failed : option MemberIdentity; ef_ranges : list TokenRange }.

Inductive TaskProgressOutcome := UPDATED | ALREADY_FINISHED | STALE | PROGRESS_UNKNOWN.
Inductive TopologyCasOutcome := COMMITTED | CONFLICT | CAS_UNKNOWN.

Definition kind_of (task : TopologyTask) : TopologyTaskKind := match task with Migrate _ => MIGRATE | Remove _ => DELETE_MEMBER end.
Definition id_of (task : TopologyTask) : string := match task with Migrate t => mt_taskId t | Remove t => dt_taskId t end.
Definition ranges_of (task : TopologyTask) : list TopologyTaskRange :=
  match task with Migrate t => sourceRanges t | Remove t => recoveryRanges t end.

Definition with_ranges (ranges : list TopologyTaskRange) (task : TopologyTask) : TopologyTask :=
  match task with
  | Migrate t => Migrate (MkMigrateTask (mt_taskId t) (mt_type t) (mt_epoch t) (mt_executorAddress t) (mt_targetAddress t) ranges)
  | Remove t => Remove (MkDeleteTask (dt_taskId t) (dt_epoch t) (dt_executorAddress t) (dt_failedAddress t) ranges)
  end.

Definition compatible_range (o e : TopologyTaskRange) : bool :=
  bool_decide (ownerAddress o = ownerAddress e) && bool_decide (range o = range e) && (negb (finished e) || finished o).

Fixpoint CompatibleRangeProgress (observed expected : list TopologyTaskRange) : bool :=
  match observed, expected with
  | [], [] => true
  | o :: os, e :: es => compatible_range o e && CompatibleRangeProgress os es
  | _, _ => false
  end.

Definition set_finished (r : TopologyTaskRange) : TopologyTaskRange := MkTaskRange (ownerAddress r) (range r) true.

(** Returns the task as the callback leaves it, and the outcome. *)
Definition ApplyFenceToTask (task : TopologyTask) (fence : TopologyExecutionFence) : res (TopologyTask * TaskProgressOutcome) :=
  check! bool_decide (ef_taskKind fence = kind_of task) else K_INVALID in
  let '(taskId, epoch, executor) := match task with
    | Migrate t => (mt_taskId t, mt_epoch t, mt_executorAddress t)
    | Remove t => (dt_taskId t, dt_epoch t, dt_executorAddress t)
    end in
  check! bool_decide (taskId = ef_taskId fence) && (epoch =? ef_batchEpoch fence) && bool_decide (executor = address (ef_executor fence))
         && negb (bool_decide (ef_ranges fence = [])) else K_INVALID in
  let allRanges := range <$> ranges_of task in
  let unfinished := range <$> filter (λ r, finished r = false) (ranges_of task) in
  if bool_decide (unfinished = [])
  then Ok (task, if bool_decide (allRanges = ef_ranges fence) then ALREADY_FINISHED else STALE)
  else if negb (bool_decide (unfinished = ef_ranges fence)) then Ok (task, STALE)
  else Ok (with_ranges (set_finished <$> ranges_of task) task, UPDATED).

Section Repository.
Context (keys : KeyHelper.helper) (wt : wire ClusterTopologyPb) (wm : wire MigrateTaskPb) (wd : wire DeleteNodeTaskPb)
  (wn : wire TaskNotifyPb).

Definition EncodeTask (task : TopologyTask) : res chars :=
  match task with Migrate t => EncodeMigrateTask wm t | Remove t => EncodeDeleteTask wd t end.

Definition ValidateCompatibleTask (expected : TopologyTask) (observedBytes : chars) : res unit :=
  match expected with
  | Migrate value =>
    let! observed := DecodeMigrateTask wm (mt_taskId value) (mt_type value) (mt_epoch value) observedBytes in
    check! bool_decide (mt_executorAddress observed = mt_executorAddress value)
           && bool_decide (mt_targetAddress observed = mt_targetAddress value)
           && CompatibleRangeProgress (sourceRanges observed) (sourceRanges value) else K_INVALID in Ok tt
  | Remove value =>
    let! observed := DecodeDeleteTask wd (dt_taskId value) (dt_epoch value) observedBytes in
    check! bool_decide (dt_executorAddress observed = dt_executorAddress value)
           && bool_decide (dt_failedAddress observed = dt_failedAddress value)
           && CompatibleRangeProgress (recoveryRanges observed) (recoveryRanges value) else K_INVALID in Ok tt
  end.

Definition ResolveCompatibleTaskWrite (g : option StatusCode) (st : store) (r : row) (expected : TopologyTask) (writeStatus : res unit)
    : res unit :=
  match Get g st r with
  | Ok observedBytes => if IsTaskDeleteTombstone observedBytes then writeStatus else ValidateCompatibleTask expected observedBytes
  | Fail _ => writeStatus
  end.

Definition ResolveExactWrite (g : option StatusCode) (st : store) (r : row) (desiredBytes : chars) (writeStatus : res unit) : res unit :=
  match Get g st r with
  | Ok observedBytes => check! bool_decide (observedBytes = desiredBytes) else K_INVALID in Ok tt
  | Fail _ => writeStatus
  end.

(** ** The topology *)
Definition topology_row : row := (KeyHelper.topologyTable_ keys, KeyHelper.TopologyKey).

Definition ReadTopology (g : option StatusCode) (st : store) (timeoutMs : Z) : res TopologyState :=
  check! 0 <? timeoutMs else K_INVALID in
  let! value := Get g st topology_row in
  DecodeTopology wt value.

Definition topology_process (expectedVersion : Z) (desiredBytes current : chars) (conflict : bool) : bool * res (option chars) :=
  if bool_decide (current = []) && (expectedVersion =? 0) then (conflict, Ok (Some desiredBytes))
  else match DecodeTopology wt current with
       | Ok observed => if negb (version observed =? expectedVersion) then (true, Ok None) else (conflict, Ok (Some desiredBytes))
       | Fail _ => (true, Ok None)
       end.

Record TopologyCasResult := MkCasResult { outcome : TopologyCasOutcome; observed_ : option TopologyState }.

(** The store after the call, its result and its status. *)
Definition CompareAndSwapTopology (f : fault) (g : option StatusCode) (st : store) (expectedVersion : Z) (desired : TopologyState)
    : store * TopologyCasResult * res unit :=
  let none := MkCasResult CAS_UNKNOWN None in
  if negb (version desired =? u64 (expectedVersion + 1)) then (st, none, Fail K_INVALID)
  else match EncodeTopology wt desired with
  | Fail code => (st, none, Fail code)
  | Ok desiredBytes =>
    let '(st', conflict, rc) := CAS f st topology_row false (topology_process expectedVersion desiredBytes) in
    if is_ok rc && negb conflict then (st', MkCasResult COMMITTED None, Ok tt)
    else match Get g st' topology_row with
    | Ok value =>
      match DecodeTopology wt value with
      | Fail code => (st', none, Fail code)
      | Ok observed =>
        if bool_decide (value = desiredBytes) then (st', MkCasResult COMMITTED (Some observed), Ok tt)
        else (st', MkCasResult CONFLICT (Some observed),
              if negb (version observed =? version desired) then Ok tt else Fail K_INVALID)
      end
    | Fail code => (st', none, match rc with Fail c => Fail c | Ok _ => Fail code end)
    end
  end.

(** ** Task rows *)
Definition TaskTable (kind : TopologyTaskKind) : chars :=
  match kind with MIGRATE => KeyHelper.migrateTaskTable_ keys | DELETE_MEMBER => KeyHelper.deleteTaskTable_ keys end.
Definition task_row (kind : TopologyTaskKind) (taskId : string) : row := (TaskTable kind, cs taskId).

Definition decode_task (kind : TopologyTaskKind) (taskId : string) (type : TopologyChangeType) (epoch : Z) (bytes : chars) : res TopologyTask :=
  match kind with
  | MIGRATE => let! t := DecodeMigrateTask wm taskId type epoch bytes in Ok (Migrate t)
  | DELETE_MEMBER => let! t := DecodeDeleteTask wd taskId epoch bytes in Ok (Remove t)
  end.

Definition ReadTask (g : option StatusCode) (st : store) (kind : TopologyTaskKind) (taskId : string) (type : TopologyChangeType) (epoch : Z)
    : res TopologyTask :=
  let! _ := KeyHelper.TaskKey (cs taskId) in
  let! bytes := Get g st (task_row kind taskId) in
  check! negb (IsTaskDeleteTombstone bytes) else K_NOT_FOUND in
  decode_task kind taskId type epoch bytes.

Definition create_process (task : TopologyTask) (bytes current : chars) (u : unit) : unit * res (option chars) :=
  (u, if IsTaskDeleteTombstone current then Fail K_TRY_AGAIN
      else match current with
           | [] => Ok (Some bytes)
           | _ => let! _ := ValidateCompatibleTask task current in Ok None
           end).

Definition CreateTaskIfAbsent (f : fault) (g : option StatusCode) (st : store) (task : TopologyTask) : store * res unit :=
  match EncodeTask task with
  | Fail code => (st, Fail code)
  | Ok bytes =>
    let r := task_row (kind_of task) (id_of task) in
    let '(st', _, rc) := CAS f st r tt (create_process task bytes) in
    (st', match rc with Ok _ => rc | Fail _ => ResolveCompatibleTaskWrite g st' r task rc end)
  end.

Definition mark_process (fence : TopologyExecutionFence) (current : chars) (out : TaskProgressOutcome)
    : TaskProgressOutcome * res (option chars) :=
  match decode_task (ef_taskKind fence) (ef_taskId fence) (ef_batchType fence) (ef_batchEpoch fence) current with
  | Fail code => (out, Fail code)
  | Ok task =>
    match ApplyFenceToTask task fence with
    | Fail code => (out, Fail code)
    | Ok (task', UPDATED) => (UPDATED, let! bytes := EncodeTask task' in Ok (Some bytes))
    | Ok (_, out') => (out', Ok None)
    end
  end.

Definition MarkTaskScopeFinished (f : fault) (g : option StatusCode) (st : store) (fence : TopologyExecutionFence)
    : store * TaskProgressOutcome * res unit :=
  let '(st', out, rc) := CAS f st (task_row (ef_taskKind fence) (ef_taskId fence)) PROGRESS_UNKNOWN (mark_process fence) in
  match rc with
  | Ok _ => (st', out, rc)
  | Fail _ =>
    match ReadTask g st' (ef_taskKind fence) (ef_taskId fence) (ef_batchType fence) (ef_batchEpoch fence) with
    | Fail _ => (st', PROGRESS_UNKNOWN, rc)
    | Ok observed =>
      match ApplyFenceToTask observed fence with
      | Fail code => (st', PROGRESS_UNKNOWN, Fail code)
      | Ok (_, ALREADY_FINISHED) => (st', ALREADY_FINISHED, Ok tt)
      | Ok _ => (st', PROGRESS_UNKNOWN, rc)
      end
    end
  end.

(** ** Notify rows *)
Definition notify_row (address : string) : row := (KeyHelper.notifyTable_ keys, cs address).

Definition ReadNotify (g : option StatusCode) (st : store) (address : string) : res TopologyTaskNotify :=
  let! _ := KeyHelper.NotifyKey (cs address) in
  let! bytes := Get g st (notify_row address) in
  check! negb (bool_decide (bytes = [])) && negb (IsNotifyDeleteTombstone bytes) else K_NOT_FOUND in
  DecodeNotify wn bytes.

Definition rewrite_process (bytes current : chars) (u : unit) : unit * res (option chars) :=
  (u, if IsNotifyDeleteTombstone current then Fail K_TRY_AGAIN
      else if negb (bool_decide (current = bytes)) then Ok (Some bytes) else Ok None).

Definition RewriteEncodedNotify (f : fault) (g : option StatusCode) (st : store) (address : string) (bytes : chars) : store * res unit :=
  match KeyHelper.NotifyKey (cs address) with
  | Fail code => (st, Fail code)
  | Ok _ =>
    let '(st', _, rc) := CAS f st (notify_row address) tt (rewrite_process bytes) in
    (st', if is_ok rc || bool_decide (res_code rc = K_TRY_AGAIN) then rc else ResolveExactWrite g st' (notify_row address) bytes rc)
  end.

Definition RewriteNotify (f : fault) (g : option StatusCode) (st : store) (address : string) (expected : TopologyTaskNotify)
    : store * res unit :=
  match EncodeNotify wn expected with
  | Fail code => (st, Fail code)
  | Ok bytes => RewriteEncodedNotify f g st address bytes
  end.

(** ** Markers of completed metadata migrations *)
Record ScaleInMetadataDoneRecord := MkMarker { mk_batchEpoch : Z; mk_sourceId : chars; mk_taskId : chars; businessOperationId : chars }.

Definition marker_process (operation current : chars) (u : unit) : unit * res (option chars) :=
  (u, match current with
      | [] => Ok (Some operation)
      | _ => if IsScaleInMetadataDoneDeleteTombstone current then Fail K_TRY_AGAIN
             else check! bool_decide (current = operation) else K_INVALID in Ok None
      end).

Definition MarkScaleInMetadataDone (f : fault) (g : option StatusCode) (st : store) (record : ScaleInMetadataDoneRecord) : store * res unit :=
  match businessOperationId record with
  | [] => (st, Fail K_INVALID)
  | operation =>
    match KeyHelper.ScaleInMetadataDoneKey (mk_batchEpoch record) (mk_sourceId record) (mk_taskId record) with
    | Fail code => (st, Fail code)
    | Ok key =>
      let r := (KeyHelper.scaleInMetadataDoneTable_ keys, key) in
      let '(st', _, rc) := CAS f st r tt (marker_process operation) in
      (st', if is_ok rc || bool_decide (res_code rc = K_TRY_AGAIN) then rc else ResolveExactWrite g st' r operation rc)
    end
  end.

Definition counts_as_done (prefix : chars) (value : chars * chars) : bool :=
  KeyHelper.is_prefix prefix value.1 && negb (bool_decide (value.2 = [])) && negb (IsScaleInMetadataDoneDeleteTombstone value.2).

Definition CountScaleInMetadataDone (g : option StatusCode) (st : store) (batchEpoch : Z) (sourceId : chars) : res nat :=
  let! prefix := KeyHelper.ScaleInMetadataDonePrefix batchEpoch sourceId in
  let! values := GetAll g st (KeyHelper.scaleInMetadataDoneTable_ keys) in
  Ok (List.length (filter (λ v, counts_as_done prefix v = true) values)).

Definition PutProbeValue (f : fault) (st : store) (witnessAddress : string) (value : chars) : store * res unit :=
  match KeyHelper.ProbeKey (cs witnessAddress) with
  | Fail code => (st, Fail code)
  | Ok key => let '(st', _, rc) := CAS f st (KeyHelper.probeTable_ keys, key) tt (λ _ u, (u, Ok (Some value))) in (st', rc)
  end.

(** ** Deletion by the janitor: a tombstone first, then the row *)
Definition tombstone_process (matchToken prefix : chars) (current : chars) (matched : bool) : bool * res (option chars) :=
  let matched := bool_decide (current = matchToken) in
  (matched, Ok (if matched then Some (NextDeleteTombstone prefix current) else None)).

(** The first half: whether the second, the deletion, follows. *)
Definition TombstoneIfMatches (f : fault) (st : store) (r : row) (matchToken prefix : chars) : store * bool * res unit :=
  CAS f st r false (tombstone_process matchToken prefix).

(** [between] is what others do to the store between the two halves. *)
Definition DeleteIfMatches (f fd : fault) (between : store → store) (st : store) (r : row) (matchToken prefix : chars)
    : store * bool * res unit :=
  let '(st', matched, rc) := TombstoneIfMatches f st r matchToken prefix in
  match rc with
  | Fail code => (st', false, Fail code)
  | Ok _ => if matched
            then let '(st'', rc') := Delete fd (between st') r in (st'', is_ok rc', rc')
            else (st', false, Ok tt)
  end.

Record TaskJanitorCandidate := MkTaskCandidate { tc_kind : TopologyTaskKind; tc_taskId : chars; tc_matchToken : chars }.
Record ScaleInMetadataDoneJanitorCandidate := MkMarkerCandidate { mc_key : chars; mc_matchToken : chars }.

Definition DeleteTaskIfMatches (f fd : fault) (between : store → store) (st : store) (candidate : TaskJanitorCandidate) : store * bool * res unit :=
  DeleteIfMatches f fd between st (TaskTable (tc_kind candidate), tc_taskId candidate) (tc_matchToken candidate) TASK_DELETE_TOMBSTONE_PREFIX.

Definition DeleteScaleInMetadataDoneIfMatches (f fd : fault) (between : store → store) (st : store)
    (candidate : ScaleInMetadataDoneJanitorCandidate) : store * bool * res unit :=
  DeleteIfMatches f fd between st (KeyHelper.scaleInMetadataDoneTable_ keys, mc_key candidate) (mc_matchToken candidate)
    SCALE_IN_METADATA_DONE_DELETE_TOMBSTONE_PREFIX.

Record NotifyJanitorCandidate := MkNotifyCandidate {
  nc_address : string; nc_notify : TopologyTaskNotify; nc_matchToken : chars; logicallyDeleted : bool }.

Definition is_blank (n : TopologyTaskNotify) : bool :=
  bool_decide (nt_activeBatch n = None) && bool_decide (taskIds n = []) && bool_decide (restartTimestampsByAddress n = ∅).

Definition reconcile_process (matchToken replacement : chars) (shouldDelete : bool) (current : chars) (matched : bool)
    : bool * res (option chars) :=
  let matched := bool_decide (current = matchToken) in
  (matched, Ok (if matched then Some (if shouldDelete then NextDeleteTombstone NOTIFY_DELETE_TOMBSTONE_PREFIX current else replacement)
                else None)).

Definition ReconcileNotifyIfMatches (f fd : fault) (between : store → store) (st : store) (candidate : NotifyJanitorCandidate) : store * bool * res unit :=
  match KeyHelper.NotifyKey (cs (nc_address candidate)) with
  | Fail code => (st, false, Fail code)
  | Ok _ =>
    match (if is_blank (nc_notify candidate) then Ok [] else EncodeNotify wn (nc_notify candidate)) with
    | Fail code => (st, false, Fail code)
    | Ok replacement =>
      let shouldDelete := bool_decide (replacement = []) in
      let r := notify_row (nc_address candidate) in
      let '(st', matched, rc) := CAS f st r false (reconcile_process (nc_matchToken candidate) replacement shouldDelete) in
      match rc with
      | Fail code => (st', false, Fail code)
      | Ok _ =>
        if negb matched then (st', false, Ok tt)
        else if shouldDelete then let '(st'', rc') := Delete fd (between st') r in (st'', is_ok rc', rc')
        else (st', true, Ok tt)
      end
    end
  end.

(** ** Pages of a table, by rotation *)
Definition entry_le (a b : chars * chars) : Prop := String.le (string_of_list_ascii a.1) (string_of_list_ascii b.1).
#[export] Instance entry_le_dec : RelDecision entry_le.
Proof. intros a b. unfold entry_le. apply _. Defined.

(** The loop over [count] entries from [index] on, cyclically; the index is always in range. *)
Fixpoint visit_loop {A} (visit : chars * chars → res A) (values : list (chars * chars)) (count index : nat) (nextCursor : chars) (acc : list A)
    : res (chars * list A) :=
  match count with
  | O => Ok (nextCursor, acc)
  | S count' =>
    match values !! index with
    | None => Ok (nextCursor, acc)
    | Some entry =>
      let! x := visit entry in
      visit_loop visit values count' ((index + 1) mod List.length values)%nat entry.1 (acc ++ [x])
    end
  end.

(** The position [std::upper_bound] returns, 0 at the end. *)
Definition page_start (values : list (chars * chars)) (cursor : chars) : nat :=
  match partition_point (λ e, negb (bool_decide (str_lt (string_of_list_ascii cursor) (string_of_list_ascii e.1)))) values with
  | [] => 0%nat
  | rest => (List.length values - List.length rest)%nat
  end.

(** The next cursor and what [visit] made of the page; on an error the caller's cursor stays. *)
Definition VisitRotatingPage {A} (values : list (chars * chars)) (limit : nat) (cursor : chars) (visit : chars * chars → res A)
    : res (chars * list A) :=
  match merge_sort entry_le values with
  | [] => Ok ([], [])
  | sorted => visit_loop visit sorted (Nat.min limit (List.length sorted)) (page_start sorted cursor) cursor []
  end.

Definition ListTaskCandidatesForJanitor (g : option StatusCode) (st : store) (kind : TopologyTaskKind) (limit : nat) (cursor : chars)
    : res (chars * list TaskJanitorCandidate) :=
  check! (0 <? limit)%nat else K_INVALID in
  let! values := GetAll g st (TaskTable kind) in
  VisitRotatingPage values limit cursor (λ e, Ok (MkTaskCandidate kind e.1 e.2)).

Definition ListNotifyCandidatesForJanitor (g : option StatusCode) (st : store) (limit : nat) (cursor : chars)
    : res (chars * list NotifyJanitorCandidate) :=
  check! (0 <? limit)%nat else K_INVALID in
  let! values := GetAll g st (KeyHelper.notifyTable_ keys) in
  VisitRotatingPage values limit cursor (λ e,
    let gone := bool_decide (e.2 = []) || IsNotifyDeleteTombstone e.2 in
    let! notify := if gone then Ok (MkNotify None [] ∅) else DecodeNotify wn e.2 in
    Ok (MkNotifyCandidate (string_of_list_ascii e.1) notify e.2 gone)).

Definition ListScaleInMetadataDoneCandidatesForJanitor (g : option StatusCode) (st : store) (limit : nat) (cursor : chars)
    : res (chars * list ScaleInMetadataDoneJanitorCandidate) :=
  check! (0 <? limit)%nat else K_INVALID in
  let! values := GetAll g st (KeyHelper.scaleInMetadataDoneTable_ keys) in
  VisitRotatingPage values limit cursor (λ e, Ok (MkMarkerCandidate e.1 e.2)).

(** ** Memberships *)
Definition membership_le (a b : Membership.MembershipRecord) : Prop := String.le (Membership.mr_address a) (Membership.mr_address b).
#[export] Instance membership_le_dec : RelDecision membership_le.
Proof. intros a b. unfold membership_le. apply _. Defined.

Fixpoint decode_memberships (parse : chars → option Membership.MembershipValuePb) (values : list (chars * chars))
    : res (list Membership.MembershipRecord) :=
  match values with
  | [] => Ok []
  | (address, bytes) :: rest =>
    let! value := Membership.Decode parse bytes in
    let! records := decode_memberships parse rest in
    Ok (Membership.MkMembershipRecord (string_of_list_ascii address) (Membership.mv_state value) (Membership.mv_timestamp value)
          (string_of_list_ascii (Membership.mv_hostId value)) :: records)
  end.

Definition ReadMemberships (parse : chars → option Membership.MembershipValuePb) (g : option StatusCode) (st : store)
    : res (list Membership.MembershipRecord) :=
  let! values := GetAll g st (KeyHelper.membershipTable_ keys) in
  let! decoded := decode_memberships parse values in
  Ok (merge_sort membership_le decoded).
End Repository.

(** ** The compare-and-swap of the topology *)

(** The row is at this version, 0 when there is none. *)
Definition holds_version (wt : wire ClusterTopologyPb) (st : store) (r : row) (v : Z) : Prop :=
  (default [] (st !! r) = [] ∧ v = 0) ∨ ∃ o, DecodeTopology wt (default [] (st !! r)) = Ok o ∧ version o = v.

Lemma topology_process_spec wt st r expected bytes c :
  match topology_process wt expected bytes (default [] (st !! r)) c with
  | (c', Ok (Some b)) => c' = c ∧ b = bytes ∧ holds_version wt st r expected
  | (c', Ok None) => c' = true
  | (_, Fail _) => False
  end.
Proof.
  unfold topology_process, holds_version. destruct (_ && _) eqn:E.
  { apply andb_true_iff in E as [E0%bool_decide_eq_true ->%Z.eqb_eq]. split_and!; [done|done|by left]. }
  destruct (DecodeTopology wt _) as [o|] eqn:Ed; [|done]. destruct (Z.eqb_spec (version o) expected) as [Hv|Hv]; simpl; [|done]. eauto 10.
Qed.

Section CasSpec.
Context (keys : KeyHelper.helper) (wt : wire ClusterTopologyPb) (f : fault) (g : option StatusCode) (st : store) (expected : Z)
  (desired : TopologyState).

Lemma cas_topology_spec :
  let '(st', result, rc) := CompareAndSwapTopology keys wt f g st expected desired in
  let r := topology_row keys in
  (st' = st ∨ ∃ bytes, EncodeTopology wt desired = Ok bytes ∧ version desired = u64 (expected + 1)
                       ∧ holds_version wt st r expected ∧ st' = <[r := bytes]> st)
  ∧ (outcome result = COMMITTED → ∃ bytes, EncodeTopology wt desired = Ok bytes ∧ st' !! r = Some bytes)
  ∧ (outcome result = CONFLICT → ∃ bytes v o, EncodeTopology wt desired = Ok bytes ∧ st' !! r = Some v ∧ v ≠ bytes
        ∧ DecodeTopology wt v = Ok o ∧ observed_ result = Some o)
  ∧ (is_ok rc = true → outcome result ≠ CAS_UNKNOWN)
  ∧ (f = NoFault → holds_version wt st r expected → version desired = u64 (expected + 1) →
     is_ok (EncodeTopology wt desired) = true → outcome result = COMMITTED ∧ rc = Ok tt).
Proof.
  unfold CompareAndSwapTopology. destruct (Z.eqb_spec (version desired) (u64 (expected + 1))) as [Hver|Hver]; cbn [negb].
  2:{ split_and!; [by left|done..]. }
  destruct (EncodeTopology wt desired) as [bytes|code] eqn:He.
  2:{ split_and!; [by left|done..]. }
  set (r := topology_row keys).
  pose proof (topology_process_spec wt st r expected bytes false) as Hp.
  assert (∃ st' c rc, CAS f st r false (topology_process wt expected bytes) = (st', c, rc)
    ∧ (st' = st ∨ holds_version wt st r expected ∧ st' = <[r := bytes]> st)
    ∧ (is_ok rc = true → c = false → st' !! r = Some bytes)
    ∧ (f = NoFault → holds_version wt st r expected → is_ok rc = true ∧ c = false)) as (st' & c & rc & Hcas & Hst & Hok & Hnf).
  { unfold CAS. destruct f as [|code|code|code]; [|by eexists _, _, _; split_and!; [reflexivity|by left|done|done]|..];
      destruct (topology_process wt expected bytes (default [] (st !! r)) false) as [c [[b|]|code']] eqn:E; try done;
      try (destruct Hp as (-> & -> & Hv)); eexists _, _, _; (split; [reflexivity|]).
    - split_and!; [by right|by rewrite lookup_insert_eq|done].
    - subst c. split_and!; [by left|done|]. intros _ [[E0 ->]|(o & Ho & Hv)].
      + unfold topology_process in E. rewrite E0 bool_decide_eq_true_2 // Z.eqb_refl in E.
      + unfold topology_process in E. destruct (_ && _) in E; [done|]. rewrite Ho Hv Z.eqb_refl in E. done.
    - split_and!; [by left|done|done].
    - subst c. split_and!; [by left|done|done].
    - split_and!; [by right|done|done].
    - subst c. split_and!; [by left|done|done]. }
  rewrite Hcas. assert (st' = st ∨ ∃ bytes0, Ok bytes = Ok bytes0 ∧ version desired = u64 (expected + 1)
    ∧ holds_version wt st r expected ∧ st' = <[r:=bytes0]> st) as Hframe.
  { destruct Hst as [|[? ?]]; [by left|right; eauto 10]. }
  destruct (is_ok rc && negb c) eqn:Ec.
  { apply andb_true_iff in Ec as [Hrc Hc%negb_true_iff]. split_and!; [exact Hframe| |done|done|done]. intros _. exists bytes. auto. }
  assert (f = NoFault → holds_version wt st r expected → False) as Hno.
  { intros Hf Hh. destruct (Hnf Hf Hh) as [E1 E2]. by rewrite E1 E2 in Ec. }
  destruct (Get g st' r) as [v|code] eqn:Hg.
  2:{ split_and!; [exact Hframe|done|done|by destruct rc|intros Hf Hh _ _; by destruct (Hno Hf Hh)]. }
  assert (st' !! r = Some v) as Hv.
  { unfold Get in Hg. destruct g; [done|]. destruct (st' !! r); [by injection Hg as <-|done]. }
  destruct (DecodeTopology wt v) as [o|] eqn:Ho.
  2:{ split_and!; [exact Hframe|done|done|done|intros Hf Hh _ _; by destruct (Hno Hf Hh)]. }
  case_bool_decide as Eb; cbn [outcome observed_].
  - subst v. split_and!; [exact Hframe| |done|done|intros Hf Hh _ _; by destruct (Hno Hf Hh)]. intros _. eauto.
  - split_and!; [exact Hframe|done| |done|].
    + intros _. eauto 10.
    + intros Hf Hh _ _. by destruct (Hno Hf Hh).
Qed.
End CasSpec.

(** ** Runs of client operations

    What controllers and workers do to the store, everything but the janitor. *)
Inductive client_op :=
| OTopology (expected : Z) (desired : TopologyState)
| OCreate (task : TopologyTask)
| OMark (fence : TopologyExecutionFence)
| ORewrite (address : string) (bytes : chars)
| OMarker (record : ScaleInMetadataDoneRecord)
| OProbe (address : string) (value : chars).

Section Runs.
Context (name : chars) (wt : wire ClusterTopologyPb) (wm : wire MigrateTaskPb) (wd : wire DeleteNodeTaskPb).
Let keys : KeyHelper.helper := KeyHelper.TopologyKeyHelper name.

Definition client_step (st : store) (op : client_op * fault * option StatusCode) : store :=
  let '(op, f, g) := op in
  match op with
  | OTopology expected desired => (CompareAndSwapTopology keys wt f g st expected desired).1.1
  | OCreate task => (CreateTaskIfAbsent keys wm wd f g st task).1
  | OMark fence => (MarkTaskScopeFinished keys wm wd f g st fence).1.1
  | ORewrite address bytes => (RewriteEncodedNotify keys f g st address bytes).1
  | OMarker record => (MarkScaleInMetadataDone keys f g st record).1
  | OProbe address value => (PutProbeValue keys f st address value).1
  end.

Definition client_run (st : store) (ops : list (client_op * fault * option StatusCode)) : store := foldl client_step st ops.

(** The row a client operation works on, and its callback's result there. *)
Definition op_write (op : client_op) (current : chars) : option chars :=
  match op with
  | OTopology expected desired =>
    match EncodeTopology wt desired with
    | Ok b => match (topology_process wt expected b current false).2 with Ok w => w | Fail _ => None end
    | Fail _ => None
    end
  | OCreate task =>
    match EncodeTask wm wd task with
    | Ok b => match (create_process wm wd task b current tt).2 with Ok w => w | Fail _ => None end
    | Fail _ => None
    end
  | OMark fence => match (mark_process wm wd fence current PROGRESS_UNKNOWN).2 with Ok w => w | Fail _ => None end
  | ORewrite _ bytes => match (rewrite_process bytes current tt).2 with Ok w => w | Fail _ => None end
  | OMarker record => match (marker_process (businessOperationId record) current tt).2 with Ok w => w | Fail _ => None end
  | OProbe _ value => Some value
  end.

Definition op_row (op : client_op) : row :=
  match op with
  | OTopology _ _ => topology_row keys
  | OCreate task => task_row keys (kind_of task) (id_of task)
  | OMark fence => task_row keys (ef_taskKind fence) (ef_taskId fence)
  | ORewrite address _ => notify_row keys address
  | OMarker record =>
    (KeyHelper.scaleInMetadataDoneTable_ keys,
     match KeyHelper.ScaleInMetadataDoneKey (mk_batchEpoch record) (mk_sourceId record) (mk_taskId record) with Ok k => k | Fail _ => [] end)
  | OProbe address _ => (KeyHelper.probeTable_ keys, cs address)
  end.

Lemma CAS_store {A} f st r (a : A) process :
  (CAS f st r a process).1.1 = st
  ∨ ∃ next, (process (default [] (st !! r)) a).2 = Ok (Some next) ∧ (CAS f st r a process).1.1 = <[r := next]> st.
Proof.
  unfold CAS. destruct f; try (by left); destruct (process _ a) as [a' [[next|]|]] eqn:E; simpl; try (by left); right; by exists next.
Qed.

Lemma Compare_store f g st expected desired :
  (CompareAndSwapTopology keys wt f g st expected desired).1.1 = st
  ∨ ∃ b, EncodeTopology wt desired = Ok b ∧ (CompareAndSwapTopology keys wt f g st expected desired).1.1
      = (CAS f st (topology_row keys) false (topology_process wt expected b)).1.1.
Proof.
  unfold CompareAndSwapTopology. destruct (negb _); [by left|]. destruct (EncodeTopology wt desired) as [b|]; [|by left].
  right. exists b. split; [done|]. destruct (CAS _ _ _ _ _) as [[st' c] rc]. destruct (is_ok rc && negb c); [done|].
  destruct (Get _ _ _) as [v|]; [|done]. destruct (DecodeTopology wt v); [|done]. by case_bool_decide.
Qed.

Lemma Mark_store f g st fence :
  (MarkTaskScopeFinished keys wm wd f g st fence).1.1
  = (CAS f st (task_row keys (ef_taskKind fence) (ef_taskId fence)) PROGRESS_UNKNOWN (mark_process wm wd fence)).1.1.
Proof.
  unfold MarkTaskScopeFinished. destruct (CAS _ _ _ _ _) as [[st' c] [|code]]; [done|].
  destruct (ReadTask _ _ _ _ _ _ _ _ _) as [o|]; [|done]. by destruct (ApplyFenceToTask o fence) as [[? []]|].
Qed.

(** Every client operation leaves the store alone or makes its own guarded write. *)
Lemma client_step_store st op f g :
  client_step st (op, f, g) = st
  ∨ ∃ next, op_write op (default [] (st !! op_row op)) = Some next ∧ client_step st (op, f, g) = <[op_row op := next]> st.
Proof.
  destruct op as [expected desired|task|fence|address bytes|record|address value]; cbn [client_step op_write op_row].
  - destruct (Compare_store f g st expected desired) as [|(b & -> & ->)]; [by left|].
    destruct (CAS_store f st (topology_row keys) false (topology_process wt expected b)) as [->|(n & -> & ->)]; [by left|right; by exists n].
  - unfold CreateTaskIfAbsent. destruct (EncodeTask wm wd task) as [b|]; [|by left].
    pose proof (CAS_store f st (task_row keys (kind_of task) (id_of task)) tt (create_process wm wd task b)) as Hc.
    destruct (CAS _ _ _ _ _) as [[st' c] rc]. cbn [fst] in Hc |- *. destruct Hc as [->|(n & -> & ->)]; [by left|right; by exists n].
  - rewrite Mark_store.
    destruct (CAS_store f st (task_row keys (ef_taskKind fence) (ef_taskId fence)) PROGRESS_UNKNOWN (mark_process wm wd fence))
      as [->|(n & -> & ->)]; [by left|right; by exists n].
  - unfold RewriteEncodedNotify. destruct (KeyHelper.NotifyKey (cs address)); [|by left].
    pose proof (CAS_store f st (notify_row keys address) tt (rewrite_process bytes)) as Hc.
    destruct (CAS _ _ _ _ _) as [[st' c] rc]. cbn [fst] in Hc |- *. destruct Hc as [->|(n & -> & ->)]; [by left|right; by exists n].
  - unfold MarkScaleInMetadataDone. destruct (businessOperationId record) as [|x o]; [by left|].
    destruct (KeyHelper.ScaleInMetadataDoneKey _ _ _) as [k|]; [|by left].
    pose proof (CAS_store f st (KeyHelper.scaleInMetadataDoneTable_ keys, k) tt (marker_process (x :: o))) as Hc.
    destruct (CAS _ _ _ _ _) as [[st' c] rc]. cbn [fst] in Hc |- *. destruct Hc as [->|(n & -> & ->)]; [by left|right; by exists n].
  - unfold PutProbeValue. destruct (KeyHelper.ProbeKey (cs address)) as [k|] eqn:Ek; [|by left].
    assert (k = cs address) as -> by (unfold KeyHelper.ProbeKey in Ek; apply res_bind_Ok in Ek as ([] & _ & [= ?]); done).
    pose proof (CAS_store f st (KeyHelper.probeTable_ keys, cs address) tt (λ _ u, (u, Ok (Some value)))) as Hc.
    destruct (CAS _ _ _ _ _) as [[st' c] rc]. cbn [fst] in Hc |- *. destruct Hc as [->|(n & E & ->)]; [by left|right]. exists n. by injection E as <-.
Qed.

(** An invariant of one row that every write to it keeps holds throughout a run. *)
Lemma client_run_row (r : row) (P : option chars → Prop) st ops :
  (∀ op cur next, op_row op = r → P cur → op_write op (default [] cur) = Some next → P (Some next)) →
  P (st !! r) → P (client_run st ops !! r).
Proof.
  intros Hstep. revert st. induction ops as [|[[op f] g] ops IH]; intros st Hp; [done|]. cbn [client_run foldl]. apply IH.
  destruct (client_step_store st op f g) as [->|(n & Hw & ->)]; [done|].
  destruct (decide (op_row op = r)) as [E|E]; [|by rewrite lookup_insert_ne]. rewrite E in Hw |- *. rewrite lookup_insert_eq. by eapply Hstep.
Qed.

(** The tables are different. *)
Lemma tables_distinct : NoDup [KeyHelper.topologyTable_ keys; KeyHelper.migrateTaskTable_ keys; KeyHelper.deleteTaskTable_ keys;
  KeyHelper.notifyTable_ keys; KeyHelper.probeTable_ keys; KeyHelper.scaleInMetadataDoneTable_ keys].
Proof.
  unfold keys, KeyHelper.TopologyKeyHelper.
  cbn [KeyHelper.topologyTable_ KeyHelper.migrateTaskTable_ KeyHelper.deleteTaskTable_ KeyHelper.notifyTable_ KeyHelper.probeTable_
    KeyHelper.scaleInMetadataDoneTable_].
  generalize (match name with [] => KeyHelper.ROOT_PREFIX | _ :: _ => KeyHelper.ROOT_PREFIX ++ KeyHelper.lit_str "/" ++ name end) as root.
  intros root. change (NoDup ((λ x, root ++ KeyHelper.lit_str x) <$>
    ["/topology"; "/tasks/migrate"; "/tasks/delete"; "/notify"; "/probe"; "/scale-in-metadata-done"]%string)).
  apply (NoDup_fmap_2_strong _); [|apply (bool_decide_unpack _); vm_compute; exact I]. intros x y _ _ E%app_inv_head. by apply cs_inj.
Qed.

(** A row of a deletable table and a tombstone of its kind. *)
Inductive shielded : row → chars → Prop :=
| shield_task kind k t : IsTaskDeleteTombstone t = true → shielded (TaskTable keys kind, k) t
| shield_notify k t : IsNotifyDeleteTombstone t = true → shielded (KeyHelper.notifyTable_ keys, k) t
| shield_marker k t : IsScaleInMetadataDoneDeleteTombstone t = true → shielded (KeyHelper.scaleInMetadataDoneTable_ keys, k) t.

(** A tombstone is no task: what makes it malformed is its first two bytes, the tags of a group that
    begins and of another group that ends. *)
Definition tombstones_malformed : Prop := ∀ t, IsTaskDeleteTombstone t = true → parse wm t = None ∧ parse wd t = None.

Lemma task_tombstone_write (Hmal : tombstones_malformed) op t :
  IsTaskDeleteTombstone t = true → (match op with OCreate _ | OMark _ => True | _ => False end) → op_write op t = None.
Proof.
  intros Ht Hop. destruct (Hmal t Ht) as [Hm Hd]. destruct op as [|task|fence| | |]; try done; cbn [op_write].
  - destruct (EncodeTask wm wd task); [|done]. unfold create_process. by rewrite Ht.
  - unfold mark_process, decode_task. destruct (ef_taskKind fence); unfold DecodeMigrateTask, DecodeDeleteTask;
      (destruct (ValidateTaskContext _ _ _); [|done]); cbn [res_bind]; (destruct (_ && _); [|done]); by rewrite ?Hm ?Hd.
Qed.

Lemma tombstone_nonempty p t : HasPrefix t p = true → p ≠ [] → t ≠ [].
Proof. intros [x ->]%KeyHelper.is_prefix_spec Hp E. by apply app_eq_nil in E as [-> _]. Qed.

Lemma shielded_write (Hmal : tombstones_malformed) op r t : shielded r t → op_row op = r → op_write op t = None.
Proof.
  intros Hs Hr. pose proof tables_distinct as Hd. repeat rewrite ?NoDup_cons ?elem_of_cons in Hd. destruct Hs as [kind k t Ht|k t Ht|k t Ht].
  - apply task_tombstone_write; [done..|]. destruct op; try done; cbn [op_row topology_row notify_row] in Hr; pose proof (f_equal fst Hr) as E; unfold task_row in E; cbn [fst] in E; pose proof (eq_sym E); destruct kind; cbn [TaskTable] in *; tauto.
  - destruct op as [|task|fence|address bytes| |]; cbn [op_row topology_row notify_row task_row] in Hr; pose proof (f_equal fst Hr) as E; cbn [fst] in E;
      try (exfalso; unfold task_row, TaskTable in E; cbn [fst] in E; pose proof (eq_sym E); repeat case_match; tauto).
    cbn [op_write]. unfold rewrite_process. by rewrite Ht.
  - destruct op as [|task|fence|address bytes|record|]; cbn [op_row topology_row notify_row task_row] in Hr; pose proof (f_equal fst Hr) as E; cbn [fst] in E;
      try (exfalso; unfold task_row, TaskTable in E; cbn [fst] in E; pose proof (eq_sym E); repeat case_match; tauto).
    cbn [op_write]. unfold marker_process. destruct t as [|c t]; [by eapply tombstone_nonempty in Ht|]. by rewrite Ht.
Qed.

(** ** Progress of tasks *)

(** The same scope, with at least the progress. *)
Definition advances (a b : TopologyTaskRange) : Prop :=
  ownerAddress a = ownerAddress b ∧ range a = range b ∧ (finished a = true → finished b = true).
Definition task_advances (a b : TopologyTask) : Prop := b = with_ranges (ranges_of b) a ∧ Forall2 advances (ranges_of a) (ranges_of b).

Lemma advances_refl rs : Forall2 advances rs rs.
Proof. induction rs; constructor; [|done]. unfold advances. tauto. Qed.

Lemma task_advances_refl t : task_advances t t.
Proof. split; [by destruct t as [[]|[]]|apply advances_refl]. Qed.

Lemma task_advances_trans a b c : task_advances a b → task_advances b c → task_advances a c.
Proof.
  intros [E1 H1] [E2 H2]. split.
  - rewrite {1}E2 {1}E1. by destruct a.
  - revert H2. clear E1 E2. generalize (ranges_of c) as rc. induction H1 as [|x y xs ys Hxy H1 IH]; intros rc H2;
      inversion H2 as [|? z ? zs Hyz H3]; subst; constructor; [|by apply IH].
    destruct Hxy as (? & ? & ?), Hyz as (? & ? & ?). unfold advances. split_and!; [congruence|congruence|auto].
Qed.

Context (Hwm : wire_ok eq wm) (Hwd : wire_ok eq wd).

Lemma finish_advances rs : Forall2 advances rs (set_finished <$> rs).
Proof. induction rs; constructor; [|done]. unfold advances. simpl. tauto. Qed.

(** What a task's bytes say, apart from the context they are read in. *)
Definition payload (kind : TopologyTaskKind) (bytes : chars) : res (string * list TopologyTaskRange * string) :=
  check! len bytes <=? MAX_VALUE_BYTES else K_INVALID in
  match kind with
  | MIGRATE => match parse wm bytes with
               | None => Fail K_INVALID
               | Some pb => check! negb (empty_str (mtp_target pb)) else K_INVALID in
                            let! _ := ValidateMemberAddress (mtp_target pb) in
                            let! (ranges, executor) := DecodeRanges (mtp_ranges pb) in Ok (mtp_target pb, ranges, executor)
               end
  | DELETE_MEMBER => match parse wd bytes with
               | None => Fail K_INVALID
               | Some pb => check! negb (empty_str (dtp_failed pb)) else K_INVALID in
                            let! _ := ValidateMemberAddress (dtp_failed pb) in
                            let! (ranges, executor) := DecodeRanges (dtp_ranges pb) in Ok (dtp_failed pb, ranges, executor)
               end
  end.

Definition task_of (kind : TopologyTaskKind) (taskId : string) (type : TopologyChangeType) (epoch : Z)
    (p : string * list TopologyTaskRange * string) : TopologyTask :=
  match kind with
  | MIGRATE => Migrate (MkMigrateTask taskId type epoch p.2 p.1.1 p.1.2)
  | DELETE_MEMBER => Remove (MkDeleteTask taskId epoch p.2 p.1.1 p.1.2)
  end.

Definition kind_char (kind : TopologyTaskKind) : ascii := match kind with MIGRATE => "m" | DELETE_MEMBER => "d" end%char.

Lemma decode_task_iff kind taskId type epoch bytes t :
  decode_task wm wd kind taskId type epoch bytes = Ok t ↔
  ValidateTaskContext taskId (kind_char kind) epoch = Ok tt ∧ 0 < epoch
  ∧ ∃ p, payload kind bytes = Ok p ∧ t = task_of kind taskId type epoch p.
Proof.
  unfold decode_task, payload, DecodeMigrateTask, DecodeDeleteTask. destruct kind; cbn [kind_char];
    (destruct (ValidateTaskContext _ _ _) as [[]|]; [|naive_solver]); cbn [res_bind];
    (destruct (Z.ltb_spec 0 epoch) as [He|He]; [|split; [done|intros (_ & ? & _); lia]]); cbn [andb];
    (destruct (_ <=? _); [|naive_solver]); (destruct (parse _ bytes) as [pb|]; [|naive_solver]);
    (destruct (negb _); [|naive_solver]); (destruct (ValidateMemberAddress _) as [[]|]; [|naive_solver]); cbn [res_bind];
    (destruct (DecodeRanges _) as [[rs e]|]; [|naive_solver]); cbn [res_bind]; split;
    [intros [= <-]; split_and!; [done|done|]; eexists; split; [reflexivity|done]|by intros (_ & _ & p & [= <-] & ->)|
     intros [= <-]; split_and!; [done|done|]; eexists; split; [reflexivity|done]|by intros (_ & _ & p & [= <-] & ->)].
Qed.

(** Marking writes the same scope, all of it finished, in every context in which the row reads. *)
Lemma mark_writes fence cur next kind taskId type epoch t :
  kind = ef_taskKind fence → taskId = ef_taskId fence →
  decode_task wm wd kind taskId type epoch cur = Ok t → op_write (OMark fence) cur = Some next →
  decode_task wm wd kind taskId type epoch next = Ok (with_ranges (set_finished <$> ranges_of t) t).
Proof.
  intros -> -> (Hc & He & p & Hp & ->)%decode_task_iff. cbn [op_write]. unfold mark_process.
  destruct (decode_task wm wd _ _ (ef_batchType fence) (ef_batchEpoch fence) cur) as [t'|] eqn:Ht'; [|done].
  apply decode_task_iff in Ht' as (_ & _ & p' & Hp' & ->). rewrite Hp in Hp'. injection Hp' as <-.
  set (t' := task_of _ _ (ef_batchType fence) _ p).
  destruct (ApplyFenceToTask t' fence) as [[t2 []]|] eqn:Ea; cbn [snd]; try done.
  destruct (EncodeTask wm wd t2) as [b|] eqn:Ee; [|done]. cbn [res_bind]. intros [= <-].
  assert (t2 = with_ranges (set_finished <$> ranges_of t') t') as ->.
  { unfold ApplyFenceToTask in Ea. destruct (bool_decide _); [|done]. destruct t' as [[]|[]]; repeat (case_match; try done); by injection Ea as <-. }
  assert (payload (ef_taskKind fence) b = Ok (p.1.1, set_finished <$> p.1.2, p.2)) as Hb.
  { unfold t' in Ee. destruct (ef_taskKind fence); cbn [task_of with_ranges EncodeTask ranges_of sourceRanges recoveryRanges] in Ee;
      [apply (migrate_roundtrip _ _ _ Hwm) in Ee|apply (delete_roundtrip _ _ _ Hwd) in Ee]; cbn in Ee;
      [assert (decode_task wm wd MIGRATE (ef_taskId fence) (ef_batchType fence) (ef_batchEpoch fence) b = Ok (Migrate (MkMigrateTask (ef_taskId fence)
         (ef_batchType fence) (ef_batchEpoch fence) p.2 p.1.1 (set_finished <$> p.1.2)))) as Hd by (unfold decode_task; by rewrite Ee)
      |assert (decode_task wm wd DELETE_MEMBER (ef_taskId fence) (ef_batchType fence) (ef_batchEpoch fence) b = Ok (Remove (MkDeleteTask (ef_taskId fence)
         (ef_batchEpoch fence) p.2 p.1.1 (set_finished <$> p.1.2)))) as Hd by (unfold decode_task; by rewrite Ee)];
      apply decode_task_iff in Hd as (_ & _ & [[tg rs] ex] & -> & [= -> -> ->]); done. }
  apply decode_task_iff. split_and!; [done|done|]. eexists. split; [exact Hb|]. by destruct (ef_taskKind fence).
Qed.

(** Creating again never touches a task that is there. *)
Lemma create_keeps task cur kind taskId type epoch t :
  decode_task wm wd kind taskId type epoch cur = Ok t → op_write (OCreate task) cur = None ∨ cur = [].
Proof.
  intros _. cbn [op_write]. destruct (EncodeTask wm wd task) as [b|]; [|by left]. unfold create_process.
  destruct (IsTaskDeleteTombstone cur); [by left|]. destruct cur; [by right|left]. cbn [snd]. by destruct (ValidateCompatibleTask _ _ _ _).
Qed.

Lemma op_row_task op kind taskId :
  op_row op = task_row keys kind taskId →
  match op with
  | OCreate task => kind_of task = kind ∧ id_of task = taskId
  | OMark fence => ef_taskKind fence = kind ∧ ef_taskId fence = taskId
  | _ => False
  end.
Proof.
  pose proof tables_distinct as Hd. repeat rewrite ?NoDup_cons ?elem_of_cons in Hd. intros Hr.
  assert (∀ k k', TaskTable keys k = TaskTable keys k' → k = k') as Hk.
  { intros [] [] E; try done; cbn [TaskTable] in E; pose proof (eq_sym E); tauto. }
  destruct op; cbn [op_row] in Hr; unfold task_row, topology_row, notify_row in Hr; injection Hr; intros Ek Et;
    try (exfalso; unfold TaskTable in Et; pose proof (eq_sym Et); repeat case_match; tauto); (split; [by apply Hk|by apply cs_inj]).
Qed.

(** Empty bytes are the message with every field at its default. *)
Definition empty_is_default : Prop :=
  (∀ pb, parse wm [] = Some pb → mtp_target pb = ""%string) ∧ (∀ pb, parse wd [] = Some pb → dtp_failed pb = ""%string).

Lemma empty_no_task (Hed : empty_is_default) kind : is_ok (payload kind []) = false.
Proof.
  destruct Hed as [Hm Hd]. unfold payload. destruct kind; [destruct (parse wm []) as [pb|] eqn:E|destruct (parse wd []) as [pb|] eqn:E]; try done.
  - by rewrite (Hm pb eq_refl).
  - by rewrite (Hd pb eq_refl).
Qed.

Lemma progress_spec (Hed : empty_is_default) kind taskId type epoch st ops bytes t :
  st !! task_row keys kind taskId = Some bytes → decode_task wm wd kind taskId type epoch bytes = Ok t →
  ∃ bytes' t', client_run st ops !! task_row keys kind taskId = Some bytes'
    ∧ decode_task wm wd kind taskId type epoch bytes' = Ok t' ∧ task_advances t t'.
Proof.
  intros Hst Ht. apply (client_run_row (task_row keys kind taskId)
    (λ o, ∃ bytes' t', o = Some bytes' ∧ decode_task wm wd kind taskId type epoch bytes' = Ok t' ∧ task_advances t t')).
  - intros op cur next Hr (b & t' & -> & Ht' & Hadv) Hw. cbn [default] in Hw. pose proof (op_row_task op kind taskId Hr) as Hop.
    destruct op as [|task|fence| | |]; try done.
    + destruct (create_keeps task b kind taskId type epoch t' Ht') as [E| ->]; [by rewrite E in Hw|].
      apply decode_task_iff in Ht' as (_ & _ & p & Hp & _). pose proof (empty_no_task Hed kind) as Hn. by rewrite Hp in Hn.
    + destruct Hop as [<- <-]. exists next, (with_ranges (set_finished <$> ranges_of t') t'). split; [done|].
      split; [by eapply mark_writes|]. eapply task_advances_trans; [done|]. split.
      * by destruct t' as [[]|[]].
      * destruct t' as [[]|[]]; apply finish_advances.
  - exists bytes, t. split; [done|]. split; [done|]. apply task_advances_refl.
Qed.
End Runs.

(** ** Properties *)

(** C12: the compare-and-swap of the topology is atomic and tells the truth.  Whatever fails in the backend, the
    store is unchanged, or it changed in the one row of the topology, from the expected version to the
    encoding of the desired next one; COMMITTED is reported only when that row holds the desired bytes,
    CONFLICT only when it holds others, which decode to the topology reported; success never leaves the
    outcome unknown; and without a failure the swap from the expected version commits. *)
Theorem topology_cas_atomic (keys : KeyHelper.helper) (wt : wire ClusterTopologyPb) (f : fault) (g : option StatusCode) (st : store)
    (expected : Z) (desired : TopologyState) :
  let '(st', result, rc) := CompareAndSwapTopology keys wt f g st expected desired in
  let r := topology_row keys in
  (st' = st ∨ ∃ bytes, EncodeTopology wt desired = Ok bytes ∧ version desired = u64 (expected + 1)
                       ∧ holds_version wt st r expected ∧ st' = <[r := bytes]> st)
  ∧ (outcome result = COMMITTED → ∃ bytes, EncodeTopology wt desired = Ok bytes ∧ st' !! r = Some bytes)
  ∧ (outcome result = CONFLICT → ∃ bytes v o, EncodeTopology wt desired = Ok bytes ∧ st' !! r = Some v ∧ v ≠ bytes
        ∧ DecodeTopology wt v = Ok o ∧ observed_ result = Some o)
  ∧ (is_ok rc = true → outcome result ≠ CAS_UNKNOWN)
  ∧ (f = NoFault → holds_version wt st r expected → version desired = u64 (expected + 1) →
     is_ok (EncodeTopology wt desired) = true → outcome result = COMMITTED ∧ rc = Ok tt).
Proof. apply cas_topology_spec. Qed.

(** A protobuf runtime for two messages, used by the witnesses. *)
Definition two_wire {M} `{EqDecision M} (pb0 pb1 : M) : wire M :=
  MkWire M (λ pb, if bool_decide (pb = pb0) then Some ["x"%char] else if bool_decide (pb = pb1) then Some ["y"%char] else None)
    (λ s, if bool_decide (s = ["x"%char]) then Some pb0 else if bool_decide (s = ["y"%char]) then Some pb1 else None).

Lemma two_wire_ok {M} `{EqDecision M} (pb0 pb1 : M) : wire_ok eq (two_wire pb0 pb1).
Proof.
  split; simpl; [|by intros ? ? ->]. intros pb s. case_bool_decide as E0; [intros [= <-]; exists pb0; by subst|].
  case_bool_decide as E1; [intros [= <-]; exists pb1; by subst|done].
Qed.

Lemma two_wire_other {M} `{EqDecision M} (pb0 pb1 : M) s : s ≠ ["x"%char] → s ≠ ["y"%char] → parse (two_wire pb0 pb1) s = None.
Proof. intros ? ?. simpl. by rewrite !bool_decide_eq_false_2. Qed.

Definition sample_wm : wire MigrateTaskPb :=
  two_wire (MkMigrateTaskPb "10.0.0.3:8001" (EncodeRanges sample_ranges))
    (MkMigrateTaskPb "10.0.0.3:8001" (EncodeRanges (set_finished <$> sample_ranges))).
Definition sample_wd : wire DeleteNodeTaskPb := two_wire (MkDeleteTaskPb "" []) (MkDeleteTaskPb "" []).
Definition sample_wt : wire ClusterTopologyPb := MkWire ClusterTopologyPb (λ _, None) (λ _, None).
Definition sample_row : row := task_row (KeyHelper.TopologyKeyHelper []) MIGRATE (mt_taskId sample_migrate).
Definition sample_store : store := {[ sample_row := ["x"%char] ]}.
Definition sample_fence : TopologyExecutionFence :=
  MkExecFence (mt_taskId sample_migrate) MIGRATE SCALE_OUT 7 PHASE_SCALE_OUT (MkIdentity "id-000000000001x" "10.0.0.1:8001")
    (Some (MkIdentity "id-000000000001x" "10.0.0.1:8001")) (Some (MkIdentity "id-000000000003x" "10.0.0.3:8001")) None [MkRange 0 9].

(** C31: progress is never lost and a task never changes its scope.  From a store in which a task's row reads,
    through any run of the operations of controllers and workers, with any failures, the row reads and holds
    the same task: the same executor, other end and ranges, and every range that was finished still is. *)
Theorem task_progress_monotone (name : chars) (wt : wire ClusterTopologyPb) (wm : wire MigrateTaskPb) (wd : wire DeleteNodeTaskPb)
    (Hwm : wire_ok eq wm) (Hwd : wire_ok eq wd) (Hed : empty_is_default wm wd)
    (kind : TopologyTaskKind) (taskId : string) (type : TopologyChangeType) (epoch : Z) (st : store)
    (ops : list (client_op * fault * option StatusCode)) (bytes : chars) (t : TopologyTask)
    (Hst : st !! task_row (KeyHelper.TopologyKeyHelper name) kind taskId = Some bytes)
    (Ht : decode_task wm wd kind taskId type epoch bytes = Ok t) :
  ∃ bytes' t', client_run name wt wm wd st ops !! task_row (KeyHelper.TopologyKeyHelper name) kind taskId = Some bytes'
    ∧ decode_task wm wd kind taskId type epoch bytes' = Ok t' ∧ task_advances t t'.
Proof. by eapply progress_spec. Qed.

Lemma task_progress_monotone_witness :
  ∃ bytes' t', client_run [] sample_wt sample_wm sample_wd sample_store [(OMark sample_fence, NoFault, None)] !! sample_row = Some bytes'
    ∧ decode_task sample_wm sample_wd MIGRATE (mt_taskId sample_migrate) SCALE_OUT 7 bytes' = Ok t' ∧ task_advances (Migrate sample_migrate) t'.
Proof.
  apply (task_progress_monotone [] sample_wt sample_wm sample_wd (two_wire_ok _ _) (two_wire_ok _ _)) with (bytes := ["x"%char]).
  - split; intros pb E; by vm_compute in E.
  - unfold sample_store. by rewrite lookup_singleton_eq.
  - vm_compute. reflexivity.
Defined.

(** the janitor deletes only what it decided to delete.  When the first half of a deletion has put its
    tombstone in the row, no operation of controllers and workers touches the row until the second half: the
    value the deletion removes is that tombstone, put there in the place of the value the janitor saw. *)
Theorem tombstone_shields_row (name : chars) (wt : wire ClusterTopologyPb) (wm : wire MigrateTaskPb) (wd : wire DeleteNodeTaskPb)
    (Hmal : tombstones_malformed wm wd) (r : row) (token prefix : chars) (f : fault) (st st' : store)
    (ops : list (client_op * fault * option StatusCode))
    (Hs : shielded name r (NextDeleteTombstone prefix token))
    (Ht : TombstoneIfMatches f st r token prefix = (st', true, Ok tt)) :
  default [] (st !! r) = token ∧ client_run name wt wm wd st' ops !! r = Some (NextDeleteTombstone prefix token).
Proof.
  assert (default [] (st !! r) = token ∧ st' = <[r := NextDeleteTombstone prefix token]> st) as [Htok ->].
  { unfold TombstoneIfMatches, CAS, tombstone_process in Ht. destruct f; try done; case_bool_decide as E; simplify_eq; done. }
  split; [done|]. apply (client_run_row name wt wm wd r (λ o, o = Some (NextDeleteTombstone prefix token))).
  - intros op cur next Hr -> Hw. cbn [default] in Hw. rewrite (shielded_write name wt wm wd Hmal op r _ Hs Hr) in Hw. done.
  - by rewrite lookup_insert_eq.
Qed.

Lemma tombstone_shields_row_witness :
  let tomb := TASK_DELETE_TOMBSTONE_PREFIX ++ ["0"%char] in
  client_run [] sample_wt sample_wm sample_wd (<[sample_row := tomb]> sample_store)
    [(OCreate (Migrate sample_migrate), NoFault, None); (OMark sample_fence, NoFault, None)] !! sample_row = Some tomb.
Proof.
  apply (tombstone_shields_row [] sample_wt sample_wm sample_wd) with (token := ["x"%char]) (prefix := TASK_DELETE_TOMBSTONE_PREFIX)
    (f := NoFault) (st := sample_store).
  - intros t Ht. split; apply two_wire_other; intros ->; by vm_compute in Ht.
  - apply (shield_task [] MIGRATE). reflexivity.
  - unfold TombstoneIfMatches, CAS, tombstone_process, sample_store. rewrite lookup_singleton_eq. reflexivity.
Defined.

(** Two janitors and a controller on one notify row: each janitor's tombstone, the first one's deletion, the
    controller's new notify, the second one's deletion.  Returns what the janitors matched, the status of
    the controller's write, and the row after it and at the end. *)
Definition janitor_race (keys : KeyHelper.helper) (st : store) (address : string) (token bytes : chars)
    : bool * bool * res unit * option chars * option chars :=
  let r := notify_row keys address in
  let '(st1, matched1, _) := CAS NoFault st r false (reconcile_process token [] true) in
  let tomb := NextDeleteTombstone NOTIFY_DELETE_TOMBSTONE_PREFIX token in
  let '(st2, matched2, _) := CAS NoFault st1 r false (reconcile_process tomb [] true) in
  let '(st3, _) := Delete NoFault st2 r in
  let '(st4, written) := RewriteEncodedNotify keys NoFault None st3 address bytes in
  let '(st5, _) := Delete NoFault st4 r in
  (matched1, matched2, written, st4 !! r, st5 !! r).

(** C40: two janitors can delete a live notify.  A janitor that finds the tombstone of another one replaces it by a
    tombstone of its own and deletes the row too, unconditionally; when the first janitor's deletion and a
    controller's new notify come in between, the new notify, whose write was reported successful, is
    deleted. *)
Theorem two_janitors_drop_notify (keys : KeyHelper.helper) (st : store) (address : string) (token bytes : chars)
    (Ha : is_ok (KeyHelper.NotifyKey (cs address)) = true) (Hb : bytes ≠ [])
    (Hst : default [] (st !! notify_row keys address) = token) :
  janitor_race keys st address token bytes = (true, true, Ok tt, Some bytes, None).
Proof.
  unfold janitor_race. unfold CAS at 1, reconcile_process at 1. rewrite Hst bool_decide_eq_true_2 //.
  unfold CAS at 1, reconcile_process at 1. rewrite lookup_insert_eq. cbn [default]. rewrite bool_decide_eq_true_2 //.
  cbn [Delete]. unfold RewriteEncodedNotify. destruct (KeyHelper.NotifyKey (cs address)) as [k|]; [|done].
  unfold CAS, rewrite_process. rewrite lookup_delete_eq. cbn [default].
  change (IsNotifyDeleteTombstone []) with false. rewrite bool_decide_eq_false_2; [done|]. cbn [negb is_ok orb].
  by rewrite lookup_insert_eq lookup_delete_eq.
Qed.

Lemma two_janitors_drop_notify_witness :
  janitor_race (KeyHelper.TopologyKeyHelper []) ∅ "10.0.0.1:8001" [] ["n"%char] = (true, true, Ok tt, Some ["n"%char], None).
Proof.
  apply (two_janitors_drop_notify (KeyHelper.TopologyKeyHelper []) ∅ "10.0.0.1:8001" [] ["n"%char]); [vm_compute; reflexivity|done|].
  by rewrite lookup_empty.
Defined.
End Repository.
