(* ===== verification/Materializer.v ===== *)
(** * Materializer: the tasks and notifies of a batch

    Model of [src/datasystem/cluster/control/topology_task_materializer.{h,cpp}]: the deterministic derivation of the
    migration and deletion tasks of the active batch, of the notify of every worker, and of the identities
    of tasks and of business operations, from the latest topology.  The plan of a batch is not stored:
    [RebuildPlan] computes it again from the committed topology.

    [Hasher::HashSHA256] (OpenSSL) and the protobuf runtime are parameters; [FLAGS_hash_ring_tokens_per_member] is
    an argument.  [std::sort] by task id leaves the order of equal ids open, the model keeps theirs. *)
From S2P Require Import Prelude NetUtil Topology HashRing PlanBuilder Replan Membership KeyHelper RepositoryCodec Repository.
From Stdlib Require Import Ascii String.
Import Topology HashRing PlanBuilder Replan Membership RepositoryCodec Repository.

Module Materializer.
Local Open Scope Z_scope.

(** ** Seeds *)
Definition ID_HASH_CHARS : nat := 32.
Definition BYTE_MASK : Z := 255.

Definition to_char (n : Z) : ascii := ascii_of_N (Z.to_N n).

(** The loop [for (shift = 8 * (n - 1); shift >= 0; shift -= 8)]. *)
Fixpoint push_bytes (n : nat) (value : Z) : chars :=
  match n with
  | O => []
  | S k => to_char (Z.land (Z.shiftr value (8 * Z.of_nat k)) BYTE_MASK) :: push_bytes k value
  end.

Definition AppendU64 (seed : chars) (value : Z) : chars := seed ++ push_bytes 8 value.
Definition AppendU32 (seed : chars) (value : Z) : chars := seed ++ push_bytes 4 value.
Definition AppendString (seed : chars) (value : string) : chars := AppendU64 seed (len (cs value)) ++ cs value.

Definition AppendIdentity (seed : chars) (identity : option MemberIdentity) : chars :=
  match identity with
  | Some i => AppendString (AppendString (seed ++ [to_char 1]) (id i)) (address i)
  | None => seed ++ [to_char 0]
  end.

Definition range_le (a b : TokenRange) : Prop := from a < from b ∨ (from a = from b ∧ to a ≤ to b).
#[export] Instance range_le_dec : RelDecision range_le.
Proof. intros a b. unfold range_le. apply _. Defined.
#[export] Instance range_le_total : Total range_le.
Proof. intros a b. unfold range_le. lia. Qed.
#[export] Instance range_le_trans : Transitive range_le.
Proof. intros a b c. unfold range_le. lia. Qed.
#[export] Instance range_le_antisymm : AntiSymm eq range_le.
Proof. intros [] []. unfold range_le. cbn. intros. f_equal; lia. Qed.

Definition sort_ranges (ranges : list TokenRange) : list TokenRange := merge_sort range_le ranges.

Definition AppendRanges (seed : chars) (ranges : list TokenRange) : chars :=
  let ranges := sort_ranges ranges in
  foldl (λ seed r, AppendU32 (AppendU32 seed (from r)) (to r)) (AppendU64 seed (len ranges)) ranges.

Definition type_number (t : TopologyChangeType) : Z := match t with SCALE_OUT => 0 | SCALE_IN => 1 | FAILURE => 2 end.
Definition kind_number (k : TopologyTaskKind) : Z := match k with MIGRATE => 0 | DELETE_MEMBER => 1 end.
Definition phase_number (p : TopologyCallbackPhase) : Z :=
  match p with PHASE_SCALE_OUT => 0 | PHASE_SCALE_IN => 1 | PHASE_SCALE_IN_CLEANUP => 2 | PHASE_FAILURE => 3 end.

Definition ToRanges (taskRanges : list TopologyTaskRange) : list TokenRange := range <$> taskRanges.

(** [HexEncode]: ["%02x"] of every byte. *)
Definition HexEncode (bytes : chars) : chars :=
  flat_map (λ c, [KeyHelper.hex_digit (N.shiftr (N_of_ascii c) 4); KeyHelper.hex_digit (N.land (N_of_ascii c) 15)]) bytes.

(** The seed of a task's id. *)
Definition task_seed (task : TopologyTask) : chars :=
  match task with
  | Migrate value =>
    let seed := [to_char (kind_number MIGRATE); to_char (type_number (mt_type value))] in
    AppendRanges (AppendString (AppendString (AppendU64 seed (mt_epoch value)) (mt_executorAddress value)) (mt_targetAddress value))
      (ToRanges (sourceRanges value))
  | Remove value =>
    let seed := [to_char (kind_number DELETE_MEMBER); to_char (type_number FAILURE)] in
    AppendRanges (AppendString (AppendString (AppendU64 seed (dt_epoch value)) (dt_executorAddress value)) (dt_failedAddress value))
      (ToRanges (recoveryRanges value))
  end.

Definition task_prefix (task : TopologyTask) : chars :=
  match task with
  | Migrate value => cs "m-e" ++ KeyHelper.u64_to_string (mt_epoch value) ++ cs "-"
  | Remove value => cs "d-e" ++ KeyHelper.u64_to_string (dt_epoch value) ++ cs "-"
  end.

(** ** Owner changes and tasks *)
Definition task_range_le (a b : TopologyTaskRange) : Prop := range_le (range a) (range b).
#[export] Instance task_range_le_dec : RelDecision task_range_le.
Proof. intros a b. unfold task_range_le. apply _. Defined.
#[export] Instance task_range_le_total : Total task_range_le.
Proof. intros a b. apply (total range_le). Qed.
#[export] Instance task_range_le_trans : Transitive task_range_le.
Proof. intros a b c. unfold task_range_le. apply transitivity. Qed.

Definition CanonicalizeRanges (ranges : list TopologyTaskRange) : list TopologyTaskRange := merge_sort task_range_le ranges.

Definition same_member (left right : Member) : bool :=
  bool_decide (identity left = identity right) && bool_decide (state left = state right) && bool_decide (tokens left = tokens right).

Fixpoint same_members (ls rs : list Member) : bool :=
  match ls, rs with
  | l :: ls', r :: rs' => same_member l r && same_members ls' rs'
  | _, _ => true
  end.

Definition MatchesSnapshot (latest : TopologySnapshot) (next : TopologyState) : bool :=
  let st := state_ latest in
  (version st =? version next) && Bool.eqb (clusterHasInit st) (clusterHasInit next)
  && bool_decide (activeBatch st = activeBatch next)
  && bool_decide (List.length (members st) = List.length (members next))
  && same_members (members st) (members next).

(** The ranges of a sorted list are nonempty and apart; [prev] is the one before. *)
Fixpoint disjoint_ranges (prev : option TokenRange) (ranges : list TokenRange) : res unit :=
  match ranges with
  | [] => Ok tt
  | r :: rest =>
    check! from r <=? to r else K_INVALID in
    check! match prev with Some p => to p <? from r | None => true end else K_INVALID in
    disjoint_ranges (Some r) rest
  end.

Definition ValidateOwnerChange (latest : TopologySnapshot) (type : TopologyChangeType) (change : TopologyOwnerChange) : res unit :=
  match ch_source change with
  | None => Fail K_INVALID
  | Some csource =>
    check! negb (bool_decide (ch_ranges change = [])) else K_INVALID in
    let! source := FindMemberByAddress latest (address csource) in
    let! target := FindMemberByAddress latest (address (ch_target change)) in
    check! bool_decide (identity source = csource) && bool_decide (identity target = ch_target change) else K_INVALID in
    let! _ := match type with
              | SCALE_OUT => check! IsCommittedMemberState (state source) && bool_decide (state target = JOINING) else K_INVALID in Ok tt
              | FAILURE => check! bool_decide (state source = FAILED) else K_INVALID in
                           check! bool_decide (state target = ACTIVE) else K_INVALID in Ok tt
              | SCALE_IN => check! bool_decide (state source = LEAVING)
                                   && IsAdmittedScaleInMigrationTargetState (state target) else K_INVALID in Ok tt
              end in
    disjoint_ranges None (sort_ranges (ch_ranges change))
  end.

(** The chunks [ranges[offset, offset + MAX_TOPOLOGY_TASK_RANGES)], as long as [offset < ranges.size()]. *)
Fixpoint chunks (fuel : nat) (ranges : list TokenRange) : list (list TokenRange) :=
  match fuel, ranges with
  | S fuel', _ :: _ => take MAX_TOPOLOGY_TASK_RANGES ranges :: chunks fuel' (drop MAX_TOPOLOGY_TASK_RANGES ranges)
  | _, _ => []
  end.

Definition fresh_ranges (executor : string) (ranges : list TokenRange) : list TopologyTaskRange :=
  CanonicalizeRanges ((λ r, MkTaskRange executor r false) <$> ranges).

Definition chunk_task (type : TopologyChangeType) (epoch : Z) (source target : string) (ranges : list TokenRange) : TopologyTask :=
  match type with
  | FAILURE => Remove (MkDeleteTask "" epoch target source (fresh_ranges target ranges))
  | _ => Migrate (MkMigrateTask "" type epoch source target (fresh_ranges source ranges))
  end.

(** The source is there: the change has been validated. *)
Definition AppendTaskChunks (type : TopologyChangeType) (epoch : Z) (change : TopologyOwnerChange) (tasks : list TopologyTask)
    : list TopologyTask :=
  match ch_source change with
  | None => tasks
  | Some source =>
    let ranges := sort_ranges (ch_ranges change) in
    tasks ++ (chunk_task type epoch (address source) (address (ch_target change)) <$> chunks (List.length ranges) ranges)
  end.

(** ** The expected tasks and notifies *)
Record ExpectedDerivedState := MkExpected {
  ed_tasks : list TopologyTask; notifiesByAddress : gmap string TopologyTaskNotify; notifyRecipients : list string;
  canonicalRestartNotify : chars }.

Definition with_id (taskId : string) (task : TopologyTask) : TopologyTask :=
  match task with
  | Migrate t => Migrate (MkMigrateTask taskId (mt_type t) (mt_epoch t) (mt_executorAddress t) (mt_targetAddress t) (sourceRanges t))
  | Remove t => Remove (MkDeleteTask taskId (dt_epoch t) (dt_executorAddress t) (dt_failedAddress t) (recoveryRanges t))
  end.

Definition executor_of (task : TopologyTask) : string :=
  match task with Migrate t => mt_executorAddress t | Remove t => dt_executorAddress t end.

Definition id_le (a b : TopologyTask) : Prop := String.le (id_of a) (id_of b).
#[export] Instance id_le_dec : RelDecision id_le.
Proof. intros a b. unfold id_le. apply _. Defined.
#[export] Instance id_le_total : Total id_le.
Proof. intros a b. apply (total String.le). Qed.
#[export] Instance id_le_trans : Transitive id_le.
Proof. intros a b c. unfold id_le. apply transitivity. Qed.

Fixpoint changes_loop (latest : TopologySnapshot) (type : TopologyChangeType) (epoch : Z) (changes : list TopologyOwnerChange)
    (tasks : list TopologyTask) : res (list TopologyTask) :=
  match changes with
  | [] => Ok tasks
  | c :: rest => let! _ := ValidateOwnerChange latest type c in
                 changes_loop latest type epoch rest (AppendTaskChunks type epoch c tasks)
  end.

(** [auto &notify = notifiesByAddress[executor]] and its two assignments. *)
Definition add_notify (batch : ActiveBatch) (notifies : gmap string TopologyTaskNotify) (task : TopologyTask) : gmap string TopologyTaskNotify :=
  let notify := default (MkNotify None [] ∅) (notifies !! executor_of task) in
  <[executor_of task := MkNotify (Some batch) (taskIds notify ++ [id_of task]) (restartTimestampsByAddress notify)]> notifies.

(** [std::unique] on a sorted vector. *)
Fixpoint unique_strings (l : list string) : list string :=
  match l with
  | x :: (y :: _) as l' => if bool_decide (x = y) then unique_strings l' else x :: unique_strings l'
  | l => l
  end.

Section Materializer.
Context (HashSHA256 : chars → res chars).

Definition DigestPrefix (seed : chars) : chars :=
  match HashSHA256 seed with Ok digest => take ID_HASH_CHARS (HexEncode digest) | Fail _ => [] end.

Definition BuildTaskId (task : TopologyTask) : string := string_of_list_ascii (task_prefix task ++ DigestPrefix (task_seed task)).

Fixpoint ids_pass (tasks : list TopologyTask) : res (list TopologyTask) :=
  match tasks with
  | [] => Ok []
  | task :: rest =>
    let taskId := BuildTaskId task in
    check! (ID_HASH_CHARS <? String.length taskId)%nat else K_RUNTIME_ERROR in
    let! rest' := ids_pass rest in
    Ok (with_id taskId task :: rest')
  end.

Definition BuildExpected (latest : TopologySnapshot) (plan : TopologyPlan) : res ExpectedDerivedState :=
  match activeBatch (state_ latest) with
  | None => Fail K_INVALID
  | Some batch =>
    check! MatchesSnapshot latest (next plan) else K_INVALID in
    let! built := changes_loop latest (btype batch) (epoch batch) (ownerChanges plan) [] in
    let! named := ids_pass built in
    let tasks := merge_sort id_le named in
    let notifies := foldl (add_notify batch) ∅ tasks in
    Ok (MkExpected tasks notifies (smap_to_list notifies).*1 [])
  end.

Definition BuildBusinessOperationId (phase : TopologyCallbackPhase) (fence : TopologyExecutionFence) : string :=
  let source := if bool_decide (phase = PHASE_FAILURE) then None else ef_source fence in
  let seed := AppendRanges (AppendIdentity (AppendIdentity (AppendIdentity [to_char (phase_number phase)] source) (ef_target fence))
                (ef_failed fence)) (ef_ranges fence) in
  string_of_list_ascii (cs "op-" ++ DigestPrefix seed).

Section Rebuild.
Context `{PlanningOps} (tokens_per_member : Z) (wn : wire TaskNotifyPb).

Definition selected_state (type : TopologyChangeType) : MemberState :=
  match type with SCALE_OUT => JOINING | SCALE_IN => LEAVING | FAILURE => FAILED end.

Definition RebuildPlan (latest : TopologySnapshot) : res TopologyPlan :=
  let st := state_ latest in
  match activeBatch st with
  | None => Fail K_INVALID
  | Some batch =>
    let selectedState := selected_state (btype batch) in
    let selected := MembersInState st selectedState in
    let current := with_members (if bool_decide (selectedState = FAILED) then revive <$> members st else members st) st in
    check! negb (bool_decide (selected = [])) else K_INVALID in
    if bool_decide (btype batch = FAILURE) && negb (existsb (λ m, bool_decide (state m = ACTIVE)) (members st))
    then Ok (MkPlan st [])
    else
      let! plan := match btype batch with
                   | SCALE_OUT => pa_scale_out (MkScaleOut current selected tokens_per_member)
                   | SCALE_IN => pa_scale_in current selected
                   | FAILURE => pa_failure current selected
                   end in
      Ok (MkPlan st (ownerChanges plan))
  end.

Fixpoint restart_facts (memberships : list MembershipRecord) (recipients : list string) (restarts : gmap string Z)
    : res (list string * gmap string Z) :=
  match memberships with
  | [] => Ok (recipients, restarts)
  | r :: rest =>
    check! negb (empty_str (mr_address r)) else K_INVALID in
    let recipients := recipients ++ [mr_address r] in
    if bool_decide (mr_state r = RESTARTING) then
      check! 0 <? mr_timestamp r else K_INVALID in
      restart_facts rest recipients (<[mr_address r := mr_timestamp r]> restarts)
    else restart_facts rest recipients restarts
  end.

Definition RebuildExpected (latest : TopologySnapshot) (memberships : list MembershipRecord) (includeRestartFacts : bool)
    : res ExpectedDerivedState :=
  let! built := match activeBatch (state_ latest) with
                | Some _ => let! plan := RebuildPlan latest in BuildExpected latest plan
                | None => Ok (MkExpected [] ∅ [] [])
                end in
  if negb includeRestartFacts then Ok built
  else
    let! (recipients, restarts) := restart_facts memberships (notifyRecipients built) ∅ in
    let! canonical := EncodeNotify wn (MkNotify None [] restarts) in
    Ok (MkExpected (ed_tasks built) (notifiesByAddress built) (unique_strings (merge_sort String.le recipients)) canonical).
End Rebuild.

Definition binary_search (l : list string) (a : string) : bool :=
  match partition_point (λ x, bool_decide (str_lt x a)) l with x :: _ => negb (bool_decide (str_lt a x)) | [] => false end.

Definition BuildEncodedNotifyFor (wn : wire TaskNotifyPb) (expected : ExpectedDerivedState) (address : string) : res chars :=
  check! binary_search (notifyRecipients expected) address else K_INVALID in
  ComposeNotify wn (default (MkNotify None [] ∅) (notifiesByAddress expected !! address)) (canonicalRestartNotify expected).
End Materializer.

(** ** Seeds are unambiguous *)
Lemma push_bytes_length n v : List.length (push_bytes n v) = n.
Proof. induction n as [|n IH]; [done|]. simpl. by rewrite IH. Qed.

Lemma to_char_inj a b : 0 ≤ a < 256 → 0 ≤ b < 256 → to_char a = to_char b → a = b.
Proof.
  intros Ha Hb E. apply (f_equal N_of_ascii) in E. unfold to_char in E. rewrite !N_ascii_embedding in E; lia.
Qed.

Lemma byte_range v k : 0 ≤ Z.land (Z.shiftr v k) BYTE_MASK < 256.
Proof. change BYTE_MASK with (Z.ones 8). rewrite Z.land_ones; [lia|]. apply Z.mod_pos_bound. lia. Qed.

(** The bytes written are the number modulo the width. *)
Lemma push_bytes_mod n v v' :
  push_bytes n v = push_bytes n v' → v mod 2 ^ (8 * Z.of_nat n) = v' mod 2 ^ (8 * Z.of_nat n).
Proof.
  induction n as [|n IH]; [intros _; by rewrite !Z.mod_1_r|]. cbn [push_bytes]. intros [= Ec Er%IH].
  apply to_char_inj in Ec; [|apply byte_range..]. change BYTE_MASK with (Z.ones 8) in Ec. rewrite !Z.land_ones in Ec; [lia..|].
  rewrite !Z.shiftr_div_pow2 in Ec; [lia..|].
  replace (8 * Z.of_nat (S n)) with (8 * Z.of_nat n + 8) by lia. rewrite Z.pow_add_r; [lia..|].
  rewrite (Z.rem_mul_r v) ?(Z.rem_mul_r v'); [lia..|]. by rewrite Er Ec.
Qed.

Lemma push_bytes_inj n v v' x y :
  0 ≤ v < 2 ^ (8 * Z.of_nat n) → 0 ≤ v' < 2 ^ (8 * Z.of_nat n) → push_bytes n v ++ x = push_bytes n v' ++ y → v = v' ∧ x = y.
Proof.
  intros Hv Hv' [E ->]%app_inj_1; [|by rewrite !push_bytes_length]. split; [|done]. apply push_bytes_mod in E.
  by rewrite !Z.mod_small in E.
Qed.

Lemma push8_inj v v' x y : 0 ≤ v < 2 ^ 64 → 0 ≤ v' < 2 ^ 64 → push_bytes 8 v ++ x = push_bytes 8 v' ++ y → v = v' ∧ x = y.
Proof. apply (push_bytes_inj 8). Qed.
Lemma push4_inj v v' x y : 0 ≤ v < 2 ^ 32 → 0 ≤ v' < 2 ^ 32 → push_bytes 4 v ++ x = push_bytes 4 v' ++ y → v = v' ∧ x = y.
Proof. apply (push_bytes_inj 4). Qed.

(** What fits the fields of the code: 64-bit epochs and sizes, 32-bit tokens. *)
Definition string_fits (s : string) : Prop := len (cs s) < 2 ^ 64.
Definition range_fits (r : TokenRange) : Prop := 0 ≤ from r < 2 ^ 32 ∧ 0 ≤ to r < 2 ^ 32.

Definition string_bytes (s : string) : chars := push_bytes 8 (len (cs s)) ++ cs s.
Definition range_bytes (r : TokenRange) : chars := push_bytes 4 (from r) ++ push_bytes 4 (to r).

Lemma string_bytes_inj a b x y :
  string_fits a → string_fits b → string_bytes a ++ x = string_bytes b ++ y → a = b ∧ x = y.
Proof.
  unfold string_bytes, string_fits. intros Ha Hb. rewrite -!assoc. pose proof (len_nonneg (cs a)). pose proof (len_nonneg (cs b)).
  intros [El E]%push8_inj; [|done..]. apply app_inj_1 in E as [E%cs_inj ->]; [done|]. unfold len in El. lia.
Qed.

Lemma range_bytes_inj rs rs' :
  Forall range_fits rs → Forall range_fits rs' → List.length rs = List.length rs' →
  flat_map range_bytes rs = flat_map range_bytes rs' → rs = rs'.
Proof.
  intros Hf. revert rs'. induction Hf as [|r rs [Hr1 Hr2] Hf IH]; intros [|r' rs'] Hf' El E; try done.
  inversion Hf' as [|? ? [Hr1' Hr2'] ?]; subst. cbn [flat_map] in E. unfold range_bytes at 1 3 in E. rewrite -!assoc in E.
  apply push4_inj in E as [Ef E]; [|done..]. apply push4_inj in E as [Et E]; [|done..].
  apply IH in E; [|done|by injection El]. destruct r, r'; simpl in *. congruence.
Qed.

Lemma AppendRanges_eq seed rs :
  AppendRanges seed rs = seed ++ push_bytes 8 (len rs) ++ flat_map range_bytes (sort_ranges rs).
Proof.
  unfold AppendRanges, AppendU64, AppendU32. replace (len (sort_ranges rs)) with (len rs) by (unfold len, sort_ranges; by rewrite length_merge_sort).
  assert (∀ l s, foldl (λ seed r, (seed ++ push_bytes 4 (from r)) ++ push_bytes 4 (to r)) s l = s ++ flat_map range_bytes l) as Hf.
  { intros l. induction l as [|r l IH]; intros s; simpl; [by rewrite app_nil_r|]. rewrite IH. unfold range_bytes. by rewrite -!assoc. }
  by rewrite Hf -assoc.
Qed.

(** Equal encodings of two strings and a list of ranges, after equal heads. *)
Lemma fields_inj n n' a a' b b' rs rs' :
  0 ≤ n < 2 ^ 64 → 0 ≤ n' < 2 ^ 64 → string_fits a → string_fits a' → string_fits b → string_fits b' →
  Forall range_fits rs → Forall range_fits rs' → len rs < 2 ^ 64 → len rs' < 2 ^ 64 →
  push_bytes 8 n ++ string_bytes a ++ string_bytes b ++ push_bytes 8 (len rs) ++ flat_map range_bytes (sort_ranges rs)
  = push_bytes 8 n' ++ string_bytes a' ++ string_bytes b' ++ push_bytes 8 (len rs') ++ flat_map range_bytes (sort_ranges rs') →
  n = n' ∧ a = a' ∧ b = b' ∧ sort_ranges rs = sort_ranges rs'.
Proof.
  intros ? ? ? ? ? ? Hr Hr' Hl Hl'. intros [-> E]%push8_inj; [|done..]. apply string_bytes_inj in E as [-> E]; [|done..].
  apply string_bytes_inj in E as [-> E]; [|done..]. pose proof (len_nonneg rs). pose proof (len_nonneg rs').
  apply push8_inj in E as [El E]; [|done..]. split_and!; [done..|]. apply range_bytes_inj in E; [done| | |].
  - unfold sort_ranges. by rewrite merge_sort_Permutation.
  - unfold sort_ranges. by rewrite merge_sort_Permutation.
  - unfold sort_ranges. rewrite !length_merge_sort. unfold len in El. lia.
Qed.

(** ** Tasks by their scope *)
Definition epoch_of (task : TopologyTask) : Z := match task with Migrate t => mt_epoch t | Remove t => dt_epoch t end.
Definition other_of (task : TopologyTask) : string := match task with Migrate t => mt_targetAddress t | Remove t => dt_failedAddress t end.
Definition type_of (task : TopologyTask) : TopologyChangeType := match task with Migrate t => mt_type t | Remove _ => FAILURE end.

Definition task_fits (task : TopologyTask) : Prop :=
  0 ≤ epoch_of task < 2 ^ 64 ∧ string_fits (executor_of task) ∧ string_fits (other_of task)
  ∧ Forall range_fits (ToRanges (ranges_of task)) ∧ len (ToRanges (ranges_of task)) < 2 ^ 64.

Definition same_scope (a b : TopologyTask) : Prop :=
  kind_of a = kind_of b ∧ type_of a = type_of b ∧ epoch_of a = epoch_of b ∧ executor_of a = executor_of b
  ∧ other_of a = other_of b ∧ sort_ranges (ToRanges (ranges_of a)) = sort_ranges (ToRanges (ranges_of b)).

Lemma task_seed_eq task :
  task_seed task = [to_char (kind_number (kind_of task)); to_char (type_number (type_of task))]
    ++ push_bytes 8 (epoch_of task) ++ string_bytes (executor_of task) ++ string_bytes (other_of task)
    ++ push_bytes 8 (len (ToRanges (ranges_of task))) ++ flat_map range_bytes (sort_ranges (ToRanges (ranges_of task))).
Proof.
  destruct task as [t|t]; unfold task_seed; rewrite AppendRanges_eq; unfold AppendString, AppendU64, string_bytes; by rewrite -!assoc.
Qed.

Lemma task_seed_inj a b : task_fits a → task_fits b → task_seed a = task_seed b ↔ same_scope a b.
Proof.
  intros (Ha1 & Ha2 & Ha3 & Ha4 & Ha5) (Hb1 & Hb2 & Hb3 & Hb4 & Hb5). rewrite !task_seed_eq. unfold same_scope. split.
  - intros [[= Ek Et] E]%app_inj_1; [|done]. apply fields_inj in E as (? & ? & ? & ?); [|done..]. apply to_char_inj in Ek, Et;
      [|by destruct (type_of a)|by destruct (type_of b)|by destruct (kind_of a)|by destruct (kind_of b)].
    split_and!; [by destruct (kind_of a), (kind_of b)|by destruct (type_of a), (type_of b)|done..].
  - intros (-> & -> & -> & -> & -> & E). rewrite E. do 6 f_equal. apply (f_equal len) in E. unfold len, sort_ranges in E.
    rewrite !length_merge_sort in E. unfold len. done.
Qed.

Lemma type_of_prefix a b : kind_of a = kind_of b → epoch_of a = epoch_of b → task_prefix a = task_prefix b.
Proof. destruct a, b; try done; intros _ E; cbn in E |- *; by rewrite E. Qed.

Lemma task_prefix_snoc a : ∃ p, task_prefix a = p ++ ["-"%char].
Proof. destruct a as [t|t]; unfold task_prefix; cbn [cs]; rewrite !assoc; by eexists. Qed.

Lemma HexEncode_hex bytes c : c ∈ HexEncode bytes → KeyHelper.IsLowerHex c = true.
Proof.
  intros Hc. apply list_elem_of_In, in_flat_map in Hc as (b & _ & Hc%list_elem_of_In).
  destruct (KeyHelper.nibbles b) as (H1 & H2 & _).
  assert (∀ n, (n < 16)%N → KeyHelper.IsLowerHex (KeyHelper.hex_digit n) = true) as Hhex.
  { intros n Hn%KeyHelper.hex_digit_cases. revert Hn. generalize (KeyHelper.hex_digit n). intros d Hd.
    repeat (apply elem_of_cons in Hd as [->|Hd]; [done|]). by apply elem_of_nil in Hd. }
  apply elem_of_cons in Hc as [->|[->|[]%elem_of_nil]%elem_of_cons]; by apply Hhex.
Qed.

Lemma HexEncode_length bytes : List.length (HexEncode bytes) = (2 * List.length bytes)%nat.
Proof. induction bytes as [|b bytes IH]; [done|]. simpl in *. rewrite IH. lia. Qed.

Section Digest.
Context (HashSHA256 : chars → res chars).

Lemma DigestPrefix_hex seed c : c ∈ DigestPrefix HashSHA256 seed → KeyHelper.IsLowerHex c = true.
Proof.
  unfold DigestPrefix. destruct (HashSHA256 seed) as [d|]; [|by intros ?%elem_of_nil]. intros Hc.
  apply (HexEncode_hex d). rewrite -(take_drop ID_HASH_CHARS (HexEncode d)). apply elem_of_app. by left.
Qed.

Lemma BuildTaskId_split a b :
  BuildTaskId HashSHA256 a = BuildTaskId HashSHA256 b ↔
  task_prefix a = task_prefix b ∧ DigestPrefix HashSHA256 (task_seed a) = DigestPrefix HashSHA256 (task_seed b).
Proof.
  unfold BuildTaskId. split; [|by intros [-> ->]]. intros E. apply (f_equal cs) in E. rewrite !list_ascii_of_string_of_list_ascii in E.
  destruct (task_prefix_snoc a) as [pa Ea], (task_prefix_snoc b) as [pb Eb]. rewrite Ea Eb -!assoc in E. cbn [app] in E.
  assert (∀ seed, "-"%char ∉ DigestPrefix HashSHA256 seed) as Hn by (intros seed Hc%DigestPrefix_hex; done).
  apply (f_equal (NetUtil.split_last "-")) in E. rewrite !NetUtil.split_last_app // in E. injection E as -> ->. by rewrite Ea Eb.
Qed.

Lemma task_id_scope a b :
  task_fits a → task_fits b →
  (same_scope a b → BuildTaskId HashSHA256 a = BuildTaskId HashSHA256 b)
  ∧ (BuildTaskId HashSHA256 a = BuildTaskId HashSHA256 b →
     same_scope a b ∨ task_seed a ≠ task_seed b ∧ DigestPrefix HashSHA256 (task_seed a) = DigestPrefix HashSHA256 (task_seed b)).
Proof.
  intros Ha Hb. rewrite BuildTaskId_split. split.
  - intros Hs. split; [apply type_of_prefix; apply Hs|]. by rewrite (proj2 (task_seed_inj a b Ha Hb) Hs).
  - intros [_ E]. destruct (decide (task_seed a = task_seed b)) as [Es|Hne]; [left; by apply task_seed_inj|by right].
Qed.
End Digest.

(** ** Chunks *)
Lemma sort_ranges_sorted rs : StronglySorted range_le (sort_ranges rs).
Proof. apply StronglySorted_merge_sort; apply _. Qed.

Lemma fresh_ranges_eq ex rs : StronglySorted range_le rs → fresh_ranges ex rs = (λ r, MkTaskRange ex r false) <$> rs.
Proof.
  intros Hs. unfold fresh_ranges, CanonicalizeRanges. apply (StronglySorted_unique_strong task_range_le).
  - intros x y. rewrite elem_of_merge_sort. intros (r & -> & _)%list_elem_of_fmap (r' & -> & _)%list_elem_of_fmap H1 H2.
    f_equal. by apply (anti_symm range_le).
  - apply StronglySorted_merge_sort; apply _.
  - induction Hs as [|r l _ IH Hl]; constructor; [done|]. by apply Forall_fmap.
  - apply merge_sort_Permutation.
Qed.

Lemma max_ranges_pos : (0 < MAX_TOPOLOGY_TASK_RANGES)%nat.
Proof. unfold MAX_TOPOLOGY_TASK_RANGES. lia. Qed.

Lemma chunks_spec fuel rs :
  (List.length rs ≤ fuel)%nat →
  List.concat (chunks fuel rs) = rs
  ∧ ∀ c, c ∈ chunks fuel rs → c ≠ [] ∧ (List.length c ≤ MAX_TOPOLOGY_TASK_RANGES)%nat ∧ ∃ a b, rs = a ++ c ++ b.
Proof.
  pose proof max_ranges_pos as Hmax. revert rs. induction fuel as [|fuel IH]; intros [|r rs] Hl; cbn [chunks List.length] in *; try lia;
    try (split; [done|]; by intros ? ?%elem_of_nil).
  destruct (IH (drop MAX_TOPOLOGY_TASK_RANGES (r :: rs))) as [IH1 IH2]; [rewrite length_drop; cbn [List.length]; lia|].
  cbn [List.concat]. rewrite IH1 take_drop. split; [done|]. intros c [->|Hc]%elem_of_cons.
  - split_and!; [destruct MAX_TOPOLOGY_TASK_RANGES; [lia|done]|rewrite length_take; lia|].
    exists [], (drop MAX_TOPOLOGY_TASK_RANGES (r :: rs)). by rewrite /= take_drop.
  - destruct (IH2 c Hc) as (? & ? & a & b & E). split_and!; [done..|]. exists (take MAX_TOPOLOGY_TASK_RANGES (r :: rs) ++ a), b.
    by rewrite -assoc -E take_drop.
Qed.

Lemma disjoint_ranges_ok prev rs :
  disjoint_ranges prev rs = Ok tt ↔
  Forall (λ r, from r ≤ to r) rs ∧ StronglySorted (λ a b, to a < from b) rs
  ∧ match prev with Some p => Forall (λ r, to p < from r) rs | None => True end.
Proof.
  revert prev. induction rs as [|r rs IH]; intros prev; cbn [disjoint_ranges].
  { split; [intros _|done]. split_and!; [constructor..|by destruct prev]. }
  destruct (Z.leb_spec (from r) (to r)) as [Hr|Hr]; [|split; [done|]; intros (Hf%Forall_inv & _); lia].
  rewrite Forall_cons StronglySorted_cons. 
  assert (Forall (λ x, from x ≤ to x) rs → StronglySorted (λ a b, to a < from b) rs →
    match prev with Some p => to p < from r | None => True end → Forall (λ b, to r < from b) rs →
    match prev with Some p => Forall (λ r, to p < from r) (r :: rs) | None => True end) as Hprev.
  { intros _ _ Hp Hall. destruct prev as [p|]; [|done]. constructor; [done|]. eapply Forall_impl; [exact Hall|]. simpl. lia. }
  destruct prev as [p|].
  - destruct (Z.ltb_spec (to p) (from r)) as [Hp|Hp].
    + rewrite IH. naive_solver.
    + split; [done|]. intros (_ & _ & Hf%Forall_inv). lia.
  - rewrite IH. naive_solver.
Qed.

Lemma StronglySorted_middle {A} (R : relation A) a c b : StronglySorted R (a ++ c ++ b) → StronglySorted R c.
Proof. intros (_ & _ & (_ & H & _)%StronglySorted_app)%StronglySorted_app. done. Qed.

(** A chunk of validated ranges, as the ranges of a task, is canonical. *)
Lemma chunk_canonical ex rs c :
  disjoint_ranges None (sort_ranges rs) = Ok tt → ex ≠ "" → c ∈ chunks (List.length (sort_ranges rs)) (sort_ranges rs) →
  IsCanonicalRanges (fresh_ranges ex c) ex = true.
Proof.
  intros (Hf & Hd & _)%disjoint_ranges_ok Hex Hc. destruct (chunks_spec _ (sort_ranges rs) ltac:(done)) as [_ Hch].
  destruct (Hch c Hc) as (Hne & Hlen & a & b & E). pose proof (sort_ranges_sorted rs) as Hs. rewrite E in Hf Hd Hs.
  rewrite fresh_ranges_eq; [by eapply StronglySorted_middle|]. apply StronglySorted_middle in Hd.
  apply Forall_app in Hf as [_ [Hf _]%Forall_app].
  unfold IsCanonicalRanges. rewrite bool_decide_eq_false_2; [by destruct c|]. rewrite bool_decide_eq_true_2; [by rewrite length_fmap|].
  rewrite (proj2 (empty_str_false ex) Hex). cbn [negb andb].
  assert (∀ prev l, Forall (λ r, from r ≤ to r) l → StronglySorted (λ a b, to a < from b) l →
    match prev with Some p => Forall (λ r, to (range p) < from r) l | None => True end →
    ranges_loop ex prev ((λ r, MkTaskRange ex r false) <$> l) = true) as Hloop; [|by apply Hloop].
  intros prev l Hl. revert prev. induction Hl as [|r l Hr Hl IH]; intros prev Hss Hp; [done|].
  apply StronglySorted_cons in Hss as [Hall Hss]. cbn [fmap list_fmap ranges_loop]. unfold range_ok. cbn [ownerAddress range].
  rewrite bool_decide_eq_true_2 // (proj2 (Z.leb_le _ _) Hr). cbn [andb]. rewrite IH //. rewrite andb_true_r.
  destruct prev as [p|]; [|done]. apply Z.ltb_lt. by apply Forall_inv in Hp.
Qed.

(** ** The tasks of a list of changes *)
Definition change_tasks (type : TopologyChangeType) (epoch : Z) (c : TopologyOwnerChange) : list TopologyTask :=
  AppendTaskChunks type epoch c [].

Lemma AppendTaskChunks_eq type epoch c tasks : AppendTaskChunks type epoch c tasks = tasks ++ change_tasks type epoch c.
Proof. unfold change_tasks, AppendTaskChunks. destruct (ch_source c); [done|]. by rewrite app_nil_r. Qed.

Lemma changes_loop_ok latest type epoch changes acc built :
  changes_loop latest type epoch changes acc = Ok built ↔
  Forall (λ c, ValidateOwnerChange latest type c = Ok tt) changes ∧ built = acc ++ flat_map (change_tasks type epoch) changes.
Proof.
  revert acc. induction changes as [|c changes IH]; intros acc; cbn [changes_loop flat_map].
  { rewrite app_nil_r. split; [by intros [= <-]|by intros [_ ->]]. }
  rewrite Forall_cons. destruct (ValidateOwnerChange latest type c) as [[]|] eqn:E; cbn [res_bind].
  - rewrite IH AppendTaskChunks_eq -assoc. naive_solver.
  - split; [done|]. by intros [[? _] _].
Qed.

(** From which worker to which a task moves its ranges. *)
Definition moves (task : TopologyTask) : string * string :=
  match task with Migrate t => (mt_executorAddress t, mt_targetAddress t) | Remove t => (dt_failedAddress t, dt_executorAddress t) end.

Definition in_rangeb (tok : Z) (r : TokenRange) : bool := (from r <=? tok) && (tok <=? to r).

Definition covers (tok : Z) (task : TopologyTask) : bool :=
  existsb (in_rangeb tok) (ToRanges (ranges_of task)).

Definition covered (tok : Z) (rs : list TokenRange) : bool := existsb (in_rangeb tok) rs.

Lemma covered_in tok rs : covered tok rs = true ↔ in_ranges tok rs.
Proof.
  unfold covered, in_ranges, in_range, in_rangeb. rewrite existsb_Exists Exists_exists. setoid_rewrite andb_true_iff. by setoid_rewrite Z.leb_le.
Qed.

Lemma covers_in tok task : covers tok task = true ↔ in_ranges tok (ToRanges (ranges_of task)).
Proof. apply covered_in. Qed.

(** How many elements of a list satisfy a test. *)
Definition count {A} (p : A → bool) (l : list A) : nat := List.length (filter (λ x, p x = true) l).

Lemma count_cons {A} (p : A → bool) x l : count p (x :: l) = ((if p x then 1 else 0) + count p l)%nat.
Proof. unfold count. destruct (p x) eqn:E; [by rewrite filter_cons_True|rewrite filter_cons_False; [by rewrite E|done]]. Qed.
Lemma count_app {A} (p : A → bool) l1 l2 : count p (l1 ++ l2) = (count p l1 + count p l2)%nat.
Proof. unfold count. by rewrite filter_app length_app. Qed.
Lemma count_perm {A} (p : A → bool) l1 l2 : l1 ≡ₚ l2 → count p l1 = count p l2.
Proof. intros E. unfold count. by rewrite E. Qed.
Lemma count_fmap {A B} (p : B → bool) (f : A → B) l : count p (f <$> l) = count (λ x, p (f x)) l.
Proof. induction l as [|x l IH]; [done|]. rewrite fmap_cons !count_cons. by rewrite IH. Qed.
Lemma count_none {A} (p : A → bool) l : (∀ x, x ∈ l → p x = false) → count p l = 0%nat.
Proof.
  intros Hp. unfold count. rewrite list_filter_none //. apply Forall_forall. intros x Hx. by rewrite Hp.
Qed.
Lemma count_pos {A} (p : A → bool) l : (0 < count p l)%nat ↔ ∃ x, x ∈ l ∧ p x = true.
Proof.
  induction l as [|x l IH]; [split; [simpl; cbn; lia|by intros (? & ?%elem_of_nil & _)]|]. rewrite count_cons. destruct (p x) eqn:E.
  - split; [intros _; exists x; split; [by left|done]|lia].
  - rewrite IH. setoid_rewrite elem_of_cons. split; [intros (y & ? & ?); eauto|]. intros (y & [->|?] & Hy); [congruence|eauto].
Qed.

(** Ranges that are apart hold a token once, chunked or not. *)
Lemma disjoint_count tok rs :
  StronglySorted (λ a b, to a < from b) rs → Forall (λ r, from r ≤ to r) rs → (count (in_rangeb tok) rs ≤ 1)%nat.
Proof.
  intros Hs Hf. induction Hs as [|r rs Hs IH Hr]; [cbn; lia|]. rewrite count_cons. apply Forall_cons in Hf as [Hr0 Hf].
  destruct (in_rangeb tok r) eqn:E; [|by apply IH]. rewrite count_none; [|lia].
  intros r' Hr'. rewrite Forall_forall in Hr. specialize (Hr r' Hr'). apply andb_true_iff in E as [_ ?%Z.leb_le].
  unfold in_rangeb. rewrite (proj2 (Z.leb_gt _ _)) //. lia.
Qed.

Lemma chunk_count tok (cs : list (list TokenRange)) :
  (count (covered tok) cs ≤ count (in_rangeb tok) (List.concat cs))%nat.
Proof.
  induction cs as [|c cs IH]; [done|]. cbn [List.concat]. rewrite count_cons count_app. destruct (covered tok c) eqn:E; [|lia].
  assert (0 < count (in_rangeb tok) c)%nat; [|lia].
  apply count_pos. unfold covered in E. apply existsb_Exists, Exists_exists in E. done.
Qed.

Lemma covered_concat tok (cs : list (list TokenRange)) : covered tok (List.concat cs) = existsb (covered tok) cs.
Proof. induction cs as [|c cs IH]; [done|]. cbn [List.concat existsb]. unfold covered in *. by rewrite existsb_app IH. Qed.

Lemma chunk_task_facts type epoch s d c :
  StronglySorted range_le c →
  let task := chunk_task type epoch s d c in
  moves task = (s, d) ∧ type_of task = type ∧ epoch_of task = epoch ∧ ToRanges (ranges_of task) = c
  ∧ Forall (λ r, finished r = false) (ranges_of task) ∧ ranges_of task = fresh_ranges (executor_of task) c
  ∧ (executor_of task = if bool_decide (type = FAILURE) then d else s)
  ∧ (kind_of task = if bool_decide (type = FAILURE) then DELETE_MEMBER else MIGRATE).
Proof.
  intros Hs task. unfold task, chunk_task.
  assert (∀ ex, ToRanges (fresh_ranges ex c) = c ∧ Forall (λ r, finished r = false) (fresh_ranges ex c)) as Hr.
  { intros ex. rewrite fresh_ranges_eq //. split; [unfold ToRanges; rewrite -list_fmap_compose; apply list_fmap_id|].
    apply Forall_fmap, Forall_true. done. }
  destruct (Hr s), (Hr d). by destruct type.
Qed.

Lemma covers_chunk type epoch s d c tok : StronglySorted range_le c → covers tok (chunk_task type epoch s d c) = covered tok c.
Proof. intros Hs. unfold covers, covered. destruct (chunk_task_facts type epoch s d c Hs) as (_ & _ & _ & -> & _). done. Qed.

(** The tasks of one validated change cover each of its tokens once, and nothing else. *)
Lemma change_tasks_count type epoch c src tok :
  ch_source c = Some src → disjoint_ranges None (sort_ranges (ch_ranges c)) = Ok tt →
  count (covers tok) (change_tasks type epoch c) = if covered tok (ch_ranges c) then 1%nat else 0%nat.
Proof.
  intros Es (Hf & Hd & _)%disjoint_ranges_ok. unfold change_tasks, AppendTaskChunks. rewrite Es. cbn [app]. rewrite count_fmap.
  set (rs := sort_ranges (ch_ranges c)) in *. destruct (chunks_spec _ rs ltac:(done)) as [Hcat Hch].
  assert (covered tok (ch_ranges c) = covered tok rs) as ->.
  { apply eq_true_iff_eq. rewrite !covered_in. unfold in_ranges, rs, sort_ranges. by setoid_rewrite elem_of_merge_sort. }
  assert (count (λ ch, covers tok (chunk_task type epoch (address src) (address (ch_target c)) ch)) (chunks (List.length rs) rs)
    = count (covered tok) (chunks (List.length rs) rs)) as ->.
  { unfold count. f_equal. apply list_filter_ext_in. intros ch (_ & _ & a & b & E)%Hch. rewrite covers_chunk //.
    apply (StronglySorted_middle _ a ch b). rewrite -E. apply sort_ranges_sorted. }
  pose proof (chunk_count tok (chunks (List.length rs) rs)) as Hle. rewrite Hcat in Hle. pose proof (disjoint_count tok rs Hd Hf).
  replace (covered tok rs) with (existsb (covered tok) (chunks (List.length rs) rs)) by (by rewrite -covered_concat Hcat).
  destruct (existsb (covered tok) _) eqn:E.
  - assert (0 < count (covered tok) (chunks (List.length rs) rs))%nat; [|lia]. apply count_pos, Exists_exists, existsb_Exists, E.
  - apply count_none. apply existsb_none in E. by apply Forall_forall.
Qed.

(** ** Rebuilding the plan of a batch *)
Lemma canon_points p st x i : (∀ m, p (sort_tokens m) = p m) → point p (members (canon st)) x i ↔ point p (members st) x i.
Proof.
  intros Hp. unfold point. setoid_rewrite (canon_members_perm st). split.
  - intros (m' & (m & -> & Hm)%list_elem_of_fmap & Hpm & Hx & Hi). exists m. rewrite Hp in Hpm. cbn in Hx. by rewrite elem_of_merge_sort in Hx.
  - intros (m & Hm & Hpm & Hx & Hi). exists (sort_tokens m). rewrite Hp. cbn. rewrite elem_of_merge_sort.
    split; [by apply list_elem_of_fmap_2|done].
Qed.

Lemma canon_ring st : ring_valid (members st) → ring_valid (members (canon st)).
Proof.
  intros [Ha Hi Ht Hr].
  assert (flat_map tokens (members (canon st)) ≡ₚ flat_map tokens (members st)) as Hp.
  { cbn [canon members]. by rewrite flat_sort_tokens (proj1 (sorted_members st)). }
  split; rewrite ?Hp //; rewrite canon_members_perm fmap_sort_tokens //.
Qed.

Lemma canon_members_ok st : Forall member_ok (members st) → Forall member_ok (members (canon st)).
Proof. intros H. rewrite canon_members_perm. by apply Forall_fmap. Qed.

Lemma canon_in_state st s i : i ∈ MembersInState (canon st) s ↔ i ∈ MembersInState st s.
Proof.
  rewrite !elem_of_in_state. setoid_rewrite (canon_members_perm st). split.
  - intros (m' & (m & -> & Hm)%list_elem_of_fmap & Hi & Hs). by exists m.
  - intros (m & Hm & Hi & Hs). exists (sort_tokens m). split; [by apply list_elem_of_fmap_2|done].
Qed.

Lemma nonempty_elem {A} (l : list A) x : x ∈ l → l ≠ [].
Proof. intros Hx ->. by apply elem_of_nil in Hx. Qed.

Lemma plan_state st b :
  plan_inv st → activeBatch st = Some b → ∃ m, m ∈ members st ∧ state m = selected_state (btype b).
Proof.
  intros [_ Hb _ _ _ _] E. unfold batch_ok in Hb. rewrite E in Hb. destruct Hb as (_ & _ & (m & Hm & Hp)%Exists_exists).
  exists m. split; [done|]. unfold participant in Hp. destruct (btype b); simpl in *; by destruct (state m).
Qed.

Section Starts.
Context (tokens_per_member : Z) (latest : TopologyState) (Hinv : plan_inv latest) (Hver : version latest < INT64_MAX).

(** The plans that start or restart a batch, made by the hash algorithm. *)
Inductive starts : TopologyPlan → Prop :=
| starts_scale_out selected plan : BuildScaleOutStart tokens_per_member latest selected = Ok plan → starts plan
| starts_replan failedJoining plan :
    BuildScaleOutReplan tokens_per_member latest failedJoining = Ok plan → activeBatch (next plan) ≠ None → starts plan
| starts_scale_in selected plan : BuildScaleInStart latest selected = Ok plan → starts plan
| starts_failure confirmed plan :
    failure_candidates latest confirmed → BuildFailureStartOrReplan latest confirmed = Ok plan → starts plan.

Lemma starts_inv plan : starts plan → advanced latest (next plan).
Proof.
  intros []; [by eapply ScaleOutStart_inv|by eapply ScaleOutReplan_inv|by eapply ScaleInStart_inv|by eapply FailureStart_inv].
Qed.

Definition rebuilt (plan : TopologyPlan) : Prop :=
  ∀ rev dig snap, Create (next plan) rev dig = Ok snap →
    RebuildPlan tokens_per_member snap = Ok (MkPlan (state_ snap) (ownerChanges plan)).

(** Both kinds of scale-out: a plan of the algorithm on [cur], advanced. *)
Lemma rebuilt_scale_out cur joining built :
  Forall token_ok (flat_map tokens (members cur)) → PlanScaleOut (MkScaleOut cur joining tokens_per_member) = Ok built →
  advanced latest (next (AdvanceEpoch latest SCALE_OUT built)) → rebuilt (AdvanceEpoch latest SCALE_OUT built).
Proof.
  intros Htok Hp [Hadv _] rev dig snap (_ & -> & _)%Create_ok. set (nx := next (AdvanceEpoch latest SCALE_OUT built)) in *.
  pose proof (PlanScaleOut_spec (MkScaleOut cur joining tokens_per_member) built Htok Hp) as (_ & _ & (new & Enew & Hnew) & _).
  cbn [so_current] in Enew. destruct (plan_state nx _ Hadv eq_refl) as (mj & Hmj & Hsj). cbn [btype selected_state] in Hsj.
  assert (MembersInState (canon nx) JOINING ≠ []) as Hne.
  { apply (nonempty_elem _ (identity mj)). apply canon_in_state, elem_of_in_state. by exists mj. }
  assert (members nx = members (next built)) as Enx by done.
  destruct (replan_scale_out (canon nx) (canon_ring _ (pi_ring _ Hadv)) (canon_members_ok _ (pi_members _ Hadv)) cur joining tokens_per_member built
    Htok Hp Hne) as (plan' & E & Ec).
  - intros x i. rewrite canon_points // Enx Enew. split; intros (m & Hm & Hc & ?); exists m; (split; [|done]).
    + apply elem_of_app in Hm as [|Hm]; [done|]. destruct (Hnew m Hm) as [Es _]. unfold is_committed in Hc. by rewrite Es in Hc.
    + apply elem_of_app. by left.
  - intros x i. by rewrite canon_points // Enx.
  - unfold RebuildPlan. change (activeBatch (state_ (BuildIndexes (canon nx) rev dig))) with (Some (MkBatch SCALE_OUT (next_version latest))).
    cbn [btype selected_state]. change (state_ (BuildIndexes (canon nx) rev dig)) with (canon nx).
    rewrite (bool_decide_eq_false_2 (MembersInState (canon nx) JOINING = [])) //. cbn [negb]. rewrite bool_decide_eq_false_2 //. cbn [andb].
    change (pa_scale_out ?i) with (PlanScaleOut i). change (with_members _ (canon nx)) with (canon nx). rewrite E. cbn [res_bind]. by rewrite Ec.
Qed.

Lemma in_state_marked (s : MemberState) (sel : list MemberIdentity) st init v b i :
  (∀ m, m ∈ members st → state m = s → identity m ∈ sel) → (∀ i, i ∈ sel → ∃ m, m ∈ members st ∧ identity m = i) →
  i ∈ MembersInState (canon (MkTopology init v (marked s sel (members st)) b)) s ↔ i ∈ sel.
Proof.
  intros Hold Hsel. rewrite canon_in_state elem_of_in_state. cbn [members]. split.
  - intros (m' & (m & -> & Hm)%list_elem_of_fmap & <- & Hs). case_bool_decide as Hi; [done|]. by apply Hold.
  - intros Hi. destruct (Hsel i Hi) as (m & Hm & <-). exists (with_state s m). split; [by apply elem_of_marked_at|done].
Qed.

(** The ring of a marked topology, for a test that does not look at the members marked. *)
Lemma marked_points p q (s : MemberState) (sel : list MemberIdentity) st init v b x i :
  (∀ m, p (sort_tokens m) = p m) →
  (∀ m, m ∈ members st → p (if bool_decide (identity m ∈ sel) then with_state s m else m) = q m) →
  point p (members (canon (MkTopology init v (marked s sel (members st)) b))) x i ↔ point q (members st) x i.
Proof. intros Hp Hpq. rewrite canon_points //. cbn [members]. apply point_fmap; [apply marked_place|done]. Qed.

Lemma rebuilt_scale_in selected plan : BuildScaleInStart latest selected = Ok plan → rebuilt plan.
Proof.
  intros Hs rev dig snap (_ & -> & _)%Create_ok. destruct (ScaleInStart_inv latest Hinv Hver _ _ Hs) as [Hadv _].
  destruct (ScaleInStart_members latest Hinv _ _ Hs) as (En & Hne & Est & Hsel & Hpre & _).
  unfold BuildScaleInStart in Hs. destruct (_ && _); [|done]. apply res_bind_Ok in Hs as ([] & _ & Hs).
  apply res_bind_Ok in Hs as (built & Hb & Hpl). change (PlanScaleIn latest selected = Ok built) in Hb.
  assert (ownerChanges plan = ownerChanges built) as -> by (by injection Hpl as <-). clear Hpl. rewrite En in Hadv |- *.
  set (nx := MkTopology _ _ _ _) in *.
  assert (∀ m, m ∈ members latest → state m = LEAVING → identity m ∈ selected) as Hold.
  { intros m Hm E. pose proof (stable_member _ _ Hinv Est Hm) as Ht. unfold transitional in Ht. by rewrite E in Ht. }
  assert (∀ i, i ∈ MembersInState (canon nx) LEAVING ↔ i ∈ selected) as Hin by (intros i; by apply in_state_marked).
  assert (MembersInState (canon nx) LEAVING ≠ []) as Hne'.
  { destruct selected as [|i sel]; [done|]. apply (nonempty_elem _ i), Hin. by left. }
  destruct (replan_scale_in (canon nx) (canon_ring _ (pi_ring _ Hadv)) (canon_members_ok _ (pi_members _ Hadv)) latest selected built
    (rv_range _ (pi_ring _ Hinv)) Hb Hne') as (plan' & E & Ec).
  - intros x i. apply marked_points; [done|]. intros m Hm. case_bool_decide as Hi; [|done]. unfold is_committed. by rewrite (Hpre m Hm Hi).
  - intros x i. apply marked_points; [done|]. intros m Hm. unfold keeps, eligible.
    assert (bool_decide (addr m ∈ (list_to_set (address <$> MembersInState (canon nx) LEAVING) : gset string))
      = bool_decide (addr m ∈ (list_to_set (address <$> selected) : gset string))) as Ea.
    { apply bool_decide_ext. rewrite !elem_of_list_to_set !list_elem_of_fmap. by setoid_rewrite Hin. }
    destruct (bool_decide (identity m ∈ selected)) eqn:Hi; [|by rewrite Ea]. change (addr (with_state LEAVING m)) with (addr m). rewrite Ea.
    apply bool_decide_eq_true in Hi. by rewrite (Hpre m Hm Hi).
  - unfold RebuildPlan. change (activeBatch (state_ (BuildIndexes (canon nx) rev dig))) with (Some (MkBatch SCALE_IN (next_version latest))).
    cbn [btype selected_state]. change (state_ (BuildIndexes (canon nx) rev dig)) with (canon nx).
    rewrite (bool_decide_eq_false_2 (MembersInState (canon nx) LEAVING = [])) //. cbn [negb]. rewrite bool_decide_eq_false_2 //. cbn [andb].
    change (pa_scale_in ?a ?b) with (PlanScaleIn a b). change (with_members _ (canon nx)) with (canon nx). rewrite E. cbn [res_bind]. by rewrite Ec.
Qed.

(** The ring a failure is planned on, before and after the failed members are marked. *)
Lemma revived_points p (confirmed : list MemberIdentity) init v b x i :
  (∀ m, p (sort_tokens m) = p m) →
  (∀ m, m ∈ members latest → identity m ∈ confirmed → p (with_state ACTIVE m) = p (revive m)) →
  (∀ m, m ∈ members latest → state m = FAILED → identity m ∈ confirmed) →
  point p (revive <$> members (canon (MkTopology init v (marked FAILED confirmed (members latest)) b))) x i
  ↔ point p (revive <$> members latest) x i.
Proof.
  intros Hp Hc Hold. rewrite (point_fmap p (λ m, p (revive m)) revive _ x i revive_place (λ m _, eq_refl)).
  rewrite (point_fmap p (λ m, p (revive m)) revive (members latest) x i revive_place (λ m _, eq_refl)).
  apply marked_points.
  - intros m. unfold revive. cbn [state sort_tokens]. destruct (bool_decide _); [|done]. apply (Hp (with_state ACTIVE m)).
  - intros m Hm. case_bool_decide as Hi; [|done]. unfold revive at 1. cbn [state with_state]. rewrite bool_decide_eq_true_2 //.
    by apply (Hc m Hm Hi).
Qed.

Lemma candidate_member confirmed m :
  failure_candidates latest confirmed → m ∈ members latest → identity m ∈ confirmed → is_committed m = true ∨ state m = FAILED.
Proof.
  intros [_ Hc] Hm Hi. destruct (Hc _ Hi) as (m' & Hm' & E & Hs).
  by rewrite -(NoDup_fmap_elem addr (members latest) m m' (rv_addrs _ (pi_ring _ Hinv)) Hm Hm' ltac:(unfold addr; by rewrite E)) in Hs.
Qed.

(** An ACTIVE member is left exactly when one was not confirmed. *)
Lemma healthy_same confirmed init v b :
  failure_candidates latest confirmed →
  existsb (λ m, bool_decide (state m = ACTIVE)) (members (canon (MkTopology init v (marked FAILED confirmed (members latest)) b)))
  = existsb (λ m, bool_decide (state m = ACTIVE) && negb (bool_decide (addr m ∈ addresses_of confirmed))) (members latest).
Proof.
  intros Hcand. apply eq_true_iff_eq. rewrite !existsb_Exists canon_members_perm Exists_fmap. cbn [members]. unfold marked.
  rewrite Exists_fmap !Exists_exists.
  split; intros (m & Hm & Hs'); exists m; (split; [done|]); revert Hs'; unfold compose;
    rewrite (bool_decide_ext _ _ (candidate_iff latest Hinv confirmed m Hcand Hm)).
  - destruct (bool_decide (identity m ∈ confirmed)); cbn; [done|]. by rewrite andb_true_r.
  - intros [Ha Hi]%andb_true_iff. apply negb_true_iff in Hi. by rewrite Hi.
Qed.

Lemma rebuilt_failure confirmed plan :
  failure_candidates latest confirmed → BuildFailureStartOrReplan latest confirmed = Ok plan → rebuilt plan.
Proof.
  intros Hcand Hs rev dig snap (_ & -> & _)%Create_ok. destruct (FailureStart_inv latest Hinv Hver _ _ Hcand Hs) as [Hadv _].
  destruct (FailureStart_members latest Hinv _ _ Hcand Hs) as [En Hold]. unfold BuildFailureStartOrReplan in Hs.
  destruct (clusterHasInit latest); [|done]. destruct (forallb _ _); [|done]. rewrite En in Hadv |- *. set (nx := MkTopology _ _ _ _) in *.
  assert (∀ i, i ∈ MembersInState (canon nx) FAILED ↔ i ∈ confirmed) as Hin.
  { intros i. apply in_state_marked; [done|]. intros j Hj. destruct (proj2 Hcand j Hj) as (m & ? & ? & _). by exists m. }
  assert (MembersInState (canon nx) FAILED ≠ []) as Hne.
  { destruct confirmed as [|i sel]; [by destruct Hcand|]. apply (nonempty_elem _ i), Hin. by left. }
  unfold RebuildPlan. change (activeBatch (state_ (BuildIndexes (canon nx) rev dig))) with (Some (MkBatch FAILURE (next_version latest))).
  cbn [btype selected_state]. change (state_ (BuildIndexes (canon nx) rev dig)) with (canon nx).
  rewrite (bool_decide_eq_false_2 (MembersInState (canon nx) FAILED = [])) //. cbn [negb]. rewrite !(bool_decide_eq_true_2 (_ = _)) //. cbn [andb].
  rewrite (healthy_same confirmed _ _ _ Hcand).
  destruct (negb _); [by injection Hs as <-|]. apply res_bind_Ok in Hs as (built & Hb & Hpl).
  assert (ownerChanges plan = ownerChanges built) as -> by (by injection Hpl as <-). clear Hpl.
  change (PlanFailure (with_members (revive <$> members latest) latest) confirmed = Ok built) in Hb.
  assert (∀ A (f : MemberIdentity → A) x, x ∈ f <$> MembersInState (canon nx) FAILED ↔ x ∈ f <$> confirmed) as Hfm.
  { intros A f x. rewrite !list_elem_of_fmap. by setoid_rewrite Hin. }
  destruct (replan_failure (with_members (revive <$> members (canon nx)) (canon nx))
    (ring_valid_fmap _ _ revive_place (canon_ring _ (pi_ring _ Hadv)))
    (member_ok_fmap _ _ revive_place (canon_members_ok _ (pi_members _ Hadv))) (with_members (revive <$> members latest) latest) confirmed
    (MembersInState (canon nx) FAILED) built) as (plan' & E & Ec); [|done|done|..].
  - cbn [members with_members]. rewrite keeps_place_tokens; [apply revive_place|apply Hinv].
  - apply in_state_ids; [apply canon_ring, Hadv|apply canon_members_ok, Hadv].
  - intros i (m & Hm & <- & Hs)%elem_of_in_state. exists (revive m). unfold revive. rewrite Hs bool_decide_eq_true_2 //.
    split_and!; [|done|done]. apply list_elem_of_fmap. exists m. split; [|done]. unfold revive. by rewrite Hs.
  - apply set_eq. intros a. by rewrite !elem_of_list_to_set Hfm.
  - intros x i. apply revived_points; [done| |done]. intros m Hm Hi. unfold revive. case_bool_decide as Ef; [done|].
    destruct (candidate_member _ _ Hcand Hm Hi) as [->|]; done.
  - intros x i. apply revived_points; [done| |done]. intros m Hm Hi. unfold keeps.
    assert (addr m ∈ addresses_of confirmed) as Ha by (by apply (candidate_iff latest Hinv confirmed m Hcand Hm)).
    change (addr (with_state ACTIVE m)) with (addr m). replace (addr (revive m)) with (addr m) by (unfold revive; by destruct (bool_decide _)).
    rewrite (bool_decide_eq_true_2 _ Ha). by rewrite !andb_false_r.
  - change (pa_failure ?a ?b) with (PlanFailure a b). rewrite E. cbn [res_bind]. by rewrite Ec.
Qed.

Lemma starts_rebuilt plan : starts plan → rebuilt plan.
Proof.
  intros Hst. pose proof (starts_inv plan Hst) as Hadv. destruct Hst as [selected plan Hs|fj plan Hs Hb|selected plan Hs|confirmed plan Hc Hs].
  - unfold BuildScaleOutStart in Hs. destruct (_ && _); [|done]. apply res_bind_Ok in Hs as ([] & _ & Hs).
    apply res_bind_Ok in Hs as (built & Hp & Hs). apply res_bind_Ok in Hs as ([] & _ & [= <-]).
    eapply rebuilt_scale_out; [|exact Hp|done]. apply (filter_range latest Hinv).
  - unfold BuildScaleOutReplan in Hs. apply res_bind_Ok in Hs as ([] & _ & Hs). apply res_bind_Ok in Hs as ([] & _ & Hs).
    destruct (MembersInState _ JOINING); [by injection Hs as <-|]. apply res_bind_Ok in Hs as (built & Hp & [= <-]).
    eapply rebuilt_scale_out; [|exact Hp|done]. apply (filter_range latest Hinv).
  - by eapply rebuilt_scale_in.
  - by eapply rebuilt_failure.
Qed.

(** ** The changes of a batch pass the materializer's checks *)
Definition ends_fit (type : TopologyChangeType) (source target : MemberState) : Prop :=
  match type with
  | SCALE_OUT => IsCommittedMemberState source = true ∧ target = JOINING
  | SCALE_IN => source = LEAVING ∧ IsAdmittedScaleInMigrationTargetState target = true
  | FAILURE => source = FAILED ∧ target = ACTIVE
  end.

Definition change_fits (st : TopologyState) (type : TopologyChangeType) (c : TopologyOwnerChange) : Prop :=
  ranges_ok (UINT32_MAX + 1) (ch_ranges c) ∧ ch_ranges c ≠ []
  ∧ ∃ ms md, ch_source c = Some (identity ms) ∧ ms ∈ members st ∧ identity md = ch_target c ∧ md ∈ members st
      ∧ ends_fit type (state ms) (state md).

(** No token is in two changes. *)
Definition changes_apart (changes : list TopologyOwnerChange) : Prop :=
  NoDup (change_key <$> changes)
  ∧ ∀ c c' t, c ∈ changes → c' ∈ changes → in_ranges t (ch_ranges c) → in_ranges t (ch_ranges c') → change_key c = change_key c'.

Lemma ranges_token rs t : ranges_ok (UINT32_MAX + 1) rs → in_ranges t rs → token_ok t.
Proof. intros [Hf _] (r & Hr & Ht). rewrite Forall_forall in Hf. specialize (Hf r Hr). unfold in_range, token_ok in *. lia. Qed.

Lemma ranges_inhabited rs : ranges_ok (UINT32_MAX + 1) rs → rs ≠ [] → ∃ t, in_ranges t rs.
Proof.
  intros [Hf _] Hne. destruct rs as [|r rs]; [done|]. apply Forall_cons in Hf as [Hr _]. exists (from r), r. split; [by left|]. unfold in_range. lia.
Qed.

Lemma owner_id_unique p ms t i j : ring_valid ms → owner_id p ms t i → owner_id p ms t j → i = j.
Proof. intros Hr (m & Hm & <-) (m' & Hm' & <-). f_equal. eapply owner_unique; [apply Hr|done|done]. Qed.

(** Changes that say who owned and who owns each of their tokens. *)
Lemma apart_of own1 own2 changes :
  (∀ t i j, own1 t i → own1 t j → i = j) → (∀ t i j, own2 t i → own2 t j → i = j) →
  NoDup (change_key <$> changes) →
  (∀ c, c ∈ changes → ranges_ok (UINT32_MAX + 1) (ch_ranges c) ∧ ch_ranges c ≠ [] ∧ is_Some (ch_source c)) →
  (∀ t s d, token_ok t → (∃ c, c ∈ changes ∧ ch_source c = Some s ∧ ch_target c = d ∧ in_ranges t (ch_ranges c)) → own1 t s ∧ own2 t d) →
  changes_apart changes.
Proof.
  intros H1 H2 Hnd Hok Hx. split; [done|]. intros c c' t Hc Hc' Ht Ht'. destruct (Hok c Hc) as (Hr & _ & s & Es). destruct (Hok c' Hc') as (_ & _ & s' & Es').
  pose proof (ranges_token _ _ Hr Ht) as Htok. destruct (Hx t s (ch_target c) Htok) as [Ho1 Ho2]; [by exists c|].
  destruct (Hx t s' (ch_target c') Htok) as [Ho1' Ho2']; [by exists c'|]. unfold change_key. rewrite Es Es' (H1 t _ _ Ho1 Ho1') (H2 t _ _ Ho2 Ho2'). done.
Qed.

Definition fits_batch (plan : TopologyPlan) : Prop :=
  ∃ b, activeBatch (next plan) = Some b ∧ (∀ c, c ∈ ownerChanges plan → change_fits (next plan) (btype b) c)
    ∧ changes_apart (ownerChanges plan).

Lemma fits_scale_out cur joining built :
  Forall token_ok (flat_map tokens (members cur)) → ring_valid (members cur) →
  PlanScaleOut (MkScaleOut cur joining tokens_per_member) = Ok built → fits_batch (AdvanceEpoch latest SCALE_OUT built).
Proof.
  intros Htok Hr Hp. pose proof (PlanScaleOut_keys _ _ Hp) as Hk.
  pose proof (PlanScaleOut_spec (MkScaleOut cur joining tokens_per_member) built Htok Hp) as (_ & Hrn & (new & Enew & _) & _ & [Hok Hx] & Htgt).
  cbn [so_current] in *. eexists. split; [reflexivity|]. cbn [btype ownerChanges AdvanceEpoch]. split.
  - intros c Hc. destruct (Hok c Hc) as (Hrs & Hne & s & Es). split; [done|]. split; [done|].
    destruct (ranges_inhabited _ Hrs Hne) as [t Ht]. destruct (proj1 (Hx t s (ch_target c) (ranges_token _ _ Hrs Ht))) as (Ho & _); [by exists c|].
    destruct Ho as (ms & Hms & <-). apply owner_elem in Hms as [Hms Hcm]. destruct (Htgt c Hc) as (md & Hmd & Ed & Hsd).
    exists ms, md. split_and!; [done| |done|done|done]. cbn [next AdvanceEpoch members]. rewrite Enew. apply elem_of_app. by left.
  - eapply apart_of; [| |done|exact Hok|].
    + intros t i j. apply owner_id_unique. exact Hr.
    + intros t i j. apply owner_id_unique. exact Hrn.
    + intros t s d Ht Hc. apply Hx in Hc as (? & ? & _); done.
Qed.

Lemma fits_scale_in selected plan : BuildScaleInStart latest selected = Ok plan → fits_batch plan.
Proof.
  intros Hs. destruct (ScaleInStart_members latest Hinv _ _ Hs) as (En & _ & Est & Hsel & Hpre & (Hok & Hh & _)).
  assert (NoDup (change_key <$> ownerChanges plan)) as Hk.
  { unfold BuildScaleInStart in Hs. destruct (_ && _); [|done]. apply res_bind_Ok in Hs as ([] & _ & Hs).
    apply res_bind_Ok in Hs as (built & Hb & [= <-]). exact (PlanScaleIn_keys _ _ _ Hb). }
  clear Hs. eexists. rewrite En. split; [reflexivity|]. cbn [btype]. split.
  - intros c Hc. destruct (Hok c Hc) as (Hrs & Hne & s & Es). split; [done|]. split; [done|].
    destruct (ranges_inhabited _ Hrs Hne) as [t Ht].
    destruct (proj1 (Hh t s (ch_target c) (ranges_token _ _ Hrs Ht))) as (_ & (md & Hmd & Ed) & Hin); [by exists c|].
    destruct (Hsel s Hin) as (m & Hm & <-). apply owner_elem in Hmd as [Hmd [Hcd Hnd]%andb_true_iff].
    apply negb_true_iff, bool_decide_eq_false in Hnd. exists (with_state LEAVING m), md. split_and!; [done|by apply elem_of_marked_at|done| |].
    + apply list_elem_of_fmap. exists md. by rewrite bool_decide_eq_false_2.
    + split; [done|]. pose proof (stable_member _ _ Hinv Est Hmd) as Hst. unfold transitional, is_committed in *. by destruct (state md).
  - eapply apart_of; [| |done|exact Hok|].
    + intros t i j. apply owner_id_unique, (pi_ring _ Hinv).
    + intros t i j. apply owner_id_unique, (pi_ring _ Hinv).
    + intros t s d Ht Hc. apply Hh in Hc as (? & ? & _); done.
Qed.

Lemma fits_failure confirmed plan :
  failure_candidates latest confirmed → BuildFailureStartOrReplan latest confirmed = Ok plan → fits_batch plan.
Proof.
  intros Hcand Hs. destruct (FailureStart_members latest Hinv _ _ Hcand Hs) as [En Hold]. unfold BuildFailureStartOrReplan in Hs.
  destruct (clusterHasInit latest); [|done]. destruct (forallb _ _); [|done]. eexists. rewrite En. split; [reflexivity|]. cbn [btype].
  destruct (negb _).
  { injection Hs as <-. cbn [ownerChanges AdvanceEpoch]. split; [by intros ? ?%elem_of_nil|]. split; [constructor|]. by intros ? ? ? ?%elem_of_nil. }
  apply res_bind_Ok in Hs as (built & Hb & Hpl). assert (ownerChanges plan = ownerChanges built) as -> by (by injection Hpl as <-). clear Hpl.
  change (PlanFailure (with_members (revive <$> members latest) latest) confirmed = Ok built) in Hb.
  pose proof (ring_valid_fmap revive _ revive_place (pi_ring _ Hinv)) as Hrr. pose proof (PlanFailure_keys _ _ _ Hb) as Hk.
  apply PlanFailure_spec in Hb as (_ & _ & _ & (Hok & Hh & _)); [|apply Hrr]. cbn [members with_members] in *. split.
  - intros c Hc. destruct (Hok c Hc) as (Hrs & Hne & s & Es). split; [done|]. split; [done|].
    destruct (ranges_inhabited _ Hrs Hne) as [t Ht].
    destruct (proj1 (Hh t s (ch_target c) (ranges_token _ _ Hrs Ht))) as (_ & (md' & Hmd' & Ed) & Hin); [by exists c|].
    destruct (proj2 Hcand s Hin) as (m & Hm & <- & _).
    apply owner_elem in Hmd' as [(md & -> & Hmd)%list_elem_of_fmap [Ha%bool_decide_eq_true Hn%negb_true_iff%bool_decide_eq_false]%andb_true_iff].
    rewrite (proj1 (revive_place md)) in Hn, Ed.
    assert (state md = ACTIVE) as Hs. { unfold revive in Ha. case_bool_decide as Ef; [|done]. destruct Hn. by apply Hold. }
    exists (with_state FAILED m), md. split_and!; [done|by apply elem_of_marked_at|done| |done]. apply list_elem_of_fmap. exists md.
    by rewrite bool_decide_eq_false_2.
  - eapply apart_of; [| |done|exact Hok|].
    + intros t i j. by apply owner_id_unique.
    + intros t i j. by apply owner_id_unique.
    + intros t s d Ht Hc. apply Hh in Hc as (? & ? & _); done.
Qed.

Lemma starts_fits plan : starts plan → fits_batch plan.
Proof.
  intros [selected plan' Hs|fj plan' Hs Hb|selected plan' Hs|confirmed plan' Hc Hs].
  - unfold BuildScaleOutStart in Hs. destruct (_ && _); [|done]. apply res_bind_Ok in Hs as ([] & _ & Hs).
    apply res_bind_Ok in Hs as (built & Hp & Hs). apply res_bind_Ok in Hs as ([] & _ & [= <-]).
    eapply fits_scale_out; [| |exact Hp]; [apply (filter_range latest Hinv)|by apply removed_ring, Hinv].
  - unfold BuildScaleOutReplan in Hs. apply res_bind_Ok in Hs as ([] & _ & Hs). apply res_bind_Ok in Hs as ([] & _ & Hs).
    destruct (MembersInState _ JOINING); [by injection Hs as <-|]. apply res_bind_Ok in Hs as (built & Hp & [= <-]).
    eapply fits_scale_out; [| |exact Hp]; [apply (filter_range latest Hinv)|by apply removed_ring, Hinv].
  - by eapply fits_scale_in.
  - by eapply fits_failure.
Qed.
End Starts.

(** ** The derivation succeeds on every started batch *)

(** SHA-256 yields 32 bytes. *)
Definition digest_ok (HashSHA256 : chars → res chars) : Prop := ∀ s, ∃ d, HashSHA256 s = Ok d ∧ List.length d = 32%nat.

Lemma StronglySorted_mono {A} (P : A → Prop) (R S : relation A) l :
  StronglySorted R l → Forall P l → (∀ x y, P x → R x y → S x y) → StronglySorted S l.
Proof.
  intros Hs HP HRS. induction Hs as [|x l Hs IH Hx]; [constructor|]. apply Forall_cons in HP as [HPx HP]. constructor; [by apply IH|].
  eapply Forall_impl; [exact Hx|]. intros y. by apply HRS.
Qed.

Lemma ranges_sorted_id b rs : ranges_ok b rs → sort_ranges rs = rs ∧ disjoint_ranges None rs = Ok tt.
Proof.
  intros [Hf Hs]. split.
  - apply (StronglySorted_unique range_le); [apply sort_ranges_sorted| |apply merge_sort_Permutation].
    eapply StronglySorted_mono; [exact Hs|exact Hf|]. intros x y Hx Hxy. cbn in Hx, Hxy. unfold range_le. lia.
  - apply disjoint_ranges_ok. split_and!; [|eapply StronglySorted_mono; [exact Hs|exact Hf|]; cbn; lia|done].
    eapply Forall_impl; [exact Hf|]. cbn. lia.
Qed.

Lemma ValidateOwnerChange_complete st rev dig type c :
  NoDup (addr <$> members st) → change_fits st type c → ValidateOwnerChange (BuildIndexes (canon st) rev dig) type c = Ok tt.
Proof.
  intros Hnd (Hr & Hne & ms & md & Es & Hms & Ed & Hmd & Hends). unfold ValidateOwnerChange. rewrite Es bool_decide_eq_false_2 //. cbn [negb].
  assert (∀ m, m ∈ members st → FindMemberByAddress (BuildIndexes (canon st) rev dig) (addr m) = Ok (sort_tokens m)) as Hfind.
  { intros m Hm. apply (find_by_index (canon st) rev dig addr); [by rewrite canon_addrs|]. split; [|done].
    rewrite canon_members_perm. by apply list_elem_of_fmap_2. }
  change (address (identity ms)) with (addr ms). rewrite -Ed. change (address (identity md)) with (addr md).
  rewrite (Hfind ms Hms) (Hfind md Hmd). cbn [res_bind sort_tokens identity state].
  rewrite (bool_decide_eq_true_2 (identity ms = identity ms)) // (bool_decide_eq_true_2 (identity md = identity md)) //. cbn [andb].
  destruct (ranges_sorted_id _ _ Hr) as [-> Hdis]. unfold ends_fit in Hends. destruct type.
  - destruct Hends as [-> ->]. by rewrite bool_decide_eq_true_2.
  - destruct Hends as [-> ->]. by rewrite bool_decide_eq_true_2.
  - destruct Hends as [-> ->]. by rewrite !bool_decide_eq_true_2.
Qed.

Lemma same_members_refl ms : same_members ms ms = true.
Proof. induction ms as [|m ms IH]; [done|]. cbn [same_members]. unfold same_member. by rewrite !bool_decide_eq_true_2 //= IH. Qed.

Lemma MatchesSnapshot_self snap : MatchesSnapshot snap (state_ snap) = true.
Proof.
  unfold MatchesSnapshot. by rewrite Z.eqb_refl Bool.eqb_reflx !bool_decide_eq_true_2 // same_members_refl.
Qed.

(** A named task has the scope of the unnamed one. *)
Lemma with_id_facts x task :
  moves (with_id x task) = moves task ∧ ranges_of (with_id x task) = ranges_of task ∧ type_of (with_id x task) = type_of task
  ∧ epoch_of (with_id x task) = epoch_of task ∧ executor_of (with_id x task) = executor_of task ∧ kind_of (with_id x task) = kind_of task
  ∧ id_of (with_id x task) = x ∧ task_seed (with_id x task) = task_seed task ∧ task_prefix (with_id x task) = task_prefix task
  ∧ other_of (with_id x task) = other_of task.
Proof. by destruct task. Qed.

Lemma length_of_chars l : String.length (string_of_list_ascii l) = List.length l.
Proof. induction l as [|c l IH]; [done|]. simpl. by rewrite IH. Qed.

Section Expected.
Context (HashSHA256 : chars → res chars) (Hdig : digest_ok HashSHA256).

Definition named (task : TopologyTask) : TopologyTask := with_id (BuildTaskId HashSHA256 task) task.

Lemma DigestPrefix_length seed : List.length (DigestPrefix HashSHA256 seed) = 32%nat.
Proof.
  unfold DigestPrefix. destruct (Hdig seed) as (d & -> & Hl). rewrite length_take HexEncode_length Hl. done.
Qed.

Lemma task_id_length task : String.length (BuildTaskId HashSHA256 task) = (List.length (task_prefix task) + 32)%nat.
Proof.
  unfold BuildTaskId. by rewrite length_of_chars length_app DigestPrefix_length.
Qed.

Lemma ids_pass_ok tasks : ids_pass HashSHA256 tasks = Ok (named <$> tasks).
Proof.
  induction tasks as [|t tasks IH]; [done|]. cbn [ids_pass]. rewrite task_id_length. destruct (task_prefix_snoc t) as [p Hp].
  rewrite (proj2 (Nat.ltb_lt _ _)); [rewrite Hp length_app /=; unfold ID_HASH_CHARS; lia|]. by rewrite IH.
Qed.

Lemma named_id task : id_of (named task) = BuildTaskId HashSHA256 (named task).
Proof.
  unfold named. destruct (with_id_facts (BuildTaskId HashSHA256 task) task) as (_ & _ & _ & _ & _ & _ & -> & Hs & Hp & _).
  apply BuildTaskId_split. by rewrite Hs Hp.
Qed.

Lemma covers_named tok task : covers tok (named task) = covers tok task.
Proof. unfold covers, named. by rewrite (proj1 (proj2 (with_id_facts _ task))). Qed.

Lemma count_flat_map {A B} (p : B → bool) (f : A → list B) (g : A → nat) l :
  (∀ x, x ∈ l → count p (f x) = g x) → count p (flat_map f l) = sum_list (g <$> l).
Proof.
  induction l as [|x l IH]; intros Hg; [done|]. cbn [flat_map]. rewrite count_app fmap_cons. cbn [sum_list sum_list_with].
  rewrite Hg; [by left|]. rewrite IH; [|done]. intros y Hy. apply Hg. by right.
Qed.

(** Over changes that are apart, at most one covers a token. *)
Lemma apart_sum tok changes :
  changes_apart changes →
  sum_list ((λ c, if covered tok (ch_ranges c) then 1%nat else 0%nat) <$> changes)
  = if existsb (λ c, covered tok (ch_ranges c)) changes then 1%nat else 0%nat.
Proof.
  induction changes as [|c cs IH]; intros [Hnd Ha]; [done|]. rewrite fmap_cons. cbn [sum_list sum_list_with existsb].
  rewrite fmap_cons in Hnd. apply NoDup_cons in Hnd as [Hn Hnd].
  rewrite IH; [split; [done|]; intros c1 c2 t H1 H2; apply Ha; by right|].
  destruct (covered tok (ch_ranges c)) eqn:E; [|done]. cbn [orb].
  destruct (existsb _ cs) eqn:Ex; [|done]. apply existsb_Exists, Exists_exists in Ex as (c' & Hc' & Hcov).
  destruct Hn. apply covered_in in E, Hcov. rewrite (Ha c c' tok); [by left|by right|done|done|]. by apply list_elem_of_fmap_2.
Qed.

(** What the derived tasks of the changes [changes] of batch [b] are. *)
Definition derives (b : ActiveBatch) (changes : list TopologyOwnerChange) (tasks : list TopologyTask) : Prop :=
  (∀ tok, count (covers tok) tasks = if existsb (λ c, covered tok (ch_ranges c)) changes then 1%nat else 0%nat)
  ∧ (∀ task, task ∈ tasks →
      id_of task = BuildTaskId HashSHA256 task ∧ type_of task = btype b ∧ epoch_of task = epoch b
      ∧ Forall (λ r, finished r = false) (ranges_of task)
      ∧ ∃ c src, c ∈ changes ∧ ch_source c = Some src ∧ moves task = (address src, address (ch_target c))
          ∧ ∀ tok, covers tok task = true → covered tok (ch_ranges c) = true)
  ∧ StronglySorted id_le tasks.

Lemma elem_of_change_tasks type epoch c task :
  task ∈ change_tasks type epoch c → disjoint_ranges None (sort_ranges (ch_ranges c)) = Ok tt →
  ∃ src ch, ch_source c = Some src ∧ task = chunk_task type epoch (address src) (address (ch_target c)) ch
    ∧ StronglySorted range_le ch ∧ (∀ tok, covered tok ch = true → covered tok (ch_ranges c) = true)
    ∧ ∀ ex, ex ≠ "" → IsCanonicalRanges (fresh_ranges ex ch) ex = true.
Proof.
  unfold change_tasks, AppendTaskChunks. destruct (ch_source c) as [src|]; [|by intros ?%elem_of_nil]. cbn [app].
  intros (ch & -> & Hch)%list_elem_of_fmap Hd. destruct (chunks_spec _ (sort_ranges (ch_ranges c)) ltac:(done)) as [_ Hc].
  destruct (Hc ch Hch) as (_ & _ & a & b & E). exists src, ch. split_and!; [done..| | |].
  - apply (StronglySorted_middle _ a ch b). rewrite -E. apply sort_ranges_sorted.
  - intros tok (r & Hr & Ht)%covered_in. apply covered_in. exists r. split; [|done].
    rewrite -(elem_of_merge_sort range_le). change (r ∈ sort_ranges (ch_ranges c)). rewrite E. rewrite !elem_of_app. tauto.
  - intros ex Hex. by apply (chunk_canonical ex (ch_ranges c)).
Qed.

Lemma tasks_derived b changes :
  changes_apart changes → (∀ c, c ∈ changes → is_Some (ch_source c) ∧ disjoint_ranges None (sort_ranges (ch_ranges c)) = Ok tt) →
  derives b changes (merge_sort id_le (named <$> flat_map (change_tasks (btype b) (epoch b)) changes)).
Proof.
  intros Ha Hok. split_and!.
  - intros tok. rewrite (count_perm _ _ _ (merge_sort_Permutation _ _)) count_fmap -apart_sum //.
    rewrite (count_flat_map _ _ (λ c, if covered tok (ch_ranges c) then 1%nat else 0%nat)); [|done]. intros c Hc.
    destruct (Hok c Hc) as [[src Es] Hd]. rewrite -(change_tasks_count (btype b) (epoch b) c src tok Es Hd).
    unfold count. f_equal. apply list_filter_ext_in. intros task _. by rewrite covers_named.
  - intros task'. rewrite elem_of_merge_sort. intros (task & -> & Ht)%list_elem_of_fmap.
    apply list_elem_of_In, in_flat_map in Ht as (c & Hc%list_elem_of_In & Ht%list_elem_of_In). destruct (Hok c Hc) as [_ Hd].
    destruct (elem_of_change_tasks _ _ _ _ Ht Hd) as (src & ch & Es & -> & Hss & Hcov & _).
    destruct (chunk_task_facts (btype b) (epoch b) (address src) (address (ch_target c)) ch Hss) as (Hm & Hty & Hep & Hr & Hfin & _).
    set (task := chunk_task _ _ _ _ ch) in *. destruct (with_id_facts (BuildTaskId HashSHA256 task) task) as (Em & Er & Et & Ee & _).
    unfold named. rewrite Et Ee Er Em. split_and!; [apply named_id|done|done|done|]. exists c, src. split_and!; [done..|].
    intros tok. fold (named task). rewrite covers_named. unfold task. rewrite covers_chunk //. apply Hcov.
  - apply StronglySorted_merge_sort; apply _.
Qed.

Lemma rebuild_expected tokens_per_member latest (Hinv : plan_inv latest) (Hver : version latest < INT64_MAX) wn plan rev dig snap :
  starts tokens_per_member latest plan → Create (next plan) rev dig = Ok snap →
  ∃ b e, activeBatch (next plan) = Some b ∧ RebuildExpected HashSHA256 tokens_per_member wn snap [] false = Ok e
    ∧ ed_tasks e = merge_sort id_le (named <$> flat_map (change_tasks (btype b) (epoch b)) (ownerChanges plan))
    ∧ notifiesByAddress e = foldl (add_notify b) ∅ (ed_tasks e) ∧ notifyRecipients e = (smap_to_list (notifiesByAddress e)).*1
    ∧ (∀ c, c ∈ ownerChanges plan → change_fits (next plan) (btype b) c) ∧ changes_apart (ownerChanges plan).
Proof.
  intros Hst Hc. pose proof (starts_rebuilt _ _ Hinv Hver _ Hst _ _ _ Hc) as Hp. destruct (starts_inv _ _ Hinv Hver _ Hst) as [Hadv _].
  destruct (starts_fits _ _ Hinv _ Hst) as (b & Eb & Hfit & Hap). apply Create_ok in Hc as (_ & -> & _). exists b. eexists. split; [done|].
  unfold RebuildExpected. change (activeBatch (state_ (BuildIndexes (canon (next plan)) rev dig))) with (activeBatch (next plan)). rewrite Eb Hp.
  cbn [res_bind]. unfold BuildExpected. cbn [next ownerChanges]. rewrite MatchesSnapshot_self.
  change (activeBatch (state_ (BuildIndexes (canon (next plan)) rev dig))) with (activeBatch (next plan)). rewrite Eb.
  rewrite (proj2 (changes_loop_ok _ (btype b) (epoch b) (ownerChanges plan) [] (flat_map (change_tasks (btype b) (epoch b)) (ownerChanges plan)))).
  { split; [|done]. apply Forall_forall. intros c Hin. apply ValidateOwnerChange_complete; [apply Hadv|by apply Hfit]. }
  cbn [res_bind]. rewrite ids_pass_ok. cbn [res_bind negb]. split; [reflexivity|]. done.
Qed.

Lemma fits_disjoint st type c : change_fits st type c → is_Some (ch_source c) ∧ disjoint_ranges None (sort_ranges (ch_ranges c)) = Ok tt.
Proof.
  intros (Hr & _ & ms & _ & -> & _). split; [by eexists|]. by destruct (ranges_sorted_id _ _ Hr) as [-> ->].
Qed.

(** ** The derived tasks can be written *)
Definition kind_char (task : TopologyTask) : ascii := match task with Migrate _ => "m" | Remove _ => "d" end.

Lemma task_prefix_eq task :
  task_prefix task = [kind_char task; "-"; "e"]%char ++ KeyHelper.u64_to_string (epoch_of task) ++ ["-"%char].
Proof. by destruct task. Qed.

Lemma task_id_valid task :
  0 < epoch_of task < 2 ^ 64 → ValidateTaskContext (BuildTaskId HashSHA256 task) (kind_char task) (epoch_of task) = Ok tt.
Proof.
  intros He. unfold ValidateTaskContext, ValidateTaskId, KeyHelper.TaskKey, BuildTaskId. rewrite list_ascii_of_string_of_list_ascii task_prefix_eq.
  set (digest := DigestPrefix HashSHA256 (task_seed task)). set (digits := KeyHelper.u64_to_string (epoch_of task)).
  assert (KeyHelper.is_prefix ([kind_char task; "-"; "e"]%char ++ digits ++ ["-"%char]) (([kind_char task; "-"; "e"]%char ++ digits ++ ["-"%char]) ++ digest) = true)
    as Hpre by (apply KeyHelper.is_prefix_spec; by eexists).
  assert (KeyHelper.IsValidTaskId (([kind_char task; "-"; "e"]%char ++ digits ++ ["-"%char]) ++ digest) = true) as ->.
  { destruct (KeyHelper.digits_head 20 (epoch_of task) []) as (c & s & E & Hc); [change (10 ^ Z.of_nat 20) with 100000000000000000000; lia|].
    assert (∀ x, x ∈ digits → NetUtil.in_cls "0" "9" x = true) as Hdig'.
    { intros x. apply KeyHelper.digits_of_digits. by intros ? ?%elem_of_nil. }
    unfold KeyHelper.IsValidTaskId. assert (digits = c :: s) as Ed by done.
    rewrite (proj2 (Nat.leb_le _ _)).
    { rewrite !length_app DigestPrefix_length Ed /=. unfold KeyHelper.MIN_TASK_ID_SIZE, KeyHelper.TASK_KIND_PREFIX_SIZE, KeyHelper.TASK_DIGEST_SIZE. lia. }
    assert (KeyHelper.is_prefix (KeyHelper.lit_str "m-e") (([kind_char task; "-"; "e"]%char ++ digits ++ ["-"%char]) ++ digest)
      || KeyHelper.is_prefix (KeyHelper.lit_str "d-e") (([kind_char task; "-"; "e"]%char ++ digits ++ ["-"%char]) ++ digest) = true) as ->.
    { destruct task; apply orb_true_iff; [left|right]; apply KeyHelper.is_prefix_spec; rewrite -assoc; by eexists. }
    cbn [andb]. change (drop KeyHelper.TASK_KIND_PREFIX_SIZE _) with ((digits ++ ["-"%char]) ++ digest). rewrite -assoc. cbn [app].
    rewrite split_first_app; [intros Hin; by specialize (Hdig' _ Hin)|]. rewrite Ed Hc.
    rewrite DigestPrefix_length Nat.eqb_refl. cbn [andb]. apply andb_true_iff. split; apply forallb_forall; intros x Hx%list_elem_of_In.
    - apply Hdig'. by rewrite Ed.
    - by apply DigestPrefix_hex in Hx. }
  cbn [res_bind]. fold digits. by rewrite Hpre.
Qed.

Lemma member_address_valid st m : Forall member_ok (members st) → m ∈ members st → ValidateMemberAddress (addr m) = Ok tt.
Proof.
  intros Hok Hm. rewrite Forall_forall in Hok. destruct (Hok m Hm) as (Hne & _ & Hc & _).
  unfold ValidateMemberAddress, KeyHelper.NotifyKey, KeyHelper.ValidateAddress. unfold NetUtil.is_canonical in Hc.
  rewrite bool_decide_eq_false_2; [intros E; apply Hne, cs_inj; by rewrite E|]. by rewrite Hc.
Qed.

(** The message a task is stored as. *)
Definition written (wm : wire MigrateTaskPb) (wd : wire DeleteNodeTaskPb) (task : TopologyTask) : res chars :=
  match task with
  | Migrate t => SerializeCanonical wm (MkMigrateTaskPb (mt_targetAddress t) (EncodeRanges (sourceRanges t)))
  | Remove t => SerializeCanonical wd (MkDeleteTaskPb (dt_failedAddress t) (EncodeRanges (recoveryRanges t)))
  end.

Lemma named_writable st b changes wm wd task :
  Forall member_ok (members st) → 0 < epoch b < 2 ^ 64 → (∀ c, c ∈ changes → change_fits st (btype b) c) →
  task ∈ merge_sort id_le (named <$> flat_map (change_tasks (btype b) (epoch b)) changes) → EncodeTask wm wd task = written wm wd task.
Proof.
  intros Hok He Hfit. rewrite elem_of_merge_sort. intros (t0 & -> & Ht)%list_elem_of_fmap.
  apply list_elem_of_In, in_flat_map in Ht as (c & Hc%list_elem_of_In & Ht%list_elem_of_In).
  pose proof (Hfit c Hc) as Hf. destruct (fits_disjoint _ _ _ Hf) as [_ Hd]. destruct Hf as (_ & _ & ms & md & Es & Hms & Ed & Hmd & _).
  destruct (elem_of_change_tasks _ _ _ _ Ht Hd) as (src & ch & Es' & -> & Hss & _ & Hcan). rewrite Es in Es'. injection Es' as <-. rewrite -Ed.
  change (address (identity ms)) with (addr ms). change (address (identity md)) with (addr md).
  pose proof (member_address_valid st ms Hok Hms) as Vs. pose proof (member_address_valid st md Hok Hmd) as Vd.
  pose proof (member_address_nonempty _ Vs) as Ns%empty_str_false. pose proof (member_address_nonempty _ Vd) as Nd%empty_str_false.
  destruct (chunk_task_facts (btype b) (epoch b) (addr ms) (addr md) ch Hss) as (_ & _ & Hep & _).
  pose proof (task_id_valid (chunk_task (btype b) (epoch b) (addr ms) (addr md) ch)) as Hid. rewrite Hep in Hid. specialize (Hid He).
  unfold chunk_task in *. destruct (btype b); cbn [named with_id EncodeTask written kind_char] in *;
    unfold EncodeMigrateTask, EncodeDeleteTask; cbn [mt_taskId mt_epoch mt_targetAddress mt_executorAddress sourceRanges dt_taskId dt_epoch dt_failedAddress dt_executorAddress recoveryRanges];
    rewrite Hid Vs Vd; cbn [res_bind]; rewrite (proj2 (Z.ltb_lt _ _) (proj1 He)) Hcan //.
Qed.

(** ** Notifies *)
Lemma notifies_foldl b tasks n0 :
  (∀ a n, n0 !! a = Some n → nt_activeBatch n = Some b ∧ restartTimestampsByAddress n = ∅ ∧ taskIds n ≠ []) →
  ∀ a, foldl (add_notify b) n0 tasks !! a =
    match taskIds (default (MkNotify None [] ∅) (n0 !! a)) ++ (id_of <$> filter (λ t, executor_of t = a) tasks) with
    | [] => None
    | ids => Some (MkNotify (Some b) ids ∅)
    end.
Proof.
  revert n0. induction tasks as [|t tasks IH]; intros n0 Hn a; cbn [foldl].
  { rewrite filter_nil /= app_nil_r. destruct (n0 !! a) as [[b' ids rs]|] eqn:E; [|done]. destruct (Hn a _ E) as (Eb & Er & Hne). cbn in *. subst.
    by destruct ids. }
  rewrite IH; clear IH.
  - intros a' n. unfold add_notify. rewrite lookup_insert_Some. intros [[<- <-]|[_ Hx]]; [|by apply (Hn a')]. cbn. split_and!; [done| |].
    + destruct (n0 !! executor_of t) as [n'|] eqn:E; [|done]. by destruct (Hn _ _ E) as (_ & ? & _).
    + intros E. by apply app_eq_nil in E as [_ ?].
  - unfold add_notify. destruct (decide (executor_of t = a)) as [<-|Hne].
    + rewrite lookup_insert_eq filter_cons_True //. cbn [default taskIds fmap list_fmap]. by rewrite -assoc.
    + rewrite lookup_insert_ne // filter_cons_False //.
Qed.

Lemma unique_strings_spec l :
  StronglySorted String.le l → StronglySorted str_lt (unique_strings l) ∧ ∀ x, x ∈ unique_strings l ↔ x ∈ l.
Proof.
  induction 1 as [|x l Hs [IH1 IH2] Hf]; [by repeat constructor|].
  destruct l as [|y l]; [split; [repeat constructor|done]|]. rewrite Forall_forall in Hf. cbn [unique_strings]. case_bool_decide as Hne.
  - subst y. split; [done|]. intros z. rewrite IH2 !elem_of_cons. tauto.
  - split; [|intros z; rewrite elem_of_cons IH2; by rewrite !elem_of_cons]. constructor; [done|]. apply Forall_forall. intros z Hz%IH2.
    apply str_lt_iff. split; [by apply Hf|]. intros <-. apply Hne. apply (anti_symm String.le); [apply Hf; by left|].
    apply StronglySorted_cons in Hs as [Hf' _]. rewrite Forall_forall in Hf'. apply elem_of_cons in Hz as [->|Hz]; [done|by apply Hf'].
Qed.

Lemma binary_search_spec l a : StronglySorted str_lt l → binary_search l a = bool_decide (a ∈ l).
Proof.
  intros Hs. unfold binary_search. rewrite (partition_point_filter str_lt) //.
  { intros x y Hxy ?%bool_decide_eq_true. apply bool_decide_eq_true. by trans y. }
  pose proof (StronglySorted_filter str_lt (λ x, bool_decide (str_lt x a) = false) l Hs) as Hs'.
  assert (∀ x, x ∈ filter (λ x, bool_decide (str_lt x a) = false) l ↔ x ∈ l ∧ ¬ str_lt x a) as Hin.
  { intros x. rewrite list_elem_of_filter bool_decide_eq_false. tauto. }
  destruct (filter _ l) as [|y l'] eqn:E.
  - symmetry. apply bool_decide_eq_false_2. intros Ha. assert (a ∈ ([] : list string)) as []%elem_of_nil. apply Hin. split; [done|]. apply irreflexivity. apply _.
  - pose proof (proj1 (Hin y) ltac:(by left)) as [Hy Hn]. apply StronglySorted_cons in Hs' as [Hf _]. rewrite Forall_forall in Hf.
    destruct (decide (str_lt a y)) as [Hay|Hay].
    + rewrite bool_decide_eq_true_2 // bool_decide_eq_false_2 //. intros Ha. assert (a ∈ y :: l') as [->|Ha']%elem_of_cons.
      { apply Hin. split; [done|]. apply irreflexivity. apply _. }
      * by apply (irreflexivity str_lt y).
      * specialize (Hf a Ha'). by apply (irreflexivity str_lt a); trans y.
    + rewrite bool_decide_eq_false_2 // bool_decide_eq_true_2 //. assert (a = y) as ->; [|done].
      destruct (str_lt_trichotomy a y) as [|[|]]; done.
Qed.

Lemma restart_facts_spec memberships recipients restarts rs rts :
  restart_facts memberships recipients restarts = Ok (rs, rts) → rs = recipients ++ (mr_address <$> memberships).
Proof.
  revert recipients restarts. induction memberships as [|r ms IH]; intros recipients restarts; cbn [restart_facts].
  { intros [= -> _]. by rewrite app_nil_r. }
  destruct (negb _); [|done]. rewrite fmap_cons. case_bool_decide; [destruct (_ <? _); [|done]|]; intros ->%IH; by rewrite -assoc.
Qed.

(** What is derived for every worker from the tasks. *)
Definition notified (tasks : list TopologyTask) (b : option ActiveBatch) (a : string) : option TopologyTaskNotify :=
  match id_of <$> filter (λ t, executor_of t = a) tasks with [] => None | ids => Some (MkNotify b ids ∅) end.

Lemma smap_keys {V} (m : gmap string V) : StronglySorted str_lt (smap_to_list m).*1 ∧ ∀ a, a ∈ (smap_to_list m).*1 ↔ is_Some (m !! a).
Proof.
  split.
  - pose proof (smap_to_list_sorted m) as Hs. induction Hs as [|x l Hs IH Hx]; [constructor|]. rewrite fmap_cons. constructor; [done|].
    by apply Forall_fmap.
  - intros a. rewrite list_elem_of_fmap. split.
    + intros ([k v] & -> & Hk%elem_of_smap_to_list). by exists v.
    + intros [v Hv%elem_of_smap_to_list]. by exists (a, v).
Qed.

Lemma BuildExpected_notifies latest plan e :
  BuildExpected HashSHA256 latest plan = Ok e →
  (∀ a, notifiesByAddress e !! a = notified (ed_tasks e) (activeBatch (state_ latest)) a)
  ∧ notifyRecipients e = (smap_to_list (notifiesByAddress e)).*1.
Proof.
  unfold BuildExpected. destruct (activeBatch (state_ latest)) as [b|]; [|done]. destruct (MatchesSnapshot _ _); [|done].
  intros (built & _ & (nm & _ & [= <-])%res_bind_Ok)%res_bind_Ok. cbn [notifiesByAddress ed_tasks notifyRecipients]. split; [|done]. intros a.
  rewrite notifies_foldl; [|done]. intros a' n Hx. by rewrite lookup_empty in Hx.
Qed.
End Expected.

(** ** Properties *)

(** C16: a batch can always be planned again.  The plan is not stored with the topology; for every batch the plan
    builder starts or restarts from a valid topology, planning it again from the committed topology
    succeeds and gives exactly the owner changes it was started with, also when the members have been
    reordered by the encoding and when the states have changed to those of the batch. *)
Theorem rebuild_recovers_plan (tokens_per_member : Z) (latest : TopologyState) (Hinv : plan_inv latest) (Hver : version latest < INT64_MAX)
    (plan : TopologyPlan) (Hst : starts tokens_per_member latest plan) (rev : Z) (dig : string) (snap : TopologySnapshot)
    (Hc : Create (next plan) rev dig = Ok snap) :
  RebuildPlan tokens_per_member snap = Ok (MkPlan (state_ snap) (ownerChanges plan)).
Proof. by eapply starts_rebuilt. Qed.

Lemma rebuild_recovers_plan_witness :
  ∃ plan snap, BuildScaleOutStart 2 admitted [identity m3] = Ok plan ∧ Create (next plan) 9 digest0 = Ok snap
    ∧ RebuildPlan 2 snap = Ok (MkPlan (state_ snap) (ownerChanges plan)).
Proof.
  destruct (BuildScaleOutStart 2 admitted [identity m3]) as [plan|] eqn:E; [|by vm_compute in E].
  destruct (Create (next plan) 9 digest0) as [snap|] eqn:Ec; [|vm_compute in E; injection E as <-; by vm_compute in Ec].
  exists plan, snap. split; [done|]. split; [done|].
  exact (rebuild_recovers_plan 2 admitted admitted_inv ltac:(unfold INT64_MAX; cbn; lia) plan (starts_scale_out _ _ _ _ E) 9 digest0 snap Ec).
Defined.

(** C17: the derived tasks are exactly the work of the batch.  For every batch the plan builder starts from a valid
    topology, deriving its tasks from the committed topology succeeds; every token of an owner change is
    in exactly one task and no other token in any; each task belongs to the batch, is named by its scope,
    is unfinished and goes from the source to the target of one change; the tasks are in the order of
    their ids, and each passes every check of the codec, so that it is stored as its message. *)
Theorem derived_tasks_exact (HashSHA256 : chars → res chars) (Hdig : digest_ok HashSHA256) (tokens_per_member : Z) (wn : wire TaskNotifyPb)
    (latest : TopologyState) (Hinv : plan_inv latest) (Hver : version latest < INT64_MAX)
    (plan : TopologyPlan) (Hst : starts tokens_per_member latest plan) (rev : Z) (dig : string) (snap : TopologySnapshot)
    (Hc : Create (next plan) rev dig = Ok snap) :
  ∃ b e, activeBatch (next plan) = Some b ∧ RebuildExpected HashSHA256 tokens_per_member wn snap [] false = Ok e
    ∧ derives HashSHA256 b (ownerChanges plan) (ed_tasks e)
    ∧ ∀ wm wd task, task ∈ ed_tasks e → EncodeTask wm wd task = written wm wd task.
Proof.
  destruct (rebuild_expected HashSHA256 Hdig tokens_per_member latest Hinv Hver wn plan rev dig snap Hst Hc)
    as (b & e & Eb & He & Et & _ & _ & Hfit & Hap).
  exists b, e. split_and!; [done..| |].
  - rewrite Et. apply tasks_derived; [done|]. intros c Hin. by eapply fits_disjoint, Hfit.
  - intros wm wd task. rewrite Et. destruct (starts_inv _ _ Hinv Hver _ Hst) as [Hadv _].
    apply (named_writable HashSHA256 Hdig (next plan)); [apply Hadv| |done].
    pose proof (pi_batch _ Hadv) as Hb. pose proof (pi_version _ Hadv) as Hv. unfold batch_ok, INT64_MAX in *. rewrite Eb in Hb. lia.
Qed.

(** A stand-in for the digest. *)
Definition sample_digest (s : chars) : res chars := Ok (repeat "a"%char 32).

Lemma derived_tasks_exact_witness :
  ∃ plan snap e, BuildScaleOutStart 2 admitted [identity m3] = Ok plan ∧ Create (next plan) 9 digest0 = Ok snap
    ∧ RebuildExpected sample_digest 2 (MkWire TaskNotifyPb (λ _, None) (λ _, None)) snap [] false = Ok e
    ∧ derives sample_digest (MkBatch SCALE_OUT 6) (ownerChanges plan) (ed_tasks e).
Proof.
  destruct (BuildScaleOutStart 2 admitted [identity m3]) as [plan|] eqn:E; [|by vm_compute in E].
  destruct (Create (next plan) 9 digest0) as [snap|] eqn:Ec; [|vm_compute in E; injection E as <-; by vm_compute in Ec].
  destruct (derived_tasks_exact sample_digest (λ s, ex_intro _ _ (conj eq_refl eq_refl)) 2 (MkWire TaskNotifyPb (λ _, None) (λ _, None)) admitted
    admitted_inv ltac:(unfold INT64_MAX; cbn; lia) plan (starts_scale_out _ _ _ _ E) 9 digest0 snap Ec) as (b & e & Eb & He & Hd & _).
  exists plan, snap, e. split_and!; [done..|]. assert (b = MkBatch SCALE_OUT 6) as <-; [|done].
  vm_compute in E. injection E as <-. cbn in Eb. by injection Eb as <-.
Defined.

(** everyone concerned is notified, and of the right tasks.  The recipients are listed once, in order: the
    executors of the tasks and, when restarts are announced, the members; the notify of a worker names
    the batch and exactly the tasks it executes, in order, and is composed for the recipients only. *)
Theorem notifies_exact (HashSHA256 : chars → res chars) `{PlanningOps} (tokens_per_member : Z) (wn : wire TaskNotifyPb)
    (latest : TopologySnapshot) (memberships : list MembershipRecord) (restarts : bool) (e : ExpectedDerivedState)
    (He : RebuildExpected HashSHA256 tokens_per_member wn latest memberships restarts = Ok e) :
  StronglySorted str_lt (notifyRecipients e)
  ∧ (∀ a, a ∈ notifyRecipients e ↔
       (∃ task, task ∈ ed_tasks e ∧ executor_of task = a) ∨ (restarts = true ∧ ∃ r, r ∈ memberships ∧ mr_address r = a))
  ∧ (∀ a, notifiesByAddress e !! a = notified (ed_tasks e) (activeBatch (state_ latest)) a)
  ∧ ∀ a, BuildEncodedNotifyFor wn e a =
      if bool_decide (a ∈ notifyRecipients e)
      then ComposeNotify wn (default (MkNotify None [] ∅) (notified (ed_tasks e) (activeBatch (state_ latest)) a)) (canonicalRestartNotify e)
      else Fail K_INVALID.
Proof.
  unfold RebuildExpected in He. apply res_bind_Ok in He as (built & Hb & He).
  assert ((∀ a, notifiesByAddress built !! a = notified (ed_tasks built) (activeBatch (state_ latest)) a)
    ∧ notifyRecipients built = (smap_to_list (notifiesByAddress built)).*1) as [Hn Hrec].
  { destruct (activeBatch (state_ latest)) as [b|] eqn:Eb.
    - apply res_bind_Ok in Hb as (plan & _ & Hb). rewrite -Eb. by apply (BuildExpected_notifies HashSHA256 latest plan).
    - injection Hb as <-. cbn [notifiesByAddress ed_tasks notifyRecipients]. split; [|done]. intros a. by rewrite lookup_empty. }
  destruct (smap_keys (notifiesByAddress built)) as [Hsort Hkeys].
  assert (∀ a, is_Some (notifiesByAddress built !! a) ↔ ∃ task, task ∈ ed_tasks built ∧ executor_of task = a) as Hex.
  { intros a. rewrite Hn. unfold notified. destruct (filter (λ t, executor_of t = a) (ed_tasks built)) as [|t l] eqn:Ef.
    - split; [by intros [? ?]|]. intros (t & Ht & Ha). assert (t ∈ filter (λ t, executor_of t = a) (ed_tasks built)) as Hx by (by apply list_elem_of_filter).
      rewrite Ef in Hx. by apply elem_of_nil in Hx.
    - split; [intros _|by eexists]. exists t. assert (t ∈ filter (λ t, executor_of t = a) (ed_tasks built)) as [? ?]%list_elem_of_filter by (rewrite Ef; by left). done. }
  assert (StronglySorted str_lt (notifyRecipients e) ∧ (∀ a, a ∈ notifyRecipients e ↔
       (∃ task, task ∈ ed_tasks built ∧ executor_of task = a) ∨ (restarts = true ∧ ∃ r, r ∈ memberships ∧ mr_address r = a))
    ∧ ed_tasks e = ed_tasks built ∧ notifiesByAddress e = notifiesByAddress built) as (Hs & Hr & Et & En).
  { destruct restarts; cbn [negb] in He; [|injection He as <-; rewrite Hrec; split_and!; [done| |done|done]; intros a; rewrite Hkeys Hex; naive_solver].
    apply res_bind_Ok in He as ([rs rts] & Hrf & (bytes & _ & [= <-])%res_bind_Ok). cbn [notifyRecipients ed_tasks notifiesByAddress].
    apply restart_facts_spec in Hrf as ->. destruct (unique_strings_spec (merge_sort String.le (notifyRecipients built ++ (mr_address <$> memberships)))) as [H1 H2];
      [apply StronglySorted_merge_sort; apply _|]. split_and!; [done| |done|done]. intros a.
    rewrite H2 elem_of_merge_sort elem_of_app Hrec Hkeys Hex list_elem_of_fmap. naive_solver. }
  rewrite Et En. split_and!; [done..|]. intros a. unfold BuildEncodedNotifyFor. rewrite binary_search_spec // En Hn. by case_bool_decide.
Qed.

Lemma notifies_exact_witness :
  ∃ snap e, Create admitted 9 digest0 = Ok snap
    ∧ RebuildExpected sample_digest 2 (MkWire TaskNotifyPb (λ _, Some []) (λ _, None)) snap
        [MkMembershipRecord "10.0.0.2:8001" READY 1 "h"] true = Ok e
    ∧ "10.0.0.2:8001" ∈ notifyRecipients e.
Proof.
  destruct (Create admitted 9 digest0) as [snap|] eqn:Ec; [|by vm_compute in Ec].
  destruct (RebuildExpected sample_digest 2 (MkWire TaskNotifyPb (λ _, Some []) (λ _, None)) snap
    [MkMembershipRecord "10.0.0.2:8001" READY 1 "h"] true) as [e|] eqn:E; [|vm_compute in Ec; injection Ec as <-; by vm_compute in E].
  exists snap, e. split; [done|]. split; [done|].
  apply (notifies_exact sample_digest 2 (MkWire TaskNotifyPb (λ _, Some []) (λ _, None)) snap [MkMembershipRecord "10.0.0.2:8001" READY 1 "h"] true e E).
  right. split; [done|]. eexists. split; [by left|done].
Defined.

(** a task's id names its scope.  Tasks of the same kind, batch type, epoch, executor, other end and set of
    ranges have the same id; equal ids mean the same scope unless the digests of two different seeds
    collide: the seed is an unambiguous encoding of the scope. *)
Theorem task_id_names_scope (HashSHA256 : chars → res chars) (a b : TopologyTask) (Ha : task_fits a) (Hb : task_fits b) :
  (same_scope a b → BuildTaskId HashSHA256 a = BuildTaskId HashSHA256 b)
  ∧ (BuildTaskId HashSHA256 a = BuildTaskId HashSHA256 b →
     same_scope a b ∨ task_seed a ≠ task_seed b ∧ DigestPrefix HashSHA256 (task_seed a) = DigestPrefix HashSHA256 (task_seed b)).
Proof. by apply task_id_scope. Qed.

Lemma task_id_names_scope_witness :
  BuildTaskId sample_digest (Migrate sample_migrate) = BuildTaskId sample_digest (with_id "" (Migrate sample_migrate)).
Proof.
  apply (task_id_names_scope sample_digest (Migrate sample_migrate) (with_id "" (Migrate sample_migrate))).
  1,2: split_and!; [vm_compute; discriminate|vm_compute; reflexivity..|repeat constructor; vm_compute; congruence|vm_compute; reflexivity].
  by split_and!.
Defined.
End Materializer.
