(* ===== verification/Janitor.v ===== *)
(** * Janitor: the removal of stale derived state

    Model of [src/datasystem/cluster/control/topology_task_janitor.{h,cpp}] and of
    [src/datasystem/cluster/runtime/topology_reader.cpp]: one cleanup pass, [RunOnce], which reads the topology, derives
    the tasks and notifies that should exist, and deletes the tasks and markers of past batches and rewrites
    the notifies that differ, a page of each table at a time.

    The janitor shares the store with controllers and workers.  Its calls to the backend are numbered; before
    each of them others act on the store ([env]), and each may fail ([cf] for writes, [gf] for reads).  The
    thread, its start and stop, the pass lock and the diagnostics are not modelled. *)
From S2P Require Import Prelude NetUtil Topology HashRing PlanBuilder Replan Membership KeyHelper RepositoryCodec Repository Materializer.
From Stdlib Require Import Ascii String.
Import Topology HashRing PlanBuilder RepositoryCodec Repository Materializer.

Module Janitor.
Local Open Scope Z_scope.

Definition JANITOR_READ_TIMEOUT_MS : Z := 3000.
Definition MAX_SCAN_LIMIT : nat := Z.to_nat 8192.
Definition MAX_DELETE_BATCH : nat := Z.to_nat 8192.
Definition TASK_EPOCH_OFFSET : nat := 3.
#[global] Arguments MAX_SCAN_LIMIT : simpl never.
#[global] Arguments MAX_DELETE_BATCH : simpl never.

Record TopologyTaskJanitorOptions := MkJanitorOptions { interval : Z; scanLimit : nat; deleteBatch : nat }.

Definition IsValid (o : TopologyTaskJanitorOptions) : bool :=
  (0 <? interval o) && (0 <? scanLimit o)%nat && (scanLimit o <=? MAX_SCAN_LIMIT)%nat && (0 <? deleteBatch o)%nat
  && (deleteBatch o <=? MAX_DELETE_BATCH)%nat && (deleteBatch o <=? scanLimit o)%nat.

(** ** Epochs in keys *)

(** [std::from_chars] into a [uint64_t], when it has to consume everything. *)
Definition from_chars (digits : chars) : option Z :=
  if negb (bool_decide (digits = [])) && forallb (NetUtil.in_cls "0" "9") digits && (NetUtil.dec_val digits <? 2 ^ 64)
  then Some (NetUtil.dec_val digits) else None.

Definition nonzero (epoch : option Z) : option Z := match epoch with Some e => if e =? 0 then None else Some e | None => None end.

Definition TaskEpoch (taskId : chars) : option Z :=
  match split_first "-" (drop TASK_EPOCH_OFFSET taskId) with
  | Some ([], _) | None => None
  | Some (digits, _) => nonzero (from_chars digits)
  end.

Definition ScaleInMarkerEpoch (key : chars) : option Z :=
  match key, split_first "/" key with
  | c :: _, Some (_ :: digits, _) =>
    if (3 <=? List.length key)%nat && bool_decide (c = "e"%char) && negb (bool_decide (digits = []))
    then nonzero (from_chars digits) else None
  | _, _ => None
  end.

Definition SameNotify (left right : TopologyTaskNotify) : bool :=
  bool_decide (nt_activeBatch left = nt_activeBatch right) && bool_decide (taskIds left = taskIds right)
  && bool_decide (restartTimestampsByAddress left = restartTimestampsByAddress right).

(** ** The janitor's state *)
Record cursors := MkCursors { migrateTaskCursor_ : chars; deleteTaskCursor_ : chars; scaleInMarkerCursor_ : chars; notifyCursor_ : chars }.

(** The store, the number of the next call to the backend, and the counts of the pass. *)
Record pass := MkPass { p_store : store; p_clock : nat; p_scanned : nat; p_attempted : nat; p_changed : nat }.

Section Janitor.
Context (HashSHA256 : chars → res chars) `{PlanningOps} (tokens_per_member : Z) (keys : KeyHelper.helper)
  (wt : wire ClusterTopologyPb) (wn : wire TaskNotifyPb) (parse : chars → option Membership.MembershipValuePb).
Context (env : nat → store → store) (cf : nat → fault) (gf : nat → option StatusCode).

(** The store as the next call finds it. *)
Definition arrive (p : pass) : pass := MkPass (env (p_clock p) (p_store p)) (S (p_clock p)) (p_scanned p) (p_attempted p) (p_changed p).
Definition with_scanned (n : nat) (p : pass) : pass := MkPass (p_store p) (p_clock p) (p_scanned p + n) (p_attempted p) (p_changed p).

(** One conditional deletion or rewrite: two calls, the second only when the first has matched. *)
Definition attempt (call : fault → fault → (store → store) → store → store * bool * res unit) (p : pass) : pass * res unit :=
  let n := p_clock p in
  let '(st', done, rc) := call (cf n) (cf (S n)) (env (S n)) (env n (p_store p)) in
  (MkPass st' (n + 2) (p_scanned p) (S (p_attempted p)) (p_changed p + if is_ok rc && done then 1 else 0)%nat, rc).

Fixpoint delete_tasks (expectedIds : gset string) (deleteLimit : nat) (maximumStaleEpoch : Z) (candidates : list TaskJanitorCandidate) (p : pass)
    : pass * res unit :=
  match candidates with
  | [] => (p, Ok tt)
  | c :: rest =>
    if (deleteLimit <=? p_changed p)%nat then (p, Ok tt)
    else if bool_decide (string_of_list_ascii (tc_taskId c) ∈ expectedIds) then delete_tasks expectedIds deleteLimit maximumStaleEpoch rest p
    else if match TaskEpoch (tc_taskId c) with Some e => maximumStaleEpoch <? e | None => true end
    then delete_tasks expectedIds deleteLimit maximumStaleEpoch rest p
    else match attempt (λ f fd between st, DeleteTaskIfMatches keys f fd between st c) p with
         | (p', Ok _) => delete_tasks expectedIds deleteLimit maximumStaleEpoch rest p'
         | (p', Fail code) => (p', Fail code)
         end
  end.

(** Returns the cursor too, which the listing has moved even when a deletion fails. *)
Definition DeleteStaleTasks (kind : TopologyTaskKind) (expectedIds : gset string) (scanLimit deleteLimit : nat) (maximumStaleEpoch : Z)
    (cursor : chars) (p : pass) : chars * pass * res unit :=
  let p := arrive p in
  match ListTaskCandidatesForJanitor keys (gf (p_clock p)) (p_store p) kind scanLimit cursor with
  | Fail code => (cursor, p, Fail code)
  | Ok (cursor', candidates) =>
    let '(p', rc) := delete_tasks expectedIds deleteLimit maximumStaleEpoch candidates (with_scanned (List.length candidates) p) in
    (cursor', p', rc)
  end.

Fixpoint delete_markers (deleteLimit : nat) (maximumStaleEpoch : Z) (candidates : list ScaleInMetadataDoneJanitorCandidate) (p : pass)
    : pass * res unit :=
  match candidates with
  | [] => (p, Ok tt)
  | c :: rest =>
    if (deleteLimit <=? p_changed p)%nat then (p, Ok tt)
    else if match ScaleInMarkerEpoch (mc_key c) with Some e => maximumStaleEpoch <? e | None => true end
    then delete_markers deleteLimit maximumStaleEpoch rest p
    else match attempt (λ f fd between st, DeleteScaleInMetadataDoneIfMatches keys f fd between st c) p with
         | (p', Ok _) => delete_markers deleteLimit maximumStaleEpoch rest p'
         | (p', Fail code) => (p', Fail code)
         end
  end.

Definition DeleteStaleScaleInMetadataMarkers (scanLimit deleteLimit : nat) (maximumStaleEpoch : Z) (cursor : chars) (p : pass)
    : chars * pass * res unit :=
  let p := arrive p in
  match ListScaleInMetadataDoneCandidatesForJanitor keys (gf (p_clock p)) (p_store p) scanLimit cursor with
  | Fail code => (cursor, p, Fail code)
  | Ok (cursor', candidates) =>
    let '(p', rc) := delete_markers deleteLimit maximumStaleEpoch candidates (with_scanned (List.length candidates) p) in
    (cursor', p', rc)
  end.

(** What a worker's notify should be: what is expected, with the announced restarts of members that are
    there, while the worker is. *)
Definition replacement_for (expectedNotifies : gmap string TopologyTaskNotify) (present : gset string) (c : NotifyJanitorCandidate)
    : TopologyTaskNotify :=
  let expected := default (MkNotify None [] ∅) (expectedNotifies !! nc_address c) in
  if bool_decide (nc_address c ∈ present)
  then MkNotify (nt_activeBatch expected) (taskIds expected)
         (foldl (λ m kv, if bool_decide (kv.1 ∈ present) then <[kv.1 := kv.2]> m else m) (restartTimestampsByAddress expected)
            (smap_to_list (restartTimestampsByAddress (nc_notify c))))
  else expected.

Fixpoint reconcile (expectedNotifies : gmap string TopologyTaskNotify) (present : gset string) (deleteLimit : nat)
    (candidates : list NotifyJanitorCandidate) (p : pass) : pass * res unit :=
  match candidates with
  | [] => (p, Ok tt)
  | c :: rest =>
    if (deleteLimit <=? p_changed p)%nat then (p, Ok tt)
    else
      let replacement := replacement_for expectedNotifies present c in
      if negb (logicallyDeleted c) && SameNotify (nc_notify c) replacement then reconcile expectedNotifies present deleteLimit rest p
      else
        let c := MkNotifyCandidate (nc_address c) replacement (nc_matchToken c) (logicallyDeleted c) in
        match attempt (λ f fd between st, ReconcileNotifyIfMatches keys wn f fd between st c) p with
        | (p', Ok _) => reconcile expectedNotifies present deleteLimit rest p'
        | (p', Fail code) => (p', Fail code)
        end
  end.

Definition ReconcileNotifies (expectedNotifies : gmap string TopologyTaskNotify) (scanLimit deleteLimit : nat) (cursor : chars) (p : pass)
    : chars * pass * res unit :=
  let p := arrive p in
  match ListNotifyCandidatesForJanitor keys wn (gf (p_clock p)) (p_store p) scanLimit cursor with
  | Fail code => (cursor, p, Fail code)
  | Ok (cursor', candidates) =>
    let p := arrive (with_scanned (List.length candidates) p) in
    match ReadMemberships keys parse (gf (p_clock p)) (p_store p) with
    | Fail code => (cursor', p, Fail code)
    | Ok memberships =>
      let '(p', rc) := reconcile expectedNotifies (list_to_set (Membership.mr_address <$> memberships)) deleteLimit candidates p in
      (cursor', p', rc)
    end
  end.

(** ** The reader *)
Definition GetSha256Hex (s : chars) : res chars := let! digest := HashSHA256 s in Ok (HexEncode digest).

(** [revision] is the revision the backend reports for the value. *)
Definition Read (g : option StatusCode) (st : store) (timeoutMs revision : Z) : res TopologySnapshot :=
  check! 0 <? timeoutMs else K_INVALID in
  let! state := ReadTopology keys wt g st timeoutMs in
  let! canonical := EncodeTopology wt state in
  let! digest := GetSha256Hex canonical in
  Create state revision (string_of_list_ascii digest).

(** ** A pass *)
Definition maximum_stale_epoch (st : TopologyState) : Z :=
  match activeBatch st with Some b => u64 (epoch b - 1) | None => version st end.

Definition RunOnce (o : TopologyTaskJanitorOptions) (revision : Z) (c : cursors) (st : store) (n : nat) : cursors * pass * res unit :=
  let p := arrive (MkPass st n 0 0 0) in
  match Read (gf (p_clock p)) (p_store p) JANITOR_READ_TIMEOUT_MS revision with
  | Fail code => (c, p, Fail code)
  | Ok latest =>
    match RebuildExpected HashSHA256 tokens_per_member wn latest [] false with
    | Fail code => (c, p, Fail code)
    | Ok expected =>
      let expectedIds : gset string := list_to_set (id_of <$> ed_tasks expected) in
      if negb (match activeBatch (state_ latest) with Some b => 0 <? epoch b | None => true end) then (c, p, Fail K_INVALID)
      else
        let stale := maximum_stale_epoch (state_ latest) in
        let '(c1, p1, rc1) := DeleteStaleTasks MIGRATE expectedIds (scanLimit o) (deleteBatch o) stale (migrateTaskCursor_ c) p in
        let c := MkCursors c1 (deleteTaskCursor_ c) (scaleInMarkerCursor_ c) (notifyCursor_ c) in
        match rc1 with
        | Fail code => (c, p1, Fail code)
        | Ok _ =>
          let '(c2, p2, rc2) := DeleteStaleTasks DELETE_MEMBER expectedIds (scanLimit o) (deleteBatch o) stale (deleteTaskCursor_ c) p1 in
          let c := MkCursors c1 c2 (scaleInMarkerCursor_ c) (notifyCursor_ c) in
          match rc2 with
          | Fail code => (c, p2, Fail code)
          | Ok _ =>
            let '(c3, p3, rc3) := DeleteStaleScaleInMetadataMarkers (scanLimit o) (deleteBatch o) stale (scaleInMarkerCursor_ c) p2 in
            let c := MkCursors c1 c2 c3 (notifyCursor_ c) in
            match rc3 with
            | Fail code => (c, p3, Fail code)
            | Ok _ =>
              let '(c4, p4, rc4) := ReconcileNotifies (notifiesByAddress expected) (scanLimit o) (deleteBatch o) (notifyCursor_ c) p3 in
              (MkCursors c1 c2 c3 c4, p4, rc4)
            end
          end
        end
    end
  end.
End Janitor.

(** ** Pages *)
Section Pages.
Context (values : list (chars * chars)).
Local Open Scope nat_scope.
Let n := List.length values.

Fixpoint page_from (count index : nat) : list (chars * chars) :=
  match count with
  | O => []
  | S count' => match values !! index with Some e => e :: page_from count' ((index + 1) mod n) | None => [] end
  end.

Lemma visit_loop_ok {A} (f : chars * chars → A) count index cursor acc :
  visit_loop (λ e, Ok (f e)) values count index cursor acc
  = Ok (default cursor (fst <$> last (page_from count index)), acc ++ (f <$> page_from count index)).
Proof.
  revert index cursor acc. induction count as [|count IH]; intros index cursor acc; cbn [visit_loop page_from]; [by rewrite app_nil_r|].
  fold n. destruct (values !! index) as [e|]; [|by rewrite app_nil_r]. cbn [res_bind]. rewrite IH. rewrite fmap_cons -assoc.
  destruct (page_from count ((index + 1) mod n)) as [|e' l]; [done|]. rewrite last_cons_cons.
  destruct (last (e' :: l)) eqn:E; [done|]. by apply last_None in E.
Qed.

Lemma page_from_lookup count index v :
  index < n → page_from count index !! v = if decide (v < count) then values !! ((index + v) mod n) else None.
Proof.
  revert index v. induction count as [|count IH]; intros index v Hi; cbn [page_from]; [by destruct (decide (v < 0)); [lia|]|].
  destruct (lookup_lt_is_Some_2 values index Hi) as [e He]. rewrite He. destruct v as [|v].
  - destruct (decide (0 < S count)); [|lia]. rewrite Nat.add_0_r (Nat.mod_small index n) //.
  - cbn [lookup list_lookup]. rewrite IH; [apply Nat.mod_upper_bound; lia|]. destruct (decide (v < count)), (decide (S v < S count)); try lia; [|done].
    rewrite Nat.Div0.add_mod_idemp_l. f_equal. f_equal. lia.
Qed.

Lemma page_from_length count index : index < n → List.length (page_from count index) = count.
Proof.
  revert index. induction count as [|count IH]; intros index Hi; cbn [page_from]; [done|].
  destruct (lookup_lt_is_Some_2 values index Hi) as [e ->]. cbn [List.length]. rewrite IH; [apply Nat.mod_upper_bound; lia|done].
Qed.

(** The page after [count] entries from [index] on starts where this one ends. *)
Lemma page_last count index :
  index < n → 0 < count → ∃ e, last (page_from count index) = Some e ∧ values !! ((index + (count - 1)) mod n) = Some e.
Proof.
  intros Hi Hc. rewrite last_lookup page_from_length // page_from_lookup //. destruct (decide (Nat.pred count < count)); [|lia].
  replace (Nat.pred count) with (count - 1) by lia.
  destruct (lookup_lt_is_Some_2 values ((index + (count - 1)) mod n)) as [e He]; [apply Nat.mod_upper_bound; lia|]. by exists e.
Qed.
End Pages.

Definition key_of (e : chars * chars) : string := string_of_list_ascii e.1.

(** In a table with distinct keys, the entry after the one with the cursor's key comes next. *)
Lemma page_start_next values j e :
  StronglySorted (λ a b, str_lt (key_of a) (key_of b)) values → values !! j = Some e →
  page_start values e.1 = ((j + 1) mod List.length values)%nat.
Proof.
  intros Hs Hj. pose proof (lookup_lt_Some _ _ _ Hj) as Hlt. unfold page_start.
  assert (partition_point (λ x, negb (bool_decide (str_lt (string_of_list_ascii e.1) (string_of_list_ascii x.1)))) values = drop (S j) values) as ->.
  { revert j Hj Hlt. induction Hs as [|x l Hs IH Hx]; intros j Hj Hlt; [done|]. cbn [partition_point]. destruct j as [|j].
    - injection Hj as ->. rewrite bool_decide_eq_false_2; [apply irreflexivity; apply _|]. cbn [negb drop]. clear IH Hlt Hs. destruct l as [|y l]; [done|].
      apply Forall_cons in Hx as [Hy _]. cbn [partition_point]. unfold key_of in Hy. by rewrite bool_decide_eq_true_2.
    - rewrite bool_decide_eq_false_2; [|cbn [negb]; apply IH; [done|cbn in Hlt; lia]]. rewrite Forall_forall in Hx.
      specialize (Hx e (list_elem_of_lookup_2 l j e Hj)). intros Hlt'. unfold key_of in Hx. apply (irreflexivity str_lt (string_of_list_ascii e.1)). by trans (string_of_list_ascii x.1). }
  pose proof (length_drop values (S j)) as Hl. destruct (drop (S j) values) as [|y l] eqn:E.
  - cbn in Hl. replace (j + 1)%nat with (List.length values) by lia. by rewrite Nat.Div0.mod_same.
  - rewrite Hl. cbn [List.length] in Hl. rewrite Nat.mod_small; lia.
Qed.

Lemma page_start_bound values cursor : values ≠ [] → (page_start values cursor < List.length values)%nat.
Proof.
  intros Hne. assert (0 < List.length values)%nat by (destruct values; [done|cbn; lia]). unfold page_start.
  match goal with |- context [match ?x with _ => _ end] => destruct x as [|e l] end; [done|]. cbn [List.length]. lia.
Qed.

(** The entries of a table in the order of the pages. *)
Lemma sorted_entries values :
  NoDup values.*1 → StronglySorted (λ a b, str_lt (key_of a) (key_of b)) (merge_sort entry_le values).
Proof.
  intros Hnd. apply (StronglySorted_strict entry_le).
  - apply StronglySorted_merge_sort; [|intros a b; apply (total String.le)]. intros a b c. unfold entry_le. apply transitivity.
  - eapply NoDup_fmap_1. rewrite (merge_sort_Permutation entry_le values). exact Hnd.
  - intros a b. rewrite !elem_of_merge_sort. intros Ha Hb Hle Hne. apply str_lt_iff. split; [done|]. intros E. apply Hne.
    apply (NoDup_fmap_elem fst values); [done..|]. unfold key_of in E. apply (f_equal list_ascii_of_string) in E.
    by rewrite !list_ascii_of_string_of_list_ascii in E.
Qed.

(** [k] pages one after the other, each from the cursor the one before left. *)
Fixpoint pages (k : nat) (values : list (chars * chars)) (limit : nat) (cursor : chars) : list (chars * chars) :=
  match k with
  | O => []
  | S k' => match VisitRotatingPage values limit cursor Ok with
            | Ok (cursor', page) => page ++ pages k' values limit cursor'
            | Fail _ => []
            end
  end.

Lemma pages_cover k values limit cursor v e :
  NoDup values.*1 → values ≠ [] → (0 < limit)%nat → let sorted := merge_sort entry_le values in
  (v < k * Nat.min limit (List.length sorted))%nat → sorted !! ((page_start sorted cursor + v) mod List.length sorted)%nat = Some e →
  e ∈ pages k values limit cursor.
Proof.
  intros Hnd Hne Hl sorted. assert (sorted ≠ []) as Hs.
  { intros E. apply Hne, Permutation_nil_r. by rewrite -E /sorted merge_sort_Permutation. }
  pose proof (sorted_entries values Hnd) as Hss. fold sorted in Hss.
  assert (0 < List.length sorted)%nat as Hn by (destruct sorted; [done|cbn; lia]).
  revert cursor v. induction k as [|k IH]; intros cursor v Hv He; [lia|]. cbn [pages]. unfold VisitRotatingPage. fold sorted.
  pose proof (page_start_bound sorted cursor Hs) as Hi.
  destruct sorted as [|x l] eqn:Es; [done|]. rewrite -Es in Hn, Hv, He, Hss, Hi, IH |- *.
  rewrite (visit_loop_ok sorted (λ e, e)) list_fmap_id. cbn [app]. apply elem_of_app.
  remember (Nat.min limit (List.length sorted)) as c eqn:Ec.
  destruct (decide (v < c)%nat) as [Hvc|Hvc].
  - left. apply (list_elem_of_lookup_2 _ v). rewrite page_from_lookup //. by destruct (decide (v < c)%nat).
  - right. assert (0 < c)%nat as Hc by lia. destruct (page_last sorted c _ Hi Hc) as (e' & El & Ee'). rewrite El. cbn [fmap option_fmap option_map default].
    apply (IH _ (v - c)%nat); [lia|]. rewrite (page_start_next sorted _ e' Hss Ee'). rewrite Nat.Div0.add_mod_idemp_l -He. f_equal.
    rewrite -Nat.add_assoc Nat.Div0.add_mod_idemp_l. f_equal. lia.
Qed.

(** ** What a pass leaves alone *)
Definition fresh (epoch : option Z) (stale : Z) : Prop := match epoch with Some e => stale < e | None => True end.

(** A row no pass with this bound works on: no notify, and no task or marker of a batch up to the bound. *)
Definition spared (keys : KeyHelper.helper) (r : row) (stale : Z) : Prop :=
  (∀ kind k, r = (TaskTable keys kind, k) → fresh (TaskEpoch k) stale)
  ∧ (∀ k, r = (KeyHelper.scaleInMetadataDoneTable_ keys, k) → fresh (ScaleInMarkerEpoch k) stale)
  ∧ r.1 ≠ KeyHelper.notifyTable_ keys.

Section Spares.
Context (HashSHA256 : chars → res chars) `{PlanningOps} (tokens_per_member : Z) (keys : KeyHelper.helper)
  (wt : wire ClusterTopologyPb) (wn : wire TaskNotifyPb) (parse : chars → option Membership.MembershipValuePb).
Context (env : nat → store → store) (cf : nat → fault) (gf : nat → option StatusCode).
Context (r : row) (P : option chars → Prop) (Henv : ∀ n st, P (st !! r) → P (env n st !! r)).

Definition quiet (call : fault → fault → (store → store) → store → store * bool * res unit) : Prop :=
  ∀ f fd between st, (∀ st, P (st !! r) → P (between st !! r)) → P (st !! r) → P ((call f fd between st).1.1 !! r).

Lemma attempt_quiet call p : quiet call → P (p_store p !! r) → P (p_store (attempt env cf call p).1 !! r).
Proof.
  intros Hq Hp. unfold attempt. pose proof (Hq (cf (p_clock p)) (cf (S (p_clock p))) (env (S (p_clock p))) (env (p_clock p) (p_store p)) (Henv _) (Henv _ _ Hp)) as Hx.
  by destruct (call _ _ _ _) as [[st' d] rc].
Qed.

Lemma CAS_quiet {A} f st r' (a : A) process : r' ≠ r → (CAS f st r' a process).1.1 !! r = st !! r.
Proof.
  intros Hne. destruct (CAS_store f st r' a process) as [->|(nx & _ & ->)]; [done|]. by rewrite lookup_insert_ne.
Qed.

Lemma Delete_quiet fd st r' : r' ≠ r → (Delete fd st r').1 !! r = st !! r.
Proof. intros Hne. unfold Delete. destruct fd; [|done|done|]; cbn [fst]; by rewrite lookup_delete_ne. Qed.

Lemma DeleteIfMatches_quiet r' token prefix : r' ≠ r → quiet (λ f fd between st, DeleteIfMatches f fd between st r' token prefix).
Proof.
  intros Hne f fd between st Hb Hp. unfold DeleteIfMatches, TombstoneIfMatches.
  pose proof (CAS_quiet f st r' false (tombstone_process token prefix) Hne) as Hc. destruct (CAS _ _ _ _ _) as [[st' m] [[]|code]]; cbn [fst] in Hc |- *; [|by rewrite Hc].
  destruct m; [|by rewrite Hc]. pose proof (Delete_quiet fd (between st') r' Hne) as Hd. destruct (Delete _ _ _) as [st'' rc]. cbn [fst] in *.
  rewrite Hd. apply Hb. by rewrite Hc.
Qed.

Lemma Reconcile_quiet c : notify_row keys (nc_address c) ≠ r → quiet (λ f fd between st, ReconcileNotifyIfMatches keys wn f fd between st c).
Proof.
  intros Hne f fd between st Hb Hp. unfold ReconcileNotifyIfMatches. destruct (KeyHelper.NotifyKey _); [|done].
  destruct (if is_blank (nc_notify c) then _ else _) as [replacement|]; [|done].
  pose proof (CAS_quiet f st (notify_row keys (nc_address c)) false (reconcile_process (nc_matchToken c) replacement (bool_decide (replacement = []))) Hne) as Hc.
  destruct (CAS _ _ _ _ _) as [[st' m] [[]|code]]; cbn [fst] in Hc |- *; [|by rewrite Hc]. destruct m; cbn [negb]; [|by rewrite Hc].
  destruct (bool_decide (replacement = [])); [|cbn [fst]; by rewrite Hc].
  pose proof (Delete_quiet fd (between st') _ Hne) as Hd. destruct (Delete _ _ _) as [st'' rc]. cbn [fst] in *. rewrite Hd. apply Hb. by rewrite Hc.
Qed.

Lemma delete_tasks_quiet ids limit stale cands p :
  (∀ c, c ∈ cands → r = (TaskTable keys (tc_kind c), tc_taskId c) → fresh (TaskEpoch (tc_taskId c)) stale) →
  P (p_store p !! r) → P (p_store (delete_tasks keys env cf ids limit stale cands p).1 !! r).
Proof.
  revert p. induction cands as [|c cands IH]; intros p Hc Hp; cbn [delete_tasks]; [done|].
  destruct (_ <=? _)%nat; [done|]. assert (∀ p, P (p_store p !! r) → P (p_store (delete_tasks keys env cf ids limit stale cands p).1 !! r)) as Hrest.
  { intros p' Hp'. apply IH; [|done]. intros c' Hin. apply Hc. by right. }
  case_bool_decide; [by apply Hrest|]. destruct (match TaskEpoch (tc_taskId c) with Some _ => _ | None => _ end) eqn:Ee; [by apply Hrest|].
  assert (quiet (λ f fd between st, DeleteTaskIfMatches keys f fd between st c)) as Hq.
  { apply DeleteIfMatches_quiet. intros E. specialize (Hc c ltac:(by left) (eq_sym E)). unfold fresh in Hc.
    destruct (TaskEpoch (tc_taskId c)); [|done]. apply Z.ltb_ge in Ee. lia. }
  pose proof (attempt_quiet _ p Hq Hp) as Ha. destruct (attempt _ _ _ p) as [p' [[]|code]]; [by apply Hrest|done].
Qed.

Lemma delete_markers_quiet limit stale cands p :
  (∀ c, c ∈ cands → r = (KeyHelper.scaleInMetadataDoneTable_ keys, mc_key c) → fresh (ScaleInMarkerEpoch (mc_key c)) stale) →
  P (p_store p !! r) → P (p_store (delete_markers keys env cf limit stale cands p).1 !! r).
Proof.
  revert p. induction cands as [|c cands IH]; intros p Hc Hp; cbn [delete_markers]; [done|].
  destruct (_ <=? _)%nat; [done|]. assert (∀ p, P (p_store p !! r) → P (p_store (delete_markers keys env cf limit stale cands p).1 !! r)) as Hrest.
  { intros p' Hp'. apply IH; [|done]. intros c' Hin. apply Hc. by right. }
  destruct (match ScaleInMarkerEpoch (mc_key c) with Some _ => _ | None => _ end) eqn:Ee; [by apply Hrest|].
  assert (quiet (λ f fd between st, DeleteScaleInMetadataDoneIfMatches keys f fd between st c)) as Hq.
  { apply DeleteIfMatches_quiet. intros E. specialize (Hc c ltac:(by left) (eq_sym E)). unfold fresh in Hc.
    destruct (ScaleInMarkerEpoch (mc_key c)); [|done]. apply Z.ltb_ge in Ee. lia. }
  pose proof (attempt_quiet _ p Hq Hp) as Ha. destruct (attempt _ _ _ p) as [p' [[]|code]]; [by apply Hrest|done].
Qed.

Lemma reconcile_quiet notifies present limit cands p :
  r.1 ≠ KeyHelper.notifyTable_ keys → P (p_store p !! r) → P (p_store (reconcile keys wn env cf notifies present limit cands p).1 !! r).
Proof.
  intros Hr. revert p. induction cands as [|c cands IH]; intros p Hp; cbn [reconcile]; [done|]. destruct (_ <=? _)%nat; [done|].
  destruct (_ && _); [by apply IH|]. set (c' := MkNotifyCandidate _ _ _ _).
  assert (quiet (λ f fd between st, ReconcileNotifyIfMatches keys wn f fd between st c')) as Hq.
  { apply Reconcile_quiet. intros E. apply Hr. by rewrite -E. }
  pose proof (attempt_quiet _ p Hq Hp) as Ha. destruct (attempt _ _ _ p) as [p' [[]|code]]; [by apply IH|done].
Qed.

Lemma visit_loop_elem {A} (visit : chars * chars → res A) values count index cursor acc cursor' l x :
  visit_loop visit values count index cursor acc = Ok (cursor', l) → x ∈ l → x ∈ acc ∨ ∃ e, visit e = Ok x.
Proof.
  revert index cursor acc. induction count as [|count IH]; intros index cursor acc; cbn [visit_loop]; [intros [= _ <-]; by left|].
  destruct (values !! index) as [e|]; [|intros [= _ <-]; by left]. intros (y & Hy & Hl)%res_bind_Ok Hx.
  destruct (IH _ _ _ Hl Hx) as [[?| ->%list_elem_of_singleton]%elem_of_app|?]; [by left|right; by exists e|by right].
Qed.

Lemma tasks_kind g st kind limit cursor cursor' cands c :
  ListTaskCandidatesForJanitor keys g st kind limit cursor = Ok (cursor', cands) → c ∈ cands → tc_kind c = kind.
Proof.
  unfold ListTaskCandidatesForJanitor, VisitRotatingPage. destruct (_ <? _)%nat; [|done]. intros (values & _ & Hv)%res_bind_Ok Hc.
  destruct (merge_sort entry_le values); [injection Hv as <- <-; by apply elem_of_nil in Hc|].
  destruct (visit_loop_elem _ _ _ _ _ _ _ _ _ Hv Hc) as [?%elem_of_nil|(e & [= <-])]; done.
Qed.

Lemma arrive_quiet p : P (p_store p !! r) → P (p_store (arrive env p) !! r).
Proof. apply Henv. Qed.

Lemma DeleteStaleTasks_quiet kind ids sl dl stale cursor p :
  spared keys r stale → P (p_store p !! r) → P (p_store (DeleteStaleTasks keys env cf gf kind ids sl dl stale cursor p).1.2 !! r).
Proof.
  intros (Hs & _ & _) Hp%arrive_quiet. unfold DeleteStaleTasks.
  destruct (ListTaskCandidatesForJanitor _ _ _ _ _ _) as [[cursor' cands]|] eqn:E; [|done].
  pose proof (delete_tasks_quiet ids dl stale cands (with_scanned (List.length cands) (arrive env p))) as Hd.
  destruct (delete_tasks _ _ _ _ _ _ _ _) as [p' rc]. apply Hd; [|done]. intros c _ Hr. by eapply Hs.
Qed.

Lemma DeleteMarkers_quiet sl dl stale cursor p :
  spared keys r stale → P (p_store p !! r) → P (p_store (DeleteStaleScaleInMetadataMarkers keys env cf gf sl dl stale cursor p).1.2 !! r).
Proof.
  intros (_ & Hs & _) Hp%arrive_quiet. unfold DeleteStaleScaleInMetadataMarkers.
  destruct (ListScaleInMetadataDoneCandidatesForJanitor _ _ _ _ _) as [[cursor' cands]|] eqn:E; [|done].
  pose proof (delete_markers_quiet dl stale cands (with_scanned (List.length cands) (arrive env p))) as Hd.
  destruct (delete_markers _ _ _ _ _ _ _) as [p' rc]. apply Hd; [|done]. intros c _ Hr. by eapply Hs.
Qed.

Lemma ReconcileNotifies_quiet notifies sl dl cursor p :
  r.1 ≠ KeyHelper.notifyTable_ keys → P (p_store p !! r) →
  P (p_store (ReconcileNotifies keys wn parse env cf gf notifies sl dl cursor p).1.2 !! r).
Proof.
  intros Hr Hp%arrive_quiet. unfold ReconcileNotifies. destruct (ListNotifyCandidatesForJanitor _ _ _ _ _ _) as [[cursor' cands]|]; [|done].
  assert (P (p_store (arrive env (with_scanned (List.length cands) (arrive env p))) !! r)) as Hp' by (by apply arrive_quiet).
  destruct (ReadMemberships _ _ _ _) as [ms|]; [|done].
  pose proof (reconcile_quiet notifies (list_to_set (Membership.mr_address <$> ms)) dl cands _ Hr Hp') as Hd.
  by destruct (reconcile _ _ _ _ _ _ _ _ _) as [p' rc].
Qed.

Lemma RunOnce_quiet o revision c st n :
  (∀ snap, Read HashSHA256 keys wt (gf (S n)) (env n st) JANITOR_READ_TIMEOUT_MS revision = Ok snap →
     spared keys r (maximum_stale_epoch (state_ snap))) →
  P (st !! r) → P (p_store (RunOnce HashSHA256 tokens_per_member keys wt wn parse env cf gf o revision c st n).1.2 !! r).
Proof.
  intros Hs Hp. unfold RunOnce. cbn [arrive p_store p_clock]. pose proof (Henv n st Hp) as Hp0.
  destruct (Read _ _ _ _ _ _ _) as [latest|]; [|done]. specialize (Hs latest eq_refl).
  destruct (RebuildExpected _ _ _ _ _ _) as [e|]; [|done]. destruct (negb _); [done|].
  set (stale := maximum_stale_epoch (state_ latest)) in *.
  pose proof (DeleteStaleTasks_quiet MIGRATE (list_to_set (id_of <$> ed_tasks e)) (scanLimit o) (deleteBatch o) stale (migrateTaskCursor_ c)
    (arrive env (MkPass st n 0 0 0)) Hs Hp0) as Hp1.
  destruct (DeleteStaleTasks _ _ _ _ MIGRATE _ _ _ _ _ _) as [[c1 p1] [[]|code]]; [|done].
  pose proof (DeleteStaleTasks_quiet DELETE_MEMBER (list_to_set (id_of <$> ed_tasks e)) (scanLimit o) (deleteBatch o) stale (deleteTaskCursor_ c)
    p1 Hs Hp1) as Hp2. cbn [deleteTaskCursor_].
  destruct (DeleteStaleTasks _ _ _ _ DELETE_MEMBER _ _ _ _ _ _) as [[c2 p2] [[]|code]]; [|done].
  pose proof (DeleteMarkers_quiet (scanLimit o) (deleteBatch o) stale (scaleInMarkerCursor_ c) p2 Hs Hp2) as Hp3. cbn [scaleInMarkerCursor_].
  destruct (DeleteStaleScaleInMetadataMarkers _ _ _ _ _ _ _ _ _) as [[c3 p3] [[]|code]]; [|done].
  pose proof (ReconcileNotifies_quiet (notifiesByAddress e) (scanLimit o) (deleteBatch o) (notifyCursor_ c) p3 (proj2 (proj2 Hs)) Hp3) as Hp4.
  cbn [notifyCursor_]. by destruct (ReconcileNotifies _ _ _ _ _ _ _ _ _ _ _) as [[c4 p4] rc].
Qed.
End Spares.

(** ** The epoch in a task's key *)
Lemma TaskEpoch_context taskId kind epoch :
  ValidateTaskContext taskId kind epoch = Ok tt → 0 < epoch < 2 ^ 64 → TaskEpoch (cs taskId) = Some epoch.
Proof.
  unfold ValidateTaskContext. intros ([] & _ & Hp)%res_bind_Ok He. destruct (KeyHelper.is_prefix _ _) eqn:E; [|done]. clear Hp.
  apply KeyHelper.is_prefix_spec in E as [rest ->]. unfold TaskEpoch.
  change (drop TASK_EPOCH_OFFSET ((?a ++ ?b) ++ rest)) with (b ++ rest). rewrite -assoc. cbn [app].
  assert (∀ x, x ∈ KeyHelper.u64_to_string epoch → NetUtil.in_cls "0" "9" x = true) as Hd.
  { intros x. apply KeyHelper.digits_of_digits. by intros ? ?%elem_of_nil. }
  rewrite split_first_app; [intros Hin; by specialize (Hd _ Hin)|].
  destruct (KeyHelper.digits_head 20 epoch []) as (c & s & Ed & _); [change (10 ^ Z.of_nat 20) with 100000000000000000000; lia|].
  assert (NetUtil.dec_val (KeyHelper.u64_to_string epoch) = epoch) as Hv.
  { unfold KeyHelper.u64_to_string. rewrite KeyHelper.dec_val_digits; [change (10 ^ Z.of_nat 20) with 100000000000000000000; lia|]. cbn. lia. }
  change (NetUtil.digits_of 20 epoch []) with (KeyHelper.u64_to_string epoch) in Ed. unfold from_chars.
  destruct (KeyHelper.u64_to_string epoch) as [|c' s'] eqn:Eu; [done|]. rewrite bool_decide_eq_false_2 //.
  rewrite (proj2 (forallb_forall _ _)); [intros x Hx; apply Hd; by apply list_elem_of_In|]. rewrite Hv. cbn [negb andb].
  rewrite (proj2 (Z.ltb_lt _ _)); [lia|]. cbn [nonzero]. by rewrite (proj2 (Z.eqb_neq _ _)); [lia|].
Qed.

Lemma decoded_epoch wm wd kind taskId type epoch bytes t :
  decode_task wm wd kind taskId type epoch bytes = Ok t → epoch < 2 ^ 64 → TaskEpoch (cs taskId) = Some epoch ∧ 0 < epoch.
Proof.
  intros Hd Hlt. assert (∃ k, ValidateTaskContext taskId k epoch = Ok tt ∧ 0 < epoch) as (k & Hv & Hpos).
  { unfold decode_task in Hd. destruct kind; apply res_bind_Ok in Hd as (t' & Hd & _); [unfold DecodeMigrateTask in Hd|unfold DecodeDeleteTask in Hd];
      apply res_bind_Ok in Hd as ([] & Hv & Hd); (destruct (_ && _) eqn:Eg; [|done]); apply andb_true_iff in Eg as [?%Z.ltb_lt _]; eauto. }
  split; [|done]. eapply TaskEpoch_context; [done|lia].
Qed.

(** ** What a quiet, complete pass over the tasks removes *)
Section Quiet.
Context (keys : KeyHelper.helper).
Let env : nat → store → store := λ _ st, st.
Let cf : nat → fault := λ _, NoFault.
Let gf : nat → option StatusCode := λ _, None.

Definition stale_row (ids : gset string) (stale : Z) (k : chars) : bool :=
  negb (bool_decide (string_of_list_ascii k ∈ ids)) && match TaskEpoch k with Some e => e <=? stale | None => false end.

Lemma quiet_delete st r token prefix :
  st !! r = Some token → DeleteIfMatches NoFault NoFault (λ st, st) st r token prefix = (delete r st, true, Ok tt).
Proof.
  intros Hr. unfold DeleteIfMatches, TombstoneIfMatches, CAS, tombstone_process. rewrite Hr. cbn [default]. rewrite bool_decide_eq_true_2 //.
  cbn [Delete is_ok]. by rewrite delete_insert_eq.
Qed.

Lemma delete_tasks_exact kind ids dl stale cands p :
  NoDup (tc_taskId <$> cands) →
  (∀ c, c ∈ cands → tc_kind c = kind ∧ p_store p !! (TaskTable keys kind, tc_taskId c) = Some (tc_matchToken c)) →
  (p_changed p + List.length cands ≤ dl)%nat →
  ∃ p', delete_tasks keys env cf ids dl stale cands p = (p', Ok tt)
    ∧ ∀ r, p_store p' !! r = if bool_decide (r.1 = TaskTable keys kind ∧ r.2 ∈ tc_taskId <$> cands) && stale_row ids stale r.2 then None else p_store p !! r.
Proof.
  revert p. induction cands as [|c cands IH]; intros p Hnd Hc Hl; cbn [delete_tasks].
  { exists p. split; [done|]. intros r. rewrite bool_decide_eq_false_2 //. intros [_ ?%elem_of_nil]. done. }
  cbn [List.length] in Hl. rewrite (proj2 (Nat.leb_gt _ _)); [lia|]. rewrite fmap_cons in Hnd. apply NoDup_cons in Hnd as [Hn Hnd].
  destruct (Hc c ltac:(by left)) as [Hk Hst].
  assert (∀ c', c' ∈ cands → tc_kind c' = kind ∧ p_store p !! (TaskTable keys kind, tc_taskId c') = Some (tc_matchToken c')) as Hc' by (intros c' ?; apply Hc; by right).
  assert (stale_row ids stale (tc_taskId c) = false → ∃ p', delete_tasks keys env cf ids dl stale cands p = (p', Ok tt)
    ∧ ∀ r, p_store p' !! r = if bool_decide (r.1 = TaskTable keys kind ∧ r.2 ∈ tc_taskId <$> c :: cands) && stale_row ids stale r.2 then None
                             else p_store p !! r) as Hskip.
  { intros Hs. destruct (IH p Hnd Hc' ltac:(lia)) as (p' & E & Hp'). exists p'. split; [done|]. intros r. rewrite Hp'.
    destruct (decide (r.2 = tc_taskId c)) as [Er|Er]; [by rewrite Er Hs !andb_false_r|].
    rewrite (bool_decide_ext (r.1 = TaskTable keys kind ∧ r.2 ∈ tc_taskId <$> cands) (r.1 = TaskTable keys kind ∧ r.2 ∈ tc_taskId <$> c :: cands)) //.
    rewrite fmap_cons elem_of_cons. tauto. }
  unfold stale_row at 1 in Hskip. case_bool_decide as Hid; [by apply Hskip|]. cbn [negb andb] in Hskip.
  destruct (TaskEpoch (tc_taskId c)) as [e|] eqn:Ee; [|by apply Hskip].
  destruct (Z.ltb_spec stale e) as [Hlt|Hge]; [by apply Hskip, Z.leb_gt|]. clear Hskip.
  unfold attempt, DeleteTaskIfMatches, env, cf. rewrite Hk quiet_delete //. cbn [is_ok andb].
  edestruct (IH (MkPass (delete (TaskTable keys kind, tc_taskId c) (p_store p)) (p_clock p + 2) (p_scanned p) (S (p_attempted p)) (p_changed p + 1)) Hnd) as (p' & E & Hp').
  - intros c' Hin. destruct (Hc' c' Hin) as [? ?]. split; [done|]. cbn [p_store]. rewrite lookup_delete_ne //. intros [= E]. apply Hn. rewrite E. by apply list_elem_of_fmap_2.
  - cbn [p_changed]. lia.
  - unfold env, cf in E. rewrite E. exists p'. split; [done|]. intros r. rewrite Hp'. cbn [p_store]. clear E Hp' IH.
    destruct (decide (r = (TaskTable keys kind, tc_taskId c))) as [->|Hne].
    + rewrite lookup_delete_eq. cbn [fst snd]. rewrite (bool_decide_eq_true_2 (_ ∧ tc_taskId c ∈ tc_taskId <$> c :: cands)); [split; [done|by left]|].
      unfold stale_row. rewrite (bool_decide_eq_false_2 _ Hid) Ee (proj2 (Z.leb_le _ _) Hge). by destruct (_ && _).
    + rewrite lookup_delete_ne //.
      rewrite (bool_decide_ext (r.1 = TaskTable keys kind ∧ r.2 ∈ tc_taskId <$> cands) (r.1 = TaskTable keys kind ∧ r.2 ∈ tc_taskId <$> c :: cands)) //.
      rewrite fmap_cons elem_of_cons. split; [tauto|].
      intros [H1 [H2|?]]; [destruct Hne; destruct r; cbn in *; by subst|done].
Qed.
End Quiet.

(** A table's rows as [GetAll] lists them. *)
Lemma elem_of_GetAll st table values k v : GetAll None st table = Ok values → (k, v) ∈ values ↔ st !! (table, k) = Some v.
Proof.
  intros [= <-]. rewrite list_elem_of_fmap. split.
  - intros ([[t k'] v'] & [= -> ->] & [Ht Hx%elem_of_map_to_list]%list_elem_of_filter). cbn in Ht. by subst.
  - intros Hx. exists ((table, k), v). split; [done|]. apply list_elem_of_filter. split; [done|]. by apply elem_of_map_to_list.
Qed.

Lemma NoDup_GetAll st table values : GetAll None st table = Ok values → NoDup values.*1.
Proof.
  intros [= <-]. rewrite -list_fmap_compose. apply (NoDup_fmap_2_strong _ (filter (λ kv, kv.1.1 = table) (map_to_list st))).
  - intros [[t k] v] [[t' k'] v'] [Ht Hx%elem_of_map_to_list]%list_elem_of_filter [Ht' Hx'%elem_of_map_to_list]%list_elem_of_filter E. cbn in *. subst.
    rewrite Hx in Hx'. by injection Hx' as ->.
  - apply NoDup_filter, NoDup_map_to_list.
Qed.

Lemma mod_shift_inj i n v w : (v < n → w < n → (i + v) mod n = (i + w) mod n → v = w)%nat.
Proof.
  intros Hv Hw E. pose proof (Nat.div_mod_eq (i + v) n) as E1. pose proof (Nat.div_mod_eq (i + w) n) as E2. rewrite E in E1.
  revert E1 E2. generalize ((i + v) / n)%nat, ((i + w) / n)%nat, ((i + w) mod n)%nat. intros q1 q2 r E1 E2.
  destruct (Nat.lt_trichotomy q1 q2) as [H|[->|H]]; [exfalso|lia|exfalso].
  - assert (n * (q1 + 1) ≤ n * q2)%nat by (apply Nat.mul_le_mono_l; lia). lia.
  - assert (n * (q2 + 1) ≤ n * q1)%nat by (apply Nat.mul_le_mono_l; lia). lia.
Qed.

(** A page as long as the table lists it once. *)
Lemma full_page values limit cursor :
  NoDup values.*1 → (List.length values ≤ limit)%nat →
  ∃ cursor' page, VisitRotatingPage values limit cursor Ok = Ok (cursor', page) ∧ page ≡ₚ values.
Proof.
  intros Hnd Hl. unfold VisitRotatingPage. pose proof (merge_sort_Permutation entry_le values) as Hp.
  destruct (merge_sort entry_le values) as [|x l] eqn:E; [exists [], []; split; [done|by rewrite -Hp]|]. rewrite -E in Hp |- *.
  set (sorted := merge_sort entry_le values) in *. assert (sorted ≠ []) as Hne by (by rewrite E). clearbody sorted. clear E x l.
  rewrite (visit_loop_ok sorted (λ e, e)) list_fmap_id. cbn [app]. eexists _, _. split; [reflexivity|].
  pose proof (Permutation_length Hp) as Hlen. rewrite Nat.min_r; [lia|]. rewrite -Hp. set (n := List.length sorted).
  pose proof (page_start_bound sorted cursor Hne) as Hi. set (i := page_start sorted cursor) in *.
  assert (NoDup sorted) as Hnds by (eapply NoDup_fmap_1; rewrite Hp; exact Hnd).
  assert (NoDup (page_from sorted n i)) as Hndp.
  { apply NoDup_alt. intros v w e. rewrite !page_from_lookup //. destruct (decide (v < n)%nat), (decide (w < n)%nat); try done. intros Hv Hw.
    pose proof (NoDup_lookup _ _ _ _ Hnds Hv Hw) as Em. by eapply mod_shift_inj. }
  apply submseteq_length_Permutation; [|rewrite page_from_length //]. apply NoDup_submseteq; [done|].
  intros e [v Hv]%list_elem_of_lookup. rewrite page_from_lookup // in Hv. destruct (decide (v < n)%nat); [|done]. by apply list_elem_of_lookup_2 in Hv.
Qed.

Lemma visit_fmap {A} (f : chars * chars → A) values limit cursor cursor' page :
  VisitRotatingPage values limit cursor Ok = Ok (cursor', page) →
  VisitRotatingPage values limit cursor (λ e, Ok (f e)) = Ok (cursor', f <$> page).
Proof.
  unfold VisitRotatingPage. destruct (merge_sort entry_le values) as [|x l]; [by intros [= <- <-]|].
  rewrite (visit_loop_ok (x :: l) (λ e, e)) (visit_loop_ok (x :: l) f) list_fmap_id. by intros [= <- <-].
Qed.

(** ** Properties *)

(** C18: the janitor never harms a batch that is not over.  Through a whole pass, interleaved with any
    operations of controllers and workers before each of its calls and between the two halves of each
    deletion, and with any failures, the row of a task whose epoch is beyond the epochs that the
    topology it has read calls stale still reads, and holds the same task with at least its progress. *)
Theorem janitor_spares_live_task (HashSHA256 : chars → res chars) `{PlanningOps} (tokens_per_member : Z) (name : chars)
    (wt : wire ClusterTopologyPb) (wm : wire MigrateTaskPb) (wd : wire DeleteNodeTaskPb) (wn : wire TaskNotifyPb)
    (parse : chars → option Membership.MembershipValuePb) (Hwm : wire_ok eq wm) (Hwd : wire_ok eq wd) (Hed : empty_is_default wm wd)
    (others : nat → list (client_op * fault * option StatusCode)) (cf : nat → fault) (gf : nat → option StatusCode)
    (o : TopologyTaskJanitorOptions) (revision : Z) (c : cursors) (st : store) (n : nat)
    (kind : TopologyTaskKind) (taskId : string) (type : TopologyChangeType) (epoch : Z) (bytes : chars) (t : TopologyTask)
    (Hst : st !! task_row (KeyHelper.TopologyKeyHelper name) kind taskId = Some bytes)
    (Ht : decode_task wm wd kind taskId type epoch bytes = Ok t) (Hep : epoch < 2 ^ 64) :
  let keys := KeyHelper.TopologyKeyHelper name in
  let env := λ n st, client_run name wt wm wd st (others n) in
  (∀ snap, Read HashSHA256 keys wt (gf (S n)) (env n st) JANITOR_READ_TIMEOUT_MS revision = Ok snap →
     maximum_stale_epoch (state_ snap) < epoch) →
  ∃ bytes' t', p_store (RunOnce HashSHA256 tokens_per_member keys wt wn parse env cf gf o revision c st n).1.2 !! task_row keys kind taskId = Some bytes'
    ∧ decode_task wm wd kind taskId type epoch bytes' = Ok t' ∧ task_advances t t'.
Proof.
  intros keys env Hread. destruct (decoded_epoch _ _ _ _ _ _ _ _ Ht Hep) as [Hte _].
  apply (RunOnce_quiet HashSHA256 tokens_per_member keys wt wn parse env cf gf (task_row keys kind taskId)
    (λ v, ∃ bytes' t', v = Some bytes' ∧ decode_task wm wd kind taskId type epoch bytes' = Ok t' ∧ task_advances t t')).
  - intros n' st' (b' & t' & Hb' & Hd' & Ha'). destruct (progress_spec name wt wm wd Hwm Hwd Hed kind taskId type epoch st' (others n') b' t' Hb' Hd')
      as (b2 & t2 & H1 & H2 & H3). exists b2, t2. split_and!; [done..|]. by eapply task_advances_trans.
  - intros snap Hs. specialize (Hread snap Hs). pose proof (tables_distinct name) as Hd. fold keys in Hd. repeat rewrite ?NoDup_cons ?elem_of_cons in Hd. split_and!.
    + intros kind' k [= _ <-]. by rewrite Hte.
    + intros k E. exfalso. injection E as E _. unfold TaskTable in E. destruct kind; tauto.
    + unfold task_row, TaskTable. cbn [fst]. intros E. destruct kind; tauto.
  - exists bytes, t. split_and!; [done..|]. apply task_advances_refl.
Qed.

(** A store with a topology at version 5 and a task of epoch 7. *)
Definition live_wt : wire ClusterTopologyPb := one_wire (topology_pb (canon stable)) ["t"%char].
Definition live_store : store := <[topology_row (KeyHelper.TopologyKeyHelper []) := ["t"%char]]> sample_store.
Definition live_others (n : nat) : list (client_op * fault * option StatusCode) :=
  match n with O => [] | _ => [(OMark sample_fence, NoFault, None)] end.

Lemma live_read snap : Read sample_digest (KeyHelper.TopologyKeyHelper []) live_wt None live_store 3000 9 = Ok snap → version (state_ snap) = 5 ∧ activeBatch (state_ snap) = None.
Proof.
  unfold Read, ReadTopology, Get, live_store. rewrite lookup_insert_eq. cbn [res_bind]. intros Hr. destruct (0 <? 3000); [|done].
  assert (DecodeTopology live_wt ["t"%char] = Ok (canon stable)) as E by (vm_compute; reflexivity). cbn [res_bind] in Hr. rewrite E in Hr. cbn [res_bind] in Hr.
  apply res_bind_Ok in Hr as (c1 & _ & Hr). apply res_bind_Ok in Hr as (d1 & _ & (_ & -> & _)%Create_ok). done.
Qed.

Lemma janitor_spares_live_task_witness :
  let keys := KeyHelper.TopologyKeyHelper [] in
  ∃ bytes' t', p_store (RunOnce sample_digest 2 keys live_wt (MkWire TaskNotifyPb (λ _, None) (λ _, None)) (λ _, None)
      (λ n st, client_run [] live_wt sample_wm sample_wd st (live_others n)) (λ _, NoFault) (λ _, None)
      (MkJanitorOptions 60 8 8) 9 (MkCursors [] [] [] []) live_store 0).1.2 !! sample_row = Some bytes'
    ∧ decode_task sample_wm sample_wd MIGRATE (mt_taskId sample_migrate) SCALE_OUT 7 bytes' = Ok t' ∧ task_advances (Migrate sample_migrate) t'.
Proof.
  apply (janitor_spares_live_task sample_digest 2 [] live_wt sample_wm sample_wd (MkWire TaskNotifyPb (λ _, None) (λ _, None)) (λ _, None)
    (two_wire_ok _ _) (two_wire_ok _ _)) with (bytes := ["x"%char]).
  - split; intros pb E; by vm_compute in E.
  - unfold live_store, sample_store. rewrite lookup_insert_ne; [by vm_compute|]. by rewrite lookup_singleton_eq.
  - vm_compute. reflexivity.
  - lia.
  - intros snap Hs. destruct (live_read snap Hs) as [Hv Hb]. unfold maximum_stale_epoch. rewrite Hb Hv. lia.
Defined.

(** a pass removes exactly the stale tasks.  Left alone, without failures, with a page and a deletion
    limit as large as the table, a pass over the tasks of a kind succeeds, deletes every task that is
    not expected and whose epoch is up to the bound, and leaves every other row of the store as it is. *)
Theorem stale_tasks_removed_exactly (keys : KeyHelper.helper) (kind : TopologyTaskKind) (ids : gset string) (sl dl : nat) (stale : Z)
    (cursor : chars) (p : pass) (values : list (chars * chars)) (Hget : GetAll None (p_store p) (TaskTable keys kind) = Ok values)
    (Hsl : (0 < sl ∧ List.length values ≤ sl)%nat) (Hdl : (p_changed p + List.length values ≤ dl)%nat) :
  ∃ cursor' p', DeleteStaleTasks keys (λ _ st, st) (λ _, NoFault) (λ _, None) kind ids sl dl stale cursor p = (cursor', p', Ok tt)
    ∧ ∀ r, p_store p' !! r = if bool_decide (r.1 = TaskTable keys kind) && stale_row ids stale r.2 then None else p_store p !! r.
Proof.
  pose proof (NoDup_GetAll _ _ _ Hget) as Hnd. destruct (full_page values sl cursor Hnd (proj2 Hsl)) as (cursor' & page & Hv & Hp).
  unfold DeleteStaleTasks, ListTaskCandidatesForJanitor. cbn [arrive p_store p_clock]. rewrite (proj2 (Nat.ltb_lt _ _)); [lia|].
  rewrite Hget. cbn [res_bind]. rewrite (visit_fmap (λ e, MkTaskCandidate kind e.1 e.2) _ _ _ _ _ Hv).
  set (cands := (λ e, MkTaskCandidate kind e.1 e.2) <$> page).
  assert (tc_taskId <$> cands = page.*1) as Eids by (unfold cands; by rewrite -list_fmap_compose).
  destruct (delete_tasks_exact keys kind ids dl stale cands (with_scanned (List.length cands) (arrive (λ _ st, st) p))) as (p' & E & Hp').
  - rewrite Eids Hp. done.
  - intros c (e & -> & He)%list_elem_of_fmap. split; [done|]. cbn. apply (elem_of_GetAll _ _ _ _ _ Hget). rewrite -Hp. by destruct e.
  - cbn [p_changed with_scanned arrive]. unfold cands. rewrite length_fmap (Permutation_length Hp). lia.
  - rewrite E. exists cursor', p'. split; [done|]. intros r. rewrite Hp' Eids. cbn [with_scanned arrive p_store].
    destruct (decide (r.1 = TaskTable keys kind)) as [Er|Er]; [|by rewrite (bool_decide_eq_false_2 (r.1 = TaskTable keys kind)) // bool_decide_eq_false_2; [tauto|]].
    rewrite (bool_decide_eq_true_2 (r.1 = _)) //. destruct (p_store p !! r) as [v|] eqn:Ev; [|by destruct (_ && _), (_ && _)].
    rewrite bool_decide_eq_true_2 //. split; [done|]. apply list_elem_of_fmap. exists (r.2, v). split; [done|]. rewrite Hp.
    apply (elem_of_GetAll _ _ _ _ _ Hget). rewrite -Er. by destruct r.
Qed.

Lemma stale_tasks_removed_exactly_witness :
  ∃ cursor' p', DeleteStaleTasks (KeyHelper.TopologyKeyHelper []) (λ _ st, st) (λ _, NoFault) (λ _, None) MIGRATE ∅ 8 8 7 []
      (MkPass sample_store 0 0 0 0) = (cursor', p', Ok tt) ∧ p_store p' !! sample_row = None.
Proof.
  destruct (stale_tasks_removed_exactly (KeyHelper.TopologyKeyHelper []) MIGRATE ∅ 8 8 7 [] (MkPass sample_store 0 0 0 0)
    [(list_ascii_of_string (mt_taskId sample_migrate), ["x"%char])]) as (cursor' & p' & E & Hp').
  - cbn [p_store]. unfold sample_store, GetAll. rewrite map_to_list_singleton. reflexivity.
  - cbn. lia.
  - cbn. lia.
  - exists cursor', p'. split; [exact E|]. rewrite Hp'. vm_compute. reflexivity.
Defined.

(** the rotation starves no row.  On a table that does not change, enough pages in a row, each from the
    cursor the one before left, visit every row, wherever the first one starts. *)
Theorem rotation_visits_all (values : list (chars * chars)) (limit k : nat) (cursor : chars) (Hnd : NoDup values.*1)
    (Hl : (0 < limit)%nat) (Hk : (List.length values ≤ k * limit)%nat) (e : chars * chars) (He : e ∈ values) :
  e ∈ pages k values limit cursor.
Proof.
  assert (values ≠ []) as Hne by (intros ->; by apply elem_of_nil in He). set (sorted := merge_sort entry_le values).
  assert (e ∈ sorted) as [j Hj]%list_elem_of_lookup by (unfold sorted; by rewrite elem_of_merge_sort).
  pose proof (lookup_lt_Some _ _ _ Hj) as Hlt. assert (List.length sorted = List.length values) as El by apply length_merge_sort.
  set (i := page_start sorted cursor). assert (i < List.length sorted)%nat as Hi.
  { apply page_start_bound. intros E. rewrite E in Hlt. cbn in Hlt. lia. }
  assert ((i + (if decide (i ≤ j)%nat then j - i else j + List.length sorted - i)) mod List.length sorted = j)%nat as Hm.
  { destruct (decide (i ≤ j)%nat); [rewrite Nat.mod_small; lia|]. replace (i + (j + List.length sorted - i))%nat with (j + 1 * List.length sorted)%nat by lia.
    rewrite Nat.Div0.mod_add Nat.mod_small; lia. }
  apply (pages_cover k values limit cursor (if decide (i ≤ j)%nat then j - i else j + List.length sorted - i)%nat e Hnd Hne Hl); fold sorted; [|by fold i; rewrite Hm].
  assert ((if decide (i ≤ j)%nat then j - i else j + List.length sorted - i) < List.length sorted)%nat as Hv by (destruct (decide _); lia).
  destruct (Nat.le_ge_cases limit (List.length sorted)) as [H|H]; [rewrite Nat.min_l //; lia|rewrite Nat.min_r //].
  assert (1 ≤ k)%nat; [|nia]. destruct k; [cbn in Hk; lia|lia].
Qed.

Lemma rotation_visits_all_witness :
  (["b"], ["2"])%char ∈ pages 3 [(["a"], ["1"]); (["b"], ["2"]); (["c"], ["3"])]%char 1 ["b"]%char.
Proof.
  apply (rotation_visits_all [(["a"], ["1"]); (["b"], ["2"]); (["c"], ["3"])]%char 1 3 ["b"]%char).
  - apply (bool_decide_unpack _). vm_compute. exact I.
  - lia.
  - cbn. lia.
  - right. left.
Defined.
End Janitor.
