(* ===== verification/SnapshotState.v ===== *)
(** * SnapshotState: publication of topology snapshots inside a worker

    Model of [src/datasystem/cluster/runtime/topology_snapshot_state.{h,cpp}]: the holder of the current snapshot
    from which all routing reads, with its thread-local read cache, and the evidence of finished hand-overs during
    a scale-out.

    An operation that holds the publication mutex is one step, except that readers do not take the mutex: [Load]
    reads the generation and the pointer in two steps, and a publication stores the pointer and bumps the
    generation in two steps.  These are the [action]s of the interleaved runs below. *)
From S2P Require Import Prelude NetUtil Topology HashRing Membership KeyHelper RepositoryCodec Repository Materializer.
Import Topology HashRing RepositoryCodec Repository Materializer.

Module SnapshotState.
Local Open Scope Z_scope.

Inductive SnapshotUpdateOutcome := PUBLISHED | IDEMPOTENT | VERSION_GAP | PUBLISH_CONFLICT | VERSION_ROLLBACK.

Record ScaleOutHandoffCompletion := MkCompletion { sc_batchEpoch : Z; sc_ranges : list TokenRange }.

(** The shared state of a [TopologySnapshotState]. *)
Record snapshots := MkSnapshots {
  current_ : option TopologySnapshot;
  scaleOutHandoffCompletion_ : option ScaleOutHandoffCompletion;
  publicationGeneration_ : Z }.

Definition TopologySnapshotState : snapshots := MkSnapshots None None 0.

Definition Version (snap : TopologySnapshot) : Z := version (state_ snap).
Definition GetActiveBatch (snap : TopologySnapshot) : option ActiveBatch := activeBatch (state_ snap).

(** ** Publication *)
Definition ResetScaleOutHandoffIfBatchChanged (snap : TopologySnapshot) (completion : option ScaleOutHandoffCompletion)
    : option ScaleOutHandoffCompletion :=
  let stillCurrent := match GetActiveBatch snap, completion with
    | Some b, Some c => bool_decide (btype b = SCALE_OUT) && (sc_batchEpoch c =? epoch b)
    | _, _ => false
    end in
  if stillCurrent then completion else None.

(** [atomic_store(&current_, snapshot)] with the reset before it. *)
Definition store_current (s : snapshots) (snap : TopologySnapshot) : snapshots :=
  MkSnapshots (Some snap) (ResetScaleOutHandoffIfBatchChanged snap (scaleOutHandoffCompletion_ s)) (publicationGeneration_ s).

(** [publicationGeneration_.fetch_add(1)]. *)
Definition bump (s : snapshots) : snapshots :=
  MkSnapshots (current_ s) (scaleOutHandoffCompletion_ s) (u64 (publicationGeneration_ s + 1)).

Definition publish_outcome (current : option TopologySnapshot) (snap : TopologySnapshot) : SnapshotUpdateOutcome :=
  match current with
  | None => PUBLISHED
  | Some cur =>
    if Version snap =? u64 (Version cur + 1) then PUBLISHED
    else if Version snap <? Version cur then VERSION_ROLLBACK
    else if Version cur <? Version snap then VERSION_GAP
    else if bool_decide (canonicalDigest_ snap = canonicalDigest_ cur) then IDEMPOTENT
    else PUBLISH_CONFLICT
  end.

(** The outcome is left alone for a null snapshot. *)
Definition Publish (s : snapshots) (snapshot : option TopologySnapshot) : snapshots * option SnapshotUpdateOutcome * res unit :=
  match snapshot with
  | None => (s, None, Fail K_INVALID)
  | Some snap =>
    match publish_outcome (current_ s) snap with
    | PUBLISHED => (bump (store_current s snap), Some PUBLISHED, Ok tt)
    | IDEMPOTENT => (s, Some IDEMPOTENT, Ok tt)
    | o => (s, Some o, Fail K_INVALID)
    end
  end.

Definition PublishAfterFullRebuild (s : snapshots) (snapshot : option TopologySnapshot) : snapshots * res unit :=
  match snapshot with
  | None => (s, Fail K_INVALID)
  | Some snap =>
    if match current_ s with None => true | Some cur => Version cur <? Version snap end
    then (bump (store_current s snap), Ok tt)
    else (s, Fail K_INVALID)
  end.

Definition clear_current (s : snapshots) : snapshots := MkSnapshots None None (publicationGeneration_ s).
Definition Clear (s : snapshots) : snapshots := bump (clear_current s).

(** ** Reading *)
Record ThreadSnapshotCache := MkCache {
  ca_owner : Z; ca_instanceId : Z; ca_generation : Z; ca_snapshot : option TopologySnapshot }.
Definition no_cache : ThreadSnapshotCache := MkCache 0 0 0 None.

(** The rest of [Load] once it has read [generation]; [alive] tells whether [weak_ptr::lock] finds the cached object
    still there, which [this] and [instanceId_] identify. *)
Definition Load_rest (this instanceId_ generation : Z) (alive : bool) (s : snapshots) (cache : ThreadSnapshotCache)
    : ThreadSnapshotCache * res TopologySnapshot :=
  let hit := (ca_owner cache =? this) && (ca_instanceId cache =? instanceId_) && (ca_generation cache =? generation) in
  match (if hit && alive then ca_snapshot cache else None) with
  | Some current => (cache, Ok current)
  | None => (MkCache this instanceId_ generation (current_ s),
             match current_ s with Some current => Ok current | None => Fail K_NOT_READY end)
  end.

(** [Load] without interference. *)
Definition Load (this instanceId_ : Z) (alive : bool) (s : snapshots) (cache : ThreadSnapshotCache)
    : ThreadSnapshotCache * res TopologySnapshot :=
  Load_rest this instanceId_ (publicationGeneration_ s) alive s cache.

Inductive wait_status := WAIT_OK | WAIT_ETIMEDOUT | WAIT_ERROR.

Definition version_ready (minimumVersion : Z) (current : option TopologySnapshot) : bool :=
  match current with Some snap => minimumVersion <=? Version snap | None => false end.

(** The waiting loop; each round is the clock before the wait, how the wait ended and the snapshot found after it.
    [None]: the rounds are used up while it still waits. *)
Fixpoint wait_loop (minimumVersion deadline : Z) (current : option TopologySnapshot)
    (rounds : list (Z * wait_status * option TopologySnapshot)) : option (res TopologySnapshot) :=
  match (if version_ready minimumVersion current then current else None), rounds with
  | Some snap, _ => Some (Ok snap)
  | None, [] => None
  | None, (now, waitStatus, current') :: rounds' =>
    if deadline <=? now then Some (Fail K_TRY_AGAIN)
    else match waitStatus with
      | WAIT_ETIMEDOUT => if version_ready minimumVersion current' then wait_loop minimumVersion deadline current' rounds'
                          else Some (Fail K_TRY_AGAIN)
      | WAIT_OK => wait_loop minimumVersion deadline current' rounds'
      | WAIT_ERROR => Some (Fail K_RUNTIME_ERROR)
      end
  end.

Definition WaitForVersion (minimumVersion deadline : Z) (s : snapshots) (rounds : list (Z * wait_status * option TopologySnapshot))
    : option (res TopologySnapshot) :=
  if 0 <? minimumVersion then wait_loop minimumVersion deadline (current_ s) rounds else Some (Fail K_INVALID).

(** ** Hand-over evidence *)

(** The loop of [MergeRanges]; [merged] is kept in reverse, its head is [merged.back()]. *)
Definition merge_step (merged : list TokenRange) (r : TokenRange) : list TokenRange :=
  match merged with
  | back :: merged' =>
    if negb (to back =? UINT32_MAX) && (u32 (to back + 1) <? from r) then r :: merged
    else MkRange (from back) (to back `max` to r) :: merged'
  | [] => [r]
  end.

Definition MergeRanges (ranges : list TokenRange) : list TokenRange :=
  reverse (foldl merge_step [] (sort_ranges ranges)).

Definition records (s : snapshots) (fence : TopologyExecutionFence) : bool :=
  bool_decide (ef_batchType fence = SCALE_OUT) && bool_decide (ef_phase fence = PHASE_SCALE_OUT)
  && negb (bool_decide (ef_ranges fence = []))
  && match current_ s ≫= GetActiveBatch with
     | Some b => bool_decide (btype b = SCALE_OUT) && (epoch b =? ef_batchEpoch fence)
     | None => false
     end.

Definition RecordScaleOutHandoffCompletion (s : snapshots) (fence : TopologyExecutionFence) : snapshots :=
  if records s fence then
    let ranges := match scaleOutHandoffCompletion_ s with
      | Some previous => if sc_batchEpoch previous =? ef_batchEpoch fence then ef_ranges fence ++ sc_ranges previous else ef_ranges fence
      | None => ef_ranges fence
      end in
    MkSnapshots (current_ s) (Some (MkCompletion (ef_batchEpoch fence) (MergeRanges ranges))) (publicationGeneration_ s)
  else s.

(** [lower_bound] by the end of the ranges, then a test of the start. *)
Definition contains (ranges : list TokenRange) (token : Z) : bool :=
  match partition_point (λ r, to r <? token) ranges with r :: _ => from r <=? token | [] => false end.

Definition IsScaleOutHandoffComplete (s : snapshots) (batchEpoch token : Z) : bool :=
  match scaleOutHandoffCompletion_ s with
  | None => false
  | Some completed => negb (batchEpoch =? 0) && (sc_batchEpoch completed =? batchEpoch) && contains (sc_ranges completed) token
  end.

(** [authorize] runs under the publication lock, on whatever local state [a] it captures. *)
Definition AuthorizeCleanupIfCurrent {A} (s : snapshots) (expected : TopologySnapshot) (authorize : option (A → A * res unit)) (a : A)
    : A * res unit :=
  match authorize with
  | None => (a, Fail K_INVALID)
  | Some run =>
    if match current_ s with
       | Some cur => (Version cur =? Version expected) && bool_decide (canonicalDigest_ cur = canonicalDigest_ expected)
       | None => false
       end
    then run a else (a, Fail K_INVALID)
  end.

(** ** Merged ranges *)
Definition wf_range (r : TokenRange) : Prop := 0 ≤ from r ≤ to r ∧ to r ≤ UINT32_MAX.

Lemma in_ranges_nil tok : in_ranges tok [] ↔ False.
Proof. unfold in_ranges. rewrite -Exists_exists. by rewrite Exists_nil. Qed.
Lemma in_ranges_cons tok r rs : in_ranges tok (r :: rs) ↔ in_range tok r ∨ in_ranges tok rs.
Proof. unfold in_ranges. rewrite -!Exists_exists. by rewrite Exists_cons. Qed.
Lemma in_token_ranges_app tok rs rs' : in_ranges tok (rs ++ rs') ↔ in_ranges tok rs ∨ in_ranges tok rs'.
Proof. unfold in_ranges. rewrite -!Exists_exists. by rewrite Exists_app. Qed.
Lemma in_ranges_perm tok rs rs' : rs ≡ₚ rs' → in_ranges tok rs ↔ in_ranges tok rs'.
Proof. unfold in_ranges. intros E. by setoid_rewrite E. Qed.

(** The ranges a merge produces, newest first: each ends at least two before the one above it. *)
Definition gap (newer older : TokenRange) : Prop := to older + 1 < from newer.
Definition merged_ok (merged : list TokenRange) : Prop := Forall wf_range merged ∧ StronglySorted gap merged.

Lemma merge_step_ok merged r :
  merged_ok merged → wf_range r → Forall (λ m, from m ≤ from r) merged →
  merged_ok (merge_step merged r) ∧ Forall (λ m, from m ≤ from r) (merge_step merged r)
  ∧ ∀ tok, in_ranges tok (merge_step merged r) ↔ in_ranges tok merged ∨ in_range tok r.
Proof.
  unfold merged_ok, UINT32_MAX. intros [Hwf Hs] Hr Hle. destruct merged as [|back merged]; cbn.
  { split_and!; [by apply Forall_singleton|by repeat constructor|apply Forall_singleton; lia|]. intros tok. by rewrite in_ranges_cons in_ranges_nil; tauto. }
  inversion_clear Hwf as [|?? Hb Hwf']. inversion_clear Hs as [|?? Hs' Hg]. inversion_clear Hle as [|?? Hlb Hle'].
  unfold wf_range, UINT32_MAX in *. destruct (negb _ && _) eqn:E.
  - apply andb_true_iff in E as [E1%negb_true_iff%Z.eqb_neq E2%Z.ltb_lt]. rewrite u32_small in E2; [lia|].
    split_and!.
    + by do 2 (constructor; [done|]).
    + constructor; [by constructor|]. constructor.
      * unfold gap. lia.
      * eapply Forall_impl; [exact Hg|]. unfold gap. intros x. cbn. lia.
    + do 2 (constructor; [lia|]). done.
    + intros tok. rewrite !in_ranges_cons. tauto.
  - assert (from r ≤ to back + 1) as Hjoin.
    { apply andb_false_iff in E as [E%negb_false_iff%Z.eqb_eq|E%Z.ltb_ge]; [lia|].
      destruct (decide (to back + 1 < 2 ^ 32)); [rewrite u32_small in E; lia|lia]. }
    split_and!.
    + constructor; [cbn; lia|done].
    + by constructor.
    + by constructor.
    + intros tok. rewrite !in_ranges_cons. unfold in_range. cbn. split; intros H.
      * destruct H as [H|H]; [|tauto]. destruct (decide (tok ≤ to back)); [left; left; lia|right; lia].
      * destruct H as [[H|H]|H]; [left; lia|tauto|left; lia].
Qed.

Lemma merge_fold_ok ranges : ∀ merged,
  merged_ok merged → Forall wf_range ranges → StronglySorted range_le ranges →
  (∀ r, r ∈ ranges → Forall (λ m, from m ≤ from r) merged) →
  merged_ok (foldl merge_step merged ranges)
  ∧ ∀ tok, in_ranges tok (foldl merge_step merged ranges) ↔ in_ranges tok merged ∨ in_ranges tok ranges.
Proof.
  induction ranges as [|r ranges IH]; intros merged Hm Hwf Hs Hle; cbn.
  { split; [done|]. intros tok. rewrite in_ranges_nil. tauto. }
  inversion_clear Hwf as [|?? Hr Hwf']. inversion_clear Hs as [|?? Hs' Hg].
  destruct (merge_step_ok merged r Hm Hr) as (H1 & H2 & H3); [apply Hle; by left|].
  destruct (IH (merge_step merged r) H1 Hwf' Hs') as [H4 H5].
  { intros r' Hr'. eapply Forall_impl; [exact H2|]. rewrite Forall_forall in Hg. specialize (Hg r' Hr').
    intros x. unfold range_le in Hg. cbn. lia. }
  split; [done|]. intros tok. rewrite H5 H3 in_ranges_cons. tauto.
Qed.

(** Ranges in ascending order that do not touch. *)
Definition ascending (ranges : list TokenRange) : Prop := Forall wf_range ranges ∧ StronglySorted (λ a b, to a < from b) ranges.

Lemma StronglySorted_app_inv {A} (R : relation A) (l1 l2 : list A) :
  StronglySorted R l1 → StronglySorted R l2 → (∀ x y, x ∈ l1 → y ∈ l2 → R x y) → StronglySorted R (l1 ++ l2).
Proof.
  intros H1 H2 H12. induction H1 as [|x l1 Hs IH Hx]; [done|]. cbn. constructor.
  - apply IH. intros y z Hy. apply H12. by right.
  - apply Forall_app. split; [done|]. apply Forall_forall. intros y Hy. by apply H12; [left|].
Qed.

Lemma StronglySorted_weaken {A} (R S : relation A) (l : list A) : (∀ x y, R x y → S x y) → StronglySorted R l → StronglySorted S l.
Proof. intros HRS. induction 1 as [|x l Hs IH Hx]; constructor; [done|]. eapply Forall_impl; [exact Hx|]. auto. Qed.

Lemma StronglySorted_reverse {A} (R : relation A) (l : list A) : StronglySorted R l → StronglySorted (flip R) (reverse l).
Proof.
  induction 1 as [|x l Hs IH Hx]; [constructor|]. rewrite reverse_cons. apply StronglySorted_app_inv; [done|by repeat constructor|].
  intros y z Hy ->%list_elem_of_singleton. rewrite Forall_forall in Hx. apply Hx. by apply elem_of_reverse.
Qed.

Lemma MergeRanges_ok ranges :
  Forall wf_range ranges →
  ascending (MergeRanges ranges) ∧ ∀ tok, in_ranges tok (MergeRanges ranges) ↔ in_ranges tok ranges.
Proof.
  intros Hwf. unfold MergeRanges, sort_ranges.
  destruct (merge_fold_ok (merge_sort range_le ranges) []) as [[H1 H2] H3].
  - split; constructor.
  - by rewrite merge_sort_Permutation.
  - apply StronglySorted_merge_sort; apply _.
  - intros. constructor.
  - split; [split|].
    + by apply Forall_reverse.
    + apply (StronglySorted_weaken (flip gap)); [|by apply StronglySorted_reverse]. intros x y. unfold gap. cbn. lia.
    + intros tok. rewrite (in_ranges_perm tok _ _ (reverse_Permutation _)) H3 in_ranges_nil (in_ranges_perm tok _ _ (merge_sort_Permutation _ _)). tauto.
Qed.

(** The binary search finds a token exactly when a range holds it. *)
Lemma contains_in ranges tok : ascending ranges → contains ranges tok = true ↔ in_ranges tok ranges.
Proof.
  unfold contains. intros [Hwf Hs]. induction Hs as [|r ranges Hs IH Hr]; cbn; [by rewrite in_ranges_nil|].
  inversion_clear Hwf as [|?? [Hw _] Hwf']. rewrite in_ranges_cons. unfold in_range at 1.
  destruct (Z.ltb_spec (to r) tok).
  - rewrite (IH Hwf'). split; [tauto|]. intros [?|?]; [lia|done].
  - rewrite Z.leb_le. split; [intros; left; lia|]. intros [?|Hin]; [lia|].
    destruct Hin as (x & Hx & ?). rewrite Forall_forall in Hr. specialize (Hr x Hx).
    cbn in Hr. unfold in_range in *. lia.
Qed.

(** ** The hand-over evidence refines a list of finished ranges *)
Inductive op := OPublish (snapshot : option TopologySnapshot) | ORebuild (snapshot : option TopologySnapshot)
  | ORecord (fence : TopologyExecutionFence) | OClear.

Definition apply_op (s : snapshots) (o : op) : snapshots :=
  match o with
  | OPublish snapshot => (Publish s snapshot).1.1
  | ORebuild snapshot => (PublishAfterFullRebuild s snapshot).1
  | ORecord fence => RecordScaleOutHandoffCompletion s fence
  | OClear => Clear s
  end.
Definition run_ops (ops : list op) : snapshots := foldl apply_op TopologySnapshotState ops.

(** The epoch of the scale-out a snapshot is in. *)
Definition scale_out_epoch (snapshot : option TopologySnapshot) : option Z :=
  match snapshot ≫= GetActiveBatch with
  | Some b => if bool_decide (btype b = SCALE_OUT) then Some (epoch b) else None
  | None => None
  end.

(** The abstract state: the current snapshot and all ranges finished in its scale-out, as they were reported. *)
Definition evidence := (option TopologySnapshot * list TokenRange)%type.

Definition spec_replace (e : evidence) (snap : TopologySnapshot) : evidence :=
  (Some snap, if bool_decide (scale_out_epoch (Some snap) = scale_out_epoch e.1) then e.2 else []).

Definition spec_op (e : evidence) (o : op) : evidence :=
  match o with
  | OPublish (Some snap) => match publish_outcome e.1 snap with PUBLISHED => spec_replace e snap | _ => e end
  | ORebuild (Some snap) =>
    if match e.1 with None => true | Some cur => Version cur <? Version snap end then spec_replace e snap else e
  | OPublish None | ORebuild None => e
  | ORecord fence =>
    if bool_decide (ef_batchType fence = SCALE_OUT ∧ ef_phase fence = PHASE_SCALE_OUT
                    ∧ scale_out_epoch e.1 = Some (ef_batchEpoch fence))
    then (e.1, e.2 ++ ef_ranges fence) else e
  | OClear => (None, [])
  end.
Definition spec_run (ops : list op) : evidence := foldl spec_op (None, []) ops.

Definition op_ok (o : op) : Prop := match o with ORecord fence => Forall wf_range (ef_ranges fence) | _ => True end.

(** The simulation. *)
Definition represents (s : snapshots) (e : evidence) : Prop :=
  current_ s = e.1 ∧ Forall wf_range e.2 ∧
  match scaleOutHandoffCompletion_ s with
  | None => e.2 = []
  | Some c => scale_out_epoch e.1 = Some (sc_batchEpoch c) ∧ ascending (sc_ranges c)
              ∧ ∀ tok, in_ranges tok (sc_ranges c) ↔ in_ranges tok e.2
  end.

Lemma represents_bump s e : represents s e → represents (bump s) e.
Proof. done. Qed.

Lemma represents_store s e snap : represents s e → represents (store_current s snap) (spec_replace e snap).
Proof.
  intros (E & Hwf & Hc). unfold represents, store_current, spec_replace, ResetScaleOutHandoffIfBatchChanged. cbn.
  split; [done|]. split; [by case_bool_decide|].
  destruct (scaleOutHandoffCompletion_ s) as [c|]; [|rewrite Hc; destruct (GetActiveBatch snap); by case_bool_decide].
  destruct Hc as (He & Ha & Hin). rewrite He. unfold scale_out_epoch. cbn.
  destruct (GetActiveBatch snap) as [b|]; [|by rewrite bool_decide_eq_false_2].
  destruct (bool_decide (btype b = SCALE_OUT)); cbn; [|by rewrite bool_decide_eq_false_2].
  destruct (Z.eqb_spec (sc_batchEpoch c) (epoch b)) as [->|Hne]; [by rewrite bool_decide_eq_true_2|].
  rewrite bool_decide_eq_false_2; [congruence|done].
Qed.

Lemma records_iff s fence :
  records s fence = true ↔ ef_ranges fence ≠ [] ∧ ef_batchType fence = SCALE_OUT ∧ ef_phase fence = PHASE_SCALE_OUT
    ∧ scale_out_epoch (current_ s) = Some (ef_batchEpoch fence).
Proof.
  unfold records, scale_out_epoch. rewrite !andb_true_iff negb_true_iff !bool_decide_eq_true bool_decide_eq_false.
  destruct (current_ s ≫= GetActiveBatch) as [b|]; [|naive_solver].
  rewrite andb_true_iff bool_decide_eq_true Z.eqb_eq. case_bool_decide; split; intros; destruct_and?; split_and?; congruence || done.
Qed.

Lemma represents_record s e fence :
  represents s e → Forall wf_range (ef_ranges fence) → represents (RecordScaleOutHandoffCompletion s fence) (spec_op e (ORecord fence)).
Proof.
  intros Hr Hf. pose proof Hr as (E & Hwf & Hc). unfold RecordScaleOutHandoffCompletion, spec_op.
  destruct (records s fence) eqn:Er.
  - apply records_iff in Er as (_ & H1 & H2 & H3). rewrite E in H3. rewrite bool_decide_eq_true_2; [done|].
    set (rs := match scaleOutHandoffCompletion_ s with Some _ => _ | None => _ end).
    assert (Forall wf_range rs ∧ ∀ tok, in_ranges tok rs ↔ in_ranges tok (e.2 ++ ef_ranges fence)) as [Hrs Hin].
    { subst rs. destruct (scaleOutHandoffCompletion_ s) as [c|]; [|by rewrite Hc; split; [|done]].
      destruct Hc as (He & [Ha _] & Hi). rewrite H3 in He. injection He as ->. rewrite Z.eqb_refl. split; [by apply Forall_app|].
      intros tok. rewrite !in_token_ranges_app Hi. tauto. }
    destruct (MergeRanges_ok rs Hrs) as [Hm1 Hm2]. unfold represents. cbn. split_and!; [done|by apply Forall_app|done|done|].
    intros tok. by rewrite Hm2 Hin.
  - case_bool_decide as H; [|done]. destruct H as (H1 & H2 & H3). destruct (ef_ranges fence) eqn:Ef.
    { rewrite app_nil_r. by destruct e. }
    assert (records s fence = true) as Ht; [|congruence]. apply records_iff. rewrite Ef E. done.
Qed.

Lemma represents_op s e o : represents s e → op_ok o → represents (apply_op s o) (spec_op e o).
Proof.
  intros Hr Ho. pose proof Hr as (E & _). destruct o as [[snap|]|[snap|]|fence|]; cbn [apply_op spec_op]; [|done| |done|by apply represents_record|].
  - unfold Publish. rewrite E. destruct (publish_outcome e.1 snap); cbn; [by apply represents_bump, represents_store|done..].
  - unfold PublishAfterFullRebuild. rewrite E. destruct (match e.1 with Some _ => _ | None => _ end); [by apply represents_bump, represents_store|done].
  - by split_and!.
Qed.

Lemma represents_run ops : Forall op_ok ops → represents (run_ops ops) (spec_run ops).
Proof.
  unfold run_ops, spec_run. assert (represents TopologySnapshotState (None, [])) as H by by split_and!.
  revert H. generalize TopologySnapshotState as s, (@None TopologySnapshot, @nil TokenRange) as e.
  induction ops as [|o ops IH]; intros s e Hr Ho; cbn; [done|]. inversion_clear Ho. apply IH; [by apply represents_op|done].
Qed.

Lemma handoff_spec (ops : list op) (e token : Z) :
  Forall op_ok ops →
  IsScaleOutHandoffComplete (run_ops ops) e token = true ↔
  e ≠ 0 ∧ scale_out_epoch (spec_run ops).1 = Some e ∧ in_ranges token (spec_run ops).2.
Proof.
  intros Hops. destruct (represents_run ops Hops) as (E & _ & Hc). unfold IsScaleOutHandoffComplete.
  destruct (scaleOutHandoffCompletion_ (run_ops ops)) as [c|].
  - destruct Hc as (He & Ha & Hin). rewrite !andb_true_iff negb_true_iff Z.eqb_neq Z.eqb_eq (contains_in _ _ Ha) Hin He. naive_solver.
  - rewrite Hc in_ranges_nil. naive_solver.
Qed.

(** C19: a range counts as handed over exactly when its migration has been reported in the scale-out that is still
    going on.  After any sequence of publications, rebuilds, reports and clears, the test for an epoch and a token
    answers yes just when the epoch is that of the current snapshot's scale-out and one of the ranges reported since that
    scale-out appeared holds the token; merging the ranges and searching them loses and adds nothing. *)
Theorem handoff_complete_exact (ops : list op) (e token : Z) (Hops : Forall op_ok ops) :
  IsScaleOutHandoffComplete (run_ops ops) e token = true ↔
  e ≠ 0 ∧ scale_out_epoch (spec_run ops).1 = Some e ∧ in_ranges token (spec_run ops).2.
Proof. by apply handoff_spec. Qed.

(** ** Readers and publishers interleaved *)
Inductive write := WPublish (snap : TopologySnapshot) | WRebuild (snap : TopologySnapshot) | WClear.

(** The part of a publication up to the store of the pointer; [None] when it stores nothing. *)
Definition write_store (s : snapshots) (w : write) : option snapshots :=
  match w with
  | WPublish snap => match publish_outcome (current_ s) snap with PUBLISHED => Some (store_current s snap) | _ => None end
  | WRebuild snap => if match current_ s with None => true | Some cur => Version cur <? Version snap end
                     then Some (store_current s snap) else None
  | WClear => Some (clear_current s)
  end.

(** The operations above are this part followed by the bump. *)
Lemma writes_are_stores s w :
  apply_op s (match w with WPublish snap => OPublish (Some snap) | WRebuild snap => ORebuild (Some snap) | WClear => OClear end)
  = from_option bump s (write_store s w).
Proof.
  destruct w as [snap|snap|]; cbn; [| |done].
  - by destruct (publish_outcome (current_ s) snap).
  - by destruct (match current_ s with Some _ => _ | None => _ end).
Qed.

(** What a thread does next.  [AForeign]: it reads another holder and caches what it finds there. *)
Inductive action := AStore (w : write) | ABump | ABegin (t : nat) | AEnd (t : nat) (alive : bool) | AForeign (t : nat) (c : ThreadSnapshotCache).

(** A finished [Load]: by whom, how many publications were complete when it started, and what it found. *)
Record load_record := MkLoad { lr_thread : nat; lr_started : nat; lr_result : option TopologySnapshot }.

(** The holder, whether a publisher is between its two steps, the threads' caches and the generations of the loads in
    progress; for the record, every value the pointer has had and the loads so far. *)
Record system := MkSystem {
  sy_state : snapshots; sy_writing : bool;
  sy_caches : gmap nat ThreadSnapshotCache; sy_pending : gmap nat (Z * nat);
  sy_history : list (option TopologySnapshot); sy_loads : list load_record }.

Section Interleaving.
Context (this instanceId_ : Z).

Definition ours (c : ThreadSnapshotCache) : bool := (ca_owner c =? this) && (ca_instanceId c =? instanceId_).

Definition completed (y : system) : nat := (List.length (sy_history y) - 1 - (if sy_writing y then 1 else 0))%nat.

Definition exec (y : system) (a : action) : option system :=
  match a with
  | AStore w =>
    if sy_writing y then None else
    s ← write_store (sy_state y) w;
    Some (MkSystem s true (sy_caches y) (sy_pending y) (sy_history y ++ [current_ s]) (sy_loads y))
  | ABump =>
    if sy_writing y then Some (MkSystem (bump (sy_state y)) false (sy_caches y) (sy_pending y) (sy_history y) (sy_loads y)) else None
  | ABegin t =>
    match sy_pending y !! t with
    | Some _ => None
    | None => Some (MkSystem (sy_state y) (sy_writing y) (sy_caches y)
                     (<[t := (publicationGeneration_ (sy_state y), completed y)]> (sy_pending y)) (sy_history y) (sy_loads y))
    end
  | AEnd t alive =>
    '(generation, started) ← sy_pending y !! t;
    let '(cache, r) := Load_rest this instanceId_ generation alive (sy_state y) (default no_cache (sy_caches y !! t)) in
    Some (MkSystem (sy_state y) (sy_writing y) (<[t := cache]> (sy_caches y)) (delete t (sy_pending y)) (sy_history y)
           (sy_loads y ++ [MkLoad t started (match r with Ok snap => Some snap | Fail _ => None end)]))
  | AForeign t c =>
    if ours c then None else Some (MkSystem (sy_state y) (sy_writing y) (<[t := c]> (sy_caches y)) (sy_pending y) (sy_history y) (sy_loads y))
  end.

Fixpoint run (y : system) (acts : list action) : option system :=
  match acts with [] => Some y | a :: acts' => y' ← exec y a; run y' acts' end.

Definition start : system := MkSystem TopologySnapshotState false ∅ ∅ [None] [].

(** A publication in the history follows one with a smaller version, or none. *)
Definition climbs (h : list (option TopologySnapshot)) : Prop :=
  ∀ i a b, h !! i = Some (Some a) → h !! S i = Some (Some b) → Version a < Version b.

(** [idx] tells for each load which entry of the history it returned: one not overwritten before the load started,
    and never an older one than an earlier load of the same thread. *)
Definition explains (h : list (option TopologySnapshot)) (loads : list load_record) (idx : list nat) : Prop :=
  Forall2 (λ l i, h !! i = Some (lr_result l) ∧ (lr_started l ≤ i)%nat) loads idx
  ∧ ∀ j k l l' i i', (j < k)%nat → loads !! j = Some l → loads !! k = Some l' → lr_thread l = lr_thread l' →
      idx !! j = Some i → idx !! k = Some i' → (i ≤ i')%nat.

Definition valid_snapshot (snap : TopologySnapshot) : Prop := 0 < Version snap ≤ INT64_MAX.
Definition valid_action (a : action) : Prop :=
  match a with AStore (WPublish snap | WRebuild snap) => valid_snapshot snap | _ => True end.

Record inv (y : system) (idx : list nat) : Prop := MkInv {
  in_last : last (sy_history y) = Some (current_ (sy_state y));
  in_len : ((if sy_writing y then 2 else 1) ≤ List.length (sy_history y))%nat;
  in_gen : publicationGeneration_ (sy_state y) = u64 (Z.of_nat (completed y));
  in_pending : ∀ t g n, sy_pending y !! t = Some (g, n) → g = u64 (Z.of_nat n) ∧ (n ≤ completed y)%nat;
  in_cache : ∀ t c, sy_caches y !! t = Some c → ours c = true →
    ∃ i n, ca_generation c = u64 (Z.of_nat n) ∧ (n ≤ completed y)%nat ∧ (n ≤ i)%nat ∧ sy_history y !! i = Some (ca_snapshot c)
      ∧ ∀ k l j, sy_loads y !! k = Some l → lr_thread l = t → idx !! k = Some j → (j ≤ i)%nat;
  in_explained : explains (sy_history y) (sy_loads y) idx;
  in_valid : ∀ i snap, sy_history y !! i = Some (Some snap) → valid_snapshot snap;
  in_climbs : climbs (sy_history y) }.

Lemma u64_succ n : u64 (u64 (Z.of_nat n) + 1) = u64 (Z.of_nat (S n)).
Proof. unfold u64. rewrite Zplus_mod_idemp_l. f_equal. lia. Qed.

Lemma u64_nat_inj n m : Z.of_nat n < 2 ^ 64 → Z.of_nat m < 2 ^ 64 → u64 (Z.of_nat n) = u64 (Z.of_nat m) → n = m.
Proof. intros ??. rewrite !u64_small; lia. Qed.

Lemma explains_extend h h' loads idx : h `prefix_of` h' → explains h loads idx → explains h' loads idx.
Proof.
  intros [k ->] [H1 H2]. split; [|done]. eapply Forall2_impl; [exact H1|]. intros l i [E ?]. split; [|done]. by apply lookup_app_l_Some.
Qed.

Lemma explains_snoc h loads idx l i :
  explains h loads idx → h !! i = Some (lr_result l) → (lr_started l ≤ i)%nat →
  (∀ k l' j, loads !! k = Some l' → lr_thread l' = lr_thread l → idx !! k = Some j → (j ≤ i)%nat) →
  explains h (loads ++ [l]) (idx ++ [i]).
Proof.
  intros [H1 H2] Hi Hs Hle. pose proof (Forall2_length _ _ _ H1) as Hlen. split; [by apply Forall2_app; [|repeat constructor]|].
  intros j k l1 l2 i1 i2 Hjk Hj Hk Ht Hij Hik.
  apply lookup_app_Some in Hk as [Hk|[Hk1 Hk2]].
  - pose proof (lookup_lt_Some _ _ _ Hk). rewrite lookup_app_l in Hj; [lia|]. rewrite lookup_app_l in Hij; [lia|]. rewrite lookup_app_l in Hik; [lia|].
    by eapply (H2 j k).
  - apply list_lookup_singleton_Some in Hk2 as [E ->].
    rewrite lookup_app_r in Hik; [lia|]. rewrite -Hlen E in Hik. injection Hik as ->.
    rewrite lookup_app_l in Hj; [lia|]. rewrite lookup_app_l in Hij; [lia|]. by eapply Hle.
Qed.

(** What a publication stores follows what was there. *)
Lemma write_store_climbs s w s' :
  write_store s w = Some s' → valid_action (AStore w) →
  publicationGeneration_ s' = publicationGeneration_ s
  ∧ (∀ b, current_ s' = Some b → valid_snapshot b)
  ∧ ∀ a b, current_ s = Some a → valid_snapshot a → current_ s' = Some b → Version a < Version b.
Proof.
  destruct w as [snap|snap|]; cbn; intros E Hv.
  - destruct (publish_outcome (current_ s) snap) eqn:Eo; [|done..]. injection E as <-. cbn. split_and!; [done|by intros ? [= <-]|].
    intros a b Ha [? Hb] [= <-]. unfold publish_outcome in Eo. rewrite Ha in Eo.
    destruct (Z.eqb_spec (Version snap) (u64 (Version a + 1))) as [Ev|].
    + unfold INT64_MAX in Hb. rewrite u64_small in Ev; lia.
    + repeat case_match; done.
  - destruct (match current_ s with Some _ => _ | None => _ end) eqn:Eo; [|done]. injection E as <-. cbn. split_and!; [done|by intros ? [= <-]|].
    intros a b Ha _ [= <-]. rewrite Ha in Eo. by apply Z.ltb_lt.
  - by injection E as <-.
Qed.

Lemma climbs_snoc h x : climbs h → (∀ a b, last h = Some (Some a) → x = Some b → Version a < Version b) → climbs (h ++ [x]).
Proof.
  intros Hc Hx i a b Ha Hb. apply lookup_app_Some in Hb as [Hb|[Hb1 Hb2]].
  - apply lookup_lt_Some in Hb as Hlt. rewrite lookup_app_l in Ha; [lia|]. by eapply Hc.
  - apply list_lookup_singleton_Some in Hb2 as [E ->]. rewrite lookup_app_l in Ha; [lia|]. apply Hx; [|done].
    rewrite last_lookup. by replace (pred (List.length h)) with i by lia.
Qed.

Lemma inv_store y idx w s :
  inv y idx → sy_writing y = false → valid_action (AStore w) → write_store (sy_state y) w = Some s →
  inv (MkSystem s true (sy_caches y) (sy_pending y) (sy_history y ++ [current_ s]) (sy_loads y)) idx.
Proof.
  intros [] Hw Hv Hs. destruct (write_store_climbs _ _ _ Hs Hv) as (Hg & Hval & Hcl).
  set (y' := MkSystem _ _ _ _ _ _). rewrite Hw in in_len0.
  assert (completed y' = completed y) as Ec. { unfold completed. cbn. rewrite Hw length_app /=. lia. }
  constructor; rewrite ?Ec; cbn.
  - by rewrite last_snoc.
  - rewrite length_app /=. lia.
  - by rewrite Hg.
  - done.
  - intros t c Hc Ho. destruct (in_cache0 t c Hc Ho) as (i & n & H1 & H2 & H3 & H4 & H5). exists i, n. split_and!; try done. by apply lookup_app_l_Some.
  - eapply explains_extend; [by eexists|done].
  - intros i snap Hi. apply lookup_app_Some in Hi as [Hi|[_ Hi]]; [by eapply in_valid0|].
    apply list_lookup_singleton_Some in Hi as [_ Hi]. by apply Hval.
  - apply climbs_snoc; [done|]. intros a b Hl Hb. rewrite in_last0 in Hl. injection Hl as Hl. eapply Hcl; [done| |done].
    eapply (in_valid0 (pred (List.length (sy_history y)))). by rewrite -last_lookup in_last0 Hl.
Qed.

Lemma inv_bump y idx :
  inv y idx → sy_writing y = true →
  inv (MkSystem (bump (sy_state y)) false (sy_caches y) (sy_pending y) (sy_history y) (sy_loads y)) idx.
Proof.
  intros [] Hw. set (y' := MkSystem _ _ _ _ _ _). rewrite Hw in in_len0.
  assert (completed y' = S (completed y)) as Ec. { unfold completed. cbn. rewrite Hw. lia. }
  constructor; rewrite ?Ec; cbn; try done.
  - lia.
  - by rewrite in_gen0 u64_succ.
  - intros t g n Hp. destruct (in_pending0 t g n Hp). split; [done|lia].
  - intros t c Hc Ho. destruct (in_cache0 t c Hc Ho) as (i & n & ? & ? & ? & ? & ?). exists i, n. split_and!; try done. lia.
Qed.

Lemma inv_begin y idx t :
  inv y idx →
  inv (MkSystem (sy_state y) (sy_writing y) (sy_caches y)
         (<[t := (publicationGeneration_ (sy_state y), completed y)]> (sy_pending y)) (sy_history y) (sy_loads y)) idx.
Proof.
  intros []. constructor; try done. cbn. intros t' g n.
  destruct (decide (t' = t)) as [->|Hne]; [rewrite lookup_insert_eq|rewrite lookup_insert_ne; [congruence|by apply in_pending0]].
  intros [= <- <-]. split; [done|]. unfold completed. cbn. lia.
Qed.

Lemma inv_foreign y idx t c :
  inv y idx → ours c = false →
  inv (MkSystem (sy_state y) (sy_writing y) (<[t := c]> (sy_caches y)) (sy_pending y) (sy_history y) (sy_loads y)) idx.
Proof.
  intros [] Hc. constructor; try done. cbn. intros t' c'.
  destruct (decide (t' = t)) as [->|Hne]; [rewrite lookup_insert_eq; intros [= <-]; congruence|].
  rewrite lookup_insert_ne; [congruence|]. by apply in_cache0.
Qed.

(** A finished load returns an entry of the history that was not overwritten before it started and that is not older
    than any its thread has seen; the cache it leaves says so. *)
Lemma load_finds y idx t g n alive cache r :
  inv y idx → Z.of_nat (List.length (sy_history y)) ≤ 2 ^ 64 → sy_pending y !! t = Some (g, n) →
  Load_rest this instanceId_ g alive (sy_state y) (default no_cache (sy_caches y !! t)) = (cache, r) →
  ∃ i m, ca_generation cache = u64 (Z.of_nat m) ∧ (m ≤ completed y)%nat ∧ (m ≤ i)%nat ∧ (n ≤ i)%nat
    ∧ sy_history y !! i = Some (ca_snapshot cache)
    ∧ (match r with Ok snap => Some snap | Fail _ => None end) = ca_snapshot cache
    ∧ ∀ k l j, sy_loads y !! k = Some l → lr_thread l = t → idx !! k = Some j → (j ≤ i)%nat.
Proof.
  intros [] Hb Hp Hl. destruct (in_pending0 t g n Hp) as [-> Hn].
  set (c0 := default no_cache (sy_caches y !! t)) in *. unfold Load_rest in Hl.
  fold (ours c0) in Hl. destruct (if ours c0 && (ca_generation c0 =? u64 (Z.of_nat n)) && alive then ca_snapshot c0 else None) as [snap|] eqn:Eh.
  - injection Hl as <- <-. destruct (ours c0 && _ && alive) eqn:Eg; [|done].
    apply andb_true_iff in Eg as [[Eo Eg%Z.eqb_eq]%andb_true_iff _].
    destruct (sy_caches y !! t) as [c|] eqn:Ec.
    + destruct (in_cache0 t c Ec Eo) as (i & m & H1 & H2 & H3 & H4 & H5). exists i, m. subst c0. cbn in *.
      assert (m = n) as ->. { apply u64_nat_inj; [unfold completed in *; lia..|congruence]. }
      split_and!; try done. 
    + subst c0. done.
  - injection Hl as <- <-. cbn. set (i := pred (List.length (sy_history y))). exists i, n.
    split_and!; try done; try (subst i; unfold completed in *; lia).
    + by rewrite -in_last0 last_lookup.
    + by destruct (current_ (sy_state y)).
    + intros k l j Hk _ Hj. destruct in_explained0 as [Hf _]. destruct (Forall2_lookup_lr _ _ _ _ _ _ Hf Hk Hj) as [Hh _].
      apply lookup_lt_Some in Hh. subst i. lia.
Qed.

Lemma inv_end y idx t g n alive cache r :
  inv y idx → Z.of_nat (List.length (sy_history y)) ≤ 2 ^ 64 → sy_pending y !! t = Some (g, n) →
  Load_rest this instanceId_ g alive (sy_state y) (default no_cache (sy_caches y !! t)) = (cache, r) →
  ∃ i, inv (MkSystem (sy_state y) (sy_writing y) (<[t := cache]> (sy_caches y)) (delete t (sy_pending y)) (sy_history y)
         (sy_loads y ++ [MkLoad t n (match r with Ok snap => Some snap | Fail _ => None end)])) (idx ++ [i]).
Proof.
  intros Hinv Hb Hp Hl. destruct (load_finds _ _ _ _ _ _ _ _ Hinv Hb Hp Hl) as (i & m & H1 & H2 & H3 & H4 & H5 & H6 & H7).
  destruct Hinv. exists i. pose proof (Forall2_length _ _ _ (proj1 in_explained0)) as Hlen. constructor; try done; cbn.
  - intros t' g' n' [_ Hp']%lookup_delete_Some. by apply in_pending0 in Hp'.
  - assert (∀ t' k l j, (sy_loads y ++ [MkLoad t n (match r with Ok snap => Some snap | Fail _ => None end)]) !! k = Some l → lr_thread l = t' →
      (idx ++ [i]) !! k = Some j → (t' = t ∧ j = i) ∨ (sy_loads y !! k = Some l ∧ idx !! k = Some j)) as Hcase.
    { intros t' k l j Hk Ht Hj. apply lookup_app_Some in Hk as [Hk|[Hk1 Hk2]].
      - apply lookup_lt_Some in Hk as Hlt. rewrite lookup_app_l in Hj; [lia|]. by right.
      - apply list_lookup_singleton_Some in Hk2 as [E <-]. rewrite lookup_app_r in Hj; [lia|]. rewrite -Hlen E in Hj. injection Hj as ->. by left. }
    intros t' c'. destruct (decide (t' = t)) as [->|Hne].
    + rewrite lookup_insert_eq. intros [= <-] _. exists i, m. split_and!; try done.
      intros k l j Hk Ht Hj. destruct (Hcase _ _ _ _ Hk Ht Hj) as [[_ ->]|[Hk' Hj']]; [done|by eapply H7].
    + rewrite lookup_insert_ne; [congruence|]. intros Hc Ho. destruct (in_cache0 t' c' Hc Ho) as (i' & m' & ? & ? & ? & ? & H). exists i', m'.
      split_and!; try done. intros k l j Hk Ht Hj. destruct (Hcase _ _ _ _ Hk Ht Hj) as [[? _]|[Hk' Hj']]; [done|by eapply H].
  - apply explains_snoc; cbn; [done|by rewrite H6|done|done].
Qed.

Lemma inv_exec y idx a y' :
  inv y idx → valid_action a → exec y a = Some y' → Z.of_nat (List.length (sy_history y')) ≤ 2 ^ 64 → ∃ idx', inv y' idx'.
Proof.
  intros Hinv Hv He Hb. destruct a as [w| |t|t alive|t c]; cbn [exec] in He.
  - destruct (sy_writing y) eqn:Hw; [done|]. apply bind_Some in He as (s & Hs & [= <-]). exists idx. by eapply inv_store.
  - destruct (sy_writing y) eqn:Hw; [|done]. injection He as <-. exists idx. by apply inv_bump.
  - destruct (sy_pending y !! t); [done|]. injection He as <-. exists idx. by apply inv_begin.
  - apply bind_Some in He as ([g n] & Hp & He). destruct (Load_rest _ _ _ _ _ _) as [cache r] eqn:El. injection He as <-.
    cbn in Hb. destruct (inv_end _ _ _ _ _ _ _ _ Hinv Hb Hp El) as [i Hi]. by eexists.
  - destruct (ours c) eqn:Eo; [done|]. injection He as <-. exists idx. by apply inv_foreign.
Qed.

Lemma exec_history y a y' : exec y a = Some y' → (List.length (sy_history y) ≤ List.length (sy_history y'))%nat.
Proof.
  destruct a as [w| |t|t alive|t c]; cbn [exec]; intros He.
  - destruct (sy_writing y); [done|]. apply bind_Some in He as (s & _ & [= <-]). cbn. rewrite length_app. lia.
  - destruct (sy_writing y); [|done]. by injection He as <-.
  - destruct (sy_pending y !! t); [done|]. by injection He as <-.
  - apply bind_Some in He as ([g n] & _ & He). destruct (Load_rest _ _ _ _ _ _). by injection He as <-.
  - destruct (ours c); [done|]. by injection He as <-.
Qed.

Lemma run_history acts : ∀ y y', run y acts = Some y' → (List.length (sy_history y) ≤ List.length (sy_history y'))%nat.
Proof.
  induction acts as [|a acts IH]; intros y y'; cbn; [by intros [= <-]|]. intros (y1 & H1%exec_history & H2%IH)%bind_Some. lia.
Qed.

Lemma inv_run acts : ∀ y idx y',
  inv y idx → Forall valid_action acts → run y acts = Some y' → Z.of_nat (List.length (sy_history y')) ≤ 2 ^ 64 → ∃ idx', inv y' idx'.
Proof.
  induction acts as [|a acts IH]; intros y idx y' Hinv Hv He Hb; cbn in He; [injection He as <-; by exists idx|].
  inversion_clear Hv as [|?? Hva Hvs]. apply bind_Some in He as (y1 & H1 & H2). pose proof (run_history _ _ _ H2).
  destruct (inv_exec y idx a y1 Hinv Hva H1) as [idx1 Hinv1]; [lia|]. by eapply IH.
Qed.

Lemma inv_start : inv start [].
Proof.
  constructor; cbn; try done; try lia.
  - by intros i snap [_ ?]%list_lookup_singleton_Some.
Qed.

(** reading the current snapshot without a lock is safe.  However publishers and readers interleave, and whatever the
    readers' caches hold, every load returns a value the pointer had no earlier than the last publication that was
    complete when the load started, no thread ever sees an older value after a newer one, and versions grow from
    each published value to the next.  (The generation counter has 64 bits, so this is for fewer than 2^64
    publications.) *)
Theorem loads_never_go_back (acts : list action) (y : system)
    (Hv : Forall valid_action acts) (Hr : run start acts = Some y) (Hb : Z.of_nat (List.length (sy_history y)) ≤ 2 ^ 64) :
  (∃ idx, explains (sy_history y) (sy_loads y) idx) ∧ climbs (sy_history y).
Proof.
  destruct (inv_run acts start [] y inv_start Hv Hr Hb) as [idx []]. split; [by exists idx|done].
Qed.

End Interleaving.

(** ** Examples *)
Definition snap4 : TopologySnapshot := BuildIndexes (MkTopology true 4 [m2; m1] None) 8 digest0.
Definition snap5 : TopologySnapshot := BuildIndexes (canon demo) 9 digest0.
Definition fence5 (rs : list TokenRange) : TopologyExecutionFence :=
  MkExecFence "m-e4-x" MIGRATE SCALE_OUT 4 PHASE_SCALE_OUT (identity m1) (Some (identity m1)) (Some (identity m3)) None rs.

Definition sample_ops : list op :=
  [OPublish (Some snap4); OPublish (Some snap5); ORecord (fence5 [MkRange 10 20; MkRange 40 50]); ORecord (fence5 [MkRange 21 30])].

Lemma handoff_complete_exact_witness :
  Forall op_ok sample_ops ∧ IsScaleOutHandoffComplete (run_ops sample_ops) 4 25 = true ∧ IsScaleOutHandoffComplete (run_ops sample_ops) 4 35 = false.
Proof.
  assert (Forall op_ok sample_ops) as Hops. { repeat constructor; cbn; unfold UINT32_MAX; lia. }
  split; [exact Hops|]. split.
  - apply (handoff_complete_exact sample_ops 4 25 Hops). split; [lia|]. split; [reflexivity|].
    exists (MkRange 21 30). split; [cbn; set_solver|]. unfold in_range. cbn. lia.
  - apply not_true_iff_false. intros (_ & _ & r & Hr & Hin)%(handoff_complete_exact sample_ops 4 35 Hops).
    unfold in_range in Hin. repeat (apply elem_of_cons in Hr as [->|Hr]; [cbn in Hin; lia|]). by apply elem_of_nil in Hr.
Defined.

(** A thread that starts reading while version 5 is being stored, and reads again. *)
Definition sample_acts : list action :=
  [AStore (WPublish snap4); ABump; ABegin 0; AEnd 0 true; AStore (WPublish snap5); ABegin 0; ABegin 1; AEnd 1 true; AEnd 0 true; ABump; ABegin 0; AEnd 0 true].

Lemma loads_never_go_back_witness :
  ∃ y, run 7 1 start sample_acts = Some y ∧ (lr_result <$> sy_loads y) = [Some snap4; Some snap5; Some snap4; Some snap5]
    ∧ climbs (sy_history y).
Proof.
  eexists. split; [vm_compute; reflexivity|]. split; [vm_compute; reflexivity|].
  eapply (loads_never_go_back 7 1 sample_acts); [|vm_compute; reflexivity|vm_compute; discriminate].
  unfold sample_acts. repeat constructor; vm_compute; try reflexivity; discriminate.
Defined.

End SnapshotState.
