(* ===== verification/Placement.v ===== *)
(** * Placement: which worker serves a key

    Model of [src/datasystem/cluster/routing/placement_facade.{h,cpp}] and [placement_types.h], of
    [src/datasystem/cluster/membership/membership_endpoint_view.{h,cpp}], and of the filters a migration runs with,
    [src/datasystem/cluster/executor/hash_key_filter.cpp] and [storage_scan_plan.cpp].

    The facade works on one snapshot, which it loads first: [loaded] is the outcome of [TopologySnapshotState::Load]
    ([SnapshotState.Load]).  The routing algorithm is the interface [RoutingOps], which the hash algorithm
    implements; a [const Member *] it returns may be null, so it is an option. *)
From S2P Require Import Prelude NetUtil MurmurHash Topology HashRing PlanBuilder Replan Membership KeyHelper RepositoryCodec Repository Materializer SnapshotState.
Import Topology HashRing PlanBuilder RepositoryCodec Repository Materializer SnapshotState.

Module Placement.
Local Open Scope Z_scope.

Definition MAX_BATCH_KEYS : nat := Z.to_nat 100000.
#[global] Arguments MAX_BATCH_KEYS : simpl never.

Class RoutingOps := {
  ro_Hash : string → Z;
  ro_LocateOwner : TopologySnapshot → Z → res (option Member);
  ro_LocateProspectiveOwner : TopologySnapshot → Z → res (option Member) }.

(** [HashAlgorithm] as a routing algorithm. *)
#[export] Instance hash_routing : RoutingOps := {|
  ro_Hash := MurmurHash.Hash;
  ro_LocateOwner snap token := let! m := LocateOwner snap token in Ok (Some m);
  ro_LocateProspectiveOwner snap token := let! m := LocateProspectiveOwner snap token in Ok (Some m) |}.

Record PlacementDecision := MkPlacement { pd_topologyVersion : Z; pd_committedOwnerAddress : string }.
Record BatchPlacementItem := MkItem { bi_decision : PlacementDecision; bi_status : res unit }.
Record BatchPlacementDecision := MkBatchPlacement { bp_topologyVersion : Z; bp_items : list BatchPlacementItem }.
Inductive RedirectAction := LOCAL | REDIRECT | WAIT.
#[export] Instance RedirectAction_eq_dec : EqDecision RedirectAction.
Proof. solve_decision. Defined.
Record RedirectDecision := MkRedirect {
  rd_topologyVersion : Z; rd_action : RedirectAction; rd_committedOwnerAddress : string;
  rd_redirectTargetAddress : string; rd_batchEpoch : Z }.
Record BatchRedirectDecision := MkBatchRedirect { br_topologyVersion : Z; br_decisions : list RedirectDecision }.

Definition GetRedirectTargetAddress (d : RedirectDecision) : string :=
  if empty_str (rd_redirectTargetAddress d) then rd_committedOwnerAddress d else rd_redirectTargetAddress d.

Section Facade.
Context `{RoutingOps} (localAddress_ : string).

Definition LocateInSnapshot (snap : TopologySnapshot) (token : Z) : res PlacementDecision :=
  let! owner := ro_LocateOwner snap token in
  match owner with
  | None => Fail K_RUNTIME_ERROR
  | Some m => Ok (MkPlacement (Version snap) (addr m))
  end.

Definition Locate (loaded : res TopologySnapshot) (placementKey : string) : res PlacementDecision :=
  let! snap := loaded in LocateInSnapshot snap (ro_Hash placementKey).

Definition LocateToken (loaded : res TopologySnapshot) (token : Z) : res PlacementDecision :=
  let! snap := loaded in LocateInSnapshot snap token.

Definition batch_item (snap : TopologySnapshot) (key : string) : BatchPlacementItem :=
  match LocateInSnapshot snap (ro_Hash key) with
  | Ok item => MkItem item (Ok tt)
  | Fail c => MkItem (MkPlacement 0 "") (Fail c)
  end.

Definition batch_size_ok (keys : list string) : bool :=
  negb (bool_decide (keys = [])) && bool_decide (List.length keys ≤ MAX_BATCH_KEYS)%nat.

Definition LocateBatch (loaded : res TopologySnapshot) (placementKeys : list string) : res BatchPlacementDecision :=
  check! batch_size_ok placementKeys else K_INVALID in
  let! snap := loaded in
  Ok (MkBatchPlacement (Version snap) (batch_item snap <$> placementKeys)).

Definition EvaluateRedirectInSnapshot (snap : TopologySnapshot) (placementKey : string) : res RedirectDecision :=
  let token := ro_Hash placementKey in
  let! placement := LocateInSnapshot snap token in
  let version := pd_topologyVersion placement in
  let owner := pd_committedOwnerAddress placement in
  let action := if bool_decide (owner = localAddress_) then LOCAL else REDIRECT in
  match GetActiveBatch snap with
  | Some b =>
    if bool_decide (btype b = SCALE_OUT ∨ btype b = SCALE_IN) && bool_decide (action = LOCAL) then
      let! prospective := ro_LocateProspectiveOwner snap token in
      match prospective with
      | None => Fail K_RUNTIME_ERROR
      | Some p =>
        if bool_decide (addr p = owner) then Ok (MkRedirect version action owner "" (epoch b))
        else Ok (MkRedirect version (if bool_decide (btype b = SCALE_OUT) then WAIT else REDIRECT) owner (addr p) (epoch b))
      end
    else Ok (MkRedirect version action owner "" 0)
  | None => Ok (MkRedirect version action owner "" 0)
  end.

Definition EvaluateRedirect (loaded : res TopologySnapshot) (placementKey : string) : res RedirectDecision :=
  check! negb (empty_str localAddress_) else K_INVALID in
  let! snap := loaded in EvaluateRedirectInSnapshot snap placementKey.

Fixpoint redirect_loop (snap : TopologySnapshot) (keys : list string) : res (list RedirectDecision) :=
  match keys with
  | [] => Ok []
  | key :: keys' =>
    let! item := EvaluateRedirectInSnapshot snap key in
    let! rest := redirect_loop snap keys' in Ok (item :: rest)
  end.

Definition EvaluateRedirectBatch (loaded : res TopologySnapshot) (placementKeys : list string) : res BatchRedirectDecision :=
  check! negb (empty_str localAddress_) else K_INVALID in
  check! batch_size_ok placementKeys else K_INVALID in
  let! snap := loaded in
  let! decisions := redirect_loop snap placementKeys in
  Ok (MkBatchRedirect (Version snap) decisions).

Definition IsLocalOwner (loaded : res TopologySnapshot) (placementKey : string) : res bool :=
  let! decision := EvaluateRedirect loaded placementKey in
  Ok (bool_decide (rd_committedOwnerAddress decision = localAddress_)).

Definition Facade_IsScaleOutHandoffComplete (s : snapshots) (placementKey : string) (batchEpoch : Z) : bool :=
  IsScaleOutHandoffComplete s batchEpoch (ro_Hash placementKey).
End Facade.

(** ** Filters of a migration *)
Definition Contains (ranges_ : list TokenRange) (key : string) : bool := contains ranges_ (MurmurHash.Hash key).

Record StorageScanSegment := MkSegment { sg_from : Z; sg_end : Z }.
Definition CreateHash (ranges : list TokenRange) : list StorageScanSegment := (λ r, MkSegment (from r) (to r)) <$> ranges.

(** [None] is a null implementation pointer. *)
Definition GetSegments (plan : option (list StorageScanSegment)) : res (list StorageScanSegment) :=
  match plan with
  | Some segments => check! negb (bool_decide (List.length segments = 0%nat)) else K_INVALID in Ok segments
  | None => Fail K_INVALID
  end.

(** ** The endpoint view *)
Inductive EndpointAvailability := UNKNOWN | REACHABLE | UNREACHABLE.
Record EndpointObservation := MkObservation { eo_identity : MemberIdentity; eo_topologyVersion : Z; eo_availability : EndpointAvailability }.
Record MemberEndpoint := MkEndpoint { me_identity : MemberIdentity; me_topologyState : MemberState; me_localAvailability : EndpointAvailability }.

Record view := MkView { hasObservations_ : bool; observationsByAddress_ : gmap string EndpointObservation }.
Definition MembershipEndpointView : view := MkView false ∅.

(** Whether an observation of [address] is of the member and version of a snapshot. *)
Definition is_current (snap : TopologySnapshot) (address : string) (o : EndpointObservation) : bool :=
  match FindMemberByAddress snap address with
  | Ok m => bool_decide (identity m = eo_identity o) && (Version snap =? eo_topologyVersion o)
  | Fail _ => false
  end.

Definition UpdateObservation (v : view) (loaded : res TopologySnapshot) (o : EndpointObservation) : view * res unit :=
  match loaded with
  | Fail c => (v, Fail c)
  | Ok snap =>
    if is_current snap (address (eo_identity o)) o
       && match observationsByAddress_ v !! address (eo_identity o) with
          | Some current => eo_topologyVersion current <=? eo_topologyVersion o
          | None => true
          end
    then (MkView true (<[address (eo_identity o) := o]> (observationsByAddress_ v)), Ok tt)
    else (v, Fail K_INVALID)
  end.

Definition RemoveStaleObservations (v : view) (loaded : res TopologySnapshot) : view :=
  match loaded with
  | Fail _ => v
  | Ok snap =>
    let kept := filter (λ kv : string * EndpointObservation, is_current snap kv.1 kv.2 = true) (observationsByAddress_ v) in
    MkView (negb (bool_decide (kept = ∅))) kept
  end.

Definition ResolveLocalAvailability (v : view) (m : Member) (topologyVersion : Z) : EndpointAvailability :=
  match state m with
  | FAILED => UNREACHABLE
  | _ =>
    if hasObservations_ v then
      match observationsByAddress_ v !! addr m with
      | Some o => if bool_decide (eo_identity o = identity m) && (eo_topologyVersion o =? topologyVersion)
                  then eo_availability o else UNKNOWN
      | None => UNKNOWN
      end
    else UNKNOWN
  end.

Definition endpoint_of (v : view) (snap : TopologySnapshot) (m : Member) : MemberEndpoint :=
  MkEndpoint (identity m) (state m) (ResolveLocalAvailability v m (Version snap)).

Definition ResolveByAddress (v : view) (loaded : res TopologySnapshot) (a : string) : res MemberEndpoint :=
  let! snap := loaded in let! m := FindMemberByAddress snap a in Ok (endpoint_of v snap m).

Definition ResolveById (v : view) (loaded : res TopologySnapshot) (i : string) : res MemberEndpoint :=
  let! snap := loaded in let! m := FindMemberById snap i in Ok (endpoint_of v snap m).

(** ** Filters agree *)

(** The key filter of a task and its scan plan select the same keys. *)
Lemma filter_exact ranges key segments :
  ascending ranges → GetSegments (Some (CreateHash ranges)) = Ok segments →
  Contains ranges key = true ↔ ∃ g, g ∈ segments ∧ sg_from g ≤ MurmurHash.Hash key ≤ sg_end g.
Proof.
  intros Ha Hg. unfold Contains. rewrite contains_in //. unfold GetSegments in Hg. destruct (negb _); [|done]. injection Hg as <-.
  unfold CreateHash, in_ranges, in_range. setoid_rewrite list_elem_of_fmap. split.
  - intros (r & Hr & H). exists (MkSegment (from r) (to r)). split; [by exists r|done].
  - intros (g & (r & -> & Hr) & H). by exists r.
Qed.

(** ** Observations are fenced *)
Inductive view_op := VUpdate (loaded : res TopologySnapshot) (o : EndpointObservation) | VRemove (loaded : res TopologySnapshot).
Definition view_step (v : view) (op : view_op) : view :=
  match op with VUpdate loaded o => (UpdateObservation v loaded o).1 | VRemove loaded => RemoveStaleObservations v loaded end.
Definition view_run (ops : list view_op) : view := foldl view_step MembershipEndpointView ops.

Definition view_inv (ops : list view_op) (v : view) : Prop :=
  hasObservations_ v = negb (bool_decide (observationsByAddress_ v = ∅))
  ∧ ∀ a o, observationsByAddress_ v !! a = Some o →
      address (eo_identity o) = a ∧ ∃ snap, VUpdate (Ok snap) o ∈ ops ∧ is_current snap a o = true.

Lemma view_inv_step ops v op : view_inv ops v → view_inv (ops ++ [op]) (view_step v op).
Proof.
  intros [Hh Ho].
  assert (∀ a o, observationsByAddress_ v !! a = Some o →
    address (eo_identity o) = a ∧ ∃ snap, VUpdate (Ok snap) o ∈ ops ++ [op] ∧ is_current snap a o = true) as Ho'.
  { intros a o Hl. destruct (Ho a o Hl) as (? & snap & Hin & ?). split; [done|]. exists snap. split; [|done]. apply elem_of_app. by left. }
  destruct op as [loaded o|loaded]; cbn [view_step].
  - unfold UpdateObservation. destruct loaded as [snap|c]; [|done]. destruct (_ && _) eqn:E; [|done]. apply andb_true_iff in E as [E _]. split; cbn.
    + rewrite bool_decide_eq_false_2; [apply insert_non_empty|done].
    + intros a o'. rewrite lookup_insert_Some. intros [[<- <-]|[_ Hl]]; [|by apply Ho']. split; [done|]. exists snap. split; [|done].
      apply elem_of_app. right. by left.
  - unfold RemoveStaleObservations. destruct loaded as [snap|c]; [|done]. split; [done|]. cbn. intros a o [Hl _]%map_lookup_filter_Some. by apply Ho'.
Qed.

Lemma view_inv_run ops : view_inv ops (view_run ops).
Proof.
  induction ops as [|op ops IH] using rev_ind; [by split; [|intros a o Hl; rewrite lookup_empty in Hl]|].
  unfold view_run. rewrite foldl_app. by apply view_inv_step.
Qed.

(** The view reports an endpoint as reachable or unreachable only for a failed member or from an observation made of the
    very member and topology version asked about, accepted while a snapshot with both was current. *)
Lemma availability_fenced ops m v :
  state m ≠ FAILED → ResolveLocalAvailability (view_run ops) m v ≠ UNKNOWN →
  ∃ snap o, VUpdate (Ok snap) o ∈ ops ∧ is_current snap (addr m) o = true ∧ eo_identity o = identity m ∧ eo_topologyVersion o = v
    ∧ ResolveLocalAvailability (view_run ops) m v = eo_availability o.
Proof.
  intros Hs. destruct (view_inv_run ops) as [_ Ho]. unfold ResolveLocalAvailability.
  destruct (state m); try done; (destruct (hasObservations_ (view_run ops)); [|done];
    destruct (observationsByAddress_ (view_run ops) !! addr m) as [o|] eqn:El; [|done];
    destruct (_ && _) eqn:E; [|done]; apply andb_true_iff in E as [E1%bool_decide_eq_true E2%Z.eqb_eq]; intros _;
    destruct (Ho _ _ El) as (_ & snap & Hin & Hc); by exists snap, o).
Qed.

(** ** The ring a snapshot routes by *)
Definition serving (b : ActiveBatch) (m : Member) : bool := IsProspective (state m) (Some b).
Definition ordinary (b : ActiveBatch) : Prop := btype b = SCALE_OUT ∨ btype b = SCALE_IN.

Lemma locate_any {A} (os : list (Z * A)) t a : pt_sorted os → NoDup os.*1 → LocateIndexedOwner os t = Ok a ↔ ring_succ os t a.
Proof.
  intros Hs Hn. destruct os as [|o os]; [|by apply locate_iff]. split; [done|]. intros (p & Hp & _). by apply elem_of_nil in Hp.
Qed.

Lemma route_committed st rev dig t m :
  ring_valid (members st) → LocateOwner (BuildIndexes st rev dig) t = Ok m ↔ owner is_committed (members st) t m.
Proof. intros Hr. apply locate_any; [apply owners_sorted|apply owners_NoDup, Hr]. Qed.

Lemma route_prospective st rev dig b t m i :
  ring_valid (members st) → activeBatch st = Some b → owner_id (serving b) (members st) t i →
  LocateProspectiveOwner (BuildIndexes st rev dig) t = Ok m ↔ owner (serving b) (members st) t m.
Proof.
  intros Hr Eb (m0 & (p & Hp & _) & _). unfold LocateProspectiveOwner. cbn [prospectiveTokenOwners_ BuildIndexes]. rewrite Eb.
  change (λ m, IsProspective (state m) (Some b)) with (serving b). unfold owner. destruct (owners_of (serving b) (members st)) as [|o os] eqn:Eo.
  { by apply elem_of_nil in Hp. }
  rewrite -Eo. apply locate_any; [apply owners_sorted|apply owners_NoDup, Hr].
Qed.

(** The changes of a rebuilt plan are the tokens whose two owners on the snapshot differ. *)
Lemma scale_out_moves tpm st plan t s d :
  ring_valid (members st) → PlanScaleOut (MkScaleOut st (MembersInState st JOINING) tpm) = Ok plan → token_ok t →
  (∃ c, c ∈ ownerChanges plan ∧ ch_source c = Some s ∧ ch_target c = d ∧ in_ranges t (ch_ranges c))
  ↔ owner_id is_committed (members st) t s ∧ owner_id prospective (members st) t d ∧ s ≠ d.
Proof.
  intros Hr Hp Ht. apply PlanScaleOut_spec in Hp as (_ & Hv & (new & En & Hnew) & _ & [_ Hx] & _); [|apply Hr]. cbn [so_current joining] in *.
  assert (new = []) as ->; [|rewrite Hx // En app_nil_r; done].
  destruct new as [|m new]; [done|]. destruct (Hnew m) as (_ & (m' & Hm' & Ei & _)%elem_of_in_state & _); [by left|].
  pose proof (rv_ids _ Hv) as Hid. rewrite En fmap_app in Hid. apply NoDup_app in Hid as (_ & Hdis & _).
  destruct (Hdis (mid m)); [|by left]. rewrite list_elem_of_fmap. exists m'. unfold mid. by rewrite Ei.
Qed.

Lemma scale_in_moves st plan t s d :
  ring_valid (members st) → PlanScaleIn st (MembersInState st LEAVING) = Ok plan → token_ok t →
  (∃ c, c ∈ ownerChanges plan ∧ ch_source c = Some s ∧ ch_target c = d ∧ in_ranges t (ch_ranges c))
  ↔ owner_id is_committed (members st) t s ∧ owner_id (λ m, is_committed m && negb (bool_decide (state m = LEAVING))) (members st) t d ∧ s ≠ d.
Proof.
  intros Hr Hp Ht. apply PlanScaleIn_spec in Hp as (_ & _ & (_ & Hx & _)); [|apply Hr]. rewrite Hx //.
  set (q := λ m, is_committed m && negb (bool_decide (identity m ∈ MembersInState st LEAVING))).
  assert (∀ m, m ∈ members st → bool_decide (identity m ∈ MembersInState st LEAVING) = bool_decide (state m = LEAVING)) as Hsel.
  { intros m Hm. apply bool_decide_ext. rewrite elem_of_in_state. split; [|intros E; by exists m].
    intros (m' & Hm' & Ei & Es). assert (m = m') as ->; [|done]. eapply (NoDup_fmap_elem mid); [apply Hr|done..|]. unfold mid. by rewrite Ei. }
  rewrite (owner_id_ext q (λ m, is_committed m && negb (bool_decide (state m = LEAVING)))); [intros m Hm; unfold q; by rewrite Hsel|].
  split; intros (Hs & Hd & H); (split; [done|]); (split; [done|]).
  - intros ->. destruct Hd as (m & Hm & <-). apply owner_elem in Hm as [Hm [_ Hn]%andb_true_iff].
    rewrite -(Hsel m Hm) bool_decide_eq_true_2 // in Hn.
  - eapply (moved_source is_committed); [done| |exact Hs|exact Hd|done]. intros m Hm. rewrite andb_true_iff negb_true_iff -(Hsel m Hm) bool_decide_eq_false. done.
Qed.

Lemma rebuild_moves tpm st rev dig b plan t s d :
  ring_valid (members st) → activeBatch st = Some b → ordinary b → RebuildPlan tpm (BuildIndexes st rev dig) = Ok plan → token_ok t →
  (∃ c, c ∈ ownerChanges plan ∧ ch_source c = Some s ∧ ch_target c = d ∧ in_ranges t (ch_ranges c))
  ↔ owner_id is_committed (members st) t s ∧ owner_id (serving b) (members st) t d ∧ s ≠ d.
Proof.
  intros Hr Eb Hb Hp Ht. unfold RebuildPlan in Hp. cbn [state_ BuildIndexes] in Hp. rewrite Eb in Hp. unfold serving, IsProspective.
  destruct (negb _); [|done]. destruct Hb as [E|E]; rewrite E in Hp |- *; cbn [selected_state] in Hp.
  - rewrite bool_decide_eq_false_2 // in Hp. apply res_bind_Ok in Hp as (plan0 & Hp & [= <-]). cbn [ownerChanges].
    apply (scale_out_moves tpm (with_members (members st) st)); [done|exact Hp|done].
  - rewrite bool_decide_eq_false_2 // in Hp. apply res_bind_Ok in Hp as (plan0 & Hp & [= <-]). cbn [ownerChanges].
    apply (scale_in_moves (with_members (members st) st)); [done|exact Hp|done].
Qed.

(** Both rings have an owner for every token. *)
Lemma nonempty_owner p ms t m x : (x, m) ∈ owners_of p ms → ∃ m', owner p ms t m'.
Proof.
  intros Hx. assert (owners_of p ms ≠ []) as Hne. { intros E. rewrite E in Hx. by apply elem_of_nil in Hx. }
  destruct (locate_succ _ t (owners_sorted p ms) Hne) as (m' & _ & ?). by exists m'.
Qed.

Lemma serving_total tpm st rev dig b plan t m :
  ring_valid (members st) → activeBatch st = Some b → ordinary b → RebuildPlan tpm (BuildIndexes st rev dig) = Ok plan →
  owner is_committed (members st) t m → ∃ m', owner (serving b) (members st) t m'.
Proof.
  intros Hr Eb [E|E] Hp (x & Hx & _).
  - apply (nonempty_owner _ _ t m x). apply elem_of_owners in Hx as (? & Hc & ?). apply elem_of_owners. split_and!; [done| |done].
    unfold serving, IsProspective. rewrite E. unfold is_committed in Hc. by rewrite Hc.
  - unfold RebuildPlan in Hp. cbn [state_ BuildIndexes] in Hp. rewrite Eb in Hp. destruct (negb _); [|done]. rewrite E in Hp. cbn [selected_state] in Hp.
    rewrite bool_decide_eq_false_2 // in Hp. apply res_bind_Ok in Hp as (plan0 & Hp & _).
    apply (PlanScaleIn_spec (with_members (members st) st)) in Hp as (_ & _ & (_ & _ & Htot)); [|apply Hr].
    destruct (Htot t) as (i & m' & (y & Hy & _) & _). apply (nonempty_owner _ _ t m' y). apply elem_of_owners in Hy as (Hin & Hc & ?).
    apply elem_of_owners. split_and!; [done| |done]. apply andb_true_iff in Hc as [Hc Hn]. unfold serving, IsProspective. rewrite E.
    unfold is_committed in Hc. rewrite Hc. cbn [andb]. apply negb_true_iff, bool_decide_eq_false in Hn. apply negb_true_iff, bool_decide_eq_false.
    intros Es. apply Hn, elem_of_in_state. by exists m'.
Qed.

(** What the facade decides, from the two owners. *)
Lemma redirect_decision local st rev dig b key m p :
  local ≠ "" → activeBatch st = Some b → ordinary b →
  LocateOwner (BuildIndexes st rev dig) (MurmurHash.Hash key) = Ok m → LocateProspectiveOwner (BuildIndexes st rev dig) (MurmurHash.Hash key) = Ok p →
  EvaluateRedirect local (Ok (BuildIndexes st rev dig)) key = Ok
    (if bool_decide (addr m = local) then
       if bool_decide (addr p = addr m) then MkRedirect (version st) LOCAL (addr m) "" (epoch b)
       else MkRedirect (version st) (if bool_decide (btype b = SCALE_OUT) then WAIT else REDIRECT) (addr m) (addr p) (epoch b)
     else MkRedirect (version st) REDIRECT (addr m) "" 0).
Proof.
  intros Hl Eb Ho Hm Hp. unfold EvaluateRedirect. apply empty_str_false in Hl. rewrite Hl. cbn [negb res_bind].
  unfold EvaluateRedirectInSnapshot, LocateInSnapshot. cbn [ro_Hash ro_LocateOwner hash_routing]. rewrite Hm.
  cbn [res_bind pd_topologyVersion pd_committedOwnerAddress]. unfold GetActiveBatch, Version. cbn [state_ BuildIndexes]. rewrite Eb.
  rewrite (bool_decide_eq_true_2 (btype b = SCALE_OUT ∨ btype b = SCALE_IN)) //. cbn [andb].
  destruct (bool_decide (addr m = local)); [|done]. rewrite (bool_decide_eq_true_2 (LOCAL = LOCAL)) //.
  cbn [ro_LocateProspectiveOwner hash_routing]. rewrite Hp. cbn [res_bind]. by destruct (bool_decide (addr p = addr m)).
Qed.

(** The derived tasks and the two owners of a token. *)
Lemma task_of_move HashSHA256 b changes tasks t (own1 own2 : Z → MemberIdentity → Prop) :
  derives HashSHA256 b changes tasks →
  (∀ s d, (∃ c, c ∈ changes ∧ ch_source c = Some s ∧ ch_target c = d ∧ in_ranges t (ch_ranges c)) ↔ own1 t s ∧ own2 t d ∧ s ≠ d) →
  (∀ i j, own1 t i → own1 t j → i = j) → (∀ i j, own2 t i → own2 t j → i = j) →
  (∀ task, task ∈ tasks → covers t task = true → ∃ s d, own1 t s ∧ own2 t d ∧ s ≠ d ∧ moves task = (address s, address d))
  ∧ ∀ s d, own1 t s → own2 t d → s ≠ d → ∃ task, task ∈ tasks ∧ covers t task = true ∧ moves task = (address s, address d).
Proof.
  intros (Hcnt & Hall & _) Hx Hu1 Hu2.
  assert (∀ task, task ∈ tasks → covers t task = true → ∃ s d, own1 t s ∧ own2 t d ∧ s ≠ d ∧ moves task = (address s, address d)) as Hfrom.
  { intros task Ht Hc. destruct (Hall task Ht) as (_ & _ & _ & _ & c & src & Hin & Es & Em & Hcov).
    destruct (proj1 (Hx src (ch_target c))) as (H1 & H2 & H3). { exists c. split_and!; [done..|]. apply covered_in. by apply Hcov. }
    by exists src, (ch_target c). }
  split; [done|]. intros s d Hs Hd Hne. destruct (proj2 (Hx s d)) as (c & Hin & Es & Ed & Hr); [done|].
  specialize (Hcnt t). assert (existsb (λ c, covered t (ch_ranges c)) changes = true) as Hex.
  { apply existsb_Exists, Exists_exists. exists c. split; [done|]. by apply covered_in. }
  rewrite Hex in Hcnt. destruct (proj1 (count_pos (covers t) tasks)) as (task & Ht & Hc); [lia|]. exists task. split; [done|]. split; [done|].
  destruct (Hfrom task Ht Hc) as (s' & d' & Hs' & Hd' & _ & ->). by rewrite (Hu1 s s') // (Hu2 d d').
Qed.

(** ** A batch as the workers see it *)
Section Batch.
Context (HashSHA256 : chars → res chars) (Hdig : digest_ok HashSHA256) (tokens_per_member : Z) (wn : wire TaskNotifyPb).
Context (latest : TopologyState) (Hinv : plan_inv latest) (Hver : version latest < INT64_MAX).
Context (plan : TopologyPlan) (Hst : starts tokens_per_member latest plan).
Context (rev : Z) (dig : string) (snap : TopologySnapshot) (Hc : Create (next plan) rev dig = Ok snap).
Context (b : ActiveBatch) (Eb : activeBatch (next plan) = Some b) (Hord : ordinary b).
Context (Hex : ∃ m, m ∈ members (next plan) ∧ is_committed m = true).

Lemma hash_token key : token_ok (MurmurHash.Hash key).
Proof. pose proof (MurmurHash.MurmurHash3_32_range (MurmurHash.bytes_of key) 0 ltac:(lia)). unfold token_ok, UINT32_MAX. unfold MurmurHash.Hash. lia. Qed.

Lemma batch_snapshot : snap = BuildIndexes (canon (next plan)) rev dig ∧ ring_valid (members (canon (next plan)))
  ∧ Forall member_ok (members (canon (next plan))).
Proof.
  destruct (starts_inv _ _ Hinv Hver _ Hst) as [Hadv _]. apply Create_ok in Hc as (_ & -> & _). split; [done|].
  split; [apply canon_ring, Hadv|apply canon_members_ok, Hadv].
Qed.

Lemma batch_committed t : ∃ m, owner is_committed (members (canon (next plan))) t m.
Proof.
  destruct (starts_inv _ _ Hinv Hver _ Hst) as [Hadv _]. destruct Hex as (m & Hm & Hcm).
  assert (tokens m ≠ []) as Hne. { apply (pi_tokens _ Hadv); [done|]. intros E. unfold is_committed in Hcm. by rewrite E in Hcm. }
  destruct (tokens (sort_tokens m)) as [|x xs] eqn:Et.
  { destruct Hne. cbn [sort_tokens tokens] in Et. apply Permutation_nil. by rewrite -Et merge_sort_Permutation. }
  apply (nonempty_owner _ _ t (sort_tokens m) x), elem_of_owners. split_and!; [|done|rewrite Et; by left].
  rewrite canon_members_perm. by apply list_elem_of_fmap_2.
Qed.

(** The two owners of a token, the facade's decision and the derived tasks in terms of them. *)
Lemma batch_route key : ∃ m p e,
  m ∈ members (canon (next plan)) ∧ p ∈ members (canon (next plan))
  ∧ RebuildExpected HashSHA256 tokens_per_member wn snap [] false = Ok e
  ∧ (∀ local, local ≠ "" → EvaluateRedirect local (Ok snap) key = Ok
      (if bool_decide (addr m = local) then
         if bool_decide (addr p = addr m) then MkRedirect (version (next plan)) LOCAL (addr m) "" (epoch b)
         else MkRedirect (version (next plan)) (if bool_decide (btype b = SCALE_OUT) then WAIT else REDIRECT) (addr m) (addr p) (epoch b)
       else MkRedirect (version (next plan)) REDIRECT (addr m) "" 0))
  ∧ (∀ task, task ∈ ed_tasks e → covers (MurmurHash.Hash key) task = true → addr p ≠ addr m ∧ moves task = (addr m, addr p))
  ∧ (addr p ≠ addr m → ∃ task, task ∈ ed_tasks e ∧ covers (MurmurHash.Hash key) task = true ∧ moves task = (addr m, addr p))
  ∧ ed_tasks e = merge_sort id_le (named HashSHA256 <$> flat_map (change_tasks (btype b) (epoch b)) (ownerChanges plan))
  ∧ ∀ c, c ∈ ownerChanges plan → change_fits (next plan) (btype b) c.
Proof.
  destruct batch_snapshot as (Es & Hr & Hok). set (t := MurmurHash.Hash key). pose proof (hash_token key : token_ok t) as Ht.
  destruct (rebuild_expected HashSHA256 Hdig tokens_per_member latest Hinv Hver wn plan rev dig snap Hst Hc)
    as (b' & e & Eb' & He & Et & _ & _ & Hfit & Hap). rewrite Eb in Eb'. injection Eb' as <-.
  pose proof (starts_rebuilt _ _ Hinv Hver _ Hst _ _ _ Hc) as Hp. rewrite Es in Hp.
  assert (activeBatch (canon (next plan)) = Some b) as Eb' by done.
  destruct (batch_committed t) as [m Hm]. destruct (serving_total _ _ _ _ _ _ t m Hr Eb' Hord Hp Hm) as [p Hpr].
  pose proof (owner_elem _ _ _ _ Hm) as [Hm' _]. pose proof (owner_elem _ _ _ _ Hpr) as [Hp' _].
  assert (derives HashSHA256 b (ownerChanges plan) (ed_tasks e)) as Hd.
  { rewrite Et. apply tasks_derived; [done|]. intros c Hin. by eapply fits_disjoint, Hfit. }
  destruct (task_of_move HashSHA256 b (ownerChanges plan) (ed_tasks e) t (owner_id is_committed (members (canon (next plan))))
    (owner_id (serving b) (members (canon (next plan)))) Hd) as [H1 H2].
  { intros s d. by apply (rebuild_moves _ _ _ _ _ _ t s d Hr Eb' Hord Hp Ht). }
  { intros i j. by apply owner_id_unique. } { intros i j. by apply owner_id_unique. }
  assert (owner_id is_committed (members (canon (next plan))) t (identity m)) as Hmi by by exists m.
  assert (owner_id (serving b) (members (canon (next plan))) t (identity p)) as Hpi by by exists p.
  exists m, p, e. split_and!; [done..| | | |done|done].
  - intros local Hl. rewrite Es. apply (redirect_decision local (canon (next plan)) rev dig b key m p); [done..| |].
    + by apply (route_committed (canon (next plan))).
    + by apply (route_prospective (canon (next plan)) rev dig b t p (identity p)).
  - intros task Hin Hcov. destruct (H1 task Hin Hcov) as (s & d & Hs & Hd' & Hne & Emv).
    rewrite (owner_id_unique _ _ _ _ _ Hr Hs Hmi) (owner_id_unique _ _ _ _ _ Hr Hd' Hpi) in Hne Emv. split; [|done].
    intros Ea. apply Hne. f_equal. eapply (NoDup_fmap_elem addr); [apply Hr|done..].
  - intros Hne. apply (H2 (identity m) (identity p)); [done..|]. intros E. apply Hne. unfold addr. by rewrite E.
Qed.
(** The ranges of a derived task are ranges of a change, so they are well formed. *)
Lemma batch_task_ranges tasks task :
  tasks = merge_sort id_le (named HashSHA256 <$> flat_map (change_tasks (btype b) (epoch b)) (ownerChanges plan)) →
  (∀ c, c ∈ ownerChanges plan → change_fits (next plan) (btype b) c) → task ∈ tasks → Forall wf_range (ToRanges (ranges_of task)).
Proof.
  intros -> Hfit. rewrite elem_of_merge_sort. intros (task' & -> & Ht)%list_elem_of_fmap.
  apply list_elem_of_In, in_flat_map in Ht as (c & Hcin%list_elem_of_In & Ht%list_elem_of_In).
  unfold named. destruct (with_id_facts (BuildTaskId HashSHA256 task') task') as (_ & -> & _).
  destruct (Hfit c Hcin) as ([Hf _] & _ & ms & _ & Es & _). unfold change_tasks, AppendTaskChunks in Ht. rewrite Es in Ht. cbn [app] in Ht.
  apply list_elem_of_fmap in Ht as (ch & -> & Hch). destruct (chunks_spec _ (sort_ranges (ch_ranges c)) ltac:(done)) as [_ Hsp].
  destruct (Hsp ch Hch) as (_ & _ & l1 & l2 & E).
  assert (StronglySorted range_le ch) as Hss. { apply (StronglySorted_middle _ l1 ch l2). rewrite -E. apply sort_ranges_sorted. }
  destruct (chunk_task_facts (btype b) (epoch b) (address (identity ms)) (address (ch_target c)) ch Hss) as (_ & _ & _ & -> & _).
  rewrite Forall_forall in Hf. apply Forall_forall. intros r Hr. specialize (Hf r). unfold wf_range. cbn in Hf.
  assert (r ∈ ch_ranges c) as Hin; [|specialize (Hf Hin); lia].
  rewrite -(elem_of_merge_sort range_le). change (r ∈ sort_ranges (ch_ranges c)). rewrite E !elem_of_app. tauto.
Qed.
End Batch.

(** ** Properties *)

(** C20: a worker turns away exactly the keys that are being moved.  While a scale-out or scale-in is going on, as the
    plan builder started it, every worker decides on every key; a key another worker has committed ownership of goes to that
    worker; for its own keys it serves those no derived task covers, and for the others it names the very
    target of the task that moves the key away from it, asking the client to wait during a scale-out and
    redirecting it during a scale-in. *)
Theorem redirect_matches_tasks (HashSHA256 : chars → res chars) (Hdig : digest_ok HashSHA256) (tokens_per_member : Z) (wn : wire TaskNotifyPb)
    (latest : TopologyState) (Hinv : plan_inv latest) (Hver : version latest < INT64_MAX)
    (plan : TopologyPlan) (Hst : starts tokens_per_member latest plan) (rev : Z) (dig : string) (snap : TopologySnapshot)
    (Hc : Create (next plan) rev dig = Ok snap) (b : ActiveBatch) (Eb : activeBatch (next plan) = Some b) (Hord : ordinary b)
    (Hex : ∃ m, m ∈ members (next plan) ∧ is_committed m = true) (local key : string) (Hl : local ≠ "") :
  ∃ e d, RebuildExpected HashSHA256 tokens_per_member wn snap [] false = Ok e ∧ EvaluateRedirect local (Ok snap) key = Ok d
    ∧ (rd_committedOwnerAddress d ≠ local → rd_action d = REDIRECT ∧ GetRedirectTargetAddress d = rd_committedOwnerAddress d)
    ∧ (rd_committedOwnerAddress d = local →
       (rd_action d = LOCAL ∧ ∀ task, task ∈ ed_tasks e → covers (MurmurHash.Hash key) task = false)
       ∨ (rd_action d = (if bool_decide (btype b = SCALE_OUT) then WAIT else REDIRECT) ∧ rd_batchEpoch d = epoch b
          ∧ ∃ task, task ∈ ed_tasks e ∧ covers (MurmurHash.Hash key) task = true ∧ moves task = (local, GetRedirectTargetAddress d))).
Proof.
  destruct (batch_route HashSHA256 Hdig tokens_per_member wn latest Hinv Hver plan Hst rev dig snap Hc b Eb Hord Hex key)
    as (m & p & e & Hm & Hp & He & Hd & H1 & H2 & _). destruct (batch_snapshot tokens_per_member latest Hinv Hver plan Hst rev dig snap Hc) as (_ & _ & Hok).
  eexists e, _. split; [done|]. split; [by apply Hd|].
  destruct (decide (addr m = local)) as [Em|Em]; [rewrite (bool_decide_eq_true_2 (addr m = local)) //|rewrite (bool_decide_eq_false_2 (addr m = local)) //].
  - destruct (decide (addr p = addr m)) as [Ep|Ep]; [rewrite (bool_decide_eq_true_2 (addr p = addr m)) //|rewrite (bool_decide_eq_false_2 (addr p = addr m)) //];
      cbn; (split; [by intros []|]); intros _; [left|right].
    + split; [done|]. intros task Hin. destruct (covers _ task) eqn:Ecv; [|done]. by destruct (H1 task Hin Ecv).
    + split; [done|]. split; [done|]. destruct (H2 Ep) as (task & Hin & Hcov & Emv). exists task. split_and!; [done..|].
      rewrite Forall_forall in Hok. destruct (Hok p Hp) as (Hne & _). unfold GetRedirectTargetAddress. cbn.
      apply empty_str_false in Hne. by rewrite Hne Emv Em.
Qed.

Lemma redirect_matches_tasks_witness :
  ∃ plan snap e d, BuildScaleOutStart 2 admitted [identity m3] = Ok plan ∧ Create (next plan) 9 digest0 = Ok snap
    ∧ RebuildExpected sample_digest 2 (MkWire TaskNotifyPb (λ _, None) (λ _, None)) snap [] false = Ok e
    ∧ EvaluateRedirect "10.0.0.1:8001" (Ok snap) "user-7" = Ok d.
Proof.
  destruct (BuildScaleOutStart 2 admitted [identity m3]) as [plan|] eqn:E; [|by vm_compute in E].
  destruct (Create (next plan) 9 digest0) as [snap|] eqn:Ec; [|vm_compute in E; injection E as <-; by vm_compute in Ec].
  destruct (redirect_matches_tasks sample_digest (λ s, ex_intro _ _ (conj eq_refl eq_refl)) 2 (MkWire TaskNotifyPb (λ _, None) (λ _, None)) admitted
    admitted_inv ltac:(unfold INT64_MAX; cbn; lia) plan (starts_scale_out _ _ _ _ E) 9 digest0 snap Ec (MkBatch SCALE_OUT 6)
    ltac:(vm_compute in E; by injection E as <-) ltac:(by left)
    ltac:(vm_compute in E; injection E as <-; exists m1; split; [by left|done]) "10.0.0.1:8001" "user-7" ltac:(done)) as (e & d & He & Hd & _).
  exists plan, snap, e, d. exact (conj eq_refl (conj Ec (conj He Hd))).
Defined.

(** nobody waits forever on a finished hand-over.  When a worker asks a client to wait for a key, the key lies in a
    derived task that this worker executes; after any history in which the snapshot is current, recording the completion of that
    task makes the hand-over test answer yes for the key and the epoch of the decision. *)
Theorem waiting_key_released (HashSHA256 : chars → res chars) (Hdig : digest_ok HashSHA256) (tokens_per_member : Z) (wn : wire TaskNotifyPb)
    (latest : TopologyState) (Hinv : plan_inv latest) (Hver : version latest < INT64_MAX)
    (plan : TopologyPlan) (Hst : starts tokens_per_member latest plan) (rev : Z) (dig : string) (snap : TopologySnapshot)
    (Hc : Create (next plan) rev dig = Ok snap) (b : ActiveBatch) (Eb : activeBatch (next plan) = Some b) (Hord : ordinary b)
    (Hex : ∃ m, m ∈ members (next plan) ∧ is_committed m = true) (local key : string) (Hl : local ≠ "")
    (d : RedirectDecision) (Hd : EvaluateRedirect local (Ok snap) key = Ok d) (Hw : rd_action d = WAIT) :
  ∃ e task, RebuildExpected HashSHA256 tokens_per_member wn snap [] false = Ok e ∧ task ∈ ed_tasks e ∧ executor_of task = local
    ∧ ∀ ops fence, Forall op_ok ops → (spec_run ops).1 = Some snap →
        ef_batchType fence = type_of task → ef_phase fence = PHASE_SCALE_OUT → ef_batchEpoch fence = epoch_of task →
        ef_ranges fence = ToRanges (ranges_of task) →
        Facade_IsScaleOutHandoffComplete (run_ops (ops ++ [ORecord fence])) key (rd_batchEpoch d) = true.
Proof.
  destruct (batch_route HashSHA256 Hdig tokens_per_member wn latest Hinv Hver plan Hst rev dig snap Hc b Eb Hord Hex key)
    as (m & p & e & Hm & Hp & He & Hred & H1 & H2 & Et & Hfit). rewrite (Hred local Hl) in Hd. injection Hd as <-.
  destruct (decide (addr m = local)) as [Em|Em]; [rewrite (bool_decide_eq_true_2 (addr m = local)) // in Hw |- *|by rewrite (bool_decide_eq_false_2 (addr m = local)) // in Hw].
  destruct (decide (addr p = addr m)) as [Ep|Ep]; [by rewrite (bool_decide_eq_true_2 (addr p = addr m)) // in Hw|rewrite (bool_decide_eq_false_2 (addr p = addr m)) // in Hw |- *].
  cbn in Hw |- *. case_bool_decide as Eso; [|done]. destruct (H2 Ep) as (task & Hin & Hcov & Emv).
  pose proof (batch_task_ranges HashSHA256 plan b (ed_tasks e) task Et Hfit Hin) as Hwf.
  assert (derives HashSHA256 b (ownerChanges plan) (ed_tasks e)) as (_ & Hall & _).
  { rewrite Et. apply tasks_derived; [|intros c Hcin; by eapply fits_disjoint, Hfit].
    destruct (rebuild_expected HashSHA256 Hdig tokens_per_member latest Hinv Hver wn plan rev dig snap Hst Hc) as (? & ? & _ & _ & _ & _ & _ & _ & Hap). done. }
  destruct (Hall task Hin) as (_ & Ety & Eep & _). exists e, task. split_and!; [done..| |].
  { unfold moves in Emv. unfold type_of in Ety. destruct task as [tk|tk]; [injection Emv as E1 _; cbn; congruence|]. by rewrite Eso in Ety. }
  intros ops fence Hops Hcur Hty Hph Hep Hrs. unfold Facade_IsScaleOutHandoffComplete. cbn [ro_Hash hash_routing].
  apply handoff_spec; [apply Forall_app; split; [done|]; apply Forall_singleton; cbn; by rewrite Hrs|].
  unfold spec_run. rewrite foldl_app. cbn [foldl]. fold (spec_run ops). cbn [spec_op].
  apply Create_ok in Hc as (Hv & Es & _).
  assert (scale_out_epoch (spec_run ops).1 = Some (epoch b)) as Hso.
  { rewrite Hcur Es. unfold scale_out_epoch. cbn. rewrite Eb. by rewrite bool_decide_eq_true_2. }
  rewrite bool_decide_eq_true_2; [split_and!; [by rewrite Hty Ety|done|by rewrite Hso Hep Eep]|]. cbn.
  split_and!; [|done|].
  - pose proof (tv_batch _ Hv) as Hb. unfold batch_ok in Hb. rewrite Eb in Hb. lia.
  - apply in_token_ranges_app. right. rewrite Hrs. by apply covers_in.
Qed.

Lemma waiting_key_released_witness :
  ∃ plan snap d e task, BuildScaleOutStart 2 admitted [identity m3] = Ok plan ∧ Create (next plan) 9 digest0 = Ok snap
    ∧ EvaluateRedirect "10.0.0.2:8001" (Ok snap) "a" = Ok d ∧ rd_action d = WAIT
    ∧ RebuildExpected sample_digest 2 (MkWire TaskNotifyPb (λ _, None) (λ _, None)) snap [] false = Ok e
    ∧ task ∈ ed_tasks e ∧ executor_of task = "10.0.0.2:8001".
Proof.
  destruct (BuildScaleOutStart 2 admitted [identity m3]) as [plan|] eqn:E; [|by vm_compute in E].
  destruct (Create (next plan) 9 digest0) as [snap|] eqn:Ec; [|vm_compute in E; injection E as <-; by vm_compute in Ec].
  destruct (EvaluateRedirect "10.0.0.2:8001" (Ok snap) "a") as [d|] eqn:Ed;
    [|vm_compute in E; injection E as <-; vm_compute in Ec; injection Ec as <-; by vm_compute in Ed].
  assert (rd_action d = WAIT) as Hw.
  { vm_compute in E; injection E as <-; vm_compute in Ec; injection Ec as <-; vm_compute in Ed; by injection Ed as <-. }
  destruct (waiting_key_released sample_digest (λ s, ex_intro _ _ (conj eq_refl eq_refl)) 2 (MkWire TaskNotifyPb (λ _, None) (λ _, None)) admitted
    admitted_inv ltac:(unfold INT64_MAX; cbn; lia) plan (starts_scale_out _ _ _ _ E) 9 digest0 snap Ec (MkBatch SCALE_OUT 6)
    ltac:(vm_compute in E; by injection E as <-) ltac:(by left)
    ltac:(vm_compute in E; injection E as <-; exists m1; split; [by left|done]) "10.0.0.2:8001" "a" ltac:(done) d Ed Hw)
    as (e & task & He & Hin & Hx & _).
  exists plan, snap, d, e, task. exact (conj eq_refl (conj Ec (conj Ed (conj Hw (conj He (conj Hin Hx)))))).
Defined.

End Placement.
