(* ===== verification/EventDispatcher.v ===== *)
(** * EventDispatcher: the bounded queue of a runtime thread

    Model of [src/datasystem/cluster/runtime/coordination_event_dispatcher.{h,cpp}] and
    [src/datasystem/cluster/runtime/topology_role_watch_plan.cpp]: watch events, callback completions and liveness reports
    wait in one bounded queue for the thread of their role; a watch event for a key that already waits
    replaces the one before it.

    [coordinationByKey_] holds iterators into the queue.  A queue node is therefore a number with its event, an iterator is
    the number, and dereferencing the iterator of a node that is gone is undefined behaviour: such a call has
    the outcome [None].  Each operation holds the mutex and is one step; a completion is whatever type
    the owner of the queue puts in it. *)
From S2P Require Import Prelude NetUtil Topology HashRing Membership KeyHelper.
Import Topology.

Module EventDispatcher.
Local Open Scope Z_scope.

Inductive CoordinationEventType := EVENT_UNSPECIFIED | EVENT_PUT | EVENT_DELETE | EVENT_RESET.
Record CoordinationEvent := MkEvent {
  ce_type : CoordinationEventType; ce_key : string; ce_value : list ascii; ce_version : Z; ce_revision : Z }.

Inductive WorkerLivenessResult := LIVENESS_UNKNOWN | LIVENESS_REACHABLE | LIVENESS_UNREACHABLE.
Record WorkerLivenessReport := MkReport {
  wl_probeEpoch : string; wl_witnessAddress : string; wl_target : MemberIdentity; wl_probeRound : Z;
  wl_result : WorkerLivenessResult; wl_deliveryAttempts : Z }.

Inductive RuntimeEventPayload (C : Type) :=
| Coordination (event : CoordinationEvent)
| Completion (completion : C)
| Liveness (report : WorkerLivenessReport).
Arguments Coordination {C} _.
Arguments Completion {C} _.
Arguments Liveness {C} _.

Record CoordinationEventDispatcherStats := MkStats {
  st_queueDepth : Z; st_submitted : Z; st_coalesced : Z; st_overflow : Z; st_ignoredAfterStop : Z }.

Section Dispatcher.
Context {C : Type}.
Abbreviation payload := (RuntimeEventPayload C).

(** [next_] is the number the next node gets. *)
Record dispatcher := MkDispatcher {
  capacity_ : nat; queue_ : list (nat * payload); coordinationByKey_ : gmap string nat;
  started_ : bool; accepting_ : bool; resyncRequired_ : bool; stats_ : CoordinationEventDispatcherStats; next_ : nat }.

Definition CoordinationEventDispatcher (capacity : nat) : dispatcher :=
  MkDispatcher capacity [] ∅ false false false (MkStats 0 0 0 0 0) 0.

Definition Start (d : dispatcher) : dispatcher * res unit :=
  if bool_decide (0 < capacity_ d)%nat && negb (accepting_ d) then
    let s := stats_ d in
    (MkDispatcher (capacity_ d) [] ∅ true true false
       (MkStats 0 (st_submitted s) (st_coalesced s) (st_overflow s) (st_ignoredAfterStop s)) (next_ d), Ok tt)
  else (d, Fail K_INVALID).

Definition ShutdownIngress (d : dispatcher) : dispatcher :=
  MkDispatcher (capacity_ d) (queue_ d) (coordinationByKey_ d) (started_ d) false (resyncRequired_ d) (stats_ d) (next_ d).

(** [*it = event] for the node [n]. *)
Fixpoint write_node (n : nat) (e : payload) (q : list (nat * payload)) : list (nat * payload) :=
  match q with
  | [] => []
  | (m, x) :: q' => if bool_decide (m = n) then (m, e) :: q' else (m, x) :: write_node n e q'
  end.

Fixpoint read_node (n : nat) (q : list (nat * payload)) : option payload :=
  match q with
  | [] => None
  | (m, x) :: q' => if bool_decide (m = n) then Some x else read_node n q'
  end.

(** The counters: [++submitted] with [++coalesced], [++submitted] with the depth, and so on. *)
Definition count_coalesced (s : CoordinationEventDispatcherStats) : CoordinationEventDispatcherStats :=
  MkStats (st_queueDepth s) (u64 (st_submitted s + 1)) (u64 (st_coalesced s + 1)) (st_overflow s) (st_ignoredAfterStop s).
Definition count_submitted (depth : Z) (s : CoordinationEventDispatcherStats) : CoordinationEventDispatcherStats :=
  MkStats depth (u64 (st_submitted s + 1)) (st_coalesced s) (st_overflow s) (st_ignoredAfterStop s).
Definition count_overflow (s : CoordinationEventDispatcherStats) : CoordinationEventDispatcherStats :=
  MkStats (st_queueDepth s) (st_submitted s) (st_coalesced s) (u64 (st_overflow s + 1)) (st_ignoredAfterStop s).
Definition count_ignored (s : CoordinationEventDispatcherStats) : CoordinationEventDispatcherStats :=
  MkStats (st_queueDepth s) (st_submitted s) (st_coalesced s) (st_overflow s) (u64 (st_ignoredAfterStop s + 1)).
Definition set_depth (depth : Z) (s : CoordinationEventDispatcherStats) : CoordinationEventDispatcherStats :=
  MkStats depth (st_submitted s) (st_coalesced s) (st_overflow s) (st_ignoredAfterStop s).

(** The part of [Submit] after coalescing: [key] is the key to index the new node by. *)
Definition enqueue (d : dispatcher) (event : payload) (key : option string) : dispatcher * res unit :=
  if bool_decide (capacity_ d ≤ List.length (queue_ d))%nat then
    (MkDispatcher (capacity_ d) (queue_ d) (coordinationByKey_ d) (started_ d) (accepting_ d)
       (resyncRequired_ d || bool_decide (is_Some key)) (count_overflow (stats_ d)) (next_ d), Fail K_TRY_AGAIN)
  else
    let q := queue_ d ++ [(next_ d, event)] in
    (MkDispatcher (capacity_ d) q
       (match key with
        | Some k => match coordinationByKey_ d !! k with Some _ => coordinationByKey_ d | None => <[k := next_ d]> (coordinationByKey_ d) end
        | None => coordinationByKey_ d
        end)
       (started_ d) (accepting_ d) (resyncRequired_ d) (count_submitted (Z.of_nat (List.length q)) (stats_ d)) (S (next_ d)), Ok tt).

(** [None]: undefined behaviour, or [std::get] of the wrong alternative. *)
Definition Submit (d : dispatcher) (event : payload) (allowCoalesce : bool) : option (dispatcher * res unit) :=
  if negb (accepting_ d) then
    Some (MkDispatcher (capacity_ d) (queue_ d) (coordinationByKey_ d) (started_ d) (accepting_ d) (resyncRequired_ d)
            (count_ignored (stats_ d)) (next_ d), Fail K_NOT_READY)
  else if allowCoalesce then
    match event with
    | Coordination incoming =>
      match coordinationByKey_ d !! ce_key incoming with
      | Some pending =>
        match read_node pending (queue_ d) with
        | None => None
        | Some (Coordination _) =>
          Some (MkDispatcher (capacity_ d) (write_node pending (Coordination incoming) (queue_ d)) (coordinationByKey_ d) (started_ d)
                  (accepting_ d) (resyncRequired_ d) (count_coalesced (stats_ d)) (next_ d), Ok tt)
        | Some _ => Some (d, Fail K_RUNTIME_ERROR)
        end
      | None => Some (enqueue d event (Some (ce_key incoming)))
      end
    | _ => None
    end
  else Some (enqueue d event None).

Definition SubmitCoordination (d : dispatcher) (event : CoordinationEvent) := Submit d (Coordination event) true.
Definition SubmitCoordinationUncoalesced (d : dispatcher) (event : CoordinationEvent) := Submit d (Coordination event) false.
Definition SubmitCompletion (d : dispatcher) (completion : C) := Submit d (Completion completion) false.
Definition SubmitWorkerLiveness (d : dispatcher) (report : WorkerLivenessReport) := Submit d (Liveness report) false.

(** [WaitPop] once its wait is over, which is when the queue is not empty, the ingress is closed, or the time is up. *)
Definition WaitPop (d : dispatcher) : dispatcher * res payload :=
  match queue_ d with
  | [] => (d, Fail (if accepting_ d then K_RPC_DEADLINE_EXCEEDED else K_NOT_READY))
  | (_, event) :: q =>
    (MkDispatcher (capacity_ d) q
       (match event with Coordination e => delete (ce_key e) (coordinationByKey_ d) | _ => coordinationByKey_ d end)
       (started_ d) (accepting_ d) (resyncRequired_ d) (set_depth (Z.of_nat (List.length q)) (stats_ d)) (next_ d), Ok event)
  end.

Definition ConsumeResyncRequired (d : dispatcher) : dispatcher * bool :=
  (MkDispatcher (capacity_ d) (queue_ d) (coordinationByKey_ d) (started_ d) (accepting_ d) false (stats_ d) (next_ d), resyncRequired_ d).

(** The counters together with the sticky flag. *)
Definition GetStats (d : dispatcher) : CoordinationEventDispatcherStats * bool := (stats_ d, resyncRequired_ d).
End Dispatcher.

(** ** Watch plans *)
Definition WATCH_FROM_NOW : Z := -1.
Inductive TopologyRuntimeRole := ROLE_WORKER | ROLE_CONTROLLER | ROLE_OBSERVER | ROLE_UNIFIED_ETCD.
#[export] Instance TopologyRuntimeRole_eq_dec : EqDecision TopologyRuntimeRole.
Proof. solve_decision. Defined.
Record WatchKey := MkWatchKey { wk_tableName : list ascii; wk_key : list ascii; wk_startRevision : Z }.

Definition BuildTopologyRoleWatchPlan (role : TopologyRuntimeRole) (localAddress : list ascii) (keys : KeyHelper.helper) (startRevision : Z)
    : res (list WatchKey) :=
  check! WATCH_FROM_NOW <=? startRevision else K_INVALID in
  let built := [MkWatchKey (KeyHelper.topologyTable_ keys) KeyHelper.TopologyKey startRevision] in
  let! built := (if bool_decide (role = ROLE_WORKER ∨ role = ROLE_UNIFIED_ETCD)
                 then let! notifyKey := KeyHelper.NotifyKey localAddress in Ok (built ++ [MkWatchKey (KeyHelper.notifyTable_ keys) notifyKey startRevision])
                 else Ok built) in
  let! built := (if bool_decide (role = ROLE_WORKER)
                 then let! probeKey := KeyHelper.ProbeKey localAddress in Ok (built ++ [MkWatchKey (KeyHelper.probeTable_ keys) probeKey startRevision])
                 else Ok built) in
  if bool_decide (role = ROLE_CONTROLLER ∨ role = ROLE_UNIFIED_ETCD) then
    check! negb (bool_decide (role = ROLE_CONTROLLER)) || bool_decide (localAddress = []) else K_INVALID in
    Ok (built ++ [MkWatchKey (KeyHelper.membershipTable_ keys) [] startRevision])
  else if negb (bool_decide (role = ROLE_WORKER)) then
    check! bool_decide (role = ROLE_OBSERVER) && bool_decide (localAddress = []) else K_INVALID in Ok built
  else Ok built.

(** ** The queue as a mailbox *)
Section Mailbox.
Context {C : Type}.
Abbreviation payload := (RuntimeEventPayload C).

(** The calls of the threads that use the queue. *)
Inductive call := CStart | CShutdown | CRing (e : CoordinationEvent) | CUncoalesced (e : CoordinationEvent) | CComplete (c : C)
  | CLive (r : WorkerLivenessReport) | CPop | CConsume.

(** What the calls have promised: whether the queue is open, the last doorbell of each key since that key was delivered, the
    completions ever taken, those of them that are settled, each with whether it was delivered, and whether a doorbell was
    refused since the last resynchronisation.  The doorbells and the requests for a resynchronisation that were given up
    are counted too. *)
Record mailbox := MkMailbox {
  mb_open : bool; mb_mail : gmap string CoordinationEvent; mb_taken : list C; mb_settled : list (C * bool); mb_missed : bool;
  mb_lost : list CoordinationEvent; mb_lostResync : bool }.
Definition empty_mailbox : mailbox := MkMailbox false ∅ [] [] false [] false.

(** A start: an open queue must keep everything; one that was shut down begins anew, and what still waited is lost. *)
Definition restart (m : mailbox) : mailbox :=
  if mb_open m then m
  else MkMailbox true ∅ (mb_taken m) (mb_settled m ++ ((., false) <$> drop (List.length (mb_settled m)) (mb_taken m))) false
         (mb_lost m ++ (map_to_list (mb_mail m)).*2) (mb_lostResync m || mb_missed m).
Definition close (m : mailbox) : mailbox :=
  MkMailbox false (mb_mail m) (mb_taken m) (mb_settled m) (mb_missed m) (mb_lost m) (mb_lostResync m).
Definition with_missed (b : bool) (m : mailbox) : mailbox :=
  MkMailbox (mb_open m) (mb_mail m) (mb_taken m) (mb_settled m) b (mb_lost m) (mb_lostResync m).
Definition with_mail (mail : gmap string CoordinationEvent) (m : mailbox) : mailbox :=
  MkMailbox (mb_open m) mail (mb_taken m) (mb_settled m) (mb_missed m) (mb_lost m) (mb_lostResync m).
Definition with_completions (taken : list C) (settled : list (C * bool)) (m : mailbox) : mailbox :=
  MkMailbox (mb_open m) (mb_mail m) taken settled (mb_missed m) (mb_lost m) (mb_lostResync m).

Definition ring (m : mailbox) (e : CoordinationEvent) (r : res unit) : mailbox :=
  match r with
  | Ok _ => with_mail (<[ce_key e := e]> (mb_mail m)) m
  | Fail K_TRY_AGAIN => with_missed true m
  | Fail _ => m
  end.
Definition take_completion (m : mailbox) (c : C) (r : res unit) : mailbox :=
  match r with Ok _ => with_completions (mb_taken m ++ [c]) (mb_settled m) m | Fail _ => m end.
Definition deliver (m : mailbox) (r : res payload) : mailbox :=
  match r with
  | Ok (Coordination e) => with_mail (delete (ce_key e) (mb_mail m)) m
  | Ok (Completion c) => with_completions (mb_taken m) (mb_settled m ++ [(c, true)]) m
  | _ => m
  end.

Definition exec (y : @dispatcher C * mailbox) (c : call) : option (@dispatcher C * mailbox) :=
  let '(d, m) := y in
  match c with
  | CStart => let '(d', r) := Start d in Some (d', match r with Ok _ => restart m | Fail _ => m end)
  | CShutdown => Some (ShutdownIngress d, close m)
  | CRing e => '(d', r) ← SubmitCoordination d e; Some (d', ring m e r)
  | CUncoalesced e => '(d', r) ← SubmitCoordinationUncoalesced d e; Some (d', m)
  | CComplete c => '(d', r) ← SubmitCompletion d c; Some (d', take_completion m c r)
  | CLive r => '(d', _) ← SubmitWorkerLiveness d r; Some (d', m)
  | CPop => let '(d', r) := WaitPop d in Some (d', deliver m r)
  | CConsume => let '(d', _) := ConsumeResyncRequired d in Some (d', with_missed false m)
  end.

Fixpoint run (y : @dispatcher C * mailbox) (calls : list call) : option (@dispatcher C * mailbox) :=
  match calls with [] => Some y | c :: calls' => y' ← exec y c; run y' calls' end.

Definition completions (q : list (nat * payload)) : list C := omap (λ x, match x.2 with Completion c => Some c | _ => None end) q.
#[local] Arguments completions : simpl never.

Record inv (d : @dispatcher C) (m : mailbox) : Prop := MkInv {
  iv_nodup : NoDup (queue_ d).*1;
  iv_fresh : ∀ n x, (n, x) ∈ queue_ d → (n < next_ d)%nat;
  iv_index : ∀ k n, coordinationByKey_ d !! k = Some n → ∃ e, (n, Coordination e) ∈ queue_ d ∧ ce_key e = k ∧ mb_mail m !! k = Some e;
  iv_mail : ∀ k e, mb_mail m !! k = Some e → is_Some (coordinationByKey_ d !! k);
  iv_room : (List.length (queue_ d) ≤ capacity_ d)%nat;
  iv_fifo : mb_taken m = (mb_settled m).*1 ++ completions (queue_ d);
  iv_open : mb_open m = accepting_ d;
  iv_missed : mb_missed m = resyncRequired_ d }.

Lemma read_node_elem n q x : NoDup q.*1 → (n, x) ∈ q → read_node (C:=C) n q = Some x.
Proof.
  induction q as [|[m y] q IH]; [by intros _ ?%elem_of_nil|]. rewrite fmap_cons. intros [Hn Hnd]%NoDup_cons [E|Hin]%elem_of_cons; cbn.
  - injection E as -> ->. by rewrite bool_decide_eq_true_2.
  - rewrite bool_decide_eq_false_2; [|by apply IH]. intros ->. apply Hn. by apply (list_elem_of_fmap_2 fst _ (n, x)).
Qed.

Lemma write_node_facts n e q : (write_node (C:=C) n e q).*1 = q.*1 ∧ List.length (write_node n e q) = List.length q.
Proof. induction q as [|[m y] q [IH1 IH2]]; [done|]. cbn. case_bool_decide; cbn; [done|]. by rewrite IH1 IH2. Qed.

Lemma elem_of_write_node n e q k x : NoDup q.*1 → (k, x) ∈ write_node (C:=C) n e q → (k = n ∧ x = e) ∨ (k ≠ n ∧ (k, x) ∈ q).
Proof.
  induction q as [|[m y] q IH]; [by intros _ ?%elem_of_nil|]. rewrite fmap_cons. intros [Hn Hnd]%NoDup_cons. cbn.
  case_bool_decide as E; intros [Ek|Hin]%elem_of_cons.
  - left. by injection Ek as -> ->.
  - right. split; [|by right]. intros ->. apply Hn. rewrite E. by apply (list_elem_of_fmap_2 fst _ (n, x)).
  - right. injection Ek as -> ->. split; [done|by left].
  - destruct (IH Hnd Hin) as [?|[? ?]]; [by left|right; split; [done|by right]].
Qed.

Lemma write_node_keeps n e q k x : k ≠ n → (k, x) ∈ q → (k, x) ∈ write_node (C:=C) n e q.
Proof.
  intros Hk. induction q as [|[m y] q IH]; [by intros ?%elem_of_nil|]. cbn. intros [E|Hin]%elem_of_cons.
  - injection E as -> ->. rewrite bool_decide_eq_false_2 //. by left.
  - case_bool_decide; apply elem_of_cons; right; [done|by apply IH].
Qed.

Lemma write_node_hit n e q y : (n, y) ∈ q → (n, e) ∈ write_node (C:=C) n e q.
Proof.
  induction q as [|[m x] q IH]; [by intros ?%elem_of_nil|]. cbn. intros Hin. case_bool_decide as E; [subst; by left|].
  apply elem_of_cons in Hin as [Ek|Hin]; [by simplify_eq|]. right. by apply IH.
Qed.

Lemma completions_cons n x q :
  completions ((n, x) :: q) = match x with Completion c => c :: completions q | _ => completions q end.
Proof. by destruct x. Qed.

Lemma completions_write n e e' q : (n, Coordination e') ∈ q → NoDup q.*1 → completions (write_node (C:=C) n (Coordination e) q) = completions q.
Proof.
  induction q as [|[m x] q IH]; [by intros ?%elem_of_nil|]. rewrite fmap_cons. intros Hin [Hn Hnd]%NoDup_cons. cbn [write_node]. case_bool_decide as E; rewrite !completions_cons.
  - subst m. apply elem_of_cons in Hin as [Ek|Hin]; [by simplify_eq|]. destruct Hn. by apply (list_elem_of_fmap_2 fst _ (n, Coordination e')).
  - apply elem_of_cons in Hin as [Ek|Hin]; [by simplify_eq|]. by rewrite IH.
Qed.
(** A new node at the end, indexed by [key] if there is one. *)
Lemma inv_enqueue d m event key d' r :
  inv d m → enqueue d event key = (d', r) →
  (∀ k, key = Some k → coordinationByKey_ d !! k = None ∧ ∃ e, event = Coordination e ∧ ce_key e = k) →
  inv d' (match event, key with
          | Coordination e, Some _ => ring m e r
          | Completion c, _ => take_completion m c r
          | _, _ => m
          end) ∧ (r = Ok tt ∨ r = Fail K_TRY_AGAIN).
Proof.
  intros [] He Hk. unfold enqueue in He. case_bool_decide as Ef; injection He as <- <-.
  - split; [|by right]. destruct key as [k|].
    + destruct (Hk k eq_refl) as (_ & e & -> & _). constructor; try done. cbn. by rewrite orb_true_r.
    + assert (match event with Coordination e => m | Completion c => take_completion m c (Fail K_TRY_AGAIN) | Liveness _ => m end = m) as E by by destruct event.
      rewrite E. constructor; try done. cbn. by rewrite orb_false_r.
  - split; [|by left].
    assert (List.length (queue_ d ++ [(next_ d, event)]) ≤ capacity_ d)%nat as Hroom. { rewrite length_app /=. lia. }
    assert (NoDup (queue_ d ++ [(next_ d, event)]).*1) as Hnd.
    { rewrite fmap_app. apply NoDup_app. split_and!; [done| |by apply NoDup_singleton].
      intros n ([n' x] & E1 & Hx)%list_elem_of_fmap E2%list_elem_of_singleton. apply iv_fresh0 in Hx. cbn in *. lia. }
    assert (∀ n x, (n, x) ∈ queue_ d ++ [(next_ d, event)] → (n < S (next_ d))%nat) as Hfr.
    { intros n x [Hx|Hx]%elem_of_app; [apply iv_fresh0 in Hx; lia|]. apply list_elem_of_singleton in Hx. injection Hx as -> _. lia. }
    assert (∀ k n, coordinationByKey_ d !! k = Some n → ∃ e, (n, Coordination e) ∈ queue_ d ++ [(next_ d, event)] ∧ ce_key e = k ∧ mb_mail m !! k = Some e) as Hix.
    { intros k n Hl. destruct (iv_index0 k n Hl) as (e & Hin & ?). exists e. split; [|done]. apply elem_of_app. by left. }
    assert (completions (queue_ d ++ [(next_ d, event)]) = completions (queue_ d) ++ match event with Completion c => [c] | _ => [] end) as Hcs.
    { unfold completions. rewrite omap_app. by destruct event. }
    destruct key as [k|].
    + destruct (Hk k eq_refl) as (Hnone & e & -> & <-). constructor; cbn; try done.
      * intros k n. rewrite Hnone. rewrite lookup_insert_Some. intros [[<- <-]|[Hne Hl]].
        -- exists e. split; [|by rewrite lookup_insert_eq]. apply elem_of_app. right. by left.
        -- rewrite lookup_insert_ne //. by apply Hix.
      * intros k e'. rewrite Hnone. rewrite lookup_insert_Some. intros [[<- _]|[Hne Hl]]; [by rewrite lookup_insert_eq|].
        rewrite lookup_insert_ne //. by eapply iv_mail0.
      * rewrite Hcs app_nil_r. done.
    + destruct event as [e|c|l]; constructor; cbn; try done; rewrite Hcs; cbn; rewrite ?app_nil_r // iv_fifo0. by rewrite app_assoc.
Qed.

Lemma inv_submit d m event allow :
  inv d m → (allow = true → ∃ e, event = Coordination e) →
  ∃ d' r, Submit d event allow = Some (d', r) ∧
    inv d' (match event with
            | Coordination e => if allow then ring m e r else m
            | Completion c => take_completion m c r
            | Liveness _ => m
            end).
Proof.
  intros Hinv Ha. unfold Submit. destruct (accepting_ d) eqn:Ea; cbn [negb].
  2:{ eexists _, _. split; [done|]. destruct Hinv. destruct event as [e|c|l]; [destruct allow|..]; constructor; cbn; congruence || done. }
  destruct allow.
  - destruct Ha as [e ->]; [done|]. destruct (coordinationByKey_ d !! ce_key e) as [n|] eqn:El.
    + pose proof Hinv as []. destruct (iv_index0 _ _ El) as (e0 & Hin & Hk & Hm). rewrite (read_node_elem _ _ _ iv_nodup0 Hin).
      eexists _, _. split; [done|]. destruct (write_node_facts n (Coordination e) (queue_ d)) as [Hf Hlen].
      constructor; cbn; rewrite ?Hf ?Hlen; try done.
      * intros k x Hx. apply elem_of_write_node in Hx as [[-> _]|[_ Hx]]; [by eapply iv_fresh0|by eapply iv_fresh0|done].
      * intros k n' Hl. destruct (decide (k = ce_key e)) as [->|Hne].
        -- rewrite El in Hl. injection Hl as <-. exists e. split_and!; [by eapply write_node_hit|done|by rewrite lookup_insert_eq].
        -- destruct (iv_index0 k n' Hl) as (e' & Hin' & Hk' & Hm'). exists e'. split_and!; [|done|by rewrite lookup_insert_ne].
           apply write_node_keeps; [|done]. intros ->. apply Hne. rewrite -Hk'.
           pose proof (read_node_elem _ _ _ iv_nodup0 Hin) as E1. pose proof (read_node_elem _ _ _ iv_nodup0 Hin') as E2. rewrite E1 in E2.
           injection E2 as ->. done.
      * intros k e'. rewrite lookup_insert_Some. intros [[<- _]|[_ Hl]]; [by rewrite El|by eapply iv_mail0].
      * by rewrite (completions_write n e e0).
      * congruence.
    + destruct (enqueue d (Coordination e) (Some (ce_key e))) as [d' r] eqn:Ee. eexists _, _. split; [done|].
      apply (inv_enqueue d m (Coordination e) (Some (ce_key e)) d' r Hinv Ee). intros k [= <-]. split; [done|]. by exists e.
  - destruct (enqueue d event None) as [d' r] eqn:Ee. eexists _, _. split; [done|].
    destruct (inv_enqueue d m event None d' r Hinv Ee) as [Hi _]; [done|]. by destruct event.
Qed.

Lemma inv_pop d m d' r : inv d m → WaitPop d = (d', r) → inv d' (deliver m r).
Proof.
  intros [] Hp. unfold WaitPop in Hp. destruct (queue_ d) as [|[n x] q] eqn:Eq; injection Hp as <- <-.
  { constructor; rewrite ?Eq; try done. }
  rewrite fmap_cons in iv_nodup0. apply NoDup_cons in iv_nodup0 as [Hn Hnd]. cbn in iv_room0. rewrite completions_cons in iv_fifo0.
  assert (∀ k n', (k, n') ∈ q → (k < next_ d)%nat) as Hfr. { intros k n' Hin. eapply iv_fresh0. by right. }
  assert (∀ k n', coordinationByKey_ d !! k = Some n' → (match x with Coordination e => ce_key e ≠ k | _ => True end) →
    ∃ e, (n', Coordination e) ∈ q ∧ ce_key e = k ∧ mb_mail m !! k = Some e) as Hix.
  { intros k n' Hl Hx. destruct (iv_index0 k n' Hl) as (e & Hin & Hk & Hm). exists e. split; [|done].
    apply elem_of_cons in Hin as [Ek|Hin]; [|done]. injection Ek as -> <-. by destruct Hx. }
  destruct x as [e|c|l]; constructor; cbn; try done; try lia.
  - intros k n'. rewrite lookup_delete_Some. intros [Hne Hl]. destruct (Hix k n' Hl) as (e' & ? & ? & ?); [congruence|].
    exists e'. rewrite lookup_delete_ne; [congruence|]. done.
  - intros k e'. rewrite lookup_delete_Some. intros [Hne Hl]. rewrite lookup_delete_ne; [congruence|]. by eapply iv_mail0.
  - intros k n' Hl. by apply Hix.
  - by rewrite iv_fifo0 fmap_app -app_assoc.
  - intros k n' Hl. by apply Hix.
Qed.

(** A queue that was shut down starts anew; what waited is settled as lost. *)
Lemma inv_reopen d m s :
  inv d m → accepting_ d = false → inv (MkDispatcher (capacity_ d) [] ∅ true true false s (next_ d)) (restart m).
Proof.
  intros [] Ea. unfold restart. rewrite iv_open0 Ea.
  constructor; cbn; try done; try lia; try (intros; by rewrite ->lookup_empty in * ); [apply NoDup_nil_2|by intros ?? ?%elem_of_nil|].
  rewrite app_nil_r fmap_app -list_fmap_compose iv_fifo0 drop_app_length'; [by rewrite length_fmap|]. f_equal. symmetry. apply list_fmap_id.
Qed.

(** Nothing has been given up, and what is closed has never been open. *)
Definition intact (m : mailbox) : Prop :=
  Forall (λ x, x.2 = true) (mb_settled m) ∧ mb_lost m = [] ∧ mb_lostResync m = false
  ∧ (mb_open m = false → mb_mail m = ∅ ∧ mb_taken m = (mb_settled m).*1 ∧ mb_missed m = false).

Lemma intact_submit d m event allow d' r :
  inv d m → intact m → Submit d event allow = Some (d', r) →
  intact (match event with Coordination e => if allow then ring m e r else m | Completion c => take_completion m c r | Liveness _ => m end).
Proof.
  intros Hinv (H1 & H2 & H3 & H4). unfold Submit. destruct (accepting_ d) eqn:Ea; cbn [negb].
  - assert (mb_open m = true) as Eo by (by rewrite (iv_open _ _ Hinv)). intros _.
    destruct event as [e|c|l]; [destruct allow|..]; unfold ring, take_completion; repeat case_match; split_and!; cbn; congruence || done.
  - intros [= _ <-]. destruct event as [e|c|l]; [destruct allow|..]; done.
Qed.

Lemma intact_exec d m c d' m' : inv d m → intact m → c ≠ CShutdown → exec (d, m) c = Some (d', m') → intact m'.
Proof.
  intros Hinv Hm Hc. pose proof Hm as (H1 & H2 & H3 & H4). destruct c as [| |e|e|c|r| |]; cbn [exec]; [|done|..].
  - destruct (Start d) as [d1 r]. intros [= _ <-]. destruct r; [|done]. unfold restart. destruct (mb_open m) eqn:Eo; [done|].
    destruct (H4 eq_refl) as (Em & Et & Er). split_and!; cbn; try done.
    + apply Forall_app. split; [done|]. rewrite Et -(length_fmap fst) drop_all. constructor.
    + by rewrite H2 Em map_to_list_empty.
    + by rewrite H3 Er.
  - intros ([d1 r] & E & [= _ <-])%bind_Some. by apply (intact_submit d m (Coordination e) true d1 r).
  - intros ([d1 r] & E & [= _ <-])%bind_Some. done.
  - intros ([d1 r] & E & [= _ <-])%bind_Some. by apply (intact_submit d m (Completion c) false d1 r).
  - intros ([d1 r'] & E & [= _ <-])%bind_Some. done.
  - unfold WaitPop. destruct (queue_ d) as [|[n x] q] eqn:Eq; intros [= _ <-]; [done|]. unfold deliver. destruct x as [e|c|l]; [| |done].
    + split_and!; cbn; try done. intros Eo. destruct (H4 Eo) as (-> & ? & ?). by rewrite delete_empty.
    + split_and!; cbn; try done; [apply Forall_app; split; [done|by repeat constructor]|]. intros Eo. destruct (H4 Eo) as (_ & Et & _).
      pose proof (iv_fifo _ _ Hinv) as Hf. rewrite Eq completions_cons {1}Et in Hf. symmetry in Hf. rewrite -{2}(app_nil_r (mb_settled m).*1) in Hf. by apply app_inv_head in Hf.
  - intros [= _ <-]. split_and!; try done. intros Eo. by destruct (H4 Eo) as (? & ? & _).
Qed.

Lemma mailbox_inv_exec d m c : inv d m → ∃ d' m', exec (d, m) c = Some (d', m') ∧ inv d' m' ∧ capacity_ d' = capacity_ d.
Proof.
  intros Hinv. assert (∀ event allow d' r, Submit d event allow = Some (d', r) → capacity_ d' = capacity_ d) as Hcap.
  { intros event allow d' r. unfold Submit, enqueue. intros H. repeat case_match; by simplify_eq. }
  destruct c as [| |e|e|c|r| |]; cbn [exec].
  - destruct (Start d) as [d' r] eqn:E. eexists _, _. split; [done|]. unfold Start in E. destruct (_ && _) eqn:Eg; injection E as <- <-; [|done].
    split; [|done]. apply inv_reopen; [done|]. by apply andb_true_iff in Eg as [_ Eg%negb_true_iff].
  - eexists _, _. split; [done|]. split; [|done]. destruct Hinv. by constructor.
  - destruct (inv_submit d m (Coordination e) true Hinv) as (d' & r & E & Hi); [intros; by exists e|]. unfold SubmitCoordination. rewrite E.
    eexists _, _. split; [done|]. split; [done|by eapply Hcap].
  - destruct (inv_submit d m (Coordination e) false Hinv) as (d' & r & E & Hi); [done|]. unfold SubmitCoordinationUncoalesced. rewrite E.
    eexists _, _. split; [done|]. split; [done|by eapply Hcap].
  - destruct (inv_submit d m (Completion c) false Hinv) as (d' & r & E & Hi); [done|]. unfold SubmitCompletion. rewrite E.
    eexists _, _. split; [done|]. split; [done|by eapply Hcap].
  - destruct (inv_submit d m (Liveness r) false Hinv) as (d' & r' & E & Hi); [done|]. unfold SubmitWorkerLiveness. rewrite E.
    eexists _, _. split; [done|]. split; [done|by eapply Hcap].
  - destruct (WaitPop d) as [d' r] eqn:E. eexists _, _. split; [done|]. split; [by eapply inv_pop|].
    unfold WaitPop in E. destruct (queue_ d) as [|[? ?] ?]; by injection E as <- _.
  - eexists _, _. split; [done|]. split; [|done]. destruct Hinv. by constructor.
Qed.

Lemma mailbox_inv_run calls : ∀ d m, inv d m → ∃ d' m', run (d, m) calls = Some (d', m') ∧ inv d' m' ∧ capacity_ d' = capacity_ d.
Proof.
  induction calls as [|c calls IH]; intros d m Hinv; [by exists d, m|].
  destruct (mailbox_inv_exec d m c Hinv) as (d1 & m1 & E & Hi & Hc). destruct (IH d1 m1 Hi) as (d2 & m2 & E2 & Hi2 & Hc2).
  exists d2, m2. cbn [run]. rewrite E. cbn. split; [done|]. split; [done|congruence].
Qed.

Lemma inv_new capacity : inv (CoordinationEventDispatcher capacity) empty_mailbox.
Proof. constructor; cbn; try done; try lia; [apply NoDup_nil_2|by intros ?? ?%elem_of_nil]. Qed.
Lemma pop_nth i : ∀ (d : @dispatcher C) n x, queue_ d !! i = Some (n, x) → (WaitPop (Nat.iter i (λ d, (WaitPop d).1) d)).2 = Ok x.
Proof.
  induction i as [|i IH]; intros d n x Hq.
  - cbn. unfold WaitPop. destruct (queue_ d) as [|[n' x'] q]; [done|]. by injection Hq as -> ->.
  - rewrite Nat.iter_succ_r. apply (IH _ n x). unfold WaitPop. destruct (queue_ d) as [|[n' x'] q]; done.
Qed.

Lemma intact_new : intact empty_mailbox.
Proof. repeat split. constructor. Qed.

Lemma intact_run calls : ∀ d m d' m', inv d m → intact m → CShutdown ∉ calls → run (d, m) calls = Some (d', m') → intact m'.
Proof.
  induction calls as [|c calls IH]; intros d m d' m' Hinv Hm Hn; [by intros [= _ <-]|]. apply not_elem_of_cons in Hn as [Hc Hn]. cbn [run].
  destruct (mailbox_inv_exec d m c Hinv) as (d1 & m1 & E & Hi & _). rewrite E. cbn. apply (IH d1 m1); [done| |done]. by apply (intact_exec d m c d1 m1).
Qed.

(** C32: no doorbell and no completion is lost while the queue is open.  Whatever the threads of a worker call, in any order, no iterator
    into the queue is used after its node is gone and the queue stays within its capacity; the last watch event taken for a key since
    an event of that key was delivered is waiting in the queue, and if one was refused for lack of room the
    request for a full resynchronisation stands until it is consumed; every completion ever taken is settled once and in the order of
    its arrival, or waits; and the event at position [i] is what the [i]-th next pop returns.  The only call that gives up
    something that waits is a [Start] of a queue whose ingress was shut down before: a [Start] of an open queue must keep everything, and
    if the ingress is never shut down, every settled completion was delivered and no doorbell and no request for a resynchronisation
    was given up. *)
Theorem doorbells_never_lost (capacity : nat) (calls : list call) :
  ∃ d m, run (CoordinationEventDispatcher capacity, empty_mailbox) calls = Some (d, m)
    ∧ (List.length (queue_ d) ≤ capacity)%nat
    ∧ (∀ k e, mb_mail m !! k = Some e → Coordination e ∈ (queue_ d).*2)
    ∧ mb_missed m = resyncRequired_ d
    ∧ mb_taken m = (mb_settled m).*1 ++ completions (queue_ d)
    ∧ (∀ i n x, queue_ d !! i = Some (n, x) → (WaitPop (Nat.iter i (λ d, (WaitPop d).1) d)).2 = Ok x)
    ∧ (CShutdown ∉ calls → Forall (λ x, x.2 = true) (mb_settled m) ∧ mb_lost m = [] ∧ mb_lostResync m = false).
Proof.
  destruct (mailbox_inv_run calls _ _ (inv_new capacity)) as (d & m & E & Hinv & Hc). exists d, m. pose proof Hinv as []. cbn in Hc.
  split_and!; [done|lia| |done|done|by intros; eapply pop_nth|].
  - intros k e Hm. destruct (iv_mail0 k e Hm) as [n Hn]. destruct (iv_index0 k n Hn) as (e' & Hin & _ & Hm'). rewrite Hm in Hm'. injection Hm' as <-.
    by apply (list_elem_of_fmap_2 snd _ (n, Coordination e)).
  - intros Hn. destruct (intact_run calls _ _ _ _ (inv_new capacity) intact_new Hn E) as (? & ? & ? & _). done.
Qed.
End Mailbox.

(** ** Watch plans are minimal *)

(** Every plan starts with the topology; the other watches are those of the role. *)
Lemma watch_plan_tables role localAddress keys startRevision plan :
  BuildTopologyRoleWatchPlan role localAddress keys startRevision = Ok plan →
  wk_tableName <$> plan = KeyHelper.topologyTable_ keys ::
    match role with
    | ROLE_WORKER => [KeyHelper.notifyTable_ keys; KeyHelper.probeTable_ keys]
    | ROLE_CONTROLLER => [KeyHelper.membershipTable_ keys]
    | ROLE_UNIFIED_ETCD => [KeyHelper.notifyTable_ keys; KeyHelper.membershipTable_ keys]
    | ROLE_OBSERVER => []
    end
  ∧ Forall (λ w, wk_startRevision w = startRevision) plan
  ∧ (localAddress = [] ↔ role = ROLE_CONTROLLER ∨ role = ROLE_OBSERVER).
Proof.
  unfold BuildTopologyRoleWatchPlan, KeyHelper.NotifyKey, KeyHelper.ProbeKey. destruct (_ <=? _); [|done].
  destruct (KeyHelper.ValidateAddress localAddress) as [[]|] eqn:E.
  - assert (localAddress ≠ []) as Hne by by intros ->.
    destruct role; repeat case_bool_decide; try naive_solver; cbn; intros [= <-]; (split; [done|]); (split; [by repeat constructor|naive_solver]).
  - destruct role; repeat case_bool_decide; try naive_solver; cbn; intros Hp; simplify_eq; (split; [done|]); (split; [by repeat constructor|naive_solver]).
Qed.

End EventDispatcher.
