(* ===== verification/Executor.v ===== *)
(** * Executor: running the tasks of a worker

    Model of [src/datasystem/cluster/executor/topology_task_executor.{h,cpp}] with the cancellation tokens and callback types
    of [topology_phase_callbacks.h]: the component of a worker that reads the tasks it is notified of, runs the business
    callbacks for them on a thread pool, retries and cancels them, and stores their completion.

    The executor is called by one serial loop ([HandleNotify], [HandleCompletion], [HandleTick]) while its callbacks run on pool
    threads and [Stop] runs on another one.  A method is therefore a program ([prog]): a sequence of sections that run under
    the executor's mutex ([Atomic]) and of calls to its collaborators ([Call]): the repository, the reader of the stored
    topology, the published snapshot, the callbacks, the dispatcher, the pool, the clock and the random source.  Other
    threads may run between any two of them, and what a call answers is up to the collaborator.  [ExecutorRun] puts the
    threads together.

    An exception a callback throws is the failure it is turned into; [std::bad_alloc] elsewhere, log lines and the trace context
    are not modelled, nor is the text of [lastError]: a failing status is its code.  Time points are in nanoseconds. *)
From S2P Require Import Prelude NetUtil MurmurHash Topology HashRing PlanBuilder Replan Membership KeyHelper RepositoryCodec Repository Materializer SnapshotState Placement.
From Stdlib Require Import Ascii String.
Import Topology HashRing PlanBuilder RepositoryCodec Repository Materializer SnapshotState Placement.

Module Executor.
Local Open Scope Z_scope.

(** ** Options *)
Definition MAX_BACKOFF_SHIFT : Z := 20.
Definition MAX_CALLBACK_THREADS : Z := 16.
Definition MAX_CALLBACK_QUEUE_CAPACITY : Z := 1024.
Definition EXECUTOR_AUTHORITY_READ_TIMEOUT_MS : Z := 3000.
Definition OPERATION_ID_PREFIX_SIZE : nat := 3.

(** In the units of the fields: seconds, but [ordinaryMemberWindow] in minutes and [backoffInitial] in milliseconds. *)
Record TopologyTaskExecutorOptions := MkOptions {
  callbackThreads : Z; callbackQueueCapacity : Z; ordinaryCallbackDeadline : Z; ordinaryMemberWindow : Z; ordinaryMaxAttempts : Z;
  backoffInitial : Z; backoffMaximum : Z; failureCallbackDeadline : Z; failureBatchWindow : Z; ordinaryDrain : Z; failureDrain : Z }.
Definition default_options : TopologyTaskExecutorOptions := MkOptions 4 1024 10 3 8 100 30 5 30 3 1.

Definition milliseconds (n : Z) : Z := n * 1000000.
Definition seconds (n : Z) : Z := n * 1000000000.
Definition minutes (n : Z) : Z := n * 60000000000.

(** The casts of durations ([duration_cast] of the maximum, the comparison of seconds with minutes) are products of signed 64-bit
    integers whose overflow the language leaves undefined; here they are the exact products, which is what the code computes whenever
    they fit.  [backoff_bounds] states that bound for the maximum. *)
Definition ValidOptions (o : TopologyTaskExecutorOptions) : bool :=
  let maximumBackoff := backoffMaximum o * 1000 in
  (0 <? callbackThreads o) && (callbackThreads o <=? MAX_CALLBACK_THREADS)
  && (0 <? callbackQueueCapacity o) && (callbackQueueCapacity o <=? MAX_CALLBACK_QUEUE_CAPACITY)
  && (0 <? ordinaryMaxAttempts o) && (0 <? backoffInitial o)
  && (backoffInitial o <=? maximumBackoff) && (failureDrain o <? failureCallbackDeadline o)
  && (failureCallbackDeadline o <? failureBatchWindow o)
  && (ordinaryDrain o <? ordinaryCallbackDeadline o)
  && (seconds (ordinaryCallbackDeadline o) <? minutes (ordinaryMemberWindow o)) && (0 <? failureDrain o)
  && (0 <? ordinaryDrain o).

(** The upper end of the random delay, in milliseconds; products are of 64-bit integers. *)
Definition retry_cap (attempt : Z) (o : TopologyTaskExecutorOptions) : Z :=
  let shift := Z.min (if 0 <? attempt then attempt - 1 else 0) MAX_BACKOFF_SHIFT in
  let multiplier := i64 (Z.shiftl 1 shift) in
  let maximum := i64 (backoffMaximum o * 1000) in
  let initial := backoffInitial o in
  if maximum `quot` multiplier <? initial then maximum else i64 (initial * multiplier).

(** [uniform_int_distribution(0, cap)]: [random] is what the generator yields. *)
Definition RetryDelay (attempt : Z) (o : TopologyTaskExecutorOptions) (random : Z) : Z := random mod (retry_cap attempt o + 1).

(** ** Fences and scopes *)
Definition UnfinishedRanges (task : TopologyTask) : list TokenRange := range <$> filter (λ r, finished r = false) (ranges_of task).

#[export] Instance TopologyExecutionFence_eq_dec : EqDecision TopologyExecutionFence.
Proof. solve_decision. Defined.

Definition SameFence (l r : TopologyExecutionFence) : bool :=
  bool_decide (ef_taskId l = ef_taskId r) && bool_decide (ef_taskKind l = ef_taskKind r) && bool_decide (ef_batchType l = ef_batchType r)
  && (ef_batchEpoch l =? ef_batchEpoch r) && bool_decide (ef_phase l = ef_phase r) && bool_decide (ef_executor l = ef_executor r)
  && bool_decide (ef_source l = ef_source r) && bool_decide (ef_target l = ef_target r) && bool_decide (ef_failed l = ef_failed r)
  && bool_decide (ef_ranges l = ef_ranges r).

Definition TaskPhase (task : TopologyTask) : TopologyCallbackPhase :=
  match task with
  | Remove _ => PHASE_FAILURE
  | Migrate t => if bool_decide (mt_type t = SCALE_OUT) then PHASE_SCALE_OUT else PHASE_SCALE_IN
  end.

Definition gate_of (epoch : Z) (sourceId : string) : string :=
  string_of_list_ascii (KeyHelper.u64_to_string epoch ++ cs ":" ++ cs sourceId).

Definition ScaleInMetadataGateKey (fence : TopologyExecutionFence) : res string :=
  match ef_phase fence, ef_source fence with
  | PHASE_SCALE_IN, Some source => Ok (gate_of (ef_batchEpoch fence) (id source))
  | _, _ => Fail K_INVALID
  end.

Record TopologyPhaseAction := MkAction {
  pa_taskId : string; pa_topologyVersion : Z; pa_batchEpoch : Z; pa_executor : MemberIdentity; pa_source : option MemberIdentity;
  pa_target : option MemberIdentity; pa_failed : option MemberIdentity }.

Definition BuildPhaseAction (fence : TopologyExecutionFence) (topologyVersion : Z) : res TopologyPhaseAction :=
  let ordinary := negb (bool_decide (ef_phase fence = PHASE_FAILURE)) in
  let has (o : option MemberIdentity) := bool_decide (is_Some o) in
  check! (ordinary && has (ef_source fence) && has (ef_target fence) && negb (has (ef_failed fence)))
         || (negb ordinary && negb (has (ef_source fence)) && negb (has (ef_target fence)) && has (ef_failed fence)) else K_INVALID in
  Ok (MkAction (ef_taskId fence) topologyVersion (ef_batchEpoch fence) (ef_executor fence) (ef_source fence) (ef_target fence)
        (ef_failed fence)).

(** The loop over the sorted ranges; [previous] is the end of the range before. *)
Fixpoint scope_loop (previous : option Z) (ranges : list TokenRange) : res unit :=
  match ranges with
  | [] => Ok tt
  | r :: rest =>
    check! from r <=? to r else K_INVALID in
    check! match previous with None => true | Some e => e <? from r end else K_INVALID in
    scope_loop (Some (to r)) rest
  end.

(** The ranges of the key filter and the segments of the scan plan. *)
Definition BuildOpaqueScope (fence : TopologyExecutionFence) : res (list TokenRange * list StorageScanSegment) :=
  check! negb (bool_decide (ef_ranges fence = [])) else K_INVALID in
  let ranges := sort_ranges (ef_ranges fence) in
  let! _ := scope_loop None ranges in
  Ok (ranges, CreateHash ranges).

Section Fences.
Context (HashSHA256 : chars → res chars) (localAddress_ : string).

Definition BuildExecutionFence (task : TopologyTask) (phase : TopologyCallbackPhase) (snap : TopologySnapshot) : res TopologyExecutionFence :=
  match GetActiveBatch snap with
  | None => Fail K_INVALID
  | Some batch =>
    let ranges := UnfinishedRanges task in
    check! negb (bool_decide (ranges = [])) else K_NOT_READY in
    check! bool_decide (BuildTaskId HashSHA256 task = id_of task) && (epoch_of task =? epoch batch) else K_INVALID in
    let! executor := FindMemberByAddress snap (executor_of task) in
    check! bool_decide (executor_of task = localAddress_) else K_INVALID in
    match task with
    | Migrate migrate =>
      let! target := FindMemberByAddress snap (mt_targetAddress migrate) in
      check! bool_decide (mt_type migrate = btype batch) else K_INVALID in
      let! _ := (if bool_decide (mt_type migrate = SCALE_OUT)
                 then check! bool_decide (phase = PHASE_SCALE_OUT) && IsCommittedMemberState (state executor)
                             && bool_decide (state target = JOINING) else K_INVALID in Ok tt
                 else check! bool_decide (phase = PHASE_SCALE_IN) && bool_decide (state executor = LEAVING)
                             && IsAdmittedScaleInMigrationTargetState (state target) else K_INVALID in Ok tt) in
      Ok (MkExecFence (id_of task) (kind_of task) (btype batch) (epoch_of task) phase (identity executor)
            (Some (identity executor)) (Some (identity target)) None ranges)
    | Remove remove =>
      let! failed := FindMemberByAddress snap (dt_failedAddress remove) in
      check! bool_decide (phase = PHASE_FAILURE) && bool_decide (btype batch = FAILURE) && bool_decide (state executor = ACTIVE)
             && bool_decide (state failed = FAILED) else K_INVALID in
      Ok (MkExecFence (id_of task) (kind_of task) (btype batch) (epoch_of task) phase (identity executor) None None (Some (identity failed)) ranges)
    end
  end.
End Fences.

Definition IsRetryableRpcError (code : StatusCode) : bool :=
  match code with
  | K_RPC_CANCELLED | K_RPC_DEADLINE_EXCEEDED | K_RPC_UNAVAILABLE | K_RPC_NETWORK_BLIP | K_URMA_WAIT_TIMEOUT => true
  | _ => false
  end.

Definition IsOrdinaryRetryable (code : StatusCode) : bool :=
  bool_decide (code = K_TRY_AGAIN) || bool_decide (code = K_NOT_READY) || IsRetryableRpcError code.

(** ** State

    A cancellation token is a number, [cancelled_] are those that have been cancelled.  A prepared cleanup is its two closures,
    either of which may be empty. *)
Record OperationState := MkOperation {
  os_task : TopologyTask; attempts : Z; nextAttempt : Z; cancellation : option nat; scaleInMetadataGate : string;
  progressReady : bool; scaleInMetadataDone : bool; bestEffortFailure : bool }.

Record TopologyPreparedCleanup := MkCleanup { authorize_ : bool; apply_ : bool }.

Record TopologyCallbackCompletion := MkCompletion {
  tc_fence : TopologyExecutionFence; tc_businessOperationId : string; tc_deadline : Z; tc_status : res unit;
  tc_preparedCleanup : option TopologyPreparedCleanup }.

Record TopologyTaskExecutorDiagnostics := MkDiagnostics {
  running : bool; queuedCallbacks : Z; inFlightCallbacks : Z; succeeded : Z; failed : Z; stale : Z; dg_cancelled : Z;
  lastError : option StatusCode }.

(** Work accepted by the pool and not begun. *)
Inductive work :=
| ExecuteCallbackWork (fence : TopologyExecutionFence) (operation : string) (token : nat)
| ExecuteCleanupApplyWork (fence : TopologyExecutionFence) (operation : string) (deadline : Z) (cleanup : TopologyPreparedCleanup) (token : nat)
| RestartWork (restartFacts : gmap string Z).

(** [callbackPool_] is whether the pointer is set, [poolWork_] what the pool has accepted and not begun. *)
Record executor := MkExecutor {
  started_ : bool; stopping_ : bool; callbackPool_ : bool; poolWork_ : list work;
  callbackBodies_ : Z; inFlightOperations_ : Z; currentEpoch_ : Z;
  operations_ : gmap string OperationState; scheduledOperations_ : gset string; ordinaryDeadlineByMember_ : gmap string Z;
  failureDeadlineByEpoch_ : gmap Z Z; scaleInMetadataPendingByGate_ : gmap string (gset string); completedRestartTimestampsByAddress_ : gmap string Z;
  restartBatchInFlight_ : bool; diagnostics_ : TopologyTaskExecutorDiagnostics; cancelled_ : gset nat;
  nextToken_ : nat }.

Definition TopologyTaskExecutor : executor :=
  MkExecutor false false false [] 0 0 0 ∅ ∅ ∅ ∅ ∅ ∅ false (MkDiagnostics false 0 0 0 0 0 0 None) ∅ 0.

Definition set_started (x : bool) (e : executor) : executor :=
  MkExecutor x (stopping_ e) (callbackPool_ e) (poolWork_ e) (callbackBodies_ e) (inFlightOperations_ e) (currentEpoch_ e) (operations_ e) (scheduledOperations_ e) (ordinaryDeadlineByMember_ e) (failureDeadlineByEpoch_ e) (scaleInMetadataPendingByGate_ e) (completedRestartTimestampsByAddress_ e) (restartBatchInFlight_ e) (diagnostics_ e) (cancelled_ e) (nextToken_ e).
Definition set_stopping (x : bool) (e : executor) : executor :=
  MkExecutor (started_ e) x (callbackPool_ e) (poolWork_ e) (callbackBodies_ e) (inFlightOperations_ e) (currentEpoch_ e) (operations_ e) (scheduledOperations_ e) (ordinaryDeadlineByMember_ e) (failureDeadlineByEpoch_ e) (scaleInMetadataPendingByGate_ e) (completedRestartTimestampsByAddress_ e) (restartBatchInFlight_ e) (diagnostics_ e) (cancelled_ e) (nextToken_ e).
Definition set_pool (x : bool) (e : executor) : executor :=
  MkExecutor (started_ e) (stopping_ e) x (poolWork_ e) (callbackBodies_ e) (inFlightOperations_ e) (currentEpoch_ e) (operations_ e) (scheduledOperations_ e) (ordinaryDeadlineByMember_ e) (failureDeadlineByEpoch_ e) (scaleInMetadataPendingByGate_ e) (completedRestartTimestampsByAddress_ e) (restartBatchInFlight_ e) (diagnostics_ e) (cancelled_ e) (nextToken_ e).
Definition set_bodies (x : Z) (e : executor) : executor :=
  MkExecutor (started_ e) (stopping_ e) (callbackPool_ e) (poolWork_ e) x (inFlightOperations_ e) (currentEpoch_ e) (operations_ e) (scheduledOperations_ e) (ordinaryDeadlineByMember_ e) (failureDeadlineByEpoch_ e) (scaleInMetadataPendingByGate_ e) (completedRestartTimestampsByAddress_ e) (restartBatchInFlight_ e) (diagnostics_ e) (cancelled_ e) (nextToken_ e).
Definition set_in_flight (x : Z) (e : executor) : executor :=
  MkExecutor (started_ e) (stopping_ e) (callbackPool_ e) (poolWork_ e) (callbackBodies_ e) x (currentEpoch_ e) (operations_ e) (scheduledOperations_ e) (ordinaryDeadlineByMember_ e) (failureDeadlineByEpoch_ e) (scaleInMetadataPendingByGate_ e) (completedRestartTimestampsByAddress_ e) (restartBatchInFlight_ e) (diagnostics_ e) (cancelled_ e) (nextToken_ e).
Definition set_epoch (x : Z) (e : executor) : executor :=
  MkExecutor (started_ e) (stopping_ e) (callbackPool_ e) (poolWork_ e) (callbackBodies_ e) (inFlightOperations_ e) x (operations_ e) (scheduledOperations_ e) (ordinaryDeadlineByMember_ e) (failureDeadlineByEpoch_ e) (scaleInMetadataPendingByGate_ e) (completedRestartTimestampsByAddress_ e) (restartBatchInFlight_ e) (diagnostics_ e) (cancelled_ e) (nextToken_ e).
Definition set_operations (x : gmap string OperationState) (e : executor) : executor :=
  MkExecutor (started_ e) (stopping_ e) (callbackPool_ e) (poolWork_ e) (callbackBodies_ e) (inFlightOperations_ e) (currentEpoch_ e) x (scheduledOperations_ e) (ordinaryDeadlineByMember_ e) (failureDeadlineByEpoch_ e) (scaleInMetadataPendingByGate_ e) (completedRestartTimestampsByAddress_ e) (restartBatchInFlight_ e) (diagnostics_ e) (cancelled_ e) (nextToken_ e).
Definition set_scheduled (x : gset string) (e : executor) : executor :=
  MkExecutor (started_ e) (stopping_ e) (callbackPool_ e) (poolWork_ e) (callbackBodies_ e) (inFlightOperations_ e) (currentEpoch_ e) (operations_ e) x (ordinaryDeadlineByMember_ e) (failureDeadlineByEpoch_ e) (scaleInMetadataPendingByGate_ e) (completedRestartTimestampsByAddress_ e) (restartBatchInFlight_ e) (diagnostics_ e) (cancelled_ e) (nextToken_ e).
Definition set_ordinary_deadlines (x : gmap string Z) (e : executor) : executor :=
  MkExecutor (started_ e) (stopping_ e) (callbackPool_ e) (poolWork_ e) (callbackBodies_ e) (inFlightOperations_ e) (currentEpoch_ e) (operations_ e) (scheduledOperations_ e) x (failureDeadlineByEpoch_ e) (scaleInMetadataPendingByGate_ e) (completedRestartTimestampsByAddress_ e) (restartBatchInFlight_ e) (diagnostics_ e) (cancelled_ e) (nextToken_ e).
Definition set_failure_deadlines (x : gmap Z Z) (e : executor) : executor :=
  MkExecutor (started_ e) (stopping_ e) (callbackPool_ e) (poolWork_ e) (callbackBodies_ e) (inFlightOperations_ e) (currentEpoch_ e) (operations_ e) (scheduledOperations_ e) (ordinaryDeadlineByMember_ e) x (scaleInMetadataPendingByGate_ e) (completedRestartTimestampsByAddress_ e) (restartBatchInFlight_ e) (diagnostics_ e) (cancelled_ e) (nextToken_ e).
Definition set_pending (x : gmap string (gset string)) (e : executor) : executor :=
  MkExecutor (started_ e) (stopping_ e) (callbackPool_ e) (poolWork_ e) (callbackBodies_ e) (inFlightOperations_ e) (currentEpoch_ e) (operations_ e) (scheduledOperations_ e) (ordinaryDeadlineByMember_ e) (failureDeadlineByEpoch_ e) x (completedRestartTimestampsByAddress_ e) (restartBatchInFlight_ e) (diagnostics_ e) (cancelled_ e) (nextToken_ e).
Definition set_restarts (x : gmap string Z) (e : executor) : executor :=
  MkExecutor (started_ e) (stopping_ e) (callbackPool_ e) (poolWork_ e) (callbackBodies_ e) (inFlightOperations_ e) (currentEpoch_ e) (operations_ e) (scheduledOperations_ e) (ordinaryDeadlineByMember_ e) (failureDeadlineByEpoch_ e) (scaleInMetadataPendingByGate_ e) x (restartBatchInFlight_ e) (diagnostics_ e) (cancelled_ e) (nextToken_ e).
Definition set_restart_in_flight (x : bool) (e : executor) : executor :=
  MkExecutor (started_ e) (stopping_ e) (callbackPool_ e) (poolWork_ e) (callbackBodies_ e) (inFlightOperations_ e) (currentEpoch_ e) (operations_ e) (scheduledOperations_ e) (ordinaryDeadlineByMember_ e) (failureDeadlineByEpoch_ e) (scaleInMetadataPendingByGate_ e) (completedRestartTimestampsByAddress_ e) x (diagnostics_ e) (cancelled_ e) (nextToken_ e).
Definition set_diagnostics (x : TopologyTaskExecutorDiagnostics) (e : executor) : executor :=
  MkExecutor (started_ e) (stopping_ e) (callbackPool_ e) (poolWork_ e) (callbackBodies_ e) (inFlightOperations_ e) (currentEpoch_ e) (operations_ e) (scheduledOperations_ e) (ordinaryDeadlineByMember_ e) (failureDeadlineByEpoch_ e) (scaleInMetadataPendingByGate_ e) (completedRestartTimestampsByAddress_ e) (restartBatchInFlight_ e) x (cancelled_ e) (nextToken_ e).
Definition set_cancelled (x : gset nat) (e : executor) : executor :=
  MkExecutor (started_ e) (stopping_ e) (callbackPool_ e) (poolWork_ e) (callbackBodies_ e) (inFlightOperations_ e) (currentEpoch_ e) (operations_ e) (scheduledOperations_ e) (ordinaryDeadlineByMember_ e) (failureDeadlineByEpoch_ e) (scaleInMetadataPendingByGate_ e) (completedRestartTimestampsByAddress_ e) (restartBatchInFlight_ e) (diagnostics_ e) x (nextToken_ e).
Definition set_next_token (x : nat) (e : executor) : executor :=
  MkExecutor (started_ e) (stopping_ e) (callbackPool_ e) (poolWork_ e) (callbackBodies_ e) (inFlightOperations_ e) (currentEpoch_ e) (operations_ e) (scheduledOperations_ e) (ordinaryDeadlineByMember_ e) (failureDeadlineByEpoch_ e) (scaleInMetadataPendingByGate_ e) (completedRestartTimestampsByAddress_ e) (restartBatchInFlight_ e) (diagnostics_ e) (cancelled_ e) x.
Definition set_work (x : list work) (e : executor) : executor :=
  MkExecutor (started_ e) (stopping_ e) (callbackPool_ e) x (callbackBodies_ e) (inFlightOperations_ e) (currentEpoch_ e) (operations_ e) (scheduledOperations_ e) (ordinaryDeadlineByMember_ e) (failureDeadlineByEpoch_ e) (scaleInMetadataPendingByGate_ e) (completedRestartTimestampsByAddress_ e) (restartBatchInFlight_ e) (diagnostics_ e) (cancelled_ e) (nextToken_ e).

Definition diag (f : TopologyTaskExecutorDiagnostics → TopologyTaskExecutorDiagnostics) (e : executor) : executor :=
  set_diagnostics (f (diagnostics_ e)) e.
Definition set_running (x : bool) (g : TopologyTaskExecutorDiagnostics) :=
  MkDiagnostics x (queuedCallbacks g) (inFlightCallbacks g) (succeeded g) (failed g) (stale g) (dg_cancelled g) (lastError g).
Definition set_queued (x : Z) (g : TopologyTaskExecutorDiagnostics) :=
  MkDiagnostics (running g) x (inFlightCallbacks g) (succeeded g) (failed g) (stale g) (dg_cancelled g) (lastError g).
Definition set_in_flight_callbacks (x : Z) (g : TopologyTaskExecutorDiagnostics) :=
  MkDiagnostics (running g) (queuedCallbacks g) x (succeeded g) (failed g) (stale g) (dg_cancelled g) (lastError g).
Definition count_succeeded (g : TopologyTaskExecutorDiagnostics) :=
  MkDiagnostics (running g) (queuedCallbacks g) (inFlightCallbacks g) (u64 (succeeded g + 1)) (failed g) (stale g) (dg_cancelled g) (lastError g).
Definition count_failed (g : TopologyTaskExecutorDiagnostics) :=
  MkDiagnostics (running g) (queuedCallbacks g) (inFlightCallbacks g) (succeeded g) (u64 (failed g + 1)) (stale g) (dg_cancelled g) (lastError g).
Definition count_stale (g : TopologyTaskExecutorDiagnostics) :=
  MkDiagnostics (running g) (queuedCallbacks g) (inFlightCallbacks g) (succeeded g) (failed g) (u64 (stale g + 1)) (dg_cancelled g) (lastError g).
Definition count_cancelled (n : Z) (g : TopologyTaskExecutorDiagnostics) :=
  MkDiagnostics (running g) (queuedCallbacks g) (inFlightCallbacks g) (succeeded g) (failed g) (stale g) (u64 (dg_cancelled g + n)) (lastError g).
Definition set_error (code : StatusCode) (g : TopologyTaskExecutorDiagnostics) :=
  MkDiagnostics (running g) (queuedCallbacks g) (inFlightCallbacks g) (succeeded g) (failed g) (stale g) (dg_cancelled g) (Some code).

(** [++callbackBodies_] or [--callbackBodies_] with the gauge that follows it. *)
Definition add_bodies (n : Z) (e : executor) : executor :=
  let e := set_bodies (u64 (callbackBodies_ e + n)) e in diag (set_queued (callbackBodies_ e)) e.

Definition os_with_task (t : TopologyTask) (st : OperationState) :=
  MkOperation t (attempts st) (nextAttempt st) (cancellation st) (scaleInMetadataGate st) (progressReady st) (scaleInMetadataDone st) (bestEffortFailure st).
Definition os_with_attempts (n : Z) (st : OperationState) :=
  MkOperation (os_task st) n (nextAttempt st) (cancellation st) (scaleInMetadataGate st) (progressReady st) (scaleInMetadataDone st) (bestEffortFailure st).
Definition os_with_next (n : Z) (st : OperationState) :=
  MkOperation (os_task st) (attempts st) n (cancellation st) (scaleInMetadataGate st) (progressReady st) (scaleInMetadataDone st) (bestEffortFailure st).
Definition os_with_token (c : option nat) (st : OperationState) :=
  MkOperation (os_task st) (attempts st) (nextAttempt st) c (scaleInMetadataGate st) (progressReady st) (scaleInMetadataDone st) (bestEffortFailure st).
Definition os_with_gate (g : string) (st : OperationState) :=
  MkOperation (os_task st) (attempts st) (nextAttempt st) (cancellation st) g (progressReady st) (scaleInMetadataDone st) (bestEffortFailure st).
Definition os_progress_ready (st : OperationState) :=
  MkOperation (os_task st) (attempts st) (nextAttempt st) (cancellation st) (scaleInMetadataGate st) true (scaleInMetadataDone st) (bestEffortFailure st).
Definition os_metadata_done (st : OperationState) :=
  MkOperation (os_task st) (attempts st) (nextAttempt st) (cancellation st) (scaleInMetadataGate st) (progressReady st) true (bestEffortFailure st).
Definition os_best_effort (st : OperationState) :=
  MkOperation (os_task st) (attempts st) (nextAttempt st) (cancellation st) (scaleInMetadataGate st) (progressReady st) (scaleInMetadataDone st) true.

Definition update (operation : string) (f : OperationState → OperationState) (e : executor) : executor :=
  set_operations (alter f operation (operations_ e)) e.

(** ** Sections that run under the mutex *)
Section Locked.
Context (options_ : TopologyTaskExecutorOptions).

(** The callers pass an operation that exists. *)
Definition ReleaseInFlightLocked (operation : string) (e : executor) : executor * bool :=
  match operations_ e !! operation with
  | Some st =>
    match cancellation st with
    | None => (e, false)
    | Some _ =>
      let e := update operation (os_with_token None) e in
      let e := set_in_flight (u64 (inFlightOperations_ e - 1)) e in
      (diag (set_in_flight_callbacks (inFlightOperations_ e)) e, true)
    end
  | None => (e, false)
  end.

Definition ScheduleOperationLocked (operation : string) (next : Z) (e : executor) : executor :=
  update operation (os_with_next next) (set_scheduled ({[operation]} ∪ scheduledOperations_ e) e).

Definition ClearOperationScheduleLocked (operation : string) (e : executor) : executor :=
  set_scheduled (scheduledOperations_ e ∖ {[operation]}) (update operation (os_with_next 0) e).

(** [pending->second.erase(operation)], and the whole entry once it is empty. *)
Definition erase_pending (gate operation : string) (e : executor) : executor :=
  match scaleInMetadataPendingByGate_ e !! gate with
  | None => e
  | Some ops =>
    let ops := ops ∖ {[operation]} in
    set_pending (if bool_decide (ops = ∅) then delete gate (scaleInMetadataPendingByGate_ e)
                 else <[gate := ops]> (scaleInMetadataPendingByGate_ e)) e
  end.

Definition EraseOperationLocked (operation : string) (e : executor) : executor * bool :=
  match operations_ e !! operation with
  | None => (e, false)
  | Some st =>
    let e := if bool_decide (scaleInMetadataGate st = EmptyString) then e else erase_pending (scaleInMetadataGate st) operation e in
    let '(e, released) := ReleaseInFlightLocked operation e in
    let e := set_scheduled (scheduledOperations_ e ∖ {[operation]}) e in
    (set_operations (delete operation (operations_ e)) e, released)
  end.

Definition ScheduleRetryLocked (phase : TopologyCallbackPhase) (operation : string) (now random : Z) (e : executor) : executor * bool :=
  match operations_ e !! operation with
  | None => (e, false)
  | Some st =>
    if negb (bool_decide (phase = PHASE_FAILURE)) && (ordinaryMaxAttempts options_ <=? attempts st) then (e, false)
    else (ScheduleOperationLocked operation (now + milliseconds (RetryDelay (attempts st) options_ random)) e, true)
  end.

Definition ValidateCallbackWindowLocked (fence : TopologyExecutionFence) (now : Z) (e : executor) : executor * res unit :=
  if bool_decide (ef_phase fence = PHASE_FAILURE) then
    let deadline := default (now + seconds (failureBatchWindow options_)) (failureDeadlineByEpoch_ e !! ef_batchEpoch fence) in
    (set_failure_deadlines (<[ef_batchEpoch fence := deadline]> (failureDeadlineByEpoch_ e)) e,
     check! now <? deadline else K_RPC_DEADLINE_EXCEEDED in Ok tt)
  else
    let member := id (ef_executor fence) in
    let deadline := default (now + minutes (ordinaryMemberWindow options_)) (ordinaryDeadlineByMember_ e !! member) in
    (set_ordinary_deadlines (<[member := deadline]> (ordinaryDeadlineByMember_ e)) e,
     check! now <? deadline else K_RPC_DEADLINE_EXCEEDED in Ok tt).

Definition new_operation (task : TopologyTask) : OperationState := MkOperation task 0 0 None EmptyString false false false.

(** [operations_.try_emplace(operation)] and the two assignments that follow it. *)
Definition emplace (task : TopologyTask) (operation gate : string) (e : executor) : executor :=
  let st := os_with_task task (default (new_operation task) (operations_ e !! operation)) in
  let st := if bool_decide (gate = EmptyString) then st else os_with_gate gate st in
  set_operations (<[operation := st]> (operations_ e)) e.

(** The admission proper: the token, the counters and the gate. *)
Definition begin_callback (fence : TopologyExecutionFence) (operation gate : string) (allowScaleInDataDrain : bool) (e : executor) : executor * nat :=
  let token := nextToken_ e in
  let e := set_next_token (S token) e in
  let e := update operation (os_with_token (Some token)) e in
  let e := ClearOperationScheduleLocked operation e in
  let e := update operation (λ st, os_with_attempts (u32 (attempts st + 1)) st) e in
  let e := set_in_flight (u64 (inFlightOperations_ e + 1)) e in
  let e := add_bodies 1 e in
  let e := diag (set_in_flight_callbacks (inFlightOperations_ e)) e in
  let e := if bool_decide (ef_phase fence = PHASE_SCALE_IN) && negb allowScaleInDataDrain
           then set_pending (<[gate := {[operation]} ∪ default ∅ (scaleInMetadataPendingByGate_ e !! gate)]> (scaleInMetadataPendingByGate_ e)) e
           else e in
  (e, token).

(** [now] is the clock at the start, [later] and [random] are what a retry reads. *)
Definition AdmitCallbackLocked (task : TopologyTask) (fence : TopologyExecutionFence) (operation : string) (allowScaleInDataDrain : bool)
    (now later random : Z) (e : executor) : executor * res (option nat) :=
  if negb (started_ e && negb (stopping_ e)) then (e, Fail K_NOT_READY)
  else if match operations_ e !! operation with Some st => bool_decide (is_Some (cancellation st)) | None => false end then (e, Ok None)
  else
    match (if bool_decide (ef_phase fence = PHASE_SCALE_IN) then ScaleInMetadataGateKey fence else Ok EmptyString) with
    | Fail c => (e, Fail c)
    | Ok gate =>
      let e := emplace task operation gate e in
      let '(e, windowRc) := ValidateCallbackWindowLocked fence now e in
      match windowRc with
      | Fail _ =>
        let e := update operation (λ st, os_with_attempts (u32 (attempts st + 1)) st) e in
        let '(e, scheduled) := ScheduleRetryLocked (ef_phase fence) operation later random e in
        (if scheduled then e else ClearOperationScheduleLocked operation e, Ok None)
      | Ok _ =>
        let st := default (new_operation task) (operations_ e !! operation) in
        if progressReady st then (ScheduleOperationLocked operation now e, Ok None)
        else if negb allowScaleInDataDrain && scaleInMetadataDone st then (ScheduleOperationLocked operation now e, Ok None)
        else if inFlightOperations_ e <? callbackThreads options_ + callbackQueueCapacity options_ then
          let '(e, token) := begin_callback fence operation gate allowScaleInDataDrain e in (e, Ok (Some token))
        else (e, Fail K_TRY_AGAIN)
      end
    end.

(** What the handlers of [Execute]'s exceptions do. *)
Definition enqueue_failed (phase : TopologyCallbackPhase) (operation : string) (later random : Z) (e : executor) : executor :=
  let e := set_bodies (u64 (callbackBodies_ e - 1)) e in
  let e := (ReleaseInFlightLocked operation e).1 in
  let e := diag (set_queued (callbackBodies_ e)) e in
  let e := diag (λ g, set_error K_RUNTIME_ERROR (count_failed g)) e in
  let '(e, scheduled) := ScheduleRetryLocked phase operation later random e in
  if scheduled then e else (EraseOperationLocked operation e).1.

Definition push_work (w : work) (e : executor) : executor := set_work (poolWork_ e ++ [w]) e.

(** The part of [SubmitCallback] that holds the lock; [accepted] is whether the pool takes the work. *)
Definition SubmitCallback_locked (task : TopologyTask) (fence : TopologyExecutionFence) (operation : string) (allowScaleInDataDrain : bool)
    (now later random : Z) (accepted : bool) (e : executor) : executor * res unit :=
  match AdmitCallbackLocked task fence operation allowScaleInDataDrain now later random e with
  | (e, Fail c) => (e, Fail c)
  | (e, Ok None) => (e, Ok tt)
  | (e, Ok (Some token)) =>
    if accepted then (push_work (ExecuteCallbackWork fence operation token) e, Ok tt)
    else (enqueue_failed (ef_phase fence) operation later random e, Fail K_RUNTIME_ERROR)
  end.

Definition tokens_of (e : executor) : gset nat := list_to_set (omap (λ kv, cancellation kv.2) (map_to_list (operations_ e))).
Definition cancel_all (e : executor) : executor := set_cancelled (tokens_of e ∪ cancelled_ e) e.

Definition clear_ledgers (e : executor) : executor :=
  set_operations ∅ (set_scheduled ∅ (set_ordinary_deadlines ∅ (set_failure_deadlines ∅ (set_pending ∅ e)))).

Definition RefreshNotifyEpochLocked (epoch : Z) (e : executor) : executor * res unit :=
  if negb (currentEpoch_ e =? 0) && negb (currentEpoch_ e =? epoch) then
    let e := cancel_all e in
    if inFlightOperations_ e =? 0 then (set_epoch epoch (clear_ledgers e), Ok tt) else (e, Fail K_TRY_AGAIN)
  else (set_epoch epoch e, Ok tt).

Definition restart_pending (restartFacts : gmap string Z) (e : executor) : gmap string Z :=
  filter (λ kv, completedRestartTimestampsByAddress_ e !! kv.1 ≠ Some kv.2) restartFacts.

Definition HandleRestartFacts_locked (restartFacts : gmap string Z) (accepted : bool) (e : executor) : executor * res unit :=
  if negb (started_ e && negb (stopping_ e) && callbackPool_ e) then (e, Fail K_NOT_READY)
  else
    let e := set_restarts (filter (λ kv, is_Some (restartFacts !! kv.1)) (completedRestartTimestampsByAddress_ e)) e in
    if restartBatchInFlight_ e then (e, Ok tt)
    else
      let batch := restart_pending restartFacts e in
      if bool_decide (batch = ∅) then (e, Ok tt)
      else if accepted then (push_work (RestartWork batch) (add_bodies 1 (set_restart_in_flight true e)), Ok tt)
      else (add_bodies (-1) (set_restart_in_flight false (add_bodies 1 (set_restart_in_flight true e))), Fail K_TRY_AGAIN).

Definition FinishRestartEffects (restartFacts : gmap string Z) (status : res unit) (e : executor) : executor :=
  let e := if is_ok status then set_restarts (restartFacts ∪ completedRestartTimestampsByAddress_ e) e else e in
  add_bodies (-1) (set_restart_in_flight false e).

Definition FinishCallbackBody (phase : TopologyCallbackPhase) (operation : string) (callbackStatus submitStatus : res unit)
    (now random : Z) (e : executor) : executor :=
  let e := add_bodies (-1) e in
  match submitStatus with
  | Ok _ => e
  | Fail code =>
    let e := (ReleaseInFlightLocked operation e).1 in
    let e := diag (λ g, set_error code (count_failed g)) e in
    let failurePhase := bool_decide (phase = PHASE_FAILURE) in
    let e := if failurePhase
             then update operation (λ st, let st := os_progress_ready st in if is_ok callbackStatus then st else os_best_effort st) e
             else e in
    let retryableCallback := failurePhase || is_ok callbackStatus || IsOrdinaryRetryable (res_code callbackStatus) in
    let '(e, scheduled) := if negb (stopping_ e) && retryableCallback then ScheduleRetryLocked phase operation now random e else (e, false) in
    if scheduled then e else (EraseOperationLocked operation e).1
  end.

Definition ResolveCallbackDeadline (fence : TopologyExecutionFence) (now : Z) (e : executor) : res Z :=
  if bool_decide (ef_phase fence = PHASE_FAILURE) then
    match failureDeadlineByEpoch_ e !! ef_batchEpoch fence with
    | Some t => Ok (Z.min (now + seconds (failureCallbackDeadline options_)) t)
    | None => Fail K_INVALID
    end
  else
    match ordinaryDeadlineByMember_ e !! id (ef_executor fence) with
    | Some t => Ok (Z.min (now + seconds (ordinaryCallbackDeadline options_)) t)
    | None => Fail K_INVALID
    end.

Definition IsCancelled (token : nat) (e : executor) : bool := bool_decide (token ∈ cancelled_ e).

Definition IsScaleInDataDrainReady (operation : string) (e : executor) : bool :=
  match operations_ e !! operation with Some st => scaleInMetadataDone st | None => false end.

Definition IsScaleInMetadataGateReadyLocked (gate : string) (e : executor) : bool :=
  match scaleInMetadataPendingByGate_ e !! gate with None => true | Some ops => bool_decide (ops = ∅) end.

Definition IsScaleInMetadataGateReadyForOperationLocked (operation : string) (e : executor) : res bool :=
  match operations_ e !! operation with
  | Some st => check! negb (bool_decide (scaleInMetadataGate st = EmptyString)) else K_INVALID in Ok (IsScaleInMetadataGateReadyLocked (scaleInMetadataGate st) e)
  | None => Fail K_INVALID
  end.

Definition drains (gate : string) (st : OperationState) : bool := bool_decide (scaleInMetadataGate st = gate) && scaleInMetadataDone st.

Definition ScheduleScaleInDataDrainReadyLocked (gate : string) (now : Z) (e : executor) : executor :=
  set_operations ((λ st, if drains gate st then os_with_next now st else st) <$> operations_ e)
    (set_scheduled (dom (filter (λ kv, drains gate kv.2 = true) (operations_ e)) ∪ scheduledOperations_ e) e).

Definition SubmitCleanupApply_locked (fence : TopologyExecutionFence) (operation : string) (deadline : Z) (cleanup : TopologyPreparedCleanup)
    (accepted : bool) (e : executor) : executor * res unit :=
  if negb (started_ e && negb (stopping_ e) && callbackPool_ e) then (e, Fail K_NOT_READY)
  else
    match operations_ e !! operation ≫= cancellation with
    | None => (e, Fail K_INVALID)
    | Some token =>
      let e := add_bodies 1 e in
      if accepted then (push_work (ExecuteCleanupApplyWork fence operation deadline cleanup token) e, Ok tt)
      else (add_bodies (-1) e, Fail K_TRY_AGAIN)
    end.

Definition CompleteFailure_locked (phase : TopologyCallbackPhase) (operation : string) (code : StatusCode) (progressFailure : bool)
    (now random : Z) (e : executor) : executor * bool :=
  let e := (ReleaseInFlightLocked operation e).1 in
  let e := diag (λ g, set_error code (count_failed g)) e in
  let failurePhase := bool_decide (phase = PHASE_FAILURE) in
  let '(e, retryScheduled) := if progressFailure || (negb failurePhase && IsOrdinaryRetryable code)
                              then ScheduleRetryLocked phase operation now random e else (e, false) in
  (if retryScheduled then e else (EraseOperationLocked operation e).1, retryScheduled).

Definition CompleteStale_locked (operation : string) (code : StatusCode) (e : executor) : executor :=
  diag (λ g, set_error code (count_stale g)) (EraseOperationLocked operation e).1.

Definition DiscardIfStopping (operation : string) (e : executor) : executor * bool :=
  if started_ e && negb (stopping_ e) then (e, false)
  else let '(e, released) := EraseOperationLocked operation e in (diag (count_cancelled (if released then 1 else 0)) e, true).

(** The first section of [CompleteProgress]: whether the operation is still known. *)
Definition progress_begin (phase : TopologyCallbackPhase) (operation : string) (status : res unit) (e : executor) : executor * bool :=
  match operations_ e !! operation with
  | None => (e, false)
  | Some _ =>
    let e := update operation os_progress_ready e in
    (match status with
     | Fail code => if bool_decide (phase = PHASE_FAILURE) then diag (set_error code) (update operation os_best_effort e) else e
     | Ok _ => e
     end, true)
  end.

(** Its last section. *)
Definition progress_end (operation : string) (e : executor) : executor :=
  let bestEffort := match operations_ e !! operation with Some st => bestEffortFailure st | None => false end in
  diag (if bestEffort then count_failed else count_succeeded) (EraseOperationLocked operation e).1.

(** The last section of [CompleteScaleInMetadata]; [later] is the clock of the reschedule. *)
Definition metadata_end (gate operation : string) (now later : Z) (e : executor) : executor :=
  match operations_ e !! operation with
  | None => e
  | Some _ =>
    let e := (ReleaseInFlightLocked operation e).1 in
    let e := update operation (λ st, os_metadata_done (os_with_gate gate st)) e in
    let ready := match scaleInMetadataPendingByGate_ e !! gate with
                 | Some ops => bool_decide (ops ∖ {[operation]} = ∅)
                 | None => true
                 end in
    let e := erase_pending gate operation e in
    let e := ScheduleOperationLocked operation (if ready then now else now + milliseconds (backoffInitial options_)) e in
    let e := if ready then ScheduleScaleInDataDrainReadyLocked gate later e else e in
    diag (set_in_flight_callbacks (inFlightOperations_ e)) e
  end.

Definition PreserveDueOperation (operation : string) (task : TopologyTask) (code : StatusCode) (now : Z) (e : executor) : executor :=
  match operations_ e !! operation with
  | None => e
  | Some _ =>
    if stopping_ e then e
    else
      let e := diag (set_error code) e in
      if bool_decide (code = K_INVALID ∨ code = K_NOT_FOUND) then diag count_stale (EraseOperationLocked operation e).1
      else ScheduleOperationLocked operation (now + milliseconds (backoffInitial options_)) (update operation (os_with_task task) e)
  end.

Definition due_operations (now : Z) (e : executor) : list (string * TopologyTask) :=
  omap (λ operation, match operations_ e !! operation with
                     | Some st => if (nextAttempt st <=? now) && bool_decide (cancellation st = None) then Some (operation, os_task st) else None
                     | None => None
                     end) (elements (scheduledOperations_ e)).

Definition stop_begin (e : executor) : executor * bool :=
  (cancel_all (set_stopping true e), existsb (λ kv, match os_task kv.2 with Remove _ => true | Migrate _ => false end) (map_to_list (operations_ e))).

Definition stop_end (e : executor) : executor :=
  let e := diag (count_cancelled (inFlightOperations_ e)) e in
  let e := set_in_flight 0 (clear_ledgers e) in
  let e := set_started false (set_restart_in_flight false e) in
  diag (λ g, set_in_flight_callbacks 0 (set_running false g)) e.

(** [constructed] is whether the pool can be created. *)
Definition Start (localAddress_ : string) (constructed : bool) (e : executor) : executor * res unit :=
  if negb (started_ e) && negb (bool_decide (localAddress_ = EmptyString)) && ValidOptions options_ then
    if constructed then (diag (set_running true) (set_stopping false (set_started true (set_pool true e))), Ok tt)
    else (e, Fail K_RUNTIME_ERROR)
  else (e, Fail K_INVALID).
End Locked.

(** ** Programs *)
Record TopologyCallbackContext := MkContext {
  cc_action : TopologyPhaseAction; cc_businessOperationId : string; cc_deadline : Z; cc_cancellation : nat;
  cc_keyFilter : list TokenRange; cc_storageScanPlan : list StorageScanSegment }.

(** What the executor asks its collaborators. *)
Inductive call :=
| CNow | CRandom                                                              (* steady_clock, mt19937 *)
| CExecute                                                                    (* ThreadPool::Execute: false when it throws *)
| CLoad                                                                       (* TopologySnapshotState::Load *)
| CReadTask (kind : TopologyTaskKind) (taskId : string) (type : TopologyChangeType) (epoch : Z)
| CRead (timeoutMs : Z)                                                       (* TopologyReader::Read *)
| CMarkTaskScopeFinished (operation : string) (fence : TopologyExecutionFence)
| CMarkScaleInMetadataDone (operation : string) (record : ScaleInMetadataDoneRecord)
| CAuthorizeCleanup (operation : string) (latest : TopologySnapshot) (cleanup : TopologyPreparedCleanup)
| CRecordHandoff (operation : string) (fence : TopologyExecutionFence)        (* RecordScaleOutHandoffCompletion *)
| COnScaleOut (context : TopologyCallbackContext) | COnScaleIn (context : TopologyCallbackContext)
| COnScaleInDataDrain (context : TopologyCallbackContext) | CPrepareScaleInCleanup (context : TopologyCallbackContext)
| COnFailure (context : TopologyCallbackContext)
| CApply (operation : string) (deadline : Z) (token : nat)                    (* the cleanup's effect *)
| CRestartHandler (restartFacts : gmap string Z)
| CSubmitCompletion (completion : TopologyCallbackCompletion)
| CWaitDrained (deadline : Z) | CJoinPool.

Definition answer (c : call) : Type :=
  match c with
  | CNow | CRandom => Z
  | CExecute | CWaitDrained _ => bool
  | CLoad | CRead _ => res TopologySnapshot
  | CReadTask _ _ _ _ => res TopologyTask
  | CMarkTaskScopeFinished _ _ => TaskProgressOutcome * res unit
  | CPrepareScaleInCleanup _ => res unit * option TopologyPreparedCleanup
  | CRecordHandoff _ _ | CJoinPool => unit
  | CMarkScaleInMetadataDone _ _ | CAuthorizeCleanup _ _ _ | COnScaleOut _ | COnScaleIn _ | COnScaleInDataDrain _ | COnFailure _
  | CApply _ _ _ | CRestartHandler _ | CSubmitCompletion _ => res unit
  end.

(** [Atomic f k]: the state becomes [f e], the program goes on as [k e], with [e] the state it found. *)
Inductive prog (A : Type) : Type :=
| Ret (a : A)
| Atomic (f : executor → executor) (k : executor → prog A)
| Call (c : call) (k : answer c → prog A).
Arguments Ret {A} _.
Arguments Atomic {A} _ _.
Arguments Call {A} _ _.

Fixpoint prog_bind {A B} (k : A → prog B) (p : prog A) : prog B :=
  match p with
  | Ret a => k a
  | Atomic f k' => Atomic f (λ e, prog_bind k (k' e))
  | Call c k' => Call c (λ a, prog_bind k (k' a))
  end.
#[export] Instance prog_mbind : MBind prog := λ A B, prog_bind.
#[export] Instance prog_mret : MRet prog := λ A, Ret.

Definition section {A} (f : executor → executor * A) : prog A := Atomic (λ e, (f e).1) (λ e, Ret (f e).2).
Definition modify (f : executor → executor) : prog unit := section (λ e, (f e, tt)).
Definition reading {A} (f : executor → A) : prog A := section (λ e, (e, f e)).
Definition ask (c : call) : prog (answer c) := Call c Ret.
(** [RETURN_IF_NOT_OK] in a program. *)
Definition try {A B} (r : res A) (k : A → prog (res B)) : prog (res B) := match r with Ok a => k a | Fail c => Ret (Fail c) end.

Section Programs.
Context (HashSHA256 : chars → res chars) (localAddress_ : string) (options_ : TopologyTaskExecutorOptions) (restartHandler_ : bool).

Definition ValidateFence (fence : TopologyExecutionFence) : prog (res TopologySnapshot) :=
  read ← ask (CReadTask (ef_taskKind fence) (ef_taskId fence) (ef_batchType fence) (ef_batchEpoch fence));
  try read (λ task,
  read ← ask (CRead EXECUTOR_AUTHORITY_READ_TIMEOUT_MS);
  try read (λ candidate,
  try (BuildExecutionFence HashSHA256 localAddress_ task (ef_phase fence) candidate) (λ observed,
  Ret (check! SameFence fence observed else K_INVALID in Ok candidate)))).

Definition operation_of (fence : TopologyExecutionFence) : string := BuildBusinessOperationId HashSHA256 (ef_phase fence) fence.

Definition SubmitCallback (task : TopologyTask) (fence : TopologyExecutionFence) (allowScaleInDataDrain : bool) : prog (res unit) :=
  let operation := operation_of fence in
  if (OPERATION_ID_PREFIX_SIZE <? String.length operation)%nat then
    now ← ask CNow; later ← ask CNow; random ← ask CRandom; accepted ← ask CExecute;
    section (SubmitCallback_locked options_ task fence operation allowScaleInDataDrain now later random accepted)
  else Ret (Fail K_RUNTIME_ERROR).

(** The fence is built from the published snapshot. *)
Definition BuildFenceLoaded (task : TopologyTask) : prog (res TopologyExecutionFence) :=
  loaded ← ask CLoad;
  try loaded (λ snap, Ret (BuildExecutionFence HashSHA256 localAddress_ task (TaskPhase task) snap)).

Definition first_error (firstError rc : res unit) : res unit := match firstError with Ok _ => rc | Fail _ => firstError end.

Fixpoint SubmitNotifiedTasks (type : TopologyChangeType) (epoch : Z) (taskIds : list string) (firstError : res unit) : prog (res unit) :=
  match taskIds with
  | [] => Ret firstError
  | taskId :: rest =>
    let kind := if bool_decide (type = FAILURE) then DELETE_MEMBER else MIGRATE in
    read ← ask (CReadTask kind taskId type epoch);
    match read with
    | Fail c => SubmitNotifiedTasks type epoch rest (first_error firstError (Fail c))
    | Ok task =>
      built ← BuildFenceLoaded task;
      match built with
      | Fail K_NOT_READY => SubmitNotifiedTasks type epoch rest firstError
      | Fail c => SubmitNotifiedTasks type epoch rest (first_error firstError (Fail c))
      | Ok fence => rc ← SubmitCallback task fence false; SubmitNotifiedTasks type epoch rest (first_error firstError rc)
      end
    end
  end.

Definition HandleRestartFacts (restartFacts : gmap string Z) : prog (res unit) :=
  accepted ← ask CExecute; section (HandleRestartFacts_locked restartFacts accepted).

Definition InvokeRestartEffects (restartFacts : gmap string Z) : prog (res unit) :=
  if restartHandler_ then ask (CRestartHandler restartFacts) else Ret (Fail K_INVALID).

Definition RunRestartEffects (restartFacts : gmap string Z) : prog unit :=
  status ← InvokeRestartEffects restartFacts; modify (FinishRestartEffects restartFacts status).

Definition BuildScaleInMetadataGateForNotify (batch : ActiveBatch) (snap : TopologySnapshot) : res string :=
  if bool_decide (btype batch = SCALE_IN) then let! source := FindMemberByAddress snap localAddress_ in Ok (gate_of (epoch batch) (id (identity source)))
  else Ok EmptyString.

Definition HandleNotify (notify : TopologyTaskNotify) : prog (res unit) :=
  match nt_activeBatch notify with
  | None => HandleRestartFacts (restartTimestampsByAddress notify)
  | Some notifyBatch =>
    loaded ← ask CLoad;
    try loaded (λ snap,
    if bool_decide (GetActiveBatch snap = Some notifyBatch) then
      try (BuildScaleInMetadataGateForNotify notifyBatch snap) (λ _,
      refreshed ← section (RefreshNotifyEpochLocked (epoch notifyBatch));
      try refreshed (λ _,
      taskStatus ← SubmitNotifiedTasks (btype notifyBatch) (epoch notifyBatch) (taskIds notify) (Ok tt);
      restartStatus ← HandleRestartFacts (restartTimestampsByAddress notify);
      Ret (first_error taskStatus restartStatus)))
    else HandleRestartFacts (restartTimestampsByAddress notify))
  end.

(** *** Callback bodies *)
Definition InvokeCallback (fence : TopologyExecutionFence) (context : TopologyCallbackContext) : prog (res unit * option TopologyPreparedCleanup) :=
  match ef_phase fence with
  | PHASE_SCALE_OUT => rc ← ask (COnScaleOut context); Ret (rc, None)
  | PHASE_FAILURE => rc ← ask (COnFailure context); Ret (rc, None)
  | _ =>
    dataDrain ← reading (IsScaleInDataDrainReady (cc_businessOperationId context));
    if (dataDrain : bool) then
      rc ← ask (COnScaleInDataDrain context);
      match rc with
      | Fail c => Ret (Fail c, None)
      | Ok _ =>
        prepared ← ask (CPrepareScaleInCleanup context);
        match prepared with
        | (Ok _, None) => Ret (Fail K_INVALID, None)
        | _ => Ret prepared
        end
      end
    else rc ← ask (COnScaleIn context); Ret (rc, None)
  end.

(** The status, the prepared cleanup and the deadline. *)
Definition RunCallback (fence : TopologyExecutionFence) (operation : string) (token : nat)
    : prog (res unit * option TopologyPreparedCleanup * Z) :=
  validated ← ValidateFence fence;
  match (let! snap := validated in let! action := BuildPhaseAction fence (Version snap) in let! scope := BuildOpaqueScope fence in Ok (action, scope)) with
  | Fail c => Ret (Fail c, None, 0)
  | Ok (action, (filter, plan)) =>
    now ← ask CNow;
    resolved ← reading (ResolveCallbackDeadline options_ fence now);
    match resolved with
    | Fail c => Ret (Fail c, None, now + seconds (if bool_decide (ef_phase fence = PHASE_FAILURE) then failureCallbackDeadline options_
                                                  else ordinaryCallbackDeadline options_))
    | Ok deadline =>
      cancelled ← reading (IsCancelled token);
      if (cancelled : bool) then Ret (Fail K_NOT_READY, None, deadline)
      else
        invoked ← InvokeCallback fence (MkContext action operation deadline token filter plan);
        finished ← ask CNow;
        cancelled ← reading (IsCancelled token);
        Ret (if (deadline <=? finished) && negb cancelled then Fail K_RPC_DEADLINE_EXCEEDED else invoked.1, invoked.2, deadline)
    end
  end.

Definition SubmitAndFinish (completion : TopologyCallbackCompletion) : prog unit :=
  submitStatus ← ask (CSubmitCompletion completion);
  now ← ask CNow; random ← ask CRandom;
  modify (FinishCallbackBody options_ (ef_phase (tc_fence completion)) (tc_businessOperationId completion) (tc_status completion)
            submitStatus now random).

Definition ExecuteCallback (fence : TopologyExecutionFence) (operation : string) (token : nat) : prog unit :=
  '(callbackStatus, cleanup, deadline) ← RunCallback fence operation token;
  SubmitAndFinish (MkCompletion fence operation deadline callbackStatus cleanup).

Definition ExecuteCleanupApply (fence : TopologyExecutionFence) (operation : string) (deadline : Z) (cleanup : TopologyPreparedCleanup)
    (token : nat) : prog unit :=
  cancelled ← reading (IsCancelled token);
  effectStatus ← (if (cancelled : bool) then Ret (Fail K_NOT_READY)
                  else now ← ask CNow;
                       if deadline <=? now then Ret (Fail K_RPC_DEADLINE_EXCEEDED)
                       else if apply_ cleanup then ask (CApply operation deadline token) else Ret (Fail K_INVALID));
  SubmitAndFinish (MkCompletion fence operation deadline effectStatus None).

Definition run_work (w : work) : prog unit :=
  match w with
  | ExecuteCallbackWork fence operation token => ExecuteCallback fence operation token
  | ExecuteCleanupApplyWork fence operation deadline cleanup token => ExecuteCleanupApply fence operation deadline cleanup token
  | RestartWork restartFacts => RunRestartEffects restartFacts
  end.

(** *** Completions *)
Definition CompleteStale (operation : string) (code : StatusCode) : prog (res unit) :=
  _ ← modify (CompleteStale_locked operation code); Ret (Fail code).

Definition CompleteFailure (fence : TopologyExecutionFence) (operation : string) (code : StatusCode) (progressFailure : bool) : prog (res unit) :=
  now ← ask CNow; random ← ask CRandom;
  retryScheduled ← section (CompleteFailure_locked options_ (ef_phase fence) operation code progressFailure now random);
  Ret (if (retryScheduled : bool) then if progressFailure then Fail code else Ok tt else Fail code).

Definition CompleteProgress (fence : TopologyExecutionFence) (operation : string) (status : res unit) : prog (res unit) :=
  known ← section (progress_begin (ef_phase fence) operation status);
  if (known : bool) then
    marked ← ask (CMarkTaskScopeFinished operation fence);
    match marked with
    | (_, Fail code) => CompleteFailure fence operation code true
    | (UPDATED, Ok _) | (ALREADY_FINISHED, Ok _) =>
      _ ← (if is_ok status then ask (CRecordHandoff operation fence) else Ret tt);
      _ ← modify (progress_end operation);
      Ret (Ok tt)
    | (_, Ok _) => CompleteStale operation K_INVALID
    end
  else Ret (Ok tt).

Definition CompleteScaleInMetadata (fence : TopologyExecutionFence) (operation : string) : prog (res unit) :=
  match ef_source fence with
  | None => Ret (Fail K_INVALID)
  | Some source =>
    known ← reading (λ e, bool_decide (is_Some (operations_ e !! operation)));
    if (known : bool) then
      rc ← ask (CMarkScaleInMetadataDone operation (MkMarker (ef_batchEpoch fence) (cs (id source)) (cs (ef_taskId fence)) (cs operation)));
      match rc with
      | Fail code => CompleteFailure fence operation code false
      | Ok _ =>
        try (ScaleInMetadataGateKey fence) (λ gate,
        now ← ask CNow; later ← ask CNow;
        _ ← modify (metadata_end options_ gate operation now later);
        Ret (Ok tt))
      end
    else Ret (Ok tt)
  end.

Definition TryAuthorizeCleanup (fence : TopologyExecutionFence) (operation : string) (cleanup : TopologyPreparedCleanup) : prog (res unit) :=
  validated ← ValidateFence fence;
  try validated (λ latest, ask (CAuthorizeCleanup operation latest cleanup)).

Definition SubmitCleanupApply (fence : TopologyExecutionFence) (operation : string) (deadline : Z) (cleanup : TopologyPreparedCleanup)
    : prog (res unit) :=
  accepted ← ask CExecute; section (SubmitCleanupApply_locked fence operation deadline cleanup accepted).

Definition conclude (fence : TopologyExecutionFence) (operation : string) (rc : res unit) : prog (res unit) :=
  match rc with
  | Ok _ => CompleteProgress fence operation (Ok tt)
  | Fail code =>
    if bool_decide (ef_phase fence = PHASE_FAILURE) then CompleteProgress fence operation (Fail code)
    else CompleteFailure fence operation code false
  end.

Definition HandleCompletion (completion : TopologyCallbackCompletion) : prog (res unit) :=
  let fence := tc_fence completion in
  let operation := operation_of fence in
  if negb (bool_decide (tc_businessOperationId completion = operation)) then CompleteStale operation K_INVALID
  else
    discarded ← section (DiscardIfStopping operation);
    if (discarded : bool) then Ret (Ok tt)
    else
      match tc_status completion, tc_preparedCleanup completion with
      | Ok _, Some cleanup =>
        now ← ask CNow;
        rc ← (if tc_deadline completion <=? (now : Z) then Ret (Fail K_RPC_DEADLINE_EXCEEDED) else TryAuthorizeCleanup fence operation cleanup);
        match rc with
        | Fail code => conclude fence operation (Fail code)
        | Ok _ =>
          rc ← SubmitCleanupApply fence operation (tc_deadline completion) cleanup;
          match rc with Ok _ => Ret (Ok tt) | Fail code => conclude fence operation (Fail code) end
        end
      | status, cleanup =>
        validated ← ValidateFence fence;
        match validated with
        | Fail code => CompleteStale operation code
        | Ok _ =>
          drainReady ← reading (IsScaleInDataDrainReady operation);
          if bool_decide (ef_phase fence = PHASE_SCALE_IN) && is_ok status && bool_decide (cleanup = None) && negb drainReady
          then CompleteScaleInMetadata fence operation
          else conclude fence operation status
        end
      end.

(** *** The tick *)
Definition handle_due (operation : string) (task : TopologyTask) : prog (res unit) :=
  built ← BuildFenceLoaded task;
  '(progressOnly, metadataDone) ← reading (λ e, match operations_ e !! operation with
                                                | Some st => (progressReady st, scaleInMetadataDone st)
                                                | None => (false, false)
                                                end);
  let preserve code := now ← ask CNow; modify (PreserveDueOperation options_ operation task code now) in
  match built with
  | Fail code => _ ← preserve code; Ret (Fail code)
  | Ok fence =>
    if (progressOnly : bool) then CompleteProgress fence operation (Ok tt)
    else if (metadataDone : bool) then
      ready ← reading (IsScaleInMetadataGateReadyForOperationLocked operation);
      match ready with
      | Fail code => _ ← preserve code; Ret (Fail code)
      | Ok true =>
        rc ← SubmitCallback task fence true;
        match rc with Ok _ => Ret (Ok tt) | Fail code => _ ← preserve code; Ret (Fail code) end
      | Ok false => _ ← preserve K_NOT_READY; Ret (Ok tt)
      end
    else
      rc ← SubmitCallback task fence false;
      match rc with Ok _ => Ret (Ok tt) | Fail code => _ ← preserve code; Ret (Fail code) end
  end.

Fixpoint due_loop (due : list (string * TopologyTask)) (firstError : res unit) : prog (res unit) :=
  match due with
  | [] => Ret firstError
  | (operation, task) :: rest => rc ← handle_due operation task; due_loop rest (first_error firstError rc)
  end.

Definition HandleTick (now : Z) : prog (res unit) :=
  due ← section (λ e, (e, check! started_ e && negb (stopping_ e) else K_NOT_READY in Ok (due_operations now e)));
  try due (λ due, due_loop due (Ok tt)).

Definition Stop (deadline : Z) : prog (res unit) :=
  begun ← section (λ e, if started_ e then let '(e', hasFailure) := stop_begin e in (e', Some hasFailure) else (e, None));
  match begun with
  | None => Ret (Ok tt)
  | Some hasFailure =>
    now ← ask CNow;
    drained ← ask (CWaitDrained (Z.min deadline (now + seconds (if hasFailure : bool then failureDrain options_ else ordinaryDrain options_))));
    _ ← modify (set_pool false);
    _ ← ask CJoinPool;
    _ ← modify stop_end;
    Ret (if (drained : bool) then Ok tt else Fail K_RPC_DEADLINE_EXCEEDED)
  end.

Definition GetDiagnostics : prog TopologyTaskExecutorDiagnostics :=
  reading (λ e, set_in_flight_callbacks (inFlightOperations_ e) (diagnostics_ e)).

(** The destructor: its deadline is [time_point::max()]. *)
Definition Destroy : prog (res unit) := Stop INT64_MAX.
End Programs.

(** ** Backoff *)
Lemma retry_cap_spec o attempt :
  ValidOptions o = true → backoffMaximum o * 1000 ≤ INT64_MAX → 0 ≤ attempt →
  retry_cap attempt o = Z.min (backoffInitial o * 2 ^ Z.min (Z.max (attempt - 1) 0) MAX_BACKOFF_SHIFT) (backoffMaximum o * 1000).
Proof.
  unfold ValidOptions, retry_cap, MAX_BACKOFF_SHIFT, INT64_MAX. rewrite !andb_true_iff !Z.ltb_lt !Z.leb_le. intros Hv Hmax Ha.
  assert (0 < backoffInitial o ≤ backoffMaximum o * 1000) as Hi by lia. clear Hv.
  replace (Z.min (if 0 <? attempt then attempt - 1 else 0) 20) with (Z.min (Z.max (attempt - 1) 0) 20) by (destruct (Z.ltb_spec 0 attempt); lia).
  set (k := Z.min (Z.max (attempt - 1) 0) 20). assert (0 ≤ k ≤ 20) as Hk by lia. rewrite Z.shiftl_1_l.
  assert (1 ≤ 2 ^ k ≤ 2 ^ 20) as Hp. { split; [apply (Z.pow_le_mono_r 2 0 k); lia|apply Z.pow_le_mono_r; lia]. }
  set (p := 2 ^ k) in *. assert (2 ^ 20 = 1048576) as E20 by reflexivity. set (m := backoffMaximum o * 1000) in *. set (x := backoffInitial o) in *.
  rewrite (i64_small p); [unfold INT64_MAX; lia|]. rewrite (i64_small m); [unfold INT64_MAX; lia|]. rewrite Z.quot_div_nonneg; [lia..|].
  destruct (Z.ltb_spec (m / p) x) as [Hlt|Hge].
  - symmetry. apply Z.min_r. pose proof (Z.mul_succ_div_gt m p ltac:(lia)). nia.
  - assert (x * p ≤ m) by (pose proof (Z.mul_div_le m p ltac:(lia)); nia). rewrite i64_small; [unfold INT64_MAX; nia|]. lia.
Qed.

(** ** Scopes *)
Lemma scope_loop_disjoint prev ranges : scope_loop (to <$> prev) ranges = disjoint_ranges prev ranges.
Proof.
  revert prev. induction ranges as [|r rest IH]; intros prev; [done|]. cbn [scope_loop disjoint_ranges]. rewrite -(IH (Some r)).
  by destruct prev.
Qed.

Lemma unfinished_all task : Forall (λ r, finished r = false) (ranges_of task) → UnfinishedRanges task = ToRanges (ranges_of task).
Proof. intros H. unfold UnfinishedRanges, ToRanges. f_equal. by apply list_filter_all. Qed.

(** What a member is found as in the snapshot of a valid topology. *)
Lemma find_canon st rev dig m :
  NoDup (addr <$> members st) → m ∈ members st → FindMemberByAddress (BuildIndexes (canon st) rev dig) (addr m) = Ok (sort_tokens m).
Proof.
  intros Hnd Hm. apply (find_by_index (canon st) rev dig addr); [by rewrite canon_addrs|]. split; [|done].
  rewrite canon_members_perm. by apply list_elem_of_fmap_2.
Qed.

(** A task of a change that fits its batch passes every check. *)
Lemma fence_of_fitting HashSHA256 st rev dig b c task :
  NoDup (addr <$> members st) → activeBatch st = Some b → change_fits st (btype b) c →
  id_of task = BuildTaskId HashSHA256 task → type_of task = btype b → epoch_of task = epoch b →
  (kind_of task = if bool_decide (btype b = FAILURE) then DELETE_MEMBER else MIGRATE) → UnfinishedRanges task ≠ [] →
  (∃ src, ch_source c = Some src ∧ moves task = (address src, address (ch_target c))) →
  ∃ fence action, BuildExecutionFence HashSHA256 (executor_of task) task (TaskPhase task) (BuildIndexes (canon st) rev dig) = Ok fence
    ∧ BuildPhaseAction fence (version st) = Ok action ∧ ef_ranges fence = UnfinishedRanges task ∧ address (ef_executor fence) = executor_of task
    ∧ moves task = (from_option address "" (ef_source fence ∪ ef_failed fence), from_option address (executor_of task) (ef_target fence)).
Proof.
  intros Hnd Eb (_ & _ & ms & md & Es & Hms & Ed & Hmd & Hends) Hid Hty Hep Hkind Hne (src & Es' & Hmv). rewrite Es in Es'. injection Es' as <-.
  pose proof (find_canon st rev dig ms Hnd Hms) as Fs. pose proof (find_canon st rev dig md Hnd Hmd) as Fd. unfold addr in Fs, Fd. rewrite Ed in Fd.
  unfold BuildExecutionFence. assert (GetActiveBatch (BuildIndexes (canon st) rev dig) = Some b) as -> by exact Eb.
  rewrite (bool_decide_eq_false_2 (UnfinishedRanges task = [])) // Hid (bool_decide_eq_true_2 (BuildTaskId HashSHA256 task = _)) // Hep Z.eqb_refl. cbn [negb andb].
  destruct task as [t|t]; cbn [executor_of moves type_of kind_of TaskPhase] in *; injection Hmv as Hx Hy.
  - rewrite Hx Hy Fs Fd. cbn [res_bind]. rewrite (bool_decide_eq_true_2 (address (identity ms) = address (identity ms))) // Hty (bool_decide_eq_true_2 (btype b = btype b)) //.
    destruct (btype b); [| |done]; cbn in Hends.
    all: destruct Hends as [H1 H2]; cbn; rewrite H1 H2; cbn; eexists _, _; split_and!; try done; cbn; by rewrite ?Ed.
  - destruct (btype b); try done. destruct Hends as [H1 H2]. rewrite Hx Hy Fs Fd. cbn [res_bind]. rewrite (bool_decide_eq_true_2 (address (ch_target c) = address (ch_target c))) //. cbn. rewrite H1 H2. cbn.
    eexists _, _. split_and!; try done; cbn; by rewrite ?Ed.
Qed.

(** A derived task: what it is made of. *)
Lemma derived_task HashSHA256 b changes task :
  (∀ c, c ∈ changes → is_Some (ch_source c) ∧ disjoint_ranges None (sort_ranges (ch_ranges c)) = Ok tt) →
  task ∈ merge_sort id_le (named HashSHA256 <$> flat_map (change_tasks (btype b) (epoch b)) changes) →
  ∃ c src ch, c ∈ changes ∧ ch_source c = Some src ∧ moves task = (address src, address (ch_target c)) ∧ id_of task = BuildTaskId HashSHA256 task
    ∧ type_of task = btype b ∧ epoch_of task = epoch b ∧ (kind_of task = if bool_decide (btype b = FAILURE) then DELETE_MEMBER else MIGRATE)
    ∧ UnfinishedRanges task = ch ∧ ToRanges (ranges_of task) = ch ∧ ch ≠ [] ∧ sort_ranges ch = ch ∧ disjoint_ranges None ch = Ok tt
    ∧ ∀ r, r ∈ ch → r ∈ ch_ranges c.
Proof.
  intros Hok. rewrite elem_of_merge_sort. intros (task' & -> & Ht)%list_elem_of_fmap.
  apply list_elem_of_In, in_flat_map in Ht as (c & Hc%list_elem_of_In & Ht%list_elem_of_In). destruct (Hok c Hc) as [[src Es] Hd].
  unfold change_tasks, AppendTaskChunks in Ht. rewrite Es in Ht. cbn [app] in Ht. apply list_elem_of_fmap in Ht as (ch & -> & Hch).
  destruct (chunks_spec _ (sort_ranges (ch_ranges c)) ltac:(done)) as [_ Hsp]. destruct (Hsp ch Hch) as (Hne & _ & l1 & l2 & E).
  assert (StronglySorted range_le ch) as Hss. { apply (StronglySorted_middle _ l1 ch l2). rewrite -E. apply sort_ranges_sorted. }
  destruct (chunk_task_facts (btype b) (epoch b) (address src) (address (ch_target c)) ch Hss) as (Hm & Hty & Hep & Hr & Hfin & _ & _ & Hk).
  set (task := chunk_task _ _ _ _ ch) in *. destruct (with_id_facts (BuildTaskId HashSHA256 task) task) as (Em & Er & Et & Ee & _ & Ek & _).
  exists c, src, ch. unfold named. rewrite Em Et Ee Ek Er. split_and!; try done.
  - apply (named_id HashSHA256).
  - rewrite unfinished_all; rewrite Er //.
  - apply (StronglySorted_unique range_le); [apply sort_ranges_sorted|done|apply merge_sort_Permutation].
  - apply disjoint_ranges_ok in Hd as (Hf & Hs & _). rewrite E in Hf Hs. apply disjoint_ranges_ok. split_and!; [|by apply (StronglySorted_middle _ l1 ch l2)|done].
    by apply Forall_app in Hf as [_ [? _]%Forall_app].
  - intros r Hin. rewrite -(elem_of_merge_sort range_le). change (r ∈ sort_ranges (ch_ranges c)). rewrite E !elem_of_app. tauto.
Qed.

(** ** Properties *)

(** What the controller plans the workers can run.  Every task derived from a committed batch passes the executor's checks
    on the worker it is addressed to: its fence is built, names the members the task moves keys between, gives an
    action for the callbacks, and its scope is accepted; the key filter handed to the callbacks takes a key exactly when the task covers the key's
    token, and the scan plan lists the same tokens. *)
Theorem derived_tasks_executable (HashSHA256 : chars → res chars) (Hdig : digest_ok HashSHA256) (tokens_per_member : Z) (wn : wire TaskNotifyPb)
    (latest : TopologyState) (Hinv : plan_inv latest) (Hver : version latest < INT64_MAX)
    (plan : TopologyPlan) (Hst : starts tokens_per_member latest plan) (rev : Z) (dig : string) (snap : TopologySnapshot)
    (Hc : Create (next plan) rev dig = Ok snap) :
  ∃ e, RebuildExpected HashSHA256 tokens_per_member wn snap [] false = Ok e
    ∧ ∀ task, task ∈ ed_tasks e → ∃ fence action filter segments,
        BuildExecutionFence HashSHA256 (executor_of task) task (TaskPhase task) snap = Ok fence
        ∧ BuildPhaseAction fence (Version snap) = Ok action ∧ BuildOpaqueScope fence = Ok (filter, segments)
        ∧ moves task = (from_option address "" (ef_source fence ∪ ef_failed fence), from_option address (executor_of task) (ef_target fence))
        ∧ (∀ key, Contains filter key = covers (MurmurHash.Hash key) task)
        ∧ (∀ key, covers (MurmurHash.Hash key) task = true ↔ ∃ g, g ∈ segments ∧ sg_from g ≤ MurmurHash.Hash key ≤ sg_end g).
Proof.
  destruct (rebuild_expected HashSHA256 Hdig tokens_per_member latest Hinv Hver wn plan rev dig snap Hst Hc) as (b & e & Eb & He & Et & _ & _ & Hfit & _).
  exists e. split; [done|]. intros task. rewrite Et. intros Hin. destruct (starts_inv _ _ Hinv Hver _ Hst) as [Hadv _]. apply Create_ok in Hc as (_ & -> & _).
  destruct (derived_task HashSHA256 b (ownerChanges plan) task) as (c & src & ch & Hcin & Es & Hmv & Hid & Hty & Hep & Hk & Hun & Hto & Hne & Hsort & Hdis & Hsub);
    [intros c Hcin; by eapply fits_disjoint, Hfit|done|].
  destruct (fence_of_fitting HashSHA256 (next plan) rev dig b c task) as (fence & action & Hf & Ha & Hr & _ & Hm); try done; [apply Hadv|by apply Hfit|by rewrite Hun|by exists src|].
  exists fence, action, ch, (CreateHash ch). assert (ascending ch) as Hasc.
  { apply disjoint_ranges_ok in Hdis as (_ & Hs & _). split; [|done]. apply Forall_forall. intros r Hrin. destruct (Hfit c Hcin) as ([Hwf _] & _).
    rewrite Forall_forall in Hwf. specialize (Hwf r (Hsub r Hrin)). unfold wf_range. cbn in Hwf. lia. }
  assert (∀ key, Contains ch key = covers (MurmurHash.Hash key) task) as Hcont.
  { intros key. unfold covers. rewrite Hto. change (Contains ch key = covered (MurmurHash.Hash key) ch). apply eq_true_iff_eq. rewrite covered_in. by apply contains_in. }
  split_and!; try done.
  - unfold BuildOpaqueScope. rewrite Hr Hun bool_decide_eq_false_2 // Hsort. cbn [negb]. pose proof (scope_loop_disjoint None ch) as Hsl. cbn in Hsl. by rewrite Hsl Hdis.
  - intros key. rewrite -Hcont. apply (filter_exact ch key (CreateHash ch)); [done|]. unfold GetSegments. rewrite bool_decide_eq_false_2 //. by destruct ch.
Qed.

Lemma derived_tasks_executable_witness :
  ∃ plan snap e, BuildScaleOutStart 2 admitted [identity m3] = Ok plan ∧ Create (next plan) 9 digest0 = Ok snap
    ∧ RebuildExpected sample_digest 2 (MkWire TaskNotifyPb (λ _, None) (λ _, None)) snap [] false = Ok e ∧ (List.length (ed_tasks e) > 0)%nat
    ∧ ∀ task, task ∈ ed_tasks e → ∃ fence, BuildExecutionFence sample_digest (executor_of task) task (TaskPhase task) snap = Ok fence.
Proof.
  destruct (BuildScaleOutStart 2 admitted [identity m3]) as [plan|] eqn:E; [|by vm_compute in E].
  destruct (Create (next plan) 9 digest0) as [snap|] eqn:Ec; [|vm_compute in E; injection E as <-; by vm_compute in Ec].
  destruct (derived_tasks_executable sample_digest (λ s, ex_intro _ _ (conj eq_refl eq_refl)) 2 (MkWire TaskNotifyPb (λ _, None) (λ _, None)) admitted
    admitted_inv ltac:(unfold INT64_MAX; cbn; lia) plan (starts_scale_out _ _ _ _ E) 9 digest0 snap Ec) as (e & He & H).
  exists plan, snap, e. split; [done|]. split; [done|]. split; [done|]. split.
  - vm_compute in E. injection E as <-. vm_compute in Ec. injection Ec as <-. vm_compute in He. injection He as <-. vm_compute. lia.
  - intros task Hin. destruct (H task Hin) as (fence & _ & _ & _ & Hf & _). by exists fence.
Defined.

(** C33: The delay before a retry is bounded and does not overflow: with valid options the upper end of the random delay is the initial
    backoff doubled for every attempt after the first, at most twenty times, and never more than the configured maximum; it never
    shrinks from one attempt to the next, and the delay drawn lies between zero and it. *)
Theorem backoff_bounds (o : TopologyTaskExecutorOptions) (Hv : ValidOptions o = true) (Hmax : backoffMaximum o * 1000 ≤ INT64_MAX)
    (attempt random : Z) (Ha : 0 ≤ attempt) :
  retry_cap attempt o = Z.min (backoffInitial o * 2 ^ Z.min (Z.max (attempt - 1) 0) MAX_BACKOFF_SHIFT) (backoffMaximum o * 1000)
  ∧ 0 < retry_cap attempt o ≤ retry_cap (attempt + 1) o
  ∧ 0 ≤ RetryDelay attempt o random ≤ retry_cap attempt o.
Proof.
  pose proof (retry_cap_spec o attempt Hv Hmax Ha) as E. pose proof (retry_cap_spec o (attempt + 1) Hv Hmax ltac:(lia)) as E1.
  unfold ValidOptions in Hv. rewrite !andb_true_iff !Z.ltb_lt !Z.leb_le in Hv. split; [done|].
  assert (0 < 2 ^ Z.min (Z.max (attempt - 1) 0) MAX_BACKOFF_SHIFT ≤ 2 ^ Z.min (Z.max (attempt + 1 - 1) 0) MAX_BACKOFF_SHIFT) as Hp.
  { unfold MAX_BACKOFF_SHIFT. split; [apply Z.pow_pos_nonneg; lia|apply Z.pow_le_mono_r; lia]. }
  assert (0 < retry_cap attempt o ≤ retry_cap (attempt + 1) o) as Hcap by (rewrite E E1; nia). split; [done|].
  unfold RetryDelay. pose proof (Z.mod_pos_bound random (retry_cap attempt o + 1)). lia.
Qed.

Lemma backoff_bounds_witness : retry_cap 4 default_options = 800 ∧ retry_cap 40 default_options = 30000 ∧ 0 ≤ RetryDelay 40 default_options 123456789 ≤ 30000.
Proof.
  destruct (backoff_bounds default_options eq_refl ltac:(unfold INT64_MAX; cbn; lia) 4 0 ltac:(lia)) as [-> _].
  destruct (backoff_bounds default_options eq_refl ltac:(unfold INT64_MAX; cbn; lia) 40 123456789 ltac:(lia)) as (E & _ & H). rewrite E in H. rewrite E.
  split; [reflexivity|]. split; [reflexivity|]. exact H.
Defined.

End Executor.
