(* ===== verification/Controller.v ===== *)
(** * Controller: the topology control loop

    Model of the decisions of [src/datasystem/cluster/control/topology_controller.cpp]: what a controller asks the
    repository to commit, from the topology it has read, the membership, the failures it has confirmed and
    its own state, and the composition of the failure classifier, the plan builder and the compare-and-swap.

    A [Commit...] operation is modelled by the topology it hands to [CommitAndReadBack], if any, and by what it
    does to the controller's state before and after; whether the commit succeeds is an argument where the
    state depends on it.  The clock is read once per operation.  [Hasher::HashSHA256] (OpenSSL) and the plan
    builder's algorithm are parameters, and so are the answers of the callbacks the controller is given (the liveness probe,
    the control epoch).  Every call of [CommitAndReadBack] is here.  Not modelled: how the probes of single members choose their targets
    and their rounds (what they confirm is any list of identities), the derived tasks, the event queue and the threads. *)
From S2P Require Import Prelude NetUtil Topology HashRing PlanBuilder Membership FailureClassifier KeyHelper RepositoryCodec Repository.
From Stdlib Require Import Ascii String.
Import Topology HashRing Membership PlanBuilder FailureClassifier.

Module Controller.
Local Open Scope Z_scope.

Record BatchCollectState := MkCollect { deadline : Z; started : bool; awaitingAdmission : bool }.

Record controller := MkController {
  quarantinedReadyTimestampByAddress_ : gmap string Z;
  scaleInCollect_ : option BatchCollectState;
  scaleOutCollect_ : option BatchCollectState }.

Record options := MkOptions { maxMembersPerBatch : nat; scaleInCollectWindow : Z; scaleOutCollectWindow : Z }.

Definition with_quarantine (q : gmap string Z) (c : controller) : controller := MkController q (scaleInCollect_ c) (scaleOutCollect_ c).
Definition with_scale_in (s : option BatchCollectState) (c : controller) : controller :=
  MkController (quarantinedReadyTimestampByAddress_ c) s (scaleOutCollect_ c).
Definition with_scale_out (s : option BatchCollectState) (c : controller) : controller :=
  MkController (quarantinedReadyTimestampByAddress_ c) (scaleInCollect_ c) s.

(** ** Helpers *)
Definition ident_addr_le (a b : MemberIdentity) : Prop := String.le (address a) (address b).
#[export] Instance ident_addr_le_dec : RelDecision ident_addr_le.
Proof. intros a b. unfold ident_addr_le. apply _. Defined.

Definition LimitMembers (ms : list MemberIdentity) (limit : nat) : list MemberIdentity := take limit (merge_sort ident_addr_le ms).

Definition EraseMembers (st : TopologyState) (identities : list MemberIdentity) : TopologyState :=
  RemoveMembers st (addresses_of identities).

(** [lifecycleByAddress.emplace]: the first record of an address wins. *)
Definition lifecycle_of (records : list MembershipRecord) (a : string) : option MemberLifecycleState :=
  mr_state <$> head (filter (λ r, mr_address r = a) records).

Definition AllMembersExiting (latest : TopologyState) (memberships : list MembershipRecord) : bool :=
  negb (bool_decide (members latest = []))
  && forallb (λ m, bool_decide (lifecycle_of memberships (addr m) = Some EXITING)) (members latest).

Definition IsCollectiveCommittedMembershipMissing (latest : TopologySnapshot) (memberships : list MembershipRecord) : bool :=
  negb (bool_decide (committedMembers_ latest = []))
  && negb (existsb (λ r, match FindMemberByAddress latest (mr_address r) with
                         | Ok m => match state m with ACTIVE | PRE_LEAVING | LEAVING => true | _ => false end
                         | Fail _ => false
                         end) memberships).

Definition is_ready (r : MembershipRecord) : bool := match mr_state r with READY | RESTARTING => true | _ => false end.

Section Controller.
Context (HashSHA256 : NetUtil.chars → res NetUtil.chars) (UUID_SIZE : nat).

(** [std::to_string] of a signed 64-bit number. *)
Definition i64_to_string (n : Z) : NetUtil.chars :=
  if n <? 0 then "-"%char :: NetUtil.digits_of 20 (- n) [] else NetUtil.digits_of 20 n [].

Definition BuildMemberId (r : MembershipRecord) : res string :=
  let seed := i64_to_string (Z.of_nat (String.length (mr_address r))) ++ ":"%char :: list_ascii_of_string (mr_address r)
              ++ ":"%char :: i64_to_string (mr_timestamp r) ++ ":"%char :: list_ascii_of_string (mr_hostId r) in
  let! digest := HashSHA256 seed in
  check! (UUID_SIZE <=? List.length digest)%nat else K_RUNTIME_ERROR in
  Ok (string_of_list_ascii (take UUID_SIZE digest)).

(** ** Membership facts *)
Fixpoint facts_loop (q : gmap string Z) (records : list MembershipRecord) : gmap string Z * gset string * list MembershipRecord :=
  match records with
  | [] => (q, ∅, [])
  | r :: rest =>
    let step q :=
      let '(q', exiting, ready) := facts_loop q rest in
      (q', if bool_decide (mr_state r = EXITING) then {[mr_address r]} ∪ exiting else exiting, ready) in
    if is_ready r then
      match q !! mr_address r with
      | Some t => if (mr_timestamp r <=? t)%Z then step q
                  else let '(q', exiting, ready) := step (delete (mr_address r) q) in (q', exiting, r :: ready)
      | None => let '(q', exiting, ready) := step q in (q', exiting, r :: ready)
      end
    else step q
  end.

Definition record_le (a b : MembershipRecord) : Prop := String.le (mr_address a) (mr_address b).
#[export] Instance record_le_dec : RelDecision record_le.
Proof. intros a b. unfold record_le. apply _. Defined.

Definition CollectMembershipFacts (c : controller) (memberships : list MembershipRecord)
    : controller * gset string * list MembershipRecord :=
  let '(q, exiting, ready) := facts_loop (quarantinedReadyTimestampByAddress_ c) memberships in
  (with_quarantine q c, exiting, merge_sort record_le ready).

(** Returns the members, the admitted ones and [changed]; [known] is the addresses of all of them. *)
Fixpoint ApplyExitingMembershipFacts (max : nat) (exiting : gset string) (ms : list Member) (changed : nat)
    : list Member * list MemberIdentity * nat :=
  match ms with
  | [] => ([], [], changed)
  | m :: rest =>
    if bool_decide (state m = ACTIVE) && bool_decide (addr m ∈ exiting) && (changed <? max)%nat then
      let '(ms', admitted, n) := ApplyExitingMembershipFacts max exiting rest (S changed) in
      (with_state PRE_LEAVING m :: ms', identity m :: admitted, n)
    else let '(ms', admitted, n) := ApplyExitingMembershipFacts max exiting rest changed in (m :: ms', admitted, n)
  end.

Fixpoint ApplyReadyMembershipFacts (max : nat) (ready : list MembershipRecord) (known : gset string) (changed : nat)
    : res (list Member * nat) :=
  match ready with
  | [] => Ok ([], changed)
  | r :: rest =>
    if bool_decide (mr_address r ∈ known) || (max <=? changed)%nat then ApplyReadyMembershipFacts max rest known changed
    else
      let! _ := KeyHelper.MembershipKey (list_ascii_of_string (mr_address r)) in
      let! memberId := BuildMemberId r in
      let! (ms, n) := ApplyReadyMembershipFacts max rest ({[mr_address r]} ∪ known) (S changed) in
      Ok (MkMember (MkIdentity memberId (mr_address r)) INITIAL [] :: ms, n)
  end.

Definition ClearBatchCollectState (c : controller) (type : TopologyChangeType) : controller :=
  match type with SCALE_IN => with_scale_in None c | _ => with_scale_out None c end.

Definition CollectNextBatchCandidates (o : options) (latest : TopologyState) (memberships : list MembershipRecord)
    : list MemberIdentity * list MemberIdentity :=
  let ready : gset string := list_to_set (mr_address <$> filter (λ r, is_ready r = true) memberships) in
  (LimitMembers (identity <$> filter (λ m, state m = PRE_LEAVING) (members latest)) (maxMembersPerBatch o),
   LimitMembers (identity <$> filter (λ m, state m = INITIAL ∧ addr m ∈ ready) (members latest)) (maxMembersPerBatch o)).

Definition ShouldApplyReadyScaleOutAdmission (o : options) (c : controller) (now : Z) (latest : TopologyState)
    (ready : list MembershipRecord) (known : gset string) : controller * bool :=
  let hasUnknownReady := existsb (λ r, negb (bool_decide (mr_address r ∈ known))) ready in
  let awaiting := match scaleOutCollect_ c with Some s => awaitingAdmission s | None => false end in
  match activeBatch latest with
  | Some _ =>
    if negb (clusterHasInit latest) then (c, true)
    else if negb hasUnknownReady then (if awaiting then ClearBatchCollectState c SCALE_OUT else c, false)
    else (if (0 <? scaleOutCollectWindow o) && negb awaiting
          then with_scale_out (Some (MkCollect (now + scaleOutCollectWindow o) false true)) c else c, false)
  | None =>
    match scaleOutCollect_ c with
    | None => (c, true)
    | Some s =>
      if negb hasUnknownReady then (c, false)
      else
        let hasReadyInitial := negb (bool_decide ((CollectNextBatchCandidates o latest ready).2 = [])) in
        if negb (awaitingAdmission s) && negb hasReadyInitial then (ClearBatchCollectState c SCALE_OUT, true)
        else if now <? deadline s then (c, true)
        else
          let s' := if awaitingAdmission s && hasReadyInitial then MkCollect (deadline s) (started s) false else s in
          let c' := with_scale_out (Some s') c in
          if awaitingAdmission s' then (c', true)
          else (if negb hasReadyInitial then ClearBatchCollectState c' SCALE_OUT else c', negb hasReadyInitial)
    end
  end.

(** The controller, and the topology to commit if anything changed. *)
Definition CommitMembershipFacts (o : options) (c : controller) (now : Z) (latest : TopologyState)
    (memberships : list MembershipRecord) : controller * res (option (TopologyState * bool * bool)) :=
  let '(c, exiting, ready) := CollectMembershipFacts c memberships in
  let '(ms, admittedLeaving, changed) := ApplyExitingMembershipFacts (maxMembersPerBatch o) exiting (members latest) 0 in
  let known : gset string := list_to_set (addr <$> members latest) in
  let '(c, allowed) := ShouldApplyReadyScaleOutAdmission o c now latest ready known in
  match (if allowed then ApplyReadyMembershipFacts (maxMembersPerBatch o) ready known changed else Ok ([], changed)) with
  | Fail code => (c, Fail code)
  | Ok (joining, changed) =>
    if (changed =? 0)%nat then (c, Ok None)
    else (c, Ok (Some (MkTopology (clusterHasInit latest) (next_version latest) (ms ++ joining) (activeBatch latest),
                       negb (bool_decide (admittedLeaving = [])), negb (bool_decide (joining = [])))))
  end.

(** What [CommitMembershipFacts] does to the collect windows once the commit has succeeded. *)
Definition after_facts_commit (o : options) (c : controller) (now : Z) (latest : TopologyState) (leaving joining : bool) : controller :=
  let c := if leaving && (0 <? scaleInCollectWindow o) && bool_decide (scaleInCollect_ c = None)
           then with_scale_in (Some (MkCollect (now + scaleInCollectWindow o) false false)) c else c in
  let c := if clusterHasInit latest && joining && (0 <? scaleOutCollectWindow o) && bool_decide (scaleOutCollect_ c = None)
           then with_scale_out (Some (MkCollect (now + scaleOutCollectWindow o) false false)) c else c in
  if joining then with_scale_out ((λ s, MkCollect (deadline s) (started s) false) <$> scaleOutCollect_ c) c else c.

(** ** Shutdown, failures and absent newcomers *)
Context `{PlanningOps} (tokens_per_member : Z).

Definition CommitClusterShutdown (latest : TopologyState) : res TopologyState :=
  BuildClusterShutdownFinal (MkTopology (clusterHasInit latest) (version latest) (with_state PRE_LEAVING <$> members latest) None).

(** The loop that adds the newly confirmed failures to those that are retained. *)
Fixpoint confirm_loop (max : nat) (confirmed : list MemberIdentity) (addresses : gset string) (fresh : list MemberIdentity)
    : list MemberIdentity :=
  match fresh with
  | [] => confirmed
  | i :: rest =>
    if (max <=? List.length confirmed)%nat then confirmed
    else if bool_decide (address i ∈ addresses) then confirm_loop max confirmed addresses rest
    else confirm_loop max (confirmed ++ [i]) ({[address i]} ∪ addresses) rest
  end.

Definition CommitConfirmedFailures (o : options) (latest : TopologyState) (classification : FailureClassification)
    : res (option TopologyState) :=
  let retained := MembersInState latest FAILED in
  let confirmed := confirm_loop (maxMembersPerBatch o) retained (addresses_of retained) (confirmedFailure classification) in
  if (List.length confirmed =? List.length retained)%nat then Ok None
  else
    let! plan := BuildFailureStartOrReplan latest confirmed in
    Ok (Some (EraseMembers (EraseMembers (next plan) (removeInitial classification)) (removeJoining classification))).

Definition CommitUncommittedCleanup (latest : TopologyState) (classification : FailureClassification) : res (option TopologyState) :=
  let initials :=
    match removeInitial classification with
    | [] => Ok None
    | l => Ok (Some (EraseMembers (MkTopology (clusterHasInit latest) (next_version latest) (members latest) (activeBatch latest)) l))
    end in
  match removeJoining classification, activeBatch latest with
  | (_ :: _) as joining, Some b =>
    match btype b with
    | SCALE_OUT => let! plan := BuildScaleOutReplan tokens_per_member latest joining in
                   Ok (Some (EraseMembers (next plan) (removeInitial classification)))
    | FAILURE => let! plan := BuildFailureStartOrReplan latest (MembersInState latest FAILED) in
                 Ok (Some (EraseMembers (EraseMembers (next plan) joining) (removeInitial classification)))
    | SCALE_IN => initials
    end
  | _, _ => initials
  end.

(** ** The end of a batch *)
Definition CollectBatchParticipants (latest : TopologyState) (type : TopologyChangeType) : list MemberIdentity :=
  identity <$> filter (λ m, participant type m = true) (members latest).

Definition ready_record (memberships : list MembershipRecord) (i : MemberIdentity) : option MembershipRecord :=
  head (filter (λ r, mr_address r = address i ∧ mr_state r = READY) memberships).

Definition RememberQuarantinedReadyMembers (c : controller) (participants : list MemberIdentity) (memberships : list MembershipRecord)
    : controller :=
  with_quarantine
    (foldl (λ q i, match ready_record memberships i with
                   | Some r => match BuildMemberId r with
                               | Ok memberId => if bool_decide (memberId = id i) then <[mr_address r := mr_timestamp r]> q else q
                               | Fail _ => q
                               end
                   | None => q
                   end) (quarantinedReadyTimestampByAddress_ c) participants) c.

Definition CommitBatchFinal (latest : TopologyState) : res TopologyState :=
  match activeBatch latest with
  | Some b => match btype b with
              | SCALE_OUT => BuildScaleOutFinal latest
              | SCALE_IN => BuildScaleInFinal latest
              | FAILURE => BuildFailureFinal latest
              end
  | None => Fail K_INVALID
  end.

(** What [CommitBatchFinal] does once the commit has succeeded. *)
Definition after_final_commit (c : controller) (latest : TopologyState) (memberships : list MembershipRecord) : controller :=
  match activeBatch latest with
  | Some b => match btype b with
              | FAILURE => RememberQuarantinedReadyMembers c (CollectBatchParticipants latest FAILURE) memberships
              | _ => c
              end
  | None => c
  end.

Definition CommitScaleOutExhaustion (c : controller) (latest : TopologyState) (failedJoining : list MemberIdentity)
    (memberships : list MembershipRecord) : controller * res TopologyState :=
  match failedJoining with
  | [] => (c, Fail K_INVALID)
  | _ => (RememberQuarantinedReadyMembers c failedJoining memberships,
          let! plan := BuildScaleOutReplan tokens_per_member latest failedJoining in Ok (next plan))
  end.

(** The joining members with a migration that has not finished; a migration is its task's id and target. *)
Definition CollectFailedJoining (latest : TopologyState) (migrations : list (string * string)) (finishedTaskIds : gset string)
    : list MemberIdentity :=
  let incomplete : gset string := list_to_set (filter (λ t, t.1 ∉ finishedTaskIds) migrations).*2 in
  identity <$> filter (λ m, state m = JOINING ∧ addr m ∈ incomplete) (members latest).

Definition CommitExpiredBatch (c : controller) (latest : TopologyState) (failedJoining : list MemberIdentity)
    (memberships : list MembershipRecord) : controller * res (option TopologyState) :=
  match activeBatch latest with
  | Some b =>
    match btype b with
    | SCALE_OUT => let '(c, r) := CommitScaleOutExhaustion c latest failedJoining memberships in (c, let! st := r in Ok (Some st))
    | SCALE_IN => (c, Ok None)
    | FAILURE => (c, let! st := CommitBatchFinal latest in Ok (Some st))
    end
  | None => (c, Fail K_INVALID)
  end.

(** ** The start of a batch *)
Definition CommitBatchStart (latest : TopologyState) (participants : list MemberIdentity) (type : TopologyChangeType) (bootstrap : bool)
    : res TopologyState :=
  if bootstrap then BuildBootstrap tokens_per_member latest participants
  else match type with
       | SCALE_OUT => let! plan := BuildScaleOutStart tokens_per_member latest participants in Ok (next plan)
       | SCALE_IN => let! plan := BuildScaleInStart latest participants in Ok (next plan)
       | FAILURE => Fail K_INVALID
       end.

Definition TryStartBatchAfterCollection (o : options) (c : controller) (now : Z) (latest : TopologyState)
    (participants : list MemberIdentity) (type : TopologyChangeType) (bootstrap : bool) : controller * res (option TopologyState) :=
  let start := let! st := CommitBatchStart latest participants type bootstrap in Ok (Some st) in
  let run (collect : option BatchCollectState) (window : Z) (put : option BatchCollectState → controller) :=
    if window =? 0 then (c, start)
    else
      let s := default (MkCollect (now + window) false false) collect in
      if now <? deadline s then (put (Some (MkCollect (deadline s) true (awaitingAdmission s))), Ok None)
      else (put None, start) in
  match type, bootstrap with
  | SCALE_OUT, _ => run (scaleOutCollect_ c) (scaleOutCollectWindow o) (λ s, with_scale_out s c)
  | SCALE_IN, false => run (scaleInCollect_ c) (scaleInCollectWindow o) (λ s, with_scale_in s c)
  | _, _ => (c, Fail K_INVALID)
  end.

Definition TryStartNextBatch (o : options) (c : controller) (now : Z) (latest : TopologyState) (memberships : list MembershipRecord)
    : controller * res (option TopologyState) :=
  match activeBatch latest with
  | Some _ => (ClearBatchCollectState c SCALE_IN, Ok None)
  | None =>
    let '(leaving, joining) := CollectNextBatchCandidates o latest memberships in
    match joining, leaving with
    | _ :: _, _ => TryStartBatchAfterCollection o (ClearBatchCollectState c SCALE_IN) now latest joining SCALE_OUT
                     (negb (existsb is_committed (members latest)))
    | [], _ :: _ => TryStartBatchAfterCollection o (ClearBatchCollectState c SCALE_OUT) now latest leaving SCALE_IN false
    | [], [] => (ClearBatchCollectState (ClearBatchCollectState c SCALE_IN) SCALE_OUT, Ok None)
    end
  end.

(** ** Collective absence

    When no committed member has a membership any more, some of them are probed, and if all of those are unreachable the topology is
    replaced by a first one of the members that are ready. *)
Definition COLLECTIVE_PROBE_SAMPLE_COUNT : nat := 5.
Definition COORDINATOR_COLLECTIVE_PROBE_OWNER : string := "coordinator".

Record collective := MkCollective {
  collectiveProbeTopologyVersion_ : option Z; collectiveProbeOwner_ : option string; collectiveProbeControlEpoch_ : option Z;
  collectiveUnreachableSamples_ : gset string }.
Definition ResetCollectiveProbeProgress : collective := MkCollective None None None ∅.

(** [external]: [eventSourceMode] is [EXTERNAL]. *)
Definition SummarizeCollectiveReadyMemberships (external : bool) (c : controller) (memberships : list MembershipRecord) : nat * option string :=
  let counted r := bool_decide (mr_state r = READY)
                   && match quarantinedReadyTimestampByAddress_ c !! mr_address r with Some t => t <? mr_timestamp r | None => true end in
  let '(readyCount, owner) :=
    foldl (λ '(n, owner) r, if counted r
                            then (S n, match owner with
                                       | Some a => if String.ltb (mr_address r) a then Some (mr_address r) else Some a
                                       | None => Some (mr_address r)
                                       end)
                            else (n, owner)) (0%nat, None) memberships in
  (readyCount, if (0 <? readyCount)%nat && external then Some COORDINATOR_COLLECTIVE_PROBE_OWNER else owner).

Definition SelectCollectiveProbeSamples (latest : TopologySnapshot) : list MemberIdentity :=
  let committed := committedMembers_ latest in
  let size := List.length committed in
  if (size <=? COLLECTIVE_PROBE_SAMPLE_COUNT)%nat then identity <$> committed
  else omap (λ index, identity <$> committed !! (index * (size - 1) / (COLLECTIVE_PROBE_SAMPLE_COUNT - 1))%nat) (seq 0 COLLECTIVE_PROBE_SAMPLE_COUNT).

Inductive ControlBackendProbeOutcome := PROBE_RESPONSE | PROBE_ERROR | PROBE_UNAVAILABLE | PROBE_DEADLINE_EXCEEDED | PROBE_CANCELLED.

(** [probe]: what [memberLivenessProbe] returns for a target, or that it throws. *)
Definition ProbeCollectiveSample (probe : MemberIdentity → option (list (MemberIdentity * ControlBackendProbeOutcome))) (k : classifier) (col : collective)
    (samples : list MemberIdentity) : classifier * collective * res unit :=
  match filter (λ i, address i ∉ collectiveUnreachableSamples_ col) samples with
  | [] => (k, col, Ok tt)
  | target :: _ =>
    match probe target with
    | None => (k, col, Fail K_RUNTIME_ERROR)
    | Some [(i, outcome)] =>
      if bool_decide (i = target) then
        match outcome with
        | PROBE_RESPONSE | PROBE_ERROR => (ResetMissing k (address target), ResetCollectiveProbeProgress, Ok tt)
        | PROBE_UNAVAILABLE | PROBE_DEADLINE_EXCEEDED =>
          (k, MkCollective (collectiveProbeTopologyVersion_ col) (collectiveProbeOwner_ col) (collectiveProbeControlEpoch_ col)
                ({[address target]} ∪ collectiveUnreachableSamples_ col), Ok tt)
        | PROBE_CANCELLED => (k, col, Ok tt)
        end
      else (k, col, Ok tt)
    | Some _ => (k, col, Ok tt)
    end
  end.

Definition is_old_member (latest : TopologySnapshot) (r : MembershipRecord) : bool :=
  match FindMemberByAddress latest (mr_address r) with
  | Ok m => match state m with ACTIVE | PRE_LEAVING | LEAVING => true | _ => false end
  | Fail _ => false
  end.

(** [reread] is the second, exact read of the memberships; [fenced] that a replacement fence is configured. *)
Definition BootstrapCollectiveReplacement (o : options) (external fenced : bool) (c : controller) (k : classifier) (col : collective) (now : Z)
    (latest : TopologySnapshot) (reread : res (list MembershipRecord)) : controller * classifier * collective * res (option TopologyState) :=
  match reread with
  | Fail code => (c, Pause k now, col, Fail code)
  | Ok exactMemberships =>
    let '(exactReadyCount, exactOwner) := SummarizeCollectiveReadyMemberships external c exactMemberships in
    let returned := filter (λ r, is_old_member latest r = true) exactMemberships in
    let k := foldl (λ k r, ResetMissing k (mr_address r)) k returned in
    if negb (bool_decide (returned = [])) || (exactReadyCount =? 0)%nat || negb (bool_decide (exactOwner = collectiveProbeOwner_ col))
    then (c, k, ResetCollectiveProbeProgress, Ok None)
    else
      let '(c, _, ready) := CollectMembershipFacts c exactMemberships in
      (c, k, col,
       let! (ms, _) := ApplyReadyMembershipFacts (maxMembersPerBatch o) ready ∅ 0 in
       let! nxt := BuildBootstrap tokens_per_member (MkTopology (clusterHasInit (state_ latest)) (version (state_ latest)) ms None) (identity <$> ms) in
       if fenced && bool_decide (collectiveProbeControlEpoch_ col = None) then Fail K_NOT_READY else Ok (Some nxt))
  end.

(** What [BootstrapCollectiveReplacement] does to the progress once its commit has returned. *)
Definition after_replacement (rc : res unit) (col : collective) : collective :=
  match rc with Ok _ | Fail K_TRY_AGAIN => ResetCollectiveProbeProgress | Fail _ => col end.

(** [controlEpoch]: no callback; one that throws; what it returns. *)
Definition PrepareCollectiveProbeContext (external : bool) (controlEpoch : option (option (option Z))) (c : controller) (col : collective)
    (latest : TopologySnapshot) (memberships : list MembershipRecord) : collective * res (nat * option string * bool) :=
  let '(readyCount, owner) := SummarizeCollectiveReadyMemberships external c memberships in
  match controlEpoch with
  | Some None => (ResetCollectiveProbeProgress, Fail K_RUNTIME_ERROR)
  | Some (Some None) => (ResetCollectiveProbeProgress, Ok (readyCount, owner, false))
  | _ =>
    let epoch := match controlEpoch with Some (Some e) => e | _ => None end in
    let topologyChanged := negb (bool_decide (collectiveProbeTopologyVersion_ col = Some (version (state_ latest)))) in
    let ownerChanged := negb (bool_decide (collectiveProbeOwner_ col = owner)) in
    let epochChanged := bool_decide (is_Some controlEpoch) && negb (bool_decide (collectiveProbeControlEpoch_ col = epoch)) in
    (if topologyChanged || ownerChanged || epochChanged then MkCollective (Some (version (state_ latest))) owner epoch ∅ else col,
     Ok (readyCount, owner, true))
  end.

(** [probe]: [memberLivenessProbe], if there is one. *)
Definition HandleCollectiveMembershipAbsence (o : options) (external fenced : bool) (localAddress : string)
    (probe : option (MemberIdentity → option (list (MemberIdentity * ControlBackendProbeOutcome)))) (controlEpoch : option (option (option Z)))
    (c : controller) (k : classifier) (col : collective) (now : Z) (latest : TopologySnapshot) (memberships : list MembershipRecord)
    (samples : list MemberIdentity) (confirmedMissing : list MemberAbsenceObservation) (reread : res (list MembershipRecord))
    : controller * classifier * collective * res (option TopologyState) :=
  match PrepareCollectiveProbeContext external controlEpoch c col latest memberships with
  | (col, Fail code) => (c, k, col, Fail code)
  | (col, Ok (readyCount, owner, hasControlAuthority)) =>
    let allTimedOut := forallb (λ i, existsb (λ a, bool_decide (address (ab_identity a) = address i)) confirmedMissing) samples in
    let ownsProbe := external || bool_decide (owner = Some localAddress) in
    if negb hasControlAuthority || (readyCount =? 0)%nat || negb allTimedOut || negb ownsProbe then (c, k, col, Ok None)
    else
      match probe with
      | None => (c, k, col, Ok None)
      | Some probe =>
        match ProbeCollectiveSample probe k col samples with
        | (k, col, Fail code) => (c, k, col, Fail code)
        | (k, col, Ok _) =>
          if (size (collectiveUnreachableSamples_ col) =? List.length samples)%nat
          then BootstrapCollectiveReplacement o external fenced c k col now latest reread
          else (c, k, col, Ok None)
        end
      end
  end.

(** ** Failures that a direct probe has confirmed

    The end of the collection of failures in [TryConfirmFailures]: what the probes confirm is added to the classification, by the state of the
    member with that address. *)
Definition append_confirmed (latest : TopologySnapshot) (cl : FailureClassification) (i : MemberIdentity) : FailureClassification :=
  match FindMemberByAddress latest (address i) with
  | Ok m =>
    match state m with
    | JOINING => MkClassification (removeInitial cl) (removeJoining cl ++ [i]) (confirmedFailure cl) (newlyMissing cl) (restored cl) (confirmedMissing cl)
    | ACTIVE => MkClassification (removeInitial cl) (removeJoining cl) (confirmedFailure cl ++ [i]) (newlyMissing cl) (restored cl) (confirmedMissing cl)
    | _ => cl
    end
  | Fail _ => cl
  end.
Definition append_probe_confirmed (latest : TopologySnapshot) (probeConfirmed : list MemberIdentity) (cl : FailureClassification) : FailureClassification :=
  foldl (append_confirmed latest) cl probeConfirmed.

(** [EnsureTopologyAuthority]: the topology committed when there is none. *)
Definition initial_topology : TopologyState := MkTopology false 1 [] None.
End Controller.

(** ** What a controller may ask to commit *)
Section Commits.
Context (HashSHA256 : NetUtil.chars → res NetUtil.chars) (UUID_SIZE : nat) `{PlanningLaws} (tokens_per_member : Z) (o : options).

(** The failures of a classification come from an observation of this topology, of which the gates may have removed some, and from the
    direct probes, which may have confirmed any identities. *)
Definition observed_failures (latest : TopologyState) (cl : FailureClassification) : Prop :=
  ∃ k st rev dig topo records now out gated probeConfirmed,
    Create st rev dig = Ok topo ∧ state_ topo = latest ∧ (Observe k topo records now).2 = Ok out
    ∧ (∀ i, i ∈ confirmedFailure gated → i ∈ confirmedFailure out) ∧ cl = append_probe_confirmed topo probeConfirmed gated.

(** [desired] is a topology that some controller, in any state and at any time, computes from [latest]. *)
Inductive commits (latest : TopologyState) : TopologyState → Prop :=
| commits_facts c now memberships c' d l j :
    CommitMembershipFacts HashSHA256 UUID_SIZE o c now latest memberships = (c', Ok (Some (d, l, j))) → commits latest d
| commits_shutdown d : CommitClusterShutdown latest = Ok d → commits latest d
| commits_failures cl d : observed_failures latest cl → CommitConfirmedFailures o latest cl = Ok (Some d) → commits latest d
| commits_cleanup cl d : CommitUncommittedCleanup tokens_per_member latest cl = Ok (Some d) → commits latest d
| commits_final d : CommitBatchFinal latest = Ok d → commits latest d
| commits_expired c failedJoining memberships c' d :
    CommitExpiredBatch HashSHA256 UUID_SIZE tokens_per_member c latest failedJoining memberships = (c', Ok (Some d)) → commits latest d
| commits_start c now memberships c' d :
    TryStartNextBatch tokens_per_member o c now latest memberships = (c', Ok (Some d)) → commits latest d
| commits_replacement external fenced localAddress probe controlEpoch c k col now topo memberships samples confirmedMissing reread r d :
    state_ topo = latest →
    HandleCollectiveMembershipAbsence HashSHA256 UUID_SIZE tokens_per_member o external fenced localAddress probe controlEpoch c k col now topo memberships samples
      confirmedMissing reread = (r, Ok (Some d)) → commits latest d.

(** What a collective replacement commits. *)
Lemma replacement_built external fenced localAddress probe controlEpoch c k col now topo memberships samples confirmedMissing reread r d :
  HandleCollectiveMembershipAbsence HashSHA256 UUID_SIZE tokens_per_member o external fenced localAddress probe controlEpoch c k col now topo memberships samples
    confirmedMissing reread = (r, Ok (Some d)) →
  ∃ ms, BuildBootstrap tokens_per_member (MkTopology (clusterHasInit (state_ topo)) (version (state_ topo)) ms None) (identity <$> ms) = Ok d.
Proof.
  unfold HandleCollectiveMembershipAbsence. destruct (PrepareCollectiveProbeContext _ _ _ _ _ _) as [col1 [[[n owner] auth]|code]]; [|done].
  destruct (_ || _); [done|]. destruct probe as [probe|]; [|done]. destruct (ProbeCollectiveSample _ _ _ _) as [[k1 col2] [[]|code]]; [|done].
  destruct (_ =? _)%nat; [|done]. unfold BootstrapCollectiveReplacement. destruct reread as [ex|code]; [|done].
  destruct (SummarizeCollectiveReadyMemberships _ _ _) as [rc ow]. destruct (_ || _); [done|]. destruct (CollectMembershipFacts _ _) as [[c1 ?] ready].
  intros [= _ Hd]. apply res_bind_Ok in Hd as ([ms n'] & _ & Hd). apply res_bind_Ok in Hd as (nxt & Hn & Hd). exists ms. destruct (_ && _); [done|]. by injection Hd as ->.
Qed.

(** A member as an edit of the members of [ms] may leave it. *)
Definition edit_of (ms : list Member) (m' : Member) : Prop :=
  (state m' = INITIAL ∧ tokens m' = [])
  ∨ ∃ m, m ∈ ms ∧ identity m' = identity m ∧ tokens m' ≡ₚ tokens m ∧ (state m' = state m ∨ state m ≠ INITIAL ∧ state m' = PRE_LEAVING).

(** Validation and edits of this kind preserve the invariant. *)
Lemma edited_inv st st' :
  plan_inv st → topo_valid st' → (∀ m', m' ∈ members st' → edit_of (members st) m') → plan_inv st'.
Proof.
  intros Hi [Hv Hb Hm Ha Hid Ht _] He.
  assert (∀ s, s = JOINING ∨ s = LEAVING → has_state s (members st') → has_state s (members st)) as Hs.
  { intros s Hjl (m' & Hm' & E). destruct (He m' Hm') as [[E' _]|(m & Hin & _ & _ & [E'|[_ E']])]; [by destruct Hjl; congruence| |by destruct Hjl; congruence].
    exists m. split; [done|]. congruence. }
  split; try done.
  - split; try done. apply Forall_forall. intros t (m' & Hm' & Hin)%elem_of_tokens. pose proof (pi_ring _ Hi) as [_ _ _ Hr].
    rewrite Forall_forall in Hr. destruct (He m' Hm') as [[_ E]|(m & Hmm & _ & E & _)]; rewrite E in Hin; [by apply elem_of_nil in Hin|].
    apply Hr, elem_of_tokens. eauto.
  - intros m' Hm' Hne. destruct (He m' Hm') as [[E _]|(m & Hmm & _ & Ht' & Hst)]; [done|]. intros E. rewrite E in Ht'.
    apply Permutation_nil_l in Ht'. apply (pi_tokens _ Hi m Hmm); [|done]. destruct Hst as [?|[? _]]; congruence.
  - intros [H1 H2]. apply (pi_mix _ Hi). split; apply Hs; auto.
Qed.

Lemma keeps_edit ms m : m ∈ ms → edit_of ms m.
Proof. intros Hm. right. exists m. auto. Qed.

Lemma erased_edit st l m : m ∈ members (EraseMembers st l) → m ∈ members st.
Proof. unfold EraseMembers. by intros [? _]%removed_elem. Qed.

Lemma exiting_edit max exiting ms : ∀ changed, Forall (edit_of ms) (ApplyExitingMembershipFacts max exiting ms changed).1.1.
Proof.
  assert (∀ all l, (∀ m, m ∈ l → m ∈ all) → ∀ changed, Forall (edit_of all) (ApplyExitingMembershipFacts max exiting l changed).1.1) as Hall;
    [|by apply Hall].
  intros all l. induction l as [|m l IH]; intros Hsub changed; simpl; [constructor|].
  assert (∀ m, m ∈ l → m ∈ all) as Hsub' by (intros x Hx; apply Hsub; by right).
  destruct (bool_decide (state m = ACTIVE) && _ && _) eqn:E.
  - specialize (IH Hsub' (S changed)). destruct (ApplyExitingMembershipFacts _ _ _ _) as [[ms' ad] n]. constructor; [|done].
    apply andb_true_iff in E as [[E%bool_decide_eq_true _]%andb_true_iff _]. right. exists m. split; [apply Hsub; by left|].
    split; [done|]. split; [done|]. right. split; [congruence|done].
  - specialize (IH Hsub' changed). destruct (ApplyExitingMembershipFacts _ _ _ _) as [[ms' ad] n]. constructor; [|done].
    apply keeps_edit, Hsub. by left.
Qed.

Lemma ready_edit max ready ms : ∀ known changed l n,
  ApplyReadyMembershipFacts HashSHA256 UUID_SIZE max ready known changed = Ok (l, n) → Forall (edit_of ms) l.
Proof.
  induction ready as [|r ready IH]; intros known changed l n; simpl; [by intros [= <- _]|].
  destruct (_ || _); [apply IH|]. intros (k & _ & Hr)%res_bind_Ok. apply res_bind_Ok in Hr as (i & _ & Hr).
  apply res_bind_Ok in Hr as ([l' n'] & Hl & [= <- _]). constructor; [|by eapply IH]. by left.
Qed.

Lemma facts_edit latest c now memberships c' d l j :
  CommitMembershipFacts HashSHA256 UUID_SIZE o c now latest memberships = (c', Ok (Some (d, l, j))) →
  (version d = next_version latest ∧ activeBatch d = activeBatch latest) ∧ ∀ m', m' ∈ members d → edit_of (members latest) m'.
Proof.
  unfold CommitMembershipFacts. destruct (CollectMembershipFacts c memberships) as [[c1 exiting] ready].
  pose proof (exiting_edit (maxMembersPerBatch o) exiting (members latest) 0) as He.
  destruct (ApplyExitingMembershipFacts _ _ _ _) as [[ms ad] changed]. cbn [fst] in He.
  destruct (ShouldApplyReadyScaleOutAdmission _ _ _ _ _ _) as [c2 allowed].
  assert (∀ joining n, (if allowed then ApplyReadyMembershipFacts HashSHA256 UUID_SIZE (maxMembersPerBatch o) ready (list_to_set (addr <$> members latest)) changed
    else Ok ([], changed)) = Ok (joining, n) → Forall (edit_of (members latest)) joining) as Hj.
  { intros joining n. destruct allowed; [apply ready_edit|intros [= <- _]; constructor]. }
  destruct (if allowed then _ else _) as [[joining n]|code]; [|done]. specialize (Hj joining n eq_refl).
  destruct (n =? 0)%nat; [done|]. intros [= _ <- _ _]. split; [done|]. cbn [members]. intros m' [Hm|Hm]%elem_of_app.
  - rewrite Forall_forall in He. by apply He.
  - rewrite Forall_forall in Hj. by apply Hj.
Qed.

(** A member a failure names: by its identity, or by the address of an ACTIVE one. *)
Definition named_by_address (latest : TopologyState) (i : MemberIdentity) : Prop :=
  ∃ m, m ∈ members latest ∧ addr m = address i ∧ (is_committed m = true ∨ state m = FAILED).

Lemma FindMemberByAddress_ok topo st rev dig a m :
  Create st rev dig = Ok topo → FindMemberByAddress topo a = Ok m → m ∈ members (state_ topo) ∧ addr m = a.
Proof.
  intros (Hv & -> & _)%Create_ok Hf. by apply find_by_index in Hf; [|cbn [state_ BuildIndexes]; apply (canon_valid st Hv)].
Qed.

Lemma appended_failure topo st rev dig probeConfirmed i : Create st rev dig = Ok topo → ∀ cl,
  i ∈ confirmedFailure (append_probe_confirmed topo probeConfirmed cl) → i ∈ confirmedFailure cl ∨ named_by_address (state_ topo) i.
Proof.
  intros Hc. induction probeConfirmed as [|j l IH]; intros cl; cbn [append_probe_confirmed foldl]; [by left|].
  intros [Hi|?]%IH; [|by right]. revert Hi. unfold append_confirmed. destruct (FindMemberByAddress topo (address j)) as [m|] eqn:Ef; [|by left].
  destruct (state m) eqn:Es; cbn [confirmedFailure]; try (by left). intros [?|Hj%list_elem_of_singleton]%elem_of_app; [by left|]. subst j. right.
  apply (FindMemberByAddress_ok topo st rev dig _ _ Hc) in Ef as [Hm Ha]. exists m. unfold is_committed. rewrite Es. auto.
Qed.

(** An observation that succeeds names committed and failed members of its topology, and so do the probes. *)
Lemma observed_candidates latest cl i : observed_failures latest cl → i ∈ confirmedFailure cl → named_by_address latest i.
Proof.
  intros (k & st & rev & dig & topo & records & now & out & gated & probed & Hc & <- & Ho & Hsub & ->) [Hi%Hsub|?]%(appended_failure topo st rev dig probed i Hc); [|done].
  assert (0 ≤ nodeDeadTimeout_ k ∧ is_ok (present_loop ∅ records) = true) as [Hto Hp].
  { unfold Observe in Ho. destruct (Z.ltb_spec (nodeDeadTimeout_ k) 0); [done|]. split; [lia|]. by destruct (present_loop ∅ records). }
  destruct (Observe_spec k 0 st rev dig topo records now Hc Hto Hp) as (out' & Ho' & _ & _ & _ & _ & _ & Hconf).
  rewrite Ho in Ho'. injection Ho' as <-. apply Hconf in Hi as [_ (m & Hm & <- & Hs)]. exists m. split_and!; [done|done|].
  destruct Hs as [(_ & ? & _)|?]; auto.
Qed.

Lemma confirm_loop_elem max fresh : ∀ confirmed addresses i,
  i ∈ confirm_loop max confirmed addresses fresh → i ∈ confirmed ∨ i ∈ fresh.
Proof.
  induction fresh as [|j fresh IH]; intros confirmed addresses i; simpl; [by left|].
  destruct (_ <=? _)%nat; [by left|]. case_bool_decide.
  - intros [?|?]%IH; [by left|right; by right].
  - intros [[?|?%list_elem_of_singleton]%elem_of_app|?]%IH; [by left|right; subst; by left|right; by right].
Qed.

Lemma retained_candidate latest i :
  i ∈ MembersInState latest FAILED → ∃ m, m ∈ members latest ∧ identity m = i ∧ (is_committed m = true ∨ state m = FAILED).
Proof. intros (m & ? & ? & ?)%elem_of_in_state. exists m. auto. Qed.

Lemma retained_named latest i : i ∈ MembersInState latest FAILED → named_by_address latest i.
Proof. intros (m & ? & <- & ?)%retained_candidate. by exists m. Qed.

Context (latest : TopologyState) (Hinv : plan_inv latest) (Hver : version latest < INT64_MAX).

(** A failure that names members by their addresses: where the algorithm plans it, it has checked the identities; where no owner is left,
    the members are failed by their addresses. *)
Lemma FailureStart_named confirmed plan :
  confirmed ≠ [] → (∀ i, i ∈ confirmed → named_by_address latest i) → BuildFailureStartOrReplan latest confirmed = Ok plan → advanced latest (next plan).
Proof.
  intros Hne Hnamed Hp. pose proof Hp as Hplan. unfold BuildFailureStartOrReplan in Hp. destruct (clusterHasInit latest) eqn:Ei; [|done]. destruct (forallb _ (members latest)) eqn:Ef; [|done].
  destruct (negb (existsb _ _)) eqn:Eh.
  - injection Hp as <-. set (confirmed' := identity <$> filter (λ m, addr m ∈ addresses_of confirmed) (members latest)).
    assert (addresses_of confirmed' = addresses_of confirmed) as Ea.
    { apply leibniz_equiv, set_equiv. intros a. unfold addresses_of. rewrite !elem_of_list_to_set. split.
      - intros (i & -> & (m & -> & [Hm _]%list_elem_of_filter)%list_elem_of_fmap)%list_elem_of_fmap. unfold addresses_of in Hm. by rewrite elem_of_list_to_set in Hm.
      - intros (i & -> & Hi)%list_elem_of_fmap. destruct (Hnamed i Hi) as (m & Hm & Hma & _). rewrite -Hma.
        apply (list_elem_of_fmap_2 address confirmed' (identity m)), list_elem_of_fmap_2, list_elem_of_filter. split; [|done].
        unfold addresses_of. rewrite elem_of_list_to_set Hma. by apply list_elem_of_fmap_2. }
    apply (FailureStart_inv latest Hinv Hver confirmed').
    + split.
      * destruct confirmed as [|i l]; [done|]. destruct (Hnamed i) as (m & Hm & Hma & _); [by left|]. intros E.
        assert (identity m ∈ confirmed') as Hin; [|rewrite E in Hin; by apply elem_of_nil in Hin]. apply list_elem_of_fmap_2, list_elem_of_filter. split; [|done].
        unfold addresses_of. rewrite elem_of_list_to_set Hma. by left.
      * intros i (m & -> & [Hm Hin]%list_elem_of_filter)%list_elem_of_fmap. exists m. split_and!; [done|done|].
        unfold addresses_of in Hm. apply elem_of_list_to_set in Hm. apply list_elem_of_fmap in Hm as (j & Ej & Hj). destruct (Hnamed j Hj) as (m' & Hm' & Hma & Hs).
        by rewrite (NoDup_fmap_elem addr (members latest) m m' (rv_addrs _ (pi_ring _ Hinv)) Hin Hm' ltac:(congruence)).
    + unfold BuildFailureStartOrReplan. rewrite Ei Ea Eh.
      assert (forallb (λ m, negb (bool_decide (state m = FAILED)) || bool_decide (identity m ∈ confirmed')) (members latest) = true) as ->; [|done].
      apply forallb_forall. intros m Hm%list_elem_of_In. rewrite forallb_forall in Ef. specialize (Ef m ltac:(by apply list_elem_of_In)).
      apply orb_true_iff in Ef as [Ef|Ef%bool_decide_eq_true]; apply orb_true_iff; [by left|right]. apply bool_decide_eq_true, list_elem_of_fmap_2, list_elem_of_filter.
      split; [|done]. unfold addresses_of. rewrite elem_of_list_to_set. by apply (list_elem_of_fmap_2 address confirmed (identity m)).
  - apply (FailureStart_inv latest Hinv Hver confirmed plan); [|done]. split; [done|]. intros i Hi.
    apply res_bind_Ok in Hp as (built & (_ & _ & Hk & _)%law_failure & _).
    2:{ cbn [members with_members]. rewrite keeps_place_tokens; [apply revive_place|]. apply (rv_range _ (pi_ring _ Hinv)). }
    destruct (Hk i Hi) as (m' & Hm' & E & Hcm). cbn [members with_members] in Hm'. apply list_elem_of_fmap in Hm' as (m & -> & Hm). exists m. split_and!; [done| |].
    + by rewrite (proj1 (revive_place m)) in E.
    + unfold revive in Hcm. case_bool_decide; auto.
Qed.

Lemma failures_inv cl d :
  observed_failures latest cl → CommitConfirmedFailures o latest cl = Ok (Some d) → topo_valid d → advanced latest d.
Proof.
  intros Hobs. unfold CommitConfirmedFailures. set (retained := MembersInState latest FAILED).
  set (confirmed := confirm_loop _ retained _ _). destruct (Nat.eqb_spec (List.length confirmed) (List.length retained)) as [|Hne]; [done|].
  intros (plan & Hp & [= <-])%res_bind_Ok Hv.
  assert (confirmed ≠ [] ∧ ∀ i, i ∈ confirmed → named_by_address latest i) as [Hc1 Hc2].
  { split.
    - intros E. assert (∀ max fresh conf addrs, (List.length conf ≤ List.length (confirm_loop max conf addrs fresh))%nat) as Hlen.
      { intros max fresh. induction fresh as [|j fresh IH]; intros conf addrs; simpl; [done|]. destruct (_ <=? _)%nat; [done|]. case_bool_decide; [apply IH|].
        etransitivity; [|apply IH]. rewrite length_app. lia. }
      pose proof (Hlen (maxMembersPerBatch o) (confirmedFailure cl) retained (addresses_of retained)) as Hl. fold confirmed in Hl. rewrite E in Hl Hne.
      simpl in Hl, Hne. lia.
    - intros i [Hi|Hi]%confirm_loop_elem; [by apply retained_named|by eapply observed_candidates]. }
  destruct (FailureStart_named confirmed plan Hc1 Hc2 Hp) as [Hi Hve]. split; [|done].
  apply (edited_inv (next plan)); [done|done|]. intros m' Hm'. by apply keeps_edit; do 2 apply erased_edit in Hm'.
Qed.

Lemma cleanup_inv cl d :
  CommitUncommittedCleanup tokens_per_member latest cl = Ok (Some d) → topo_valid d → advanced latest d.
Proof.
  unfold CommitUncommittedCleanup. intros Hd Hv.
  set (initials := match removeInitial cl with [] => Ok None | _ :: _ => _ end) in Hd.
  assert (initials = Ok (Some d) → advanced latest d) as Hinit.
  { unfold initials. destruct (removeInitial cl) as [|i l]; [done|]. intros [= <-]. split; [|cbn; apply next_version_small; pose proof (pi_version _ Hinv); lia].
    apply (edited_inv latest); [done|done|]. intros m' Hm'. apply keeps_edit. by apply erased_edit in Hm'. }
  destruct (removeJoining cl) as [|j l]; [by apply Hinit|]. destruct (activeBatch latest) as [b|] eqn:Eb; [|by apply Hinit].
  destruct (btype b) eqn:Et; [..|by apply Hinit|].
  - apply res_bind_Ok in Hd as (plan & Hp & [= <-]). destruct (ScaleOutReplan_inv tokens_per_member latest Hinv Hver (j :: l) plan Hp) as [Hi Hve].
    split; [|done]. apply (edited_inv (next plan)); [done|done|]. intros m' Hm'. apply keeps_edit. by apply erased_edit in Hm'.
  - apply res_bind_Ok in Hd as (plan & Hp & [= <-]).
    assert (failure_candidates latest (MembersInState latest FAILED)) as Hc.
    { split; [|intros i; apply retained_candidate]. pose proof (pi_batch _ Hinv) as Hb. unfold batch_ok in Hb. rewrite Eb in Hb.
      destruct Hb as (_ & _ & (m & Hm & Hpart)%Exists_exists). rewrite Et in Hpart. unfold participant in Hpart. intros E.
      assert (identity m ∈ MembersInState latest FAILED) as Hin by (apply elem_of_in_state; exists m; split_and!; [done|done|by destruct (state m)]).
      rewrite E in Hin. by apply elem_of_nil in Hin. }
    destruct (FailureStart_inv latest Hinv Hver _ plan Hc Hp) as [Hi Hve]. split; [|done].
    apply (edited_inv (next plan)); [done|done|]. intros m' Hm'. by apply keeps_edit; do 2 apply erased_edit in Hm'.
Qed.

Lemma final_inv d : CommitBatchFinal latest = Ok d → advanced latest d.
Proof.
  unfold CommitBatchFinal. destruct (activeBatch latest) as [b|]; [|done]. destruct (btype b).
  - by apply ScaleOutFinal_inv.
  - by apply ScaleInFinal_inv.
  - by apply FailureFinal_inv.
Qed.

Lemma start_inv c now memberships c' d :
  TryStartNextBatch tokens_per_member o c now latest memberships = (c', Ok (Some d)) → advanced latest d.
Proof.
  assert (∀ ps ty bs, CommitBatchStart tokens_per_member latest ps ty bs = Ok d → advanced latest d) as Hstart.
  { intros ps ty bs. unfold CommitBatchStart. destruct bs; [by eapply Bootstrap_inv|]. destruct ty; [..|done];
      intros (plan & Hp & [= <-])%res_bind_Ok; [by eapply ScaleOutStart_inv|by eapply ScaleInStart_inv]. }
  assert (∀ c ps ty bs, TryStartBatchAfterCollection tokens_per_member o c now latest ps ty bs = (c', Ok (Some d)) → advanced latest d) as Htry.
  { intros c0 ps ty bs. unfold TryStartBatchAfterCollection.
    destruct (CommitBatchStart tokens_per_member latest ps ty bs) as [st|] eqn:E; cbn [res_bind]; destruct ty, bs; repeat (case_match; try done);
      intros [= _ <-]; by eapply Hstart. }
  unfold TryStartNextBatch. destruct (activeBatch latest); [done|]. destruct (CollectNextBatchCandidates o latest memberships) as [[|] [|]]; try apply Htry. done.
Qed.

(** A replacement: a first placement of members that are all new. *)
Lemma replacement_inv ms d :
  BuildBootstrap tokens_per_member (MkTopology (clusterHasInit latest) (version latest) ms None) (identity <$> ms) = Ok d → topo_valid d → advanced latest d.
Proof.
  unfold BuildBootstrap. destruct (_ && _); [|done]. intros ([] & _ & Hp)%res_bind_Ok Hv.
  apply res_bind_Ok in Hp as (built & (_ & Hrv & _ & Hm & _)%law_initial & Hp). apply res_bind_Ok in Hp as ([] & _ & [= <-]). cbn [members version] in *.
  set (rest := filter _ ms) in *. assert (rest = []) as E.
  { destruct rest as [|m r] eqn:Er; [done|]. assert (m ∈ rest) as Hin by (rewrite Er; by left). apply list_elem_of_filter in Hin as [Hn Hin]. destruct Hn.
    unfold addresses_of. rewrite elem_of_list_to_set -list_fmap_compose. exact (list_elem_of_fmap_2 addr ms m Hin). }
  rewrite E app_nil_r in Hv |- *. split; [|rewrite -(next_version_small latest); [pose proof (pi_version _ Hinv); lia|done]]. destruct Hv as [Hv1 Hb1 Hm1 _ _ _ _]. split; try done.
  - intros m Hin _. by apply Hm.
  - intros [(m & Hin & Es) _]. destruct (Hm m Hin) as [Es' _]. congruence.
Qed.

Lemma commits_inv d : commits latest d → topo_valid d → advanced latest d.
Proof.
  intros Hc Hv. destruct Hc as [c now memberships c' d l j Hd|d Hd|cl d Hobs Hd|cl d Hd|d Hd|c fj memberships c' d Hd|c now memberships c' d Hd
    |external fenced la probe ce c k col now topo memberships samples cm reread r d Et Hd].
  - apply facts_edit in Hd as [[Hve _] He]. split; [by eapply edited_inv|]. rewrite Hve. apply next_version_small. pose proof (pi_version _ Hinv). lia.
  - unfold CommitClusterShutdown, BuildClusterShutdownFinal in Hd. destruct (negb _); [|done]. destruct (forallb _ _); [|done]. injection Hd as <-.
    exact (empty_inv latest Hinv Hver (clusterHasInit latest)).
  - by eapply failures_inv.
  - by eapply cleanup_inv.
  - by apply final_inv.
  - unfold CommitExpiredBatch in Hd. destruct (activeBatch latest) as [b|]; [|done]. destruct (btype b).
    + unfold CommitScaleOutExhaustion in Hd. destruct fj; [done|]. injection Hd as _ Hd. apply res_bind_Ok in Hd as (st & Hst & [= <-]).
      apply res_bind_Ok in Hst as (plan & Hp & [= <-]). by eapply ScaleOutReplan_inv.
    + done.
    + injection Hd as _ Hd. apply res_bind_Ok in Hd as (st & Hst & [= <-]). by apply final_inv.
  - by eapply start_inv.
  - apply replacement_built in Hd as (ms & Hd). rewrite Et in Hd. by eapply replacement_inv.
Qed.

(** *** A batch keeps its members

    The members of [new] that are more than candidates were so in [old] with the same identity. *)
Definition kept (old new : TopologyState) : Prop :=
  ∀ m', m' ∈ members new → state m' ≠ INITIAL → ∃ m, m ∈ members old ∧ identity m = identity m' ∧ state m ≠ INITIAL.

(** A batch of [d] has begun with it, or is that of [latest] and the members are kept. *)
Definition carried (d : TopologyState) : Prop :=
  ∀ b, activeBatch d = Some b → epoch b = next_version latest ∨ activeBatch latest = Some b ∧ kept latest d.

Lemma edit_kept d : (∀ m', m' ∈ members d → edit_of (members latest) m') → kept latest d.
Proof.
  intros He m' Hm' Hs. destruct (He m' Hm') as [[? _]|(m & Hm & Ei & _ & Hst)]; [done|]. exists m. split_and!; [done..|]. destruct Hst as [<-|[? _]]; done.
Qed.

Lemma fresh_batch d t : activeBatch d = Some (MkBatch t (next_version latest)) ∨ activeBatch d = None → carried d.
Proof. intros [E|E] b Hb; rewrite E in Hb; [|done]. injection Hb as <-. by left. Qed.

Lemma erased_batch st l : activeBatch (EraseMembers st l) = activeBatch st.
Proof. done. Qed.

Lemma replan_batch ms plan : BuildScaleOutReplan tokens_per_member latest ms = Ok plan →
  activeBatch (next plan) = Some (MkBatch SCALE_OUT (next_version latest)) ∨ activeBatch (next plan) = None.
Proof.
  unfold BuildScaleOutReplan. intros ([] & _ & Hp)%res_bind_Ok. apply res_bind_Ok in Hp as ([] & _ & Hp).
  destruct (MembersInState _ _); [injection Hp as <-; by right|]. apply res_bind_Ok in Hp as (built & _ & [= <-]). by left.
Qed.

Lemma failure_batch ms plan : BuildFailureStartOrReplan latest ms = Ok plan → activeBatch (next plan) = Some (MkBatch FAILURE (next_version latest)).
Proof.
  unfold BuildFailureStartOrReplan. destruct (clusterHasInit latest); [|done]. destruct (forallb _ _); [|done]. destruct (negb _); [by intros [= <-]|].
  by intros (built & _ & [= <-])%res_bind_Ok.
Qed.

Lemma final_carried d : CommitBatchFinal latest = Ok d → carried d.
Proof.
  unfold CommitBatchFinal. destruct (activeBatch latest) as [b|]; [|done]. destruct (btype b).
  - unfold BuildScaleOutFinal. intros ([] & _ & Hp)%res_bind_Ok. destruct (negb _); [|done]. injection Hp as <-. apply (fresh_batch _ SCALE_OUT). by right.
  - unfold BuildScaleInFinal. intros ([] & _ & Hp)%res_bind_Ok. destruct (negb _); [|done]. injection Hp as <-. apply (fresh_batch _ SCALE_OUT). by right.
  - unfold BuildFailureFinal. intros ([] & _ & Hp)%res_bind_Ok. destruct (negb _); [|done]. destruct (negb _); [injection Hp as <-; apply (fresh_batch _ SCALE_OUT); by right|].
    destruct (negb _); [injection Hp as <-; apply (fresh_batch _ SCALE_OUT); by left|]. destruct (negb _); injection Hp as <-; apply (fresh_batch _ SCALE_IN); [by left|by right].
Qed.

Lemma bootstrap_batch st ps d : BuildBootstrap tokens_per_member st ps = Ok d → activeBatch d = None.
Proof.
  unfold BuildBootstrap. destruct (_ && _); [|done]. intros ([] & _ & Hp)%res_bind_Ok. apply res_bind_Ok in Hp as (built & (En & _)%law_initial & Hp).
  apply res_bind_Ok in Hp as ([] & _ & [= <-]). cbn [activeBatch]. by rewrite En.
Qed.

Lemma start_carried c now memberships c' d : TryStartNextBatch tokens_per_member o c now latest memberships = (c', Ok (Some d)) → carried d.
Proof.
  assert (∀ ps ty bs, CommitBatchStart tokens_per_member latest ps ty bs = Ok d → carried d) as Hstart.
  { intros ps ty bs. unfold CommitBatchStart. destruct bs; [intros E%bootstrap_batch; apply (fresh_batch _ SCALE_OUT); by right|].
    destruct ty; [..|done]; intros (plan & Hp & [= <-])%res_bind_Ok.
    - unfold BuildScaleOutStart in Hp. destruct (_ && _); [|done]. apply res_bind_Ok in Hp as ([] & _ & Hp). apply res_bind_Ok in Hp as (built & _ & Hp).
      apply res_bind_Ok in Hp as ([] & _ & [= <-]). apply (fresh_batch _ SCALE_OUT). by left.
    - unfold BuildScaleInStart in Hp. destruct (_ && _); [|done]. apply res_bind_Ok in Hp as ([] & _ & Hp). apply res_bind_Ok in Hp as (built & _ & [= <-]).
      apply (fresh_batch _ SCALE_IN). by left. }
  assert (∀ c ps ty bs, TryStartBatchAfterCollection tokens_per_member o c now latest ps ty bs = (c', Ok (Some d)) → carried d) as Htry.
  { intros c0 ps ty bs. unfold TryStartBatchAfterCollection.
    destruct (CommitBatchStart tokens_per_member latest ps ty bs) as [st|] eqn:E; cbn [res_bind]; destruct ty, bs; repeat (case_match; try done);
      intros [= _ <-]; by eapply Hstart. }
  unfold TryStartNextBatch. destruct (activeBatch latest); [done|]. destruct (CollectNextBatchCandidates o latest memberships) as [[|] [|]]; try apply Htry. done.
Qed.

Lemma cleanup_carried cl d : CommitUncommittedCleanup tokens_per_member latest cl = Ok (Some d) → carried d.
Proof.
  unfold CommitUncommittedCleanup. intros Hd. set (initials := match removeInitial cl with [] => Ok None | _ :: _ => _ end) in Hd.
  assert (initials = Ok (Some d) → carried d) as Hinit.
  { unfold initials. destruct (removeInitial cl) as [|i l]; [done|]. intros [= <-] b Hb. right. split; [exact Hb|]. apply edit_kept.
    intros m' Hm'. apply keeps_edit. by apply erased_edit in Hm'. }
  destruct (removeJoining cl) as [|j l]; [by apply Hinit|]. destruct (activeBatch latest) as [b|] eqn:Eb; [|by apply Hinit].
  destruct (btype b) eqn:Et; [..|by apply Hinit|]; apply res_bind_Ok in Hd as (plan & Hp & [= <-]).
  - apply (fresh_batch _ SCALE_OUT). by eapply replan_batch.
  - apply (fresh_batch _ FAILURE). left. by eapply failure_batch.
Qed.

Lemma commits_carried d : commits latest d → carried d.
Proof.
  intros Hc. destruct Hc as [c now memberships c' d l j Hd|d Hd|cl d Hobs Hd|cl d Hd|d Hd|c fj memberships c' d Hd|c now memberships c' d Hd
    |external fenced la probe ce c k col now topo memberships samples cm reread r d Et Hd].
  - apply facts_edit in Hd as [[_ Eb] He]. intros b Hb. right. split; [congruence|by apply edit_kept].
  - unfold CommitClusterShutdown, BuildClusterShutdownFinal in Hd. destruct (negb _); [|done]. destruct (forallb _ _); [|done]. injection Hd as <-.
    apply (fresh_batch _ SCALE_OUT). by right.
  - unfold CommitConfirmedFailures in Hd. destruct (_ =? _)%nat; [done|]. apply res_bind_Ok in Hd as (plan & Hp & [= <-]). apply (fresh_batch _ FAILURE). left.
    by eapply failure_batch.
  - by eapply cleanup_carried.
  - by apply final_carried.
  - unfold CommitExpiredBatch in Hd. destruct (activeBatch latest) as [b|]; [|done]. destruct (btype b).
    + unfold CommitScaleOutExhaustion in Hd. destruct fj; [done|]. injection Hd as _ Hd. apply res_bind_Ok in Hd as (st & Hst & [= <-]).
      apply res_bind_Ok in Hst as (plan & Hp & [= <-]). apply (fresh_batch _ SCALE_OUT). by eapply replan_batch.
    + done.
    + injection Hd as _ Hd. apply res_bind_Ok in Hd as (st & Hst & [= <-]). by apply final_carried.
  - by eapply start_carried.
  - apply replacement_built in Hd as (ms & Hd%bootstrap_batch). apply (fresh_batch _ SCALE_OUT). by right.
Qed.
End Commits.

(** ** Controllers that share a store

    Any number of controllers read the topology, now or long ago, and compare-and-swap what they computed from
    it.  The history is the topologies that have been in the store, the newest first. *)
Section System.
Context (HashSHA256 : NetUtil.chars → res NetUtil.chars) (UUID_SIZE : nat) `{PlanningLaws} (tokens_per_member : Z) (o : options).
Context (keys : KeyHelper.helper) (wt : RepositoryCodec.wire RepositoryCodec.ClusterTopologyPb).

Definition stored (st : Repository.store) (cur : TopologyState) : Prop :=
  ∃ bytes, RepositoryCodec.EncodeTopology wt cur = Ok bytes ∧ st !! Repository.topology_row keys = Some bytes.

Inductive system : Repository.store → list TopologyState → Prop :=
| system_start st : stored st initial_topology → system st [initial_topology]
| system_step st h latest d f g st' :
    system st h → latest ∈ h → commits HashSHA256 UUID_SIZE tokens_per_member o latest d →
    (Repository.CompareAndSwapTopology keys wt f g st (version latest) d).1.1 = st' →
    system st' (if decide (st' = st) then h else canon d :: h).

(** Each topology of a history is computed from the one before it. *)
Fixpoint serial (h : list TopologyState) : Prop :=
  match h with
  | new :: ((old :: _) as rest) =>
    (∃ d, commits HashSHA256 UUID_SIZE tokens_per_member o old d ∧ topo_valid d ∧ new = canon d) ∧ version new = version old + 1 ∧ serial rest
  | [first] => first = initial_topology
  | [] => False
  end.

Lemma canon_inv st : plan_inv st → plan_inv (canon st).
Proof.
  intros Hi. pose proof (plan_inv_valid st Hi) as Hv. apply (edited_inv st); [done|by apply canon_valid|].
  intros m'. rewrite canon_members_perm. intros (m & -> & Hm)%list_elem_of_fmap. right. exists m. split; [done|]. split; [done|].
  split; [apply merge_sort_Permutation|by left].
Qed.

Lemma initial_inv : plan_inv initial_topology.
Proof.
  split; cbn; [unfold INT64_MAX; lia|done|constructor|split; constructor|by intros m ?%elem_of_nil|]. by intros [(m & ?%elem_of_nil & _) _].
Qed.

Lemma canon_initial : canon initial_topology = initial_topology.
Proof. reflexivity. Qed.

Lemma serial_versions h i j si sj : serial h → h !! i = Some si → h !! j = Some sj → version si = version sj → si = sj.
Proof.
  assert (∀ h k sk, serial h → h !! k = Some sk → version sk = Z.of_nat (List.length h) - Z.of_nat k) as Hv.
  { induction h0 as [|new [|old rest] IH]; intros k sk Hs Hk; [done|..].
    - destruct k; [injection Hk as <-|done]. simpl in Hs. by subst.
    - destruct Hs as (_ & Hver & Hs). destruct k as [|k].
      + injection Hk as <-. rewrite Hver (IH 0%nat old Hs eq_refl). cbn [List.length]. lia.
      + rewrite (IH k sk Hs Hk). cbn [List.length]. lia. }
  intros Hs Hi Hj E. pose proof (Hv h i si Hs Hi). pose proof (Hv h j sj Hs Hj). assert (i = j) as -> by lia. congruence.
Qed.

(** *** Identities in a batch *)
Lemma kept_canon old d : kept old d → kept old (canon d).
Proof. intros Hk m'. rewrite canon_members_perm. intros (m & -> & Hm)%list_elem_of_fmap Hs. by apply (Hk m). Qed.

Lemma serial_valid h t : serial h → t ∈ h → topo_valid t.
Proof.
  induction h as [|new [|old rest] IH]; intros Hs Ht; [done|..].
  - apply list_elem_of_singleton in Ht as ->. simpl in Hs. subst. apply plan_inv_valid, initial_inv.
  - destruct Hs as ((d & _ & Hv & ->) & _ & Hs). apply elem_of_cons in Ht as [->|Ht]; [by apply canon_valid|by apply IH].
Qed.

Lemma serial_newest new rest t : serial (new :: rest) → t ∈ new :: rest → version t ≤ version new.
Proof.
  revert new. induction rest as [|old rest IH]; intros new Hs [->|Ht]%elem_of_cons; try lia; [by apply elem_of_nil in Ht|].
  destruct Hs as (_ & Hv & Hs). specialize (IH old Hs Ht). lia.
Qed.

(** Through a history: a batch of the newest topology began after [t], or was there and the members are kept. *)
Lemma serial_carried new rest t b :
  serial (new :: rest) → t ∈ new :: rest → activeBatch new = Some b → version t < epoch b ∨ activeBatch t = Some b ∧ kept t new.
Proof.
  revert new. induction rest as [|old rest IH]; intros new Hs Ht Hb.
  - apply list_elem_of_singleton in Ht as ->. right. split; [done|]. intros m' ? ?. by exists m'.
  - apply elem_of_cons in Ht as [->|Ht]; [right; split; [done|]; intros m' ? ?; by exists m'|].
    pose proof (serial_valid _ new Hs ltac:(by left)) as Hvn. destruct Hs as ((d & Hc & Hv & ->) & Hver & Hs). pose proof (serial_newest old rest t Hs Ht) as Hle.
    pose proof (serial_valid _ old Hs ltac:(by left)) as Hvo.
    destruct (commits_carried HashSHA256 UUID_SIZE tokens_per_member o old d Hc b Hb) as [E|[Hbo Hk]].
    + left. rewrite E next_version_small; [pose proof (tv_version _ Hvn); pose proof (tv_version _ Hvo); lia|lia].
    + destruct (IH old Hs Ht Hbo) as [?|[? Hk']]; [by left|right]. split; [done|]. intros m' Hm' Hs'.
      destruct (kept_canon _ _ Hk m' Hm' Hs') as (m1 & Hm1 & E1 & Hs1). destruct (Hk' m1 Hm1 Hs1) as (m2 & ? & E2 & ?). exists m2. split_and!; [done|congruence|done].
Qed.

(** Two topologies of a history with the same batch: one of them is newer. *)
Lemma serial_ordered h t t' : serial h → t ∈ h → t' ∈ h →
  ∃ new rest, serial (new :: rest) ∧ ((new = t ∧ t' ∈ new :: rest) ∨ (new = t' ∧ t ∈ new :: rest)).
Proof.
  induction h as [|new rest IH]; intros Hs Ht Ht'; [by apply elem_of_nil in Ht|].
  apply elem_of_cons in Ht as [->|Ht]; [exists new, rest; auto|]. apply elem_of_cons in Ht' as [->|Ht']; [exists new, rest; split; [done|right; split; [done|by right]]|].
  destruct rest as [|old rest]; [by apply elem_of_nil in Ht|]. apply IH; [|done..]. by destruct Hs as (_ & _ & ?).
Qed.

Lemma serial_identities h t t' b b' m m' :
  serial h → t ∈ h → t' ∈ h → activeBatch t = Some b → activeBatch t' = Some b' → epoch b = epoch b' →
  m ∈ members t → m' ∈ members t' → addr m = addr m' → state m ≠ INITIAL → state m' ≠ INITIAL → b = b' ∧ identity m = identity m'.
Proof.
  assert (∀ new rest t b b' m m', serial (new :: rest) → t ∈ new :: rest → activeBatch new = Some b → activeBatch t = Some b' → epoch b = epoch b' →
    m ∈ members new → m' ∈ members t → addr m = addr m' → state m ≠ INITIAL → b = b' ∧ identity m = identity m') as Hone.
  { clear h t t' b b' m m'. intros new rest t b b' m m' Hs Ht Hb Hb' Ee Hm Hm' Ea Hst. pose proof (serial_valid _ t Hs Ht) as Hv.
    destruct (serial_carried new rest t b Hs Ht Hb) as [Hlt|[Hbt Hk]].
    - pose proof (tv_batch _ Hv) as Hbt. unfold batch_ok in Hbt. rewrite Hb' in Hbt. destruct Hbt as [[_ ?] _]. lia.
    - destruct (Hk m Hm Hst) as (m0 & Hm0 & Ei & _). split; [congruence|]. rewrite -Ei. f_equal. apply (NoDup_fmap_elem addr (members t)); [apply Hv|done|done|]. unfold addr in *. by rewrite Ei. }
  intros Hs Ht Ht' Hb Hb' Ee Hm Hm' Ea Hst Hst'. destruct (serial_ordered h t t' Hs Ht Ht') as (new & rest & Hs' & [[-> Hin]|[-> Hin]]).
  - by eapply Hone.
  - destruct (Hone t' rest t b' b m' m) as [-> ->]; done.
Qed.

Lemma system_spec (Hw : RepositoryCodec.wire_ok RepositoryCodec.same_topology wt) st h :
  system st h → serial h ∧ Forall plan_inv h ∧ Forall (λ s, canon s = s) h ∧ ∃ cur, head h = Some cur ∧ stored st cur.
Proof.
  induction 1 as [st Hst|st h latest d f g st' _ (Hs & Hi & Hcan & cur & Hh & (bytes & Hb & Hrow)) Hin Hc Hcas].
  { split_and!; [done|by apply Forall_singleton, initial_inv|by apply Forall_singleton, canon_initial|by exists initial_topology]. }
  destruct (decide (st' = st)) as [->|Hne]; [split_and!; try done; exists cur; split; [done|by exists bytes]|].
  pose proof (Repository.cas_topology_spec keys wt f g st (version latest) d) as Hspec.
  destruct (Repository.CompareAndSwapTopology keys wt f g st (version latest) d) as [[st0 result] rc]. cbn [fst] in Hcas. subst st0.
  destruct Hspec as ([?|(db & Hdb & Hdv & Hhold & ->)] & _); [done|].
  destruct h as [|cur' rest]; [done|]. injection Hh as ->.
  assert (plan_inv latest) as Hlat by (rewrite Forall_forall in Hi; by apply Hi).
  assert (version cur = version latest) as Ever.
  { unfold Repository.holds_version in Hhold. rewrite Hrow in Hhold. cbn [default] in Hhold.
    destruct Hhold as [[_ E]|(ob & Hob & E)]; [pose proof (pi_version _ Hlat); lia|].
    rewrite (RepositoryCodec.Decode_encoded wt cur bytes Hw Hb) in Hob. destruct (_ && _); [|done]. by injection Hob as <-. }
  assert (latest = cur) as ->.
  { apply list_elem_of_lookup_1 in Hin as [k Hk]. by eapply (serial_versions (cur :: rest) k 0). }
  apply RepositoryCodec.EncodeTopology_ok in Hdb as (Hdval & Hser & Hlen).
  assert (version cur < INT64_MAX) as Hlt.
  { pose proof (tv_version _ Hdval) as Hv. pose proof (pi_version _ Hlat) as Hv'. rewrite Hdv in Hv. rewrite u64_small in Hv; [|lia].
    unfold INT64_MAX in *. lia. }
  destruct (commits_inv HashSHA256 UUID_SIZE tokens_per_member o cur Hlat Hlt d Hc Hdval) as [Hd Hvd].
  split_and!.
  - cbn [serial]. split; [by exists d|]. split; [exact Hvd|done].
  - constructor; [by apply canon_inv|done].
  - constructor; [by apply canon_canon|done].
  - exists (canon d). split; [done|]. exists db. split; [|by rewrite lookup_insert_eq].
    apply RepositoryCodec.EncodeTopology_ok. rewrite canon_canon //. by split_and!; [apply canon_valid|..].
Qed.
End System.

(** ** Properties *)

(** C1: controllers cooperate through the compare-and-swap without a leader.  Let the store start with the initial topology, let the
    topology's encoding round-trip, and let any number of controllers, in any state, commit through the repository what they compute: the membership
    facts, the shutdown of the cluster, the failures observed and probed, the cleanup of uncommitted members, the end and the expiry of a
    batch, the start of the next one, and the replacement of a cluster whose members are all absent.  However old
    the topology a controller has read, and whatever fails in the backend, the topologies that have been in
    the store form one sequence: versions 1, 2, 3, ..., each topology canonical and computed by one of these
    operations from its immediate predecessor, the newest one in the store.  Every one of them is
    a valid topology whose ring has distinct tokens in range, in which only INITIAL members may be without
    tokens, no member joins while another leaves, and the states of the members fit the active batch. *)
Theorem controllers_serialize (HashSHA256 : NetUtil.chars → res NetUtil.chars) (UUID_SIZE : nat) `{PlanningLaws}
    (tokens_per_member : Z) (o : options) (keys : KeyHelper.helper) (wt : RepositoryCodec.wire RepositoryCodec.ClusterTopologyPb)
    (Hw : RepositoryCodec.wire_ok RepositoryCodec.same_topology wt) (st : Repository.store) (h : list TopologyState)
    (Hs : system HashSHA256 UUID_SIZE tokens_per_member o keys wt st h) :
  serial HashSHA256 UUID_SIZE tokens_per_member o h ∧ Forall plan_inv h ∧ Forall topo_valid h ∧ Forall (λ s, canon s = s) h
  ∧ ∃ cur, head h = Some cur ∧ stored keys wt st cur.
Proof.
  destruct (system_spec HashSHA256 UUID_SIZE tokens_per_member o keys wt Hw st h Hs) as (H1 & H2 & H3 & H4). split_and!; try done.
  eapply Forall_impl; [exact H2|]. apply plan_inv_valid.
Qed.

(** A cluster whose first worker is admitted, used by the witness. *)
Definition sample_keys : KeyHelper.helper := KeyHelper.MkHelper [] [] [] [] [] [] [] [] [].
Definition sample_hash (s : NetUtil.chars) : res NetUtil.chars := Ok (list_ascii_of_string "aaaaaaaaaaaaaaaa").
Definition sample_options : options := MkOptions 10 0 0.
Definition first_admitted : TopologyState :=
  MkTopology false 2 [MkMember (MkIdentity "aaaaaaaaaaaaaaaa" "10.0.0.1:8001") INITIAL []] None.
#[local] Existing Instance RepositoryCodec.ClusterTopologyPb_eq_dec.
Definition admission_wire : RepositoryCodec.wire RepositoryCodec.ClusterTopologyPb :=
  Repository.two_wire (RepositoryCodec.topology_pb initial_topology) (RepositoryCodec.topology_pb first_admitted).

Lemma admission_wire_ok : RepositoryCodec.wire_ok RepositoryCodec.same_topology admission_wire.
Proof.
  assert (∀ a b : RepositoryCodec.ClusterTopologyPb, RepositoryCodec.same_topology a b →
    (List.length (RepositoryCodec.cp_members a) ≤ 1)%nat ∨ (List.length (RepositoryCodec.cp_members b) ≤ 1)%nat → a = b) as Heq.
  { intros [i1 l1 v1 s1 b1] [i2 l2 v2 s2 b2] (E1 & Hp & E3 & E4 & E5) Hl. simpl in *. pose proof (Permutation_length Hp).
    assert (l1 = l2) as ->; [|congruence]. destruct l1 as [|x [|]]; simpl in *; [by apply Permutation_nil_l in Hp|by apply Permutation_singleton_l in Hp|lia]. }
  split; simpl.
  - intros pb s. case_bool_decide as E0; [intros [= <-]; by exists pb; subst|]. case_bool_decide as E1; [intros [= <-]; by exists pb; subst|done].
  - intros pb pb' Hs.
    assert (∀ x, (List.length (RepositoryCodec.cp_members x) ≤ 1)%nat → pb = x ↔ pb' = x) as Hx.
    { intros x Hl. split; intros <-; [symmetry|]; apply Heq; auto. }
    assert ((List.length (RepositoryCodec.cp_members (RepositoryCodec.topology_pb initial_topology)) ≤ 1)%nat) as L0 by (simpl; lia).
    assert ((List.length (RepositoryCodec.cp_members (RepositoryCodec.topology_pb first_admitted)) ≤ 1)%nat) as L1 by (simpl; lia).
    destruct (decide (pb = RepositoryCodec.topology_pb initial_topology)) as [E|E].
    { rewrite !bool_decide_eq_true_2 //. by apply (Hx _ L0). }
    rewrite (bool_decide_eq_false_2 (pb = _)) // (bool_decide_eq_false_2 (pb' = _)); [by rewrite -(Hx _ L0)|].
    destruct (decide (pb = RepositoryCodec.topology_pb first_admitted)) as [E'|E'].
    { rewrite !bool_decide_eq_true_2 //. by apply (Hx _ L1). }
    rewrite !bool_decide_eq_false_2 //. by rewrite -(Hx _ L1).
Qed.

Lemma controllers_serialize_witness :
  ∃ st, system sample_hash 16 4 sample_options sample_keys admission_wire st [first_admitted; initial_topology]
    ∧ Forall plan_inv [first_admitted; initial_topology].
Proof.
  set (st := {[ Repository.topology_row sample_keys := ["x"%char] ]} : Repository.store).
  set (st' := (Repository.CompareAndSwapTopology sample_keys admission_wire Repository.NoFault None st 1 first_admitted).1.1).
  assert (system sample_hash 16 4 sample_options sample_keys admission_wire st' [first_admitted; initial_topology]) as Hs.
  { assert (st' ≠ st) as Hne by (intros E%(f_equal (lookup (Repository.topology_row sample_keys))); by vm_compute in E).
    pose proof (system_step sample_hash 16 4 sample_options sample_keys admission_wire st [initial_topology] initial_topology first_admitted
      Repository.NoFault None st') as Hstep. revert Hstep. destruct (decide (st' = st)); [done|]. intros Hstep. apply Hstep.
    - constructor. exists ["x"%char]. split; vm_compute; reflexivity.
    - by left.
    - eapply (commits_facts _ _ _ _ _ (MkController ∅ None None) 0 [MkMembershipRecord "10.0.0.1:8001" READY 5 "h"]). vm_compute. reflexivity.
    - reflexivity. }
  exists st'. split; [exact Hs|].
  exact (proj1 (proj2 (controllers_serialize sample_hash 16 4 sample_options sample_keys admission_wire admission_wire_ok st' _ Hs))).
Defined.
(** ** A history: two workers join, the first one leaves, and while it does the second announces that it will *)
Definition sample_digest (s : NetUtil.chars) : res NetUtil.chars := Ok (take 32 (rev s)).

Inductive sample_turn := Facts (memberships : list MembershipRecord) | NextBatch (memberships : list MembershipRecord).
Definition sample_desired (t : sample_turn) (latest : TopologyState) : option TopologyState :=
  match t with
  | Facts memberships =>
    match (CommitMembershipFacts sample_digest 16 sample_options (MkController ∅ None None) 0 latest memberships).2 with Ok (Some (d, _, _)) => Some d | _ => None end
  | NextBatch memberships => match (TryStartNextBatch 2 sample_options (MkController ∅ None None) 0 latest memberships).2 with Ok (Some d) => Some d | _ => None end
  end.
Definition sample_extend (h : list TopologyState) (t : sample_turn) : option (list TopologyState) :=
  match h with
  | latest :: _ =>
    d ← sample_desired t latest;
    if is_ok (Create d 1 digest0) && (version d =? version latest + 1) then Some (canon d :: h) else None
  | [] => None
  end.
Definition worker1 (s : MemberLifecycleState) : MembershipRecord := MkMembershipRecord "10.0.0.1:8001" s 5 "h1".
Definition worker2 (s : MemberLifecycleState) : MembershipRecord := MkMembershipRecord "10.0.0.2:8001" s 6 "h2".
Definition sample_turns : list sample_turn :=
  [Facts [worker1 READY; worker2 READY]; NextBatch [worker1 READY; worker2 READY]; Facts [worker1 EXITING; worker2 READY];
   NextBatch [worker1 EXITING; worker2 READY]; Facts [worker1 EXITING; worker2 EXITING]].
Definition sample_history : list TopologyState :=
  Eval vm_compute in default [] (foldl (λ h t, h ≫= λ h, sample_extend h t) (Some [initial_topology]) sample_turns).

Lemma sample_extend_serial h t h' : serial sample_digest 16 2 sample_options h → sample_extend h t = Some h' → serial sample_digest 16 2 sample_options h'.
Proof.
  intros Hs. destruct h as [|latest h]; [done|]. unfold sample_extend. destruct (sample_desired t latest) as [d|] eqn:Ed; [|done]. cbn.
  destruct (Create d 1 digest0) as [snap|] eqn:Ec; [|done]. apply Create_ok in Ec as (Hv & _ & _). cbn. destruct (Z.eqb_spec (version d) (version latest + 1)) as [Ev|]; [|done].
  intros [= <-]. split; [|done]. exists d. split_and!; [|done..]. destruct t as [ms|ms]; cbn in Ed.
  - destruct (CommitMembershipFacts _ _ _ _ _ _ _) as [c' [[[[d' l] j]|]|]] eqn:E; try done. injection Ed as ->. by eapply commits_facts.
  - destruct (TryStartNextBatch _ _ _ _ _ _) as [c' [[d'|]|]] eqn:E; try done. injection Ed as ->. by eapply commits_start.
Qed.

Lemma sample_serial : serial sample_digest 16 2 sample_options sample_history.
Proof.
  assert (∀ ts h, serial sample_digest 16 2 sample_options h → ∀ h', foldl (λ h t, h ≫= λ h, sample_extend h t) (Some h) ts = Some h' → serial sample_digest 16 2 sample_options h') as Hrun.
  { induction ts as [|t ts IH]; intros h Hs h'; cbn; [by intros [= <-]|]. destruct (sample_extend h t) as [h1|] eqn:E.
    - apply IH. by eapply sample_extend_serial.
    - intros H0. exfalso. clear -H0. induction ts; [done|by apply IHts]. }
  apply (Hrun sample_turns [initial_topology]); [reflexivity|vm_compute; reflexivity].
Qed.

(** C23: a member keeps its identity while a batch lasts.  In a serial history of topologies (the conclusion of [controllers_serialize]), two topologies whose
    batches have equal epochs have the same batch, and their members at the same address, if they are more than candidates (not INITIAL), have the
    same identity: a worker that comes back under a new incarnation does not take the place of a member in the middle of a batch, whatever
    the controllers commit meanwhile. *)
Theorem batch_keeps_identities (HashSHA256 : NetUtil.chars → res NetUtil.chars) (UUID_SIZE : nat) `{PlanningLaws} (tokens_per_member : Z) (o : options)
    (h : list TopologyState) (t t' : TopologyState) (b b' : ActiveBatch) (m m' : Member)
    (Hs : serial HashSHA256 UUID_SIZE tokens_per_member o h) (Ht : t ∈ h) (Ht' : t' ∈ h)
    (Hb : activeBatch t = Some b) (Hb' : activeBatch t' = Some b') (He : epoch b = epoch b')
    (Hm : m ∈ members t) (Hm' : m' ∈ members t') (Ha : addr m = addr m') (Hi : state m ≠ INITIAL) (Hi' : state m' ≠ INITIAL) :
  b = b' ∧ identity m = identity m'.
Proof. by apply (serial_identities HashSHA256 UUID_SIZE tokens_per_member o h t t' b b'). Qed.

Lemma batch_keeps_identities_witness :
  ∃ t t' m m', t ∈ sample_history ∧ t' ∈ sample_history ∧ t ≠ t' ∧ activeBatch t ≠ None ∧ m ∈ members t ∧ m' ∈ members t' ∧ state m = ACTIVE ∧ state m' = PRE_LEAVING
    ∧ identity m = identity m'.
Proof.
  assert (∃ t t' m m' b, t ∈ sample_history ∧ t' ∈ sample_history ∧ t ≠ t' ∧ activeBatch t = Some b ∧ activeBatch t' = Some b ∧ m ∈ members t ∧ m' ∈ members t'
    ∧ addr m = addr m' ∧ state m = ACTIVE ∧ state m' = PRE_LEAVING) as (t & t' & m & m' & b & Ht & Ht' & Hne & Hb & Hb' & Hm & Hm' & Ea & Hs & Hs').
  { eexists _, _, _, _, _. split; [right; left|]. split; [left|]. split; [discriminate|]. split; [reflexivity|]. split; [reflexivity|].
    split; [right; left|]. split; [right; left|]. split_and!; reflexivity. }
  exists t, t', m, m'.
  destruct (batch_keeps_identities sample_digest 16 2 sample_options sample_history t t' b b m m' sample_serial Ht Ht' Hb Hb' eq_refl Hm Hm' Ea) as [_ E]; [congruence..|].
  split_and!; try done. congruence.
Defined.
End Controller.
