(* ===== verification/ExecutorRun.v ===== *)
(** * ExecutorRun: the executor's threads together

    The programs of [Executor] interleaved: the serial loop of the worker, which calls [HandleNotify], [HandleTick] and
    [HandleCompletion] one after the other, the threads of the callback pool, and [Stop].  A step is one section under the
    mutex or one call of one of them.  The dispatcher appears as the list of the completions it holds
    ([EventDispatcher.doorbells_never_lost]: they are delivered once and in order).  A run is one life of the executor, from a [Start] through
    at most its [Stop]: that an executor is started again after it has been stopped is not a step.

    Two facts about the world outside matter, and nothing is assumed of the hash.  The snapshots come from topologies that controllers
    have committed one after the other ([Controller.serial], the conclusion of [Controller.controllers_serialize]), so within a batch a member
    keeps its identity ([Controller.serial_identities]) and a task that is due again has the operation id it had, which [HandleTick] does not
    check.  And an operation id is the prefix of a digest: that fences of different phases have different ids is not assumed, the
    properties say what follows when they collide.

    What is known of a reachable state is an assertion about the shared state together with what each thread holds; that a
    thread's program respects it is the predicate [safe], by recursion on the program, in which the other threads may do
    anything that respects it too between two steps. *)
From S2P Require Import Prelude NetUtil MurmurHash Topology HashRing PlanBuilder Replan Membership KeyHelper RepositoryCodec Repository Materializer SnapshotState Placement Controller Executor.
From Stdlib Require Import Ascii String.
Import Topology HashRing PlanBuilder RepositoryCodec Repository Materializer SnapshotState Placement Executor.

Module ExecutorRun.
Local Open Scope Z_scope.

(** ** What the collaborators see *)
Inductive event :=
| EScaleOut (operation : string) (rc : res unit)
| EMetadata (operation : string) (rc : res unit)
| EMarker (operation : string) (rc : res unit)
| EDrain (operation : string) (rc : res unit)
| EPrepare (operation : string) (rc : res unit)
| EAuthorize (operation : string) (rc : res unit)
| EApply (operation : string) (rc : res unit)
| EFinished (operation : string) (fence : TopologyExecutionFence) (outcome : TaskProgressOutcome) (rc : res unit)
| EHandoff (operation : string) (fence : TopologyExecutionFence).

Definition log_of (c : call) : answer c → list event :=
  match c with
  | COnScaleOut ctx => λ rc, [EScaleOut (cc_businessOperationId ctx) rc]
  | COnScaleIn ctx => λ rc, [EMetadata (cc_businessOperationId ctx) rc]
  | CMarkScaleInMetadataDone operation _ => λ rc, [EMarker operation rc]
  | COnScaleInDataDrain ctx => λ rc, [EDrain (cc_businessOperationId ctx) rc]
  | CPrepareScaleInCleanup ctx => λ a, [EPrepare (cc_businessOperationId ctx) a.1]
  | CAuthorizeCleanup operation _ _ => λ rc, [EAuthorize operation rc]
  | CApply operation _ _ => λ rc, [EApply operation rc]
  | CMarkTaskScopeFinished operation fence => λ a, [EFinished operation fence a.1 a.2]
  | CRecordHandoff operation fence => λ _, [EHandoff operation fence]
  | _ => λ _, []
  end.

(** A completion the dispatcher takes waits in its queue. *)
Definition effect (c : call) : answer c → list TopologyCallbackCompletion → list TopologyCallbackCompletion :=
  match c with
  | CSubmitCompletion completion => λ rc q, if is_ok rc then q ++ [completion] else q
  | _ => λ _ q, q
  end.

(** ** Systems *)
Record sys := MkSys {
  ex : executor; queue : list TopologyCallbackCompletion; log : list event;
  serial : option (prog (res unit)); pool : list (prog unit); stopper : option (prog (res unit)) }.

(** What the two waits of [Stop] wait for; [published] are the snapshots that [Load] may return. *)
Definition enabled (published : TopologySnapshot → Prop) (c : call) (s : sys) : answer c → Prop :=
  match c with
  | CLoad => λ loaded, ∀ snap, loaded = Ok snap → published snap
  | CWaitDrained _ => λ drained, drained = true → callbackBodies_ (ex s) = 0
  | CJoinPool => λ _, poolWork_ (ex s) = [] ∧ pool s = []
  | _ => λ _, True
  end.

(** One step of a thread that runs [p]: the shared state it leaves and the rest of its program. *)
Definition advance {A} (published : TopologySnapshot → Prop) (s : sys) (p : prog A) (e : executor) (q : list TopologyCallbackCompletion) (l : list event) (p' : prog A) : Prop :=
  match p with
  | Ret _ => False
  | Atomic f k => e = f (ex s) ∧ q = queue s ∧ l = log s ∧ p' = k (ex s)
  | Call c k => ∃ a, enabled published c s a ∧ e = ex s ∧ q = effect c a (queue s) ∧ l = log s ++ log_of c a ∧ p' = k a
  end.

Section Run.
Context (HashSHA256 : chars → res chars) (localAddress_ : string) (options_ : TopologyTaskExecutorOptions) (restartHandler_ : bool)
  (published : TopologySnapshot → Prop).

Inductive step : sys → sys → Prop :=
| step_notify e q l ps st notify :
    step (MkSys e q l None ps st) (MkSys e q l (Some (HandleNotify HashSHA256 localAddress_ options_ notify)) ps st)
| step_tick e q l ps st now :
    step (MkSys e q l None ps st) (MkSys e q l (Some (HandleTick HashSHA256 localAddress_ options_ now)) ps st)
| step_pop e c q l ps st :
    step (MkSys e (c :: q) l None ps st) (MkSys e q l (Some (HandleCompletion HashSHA256 localAddress_ options_ c)) ps st)
| step_serial s p e q l p' :
    serial s = Some p → advance published s p e q l p' → step s (MkSys e q l (Some p') (pool s) (stopper s))
| step_serial_done e q l rc ps st : step (MkSys e q l (Some (Ret rc)) ps st) (MkSys e q l None ps st)
| step_begin e q l sr ps st w ws :
    poolWork_ e = w :: ws →
    step (MkSys e q l sr ps st) (MkSys (set_work ws e) q l sr (ps ++ [run_work HashSHA256 localAddress_ options_ restartHandler_ w]) st)
| step_pool s ps1 p ps2 e q l p' :
    pool s = ps1 ++ p :: ps2 → advance published s p e q l p' → step s (MkSys e q l (serial s) (ps1 ++ p' :: ps2) (stopper s))
| step_pool_done e q l sr ps1 ps2 st : step (MkSys e q l sr (ps1 ++ Ret tt :: ps2) st) (MkSys e q l sr (ps1 ++ ps2) st)
| step_stop e q l sr ps deadline : step (MkSys e q l sr ps None) (MkSys e q l sr ps (Some (Stop options_ deadline)))
| step_stopper s p e q l p' :
    stopper s = Some p → advance published s p e q l p' → step s (MkSys e q l (serial s) (pool s) (Some p'))
| step_stopper_done e q l sr ps rc : step (MkSys e q l sr ps (Some (Ret rc))) (MkSys e q l sr ps None).

(** A started executor. *)
Definition init : sys := MkSys (Start options_ localAddress_ true TopologyTaskExecutor).1 [] [] None [] None.

Definition reachable (s : sys) : Prop := rtc step init s.

End Run.

(** ** The work an operation stands for *)
Definition metadata_chain (operation : string) : list event := [EMetadata operation (Ok tt); EMarker operation (Ok tt)].
Definition drain_chain (operation : string) : list event := metadata_chain operation ++ [EDrain operation (Ok tt); EPrepare operation (Ok tt)].
Definition scale_in_chain (operation : string) : list event := drain_chain operation ++ [EAuthorize operation (Ok tt); EApply operation (Ok tt)].

(** What has been done, in this order, when an ordinary task may be marked finished. *)
Definition work_done (phase : TopologyCallbackPhase) (operation : string) (l : list event) : Prop :=
  match phase with
  | PHASE_SCALE_OUT => [EScaleOut operation (Ok tt)] `sublist_of` l
  | PHASE_SCALE_IN => scale_in_chain operation `sublist_of` l
  | _ => True
  end.

Lemma work_done_mono phase operation l l' : work_done phase operation l → l `sublist_of` l' → work_done phase operation l'.
Proof. destruct phase; cbn; [|..|done]; try (intros; by etrans). done. Qed.

(** ** What threads hold *)
Inductive holder :=
| Body                                              (* a work item of the pool that has not been accounted for *)
| Restart                                           (* the batch of restart effects *)
| Hold (operation : string) (drain : option bool)   (* an operation in flight, and whether its metadata is known to be done *)
| Turn (quiet : list string).                       (* the serial loop; operations that are not in flight until it says so *)

Definition hold_ops (hs : list holder) : list string := omap (λ h, match h with Hold op _ => Some op | _ => None end) hs.
Definition bodies (hs : list holder) : nat := List.length (omap (λ h, match h with Body => Some () | _ => None end) hs).
Definition turns (hs : list holder) : list (list string) := omap (λ h, match h with Turn quiet => Some quiet | _ => None end) hs.
Definition restarts (hs : list holder) : nat := List.length (omap (λ h, match h with Restart => Some () | _ => None end) hs).
Definition work_ops (ws : list work) : list string :=
  omap (λ w, match w with ExecuteCallbackWork _ op _ | ExecuteCleanupApplyWork _ op _ _ _ => Some op | RestartWork _ => None end) ws.
Definition restart_works (ws : list work) : nat := List.length (omap (λ w, match w with RestartWork _ => Some () | _ => None end) ws).
Definition queue_ops (q : list TopologyCallbackCompletion) : list string := tc_businessOperationId <$> q.
Definition all_ops (hs : list holder) (e : executor) (q : list TopologyCallbackCompletion) : list string :=
  hold_ops hs ++ work_ops (poolWork_ e) ++ queue_ops q.

Section Invariant.
Context (HashSHA256 : chars → res chars) (localAddress_ : string) (options_ : TopologyTaskExecutorOptions) (published : TopologySnapshot → Prop).
Abbreviation operation_of := (operation_of HashSHA256).

(** A fence of a task of this worker in some topology that has been published. *)
Definition built (fence : TopologyExecutionFence) : Prop :=
  ∃ task snap, published snap ∧ BuildExecutionFence HashSHA256 localAddress_ task (TaskPhase task) snap = Ok fence.

(** The work behind an operation id: that of one of the fences that have this id. *)
Definition earned (op : string) (l : list event) : Prop := ∃ fence, built fence ∧ operation_of fence = op ∧ work_done (ef_phase fence) op l.

Lemma earned_mono op l l' : earned op l → l `sublist_of` l' → earned op l'.
Proof. intros (fence & ? & ? & ?) ?. exists fence. split_and!; [done..|]. by eapply work_done_mono. Qed.

Definition fence_ok (fence : TopologyExecutionFence) : Prop :=
  built fence ∧ ef_phase fence ≠ PHASE_SCALE_IN_CLEANUP ∧ (ef_phase fence = PHASE_SCALE_IN → is_Some (ef_source fence)).

Lemma earned_intro fence l : fence_ok fence → work_done (ef_phase fence) (operation_of fence) l → earned (operation_of fence) l.
Proof. intros [Hb _] Hd. by exists fence. Qed.

(** What a successful completion of [fence] tells; [drain] is whether its operation has its metadata done. *)
Definition evidence (fence : TopologyExecutionFence) (cleanup : option TopologyPreparedCleanup) (drain : bool) (l : list event) : Prop :=
  match ef_phase fence with
  | PHASE_SCALE_OUT => cleanup = None ∧ [EScaleOut (operation_of fence) (Ok tt)] `sublist_of` l
  | PHASE_SCALE_IN =>
    match cleanup, drain with
    | None, false => [EMetadata (operation_of fence) (Ok tt)] `sublist_of` l
    | None, true => scale_in_chain (operation_of fence) `sublist_of` l
    | Some _, true => drain_chain (operation_of fence) `sublist_of` l
    | Some _, false => False
    end
  | _ => cleanup = None
  end.

Definition completion_ok (ops : gmap string OperationState) (l : list event) (c : TopologyCallbackCompletion) : Prop :=
  tc_businessOperationId c = operation_of (tc_fence c) ∧ fence_ok (tc_fence c)
  ∧ ∃ b, (∀ st, ops !! operation_of (tc_fence c) = Some st → scaleInMetadataDone st = b)
         ∧ (tc_status c = Ok tt → evidence (tc_fence c) (tc_preparedCleanup c) b l).

Definition work_ok (ops : gmap string OperationState) (l : list event) (w : work) : Prop :=
  match w with
  | ExecuteCallbackWork fence op _ => op = operation_of fence ∧ fence_ok fence
  | ExecuteCleanupApplyWork fence op _ _ _ =>
    op = operation_of fence ∧ fence_ok fence ∧ ef_phase fence = PHASE_SCALE_IN
    ∧ (drain_chain op ++ [EAuthorize op (Ok tt)]) `sublist_of` l
    ∧ ∀ st, ops !! op = Some st → scaleInMetadataDone st = true
  | RestartWork _ => True
  end.

Definition op_ok (l : list event) (op : string) (st : OperationState) : Prop :=
  (∃ snap fence, published snap ∧ BuildExecutionFence HashSHA256 localAddress_ (os_task st) (TaskPhase (os_task st)) snap = Ok fence ∧ operation_of fence = op)
  ∧ (scaleInMetadataDone st = true → metadata_chain op `sublist_of` l)
  ∧ (progressReady st = true → earned op l).

Definition in_flight (ops : gmap string OperationState) (op : string) : Prop := ∃ st, ops !! op = Some st ∧ is_Some (cancellation st).

(** What the holders of operations know of them. *)
Definition stages (hs : list holder) (ops : gmap string OperationState) (ws : list work) (q : list TopologyCallbackCompletion) (l : list event) : Prop :=
  (∀ op b, Hold op (Some b) ∈ hs → ∀ st, ops !! op = Some st → scaleInMetadataDone st = b)
  ∧ (∀ w, w ∈ ws → work_ok ops l w)
  ∧ (∀ c, c ∈ q → completion_ok ops l c).

Definition turn_ok (hs : list holder) (ops : gmap string OperationState) : Prop :=
  (List.length (turns hs) ≤ 1)%nat ∧ ∀ quiet op, quiet ∈ turns hs → op ∈ quiet → ¬ in_flight ops op.

Record inv (hs : list holder) (e : executor) (q : list TopologyCallbackCompletion) (l : list event) : Prop := MkInv {
  i_nodup : NoDup (all_ops hs e q);
  i_tokens : ∀ op, op ∈ all_ops hs e q ↔ in_flight (operations_ e) op;
  i_stages : stages hs (operations_ e) (poolWork_ e) q l;
  i_count : inFlightOperations_ e = Z.of_nat (List.length (all_ops hs e q));
  i_cap : inFlightOperations_ e ≤ callbackThreads options_ + callbackQueueCapacity options_;
  i_valid : ValidOptions options_ = true;
  i_ops : ∀ op st, operations_ e !! op = Some st → op_ok l op st;
  i_bodies : callbackBodies_ e = u64 (Z.of_nat (bodies hs + List.length (poolWork_ e)));
  i_turn : turn_ok hs (operations_ e);
  i_restart : (restarts hs + restart_works (poolWork_ e) = if restartBatchInFlight_ e then 1 else 0)%nat }.

(** A stopped executor has no operations. *)
Definition J (hs : list holder) (e : executor) (q : list TopologyCallbackCompletion) (l : list event) : Prop :=
  if started_ e then inv hs e q l else operations_ e = ∅ ∧ stages [] ∅ (poolWork_ e) q l.

(** *** Growing the log *)
Lemma evidence_mono fence cleanup drain l l' : evidence fence cleanup drain l → l `sublist_of` l' → evidence fence cleanup drain l'.
Proof.
  unfold evidence. destruct (ef_phase fence); [|destruct cleanup, drain|..]; try done; try (intros; by etrans). intros [? ?] ?. split; [done|]. by etrans.
Qed.
Lemma completion_ok_mono ops l l' c : completion_ok ops l c → l `sublist_of` l' → completion_ok ops l' c.
Proof. intros (? & ? & b & ? & H) Hl. split_and!; [done..|]. exists b. split; [done|]. intros Hs. eapply evidence_mono; eauto. Qed.
Lemma work_ok_mono ops l l' w : work_ok ops l w → l `sublist_of` l' → work_ok ops l' w.
Proof. destruct w; cbn; [done| |done]. intros (? & ? & ? & ? & ?) Hl. split_and!; try done. by etrans. Qed.
Lemma op_ok_mono l l' op st : op_ok l op st → l `sublist_of` l' → op_ok l' op st.
Proof. intros (? & H1 & H2) Hl. split; [done|]. split; [intros ?; etrans; [by apply H1|done]|]. intros ?. eapply earned_mono; [by apply H2|done]. Qed.

Lemma inv_log hs e q l l' : inv hs e q l → l `sublist_of` l' → inv hs e q l'.
Proof.
  intros [] Hl. destruct i_stages0 as (? & ? & ?). constructor; try done; [split_and!|]; eauto using work_ok_mono, completion_ok_mono, op_ok_mono.
Qed.

(** They know nothing of other operations, and of theirs only the stage. *)
Lemma stages_ext hs ops ops' ws q l :
  (∀ op st', op ∈ hold_ops hs ++ work_ops ws ++ queue_ops q → ops' !! op = Some st' → ∃ st, ops !! op = Some st ∧ scaleInMetadataDone st' = scaleInMetadataDone st) →
  stages hs ops ws q l → stages hs ops' ws q l.
Proof.
  intros H (Hh & Hw & Hq). split_and!.
  - intros op b Hb st' Hst'. destruct (H op st') as (st & Hst & ->); [|done|by eapply Hh].
    apply elem_of_app. left. apply list_elem_of_omap. by eexists.
  - intros w Hin. specialize (Hw w Hin). destruct w as [|fence op dl cl tok|]; cbn in *; try done. destruct Hw as (? & ? & ? & ? & Hd). split_and!; try done.
    intros st' Hst'. destruct (H op st') as (st & Hst & ->); [|done|by apply Hd].
    apply elem_of_app. right. apply elem_of_app. left. apply list_elem_of_omap. by eexists.
  - intros c Hc. destruct (Hq c Hc) as (Eid & ? & b & Hd & ?). split_and!; try done. exists b. split; [|done]. intros st' Hst'.
    destruct (H (operation_of (tc_fence c)) st') as (st & Hst & ->); [|done|by apply Hd].
    apply elem_of_app. right. apply elem_of_app. right. rewrite -Eid. by apply list_elem_of_fmap_2.
Qed.

(** *** Changing parts of the state *)

(** [inv] looks only at the operations, the counters, the pool and the restart flag. *)
Definition same_core (e e' : executor) : Prop :=
  operations_ e' = operations_ e ∧ inFlightOperations_ e' = inFlightOperations_ e ∧ callbackBodies_ e' = callbackBodies_ e
  ∧ poolWork_ e' = poolWork_ e ∧ restartBatchInFlight_ e' = restartBatchInFlight_ e.

Lemma inv_same hs e e' q l : same_core e e' → inv hs e q l → inv hs e' q l.
Proof.
  intros (E1 & E2 & E3 & E4 & E5) []. constructor; unfold all_ops in *; rewrite ?E1 ?E2 ?E3 ?E4 ?E5; done.
Qed.

(** Changing the operations without changing who is in flight, nor the stage of those that are. *)
Lemma inv_operations hs e e' q l :
  inv hs e q l →
  (∀ op st, op ∈ all_ops hs e q → operations_ e !! op = Some st →
     ∃ st', operations_ e' !! op = Some st' ∧ is_Some (cancellation st') ∧ scaleInMetadataDone st' = scaleInMetadataDone st) →
  (∀ op st', op ∉ all_ops hs e q → operations_ e' !! op = Some st' → cancellation st' = None) →
  (∀ op st', operations_ e' !! op = Some st' → op_ok l op st') →
  inFlightOperations_ e' = inFlightOperations_ e → callbackBodies_ e' = callbackBodies_ e → poolWork_ e' = poolWork_ e →
  restartBatchInFlight_ e' = restartBatchInFlight_ e →
  inv hs e' q l.
Proof.
  intros [] H1 H2 H3 E2 E3 E4 E5.
  assert (∀ op st', op ∈ all_ops hs e q → operations_ e' !! op = Some st' → ∃ st, operations_ e !! op = Some st ∧ scaleInMetadataDone st' = scaleInMetadataDone st) as H4.
  { intros op st' Hop Hst'. destruct (proj1 (i_tokens0 op) Hop) as (st & Hst & _). destruct (H1 op st Hop Hst) as (st2 & E & _ & ?). exists st. naive_solver. }
  assert (∀ op, op ∈ all_ops hs e q ↔ in_flight (operations_ e') op) as Hfl.
  { intros op. split.
    + intros Hop. destruct (proj1 (i_tokens0 op) Hop) as (st & Hst & _). destruct (H1 op st Hop Hst) as (st' & ? & ? & _). by exists st'.
    + intros (st' & Hst' & Htok). destruct (decide (op ∈ all_ops hs e q)) as [?|Hn]; [done|].
      rewrite (H2 op st' Hn Hst') in Htok. by destruct Htok. }
  constructor; unfold all_ops in *; rewrite ?E2 ?E3 ?E4 ?E5; try done.
  - by eapply stages_ext.
  - destruct i_turn0 as [? Ht]. split; [done|]. intros quiet op Hq Hin Hf. eapply Ht; [done..|]. by apply i_tokens0, Hfl.
Qed.

(** An operation that is not in flight can be changed freely. *)
Lemma not_in_flight hs e q l op : inv hs e q l → ¬ in_flight (operations_ e) op → op ∉ all_ops hs e q.
Proof. intros Hi Hn Hop. apply Hn. by apply (i_tokens _ _ _ _ Hi). Qed.

Lemma inv_set hs e q l op o :
  inv hs e q l → ¬ in_flight (operations_ e) op → (∀ st, o = Some st → cancellation st = None ∧ op_ok l op st) →
  inv hs (set_operations (partial_alter (λ _, o) op (operations_ e)) e) q l.
Proof.
  intros Hi Hn Ho. pose proof (not_in_flight _ _ _ _ _ Hi Hn) as Hout. apply (inv_operations hs e); try done; cbn.
  - intros op' st Hop Hst. rewrite lookup_partial_alter_ne; [by intros ->|]. exists st. split_and!; try done.
    destruct (proj1 (i_tokens _ _ _ _ Hi op') Hop) as (? & ? & ?). naive_solver.
  - intros op' st Hop Hst. destruct (decide (op' = op)) as [->|]; [rewrite lookup_partial_alter_eq in Hst; by apply Ho|].
    rewrite lookup_partial_alter_ne // in Hst. destruct (cancellation st) eqn:Ec; [|done]. destruct Hop. apply (i_tokens _ _ _ _ Hi). exists st. by rewrite Ec.
  - intros op' st Hst. destruct (decide (op' = op)) as [->|]; [rewrite lookup_partial_alter_eq in Hst; by apply Ho|].
    rewrite lookup_partial_alter_ne // in Hst. by eapply i_ops.
Qed.

(** A change that keeps the token and the stage. *)
Lemma inv_update hs e q l op g :
  inv hs e q l →
  (∀ st, operations_ e !! op = Some st → cancellation (g st) = cancellation st ∧ (scaleInMetadataDone (g st) = scaleInMetadataDone st ∨ op ∉ all_ops hs e q)
     ∧ (op_ok l op st → op_ok l op (g st))) →
  inv hs (update op g e) q l.
Proof.
  intros Hi Hg. apply (inv_operations hs e); try done; cbn.
  - intros op' st Hop Hst. destruct (proj1 (i_tokens _ _ _ _ Hi op') Hop) as (st2 & Hst2 & Htok). assert (st2 = st) as -> by congruence.
    destruct (decide (op' = op)) as [->|].
    + rewrite lookup_alter_eq Hst. exists (g st). destruct (Hg st Hst) as (-> & [->|] & _); done.
    + rewrite lookup_alter_ne //. by exists st.
  - intros op' st Hop Hst. destruct (decide (op' = op)) as [->|].
    + rewrite lookup_alter_eq in Hst. destruct (operations_ e !! op) as [st0|] eqn:E0; [|done]. injection Hst as <-. destruct (Hg st0 eq_refl) as (-> & _).
      destruct (cancellation st0) eqn:Ec; [|done]. destruct Hop. apply (i_tokens _ _ _ _ Hi). exists st0. by rewrite Ec.
    + rewrite lookup_alter_ne // in Hst. destruct (cancellation st) eqn:Ec; [|done]. destruct Hop. apply (i_tokens _ _ _ _ Hi). exists st. by rewrite Ec.
  - intros op' st Hst. destruct (decide (op' = op)) as [->|].
    + rewrite lookup_alter_eq in Hst. destruct (operations_ e !! op) as [st0|] eqn:E0; [|done]. injection Hst as <-. apply (Hg st0 eq_refl). by eapply i_ops.
    + rewrite lookup_alter_ne // in Hst. by eapply i_ops.
Qed.

(** *** Taking and giving back an operation *)
Lemma stages_weaken op k hs ops ws q l : stages (Hold op k :: hs) ops ws q l → stages hs ops ws q l.
Proof. intros (Hh & ? & ?). split_and!; try done. intros op' b Hb. apply Hh. by right. Qed.

Lemma inv_release op k F e q l :
  inv (Hold op k :: F) e q l → inv F (ReleaseInFlightLocked op e).1 q l ∧ ¬ in_flight (operations_ (ReleaseInFlightLocked op e).1) op.
Proof.
  intros Hi. pose proof (i_nodup _ _ _ _ Hi) as Hnd. unfold all_ops in Hnd. cbn in Hnd. apply NoDup_cons in Hnd as [Hout Hnd].
  destruct (proj1 (i_tokens _ _ _ _ Hi op)) as (st & Hst & [tok Htok]); [by left|].
  unfold ReleaseInFlightLocked. rewrite Hst Htok. cbn. split.
  2:{ intros (st' & Hst' & Ht). rewrite lookup_alter_eq Hst in Hst'. injection Hst' as <-. by destruct Ht. }
  assert (inFlightOperations_ e = 1 + Z.of_nat (List.length (all_ops F e q))) as Hcnt.
  { rewrite (i_count _ _ _ _ Hi). assert (List.length (all_ops (Hold op k :: F) e q) = S (List.length (all_ops F e q))) as -> by done. lia. }
  assert (∀ op' st', operations_ e !! op' = Some st' → op' ∈ all_ops F e q → op' ≠ op) as Hne by (intros ? ? ? ? ->; done).
  pose proof (i_cap _ _ _ _ Hi) as Hcap. assert (callbackThreads options_ + callbackQueueCapacity options_ ≤ 1040) as Hle.
  { pose proof (i_valid _ _ _ _ Hi) as Hv. unfold ValidOptions, MAX_CALLBACK_THREADS, MAX_CALLBACK_QUEUE_CAPACITY in Hv. rewrite !andb_true_iff !Z.ltb_lt !Z.leb_le in Hv. lia. }
  assert (u64 (inFlightOperations_ e - 1) = Z.of_nat (List.length (all_ops F e q))) as Hu. { rewrite u64_small; lia. }
  destruct Hi. constructor; cbn; try done.
  - intros op'. split.
    + intros Hop. assert (op' ≠ op) as Hn by (intros ->; done). destruct (proj1 (i_tokens0 op')) as (st' & ? & ?); [by right|].
      exists st'. by rewrite lookup_alter_ne.
    + intros (st' & Hst' & Ht). destruct (decide (op' = op)) as [->|Hn]; [rewrite lookup_alter_eq Hst in Hst'; injection Hst' as <-; by destruct Ht|].
      rewrite lookup_alter_ne // in Hst'. assert (op' ∈ all_ops (Hold op k :: F) e q) as [?|?]%elem_of_cons by (apply i_tokens0; by exists st'); done.
  - eapply stages_ext; [|by apply (stages_weaken op k)]. intros op' st' Hop Hst'. rewrite lookup_alter_ne in Hst'; [by intros ->|]. by exists st'.
  - rewrite Hu. lia.
  - intros op' st' Hst'. destruct (decide (op' = op)) as [->|Hn].
    + rewrite lookup_alter_eq Hst in Hst'. injection Hst' as <-. by apply i_ops0 in Hst.
    + rewrite lookup_alter_ne // in Hst'. by apply i_ops0.
  - destruct i_turn0 as [? Ht]. split; [done|]. intros quiet op' Hq Hin (st' & Hst' & Htk). destruct (decide (op' = op)) as [->|Hn].
    + rewrite lookup_alter_eq Hst in Hst'. injection Hst' as <-. by destruct Htk.
    + rewrite lookup_alter_ne // in Hst'. eapply Ht; [done..|]. by exists st'.
Qed.

Lemma release_idle op e : ¬ in_flight (operations_ e) op → ReleaseInFlightLocked op e = (e, false).
Proof.
  intros Hn. unfold ReleaseInFlightLocked. destruct (operations_ e !! op) as [st|] eqn:E; [|done]. destruct (cancellation st) eqn:Ec; [|done].
  destruct Hn. exists st. by rewrite Ec.
Qed.

(** Erasing is releasing and then forgetting. *)
Lemma erase_core op e :
  same_core (set_operations (delete op (operations_ (ReleaseInFlightLocked op e).1)) (ReleaseInFlightLocked op e).1) (EraseOperationLocked op e).1.
Proof.
  unfold EraseOperationLocked, ReleaseInFlightLocked, erase_pending. destruct (operations_ e !! op) as [st|] eqn:E.
  2:{ cbn. rewrite /same_core /= delete_id //. }
  destruct (bool_decide _); [|destruct (_ !! scaleInMetadataGate st)]; cbn; rewrite ?E; destruct (cancellation st); done.
Qed.

Lemma inv_erase hs e q l op : inv hs e q l → ¬ in_flight (operations_ e) op → inv hs (EraseOperationLocked op e).1 q l.
Proof.
  intros Hi Hn. eapply inv_same; [apply erase_core|]. rewrite release_idle //. by apply (inv_set hs e q l op None).
Qed.

Lemma inv_erase_hold F e q l op k : inv (Hold op k :: F) e q l → inv F (EraseOperationLocked op e).1 q l.
Proof.
  intros Hi. eapply inv_same; [apply erase_core|]. destruct (inv_release _ _ _ _ _ _ Hi) as [Hi' Hn]. by apply (inv_set F _ q l op None).
Qed.

Lemma options_small : ValidOptions options_ = true → 0 < callbackThreads options_ + callbackQueueCapacity options_ ≤ 1040.
Proof.
  unfold ValidOptions, MAX_CALLBACK_THREADS, MAX_CALLBACK_QUEUE_CAPACITY. rewrite !andb_true_iff !Z.ltb_lt !Z.leb_le. lia.
Qed.

Lemma u64_bodies_succ a : u64 (u64 a + 1) = u64 (a + 1).
Proof. unfold u64. by rewrite Zplus_mod_idemp_l. Qed.
Lemma u64_bodies_pred a : u64 (u64 (a + 1) - 1) = u64 a.
Proof. unfold u64. rewrite Zminus_mod_idemp_l. f_equal. lia. Qed.

Lemma inv_body hs e q l : inv hs e q l → inv (Body :: hs) (add_bodies 1 e) q l.
Proof.
  intros []. constructor; try done.
  - destruct i_stages0 as (Hh & ? & ?). split_and!; try done. intros op b [?|?]%elem_of_cons; [done|]. by eapply Hh.
  - cbn. rewrite i_bodies0 u64_bodies_succ. f_equal. unfold bodies. cbn. lia.
Qed.

Lemma inv_body_done hs e q l : inv (Body :: hs) e q l → inv hs (add_bodies (-1) e) q l.
Proof.
  intros []. constructor; try done.
  - destruct i_stages0 as (Hh & ? & ?). split_and!; try done. intros op b ?. eapply Hh. by right.
  - cbn. rewrite i_bodies0. replace (Z.of_nat (bodies (Body :: hs) + List.length (poolWork_ e))) with (Z.of_nat (bodies hs + List.length (poolWork_ e)) + 1) by (unfold bodies; cbn; lia).
    apply u64_bodies_pred.
Qed.

Lemma inv_begin_callback quiet hs0 e q l fence op gate allow st :
  let hs := Turn quiet :: hs0 in
  inv hs e q l → op ∉ quiet → operations_ e !! op = Some st → cancellation st = None →
  inFlightOperations_ e < callbackThreads options_ + callbackQueueCapacity options_ →
  inv (Hold op None :: Body :: hs) (begin_callback fence op gate allow e).1 q l.
Proof.
  intros hs Hi Hquiet Hst Htok Hlt. assert (¬ in_flight (operations_ e) op) as Hn. { intros (st' & Hst' & Ht). rewrite Hst in Hst'. injection Hst' as <-. rewrite Htok in Ht. by destruct Ht. }
  pose proof (not_in_flight _ _ _ _ _ Hi Hn) as Hout. pose proof (options_small (i_valid _ _ _ _ Hi)) as Hsmall. apply inv_body in Hi.
  assert (all_ops (Hold op None :: Body :: hs) e q = op :: all_ops hs e q) as Eall by done.
  assert (∀ X, same_core X (begin_callback fence op gate allow e).1 → inv (Hold op None :: Body :: hs) X q l → inv (Hold op None :: Body :: hs) (begin_callback fence op gate allow e).1 q l) as Hto.
  { intros X. apply inv_same. }
  set (st1 := os_with_attempts (u32 (attempts st + 1)) (os_with_next 0 (os_with_token (Some (nextToken_ e)) st))).
  apply (Hto (set_in_flight (u64 (inFlightOperations_ e + 1)) (set_operations (<[op := st1]> (operations_ e)) (add_bodies 1 e)))).
  { unfold begin_callback, same_core. destruct (_ && _); cbn; split_and!; try done;
      apply map_eq; intros i; (destruct (decide (i = op)) as [->|]; [rewrite !lookup_alter_eq Hst lookup_insert_eq //|rewrite !lookup_alter_ne // lookup_insert_ne //]). }
  clear Hto. pose proof (i_count _ _ _ _ Hi) as Hcnt. change (inFlightOperations_ (add_bodies 1 e)) with (inFlightOperations_ e) in Hcnt.
  change (all_ops (Body :: hs) (add_bodies 1 e) q) with (all_ops hs e q) in Hcnt.
  assert (u64 (inFlightOperations_ e + 1) = inFlightOperations_ e + 1) as Hu. { apply u64_small. lia. }
  destruct Hi. constructor; try done; cbn.
  - apply NoDup_cons. done.
  - intros op'. change (op' ∈ op :: all_ops hs e q ↔ in_flight (<[op:=st1]> (operations_ e)) op'). rewrite elem_of_cons (i_tokens0 op'). unfold in_flight.
    destruct (decide (op' = op)) as [->|Hne]; [|rewrite lookup_insert_ne //; naive_solver].
    split; [|by left]. intros _. exists st1. rewrite lookup_insert_eq. split; [done|]. by eexists.
  - destruct i_stages0 as (Hh & ? & ?). eapply stages_ext; [|split_and!; [intros op' b [?|[?|Hb]%elem_of_cons]%elem_of_cons|done..]; [done..|apply Hh; by right]].
    intros op' st' Hop Hst'. destruct (decide (op' = op)) as [->|Hne]; [|rewrite lookup_insert_ne // in Hst'; by exists st'].
    rewrite lookup_insert_eq in Hst'. injection Hst' as <-. by exists st.
  - change (u64 (inFlightOperations_ e + 1) = Z.of_nat (S (List.length (all_ops hs e q)))). lia.
  - lia.
  - intros op' st' Hst'. destruct (decide (op' = op)) as [->|Hne]; [rewrite lookup_insert_eq in Hst'; injection Hst' as <-|rewrite lookup_insert_ne // in Hst'; by apply i_ops0].
    by apply i_ops0 in Hst.
  - destruct i_turn0 as [Hle Ht]. split; [done|]. change (turns (Hold op None :: Body :: hs)) with (quiet :: turns hs0).
    change (turns (Body :: hs)) with (quiet :: turns hs0) in Hle, Ht. cbn in Hle. destruct (turns hs0); [|cbn in Hle; lia].
    intros ? op' ->%list_elem_of_singleton Hin (st' & Hst' & Htk). rewrite lookup_insert_ne in Hst'; [by intros ->|]. eapply Ht; [by left|done|]. by exists st'.
Qed.

#[export] Instance inv_perm : Proper ((≡ₚ) ==> eq ==> eq ==> eq ==> impl) inv.
Proof.
  intros hs hs' Hp e ? <- q ? <- l ? <- [].
  assert (all_ops hs e q ≡ₚ all_ops hs' e q) as Hall by (unfold all_ops, hold_ops; by rewrite Hp).
  constructor; try done.
  - by rewrite -Hall.
  - intros op. by rewrite -Hall.
  - destruct i_stages0 as (Hh & ? & ?). split_and!; try done. intros op b Hb. apply Hh. by rewrite Hp.
  - by rewrite -Hall.
  - unfold bodies in *. by rewrite -Hp.
  - destruct i_turn0 as [? Ht]. unfold turn_ok, turns in *. split; [by rewrite -Hp|]. intros quiet op. by rewrite -Hp; apply Ht.
  - unfold restarts in *. by rewrite -Hp.
Qed.

(** Handing an operation and a body to the pool. *)
Definition holders_of (w : work) : list holder :=
  match w with
  | ExecuteCallbackWork _ op _ => [Hold op None; Body]
  | ExecuteCleanupApplyWork _ op _ _ _ => [Hold op (Some true); Body]
  | RestartWork _ => [Restart; Body]
  end.

Lemma all_ops_push hs e q w : all_ops hs (push_work w e) q ≡ₚ all_ops (holders_of w ++ hs) e q.
Proof.
  unfold all_ops, work_ops. cbn. rewrite omap_app. destruct w; cbn; rewrite ?app_nil_r //; rewrite -!app_assoc /= -Permutation_middle app_assoc -Permutation_middle !app_assoc //.
Qed.

Lemma inv_push w hs e q l : inv (holders_of w ++ hs) e q l → work_ok (operations_ e) l w → inv hs (push_work w e) q l.
Proof.
  intros [] Hw. pose proof (all_ops_push hs e q w) as Hp. constructor; cbn; try done.
  - by rewrite Hp.
  - intros op. by rewrite Hp.
  - destruct i_stages0 as (Hh & Hws & ?). split_and!; try done.
    + intros op b Hb. apply Hh. apply elem_of_app. by right.
    + intros w' [?| ->%list_elem_of_singleton]%elem_of_app; [by apply Hws|done].
  - by rewrite Hp.
  - rewrite i_bodies0 length_app /=. f_equal. f_equal. unfold bodies. rewrite omap_app length_app. destruct w; cbn; lia.
  - by destruct w.
  - rewrite -i_restart0. unfold restarts, restart_works. rewrite !omap_app !length_app. destruct w; cbn; lia.
Qed.

(** A thread takes it. *)
Lemma inv_take w ws hs e q l : poolWork_ e = w :: ws → inv hs e q l → inv (holders_of w ++ hs) (set_work ws e) q l ∧ work_ok (operations_ e) l w.
Proof.
  intros Ew []. assert (all_ops hs e q ≡ₚ all_ops (holders_of w ++ hs) (set_work ws e) q) as Hp.
  { unfold all_ops, work_ops. rewrite Ew. destruct w; cbn; rewrite -?Permutation_middle //. }
  rewrite Ew in i_stages0, i_bodies0, i_restart0. destruct i_stages0 as (Hh & Hws & Hq). assert (work_ok (operations_ e) l w) as Hw by (apply Hws; by left).
  split; [|done]. constructor; cbn; try done.
  - by rewrite -Hp.
  - intros op. by rewrite -Hp.
  - split_and!; [|intros w' ?; apply Hws; by right|done]. intros op b [Hb|Hb]%elem_of_app; [|by apply Hh]. intros st Hst.
    destruct w as [|fence op' dl cl tok|]; cbn in Hb; set_unfold; destruct Hb as [Hb|[Hb|[]]]; try done. injection Hb as -> ->. by apply Hw.
  - by rewrite -Hp.
  - rewrite i_bodies0 /=. f_equal. f_equal. unfold bodies. rewrite omap_app length_app. destruct w; cbn; lia.
  - by destruct w.
  - rewrite -i_restart0. unfold restarts, restart_works. rewrite omap_app length_app. destruct w; cbn; lia.
Qed.

(** Handing it to the dispatcher, and getting it back. *)
Lemma inv_queue c k hs e q l :
  inv (Hold (tc_businessOperationId c) k :: hs) e q l → completion_ok (operations_ e) l c → inv hs e (q ++ [c]) l.
Proof.
  intros [] Hc. assert (all_ops hs e (q ++ [c]) ≡ₚ all_ops (Hold (tc_businessOperationId c) k :: hs) e q) as Hp.
  { unfold all_ops, queue_ops. rewrite fmap_app /=. rewrite app_assoc app_assoc. rewrite -Permutation_cons_append. by rewrite -app_assoc. }
  constructor; try done.
  - by rewrite Hp.
  - intros op. by rewrite Hp.
  - apply stages_weaken in i_stages0. destruct i_stages0 as (Hh & ? & Hq). split_and!; try done.
    intros c' [?| ->%list_elem_of_singleton]%elem_of_app; [by apply Hq|done].
  - by rewrite Hp.
Qed.

Lemma inv_take_completion c hs e q l :
  inv hs e (c :: q) l →
  ∃ st, operations_ e !! operation_of (tc_fence c) = Some st ∧ inv (Hold (operation_of (tc_fence c)) (Some (scaleInMetadataDone st)) :: hs) e q l
    ∧ tc_businessOperationId c = operation_of (tc_fence c) ∧ fence_ok (tc_fence c)
    ∧ (tc_status c = Ok tt → evidence (tc_fence c) (tc_preparedCleanup c) (scaleInMetadataDone st) l).
Proof.
  intros []. destruct i_stages0 as (Hh & Hw & Hq). destruct (Hq c) as (Eid & Hf & b & Hb & Hev); [by left|].
  assert (all_ops hs e (c :: q) ≡ₚ operation_of (tc_fence c) :: all_ops hs e q) as Hp.
  { unfold all_ops, queue_ops. rewrite fmap_cons -Eid. rewrite app_assoc -Permutation_middle. by rewrite -app_assoc. }
  assert (operation_of (tc_fence c) ∈ all_ops hs e (c :: q)) as Hin by (rewrite Hp; by left).
  destruct (proj1 (i_tokens0 _) Hin) as (st & Hst & Htok). exists st. rewrite (Hb st Hst). split_and!; try done.
  constructor; try done.
  - change (NoDup (operation_of (tc_fence c) :: all_ops hs e q)). by rewrite -Hp.
  - intros op. change (op ∈ operation_of (tc_fence c) :: all_ops hs e q ↔ in_flight (operations_ e) op). by rewrite -Hp.
  - split_and!; [|done|intros c' ?; apply Hq; by right]. intros op b' [E|E]%elem_of_cons st' Hst'; [|by eapply Hh]. injection E as -> ->. by apply Hb.
  - rewrite i_count0. by rewrite Hp.
Qed.

(** Reading the stage of one's operation. *)
Lemma inv_know op k hs e q l : inv (Hold op k :: hs) e q l → inv (Hold op (Some (IsScaleInDataDrainReady op e)) :: hs) e q l.
Proof.
  intros []. constructor; try done. apply stages_weaken in i_stages0. destruct i_stages0 as (Hh & ? & ?). split_and!; try done.
  intros op' b [Hb|Hb]%elem_of_cons st Hst; [|by eapply Hh]. injection Hb as -> ->. unfold IsScaleInDataDrainReady. by rewrite Hst.
Qed.

Lemma inv_restart hs e q l : restartBatchInFlight_ e = false → inv hs e q l → inv (Restart :: hs) (set_restart_in_flight true e) q l.
Proof.
  intros Er []. rewrite Er in i_restart0. constructor; try done.
  - destruct i_stages0 as (Hh & ? & ?). split_and!; try done. intros op b [?|?]%elem_of_cons; [done|]. by eapply Hh.
  - change (S (restarts hs + restart_works (poolWork_ e)) = 1)%nat. lia.
Qed.

Lemma inv_restart_done hs e q l : inv (Restart :: hs) e q l → inv hs (set_restart_in_flight false e) q l.
Proof.
  intros []. constructor; try done.
  - destruct i_stages0 as (Hh & ? & ?). split_and!; try done. intros op b ?. eapply Hh. by right.
  - change (S (restarts hs + restart_works (poolWork_ e)) = if restartBatchInFlight_ e then 1 else 0)%nat in i_restart0.
    change (restarts hs + restart_works (poolWork_ e) = 0)%nat. destruct (restartBatchInFlight_ e); lia.
Qed.

(** *** The sections *)
Lemma inv_schedule hs e q l op t : inv hs e q l → inv hs (ScheduleOperationLocked op t e) q l.
Proof. intros Hi. eapply (inv_same _ (update op (os_with_next t) e)); [done|]. apply inv_update; [done|]. intros st _. split_and!; [done|by left|done]. Qed.

Lemma inv_clear_schedule hs e q l op : inv hs e q l → inv hs (ClearOperationScheduleLocked op e) q l.
Proof. intros Hi. eapply (inv_same _ (update op (os_with_next 0) e)); [done|]. apply inv_update; [done|]. intros st _. split_and!; [done|by left|done]. Qed.

Lemma inv_attempts hs e q l op : inv hs e q l → inv hs (update op (λ st, os_with_attempts (u32 (attempts st + 1)) st) e) q l.
Proof. intros Hi. apply inv_update; [done|]. intros st _. split_and!; [done|by left|done]. Qed.

Lemma inv_retry hs e q l phase op now random : inv hs e q l → inv hs (ScheduleRetryLocked options_ phase op now random e).1 q l.
Proof. intros Hi. unfold ScheduleRetryLocked. destruct (operations_ e !! op); [|done]. destruct (_ && _); [done|]. by apply inv_schedule. Qed.

Lemma retry_in_flight phase op now random e op' :
  in_flight (operations_ (ScheduleRetryLocked options_ phase op now random e).1) op' → in_flight (operations_ e) op'.
Proof.
  unfold ScheduleRetryLocked. destruct (operations_ e !! op) eqn:E; [|done]. destruct (_ && _); [done|]. cbn. intros (st & Hst & Ht).
  destruct (decide (op' = op)) as [->|]; [rewrite lookup_alter_eq E in Hst; injection Hst as <-|rewrite lookup_alter_ne // in Hst]; by eexists.
Qed.

(** An operation that nobody holds is rescheduled or forgotten. *)
Lemma inv_retry_or_erase hs e q l phase op now random (retry : bool) :
  inv hs e q l → ¬ in_flight (operations_ e) op →
  inv hs (let '(e, scheduled) := if retry then ScheduleRetryLocked options_ phase op now random e else (e, false) in
          if scheduled then e else (EraseOperationLocked op e).1) q l.
Proof.
  intros Hi Hn. destruct retry; [|by apply inv_erase]. pose proof (inv_retry _ _ _ _ phase op now random Hi) as Hr.
  pose proof (retry_in_flight phase op now random e op) as Hf. destruct (ScheduleRetryLocked _ _ _ _ _ _) as [e' [|]]; [done|]. apply inv_erase; [done|tauto].
Qed.

Lemma inv_enqueue_failed F e q l phase op k now random :
  inv (Hold op k :: Body :: F) e q l → inv F (enqueue_failed options_ phase op now random e) q l.
Proof.
  intros Hi. assert (inv (Hold op k :: F) (add_bodies (-1) e) q l) as H1. { apply inv_body_done. by rewrite Permutation_swap. }
  destruct (inv_release _ _ _ _ _ _ H1) as [H2 Hn].
  unfold enqueue_failed. apply (inv_retry_or_erase _ _ q l phase op now random true).
  - eapply inv_same; [|exact H2]. unfold ReleaseInFlightLocked. cbn. destruct (operations_ e !! op) as [st|]; [destruct (cancellation st)|]; done.
  - intros Hf. apply Hn. revert Hf. unfold ReleaseInFlightLocked. cbn. destruct (operations_ e !! op) as [st|]; [destruct (cancellation st)|]; done.
Qed.

(** What [BuildExecutionFence] returns is determined by the task, the batch and the identities. *)
Lemma BuildExecutionFence_spec task phase snap fence :
  BuildExecutionFence HashSHA256 localAddress_ task phase snap = Ok fence →
  ∃ b executor other, GetActiveBatch snap = Some b ∧ epoch_of task = epoch b ∧ FindMemberByAddress snap (executor_of task) = Ok executor
    ∧ FindMemberByAddress snap (other_of task) = Ok other ∧ state executor ≠ INITIAL ∧ state other ≠ INITIAL
    ∧ fence = (match task with
               | Migrate _ => MkExecFence (id_of task) (kind_of task) (type_of task) (epoch_of task) phase (identity executor)
                                (Some (identity executor)) (Some (identity other)) None (UnfinishedRanges task)
               | Remove _ => MkExecFence (id_of task) (kind_of task) (type_of task) (epoch_of task) phase (identity executor)
                               None None (Some (identity other)) (UnfinishedRanges task)
               end).
Proof.
  unfold BuildExecutionFence. destruct (GetActiveBatch snap) as [b|]; [|done]. destruct (negb _); [|done]. destruct (_ && _) eqn:E; [|done].
  apply andb_true_iff in E as [_ Ee%Z.eqb_eq]. destruct (FindMemberByAddress snap (executor_of task)) as [ex|] eqn:Eex; [|done]. cbn. destruct (bool_decide _); [|done].
  destruct task as [t|t]; cbn;
    [destruct (FindMemberByAddress snap (mt_targetAddress t)) as [other|] eqn:Eo|destruct (FindMemberByAddress snap (dt_failedAddress t)) as [other|] eqn:Eo]; try done; cbn.
  - destruct (bool_decide (mt_type t = btype b)) eqn:Et; [apply bool_decide_eq_true in Et|done].
    destruct (bool_decide (mt_type t = SCALE_OUT)); (destruct (_ && _) eqn:E; [|done]); rewrite !andb_true_iff !bool_decide_eq_true in E; destruct E as [[_ Hx] Ho]; cbn; intros [= <-];
      exists b, ex, other; rewrite -Et; split_and!; try done; intros Hi; rewrite Hi in Hx Ho; done.
  - destruct (_ && _) eqn:E; [|done]. rewrite !andb_true_iff !bool_decide_eq_true in E. destruct E as [[[_ Et] Hx] Ho]. cbn. intros [= <-]. exists b, ex, other. rewrite Et Hx Ho. by split_and!.
Qed.

Lemma BuildExecutionFence_phase task phase snap fence : BuildExecutionFence HashSHA256 localAddress_ task phase snap = Ok fence → ef_phase fence = phase.
Proof. intros (b & x & o & _ & _ & _ & _ & _ & _ & ->)%BuildExecutionFence_spec. by destruct task. Qed.

(** A task that is (again) submitted for its operation. *)
Lemma inv_emplace hs e q l task fence snap gate :
  published snap → BuildExecutionFence HashSHA256 localAddress_ task (TaskPhase task) snap = Ok fence →
  inv hs e q l → ¬ in_flight (operations_ e) (operation_of fence) → inv hs (emplace task (operation_of fence) gate e) q l.
Proof.
  intros Hpub Hb Hi Hn. set (op := operation_of fence).
  assert (∀ st, op_ok l op st → op_ok l op (os_with_task task st)) as Hok.
  { intros st (_ & H1 & H2). split_and!; [by exists snap, fence|done..]. }
  apply (inv_set hs e q l op (Some _)); [done..|]. intros st [= <-]. destruct (operations_ e !! op) as [st0|] eqn:E; cbn.
  - assert (cancellation st0 = None) as Ec. { destruct (cancellation st0) eqn:Ec; [|done]. destruct Hn. exists st0. by rewrite Ec. }
    pose proof (Hok _ (i_ops _ _ _ _ Hi _ _ E)). by destruct (bool_decide _).
  - assert (op_ok l op (new_operation task)) as Hnew by (split_and!; [by exists snap, fence|done..]). by destruct (bool_decide _).
Qed.

Lemma inv_admit_callback quiet hs0 e q l task fence snap allow now later random :
  let hs := Turn quiet :: hs0 in
  published snap → BuildExecutionFence HashSHA256 localAddress_ task (TaskPhase task) snap = Ok fence →
  inv hs e q l → operation_of fence ∉ quiet →
  match AdmitCallbackLocked options_ task fence (operation_of fence) allow now later random e with
  | (e', Ok (Some _)) => inv (Hold (operation_of fence) None :: Body :: hs) e' q l
  | (e', _) => inv hs e' q l
  end.
Proof.
  intros hs Hpub Hb Hi Hq. unfold AdmitCallbackLocked. destruct (negb _); [done|]. remember (operation_of fence) as op eqn:Eop.
  destruct (match operations_ e !! op with Some st => _ | None => _ end) eqn:Etok; [done|].
  assert (¬ in_flight (operations_ e) op) as Hn. { intros (st & Hst & Ht). rewrite Hst in Etok. by apply bool_decide_eq_false in Etok. }
  destruct (if bool_decide _ then _ else _) as [gate|c]; [|done].
  assert (inv hs (emplace task op gate e) q l ∧ ∃ st, operations_ (emplace task op gate e) !! op = Some st ∧ cancellation st = None) as [He (st & Hst & Hc)].
  { split; [subst op; by eapply inv_emplace|]. cbn. rewrite lookup_insert_eq. eexists. split; [done|].
    assert (cancellation (default (new_operation task) (operations_ e !! op)) = None) as Hd.
    { destruct (operations_ e !! op) as [st|] eqn:E; [|done]. cbn. destruct (cancellation st) eqn:Ec; [|done]. destruct Hn. exists st. by rewrite Ec. }
    by destruct (bool_decide _). }
  remember (emplace task op gate e) as e1 eqn:E1. clear Hi E1 Etok Hn.
  assert (∃ e2 rc, ValidateCallbackWindowLocked options_ fence now e1 = (e2, rc) ∧ same_core e1 e2) as (e2 & rc & -> & Hcore).
  { unfold ValidateCallbackWindowLocked. destruct (bool_decide _); eexists _, _; by split. }
  pose proof (inv_same _ _ _ _ _ Hcore He) as H2. destruct rc as [_|c].
  - assert (operations_ e2 = operations_ e1) as Eo by apply Hcore. rewrite Eo Hst. change (default (new_operation task) (Some st)) with st.
    destruct (progressReady st); [by apply inv_schedule|]. destruct (_ && _); [by apply inv_schedule|]. destruct (Z.ltb_spec (inFlightOperations_ e2) (callbackThreads options_ + callbackQueueCapacity options_)); [|done].
    pose proof (inv_begin_callback quiet hs0 e2 q l fence op gate allow st H2 Hq) as Hbegin. rewrite Eo in Hbegin. specialize (Hbegin Hst Hc H).
    destruct (begin_callback fence op gate allow e2) as [e3 tok]. done.
  - pose proof (inv_retry _ _ _ _ (ef_phase fence) op later random (inv_attempts _ _ _ _ op H2)) as H3.
    destruct (ScheduleRetryLocked _ _ _ _ _ _) as [e3 [|]]; [done|]. by apply inv_clear_schedule.
Qed.

Lemma fence_built task snap fence : published snap → BuildExecutionFence HashSHA256 localAddress_ task (TaskPhase task) snap = Ok fence → fence_ok fence.
Proof.
  intros Hp Hb. split; [by exists task, snap|]. rewrite (BuildExecutionFence_phase _ _ _ _ Hb). apply BuildExecutionFence_spec in Hb as (b & x & o & _ & _ & _ & _ & _ & _ & ->).
  destruct task as [t|t]; cbn; [|done]. split; [by destruct (bool_decide _)|by eexists].
Qed.

Lemma inv_submit_callback quiet hs0 e q l task fence snap allow now later random accepted :
  let hs := Turn quiet :: hs0 in
  published snap → BuildExecutionFence HashSHA256 localAddress_ task (TaskPhase task) snap = Ok fence →
  inv hs e q l → operation_of fence ∉ quiet →
  inv hs (SubmitCallback_locked options_ task fence (operation_of fence) allow now later random accepted e).1 q l.
Proof.
  intros hs Hpub Hb Hi Hq. pose proof (inv_admit_callback quiet hs0 e q l task fence snap allow now later random Hpub Hb Hi Hq) as Ha.
  unfold SubmitCallback_locked. destruct (AdmitCallbackLocked _ _ _ _ _ _ _ _ _) as [e' [[tok|]|c]]; [|done..]. destruct accepted; cbn.
  - apply inv_push; [done|]. split; [done|]. by eapply fence_built.
  - by eapply inv_enqueue_failed.
Qed.

Lemma inv_refresh hs e q l epoch : inv hs e q l → inv hs (RefreshNotifyEpochLocked epoch e).1 q l.
Proof.
  intros Hi. unfold RefreshNotifyEpochLocked. destruct (_ && _); [|by eapply inv_same; [|exact Hi]].
  assert (inv hs (cancel_all e) q l) as Hc by (by eapply inv_same; [|exact Hi]). remember (cancel_all e) as e1 eqn:E1.
  destruct (Z.eqb_spec (inFlightOperations_ e1) 0) as [E0|]; [|done].
  assert (all_ops hs e1 q = []) as Hnil. { rewrite (i_count _ _ _ _ Hc) in E0. destruct (all_ops hs e1 q); [done|]. cbn in E0. lia. }
  apply (inv_operations hs e1); try done; cbn; intros op st; rewrite ?Hnil; [by intros ?%elem_of_nil|by rewrite lookup_empty..].
Qed.

Lemma inv_restart_facts hs e q l facts accepted : inv hs e q l → inv hs (HandleRestartFacts_locked facts accepted e).1 q l.
Proof.
  intros Hi. unfold HandleRestartFacts_locked. destruct (negb _); [done|]. set (e1 := set_restarts _ e). assert (inv hs e1 q l) as H1 by (by eapply inv_same; [|exact Hi]).
  destruct (restartBatchInFlight_ e1) eqn:Er; [done|]. destruct (bool_decide _); [done|].
  pose proof (inv_body _ _ _ _ (inv_restart _ _ _ _ Er H1)) as H2. destruct accepted; cbn [fst].
  - apply inv_push; [|done]. cbn. by rewrite Permutation_swap.
  - apply inv_body_done. apply inv_restart_done. rewrite Permutation_swap. done.
Qed.

Lemma inv_finish_restart F e q l facts status : inv (Restart :: Body :: F) e q l → inv F (FinishRestartEffects facts status e) q l.
Proof.
  intros Hi. unfold FinishRestartEffects. apply inv_body_done, inv_restart_done. destruct (is_ok status); [|done]. by eapply inv_same; [|exact Hi].
Qed.

Lemma not_in_flight_update op g e op' :
  (∀ st, cancellation (g st) = cancellation st) → in_flight (operations_ (update op g e)) op' → in_flight (operations_ e) op'.
Proof.
  intros Hg (st & Hst & Ht). cbn in Hst. destruct (decide (op' = op)) as [->|]; [|rewrite lookup_alter_ne // in Hst; by eexists].
  rewrite lookup_alter_eq in Hst. destruct (operations_ e !! op) as [st0|] eqn:E; [|done]. injection Hst as <-. rewrite Hg in Ht. by exists st0.
Qed.

(** What makes an operation ready to be marked finished. *)
Lemma inv_progress_ready hs e q l op g :
  (∀ st, cancellation (g st) = cancellation st ∧ scaleInMetadataDone (g st) = scaleInMetadataDone st ∧ os_task (g st) = os_task st) →
  earned op l → inv hs e q l → inv hs (update op g e) q l.
Proof.
  intros Hg Hd Hi. apply inv_update; [done|]. intros st Hst. destruct (Hg st) as (E1 & E2 & E3). split_and!; [done|by left|].
  intros (H1 & H2 & _). unfold op_ok. rewrite E2 E3. by split_and!.
Qed.

Lemma inv_finish_body F e q l fence k callbackStatus submitStatus now random :
  fence_ok fence →
  inv (if is_ok submitStatus then Body :: F else Hold (operation_of fence) k :: Body :: F) e q l →
  inv F (FinishCallbackBody options_ (ef_phase fence) (operation_of fence) callbackStatus submitStatus now random e) q l.
Proof.
  intros Hfok Hi. unfold FinishCallbackBody. pose proof (earned_intro fence l Hfok) as Hearn. remember (operation_of fence) as op eqn:Eop. destruct submitStatus as [[]|code]; cbn [is_ok] in Hi; [by apply inv_body_done|].
  rewrite Permutation_swap in Hi. apply inv_body_done in Hi. destruct (inv_release _ _ _ _ _ _ Hi) as [H1 Hn].
  remember (ReleaseInFlightLocked op (add_bodies (-1) e)).1 as e1 eqn:E1. clear E1 Hi.
  set (e2 := diag _ e1). assert (inv F e2 q l) as H2 by (by eapply inv_same; [|exact H1]).
  set (e3 := if bool_decide (ef_phase fence = PHASE_FAILURE) then _ else e2).
  assert (inv F e3 q l ∧ ¬ in_flight (operations_ e3) op) as [H3 Hn3].
  { subst e3. case_bool_decide as Ep; [|done]. split.
    - apply inv_progress_ready; [intros st; by destruct (is_ok callbackStatus)|apply Hearn; by rewrite Ep|done].
    - intros Hf%not_in_flight_update; [done|]. intros st. by destruct (is_ok callbackStatus). }
  by apply inv_retry_or_erase.
Qed.

Lemma inv_cleanup_apply F e q l fence deadline cleanup accepted :
  inv (Hold (operation_of fence) (Some true) :: F) e q l → fence_ok fence → ef_phase fence = PHASE_SCALE_IN →
  (drain_chain (operation_of fence) ++ [EAuthorize (operation_of fence) (Ok tt)]) `sublist_of` l →
  match SubmitCleanupApply_locked fence (operation_of fence) deadline cleanup accepted e with
  | (e', Ok _) => inv F e' q l
  | (e', Fail _) => inv (Hold (operation_of fence) (Some true) :: F) e' q l
  end.
Proof.
  intros Hi Hf Hp Hl. unfold SubmitCleanupApply_locked. destruct (negb _); [done|]. destruct (_ ≫= _) as [tok|]; [|done].
  apply inv_body in Hi. destruct accepted; [|by apply inv_body_done].
  apply inv_push; [cbn [holders_of app]; by rewrite Permutation_swap|]. split_and!; try done. rewrite Permutation_swap in Hi. destruct (i_stages _ _ _ _ Hi) as (Hh & _). apply Hh. by left.
Qed.

(** An operation in hand is released and rescheduled, or forgotten; [quiet] operations are in nobody's hands. *)
Lemma inv_complete_failure F e q l phase op k code progressFailure now random :
  inv (Hold op k :: F) e q l → inv F (CompleteFailure_locked options_ phase op code progressFailure now random e).1 q l.
Proof.
  intros Hi. destruct (inv_release _ _ _ _ _ _ Hi) as [H1 Hn]. unfold CompleteFailure_locked. remember (ReleaseInFlightLocked op e).1 as e1 eqn:E1. clear E1 Hi.
  set (e2 := diag _ e1). assert (inv F e2 q l) as H2 by (by eapply inv_same; [|exact H1]).
  pose proof (inv_retry_or_erase F e2 q l phase op now random (progressFailure || (negb (bool_decide (phase = PHASE_FAILURE)) && IsOrdinaryRetryable code)) H2 Hn) as H3.
  destruct (if (_ || _) then _ else _) as [e3 r]. done.
Qed.

Lemma inv_complete_failure_idle hs e q l phase op code progressFailure now random :
  inv hs e q l → ¬ in_flight (operations_ e) op → inv hs (CompleteFailure_locked options_ phase op code progressFailure now random e).1 q l.
Proof.
  intros Hi Hn. unfold CompleteFailure_locked. rewrite release_idle // /=. set (e2 := diag _ e). assert (inv hs e2 q l) as H2 by (by eapply inv_same; [|exact Hi]).
  pose proof (inv_retry_or_erase hs e2 q l phase op now random (progressFailure || (negb (bool_decide (phase = PHASE_FAILURE)) && IsOrdinaryRetryable code)) H2 Hn) as H3.
  destruct (if (_ || _) then _ else _) as [e3 r]. done.
Qed.

Lemma inv_progress_begin hs e q l phase op status :
  earned op l → inv hs e q l → inv hs (progress_begin phase op status e).1 q l.
Proof.
  intros Hd Hi. unfold progress_begin. destruct (operations_ e !! op) as [st0|] eqn:E; [|done]. cbn.
  assert (inv hs (update op os_progress_ready e) q l) as H1. { by apply inv_progress_ready. }
  destruct status; [done|]. destruct (bool_decide _); [|done].
  eapply (inv_same _ (update op os_best_effort (update op os_progress_ready e))); [done|]. apply inv_update; [done|]. intros st _. split_and!; [done|by left|done].
Qed.

Lemma inv_metadata_end F e q l gate op k now later :
  inv (Hold op k :: F) e q l → metadata_chain op `sublist_of` l → inv F (metadata_end options_ gate op now later e) q l.
Proof.
  intros Hi Hl. destruct (inv_release _ _ _ _ _ _ Hi) as [H1 Hn]. destruct (proj1 (i_tokens _ _ _ _ Hi op)) as (st & Hst & _); [by left|].
  unfold metadata_end. rewrite Hst. remember (ReleaseInFlightLocked op e).1 as e1 eqn:E1. clear E1 Hi Hst st.
  set (e2 := update op _ e1). assert (inv F e2 q l) as H2.
  { apply inv_update; [done|]. intros st Hst. split_and!; [done|right; by eapply not_in_flight|]. intros (? & _ & ?). by split_and!. }
  assert (inv F (erase_pending gate op e2) q l) as H3. { eapply inv_same; [|exact H2]. unfold erase_pending. by destruct (_ !! gate). }
  match goal with |- inv F (diag _ (if ?b then _ else _)) q l => destruct b end.
  - pose proof (inv_schedule F _ q l op now H3) as H4. remember (ScheduleOperationLocked op now (erase_pending gate op e2)) as e4 eqn:E4. clear E4.
    eapply (inv_same _ (ScheduleScaleInDataDrainReadyLocked gate later e4)); [done|]. apply (inv_operations F e4); try done; cbn.
    + intros op' st Hin Hst. rewrite lookup_fmap Hst /=. eexists. split; [done|]. destruct (proj1 (i_tokens _ _ _ _ H4 op') Hin) as (? & ? & ?).
      destruct (drains gate st); cbn; naive_solver.
    + intros op' st' Hout. rewrite lookup_fmap. destruct (operations_ e4 !! op') as [st|] eqn:E; [|done]. intros [= <-].
      assert (cancellation st = None) as Ec. { destruct (cancellation st) eqn:Ec; [|done]. destruct Hout. apply (i_tokens _ _ _ _ H4). exists st. by rewrite Ec. }
      by destruct (drains gate st).
    + intros op' st'. rewrite lookup_fmap. destruct (operations_ e4 !! op') as [st|] eqn:E; [|done]. intros [= <-]. pose proof (i_ops _ _ _ _ H4 _ _ E). by destruct (drains gate st).
  - by eapply (inv_same _ _), inv_schedule.
Qed.

Lemma inv_preserve hs e q l op task code now :
  inv hs e q l → ¬ in_flight (operations_ e) op → (∀ st, operations_ e !! op = Some st → op_ok l op (os_with_task task st)) →
  inv hs (PreserveDueOperation options_ op task code now e) q l.
Proof.
  intros Hi Hn Hok. unfold PreserveDueOperation. destruct (operations_ e !! op) as [st|] eqn:E; [|done]. destruct (stopping_ e); [done|].
  set (e1 := diag _ e). assert (inv hs e1 q l) as H1 by (by eapply inv_same; [|exact Hi]). destruct (bool_decide _).
  - eapply inv_same; [|by apply (inv_erase hs e1 q l op)]. done.
  - apply inv_schedule. apply inv_update; [done|]. intros st' Hst'. change (operations_ e !! op = Some st') in Hst'. rewrite E in Hst'. injection Hst' as <-.
    split_and!; [done|by left|]. intros _. by apply Hok.
Qed.

(** *** Sections and the life of the executor: none but the last of [Stop] ends it, and a stopped executor stays empty. *)
Definition frame (e e' : executor) : Prop :=
  started_ e' = started_ e ∧ (started_ e = false → operations_ e = ∅ → operations_ e' = ∅ ∧ poolWork_ e' = poolWork_ e).

Lemma release_started op e : started_ (ReleaseInFlightLocked op e).1 = started_ e.
Proof. unfold ReleaseInFlightLocked. destruct (operations_ e !! op) as [st|]; [destruct (cancellation st)|]; done. Qed.
Lemma erase_started op e : started_ (EraseOperationLocked op e).1 = started_ e.
Proof.
  unfold EraseOperationLocked, erase_pending. destruct (operations_ e !! op) as [st|]; [|done]. set (e1 := if bool_decide _ then e else _).
  pose proof (release_started op e1) as Hr. destruct (ReleaseInFlightLocked op e1) as [e2 r]. cbn in *. rewrite Hr. subst e1. destruct (bool_decide _); [done|]. by destruct (_ !! _).
Qed.
Lemma retry_started phase op now random e : started_ (ScheduleRetryLocked options_ phase op now random e).1 = started_ e.
Proof. unfold ScheduleRetryLocked. destruct (operations_ e !! op); [destruct (_ && _)|]; done. Qed.

Lemma idle_release op e : operations_ e = ∅ → ReleaseInFlightLocked op e = (e, false).
Proof. intros E. unfold ReleaseInFlightLocked. by rewrite E lookup_empty. Qed.
Lemma idle_erase op e : operations_ e = ∅ → EraseOperationLocked op e = (e, false).
Proof. intros E. unfold EraseOperationLocked. by rewrite E lookup_empty. Qed.
Lemma idle_retry phase op now random e : operations_ e = ∅ → ScheduleRetryLocked options_ phase op now random e = (e, false).
Proof. intros E. unfold ScheduleRetryLocked. by rewrite E lookup_empty. Qed.
Lemma idle_update op g e : operations_ e = ∅ → operations_ (update op g e) = ∅.
Proof. intros E. cbn. rewrite E. apply map_eq. intros i. destruct (decide (i = op)) as [->|]; [rewrite lookup_alter_eq|rewrite lookup_alter_ne //]; by rewrite lookup_empty. Qed.

Lemma retry_or_erase_frame (retry : bool) phase op now random e :
  frame e (let '(e, scheduled) := if retry then ScheduleRetryLocked options_ phase op now random e else (e, false) in
           if scheduled then e else (EraseOperationLocked op e).1).
Proof.
  split.
  - destruct retry; [|apply erase_started]. pose proof (retry_started phase op now random e) as Hr. destruct (ScheduleRetryLocked _ _ _ _ _ _) as [e' [|]]; [done|].
    rewrite erase_started. exact Hr.
  - intros _ E. destruct retry; [rewrite idle_retry //|]; by rewrite idle_erase.
Qed.

Lemma frame_trans e e' e'' : frame e e' → frame e' e'' → frame e e''.
Proof.
  intros [E1 H1] [E2 H2]. split; [congruence|]. intros Hs E. destruct (H1 Hs E) as [E3 E4]. destruct (H2 ltac:(congruence) E3) as [E5 E6]. split; congruence.
Qed.

Lemma finish_body_frame phase op cb sub now random e : frame e (FinishCallbackBody options_ phase op cb sub now random e).
Proof.
  unfold FinishCallbackBody. destruct sub as [|code]; [done|]. eapply frame_trans; [|apply retry_or_erase_frame].
  split; [destruct (bool_decide _); cbn; rewrite release_started //|]. intros _ E. rewrite idle_release //. destruct (bool_decide _); [|done]. split; [by apply idle_update|done].
Qed.

Lemma admit_callback_frame task fence op allow now later random e : frame e (AdmitCallbackLocked options_ task fence op allow now later random e).1.
Proof.
  unfold AdmitCallbackLocked. destruct (started_ e) eqn:Es; cbn [andb]; [|done]. split; [|by rewrite Es].
  destruct (negb (negb _)); [done|]. destruct (match operations_ e !! op with Some st => _ | None => _ end); [done|].
  destruct (if bool_decide _ then _ else _) as [gate|c]; [|done].
  assert (∃ e2 rc, ValidateCallbackWindowLocked options_ fence now (emplace task op gate e) = (e2, rc) ∧ started_ e2 = started_ e) as (e2 & rc & -> & E2).
  { unfold ValidateCallbackWindowLocked. destruct (bool_decide _); eexists _, _; by split. }
  destruct rc as [_|c].
  - destruct (progressReady _); [exact E2|]. destruct (_ && _); [exact E2|]. destruct (_ <? _); [|exact E2].
    unfold begin_callback. destruct (_ && _); exact E2.
  - set (e3 := update op _ e2). pose proof (retry_started (ef_phase fence) op later random e3) as Hr. destruct (ScheduleRetryLocked _ _ _ _ _ _) as [e4 [|]]; cbn in *; by rewrite Hr.
Qed.

Lemma submit_callback_frame task fence op allow now later random accepted e :
  frame e (SubmitCallback_locked options_ task fence op allow now later random accepted e).1.
Proof.
  unfold SubmitCallback_locked. pose proof (admit_callback_frame task fence op allow now later random e) as Hf.
  destruct (started_ e) eqn:Es; [|by unfold AdmitCallbackLocked; rewrite Es]. destruct (AdmitCallbackLocked _ _ _ _ _ _ _ _ _) as [e' [[tok|]|c]]; [|done..].
  destruct accepted; cbn [fst] in *; [destruct Hf; split; [done|by rewrite Es]|]. eapply frame_trans; [exact Hf|]. unfold enqueue_failed. eapply frame_trans; [|apply (retry_or_erase_frame true)].
  split; [cbn; by rewrite release_started|]. intros _ E. by rewrite idle_release.
Qed.

Lemma refresh_frame epoch e : frame e (RefreshNotifyEpochLocked epoch e).1.
Proof. unfold RefreshNotifyEpochLocked. destruct (_ && _); [destruct (_ =? _)|]; done. Qed.

Lemma restart_facts_frame facts accepted e : frame e (HandleRestartFacts_locked facts accepted e).1.
Proof. unfold HandleRestartFacts_locked. destruct (started_ e) eqn:Es; [|done]. split; [repeat (case_match; try done)|by rewrite Es]. Qed.

Lemma finish_restart_frame facts status e : frame e (FinishRestartEffects facts status e).
Proof. unfold FinishRestartEffects. by destruct (is_ok status). Qed.

Lemma cleanup_apply_frame fence op deadline cleanup accepted e : frame e (SubmitCleanupApply_locked fence op deadline cleanup accepted e).1.
Proof. unfold SubmitCleanupApply_locked. destruct (started_ e) eqn:Es; [|done]. split; [repeat (case_match; try done)|by rewrite Es]. Qed.

Lemma complete_failure_frame phase op code progressFailure now random e : frame e (CompleteFailure_locked options_ phase op code progressFailure now random e).1.
Proof.
  unfold CompleteFailure_locked. set (e1 := diag _ _). assert (frame e e1) as H1. { split; [cbn; by rewrite release_started|]. intros _ E. subst e1. by rewrite idle_release. }
  pose proof (retry_or_erase_frame (progressFailure || (negb (bool_decide (phase = PHASE_FAILURE)) && IsOrdinaryRetryable code)) phase op now random e1) as H2.
  destruct (if (_ || _) then _ else _) as [e2 r]. by eapply frame_trans.
Qed.

Lemma erase_frame op e : frame e (EraseOperationLocked op e).1.
Proof. split; [apply erase_started|]. intros _ E. by rewrite idle_erase. Qed.

Lemma progress_begin_frame phase op status e : frame e (progress_begin phase op status e).1.
Proof.
  unfold progress_begin. destruct (operations_ e !! op) eqn:E; [|done]. split; [destruct status; [|destruct (bool_decide _)]; done|]. intros _ E0. by rewrite E0 lookup_empty in E.
Qed.

Lemma metadata_end_frame gate op now later e : frame e (metadata_end options_ gate op now later e).
Proof.
  unfold metadata_end. destruct (operations_ e !! op) eqn:E; [|done]. split; [|intros _ E0; by rewrite E0 lookup_empty in E].
  match goal with |- started_ (diag _ (if ?b then _ else _)) = _ => destruct b end; cbn; unfold erase_pending; destruct (_ !! gate); cbn; by rewrite release_started.
Qed.

Lemma preserve_frame op task code now e : frame e (PreserveDueOperation options_ op task code now e).
Proof.
  unfold PreserveDueOperation. destruct (operations_ e !! op) eqn:E; [|done]. split; [|intros _ E0; by rewrite E0 lookup_empty in E].
  destruct (stopping_ e); [done|]. destruct (bool_decide _); [|done]. cbn. by rewrite erase_started.
Qed.

(** *** Programs that respect the invariant *)

(** The calls that must not be made too early. *)
Definition call_ok (c : call) (L : list event) : Prop :=
  match c with
  | CMarkTaskScopeFinished op fence => op = operation_of fence ∧ earned op L
  | CRecordHandoff op fence =>
    op = operation_of fence ∧ earned op L ∧ ∃ outcome, EFinished op fence outcome (Ok tt) ∈ L ∧ (outcome = UPDATED ∨ outcome = ALREADY_FINISHED)
  | _ => True
  end.

Definition answer_ok (c : call) : answer c → Prop :=
  match c with CLoad => λ loaded, ∀ snap, loaded = Ok snap → published snap | _ => λ _, True end.

(** A thread that holds [own] and has seen [L]: whatever the others hold, its next step keeps the invariant, and so on. *)
Fixpoint safe {A} (p : prog A) (own : list holder) (L : list event) (Q : A → list holder → list event → Prop) : Prop :=
  match p with
  | Ret a => Q a own L
  | Atomic f k => ∀ e q l F, L `sublist_of` l → J (own ++ F) e q l → ∃ own', J (own' ++ F) (f e) q l ∧ safe (k e) own' l Q
  | Call c k =>
    call_ok c L
    ∧ ∀ a, answer_ok c a → ∃ own',
        (∀ e q l F, L `sublist_of` l → J (own ++ F) e q l → J (own' ++ F) e (effect c a q) (l ++ log_of c a))
        ∧ safe (k a) own' (L ++ log_of c a) Q
  end.

Lemma safe_bind {A B} (p : prog A) (k : A → prog B) own L Q :
  safe p own L (λ a own L, safe (k a) own L Q) → safe (prog_bind k p) own L Q.
Proof.
  revert own L. induction p as [a|f k' IH|c k' IH]; intros own L; cbn; [done|..].
  - intros H e q l F Hl HJ. destruct (H e q l F Hl HJ) as (own' & ? & ?). exists own'. split; [done|]. by apply IH.
  - intros [Hc H]. split; [done|]. intros a Ha. destruct (H a Ha) as (own' & ? & ?). exists own'. split; [done|]. by apply IH.
Qed.

Lemma safe_weaken {A} (p : prog A) own L (Q Q' : A → list holder → list event → Prop) :
  safe p own L Q → (∀ a own' L', Q a own' L' → Q' a own' L') → safe p own L Q'.
Proof.
  intros H HQ. revert own L H. induction p as [a|f k' IH|c k' IH]; intros own L; cbn; [apply HQ|..].
  - intros H e q l F Hl HJ. destruct (H e q l F Hl HJ) as (own' & ? & ?). exists own'. split; [done|]. by apply IH.
  - intros [Hc H]. split; [done|]. intros a Ha. destruct (H a Ha) as (own' & ? & ?). exists own'. split; [done|]. by apply IH.
Qed.

Lemma stages_stopped hs hs' ops ws q l : stages hs ops ws q l → stages hs' ∅ ws q l.
Proof.
  intros (_ & Hw & Hq). split; [done|]. split.
  - intros w Hin. specialize (Hw w Hin). destruct w; cbn in *; try done. destruct Hw as (? & ? & ? & ? & ?). by split_and!.
  - intros c Hin. destruct (Hq c Hin) as (? & ? & b & _ & ?). split_and!; try done. by exists b.
Qed.

Lemma stages_log hs ops ws q l l' : stages hs ops ws q l → l `sublist_of` l' → stages hs ops ws q l'.
Proof. intros (? & ? & ?) Hl. split_and!; [done|..]; eauto using work_ok_mono, completion_ok_mono. Qed.

Lemma J_log hs e q l x : J hs e q l → J hs e q (l ++ x).
Proof.
  unfold J. assert (l `sublist_of` (l ++ x)) by (by apply sublist_inserts_r). destruct (started_ e); [intros Hi; by eapply inv_log|]. intros [? ?]. split; [done|]. by eapply stages_log.
Qed.

(** A call that gives the dispatcher nothing. *)
Lemma safe_ask c own L (Q : answer c → list holder → list event → Prop) :
  (∀ a q, effect c a q = q) → call_ok c L → (∀ a, answer_ok c a → Q a own (L ++ log_of c a)) → safe (ask c) own L Q.
Proof.
  intros He Hc H. split; [done|]. intros a Ha. exists own. split; [|by apply H]. intros e q l F _ HJ. rewrite He. by apply J_log.
Qed.

(** A call whose answer changes nothing that is known. *)
Lemma safe_ask_silent c own L (Q : answer c → list holder → list event → Prop) :
  (∀ a q, effect c a q = q) → call_ok c L → (∀ a, log_of c a = []) → (∀ a, answer_ok c a → Q a own L) → safe (ask c) own L Q.
Proof. intros He Hc Hl H. apply safe_ask; [done..|]. intros a Ha. rewrite Hl app_nil_r. by apply H. Qed.

(** A section whose effect on what is held depends on its result. *)
Lemma safe_section {A} (f : executor → executor * A) own L (Q : A → list holder → list event → Prop) :
  (∀ e, frame e (f e).1) →
  (∀ e q l F, L `sublist_of` l → started_ e = true → inv (own ++ F) e q l → ∃ own', inv (own' ++ F) (f e).1 q l ∧ Q (f e).2 own' l) →
  (∀ e l, L `sublist_of` l → started_ e = false → operations_ e = ∅ → ∃ own', Q (f e).2 own' l) →
  safe (section f) own L Q.
Proof.
  intros Hf H1 H2 e q l F Hl HJ. destruct (Hf e) as [E1 E2]. unfold J in *. rewrite E1. destruct (started_ e) eqn:Es.
  - destruct (H1 e q l F Hl Es HJ) as (own' & ? & ?). by exists own'.
  - destruct HJ as [E0 Hst]. destruct (H2 e l Hl Es E0) as (own' & ?). exists own'. split; [|done]. destruct (E2 eq_refl E0) as [-> ->]. done.
Qed.

(** A section that leaves the invariant alone and only looks. *)
Lemma safe_reading {A} (f : executor → A) own L (Q : A → list holder → list event → Prop) :
  (∀ e q l F, L `sublist_of` l → J (own ++ F) e q l → Q (f e) own l) → safe (reading f) own L Q.
Proof. intros H e q l F Hl HJ. exists own. split; [done|]. by eapply H. Qed.

Lemma safe_modify (f : executor → executor) own own' L (Q : unit → list holder → list event → Prop) :
  (∀ e, frame e (f e)) →
  (∀ e q l F, L `sublist_of` l → inv (own ++ F) e q l → inv (own' ++ F) (f e) q l) →
  (∀ l, L `sublist_of` l → Q tt own' l) →
  safe (modify f) own L Q.
Proof.
  intros Hf H1 H2. apply safe_section; [done|..]; [intros e q l F Hl _ Hi|intros e l Hl _ _]; exists own'; [|by apply H2]. split; [by apply H1|by apply H2].
Qed.

Ltac step_bind := unfold mbind, prog_mbind; apply safe_bind.
Ltac step_ask := step_bind; apply safe_ask_silent; [done..|].

Lemma safe_validate fence own L Q : (∀ r, Q r own L) → safe (ValidateFence HashSHA256 localAddress_ fence) own L Q.
Proof.
  intros H. unfold ValidateFence. step_ask. intros [task|c] _; [|apply H]. cbn [try]. step_ask. intros [candidate|c] _; [|apply H]. cbn [try].
  destruct (BuildExecutionFence _ _ _ _ _); apply H.
Qed.

(** What a body may report: a success must be one whatever its holder knows. *)
Definition reports (fence : TopologyExecutionFence) (k : option bool) (status : res unit) (cleanup : option TopologyPreparedCleanup) (L : list event) : Prop :=
  status = Ok tt → ∀ b, k = None ∨ k = Some b → evidence fence cleanup b L.

Lemma reports_mono fence k status cleanup L L' : reports fence k status cleanup L → L `sublist_of` L' → reports fence k status cleanup L'.
Proof. intros H Hl Hs b Hk. eapply evidence_mono; [by apply H|done]. Qed.

Lemma hold_stage op k hs e q l : inv (Hold op k :: hs) e q l → ∀ st, operations_ e !! op = Some st → k = None ∨ k = Some (scaleInMetadataDone st).
Proof.
  intros Hi st Hst. destruct k as [b|]; [|by left]. right. f_equal. destruct (i_stages _ _ _ _ Hi) as (Hh & _). by rewrite (Hh op b ltac:(by left) st Hst).
Qed.

Lemma reports_completion c k ops L l :
  tc_businessOperationId c = operation_of (tc_fence c) → fence_ok (tc_fence c) → reports (tc_fence c) k (tc_status c) (tc_preparedCleanup c) L →
  L `sublist_of` l → (∀ st, ops !! operation_of (tc_fence c) = Some st → k = None ∨ k = Some (scaleInMetadataDone st)) → completion_ok ops l c.
Proof.
  intros Eid Hf Hr Hl Hk. split; [done|]. split; [done|].
  exists (default (match ops !! operation_of (tc_fence c) with Some st => scaleInMetadataDone st | None => false end) k). split.
  - intros st Hst. rewrite Hst. destruct (Hk st Hst) as [->| ->]; done.
  - intros Hs. eapply evidence_mono; [|exact Hl]. apply (Hr Hs). destruct k; [by right|by left].
Qed.

Lemma safe_submit_finish c k L :
  tc_businessOperationId c = operation_of (tc_fence c) → fence_ok (tc_fence c) → reports (tc_fence c) k (tc_status c) (tc_preparedCleanup c) L →
  safe (SubmitAndFinish options_ c) [Hold (operation_of (tc_fence c)) k; Body] L (λ _ own _, own = []).
Proof.
  intros Eid Hf Hr. unfold SubmitAndFinish. step_bind. split; [done|]. intros rc _.
  exists (if is_ok rc then [Body] else [Hold (operation_of (tc_fence c)) k; Body]). split.
  - intros e q l F Hl HJ. cbn [log_of]. rewrite app_nil_r. destruct rc as [[]|code]; cbn [effect is_ok]; [|done]. unfold J in *. destruct (started_ e).
    + eapply (inv_queue c k); [rewrite Eid; exact HJ|]. eapply reports_completion; [done..|]. by eapply hold_stage.
    + destruct HJ as [E0 (Hh & Hw & Hq)]. split; [done|]. split_and!; [done..|]. intros c' [?| ->%list_elem_of_singleton]%elem_of_app; [by apply Hq|].
      eapply reports_completion; [done..|]. intros st. by rewrite lookup_empty.
  - rewrite app_nil_r. cbn [safe]. step_ask. intros now _. step_ask. intros random _. rewrite Eid.
    apply (safe_modify _ _ []); [intros; apply finish_body_frame| |done]. intros e q l F _ Hi. eapply (inv_finish_body _ _ _ _ _ k); [done|]. destruct rc; exact Hi.
Qed.

Lemma sublist_snoc {A} (x : A) l l' : l `sublist_of` l' → (l ++ [x]) `sublist_of` (l' ++ [x]).
Proof. intros H. by apply sublist_app. Qed.

Lemma sublist_last {A} (x : A) l : [x] `sublist_of` (l ++ [x]).
Proof. apply sublist_inserts_l. reflexivity. Qed.

Lemma safe_invoke fence ctx L :
  cc_businessOperationId ctx = operation_of fence → fence_ok fence →
  safe (InvokeCallback fence ctx) [Hold (operation_of fence) None; Body] L
    (λ r own L', ∃ k, own = [Hold (operation_of fence) k; Body] ∧ reports fence k r.1 r.2 L').
Proof.
  intros Eop (_ & Hcl & _). unfold InvokeCallback. destruct (ef_phase fence) eqn:Ep; [| |done|].
  - step_bind. apply safe_ask; [done..|]. intros rc _. exists None. split; [done|]. cbn in rc. intros Hs b _. cbn in Hs. subst rc. unfold evidence. rewrite Ep. split; [done|].
    cbn [log_of]. rewrite Eop. apply sublist_last.
  - step_bind. intros e q l F Hl HJ. exists [Hold (operation_of fence) (Some (IsScaleInDataDrainReady (operation_of fence) e)); Body].
    cbn [fst snd safe]. split. { unfold J in *. destruct (started_ e); [|done]. by eapply inv_know. }
    rewrite Eop. destruct (IsScaleInDataDrainReady (operation_of fence) e) eqn:Ed.
    + (* the drain: its operation has its metadata done *)
      assert (started_ e = true ∧ metadata_chain (operation_of fence) `sublist_of` l) as [_ Hm].
      { unfold J in HJ. unfold IsScaleInDataDrainReady in Ed. destruct (operations_ e !! operation_of fence) as [st|] eqn:E; [|done].
        destruct (started_ e); [|by rewrite (proj1 HJ) lookup_empty in E]. split; [done|]. by apply (i_ops _ _ _ _ HJ _ _ E). }
      step_bind. apply safe_ask; [done..|]. intros [[]|c] _; [|by exists (Some true)].
      step_bind. apply safe_ask; [done..|]. intros [[[]|c] [cleanup|]] _; exists (Some true); (split; [done|]); try done; [].
      intros _ b [|[= <-]]; [done|]. unfold evidence. rewrite Ep. cbn [log_of fst snd]. rewrite Eop. unfold drain_chain. change [?a; ?b] with ([a] ++ [b]). rewrite (app_assoc _ [_] [_]).
      apply sublist_snoc. by apply sublist_snoc.
    + step_bind. apply safe_ask; [done..|]. intros [[]|c] _; exists (Some false); (split; [done|]); [|done].
      intros _ b [|[= <-]]; [done|]. unfold evidence. rewrite Ep. cbn [log_of fst snd]. rewrite Eop. apply sublist_last.
  - step_bind. apply safe_ask; [done..|]. intros rc _. exists None. split; [done|]. intros _ b _. unfold evidence. by rewrite Ep.
Qed.

Lemma safe_run_callback fence op token L :
  op = operation_of fence → fence_ok fence →
  safe (RunCallback HashSHA256 localAddress_ options_ fence op token) [Hold op None; Body] L
    (λ r own L', ∃ k, own = [Hold op k; Body] ∧ reports fence k r.1.1 r.1.2 L').
Proof.
  intros -> Hf. unfold RunCallback. step_bind. apply safe_validate. intros validated.
  destruct (let! snap := validated in _) as [[action [filter plan]]|c]; [|by exists None].
  step_ask. intros now _. step_bind. apply safe_reading. intros e q l F _ _. destruct (ResolveCallbackDeadline _ _ _ _) as [deadline|c]; [|by exists None].
  step_bind. apply safe_reading. intros e1 q1 l1 F1 Hl1 _. destruct (IsCancelled token e1); [by exists None|].
  step_bind. eapply safe_weaken; [by apply safe_invoke|]. intros [rc cleanup] own L' (k & -> & Hr). step_ask. intros finished _.
  step_bind. apply safe_reading. intros e2 q2 l2 F2 Hl2 _. exists k. split; [done|]. cbn [fst snd]. destruct (_ && _); [done|]. by eapply reports_mono.
Qed.

Lemma safe_run_work restartHandler_ ops l w :
  work_ok ops l w → safe (run_work HashSHA256 localAddress_ options_ restartHandler_ w) (holders_of w) l (λ _ own _, own = []).
Proof.
  destruct w as [fence op token|fence op deadline cleanup token|facts]; cbn [run_work holders_of work_ok].
  - intros [-> Hf]. unfold ExecuteCallback. step_bind. eapply safe_weaken; [by apply safe_run_callback|]. intros [[status cleanup] deadline] own L' (k & -> & Hr).
    apply (safe_submit_finish (MkCompletion fence (operation_of fence) deadline status cleanup)); done.
  - intros (-> & Hf & Hp & Hl & Hd). unfold ExecuteCleanupApply. step_bind. apply safe_reading. intros e q l1 F Hl1 _.
    assert (∀ l' c, safe (SubmitAndFinish options_ (MkCompletion fence (operation_of fence) deadline (Fail c) None)) [Hold (operation_of fence) (Some true); Body] l' (λ _ own _, own = [])) as Hfail.
    { intros l' c. apply (safe_submit_finish (MkCompletion fence (operation_of fence) deadline (Fail c) None)); done. }
    destruct (IsCancelled token e); [step_bind; apply Hfail|]. step_bind. step_ask. intros now _. destruct (deadline <=? now); [apply Hfail|].
    destruct (apply_ cleanup); [|apply Hfail]. apply safe_ask; [done..|]. intros [[]|c] _; [|apply Hfail].
    apply (safe_submit_finish (MkCompletion fence (operation_of fence) deadline (Ok tt) None)); [done..|]. intros _ b [|[= <-]]; [done|]. unfold evidence. rewrite Hp. cbn [log_of tc_preparedCleanup tc_fence].
    unfold scale_in_chain. change [?a; ?b] with ([a] ++ [b]). rewrite app_assoc. apply sublist_snoc. by etrans.
  - intros _. unfold RunRestartEffects, InvokeRestartEffects. step_bind. assert (∀ status l', safe (modify (FinishRestartEffects facts status)) [Restart; Body] l' (λ _ own _, own = [])) as Hm.
    { intros status l'. apply (safe_modify _ _ []); [intros; apply finish_restart_frame| |done]. intros e q l0 F _ Hi. by apply inv_finish_restart. }
    destruct restartHandler_; [|apply Hm]. apply safe_ask_silent; [done..|]. intros rc _. apply Hm.
Qed.

(** *** The serial loop *)

(** While a batch lasts a member keeps its identity, once it is more than a candidate ([published_identities] below discharges this). *)
Context (Hmembers : ∀ snap snap' b b' a m m', published snap → published snap' → GetActiveBatch snap = Some b → GetActiveBatch snap' = Some b' →
  epoch b = epoch b' → FindMemberByAddress snap a = Ok m → FindMemberByAddress snap' a = Ok m' → state m ≠ INITIAL → state m' ≠ INITIAL → identity m = identity m').

Lemma build_stable task phase snap snap' fence fence' :
  published snap → published snap' → BuildExecutionFence HashSHA256 localAddress_ task phase snap = Ok fence →
  BuildExecutionFence HashSHA256 localAddress_ task phase snap' = Ok fence' → fence = fence'.
Proof.
  intros Hp Hp' (b & x & o & Hb & Ee & Hx & Ho & Sx & So & ->)%BuildExecutionFence_spec (b' & x' & o' & Hb' & Ee' & Hx' & Ho' & Sx' & So' & ->)%BuildExecutionFence_spec.
  assert (epoch b = epoch b') as E by congruence.
  rewrite (Hmembers _ _ _ _ _ _ _ Hp Hp' Hb Hb' E Hx Hx' Sx Sx') (Hmembers _ _ _ _ _ _ _ Hp Hp' Hb Hb' E Ho Ho' So So'). done.
Qed.

(** The task an operation stands for. *)
Definition stands_for (op : string) (task : TopologyTask) : Prop :=
  ∃ snap fence, published snap ∧ BuildExecutionFence HashSHA256 localAddress_ task (TaskPhase task) snap = Ok fence ∧ operation_of fence = op.

Lemma op_ok_task l op st task : op_ok l op st → stands_for op task → op_ok l op (os_with_task task st).
Proof. intros (_ & H1 & H2) (snap & fence & Hp & Hb & E). split_and!; [by exists snap, fence|done..]. Qed.

Lemma stands_for_fence op task snap fence :
  stands_for op task → published snap → BuildExecutionFence HashSHA256 localAddress_ task (TaskPhase task) snap = Ok fence → operation_of fence = op.
Proof. intros (snap0 & fence0 & Hp0 & Hb0 & E) Hp Hb. by rewrite (build_stable _ _ _ _ _ _ Hp Hp0 Hb Hb0). Qed.

(** Other quiet operations. *)
Lemma inv_quiet quiet quiet' hs e q l :
  inv (Turn quiet :: hs) e q l → (∀ op, op ∈ quiet' → op ∈ quiet ∨ ¬ in_flight (operations_ e) op) → inv (Turn quiet' :: hs) e q l.
Proof.
  intros [] H. constructor; try done.
  - destruct i_stages0 as (Hh & ? & ?). split_and!; try done. intros op b [?|?]%elem_of_cons; [done|]. apply Hh. by right.
  - destruct i_turn0 as [Hle Ht]. split; [done|]. change (turns (Turn quiet :: hs)) with (quiet :: turns hs) in Ht, Hle. cbn in Hle. destruct (turns hs) eqn:E; [|cbn in Hle; lia].
    intros qs op Hqs Hin. change (turns (Turn quiet' :: hs)) with (quiet' :: turns hs) in Hqs. rewrite E in Hqs. apply list_elem_of_singleton in Hqs as ->.
    destruct (H op Hin); [|done]. apply (Ht quiet); [by left|done].
Qed.

Lemma quiet_idle quiet hs e q l op : inv (Turn quiet :: hs) e q l → op ∈ quiet → ¬ in_flight (operations_ e) op.
Proof. intros Hi Hin. apply (i_turn _ _ _ _ Hi) with quiet; [by left|done]. Qed.

(** An operation the serial loop may complete: one it holds, or one nobody does. *)
Definition mine (op : string) (quiet : list string) (own : list holder) : Prop :=
  (∃ k, own = [Hold op k; Turn quiet]) ∨ (own = [Turn quiet] ∧ op ∈ quiet).

Lemma safe_complete_stale op code quiet own L :
  mine op quiet own → safe (CompleteStale op code) own L (λ _ own' _, own' = [Turn quiet]).
Proof.
  intros Hm. unfold CompleteStale. step_bind. apply (safe_modify _ _ [Turn quiet]); [intros e; apply erase_frame| |done]. intros e q l F _ Hi.
  unfold CompleteStale_locked. eapply (inv_same _ (EraseOperationLocked op e).1); [done|]. destruct Hm as [[k ->]|[-> Hq]]; [by eapply inv_erase_hold|].
  apply inv_erase; [done|]. by eapply quiet_idle.
Qed.

Lemma safe_complete_failure fence op code progressFailure quiet own L :
  mine op quiet own → safe (CompleteFailure options_ fence op code progressFailure) own L (λ _ own' _, own' = [Turn quiet]).
Proof.
  intros Hm. unfold CompleteFailure. step_ask. intros now _. step_ask. intros random _. step_bind.
  apply safe_section; [intros e; apply complete_failure_frame|intros e q l F _ _ Hi|intros e l _ _ _]; exists [Turn quiet]; [|done]. split; [|done].
  destruct Hm as [[k ->]|[-> Hq]]; [by eapply inv_complete_failure|]. apply inv_complete_failure_idle; [done|]. by eapply quiet_idle.
Qed.

Lemma safe_complete_progress fence op status quiet own L :
  mine op quiet own → earned op L → operation_of fence = op →
  safe (CompleteProgress options_ fence op status) own L (λ _ own' _, own' = [Turn quiet]).
Proof.
  intros Hm Hd Ef. unfold CompleteProgress. step_bind. apply safe_section; [intros e; apply progress_begin_frame|..].
  2:{ intros e l Hl _ E0. exists [Turn quiet]. unfold progress_begin. by rewrite E0 lookup_empty. }
  intros e q l F Hl _ Hi.
  assert (inv (own ++ F) (progress_begin (ef_phase fence) op status e).1 q l) as H1.
  { apply inv_progress_begin; [by eapply earned_mono|done]. }
  destruct (progress_begin (ef_phase fence) op status e) as [e1 known] eqn:E. cbn [fst snd] in *. destruct known.
  2:{ exists [Turn quiet]. split; [|done]. unfold progress_begin in E. destruct (operations_ e !! op) as [st|] eqn:Eo; [done|]. injection E as <-.
      destruct Hm as [[k ->]|[-> _]]; [|done]. destruct (proj1 (i_tokens _ _ _ _ Hi op)) as (st & Hst & _); [by left|congruence]. }
  exists own. split; [done|]. step_bind. apply safe_ask; [done|split; [done|by eapply earned_mono]|]. intros [outcome [[]|code]] _; [|by destruct outcome; apply safe_complete_failure].
  cbn [log_of fst snd]. assert (∀ L', safe (modify (progress_end op)) own L' (λ a own L0, safe (Ret (Ok tt)) own L0 (λ (_ : res unit) own' _, own' = [Turn quiet]))) as Hend.
  { intros L'. apply (safe_modify _ _ [Turn quiet]); [|..|done]; [intros e2; unfold progress_end; destruct (erase_frame op e2); by split|].
    intros e2 q2 l2 F2 _ Hi2. unfold progress_end. eapply (inv_same _ (EraseOperationLocked op e2).1); [done|]. destruct Hm as [[k ->]|[-> Hq]]; [by eapply inv_erase_hold|].
    apply inv_erase; [done|]. by eapply quiet_idle. }
  destruct outcome; [| |by apply safe_complete_stale..].
  all: step_bind; destruct (is_ok status); [|step_bind; apply Hend]; apply safe_ask; [done| |intros [] _; step_bind; apply Hend].
  all: split; [done|]; split; [eapply earned_mono; [exact Hd|]; etrans; [exact Hl|]; by apply sublist_inserts_r|]; eexists; split; [apply elem_of_app; right; by left|]; auto.
Qed.

Lemma safe_complete_metadata fence k quiet L :
  ef_phase fence = PHASE_SCALE_IN → is_Some (ef_source fence) → [EMetadata (operation_of fence) (Ok tt)] `sublist_of` L →
  safe (CompleteScaleInMetadata options_ fence (operation_of fence)) [Hold (operation_of fence) k; Turn quiet] L (λ _ own' _, own' = [Turn quiet]).
Proof.
  intros Hp [source Hs] Hl. unfold CompleteScaleInMetadata. rewrite Hs. remember (operation_of fence) as op eqn:Eop. step_bind. apply safe_section; [done|..].
  2:{ intros e l _ _ E0. exists [Turn quiet]. cbn [snd]. by rewrite E0 lookup_empty. }
  intros e q l F Hl1 _ Hi. exists [Hold op k; Turn quiet]. split; [done|]. cbn [snd].
  destruct (proj1 (i_tokens _ _ _ _ Hi op)) as (st & Hst & _); [by left|]. rewrite Hst bool_decide_eq_true_2; [by eexists|].
  step_bind. apply safe_ask; [done..|]. intros [[]|code] _; [|apply safe_complete_failure; left; by eexists].
  unfold ScaleInMetadataGateKey. rewrite Hp Hs. cbn [try]. step_ask. intros now _. step_ask. intros later _. step_bind.
  apply (safe_modify _ _ [Turn quiet]); [intros; apply metadata_end_frame| |done]. intros e2 q2 l2 F2 Hl2 Hi2. eapply inv_metadata_end; [done|].
  etrans; [|exact Hl2]. cbn [log_of]. unfold metadata_chain. change [?a; ?b] with ([a] ++ [b]). apply sublist_snoc. by etrans.
Qed.

Lemma safe_conclude fence k status quiet L :
  fence_ok fence → (status = Ok tt → work_done (ef_phase fence) (operation_of fence) L) →
  safe (conclude options_ fence (operation_of fence) status) [Hold (operation_of fence) k; Turn quiet] L (λ _ own' _, own' = [Turn quiet]).
Proof.
  intros Hf Hd. assert (mine (operation_of fence) quiet [Hold (operation_of fence) k; Turn quiet]) as Hm by (left; by eexists).
  unfold conclude. destruct status as [[]|code]; [apply safe_complete_progress; [done|by apply earned_intro, Hd|done]|].
  case_bool_decide as Ep; [|by apply safe_complete_failure]. apply safe_complete_progress; [done| |done]. apply earned_intro; [done|]. by rewrite Ep.
Qed.

Lemma evidence_done fence b L : evidence fence None b L → (ef_phase fence = PHASE_SCALE_IN → b = true) → work_done (ef_phase fence) (operation_of fence) L.
Proof. unfold evidence. intros H Hb. destruct (ef_phase fence); [by destruct H|rewrite (Hb eq_refl) in H|..]; done. Qed.

Lemma evidence_metadata fence b L : ef_phase fence = PHASE_SCALE_IN → evidence fence None b L → [EMetadata (operation_of fence) (Ok tt)] `sublist_of` L.
Proof. unfold evidence. intros ->. destruct b; [|done]. intros H. etrans; [|exact H]. apply sublist_skip, sublist_nil_l. Qed.

Lemma safe_handle_completion c b quiet L :
  tc_businessOperationId c = operation_of (tc_fence c) → fence_ok (tc_fence c) →
  (tc_status c = Ok tt → evidence (tc_fence c) (tc_preparedCleanup c) b L) →
  safe (HandleCompletion HashSHA256 localAddress_ options_ c) [Hold (operation_of (tc_fence c)) (Some b); Turn quiet] L (λ _ own' _, own' = [Turn quiet]).
Proof.
  intros Eid Hfok Hev. pose proof (proj2 (proj2 Hfok)) as Hsrc. unfold HandleCompletion. rewrite Eid bool_decide_eq_true_2 //. cbn [negb]. remember (tc_fence c) as fence eqn:Ef. clear Eid Ef.
  step_bind. apply safe_section; [intros e; unfold DiscardIfStopping; destruct (_ && _); [done|]; pose proof (erase_frame (operation_of fence) e); by destruct (EraseOperationLocked _ _)|..].
  2:{ intros e l _ Es _. exists [Turn quiet]. unfold DiscardIfStopping. rewrite Es. cbn [andb]. by destruct (EraseOperationLocked _ _). }
  intros e q l F Hl Es Hi. unfold DiscardIfStopping. destruct (_ && _) eqn:E.
  2:{ exists [Turn quiet]. pose proof (inv_erase_hold _ _ _ _ _ _ Hi) as He. destruct (EraseOperationLocked _ _) as [e1 r]. split; [|done]. eapply inv_same; [|exact He]. done. }
  exists [Hold (operation_of fence) (Some b); Turn quiet]. split; [done|]. cbn [snd]. clear E Es Hi.
  assert (tc_status c = Ok tt → evidence fence (tc_preparedCleanup c) b l) as Hev' by (intros Hs; eapply evidence_mono; [by apply Hev|done]). clear Hev Hl. rename Hev' into Hev.
  assert (∀ status, status = tc_status c → (status = Ok tt → tc_preparedCleanup c = None) →
    safe (validated ← ValidateFence HashSHA256 localAddress_ fence;
          match validated with
          | Fail code => CompleteStale (operation_of fence) code
          | Ok _ => drainReady ← reading (IsScaleInDataDrainReady (operation_of fence));
                    if bool_decide (ef_phase fence = PHASE_SCALE_IN) && is_ok status && bool_decide (tc_preparedCleanup c = None) && negb drainReady
                    then CompleteScaleInMetadata options_ fence (operation_of fence) else conclude options_ fence (operation_of fence) status
          end) [Hold (operation_of fence) (Some b); Turn quiet] l (λ _ own' _, own' = [Turn quiet])) as Hrest.
  { intros status Est Hnone. step_bind. apply safe_validate. intros [snap|code]; [|apply safe_complete_stale; left; by eexists].
    step_bind. apply safe_reading. intros e1 q1 l1 F1 Hl1 HJ. destruct (_ && negb _) eqn:Eb.
    - rewrite !andb_true_iff !bool_decide_eq_true in Eb. destruct Eb as [[[Hp Hok] Hc] _]. destruct status as [[]|]; [|done].
      apply safe_complete_metadata; [done|by apply Hsrc|]. etrans; [|exact Hl1]. apply (evidence_metadata fence b); [done|]. rewrite -Hc. by apply Hev.
    - apply safe_conclude; [done|]. intros ->. assert (tc_preparedCleanup c = None) as Hc by (by apply Hnone). eapply work_done_mono; [|exact Hl1].
      apply (evidence_done fence b); [rewrite -Hc; by apply Hev|]. intros Hp. rewrite Hp bool_decide_eq_true_2 // Hc bool_decide_eq_true_2 // in Eb. cbn [andb is_ok] in Eb. apply negb_false_iff in Eb.
      unfold J in HJ. unfold IsScaleInDataDrainReady in Eb. destruct (operations_ e1 !! operation_of fence) as [st|] eqn:Est1; [|done].
      destruct (started_ e1); [|by rewrite (proj1 HJ) lookup_empty in Est1]. destruct (hold_stage _ _ _ _ _ _ HJ st Est1) as [|[= ->]]; done. }
  destruct (tc_status c) as [[]|code] eqn:Es; [|by apply Hrest]. destruct (tc_preparedCleanup c) as [cleanup|] eqn:Ec; [|by apply Hrest]. clear Hrest.
  specialize (Hev eq_refl). unfold evidence in Hev. destruct (ef_phase fence) eqn:Ep; [by destruct Hev| |done..]. destruct b; [|done].
  step_ask. intros now _. assert (∀ l' code, safe (conclude options_ fence (operation_of fence) (Fail code)) [Hold (operation_of fence) (Some true); Turn quiet] l' (λ _ own' _, own' = [Turn quiet])) as Hfail.
  { intros l' code. by apply safe_conclude. }
  step_bind. destruct (tc_deadline c <=? now); [apply Hfail|]. unfold TryAuthorizeCleanup. step_bind. apply safe_validate. intros [latest|code]; [|apply Hfail]. cbn [try].
  apply safe_ask; [done..|]. intros [[]|code] _; [|apply Hfail]. cbn [log_of]. unfold SubmitCleanupApply. step_bind. step_ask. intros accepted _.
  apply safe_section; [intros; apply cleanup_apply_frame|..].
  - intros e1 q1 l1 F1 Hl1 _ Hi1. pose proof (inv_cleanup_apply _ _ _ _ fence (tc_deadline c) cleanup accepted Hi1 Hfok Ep) as Ha.
    destruct (SubmitCleanupApply_locked _ _ _ _ _ _) as [e2 [[]|code]]; cbn [fst snd].
    + exists [Turn quiet]. split; [|done]. apply Ha. etrans; [|exact Hl1]. by apply sublist_snoc.
    + exists [Hold (operation_of fence) (Some true); Turn quiet]. split; [|apply Hfail]. apply Ha. etrans; [|exact Hl1]. by apply sublist_snoc.
  - intros e1 l1 _ Es1 _. unfold SubmitCleanupApply_locked. rewrite Es1. cbn. exists [Hold (operation_of fence) (Some true); Turn quiet]. apply Hfail.
Qed.

(** A submission that fails leaves its operation idle. *)
Lemma submit_failed_idle hs e q l task fence snap allow now later random accepted e' c :
  published snap → BuildExecutionFence HashSHA256 localAddress_ task (TaskPhase task) snap = Ok fence →
  inv hs e q l → ¬ in_flight (operations_ e) (operation_of fence) →
  SubmitCallback_locked options_ task fence (operation_of fence) allow now later random accepted e = (e', Fail c) →
  ¬ in_flight (operations_ e') (operation_of fence).
Proof.
  intros Hp Hb Hi Hn. pose proof (inv_emplace hs e q l task fence snap) as Hemp. unfold SubmitCallback_locked, AdmitCallbackLocked. remember (operation_of fence) as op eqn:Eop.
  destruct (negb _); [by intros [= <- _]|]. destruct (match operations_ e !! op with Some st => _ | None => _ end); [done|].
  destruct (if bool_decide _ then _ else _) as [gate|c0]; [|by intros [= <- _]].
  assert (¬ in_flight (operations_ (emplace task op gate e)) op) as Hn1.
  { specialize (Hemp gate Hp Hb Hi Hn). intros (st & Hst & Ht). cbn in Hst. rewrite lookup_insert_eq in Hst. injection Hst as <-. apply Hn.
    destruct (operations_ e !! op) as [st0|] eqn:E0; [exists st0; split; [done|]|]; destruct (bool_decide _); cbn in Ht; try done; by destruct Ht. }
  assert (∃ e2 rc, ValidateCallbackWindowLocked options_ fence now (emplace task op gate e) = (e2, rc) ∧ operations_ e2 = operations_ (emplace task op gate e)) as (e2 & rc & -> & Eo).
  { unfold ValidateCallbackWindowLocked. destruct (bool_decide _); eexists _, _; by split. }
  destruct rc as [_|c1].
  - destruct (progressReady _); [done|]. destruct (_ && _); [done|]. destruct (_ <? _); [|intros [= <- _]; by rewrite Eo].
    destruct (begin_callback fence op gate allow e2) as [e3 tok]. destruct accepted; [done|]. intros [= <- _]. unfold enqueue_failed.
    set (e4 := diag _ _). assert (¬ in_flight (operations_ e4) op) as Hn4.
    { subst e4. unfold ReleaseInFlightLocked. cbn. intros (st & Hst & Ht). destruct (operations_ e3 !! op) as [st0|] eqn:E0; [|by rewrite /= E0 in Hst].
      destruct (cancellation st0) eqn:Ec; cbn in Hst; [rewrite lookup_alter_eq E0 in Hst; injection Hst as <-; by destruct Ht|].
      rewrite E0 in Hst. injection Hst as <-. rewrite Ec in Ht. by destruct Ht. }
    pose proof (retry_in_flight (ef_phase fence) op later random e4 op) as Hr. destruct (ScheduleRetryLocked _ _ _ _ _ _) as [e5 [|]]; [tauto|].
    intros (st & Hst & Ht). pose proof (erase_core op e5) as (E & _). rewrite E in Hst. cbn in Hst. by rewrite lookup_delete_eq in Hst.
  - destruct (ScheduleRetryLocked _ _ _ _ _ _) as [e3 [|]]; done.
Qed.

Lemma safe_submit_callback task fence snap allow quiet L :
  published snap → BuildExecutionFence HashSHA256 localAddress_ task (TaskPhase task) snap = Ok fence →
  safe (SubmitCallback HashSHA256 options_ task fence allow) [Turn quiet] L
    (λ rc own _, ∃ quiet', own = [Turn quiet'] ∧ (∀ op, op ∈ quiet → op ≠ operation_of fence → op ∈ quiet') ∧ (rc ≠ Ok tt → quiet' = quiet)).
Proof.
  intros Hp Hb. unfold SubmitCallback. destruct (_ <? _)%nat; [|exists quiet; by split_and!].
  step_ask. intros now _. step_ask. intros later _. step_ask. intros random _. step_bind. apply safe_ask_silent; [done..|]. intros accepted _.
  apply safe_section; [intros; apply submit_callback_frame|..].
  - intros e q l F _ _ Hi. set (quiet' := filter (λ op, op ≠ operation_of fence) quiet).
    assert (inv (Turn quiet' :: F) e q l) as Hi'. { eapply inv_quiet; [exact Hi|]. intros op [_ ?]%list_elem_of_filter. by left. }
    assert (operation_of fence ∉ quiet') as Hout. { by intros [? _]%list_elem_of_filter. }
    pose proof (inv_submit_callback quiet' F e q l task fence snap allow now later random accepted Hp Hb Hi' Hout) as Hs.
    pose proof (λ e' c, submit_failed_idle _ e q l task fence snap allow now later random accepted e' c Hp Hb Hi) as Hf.
    destruct (SubmitCallback_locked _ _ _ _ _ _ _ _ _ _) as [e' [[]|c]]; cbn [fst snd] in *.
    + exists [Turn quiet']. split; [done|]. exists quiet'. split_and!; [done| |done]. intros op Hin Hne. apply list_elem_of_filter. done.
    + exists [Turn quiet]. split; [|exists quiet; by split_and!]. eapply inv_quiet; [exact Hs|]. intros op Hin.
      destruct (decide (op = operation_of fence)) as [->|Hne]; [|left; by apply list_elem_of_filter]. right. apply (Hf e' c); [|done]. by apply (quiet_idle quiet F e q l).
  - intros e l _ Es _. exists [Turn quiet]. exists quiet. split_and!; done.
Qed.

Lemma safe_build_fence task own L Q :
  (∀ c, Q (Fail c) own L) →
  (∀ snap fence, published snap → BuildExecutionFence HashSHA256 localAddress_ task (TaskPhase task) snap = Ok fence → Q (Ok fence) own L) →
  safe (BuildFenceLoaded HashSHA256 localAddress_ task) own L Q.
Proof.
  intros Hf Ho. unfold BuildFenceLoaded. step_ask. intros [snap|c] Hs; [|apply Hf]. cbn [try]. destruct (BuildExecutionFence _ _ _ _ _) as [fence|c] eqn:E; [|apply Hf].
  cbn. eapply Ho; [|exact E]. by apply Hs.
Qed.

Lemma safe_notified type epoch ids firstError quiet L :
  safe (SubmitNotifiedTasks HashSHA256 localAddress_ options_ type epoch ids firstError) [Turn quiet] L (λ _ own _, ∃ quiet', own = [Turn quiet']).
Proof.
  revert firstError quiet L. induction ids as [|taskId ids IH]; intros firstError quiet L; cbn [SubmitNotifiedTasks]; [by exists quiet|].
  step_ask. intros [task|c] _; [|apply IH]. step_bind. apply safe_build_fence; [intros c; by destruct c; apply IH|]. intros snap fence Hp Hb.
  step_bind. eapply safe_weaken; [by eapply safe_submit_callback|]. intros rc own L' (quiet' & -> & _). apply IH.
Qed.

Lemma safe_restart_facts facts quiet L :
  safe (HandleRestartFacts facts) [Turn quiet] L (λ _ own _, own = [Turn quiet]).
Proof.
  unfold HandleRestartFacts. step_ask. intros accepted _. apply safe_section; [intros; apply restart_facts_frame|intros e q l F _ _ Hi|intros]; exists [Turn quiet]; [|done].
  split; [|done]. by apply inv_restart_facts.
Qed.

Lemma safe_notify notify quiet L :
  safe (HandleNotify HashSHA256 localAddress_ options_ notify) [Turn quiet] L (λ _ own _, ∃ quiet', own = [Turn quiet']).
Proof.
  assert (∀ facts quiet L, safe (HandleRestartFacts facts) [Turn quiet] L (λ _ own _, ∃ quiet', own = [Turn quiet'])) as Hr.
  { intros facts quiet0 L0. eapply safe_weaken; [apply safe_restart_facts|]. intros _ own _ ->. by eexists. }
  unfold HandleNotify. destruct (nt_activeBatch notify) as [b|]; [|apply Hr]. step_ask. intros [snap|c] _; [|by exists quiet]. cbn [try].
  destruct (bool_decide _); [|apply Hr]. destruct (BuildScaleInMetadataGateForNotify _ _ _) as [gate|c]; [|by exists quiet]. cbn [try]. step_bind.
  apply safe_section; [intros; apply refresh_frame|intros e q l F _ _ Hi|intros e l _ _ _]; exists [Turn quiet]; [split; [by apply inv_refresh|]|];
    (destruct (RefreshNotifyEpochLocked _ _).2 as [[]|c]; [|by exists quiet]; cbn [try]; step_bind; eapply safe_weaken; [apply safe_notified|];
     intros ts own L' (quiet' & ->); step_bind; eapply safe_weaken; [apply safe_restart_facts|]; intros rs own L2 ->; by eexists).
Qed.

Lemma safe_preserve op task code quiet L {A} (r : A) :
  op ∈ quiet → stands_for op task →
  safe (_ ← (now ← ask CNow; modify (PreserveDueOperation options_ op task code now)); Ret r) [Turn quiet] L (λ _ own _, own = [Turn quiet]).
Proof.
  intros Hq Hst. step_bind. step_ask. intros now _. apply (safe_modify _ _ [Turn quiet]); [intros; apply preserve_frame| |done]. intros e q l F _ Hi.
  apply inv_preserve; [done|by eapply quiet_idle|]. intros st Hs. apply op_ok_task; [|done]. by eapply i_ops.
Qed.

Lemma safe_due op task quiet L :
  op ∈ quiet → stands_for op task →
  safe (handle_due HashSHA256 localAddress_ options_ op task) [Turn quiet] L
    (λ _ own _, ∃ quiet', own = [Turn quiet'] ∧ ∀ o, o ∈ quiet → o ≠ op → o ∈ quiet').
Proof.
  intros Hq Hst.
  assert (∀ code (r : res unit) L, safe (_ ← (now ← ask CNow; modify (PreserveDueOperation options_ op task code now)); Ret r) [Turn quiet] L
    (λ _ own _, ∃ quiet', own = [Turn quiet'] ∧ ∀ o, o ∈ quiet → o ≠ op → o ∈ quiet')) as Hpres.
  { intros code r L0. eapply safe_weaken; [by apply safe_preserve|]. intros _ own _ ->. by exists quiet. }
  unfold handle_due. step_bind. apply safe_build_fence.
  - intros c. step_bind. apply safe_reading. intros e q l F _ _. destruct (match operations_ e !! op with Some st => _ | None => _ end). apply Hpres.
  - intros snap fence Hp Hb. pose proof (stands_for_fence _ _ _ _ Hst Hp Hb) as Ef.
    assert (∀ allow L0, safe (rc ← SubmitCallback HashSHA256 options_ task fence allow;
              match rc with Ok _ => Ret (Ok tt) | Fail code => _ ← (now ← ask CNow; modify (PreserveDueOperation options_ op task code now)); Ret (Fail code) end)
            [Turn quiet] L0 (λ _ own _, ∃ quiet', own = [Turn quiet'] ∧ ∀ o, o ∈ quiet → o ≠ op → o ∈ quiet')) as Hsub.
    { intros allow L0. step_bind. eapply safe_weaken; [by eapply safe_submit_callback|]. intros [[]|code] own L1 (quiet' & -> & H1 & H2).
      - exists quiet'. split; [done|]. by rewrite -Ef.
      - rewrite H2; [done|]. apply Hpres. }
    step_bind. apply safe_reading. intros e q l F Hl HJ. destruct (operations_ e !! op) as [st|] eqn:Eo; [|apply Hsub].
    unfold J in HJ. destruct (started_ e); [|by rewrite (proj1 HJ) lookup_empty in Eo]. pose proof (i_ops _ _ _ _ HJ _ _ Eo) as Hok.
    destruct (progressReady st) eqn:Er.
    + eapply safe_weaken; [apply (safe_complete_progress _ _ _ quiet)|intros _ own _ ->; by exists quiet].
      * by right.
      * by apply Hok.
      * done.
    + destruct (scaleInMetadataDone st); [|apply Hsub]. step_bind. apply safe_reading. intros e2 q2 l2 F2 _ _.
      destruct (IsScaleInMetadataGateReadyForOperationLocked op e2) as [[|]|c]; [apply Hsub|apply Hpres..].
Qed.

Lemma safe_due_loop due firstError quiet L :
  NoDup (fst <$> due) → (∀ op task, (op, task) ∈ due → op ∈ quiet ∧ stands_for op task) →
  safe (due_loop HashSHA256 localAddress_ options_ due firstError) [Turn quiet] L (λ _ own _, ∃ quiet', own = [Turn quiet']).
Proof.
  revert firstError quiet L. induction due as [|[op task] due IH]; intros firstError quiet L Hnd H; cbn [due_loop]; [by exists quiet|].
  apply NoDup_cons in Hnd as [Hout Hnd]. destruct (H op task) as [Hq Hst]; [by left|].
  step_bind. eapply safe_weaken; [by apply safe_due|]. intros rc own L' (quiet' & -> & Hq'). apply IH; [done|]. intros op' task' Hin.
  destruct (H op' task') as [Hq2 Hst2]; [by right|]. split; [|done]. apply Hq'; [done|]. intros ->. apply Hout. by apply (list_elem_of_fmap_2 fst _ (op, task')).
Qed.

Lemma safe_tick now quiet L :
  safe (HandleTick HashSHA256 localAddress_ options_ now) [Turn quiet] L (λ _ own _, ∃ quiet', own = [Turn quiet']).
Proof.
  unfold HandleTick. step_bind. apply safe_section; [done|..].
  2:{ intros e l _ Es _. exists [Turn quiet]. cbn [snd]. rewrite Es. by exists quiet. }
  intros e q l F _ _ Hi. cbn [fst snd]. destruct (_ && _); [|exists [Turn quiet]; by split; [|exists quiet]].
  assert (∀ op task, (op, task) ∈ due_operations now e → ¬ in_flight (operations_ e) op ∧ stands_for op task) as Hd.
  { intros op task (op' & Hin & Hx)%list_elem_of_omap. destruct (operations_ e !! op') as [st|] eqn:E; [|done]. destruct (_ && _) eqn:Eb; [|done]. injection Hx as <- <-.
    apply andb_true_iff in Eb as [_ Ec%bool_decide_eq_true]. split; [|apply (i_ops _ _ _ _ Hi _ _ E)]. intros (st' & Hst' & Ht). rewrite E in Hst'. injection Hst' as <-. rewrite Ec in Ht. by destruct Ht. }
  exists [Turn (fst <$> due_operations now e)]. split.
  - eapply inv_quiet; [exact Hi|]. intros op ([op' task] & -> & Hin)%list_elem_of_fmap. right. by apply (Hd op' task).
  - cbn [try]. apply safe_due_loop.
    + unfold due_operations. generalize (NoDup_elements (scheduledOperations_ e)). induction (elements (scheduledOperations_ e)) as [|op ops IH]; [constructor|].
      intros [Hout Hnd]%NoDup_cons. cbn. destruct (match operations_ e !! op with Some st => _ | None => _ end) as [[op' task]|] eqn:Ex; [|by apply IH].
      assert (op' = op) as ->. { destruct (operations_ e !! op); [|done]. destruct (_ && _); [|done]. by injection Ex. }
      cbn. apply NoDup_cons. split; [|by apply IH]. intros ([op2 task2] & E2 & (op3 & Hin & Hx)%list_elem_of_omap)%list_elem_of_fmap. cbn in E2. subst op2.
      destruct (operations_ e !! op3); [|done]. destruct (_ && _); [|done]. injection Hx as -> _. done.
    + intros op task Hin. split; [by apply (list_elem_of_fmap_2 fst _ (op, task))|]. by apply (Hd op task).
Qed.

Lemma J_stop_end hs hs' e q l : J hs e q l → J hs' (stop_end e) q l.
Proof.
  intros HJ. unfold J in *. assert (started_ (stop_end e) = false) as -> by reflexivity. split; [reflexivity|]. assert (poolWork_ (stop_end e) = poolWork_ e) as -> by reflexivity.
  destruct (started_ e); [|by destruct HJ]. eapply stages_stopped. by eapply i_stages.
Qed.

Lemma safe_stop deadline L : safe (Stop options_ deadline) [] L (λ _ own _, own = []).
Proof.
  unfold Stop. step_bind. apply safe_section.
  - intros e. by destruct (started_ e) eqn:Es.
  - intros e q l F _ Es Hi. exists []. rewrite Es. cbn [fst snd]. split; [eapply inv_same; [|exact Hi]; done|].
    step_ask. intros now _. step_ask. intros drained _. step_bind. apply (safe_modify _ _ []); [done| |].
    { intros e1 q1 l1 F1 _ Hi1. eapply inv_same; [|exact Hi1]. done. }
    intros l1 _. step_ask. intros [] _. step_bind. intros e2 q2 l2 F2 _ HJ. exists []. split; [|done].
    cbn [fst]. apply J_stop_end with (1 := HJ).
  - intros e l _ Es _. exists []. by rewrite Es.
Qed.

(** *** Whole runs *)
Definition event_ok (ev : event) (l : list event) : Prop :=
  match ev with
  | EFinished op fence _ _ => op = operation_of fence ∧ earned op l
  | EHandoff op fence =>
    op = operation_of fence ∧ earned op l ∧ ∃ outcome, EFinished op fence outcome (Ok tt) ∈ l ∧ (outcome = UPDATED ∨ outcome = ALREADY_FINISHED)
  | _ => True
  end.
Definition log_ok (l : list event) : Prop := ∀ l1 ev l2, l = l1 ++ ev :: l2 → event_ok ev l1.

Lemma log_ok_snoc l ev : log_ok l → event_ok ev l → log_ok (l ++ [ev]).
Proof.
  intros Hl He l1 ev' l2 E. destruct l2 as [|x l2 _] using rev_ind.
  - apply app_inj_tail in E as [-> ->]. done.
  - rewrite app_comm_cons app_assoc in E. apply app_inj_tail in E as [-> _]. by eapply Hl.
Qed.

Definition thread_ok {A} (p : prog A) (own : list holder) (l : list event) (Q : A → list holder → list event → Prop) : Prop :=
  ∃ L, L `sublist_of` l ∧ safe p own L Q.
Lemma thread_ok_mono {A} (p : prog A) own l l' Q : thread_ok p own l Q → l `sublist_of` l' → thread_ok p own l' Q.
Proof. intros (L & ? & ?) ?. exists L. split; [by etrans|done]. Qed.

Lemma advance_ok {A} s (p p' : prog A) own F Q e q l :
  thread_ok p own (log s) Q → J (own ++ F) (ex s) (queue s) (log s) → log_ok (log s) → advance published s p e q l p' →
  log s `sublist_of` l ∧ log_ok l ∧ ∃ own', J (own' ++ F) e q l ∧ thread_ok p' own' l Q.
Proof.
  intros (L & HL & Hs) HJ Hlog Ha. destruct p as [a|f k|c k]; cbn in Ha; [done|..].
  - destruct Ha as (-> & -> & -> & ->). split; [done|]. split; [done|]. destruct (Hs _ _ _ _ HL HJ) as (own' & ? & ?). exists own'. split; [done|]. by exists (log s).
  - destruct Ha as (a & Hen & -> & -> & -> & ->). destruct Hs as [Hc Hs]. destruct (Hs a) as (own' & HJ' & Hsafe); [by destruct c|].
    split; [by apply sublist_inserts_r|]. split.
    + assert (log_of c a = [] ∨ ∃ ev, log_of c a = [ev] ∧ event_ok ev (log s)) as [->|(ev & -> & Hev)]; [|by rewrite app_nil_r|by apply log_ok_snoc].
      destruct c; cbn; try (by left); right; (eexists; split; [done|]); cbn; try done; [destruct Hc as [? Hw]; split; [done|by eapply earned_mono]|].
      destruct Hc as (E & Hw & outcome & Hin & Ho). split; [done|]. split; [by eapply earned_mono|]. exists outcome. split; [|done].
      apply singleton_sublist_l. etrans; [by apply singleton_sublist_l|done].
    + exists own'. split; [by apply HJ'|]. exists (L ++ log_of c a). split; [by apply sublist_app|done].
Qed.

#[export] Instance J_perm : Proper ((≡ₚ) ==> eq ==> eq ==> eq ==> impl) J.
Proof. intros hs hs' Hp e ? <- q ? <- l ? <-. unfold J. destruct (started_ e); [by rewrite Hp|done]. Qed.

Definition sys_inv (s : sys) : Prop :=
  ∃ so sto pos,
    J (so ++ sto ++ List.concat pos) (ex s) (queue s) (log s) ∧ log_ok (log s)
    ∧ match serial s with
      | None => ∃ quiet, so = [Turn quiet]
      | Some p => thread_ok p so (log s) (λ _ own _, ∃ quiet, own = [Turn quiet])
      end
    ∧ match stopper s with None => sto = [] | Some p => thread_ok p sto (log s) (λ _ own _, own = []) end
    ∧ Forall2 (λ p own, thread_ok p own (log s) (λ _ own _, own = [])) (pool s) pos.

Lemma pool_mono ps pos l l' :
  Forall2 (λ (p : prog unit) own, thread_ok p own l (λ _ own _, own = [])) ps pos → l `sublist_of` l' →
  Forall2 (λ p own, thread_ok p own l' (λ _ own _, own = [])) ps pos.
Proof. intros H Hl. eapply Forall2_impl; [exact H|]. intros p own Ht. exact (thread_ok_mono _ _ _ _ _ Ht Hl). Qed.


Lemma concat_middle {A} (xs1 xs2 : list (list A)) (x : list A) : List.concat (xs1 ++ x :: xs2) ≡ₚ x ++ List.concat (xs1 ++ xs2).
Proof. rewrite !concat_app /=. solve_Permutation. Qed.

(** A completion is taken by the serial loop. *)
Lemma J_pop quiet c F e q l :
  J (Turn quiet :: F) e (c :: q) l →
  ∃ b, J (Hold (operation_of (tc_fence c)) (Some b) :: Turn quiet :: F) e q l ∧ tc_businessOperationId c = operation_of (tc_fence c) ∧ fence_ok (tc_fence c)
    ∧ (tc_status c = Ok tt → evidence (tc_fence c) (tc_preparedCleanup c) b l).
Proof.
  unfold J. destruct (started_ e).
  - intros (st & _ & Hi & Eid & Hf & Hev)%inv_take_completion. by exists (scaleInMetadataDone st).
  - intros [E0 (Hh & Hw & Hq)]. destruct (Hq c ltac:(by left)) as (Eid & Hf & b & _ & Hev). exists b. split_and!; try done. split; [done|]. split_and!; [done..|]. intros c' Hc'. apply Hq. by right.
Qed.

(** A work item is taken by a thread of the pool. *)
Lemma J_take w ws hs e q l :
  poolWork_ e = w :: ws → J hs e q l → J (holders_of w ++ hs) (set_work ws e) q l ∧ ∃ ops, work_ok ops l w.
Proof.
  intros Ew. unfold J. assert (started_ (set_work ws e) = started_ e) as -> by reflexivity. destruct (started_ e).
  - intros [Hi Hw]%(inv_take w ws); [|done]. split; [done|]. by eexists.
  - rewrite Ew. intros [E0 (Hh & Hw & Hq)]. split; [|exists ∅; apply Hw; by left]. split; [done|]. split_and!; [done| |done]. intros w' Hw'. apply Hw. by right.
Qed.

Lemma step_inv restartHandler_ s s' : step HashSHA256 localAddress_ options_ restartHandler_ published s s' → sys_inv s → sys_inv s'.
Proof.
  intros Hstep (so & sto & pos & HJ & Hlog & Hser & Hsto & Hpool). destruct Hstep as
    [e q l ps st notify|e q l ps st now|e c q l ps st|s p e q l p' Es Ha|e q l rc ps st|e q l sr ps st w ws Ew|s ps1 p ps2 e q l p' Ep Ha|e q l sr ps1 ps2 st|e q l sr ps deadline|s p e q l p' Es Ha|e q l sr ps rc];
    unfold sys_inv; cbn [ex queue log serial pool stopper] in *.
  - destruct Hser as [quiet ->]. exists [Turn quiet], sto, pos. split_and!; try done. exists l. split; [done|]. apply safe_notify.
  - destruct Hser as [quiet ->]. exists [Turn quiet], sto, pos. split_and!; try done. exists l. split; [done|]. apply safe_tick.
  - destruct Hser as [quiet ->]. destruct (J_pop _ _ _ _ _ _ HJ) as (b & HJ' & Eid & Hf & Hev). exists [Hold (operation_of (tc_fence c)) (Some b); Turn quiet], sto, pos.
    split_and!; try done. exists l. split; [done|]. eapply safe_weaken; [by apply safe_handle_completion|]. intros _ own _ ->. by exists quiet.
  - rewrite Es in Hser. destruct (advance_ok _ _ _ _ _ _ _ _ _ Hser HJ Hlog Ha) as (Hl & Hlog' & own' & HJ' & Ht). exists own', sto, pos. split_and!; try done.
    + destruct (stopper s); [by eapply thread_ok_mono|done].
    + by eapply pool_mono.
  - destruct Hser as (L & _ & quiet & ->). exists [Turn quiet], sto, pos. split_and!; try done. by exists quiet.
  - destruct (J_take _ _ _ _ _ _ Ew HJ) as [HJ' [ops Hw]]. exists so, sto, (pos ++ [holders_of w]). split_and!; try done.
    + assert (so ++ sto ++ List.concat (pos ++ [holders_of w]) ≡ₚ holders_of w ++ so ++ sto ++ List.concat pos) as -> by (rewrite concat_middle app_nil_r; solve_Permutation). done.
    + apply Forall2_app; [done|]. constructor; [|done]. exists l. split; [done|]. by eapply safe_run_work.
  - rewrite Ep in Hpool. apply Forall2_app_inv_l in Hpool as (pos1 & pos2' & H1 & H2 & ->). apply Forall2_cons_inv_l in H2 as (own & pos2 & Ht & H2 & ->).
    assert (∀ x, so ++ sto ++ List.concat (pos1 ++ x :: pos2) ≡ₚ x ++ so ++ sto ++ List.concat (pos1 ++ pos2)) as Hperm by (intros x; rewrite concat_middle; solve_Permutation).
    rewrite Hperm in HJ. destruct (advance_ok _ _ _ _ _ _ _ _ _ Ht HJ Hlog Ha) as (Hl & Hlog' & own' & HJ' & Ht'). exists so, sto, (pos1 ++ own' :: pos2). split_and!; try done.
    + by rewrite Hperm.
    + destruct (serial s); [by eapply thread_ok_mono|done].
    + destruct (stopper s); [by eapply thread_ok_mono|done].
    + apply Forall2_app; [by eapply pool_mono|]. constructor; [done|]. by eapply pool_mono.
  - apply Forall2_app_inv_l in Hpool as (pos1 & pos2' & H1 & H2 & ->). apply Forall2_cons_inv_l in H2 as (own & pos2 & (L & _ & Ho) & H2 & ->). cbn in Ho. subst own.
    exists so, sto, (pos1 ++ pos2). split_and!; try done; [|by apply Forall2_app]. by rewrite concat_middle in HJ.
  - subst sto. exists so, [], pos. split_and!; try done. exists l. split; [done|]. apply safe_stop.
  - rewrite Es in Hsto. assert (∀ x, so ++ x ++ List.concat pos ≡ₚ x ++ so ++ List.concat pos) as Hperm by (intros x; solve_Permutation). rewrite Hperm in HJ.
    destruct (advance_ok _ _ _ _ _ _ _ _ _ Hsto HJ Hlog Ha) as (Hl & Hlog' & own' & HJ' & Ht). exists so, own', pos. split_and!; try done.
    + by rewrite Hperm.
    + destruct (serial s); [by eapply thread_ok_mono|done].
    + by eapply pool_mono.
  - destruct Hsto as (L & _ & Ho). cbn in Ho. subst sto. by exists so, [], pos.
Qed.

Lemma init_sys_inv : sys_inv (init localAddress_ options_).
Proof.
  exists [Turn []], [], []. split_and!; [|by intros [|? ?]|by exists []|done|constructor]. unfold J, init, Start. cbn [ex queue log].
  destruct (_ && _) eqn:E.
  2:{ split; [done|]. split_and!; [intros op b Hin|intros w Hin|intros c Hin]; by apply elem_of_nil in Hin. }
  apply andb_true_iff in E as [_ Hv]. pose proof (options_small Hv). change (inv [Turn []] (diag (set_running true) (set_stopping false (set_started true (set_pool true TopologyTaskExecutor)))) [] []).
  constructor; try done; cbn; [constructor|..|lia|].
  - intros op. split; [by intros ?%elem_of_nil|]. intros (st & Hst & _). cbn in Hst. by rewrite lookup_empty in Hst.
  - split_and!; [intros op b Hin|intros w Hin|intros c Hin]; [by apply list_elem_of_singleton in Hin|by apply elem_of_nil in Hin..].
  - split; [done|]. intros quiet op Hq Hin. apply list_elem_of_singleton in Hq as ->. by apply elem_of_nil in Hin.
Qed.

Lemma reachable_inv restartHandler_ s : reachable HashSHA256 localAddress_ options_ restartHandler_ published s → sys_inv s.
Proof.
  intros H. apply (rtc_ind_r sys_inv (init localAddress_ options_)) with (3 := H); [apply init_sys_inv|]. intros y z _ Hstep. by eapply step_inv.
Qed.

(** The operations with a token are as many as those somebody has. *)
Lemma in_flight_size hs e q l :
  inv hs e q l → size (filter (λ p : string * OperationState, is_Some (cancellation p.2)) (operations_ e)) = List.length (all_ops hs e q).
Proof.
  intros Hi. rewrite -(size_list_to_set (C := gset string)); [apply (i_nodup _ _ _ _ Hi)|]. rewrite -(size_dom (D := gset string)). f_equal. apply leibniz_equiv. intros op.
  rewrite elem_of_list_to_set (i_tokens _ _ _ _ Hi op) elem_of_dom. unfold in_flight, is_Some at 1. split.
  - intros [st [Hst Ht]%map_lookup_filter_Some]. by exists st.
  - intros (st & Hst & Ht). exists st. by apply map_lookup_filter_Some.
Qed.

Lemma nobody_idle hs e q l :
  inv hs e q l → hold_ops hs = [] → bodies hs = 0%nat → restarts hs = 0%nat → poolWork_ e = [] → q = [] →
  inFlightOperations_ e = 0 ∧ callbackBodies_ e = 0 ∧ restartBatchInFlight_ e = false.
Proof.
  intros [] Hh Hb Hr Hw ->. unfold all_ops in *. rewrite Hw Hh in i_count0. rewrite Hw Hb in i_bodies0. rewrite Hw Hr in i_restart0. split_and!; [done..|].
  by destruct (restartBatchInFlight_ e).
Qed.



Lemma accounts_exact restartHandler_ s :
  reachable HashSHA256 localAddress_ options_ restartHandler_ published s → started_ (ex s) = true →
  NoDup (work_ops (poolWork_ (ex s)) ++ queue_ops (queue s))
  ∧ inFlightOperations_ (ex s) = Z.of_nat (size (filter (λ p : string * OperationState, is_Some (cancellation p.2)) (operations_ (ex s))))
  ∧ inFlightOperations_ (ex s) ≤ callbackThreads options_ + callbackQueueCapacity options_
  ∧ (serial s = None → stopper s = None → pool s = [] → poolWork_ (ex s) = [] → queue s = [] →
     inFlightOperations_ (ex s) = 0 ∧ callbackBodies_ (ex s) = 0 ∧ restartBatchInFlight_ (ex s) = false
     ∧ ∀ epoch, (RefreshNotifyEpochLocked epoch (ex s)).2 = Ok tt).
Proof.
  intros (so & sto & pos & HJ & _ & Hser & Hsto & Hpool)%reachable_inv Es. unfold J in HJ. rewrite Es in HJ. split_and!.
  - pose proof (i_nodup _ _ _ _ HJ) as Hnd. by apply NoDup_app in Hnd as (_ & _ & ?).
  - rewrite (in_flight_size _ _ _ _ HJ). apply (i_count _ _ _ _ HJ).
  - apply (i_cap _ _ _ _ HJ).
  - intros E1 E2 E3 E4 E5. rewrite E1 in Hser. rewrite E2 in Hsto. rewrite E3 in Hpool. destruct Hser as [quiet ->]. subst sto. apply Forall2_nil_inv_l in Hpool as ->.
    destruct (nobody_idle _ _ _ _ HJ eq_refl eq_refl eq_refl E4 E5) as (H1 & H2 & H3). split_and!; try done. intros epoch. unfold RefreshNotifyEpochLocked.
    destruct (_ && _); [|done]. assert (inFlightOperations_ (cancel_all (ex s)) = inFlightOperations_ (ex s)) as -> by reflexivity. by rewrite H1.
Qed.

End Invariant.

(** ** The topologies that controllers publish

    The snapshots that [Load] returns are made from the topologies of a history that controllers have written, which is what
    [Controller.controllers_serialize] proves of the store. *)
Section Published.
Context (HashSHA256 : chars → res chars) (UUID_SIZE : nat) `{PlanningLaws} (tokens_per_member : Z) (o : Controller.options).
Context (h : list TopologyState) (Hserial : Controller.serial HashSHA256 UUID_SIZE tokens_per_member o h).

Definition published_by (snap : TopologySnapshot) : Prop := ∃ t rev dig, t ∈ h ∧ Create t rev dig = Ok snap.

Lemma published_identities snap snap' b b' a m m' :
  published_by snap → published_by snap' → GetActiveBatch snap = Some b → GetActiveBatch snap' = Some b' →
  epoch b = epoch b' → FindMemberByAddress snap a = Ok m → FindMemberByAddress snap' a = Ok m' → state m ≠ INITIAL → state m' ≠ INITIAL → identity m = identity m'.
Proof.
  assert (∀ snap b a m, published_by snap → GetActiveBatch snap = Some b → FindMemberByAddress snap a = Ok m → state m ≠ INITIAL →
    ∃ t m0, t ∈ h ∧ activeBatch t = Some b ∧ m0 ∈ members t ∧ addr m0 = a ∧ state m0 ≠ INITIAL ∧ identity m0 = identity m) as Hin.
  { clear. intros snap b a m (t & rev & dig & Ht & Hc) Hb Hm Hs. apply Create_ok in Hc as (Hv & -> & _).
    apply find_by_index in Hm as [Hm <-]; [|apply canon_valid, Hv]. rewrite canon_members_perm in Hm. apply list_elem_of_fmap in Hm as (m0 & -> & Hm0). by exists t, m0. }
  intros Hp Hp' Hb Hb' Ee Hm Hm' Hs Hs'. destruct (Hin _ _ _ _ Hp Hb Hm Hs) as (t & m0 & ? & ? & ? & E0 & ? & <-).
  destruct (Hin _ _ _ _ Hp' Hb' Hm' Hs') as (t' & m0' & ? & ? & ? & E0' & ? & <-). apply (Controller.serial_identities HashSHA256 UUID_SIZE tokens_per_member o h t t' b b'); try done. congruence.
Qed.
End Published.

(** ** Properties *)


(** C22: The executor's accounts are exact.  Let the snapshots that [Load] returns be those of the topologies of a serial history of
    controllers.  In every run of the threads of one life of the executor, while it is started: an operation is at most once among the waiting work of the pool and
    the waiting completions, the counter of operations in flight is the number of operations with a cancellation token and never exceeds the
    threads and queue places configured; and when nothing waits and no thread is in the middle of its work nothing is in flight, no body
    is counted, no restart batch is pending, and a notification of a new epoch is accepted. *)
Theorem executor_accounts (HashSHA256 : chars → res chars) (UUID_SIZE : nat) `{PlanningLaws} (tokens_per_member : Z) (o : Controller.options)
    (localAddress_ : string) (options_ : TopologyTaskExecutorOptions) (restartHandler_ : bool) (h : list TopologyState) (s : sys)
    (Hserial : Controller.serial HashSHA256 UUID_SIZE tokens_per_member o h)
    (Hs : reachable HashSHA256 localAddress_ options_ restartHandler_ (published_by h) s) (Hstarted : started_ (ex s) = true) :
  NoDup (work_ops (poolWork_ (ex s)) ++ queue_ops (queue s))
  ∧ inFlightOperations_ (ex s) = Z.of_nat (size (filter (λ p : string * OperationState, is_Some (cancellation p.2)) (operations_ (ex s))))
  ∧ inFlightOperations_ (ex s) ≤ callbackThreads options_ + callbackQueueCapacity options_
  ∧ (serial s = None → stopper s = None → pool s = [] → poolWork_ (ex s) = [] → queue s = [] →
     inFlightOperations_ (ex s) = 0 ∧ callbackBodies_ (ex s) = 0 ∧ restartBatchInFlight_ (ex s) = false
     ∧ ∀ epoch, (RefreshNotifyEpochLocked epoch (ex s)).2 = Ok tt).
Proof. exact (accounts_exact _ _ _ _ (published_identities _ _ _ _ _ Hserial) _ _ Hs Hstarted). Qed.

(** ** Runs without interference

    [drive] runs a thread to its end; [oracle] answers its calls. *)
Definition waits (c : call) : bool := match c with CWaitDrained _ | CJoinPool => true | _ => false end.

Section Drive.
Context (HashSHA256 : chars → res chars) (localAddress_ : string) (options_ : TopologyTaskExecutorOptions) (restartHandler_ : bool)
  (published : TopologySnapshot → Prop) (oracle : ∀ c, answer c).

Fixpoint drive {A} (p : prog A) (e : executor) (q : list TopologyCallbackCompletion) (l : list event) {struct p}
    : option (A * executor * list TopologyCallbackCompletion * list event) :=
  match p with
  | Ret a => Some (a, e, q, l)
  | Atomic f k => drive (k e) (f e) q l
  | Call c k => if waits c then None else drive (k (oracle c)) e (effect c (oracle c) q) (l ++ log_of c (oracle c))
  end.

Inductive turn := TNotify (notify : TopologyTaskNotify) | TTick (now : Z) | TComplete | TWork.

(** One thing after the other, from an idle system. *)
Definition run_turn (t : turn) (s : sys) : option sys :=
  let serial p q := '(_, e, q, l) ← drive p (ex s) q (log s); Some (MkSys e q l None [] None) in
  match t with
  | TNotify notify => serial (HandleNotify HashSHA256 localAddress_ options_ notify) (queue s)
  | TTick now => serial (HandleTick HashSHA256 localAddress_ options_ now) (queue s)
  | TComplete => match queue s with c :: q => serial (HandleCompletion HashSHA256 localAddress_ options_ c) q | [] => None end
  | TWork =>
    match poolWork_ (ex s) with
    | w :: ws => '(_, e, q, l) ← drive (run_work HashSHA256 localAddress_ options_ restartHandler_ w) (set_work ws (ex s)) (queue s) (log s); Some (MkSys e q l None [] None)
    | [] => None
    end
  end.
Definition run_turns (ts : list turn) (s : sys) : option sys := foldl (λ o t, o ≫= run_turn t) (Some s) ts.

Context (Horacle : ∀ snap, oracle CLoad = Ok snap → published snap).
Abbreviation step := (step HashSHA256 localAddress_ options_ restartHandler_ published).

Lemma oracle_enabled c s : waits c = false → enabled published c s (oracle c).
Proof. by destruct c. Qed.

Lemma drive_serial p e q l rc e' q' l' ps st :
  drive p e q l = Some (rc, e', q', l') → rtc step (MkSys e q l (Some p) ps st) (MkSys e' q' l' None ps st).
Proof.
  revert e q l. induction p as [a|f k IH|c k IH]; intros e q l; cbn [drive].
  - intros [= -> -> -> ->]. apply rtc_once, step_serial_done.
  - intros H. eapply rtc_l; [|by apply IH]. by apply (step_serial _ _ _ _ _ (MkSys e q l (Some (Atomic f k)) ps st) (Atomic f k)).
  - destruct (waits c) eqn:Ew; [done|]. intros H. eapply rtc_l; [|by eapply IH].
    apply (step_serial _ _ _ _ _ (MkSys e q l (Some (Call c k)) ps st) (Call c k)); [done|]. exists (oracle c). split_and!; try done. by apply oracle_enabled.
Qed.

Lemma drive_pool p e q l e' q' l' sr st :
  drive p e q l = Some (tt, e', q', l') → rtc step (MkSys e q l sr [p] st) (MkSys e' q' l' sr [] st).
Proof.
  revert e q l. induction p as [a|f k IH|c k IH]; intros e q l; cbn [drive].
  - intros [= -> -> -> ->]. apply rtc_once, (step_pool_done _ _ _ _ _ _ _ _ _ [] []).
  - intros H. eapply rtc_l; [|by apply IH]. by apply (step_pool _ _ _ _ _ (MkSys e q l sr [Atomic f k] st) [] (Atomic f k) []).
  - destruct (waits c) eqn:Ew; [done|]. intros H. eapply rtc_l; [|by eapply IH].
    apply (step_pool _ _ _ _ _ (MkSys e q l sr [Call c k] st) [] (Call c k) []); [done|]. exists (oracle c). split_and!; try done. by apply oracle_enabled.
Qed.

Definition idle (s : sys) : Prop := serial s = None ∧ pool s = [] ∧ stopper s = None.

Lemma run_turn_steps t s s' : idle s → run_turn t s = Some s' → rtc step s s' ∧ idle s'.
Proof.
  destruct s as [e q l sr ps st]. unfold idle. cbn [serial pool stopper ex queue log]. intros (-> & -> & ->).
  destruct t as [notify|now| |]; cbn [run_turn ex queue log]; [| |destruct q as [|c q]; [done|]|destruct (poolWork_ e) as [|w ws] eqn:Ew; [done|]];
    (intros ([[[rc e'] q'] l'] & Hd & [= <-])%bind_Some; split; [|done]).
  - eapply rtc_l; [apply step_notify|by eapply drive_serial].
  - eapply rtc_l; [apply step_tick|by eapply drive_serial].
  - eapply rtc_l; [apply step_pop|by eapply drive_serial].
  - eapply rtc_l; [by apply step_begin|]. destruct rc. by apply drive_pool.
Qed.

Lemma run_turns_steps ts s s' : idle s → run_turns ts s = Some s' → rtc step s s' ∧ idle s'.
Proof.
  unfold run_turns. intros Hi. revert s'. induction ts as [|t ts IH] using rev_ind; intros s'; cbn; [intros [= <-]; by split|].
  rewrite foldl_app /=. intros (s1 & H1 & H2)%bind_Some. destruct (IH s1 H1) as [Hs1 Hi1]. destruct (run_turn_steps t s1 s' Hi1 H2) as [Hs2 Hi2]. split; [by etrans|done].
Qed.

Lemma run_turns_reachable ts s : run_turns ts (init localAddress_ options_) = Some s → reachable HashSHA256 localAddress_ options_ restartHandler_ published s.
Proof. intros H. by apply run_turns_steps in H as [? _]. Qed.

End Drive.

(** *** A member leaves: from the notification to the finished task

    The topologies are those of [Controller.sample_history]: the worker reads its task in the topology in which it began to leave, and
    checks its fences against the later one in which the target has announced its own exit. *)
Definition snapshot_of (i : nat) : TopologySnapshot :=
  match Create (default Controller.initial_topology (Controller.sample_history !! i)) 9 digest0 with Ok snap => snap | Fail _ => BuildIndexes Controller.initial_topology 9 digest0 end.
Definition leaving_snap : TopologySnapshot := Eval vm_compute in snapshot_of 1.
Definition later_snap : TopologySnapshot := Eval vm_compute in snapshot_of 0.
Definition leaving_task0 : TopologyMigrateTask :=
  MkMigrateTask EmptyString SCALE_IN 5 "10.0.0.1:8001" "10.0.0.2:8001" [MkTaskRange "10.0.0.2:8001" (MkRange 2062218043 2067982984) false].
Definition leaving_task : TopologyTask := with_id (BuildTaskId Controller.sample_digest (Migrate leaving_task0)) (Migrate leaving_task0).
Definition leaving_notify : TopologyTaskNotify := MkNotify (Some (MkBatch SCALE_IN 5)) [id_of leaving_task] ∅.

(** Collaborators that succeed. *)
Definition willing (c : call) : answer c :=
  match c return answer c with
  | CNow | CRandom => 1000
  | CExecute | CWaitDrained _ => true
  | CLoad => Ok leaving_snap
  | CRead _ => Ok later_snap
  | CReadTask _ _ _ _ => Ok leaving_task
  | CMarkTaskScopeFinished _ _ => (UPDATED, Ok tt)
  | CPrepareScaleInCleanup _ => (Ok tt, Some (MkCleanup true true))
  | CRecordHandoff _ _ | CJoinPool => tt
  | _ => Ok tt
  end.

Definition leave : list turn := [TNotify leaving_notify; TWork; TComplete; TTick 1000; TWork; TComplete; TWork; TComplete].
Definition left_system : option sys := run_turns Controller.sample_digest "10.0.0.1:8001" default_options true willing leave (init "10.0.0.1:8001" default_options).

Lemma willing_published snap : willing CLoad = Ok snap → published_by Controller.sample_history snap.
Proof. intros [= <-]. eexists _, 9, digest0. split; [right; left|]. vm_compute. reflexivity. Qed.

Lemma left_reachable s : left_system = Some s → reachable Controller.sample_digest "10.0.0.1:8001" default_options true (published_by Controller.sample_history) s.
Proof. apply run_turns_reachable, willing_published. Qed.

(** What is left of the run. *)
Definition left_log : list event := Eval vm_compute in match left_system with Some s => log s | None => [] end.

Lemma left_evaluates : log <$> left_system = Some left_log.
Proof. vm_compute. reflexivity. Qed.
Lemma left_started : (λ s, started_ (ex s)) <$> left_system = Some true.
Proof. vm_compute. reflexivity. Qed.
Lemma left_drained : (λ s, poolWork_ (ex s)) <$> left_system = Some [] ∧ queue <$> left_system = Some [].
Proof. split; vm_compute; reflexivity. Qed.

Lemma left_idle s : left_system = Some s → idle s.
Proof.
  assert (idle (init "10.0.0.1:8001" default_options)) as Hi by by split_and!. unfold left_system. intros E.
  exact (proj2 (run_turns_steps _ _ _ _ _ willing willing_published leave (init "10.0.0.1:8001" default_options) s Hi E)).
Qed.

Lemma left_facts :
  ∃ s, left_system = Some s ∧ log s = left_log ∧ started_ (ex s) = true ∧ poolWork_ (ex s) = [] ∧ queue s = [] ∧ idle s.
Proof.
  destruct left_system as [s|] eqn:E; [|pose proof left_evaluates as H; by rewrite E in H]. exists s. pose proof left_evaluates as H1. pose proof left_started as H2.
  destruct left_drained as [H3 H4]. rewrite E in H1 H2 H3 H4. injection H1 as H1. injection H2 as H2. injection H3 as H3. injection H4 as H4. by split_and!; [..|apply left_idle].
Qed.


Lemma executor_accounts_witness :
  ∃ s, left_system = Some s ∧ started_ (ex s) = true ∧ inFlightOperations_ (ex s) = 0 ∧ (RefreshNotifyEpochLocked 7 (ex s)).2 = Ok tt.
Proof.
  destruct left_facts as (s & E & _ & Es & Ew & Eq & Hs & Hp & Ht). exists s.
  destruct (executor_accounts Controller.sample_digest 16 2 Controller.sample_options "10.0.0.1:8001" default_options true Controller.sample_history s
              Controller.sample_serial (left_reachable s E) Es) as (_ & _ & _ & H).
  destruct (H Hs Ht Hp Ew Eq) as (H1 & _ & _ & H2). exact (conj E (conj Es (conj H1 (H2 7)))).
Defined.

End ExecutorRun.
