(* ===== verification/Observer.v ===== *)
(** * Observer: following the stored topology

    Model of [src/datasystem/cluster/runtime/topology_observer.{h,cpp}]: a process that routes but is no member reads the
    topology when it is told of a change, or once a second, and publishes it locally.  Every operation is
    modelled; the thread's [Run] is a sequence of iterations ([Run_step]) and its end ([Run_exit]), and [Shutdown], which waits
    for that thread, is the two halves around its wait.

    What [Run] pops and reads are inputs: the queue is an [EventDispatcher], the reader is [Janitor.Read] on the store as it is
    at that moment. *)
From S2P Require Import Prelude NetUtil Topology HashRing PlanBuilder Replan Membership KeyHelper RepositoryCodec Repository Materializer Janitor SnapshotState EventDispatcher.
Import Topology HashRing RepositoryCodec Repository SnapshotState.

Module Observer.
Local Open Scope Z_scope.

Definition OBSERVER_READ_TIMEOUT_MS : Z := 3000.

(** [lastError] is kept as the failing code; the flag [resyncRequired] is the dispatcher's. *)
Record TopologyObserverDiagnostics := MkObserverDiagnostics {
  od_running : bool; od_stopping : bool; od_topologyVersion : Z; od_readFailures : Z; od_shutdownTimeouts : Z;
  od_lastError : option StatusCode }.

(** [handler_] is whether the backend has the observer's event handler. *)
Record observer := MkObserver {
  snapshots_ : snapshots; dispatcher_ : @EventDispatcher.dispatcher Empty_set; handler_ : bool;
  started_ : bool; stopping_ : bool; threadExited_ : bool; diagnostics_ : TopologyObserverDiagnostics }.

Definition TopologyObserver : observer :=
  MkObserver TopologySnapshotState (EventDispatcher.CoordinationEventDispatcher 1024) false false false true
    (MkObserverDiagnostics false false 0 0 0 None).

Definition with_diagnostics (g : TopologyObserverDiagnostics) (o : observer) : observer :=
  MkObserver (snapshots_ o) (dispatcher_ o) (handler_ o) (started_ o) (stopping_ o) (threadExited_ o) g.

Definition RecordReadFailure (code : StatusCode) (o : observer) : observer :=
  let g := diagnostics_ o in
  with_diagnostics (MkObserverDiagnostics (od_running g) (od_stopping g) (od_topologyVersion g) (u64 (od_readFailures g + 1))
    (od_shutdownTimeouts g) (Some code)) o.

Definition record_version (snap : TopologySnapshot) (o : observer) : observer :=
  let g := diagnostics_ o in
  with_diagnostics (MkObserverDiagnostics (od_running g) (od_stopping g) (Version snap) (od_readFailures g)
    (od_shutdownTimeouts g) None) o.

(** [read] is the outcome of [reader_.Read]. *)
Definition Reload (fullRebuildAllowed : bool) (read : res TopologySnapshot) (s : snapshots) : snapshots * res unit :=
  match read with
  | Fail c => (s, Fail c)
  | Ok snap =>
    let '(s', outcome, rc) := Publish s (Some snap) in
    match rc, outcome with
    | Fail _, Some VERSION_GAP => if fullRebuildAllowed then PublishAfterFullRebuild s' (Some snap) else (s', rc)
    | _, _ => (s', rc)
    end
  end.

(** One iteration of [Run] that does not find [stopping_] set: the pop, the reload and the record of its outcome. *)
Definition Run_step (read : res TopologySnapshot) (o : observer) : observer :=
  let '(d, popped) := EventDispatcher.WaitPop (dispatcher_ o) in
  let '(d, s, rc) :=
    match popped with
    | Fail K_RPC_DEADLINE_EXCEEDED => let '(s, rc) := Reload true read (snapshots_ o) in (d, s, rc)
    | Ok _ => let '(d, _) := EventDispatcher.ConsumeResyncRequired d in let '(s, rc) := Reload true read (snapshots_ o) in (d, s, rc)
    | Fail c => (d, snapshots_ o, Fail c)
    end in
  let o := MkObserver s d (handler_ o) (started_ o) (stopping_ o) (threadExited_ o) (diagnostics_ o) in
  match rc with
  | Fail c => if stopping_ o then o else RecordReadFailure c o
  | Ok _ => match current_ s with Some snap => record_version snap o | None => o end
  end.

(** ** Start and shutdown

    What the backend answers ([watch], [sources]), what the first read gives ([read]) and whether the thread can be created
    ([created]) are inputs. *)
Definition InstallEventHandler (o : observer) : observer :=
  MkObserver (snapshots_ o) (dispatcher_ o) true (started_ o) (stopping_ o) (threadExited_ o) (diagnostics_ o).

(** An event of the backend, which reaches the observer while its handler is installed. *)
Definition on_event (e : EventDispatcher.CoordinationEvent) (o : observer) : option observer :=
  if handler_ o then
    '(d, _) ← EventDispatcher.SubmitCoordination (dispatcher_ o) e;
    Some (MkObserver (snapshots_ o) d true (started_ o) (stopping_ o) (threadExited_ o) (diagnostics_ o))
  else Some o.

Definition CleanupAfterStartFailure (o : observer) : observer :=
  MkObserver (snapshots_ o) (EventDispatcher.ShutdownIngress (dispatcher_ o)) false (started_ o) (stopping_ o) (threadExited_ o)
    (diagnostics_ o).

Definition RegisterWatchEvents (keys : KeyHelper.helper) (watch : res unit) (o : observer) : observer * res unit :=
  match EventDispatcher.BuildTopologyRoleWatchPlan EventDispatcher.ROLE_OBSERVER [] keys 0 with
  | Fail c => (o, Fail c)
  | Ok _ =>
    let o := InstallEventHandler o in
    match watch with Fail c => (CleanupAfterStartFailure o, Fail c) | Ok _ => (o, Ok tt) end
  end.

Definition ReloadInitialSnapshot (read : res TopologySnapshot) (o : observer) : observer * res unit :=
  let '(s, rc) := Reload true read (snapshots_ o) in
  let o := MkObserver s (dispatcher_ o) (handler_ o) (started_ o) (stopping_ o) (threadExited_ o) (diagnostics_ o) in
  match rc with
  | Fail c => (CleanupAfterStartFailure (RecordReadFailure c o), Fail c)
  | Ok _ => (match current_ s with Some snap => record_version snap o | None => o end, Ok tt)
  end.

Definition set_running (running : bool) (g : TopologyObserverDiagnostics) : TopologyObserverDiagnostics :=
  MkObserverDiagnostics running (od_stopping g) (od_topologyVersion g) (od_readFailures g) (od_shutdownTimeouts g) (od_lastError g).

Definition StartStateThread (created : bool) (o : observer) : observer * res unit :=
  let o := MkObserver (snapshots_ o) (dispatcher_ o) (handler_ o) true false false (set_running true (diagnostics_ o)) in
  if created then (o, Ok tt)
  else
    let o := MkObserver (snapshots_ o) (dispatcher_ o) (handler_ o) false (stopping_ o) true (set_running false (diagnostics_ o)) in
    (CleanupAfterStartFailure o, Fail K_RUNTIME_ERROR).

Definition Start (keys : KeyHelper.helper) (watch : res unit) (read : res TopologySnapshot) (created : bool) (o : observer)
    : observer * res unit :=
  if started_ o then (o, Fail K_INVALID)
  else
    let '(d, rc) := EventDispatcher.Start (dispatcher_ o) in
    let o := MkObserver (snapshots_ o) d (handler_ o) (started_ o) (stopping_ o) (threadExited_ o) (diagnostics_ o) in
    match rc with
    | Fail c => (o, Fail c)
    | Ok _ =>
      match RegisterWatchEvents keys watch o with
      | (o, Fail c) => (o, Fail c)
      | (o, Ok _) =>
        match ReloadInitialSnapshot read o with
        | (o, Fail c) => (o, Fail c)
        | (o, Ok _) => StartStateThread created o
        end
      end
    end.

(** The end of [Run], once its loop is left. *)
Definition Run_exit (o : observer) : observer :=
  MkObserver (snapshots_ o) (dispatcher_ o) (handler_ o) (started_ o) (stopping_ o) true (set_running false (diagnostics_ o)).

(** [Shutdown] up to its wait for the thread, which releases the mutex. *)
Definition Shutdown_request (o : observer) : observer :=
  if started_ o then
    let g := diagnostics_ o in
    MkObserver (snapshots_ o) (EventDispatcher.ShutdownIngress (dispatcher_ o)) false true true (threadExited_ o)
      (MkObserverDiagnostics (od_running g) true (od_topologyVersion g) (od_readFailures g) (od_shutdownTimeouts g) (od_lastError g))
  else o.

(** [Shutdown] from the end of its wait: the thread has left its loop, or the deadline has passed. *)
Definition Shutdown_finish (sources : res unit) (o : observer) : observer * res unit :=
  let g := diagnostics_ o in
  if threadExited_ o then
    (MkObserver (snapshots_ o) (dispatcher_ o) (handler_ o) false false true
       (MkObserverDiagnostics (od_running g) false (od_topologyVersion g) (od_readFailures g) (od_shutdownTimeouts g) (od_lastError g)), sources)
  else
    (with_diagnostics (MkObserverDiagnostics (od_running g) (od_stopping g) (od_topologyVersion g) (od_readFailures g)
       (u64 (od_shutdownTimeouts g + 1)) (od_lastError g)) o, Fail K_RPC_DEADLINE_EXCEEDED).

(** ** What a reload does *)
Definition same_topology (a b : TopologySnapshot) : Prop := Version a = Version b ∧ canonicalDigest_ a = canonicalDigest_ b.

(** Whether a snapshot read may follow the current one. *)
Definition follows (current : option TopologySnapshot) (snap : TopologySnapshot) : Prop :=
  match current with None => True | Some cur => Version cur < Version snap ∨ same_topology cur snap end.

Lemma Reload_spec s snap :
  valid_snapshot snap → (∀ cur, current_ s = Some cur → valid_snapshot cur) →
  (follows (current_ s) snap → ∃ s' cur, Reload true (Ok snap) s = (s', Ok tt) ∧ current_ s' = Some cur ∧ same_topology cur snap)
  ∧ (¬ follows (current_ s) snap → Reload true (Ok snap) s = (s, Fail K_INVALID)).
Proof.
  intros [Hv1 Hv2] Hcur. unfold Reload, Publish, follows, publish_outcome, same_topology. destruct (current_ s) as [cur|] eqn:Ec.
  2:{ split; [|tauto]. intros _. by eexists _, _. }
  destruct (Hcur cur eq_refl) as [Hc1 Hc2]. unfold INT64_MAX in *. rewrite (u64_small (Version cur + 1)); [lia|].
  destruct (Z.eqb_spec (Version snap) (Version cur + 1)) as [E|E]; [split; [by intros _; eexists _, _|intros []; lia]|].
  destruct (Z.ltb_spec (Version snap) (Version cur)) as [E1|E1]; [split; [lia|done]|].
  destruct (Z.ltb_spec (Version cur) (Version snap)) as [E2|E2].
  - unfold PublishAfterFullRebuild. rewrite Ec. apply Z.ltb_lt in E2 as E3. rewrite E3. split; [by intros _; eexists _, _|intros []; lia].
  - assert (Version cur = Version snap) as Ev by lia. case_bool_decide as Ed.
    + split; [|intros []; by right]. intros _. exists s, cur. by rewrite Ec.
    + split; [intros [?|[_ ?]]; [lia|congruence]|done].
Qed.

Lemma Run_step_reloads o r :
  EventDispatcher.accepting_ (dispatcher_ o) = true →
  snapshots_ (Run_step r o) = (Reload true r (snapshots_ o)).1 ∧ EventDispatcher.accepting_ (dispatcher_ (Run_step r o)) = true.
Proof.
  intros Ha. unfold Run_step, EventDispatcher.WaitPop. destruct (EventDispatcher.queue_ (dispatcher_ o)) as [|[n x] q]; [rewrite Ha|]; cbn;
    (destruct (Reload true r (snapshots_ o)) as [s [[]|c]]; cbn; [destruct (current_ s)|destruct (stopping_ o)]; done).
Qed.

(** What the observer has after a sequence of reads. *)
Definition newest (reads : list (res TopologySnapshot)) (current : option TopologySnapshot) : Prop :=
  (∀ snap, Ok snap ∈ reads → ∃ cur, current = Some cur ∧ Version snap ≤ Version cur)
  ∧ ∀ cur, current = Some cur → ∃ snap, Ok snap ∈ reads ∧ same_topology cur snap.

(** The reads of one history: valid, and a version has one content. *)
Definition one_history (reads : list (res TopologySnapshot)) : Prop :=
  (∀ a, Ok a ∈ reads → valid_snapshot a)
  ∧ ∀ a b, Ok a ∈ reads → Ok b ∈ reads → Version a = Version b → canonicalDigest_ a = canonicalDigest_ b.

Lemma newest_snoc reads r s :
  one_history (reads ++ [r]) → newest reads (current_ s) → newest (reads ++ [r]) (current_ (Reload true r s).1).
Proof.
  intros [Hv Hd] [H1 H2]. destruct r as [snap|c].
  2:{ cbn. split.
      - intros a [Ha|Ha%list_elem_of_singleton]%elem_of_app; [by apply H1|done].
      - intros cur Hc. destruct (H2 cur Hc) as (a & Ha & ?). exists a. split; [|done]. apply elem_of_app. by left. }
  assert (Ok snap ∈ reads ++ [Ok snap]) as Hin. { apply elem_of_app. right. by left. }
  assert (∀ cur, current_ s = Some cur → valid_snapshot cur) as Hcur.
  { intros cur Hc. destruct (H2 cur Hc) as (a & Ha & Ev & _). unfold valid_snapshot. rewrite Ev. apply (Hv a). apply elem_of_app. by left. }
  destruct (Reload_spec s snap (Hv snap Hin) Hcur) as [Hok Hbad].
  assert (follows (current_ s) snap ∨ ¬ follows (current_ s) snap ∧ ∃ cur, current_ s = Some cur ∧ Version snap < Version cur) as Hcase.
  { unfold follows. destruct (current_ s) as [cur|] eqn:Ec; [|by left]. destruct (H2 cur eq_refl) as (a & Ha & Ev & Ed).
    destruct (Z.lt_trichotomy (Version cur) (Version snap)) as [?|[E|?]]; [by left; left| |right].
    - left. right. split; [done|]. rewrite Ed. apply (Hd a snap); [apply elem_of_app; by left|done|by rewrite -Ev].
    - split; [intros [?|[? _]]; lia|]. by exists cur. }
  destruct Hcase as [Hf|(Hn & cur & Ec & Hlt)].
  - destruct (Hok Hf) as (s' & cur & -> & Ec & Es). cbn [fst]. rewrite Ec. split.
    + intros a Ha. exists cur. split; [done|]. destruct Es as [Es _]. rewrite Es. apply elem_of_app in Ha as [Ha|Ha%list_elem_of_singleton]; [|by injection Ha as ->].
      destruct (H1 a Ha) as (cur0 & E0 & Hle). unfold follows in Hf. rewrite E0 in Hf. destruct Hf as [?|[? _]]; lia.
    + intros cur' [= <-]. by exists snap.
  - rewrite (Hbad Hn). cbn [fst]. split.
    + intros a [Ha|Ha%list_elem_of_singleton]%elem_of_app; [by apply H1|]. injection Ha as ->. exists cur. split; [done|lia].
    + intros cur' Hc. destruct (H2 cur' Hc) as (a & Ha & ?). exists a. split; [|done]. apply elem_of_app. by left.
Qed.

(** An iteration of the loop with the queue as the backend's events have left it by then. *)
Definition iterate (o : observer) (step : @EventDispatcher.dispatcher Empty_set * res TopologySnapshot) : observer :=
  Run_step step.2 (MkObserver (snapshots_ o) step.1 (handler_ o) (started_ o) (stopping_ o) (threadExited_ o) (diagnostics_ o)).

Lemma Start_ok keys watch read created o o' :
  Start keys watch read created o = (o', Ok tt) →
  Reload true read (snapshots_ o) = (snapshots_ o', Ok tt) ∧ started_ o' = true ∧ handler_ o' = true ∧ threadExited_ o' = false
  ∧ EventDispatcher.accepting_ (dispatcher_ o') = true.
Proof.
  unfold Start, RegisterWatchEvents, ReloadInitialSnapshot, StartStateThread. destruct (started_ o); [done|].
  destruct (EventDispatcher.Start (dispatcher_ o)) as [d [[]|c]] eqn:Ed; [|done].
  assert (EventDispatcher.accepting_ d = true) as Ha.
  { unfold EventDispatcher.Start in Ed. destruct (_ && _); [|done]. by injection Ed as <-. }
  destruct (EventDispatcher.BuildTopologyRoleWatchPlan _ _ _ _); [|done]. destruct watch as [[]|]; [|done]. cbn.
  destruct (Reload true read (snapshots_ o)) as [s [[]|c]]; cbn; [|done].
  destruct (current_ s); cbn; destruct created; intros [= <-]; done.
Qed.

(** an observer ends up with the newest topology it has read.  Once it has started, over any sequence of iterations of its
    loop, with any events in its queue, timeouts and failing reads in between and reads arriving in any order, the published
    snapshot is one that was read and no read had a larger version; a read that is older than the published snapshot changes
    nothing. *)
Theorem observer_catches_up keys watch read (o : observer) (steps : list (@EventDispatcher.dispatcher Empty_set * res TopologySnapshot))
    (Hs : Start keys watch read true TopologyObserver = (o, Ok tt)) (Hh : one_history (read :: (snd <$> steps)))
    (Hacc : Forall (λ st, EventDispatcher.accepting_ st.1 = true) steps) :
  newest (read :: (snd <$> steps)) (current_ (snapshots_ (foldl iterate o steps))).
Proof.
  apply Start_ok in Hs as (Hr & _). induction steps as [|st steps IH] using rev_ind.
  - cbn in *. pose proof (newest_snoc [] read (snapshots_ TopologyObserver) Hh) as Hn. rewrite Hr in Hn. apply Hn.
    by split; [intros ? ?%elem_of_nil|].
  - rewrite fmap_app app_comm_cons in Hh |- *. apply Forall_app in Hacc as [Hacc [Ha _]%Forall_cons_1].
    rewrite foldl_app. cbn [foldl]. unfold iterate at 1. destruct (Run_step_reloads (MkObserver (snapshots_ (foldl iterate o steps)) st.1
      (handler_ (foldl iterate o steps)) (started_ (foldl iterate o steps)) (stopping_ (foldl iterate o steps))
      (threadExited_ (foldl iterate o steps)) (diagnostics_ (foldl iterate o steps))) st.2 Ha) as [-> _].
    apply newest_snoc; [done|]. apply IH; [|done]. destruct Hh as [H1 H2]. split; intros; [apply H1|apply H2]; rewrite ?elem_of_app; auto.
Qed.

Definition queue_after (events : list EventDispatcher.CoordinationEvent) : @EventDispatcher.dispatcher Empty_set :=
  foldl (λ d e, match EventDispatcher.SubmitCoordination d e with Some (d, _) => d | None => d end)
    (EventDispatcher.Start (EventDispatcher.CoordinationEventDispatcher 1024)).1 events.

Definition sample_steps : list (@EventDispatcher.dispatcher Empty_set * res TopologySnapshot) :=
  [(queue_after [], Fail K_TRY_AGAIN); (queue_after [EventDispatcher.MkEvent EventDispatcher.EVENT_PUT EmptyString [] 0 0], Ok snap5); (queue_after [], Ok snap4)].

Lemma observer_catches_up_witness :
  newest [Ok snap4; Fail K_TRY_AGAIN; Ok snap5; Ok snap4]
    (current_ (snapshots_ (foldl iterate (Start (KeyHelper.TopologyKeyHelper []) (Ok tt) (Ok snap4) true TopologyObserver).1 sample_steps))).
Proof.
  apply (observer_catches_up (KeyHelper.TopologyKeyHelper []) (Ok tt) (Ok snap4)
    (Start (KeyHelper.TopologyKeyHelper []) (Ok tt) (Ok snap4) true TopologyObserver).1 sample_steps); [vm_compute; reflexivity| |repeat constructor].
  cbn [snd fmap list_fmap sample_steps].
  split.
  - intros a Ha. repeat (apply elem_of_cons in Ha as [Ha|Ha]; [first [discriminate Ha|injection Ha as ->; vm_compute; split; [reflexivity|discriminate]]|]).
    by apply elem_of_nil in Ha.
  - intros a b Ha Hb _.
    assert (∀ c, Ok c ∈ [Ok snap4; Fail K_TRY_AGAIN; Ok snap5; Ok snap4] → canonicalDigest_ c = digest0) as Hc.
    { intros c Hc. repeat (apply elem_of_cons in Hc as [Hc|Hc]; [first [discriminate Hc|injection Hc as ->; reflexivity]|]). by apply elem_of_nil in Hc. }
    by rewrite (Hc a Ha) (Hc b Hb).
Defined.

(** ** The life of an observer *)
Inductive life_op :=
| LStart (keys : KeyHelper.helper) (watch : res unit) (read : res TopologySnapshot) (created : bool)
| LEvent (e : EventDispatcher.CoordinationEvent) | LRun (read : res TopologySnapshot) | LExit | LRequest | LFinish (sources : res unit).

(** The thread runs from its creation to the end of [Run], which it reaches only after a request to stop;
    [Shutdown] finishes only what it has requested. *)
Definition live (o : observer) (op : life_op) : option observer :=
  match op with
  | LStart keys watch read created => Some (Start keys watch read created o).1
  | LEvent e => on_event e o
  | LRun read => if threadExited_ o then None else Some (Run_step read o)
  | LExit => if negb (threadExited_ o) && stopping_ o then Some (Run_exit o) else None
  | LRequest => Some (Shutdown_request o)
  | LFinish sources => if started_ o && stopping_ o then Some (Shutdown_finish sources o).1 else None
  end.

Fixpoint live_run (o : observer) (ops : list life_op) : option observer :=
  match ops with [] => Some o | op :: ops => o ← live o op; live_run o ops end.

Definition life_inv (o : observer) : Prop :=
  EventDispatcher.capacity_ (dispatcher_ o) = 1024%nat
  ∧ handler_ o = EventDispatcher.accepting_ (dispatcher_ o)
  ∧ handler_ o = started_ o && negb (stopping_ o)
  ∧ od_running (diagnostics_ o) = negb (threadExited_ o)
  ∧ od_stopping (diagnostics_ o) = stopping_ o
  ∧ (threadExited_ o = false → started_ o = true)
  ∧ (stopping_ o = true → started_ o = true).

Lemma Submit_frame {C} (d d' : @EventDispatcher.dispatcher C) e b r :
  EventDispatcher.Submit d e b = Some (d', r) →
  EventDispatcher.capacity_ d' = EventDispatcher.capacity_ d ∧ EventDispatcher.accepting_ d' = EventDispatcher.accepting_ d.
Proof.
  unfold EventDispatcher.Submit, EventDispatcher.enqueue. intros H.
  repeat (case_match; simplify_eq/=; try (by split)).
Qed.

Lemma Run_step_frame o r :
  let o' := Run_step r o in
  EventDispatcher.capacity_ (dispatcher_ o') = EventDispatcher.capacity_ (dispatcher_ o)
  ∧ EventDispatcher.accepting_ (dispatcher_ o') = EventDispatcher.accepting_ (dispatcher_ o)
  ∧ handler_ o' = handler_ o ∧ started_ o' = started_ o ∧ stopping_ o' = stopping_ o ∧ threadExited_ o' = threadExited_ o
  ∧ od_running (diagnostics_ o') = od_running (diagnostics_ o) ∧ od_stopping (diagnostics_ o') = od_stopping (diagnostics_ o).
Proof.
  unfold Run_step, EventDispatcher.WaitPop. destruct (EventDispatcher.queue_ (dispatcher_ o)) as [|[n x] q]; [destruct (EventDispatcher.accepting_ _) eqn:Ea|]; cbn;
    try (destruct (Reload true r (snapshots_ o)) as [s [[]|c]]; cbn; [destruct (current_ s)|destruct (stopping_ o)]; done).
  by destruct (stopping_ o).
Qed.

Lemma Observer_Start_inv keys watch read created o : life_inv o → life_inv (Start keys watch read created o).1.
Proof.
  intros (Hc & Hh & Hs & Hr & Hst & Ht & Hp). unfold Start. destruct (started_ o) eqn:Es; [by unfold life_inv; rewrite Es|].
  assert (stopping_ o = false) as Ep. { destruct (stopping_ o); [by discriminate Hp|done]. }
  assert (threadExited_ o = true) as Et. { destruct (threadExited_ o); [done|by discriminate Ht]. }
  cbn in Hs. rewrite Hs in Hh. unfold EventDispatcher.Start. rewrite Hc -Hh. cbn.
  unfold RegisterWatchEvents, ReloadInitialSnapshot, StartStateThread.
  destruct (EventDispatcher.BuildTopologyRoleWatchPlan _ _ _ _) eqn:Eplan; [|by discriminate Eplan]. cbn.
  destruct watch as [[]|c]; cbn; [|by unfold life_inv; cbn; rewrite ?Hr ?Hst ?Et ?Ep ?Es].
  destruct (Reload true read (snapshots_ o)) as [s [[]|c]]; cbn; [|by unfold life_inv; cbn; rewrite ?Hr ?Hst ?Et ?Ep ?Es].
  destruct (current_ s), created; unfold life_inv; cbn; rewrite ?Hst ?Ep; done.
Qed.

(** an observer can always be started again.  After any sequence of starts, successful or failed at any point, events,
    iterations of its thread and shutdowns, finished or timed out: the backend holds its handler and its queue takes events
    exactly while it is started and not stopping, the diagnostics say whether its thread runs, a thread runs only in a started
    observer; and an observer that is not started is started by [Start] unless the backend refuses the watch, the topology
    cannot be read or published, or the thread cannot be created. *)
Theorem observer_restartable (ops : list life_op) (o : observer) (Hr : live_run TopologyObserver ops = Some o) :
  life_inv o
  ∧ (started_ o = false → ∀ keys watch read created,
       (Start keys watch read created o).2 =
         let! _ := watch in let! _ := (Reload true read (snapshots_ o)).2 in if created then Ok tt else Fail K_RUNTIME_ERROR).
Proof.
  assert (life_inv o) as Hi.
  { assert (life_inv TopologyObserver) as H0 by done. revert Hr H0. generalize TopologyObserver. induction ops as [|op ops IH]; intros o0 Hr H0; cbn in Hr; [by simplify_eq|].
    destruct (live o0 op) as [o1|] eqn:El; [|done]. apply (IH o1 Hr). clear IH Hr. destruct op; cbn in El.
    - simplify_eq. by apply Observer_Start_inv.
    - unfold on_event in El. destruct (handler_ o0) eqn:Eh; [|by simplify_eq]. unfold EventDispatcher.SubmitCoordination in El.
      destruct (EventDispatcher.Submit _ _ _) as [[d r]|] eqn:Es; [|done]. apply Submit_frame in Es as [E1 E2]. cbn in El. simplify_eq.
      destruct H0 as (Hc & Hh & Hs & H0). unfold life_inv. cbn. rewrite E1 E2. rewrite Eh in Hs, Hh. done.
    - destruct (threadExited_ o0) eqn:Et; [done|]. simplify_eq. pose proof (Run_step_frame o0 read) as (E1 & E2 & E3 & E4 & E5 & E6 & E7 & E8).
      unfold life_inv. by rewrite E1 E2 E3 E4 E5 E6 E7 E8.
    - destruct (_ && _) eqn:E; [|done]. simplify_eq. destruct H0 as (? & ? & ? & ? & ? & ? & ?). unfold life_inv. by cbn.
    - simplify_eq. unfold Shutdown_request. destruct (started_ o0) eqn:Es; [|done]. destruct H0 as (? & ? & ? & ? & ? & ? & ?). unfold life_inv. by cbn.
    - destruct (_ && _) eqn:E; [|done]. apply andb_true_iff in E as [E1 E2]. simplify_eq. destruct H0 as (? & ? & H2 & ? & ? & ? & ?).
      unfold Shutdown_finish. rewrite E1 E2 in H2. destruct (threadExited_ o0) eqn:Et; unfold life_inv; cbn; rewrite ?Et ?E1 ?E2; split_and!; cbn in *; congruence. }
  split; [done|]. intros Es keys watch read created. destruct Hi as (Hc & Hh & Hs & _). unfold Start. rewrite Es in Hs |- *. cbn in Hs.
  rewrite Hs in Hh. unfold EventDispatcher.Start. rewrite Hc -Hh. cbn. unfold RegisterWatchEvents, ReloadInitialSnapshot, StartStateThread.
  destruct (EventDispatcher.BuildTopologyRoleWatchPlan _ _ _ _) eqn:Eplan; [|by discriminate Eplan]. destruct watch as [[]|c]; [|done]. cbn.
  destruct (Reload true read (snapshots_ o)) as [s [[]|c]]; cbn; [|done]. by destruct (current_ s), created.
Qed.

Definition sample_life : list life_op :=
  [LStart (KeyHelper.TopologyKeyHelper []) (Ok tt) (Fail K_TRY_AGAIN) true; LStart (KeyHelper.TopologyKeyHelper []) (Ok tt) (Ok snap4) true;
   LEvent (EventDispatcher.MkEvent EventDispatcher.EVENT_PUT EmptyString [] 0 0); LRequest; LFinish (Ok tt); LRun (Ok snap5); LExit; LFinish (Ok tt)].

Lemma observer_restartable_witness :
  ∃ o, live_run TopologyObserver sample_life = Some o ∧ started_ o = false ∧ life_inv o.
Proof.
  destruct (live_run TopologyObserver sample_life) as [o|] eqn:E; [|vm_compute in E; discriminate E]. exists o.
  split; [reflexivity|]. split; [|apply (observer_restartable sample_life o E)].
  vm_compute in E. injection E as <-. reflexivity.
Defined.

End Observer.
