(* ===== verification/SlotFile.v ===== *)
(** * SlotFile: the file system under the slot store

    The slot store ([src/datasystem/common/l2cache/slot_client]) keeps objects in the files of a slot
    directory.  This file models what it uses of the operating system and of
    [src/datasystem/common/util/file_util.cpp], and the names of [slot_file_util.cpp].

    A disk has directories that map names to inodes, and the bytes of the inodes; a file descriptor is the
    inode it was opened on, so that a descriptor follows its file through renames and survives its removal.
    A path is a directory and a name in it, which is what every [JoinPath(slotPath, name)] of the code
    builds; a directory path is a string.  Calls the code makes can fail because a file is not there or a
    directory is missing; device errors and exhausted descriptors are not modelled.

    A program is a function of the disk that returns, besides its result and the disk it leaves, the disks
    it went through: the states in which a crash of the process can leave the files.  [pwrite] is taken to
    write one byte at a time, as the loop around it allows, so that every torn write is among them.  [fsync]
    has no effect in this model: what a crash of the machine loses of written pages is not modelled. *)
From S2P Require Import Prelude NetUtil KeyHelper.
From Stdlib Require Import Ascii String.
Import NetUtil KeyHelper.

Module SlotFile.
Local Open Scope Z_scope.

Record disk := MkDisk {
  dirs : gmap chars (gmap chars nat);
  inodes : gmap nat chars;
  next_ino : nat
}.

Definition path : Type := chars * chars.

Definition lookup_ino (d : disk) (p : path) : option nat := m ← dirs d !! p.1; m !! p.2.
Definition content (d : disk) (p : path) : option chars := i ← lookup_ino d p; inodes d !! i.

(** ** Programs *)
Definition io (A : Type) : Type := disk → list disk * A * disk.

Definition ret {A} (a : A) : io A := λ d, ([], a, d).
Definition query {A} (f : disk → A) : io A := λ d, ([], f d, d).
Definition act {A} (f : disk → A * disk) : io A := λ d, let '(a, d') := f d in ([d'], a, d').
Definition bind {A B} (p : io A) (k : A → io B) : io B := λ d,
  let '(t1, a, d1) := p d in let '(t2, b, d2) := k a d1 in (t1 ++ t2, b, d2).

(** [RETURN_IF_NOT_OK] around a call on the disk. *)
Definition bind_ok {A B} (p : io (res A)) (k : A → io (res B)) : io (res B) :=
  bind p (λ r, match r with Ok a => k a | Fail c => ret (Fail c) end).

Definition outcome {A} (x : list disk * A * disk) : A := x.1.2.
Definition final {A} (x : list disk * A * disk) : disk := x.2.
Definition crash_states {A} (x : list disk * A * disk) : list disk := x.1.1.

End SlotFile.

Notation "'io!' x := p 'in' k" := (SlotFile.bind p (λ x, k))
  (at level 10, x pattern, p at level 100, k at level 200) : ds_scope.
Notation "'do!' x := p 'in' k" := (SlotFile.bind_ok p (λ x, k))
  (at level 10, x pattern, p at level 100, k at level 200) : ds_scope.
Notation "'assert!' b 'else' c 'in' k" := (if b%bool then k else SlotFile.ret (Fail c))
  (at level 10, b at level 100, c at level 100, k at level 200) : ds_scope.

Module FileUtil.
Import SlotFile.
Local Open Scope Z_scope.

Definition zsize (s : chars) : Z := Z.of_nat (List.length s).
Definition zero : ascii := Ascii.zero.
Definition SSIZE_MAX : Z := 2 ^ 63 - 1.

(** ** System calls *)
Definition set_dir (dir : chars) (m : gmap chars nat) (d : disk) : disk :=
  MkDisk (<[dir := m]> (dirs d)) (inodes d) (next_ino d).
Definition set_inode (i : nat) (s : chars) (d : disk) : disk :=
  MkDisk (dirs d) (<[i := s]> (inodes d)) (next_ino d).

Definition dir_exists (d : disk) (dir : chars) : bool := bool_decide (is_Some (dirs d !! dir)).

(** [open(O_CREAT | O_RDWR)]. *)
Definition sys_creat (p : path) (d : disk) : res nat * disk :=
  match dirs d !! p.1 with
  | None => (Fail K_IO_ERROR, d)
  | Some m =>
    if bool_decide (p.2 = []) then (Fail K_IO_ERROR, d)
    else match m !! p.2 with
         | Some i => (Ok i, d)
         | None => (Ok (next_ino d),
                    MkDisk (<[p.1 := <[p.2 := next_ino d]> m]> (dirs d)) (<[next_ino d := []]> (inodes d)) (S (next_ino d)))
         end
  end.

(** [pwrite] of [bs] at [off]: a gap after the end of the file reads as zeros. *)
Definition overwrite (s : chars) (off : nat) (bs : chars) : chars :=
  take off s ++ replicate (off - List.length s) zero ++ bs ++ drop (off + List.length bs) s.

Definition resize (s : chars) (n : nat) : chars := take n s ++ replicate (n - List.length s) zero.

Definition sys_pwrite (fd : nat) (bs : chars) (off : Z) (d : disk) : unit * disk :=
  (tt, set_inode fd (overwrite (default [] (inodes d !! fd)) (Z.to_nat off) bs) d).

Definition sys_truncate (p : path) (size : Z) (d : disk) : res unit * disk :=
  match lookup_ino d p with
  | Some i => (Ok tt, set_inode i (resize (default [] (inodes d !! i)) (Z.to_nat size)) d)
  | None => (Fail K_IO_ERROR, d)
  end.

(** [unlink]: whether the name was there. *)
Definition sys_unlink (p : path) (d : disk) : bool * disk :=
  match dirs d !! p.1 with
  | Some m => match m !! p.2 with
              | Some _ => (true, set_dir p.1 (delete p.2 m) d)
              | None => (false, d)
              end
  | None => (false, d)
  end.

(** [rename] of a file, replacing the target. *)
Definition sys_rename (src dst : path) (d : disk) : bool * disk :=
  match dirs d !! src.1, lookup_ino d src with
  | Some m, Some i =>
    let d1 := set_dir src.1 (delete src.2 m) d in
    match dirs d1 !! dst.1 with
    | Some m' => (true, set_dir dst.1 (<[dst.2 := i]> m') d1)
    | None => (false, d)
    end
  | _, _ => (false, d)
  end.

(** [rename] of a directory onto a name that is free, or an empty directory. *)
Definition sys_rename_dir (src dst : chars) (d : disk) : bool * disk :=
  match dirs d !! src with
  | Some m => if bool_decide (default ∅ (dirs d !! dst) = ∅)
              then (true, MkDisk (<[dst := m]> (delete src (dirs d))) (inodes d) (next_ino d)) else (false, d)
  | None => (false, d)
  end.

Definition sys_mkdir (dir : chars) (d : disk) : unit * disk :=
  (tt, if dir_exists d dir then d else set_dir dir ∅ d).

Definition sys_rmdir (dir : chars) (d : disk) : unit * disk :=
  (tt, MkDisk (delete dir (dirs d)) (inodes d) (next_ino d)).

(** ** file_util.cpp *)
(** [access]: an empty name stands for the directory. *)
Definition FileExist (p : path) : io bool := query (λ d,
  if bool_decide (p.2 = []) then dir_exists d p.1 else bool_decide (is_Some (lookup_ino d p))).
Definition DirExist (dir : chars) : io bool := query (λ d, dir_exists d dir).

Definition CreateDir (dir : chars) : io (res unit) := bind (act (sys_mkdir dir)) (λ _, ret (Ok tt)).

(** [OpenFile] of an existing file and with [O_CREAT]. *)
Definition OpenFile (p : path) : io (res nat) := query (λ d,
  match lookup_ino d p with Some i => Ok i | None => Fail K_IO_ERROR end).
Definition OpenFile_creat (p : path) : io (res nat) := act (sys_creat p).

Definition FdFileSize (fd : nat) : io Z := query (λ d, zsize (default [] (inodes d !! fd))).

(** [FileSize]: -1 when there is no such file. *)
Definition FileSize (p : path) : io Z := query (λ d,
  match content d p with Some s => zsize s | None => -1 end).

Definition EnsureFile (p : path) : io (res unit) :=
  io! exists_ := FileExist p in
  if exists_ : bool then ret (Ok tt)
  else do! _ := OpenFile_creat p in ret (Ok tt).

Fixpoint WriteFile_loop (fd : nat) (bs : chars) (offset totalWrite : Z) : io (res unit) :=
  match bs with
  | [] => ret (Ok tt)
  | b :: bs' =>
    assert! offset <=? SSIZE_MAX - totalWrite else K_IO_ERROR in
    io! _ := act (sys_pwrite fd [b] (offset + totalWrite)) in
    WriteFile_loop fd bs' offset (totalWrite + 1)
  end.

Definition WriteFile (fd : nat) (bs : chars) (offset : Z) : io (res unit) :=
  assert! 0 <=? offset else K_INVALID in WriteFile_loop fd bs offset 0.

(** [ReadFile]: fewer bytes than asked for are an error. *)
Definition ReadFile (fd : nat) (count offset : Z) : io (res chars) :=
  assert! 0 <=? offset else K_INVALID in
  query (λ d,
    let got := take (Z.to_nat count) (drop (Z.to_nat offset) (default [] (inodes d !! fd))) in
    if zsize got =? count then Ok got else Fail K_IO_ERROR).

Definition ReadWholeFile (p : path) : io (res chars) := query (λ d,
  match content d p with Some s => Ok s | None => Fail K_IO_ERROR end).

Definition DeleteFile (p : path) : io (res unit) :=
  io! found := act (sys_unlink p) in ret (if found : bool then Ok tt else Fail K_RUNTIME_ERROR).

(** [RenameFile]: the target is removed first. *)
Definition RenameFile (src dst : path) : io (res unit) :=
  io! _ := act (sys_unlink dst) in
  io! done_ := act (sys_rename src dst) in
  ret (if done_ : bool then Ok tt else Fail K_RUNTIME_ERROR).

(** [RenameFile] on directories: [std::remove] removes the target when it is empty. *)
Definition RenameDir (src dst : chars) : io (res unit) :=
  io! _ := act (λ d, if bool_decide (dirs d !! dst = Some ∅) then sys_rmdir dst d else (tt, d)) in
  io! done_ := act (sys_rename_dir src dst) in
  ret (if done_ : bool then Ok tt else Fail K_RUNTIME_ERROR).

(** [mkstemp]: a name of the given beginning that is not in use.  The characters it puts after it are
    taken to be as many X as it takes. *)
Fixpoint mkstemp_search (fuel : nat) (base : chars) (n : nat) (m : gmap chars nat) : option chars :=
  match fuel with
  | O => None
  | S fuel' =>
    let name := base ++ replicate n "X"%char in
    match m !! name with None => Some name | Some _ => mkstemp_search fuel' base (S n) m end
  end.

Definition tmp_base (name : chars) : chars := name ++ lit_str ".tmp.".

Definition mkstemp (p : path) : io (res path) := query (λ d,
  match dirs d !! p.1 with
  | Some m => match mkstemp_search (S (size m)) (tmp_base p.2) 0 m with
              | Some name => Ok (p.1, name)
              | None => Fail K_IO_ERROR
              end
  | None => Fail K_IO_ERROR
  end).

Definition AtomicWriteTextFile (p : path) (text : chars) : io (res unit) :=
  do! _ := CreateDir p.1 in
  do! tmp := mkstemp p in
  do! fd := OpenFile_creat tmp in
  do! _ := WriteFile fd text 0 in
  io! renamed := act (sys_rename tmp p) in
  ret (if renamed : bool then Ok tt else Fail K_RUNTIME_ERROR).

(** [Glob] of a pattern [prefix*suffix] in a directory: the names that match, in order. *)
Definition is_suffix (x s : chars) : bool := is_prefix (rev x) (rev s).
Definition glob_match (prefix suffix name : chars) : bool :=
  is_prefix prefix name && is_suffix suffix name && (List.length prefix + List.length suffix <=? List.length name)%nat.
Definition chars_le (a b : chars) : Prop := String.le (string_of_list_ascii a) (string_of_list_ascii b).

#[export] Instance chars_le_dec a b : Decision (chars_le a b).
Proof. unfold chars_le, String.le. apply _. Defined.

Definition names_in (d : disk) (dir : chars) : list chars := (map_to_list (default ∅ (dirs d !! dir))).*1.

Definition Glob (dir prefix suffix : chars) : io (res (list chars)) := query (λ d,
  Ok (merge_sort chars_le (filter (λ n, glob_match prefix suffix n) (names_in d dir)))).

(** [RemoveAll] of a directory: its files one by one, then the directory. *)
Fixpoint unlink_all (dir : chars) (names : list chars) : io unit :=
  match names with
  | [] => ret tt
  | n :: names' => io! _ := act (sys_unlink (dir, n)) in unlink_all dir names'
  end.

Definition RemoveAll (dir : chars) : io (res unit) :=
  io! exists_ := DirExist dir in
  if exists_ : bool then
    io! names := query (λ d, names_in d dir) in
    io! _ := unlink_all dir names in
    io! _ := act (sys_rmdir dir) in
    ret (Ok tt)
  else ret (Ok tt).

End FileUtil.

(** ** Names: slot_file_util.cpp *)
Module SlotNames.
Import SlotFile FileUtil.
Local Open Scope Z_scope.

Definition DEFAULT_CLUSTER_NAME : chars := lit_str "default".
Definition DEFAULT_WORKER_NAME : chars := lit_str "worker_local".

(** [std::ostringstream] with fill '0' and a width. *)
Definition pad0 (width : nat) (s : chars) : chars := replicate (width - List.length s) "0"%char ++ s.

Definition FormatSlotDir (slotId : Z) : chars := lit_str "slot_" ++ pad0 4 (u64_to_string slotId).
Definition FormatDataFileName (fileId : Z) : chars := lit_str "data_" ++ pad0 8 (u64_to_string fileId) ++ lit_str ".bin".
Definition FormatCompactIndexFileName (compactEpochMs : Z) : chars :=
  lit_str "index_compact_" ++ u64_to_string compactEpochMs ++ lit_str ".log".
Definition FormatTakeoverPlanFileName (txnId : chars) : chars := lit_str "takeover_" ++ txnId ++ lit_str ".plan".
Definition FormatImportIndexFileName (txnId : chars) : chars := lit_str "index_import_" ++ txnId ++ lit_str ".log".

Definition is_digit (c : ascii) : bool := in_cls "0" "9" c.
Definition is_space (c : ascii) : bool := bool_decide (c = " "%char) || in_cls (ascii_of_nat 9) (ascii_of_nat 13) c.

Fixpoint skip_spaces (s : chars) : chars :=
  match s with c :: s' => if is_space c then skip_spaces s' else s | [] => [] end.

(** [std::stoul] and [std::stoull] in base 10: leading blanks and a sign are allowed, what follows the digits
    is ignored, a negated number wraps; [None] is the exception of no digits or of a value out of range. *)
Definition stoul_digits (s : chars) : option Z :=
  let ds := take_while is_digit s in
  match ds with
  | [] => None
  | _ => let v := dec_val ds in if v <? 2 ^ 64 then Some v else None
  end.

Definition stoul (s : chars) : option Z :=
  match skip_spaces s with
  | "-"%char :: s' => (λ v, u64 (- v)) <$> stoul_digits s'
  | "+"%char :: s' => stoul_digits s'
  | s' => stoul_digits s'
  end.

Definition ParseDataFileId (filename : chars) : res Z :=
  let prefixLen := 5%nat in
  let suffixLen := 4%nat in
  if bool_decide (List.length filename ≤ prefixLen + suffixLen)%nat
     || negb (is_prefix (lit_str "data_") filename)
     || negb (bool_decide (drop (List.length filename - suffixLen) filename = lit_str ".bin"))
  then Fail K_INVALID
  else match stoul (take (List.length filename - prefixLen - suffixLen) (drop prefixLen filename)) with
       | Some v => Ok (u32 v)
       | None => Fail K_INVALID
       end.

(** [JoinPath] of two strings. *)
Definition JoinPath (lhs rhs : chars) : chars :=
  match lhs, rhs with
  | [], _ => rhs
  | _, [] => lhs
  | _, c :: rhs' =>
    let slash := bool_decide (c = "/"%char) in
    if bool_decide (last lhs = Some "/"%char) then (if slash then lhs ++ rhs' else lhs ++ rhs)
    else (if slash then lhs ++ rhs else lhs ++ "/"%char :: rhs)
  end.

Definition BuildSlotStoreRootForWorker (sfsPath clusterName workerNamespace : chars) : chars :=
  let effectiveCluster := match clusterName with [] => DEFAULT_CLUSTER_NAME | _ => clusterName end in
  let effectiveWorker := match workerNamespace with [] => DEFAULT_WORKER_NAME | _ => workerNamespace end in
  JoinPath (JoinPath (JoinPath (JoinPath sfsPath (lit_str "datasystem")) effectiveCluster) (lit_str "slot_store"))
    effectiveWorker.

Definition GetSlotWorkerNamespace (g_slotWorkerNamespace : chars) : chars :=
  match g_slotWorkerNamespace with [] => DEFAULT_WORKER_NAME | _ => g_slotWorkerNamespace end.

Definition BuildSlotStoreRoot (g_slotWorkerNamespace sfsPath clusterName : chars) : chars :=
  BuildSlotStoreRootForWorker sfsPath clusterName (GetSlotWorkerNamespace g_slotWorkerNamespace).

Definition SanitizeSlotWorkerNamespace (workerIdentifier : chars) : chars :=
  match workerIdentifier with
  | [] => DEFAULT_WORKER_NAME
  | _ => (λ ch, if negb (IsAlphaNumeric ch) && negb (bool_decide (ch ∈ ["-"%char; "_"%char; "."%char])) then "_"%char else ch)
           <$> workerIdentifier
  end.

(** *** The numbers in names *)
Lemma take_while_all {A} (p : A → bool) (l r : list A) :
  forallb p l = true → (head r ≫= (λ c, if p c then Some c else None)) = None → take_while p (l ++ r) = l.
Proof.
  induction l as [|c l IH]; cbn [forallb app take_while].
  - intros _. destruct r as [|c r]; cbn; [done|]. by destruct (p c).
  - intros [Hc Hl]%andb_true_iff Hr. by rewrite Hc IH.
Qed.

Lemma u64_to_string_digits n : forallb is_digit (u64_to_string n) = true.
Proof.
  apply forallb_forall. intros c Hc. apply list_elem_of_In in Hc. unfold is_digit.
  eapply digits_of_digits; [|exact Hc]. by intros ? ?%elem_of_nil.
Qed.

Lemma digits_of_ne fuel n acc : digits_of (S fuel) n acc ≠ [].
Proof.
  assert (∀ fuel n acc, acc ≠ [] → digits_of fuel n acc ≠ []) as H.
  { induction fuel0 as [|f IH]; intros n0 acc0 Ha; cbn [digits_of]; [done|]. destruct (_ =? _); [done|by apply IH]. }
  cbn [digits_of]. destruct (_ =? _); [done|by apply H].
Qed.

Lemma u64_to_string_ne n : u64_to_string n ≠ [].
Proof. apply digits_of_ne. Qed.

Lemma u64_to_string_val n : 0 ≤ n < 2 ^ 64 → dec_val (u64_to_string n) = n.
Proof. intros Hn. unfold u64_to_string. rewrite dec_val_digits; [|change (dec_val []) with 0; cbn [List.length]; lia]. lia. Qed.

Lemma stoul_plain s rest v :
  forallb is_digit s = true → s ≠ [] → dec_val s = v → 0 ≤ v < 2 ^ 64 →
  (head rest ≫= (λ c, if is_digit c then Some c else None)) = None → stoul (s ++ rest) = Some v.
Proof.
  intros Hd Hne Hv Hr Hrest. destruct s as [|c s]; [done|].
  pose proof Hd as Hd'. cbn [forallb] in Hd'. apply andb_true_iff in Hd' as [Hc _].
  assert (is_space c = false ∧ c ≠ "-"%char ∧ c ≠ "+"%char) as (Hs & Hm & Hp).
  { clear -Hc. destruct c as [[] [] [] [] [] [] [] []]; (discriminate Hc || (split; [reflexivity|split; discriminate])). }
  assert (stoul_digits ((c :: s) ++ rest) = Some v) as Hval.
  { unfold stoul_digits. rewrite take_while_all; [done..|]. rewrite Hv. by destruct (Z.ltb_spec v (2 ^ 64)); [|lia]. }
  unfold stoul. cbn [app skip_spaces]. rewrite Hs. cbn [app] in Hval. rewrite -Hval.
  clear -Hm Hp. destruct c as [[] [] [] [] [] [] [] []]; (reflexivity || congruence).
Qed.

Lemma stoul_u64 n : 0 ≤ n < 2 ^ 64 → stoul (u64_to_string n) = Some n.
Proof.
  intros Hn. rewrite -(app_nil_r (u64_to_string n)).
  apply stoul_plain; [apply u64_to_string_digits|apply u64_to_string_ne|by apply u64_to_string_val|done|done].
Qed.

Lemma dec_val_zeros k s : dec_val (replicate k "0"%char ++ s) = dec_val s.
Proof. induction k as [|k IH]; cbn [replicate app]; [done|]. rewrite dec_val_cons IH. by change (digit_val "0") with 0. Qed.

Lemma stoul_padded w n : 0 ≤ n < 2 ^ 64 → stoul (pad0 w (u64_to_string n)) = Some n.
Proof.
  intros Hn. rewrite -(app_nil_r (pad0 w _)). apply stoul_plain; [| | |done|done]; unfold pad0.
  - rewrite forallb_app u64_to_string_digits andb_true_r. apply forallb_forall.
    intros c Hc%list_elem_of_In%elem_of_replicate. by destruct Hc as [-> _].
  - intros [_ E]%app_eq_nil. by apply u64_to_string_ne in E.
  - by rewrite dec_val_zeros u64_to_string_val.
Qed.

(** [ParseDataFileId] reads back what [FormatDataFileName] writes. *)
Lemma ParseDataFileId_Format fileId : 0 ≤ fileId < 2 ^ 32 → ParseDataFileId (FormatDataFileName fileId) = Ok fileId.
Proof.
  intros Hr. unfold ParseDataFileId, FormatDataFileName. set (ds := pad0 8 (u64_to_string fileId)).
  assert (ds ≠ []) as Hne.
  { subst ds. unfold pad0. intros [_ E]%app_eq_nil. by apply u64_to_string_ne in E. }
  assert (List.length (lit_str "data_" ++ ds ++ lit_str ".bin") = (9 + List.length ds)%nat) as Hl.
  { rewrite !length_app. change (List.length (lit_str "data_")) with 5%nat.
    change (List.length (lit_str ".bin")) with 4%nat. lia. }
  rewrite Hl. destruct ds as [|c ds'] eqn:Eds; [done|].
  rewrite bool_decide_false; [cbn [List.length]; lia|]. cbn [orb].
  rewrite (proj2 (is_prefix_spec _ _)); [by eexists|]. cbn [negb orb]. rewrite -Eds in Hl |- *.
  replace (9 + List.length ds - 4)%nat with (List.length (lit_str "data_" ++ ds))
    by (rewrite length_app; change (List.length (lit_str "data_")) with 5%nat; lia).
  rewrite app_assoc drop_app_length bool_decide_true; [done|]. cbn [negb].
  rewrite -app_assoc. change (drop 5 (lit_str "data_" ++ ds ++ lit_str ".bin")) with (ds ++ lit_str ".bin").
  replace (9 + List.length ds - 5 - 4)%nat with (List.length ds) by lia. rewrite take_app_length.
  subst ds. rewrite stoul_padded; [lia|]. by rewrite u32_small.
Qed.

Lemma FormatDataFileName_inj a b :
  0 ≤ a < 2 ^ 32 → 0 ≤ b < 2 ^ 32 → FormatDataFileName a = FormatDataFileName b → a = b.
Proof. intros Ha Hb E%(f_equal ParseDataFileId). rewrite !ParseDataFileId_Format in E; [done..|]. congruence. Qed.

End SlotNames.

(** ** Reasoning about programs on the disk

    [wp C p Q d]: run on [d], the program [p] only goes through disks that satisfy [C] and ends with a
    result and a disk that satisfy [Q]. *)
Module DiskSpec.
Import SlotFile FileUtil.
Local Open Scope Z_scope.

Definition wp {A} (C : disk → Prop) (p : io A) (Q : A → disk → Prop) (d : disk) : Prop :=
  Forall C (crash_states (p d)) ∧ Q (outcome (p d)) (final (p d)).

Lemma wp_ret {A} C (a : A) Q d : Q a d → wp C (ret a) Q d.
Proof. done. Qed.

Lemma wp_query {A} C (f : disk → A) Q d : Q (f d) d → wp C (query f) Q d.
Proof. done. Qed.

Lemma wp_act {A} C (f : disk → A * disk) Q d : C (f d).2 → Q (f d).1 (f d).2 → wp C (act f) Q d.
Proof. unfold wp, act. destruct (f d) as [a d']. cbn. auto. Qed.

Lemma wp_bind {A B} C (p : io A) (k : A → io B) Q d :
  wp C (bind p k) Q d ↔ wp C p (λ a, wp C (k a) Q) d.
Proof.
  unfold wp, bind, crash_states, outcome, final. destruct (p d) as [[t1 a] d1]; cbn.
  destruct (k a d1) as [[t2 b] d2]; cbn. rewrite Forall_app. tauto.
Qed.

Lemma wp_bind_ok {A B} C (p : io (res A)) (k : A → io (res B)) Q d :
  wp C (bind_ok p k) Q d ↔ wp C p (λ r, match r with Ok a => wp C (k a) Q | Fail c => Q (Fail c) end) d.
Proof.
  unfold bind_ok. rewrite wp_bind. unfold wp. destruct (outcome (p d)); cbn; [tauto|].
  split; [intros (? & _ & ?)|intros (? & ?)]; repeat split; auto.
Qed.

Lemma wp_mono {A} (C C' : disk → Prop) (p : io A) (Q Q' : A → disk → Prop) d :
  wp C p Q d → (∀ d', C d' → C' d') → (∀ a d', Q a d' → Q' a d') → wp C' p Q' d.
Proof. intros [H1 H2] HC HQ. split; [by eapply Forall_impl|by apply HQ]. Qed.

(** *** Well-formed disks: one name per inode, no dangling names, fresh inode numbers *)
Record disk_wf (d : disk) : Prop := {
  wf_inj : ∀ p q i, lookup_ino d p = Some i → lookup_ino d q = Some i → p = q;
  wf_live : ∀ p i, lookup_ino d p = Some i → is_Some (inodes d !! i);
  wf_next : ∀ i, is_Some (inodes d !! i) → (i < next_ino d)%nat
}.

(** [d'] differs from [d] at most on the paths of [P]. *)
Record frame (P : path → Prop) (d d' : disk) : Prop := {
  fr_wf : disk_wf d';
  fr_dirs : ∀ dir, is_Some (dirs d' !! dir) ↔ is_Some (dirs d !! dir);
  fr_ino : ∀ q, ¬ P q → lookup_ino d' q = lookup_ino d q;
  fr_content : ∀ q, ¬ P q → content d' q = content d q
}.

Lemma frame_refl P d : disk_wf d → frame P d d.
Proof. by split. Qed.

Lemma frame_mono (P P' : path → Prop) d d' : frame P d d' → (∀ q, P q → P' q) → frame P' d d'.
Proof. intros [? ? Hi Hc] H. split; [done|done|intros q Hq; apply Hi; naive_solver..|intros q Hq; apply Hc; naive_solver]. Qed.

Lemma disk_frame_trans P d1 d2 d3 : frame P d1 d2 → frame P d2 d3 → frame P d1 d3.
Proof.
  intros [? Hd1 Hi1 Hc1] [? Hd2 Hi2 Hc2].
  split; [done|intros; by rewrite Hd2 Hd1|intros; by rewrite Hi2 ?Hi1|intros; by rewrite Hc2 ?Hc1].
Qed.

Lemma content_lookup d p s : content d p = Some s ↔ ∃ i, lookup_ino d p = Some i ∧ inodes d !! i = Some s.
Proof. unfold content. destruct (lookup_ino d p); naive_solver. Qed.

Lemma content_none d p : disk_wf d → content d p = None ↔ lookup_ino d p = None.
Proof.
  intros Hwf. unfold content. destruct (lookup_ino d p) as [i|] eqn:E; cbn; [|done].
  destruct (wf_live _ Hwf _ _ E) as [? ->]. done.
Qed.

Lemma lookup_set_dir dir m d q :
  lookup_ino (set_dir dir m d) q = if bool_decide (q.1 = dir) then m !! q.2 else lookup_ino d q.
Proof.
  unfold lookup_ino, set_dir; cbn. case_bool_decide as E; [by rewrite E lookup_insert_eq|by rewrite lookup_insert_ne].
Qed.

(** The file of [p] holds [s] and nothing else has changed. *)
Definition wrote (d d' : disk) (p : path) (s : chars) : Prop :=
  frame (eq p) d d' ∧ content d' p = Some s ∧ lookup_ino d' p = lookup_ino d p.

Lemma wrote_set_inode d p fd s : disk_wf d → lookup_ino d p = Some fd → wrote d (set_inode fd s d) p s.
Proof.
  intros Hwf Hp. destruct (wf_live _ Hwf _ _ Hp) as [s0 Hs0].
  assert (∀ q, lookup_ino (set_inode fd s d) q = lookup_ino d q) as Hi by done.
  split; [|split; [|done]].
  - split; [|done|done|].
    + split; [apply (wf_inj _ Hwf)|intros q i Hq|intros i Hq]; unfold set_inode in *; cbn in *.
      * destruct (decide (i = fd)) as [->|Hne]; [rewrite lookup_insert_eq; eauto|].
        rewrite lookup_insert_ne; [done|]. by eapply wf_live.
      * destruct (decide (i = fd)) as [->|Hne]; [apply (wf_next _ Hwf); eauto|].
        rewrite lookup_insert_ne in Hq; [done|]. by apply (wf_next _ Hwf).
    + intros q Hq. unfold content. rewrite Hi. destruct (lookup_ino d q) as [i|] eqn:E; cbn; [|done].
      rewrite lookup_insert_ne; [|done]. intros <-. apply Hq. by eapply wf_inj.
  - apply content_lookup. exists fd. rewrite Hi Hp. split; [done|]. cbn. by rewrite lookup_insert_eq.
Qed.

Lemma wrote_trans d1 d2 d3 p s s' : wrote d1 d2 p s → wrote d2 d3 p s' → wrote d1 d3 p s'.
Proof. intros (F1 & _ & I1) (F2 & C2 & I2). split; [by eapply disk_frame_trans|]. by rewrite I2. Qed.

(** *** Writing *)
Lemma overwrite_nil s off : (off ≤ List.length s)%nat → overwrite s off [] = s.
Proof.
  intros H. unfold overwrite. cbn [List.length app]. rewrite Nat.add_0_r.
  replace (off - List.length s)%nat with 0%nat by lia. cbn. by rewrite take_drop.
Qed.

Lemma length_overwrite s off bs : (off ≤ List.length s)%nat →
  List.length (overwrite s off bs) = Nat.max (List.length s) (off + List.length bs).
Proof.
  intros H. unfold overwrite. replace (off - List.length s)%nat with 0%nat by lia. cbn [replicate app].
  rewrite !length_app length_take length_drop. lia.
Qed.

Lemma overwrite_end s bs : overwrite s (List.length s) bs = s ++ bs.
Proof.
  unfold overwrite. rewrite firstn_all Nat.sub_diag. cbn [replicate app].
  rewrite (drop_ge s); [lia|]. by rewrite app_nil_r.
Qed.

Lemma overwrite_step s off b bs : (off ≤ List.length s)%nat →
  overwrite (overwrite s off [b]) (S off) bs = overwrite s off (b :: bs).
Proof.
  intros H. unfold overwrite at 1 3. rewrite length_overwrite; [done|]. cbn [List.length].
  replace (S off - _)%nat with 0%nat by lia. replace (off - List.length s)%nat with 0%nat by lia. cbn [replicate app].
  unfold overwrite. replace (off - List.length s)%nat with 0%nat by lia. cbn [replicate app List.length].
  assert (List.length (take off s) = off) as Hl by (rewrite length_take; lia).
  rewrite take_app_ge; [rewrite Hl; lia|]. rewrite Hl. replace (S off - off)%nat with 1%nat by lia.
  cbn [take]. rewrite ?take_0 -app_assoc. cbn [app]. do 3 f_equal.
  rewrite drop_app_ge; [rewrite Hl; lia|]. rewrite Hl.
  replace (S off + List.length bs - off)%nat with (S (List.length bs)) by lia. cbn [drop].
  rewrite drop_drop. f_equal. lia.
Qed.

Lemma set_inode_set_inode i s s' d : set_inode i s' (set_inode i s d) = set_inode i s' d.
Proof. unfold set_inode; cbn. by rewrite insert_insert_eq. Qed.

Lemma set_inode_id i s d : inodes d !! i = Some s → set_inode i s d = d.
Proof. intros H. unfold set_inode. destruct d as [a b c]; cbn in *. by rewrite insert_id. Qed.

Lemma wp_WriteFile_loop C Q fd bs : ∀ off tot s d,
  inodes d !! fd = Some s → 0 ≤ off → 0 ≤ tot → (Z.to_nat (off + tot) ≤ List.length s)%nat →
  off + tot + zsize bs ≤ SSIZE_MAX + 1 →
  (∀ k, (k ≤ List.length bs)%nat → C (set_inode fd (overwrite s (Z.to_nat (off + tot)) (take k bs)) d)) →
  Q (Ok tt) (set_inode fd (overwrite s (Z.to_nat (off + tot)) bs) d) →
  wp C (WriteFile_loop fd bs off tot) Q d.
Proof.
  induction bs as [|b bs IH]; intros off tot s d Hs Ho Ht Hl Hmax HC HQ; cbn [WriteFile_loop].
  - apply wp_ret. rewrite overwrite_nil in HQ; [done|]. by rewrite set_inode_id in HQ.
  - unfold zsize in Hmax. cbn [List.length] in Hmax. rewrite Nat2Z.inj_succ in Hmax.
    destruct (Z.leb_spec off (SSIZE_MAX - tot)) as [_|]; [|lia].
    assert (Z.to_nat (off + (tot + 1)) = S (Z.to_nat (off + tot))) as Hn by lia.
    apply wp_bind, wp_act; cbn [sys_pwrite fst snd]; rewrite Hs; cbn [default from_option id].
    + apply (HC 1%nat). cbn. lia.
    + assert (∀ x, overwrite (overwrite s (Z.to_nat (off + tot)) [b]) (Z.to_nat (off + (tot + 1))) x
                   = overwrite s (Z.to_nat (off + tot)) (b :: x)) as Hstep.
      { intros x. rewrite Hn. by apply overwrite_step. }
      eapply (IH _ _ (overwrite s (Z.to_nat (off + tot)) [b])); [cbn; by rewrite lookup_insert_eq|lia|lia| | | |].
      * rewrite Hn length_overwrite; [done|]. cbn. lia.
      * unfold zsize. lia.
      * intros k Hk. rewrite set_inode_set_inode Hstep. apply (HC (S k)). cbn. lia.
      * by rewrite set_inode_set_inode Hstep.
Qed.

(** A write leaves, if it is cut, a part of its bytes. *)
Lemma wp_WriteFile C Q fd bs off p s d :
  disk_wf d → lookup_ino d p = Some fd → content d p = Some s →
  0 ≤ off → off ≤ zsize s → off + zsize bs ≤ SSIZE_MAX + 1 →
  (∀ k d', (k ≤ List.length bs)%nat → wrote d d' p (overwrite s (Z.to_nat off) (take k bs)) → C d') →
  (∀ d', wrote d d' p (overwrite s (Z.to_nat off) bs) → Q (Ok tt) d') →
  wp C (WriteFile fd bs off) Q d.
Proof.
  intros Hwf Hp Hs Ho Hl Hmax HC HQ. unfold WriteFile.
  destruct (Z.leb_spec 0 off); [|lia]. apply content_lookup in Hs as (i & Hi & Hs). rewrite Hp in Hi. injection Hi as <-.
  unfold zsize in Hl. apply (wp_WriteFile_loop _ _ _ _ off 0 s); rewrite ?Z.add_0_r; [done|lia|lia|lia|lia| |].
  - intros k Hk. apply (HC k); [done|]. by apply wrote_set_inode.
  - apply HQ. by apply wrote_set_inode.
Qed.

(** A write at the end of the file. *)
Lemma wp_append C Q fd bs off p s d :
  disk_wf d → lookup_ino d p = Some fd → content d p = Some s → off = zsize s → off + zsize bs ≤ SSIZE_MAX + 1 →
  (∀ k d', (k ≤ List.length bs)%nat → wrote d d' p (s ++ take k bs) → C d') →
  (∀ d', wrote d d' p (s ++ bs) → Q (Ok tt) d') →
  wp C (WriteFile fd bs off) Q d.
Proof.
  intros Hwf Hp Hs -> Hmax HC HQ. unfold zsize in *.
  eapply wp_WriteFile; [done..|lia|unfold zsize; lia|unfold zsize; lia| |]; rewrite Nat2Z.id; setoid_rewrite overwrite_end; done.
Qed.

(** *** Creating, removing and renaming *)
Lemma path_eq (p q : path) : p.1 = q.1 → p.2 = q.2 → p = q.
Proof. destruct p, q; cbn; congruence. Qed.

Definition has_dir (d : disk) (dir : chars) : Prop := is_Some (dirs d !! dir).

Lemma lookup_has_dir d p i : lookup_ino d p = Some i → has_dir d p.1.
Proof. unfold lookup_ino, has_dir. destruct (dirs d !! p.1); naive_solver. Qed.

(** A new file: empty, on an inode that nothing else has had. *)
Definition created (d d' : disk) (p : path) : Prop :=
  frame (eq p) d d' ∧ content d' p = Some [] ∧ lookup_ino d' p = Some (next_ino d).

Lemma creat_new d p :
  disk_wf d → has_dir d p.1 → p.2 ≠ [] → lookup_ino d p = None →
  (sys_creat p d).1 = Ok (next_ino d) ∧ created d (sys_creat p d).2 p.
Proof.
  intros Hwf [m Hm] Hne Hn. unfold sys_creat. rewrite Hm bool_decide_false; [done|].
  unfold lookup_ino in Hn. rewrite Hm in Hn. cbn in Hn. rewrite Hn. split; [done|]. cbn [snd].
  set (d' := MkDisk _ _ _).
  assert (∀ q, lookup_ino d' q = if bool_decide (q = p) then Some (next_ino d) else lookup_ino d q) as Hi.
  { intros q. subst d'. unfold lookup_ino; cbn. destruct (decide (q.1 = p.1)) as [E|E].
    - rewrite E lookup_insert_eq Hm. cbn. case_bool_decide as Eq; [subst; by rewrite lookup_insert_eq|].
      rewrite lookup_insert_ne; [|done]. intros E2. apply Eq. by apply path_eq.
    - rewrite lookup_insert_ne; [done|]. rewrite bool_decide_false; [|done]. intros ->. done. }
  assert (inodes d !! next_ino d = None) as Hfresh.
  { apply eq_None_not_Some. intros Hx%(wf_next _ Hwf). lia. }
  assert (∀ q i, lookup_ino d q = Some i → i ≠ next_ino d) as Hold.
  { intros q i Hq%(wf_live _ Hwf). intros ->. rewrite Hfresh in Hq. by destruct Hq. }
  split; [split|split].
  - split.
    + intros q1 q2 i. rewrite !Hi. repeat case_bool_decide; subst; try done.
      * intros [= <-] Hq. by apply Hold in Hq.
      * intros Hq [= <-]. by apply Hold in Hq.
      * apply (wf_inj _ Hwf).
    + intros q i. rewrite Hi. case_bool_decide; cbn.
      * intros [= <-]. rewrite lookup_insert_eq. eauto.
      * intros Hq. rewrite lookup_insert_ne; [by apply Hold in Hq|]. by eapply wf_live.
    + intros i Hx. cbn in *. destruct (decide (i = next_ino d)) as [->|]; [lia|].
      rewrite lookup_insert_ne in Hx; [done|]. apply (wf_next _ Hwf) in Hx. lia.
  - intros dir. subst d'. cbn. destruct (decide (dir = p.1)) as [->|]; [rewrite lookup_insert_eq Hm; split; eauto|].
    by rewrite lookup_insert_ne.
  - intros q Hq. by rewrite Hi bool_decide_false.
  - intros q Hq. unfold content. rewrite Hi bool_decide_false; [done|].
    destruct (lookup_ino d q) as [i|] eqn:E; cbn; [|done]. rewrite lookup_insert_ne; [|done].
    intros <-. by apply Hold in E.
  - apply content_lookup. exists (next_ino d). rewrite Hi bool_decide_true; [done|]. split; [done|].
    cbn. by rewrite lookup_insert_eq.
  - by rewrite Hi bool_decide_true.
Qed.

Lemma wp_EnsureFile C Q p d :
  disk_wf d → has_dir d p.1 → p.2 ≠ [] →
  (∀ s, content d p = Some s → Q (Ok tt) d) →
  (∀ d', content d p = None → created d d' p → C d' ∧ Q (Ok tt) d') →
  wp C (EnsureFile p) Q d.
Proof.
  intros Hwf Hd Hne H1 H2. unfold EnsureFile. apply wp_bind, wp_query.
  rewrite bool_decide_false; [done|]. case_bool_decide as E.
  - apply wp_ret. destruct E as [i E]. destruct (wf_live _ Hwf _ _ E) as [s Hs].
    apply (H1 s). apply content_lookup. eauto.
  - apply wp_bind_ok. unfold OpenFile_creat.
    assert (lookup_ino d p = None) as Hn by (apply eq_None_not_Some; done).
    destruct (creat_new d p) as [E1 E2]; [done..|]. apply content_none in Hn; [|done].
    destruct (H2 _ Hn E2). apply wp_act; [done|]. rewrite E1. by apply wp_ret.
Qed.

Lemma unlink_spec d p : disk_wf d →
  frame (eq p) d (sys_unlink p d).2 ∧ content (sys_unlink p d).2 p = None
  ∧ (sys_unlink p d).1 = bool_decide (is_Some (content d p)).
Proof.
  intros Hwf. unfold sys_unlink.
  destruct (dirs d !! p.1) as [m|] eqn:Hm; cbn [fst snd].
  2: { assert (content d p = None) as Hn by (unfold content, lookup_ino; by rewrite Hm).
       rewrite Hn bool_decide_false; [intros [? ?]; done|]. split; [by apply frame_refl|done]. }
  assert (lookup_ino d p = m !! p.2) as Hl by (unfold lookup_ino; by rewrite Hm).
  destruct (m !! p.2) as [i|] eqn:Hi; cbn [fst snd].
  2: { assert (content d p = None) as Hn by (unfold content; by rewrite Hl).
       rewrite Hn bool_decide_false; [intros [? ?]; done|]. split; [by apply frame_refl|done]. }
  set (d' := set_dir _ _ _).
  assert (∀ q, lookup_ino d' q = if bool_decide (q = p) then None else lookup_ino d q) as Hq.
  { intros q. subst d'. rewrite lookup_set_dir. destruct (decide (q = p)) as [->|Hne].
    - rewrite !bool_decide_true; [done..|]. by rewrite lookup_delete_eq.
    - rewrite (bool_decide_false (q = p)); [done|]. case_bool_decide as E; [|done].
      rewrite lookup_delete_ne; [intros E2; apply Hne; by apply path_eq|].
      unfold lookup_ino. by rewrite E Hm. }
  split_and!.
  - split.
    + split.
      * intros q1 q2 j. rewrite !Hq. repeat case_bool_decide; try done. apply (wf_inj _ Hwf).
      * intros q j. rewrite Hq. case_bool_decide; [done|]. apply (wf_live _ Hwf).
      * apply (wf_next _ Hwf).
    + intros dir. subst d'. cbn. destruct (decide (dir = p.1)) as [->|]; [rewrite lookup_insert_eq Hm; split; eauto|].
      by rewrite lookup_insert_ne.
    + intros q Hne. by rewrite Hq bool_decide_false.
    + intros q Hne. unfold content. by rewrite Hq bool_decide_false.
  - unfold content. by rewrite Hq bool_decide_true.
  - rewrite bool_decide_true; [|done]. unfold content. rewrite Hl. cbn. apply (wf_live _ Hwf p). by rewrite Hl.
Qed.

Lemma rename_spec d src dst i : disk_wf d → lookup_ino d src = Some i → has_dir d dst.1 → src ≠ dst →
  let d' := (sys_rename src dst d).2 in
  (sys_rename src dst d).1 = true ∧ frame (λ q, q = src ∨ q = dst) d d' ∧ content d' src = None
  ∧ content d' dst = content d src ∧ lookup_ino d' dst = Some i.
Proof.
  intros Hwf Hs Hd Hne d'. subst d'. unfold sys_rename.
  destruct (dirs d !! src.1) as [m|] eqn:Hm; [|by unfold lookup_ino in Hs; rewrite Hm in Hs]. rewrite Hs.
  set (d1 := set_dir src.1 _ d).
  assert (∀ q, lookup_ino d1 q = if bool_decide (q = src) then None else lookup_ino d q) as H1.
  { intros q. subst d1. rewrite lookup_set_dir. destruct (decide (q = src)) as [->|Hq].
    - rewrite !bool_decide_true; [done..|]. by rewrite lookup_delete_eq.
    - rewrite (bool_decide_false (q = src)); [done|]. case_bool_decide as E; [|done].
      rewrite lookup_delete_ne; [intros E2; apply Hq; by apply path_eq|].
      unfold lookup_ino. by rewrite E Hm. }
  assert (∃ m', dirs d1 !! dst.1 = Some m') as [m' Hm'].
  { subst d1. cbn. destruct (decide (dst.1 = src.1)) as [->|]; [rewrite lookup_insert_eq; eauto|].
    rewrite lookup_insert_ne; done. }
  rewrite Hm'. cbn [fst snd]. set (d2 := set_dir _ _ d1).
  assert (∀ q, lookup_ino d2 q = if bool_decide (q = dst) then Some i else if bool_decide (q = src) then None else lookup_ino d q) as H2.
  { intros q. subst d2. rewrite lookup_set_dir -H1. destruct (decide (q = dst)) as [->|Hq].
    - rewrite !bool_decide_true; [done..|]. by rewrite lookup_insert_eq.
    - rewrite (bool_decide_false (q = dst)); [done|]. case_bool_decide as E; [|done].
      rewrite lookup_insert_ne; [intros E2; apply Hq; by apply path_eq|].
      unfold lookup_ino. by rewrite E Hm'. }
  assert (inodes d2 = inodes d) as Hino by done.
  split_and!; [done| | | |].
  - split.
    + split.
      * intros q1 q2 j. rewrite !H2. repeat case_bool_decide; subst; try done.
        -- intros [= <-] Hq. exfalso. naive_solver eauto using wf_inj.
        -- intros Hq [= <-]. exfalso. naive_solver eauto using wf_inj.
        -- apply (wf_inj _ Hwf).
      * intros q j. rewrite H2 Hino. repeat case_bool_decide; subst; try done.
        -- intros [= <-]. by eapply wf_live.
        -- apply (wf_live _ Hwf).
      * apply (wf_next _ Hwf).
    + intros dir. subst d2 d1. cbn. cbn in Hm'.
      destruct (decide (dir = dst.1)) as [->|]; [rewrite lookup_insert_eq; unfold has_dir in Hd; naive_solver|].
      rewrite lookup_insert_ne; [done|].
      destruct (decide (dir = src.1)) as [->|]; [rewrite lookup_insert_eq Hm; naive_solver|]. by rewrite lookup_insert_ne.
    + intros q Hq. rewrite H2 !bool_decide_false; naive_solver.
    + intros q Hq. unfold content. rewrite H2 !bool_decide_false; naive_solver.
  - unfold content. rewrite H2 bool_decide_false; [done|]. by rewrite bool_decide_true.
  - unfold content. rewrite H2 bool_decide_true; [done|]. by rewrite Hs.
  - by rewrite H2 bool_decide_true.
Qed.

(** *** Atomic replacement *)
Lemma mkstemp_search_spec base m fuel : ∀ n,
  (∃ name k, mkstemp_search fuel base n m = Some name ∧ name = base ++ replicate k "X"%char ∧ m !! name = None)
  ∨ (mkstemp_search fuel base n m = None ∧ ∀ k, (n ≤ k < n + fuel)%nat → base ++ replicate k "X"%char ∈ dom m).
Proof.
  induction fuel as [|fuel IH]; intros n; cbn [mkstemp_search]; [right; split; [done|lia]|].
  destruct (m !! (base ++ replicate n "X"%char)) eqn:E; [|left; eauto].
  destruct (IH (S n)) as [H|[H1 H2]]; [by left|]. right. split; [done|]. intros k Hk.
  destruct (decide (k = n)) as [->|]; [apply elem_of_dom; eauto|]. apply H2. lia.
Qed.

Lemma mkstemp_name base m : ∃ name k,
  mkstemp_search (S (size m)) base 0 m = Some name ∧ name = base ++ replicate k "X"%char ∧ m !! name = None.
Proof.
  destruct (mkstemp_search_spec base m (S (size m)) 0) as [H|[_ H]]; [done|exfalso].
  assert (size (dom m) < S (size m))%nat as Hlt by (rewrite size_dom; lia).
  set (f := λ k, base ++ replicate k "X"%char).
  assert (list_to_set (f <$> seq 0 (S (size m))) ⊆ dom m) as Hsub.
  { intros x [k [-> Hk%elem_of_seq]]%elem_of_list_to_set%list_elem_of_fmap. apply H. lia. }
  apply subseteq_size in Hsub. rewrite size_list_to_set in Hsub.
  - apply NoDup_fmap; [|apply NoDup_seq]. intros a b E. subst f. cbn in E. apply app_inv_head in E.
    apply (f_equal List.length) in E. by rewrite !length_replicate in E.
  - rewrite length_fmap length_seq in Hsub. lia.
Qed.

(** The names [AtomicWriteTextFile] uses for its temporary files. *)
Definition is_tmp (q : path) : Prop := ∃ base s, q.2 = base ++ lit_str ".tmp." ++ s.

(** The text of [p] is replaced by a new file; a crash leaves the old text or the new one, and at most
    temporary files. *)
Definition replaced (d d' : disk) (p : path) (text : chars) : Prop :=
  frame (eq p) d d' ∧ content d' p = Some text ∧ lookup_ino d' p = Some (next_ino d).

(** The temporary files of [p]. *)
Definition tmp_of (p q : path) : Prop := ∃ k, q = (p.1, tmp_base p.2 ++ replicate k "X"%char).

Lemma tmp_of_is_tmp p q : tmp_of p q → is_tmp q.
Proof. intros (k & ->). exists p.2, (replicate k "X"%char). cbn. unfold tmp_base. by rewrite -app_assoc. Qed.

Lemma wp_AtomicWriteTextFile_tmp (C : disk → Prop) Q p text d :
  disk_wf d → has_dir d p.1 → ¬ is_tmp p → zsize text ≤ SSIZE_MAX →
  (∀ d', frame (tmp_of p) d d' → C d') →
  (∀ d', replaced d d' p text → C d' ∧ Q (Ok tt) d') →
  wp C (AtomicWriteTextFile p text) Q d.
Proof.
  intros Hwf Hdir Hnt Hlen HC HQ. unfold AtomicWriteTextFile.
  apply wp_bind_ok. unfold CreateDir. apply wp_bind, wp_act; unfold sys_mkdir, dir_exists; cbn [fst snd];
    rewrite (bool_decide_true _ Hdir); [by apply HC, frame_refl|].
  apply wp_ret. apply wp_bind_ok. apply wp_query. pose proof Hdir as [m Hm]. rewrite Hm.
  destruct (mkstemp_name (tmp_base p.2) m) as (name & k & -> & Hname & Hfree).
  set (tmp := (p.1, name)).
  assert (tmp_of p tmp) as Htmp by (exists k; subst tmp; by rewrite Hname).
  assert (tmp ≠ p) as Hne by (intros E; apply Hnt; rewrite -E; by eapply tmp_of_is_tmp).
  assert (lookup_ino d tmp = None) as Hno by (unfold lookup_ino; subst tmp; cbn; by rewrite Hm).
  assert (tmp.2 ≠ []) as Hn2 by (subst tmp; cbn; rewrite Hname; unfold tmp_base; by destruct p.2).
  destruct (creat_new d tmp) as [E1 (F1 & C1 & L1)]; [done..|].
  assert (∀ d', frame (eq tmp) d d' → frame (tmp_of p) d d') as Hfr by (intros; eapply frame_mono; [done|by intros ? <-]).
  apply wp_bind_ok. unfold OpenFile_creat. apply wp_act; [by apply HC, Hfr|]. rewrite E1.
  set (d1 := (sys_creat tmp d).2) in *. apply wp_bind_ok.
  eapply wp_append; [apply F1|exact L1|exact C1|done|change (zsize []) with 0; lia| |].
  - intros j d' _ (F2 & _). apply HC, Hfr. by eapply disk_frame_trans.
  - intros d2 (F2 & C2 & L2). cbn [app] in C2. rewrite L1 in L2.
    assert (frame (eq tmp) d d2) as F12 by (by eapply disk_frame_trans).
    destruct (rename_spec d2 tmp p (next_ino d)) as (R1 & R2 & R3 & R4 & R5);
      [apply F2|done|by apply (fr_dirs _ _ _ F12)|done|].
    set (d3 := (sys_rename tmp p d2).2) in *.
    assert (replaced d d3 p text) as Hrep.
    { split; [|split; [by rewrite R4|done]]. split; [apply R2| | |].
      - intros dir. by rewrite (fr_dirs _ _ _ R2) (fr_dirs _ _ _ F12).
      - intros q Hq. destruct (decide (q = tmp)) as [->|Hqt].
        + rewrite Hno. apply content_none; [apply R2|done].
        + rewrite (fr_ino _ _ _ R2); [|apply (fr_ino _ _ _ F12)]; naive_solver.
      - intros q Hq. destruct (decide (q = tmp)) as [->|Hqt].
        + rewrite R3. symmetry. by apply content_none.
        + rewrite (fr_content _ _ _ R2); [|apply (fr_content _ _ _ F12)]; naive_solver. }
    destruct (HQ _ Hrep) as [HC3 HQ3].
    apply wp_bind. apply wp_act; [exact HC3|]. fold d3. rewrite R1. by apply wp_ret.
Qed.

Lemma wp_AtomicWriteTextFile (C : disk → Prop) Q p text d :
  disk_wf d → has_dir d p.1 → ¬ is_tmp p → zsize text ≤ SSIZE_MAX →
  (∀ d', frame is_tmp d d' → C d') →
  (∀ d', replaced d d' p text → C d' ∧ Q (Ok tt) d') →
  wp C (AtomicWriteTextFile p text) Q d.
Proof.
  intros Hwf Hdir Hnt Hlen HC HQ. apply wp_AtomicWriteTextFile_tmp; [done..| |done].
  intros d' F. apply HC. eapply frame_mono; [exact F|]. apply tmp_of_is_tmp.
Qed.


(** A disk with one directory and one file. *)
Definition one_file (p : path) (s : chars) : disk := MkDisk {[p.1 := {[p.2 := 0%nat]}]} {[0%nat := s]} 1.

Lemma one_file_ino p s q i : lookup_ino (one_file p s) q = Some i ↔ q = p ∧ i = 0%nat.
Proof.
  unfold lookup_ino, one_file; cbn. split.
  - intros (m & [E1 <-]%lookup_singleton_Some & [E2 <-]%lookup_singleton_Some)%bind_Some. split; [by apply path_eq|done].
  - intros [-> ->]. by rewrite lookup_singleton_eq /= lookup_singleton_eq.
Qed.

Lemma one_file_wf p s : disk_wf (one_file p s).
Proof.
  split.
  - intros q1 q2 i [-> _]%one_file_ino [-> _]%one_file_ino. done.
  - intros q i [_ ->]%one_file_ino. cbn. rewrite lookup_singleton_eq. eauto.
  - intros i [x Hx]. cbn in *. apply lookup_singleton_Some in Hx as [<- _]. lia.
Qed.

Lemma one_file_content p s : content (one_file p s) p = Some s.
Proof. apply content_lookup. exists 0%nat. split; [by apply one_file_ino|]. cbn. by rewrite lookup_singleton_eq. Qed.

End DiskSpec.
