(* ===== verification/SlotIndex.v ===== *)
(** * SlotIndex: the log of a slot

    Model of [src/datasystem/common/l2cache/slot_client/slot_index_codec.{h,cpp}]: the records of the index file of
    a slot, their encoding with a check sum, the header of the file, and the reader that stops at the first
    damaged record and cuts the file there.

    Integers are written in the byte order of the machine, little endian here.  A cursor into the buffer is
    the rest of the buffer after it.  A record is read by its type, so the tagged union is an inductive
    type; [WriteMode] is the byte it is stored as.

    The theorems show that records are read back as written, that a log cut anywhere is read as the records
    that are complete in it and is left with exactly these, and that a file whose header is torn becomes an
    empty log. *)
From S2P Require Import Prelude NetUtil KeyHelper SlotFile.
From Stdlib Require Import Ascii String.
Import NetUtil KeyHelper SlotFile FileUtil SlotNames DiskSpec.

Module SlotIndex.
Local Open Scope Z_scope.

Record SlotPutRecord := MkPut {
  put_key : chars;
  put_fileId : Z;
  put_offset : Z;
  put_size : Z;
  put_version : Z;
  put_writeMode : Z;
  put_ttlSecond : Z
}.

Record SlotDeleteRecord := MkDelete { del_key : chars; del_version : Z }.

Inductive SlotRecord :=
| PUT (put : SlotPutRecord)
| DELETE (del : SlotDeleteRecord)
| IMPORT_BEGIN (txnId : chars)
| IMPORT_END (txnId : chars).

Record SlotRecordFrame := MkFrame { frame_record : SlotRecord; startOffset : Z; endOffset : Z }.

#[export] Instance SlotPutRecord_eq_dec : EqDecision SlotPutRecord.
Proof. solve_decision. Defined.
#[export] Instance SlotDeleteRecord_eq_dec : EqDecision SlotDeleteRecord.
Proof. solve_decision. Defined.
#[export] Instance SlotRecord_eq_dec : EqDecision SlotRecord.
Proof. solve_decision. Defined.

Definition MAGIC : Z := 0x534c5431.
Definition VERSION : Z := 1.
Definition HEADER_SIZE : Z := 32.

(** ** Raw integers *)
Definition byte_of (z : Z) : ascii := ascii_of_N (Z.to_N (z mod 256)).
Definition byte_val (c : ascii) : Z := Z.of_N (N_of_ascii c).

(** [AppendRaw] of an integer of [n] bytes. *)
Fixpoint Raw (n : nat) (value : Z) : chars :=
  match n with O => [] | S n' => byte_of value :: Raw n' (value / 256) end.

Fixpoint raw_val (s : chars) : Z := match s with [] => 0 | c :: s' => byte_val c + 256 * raw_val s' end.

(** [ReadRaw] and [TryReadRaw]. *)
Definition TryReadRaw (n : nat) (rest : chars) : option (Z * chars) :=
  if (n <=? List.length rest)%nat then Some (raw_val (take n rest), drop n rest) else None.

(** [offset + len > content.size()], or the substring. *)
Definition TryReadBytes (len : Z) (rest : chars) : option (chars * chars) :=
  if zsize rest <? len then None else Some (take (Z.to_nat len) rest, drop (Z.to_nat len) rest).

Definition crc_bit (crc : Z) : Z :=
  if Z.testbit crc 0 then Z.lxor (Z.shiftr crc 1) 0xedb88320 else Z.shiftr crc 1.

Definition crc_byte (crc : Z) (c : ascii) : Z := Nat.iter 8 crc_bit (Z.lxor crc (byte_val c)).

Definition CalcCrc32 (data : chars) : Z := foldl crc_byte 0 data.

(** ** Encoding *)
Definition with_crc (payload : chars) : chars := payload ++ Raw 4 (CalcCrc32 payload).

Definition put_payload (record : SlotPutRecord) : chars :=
  Raw 1 1 ++ Raw 4 (zsize (put_key record)) ++ put_key record
  ++ Raw 4 (put_fileId record) ++ Raw 8 (put_offset record) ++ Raw 8 (put_size record) ++ Raw 8 (put_version record)
  ++ Raw 1 (put_writeMode record) ++ Raw 4 (put_ttlSecond record).

Definition EncodePut (record : SlotPutRecord) : res chars :=
  check! negb (bool_decide (put_key record = [])) else K_INVALID in Ok (with_crc (put_payload record)).

Definition delete_payload (record : SlotDeleteRecord) : chars :=
  Raw 1 2 ++ Raw 4 (zsize (del_key record)) ++ del_key record ++ Raw 8 (del_version record).

Definition EncodeDelete (record : SlotDeleteRecord) : res chars :=
  check! negb (bool_decide (del_key record = [])) else K_INVALID in Ok (with_crc (delete_payload record)).

Definition import_payload (type : Z) (txnId : chars) : chars := Raw 1 type ++ Raw 4 (zsize txnId) ++ txnId.

Definition EncodeImportBegin (txnId : chars) : res chars :=
  check! negb (bool_decide (txnId = [])) else K_INVALID in Ok (with_crc (import_payload 3 txnId)).
Definition EncodeImportEnd (txnId : chars) : res chars :=
  check! negb (bool_decide (txnId = [])) else K_INVALID in Ok (with_crc (import_payload 4 txnId)).

Definition EncodeRecord (r : SlotRecord) : res chars :=
  match r with
  | PUT p => EncodePut p
  | DELETE x => EncodeDelete x
  | IMPORT_BEGIN t => EncodeImportBegin t
  | IMPORT_END t => EncodeImportEnd t
  end.

(** ** The header *)
Definition WriteHeader : chars := Raw 4 MAGIC ++ Raw 4 VERSION ++ List.concat (replicate 6 (Raw 4 0)).

Definition VerifyHeader (buffer : chars) : res unit :=
  check! HEADER_SIZE <=? zsize buffer else K_RUNTIME_ERROR in
  match TryReadRaw 4 buffer with
  | None => Fail K_RUNTIME_ERROR
  | Some (magic, rest) =>
    match TryReadRaw 4 rest with
    | None => Fail K_RUNTIME_ERROR
    | Some (version, _) =>
      check! magic =? MAGIC else K_RUNTIME_ERROR in
      check! version =? VERSION else K_RUNTIME_ERROR in Ok tt
    end
  end.

(** ** Reading *)
(** The check of the stored sum against the bytes of the record, which starts at [start]; [rest] is what
    follows the record. *)
Definition crc_matches (start rest : chars) (storedCrc : Z) : bool :=
  storedCrc =? CalcCrc32 (take (List.length start - List.length rest - 4) start).

Definition ParsePut (start rest : chars) : option (SlotRecord * chars) :=
  '(keyLen, rest) ← TryReadRaw 4 rest;
  '(key, rest) ← TryReadBytes keyLen rest;
  '(fileId, rest) ← TryReadRaw 4 rest;
  '(offset, rest) ← TryReadRaw 8 rest;
  '(size, rest) ← TryReadRaw 8 rest;
  '(version, rest) ← TryReadRaw 8 rest;
  '(writeMode, rest) ← TryReadRaw 1 rest;
  '(ttlSecond, rest) ← TryReadRaw 4 rest;
  '(storedCrc, rest) ← TryReadRaw 4 rest;
  if crc_matches start rest storedCrc
  then Some (PUT (MkPut key fileId offset size version writeMode ttlSecond), rest) else None.

Definition ParseDelete (start rest : chars) : option (SlotRecord * chars) :=
  '(keyLen, rest) ← TryReadRaw 4 rest;
  '(key, rest) ← TryReadBytes keyLen rest;
  '(version, rest) ← TryReadRaw 8 rest;
  '(storedCrc, rest) ← TryReadRaw 4 rest;
  if crc_matches start rest storedCrc then Some (DELETE (MkDelete key version), rest) else None.

Definition ParseImport (mk : chars → SlotRecord) (start rest : chars) : option (SlotRecord * chars) :=
  '(txnLen, rest) ← TryReadRaw 4 rest;
  '(txnId, rest) ← TryReadBytes txnLen rest;
  '(storedCrc, rest) ← TryReadRaw 4 rest;
  if crc_matches start rest storedCrc then Some (mk txnId, rest) else None.

(** One turn of the loop of [ReadAllRecordFrames]: [None] is [break]. *)
Definition ParseRecord (start : chars) : option (SlotRecord * chars) :=
  '(rawType, rest) ← TryReadRaw 1 start;
  if rawType =? 1 then ParsePut start rest
  else if rawType =? 2 then ParseDelete start rest
  else if rawType =? 3 then ParseImport IMPORT_BEGIN start rest
  else if rawType =? 4 then ParseImport IMPORT_END start rest
  else None.

(** The loop: the frames and [validBytes].  Every turn consumes at least a byte. *)
Fixpoint ReadFrames (fuel : nat) (recordStart : Z) (rest : chars) : list SlotRecordFrame * Z :=
  match fuel with
  | O => ([], recordStart)
  | S fuel' =>
    match rest with
    | [] => ([], recordStart)
    | _ =>
      match ParseRecord rest with
      | None => ([], recordStart)
      | Some (record, rest') =>
        let offset := recordStart + (zsize rest - zsize rest') in
        let '(frames, validBytes) := ReadFrames fuel' offset rest' in
        (MkFrame record recordStart offset :: frames, validBytes)
      end
    end
  end.

(** ** Files *)
Definition TruncateTail (indexPath : path) (validBytes : Z) : io (res unit) :=
  do! _ := act (sys_truncate indexPath validBytes) in
  do! _ := OpenFile indexPath in
  ret (Ok tt).

Definition WritePayload (p : path) (payload : chars) : io (res unit) :=
  do! fd := OpenFile_creat p in
  io! offset := FdFileSize fd in
  do! _ := WriteFile fd payload offset in
  ret (Ok tt).

Definition RewriteHeader (indexPath : path) : io (res unit) :=
  do! _ := TruncateTail indexPath 0 in
  do! _ := WritePayload indexPath WriteHeader in
  ret (Ok tt).

Definition EnsureIndexFile (indexPath : path) : io (res unit) :=
  io! exists_ := FileExist indexPath in
  if negb exists_ then
    do! _ := WritePayload indexPath WriteHeader in ret (Ok tt)
  else
    do! content := ReadWholeFile indexPath in
    if bool_decide (content = []) || (zsize content <? HEADER_SIZE)
    then do! _ := RewriteHeader indexPath in ret (Ok tt)
    else if is_ok (VerifyHeader content) then ret (Ok tt)
    else do! _ := RewriteHeader indexPath in ret (Ok tt).

(** [AppendEncodedRecords] by path. *)
Definition AppendEncodedRecords (indexPath : path) (payload : chars) : io (res unit) :=
  do! _ := EnsureIndexFile indexPath in
  do! _ := WritePayload indexPath payload in
  ret (Ok tt).

(** [AppendEncodedRecords] by descriptor: the new append offset. *)
Definition AppendEncodedRecords_fd (indexFd : nat) (offset : Z) (payload : chars) : io (res Z) :=
  if bool_decide (payload = []) then ret (Ok offset)
  else do! _ := WriteFile indexFd payload (i64 offset) in ret (Ok (u64 (offset + zsize payload))).

Definition AppendRecord (indexPath : path) (r : SlotRecord) : io (res unit) :=
  do! payload := ret (EncodeRecord r) in AppendEncodedRecords indexPath payload.

Definition ReadAllRecordFrames (indexPath : path) : io (res (list SlotRecordFrame * Z)) :=
  do! _ := EnsureIndexFile indexPath in
  do! content := ReadWholeFile indexPath in
  do! _ := ret (VerifyHeader content) in
  let rest := drop (Z.to_nat HEADER_SIZE) content in
  let '(frames, validBytes) := ReadFrames (List.length rest) HEADER_SIZE rest in
  if validBytes <? zsize content
  then do! _ := TruncateTail indexPath validBytes in ret (Ok (frames, validBytes))
  else ret (Ok (frames, validBytes)).

Definition ReadAllRecords (indexPath : path) : io (res (list SlotRecord * Z)) :=
  do! x := ReadAllRecordFrames indexPath in
  ret (Ok (frame_record <$> x.1, x.2)).

(** A reader on a sample. *)
Definition sample_put : SlotPutRecord := MkPut (lit_str "k1") 1 0 5 7 2 0.
Example parse_sample : ParseRecord (default [] (match EncodePut sample_put with Ok s => Some s | _ => None end) ++ lit_str "xyz")
  = Some (PUT sample_put, lit_str "xyz").
Proof. vm_compute. reflexivity. Qed.

(** ** Records are read back as written *)
Lemma byte_val_of z : byte_val (byte_of z) = z mod 256.
Proof.
  pose proof (Z.mod_pos_bound z 256 ltac:(lia)). unfold byte_val, byte_of. rewrite N_ascii_embedding; lia.
Qed.

Lemma byte_val_range c : 0 ≤ byte_val c < 256.
Proof. unfold byte_val. pose proof (N_ascii_bounded c). lia. Qed.

Lemma length_Raw n z : List.length (Raw n z) = n.
Proof. revert z. induction n as [|n IH]; intros z; cbn; [done|]. by rewrite IH. Qed.

Lemma raw_val_Raw n z : raw_val (Raw n z) = z mod 256 ^ Z.of_nat n.
Proof.
  revert z. induction n as [|n IH]; intros z; cbn [Raw raw_val]; [by rewrite Z.mod_1_r|].
  rewrite IH byte_val_of Nat2Z.inj_succ Z.pow_succ_r; [lia|]. rewrite Z.rem_mul_r; [lia|lia|done].
Qed.

Lemma raw_val_bound s : 0 ≤ raw_val s < 256 ^ zsize s.
Proof.
  unfold zsize. induction s as [|c s IH]; cbn [raw_val List.length]; [done|].
  rewrite Nat2Z.inj_succ Z.pow_succ_r; [lia|]. pose proof (byte_val_range c). lia.
Qed.

Lemma TryReadRaw_app n z rest : 0 ≤ z < 256 ^ Z.of_nat n → TryReadRaw n (Raw n z ++ rest) = Some (z, rest).
Proof.
  intros Hz. unfold TryReadRaw. rewrite length_app length_Raw. destruct (Nat.leb_spec n (n + List.length rest)); [|lia].
  rewrite take_app_length' ?length_Raw; [done|]. rewrite drop_app_length' ?length_Raw; [done|].
  by rewrite raw_val_Raw Z.mod_small.
Qed.

Lemma TryReadBytes_app s rest : TryReadBytes (zsize s) (s ++ rest) = Some (s, rest).
Proof.
  unfold TryReadBytes, zsize. rewrite length_app. destruct (Z.ltb_spec (Z.of_nat (List.length s + List.length rest)) (Z.of_nat (List.length s))); [lia|].
  by rewrite Nat2Z.id take_app_length drop_app_length.
Qed.

Lemma crc_bit_range crc : 0 ≤ crc < 2 ^ 32 → 0 ≤ crc_bit crc < 2 ^ 32.
Proof.
  intros H. unfold crc_bit.
  assert (0 ≤ Z.shiftr crc 1 < 2 ^ 31) as Hs.
  { rewrite Z.shiftr_div_pow2; [lia|]. split; [apply Z.div_pos; lia|apply Z.div_lt_upper_bound; lia]. }
  destruct (Z.testbit crc 0); [|lia].
  split; [apply Z.lxor_nonneg; lia|]. set (x := Z.shiftr crc 1) in *.
  destruct (Z.eq_dec (Z.lxor x 0xedb88320) 0) as [->|Hne]; [lia|].
  assert (0 ≤ Z.lxor x 0xedb88320) by (apply Z.lxor_nonneg; lia).
  apply Z.log2_lt_pow2; [lia|]. eapply Z.le_lt_trans; [apply Z.log2_lxor; lia|].
  apply Z.max_lub_lt; [|by vm_compute].
  destruct (Z.eq_dec x 0) as [->|]; [by vm_compute|]. apply Z.log2_lt_pow2; lia.
Qed.

Lemma lxor_range a b : 0 ≤ a < 2 ^ 32 → 0 ≤ b < 256 → 0 ≤ Z.lxor a b < 2 ^ 32.
Proof.
  intros Ha Hb. split; [apply Z.lxor_nonneg; lia|].
  destruct (Z.eq_dec (Z.lxor a b) 0) as [->|Hne]; [lia|].
  assert (0 ≤ Z.lxor a b) by (apply Z.lxor_nonneg; lia).
  apply Z.log2_lt_pow2; [lia|]. eapply Z.le_lt_trans; [apply Z.log2_lxor; lia|].
  apply Z.max_lub_lt.
  - destruct (Z.eq_dec a 0) as [->|]; [by vm_compute|]. apply Z.log2_lt_pow2; lia.
  - destruct (Z.eq_dec b 0) as [->|]; [by vm_compute|]. apply Z.log2_lt_pow2; lia.
Qed.

Lemma CalcCrc32_range data : 0 ≤ CalcCrc32 data < 2 ^ 32.
Proof.
  unfold CalcCrc32. assert (∀ crc, 0 ≤ crc < 2 ^ 32 → 0 ≤ foldl crc_byte crc data < 2 ^ 32) as H; [|apply H; lia].
  induction data as [|c data IH]; intros crc Hcrc; cbn [foldl]; [done|]. apply IH.
  unfold crc_byte. assert (∀ n x, 0 ≤ x < 2 ^ 32 → 0 ≤ Nat.iter n crc_bit x < 2 ^ 32) as Hit.
  { induction n as [|n IHn]; intros x Hx; cbn [Nat.iter]; [done|]. by apply crc_bit_range, IHn. }
  apply Hit, lxor_range; [done|apply byte_val_range].
Qed.

(** A record that fits its fields. *)
Definition key_ok (k : chars) : Prop := k ≠ [] ∧ zsize k < 2 ^ 32.
Definition put_ok (p : SlotPutRecord) : Prop :=
  key_ok (put_key p) ∧ 0 ≤ put_fileId p < 2 ^ 32 ∧ 0 ≤ put_offset p < 2 ^ 64 ∧ 0 ≤ put_size p < 2 ^ 64
  ∧ 0 ≤ put_version p < 2 ^ 64 ∧ 0 ≤ put_writeMode p < 2 ^ 8 ∧ 0 ≤ put_ttlSecond p < 2 ^ 32.
Definition record_ok (r : SlotRecord) : Prop :=
  match r with
  | PUT p => put_ok p
  | DELETE x => key_ok (del_key x) ∧ 0 ≤ del_version x < 2 ^ 64
  | IMPORT_BEGIN t | IMPORT_END t => key_ok t
  end.

(** The bytes of a record. *)
Definition encode (r : SlotRecord) : chars :=
  with_crc (match r with
            | PUT p => put_payload p
            | DELETE x => delete_payload x
            | IMPORT_BEGIN t => import_payload 3 t
            | IMPORT_END t => import_payload 4 t
            end).
Definition encode_all (rs : list SlotRecord) : chars := List.concat (encode <$> rs).

Lemma EncodeRecord_ok r : record_ok r → EncodeRecord r = Ok (encode r).
Proof.
  destruct r as [p|x|t|t]; cbn; [intros ((Hk & _) & _)|intros ((Hk & _) & _)|intros (Hk & _)..];
    unfold EncodePut, EncodeDelete, EncodeImportBegin, EncodeImportEnd; by rewrite bool_decide_false.
Qed.

Lemma crc_matches_encoded payload rest : crc_matches (with_crc payload ++ rest) rest (CalcCrc32 payload) = true.
Proof.
  unfold crc_matches, with_crc. rewrite !length_app length_Raw.
  replace (List.length payload + 4 + List.length rest - List.length rest - 4)%nat with (List.length payload) by lia.
  rewrite -app_assoc take_app_length. apply Z.eqb_refl.
Qed.

Ltac read_raw := rewrite -?app_assoc TryReadRaw_app; [cbn; lia|]; cbn [mbind option_bind].

Lemma ParseRecord_encode r rest : record_ok r → ParseRecord (encode r ++ rest) = Some (r, rest).
Proof.
  intros Hok. unfold ParseRecord. pose proof (λ payload, CalcCrc32_range payload) as Hcrc.
  destruct r as [p|x|t|t]; unfold record_ok, put_ok, key_ok in Hok;
    (assert (Hz : ∀ s : chars, 0 ≤ zsize s) by (unfold zsize; lia));
    remember (encode _ ++ rest) as start eqn:Estart; pose proof Estart as Estart0; revert Estart;
    unfold encode, with_crc, put_payload, delete_payload, import_payload; intros Estart; rewrite -!app_assoc in Estart;
    match type of Estart with _ = Raw 1 ?t ++ ?X =>
      assert (TryReadRaw 1 start = Some (t, X)) as -> by (rewrite Estart; apply TryReadRaw_app; cbn; lia) end;
    cbn [mbind option_bind Z.eqb Pos.eqb].
  - unfold ParsePut. pose proof (Hz (put_key p)). read_raw. rewrite TryReadBytes_app. cbn [mbind option_bind]. do 6 read_raw.
    rewrite TryReadRaw_app; [apply Hcrc|]. cbn [mbind option_bind]. fold (put_payload p).
    rewrite Estart0 /encode crc_matches_encoded. by destruct p.
  - unfold ParseDelete. pose proof (Hz (del_key x)). read_raw. rewrite TryReadBytes_app. cbn [mbind option_bind]. read_raw.
    rewrite TryReadRaw_app; [apply Hcrc|]. cbn [mbind option_bind]. fold (delete_payload x).
    rewrite Estart0 /encode crc_matches_encoded. by destruct x.
  - unfold ParseImport. pose proof (Hz t). read_raw. rewrite TryReadBytes_app. cbn [mbind option_bind].
    rewrite TryReadRaw_app; [apply Hcrc|]. cbn [mbind option_bind]. fold (import_payload 3 t).
    by rewrite Estart0 /encode crc_matches_encoded.
  - unfold ParseImport. pose proof (Hz t). read_raw. rewrite TryReadBytes_app. cbn [mbind option_bind].
    rewrite TryReadRaw_app; [apply Hcrc|]. cbn [mbind option_bind]. fold (import_payload 4 t).
    by rewrite Estart0 /encode crc_matches_encoded.
Qed.

(** ** A cut record is not read

    A reader is local when what it reads does not depend on what follows. *)
Definition local {A} (p : chars → option (A * chars)) : Prop :=
  ∀ s a rest, p s = Some (a, rest) → ∃ c, s = c ++ rest ∧ ∀ more, p (s ++ more) = Some (a, rest ++ more).

Lemma local_TryReadRaw n : local (TryReadRaw n).
Proof.
  intros s z rest. unfold TryReadRaw. destruct (Nat.leb_spec n (List.length s)) as [Hn|]; [|done]. intros [= <- <-].
  exists (take n s). split; [by rewrite take_drop|]. intros more. rewrite length_app.
  destruct (Nat.leb_spec n (List.length s + List.length more)); [|lia]. by rewrite take_app_le ?drop_app_le.
Qed.

Lemma local_TryReadBytes z : local (TryReadBytes z).
Proof.
  intros s t rest. unfold TryReadBytes, zsize. destruct (Z.ltb_spec (Z.of_nat (List.length s)) z) as [|Hz]; [done|].
  intros [= <- <-]. exists (take (Z.to_nat z) s). split; [by rewrite take_drop|]. intros more. rewrite length_app.
  destruct (Z.ltb_spec (Z.of_nat (List.length s + List.length more)) z); [lia|]. rewrite take_app_le ?drop_app_le; [lia..|done].
Qed.

(** The same for the reader of the rest of a record that starts at [c0]: the sum is over what was read. *)
Definition local_from {A} (p : chars → chars → option (A * chars)) : Prop :=
  ∀ c0 s a rest, p (c0 ++ s) s = Some (a, rest) →
    ∃ c, s = c ++ rest ∧ ∀ more, p (c0 ++ s ++ more) (s ++ more) = Some (a, rest ++ more).

Lemma local_from_bind {A B} (p : chars → option (A * chars)) (k : A → chars → chars → option (B * chars)) :
  local p → (∀ a, local_from (k a)) → local_from (λ start s, '(a, r) ← p s; k a start r).
Proof.
  intros Hp Hk c0 s b rest. destruct (p s) as [[a r1]|] eqn:E1; cbn; [|done]. intros E2.
  destruct (Hp _ _ _ E1) as (c1 & -> & H1). cbn in E2. rewrite app_assoc in E2.
  destruct (Hk a (c0 ++ c1) _ _ _ E2) as (c2 & -> & H2).
  exists (c1 ++ c2). split; [by rewrite app_assoc|]. intros more. rewrite H1 /=.
  specialize (H2 more). rewrite -!app_assoc in H2 |- *. exact H2.
Qed.

Lemma local_from_end {A} (mk : A) (z : Z) :
  local_from (λ start rest, if crc_matches start rest z then Some (mk, rest) else None).
Proof.
  intros c0 s a rest. destruct (crc_matches (c0 ++ s) s z) eqn:E; [|done]. intros [= <- <-].
  exists []. split; [done|]. intros more. revert E. unfold crc_matches. rewrite !length_app.
  replace (List.length c0 + (List.length s + List.length more) - (List.length s + List.length more) - 4)%nat
    with (List.length c0 - 4)%nat by lia.
  replace (List.length c0 + List.length s - List.length s - 4)%nat with (List.length c0 - 4)%nat by lia.
  rewrite !take_app_le; [lia..|]. by intros ->.
Qed.

Ltac read_local := apply local_from_bind; [first [apply local_TryReadRaw|apply local_TryReadBytes]|intros ?].

Lemma local_from_ParsePut : local_from ParsePut.
Proof. unfold ParsePut. do 9 read_local. apply local_from_end. Qed.
Lemma local_from_ParseDelete : local_from ParseDelete.
Proof. unfold ParseDelete. do 4 read_local. apply local_from_end. Qed.
Lemma local_from_ParseImport mk : local_from (ParseImport mk).
Proof. unfold ParseImport. do 3 read_local. apply local_from_end. Qed.

Lemma local_ParseRecord : local ParseRecord.
Proof.
  assert (local_from (λ start s, '(rawType, rest) ← TryReadRaw 1 s;
    (if rawType =? 1 then ParsePut else if rawType =? 2 then ParseDelete
     else if rawType =? 3 then ParseImport IMPORT_BEGIN
     else if rawType =? 4 then ParseImport IMPORT_END else λ _ _, None) start rest)) as H.
  { read_local. repeat case_match; auto using local_from_ParsePut, local_from_ParseDelete, local_from_ParseImport.
    by intros ? ? ? ?. }
  assert (∀ s, ParseRecord s = ('(rawType, rest) ← TryReadRaw 1 s;
    (if rawType =? 1 then ParsePut else if rawType =? 2 then ParseDelete
     else if rawType =? 3 then ParseImport IMPORT_BEGIN
     else if rawType =? 4 then ParseImport IMPORT_END else λ _ _, None) s rest)) as E.
  { intros s. unfold ParseRecord. destruct (TryReadRaw 1 s) as [[z r]|]; cbn [mbind option_bind]; [|done].
    by repeat case_match. }
  intros s a rest. rewrite E. intros Hs. destruct (H [] s a rest Hs) as (c & Hc & Hm).
  exists c. split; [done|]. intros more. rewrite E. apply Hm.
Qed.

Lemma ParseRecord_consumes s r rest : ParseRecord s = Some (r, rest) → (List.length rest < List.length s)%nat.
Proof.
  intros H. unfold ParseRecord in H. destruct (TryReadRaw 1 s) as [[z s1]|] eqn:E; cbn [mbind option_bind] in H; [|done].
  assert (List.length s1 < List.length s)%nat as Hlt.
  { revert E. unfold TryReadRaw. destruct (Nat.leb_spec 1 (List.length s)); [|done]. intros [= <- <-]. rewrite length_drop. lia. }
  assert (List.length rest ≤ List.length s1)%nat; [|lia].
  assert (∃ c0, s = c0 ++ s1) as [c0 ->].
  { destruct (local_TryReadRaw _ _ _ _ E) as (c & -> & _). eauto. }
  repeat case_match; try done.
  - apply local_from_ParsePut in H as (? & -> & _). rewrite length_app. lia.
  - apply local_from_ParseDelete in H as (? & -> & _). rewrite length_app. lia.
  - apply local_from_ParseImport in H as (? & -> & _). rewrite length_app. lia.
  - apply local_from_ParseImport in H as (? & -> & _). rewrite length_app. lia.
Qed.

Lemma ParseRecord_torn r t u : record_ok r → encode r = t ++ u → u ≠ [] → ParseRecord t = None.
Proof.
  intros Hok E Hu. destruct (ParseRecord t) as [[r' rest]|] eqn:Et; [|done]. exfalso.
  destruct (local_ParseRecord _ _ _ Et) as (c & -> & Hm). specialize (Hm u). rewrite -E in Hm.
  pose proof (ParseRecord_encode r [] Hok) as Hr. rewrite app_nil_r Hm in Hr. injection Hr as _ Hr.
  by destruct rest, u.
Qed.

(** ** The reader on a log that may be cut *)
Fixpoint frames_of (start : Z) (rs : list SlotRecord) : list SlotRecordFrame :=
  match rs with
  | [] => []
  | r :: rs' => let e := start + zsize (encode r) in MkFrame r start e :: frames_of e rs'
  end.

Lemma frames_of_records start rs : frame_record <$> frames_of start rs = rs.
Proof. revert start. induction rs as [|r rs IH]; intros start; cbn; [done|]. by rewrite IH. Qed.

Lemma encode_ne r : encode r ≠ [].
Proof. unfold encode, with_crc. by destruct r. Qed.

Lemma encode_all_cons r rs : encode_all (r :: rs) = encode r ++ encode_all rs.
Proof. done. Qed.

Lemma encode_all_app rs rs' : encode_all (rs ++ rs') = encode_all rs ++ encode_all rs'.
Proof. unfold encode_all. by rewrite fmap_app concat_app. Qed.

Lemma zsize_app a b : zsize (a ++ b) = zsize a + zsize b.
Proof. unfold zsize. rewrite length_app. lia. Qed.

Lemma ReadFrames_spec rs t : Forall record_ok rs → t = [] ∨ ParseRecord t = None → ∀ fuel start,
  (List.length (encode_all rs ++ t) ≤ fuel)%nat →
  ReadFrames fuel start (encode_all rs ++ t) = (frames_of start rs, start + zsize (encode_all rs)).
Proof.
  intros Hrs Ht. induction Hrs as [|r rs Hr Hrs IH]; intros fuel start Hf.
  - change (encode_all [] ++ t) with t in *. change (zsize (encode_all [])) with 0. rewrite Z.add_0_r.
    destruct fuel as [|fuel]; cbn [ReadFrames frames_of]; [done|]. destruct t as [|c t]; [done|]. by destruct Ht as [| ->].
  - rewrite encode_all_cons -app_assoc in Hf |- *. pose proof (encode_ne r) as Hne.
    assert (0 < List.length (encode r))%nat by (destruct (encode r); [done|cbn; lia]).
    rewrite length_app in Hf. destruct fuel as [|fuel]; [lia|]. cbn [ReadFrames frames_of].
    destruct (encode r ++ encode_all rs ++ t) as [|c l] eqn:E; [by destruct (encode r)|]. rewrite -E.
    rewrite ParseRecord_encode; [done|]. rewrite !(zsize_app (encode r)) (zsize_app (encode_all rs)).
    replace (start + (zsize (encode r) + (zsize (encode_all rs) + zsize t) - (zsize (encode_all rs) + zsize t)))
      with (start + zsize (encode r)) by lia.
    rewrite IH; [lia|]. f_equal. lia.
Qed.

(** A prefix of a log: the complete records, then nothing or a part that is not read. *)
Lemma log_prefix rs : Forall record_ok rs → ∀ k, ∃ n t,
  take k (encode_all rs) = encode_all (take n rs) ++ t ∧ (t = [] ∨ ParseRecord t = None)
  ∧ (List.length (encode_all (take n rs)) ≤ k)%nat
  ∧ (n < List.length rs → k < List.length (encode_all (take (S n) rs)))%nat.
Proof.
  induction 1 as [|r rs Hr Hrs IH]; intros k.
  { exists 0%nat, []. split; [by destruct k|]. split; [by left|]. cbn. lia. }
  rewrite encode_all_cons. destruct (decide (k < List.length (encode r))%nat) as [Hk|Hk].
  - exists 0%nat, (take k (encode r)). rewrite take_app_le; [lia|]. split; [done|]. split.
    + right. apply (ParseRecord_torn r _ (drop k (encode r))); [done|by rewrite take_drop|].
      intros E%(f_equal List.length). rewrite length_drop in E. cbn in E. lia.
    + split; [cbn; lia|]. intros _. cbn [take]. rewrite encode_all_cons length_app. lia.
  - destruct (IH (k - List.length (encode r))%nat) as (n & t & E & Ht & Hn & Hm). exists (S n), t.
    rewrite take_app_ge; [lia|]. cbn [take]. rewrite E encode_all_cons app_assoc. split; [done|]. split; [done|].
    split; [rewrite length_app; lia|]. cbn [List.length]. intros Hlt.
    destruct rs as [|r' rs]; [cbn in *; lia|]. rewrite encode_all_cons length_app. specialize (Hm ltac:(lia)). lia.
Qed.

(** ** Index files *)
Definition good_header (o : option chars) : bool :=
  match o with Some s => (HEADER_SIZE <=? zsize s) && is_ok (VerifyHeader s) | None => false end.

(** The text of an index file once its header is ensured. *)
Definition ensured (o : option chars) : chars := if good_header o then default [] o else WriteHeader.

Lemma VerifyHeader_ok body : VerifyHeader (WriteHeader ++ body) = Ok tt.
Proof.
  unfold VerifyHeader. rewrite zsize_app. change (zsize WriteHeader) with 32. unfold HEADER_SIZE.
  destruct (Z.leb_spec 32 (32 + zsize body)); [|unfold zsize in *; lia].
  unfold WriteHeader. rewrite -!app_assoc TryReadRaw_app; [by vm_compute|]. rewrite TryReadRaw_app; [by vm_compute|]. done.
Qed.

Lemma good_header_ok body : good_header (Some (WriteHeader ++ body)) = true.
Proof.
  unfold good_header. rewrite VerifyHeader_ok zsize_app. change (zsize WriteHeader) with 32. unfold HEADER_SIZE.
  destruct (Z.leb_spec 32 (32 + zsize body)); [done|]. unfold zsize in *. lia.
Qed.

Lemma ensured_ok body : ensured (Some (WriteHeader ++ body)) = WriteHeader ++ body.
Proof. unfold ensured. by rewrite good_header_ok. Qed.

Lemma ensured_size o : HEADER_SIZE ≤ zsize (ensured o).
Proof.
  unfold ensured. destruct (good_header o) eqn:E; [|by vm_compute]. destruct o as [s|]; [|done]. cbn in *.
  apply andb_true_iff in E as [E _]. by apply Z.leb_le in E.
Qed.

Lemma VerifyHeader_ensured o : VerifyHeader (ensured o) = Ok tt.
Proof.
  unfold ensured. destruct (good_header o) eqn:E; [|by vm_compute]. destruct o as [s|]; [|done]. cbn in *.
  apply andb_true_iff in E as [_ E]. by destruct (VerifyHeader s) as [[]|].
Qed.

(** The file of [p] is the same one, if there was one. *)
Definition same_file (d d' : disk) (p : path) : Prop := ∀ i, lookup_ino d p = Some i → lookup_ino d' p = Some i.

Lemma wp_TruncateTail (C : disk → Prop) Q p n s d :
  disk_wf d → content d p = Some s → (∀ d', wrote d d' p (resize s (Z.to_nat n)) → C d' ∧ Q (Ok tt) d') →
  wp C (TruncateTail p n) Q d.
Proof.
  intros Hwf Hs HQ. apply content_lookup in Hs as (i & Hi & Hs).
  assert (wrote d (set_inode i (resize s (Z.to_nat n)) d) p (resize s (Z.to_nat n))) as Hw by (by apply wrote_set_inode).
  destruct (HQ _ Hw) as [HC HQ']. unfold TruncateTail. apply wp_bind_ok, wp_act; unfold sys_truncate; rewrite Hi Hs; cbn [fst snd default from_option id]; [done|].
  apply wp_bind_ok, wp_query. change (lookup_ino (set_inode _ _ d) p) with (lookup_ino d p). rewrite Hi. by apply wp_ret.
Qed.

Lemma wp_WritePayload (C : disk → Prop) Q p payload d :
  disk_wf d → has_dir d p.1 → p.2 ≠ [] → zsize (default [] (content d p)) + zsize payload ≤ SSIZE_MAX + 1 →
  (∀ k d', frame (eq p) d d' → same_file d d' p → content d' p = Some (default [] (content d p) ++ take k payload) → C d') →
  (∀ d', frame (eq p) d d' → same_file d d' p → content d' p = Some (default [] (content d p) ++ payload) → Q (Ok tt) d') →
  wp C (WritePayload p payload) Q d.
Proof.
  intros Hwf Hdir Hne Hlen HC HQ. unfold WritePayload. apply wp_bind_ok. unfold OpenFile_creat.
  assert (∃ fd d1, sys_creat p d = (Ok fd, d1) ∧ lookup_ino d1 p = Some fd ∧ frame (eq p) d d1
          ∧ content d1 p = Some (default [] (content d p)) ∧ same_file d d1 p) as (fd & d1 & E & Hfd & F1 & C1 & S1).
  { destruct (lookup_ino d p) as [i|] eqn:Hi.
    - destruct (wf_live _ Hwf _ _ Hi) as [s Hs].
      assert (content d p = Some s) as Hc by (apply content_lookup; eauto).
      exists i, d. split_and!; [|done|by apply frame_refl|by rewrite Hc|by intros ?].
      unfold sys_creat. destruct Hdir as [m Hm]. rewrite Hm bool_decide_false; [done|].
      unfold lookup_ino in Hi. rewrite Hm in Hi. cbn in Hi. by rewrite Hi.
    - destruct (creat_new d p) as [E1 (F1 & C1 & L1)]; [done..|].
      exists (next_ino d), (sys_creat p d).2. split_and!; [by rewrite -E1 -surjective_pairing|done|done| |].
      + apply content_none in Hi; [|done]. by rewrite C1 Hi.
      + intros i Hi'. congruence. }
  apply wp_act; rewrite E; cbn [fst snd].
  { apply (HC 0%nat); [done..|]. by rewrite take_0 app_nil_r. }
  apply wp_bind, wp_query. pose proof C1 as C1'. apply content_lookup in C1' as (i & Hi & Hs).
  rewrite Hfd in Hi. injection Hi as <-. rewrite Hs. cbn [default from_option id].
  apply wp_bind_ok. eapply wp_append; [apply F1|exact Hfd|exact C1|done|done| |].
  - intros k d' _ (F2 & C2 & L2). apply (HC k); [by eapply disk_frame_trans| |done].
    intros j Hj%S1. by rewrite L2.
  - intros d' (F2 & C2 & L2). apply wp_ret. apply HQ; [by eapply disk_frame_trans| |done].
    intros j Hj%S1. by rewrite L2.
Qed.

(** [EnsureIndexFile]: a file without a good header becomes an empty log, another one is left alone. *)
Lemma wp_EnsureIndexFile (C : disk → Prop) Q p d :
  disk_wf d → has_dir d p.1 → p.2 ≠ [] →
  (∀ k d', good_header (content d p) = false → frame (eq p) d d' →
     content d' p = content d p ∨ content d' p = Some (take k WriteHeader) → C d') →
  (∀ d', frame (eq p) d d' → same_file d d' p → content d' p = Some (ensured (content d p)) →
     (good_header (content d p) = true → d' = d) → Q (Ok tt) d') →
  wp C (EnsureIndexFile p) Q d.
Proof.
  intros Hwf Hdir Hne HC HQ. unfold EnsureIndexFile. apply wp_bind, wp_query.
  rewrite (bool_decide_false (p.2 = [])); [done|]. destruct (content d p) as [s|] eqn:Hs.
  - pose proof Hs as Hs'. apply content_lookup in Hs' as (i & Hi & _). rewrite Hi bool_decide_true; [by eauto|]. cbn [negb].
    apply wp_bind_ok, wp_query. rewrite Hs.
    assert (wp C (RewriteHeader p) (λ r d', r = Ok tt ∧ frame (eq p) d d' ∧ same_file d d' p ∧ content d' p = Some WriteHeader) d
            ∨ good_header (Some s) = true) as Hrw.
    { destruct (good_header (Some s)) eqn:Hg; [by right|left]. unfold RewriteHeader. apply wp_bind_ok.
      eapply wp_TruncateTail; [done..|]. intros d1 (F1 & C1 & L1). assert (content d1 p = Some []) as C1' by (rewrite C1; unfold resize; by rewrite take_0). clear C1; rename C1' into C1. split.
      { apply (HC 0%nat); [done..|right]. by rewrite C1. }
      apply wp_bind_ok. apply wp_WritePayload; [apply F1|by apply (fr_dirs _ _ _ F1)|done|by rewrite C1| |]; rewrite C1.
      - intros k d2 F2 S2 C2. apply (HC k); [done|by eapply disk_frame_trans|by right].
      - intros d2 F2 S2 C2. apply wp_ret. split_and!; [done|by eapply disk_frame_trans| |done].
        intros j Hj. apply S2. by rewrite L1. }
    assert (wp C (do! _ := RewriteHeader p in ret (Ok tt)) Q d ∨ good_header (Some s) = true) as Hrw'.
    { destruct (good_header (Some s)) eqn:Hg; [by right|left]. destruct Hrw as [Hrw|]; [|done].
      apply wp_bind_ok. eapply wp_mono; [exact Hrw|done|]. intros ? d' (-> & F & S & Cn). apply wp_ret. apply HQ; [done..| |].
      - unfold ensured. by rewrite Hg.
      - done. }
    destruct (good_header (Some s)) eqn:Hg.
    + pose proof Hg as Hg'. unfold good_header in Hg'. apply andb_true_iff in Hg' as [H1%Z.leb_le H2].
      rewrite bool_decide_false; [intros ->; by vm_compute in H1|]. destruct (Z.ltb_spec (zsize s) HEADER_SIZE); [lia|].
      cbn [orb]. rewrite H2. apply wp_ret. apply HQ; [by apply frame_refl|by intros ?| |done].
      unfold ensured. by rewrite Hg.
    + destruct Hrw' as [Hrw'|]; [|done].
      destruct (bool_decide (s = []) || (zsize s <? HEADER_SIZE)) eqn:Hb; [done|].
      apply orb_false_iff in Hb as [_ Hb]. destruct (is_ok (VerifyHeader s)) eqn:Hv; [|done].
      unfold good_header in Hg. rewrite Hv andb_true_r in Hg. apply Z.ltb_ge in Hb. apply Z.leb_gt in Hg. lia.
  - assert (lookup_ino d p = None) as Hn by (by apply content_none).
    rewrite Hn bool_decide_false; [intros [? ?]; done|]. cbn [negb]. apply wp_bind_ok.
    apply wp_WritePayload; [done..|by rewrite Hs| |]; rewrite Hs; cbn [default from_option app].
    + intros k d' F S Cn. apply (HC k); [done..|by right].
    + intros d' F S Cn. apply wp_ret. apply HQ; done.
Qed.

Lemma ReadFrames_bounds fuel : ∀ start rest, start ≤ (ReadFrames fuel start rest).2 ≤ start + zsize rest.
Proof.
  induction fuel as [|fuel IH]; intros start rest; cbn [ReadFrames]; [unfold zsize; cbn; lia|].
  destruct rest as [|c0 l0]; [unfold zsize; cbn; lia|]. set (rest0 := c0 :: l0).
  destruct (ParseRecord rest0) as [[r rest']|] eqn:Ep; [|unfold zsize; cbn; lia].
  apply ParseRecord_consumes in Ep. specialize (IH (start + (zsize rest0 - zsize rest')) rest').
  destruct (ReadFrames fuel _ rest') as [fs v]. cbn [snd] in *. unfold zsize in *. lia.
Qed.

(** What the reader makes of the text of an index file. *)
Definition parse_log (s : chars) : list SlotRecordFrame * Z :=
  let rest := drop (Z.to_nat HEADER_SIZE) s in ReadFrames (List.length rest) HEADER_SIZE rest.

Lemma parse_log_bounds s : HEADER_SIZE ≤ zsize s → HEADER_SIZE ≤ (parse_log s).2 ≤ zsize s.
Proof.
  intros Hs. unfold parse_log. pose proof (ReadFrames_bounds (List.length (drop (Z.to_nat HEADER_SIZE) s)) HEADER_SIZE
    (drop (Z.to_nat HEADER_SIZE) s)) as H.
  assert (zsize (drop (Z.to_nat HEADER_SIZE) s) = zsize s - HEADER_SIZE) as Hz.
  { unfold zsize in *. rewrite length_drop. unfold HEADER_SIZE in *. lia. }
  rewrite Hz in H. lia.
Qed.

Lemma parse_log_spec rs t : Forall record_ok rs → t = [] ∨ ParseRecord t = None →
  parse_log (WriteHeader ++ encode_all rs ++ t) = (frames_of HEADER_SIZE rs, HEADER_SIZE + zsize (encode_all rs)).
Proof.
  intros Hrs Ht. unfold parse_log. change (drop (Z.to_nat HEADER_SIZE) (WriteHeader ++ encode_all rs ++ t)) with (encode_all rs ++ t).
  by apply ReadFrames_spec.
Qed.

Lemma resize_take s n : (n ≤ List.length s)%nat → resize s n = take n s.
Proof. intros H. unfold resize. replace (n - List.length s)%nat with 0%nat by lia. by rewrite app_nil_r. Qed.

(** The reader: what it returns and the file it leaves, with every disk it goes through. *)
Lemma wp_ReadAllRecordFrames (C : disk → Prop) Q p d :
  disk_wf d → has_dir d p.1 → p.2 ≠ [] →
  let s := ensured (content d p) in
  (∀ k d', good_header (content d p) = false → frame (eq p) d d' →
     content d' p = content d p ∨ content d' p = Some (take k WriteHeader) → C d') →
  (∀ d', frame (eq p) d d' → same_file d d' p → content d' p = Some (take (Z.to_nat (parse_log s).2) s) →
     C d' ∧ Q (Ok (parse_log s)) d') →
  wp C (ReadAllRecordFrames p) Q d.
Proof.
  intros Hwf Hdir Hne s HC HQ. unfold ReadAllRecordFrames. apply wp_bind_ok.
  apply wp_EnsureIndexFile; [done..|]. intros d1 F1 S1 C1 _. fold s in C1.
  apply wp_bind_ok, wp_query. rewrite C1. apply wp_bind_ok. unfold s at 1. rewrite VerifyHeader_ensured. apply wp_ret.
  fold s. change (ReadFrames _ HEADER_SIZE (drop (Z.to_nat HEADER_SIZE) s)) with (parse_log s).
  pose proof (parse_log_bounds s (ensured_size _)) as Hb. destruct (parse_log s) as [frames v] eqn:Ep. cbn [snd] in *.
  destruct (Z.ltb_spec v (zsize s)) as [Hlt|Hge].
  - apply wp_bind_ok. eapply wp_TruncateTail; [apply F1|exact C1|]. intros d2 (F2 & C2 & L2).
    rewrite resize_take in C2; [unfold zsize in *; lia|].
    assert (frame (eq p) d d2) as F by (by eapply disk_frame_trans).
    assert (same_file d d2 p) as S2 by (intros i Hi%S1; by rewrite L2).
    destruct (HQ _ F S2 C2) as [? ?]. split; [done|]. by apply wp_ret.
  - apply wp_ret. assert (take (Z.to_nat v) s = s) as Ht by (apply take_ge; unfold zsize in *; lia).
    apply HQ; [done..|]. by rewrite Ht.
Qed.

Lemma wp_ReadAllRecords (C : disk → Prop) Q p d :
  disk_wf d → has_dir d p.1 → p.2 ≠ [] →
  let s := ensured (content d p) in
  (∀ k d', good_header (content d p) = false → frame (eq p) d d' →
     content d' p = content d p ∨ content d' p = Some (take k WriteHeader) → C d') →
  (∀ d', frame (eq p) d d' → same_file d d' p → content d' p = Some (take (Z.to_nat (parse_log s).2) s) →
     C d' ∧ Q (Ok (frame_record <$> (parse_log s).1, (parse_log s).2)) d') →
  wp C (ReadAllRecords p) Q d.
Proof.
  intros Hwf Hdir Hne s HC HQ. unfold ReadAllRecords. apply wp_bind_ok.
  apply wp_ReadAllRecordFrames; [done..|]. intros d' F S Cn. destruct (HQ _ F S Cn). split; [done|]. by apply wp_ret.
Qed.

(** [AppendEncodedRecords] on a log with a good header. *)
Lemma wp_AppendEncodedRecords (C : disk → Prop) Q p payload s d :
  disk_wf d → p.2 ≠ [] → content d p = Some s → good_header (Some s) = true → zsize s + zsize payload ≤ SSIZE_MAX + 1 →
  (∀ k d', frame (eq p) d d' → same_file d d' p → content d' p = Some (s ++ take k payload) → C d') →
  (∀ d', frame (eq p) d d' → same_file d d' p → content d' p = Some (s ++ payload) → Q (Ok tt) d') →
  wp C (AppendEncodedRecords p payload) Q d.
Proof.
  intros Hwf Hne Hs Hg Hlen HC HQ. unfold AppendEncodedRecords. apply wp_bind_ok.
  assert (has_dir d p.1) as Hdir by (apply content_lookup in Hs as (i & Hi & _); by eapply lookup_has_dir).
  apply wp_EnsureIndexFile; [done..|rewrite Hs Hg; done|]. intros d1 F1 S1 C1 Hd. rewrite Hs in Hd, C1.
  rewrite Hd; [done|]. apply wp_bind_ok. apply wp_WritePayload; [done..|by rewrite Hs| |]; rewrite Hs.
  - intros k d' F S Cn. by eapply (HC k).
  - intros d' F S Cn. apply wp_ret. by apply HQ.
Qed.

(** ** The properties of the log *)
(** Reading the index file of [p] gives the records [rs], and leaves a file that holds exactly these. *)
Definition reads_as (d : disk) (p : path) (rs : list SlotRecord) : Prop :=
  outcome (ReadAllRecords p d) = Ok (rs, HEADER_SIZE + zsize (encode_all rs))
  ∧ content (final (ReadAllRecords p d)) p = Some (WriteHeader ++ encode_all rs).

Lemma reads_as_log d p rs t :
  disk_wf d → p.2 ≠ [] → Forall record_ok rs → (t = [] ∨ ParseRecord t = None) →
  content d p = Some (WriteHeader ++ encode_all rs ++ t) → reads_as d p rs.
Proof.
  intros Hwf Hne Hrs Ht Hc.
  assert (has_dir d p.1) as Hdir by (apply content_lookup in Hc as (i & Hi & _); by eapply lookup_has_dir).
  assert (wp (λ _, True) (ReadAllRecords p) (λ r d', r = Ok (rs, HEADER_SIZE + zsize (encode_all rs))
     ∧ content d' p = Some (WriteHeader ++ encode_all rs)) d) as [_ H]; [|exact H].
  apply wp_ReadAllRecords; [done..|]. rewrite Hc ensured_ok parse_log_spec; [done..|]. cbn [fst snd].
  intros d' F S Cn. split; [done|]. rewrite frames_of_records. split; [done|]. rewrite Cn. f_equal.
  replace (Z.to_nat (HEADER_SIZE + zsize (encode_all rs))) with (List.length (WriteHeader ++ encode_all rs))
    by (rewrite length_app; unfold zsize; change (List.length WriteHeader) with 32%nat; unfold HEADER_SIZE; lia).
  by rewrite app_assoc take_app_length.
Qed.

(** C24: an index file that holds records and is cut at any byte after its header is read as the records
    that are complete before the cut, and the reader leaves a file that holds exactly these: [n] of
    them, where the next one, if there is one, reaches over the cut. *)
Theorem index_recovers_prefix (rs : list SlotRecord) (k : nat) (p : path) (d : disk) :
  Forall record_ok rs → disk_wf d → p.2 ≠ [] → content d p = Some (WriteHeader ++ take k (encode_all rs)) →
  ∃ n, reads_as d p (take n rs) ∧ (List.length (encode_all (take n rs)) ≤ k)%nat
       ∧ (n < List.length rs → k < List.length (encode_all (take (S n) rs)))%nat.
Proof.
  intros Hrs Hwf Hne Hc. destruct (log_prefix rs Hrs k) as (n & t & E & Ht & Hn & Hm). exists n. split; [|done].
  apply (reads_as_log _ _ _ t); [done..|by apply Forall_take|done|]. by rewrite -E.
Qed.

(** when records are appended to a log and the process dies on the way, the log is afterwards read as the
    old records and the first few of the new ones; when the call returns, it is read as the old records and
    all the new ones. *)
Theorem append_crash_safe (rs new : list SlotRecord) (p : path) (d : disk) :
  Forall record_ok (rs ++ new) → disk_wf d → p.2 ≠ [] → content d p = Some (WriteHeader ++ encode_all rs) →
  zsize (WriteHeader ++ encode_all (rs ++ new)) ≤ SSIZE_MAX →
  let run := AppendEncodedRecords p (encode_all new) d in
  Forall (λ d', ∃ n, reads_as d' p (rs ++ take n new)) (crash_states run)
  ∧ outcome run = Ok tt ∧ reads_as (final run) p (rs ++ new).
Proof.
  intros Hok Hwf Hne Hc Hlen. apply Forall_app in Hok as [Hrs Hnew]. cbn zeta.
  change (wp (λ d', ∃ n, reads_as d' p (rs ++ take n new)) (AppendEncodedRecords p (encode_all new))
    (λ r d', r = Ok tt ∧ reads_as d' p (rs ++ new)) d).
  eapply wp_AppendEncodedRecords; [done..|exact Hc|apply good_header_ok| | |].
  - rewrite encode_all_app (zsize_app WriteHeader) (zsize_app (encode_all rs)) in Hlen. rewrite (zsize_app WriteHeader). lia.
  - intros k d' F S Cn. destruct (log_prefix new Hnew k) as (n & t & E & Ht & _). exists n.
    apply (reads_as_log _ _ _ t); [apply F|done|apply Forall_app; split; [done|by apply Forall_take]|done|].
    by rewrite Cn E encode_all_app -!app_assoc.
  - intros d' F S Cn. split; [done|].
    apply (reads_as_log _ _ _ []); [apply F|done|by apply Forall_app|by left|]. by rewrite Cn encode_all_app app_nil_r -app_assoc.
Qed.

Lemma ensured_torn k : ensured (Some (take k WriteHeader)) = WriteHeader.
Proof.
  destruct (decide (32 ≤ k)%nat).
  - rewrite take_ge; [change (List.length WriteHeader) with 32%nat; lia|]. by vm_compute.
  - do 32 (destruct k as [|k]; [by vm_compute|]). lia.
Qed.

(** A file that is not there, or whose header is torn, is an empty log. *)
Lemma reads_as_empty d p :
  disk_wf d → has_dir d p.1 → p.2 ≠ [] →
  (content d p = None ∨ ∃ k, content d p = Some (take k WriteHeader)) → reads_as d p [].
Proof.
  intros Hwf Hdir Hne Hc.
  assert (ensured (content d p) = WriteHeader) as He by (destruct Hc as [-> |[k ->]]; [done|apply ensured_torn]).
  assert (wp (λ _, True) (ReadAllRecords p) (λ r d', r = Ok ([], HEADER_SIZE) ∧ content d' p = Some WriteHeader) d) as [_ [H1 H2]].
  { apply wp_ReadAllRecords; [done..|]. rewrite He. intros d' F S Cn. split; [done|]. split; [by vm_compute|].
    rewrite Cn. by vm_compute. }
  split; [by rewrite H1|by rewrite H2].
Qed.

(** *** Concrete logs *)
Definition sample_path : path := (lit_str "/s/slot_0001", lit_str "index_active.log").
Definition sample_log : list SlotRecord :=
  [PUT sample_put; DELETE (MkDelete (lit_str "k1") 3); PUT (MkPut (lit_str "k2") 1 5 3 9 2 60)].

Lemma sample_log_ok : Forall record_ok sample_log.
Proof.
  repeat constructor; cbn; unfold put_ok, key_ok; cbn; rewrite /zsize; cbn; split_and?; (lia || done).
Qed.

Lemma index_recovers_prefix_witness : ∃ n,
  reads_as (one_file sample_path (WriteHeader ++ take 70 (encode_all sample_log))) sample_path (take n sample_log)
  ∧ (List.length (encode_all (take n sample_log)) ≤ 70)%nat
  ∧ (n < List.length sample_log → 70 < List.length (encode_all (take (S n) sample_log)))%nat.
Proof.
  apply index_recovers_prefix; [apply sample_log_ok|apply one_file_wf|done|apply one_file_content].
Defined.

Lemma append_crash_safe_witness :
  let run := AppendEncodedRecords sample_path (encode_all (drop 1 sample_log))
               (one_file sample_path (WriteHeader ++ encode_all (take 1 sample_log))) in
  Forall (λ d', ∃ n, reads_as d' sample_path (take 1 sample_log ++ take n (drop 1 sample_log))) (crash_states run)
  ∧ outcome run = Ok tt ∧ reads_as (final run) sample_path (take 1 sample_log ++ drop 1 sample_log).
Proof.
  apply append_crash_safe; [rewrite take_drop; apply sample_log_ok|apply one_file_wf|done|apply one_file_content|].
  rewrite take_drop. by vm_compute.
Defined.

End SlotIndex.
