(* ===== verification/SlotManifest.v ===== *)
(** * SlotManifest: the durable state of a slot

    Model of [src/datasystem/common/l2cache/slot_client/slot_manifest.{h,cpp}], with [Split] of
    [src/datasystem/common/util/net_util.cpp]: the record that names the active index and data files of a slot and the
    operation it is in, its text form, and its storage by atomic replacement.

    The theorems show that every manifest the decoder accepts is in one of the legal combinations of state,
    operation, phase and role, that a manifest is decoded as it was encoded, and that a crash while one is
    stored leaves the old one or the new one. *)
From S2P Require Import Prelude NetUtil KeyHelper SlotFile SlotIndex.
From Stdlib Require Import Ascii String.
Import NetUtil KeyHelper SlotFile FileUtil SlotNames DiskSpec SlotIndex.

(** ** Line-based text *)
Module SlotText.
Local Open Scope Z_scope.

Definition newline : ascii := ascii_of_nat 10.

(** The pieces of [s] between the characters [c]. *)
Fixpoint pieces (c : ascii) (acc s : chars) : list chars :=
  match s with
  | [] => [rev acc]
  | x :: s' => if bool_decide (x = c) then rev acc :: pieces c [] s' else pieces c (x :: acc) s'
  end.

(** [Split] by one character. *)
Definition Split (s : chars) (c : ascii) : list chars := pieces c [] s.

(** The lines [std::getline] returns: nothing after the last newline is not a line. *)
Definition getlines (s : chars) : list chars :=
  let ps := pieces newline [] s in
  match last ps with Some [] => removelast ps | _ => ps end.

(** [JoinVector]. *)
Fixpoint JoinVector (sep : ascii) (values : list chars) : chars :=
  match values with
  | [] => []
  | [v] => v
  | v :: values' => v ++ sep :: JoinVector sep values'
  end.

(** A line [key=value]. *)
Definition line_of (f : chars * chars) : chars := f.1 ++ "="%char :: f.2.
Definition text_of (fields : list (chars * chars)) : chars := List.concat ((λ f, line_of f ++ [newline]) <$> fields).

(** The loop of the decoders: [set] is the chain of tests on the key. *)
Section decode.
Context {A : Type} (set : A → chars → chars → res A).

Fixpoint DecodeLines (a : A) (lines : list chars) : res A :=
  match lines with
  | [] => Ok a
  | line :: lines' =>
    match line with
    | [] => DecodeLines a lines'
    | _ =>
      match split_first "=" line with
      | None => Fail K_INVALID
      | Some (key, value) => let! a' := set a key value in DecodeLines a' lines'
      end
    end
  end.

Fixpoint set_all (a : A) (fields : list (chars * chars)) : res A :=
  match fields with [] => Ok a | (k, v) :: fs => let! a' := set a k v in set_all a' fs end.

(** The text of fields is decoded as the fields. *)
Definition field_ok (f : chars * chars) : Prop := ("="%char ∉ f.1) ∧ (newline ∉ f.1) ∧ (newline ∉ f.2).

Lemma pieces_app c acc l s : c ∉ l → pieces c acc (l ++ c :: s) = (rev acc ++ l) :: pieces c [] s.
Proof.
  revert acc. induction l as [|x l IH]; intros acc Hc; cbn [app pieces].
  - by rewrite bool_decide_true // app_nil_r.
  - apply not_elem_of_cons in Hc as [Hx Hl]. rewrite bool_decide_false; [done|]. rewrite IH; [done|].
    by rewrite /= -app_assoc.
Qed.

Lemma pieces_end c acc l : c ∉ l → pieces c acc l = [rev acc ++ l].
Proof.
  revert acc. induction l as [|x l IH]; intros acc Hc; cbn [pieces]; [by rewrite app_nil_r|].
  apply not_elem_of_cons in Hc as [Hx Hl]. rewrite bool_decide_false; [done|]. rewrite IH; [done|].
  by rewrite /= -app_assoc.
Qed.

Lemma getlines_text fields : Forall field_ok fields → getlines (text_of fields) = line_of <$> fields.
Proof.
  intros Hf. unfold getlines.
  assert (pieces newline [] (text_of fields) = (line_of <$> fields) ++ [[]]) as ->.
  { induction Hf as [|f fs (H1 & H2 & H3) Hfs IH]; [done|].
    change (text_of (f :: fs)) with ((line_of f ++ [newline]) ++ text_of fs). rewrite -app_assoc. cbn [app].
    rewrite pieces_app; [|by rewrite IH]. unfold line_of. rewrite elem_of_app elem_of_cons.
    intros [?|[?|?]]; [done|discriminate|done]. }
  by rewrite last_snoc removelast_last.
Qed.

Lemma DecodeLines_text a fields : Forall field_ok fields →
  DecodeLines a (getlines (text_of fields)) = set_all a fields.
Proof.
  intros Hf. rewrite getlines_text; [done|]. revert a. induction Hf as [|[k v] fs (H1 & H2 & H3) Hfs IH]; intros a; [done|].
  cbn [fmap list_fmap DecodeLines set_all]. cbn [fst snd] in *.
  destruct (line_of (k, v)) as [|c l] eqn:E; [by destruct k|]. rewrite -E. unfold line_of; cbn [fst snd].
  rewrite split_first_app; [done|]. destruct (set a k v); cbn [res_bind]; [apply IH|done].
Qed.

End decode.

Lemma Split_Join c values : values ≠ [] → Forall (λ v, c ∉ v) values → Split (JoinVector c values) c = values.
Proof.
  intros Hne H. unfold Split. destruct H as [|v vs Hv Hvs]; [done|]. clear Hne. revert v Hv.
  induction Hvs as [|w vs Hw Hvs IH]; intros v Hv; cbn [JoinVector]; [by apply pieces_end|].
  rewrite pieces_app; [done|]. cbn [rev app]. f_equal. by apply IH.
Qed.

Lemma Join_ne c values : values ≠ [] → Forall (λ v, v ≠ []) values → JoinVector c values ≠ [].
Proof. intros Hne H. destruct H as [|v vs Hv Hvs]; [done|]. destruct vs; cbn [JoinVector]; [done|by destruct v]. Qed.

Lemma Join_not_elem x c values : x ≠ c → Forall (λ v, x ∉ v) values → x ∉ JoinVector c values.
Proof.
  intros Hc. induction 1 as [|v vs Hv Hvs IH]; cbn [JoinVector]; [by intros ?%elem_of_nil|].
  destruct vs; [done|]. rewrite elem_of_app elem_of_cons. naive_solver.
Qed.

End SlotText.

Module SlotManifest.
Import SlotText.
Local Open Scope Z_scope.

Inductive SlotState := NORMAL | IN_OPERATION.
Inductive SlotOperationType := OP_NONE | COMPACT | TRANSFER.
Inductive SlotOperationPhase :=
| PHASE_NONE | COMPACT_COMMITTING | TRANSFER_FENCING | TRANSFER_PREPARED | TRANSFER_INDEX_PUBLISHED
| TRANSFER_SOURCE_RETIRED.
Inductive SlotOperationRole := ROLE_NONE | LOCAL | SOURCE | TARGET.

#[export] Instance SlotState_eq_dec : EqDecision SlotState.
Proof. solve_decision. Defined.
#[export] Instance SlotOperationType_eq_dec : EqDecision SlotOperationType.
Proof. solve_decision. Defined.
#[export] Instance SlotOperationPhase_eq_dec : EqDecision SlotOperationPhase.
Proof. solve_decision. Defined.
#[export] Instance SlotOperationRole_eq_dec : EqDecision SlotOperationRole.
Proof. solve_decision. Defined.

Record SlotManifestData := MkManifest {
  m_version : Z;
  m_state : SlotState;
  m_opType : SlotOperationType;
  m_opPhase : SlotOperationPhase;
  m_role : SlotOperationRole;
  m_txnId : chars;
  m_ownerEpoch : Z;
  m_homeSlotPath : chars;
  m_recoverySlotPath : chars;
  m_peerSlotPath : chars;
  m_transferPlanPath : chars;
  m_transferFileMap : chars;
  m_activeIndex : chars;
  m_activeData : list chars;
  m_pendingIndex : chars;
  m_pendingData : list chars;
  m_gcPending : bool;
  m_obsoleteIndex : chars;
  m_obsoleteData : list chars;
  m_lastCompactEpochMs : Z
}.

Definition set_version (x : Z) (m : SlotManifestData) : SlotManifestData :=
  MkManifest x (m_state m) (m_opType m) (m_opPhase m) (m_role m) (m_txnId m) (m_ownerEpoch m) (m_homeSlotPath m)
    (m_recoverySlotPath m) (m_peerSlotPath m) (m_transferPlanPath m) (m_transferFileMap m) (m_activeIndex m)
    (m_activeData m) (m_pendingIndex m) (m_pendingData m) (m_gcPending m) (m_obsoleteIndex m) (m_obsoleteData m)
    (m_lastCompactEpochMs m).
Definition set_state (x : SlotState) (m : SlotManifestData) : SlotManifestData :=
  MkManifest (m_version m) x (m_opType m) (m_opPhase m) (m_role m) (m_txnId m) (m_ownerEpoch m) (m_homeSlotPath m)
    (m_recoverySlotPath m) (m_peerSlotPath m) (m_transferPlanPath m) (m_transferFileMap m) (m_activeIndex m)
    (m_activeData m) (m_pendingIndex m) (m_pendingData m) (m_gcPending m) (m_obsoleteIndex m) (m_obsoleteData m)
    (m_lastCompactEpochMs m).
Definition set_opType (x : SlotOperationType) (m : SlotManifestData) : SlotManifestData :=
  MkManifest (m_version m) (m_state m) x (m_opPhase m) (m_role m) (m_txnId m) (m_ownerEpoch m) (m_homeSlotPath m)
    (m_recoverySlotPath m) (m_peerSlotPath m) (m_transferPlanPath m) (m_transferFileMap m) (m_activeIndex m)
    (m_activeData m) (m_pendingIndex m) (m_pendingData m) (m_gcPending m) (m_obsoleteIndex m) (m_obsoleteData m)
    (m_lastCompactEpochMs m).
Definition set_opPhase (x : SlotOperationPhase) (m : SlotManifestData) : SlotManifestData :=
  MkManifest (m_version m) (m_state m) (m_opType m) x (m_role m) (m_txnId m) (m_ownerEpoch m) (m_homeSlotPath m)
    (m_recoverySlotPath m) (m_peerSlotPath m) (m_transferPlanPath m) (m_transferFileMap m) (m_activeIndex m)
    (m_activeData m) (m_pendingIndex m) (m_pendingData m) (m_gcPending m) (m_obsoleteIndex m) (m_obsoleteData m)
    (m_lastCompactEpochMs m).
Definition set_role (x : SlotOperationRole) (m : SlotManifestData) : SlotManifestData :=
  MkManifest (m_version m) (m_state m) (m_opType m) (m_opPhase m) x (m_txnId m) (m_ownerEpoch m) (m_homeSlotPath m)
    (m_recoverySlotPath m) (m_peerSlotPath m) (m_transferPlanPath m) (m_transferFileMap m) (m_activeIndex m)
    (m_activeData m) (m_pendingIndex m) (m_pendingData m) (m_gcPending m) (m_obsoleteIndex m) (m_obsoleteData m)
    (m_lastCompactEpochMs m).
Definition set_txnId (x : chars) (m : SlotManifestData) : SlotManifestData :=
  MkManifest (m_version m) (m_state m) (m_opType m) (m_opPhase m) (m_role m) x (m_ownerEpoch m) (m_homeSlotPath m)
    (m_recoverySlotPath m) (m_peerSlotPath m) (m_transferPlanPath m) (m_transferFileMap m) (m_activeIndex m)
    (m_activeData m) (m_pendingIndex m) (m_pendingData m) (m_gcPending m) (m_obsoleteIndex m) (m_obsoleteData m)
    (m_lastCompactEpochMs m).
Definition set_ownerEpoch (x : Z) (m : SlotManifestData) : SlotManifestData :=
  MkManifest (m_version m) (m_state m) (m_opType m) (m_opPhase m) (m_role m) (m_txnId m) x (m_homeSlotPath m)
    (m_recoverySlotPath m) (m_peerSlotPath m) (m_transferPlanPath m) (m_transferFileMap m) (m_activeIndex m)
    (m_activeData m) (m_pendingIndex m) (m_pendingData m) (m_gcPending m) (m_obsoleteIndex m) (m_obsoleteData m)
    (m_lastCompactEpochMs m).
Definition set_homeSlotPath (x : chars) (m : SlotManifestData) : SlotManifestData :=
  MkManifest (m_version m) (m_state m) (m_opType m) (m_opPhase m) (m_role m) (m_txnId m) (m_ownerEpoch m) x
    (m_recoverySlotPath m) (m_peerSlotPath m) (m_transferPlanPath m) (m_transferFileMap m) (m_activeIndex m)
    (m_activeData m) (m_pendingIndex m) (m_pendingData m) (m_gcPending m) (m_obsoleteIndex m) (m_obsoleteData m)
    (m_lastCompactEpochMs m).
Definition set_recoverySlotPath (x : chars) (m : SlotManifestData) : SlotManifestData :=
  MkManifest (m_version m) (m_state m) (m_opType m) (m_opPhase m) (m_role m) (m_txnId m) (m_ownerEpoch m)
    (m_homeSlotPath m) x (m_peerSlotPath m) (m_transferPlanPath m) (m_transferFileMap m) (m_activeIndex m)
    (m_activeData m) (m_pendingIndex m) (m_pendingData m) (m_gcPending m) (m_obsoleteIndex m) (m_obsoleteData m)
    (m_lastCompactEpochMs m).
Definition set_peerSlotPath (x : chars) (m : SlotManifestData) : SlotManifestData :=
  MkManifest (m_version m) (m_state m) (m_opType m) (m_opPhase m) (m_role m) (m_txnId m) (m_ownerEpoch m)
    (m_homeSlotPath m) (m_recoverySlotPath m) x (m_transferPlanPath m) (m_transferFileMap m) (m_activeIndex m)
    (m_activeData m) (m_pendingIndex m) (m_pendingData m) (m_gcPending m) (m_obsoleteIndex m) (m_obsoleteData m)
    (m_lastCompactEpochMs m).
Definition set_transferPlanPath (x : chars) (m : SlotManifestData) : SlotManifestData :=
  MkManifest (m_version m) (m_state m) (m_opType m) (m_opPhase m) (m_role m) (m_txnId m) (m_ownerEpoch m)
    (m_homeSlotPath m) (m_recoverySlotPath m) (m_peerSlotPath m) x (m_transferFileMap m) (m_activeIndex m)
    (m_activeData m) (m_pendingIndex m) (m_pendingData m) (m_gcPending m) (m_obsoleteIndex m) (m_obsoleteData m)
    (m_lastCompactEpochMs m).
Definition set_transferFileMap (x : chars) (m : SlotManifestData) : SlotManifestData :=
  MkManifest (m_version m) (m_state m) (m_opType m) (m_opPhase m) (m_role m) (m_txnId m) (m_ownerEpoch m)
    (m_homeSlotPath m) (m_recoverySlotPath m) (m_peerSlotPath m) (m_transferPlanPath m) x (m_activeIndex m)
    (m_activeData m) (m_pendingIndex m) (m_pendingData m) (m_gcPending m) (m_obsoleteIndex m) (m_obsoleteData m)
    (m_lastCompactEpochMs m).
Definition set_activeIndex (x : chars) (m : SlotManifestData) : SlotManifestData :=
  MkManifest (m_version m) (m_state m) (m_opType m) (m_opPhase m) (m_role m) (m_txnId m) (m_ownerEpoch m)
    (m_homeSlotPath m) (m_recoverySlotPath m) (m_peerSlotPath m) (m_transferPlanPath m) (m_transferFileMap m) x
    (m_activeData m) (m_pendingIndex m) (m_pendingData m) (m_gcPending m) (m_obsoleteIndex m) (m_obsoleteData m)
    (m_lastCompactEpochMs m).
Definition set_activeData (x : list chars) (m : SlotManifestData) : SlotManifestData :=
  MkManifest (m_version m) (m_state m) (m_opType m) (m_opPhase m) (m_role m) (m_txnId m) (m_ownerEpoch m)
    (m_homeSlotPath m) (m_recoverySlotPath m) (m_peerSlotPath m) (m_transferPlanPath m) (m_transferFileMap m)
    (m_activeIndex m) x (m_pendingIndex m) (m_pendingData m) (m_gcPending m) (m_obsoleteIndex m) (m_obsoleteData m)
    (m_lastCompactEpochMs m).
Definition set_pendingIndex (x : chars) (m : SlotManifestData) : SlotManifestData :=
  MkManifest (m_version m) (m_state m) (m_opType m) (m_opPhase m) (m_role m) (m_txnId m) (m_ownerEpoch m)
    (m_homeSlotPath m) (m_recoverySlotPath m) (m_peerSlotPath m) (m_transferPlanPath m) (m_transferFileMap m)
    (m_activeIndex m) (m_activeData m) x (m_pendingData m) (m_gcPending m) (m_obsoleteIndex m) (m_obsoleteData m)
    (m_lastCompactEpochMs m).
Definition set_pendingData (x : list chars) (m : SlotManifestData) : SlotManifestData :=
  MkManifest (m_version m) (m_state m) (m_opType m) (m_opPhase m) (m_role m) (m_txnId m) (m_ownerEpoch m)
    (m_homeSlotPath m) (m_recoverySlotPath m) (m_peerSlotPath m) (m_transferPlanPath m) (m_transferFileMap m)
    (m_activeIndex m) (m_activeData m) (m_pendingIndex m) x (m_gcPending m) (m_obsoleteIndex m) (m_obsoleteData m)
    (m_lastCompactEpochMs m).
Definition set_gcPending (x : bool) (m : SlotManifestData) : SlotManifestData :=
  MkManifest (m_version m) (m_state m) (m_opType m) (m_opPhase m) (m_role m) (m_txnId m) (m_ownerEpoch m)
    (m_homeSlotPath m) (m_recoverySlotPath m) (m_peerSlotPath m) (m_transferPlanPath m) (m_transferFileMap m)
    (m_activeIndex m) (m_activeData m) (m_pendingIndex m) (m_pendingData m) x (m_obsoleteIndex m) (m_obsoleteData m)
    (m_lastCompactEpochMs m).
Definition set_obsoleteIndex (x : chars) (m : SlotManifestData) : SlotManifestData :=
  MkManifest (m_version m) (m_state m) (m_opType m) (m_opPhase m) (m_role m) (m_txnId m) (m_ownerEpoch m)
    (m_homeSlotPath m) (m_recoverySlotPath m) (m_peerSlotPath m) (m_transferPlanPath m) (m_transferFileMap m)
    (m_activeIndex m) (m_activeData m) (m_pendingIndex m) (m_pendingData m) (m_gcPending m) x (m_obsoleteData m)
    (m_lastCompactEpochMs m).
Definition set_obsoleteData (x : list chars) (m : SlotManifestData) : SlotManifestData :=
  MkManifest (m_version m) (m_state m) (m_opType m) (m_opPhase m) (m_role m) (m_txnId m) (m_ownerEpoch m)
    (m_homeSlotPath m) (m_recoverySlotPath m) (m_peerSlotPath m) (m_transferPlanPath m) (m_transferFileMap m)
    (m_activeIndex m) (m_activeData m) (m_pendingIndex m) (m_pendingData m) (m_gcPending m) (m_obsoleteIndex m) x
    (m_lastCompactEpochMs m).
Definition set_lastCompactEpochMs (x : Z) (m : SlotManifestData) : SlotManifestData :=
  MkManifest (m_version m) (m_state m) (m_opType m) (m_opPhase m) (m_role m) (m_txnId m) (m_ownerEpoch m)
    (m_homeSlotPath m) (m_recoverySlotPath m) (m_peerSlotPath m) (m_transferPlanPath m) (m_transferFileMap m)
    (m_activeIndex m) (m_activeData m) (m_pendingIndex m) (m_pendingData m) (m_gcPending m) (m_obsoleteIndex m)
    (m_obsoleteData m) x.

#[export] Instance SlotManifestData_eq_dec : EqDecision SlotManifestData.
Proof. solve_decision. Defined.

Definition INDEX_ACTIVE : chars := lit_str "index_active.log".

(** [SlotManifestData{}]. *)
Definition Bootstrap : SlotManifestData :=
  MkManifest 1 NORMAL OP_NONE PHASE_NONE ROLE_NONE [] 0 [] [] [] [] [] INDEX_ACTIVE [FormatDataFileName 1] [] [] false
    [] [] 0.

Definition IsNormalManifest (m : SlotManifestData) : bool :=
  bool_decide (m_state m = NORMAL) && bool_decide (m_opType m = OP_NONE) && bool_decide (m_opPhase m = PHASE_NONE)
  && bool_decide (m_role m = ROLE_NONE).

Definition is_transfer_phase (p : SlotOperationPhase) : bool :=
  match p with
  | TRANSFER_FENCING | TRANSFER_PREPARED | TRANSFER_INDEX_PUBLISHED | TRANSFER_SOURCE_RETIRED => true
  | _ => false
  end.

Definition nonempty (s : chars) : bool := negb (bool_decide (s = [])).

Definition ValidateManifestStateCombination (m : SlotManifestData) : res unit :=
  match m_state m with
  | NORMAL =>
    check! IsNormalManifest m else K_INVALID in
    check! negb (nonempty (m_txnId m)) else K_INVALID in Ok tt
  | IN_OPERATION =>
    if bool_decide (m_opType m = COMPACT) then
      check! bool_decide (m_opPhase m = COMPACT_COMMITTING) else K_INVALID in
      check! bool_decide (m_role m = LOCAL) else K_INVALID in
      check! nonempty (m_txnId m) else K_INVALID in Ok tt
    else
      check! bool_decide (m_opType m = TRANSFER) else K_INVALID in
      check! bool_decide (m_role m = SOURCE) || bool_decide (m_role m = TARGET) else K_INVALID in
      check! is_transfer_phase (m_opPhase m) else K_INVALID in
      check! nonempty (m_txnId m) else K_INVALID in
      check! nonempty (m_recoverySlotPath m) else K_INVALID in
      if bool_decide (m_role m = TARGET) && negb (bool_decide (m_opPhase m = TRANSFER_FENCING))
      then check! nonempty (m_transferPlanPath m) else K_INVALID in Ok tt
      else Ok tt
  end.

(** [ToString] and the parsers of the enumerations. *)
Definition state_name (x : SlotState) : chars :=
  lit_str match x with NORMAL => "NORMAL" | IN_OPERATION => "IN_OPERATION" end.
Definition opType_name (x : SlotOperationType) : chars :=
  lit_str match x with OP_NONE => "NONE" | COMPACT => "COMPACT" | TRANSFER => "TRANSFER" end.
Definition opPhase_name (x : SlotOperationPhase) : chars :=
  lit_str match x with
          | PHASE_NONE => "NONE"
          | COMPACT_COMMITTING => "COMPACT_COMMITTING"
          | TRANSFER_FENCING => "TRANSFER_FENCING"
          | TRANSFER_PREPARED => "TRANSFER_PREPARED"
          | TRANSFER_INDEX_PUBLISHED => "TRANSFER_INDEX_PUBLISHED"
          | TRANSFER_SOURCE_RETIRED => "TRANSFER_SOURCE_RETIRED"
          end.
Definition role_name (x : SlotOperationRole) : chars :=
  lit_str match x with ROLE_NONE => "NONE" | LOCAL => "LOCAL" | SOURCE => "SOURCE" | TARGET => "TARGET" end.

(** The value of a list that has the given name. *)
Definition by_name {A} (name : A → chars) (values : list A) (value : chars) : res A :=
  match filter (λ x, name x = value) values with x :: _ => Ok x | [] => Fail K_INVALID end.

Definition SlotStateFromString : chars → res SlotState := by_name state_name [NORMAL; IN_OPERATION].
Definition SlotOperationTypeFromString : chars → res SlotOperationType := by_name opType_name [OP_NONE; COMPACT; TRANSFER].
Definition SlotOperationPhaseFromString : chars → res SlotOperationPhase :=
  by_name opPhase_name [PHASE_NONE; COMPACT_COMMITTING; TRANSFER_FENCING; TRANSFER_PREPARED; TRANSFER_INDEX_PUBLISHED;
                        TRANSFER_SOURCE_RETIRED].
Definition SlotOperationRoleFromString : chars → res SlotOperationRole := by_name role_name [ROLE_NONE; LOCAL; SOURCE; TARGET].

Definition bool_name (b : bool) : chars := lit_str (if b then "true" else "false").

(** ** Encode *)
Definition manifest_fields (m : SlotManifestData) : list (chars * chars) :=
  [ (lit_str "version", u64_to_string (m_version m));
    (lit_str "state", state_name (m_state m));
    (lit_str "op_type", opType_name (m_opType m));
    (lit_str "op_phase", opPhase_name (m_opPhase m));
    (lit_str "role", role_name (m_role m));
    (lit_str "txn_id", m_txnId m);
    (lit_str "owner_epoch", u64_to_string (m_ownerEpoch m));
    (lit_str "home_slot_path", m_homeSlotPath m);
    (lit_str "recovery_slot_path", m_recoverySlotPath m);
    (lit_str "peer_slot_path", m_peerSlotPath m);
    (lit_str "transfer_plan_path", m_transferPlanPath m);
    (lit_str "transfer_file_map", m_transferFileMap m);
    (lit_str "active_index", m_activeIndex m);
    (lit_str "active_data", JoinVector "," (m_activeData m));
    (lit_str "pending_index", m_pendingIndex m);
    (lit_str "pending_data", JoinVector "," (m_pendingData m));
    (lit_str "gc_pending", bool_name (m_gcPending m));
    (lit_str "obsolete_index", m_obsoleteIndex m);
    (lit_str "obsolete_data", JoinVector "," (m_obsoleteData m));
    (lit_str "last_compact_epoch_ms", u64_to_string (m_lastCompactEpochMs m)) ].

Definition Encode (m : SlotManifestData) : chars := text_of (manifest_fields m).

(** ** Decode *)
(** The state of the loop: the manifest, [activeIndexSeen] and [activeDataSeen]. *)
Record decoding := MkDecoding { dec_manifest : SlotManifestData; activeIndexSeen : bool; activeDataSeen : bool }.

Definition upd (f : SlotManifestData → SlotManifestData) (a : decoding) : res decoding :=
  Ok (MkDecoding (f (dec_manifest a)) (activeIndexSeen a) (activeDataSeen a)).

Definition parse_number (value : chars) : res Z :=
  match stoul value with Some v => Ok v | None => Fail K_INVALID end.

Definition parse_names (value : chars) : list chars := match value with [] => [] | _ => Split value "," end.

(** What each key sets; an unknown key is ignored. *)
Definition setters : list (chars * (chars → decoding → res decoding)) :=
  [ (lit_str "version", λ v a, let! n := parse_number v in upd (set_version (u32 n)) a);
    (lit_str "state", λ v a, let! x := SlotStateFromString v in upd (set_state x) a);
    (lit_str "op_type", λ v a, let! x := SlotOperationTypeFromString v in upd (set_opType x) a);
    (lit_str "op_phase", λ v a, let! x := SlotOperationPhaseFromString v in upd (set_opPhase x) a);
    (lit_str "role", λ v a, let! x := SlotOperationRoleFromString v in upd (set_role x) a);
    (lit_str "txn_id", λ v, upd (set_txnId v));
    (lit_str "owner_epoch", λ v a, let! n := parse_number v in upd (set_ownerEpoch n) a);
    (lit_str "home_slot_path", λ v, upd (set_homeSlotPath v));
    (lit_str "recovery_slot_path", λ v, upd (set_recoverySlotPath v));
    (lit_str "peer_slot_path", λ v, upd (set_peerSlotPath v));
    (lit_str "transfer_plan_path", λ v, upd (set_transferPlanPath v));
    (lit_str "transfer_file_map", λ v, upd (set_transferFileMap v));
    (lit_str "active_index", λ v a, Ok (MkDecoding (set_activeIndex v (dec_manifest a)) true (activeDataSeen a)));
    (lit_str "active_data", λ v a, Ok (MkDecoding (set_activeData (parse_names v) (dec_manifest a)) (activeIndexSeen a) true));
    (lit_str "pending_index", λ v, upd (set_pendingIndex v));
    (lit_str "pending_data", λ v, upd (set_pendingData (parse_names v)));
    (lit_str "gc_pending", λ v, upd (set_gcPending (bool_decide (v = lit_str "true"))));
    (lit_str "obsolete_index", λ v, upd (set_obsoleteIndex v));
    (lit_str "obsolete_data", λ v, upd (set_obsoleteData (parse_names v)));
    (lit_str "last_compact_epoch_ms", λ v a, let! n := parse_number v in upd (set_lastCompactEpochMs n) a) ].

Fixpoint find_key {B} (l : list (chars * B)) (key : chars) : option B :=
  match l with [] => None | (k, b) :: l' => if bool_decide (k = key) then Some b else find_key l' key end.

Definition SetField (a : decoding) (key value : chars) : res decoding :=
  match find_key setters key with Some f => f value a | None => Ok a end.

Definition Decode (content : chars) : res SlotManifestData :=
  let! a := DecodeLines SetField (MkDecoding Bootstrap false false) (getlines content) in
  let m := dec_manifest a in
  let! _ := ValidateManifestStateCombination m in
  let m := if negb (activeDataSeen a) && bool_decide (m_activeData m = []) && IsNormalManifest m
           then set_activeData (m_activeData m ++ [FormatDataFileName 1]) m else m in
  let m := if negb (activeIndexSeen a) && bool_decide (m_activeIndex m = []) && IsNormalManifest m
           then set_activeIndex INDEX_ACTIVE m else m in
  check! nonempty (m_activeIndex m) || bool_decide (m_role m = SOURCE) else K_INVALID in
  Ok m.

(** ** Load and StoreAtomic *)
Definition MANIFEST_FILE : chars := lit_str "manifest".

Definition Load (slotPath : chars) : io (res SlotManifestData) :=
  io! exists_ := FileExist (slotPath, MANIFEST_FILE) in
  assert! exists_ else K_NOT_FOUND in
  do! text := ReadWholeFile (slotPath, MANIFEST_FILE) in
  ret (Decode text).

Definition StoreAtomic (slotPath : chars) (m : SlotManifestData) : io (res unit) :=
  do! _ := CreateDir slotPath in
  do! _ := AtomicWriteTextFile (slotPath, MANIFEST_FILE) (Encode m) in
  ret (Ok tt).

Example decode_bootstrap : Decode (Encode Bootstrap) = Ok Bootstrap.
Proof. vm_compute. reflexivity. Qed.

(** ** Round trip *)
Definition plain (s : chars) : Prop := newline ∉ s.
Definition names_ok (l : list chars) : Prop := Forall (λ n, n ≠ [] ∧ (","%char ∉ n) ∧ plain n) l.

Record manifest_ok (m : SlotManifestData) : Prop := {
  ok_valid : ValidateManifestStateCombination m = Ok tt;
  ok_index : m_activeIndex m ≠ [] ∨ m_role m = SOURCE;
  ok_version : 0 ≤ m_version m < 2 ^ 32;
  ok_ownerEpoch : 0 ≤ m_ownerEpoch m < 2 ^ 64;
  ok_compactEpoch : 0 ≤ m_lastCompactEpochMs m < 2 ^ 64;
  ok_strings : Forall plain [m_txnId m; m_homeSlotPath m; m_recoverySlotPath m; m_peerSlotPath m; m_transferPlanPath m;
                             m_transferFileMap m; m_activeIndex m; m_pendingIndex m; m_obsoleteIndex m];
  ok_names : names_ok (m_activeData m) ∧ names_ok (m_pendingData m) ∧ names_ok (m_obsoleteData m)
}.

Lemma SlotStateFromString_name x : SlotStateFromString (state_name x) = Ok x.
Proof. by destruct x. Qed.
Lemma SlotOperationTypeFromString_name x : SlotOperationTypeFromString (opType_name x) = Ok x.
Proof. by destruct x. Qed.
Lemma SlotOperationPhaseFromString_name x : SlotOperationPhaseFromString (opPhase_name x) = Ok x.
Proof. by destruct x. Qed.
Lemma SlotOperationRoleFromString_name x : SlotOperationRoleFromString (role_name x) = Ok x.
Proof. by destruct x. Qed.

Lemma parse_number_u64 n : 0 ≤ n < 2 ^ 64 → parse_number (u64_to_string n) = Ok n.
Proof. intros Hn. unfold parse_number. by rewrite stoul_u64. Qed.

Lemma parse_names_join l : names_ok l → parse_names (JoinVector "," l) = l.
Proof.
  intros Hl. unfold parse_names. destruct (decide (l = [])) as [->|Hne]; [done|].
  assert (JoinVector "," l ≠ []) as Hj by (apply Join_ne; [done|]; eapply Forall_impl; [exact Hl|]; naive_solver).
  assert (Split (JoinVector "," l) "," = l) as Hs by (apply Split_Join; [done|]; eapply Forall_impl; [exact Hl|]; naive_solver).
  destruct (JoinVector "," l); [done|exact Hs].
Qed.

Lemma plain_number n : plain (u64_to_string n).
Proof. intros Hin. eapply digits_of_digits in Hin; [|by intros ? ?%elem_of_nil]. done. Qed.

Lemma plain_join l : names_ok l → plain (JoinVector "," l).
Proof. intros Hl. apply Join_not_elem; [done|]. eapply Forall_impl; [exact Hl|]. naive_solver. Qed.

(** A character that does not occur, by computation. *)
Definition absent (c : ascii) (s : chars) : bool := forallb (λ x, negb (bool_decide (x = c))) s.

Lemma absent_spec c s : absent c s = true → c ∉ s.
Proof.
  unfold absent. rewrite forallb_forall. intros H Hin%list_elem_of_In. specialize (H _ Hin).
  rewrite bool_decide_true // in H.
Qed.

Lemma field_ok_intro k v : absent "=" k && absent newline k = true → plain v → field_ok (k, v).
Proof. intros [H1 H2]%andb_true_iff Hv. split; [by apply absent_spec|]. split; [by apply absent_spec|done]. Qed.

Lemma plain_enums m : plain (state_name (m_state m)) ∧ plain (opType_name (m_opType m))
  ∧ plain (opPhase_name (m_opPhase m)) ∧ plain (role_name (m_role m)) ∧ plain (bool_name (m_gcPending m)).
Proof.
  split_and!; apply absent_spec.
  - by destruct (m_state m).
  - by destruct (m_opType m).
  - by destruct (m_opPhase m).
  - by destruct (m_role m).
  - by destruct (m_gcPending m).
Qed.

Lemma manifest_fields_ok m : manifest_ok m → Forall field_ok (manifest_fields m).
Proof.
  intros [_ _ _ _ _ Hs (Ha & Hp & Ho)]. destruct (plain_enums m) as (E1 & E2 & E3 & E4 & E5).
  repeat (apply Forall_cons in Hs as [? Hs]).
  repeat (apply Forall_cons; split; [apply field_ok_intro; [reflexivity|]|]);
    auto using plain_number, plain_join, Forall_nil.
Qed.

(** The keys of the text are those of the setters, in order. *)
Fixpoint apply_all (fs : list (chars → decoding → res decoding)) (vs : list chars) (a : decoding) : res decoding :=
  match fs, vs with
  | f :: fs', v :: vs' => let! a' := f v a in apply_all fs' vs' a'
  | _, _ => Ok a
  end.

Lemma set_all_apply fs fields a :
  Forall2 (λ kv f, find_key setters kv.1 = Some f) fields fs → set_all SetField a fields = apply_all fs (fields.*2) a.
Proof.
  intros H. revert a. induction H as [|[k v] f kvs fs Hk Hrest IH]; intros a; [done|].
  cbn [set_all apply_all fmap list_fmap snd fst] in *. unfold SetField at 1. rewrite Hk.
  destruct (f v a); cbn [res_bind]; [apply IH|done].
Qed.

Lemma manifest_keys m : Forall2 (λ kv f, find_key setters kv.1 = Some f) (manifest_fields m) (setters.*2).
Proof. repeat (apply Forall2_cons; split; [reflexivity|]). apply Forall2_nil. done. Qed.

Lemma decode_fields m : manifest_ok m →
  apply_all (setters.*2) ((manifest_fields m).*2) (MkDecoding Bootstrap false false) = Ok (MkDecoding m true true).
Proof.
  intros [_ _ Hv Ho Hc _ (Ha & Hp & Hob)].
  unfold manifest_fields, setters. cbn [fmap list_fmap snd apply_all].
  rewrite SlotStateFromString_name SlotOperationTypeFromString_name SlotOperationPhaseFromString_name
    SlotOperationRoleFromString_name !parse_number_u64; [lia|done..|].
  rewrite !parse_names_join; [done..|]. cbn [res_bind upd dec_manifest activeIndexSeen activeDataSeen].
  rewrite u32_small; [done|]. f_equal. f_equal. destruct m; cbn. f_equal. by destruct m_gcPending0.
Qed.

Lemma Decode_inv content m : Decode content = Ok m →
  ∃ m0, ValidateManifestStateCombination m0 = Ok tt
    ∧ (m = m0 ∨ (∃ x, m = set_activeData x m0) ∨ (∃ y, m = set_activeIndex y m0)
       ∨ ∃ x y, m = set_activeIndex y (set_activeData x m0))
    ∧ (m_activeIndex m ≠ [] ∨ m_role m = SOURCE).
Proof.
  unfold Decode. intros (a & _ & H)%res_bind_Ok. apply res_bind_Ok in H as ([] & Hv & H).
  exists (dec_manifest a). split; [done|].
  destruct (nonempty _ || _) eqn:E in H; [|done]. injection H as H. apply orb_true_iff in E. rewrite H in E.
  split.
  - rewrite -H. repeat case_match; eauto 6.
  - destruct E as [E|E]; [left|right; by apply bool_decide_eq_true in E].
    unfold nonempty in E. apply negb_true_iff, bool_decide_eq_false in E. done.
Qed.

(** The states of the protocol, written out: state, operation, phase and role, and what the manifest has to carry in it: a transaction
    id, the path of the recovery slot, the path of the transfer plan. *)
Definition protocol_rows : list (SlotState * SlotOperationType * SlotOperationPhase * SlotOperationRole * (bool * bool * bool)) :=
  [(NORMAL, OP_NONE, PHASE_NONE, ROLE_NONE, (false, false, false));
   (IN_OPERATION, COMPACT, COMPACT_COMMITTING, LOCAL, (true, false, false));
   (IN_OPERATION, TRANSFER, TRANSFER_FENCING, SOURCE, (true, true, false));
   (IN_OPERATION, TRANSFER, TRANSFER_PREPARED, SOURCE, (true, true, false));
   (IN_OPERATION, TRANSFER, TRANSFER_INDEX_PUBLISHED, SOURCE, (true, true, false));
   (IN_OPERATION, TRANSFER, TRANSFER_SOURCE_RETIRED, SOURCE, (true, true, false));
   (IN_OPERATION, TRANSFER, TRANSFER_FENCING, TARGET, (true, true, false));
   (IN_OPERATION, TRANSFER, TRANSFER_PREPARED, TARGET, (true, true, true));
   (IN_OPERATION, TRANSFER, TRANSFER_INDEX_PUBLISHED, TARGET, (true, true, true));
   (IN_OPERATION, TRANSFER, TRANSFER_SOURCE_RETIRED, TARGET, (true, true, true))].

(** A manifest in one of them: the transaction id is there exactly when it has to be, the paths at least then. *)
Definition in_protocol (m : SlotManifestData) : Prop :=
  ∃ txn recovery plan,
    (m_state m, m_opType m, m_opPhase m, m_role m, (txn, recovery, plan)) ∈ protocol_rows
    ∧ (m_txnId m ≠ [] ↔ txn = true) ∧ (recovery = true → m_recoverySlotPath m ≠ []) ∧ (plan = true → m_transferPlanPath m ≠ []).

(** The rows of a combination: at most one. *)
Lemma protocol_row s t p r txn recovery plan :
  (s, t, p, r, (txn, recovery, plan)) ∈ protocol_rows ↔
    match s, t, p, r with
    | NORMAL, OP_NONE, PHASE_NONE, ROLE_NONE => txn = false ∧ recovery = false ∧ plan = false
    | IN_OPERATION, COMPACT, COMPACT_COMMITTING, LOCAL => txn = true ∧ recovery = false ∧ plan = false
    | IN_OPERATION, TRANSFER, TRANSFER_FENCING, (SOURCE | TARGET) => txn = true ∧ recovery = true ∧ plan = false
    | IN_OPERATION, TRANSFER, (TRANSFER_PREPARED | TRANSFER_INDEX_PUBLISHED | TRANSFER_SOURCE_RETIRED), SOURCE => txn = true ∧ recovery = true ∧ plan = false
    | IN_OPERATION, TRANSFER, (TRANSFER_PREPARED | TRANSFER_INDEX_PUBLISHED | TRANSFER_SOURCE_RETIRED), TARGET => txn = true ∧ recovery = true ∧ plan = true
    | _, _, _, _ => False
    end.
Proof.
  destruct s, t, p, r; try (split; [intros H%(bool_decide_pack _); by destruct txn, recovery, plan; vm_compute in H|by intros []]);
    (split; [intros H%(bool_decide_pack _); by destruct txn, recovery, plan; vm_compute in H
            |intros (-> & -> & ->); apply (bool_decide_unpack _); vm_compute; exact I]).
Qed.

Lemma nonempty_true l : nonempty l = true ↔ l ≠ [].
Proof. unfold nonempty. by rewrite negb_true_iff bool_decide_eq_false. Qed.

Lemma Validate_protocol m : ValidateManifestStateCombination m = Ok tt ↔ in_protocol m.
Proof.
  unfold in_protocol. setoid_rewrite protocol_row. setoid_rewrite <-nonempty_true. unfold ValidateManifestStateCombination, IsNormalManifest.
  generalize (nonempty (m_txnId m)), (nonempty (m_recoverySlotPath m)), (nonempty (m_transferPlanPath m)). intros b1 b2 b3.
  destruct (m_state m), (m_opType m), (m_opPhase m), (m_role m); vm_compute; try (split; [done|by intros (? & ? & ? & [] & _)]);
    destruct b1, b2, b3; split; naive_solver.
Qed.

(** C27: a manifest read from disk is in a state of the protocol.  What the decoder accepts is in one of the ten rows of the table
    [protocol_rows]: idle; committing a compaction; or the source or the target of a transfer in one of its four phases; with a transaction
    id exactly when it is not idle, the path of the recovery slot in a transfer, and the path of the transfer plan as the target after the fencing;
    and it names its active index unless it is the source of a transfer.  The validator accepts exactly the manifests of the table. *)
Theorem decode_valid :
  (∀ content m, Decode content = Ok m → in_protocol m ∧ (m_activeIndex m = [] → m_opType m = TRANSFER ∧ m_role m = SOURCE))
  ∧ ∀ m, ValidateManifestStateCombination m = Ok tt ↔ in_protocol m.
Proof.
  split; [|apply Validate_protocol]. intros content m (m0 & Hv & Hm & Hi)%Decode_inv.
  assert (in_protocol m) as Hp by (apply Validate_protocol; destruct Hm as [-> |[(? & ->)|[(? & ->)|(? & ? & ->)]]]; exact Hv).
  split; [done|]. intros Ha. destruct Hi as [|Er]; [done|]. split; [|done].
  destruct Hp as (txn & recovery & plan & Hrow & _). rewrite protocol_row Er in Hrow. by destruct (m_state m), (m_opType m), (m_opPhase m).
Qed.

Lemma manifest_roundtrip_spec m : manifest_ok m → Decode (Encode m) = Ok m.
Proof.
  intros Hok. unfold Decode, Encode. rewrite DecodeLines_text; [by apply manifest_fields_ok|].
  rewrite (set_all_apply (setters.*2)); [apply manifest_keys|]. rewrite decode_fields; [done|].
  cbn [res_bind dec_manifest activeIndexSeen activeDataSeen negb andb]. rewrite (ok_valid _ Hok). cbn [res_bind].
  destruct (ok_index _ Hok) as [H|H]; unfold nonempty.
  - by rewrite bool_decide_false.
  - by rewrite (bool_decide_true (m_role m = SOURCE)) // orb_true_r.
Qed.

(** C26: a manifest that can be stored is decoded as it was encoded.  The conditions are those of [manifest_ok]: the validator accepts it
    (C26 says when), it names its active index or is the source of a transfer, the version fits 32 bits and the two epochs 64, no string
    holds a line break, and no name in the lists of data files is empty or holds a comma or a line break. *)
Theorem manifest_roundtrip (m : SlotManifestData) : manifest_ok m → Decode (Encode m) = Ok m.
Proof. apply manifest_roundtrip_spec. Qed.

(** ** Storing *)
Definition dots (s : chars) : nat := List.length (filter (λ c, c = "."%char) s).

Lemma one_dot_not_tmp p : (dots p.2 ≤ 1)%nat → ¬ is_tmp p.
Proof.
  intros H (base & s & E). rewrite E in H. unfold dots in H. rewrite !filter_app !length_app in H.
  change (List.length (filter (λ c, c = "."%char) (lit_str ".tmp."))) with 2%nat in H. lia.
Qed.

Lemma wp_StoreAtomic_tmp (C : disk → Prop) Q slotPath m d :
  disk_wf d → has_dir d slotPath → zsize (Encode m) ≤ SSIZE_MAX →
  (∀ d', frame (tmp_of (slotPath, MANIFEST_FILE)) d d' → C d') →
  (∀ d', replaced d d' (slotPath, MANIFEST_FILE) (Encode m) → C d' ∧ Q (Ok tt) d') →
  wp C (StoreAtomic slotPath m) Q d.
Proof.
  intros Hwf Hdir Hlen HC HQ. unfold StoreAtomic. apply wp_bind_ok. unfold CreateDir. apply wp_bind, wp_act;
    unfold sys_mkdir, dir_exists; cbn [fst snd]; rewrite (bool_decide_true _ Hdir); [by apply HC, frame_refl|].
  apply wp_ret, wp_bind_ok. apply wp_AtomicWriteTextFile_tmp; [done..| |done|done|].
  - apply one_dot_not_tmp. vm_compute. lia.
  - intros d' Hr. destruct (HQ _ Hr). split; [done|]. by apply wp_ret.
Qed.

Lemma wp_StoreAtomic (C : disk → Prop) Q slotPath m d :
  disk_wf d → has_dir d slotPath → zsize (Encode m) ≤ SSIZE_MAX →
  (∀ d', frame is_tmp d d' → C d') →
  (∀ d', replaced d d' (slotPath, MANIFEST_FILE) (Encode m) → C d' ∧ Q (Ok tt) d') →
  wp C (StoreAtomic slotPath m) Q d.
Proof.
  intros Hwf Hdir Hlen HC HQ. apply wp_StoreAtomic_tmp; [done..| |done].
  intros d' F. apply HC. eapply frame_mono; [exact F|]. apply tmp_of_is_tmp.
Qed.

Lemma Load_text slotPath d text : content d (slotPath, MANIFEST_FILE) = Some text →
  Load slotPath d = ([], Decode text, d).
Proof.
  intros Hc. pose proof Hc as Hc'. apply content_lookup in Hc' as (i & Hi & _).
  unfold Load, bind, bind_ok, bind, FileExist, query, ReadWholeFile, query.
  change (bool_decide (_ = [])) with false. cbv beta iota. rewrite Hi. rewrite bool_decide_true; [by eauto|].
  cbv beta iota. cbn [fst snd]. by rewrite Hc.
Qed.

(** storing a manifest is atomic: a process that dies in [StoreAtomic] leaves a slot from which the old
    manifest is loaded, and when the call returns the new one is. *)
Theorem manifest_store_atomic (slotPath : chars) (old new : SlotManifestData) (d : disk) :
  manifest_ok old → manifest_ok new → disk_wf d → zsize (Encode new) ≤ SSIZE_MAX →
  content d (slotPath, MANIFEST_FILE) = Some (Encode old) →
  let run := StoreAtomic slotPath new d in
  Forall (λ d', outcome (Load slotPath d') = Ok old ∨ outcome (Load slotPath d') = Ok new) (crash_states run)
  ∧ outcome run = Ok tt ∧ outcome (Load slotPath (final run)) = Ok new.
Proof.
  intros Ho Hn Hwf Hlen Hc. cbn zeta.
  assert (has_dir d slotPath) as Hdir.
  { apply content_lookup in Hc as (i & Hi & _). by apply lookup_has_dir in Hi. }
  apply (wp_StoreAtomic (λ d', outcome (Load slotPath d') = Ok old ∨ outcome (Load slotPath d') = Ok new)
    (λ r d', r = Ok tt ∧ outcome (Load slotPath d') = Ok new)); [done..| |].
  - intros d' F. left. rewrite (Load_text _ _ (Encode old)).
    + rewrite (fr_content _ _ _ F); [|done]. apply one_dot_not_tmp. vm_compute. lia.
    + by apply manifest_roundtrip_spec.
  - intros d' (F & C1 & _). rewrite (Load_text _ _ _ C1). split; [right|split; [done|]]; by apply manifest_roundtrip_spec.
Qed.

(** *** A concrete manifest *)
Definition sample_manifest : SlotManifestData :=
  MkManifest 1 IN_OPERATION TRANSFER TRANSFER_PREPARED TARGET (lit_str "3_17") 4 (lit_str "/s/slot_0003")
    (lit_str "/w/slot_0003.recovery.3_17") (lit_str "/w/slot_0003") (lit_str "takeover_3_17.plan") (lit_str "1:2,3:4")
    INDEX_ACTIVE [FormatDataFileName 1; FormatDataFileName 5] [] [] true (lit_str "index_compact_9.log")
    [FormatDataFileName 7] 1720000000000.

Lemma bool_names_ok l : forallb (λ n, nonempty n && absent "," n && absent newline n) l = true → names_ok l.
Proof.
  rewrite forallb_forall. intros H. apply Forall_forall. intros n Hn%list_elem_of_In%H.
  apply andb_true_iff in Hn as [[Hn H1]%andb_true_iff H2]. unfold nonempty in Hn.
  apply negb_true_iff, bool_decide_eq_false in Hn. split_and!; [done|by apply absent_spec..].
Qed.

Lemma sample_manifest_ok : manifest_ok sample_manifest.
Proof.
  split; [by vm_compute|by left|cbn; lia|cbn; lia|cbn; lia| |].
  - repeat (apply Forall_cons; split; [by apply absent_spec|]). apply Forall_nil. done.
  - split_and!; apply bool_names_ok; by vm_compute.
Qed.

Lemma bootstrap_ok : manifest_ok Bootstrap.
Proof.
  split; [by vm_compute|by left|cbn; lia|cbn; lia|cbn; lia| |].
  - repeat (apply Forall_cons; split; [by apply absent_spec|]). apply Forall_nil. done.
  - split_and!; apply bool_names_ok; by vm_compute.
Qed.

Lemma manifest_roundtrip_witness : Decode (Encode sample_manifest) = Ok sample_manifest.
Proof. apply manifest_roundtrip. exact sample_manifest_ok. Defined.

Lemma manifest_store_atomic_witness :
  let run := StoreAtomic (lit_str "/s") sample_manifest (one_file (lit_str "/s", MANIFEST_FILE) (Encode Bootstrap)) in
  Forall (λ d', outcome (Load (lit_str "/s") d') = Ok Bootstrap ∨ outcome (Load (lit_str "/s") d') = Ok sample_manifest)
    (crash_states run)
  ∧ outcome run = Ok tt ∧ outcome (Load (lit_str "/s") (final run)) = Ok sample_manifest.
Proof.
  apply manifest_store_atomic; [exact bootstrap_ok|exact sample_manifest_ok|apply one_file_wf|by vm_compute|apply one_file_content].
Defined.

End SlotManifest.
