(* ===== verification/SlotSnapshot.v ===== *)
(** * SlotSnapshot: the view of a slot

    Model of [src/datasystem/common/l2cache/slot_client/slot_snapshot.{h,cpp}]: the puts and the deletions of a slot by
    key, the lookups, and the replay of an index into a snapshot.

    The two maps are finite maps; a [std::map] by version is walked in the order of the versions.  The theorems
    show that the lookups return exactly the visible puts, that the visible puts are collected in order and
    without omission, and that an import batch of the log takes effect as a whole or not at all. *)
From S2P Require Import Prelude NetUtil KeyHelper SlotFile SlotIndex SlotManifest.
From Stdlib Require Import Ascii String.
Import NetUtil KeyHelper SlotFile FileUtil SlotNames DiskSpec SlotIndex SlotManifest.

Module SlotSnapshot.
Local Open Scope Z_scope.

Record SlotSnapshotValue := MkValue {
  val_key : chars;
  val_fileId : Z;
  val_offset : Z;
  val_size : Z;
  val_version : Z;
  val_writeMode : Z;
  val_deleted : bool
}.

Record SlotSnapshot := MkSnapshot {
  putsByKey_ : gmap chars (gmap Z SlotPutRecord);
  deletedUpToByKey_ : gmap chars Z
}.

Definition empty_snapshot : SlotSnapshot := MkSnapshot ∅ ∅.

Definition ApplyPut (record : SlotPutRecord) (s : SlotSnapshot) : SlotSnapshot :=
  MkSnapshot (<[put_key record := <[put_version record := record]> (default ∅ (putsByKey_ s !! put_key record))]> (putsByKey_ s))
    (deletedUpToByKey_ s).

Definition ApplyDelete (record : SlotDeleteRecord) (s : SlotSnapshot) : SlotSnapshot :=
  MkSnapshot (putsByKey_ s)
    (<[del_key record := Z.max (default 0 (deletedUpToByKey_ s !! del_key record)) (del_version record)]> (deletedUpToByKey_ s)).

Definition value_of (key : chars) (p : SlotPutRecord) : SlotSnapshotValue :=
  MkValue key (put_fileId p) (put_offset p) (put_size p) (put_version p) (put_writeMode p) false.

Definition FindExact (s : SlotSnapshot) (key : chars) (version : Z) : res SlotSnapshotValue :=
  match putsByKey_ s !! key with
  | None => Fail K_NOT_FOUND_IN_L2CACHE
  | Some versions =>
    match versions !! version with
    | None => Fail K_NOT_FOUND_IN_L2CACHE
    | Some p =>
      check! match deletedUpToByKey_ s !! key with None => true | Some deleted => deleted <? version end
        else K_NOT_FOUND_IN_L2CACHE in Ok (value_of key p)
    end
  end.

(** The entries of a [std::map] by version, in order. *)
Definition version_le (x y : Z * SlotPutRecord) : Prop := x.1 ≤ y.1.

#[export] Instance version_le_dec x y : Decision (version_le x y).
Proof. unfold version_le. apply _. Defined.

Definition by_version (m : gmap Z SlotPutRecord) : list (Z * SlotPutRecord) := merge_sort version_le (map_to_list m).

(** The loop of [FindLatest], from the last entry on. *)
Fixpoint find_latest (entries : list (Z * SlotPutRecord)) (key : chars) (minVersion deletedVersion : Z) : res SlotSnapshotValue :=
  match entries with
  | [] => Fail K_NOT_FOUND_IN_L2CACHE
  | (version, p) :: entries' =>
    if (minVersion <? version) && (deletedVersion <? version) then Ok (value_of key p)
    else find_latest entries' key minVersion deletedVersion
  end.

Definition FindLatest (s : SlotSnapshot) (key : chars) (minVersion : Z) : res SlotSnapshotValue :=
  match putsByKey_ s !! key with
  | None => Fail K_NOT_FOUND_IN_L2CACHE
  | Some versions =>
    let deletedVersion := default 0 (deletedUpToByKey_ s !! key) in
    find_latest (rev (by_version versions)) key minVersion deletedVersion
  end.

(** The order of the collected puts: by key, then by version. *)
Definition put_before (a b : SlotPutRecord) : Prop :=
  put_key a ≠ put_key b ∧ chars_le (put_key a) (put_key b) ∨ put_key a = put_key b ∧ put_version a ≤ put_version b.

#[export] Instance put_before_dec a b : Decision (put_before a b).
Proof. unfold put_before. apply _. Defined.

Definition visible_of (s : SlotSnapshot) (entry : chars * gmap Z SlotPutRecord) : list SlotPutRecord :=
  let deletedVersion := default 0 (deletedUpToByKey_ s !! entry.1) in
  snd <$> filter (λ e, deletedVersion < e.1) (by_version entry.2).

Definition CollectVisiblePuts (s : SlotSnapshot) : list SlotPutRecord :=
  merge_sort put_before (map_to_list (putsByKey_ s) ≫= visible_of s).

(** ** Replay *)
Definition IsValidPut (slotPath : chars) (record : SlotPutRecord) : io bool :=
  io! fileSize := FileSize (slotPath, FormatDataFileName (put_fileId record)) in
  ret (if fileSize <? 0 then false
       else (put_offset record <=? fileSize) && (put_size record <=? fileSize)
            && (u64 (put_offset record + put_size record) <=? fileSize)).

Definition applyRecord (slotPath : chars) (snapshot : SlotSnapshot) (record : SlotRecord) : io SlotSnapshot :=
  match record with
  | PUT p => io! valid := IsValidPut slotPath p in ret (if valid : bool then ApplyPut p snapshot else snapshot)
  | DELETE x => ret (ApplyDelete x snapshot)
  | _ => ret snapshot
  end.

Fixpoint applyRecords (slotPath : chars) (snapshot : SlotSnapshot) (records : list SlotRecord) : io SlotSnapshot :=
  match records with
  | [] => ret snapshot
  | r :: rs => io! snapshot' := applyRecord slotPath snapshot r in applyRecords slotPath snapshot' rs
  end.

(** The state of the loop: the snapshot and, in an import batch, its transaction and staged records. *)
Record replaying := MkReplaying { rep_snapshot : SlotSnapshot; rep_batch : option (chars * list SlotRecord) }.

Definition replay_record (slotPath : chars) (st : replaying) (record : SlotRecord) : io replaying :=
  match record with
  | IMPORT_BEGIN txnId => ret (MkReplaying (rep_snapshot st) (Some (txnId, [])))
  | IMPORT_END txnId =>
    match rep_batch st with
    | Some (importTxnId, staged) =>
      if bool_decide (txnId = importTxnId)
      then io! snapshot := applyRecords slotPath (rep_snapshot st) staged in ret (MkReplaying snapshot None)
      else ret (MkReplaying (rep_snapshot st) None)
    | None => ret (MkReplaying (rep_snapshot st) None)
    end
  | _ =>
    match rep_batch st with
    | Some (importTxnId, staged) => ret (MkReplaying (rep_snapshot st) (Some (importTxnId, staged ++ [record])))
    | None => io! snapshot := applyRecord slotPath (rep_snapshot st) record in ret (MkReplaying snapshot None)
    end
  end.

Fixpoint replay_records (slotPath : chars) (st : replaying) (records : list SlotRecord) : io replaying :=
  match records with
  | [] => ret st
  | r :: rs => io! st' := replay_record slotPath st r in replay_records slotPath st' rs
  end.

Definition Replay (slotPath : chars) (manifest : SlotManifestData) : io (res SlotSnapshot) :=
  do! x := ReadAllRecords (slotPath, m_activeIndex manifest) in
  io! st := replay_records slotPath (MkReplaying empty_snapshot None) x.1 in
  ret (Ok (rep_snapshot st)).

(** ** Lookups *)
Definition put_at (s : SlotSnapshot) (key : chars) (version : Z) : option SlotPutRecord :=
  m ← putsByKey_ s !! key; m !! version.
Definition deletedUpTo (s : SlotSnapshot) (key : chars) : Z := default 0 (deletedUpToByKey_ s !! key).

(** A put is stored under its key and version. *)
Definition snapshot_wf (s : SlotSnapshot) : Prop :=
  ∀ key version p, put_at s key version = Some p → put_key p = key ∧ put_version p = version.

Lemma put_at_ApplyPut r s key version :
  put_at (ApplyPut r s) key version = if bool_decide (key = put_key r ∧ version = put_version r) then Some r else put_at s key version.
Proof.
  unfold put_at, ApplyPut; cbn. destruct (decide (key = put_key r)) as [->|Hk].
  - rewrite lookup_insert_eq /=. destruct (decide (version = put_version r)) as [->|Hv].
    + by rewrite lookup_insert_eq bool_decide_true.
    + rewrite lookup_insert_ne; [done|]. rewrite bool_decide_false; [naive_solver|].
      by destruct (putsByKey_ s !! put_key r).
  - rewrite lookup_insert_ne; [done|]. rewrite bool_decide_false; naive_solver.
Qed.

Lemma deletedUpTo_ApplyDelete r s key :
  deletedUpTo (ApplyDelete r s) key
  = if bool_decide (key = del_key r) then Z.max (deletedUpTo s key) (del_version r) else deletedUpTo s key.
Proof.
  unfold deletedUpTo, ApplyDelete; cbn. case_bool_decide as E; [subst; by rewrite lookup_insert_eq|by rewrite lookup_insert_ne].
Qed.

Lemma snapshot_wf_empty : snapshot_wf empty_snapshot.
Proof. intros key version p. unfold put_at. cbn. by rewrite lookup_empty. Qed.

Lemma snapshot_wf_ApplyPut r s : snapshot_wf s → snapshot_wf (ApplyPut r s).
Proof.
  intros Hs key version p. rewrite put_at_ApplyPut. case_bool_decide as E; [|apply Hs]. intros [= <-]. naive_solver.
Qed.

Lemma snapshot_wf_ApplyDelete r s : snapshot_wf s → snapshot_wf (ApplyDelete r s).
Proof. done. Qed.

Lemma FindExact_spec s key version val :
  FindExact s key version = Ok val ↔
  ∃ p, put_at s key version = Some p ∧ val = value_of key p
       ∧ match deletedUpToByKey_ s !! key with None => True | Some deleted => deleted < version end.
Proof.
  unfold FindExact, put_at. destruct (putsByKey_ s !! key) as [m|]; cbn; [|naive_solver].
  destruct (m !! version) as [p|]; [|naive_solver].
  destruct (deletedUpToByKey_ s !! key) as [del|]; [destruct (Z.ltb_spec del version)|]; naive_solver lia.
Qed.

Lemma elem_of_by_version m v p : (v, p) ∈ by_version m ↔ m !! v = Some p.
Proof. unfold by_version. by rewrite elem_of_merge_sort elem_of_map_to_list. Qed.

Lemma by_version_sorted m : StronglySorted version_le (by_version m).
Proof.
  assert (Transitive version_le) by (intros x y z; unfold version_le; lia).
  assert (Total version_le) by (intros x y; unfold version_le; lia).
  by apply StronglySorted_merge_sort.
Qed.

Lemma find_latest_spec entries key lo del val :
  StronglySorted (flip version_le) entries →
  find_latest entries key lo del = Ok val →
  ∃ v p, (v, p) ∈ entries ∧ val = value_of key p ∧ lo < v ∧ del < v
         ∧ ∀ v' p', (v', p') ∈ entries → lo < v' → del < v' → v' ≤ v.
Proof.
  induction 1 as [|[v p] entries Hs IH Hall]; cbn [find_latest]; [done|].
  destruct (Z.ltb_spec lo v) as [H1|H1]; destruct (Z.ltb_spec del v) as [H2|H2]; cbn [andb].
  1: { intros [= <-]. exists v, p. split_and!; [by left|done|done|done|].
       intros v' p' [[= -> ->]|Hin]%elem_of_cons ? ?; [lia|].
       rewrite Forall_forall in Hall. apply Hall in Hin. unfold version_le in Hin. cbn in Hin. lia. }
  all: intros (v0 & p0 & Hin & ? & ? & ? & Hmax)%IH; exists v0, p0; split_and!; [by right|done..|];
    intros v' p' [[= -> ->]|Hin']%elem_of_cons ? ?; [lia|by eapply Hmax].
Qed.

Lemma find_latest_none entries key lo del c :
  find_latest entries key lo del = Fail c → ∀ v p, (v, p) ∈ entries → ¬ (lo < v ∧ del < v).
Proof.
  induction entries as [|[v0 p0] entries IH]; cbn [find_latest]; [by intros _ v p ?%elem_of_nil|].
  destruct (Z.ltb_spec lo v0); destruct (Z.ltb_spec del v0); cbn [andb]; [done|..];
    intros Hf v p [[= -> ->]|Hin]%elem_of_cons; (lia || by eapply IH).
Qed.

Lemma elem_of_list_rev {A} (l : list A) x : x ∈ rev l ↔ x ∈ l.
Proof. by rewrite !list_elem_of_In -in_rev. Qed.

Lemma rev_by_version_sorted m : StronglySorted (flip version_le) (rev (by_version m)).
Proof.
  pose proof (by_version_sorted m) as H. induction H as [|x l Hs IH Hall]; cbn [rev]; [constructor|].
  apply StronglySorted_app_2; [|done|repeat constructor].
  intros y z Hy ->%list_elem_of_singleton. rewrite elem_of_list_rev in Hy. rewrite Forall_forall in Hall. exact (Hall _ Hy).
Qed.

(** [FindLatest] returns the put with the greatest version above the bound and above the deletions of
    the key, and fails exactly when there is none; [FindExact] returns the put of the version unless it
    is deleted. *)
Theorem lookups_exact (s : SlotSnapshot) (key : chars) :
  (∀ version val, FindExact s key version = Ok val ↔
     ∃ p, put_at s key version = Some p ∧ val = value_of key p
          ∧ match deletedUpToByKey_ s !! key with None => True | Some deleted => deleted < version end)
  ∧ (∀ minVersion val, FindLatest s key minVersion = Ok val →
     ∃ v p, put_at s key v = Some p ∧ val = value_of key p ∧ minVersion < v ∧ deletedUpTo s key < v
            ∧ ∀ v' p', put_at s key v' = Some p' → minVersion < v' → deletedUpTo s key < v' → v' ≤ v)
  ∧ (∀ minVersion, FindLatest s key minVersion = Fail K_NOT_FOUND_IN_L2CACHE ↔
     ∀ v p, put_at s key v = Some p → ¬ (minVersion < v ∧ deletedUpTo s key < v)).
Proof.
  split; [intros; apply FindExact_spec|]. unfold FindLatest, put_at, deletedUpTo.
  destruct (putsByKey_ s !! key) as [m|]; cbn; [|naive_solver].
  assert (∀ v p, (v, p) ∈ rev (by_version m) ↔ m !! v = Some p) as Hin.
  { intros v p. by rewrite elem_of_list_rev elem_of_by_version. }
  split.
  - intros lo val (v & p & H1 & ? & ? & ? & Hmax)%(find_latest_spec _ _ _ _ _ (rev_by_version_sorted m)).
    exists v, p. split_and!; [by apply Hin|done..|]. intros v' p' H'%Hin. by eapply Hmax.
  - intros lo. destruct (find_latest _ key lo _) as [val|c] eqn:E; split.
    + done.
    + intros H. apply (find_latest_spec _ _ _ _ _ (rev_by_version_sorted m)) in E as (v & p & H1%Hin & ? & ? & ? & _). naive_solver.
    + intros _ v p H%Hin. by eapply find_latest_none.
    + intros _. f_equal. revert E. clear. induction (rev (by_version m)) as [|[v p] l IH]; cbn [find_latest]; [congruence|].
      by destruct (_ && _).
Qed.

(** ** Collection *)
(** A put is live when its version is above the deletions of its key. *)
Definition live (s : SlotSnapshot) (p : SlotPutRecord) : Prop :=
  put_at s (put_key p) (put_version p) = Some p ∧ deletedUpTo s (put_key p) < put_version p.

Lemma elem_of_Collect s p : snapshot_wf s → p ∈ CollectVisiblePuts s ↔ live s p.
Proof.
  intros Hwf. unfold CollectVisiblePuts. rewrite elem_of_merge_sort list_elem_of_bind. unfold visible_of, live, put_at. split.
  - intros ([key m] & Hin & Hm%elem_of_map_to_list). cbn in *.
    apply list_elem_of_fmap in Hin as ([v p'] & -> & Hin). apply list_elem_of_filter in Hin as [Hlt Hin%elem_of_by_version]. cbn in *.
    destruct (Hwf key v p') as [<- <-]; [unfold put_at; by rewrite Hm|]. rewrite Hm. done.
  - intros [(m & Hm & Hp)%bind_Some Hlt]. exists (put_key p, m). split; [|by apply elem_of_map_to_list].
    apply list_elem_of_fmap. exists (put_version p, p). split; [done|]. apply list_elem_of_filter.
    split; [done|]. by apply elem_of_by_version.
Qed.

Lemma chars_le_refl a : chars_le a a.
Proof. unfold chars_le. apply str_nlt_le. unfold str_lt, String.ltb. by rewrite str_compare_refl. Qed.

#[export] Instance chars_le_total : Total chars_le.
Proof. intros a b. unfold chars_le. apply (total String.le). Qed.
#[export] Instance chars_le_trans : Transitive chars_le.
Proof. intros a b c. unfold chars_le. apply transitivity. Qed.

Lemma chars_le_antisym a b : chars_le a b → chars_le b a → a = b.
Proof.
  unfold chars_le. intros H1 H2. assert (string_of_list_ascii a = string_of_list_ascii b) as E by (by apply (anti_symm String.le)).
  rewrite -(list_ascii_of_string_of_list_ascii a) -(list_ascii_of_string_of_list_ascii b). by rewrite E.
Qed.

#[export] Instance put_before_total : Total put_before.
Proof.
  intros a b. unfold put_before. destruct (decide (put_key a = put_key b)) as [E|E].
  - destruct (decide (put_version a ≤ put_version b)); [left|right]; right; (split; [done|lia]).
  - destruct (chars_le_total (put_key a) (put_key b)); [left|right]; left; done.
Qed.
#[export] Instance put_before_trans : Transitive put_before.
Proof.
  intros a b c [[Hn Hl]|[E Hl]] [[Hn' Hl']|[E' Hl']]; unfold put_before.
  - left. split; [|by transitivity (put_key b)]. intros E. rewrite E in Hl. by apply Hn', chars_le_antisym.
  - left. by rewrite -E'.
  - left. by rewrite E.
  - right. split; [congruence|lia].
Qed.

Lemma NoDup_Collect s : snapshot_wf s → NoDup (CollectVisiblePuts s).
Proof.
  intros Hwf. unfold CollectVisiblePuts. rewrite merge_sort_Permutation. apply NoDup_bind.
  - intros [k1 m1] [k2 m2] p H1%elem_of_map_to_list H2%elem_of_map_to_list
      [[v1 p1] [-> [_ Hi1%elem_of_by_version]%list_elem_of_filter]]%list_elem_of_fmap
      [[v2 p2] [E [_ Hi2%elem_of_by_version]%list_elem_of_filter]]%list_elem_of_fmap. cbn in *. subst p2.
    destruct (Hwf k1 v1 p1) as [<- _]; [unfold put_at; by rewrite H1|].
    destruct (Hwf k2 v2 p1) as [<- _]; [unfold put_at; by rewrite H2|]. congruence.
  - intros [k m] Hm%elem_of_map_to_list. unfold visible_of. cbn.
    apply NoDup_fmap_2_strong.
    + intros [v1 p1] [v2 p2] [_ H1%elem_of_by_version]%list_elem_of_filter [_ H2%elem_of_by_version]%list_elem_of_filter. cbn. intros <-.
      destruct (Hwf k v1 p1) as [_ <-]; [unfold put_at; by rewrite Hm|].
      destruct (Hwf k v2 p1) as [_ <-]; [unfold put_at; by rewrite Hm|]. done.
    + apply NoDup_filter. unfold by_version. rewrite merge_sort_Permutation. apply NoDup_map_to_list.
  - apply NoDup_map_to_list.
Qed.

(** the puts a snapshot collects are exactly its live puts, each once, by key and then by version. *)
Theorem collect_exact (s : SlotSnapshot) (Hwf : snapshot_wf s) :
  (∀ p, p ∈ CollectVisiblePuts s ↔ live s p) ∧ NoDup (CollectVisiblePuts s)
  ∧ StronglySorted put_before (CollectVisiblePuts s).
Proof.
  split_and!; [intros; by apply elem_of_Collect|by apply NoDup_Collect|].
  apply StronglySorted_merge_sort; apply _.
Qed.

(** ** Replay as a function of the records *)
Definition valid_put (d : disk) (slotPath : chars) (p : SlotPutRecord) : bool :=
  match content d (slotPath, FormatDataFileName (put_fileId p)) with
  | None => false
  | Some s => (put_offset p <=? zsize s) && (put_size p <=? zsize s) && (u64 (put_offset p + put_size p) <=? zsize s)
  end.

Section pure.
Context (valid : SlotPutRecord → bool).

Definition apply1 (s : SlotSnapshot) (r : SlotRecord) : SlotSnapshot :=
  match r with
  | PUT p => if valid p then ApplyPut p s else s
  | DELETE x => ApplyDelete x s
  | _ => s
  end.

Definition step1 (st : replaying) (r : SlotRecord) : replaying :=
  match r with
  | IMPORT_BEGIN t => MkReplaying (rep_snapshot st) (Some (t, []))
  | IMPORT_END t =>
    match rep_batch st with
    | Some (t', staged) => MkReplaying (if bool_decide (t = t') then foldl apply1 (rep_snapshot st) staged else rep_snapshot st) None
    | None => MkReplaying (rep_snapshot st) None
    end
  | _ =>
    match rep_batch st with
    | Some (t', staged) => MkReplaying (rep_snapshot st) (Some (t', staged ++ [r]))
    | None => MkReplaying (apply1 (rep_snapshot st) r) None
    end
  end.

Definition replay_state (rs : list SlotRecord) : replaying := foldl step1 (MkReplaying empty_snapshot None) rs.

(** The snapshot of a log. *)
Definition snapshot_of (rs : list SlotRecord) : SlotSnapshot := rep_snapshot (replay_state rs).

(** No import batch is open at the end of the log. *)
Definition closed (rs : list SlotRecord) : Prop := rep_batch (replay_state rs) = None.

(** Records other than the marks of import batches. *)
Definition is_mark (r : SlotRecord) : bool := match r with IMPORT_BEGIN _ | IMPORT_END _ => true | _ => false end.

Lemma foldl_step1_closed b s : Forall (λ r, is_mark r = false) b →
  foldl step1 (MkReplaying s None) b = MkReplaying (foldl apply1 s b) None.
Proof. intros Hb. revert s. induction Hb as [|r b Hr Hb IH]; intros s; [done|]. cbn [foldl]. rewrite -IH. by destruct r. Qed.

Lemma foldl_step1_open b s t staged : Forall (λ r, is_mark r = false) b →
  foldl step1 (MkReplaying s (Some (t, staged))) b = MkReplaying s (Some (t, staged ++ b)).
Proof.
  intros Hb. revert staged. induction Hb as [|r b Hr Hb IH]; intros staged; cbn [foldl]; [by rewrite app_nil_r|].
  transitivity (foldl step1 (MkReplaying s (Some (t, staged ++ [r]))) b); [by destruct r|]. by rewrite IH -app_assoc.
Qed.

Lemma replay_closed rs b : closed rs → Forall (λ r, is_mark r = false) b →
  replay_state (rs ++ b) = MkReplaying (foldl apply1 (snapshot_of rs) b) None.
Proof.
  unfold closed, snapshot_of, replay_state. intros Hc Hb. rewrite foldl_app.
  destruct (foldl step1 _ rs) as [s bt]; cbn in *; subst. by apply foldl_step1_closed.
Qed.

Lemma replay_batch_open rs t b : closed rs → Forall (λ r, is_mark r = false) b →
  replay_state (rs ++ IMPORT_BEGIN t :: b) = MkReplaying (snapshot_of rs) (Some (t, b)).
Proof.
  unfold closed, snapshot_of, replay_state. intros Hc Hb. rewrite foldl_app. cbn [foldl step1].
  by rewrite foldl_step1_open.
Qed.

Lemma replay_batch_closed rs t b : closed rs → Forall (λ r, is_mark r = false) b →
  replay_state (rs ++ IMPORT_BEGIN t :: b ++ [IMPORT_END t]) = MkReplaying (snapshot_of (rs ++ b)) None.
Proof.
  intros Hc Hb. replace (rs ++ IMPORT_BEGIN t :: b ++ [IMPORT_END t]) with ((rs ++ IMPORT_BEGIN t :: b) ++ [IMPORT_END t]) by (by rewrite -app_assoc).
  unfold replay_state at 1. rewrite foldl_app. fold (replay_state (rs ++ IMPORT_BEGIN t :: b)).
  rewrite replay_batch_open; [done..|]. cbn. rewrite bool_decide_true; [done|]. unfold snapshot_of at 2. by rewrite replay_closed.
Qed.

Lemma snapshot_of_wf rs : snapshot_wf (snapshot_of rs).
Proof.
  assert (∀ l s, snapshot_wf s → snapshot_wf (foldl apply1 s l)) as Hf.
  { induction l as [|r l IH]; intros s Hs; cbn [foldl]; [done|]. apply IH.
    destruct r; cbn [apply1]; [destruct (valid put); [by apply snapshot_wf_ApplyPut|done]|by apply snapshot_wf_ApplyDelete|done..]. }
  unfold snapshot_of, replay_state.
  assert (∀ st, snapshot_wf (rep_snapshot st) → snapshot_wf (rep_snapshot (foldl step1 st rs))) as H; [|apply H, snapshot_wf_empty].
  induction rs as [|r rs IH]; intros st Hs; cbn [foldl]; [done|]. apply IH.
  destruct st as [s [[t staged]|]]; destruct r; cbn [step1 rep_batch rep_snapshot] in *; try done.
  - case_bool_decide; [by apply Hf|done].
  - by apply (Hf [PUT put]).
Qed.

End pure.

Lemma foldl_apply1_ext (v1 v2 : SlotPutRecord → bool) rs s :
  (∀ p, PUT p ∈ rs → v1 p = v2 p) → foldl (apply1 v1) s rs = foldl (apply1 v2) s rs.
Proof.
  intros E. revert s. induction rs as [|r rs IH]; intros s; cbn [foldl]; [done|].
  assert (apply1 v1 s r = apply1 v2 s r) as ->; [|apply IH; intros; apply E; by right].
  destruct r; cbn [apply1]; try done. rewrite E; [by left|done].
Qed.

(** The replay depends on the validity of the puts of the log only. *)
Lemma replay_state_ext (v1 v2 : SlotPutRecord → bool) rs :
  (∀ p, PUT p ∈ rs → v1 p = v2 p) → replay_state v1 rs = replay_state v2 rs.
Proof.
  intros E. unfold replay_state.
  assert (∀ st, (∀ t l p, rep_batch st = Some (t, l) → PUT p ∈ l → v1 p = v2 p) →
            foldl (step1 v1) st rs = foldl (step1 v2) st rs) as H; [|by apply H].
  induction rs as [|r rs IH]; intros st Hst; cbn [foldl]; [done|].
  assert (step1 v1 st r = step1 v2 st r) as Hstep.
  { destruct st as [s [[t l]|]]; destruct r; cbn [step1 rep_batch rep_snapshot]; try done.
    - f_equal. case_bool_decide; [|done]. apply foldl_apply1_ext. intros p Hp. by eapply Hst.
    - f_equal. cbn. rewrite E; [by left|done]. }
  rewrite Hstep. apply IH; [intros; apply E; by right|]. intros t l p.
  destruct st as [s [[t0 l0]|]]; destruct r; cbn [step1 rep_batch rep_snapshot]; try done;
    intros [= <- <-]; rewrite ?elem_of_app ?elem_of_nil; try done.
  - intros [Hp|Hp%list_elem_of_singleton]; [by eapply Hst|]. apply E. rewrite Hp. by left.
  - intros [Hp|Hp%list_elem_of_singleton]; [by eapply Hst|]. done.
Qed.

(** The programs of the replay read the disk and compute these functions. *)
Lemma applyRecord_run slotPath s r d : applyRecord slotPath s r d = ([], apply1 (valid_put d slotPath) s r, d).
Proof.
  destruct r as [p|x|t|t]; try done. unfold applyRecord, IsValidPut, bind, FileSize, query, ret, apply1, valid_put.
  cbn [app]. destruct (content d _) as [c|]; [|done].
  destruct (Z.ltb_spec (zsize c) 0); [unfold zsize in *; lia|done].
Qed.

Lemma applyRecords_run slotPath rs d : ∀ s, applyRecords slotPath s rs d = ([], foldl (apply1 (valid_put d slotPath)) s rs, d).
Proof.
  induction rs as [|r rs IH]; intros s; cbn [applyRecords foldl]; [done|].
  unfold bind. by rewrite applyRecord_run IH.
Qed.

Lemma replay_record_run slotPath st r d : replay_record slotPath st r d = ([], step1 (valid_put d slotPath) st r, d).
Proof.
  destruct st as [s [[t staged]|]], r as [p|x|t'|t']; cbn [replay_record step1 rep_batch rep_snapshot]; try done.
  - case_bool_decide; [|done]. unfold bind. by rewrite applyRecords_run.
  - unfold bind. by rewrite applyRecord_run.
Qed.

Lemma replay_records_run slotPath rs d : ∀ st,
  replay_records slotPath st rs d = ([], foldl (step1 (valid_put d slotPath)) st rs, d).
Proof.
  induction rs as [|r rs IH]; intros st; cbn [replay_records foldl]; [done|].
  unfold bind. by rewrite replay_record_run IH.
Qed.

Lemma valid_put_frame P d d' slotPath p : frame P d d' → ¬ P (slotPath, FormatDataFileName (put_fileId p)) →
  valid_put d' slotPath p = valid_put d slotPath p.
Proof. intros F HP. unfold valid_put. by rewrite (fr_content _ _ _ F). Qed.

(** A data file is not an index file. *)
Definition index_name (n : chars) : Prop := n ≠ [] ∧ is_prefix (lit_str "index") n = true.

Lemma data_not_index n fileId : index_name n → n ≠ FormatDataFileName fileId.
Proof. intros [_ H] ->. by vm_compute in H. Qed.

(** [Replay]: the snapshot of the records that can be read, and the index cut to these. *)
Lemma wp_Replay (C : disk → Prop) Q slotPath m d :
  disk_wf d → has_dir d slotPath → index_name (m_activeIndex m) →
  let p := (slotPath, m_activeIndex m) in
  let s := ensured (content d p) in
  (∀ k d', good_header (content d p) = false → frame (eq p) d d' →
     content d' p = content d p ∨ content d' p = Some (take k WriteHeader) → C d') →
  (∀ d', frame (eq p) d d' → same_file d d' p → content d' p = Some (take (Z.to_nat (parse_log s).2) s) →
     C d' ∧ Q (Ok (snapshot_of (valid_put d slotPath) (frame_record <$> (parse_log s).1))) d') →
  wp C (Replay slotPath m) Q d.
Proof.
  intros Hwf Hdir Hidx p s HC HQ. unfold Replay. apply wp_bind_ok.
  apply wp_ReadAllRecords; [done|done|by destruct Hidx|done|]. fold p s. intros d' F S Cn.
  destruct (HQ _ F S Cn) as [H1 H2]. split; [done|]. cbn [fst snd]. apply wp_bind. unfold wp. rewrite replay_records_run.
  split; [by apply Forall_nil|]. apply wp_ret.
  change (Q (Ok (rep_snapshot (replay_state (valid_put d' slotPath) (frame_record <$> (parse_log s).1)))) d').
  rewrite (replay_state_ext _ (valid_put d slotPath)); [|exact H2].
  intros q _. eapply valid_put_frame; [exact F|]. intros E. injection E as E. by eapply data_not_index.
Qed.

(** C25: an import batch is replayed as a whole or not at all.  When the index holds the records [rs], in which
    no batch is open, and then a batch that is cut at any byte, the replay gives the snapshot of [rs]; when
    the batch is complete, the snapshot of [rs] followed by the imported records. *)
Theorem import_batch_atomic (slotPath txnId : chars) (m : SlotManifestData) (rs batch : list SlotRecord) (k : nat) (d : disk) :
  let valid := valid_put d slotPath in
  let text := encode_all (IMPORT_BEGIN txnId :: batch ++ [IMPORT_END txnId]) in
  Forall record_ok (rs ++ IMPORT_BEGIN txnId :: batch ++ [IMPORT_END txnId]) → Forall (λ r, is_mark r = false) batch →
  closed valid rs → disk_wf d → index_name (m_activeIndex m) →
  content d (slotPath, m_activeIndex m) = Some (WriteHeader ++ encode_all rs ++ take k text) →
  outcome (Replay slotPath m d)
  = Ok (if bool_decide (List.length text ≤ k)%nat then snapshot_of valid (rs ++ batch) else snapshot_of valid rs).
Proof.
  cbn zeta. set (valid := valid_put d slotPath). set (full := IMPORT_BEGIN txnId :: batch ++ [IMPORT_END txnId]).
  intros Hok Hb Hcl Hwf Hidx Hc. apply Forall_app in Hok as [Hrs Hfull].
  destruct (log_prefix full Hfull k) as (n & t & E & Ht & Hn & Hm).
  assert (has_dir d slotPath) as Hdir by (apply content_lookup in Hc as (i & Hi & _); by apply lookup_has_dir in Hi).
  assert (wp (λ _, True) (Replay slotPath m) (λ r _, r = Ok (snapshot_of valid (rs ++ take n full))) d) as [_ ->].
  { apply wp_Replay; [done..|]. rewrite Hc E (app_assoc (encode_all rs)) -encode_all_app.
    rewrite ensured_ok parse_log_spec; [apply Forall_app; split; [done|by apply Forall_take]|done|].
    cbn [fst]. rewrite frames_of_records. done. }
  f_equal. case_bool_decide as Hk.
  - assert (take n full = full) as ->.
    { destruct (decide (n < List.length full)%nat) as [Hlt|]; [|apply take_ge; lia]. exfalso. specialize (Hm Hlt).
      assert (List.length (encode_all (take (S n) full)) ≤ List.length (encode_all full))%nat; [|lia].
      rewrite -{2}(take_drop (S n) full) encode_all_app length_app. lia. }
    unfold full. rewrite /snapshot_of replay_batch_closed; done.
  - assert (n < List.length full)%nat as Hlt.
    { destruct (decide (n < List.length full)%nat); [done|]. rewrite take_ge in Hn; [lia|]. lia. }
    destruct n as [|n]; [by rewrite app_nil_r|]. unfold full in Hlt |- *. cbn [take List.length] in *. rewrite length_app in Hlt. cbn in Hlt.
    rewrite take_app_le; [lia|]. rewrite /snapshot_of replay_batch_open; [done|by apply Forall_take|done].
Qed.

(** *** Concrete slots *)
Definition all_valid : SlotPutRecord → bool := λ _, true.
Definition sample_snapshot : SlotSnapshot := snapshot_of all_valid sample_log.

Lemma collect_exact_witness :
  (∀ p, p ∈ CollectVisiblePuts sample_snapshot ↔ live sample_snapshot p) ∧ NoDup (CollectVisiblePuts sample_snapshot)
  ∧ StronglySorted put_before (CollectVisiblePuts sample_snapshot).
Proof. apply collect_exact. apply snapshot_of_wf. Defined.

Example collect_sample : put_key <$> CollectVisiblePuts sample_snapshot = [lit_str "k1"; lit_str "k2"].
Proof. by vm_compute. Qed.

Definition sample_batch : list SlotRecord := [DELETE (MkDelete (lit_str "k1") 8); DELETE (MkDelete (lit_str "k3") 1)].
Definition sample_text (k : nat) : chars :=
  WriteHeader ++ encode_all sample_log
  ++ take k (encode_all (IMPORT_BEGIN (lit_str "3_17") :: sample_batch ++ [IMPORT_END (lit_str "3_17")])).

Lemma import_batch_atomic_witness :
  let d := one_file sample_path (sample_text 40) in
  outcome (Replay sample_path.1 Bootstrap d) = Ok (snapshot_of (valid_put d sample_path.1) sample_log).
Proof.
  cbn zeta. set (d := one_file sample_path (sample_text 40)).
  assert (Forall record_ok (sample_log ++ IMPORT_BEGIN (lit_str "3_17") :: sample_batch ++ [IMPORT_END (lit_str "3_17")])) as Hok.
  { apply Forall_app. split; [apply sample_log_ok|].
    repeat constructor; cbn; unfold key_ok; cbn; rewrite /zsize; cbn; split_and?; (lia || done). }
  pose proof (import_batch_atomic sample_path.1 (lit_str "3_17") Bootstrap sample_log sample_batch 40 d Hok) as H.
  rewrite H; [by repeat constructor|by vm_compute|apply one_file_wf|by split|apply one_file_content|].
  by rewrite bool_decide_false; [vm_compute; lia|].
Defined.

End SlotSnapshot.
