(* ===== verification/SlotPlan.v ===== *)
(** * SlotPlan: the plan of a slot transfer

    Model of [src/datasystem/common/l2cache/slot_client/slot_takeover_planner.{h,cpp}] and of the file map of
    [slot.cpp]: which data files of the source slot become which files of the target, the text form of the
    plan, and the import log that goes with it. *)
From S2P Require Import Prelude NetUtil KeyHelper SlotFile SlotIndex SlotManifest SlotSnapshot.
From Stdlib Require Import Ascii String.
Import NetUtil KeyHelper SlotFile FileUtil SlotNames DiskSpec SlotIndex SlotText SlotManifest SlotSnapshot.

Module SlotPlan.
Local Open Scope Z_scope.

Record SlotTakeoverDataFileMapping := MkMapping {
  map_sourceFileId : Z;
  map_sourceDataFile : chars;
  map_targetFileId : Z;
  map_targetDataFile : chars
}.

Record SlotTakeoverPlan := MkPlan {
  plan_version : Z;
  plan_txnId : chars;
  plan_sourceHomeSlotPath : chars;
  plan_sourceRecoverySlotPath : chars;
  plan_targetSlotPath : chars;
  plan_sourceIndex : chars;
  plan_importIndexFile : chars;
  plan_loadToMemory : bool;
  plan_dataMappings : list SlotTakeoverDataFileMapping
}.

Definition empty_plan : SlotTakeoverPlan := MkPlan 1 [] [] [] [] [] [] false [].

(** ** Text *)
Definition mapping_text (x : SlotTakeoverDataFileMapping) : chars :=
  JoinVector ":" [u64_to_string (map_sourceFileId x); map_sourceDataFile x; u64_to_string (map_targetFileId x); map_targetDataFile x].
Definition JoinMappings (mappings : list SlotTakeoverDataFileMapping) : chars := JoinVector "," (mapping_text <$> mappings).

Definition ParseMapping (item : chars) : res SlotTakeoverDataFileMapping :=
  match Split item ":" with
  | [a; b; c; e] =>
    let! source := parse_number a in
    let! target := parse_number c in
    Ok (MkMapping (u32 source) b (u32 target) e)
  | _ => Fail K_INVALID
  end.

Fixpoint parse_each {A} (parse : chars → res A) (items : list chars) : res (list A) :=
  match items with
  | [] => Ok []
  | i :: items' => let! x := parse i in let! xs := parse_each parse items' in Ok (x :: xs)
  end.

Definition ParseMappings (value : chars) : res (list SlotTakeoverDataFileMapping) :=
  match value with [] => Ok [] | _ => parse_each ParseMapping (Split value ",") end.

Definition plan_fields (p : SlotTakeoverPlan) : list (chars * chars) :=
  [ (lit_str "version", u64_to_string (plan_version p));
    (lit_str "txn_id", plan_txnId p);
    (lit_str "source_home_slot", plan_sourceHomeSlotPath p);
    (lit_str "source_recovery_slot", plan_sourceRecoverySlotPath p);
    (lit_str "target_slot", plan_targetSlotPath p);
    (lit_str "source_index", plan_sourceIndex p);
    (lit_str "import_index", plan_importIndexFile p);
    (lit_str "load_to_memory", bool_name (plan_loadToMemory p));
    (lit_str "data_mappings", JoinMappings (plan_dataMappings p)) ].

Definition Encode (p : SlotTakeoverPlan) : chars := text_of (plan_fields p).

Definition SetPlanField (p : SlotTakeoverPlan) (key value : chars) : res SlotTakeoverPlan :=
  let '(MkPlan ver txn home rec tgt idx imp load maps) := p in
  if bool_decide (key = lit_str "version") then let! n := parse_number value in Ok (MkPlan (u32 n) txn home rec tgt idx imp load maps)
  else if bool_decide (key = lit_str "txn_id") then Ok (MkPlan ver value home rec tgt idx imp load maps)
  else if bool_decide (key = lit_str "source_home_slot") then Ok (MkPlan ver txn value rec tgt idx imp load maps)
  else if bool_decide (key = lit_str "source_recovery_slot") then Ok (MkPlan ver txn home value tgt idx imp load maps)
  else if bool_decide (key = lit_str "target_slot") then Ok (MkPlan ver txn home rec value idx imp load maps)
  else if bool_decide (key = lit_str "source_index") then Ok (MkPlan ver txn home rec tgt value imp load maps)
  else if bool_decide (key = lit_str "import_index") then Ok (MkPlan ver txn home rec tgt idx value load maps)
  else if bool_decide (key = lit_str "load_to_memory")
       then Ok (MkPlan ver txn home rec tgt idx imp (bool_decide (value = lit_str "true")) maps)
  else if bool_decide (key = lit_str "data_mappings")
       then let! ms := ParseMappings value in Ok (MkPlan ver txn home rec tgt idx imp load ms)
  else Ok p.

Definition Decode (content : chars) : res SlotTakeoverPlan :=
  let! p := DecodeLines SetPlanField empty_plan (getlines content) in
  check! nonempty (plan_txnId p) else K_INVALID in
  check! nonempty (plan_sourceHomeSlotPath p) else K_INVALID in
  check! nonempty (plan_sourceRecoverySlotPath p) else K_INVALID in
  check! nonempty (plan_targetSlotPath p) else K_INVALID in
  check! nonempty (plan_importIndexFile p) else K_INVALID in
  Ok p.

(** [EncodeTransferFileMap] and [DecodeTransferFileMap] of [slot.cpp]. *)
Definition pair_text (x : SlotTakeoverDataFileMapping) : chars :=
  JoinVector ":" [u64_to_string (map_sourceFileId x); u64_to_string (map_targetFileId x)].
Definition EncodeTransferFileMap (p : SlotTakeoverPlan) : chars := JoinVector "," (pair_text <$> plan_dataMappings p).

Definition ParsePair (item : chars) : res (Z * Z) :=
  match Split item ":" with
  | [a; b] => let! source := parse_number a in let! target := parse_number b in Ok (u32 source, u32 target)
  | _ => Fail K_INVALID
  end.

Definition DecodeTransferFileMap (encoded : chars) : res (gmap Z Z) :=
  match encoded with
  | [] => Ok ∅
  | _ => let! ps := parse_each ParsePair (Split encoded ",") in
         Ok (foldl (λ m x, <[x.1 := x.2]> m) ∅ ps)
  end.

(** ** Building a plan *)
Definition max_id (ids : Z) (filename : chars) : Z :=
  match ParseDataFileId filename with Ok id => Z.max ids id | Fail _ => ids end.

Definition GetNextTargetFileId (targetSlotPath : chars) (m : SlotManifestData) : io (res Z) :=
  do! names := Glob targetSlotPath (lit_str "data_") (lit_str ".bin") in
  let fileId := foldl max_id 0 (m_activeData m ++ m_pendingData m ++ m_obsoleteData m ++ names) in
  ret (Ok (if fileId =? 0 then 1 else u32 (fileId + 1))).

(** The loop over the active data files of the source: the mappings, with the numbers given from [next] on. *)
Fixpoint MapDataFiles (visible : gset Z) (files : list chars) (next : Z) : res (list SlotTakeoverDataFileMapping) :=
  match files with
  | [] => Ok []
  | f :: files' =>
    let! sourceFileId := ParseDataFileId f in
    if bool_decide (sourceFileId ∈ visible)
    then let! ms := MapDataFiles visible files' (u32 (next + 1)) in
         Ok (MkMapping sourceFileId f next (FormatDataFileName next) :: ms)
    else MapDataFiles visible files' next
  end.

Definition fileIdMapping (ms : list SlotTakeoverDataFileMapping) : gmap Z Z :=
  foldl (λ m x, <[map_sourceFileId x := map_targetFileId x]> m) ∅ ms.

Definition set_fileId (fileId : Z) (p : SlotPutRecord) : SlotPutRecord :=
  MkPut (put_key p) fileId (put_offset p) (put_size p) (put_version p) (put_writeMode p) (put_ttlSecond p).

(** The records of the import log; [c] is the error when a file has no number. *)
Fixpoint ImportPayload (c : StatusCode) (mapping : gmap Z Z) (puts : list SlotPutRecord) : res chars :=
  match puts with
  | [] => Ok []
  | p :: puts' =>
    match mapping !! put_fileId p with
    | None => Fail c
    | Some target =>
      let! encoded := EncodePut (set_fileId target p) in
      let! rest := ImportPayload c mapping puts' in Ok (encoded ++ rest)
    end
  end.

(** An import log of exactly the given records. *)
Definition WriteImportLog (importIndexPath : path) (payload : res chars) : io (res unit) :=
  do! _ := EnsureIndexFile importIndexPath in
  do! _ := TruncateTail importIndexPath HEADER_SIZE in
  do! importPayload := ret payload in
  AppendEncodedRecords importIndexPath importPayload.

Definition BuildPlan (sourceHomeSlotPath sourceRecoverySlotPath : chars) (sourceManifest : SlotManifestData)
    (sourceSnapshot : SlotSnapshot) (targetSlotPath : chars) (targetManifest : SlotManifestData) (preload : bool)
    (txnId : chars) : io (res SlotTakeoverPlan) :=
  assert! nonempty txnId else K_INVALID in
  let importIndexFile := FormatImportIndexFileName txnId in
  do! nextTargetFileId := GetNextTargetFileId targetSlotPath targetManifest in
  let visiblePuts := CollectVisiblePuts sourceSnapshot in
  let visible := list_to_set (put_fileId <$> visiblePuts) in
  do! ms := ret (MapDataFiles visible (m_activeData sourceManifest) nextTargetFileId) in
  do! _ := WriteImportLog (targetSlotPath, importIndexFile) (ImportPayload K_RUNTIME_ERROR (fileIdMapping ms) visiblePuts) in
  ret (Ok (MkPlan 1 txnId sourceHomeSlotPath sourceRecoverySlotPath targetSlotPath (m_activeIndex sourceManifest)
             importIndexFile preload ms)).

Definition DumpPlan (targetSlotPath : chars) (p : SlotTakeoverPlan) : io (res unit) :=
  do! _ := CreateDir targetSlotPath in
  AtomicWriteTextFile (targetSlotPath, FormatTakeoverPlanFileName (plan_txnId p)) (Encode p).

Definition LoadPlan (planPath : path) : io (res SlotTakeoverPlan) :=
  do! text := ReadWholeFile planPath in ret (Decode text).

End SlotPlan.
