(* ===== verification/Slot.v ===== *)
(** * Slot: one slot of the store

    Model of [src/datasystem/common/l2cache/slot_client/slot.{h,cpp}] and [slot_writer.{h,cpp}]: the writer with its open
    descriptors, the runtime state that a slot caches, and the operations: opening and repairing a slot,
    saving, reading and deleting objects, the recovery of interrupted compactions and transfers, and the
    takeover of another slot.  [SlotCompact.v] has the compactor.

    A slot is the memory of the object [Slot]; its methods are programs on the disk that return the new
    memory with their result.  The monotonic clock is a field of the slot and does not move within an
    operation; the wall clock, from which transaction numbers are made, is an argument.  [mu_] is held for
    the whole of each operation of this file, except where [Takeover] and the readers release it; the
    operations are therefore single steps.  A payload stream is its bytes. *)
From S2P Require Import Prelude NetUtil KeyHelper SlotFile SlotIndex SlotManifest SlotSnapshot SlotPlan.
From Stdlib Require Import Ascii String.
Import NetUtil KeyHelper SlotFile FileUtil SlotNames DiskSpec SlotIndex SlotText SlotManifest SlotSnapshot SlotPlan.

(** ** slot_writer.cpp *)
Module SlotWriter.
Local Open Scope Z_scope.

Record SlotWriter := MkWriter {
  activeDataFd_ : option nat;
  activeIndexFd_ : option nat;
  activeDataFileId_ : Z;
  activeDataSize_ : Z;
  activeIndexSize_ : Z;
  bufferedBytes_ : Z;
  pendingOps_ : Z;
  lastFlushMs_ : Z
}.

(** The writer after [Close]. *)
Definition Close : SlotWriter := MkWriter None None 0 0 0 0 0 0.

Definition open_index (indexPath : path) : io (res (nat * Z)) :=
  do! _ := EnsureIndexFile indexPath in
  do! fd := OpenFile indexPath in
  io! size := FdFileSize fd in
  ret (Ok (fd, size)).

Definition open_data (dataPath : path) : io (res (nat * Z)) :=
  do! _ := EnsureFile dataPath in
  do! fd := OpenFile dataPath in
  io! size := FdFileSize fd in
  ret (Ok (fd, size)).

Definition Init_data (slotPath : chars) (m : SlotManifestData) (w : SlotWriter) : io (SlotWriter * res unit) :=
  match last (m_activeData m) with
  | None => ret (w, Ok tt)
  | Some dataFile =>
    match ParseDataFileId dataFile with
    | Fail c => ret (w, Fail c)
    | Ok id =>
      let w := MkWriter None (activeIndexFd_ w) id 0 (activeIndexSize_ w) 0 0 (lastFlushMs_ w) in
      io! r := open_data (slotPath, dataFile) in
      ret match r with
          | Fail c => (w, Fail c)
          | Ok (fd, size) => (MkWriter (Some fd) (activeIndexFd_ w) id size (activeIndexSize_ w) 0 0 (lastFlushMs_ w), Ok tt)
          end
    end
  end.

Definition Init (now : Z) (slotPath : chars) (m : SlotManifestData) : io (SlotWriter * res unit) :=
  let w := MkWriter None None 0 0 0 0 0 now in
  if nonempty (m_activeIndex m) then
    io! r := open_index (slotPath, m_activeIndex m) in
    match r with
    | Fail c => ret (w, Fail c)
    | Ok (fd, size) => Init_data slotPath m (MkWriter None (Some fd) 0 0 size 0 0 now)
    end
  else Init_data slotPath m w.

(** [AppendData]: the new writer and the offset of the data. *)
Definition AppendData (buffer : chars) (w : SlotWriter) : io (res (SlotWriter * Z)) :=
  match activeDataFd_ w with
  | None => ret (Fail K_RUNTIME_ERROR)
  | Some fd =>
    let offset := activeDataSize_ w in
    do! _ := WriteFile fd buffer (i64 offset) in
    ret (Ok (MkWriter (activeDataFd_ w) (activeIndexFd_ w) (activeDataFileId_ w) (u64 (offset + zsize buffer))
               (activeIndexSize_ w) (bufferedBytes_ w) (pendingOps_ w) (lastFlushMs_ w), offset))
  end.

Definition AppendIndexPayload (payload : chars) (w : SlotWriter) : io (res SlotWriter) :=
  match activeIndexFd_ w with
  | None => ret (Fail K_RUNTIME_ERROR)
  | Some fd =>
    do! size := AppendEncodedRecords_fd fd (activeIndexSize_ w) payload in
    ret (Ok (MkWriter (activeDataFd_ w) (activeIndexFd_ w) (activeDataFileId_ w) (activeDataSize_ w) size
               (bufferedBytes_ w) (pendingOps_ w) (lastFlushMs_ w)))
  end.

Definition RecordOperation (bufferedBytes : Z) (w : SlotWriter) : SlotWriter :=
  MkWriter (activeDataFd_ w) (activeIndexFd_ w) (activeDataFileId_ w) (activeDataSize_ w) (activeIndexSize_ w)
    (u64 (bufferedBytes_ w + bufferedBytes)) (u64 (pendingOps_ w + 1)) (lastFlushMs_ w).

Definition HasPendingWrites (w : SlotWriter) : bool := 0 <? pendingOps_ w.
Definition IsInitialized (w : SlotWriter) : bool :=
  bool_decide (is_Some (activeIndexFd_ w)) || bool_decide (is_Some (activeDataFd_ w)).

Definition Flush (now : Z) (w : SlotWriter) : SlotWriter :=
  if HasPendingWrites w
  then MkWriter (activeDataFd_ w) (activeIndexFd_ w) (activeDataFileId_ w) (activeDataSize_ w) (activeIndexSize_ w) 0 0 now
  else w.

Definition ShouldFlush (now syncIntervalMs batchBytes : Z) (w : SlotWriter) : bool :=
  if negb (HasPendingWrites w) then false
  else if (batchBytes =? 0) || (batchBytes <=? bufferedBytes_ w) then true
  else if syncIntervalMs =? 0 then true
  else syncIntervalMs <=? u64 (now - lastFlushMs_ w).

End SlotWriter.

Module Slot.
Import SlotWriter.
Local Open Scope Z_scope.

(** [SlotRuntimeState]: a manifest is identified by its inode. *)
Record SlotRuntimeState := MkRuntime {
  rt_manifest : SlotManifestData;
  rt_snapshot : SlotSnapshot;
  rt_manifestInode : nat;
  rt_initialized : bool
}.
Definition runtime_reset : SlotRuntimeState := MkRuntime Bootstrap empty_snapshot 0 false.

Record Slot := MkSlot {
  slotId_ : Z;
  slotPath_ : chars;
  maxDataFileBytes_ : Z;
  sync_interval_ms : Z;
  sync_batch_bytes : Z;
  now_ms : Z;
  runtime_ : SlotRuntimeState;
  writer_ : SlotWriter;
  transferIntentActive_ : bool
}.

Definition Slot_new (slotId : Z) (slotPath : chars) (maxDataFileBytes interval batch now : Z) : Slot :=
  MkSlot slotId slotPath maxDataFileBytes interval batch now runtime_reset Close false.

Definition set_runtime (r : SlotRuntimeState) (s : Slot) : Slot :=
  MkSlot (slotId_ s) (slotPath_ s) (maxDataFileBytes_ s) (sync_interval_ms s) (sync_batch_bytes s) (now_ms s) r (writer_ s)
    (transferIntentActive_ s).
Definition set_writer (w : SlotWriter) (s : Slot) : Slot :=
  MkSlot (slotId_ s) (slotPath_ s) (maxDataFileBytes_ s) (sync_interval_ms s) (sync_batch_bytes s) (now_ms s) (runtime_ s) w
    (transferIntentActive_ s).
Definition set_intent (b : bool) (s : Slot) : Slot :=
  MkSlot (slotId_ s) (slotPath_ s) (maxDataFileBytes_ s) (sync_interval_ms s) (sync_batch_bytes s) (now_ms s) (runtime_ s)
    (writer_ s) b.
Definition set_rt_manifest (m : SlotManifestData) (s : Slot) : Slot :=
  set_runtime (MkRuntime m (rt_snapshot (runtime_ s)) (rt_manifestInode (runtime_ s)) (rt_initialized (runtime_ s))) s.
Definition set_rt_snapshot (x : SlotSnapshot) (s : Slot) : Slot :=
  set_runtime (MkRuntime (rt_manifest (runtime_ s)) x (rt_manifestInode (runtime_ s)) (rt_initialized (runtime_ s))) s.
Definition set_rt_inode (i : nat) (s : Slot) : Slot :=
  set_runtime (MkRuntime (rt_manifest (runtime_ s)) (rt_snapshot (runtime_ s)) i (rt_initialized (runtime_ s))) s.

(** Programs that pass a memory on, also when they fail; the methods of a slot pass the slot on. *)
Definition prog (S A : Type) : Type := S → io (S * res A).
Definition method (A : Type) : Type := prog Slot A.
Definition done {S A} (a : A) : prog S A := λ s, ret (s, Ok a).
Definition fail {S A} (c : StatusCode) : prog S A := λ s, ret (s, Fail c).
Definition lift {S A} (p : io (res A)) : prog S A := λ s, bind p (λ r, ret (s, r)).
Definition read {S A} (f : S → A) : prog S A := λ s, ret (s, Ok (f s)).
Definition modify {S} (f : S → S) : prog S unit := λ s, ret (f s, Ok tt).
Definition then_ {S A B} (p : prog S A) (k : A → prog S B) : prog S B := λ s,
  bind (p s) (λ '(s', r), match r with Ok a => k a s' | Fail c => ret (s', Fail c) end).
(** A call whose status is looked at. *)
Definition try_ {S A B} (p : prog S A) (k : res A → prog S B) : prog S B := λ s,
  bind (p s) (λ '(s', r), k r s').

End Slot.

Notation "'let*' x := p 'in' k" := (Slot.then_ p (λ x, k))
  (at level 10, x pattern, p at level 100, k at level 200) : ds_scope.
Notation "'require*' b 'else' c 'in' k" := (if b%bool then k else Slot.fail c)
  (at level 10, b at level 100, c at level 100, k at level 200) : ds_scope.

(** ** slot.cpp: files of a slot *)
Module SlotFiles.
Import SlotWriter Slot.
Local Open Scope Z_scope.

Definition SLOT_IO_CHUNK_BYTES : Z := 4 * 1024 * 1024.

Definition GetFileIdentity (p : path) : io (res nat) := query (λ d,
  match lookup_ino d p with Some i => Ok i | None => Fail K_RUNTIME_ERROR end).

Definition IsCompactIndexFile (filename : chars) : bool :=
  is_prefix (lit_str "index_compact_") filename && (18 <? zsize filename) && is_suffix (lit_str ".log") filename.
Definition IsImportIndexFile (filename : chars) : bool :=
  is_prefix (lit_str "index_import_") filename && (17 <? zsize filename) && is_suffix (lit_str ".log") filename.

Definition ShouldUseAsBootstrapIndex (candidateName : chars) (candidateValidBytes : Z) (bestName : chars) (bestValidBytes : Z) : bool :=
  if bool_decide (bestName = []) then true
  else if negb (candidateValidBytes =? bestValidBytes) then bestValidBytes <? candidateValidBytes
  else if negb (Bool.eqb (IsCompactIndexFile candidateName) (IsCompactIndexFile bestName)) then IsCompactIndexFile candidateName
  else negb (bool_decide (chars_le candidateName bestName)).

Definition IsTransferManifest (m : SlotManifestData) : bool :=
  bool_decide (m_state m = IN_OPERATION) && bool_decide (m_opType m = TRANSFER).

(** The tuple of a slot that is in no operation. *)
Definition to_normal (m : SlotManifestData) : SlotManifestData :=
  set_txnId [] (set_role ROLE_NONE (set_opPhase PHASE_NONE (set_opType OP_NONE (set_state NORMAL m)))).

(** [DeleteFileIfExists]: whether something was deleted. *)
Definition DeleteFileIfExists (slotPath relativePath : chars) : io (res bool) :=
  if bool_decide (relativePath = []) then ret (Ok false)
  else io! found := act (sys_unlink (slotPath, relativePath)) in ret (Ok found).

Fixpoint DeleteFiles (slotPath : chars) (names : list chars) : io (res bool) :=
  match names with
  | [] => ret (Ok false)
  | n :: names' =>
    do! a := DeleteFileIfExists slotPath n in
    do! b := DeleteFiles slotPath names' in ret (Ok (a || b))
  end.

Definition CleanupArtifactFiles (slotPath : chars) (relativePaths : list chars) : io (res unit) :=
  do! _ := DeleteFiles slotPath relativePaths in ret (Ok tt).

Fixpoint ensure_files (slotPath : chars) (names : list chars) : io (res unit) :=
  match names with
  | [] => ret (Ok tt)
  | n :: names' => do! _ := EnsureFile (slotPath, n) in ensure_files slotPath names'
  end.

Definition EnsureActiveFiles (slotPath : chars) (m : SlotManifestData) : io (res unit) :=
  do! _ := (if nonempty (m_activeIndex m) then EnsureIndexFile (slotPath, m_activeIndex m) else ret (Ok tt)) in
  ensure_files slotPath (m_activeData m).

Fixpoint all_exist (slotPath : chars) (names : list chars) : io bool :=
  match names with
  | [] => ret true
  | n :: names' => io! e := FileExist (slotPath, n) in if e : bool then all_exist slotPath names' else ret false
  end.

Definition PendingArtifactsReady (slotPath : chars) (m : SlotManifestData) : io bool :=
  if bool_decide (m_pendingIndex m = []) || bool_decide (m_pendingData m = []) then ret false
  else
    io! size := FileSize (slotPath, m_pendingIndex m) in
    if size <? HEADER_SIZE then ret false else all_exist slotPath (m_pendingData m).

(** *** BuildBootstrapManifestFromDisk *)
Fixpoint best_index (slotPath : chars) (names : list chars) (bestIndexName : chars) (bestValidBytes : Z) : io chars :=
  match names with
  | [] => ret bestIndexName
  | filename :: names' =>
    if IsImportIndexFile filename then best_index slotPath names' bestIndexName bestValidBytes
    else
      io! r := ReadAllRecords (slotPath, filename) in
      match r with
      | Fail _ => best_index slotPath names' bestIndexName bestValidBytes
      | Ok (_, validBytes) =>
        if ShouldUseAsBootstrapIndex filename validBytes bestIndexName bestValidBytes
        then best_index slotPath names' filename validBytes
        else best_index slotPath names' bestIndexName bestValidBytes
      end
  end.

Definition id_le (x y : Z * chars) : Prop := x.1 ≤ y.1.
#[export] Instance id_le_dec x y : Decision (id_le x y).
Proof. unfold id_le. apply _. Defined.

Definition parsed_files (names : list chars) : list (Z * chars) :=
  omap (λ n, match ParseDataFileId n with Ok id => Some (id, n) | Fail _ => None end) names.

Definition BuildBootstrapManifestFromDisk (slotPath : chars) : io (res SlotManifestData) :=
  do! indexNames := Glob slotPath (lit_str "index") (lit_str ".log") in
  io! bestIndexName := best_index slotPath indexNames [] 0 in
  let m := if nonempty bestIndexName then set_activeIndex bestIndexName Bootstrap else Bootstrap in
  do! dataNames := Glob slotPath (lit_str "data_") (lit_str ".bin") in
  let parsed := merge_sort id_le (parsed_files dataNames) in
  ret (Ok (match parsed with [] => m | _ => set_activeData parsed.*2 m end)).

(** *** Manifests of the slot *)
Definition PersistManifest (m : SlotManifestData) : method unit := λ s,
  let persisted := if nonempty (m_homeSlotPath m) then m else set_homeSlotPath (slotPath_ s) m in
  (let* _ := lift (StoreAtomic (slotPath_ s) persisted) in
   let* _ := lift (EnsureActiveFiles (slotPath_ s) persisted) in
   if rt_initialized (runtime_ s) then
     let* _ := modify (set_rt_manifest persisted) in
     let* i := lift (GetFileIdentity (slotPath_ s, MANIFEST_FILE)) in
     modify (set_rt_inode i)
   else done tt) s.

Definition LoadManifest : method SlotManifestData := λ s, lift (Load (slotPath_ s)) s.

Definition BootstrapManifestIfNeed : method unit := λ s,
  (let* _ := lift (CreateDir (slotPath_ s)) in
   try_ (lift (Load (slotPath_ s))) (λ rc,
     match rc with
     | Fail K_NOT_FOUND =>
       let* m := lift (BuildBootstrapManifestFromDisk (slotPath_ s)) in
       let* _ := PersistManifest m in
       lift (EnsureActiveFiles (slotPath_ s) m)
     | Fail c => fail c
     | Ok m => lift (EnsureActiveFiles (slotPath_ s) m)
     end)) s.

Definition ContinueGc (m : SlotManifestData) : method SlotManifestData := λ s,
  (let* a := lift (DeleteFiles (slotPath_ s) (m_obsoleteData m)) in
   let* b := lift (DeleteFileIfExists (slotPath_ s) (m_obsoleteIndex m)) in
   if (a || b) || m_gcPending m then
     let m := set_obsoleteData [] (set_obsoleteIndex [] (set_gcPending false m)) in
     let* _ := PersistManifest m in done m
   else done m) s.

Definition RecoverCompactCommitting (m : SlotManifestData) : method SlotManifestData := λ s,
  (let* ready := lift (io! r := PendingArtifactsReady (slotPath_ s) m in ret (Ok r)) in
   let* m := (if ready : bool then
                done (set_gcPending true (set_activeData (m_pendingData m) (set_activeIndex (m_pendingIndex m)
                       (set_obsoleteData (m_activeData m) (set_obsoleteIndex (m_activeIndex m) m)))))
              else
                let* _ := lift (CleanupArtifactFiles (slotPath_ s)
                  (m_pendingData m ++ (if nonempty (m_pendingIndex m) then [m_pendingIndex m] else []))) in done m) in
   let m := set_pendingData [] (set_pendingIndex [] (to_normal m)) in
   let* _ := PersistManifest m in done m) s.

(** *** Payloads *)
Fixpoint split_z (n : Z) (s : chars) : chars * chars :=
  match s with
  | [] => ([], [])
  | c :: s' => if n <=? 0 then ([], s) else let '(a, b) := split_z (n - 1) s' in (c :: a, b)
  end.

(** The chunks in which a stream of bytes is read. *)
Fixpoint chunks (fuel : nat) (s : chars) : list chars :=
  match fuel, s with
  | O, _ | _, [] => []
  | S fuel', _ => let '(a, b) := split_z SLOT_IO_CHUNK_BYTES s in a :: chunks fuel' b
  end.
Definition stream_chunks (body : chars) : list chars := chunks (List.length body) body.

(** [WriteStreamToFd]: the bytes written. *)
Fixpoint WriteChunks (fd : nat) (cs : list chars) (offset : Z) : io (res Z) :=
  match cs with
  | [] => ret (Ok offset)
  | c :: cs' => do! _ := WriteFile fd c (i64 offset) in WriteChunks fd cs' (u64 (offset + zsize c))
  end.
Definition WriteStreamToFd (body : chars) (fd : nat) (startOffset : Z) : io (res Z) :=
  do! e := WriteChunks fd (stream_chunks body) startOffset in ret (Ok (u64 (e - startOffset))).

(** [AppendPayloadToActiveFileLocked]: the writer, the offset of the first chunk and the bytes written. *)
Fixpoint AppendChunks (cs : list chars) (w : SlotWriter) (first : option Z) (written : Z) : io (SlotWriter * res (Z * Z)) :=
  match cs with
  | [] => ret (w, Ok (default 0 first, written))
  | c :: cs' =>
    io! r := AppendData c w in
    match r with
    | Fail e => ret (w, Fail e)
    | Ok (w', chunkOffset) =>
      AppendChunks cs' w' (match first with None => Some chunkOffset | _ => first end) (u64 (written + zsize c))
    end
  end.

Definition AppendPayloadToActiveFileLocked (body : chars) (payloadSize : Z) : method Z := λ s,
  io! x := AppendChunks (stream_chunks body) (writer_ s) None 0 in
  let '(w, r) := x in
  ret (set_writer w s,
       match r with
       | Ok (offset, written) => if written =? payloadSize then Ok offset else Fail K_RUNTIME_ERROR
       | Fail c => Fail c
       end).

Definition WriteExclusivePayloadLocked (body : chars) (fileId payloadSize : Z) : method unit := λ s,
  lift (let dataPath := (slotPath_ s, FormatDataFileName fileId) in
        do! _ := EnsureFile dataPath in
        do! fd := OpenFile dataPath in
        do! writtenBytes := WriteStreamToFd body fd 0 in
        assert! writtenBytes =? payloadSize else K_RUNTIME_ERROR in
        ret (Ok tt)) s.

(** [ReadRecordData].  Every chunk is inside the file, so the loop runs at most once per byte of it. *)
Fixpoint ReadChunks (fuel : nat) (fd : nat) (bufferSize remaining offset : Z) : io (res chars) :=
  if remaining <=? 0 then ret (Ok [])
  else match fuel with
       | O => ret (Fail K_IO_ERROR)
       | S fuel' =>
         let bytesToRead := Z.min remaining bufferSize in
         do! got := ReadFile fd bytesToRead (i64 offset) in
         do! more := ReadChunks fuel' fd bufferSize (remaining - bytesToRead) (u64 (offset + bytesToRead)) in
         ret (Ok (got ++ more))
       end.

Definition ReadRecordData (slotPath : chars) (value : SlotSnapshotValue) : io (res chars) :=
  do! fd := OpenFile (slotPath, FormatDataFileName (val_fileId value)) in
  io! size := FdFileSize fd in
  ReadChunks (S (Z.to_nat size)) fd (Z.min (val_size value) SLOT_IO_CHUNK_BYTES) (val_size value) (val_offset value).

(** *** The memory of the slot *)
Definition FlushRuntimeLocked (force : bool) : method unit := λ s,
  if negb (IsInitialized (writer_ s)) then ret (s, Ok tt)
  else if negb force && negb (ShouldFlush (now_ms s) (sync_interval_ms s) (sync_batch_bytes s) (writer_ s)) then ret (s, Ok tt)
  else ret (set_writer (Flush (now_ms s) (writer_ s)) s, Ok tt).

Definition ResetRuntimeLocked : method unit := modify (λ s, set_writer Close (set_runtime runtime_reset s)).

Definition init_writer (m : SlotManifestData) : method unit := λ s,
  io! x := Init (now_ms s) (slotPath_ s) m in ret (set_writer x.1 s, x.2).

Definition IsRuntimeStaleLocked (s : Slot) : io bool :=
  if negb (rt_initialized (runtime_ s)) then ret true
  else io! r := GetFileIdentity (slotPath_ s, MANIFEST_FILE) in
       ret (match r with Fail _ => true | Ok i => negb (bool_decide (i = rt_manifestInode (runtime_ s))) end).

Definition EnsureWritable (m : SlotManifestData) : method unit := require* IsNormalManifest m else K_TRY_AGAIN in done tt.

Definition manifest_of : method SlotManifestData := read (λ s, rt_manifest (runtime_ s)).

Fixpoint max_active_id (files : list chars) (maxFileId : Z) : res Z :=
  match files with
  | [] => Ok maxFileId
  | f :: files' => let! candidate := ParseDataFileId f in max_active_id files' (Z.max maxFileId candidate)
  end.

Definition AllocateNextDataFileIdLocked : method Z := λ s,
  (require* rt_initialized (runtime_ s) else K_RUNTIME_ERROR in
   let* maxFileId := lift (ret (max_active_id (m_activeData (rt_manifest (runtime_ s))) 0)) in
   done (u32 (maxFileId + 1))) s.

Definition RotateWritableDataFileLocked (payloadSize : Z) : method Z := λ s,
  (require* rt_initialized (runtime_ s) else K_RUNTIME_ERROR in
   let* _ := (if bool_decide (m_activeData (rt_manifest (runtime_ s)) = []) then
                let* _ := modify (λ s, set_rt_manifest (set_activeData [FormatDataFileName 1] (rt_manifest (runtime_ s))) s) in
                let* m := manifest_of in
                let* _ := PersistManifest m in
                let* m := manifest_of in
                init_writer m
              else done tt) in
   let* w := read writer_ in
   if u64 (activeDataSize_ w + payloadSize) <=? maxDataFileBytes_ s then done (activeDataFileId_ w)
   else
     let* _ := FlushRuntimeLocked true in
     let* fileId := AllocateNextDataFileIdLocked in
     let* _ := modify (λ s, set_rt_manifest
        (set_activeData (m_activeData (rt_manifest (runtime_ s)) ++ [FormatDataFileName fileId]) (rt_manifest (runtime_ s))) s) in
     let* m := manifest_of in
     let* _ := PersistManifest m in
     let* m := manifest_of in
     let* _ := init_writer m in
     done fileId) s.

(** [insert(end() - 1, x)]. *)
Definition insert_before_last (x : chars) (l : list chars) : list chars :=
  match last l with None => [x] | Some y => removelast l ++ [x; y] end.

Definition AllocateExclusiveDataFileLocked : method Z := λ s,
  (require* rt_initialized (runtime_ s) else K_RUNTIME_ERROR in
   require* negb (bool_decide (m_activeData (rt_manifest (runtime_ s)) = [])) else K_RUNTIME_ERROR in
   let* fileId := AllocateNextDataFileIdLocked in
   let* _ := modify (λ s, set_rt_manifest
      (set_activeData (insert_before_last (FormatDataFileName fileId) (m_activeData (rt_manifest (runtime_ s)))) (rt_manifest (runtime_ s))) s) in
   let* m := manifest_of in
   let* _ := PersistManifest m in
   done fileId) s.

End SlotFiles.

(** ** slot.cpp: transfers *)
Module SlotTransfer.
Import SlotWriter Slot SlotFiles.
Local Open Scope Z_scope.

(** [SlotTakeoverRequest]: whether objects are preloaded, and whether there is a callback for them. *)
Record SlotTakeoverRequest := MkRequest { req_preload : bool; req_callback : bool }.

Definition io_ok {A} (p : io A) : io (res A) := io! a := p in ret (Ok a).

Definition RenameDataFileIfNeeded (source target : path) : io (res unit) :=
  io! t := FileExist target in
  io! s := FileExist source in
  if t : bool then (if s : bool then DeleteFile source else ret (Ok tt))
  else if negb s then ret (Fail K_NOT_FOUND)
  else RenameFile source target.

Definition PersistSourceTransferManifest (sourceRecoveryPath : chars) (targetManifest : SlotManifestData) (sourceHomePath : chars)
    (phase : SlotOperationPhase) : method unit := λ s,
  (require* nonempty sourceRecoveryPath else K_INVALID in
   try_ (lift (Load sourceRecoveryPath)) (λ rc,
     let* m := (match rc with
                | Fail K_NOT_FOUND => done (set_homeSlotPath sourceHomePath Bootstrap)
                | Fail c => fail c
                | Ok m => done m
                end) in
     let m := set_state IN_OPERATION (set_opType TRANSFER (set_opPhase phase (set_role SOURCE m))) in
     let m := set_txnId (m_txnId targetManifest) (set_ownerEpoch (m_ownerEpoch targetManifest) m) in
     let m := set_homeSlotPath sourceHomePath (set_recoverySlotPath sourceRecoveryPath (set_peerSlotPath (slotPath_ s) m)) in
     let m := set_transferPlanPath (m_transferPlanPath targetManifest) (set_transferFileMap (m_transferFileMap targetManifest) m) in
     lift (StoreAtomic sourceRecoveryPath m))) s.

Definition LoadRecoveryTransferState (sourceRecoveryPath : chars) : io (res (SlotManifestData * SlotSnapshot)) :=
  do! m := Load sourceRecoveryPath in
  do! x := Replay sourceRecoveryPath m in
  ret (Ok (m, x)).

Definition ResetTransferTargetManifest (m : SlotManifestData) : method SlotManifestData :=
  require* bool_decide (m_role m = TARGET) else K_INVALID in
  let m := set_transferFileMap [] (set_transferPlanPath [] (set_recoverySlotPath [] (set_peerSlotPath [] (to_normal m)))) in
  let* _ := PersistManifest m in done m.

Definition BaseName (p : chars) : chars := match split_last "/" p with Some (_, b) => b | None => p end.

Definition CleanupTransferArtifacts (m : SlotManifestData) (plan : option SlotTakeoverPlan) : method unit := λ s,
  (let* targets := (match plan with
                    | Some p => done (map_targetDataFile <$> plan_dataMappings p)
                    | None => let* fileIdMap := lift (ret (DecodeTransferFileMap (m_transferFileMap m))) in
                              done ((λ e, FormatDataFileName e.2) <$> map_to_list fileIdMap)
                    end) in
   lift (CleanupArtifactFiles (slotPath_ s)
     ((if nonempty (m_txnId m) then [FormatImportIndexFileName (m_txnId m)] else [])
      ++ (if nonempty (m_transferPlanPath m) then [BaseName (m_transferPlanPath m)] else [])
      ++ filter (λ f, f ∉ m_activeData m) targets))) s.

Definition CleanupStaleTakeoverArtifacts : method unit := λ s,
  (let* stalePlans := lift (Glob (slotPath_ s) (lit_str "takeover_") (lit_str ".plan")) in
   let* staleImports := lift (Glob (slotPath_ s) (lit_str "index_import_") (lit_str ".log")) in
   lift (CleanupArtifactFiles (slotPath_ s) (stalePlans ++ staleImports))) s.

Fixpoint remap (fileIdMap : gmap Z Z) (ms : list SlotTakeoverDataFileMapping) : res (list SlotTakeoverDataFileMapping) :=
  match ms with
  | [] => Ok []
  | x :: ms' =>
    match fileIdMap !! map_sourceFileId x with
    | None => Fail K_INVALID
    | Some t => let! xs := remap fileIdMap ms' in
                Ok (MkMapping (map_sourceFileId x) (map_sourceDataFile x) t (FormatDataFileName t) :: xs)
    end
  end.

Definition set_dataMappings (ms : list SlotTakeoverDataFileMapping) (p : SlotTakeoverPlan) : SlotTakeoverPlan :=
  MkPlan (plan_version p) (plan_txnId p) (plan_sourceHomeSlotPath p) (plan_sourceRecoverySlotPath p) (plan_targetSlotPath p)
    (plan_sourceIndex p) (plan_importIndexFile p) (plan_loadToMemory p) ms.

Definition pair_le (x y : Z * Z) : Prop := x.1 ≤ y.1.
#[export] Instance pair_le_dec x y : Decision (pair_le x y).
Proof. unfold pair_le. apply _. Defined.

Definition RebuildPreparedTransferPlan (m : SlotManifestData) : method (SlotManifestData * SlotTakeoverPlan) := λ s,
  (let* recovery := lift (io_ok (DirExist (m_recoverySlotPath m))) in
   if recovery : bool then
     let* src := lift (LoadRecoveryTransferState (m_recoverySlotPath m)) in
     let* plan := lift (BuildPlan (m_peerSlotPath m) (m_recoverySlotPath m) src.1 src.2 (slotPath_ s) m false (m_txnId m)) in
     let* fileIdMap := lift (ret (DecodeTransferFileMap (m_transferFileMap m))) in
     let* plan := (if bool_decide (fileIdMap = ∅) then done plan
                   else
                     let* ms := lift (ret (remap fileIdMap (plan_dataMappings plan))) in
                     let* _ := lift (WriteImportLog (slotPath_ s, plan_importIndexFile plan)
                                       (ImportPayload K_INVALID fileIdMap (CollectVisiblePuts src.2))) in
                     done (set_dataMappings ms plan)) in
     let* _ := lift (DumpPlan (slotPath_ s) plan) in
     let m := set_transferFileMap (EncodeTransferFileMap plan) (set_transferPlanPath (FormatTakeoverPlanFileName (plan_txnId plan)) m) in
     let* _ := PersistManifest m in
     done (m, plan)
   else
     let importIndexFile := FormatImportIndexFileName (m_txnId m) in
     let* e := lift (io_ok (FileExist (slotPath_ s, importIndexFile))) in
     require* e else K_NOT_FOUND in
     let* fileIdMap := lift (ret (DecodeTransferFileMap (m_transferFileMap m))) in
     let ms := (λ e, MkMapping e.1 (FormatDataFileName e.1) e.2 (FormatDataFileName e.2)) <$> merge_sort pair_le (map_to_list fileIdMap) in
     let plan := MkPlan 1 (m_txnId m) (m_peerSlotPath m) (m_recoverySlotPath m) (slotPath_ s) [] importIndexFile false ms in
     let* _ := lift (DumpPlan (slotPath_ s) plan) in
     let m := set_transferPlanPath (FormatTakeoverPlanFileName (plan_txnId plan)) m in
     let* _ := PersistManifest m in
     done (m, plan)) s.

Definition AreTransferTargetDataReady (slotPath : chars) (plan : SlotTakeoverPlan) : io bool :=
  all_exist slotPath (map_targetDataFile <$> plan_dataMappings plan).

Fixpoint HasClosedImportBatch (records : list SlotRecord) (txnId : chars) (importBatchOpen : bool) : bool :=
  match records with
  | [] => false
  | IMPORT_BEGIN t :: rs => HasClosedImportBatch rs txnId (bool_decide (t = txnId) || importBatchOpen)
  | IMPORT_END t :: rs => if bool_decide (t = txnId) && importBatchOpen then true else HasClosedImportBatch rs txnId importBatchOpen
  | _ :: rs => HasClosedImportBatch rs txnId importBatchOpen
  end.

Definition PublishImportBatch (indexPath : path) (txnId importIndexFile : chars) : method unit := λ s,
  lift (do! x := ReadAllRecords indexPath in
        if HasClosedImportBatch x.1 txnId false then ret (Ok tt)
        else
          do! begin_ := ret (EncodeImportBegin txnId) in
          do! importContent := ReadWholeFile (slotPath_ s, importIndexFile) in
          assert! HEADER_SIZE <=? zsize importContent else K_RUNTIME_ERROR in
          do! end_ := ret (EncodeImportEnd txnId) in
          AppendEncodedRecords indexPath (begin_ ++ drop (Z.to_nat HEADER_SIZE) importContent ++ end_)) s.

Definition CollectPreloadPuts (plan : SlotTakeoverPlan) (request : SlotTakeoverRequest) : method (list SlotPutRecord) := λ s,
  (if negb (req_preload request) || negb (req_callback request) then done []
   else
     let* x := lift (ReadAllRecords (slotPath_ s, plan_importIndexFile plan)) in
     done (omap (λ r, match r with PUT p => Some p | _ => None end) x.1)) s.

Fixpoint move_files (sourceDir targetDir : chars) (ms : list SlotTakeoverDataFileMapping) : io (res unit) :=
  match ms with
  | [] => ret (Ok tt)
  | x :: ms' =>
    do! _ := RenameDataFileIfNeeded (sourceDir, map_sourceDataFile x) (targetDir, map_targetDataFile x) in
    move_files sourceDir targetDir ms'
  end.

Definition add_missing (l : list chars) (names : list chars) : list chars :=
  foldl (λ l n, if bool_decide (n ∈ l) then l else l ++ [n]) l names.

Definition FinalizeSourceAfterTakeover (sourceRecoveryPath : chars) (targetManifest : SlotManifestData) : method unit :=
  let* e := lift (io_ok (DirExist sourceRecoveryPath)) in
  if negb e then done tt
  else
    let* _ := PersistSourceTransferManifest sourceRecoveryPath targetManifest (m_peerSlotPath targetManifest) TRANSFER_SOURCE_RETIRED in
    lift (RemoveAll sourceRecoveryPath).

(** *** The phases of [RecoverTransfer]

    Each returns the manifest, whether the transfer is over, and the preloaded puts. *)
Definition phase_result : Type := SlotManifestData * bool * option (list SlotPutRecord).

Definition abort_transfer (m : SlotManifestData) (plan : option SlotTakeoverPlan) : method phase_result :=
  let* _ := CleanupTransferArtifacts m plan in
  let* m := ResetTransferTargetManifest m in
  done (m, true, None).

Definition phase_fencing (m : SlotManifestData) : method phase_result := λ s,
  (let* recovery := lift (io_ok (DirExist (m_recoverySlotPath m))) in
   let* peer := lift (io_ok (DirExist (m_peerSlotPath m))) in
   if negb recovery && negb (nonempty (m_peerSlotPath m)) then fail K_INVALID
   else if negb recovery && negb peer then abort_transfer m None
   else
     let* _ := (if negb recovery then lift (RenameDir (m_peerSlotPath m) (m_recoverySlotPath m)) else done tt) in
     let* _ := PersistSourceTransferManifest (m_recoverySlotPath m) m (m_peerSlotPath m) TRANSFER_FENCING in
     let* src := lift (LoadRecoveryTransferState (m_recoverySlotPath m)) in
     let* plan := lift (BuildPlan (m_peerSlotPath m) (m_recoverySlotPath m) src.1 src.2 (slotPath_ s) m false (m_txnId m)) in
     let* _ := lift (DumpPlan (slotPath_ s) plan) in
     let m := set_opPhase TRANSFER_PREPARED (set_transferFileMap (EncodeTransferFileMap plan)
                (set_transferPlanPath (FormatTakeoverPlanFileName (plan_txnId plan)) m)) in
     let* _ := PersistManifest m in
     let* _ := PersistSourceTransferManifest (m_recoverySlotPath m) m (m_peerSlotPath m) TRANSFER_PREPARED in
     done (m, false, None)) s.

(** [TRANSFER_PREPARED] once there is a plan: the data files are moved, the import batch is published. *)
Definition continue_prepared (m : SlotManifestData) (plan : SlotTakeoverPlan) (request : option SlotTakeoverRequest) :
    method phase_result := λ s,
  (let* recovery := lift (io_ok (DirExist (plan_sourceRecoverySlotPath plan))) in
   let* ready := lift (io_ok (AreTransferTargetDataReady (slotPath_ s) plan)) in
   if negb recovery && negb ready then abort_transfer m (Some plan)
   else
     let* _ := lift (move_files (plan_sourceRecoverySlotPath plan) (slotPath_ s) (plan_dataMappings plan)) in
     let* preloadPuts := (match request with
                          | Some r => if req_preload r && req_callback r
                                      then let* ps := CollectPreloadPuts plan r in done (Some ps) else done None
                          | None => done None
                          end) in
     let* _ := PublishImportBatch (slotPath_ s, m_activeIndex m) (plan_txnId plan) (plan_importIndexFile plan) in
     let m := set_opPhase TRANSFER_INDEX_PUBLISHED
                (set_activeData (add_missing (m_activeData m) (map_targetDataFile <$> plan_dataMappings plan)) m) in
     let* _ := PersistManifest m in
     let* recovery := lift (io_ok (DirExist (plan_sourceRecoverySlotPath plan))) in
     let* _ := (if recovery : bool
                then PersistSourceTransferManifest (plan_sourceRecoverySlotPath plan) m (plan_sourceHomeSlotPath plan) TRANSFER_INDEX_PUBLISHED
                else done tt) in
     done (m, false, preloadPuts)) s.

Definition phase_prepared (m : SlotManifestData) (request : option SlotTakeoverRequest) : method phase_result := λ s,
  (let* planExists := lift (io_ok (FileExist (slotPath_ s, m_transferPlanPath m))) in
   let* loaded := (if nonempty (m_transferPlanPath m) && planExists
                   then try_ (lift (LoadPlan (slotPath_ s, m_transferPlanPath m))) (λ rc, done (match rc with Ok p => Some p | Fail _ => None end))
                   else done None) in
   let* importExists := lift (io_ok (FileExist (slotPath_ s, FormatImportIndexFileName (m_txnId m)))) in
   let* recovery := lift (io_ok (DirExist (m_recoverySlotPath m))) in
   match (if importExists : bool then loaded else None) with
   | Some plan => continue_prepared m plan request
   | None =>
     if negb recovery && negb importExists then abort_transfer m None
     else let* x := RebuildPreparedTransferPlan m in continue_prepared x.1 x.2 request
   end) s.

Definition phase_published (m : SlotManifestData) : method phase_result :=
  let* _ := FinalizeSourceAfterTakeover (m_recoverySlotPath m) m in
  let m := set_opPhase TRANSFER_SOURCE_RETIRED m in
  let* _ := PersistManifest m in
  done (m, false, None).

Definition phase_retired (m : SlotManifestData) : method phase_result := λ s,
  (let completedTxnId := m_txnId m in
   let transferPlanFile := m_transferPlanPath m in
   let m := set_transferPlanPath [] (set_transferFileMap [] (set_recoverySlotPath [] (set_peerSlotPath [] (to_normal m)))) in
   let* _ := PersistManifest m in
   try_ (lift (DeleteFileIfExists (slotPath_ s) (FormatImportIndexFileName completedTxnId))) (λ _,
   try_ (lift (if nonempty transferPlanFile then DeleteFileIfExists (slotPath_ s) (BaseName transferPlanFile) else ret (Ok false))) (λ _,
   done (m, true, None)))) s.

Definition transfer_phase (m : SlotManifestData) (request : option SlotTakeoverRequest) : method phase_result :=
  match m_opPhase m with
  | TRANSFER_FENCING => phase_fencing m
  | TRANSFER_PREPARED => phase_prepared m request
  | TRANSFER_INDEX_PUBLISHED => phase_published m
  | TRANSFER_SOURCE_RETIRED => phase_retired m
  | _ => fail K_INVALID
  end.

(** The loop of [RecoverTransfer]: a phase ends the transfer or moves it to the next phase, so four turns
    are enough. *)
Fixpoint transfer_loop (fuel : nat) (m : SlotManifestData) (request : option SlotTakeoverRequest) (preloadPuts : list SlotPutRecord) :
    method (SlotManifestData * list SlotPutRecord) :=
  if negb (IsTransferManifest m) then done (m, preloadPuts)
  else match fuel with
       | O => fail K_RUNTIME_ERROR
       | S fuel' =>
         let* x := transfer_phase m request in
         let '(m', over, puts) := x in
         let preloadPuts' := default preloadPuts puts in
         if over : bool then done (m', preloadPuts') else transfer_loop fuel' m' request preloadPuts'
       end.

Definition RecoverTransfer (m : SlotManifestData) (request : option SlotTakeoverRequest) :
    method (SlotManifestData * list SlotPutRecord) :=
  require* IsTransferManifest m else K_INVALID in
  require* nonempty (m_recoverySlotPath m) else K_INVALID in
  require* nonempty (m_txnId m) else K_INVALID in
  transfer_loop 4 m request [].

Definition RecoverManifestIfNeeded (m : SlotManifestData) : method SlotManifestData :=
  let* m := (if bool_decide (m_state m = IN_OPERATION) && bool_decide (m_opType m = COMPACT) && bool_decide (m_opPhase m = COMPACT_COMMITTING)
             then RecoverCompactCommitting m
             else if IsTransferManifest m then let* x := RecoverTransfer m None in done x.1
             else done m) in
  if m_gcPending m then ContinueGc m else done m.

End SlotTransfer.

(** ** slot.cpp: the operations *)
Module SlotOps.
Import SlotWriter Slot SlotFiles SlotTransfer.
Local Open Scope Z_scope.

(** The runtime state is rebuilt from the disk. *)
Definition load_runtime (m : SlotManifestData) (snapshot : SlotSnapshot) : method unit := λ s,
  (let* _ := modify (λ s, set_rt_snapshot snapshot (set_rt_manifest m s)) in
   let* i := lift (GetFileIdentity (slotPath_ s, MANIFEST_FILE)) in
   let* _ := modify (λ s, set_runtime (MkRuntime m snapshot i true) s) in
   init_writer m) s.

Definition BuildRuntimeStateLocked : method unit := λ s,
  (let* _ := BootstrapManifestIfNeed in
   let* m := LoadManifest in
   let* m := RecoverManifestIfNeeded m in
   let* snapshot := lift (Replay (slotPath_ s) m) in
   load_runtime m snapshot) s.

Definition EnsureRuntimeReadyLocked : method unit := λ s,
  (let* stale := lift (io_ok (IsRuntimeStaleLocked s)) in
   if rt_initialized (runtime_ s) && negb stale then done tt
   else let* _ := ResetRuntimeLocked in BuildRuntimeStateLocked) s.

Definition Save (key : chars) (version : Z) (body : chars) (writeMode ttlSecond : Z) : method unit := λ s,
  (let* _ := EnsureRuntimeReadyLocked in
   let* m := manifest_of in
   let* _ := EnsureWritable m in
   let payloadSize := zsize body in
   let useExclusiveFile := maxDataFileBytes_ s <=? payloadSize in
   let* fileId := (if useExclusiveFile then AllocateExclusiveDataFileLocked else RotateWritableDataFileLocked payloadSize) in
   let* offset := (if useExclusiveFile then let* _ := WriteExclusivePayloadLocked body fileId payloadSize in done 0
                   else AppendPayloadToActiveFileLocked body payloadSize) in
   let record := MkPut key fileId offset payloadSize version writeMode ttlSecond in
   let* encoded := lift (ret (EncodePut record)) in
   let* w := read writer_ in
   let* w := lift (AppendIndexPayload encoded w) in
   let* _ := modify (set_writer (RecordOperation (u64 (payloadSize + zsize encoded)) w)) in
   let* _ := modify (λ s, set_rt_snapshot (ApplyPut record (rt_snapshot (runtime_ s))) s) in
   FlushRuntimeLocked false) s.

Definition Delete (key : chars) (maxVerToDelete : Z) (deleteAllVersion : bool) : method unit :=
  let* _ := EnsureRuntimeReadyLocked in
  let* m := manifest_of in
  let* _ := EnsureWritable m in
  let record := MkDelete key (if deleteAllVersion then 2 ^ 64 - 1 else maxVerToDelete) in
  let* encoded := lift (ret (EncodeDelete record)) in
  let* w := read writer_ in
  let* w := lift (AppendIndexPayload encoded w) in
  let* _ := modify (set_writer (RecordOperation (zsize encoded) w)) in
  let* _ := modify (λ s, set_rt_snapshot (ApplyDelete record (rt_snapshot (runtime_ s))) s) in
  FlushRuntimeLocked false.

Definition Get (key : chars) (version : Z) : method chars := λ s,
  (let* _ := EnsureRuntimeReadyLocked in
   let* snapshot := read (λ s, rt_snapshot (runtime_ s)) in
   let* value := lift (ret (FindExact snapshot key version)) in
   lift (ReadRecordData (slotPath_ s) value)) s.

Definition GetWithoutVersion (key : chars) (minVersion : Z) : method chars := λ s,
  (let* _ := EnsureRuntimeReadyLocked in
   let* snapshot := read (λ s, rt_snapshot (runtime_ s)) in
   let* value := lift (ret (FindLatest snapshot key minVersion)) in
   lift (ReadRecordData (slotPath_ s) value)) s.

Definition ReplayIndex : method SlotSnapshot := λ s,
  (let* _ := FlushRuntimeLocked true in
   let* _ := BootstrapManifestIfNeed in
   let* m := LoadManifest in
   let* m := RecoverManifestIfNeeded m in
   lift (Replay (slotPath_ s) m)) s.

Definition Repair : method unit := λ s,
  (let* _ := FlushRuntimeLocked true in
   let* _ := ResetRuntimeLocked in
   let* _ := BootstrapManifestIfNeed in
   let* m := LoadManifest in
   let* m := RecoverManifestIfNeeded m in
   let* _ := lift (ReadAllRecords (slotPath_ s, m_activeIndex m)) in
   let* snapshot := lift (Replay (slotPath_ s) m) in
   load_runtime m snapshot) s.

Definition SyncActiveFiles (slotPath : chars) (m : SlotManifestData) : io (res unit) :=
  do! _ := (if nonempty (m_activeIndex m) then do! _ := OpenFile (slotPath, m_activeIndex m) in ret (Ok tt) else ret (Ok tt)) in
  (fix sync names := match names with [] => ret (Ok tt) | n :: ns => do! _ := OpenFile (slotPath, n) in sync ns end) (m_activeData m).

Definition Seal : method unit := λ s,
  (let* _ := EnsureRuntimeReadyLocked in
   let* _ := FlushRuntimeLocked true in
   let* m := manifest_of in
   lift (SyncActiveFiles (slotPath_ s) m)) s.

(** *** Preloading *)
Record SlotPreloadMeta := MkMeta { meta_objectKey : chars; meta_version : Z; meta_writeMode : Z; meta_size : Z; meta_ttlSecond : Z }.

(** [RunPreloadCallback]: what the callback was given; it stops the enumeration by failing. *)
Fixpoint RunPreloadCallback (slotPath : chars) (puts : list SlotPutRecord) (callback : SlotPreloadMeta → chars → bool) :
    io (res (list (SlotPreloadMeta * chars))) :=
  match puts with
  | [] => ret (Ok [])
  | p :: puts' =>
    do! bytes := ReadRecordData slotPath (value_of (put_key p) p) in
    let meta := MkMeta (put_key p) (put_version p) (put_writeMode p) (put_size p) (put_ttlSecond p) in
    if callback meta bytes
    then do! more := RunPreloadCallback slotPath puts' callback in ret (Ok ((meta, bytes) :: more))
    else ret (Ok [(meta, bytes)])
  end.

Definition PreloadLocal (callback : option (SlotPreloadMeta → chars → bool)) : method (list (SlotPreloadMeta * chars)) := λ s,
  match callback with
  | None => ret (s, Ok [])
  | Some f =>
    (let* _ := EnsureRuntimeReadyLocked in
     let* _ := FlushRuntimeLocked true in
     let* snapshot := read (λ s, rt_snapshot (runtime_ s)) in
     lift (RunPreloadCallback (slotPath_ s) (CollectVisiblePuts snapshot) f)) s
  end.

(** *** Takeover *)
Definition GenerateTxnId (slotId nowNs : Z) : chars := u64_to_string slotId ++ "_"%char :: u64_to_string nowNs.
Definition BuildRecoverySlotPath (sourceSlotPath txnId : chars) : chars := sourceSlotPath ++ lit_str ".recovery." ++ txnId.

(** The part of [Takeover] under the lock, from the fencing of the target on. *)
Definition takeover_locked (sourceSlotPath : chars) (request : SlotTakeoverRequest) (nowNs : Z) : method (list SlotPutRecord) := λ s,
  (let* _ := EnsureRuntimeReadyLocked in
   let* _ := FlushRuntimeLocked true in
   let* targetManifest := manifest_of in
   let* _ := EnsureWritable targetManifest in
   let* _ := CleanupStaleTakeoverArtifacts in
   let txnId := GenerateTxnId (slotId_ s) nowNs in
   let recoverySlotPath := BuildRecoverySlotPath sourceSlotPath txnId in
   let m := set_state IN_OPERATION (set_opType TRANSFER (set_opPhase TRANSFER_FENCING (set_role TARGET targetManifest))) in
   let m := set_txnId txnId (set_ownerEpoch (u64 (m_ownerEpoch targetManifest + 1)) m) in
   let m := set_transferFileMap [] (set_transferPlanPath [] (set_recoverySlotPath recoverySlotPath (set_peerSlotPath sourceSlotPath m))) in
   let* _ := PersistManifest m in
   let* recovery := lift (io_ok (DirExist recoverySlotPath)) in
   let* _ := (if negb recovery then
                let* e := lift (io_ok (DirExist sourceSlotPath)) in
                require* e else K_NOT_FOUND in lift (RenameDir sourceSlotPath recoverySlotPath)
              else done tt) in
   let* _ := PersistSourceTransferManifest recoverySlotPath m sourceSlotPath TRANSFER_FENCING in
   let* sourceManifest := lift (Load recoverySlotPath) in
   let* sourceSnapshot := lift (Replay recoverySlotPath sourceManifest) in
   let* plan := lift (BuildPlan sourceSlotPath recoverySlotPath sourceManifest sourceSnapshot (slotPath_ s) m (req_preload request) txnId) in
   let* _ := lift (DumpPlan (slotPath_ s) plan) in
   let m := set_opPhase TRANSFER_PREPARED (set_transferFileMap (EncodeTransferFileMap plan)
              (set_transferPlanPath (FormatTakeoverPlanFileName (plan_txnId plan)) m)) in
   let* _ := PersistManifest m in
   let* _ := PersistSourceTransferManifest recoverySlotPath m sourceSlotPath TRANSFER_PREPARED in
   let* x := RecoverTransfer m (Some request) in
   let* _ := ResetRuntimeLocked in
   let* _ := BuildRuntimeStateLocked in
   done x.2) s.

(** [Takeover]; [callback] gets the preloaded objects. *)
Definition Takeover (sourceSlotPath : chars) (preload : bool) (callback : option (SlotPreloadMeta → chars → bool)) (nowNs : Z) :
    method (list (SlotPreloadMeta * chars)) := λ s,
  if negb (nonempty sourceSlotPath) then ret (s, Fail K_INVALID)
  else if bool_decide (sourceSlotPath = slotPath_ s) then ret (s, Fail K_INVALID)
  else if transferIntentActive_ s then ret (s, Fail K_TRY_AGAIN)
  else
    let body :=
      (let* _ := Repair in
       let* _ := lift (io! x := Repair (Slot_new 0 sourceSlotPath (maxDataFileBytes_ s) (sync_interval_ms s) (sync_batch_bytes s) (now_ms s)) in
                       ret x.2) in
       let* preloadPuts := takeover_locked sourceSlotPath (MkRequest preload (bool_decide (is_Some callback))) nowNs in
       match callback with
       | None => done []
       | Some f => lift (RunPreloadCallback (slotPath_ s) preloadPuts f)
       end) in
    io! x := body (set_intent true s) in
    ret (set_intent false x.1, x.2).

End SlotOps.
