(* ===== verification/SlotStore.v ===== *)
(** * SlotStore: what a slot promises

    The abstract specification of a slot, a map from keys and versions to contents with a deletion mark per
    key, and what relates it to [Slot.v].

    [durable] relates a disk to the records of the log and the manifest of a slot, whether or not a process
    has it open and whatever a crash has left behind; [running] relates the memory of a slot to its disk; [represents]
    and [holds] relate both to a store.  The lemmas give, for the parts of opening and saving, the state each
    returns in and a predicate that all the disks it goes through satisfy: at each of them the slot is [durable] with the
    contents before or with the contents after.  [SlotRefine.v] puts them together. *)
From S2P Require Import Prelude NetUtil KeyHelper SlotFile SlotIndex SlotManifest SlotSnapshot SlotPlan Slot.
From Stdlib Require Import Ascii String.
Import NetUtil KeyHelper SlotFile FileUtil SlotNames DiskSpec SlotIndex SlotText SlotManifest SlotSnapshot.
Import SlotWriter Slot SlotFiles SlotTransfer SlotOps.

Module SlotStore.
Local Open Scope Z_scope.

(** ** The abstract store *)
Record store := MkStore { objects : gmap (chars * Z) chars; deleted : gmap chars Z }.
Definition empty_store : store := MkStore ∅ ∅.
Definition spec_save (key : chars) (version : Z) (body : chars) (σ : store) : store :=
  MkStore (<[(key, version) := body]> (objects σ)) (deleted σ).
Definition spec_delete (key : chars) (version : Z) (σ : store) : store :=
  MkStore (objects σ) (<[key := Z.max (default 0 (deleted σ !! key)) version]> (deleted σ)).
Definition spec_get (key : chars) (version : Z) (σ : store) : res chars :=
  match objects σ !! (key, version) with
  | None => Fail K_NOT_FOUND_IN_L2CACHE
  | Some body =>
    check! match deleted σ !! key with None => true | Some x => x <? version end else K_NOT_FOUND_IN_L2CACHE in Ok body
  end.

(** ** Reasoning about methods *)
Definition wpm {S A} (C : disk → Prop) (p : prog S A) (Q : S → res A → disk → Prop) (s : S) (d : disk) : Prop :=
  wp C (p s) (λ x, Q x.1 x.2) d.

Lemma wpm_done {S A} C (a : A) (Q : S → res A → disk → Prop) s d : Q s (Ok a) d → wpm C (done a) Q s d.
Proof. intros H. by apply wp_ret. Qed.
Lemma wpm_fail {S A} C c (Q : S → res A → disk → Prop) s d : Q s (Fail c) d → wpm C (fail c) Q s d.
Proof. intros H. by apply wp_ret. Qed.
Lemma wpm_read {S A} C (f : S → A) (Q : S → res A → disk → Prop) s d : Q s (Ok (f s)) d → wpm C (read f) Q s d.
Proof. intros H. by apply wp_ret. Qed.
Lemma wpm_modify {S} C (f : S → S) (Q : S → res unit → disk → Prop) s d : Q (f s) (Ok tt) d → wpm C (modify f) Q s d.
Proof. intros H. by apply wp_ret. Qed.
Lemma wpm_lift {S A} C (p : io (res A)) (Q : S → res A → disk → Prop) s d : wp C p (Q s) d → wpm C (lift p) Q s d.
Proof. intros H. apply wp_bind. eapply wp_mono; [exact H|done|]. intros a d' Ha. by apply wp_ret. Qed.
Lemma wpm_then {S A B} C (p : prog S A) (k : A → prog S B) Q s d :
  wpm C p (λ s' r, match r with Ok a => wpm C (k a) Q s' | Fail c => Q s' (Fail c) end) s d → wpm C (then_ p k) Q s d.
Proof.
  intros H. apply wp_bind. eapply wp_mono; [exact H|done|]. intros [s' [a|c]] d' Ha; [exact Ha|by apply wp_ret].
Qed.
Lemma wpm_try {S A B} C (p : prog S A) (k : res A → prog S B) Q s d :
  wpm C p (λ s' r, wpm C (k r) Q s') s d → wpm C (try_ p k) Q s d.
Proof. intros H. apply wp_bind. eapply wp_mono; [exact H|done|]. by intros [s' r] d' Ha. Qed.
Lemma wpm_mono {S A} (C C' : disk → Prop) (p : prog S A) (Q Q' : S → res A → disk → Prop) s d :
  wpm C p Q s d → (∀ d', C d' → C' d') → (∀ s' r d', Q s' r d' → Q' s' r d') → wpm C' p Q' s d.
Proof. intros H HC HQ. eapply wp_mono; [exact H|done|]. intros [s' r] d' Hx. by apply HQ. Qed.

(** Takes a method one step further: what [lift]s a program leaves it to its own rule. *)
Ltac mstep :=
  lazymatch goal with
  | |- wpm _ (then_ _ _) _ _ _ => apply wpm_then
  | |- wpm _ (try_ _ _) _ _ _ => apply wpm_try
  | |- wpm _ (done _) _ _ _ => apply wpm_done
  | |- wpm _ (fail _) _ _ _ => apply wpm_fail
  | |- wpm _ (read _) _ _ _ => apply wpm_read
  | |- wpm _ (modify _) _ _ _ => apply wpm_modify
  | |- wpm _ (lift _) _ _ _ => apply wpm_lift
  | |- wp _ (ret _) _ _ => apply wp_ret
  | |- wp _ (query _) _ _ => apply wp_query
  end.

(** ** Names of a slot *)
Definition manifest_path (sp : chars) : path := (sp, MANIFEST_FILE).
Definition index_path (sp : chars) (m : SlotManifestData) : path := (sp, m_activeIndex m).
Definition data_path (sp : chars) (id : Z) : path := (sp, FormatDataFileName id).
Definition id_ok (id : Z) : Prop := 1 ≤ id < 2 ^ 32.

Lemma digits_no_dot s : forallb is_digit s = true → dots s = 0%nat.
Proof.
  intros H. unfold dots. rewrite list_filter_none; [|reflexivity]. apply Forall_forall. intros c Hc ->.
  rewrite forallb_forall in H. apply list_elem_of_In, H in Hc. done.
Qed.

Lemma dots_app a b : dots (a ++ b) = (dots a + dots b)%nat.
Proof. unfold dots. by rewrite filter_app length_app. Qed.

Lemma dots_data id : dots (FormatDataFileName id) = 1%nat.
Proof.
  unfold FormatDataFileName, pad0. rewrite !dots_app (digits_no_dot (u64_to_string id)); [apply u64_to_string_digits|].
  change (dots (lit_str "data_")) with 0%nat. change (dots (lit_str ".bin")) with 1%nat.
  rewrite (digits_no_dot (replicate _ _)); [|reflexivity]. apply forallb_forall. intros c Hc%list_elem_of_In%elem_of_replicate.
  by destruct Hc as [-> _].
Qed.

Lemma data_not_tmp sp id : ¬ is_tmp (data_path sp id).
Proof. apply one_dot_not_tmp. unfold data_path. cbn [snd]. rewrite dots_data. lia. Qed.
Lemma manifest_not_tmp sp : ¬ is_tmp (manifest_path sp).
Proof. apply one_dot_not_tmp. vm_compute. lia. Qed.

Lemma data_ne_manifest sp id : data_path sp id ≠ manifest_path sp.
Proof. intros E. apply (f_equal (λ p : path, dots p.2)) in E. cbn [snd data_path manifest_path] in E. by rewrite dots_data in E. Qed.

Lemma data_path_inj sp a b : id_ok a → id_ok b → data_path sp a = data_path sp b → a = b.
Proof. intros Ha Hb E. apply (f_equal snd) in E. cbn [snd data_path] in E. apply FormatDataFileName_inj in E; [done|unfold id_ok in *; lia..]. Qed.

Definition index_ok (m : SlotManifestData) : Prop := index_name (m_activeIndex m) ∧ (dots (m_activeIndex m) ≤ 1)%nat.

Lemma index_not_tmp sp m : index_ok m → ¬ is_tmp (index_path sp m).
Proof. intros [_ H]. by apply one_dot_not_tmp. Qed.
Lemma index_ne_manifest sp m : index_ok m → index_path sp m ≠ manifest_path sp.
Proof. intros [[_ H] _] E. apply (f_equal snd) in E. cbn [snd index_path manifest_path] in E. rewrite E in H. by vm_compute in H. Qed.
Lemma index_ne_data sp m id : index_ok m → index_path sp m ≠ data_path sp id.
Proof. intros [H _] E. apply (f_equal snd) in E. cbn [snd index_path data_path] in E. by eapply data_not_index. Qed.

(** ** What is on the disk *)
(** The index file of [p] is read as [rs]; it may have a torn end, a torn header, or not exist. *)
Definition log_of (d : disk) (p : path) (rs : list SlotRecord) : Prop :=
  ∃ t, ensured (content d p) = WriteHeader ++ encode_all rs ++ t ∧ (t = [] ∨ ParseRecord t = None).

Definition manifest_state (m : SlotManifestData) (ids : list Z) : Prop :=
  manifest_ok m ∧ IsNormalManifest m = true ∧ m_gcPending m = false ∧ m_homeSlotPath m ≠ [] ∧ index_ok m
  ∧ m_activeData m = FormatDataFileName <$> ids ∧ ids ≠ [] ∧ Forall id_ok ids.

(** The objects of the log are complete, in files that the manifest lists. *)
Definition put_stored (d : disk) (sp : chars) (p : SlotPutRecord) : Prop :=
  ∃ s, content d (data_path sp (put_fileId p)) = Some s ∧ put_offset p + put_size p ≤ zsize s.
Definition puts_stored (d : disk) (sp : chars) (ids : list Z) (rs : list SlotRecord) : Prop :=
  ∀ p, PUT p ∈ rs → put_fileId p ∈ ids ∧ put_stored d sp p.

Record durable (sp : chars) (d : disk) (m : SlotManifestData) (ids : list Z) (rs : list SlotRecord) : Prop := {
  du_wf : disk_wf d;
  du_manifest : content d (manifest_path sp) = Some (Encode m);
  du_state : manifest_state m ids;
  du_log : log_of d (index_path sp m) rs;
  du_records : Forall record_ok rs;
  du_closed : closed all_valid rs;
  du_puts : puts_stored d sp ids rs
}.

(** The bytes of an object. *)
Definition bytes_of (d : disk) (sp : chars) (p : SlotPutRecord) : option chars :=
  s ← content d (data_path sp (put_fileId p));
  Some (take (Z.to_nat (put_size p)) (drop (Z.to_nat (put_offset p)) s)).

Definition snap (rs : list SlotRecord) : SlotSnapshot := snapshot_of all_valid rs.

(** The slot holds the contents [σ]. *)
Definition represents (d : disk) (sp : chars) (rs : list SlotRecord) (σ : store) : Prop :=
  (∀ k v, objects σ !! (k, v) = (p ← put_at (snap rs) k v; bytes_of d sp p))
  ∧ deletedUpToByKey_ (snap rs) = deleted σ.

Definition holds (sp : chars) (σ : store) (d : disk) : Prop := ∃ m ids rs, durable sp d m ids rs ∧ represents d sp rs σ.

(** Data files only grow. *)
Definition grows (d d' : disk) (sp : chars) (ids : list Z) : Prop :=
  ∀ id s, id ∈ ids → content d (data_path sp id) = Some s → ∃ u, content d' (data_path sp id) = Some (s ++ u).

Lemma grows_refl d sp ids : grows d d sp ids.
Proof. intros id s _ H. exists []. by rewrite app_nil_r. Qed.

Lemma grows_same d d' sp ids : (∀ id, id ∈ ids → content d' (data_path sp id) = content d (data_path sp id)) → grows d d' sp ids.
Proof. intros E id s Hid H. exists []. by rewrite app_nil_r E. Qed.

Lemma grows_trans d1 d2 d3 sp ids : grows d1 d2 sp ids → grows d2 d3 sp ids → grows d1 d3 sp ids.
Proof.
  intros H1 H2 id s Hid H. destruct (H1 _ _ Hid H) as [u Hu]. destruct (H2 _ _ Hid Hu) as [u' Hu'].
  exists (u ++ u'). by rewrite app_assoc.
Qed.

Lemma snapshot_puts v rs k ver p : put_at (snapshot_of v rs) k ver = Some p → PUT p ∈ rs.
Proof.
  set (from := λ (l : list SlotRecord) (s : SlotSnapshot), ∀ k ver p, put_at s k ver = Some p → PUT p ∈ l).
  assert (∀ l b s, from l s → (∀ r, r ∈ b → r ∈ l) → from l (foldl (apply1 v) s b)) as Hb.
  { intros l b. induction b as [|r b IH]; intros s Hs Hr; cbn [foldl]; [done|]. apply IH; [|intros; apply Hr; by right].
    destruct r as [q|x|t|t]; cbn [apply1]; try done. destruct (v q); [|done]. intros k0 v0 p0. rewrite put_at_ApplyPut.
    case_bool_decide; [|apply Hs]. intros [= <-]. apply Hr. by left. }
  assert (∀ l st, from l (rep_snapshot st) → (∀ t b, rep_batch st = Some (t, b) → ∀ r, r ∈ b → r ∈ l) →
            from (l ++ rs) (rep_snapshot (foldl (step1 v) st rs))) as H.
  { induction rs as [|r rs IH]; intros l st Hs Hst; cbn [foldl]; [by rewrite app_nil_r|].
    change (r :: rs) with ([r] ++ rs). rewrite app_assoc. apply IH.
    - destruct st as [s [[t b]|]]; destruct r; cbn [step1 rep_batch rep_snapshot] in *;
        try (intros ? ? ? ?%Hs; apply elem_of_app; by left).
      + case_bool_decide; [|intros ? ? ? ?%Hs; apply elem_of_app; by left].
        intros k0 v0 p0 Hp. apply elem_of_app. left. eapply (Hb l b); [done|by eapply Hst|done].
      + apply (Hb _ [PUT put]); [intros ? ? ? ?%Hs; apply elem_of_app; by left|].
        intros r ->%list_elem_of_singleton. apply elem_of_app. right. by apply list_elem_of_singleton.
    - intros t b. destruct st as [s [[t0 b0]|]]; destruct r; cbn [step1 rep_batch rep_snapshot] in *; try done;
        intros [= <- <-] r; rewrite ?elem_of_app ?elem_of_nil; try done.
      + intros [Hr|Hr]; [left; by eapply Hst|by right].
      + intros [Hr|Hr]; [left; by eapply Hst|by right]. }
  intros Hp. apply (H [] (MkReplaying empty_snapshot None)) in Hp; [done| |done].
  intros ? ? ?. unfold put_at. cbn. by rewrite lookup_empty.
Qed.

Lemma put_stored_grow d d' sp ids p : grows d d' sp ids → put_fileId p ∈ ids → put_stored d sp p → put_stored d' sp p.
Proof.
  intros Hg Hid (s & Hs & Hl). destruct (Hg _ _ Hid Hs) as [u Hu]. exists (s ++ u). split; [done|].
  rewrite zsize_app. unfold zsize in *. lia.
Qed.

Lemma bytes_of_grow d d' sp ids p :
  0 ≤ put_offset p → 0 ≤ put_size p → grows d d' sp ids → put_fileId p ∈ ids → put_stored d sp p → bytes_of d' sp p = bytes_of d sp p.
Proof.
  intros Ho Hz Hg Hid (s & Hs & Hl). destruct (Hg _ _ Hid Hs) as [u Hu]. unfold bytes_of. rewrite Hs Hu. cbn. f_equal.
  unfold zsize in Hl. rewrite drop_app_le; [lia|]. rewrite take_app_le; [rewrite length_drop; lia|done].
Qed.

Lemma puts_stored_grow d d' sp ids rs : grows d d' sp ids → puts_stored d sp ids rs → puts_stored d' sp ids rs.
Proof. intros Hg Hp p [Hid Hs]%Hp. split; [done|]. by eapply put_stored_grow. Qed.

Lemma record_ok_put rs p : Forall record_ok rs → PUT p ∈ rs → put_ok p.
Proof. rewrite Forall_forall. intros H Hp. by apply H in Hp. Qed.

Lemma represents_grow d d' sp ids rs σ :
  Forall record_ok rs → puts_stored d sp ids rs → grows d d' sp ids → represents d sp rs σ → represents d' sp rs σ.
Proof.
  intros Hok Hp Hg [H1 H2]. split; [|done]. intros k v. rewrite H1.
  destruct (put_at (snap rs) k v) as [p|] eqn:E; cbn [mbind option_bind]; [|done].
  apply snapshot_puts in E. destruct (Hp _ E) as [Hid Hs]. destruct (record_ok_put _ _ Hok E) as (_ & _ & ? & ? & _).
  symmetry. by eapply bytes_of_grow; [lia|lia|..].
Qed.

(** All puts of the log pass the check of the replay. *)
Lemma puts_valid d sp ids rs p : Forall record_ok rs → puts_stored d sp ids rs → PUT p ∈ rs → valid_put d sp p = all_valid p.
Proof.
  intros Hok Hp Hin. destruct (Hp _ Hin) as [_ (s & Hs & Hl)]. destruct (record_ok_put _ _ Hok Hin) as (_ & _ & ? & ? & _).
  unfold valid_put. change (sp, FormatDataFileName (put_fileId p)) with (data_path sp (put_fileId p)). rewrite Hs.
  pose proof (Z.mod_le (put_offset p + put_size p) (2 ^ 64) ltac:(lia) ltac:(lia)).
  unfold all_valid, u64. rewrite !andb_true_iff !Z.leb_le. lia.
Qed.

Lemma replay_valid d sp ids rs : Forall record_ok rs → puts_stored d sp ids rs → snapshot_of (valid_put d sp) rs = snap rs.
Proof.
  intros Hok Hp. unfold snap, snapshot_of. rewrite (replay_state_ext _ all_valid); [|done].
  intros p Hin. by eapply puts_valid.
Qed.

(** A disk on which the manifest is the same, the log is read the same and the data of the log has only grown. *)
Lemma durable_grow sp d d' m ids ids0 rs :
  durable sp d m ids rs → puts_stored d sp ids0 rs → disk_wf d' → content d' (manifest_path sp) = content d (manifest_path sp) →
  log_of d' (index_path sp m) rs → grows d d' sp ids0 → durable sp d' m ids rs.
Proof.
  intros [] H0 Hwf Hm Hl Hg. split; [done|by rewrite Hm|done|done|done|done|].
  intros p Hp. destruct (du_puts0 _ Hp) as [? _]. destruct (H0 _ Hp). split; [done|]. by eapply put_stored_grow.
Qed.

Lemma holds_grow sp d d' m ids ids0 rs σ :
  durable sp d m ids rs → represents d sp rs σ → puts_stored d sp ids0 rs → disk_wf d' →
  content d' (manifest_path sp) = content d (manifest_path sp) →
  log_of d' (index_path sp m) rs → grows d d' sp ids0 → holds sp σ d'.
Proof.
  intros Hd Hr H0 Hwf Hm Hl Hg. exists m, ids, rs. split; [by eapply durable_grow|].
  eapply represents_grow; [apply Hd|done..].
Qed.

Lemma log_of_same d d' p rs : content d' p = content d p → log_of d p rs → log_of d' p rs.
Proof. intros E (t & H & Ht). exists t. by rewrite E. Qed.

(** A frame that keeps the files of the slot. *)
Lemma durable_frame (P : path → Prop) sp d d' m ids rs σ :
  durable sp d m ids rs → represents d sp rs σ → frame P d d' → ¬ P (manifest_path sp) → ¬ P (index_path sp m) →
  (∀ id, id ∈ ids → ¬ P (data_path sp id)) → durable sp d' m ids rs ∧ represents d' sp rs σ.
Proof.
  intros Hd Hr F H1 H2 H3.
  assert (grows d d' sp ids) as Hg by (apply grows_same; intros id Hid; apply (fr_content _ _ _ F); by apply H3).
  split; [|eapply represents_grow; [apply Hd|apply Hd|done..]].
  eapply durable_grow; [done|apply Hd|apply F|by apply (fr_content _ _ _ F)| |done].
  eapply log_of_same; [|apply Hd]. by apply (fr_content _ _ _ F).
Qed.

Lemma tmp_frame sp d d' m ids rs σ :
  durable sp d m ids rs → represents d sp rs σ → frame is_tmp d d' → durable sp d' m ids rs ∧ represents d' sp rs σ.
Proof.
  intros Hd Hr F. eapply durable_frame; [done..|apply manifest_not_tmp|apply index_not_tmp; apply Hd|].
  intros id _. apply data_not_tmp.
Qed.

Lemma durable_dir sp d m ids rs : durable sp d m ids rs → has_dir d sp.
Proof. intros Hd. pose proof (du_manifest _ _ _ _ _ Hd) as H. apply content_lookup in H as (i & Hi & _). by apply lookup_has_dir in Hi. Qed.

(** ** EnsureActiveFiles *)
(** Only data files that were missing are touched. *)
Definition missing_data (d : disk) (sp : chars) (ids : list Z) (q : path) : Prop :=
  ∃ id, id ∈ ids ∧ q = data_path sp id ∧ content d q = None.

Lemma wp_ensure_files (C : disk → Prop) Q sp ids : ∀ d,
  disk_wf d → has_dir d sp →
  (∀ d', frame (missing_data d sp ids) d d' → C d') →
  (∀ d', frame (missing_data d sp ids) d d' → (∀ id, id ∈ ids → content d' (data_path sp id) = Some (default [] (content d (data_path sp id)))) → Q (Ok tt) d') →
  wp C (ensure_files sp (FormatDataFileName <$> ids)) Q d.
Proof.
  induction ids as [|id ids IH]; intros d Hwf Hdir HC HQ; cbn [fmap list_fmap ensure_files].
  { apply wp_ret. apply HQ; [by apply frame_refl|]. intros id ?%elem_of_nil. done. }
  assert (∀ d1, frame (missing_data d sp (id :: ids)) d d1 → ∀ d', frame (missing_data d1 sp ids) d1 d' →
            frame (missing_data d sp (id :: ids)) d d') as Htr.
  { intros d1 F1 d' F2. eapply disk_frame_trans; [exact F1|]. eapply frame_mono; [exact F2|].
    intros q (id' & Hid' & -> & Hn). exists id'. split_and!; [by right|done|].
    destruct (content d (data_path sp id')) as [s|] eqn:E; [|done]. exfalso.
    rewrite (fr_content _ _ _ F1) in Hn; [intros (id2 & _ & _ & Hn2); congruence|]. congruence. }
  apply wp_bind_ok. change (sp, FormatDataFileName id) with (data_path sp id).
  apply wp_EnsureFile; [done..| | |].
  - unfold data_path, FormatDataFileName. cbn. done.
  - intros s Hs. apply IH; [done..| |].
    + intros d' F. apply HC. apply (Htr d); [by apply frame_refl|done].
    + intros d' F Hall. apply HQ; [apply (Htr d); [by apply frame_refl|done]|].
      intros id' [-> |Hid']%elem_of_cons; [|by apply Hall].
      rewrite (fr_content _ _ _ F); [intros (? & _ & _ & Hn); congruence|]. by rewrite Hs.
  - intros d1 Hn (F1 & C1 & L1).
    assert (frame (missing_data d sp (id :: ids)) d d1) as F1'.
    { eapply frame_mono; [exact F1|]. intros q <-. exists id. split_and!; [by left|done|done]. }
    split; [by apply HC|]. apply IH; [apply F1|by apply (fr_dirs _ _ _ F1)| |].
    + intros d' F. apply HC. by apply (Htr d1).
    + intros d' F Hall. apply HQ; [by apply (Htr d1)|].
      intros id' Hid'. destruct (decide (data_path sp id' = data_path sp id)) as [-> |Hne].
      * rewrite (fr_content _ _ _ F); [intros (? & _ & _ & Hn'); congruence|]. by rewrite C1 Hn.
      * apply elem_of_cons in Hid' as [-> |Hid']; [done|]. rewrite Hall; [done|]. rewrite (fr_content _ _ _ F1); [congruence|done].
Qed.

Lemma missing_frame sp d d' m ids rs σ :
  durable sp d m ids rs → represents d sp rs σ → frame (missing_data d sp ids) d d' →
  durable sp d' m ids rs ∧ represents d' sp rs σ.
Proof.
  intros Hd Hr F.
  assert (grows d d' sp ids) as Hg.
  { intros id s Hid Hs. exists []. rewrite app_nil_r (fr_content _ _ _ F); [|done]. intros (? & _ & _ & ?). congruence. }
  assert (index_ok m) as Hi by apply (du_state _ _ _ _ _ Hd).
  split; [|eapply represents_grow; [apply Hd|apply Hd|done..]].
  eapply durable_grow; [done|apply Hd|apply F| | |done].
  - apply (fr_content _ _ _ F). intros (id & _ & E & _). by apply (data_ne_manifest sp id).
  - eapply log_of_same; [|apply Hd]. apply (fr_content _ _ _ F). intros (id & _ & E & _). by apply (index_ne_data sp m id).
Qed.

(** A log whose header is not good is empty. *)
Lemma bad_header_empty d p rs : log_of d p rs → good_header (content d p) = false → rs = [].
Proof.
  intros (t & E & _) Hg. unfold ensured in E. rewrite Hg in E. destruct rs as [|r rs]; [done|]. exfalso.
  rewrite -{1}(app_nil_r WriteHeader) in E. apply app_inv_head in E. rewrite encode_all_cons -app_assoc in E.
  pose proof (encode_ne r). by destruct (encode r).
Qed.

Lemma index_frame sp d d' m ids rs σ o :
  durable sp d m ids rs → represents d sp rs σ → frame (eq (index_path sp m)) d d' →
  content d' (index_path sp m) = o → (∃ t, ensured o = WriteHeader ++ encode_all rs ++ t ∧ (t = [] ∨ ParseRecord t = None)) →
  durable sp d' m ids rs ∧ represents d' sp rs σ.
Proof.
  intros Hd Hr F <- Hl. assert (index_ok m) as Hi by apply (du_state _ _ _ _ _ Hd).
  assert (grows d d' sp ids) as Hg.
  { apply grows_same. intros id _. apply (fr_content _ _ _ F). by apply index_ne_data. }
  split; [|eapply represents_grow; [apply Hd|apply Hd|done..]].
  eapply durable_grow; [done|apply Hd|apply F|apply (fr_content _ _ _ F); by apply index_ne_manifest|done|done].
Qed.

Lemma wp_EnsureIndex (C : disk → Prop) Q sp m ids rs σ d :
  durable sp d m ids rs → represents d sp rs σ → (∀ d', holds sp σ d' → C d') →
  (∀ d', durable sp d' m ids rs → represents d' sp rs σ → frame (eq (index_path sp m)) d d' → same_file d d' (index_path sp m) →
     content d' (index_path sp m) = Some (ensured (content d (index_path sp m))) → Q (Ok tt) d') →
  wp C (EnsureIndexFile (index_path sp m)) Q d.
Proof.
  intros Hd Hr HC HQ. assert (index_ok m) as Hi by apply (du_state _ _ _ _ _ Hd).
  pose proof (du_log _ _ _ _ _ Hd) as Hl.
  apply wp_EnsureIndexFile; [apply Hd|by eapply durable_dir|by destruct Hi as [[? _] _]| |].
  - intros k d' Hg F Hc. apply HC. exists m, ids, rs. eapply index_frame; [done..|]. destruct Hc as [-> | ->]; [apply Hl|].
    rewrite ensured_torn (bad_header_empty _ _ _ Hl Hg). exists []. split; [|by left]. done.
  - intros d' F S Cn _. destruct (index_frame sp d d' m ids rs σ _ Hd Hr F Cn) as [Hd' Hr'].
    { destruct Hl as (t & E & Ht). exists t. split; [|done]. rewrite E. apply ensured_ok. }
    by apply HQ.
Qed.

Lemma wp_EnsureActiveFiles (C : disk → Prop) Q sp m ids rs σ d :
  durable sp d m ids rs → represents d sp rs σ → (∀ d', holds sp σ d' → C d') →
  (∀ d', durable sp d' m ids rs → represents d' sp rs σ →
     frame (λ q, q = index_path sp m ∨ missing_data d sp ids q) d d' → same_file d d' (index_path sp m) →
     content d' (index_path sp m) = Some (ensured (content d (index_path sp m))) →
     (∀ id, id ∈ ids → content d' (data_path sp id) = Some (default [] (content d (data_path sp id)))) → Q (Ok tt) d') →
  wp C (EnsureActiveFiles sp m) Q d.
Proof.
  intros Hd Hr HC HQ. pose proof (du_state _ _ _ _ _ Hd) as (_ & _ & _ & _ & Hi & Hdata & _).
  unfold EnsureActiveFiles, nonempty. rewrite bool_decide_false; [by destruct Hi as [[? _] _]|]. cbn [negb].
  apply wp_bind_ok. change (sp, m_activeIndex m) with (index_path sp m).
  eapply wp_EnsureIndex; [done..|]. intros d1 Hd1 Hr1 F1 S1 C1. rewrite Hdata.
  assert (∀ q, missing_data d1 sp ids q → missing_data d sp ids q) as Hm.
  { intros q (id & Hid & -> & Hn). exists id. split_and!; [done..|]. rewrite -Hn. symmetry. apply (fr_content _ _ _ F1).
    by apply index_ne_data. }
  apply wp_ensure_files; [apply Hd1|by eapply durable_dir| |].
  - intros d' F. apply HC. exists m, ids, rs. by eapply missing_frame.
  - intros d' F Hall. destruct (missing_frame _ _ _ _ _ _ _ Hd1 Hr1 F) as [Hd' Hr'].
    assert (¬ missing_data d1 sp ids (index_path sp m)) as Hni by (intros (id & _ & E & _); by apply (index_ne_data sp m id)).
    apply HQ; [done..| | | |].
    + eapply disk_frame_trans; [eapply frame_mono; [exact F1|]; intros q <-; by left|].
      eapply frame_mono; [exact F|]. intros q Hq. right. by apply Hm.
    + intros i Hii%S1. rewrite (fr_ino _ _ _ F); done.
    + rewrite (fr_content _ _ _ F); done.
    + intros id Hid. rewrite Hall; [done|]. rewrite (fr_content _ _ _ F1); [by apply index_ne_data|done].
Qed.

(** ** The memory of a slot that is open *)
Record running (s : Slot) (d : disk) (m : SlotManifestData) (ids : list Z) (rs : list SlotRecord) : Prop := {
  ru_durable : durable (slotPath_ s) d m ids rs;
  ru_manifest : ∃ i, lookup_ino d (manifest_path (slotPath_ s)) = Some i ∧ runtime_ s = MkRuntime m (snap rs) i true;
  ru_index : content d (index_path (slotPath_ s) m) = Some (WriteHeader ++ encode_all rs);
  ru_indexFd : activeIndexFd_ (writer_ s) = lookup_ino d (index_path (slotPath_ s) m);
  ru_indexSize : activeIndexSize_ (writer_ s) = zsize (WriteHeader ++ encode_all rs);
  ru_data : ∃ l sd, last ids = Some l ∧ content d (data_path (slotPath_ s) l) = Some sd
     ∧ activeDataFd_ (writer_ s) = lookup_ino d (data_path (slotPath_ s) l)
     ∧ activeDataFileId_ (writer_ s) = l ∧ activeDataSize_ (writer_ s) = zsize sd
}.

Lemma content_ino d p s : content d p = Some s → ∃ i, lookup_ino d p = Some i ∧ inodes d !! i = Some s.
Proof. apply content_lookup. Qed.

(** The runtime state of an open slot is not stale. *)
Lemma wpm_ready (C : disk → Prop) Q s d m ids rs : running s d m ids rs → Q s (Ok tt) d → wpm C EnsureRuntimeReadyLocked Q s d.
Proof.
  intros Hr HQ. destruct (ru_manifest _ _ _ _ _ Hr) as (i & Hi & Hrt).
  unfold EnsureRuntimeReadyLocked, wpm. apply wpm_then, wpm_lift. unfold io_ok, IsRuntimeStaleLocked. rewrite Hrt. cbn [rt_initialized negb].
  apply wp_bind, wp_bind, wp_query. change (slotPath_ s, MANIFEST_FILE) with (manifest_path (slotPath_ s)). rewrite Hi.
  apply wp_ret, wp_ret. cbn [rt_manifestInode]. rewrite bool_decide_true; [done|]. cbn [negb andb]. by apply wpm_done.
Qed.

(** ** PersistManifest *)
Lemma names_ok_data ids : names_ok (FormatDataFileName <$> ids).
Proof.
  apply Forall_fmap, Forall_forall. intros id _. unfold compose.
  assert (∀ c, c ∈ FormatDataFileName id → c ∈ lit_str "data_.bin" ∨ is_digit c = true) as Hc.
  { intros c. unfold FormatDataFileName, pad0. rewrite !elem_of_app. intros [H|[[H|H]|H]].
    - left. revert H. rewrite !elem_of_cons. tauto.
    - apply elem_of_replicate in H as [-> _]. by right.
    - right. pose proof (u64_to_string_digits id) as Hd. rewrite forallb_forall in Hd. by apply Hd, list_elem_of_In.
    - left. revert H. rewrite !elem_of_cons. tauto. }
  split_and!; [done| |]; intros H%Hc; (destruct H as [H|H]; [|by vm_compute in H]); by apply (absent_spec _ (lit_str "data_.bin")) in H.
Qed.

Lemma manifest_state_data m ids ids' : manifest_state m ids → ids' ≠ [] → Forall id_ok ids' →
  manifest_state (set_activeData (FormatDataFileName <$> ids') m) ids'.
Proof.
  intros (Hok & Hn & Hg & Hh & Hi & _) Hne Hall. split_and!; try done. destruct Hok as [H1 H2 H3 H4 H5 H6 (H7 & H8 & H9)].
  split; [done..|]. split_and!; [apply names_ok_data|done..].
Qed.

(** The manifest of an open slot is replaced by one that lists more data files. *)
Lemma wpm_PersistManifest (C : disk → Prop) Q s d m ids rs σ ids' :
  let sp := slotPath_ s in
  let m' := set_activeData (FormatDataFileName <$> ids') m in
  durable sp d m ids rs → represents d sp rs σ → rt_initialized (runtime_ s) = true →
  good_header (content d (index_path sp m)) = true →
  ids ⊆ ids' → Forall id_ok ids' → zsize (Encode m') ≤ SSIZE_MAX →
  (∀ d', holds sp σ d' → C d') →
  (∀ d' i, durable sp d' m' ids' rs → represents d' sp rs σ → lookup_ino d' (manifest_path sp) = Some i →
     frame (λ q, q = manifest_path sp ∨ missing_data d sp ids' q) d d' →
     (∀ id, id ∈ ids' → content d' (data_path sp id) = Some (default [] (content d (data_path sp id)))) →
     Q (set_runtime (MkRuntime m' (rt_snapshot (runtime_ s)) i true) s) (Ok tt) d') →
  wpm C (PersistManifest m') Q s d.
Proof.
  intros sp m' Hd Hr Hrt Hgood Hsub Hids Hlen HC HQ.
  assert (ids ≠ []) as Hne by apply (du_state _ _ _ _ _ Hd).
  assert (manifest_state m' ids') as Hst.
  { eapply manifest_state_data; [apply (du_state _ _ _ _ _ Hd)| |done]. intros ->. destruct ids; [done|]. set_solver. }
  assert (index_ok m') as Hi by apply Hst.
  unfold PersistManifest, wpm, nonempty. rewrite bool_decide_false; [apply Hst|]. cbn [negb]. fold sp.
  apply wpm_then, wpm_lift. apply wp_StoreAtomic; [apply Hd|by eapply durable_dir|done| |].
  { intros d' F. apply HC. exists m, ids, rs. by eapply tmp_frame. }
  intros d1 (F1 & C1 & L1). change (sp, MANIFEST_FILE) with (manifest_path sp) in *.
  assert (∀ id, content d1 (data_path sp id) = content d (data_path sp id)) as Hdata.
  { intros id. apply (fr_content _ _ _ F1). intros E. by apply (data_ne_manifest sp id). }
  assert (content d1 (index_path sp m') = content d (index_path sp m)) as Hidx.
  { apply (fr_content _ _ _ F1). intros E. by apply (index_ne_manifest sp m'). }
  assert (durable sp d1 m' ids' rs) as Hd1.
  { split; [apply F1|done|done| |apply Hd|apply Hd|].
    - eapply log_of_same; [exact Hidx|apply Hd].
    - intros p Hp. destruct (du_puts _ _ _ _ _ Hd _ Hp) as [Hid (x & Hx & Hl)]. split; [by apply Hsub|]. exists x. by rewrite Hdata. }
  assert (represents d1 sp rs σ) as Hr1.
  { eapply (represents_grow d); [apply Hd|apply Hd| |done]. apply grows_same. by intros id _. }
  split; [apply HC; by exists m', ids', rs|].
  apply wpm_then, wpm_lift. eapply wp_EnsureActiveFiles; [done..|].
  intros d2 Hd2 Hr2 F2 S2 C2 Hall. rewrite Hrt.
  assert (frame (λ q, q = manifest_path sp ∨ missing_data d sp ids' q) d d2) as F.
  { assert (content d2 (index_path sp m') = content d1 (index_path sp m')) as Hc2.
    { rewrite C2 Hidx. unfold ensured. rewrite Hgood. by destruct (content d (index_path sp m)). }
    destruct F2 as [W2 D2 I2 K2]. split; [done|intros dir; by rewrite D2 (fr_dirs _ _ _ F1)|..]; intros q Hq.
    - destruct (decide (q = index_path sp m')) as [->|Hne'].
      + destruct (lookup_ino d1 (index_path sp m')) as [j|] eqn:Ej.
        * rewrite (S2 _ Ej) -Ej. apply (fr_ino _ _ _ F1). intros E. by apply (index_ne_manifest sp m').
        * exfalso. apply content_none in Ej; [|apply F1]. rewrite Hidx in Ej. by rewrite Ej in Hgood.
      + rewrite I2; [|apply (fr_ino _ _ _ F1); naive_solver].
        intros [?|(id & Hid & -> & Hn)]; [done|]. apply Hq. right. exists id. by rewrite -Hdata.
    - destruct (decide (q = index_path sp m')) as [->|Hne']; [rewrite Hc2; apply (fr_content _ _ _ F1); intros E; by apply (index_ne_manifest sp m')|].
      rewrite K2; [|apply (fr_content _ _ _ F1); naive_solver].
      intros [?|(id & Hid & -> & Hn)]; [done|]. apply Hq. right. exists id. by rewrite -Hdata. }
  pose proof (du_manifest _ _ _ _ _ Hd2) as Hm2. apply content_ino in Hm2 as (i & Hi2 & _).
  repeat mstep. cbn [slotPath_ set_rt_manifest set_runtime]. unfold GetFileIdentity. mstep. cbn beta.
  change (sp, MANIFEST_FILE) with (manifest_path sp). rewrite Hi2. apply wpm_modify.
  specialize (HQ d2 i Hd2 Hr2 Hi2 F). setoid_rewrite Hdata in Hall. specialize (HQ Hall). unfold set_rt_inode, set_rt_manifest, set_runtime. cbn. rewrite Hrt. exact HQ.
Qed.

(** ** Opening the writer *)
Lemma last_data ids l : last ids = Some l → last (FormatDataFileName <$> ids) = Some (FormatDataFileName l).
Proof. intros H. by rewrite fmap_last H. Qed.

(** On files that are in order, [Init] opens the descriptors and leaves the disk alone. *)
Lemma wpm_init_writer (C : disk → Prop) (Q : Slot → res unit → disk → Prop) s d m ids rs l sd :
  let sp := slotPath_ s in
  disk_wf d → has_dir d sp → manifest_state m ids → content d (index_path sp m) = Some (WriteHeader ++ encode_all rs) →
  last ids = Some l → content d (data_path sp l) = Some sd →
  (∀ w, activeIndexFd_ w = lookup_ino d (index_path sp m) → activeIndexSize_ w = zsize (WriteHeader ++ encode_all rs) →
     activeDataFd_ w = lookup_ino d (data_path sp l) → activeDataFileId_ w = l → activeDataSize_ w = zsize sd →
     Q (set_writer w s) (Ok tt) d) →
  wpm C (init_writer m) Q s d.
Proof.
  intros sp Hwf Hdir (_ & _ & _ & _ & Hi & Hdata & _ & Hids) Hidx Hl Hsd HQ.
  assert (id_ok l) as Hlok. { rewrite Forall_forall in Hids. apply Hids. by eapply last_Some_elem_of. }
  destruct (content_ino _ _ _ Hidx) as (fi & Hfi & Hci). destruct (content_ino _ _ _ Hsd) as (fd & Hfd & Hcd).
  unfold init_writer, wpm. apply wp_bind. unfold Init, nonempty. fold sp. rewrite bool_decide_false; [by destruct Hi as [[? _] _]|].
  cbn [negb]. apply wp_bind. unfold open_index. apply wp_bind_ok. change (sp, m_activeIndex m) with (index_path sp m).
  apply wp_EnsureIndexFile; [done|done|by destruct Hi as [[? _] _]| |].
  { intros k d'. by rewrite Hidx good_header_ok. }
  intros d' _ _ _ Hd'. rewrite Hd'; [by rewrite Hidx good_header_ok|].
  apply wp_bind_ok, wp_query. rewrite Hfi. apply wp_bind, wp_query. rewrite Hci. cbn [default from_option id]. apply wp_ret.
  unfold Init_data. rewrite Hdata (last_data _ _ Hl) ParseDataFileId_Format; [unfold id_ok in Hlok; lia|].
  apply wp_bind. unfold open_data. apply wp_bind_ok. change (sp, FormatDataFileName l) with (data_path sp l).
  apply wp_EnsureFile; [done|done| | |].
  { unfold data_path, FormatDataFileName. cbn. done. }
  2: { intros ? Hn. congruence. }
  intros _ _. apply wp_bind_ok, wp_query. rewrite Hfd. apply wp_bind, wp_query. rewrite Hcd. cbn [default from_option id].
  apply wp_ret, wp_ret. cbn [activeIndexFd_ activeIndexSize_ lastFlushMs_]. apply wp_ret. cbn [fst snd].
  apply HQ; cbn; [by rewrite Hfi|done|by rewrite Hfd|done|done].
Qed.

(** ** Payloads *)
Lemma split_z_app n s : (split_z n s).1 ++ (split_z n s).2 = s.
Proof.
  revert n. induction s as [|c s IH]; intros n; cbn [split_z]; [done|]. destruct (n <=? 0); [done|].
  specialize (IH (n - 1)). destruct (split_z (n - 1) s) as [a b]. cbn in *. by rewrite IH.
Qed.

Lemma split_z_progress n c s : 0 < n → (List.length (split_z n (c :: s)).2 ≤ List.length s)%nat.
Proof.
  intros Hn. cbn [split_z]. destruct (Z.leb_spec n 0) as [|_]; [lia|]. pose proof (split_z_app (n - 1) s) as H.
  destruct (split_z (n - 1) s) as [a b]. cbn in *. rewrite -H length_app. lia.
Qed.

Lemma concat_chunks fuel s : (List.length s ≤ fuel)%nat → List.concat (chunks fuel s) = s.
Proof.
  revert s. induction fuel as [|fuel IH]; intros [|c s] Hl; cbn [chunks]; try done; [cbn in Hl; lia|].
  pose proof (split_z_app SLOT_IO_CHUNK_BYTES (c :: s)) as H.
  pose proof (split_z_progress SLOT_IO_CHUNK_BYTES c s ltac:(by vm_compute)) as Hp.
  destruct (split_z SLOT_IO_CHUNK_BYTES (c :: s)) as [a b]. cbn [fst snd List.concat] in *. cbn in Hl. rewrite IH; [lia|done].
Qed.

Lemma concat_stream body : List.concat (stream_chunks body) = body.
Proof. by apply concat_chunks. Qed.

Lemma i64_id z : 0 ≤ z ≤ SSIZE_MAX → i64 z = z.
Proof. unfold SSIZE_MAX. intros H. apply i64_small. unfold INT64_MAX. lia. Qed.

Lemma zsize_nonneg s : 0 ≤ zsize s.
Proof. unfold zsize. lia. Qed.

(** The chunks of a payload are appended to the active data file. *)
Lemma wp_AppendChunks (C : disk → Prop) Q p fd cs : ∀ w first written sd d,
  disk_wf d → lookup_ino d p = Some fd → content d p = Some sd → activeDataFd_ w = Some fd → activeDataSize_ w = zsize sd →
  0 ≤ written → written ≤ zsize sd → zsize sd + zsize (List.concat cs) ≤ SSIZE_MAX →
  (∀ d' u, wrote d d' p (sd ++ u) → C d') →
  (∀ d' w', wrote d d' p (sd ++ List.concat cs) →
     w' = MkWriter (activeDataFd_ w) (activeIndexFd_ w) (activeDataFileId_ w) (zsize (sd ++ List.concat cs)) (activeIndexSize_ w)
            (bufferedBytes_ w) (pendingOps_ w) (lastFlushMs_ w) →
     Q (w', Ok (default (match cs with [] => 0 | _ => zsize sd end) first, written + zsize (List.concat cs))) d') →
  wp C (AppendChunks cs w first written) Q d.
Proof.
  induction cs as [|c cs IH]; intros w first written sd d Hwf Hp Hs Hfd Hsz Hw0 Hw1 Hmax HC HQ; cbn [AppendChunks].
  - apply wp_ret. cbn [List.concat] in *. rewrite app_nil_r in HQ. change (zsize []) with 0 in *. rewrite Z.add_0_r in HQ.
    apply HQ; [|rewrite -Hsz; by destruct w]. split; [by apply frame_refl|done].
  - cbn [List.concat] in *. rewrite zsize_app in Hmax. pose proof (zsize_nonneg c). pose proof (zsize_nonneg (List.concat cs)).
    pose proof (zsize_nonneg sd). apply wp_bind. unfold AppendData. rewrite Hfd Hsz i64_id; [lia|]. apply wp_bind_ok.
    eapply wp_append; [done..|unfold SSIZE_MAX in *; lia| |].
    + intros k d' _ Hwr. by eapply HC.
    + intros d1 Hwr. apply wp_ret. destruct Hwr as (F1 & C1 & L1). rewrite Hp in L1.
      assert (u64 (zsize sd + zsize c) = zsize (sd ++ c)) as Hu by (rewrite zsize_app; apply u64_small; unfold SSIZE_MAX in *; lia).
      assert (u64 (written + zsize c) = written + zsize c) as Hu2 by (apply u64_small; unfold SSIZE_MAX in *; lia).
      rewrite Hu Hu2. rewrite zsize_app in Hu.
      assert (∀ d' x, wrote d1 d' p x → wrote d d' p x) as Htr.
      { intros d' x Hx. eapply wrote_trans; [|exact Hx]. split; [done|]. by rewrite L1. }
      eapply (IH _ _ _ (sd ++ c)); [apply F1|done|done|done|done|lia|rewrite zsize_app; lia|rewrite zsize_app; lia| |].
      * intros d' u Hx. apply (HC d' (c ++ u)). apply Htr. by rewrite app_assoc.
      * intros d' w' Hx ->. rewrite -app_assoc in Hx. apply Htr in Hx. specialize (HQ _ _ Hx eq_refl).
        cbn [activeDataFd_ activeIndexFd_ activeDataFileId_ activeIndexSize_ bufferedBytes_ pendingOps_ lastFlushMs_].
        rewrite -app_assoc. rewrite (zsize_app c) Z.add_assoc Hfd in HQ. destruct first; exact HQ.
Qed.

Lemma overwrite_app s o a b : (o ≤ List.length s)%nat → overwrite (overwrite s o a) (o + List.length a) b = overwrite s o (a ++ b).
Proof.
  revert s o. induction a as [|x a IH]; intros s o Ho; cbn [List.length app].
  - by rewrite Nat.add_0_r overwrite_nil.
  - rewrite -(overwrite_step s o x a); [done|]. rewrite -(overwrite_step s o x (a ++ b)); [done|].
    replace (o + S (List.length a))%nat with (S o + List.length a)%nat by lia. apply IH. rewrite length_overwrite; [done|]. cbn. lia.
Qed.

(** The chunks of a payload are written over the start of a data file. *)
Lemma wp_WriteChunks (C : disk → Prop) Q p fd s0 cs : ∀ pre d,
  disk_wf d → lookup_ino d p = Some fd → content d p = Some (overwrite s0 0 pre) →
  zsize pre + zsize (List.concat cs) ≤ SSIZE_MAX →
  (∀ d', frame (eq p) d d' → C d') →
  (∀ d', wrote d d' p (overwrite s0 0 (pre ++ List.concat cs)) → Q (Ok (zsize pre + zsize (List.concat cs))) d') →
  wp C (WriteChunks fd cs (zsize pre)) Q d.
Proof.
  induction cs as [|c cs IH]; intros pre d Hwf Hp Hs Hmax HC HQ; cbn [WriteChunks List.concat] in *.
  - apply wp_ret. rewrite app_nil_r in HQ. change (zsize []) with 0 in HQ. rewrite Z.add_0_r in HQ. apply HQ.
    split; [by apply frame_refl|done].
  - rewrite zsize_app in Hmax. pose proof (zsize_nonneg c). pose proof (zsize_nonneg (List.concat cs)). pose proof (zsize_nonneg pre).
    rewrite i64_id; [lia|]. apply wp_bind_ok.
    assert (List.length (overwrite s0 0 pre) = Nat.max (List.length s0) (List.length pre)) as Hlen by (rewrite length_overwrite; lia).
    assert (overwrite (overwrite s0 0 pre) (Z.to_nat (zsize pre)) c = overwrite s0 0 (pre ++ c)) as Ho.
    { unfold zsize. rewrite Nat2Z.id. apply (overwrite_app s0 0 pre c). lia. }
    eapply wp_WriteFile; [done..|lia|unfold zsize; lia|unfold SSIZE_MAX in *; lia| |].
    + intros k d' _ (F & _). by apply HC.
    + rewrite Ho. intros d1 (F1 & C1 & L1). rewrite Hp in L1.
      assert (u64 (zsize pre + zsize c) = zsize (pre ++ c)) as -> by (rewrite zsize_app; apply u64_small; unfold SSIZE_MAX in *; lia).
      apply IH; [apply F1|done|done|rewrite zsize_app; lia| |].
      * intros d' F. apply HC. by eapply disk_frame_trans.
      * intros d' Hx. rewrite -app_assoc in Hx. specialize (HQ d'). rewrite (zsize_app c) in HQ. rewrite zsize_app -Z.add_assoc.
        apply HQ. eapply wrote_trans; [|exact Hx]. split; [done|]. by rewrite L1.
Qed.

(** ** The index *)
Lemma snap_put rs p : closed all_valid rs → replay_state all_valid (rs ++ [PUT p]) = MkReplaying (ApplyPut p (snap rs)) None.
Proof. intros Hc. by rewrite replay_closed; [done|repeat constructor|]. Qed.
Lemma snap_delete rs x : closed all_valid rs → replay_state all_valid (rs ++ [DELETE x]) = MkReplaying (ApplyDelete x (snap rs)) None.
Proof. intros Hc. by rewrite replay_closed; [done|repeat constructor|]. Qed.

Lemma represents_put d sp rs σ p body :
  closed all_valid rs → represents d sp rs σ → bytes_of d sp p = Some body →
  represents d sp (rs ++ [PUT p]) (spec_save (put_key p) (put_version p) body σ).
Proof.
  intros Hc [H1 H2] Hb. unfold represents, snap, snapshot_of. rewrite snap_put; [done|]. cbn [rep_snapshot spec_save objects deleted].
  split; [|done]. intros k v. rewrite put_at_ApplyPut. destruct (decide ((k, v) = (put_key p, put_version p))) as [[= -> ->]|Hne].
  - by rewrite lookup_insert_eq bool_decide_true.
  - rewrite lookup_insert_ne; [congruence|]. rewrite bool_decide_false; [intros [-> ->]; done|]. apply H1.
Qed.

Lemma represents_delete d sp rs σ x :
  closed all_valid rs → represents d sp rs σ → represents d sp (rs ++ [DELETE x]) (spec_delete (del_key x) (del_version x) σ).
Proof.
  intros Hc [H1 H2]. unfold represents, snap, snapshot_of. rewrite snap_delete; [done|]. cbn [rep_snapshot spec_delete objects deleted].
  split; [exact H1|]. cbn [ApplyDelete deletedUpToByKey_]. by rewrite H2.
Qed.

(** A record is appended to the index of an open slot: a crash leaves the log without it or with it. *)
Lemma wp_append_record (C : disk → Prop) Q sp d m ids rs σ σ' r w :
  durable sp d m ids rs → represents d sp rs σ →
  content d (index_path sp m) = Some (WriteHeader ++ encode_all rs) →
  activeIndexFd_ w = lookup_ino d (index_path sp m) → activeIndexSize_ w = zsize (WriteHeader ++ encode_all rs) →
  record_ok r → closed all_valid (rs ++ [r]) → puts_stored d sp ids (rs ++ [r]) →
  represents d sp (rs ++ [r]) σ' → zsize (WriteHeader ++ encode_all (rs ++ [r])) ≤ SSIZE_MAX →
  (∀ d', holds sp σ d' ∨ holds sp σ' d' → C d') →
  (∀ d' w', durable sp d' m ids (rs ++ [r]) → represents d' sp (rs ++ [r]) σ' →
     frame (eq (index_path sp m)) d d' → lookup_ino d' (index_path sp m) = lookup_ino d (index_path sp m) →
     content d' (index_path sp m) = Some (WriteHeader ++ encode_all (rs ++ [r])) →
     w' = MkWriter (activeDataFd_ w) (activeIndexFd_ w) (activeDataFileId_ w) (activeDataSize_ w)
            (zsize (WriteHeader ++ encode_all (rs ++ [r]))) (bufferedBytes_ w) (pendingOps_ w) (lastFlushMs_ w) →
     Q (Ok w') d') →
  wp C (AppendIndexPayload (encode r) w) Q d.
Proof.
  intros Hd Hr Hidx Hfd Hsz Hok Hcl Hps Hr' Hmax HC HQ. assert (index_ok m) as Hi by apply (du_state _ _ _ _ _ Hd).
  destruct (content_ino _ _ _ Hidx) as (fi & Hfi & _). unfold AppendIndexPayload. rewrite Hfd Hfi Hsz.
  assert (encode_all (rs ++ [r]) = encode_all rs ++ encode r) as Henc.
  { rewrite encode_all_app. f_equal. unfold encode_all. cbn. by rewrite app_nil_r. }
  assert (zsize (WriteHeader ++ encode_all (rs ++ [r])) = zsize (WriteHeader ++ encode_all rs) + zsize (encode r)) as Hz.
  { by rewrite Henc app_assoc (zsize_app (WriteHeader ++ encode_all rs)). }
  pose proof (zsize_nonneg (WriteHeader ++ encode_all rs)). pose proof (zsize_nonneg (encode r)).
  apply wp_bind_ok. unfold AppendEncodedRecords_fd. rewrite bool_decide_false; [apply encode_ne|]. rewrite i64_id; [lia|].
  assert (∀ d', frame (eq (index_path sp m)) d d' → grows d d' sp ids) as Hgr.
  { intros d' F. apply grows_same. intros id _. apply (fr_content _ _ _ F). by apply index_ne_data. }
  assert (∀ d' rs', frame (eq (index_path sp m)) d d' → log_of d' (index_path sp m) rs' → Forall record_ok rs' →
    closed all_valid rs' → puts_stored d sp ids rs' → durable sp d' m ids rs') as Hdu.
  { intros d' rs' F Hl' Hok' Hcl' Hps'. split; [apply F| |apply Hd|done|done|done|eapply puts_stored_grow; [by apply Hgr|done]].
    rewrite (fr_content _ _ _ F); [by apply index_ne_manifest|apply Hd]. }
  assert (Forall record_ok (rs ++ [r])) as Hall by (apply Forall_app; split; [apply Hd|by constructor]).
  apply wp_bind_ok. eapply wp_append; [apply Hd|exact Hfi|exact Hidx|done|unfold SSIZE_MAX in *; lia| |].
  - intros k d' Hk (F & Cn & _). apply HC.
    destruct (log_prefix [r] ltac:(by constructor) k) as (n & t & E & Ht & _). change (encode_all [r]) with (encode r ++ []) in E.
    rewrite app_nil_r in E. rewrite E in Cn.
    assert (log_of d' (index_path sp m) (rs ++ take n [r])) as Hlog.
    { exists t. split; [|done]. rewrite Cn encode_all_app -!app_assoc. apply ensured_ok. }
    destruct n as [|n]; cbn [take] in Hlog; [left|right].
    + rewrite app_nil_r in Hlog. exists m, ids, rs.
      split; [apply Hdu; [done|done|apply Hd|apply Hd|apply Hd]|eapply represents_grow; [apply Hd|apply Hd|by apply Hgr|done]].
    + rewrite take_nil in Hlog. exists m, ids, (rs ++ [r]).
      split; [by apply Hdu|eapply represents_grow; [done|exact Hps|by apply Hgr|done]].
  - intros d' (F & Cn & L). apply wp_ret. rewrite -Hz u64_small; [unfold SSIZE_MAX in *; lia|]. apply wp_ret.
    rewrite -app_assoc -Henc in Cn. rewrite -Hfi -Hfd. eapply HQ; [|eapply represents_grow; [done|exact Hps|by apply Hgr|done]|done..].
    apply Hdu; [done|exists []|done..]. rewrite Cn app_nil_r. split; [apply ensured_ok|by left].
Qed.

(** ** The parts of Save *)
(** A slot keeps its path and its limits. *)
Definition same_config (s s' : Slot) : Prop :=
  slotPath_ s' = slotPath_ s ∧ maxDataFileBytes_ s' = maxDataFileBytes_ s ∧ slotId_ s' = slotId_ s
  ∧ sync_interval_ms s' = sync_interval_ms s ∧ sync_batch_bytes s' = sync_batch_bytes s ∧ now_ms s' = now_ms s
  ∧ transferIntentActive_ s' = transferIntentActive_ s.

Lemma same_config_refl s : same_config s s.
Proof. done. Qed.
Lemma same_config_trans s1 s2 s3 : same_config s1 s2 → same_config s2 s3 → same_config s1 s3.
Proof. intros (? & ? & ? & ? & ? & ? & ?) (? & ? & ? & ? & ? & ? & ?). repeat split; congruence. Qed.

(** The counters of the writer do not matter. *)
Definition same_files (w w' : SlotWriter) : Prop :=
  activeDataFd_ w' = activeDataFd_ w ∧ activeIndexFd_ w' = activeIndexFd_ w ∧ activeDataFileId_ w' = activeDataFileId_ w
  ∧ activeDataSize_ w' = activeDataSize_ w ∧ activeIndexSize_ w' = activeIndexSize_ w.

Lemma running_writer s d m ids rs w : running s d m ids rs → same_files (writer_ s) w → running (set_writer w s) d m ids rs.
Proof.
  intros [H1 H2 H3 H4 H5 (l & sd & H6 & H7 & H8 & H9 & H10)] (E1 & E2 & E3 & E4 & E5).
  split; cbn [slotPath_ set_writer writer_ runtime_]; [done|done|done|by rewrite E2|by rewrite E5|].
  exists l, sd. by rewrite E1 E3 E4.
Qed.

Lemma Flush_same_files now w : same_files w (Flush now w).
Proof. unfold Flush. by destruct (HasPendingWrites w). Qed.

Lemma wpm_Flush (C : disk → Prop) Q force s d m ids rs :
  running s d m ids rs → (∀ s', running s' d m ids rs → same_config s s' → Q s' (Ok tt) d) → wpm C (FlushRuntimeLocked force) Q s d.
Proof.
  intros Hr HQ. unfold FlushRuntimeLocked, wpm.
  assert (wp C (ret (s, Ok tt)) (λ x, Q x.1 x.2) d) as H1 by (apply wp_ret; by apply HQ).
  assert (wp C (ret (set_writer (Flush (now_ms s) (writer_ s)) s, Ok tt)) (λ x, Q x.1 x.2) d) as H2.
  { apply wp_ret. apply HQ; [|done]. apply running_writer; [done|apply Flush_same_files]. }
  destruct (negb _); [done|]. by destruct (negb force && _).
Qed.

(** What a put needs to be recorded: its bytes are in a file of the slot. *)
Definition put_ready (d : disk) (sp : chars) (ids : list Z) (fileId offset size : Z) (body : chars) : Prop :=
  fileId ∈ ids ∧ 0 ≤ offset < 2 ^ 64 ∧ ∃ s, content d (data_path sp fileId) = Some s ∧ offset + size ≤ zsize s
  ∧ take (Z.to_nat size) (drop (Z.to_nat offset) s) = body.

(** The payload is appended to the active data file. *)
Lemma wpm_append_payload (C : disk → Prop) (Q : Slot → res Z → disk → Prop) s d m ids rs σ body :
  running s d m ids rs → represents d (slotPath_ s) rs σ → activeDataSize_ (writer_ s) + zsize body ≤ SSIZE_MAX →
  (∀ d', holds (slotPath_ s) σ d' → C d') →
  (∀ s' d' offset, running s' d' m ids rs → represents d' (slotPath_ s) rs σ → same_config s s' →
     put_ready d' (slotPath_ s) ids (activeDataFileId_ (writer_ s)) offset (zsize body) body → Q s' (Ok offset) d') →
  wpm C (AppendPayloadToActiveFileLocked body (zsize body)) Q s d.
Proof.
  intros Hrun Hrep Hmax HC HQ. destruct (ru_data _ _ _ _ _ Hrun) as (l & sd & Hl & Hsd & Hfd & Hid & Hsz).
  pose proof (ru_durable _ _ _ _ _ Hrun) as Hd. assert (index_ok m) as Hi by apply (du_state _ _ _ _ _ Hd).
  set (sp := slotPath_ s) in *. assert (l ∈ ids) as Hlin by (by eapply last_Some_elem_of).
  assert (Forall id_ok ids) as Hids by apply (du_state _ _ _ _ _ Hd).
  destruct (content_ino _ _ _ Hsd) as (fd & Hino & _).
  assert (∀ d' u, wrote d d' (data_path sp l) (sd ++ u) → durable sp d' m ids rs ∧ represents d' sp rs σ) as Hkeep.
  { intros d' u (F & Cn & _).
    assert (grows d d' sp ids) as Hg.
    { intros id x Hx Hc. destruct (decide (id = l)) as [->|Hne].
      - exists u. rewrite Hsd in Hc. injection Hc as <-. exact Cn.
      - exists []. rewrite app_nil_r (fr_content _ _ _ F); [|done]. intros E. apply Hne. rewrite Forall_forall in Hids.
        apply data_path_inj in E; [done|by apply Hids..]. }
    split; [|eapply represents_grow; [apply Hd|apply Hd|done..]].
    eapply durable_grow; [done|apply Hd|apply F| | |done].
    - apply (fr_content _ _ _ F). apply data_ne_manifest.
    - eapply log_of_same; [|apply Hd]. apply (fr_content _ _ _ F). intros E. by apply (index_ne_data sp m l). }
  unfold AppendPayloadToActiveFileLocked, wpm. apply wp_bind. pose proof (zsize_nonneg body). pose proof (zsize_nonneg sd).
  eapply (wp_AppendChunks _ _ (data_path sp l) fd _ _ _ _ sd); [apply Hd|done|done|by rewrite Hfd|done|lia|lia|rewrite concat_stream; lia| |].
  - intros d' u Hw. apply HC. destruct (Hkeep _ _ Hw). by exists m, ids, rs.
  - intros d' w' Hw ->. rewrite concat_stream in Hw |- *. rewrite Z.add_0_l. apply wp_ret. cbn [fst snd]. rewrite Z.eqb_refl.
    destruct (Hkeep _ _ Hw) as [Hd' Hr']. destruct Hw as (F & Cn & L).
    assert (∀ p, p ≠ data_path sp l → content d' p = content d p ∧ lookup_ino d' p = lookup_ino d p) as Hoth.
    { intros p Hp. split; [apply (fr_content _ _ _ F)|apply (fr_ino _ _ _ F)]; congruence. }
    eapply HQ; [|done|done|].
    + destruct Hrun as [_ (i & H2a & H2b) H3 H4 H5 _].
      split; cbn [slotPath_ set_writer writer_ runtime_ activeDataFd_ activeIndexFd_ activeDataFileId_ activeDataSize_ activeIndexSize_]; fold sp.
      * done.
      * exists i. split; [|done]. destruct (Hoth (manifest_path sp)) as [_ ->]; [|done]. intros E. by apply (data_ne_manifest sp l).
      * destruct (Hoth (index_path sp m)) as [-> _]; [|done]. by apply index_ne_data.
      * rewrite H4. destruct (Hoth (index_path sp m)) as [_ ->]; [|done]. by apply index_ne_data.
      * done.
      * exists l, (sd ++ body). split_and!; [done|done|by rewrite L Hfd|done|done].
    + rewrite Hid. split; [done|]. unfold SSIZE_MAX in *.
      destruct (stream_chunks body) as [|c cs] eqn:Ecs.
      * pose proof (concat_stream body) as Hb. rewrite Ecs in Hb. cbn in Hb. subst body. cbn [default from_option]. split; [lia|].
        exists (sd ++ []). split; [done|]. change (zsize []) with 0. split; [|done]. rewrite zsize_app. change (zsize []) with 0. lia.
      * cbn [default from_option]. split; [lia|]. exists (sd ++ body). split; [done|]. rewrite zsize_app. split; [lia|].
        unfold zsize. by rewrite !Nat2Z.id drop_app_length take_ge.
Qed.

End SlotStore.
