(* ===== verification/SlotRefine.v ===== *)
(** * SlotRefine: a slot implements the store

    The operations of [Slot.v] against the store of [SlotStore.v]: a slot that is opened, on a new directory or on
    what a crash has left, represents a store; [Save] and [Delete] take it to the store that [spec_save] and
    [spec_delete] give and, if they are cut off at any point, leave a disk that holds the store before or the
    store after; [Get] returns what [spec_get] says. *)
From S2P Require Import Prelude NetUtil KeyHelper SlotFile SlotIndex SlotManifest SlotSnapshot SlotPlan Slot SlotStore.
From Stdlib Require Import Ascii String.
Import NetUtil KeyHelper SlotFile FileUtil SlotNames DiskSpec SlotIndex SlotText SlotManifest SlotSnapshot.
Import SlotWriter Slot SlotFiles SlotTransfer SlotOps SlotStore.

Module SlotRefine.
Local Open Scope Z_scope.

(** Replaces the program of the goal by one it is convertible to. *)
Ltac as_method p := lazymatch goal with |- wpm ?C _ ?Q ?s ?d => change (wpm C p Q s d) end.

(** ** Sizes *)
(** No file has 2^62 bytes. *)
Definition small (d : disk) : Prop := ∀ p s, content d p = Some s → zsize s < 2 ^ 62.

Lemma digits_of_length fuel n acc : (List.length (digits_of fuel n acc) ≤ fuel + List.length acc)%nat.
Proof.
  revert n acc. induction fuel as [|fuel IH]; intros n acc; cbn [digits_of]; [lia|].
  destruct (n / 10 =? 0); [cbn [List.length]; lia|]. etransitivity; [apply IH|]. cbn [List.length]. lia.
Qed.

Lemma zsize_data_name id : zsize (FormatDataFileName id) ≤ 29.
Proof.
  unfold zsize, FormatDataFileName, pad0. rewrite !length_app length_replicate.
  pose proof (digits_of_length 20 id []) as H. change (digits_of 20 id []) with (u64_to_string id) in H. cbn [List.length] in H.
  change (List.length (lit_str "data_")) with 5%nat. change (List.length (lit_str ".bin")) with 4%nat. lia.
Qed.

Lemma zsize_cons c s : zsize (c :: s) = 1 + zsize s.
Proof. unfold zsize. cbn [List.length]. lia. Qed.

Lemma zsize_join_insert c a b x : zsize (JoinVector c (a ++ x :: b)) ≤ zsize (JoinVector c (a ++ b)) + zsize x + 1.
Proof.
  pose proof (zsize_nonneg x) as Hx. induction a as [|y a IH]; cbn [app].
  - destruct b as [|z b]; cbn [JoinVector]; [unfold zsize at 2; cbn; lia|]. rewrite zsize_app zsize_cons. lia.
  - destruct a as [|z a].
    + cbn [app JoinVector] in *. destruct b as [|w b]; cbn [JoinVector] in *; rewrite ?zsize_app ?zsize_cons ?zsize_app ?zsize_cons; lia.
    + cbn [app] in *. cbn [JoinVector] in *. rewrite !zsize_app !zsize_cons. cbn [JoinVector] in IH. lia.
Qed.

(** The text of a manifest around the names of its data files. *)
Lemma zsize_Encode m : ∃ k, ∀ x, zsize (Encode (set_activeData x m)) = k + zsize (JoinVector "," x).
Proof.
  exists (zsize (text_of (take 13 (manifest_fields m))) + zsize (lit_str "active_data=") + 1 + zsize (text_of (drop 14 (manifest_fields m)))).
  intros x. set (pre := take 13 _). set (post := drop 14 _).
  assert (Encode (set_activeData x m) = text_of pre ++ (lit_str "active_data=" ++ JoinVector "," x) ++ [newline] ++ text_of post) as ->.
  { unfold Encode, text_of. change (manifest_fields (set_activeData x m)) with (pre ++ (lit_str "active_data", JoinVector "," x) :: post).
    rewrite fmap_app concat_app. f_equal. cbn [fmap list_fmap List.concat]. unfold line_of at 1. cbn [fst snd]. by rewrite -!app_assoc. }
  rewrite (zsize_app (text_of pre)) (zsize_app (lit_str "active_data=" ++ _)) (zsize_app (lit_str "active_data=")) (zsize_app [newline]).
  change (zsize [newline]) with 1. lia.
Qed.

Lemma set_activeData_id m : set_activeData (m_activeData m) m = m.
Proof. by destruct m. Qed.

(** A manifest that lists one more file. *)
Lemma zsize_manifest_more m a b id : m_activeData m = a ++ b →
  zsize (Encode (set_activeData (a ++ FormatDataFileName id :: b) m)) ≤ zsize (Encode m) + 30.
Proof.
  intros E. destruct (zsize_Encode m) as [k Hk]. rewrite -{2}(set_activeData_id m) E !Hk.
  pose proof (zsize_join_insert "," a b (FormatDataFileName id)). pose proof (zsize_data_name id). lia.
Qed.

Lemma zsize_encode r : record_ok r → zsize (encode r) < 2 ^ 33.
Proof.
  assert (∀ n z, zsize (Raw n z) = Z.of_nat n) as HR by (intros; unfold zsize; by rewrite length_Raw).
  destruct r as [p|x|t|t]; cbn [record_ok]; [intros ((_ & Hk) & _)|intros ((_ & Hk) & _)|intros (_ & Hk)..];
    unfold encode, with_crc, put_payload, delete_payload, import_payload; rewrite !zsize_app !HR; lia.
Qed.

(** ** Names of new files *)
Definition max_id (ids : list Z) : Z := foldl Z.max 0 ids.

Lemma max_active_id_spec ids a : Forall id_ok ids → max_active_id (FormatDataFileName <$> ids) a = Ok (foldl Z.max a ids).
Proof.
  intros H. revert a. induction H as [|id ids Hid Hids IH]; intros a; cbn [fmap list_fmap max_active_id foldl]; [done|].
  rewrite ParseDataFileId_Format; [unfold id_ok in Hid; lia|]. cbn [res_bind]. apply IH.
Qed.

Lemma foldl_max_le ids a : a ≤ foldl Z.max a ids ∧ ∀ id, id ∈ ids → id ≤ foldl Z.max a ids.
Proof.
  revert a. induction ids as [|x ids IH]; intros a; cbn [foldl]; [split; [lia|by intros ? ?%elem_of_nil]|].
  destruct (IH (Z.max a x)) as [H1 H2]. split; [lia|]. intros id [-> |?]%elem_of_cons; [lia|by apply H2].
Qed.

(** The next number is not taken. *)
Lemma next_id ids : max_id ids < 2 ^ 32 - 1 → id_ok (max_id ids + 1) ∧ ¬ (max_id ids + 1 ∈ ids) ∧ u32 (max_id ids + 1) = max_id ids + 1.
Proof.
  intros H. unfold max_id in *. destruct (foldl_max_le ids 0) as [H1 H2]. unfold id_ok, u32.
  split_and!; [lia|lia| |apply Z.mod_small; lia]. intros ?%H2. lia.
Qed.

Lemma wpm_allocate (C : disk → Prop) (Q : Slot → res Z → disk → Prop) s d ids :
  rt_initialized (runtime_ s) = true → m_activeData (rt_manifest (runtime_ s)) = FormatDataFileName <$> ids →
  Forall id_ok ids → max_id ids < 2 ^ 32 - 1 → Q s (Ok (max_id ids + 1)) d → wpm C AllocateNextDataFileIdLocked Q s d.
Proof.
  intros Hrt Hm Hids Hroom HQ. unfold AllocateNextDataFileIdLocked, wpm. rewrite Hrt.
  apply wpm_then, wpm_lift, wp_ret. rewrite Hm max_active_id_spec; [done|]. apply wpm_done.
  destruct (next_id ids Hroom) as (_ & _ & E). unfold max_id in *. by rewrite E.
Qed.

(** ** Data files of Save *)
(** The slot keeps running on a manifest that lists more data files. *)
Lemma running_more s d d' m m' ids ids' rs i :
  running s d m ids rs → durable (slotPath_ s) d' m' ids' rs → m_activeIndex m' = m_activeIndex m →
  lookup_ino d' (manifest_path (slotPath_ s)) = Some i → last ids' = last ids →
  frame (λ q, q = manifest_path (slotPath_ s) ∨ missing_data d (slotPath_ s) ids' q) d d' →
  running (set_runtime (MkRuntime m' (snap rs) i true) s) d' m' ids' rs.
Proof.
  intros [Hd (j & _ & Hrt) H3 H4 H5 (l & sd & Hl & Hsd & H8 & H9 & H10)] Hd' Hix Hi Hlast F.
  assert (index_ok m) as Hok by apply (du_state _ _ _ _ _ Hd). set (sp := slotPath_ s) in *.
  assert (index_path sp m' = index_path sp m) as Ep by (unfold index_path; by rewrite Hix).
  assert (∀ q, q ≠ manifest_path sp → is_Some (content d q) → content d' q = content d q ∧ lookup_ino d' q = lookup_ino d q) as Hk.
  { intros q Hq [x Hx]. assert (¬ (q = manifest_path sp ∨ missing_data d sp ids' q)) as Hn.
    { intros [?|(id & _ & _ & Hn)]; [done|congruence]. }
    split; [by apply (fr_content _ _ _ F)|by apply (fr_ino _ _ _ F)]. }
  destruct (Hk (index_path sp m)) as [Ki1 Ki2]; [by apply index_ne_manifest|by rewrite H3; eauto|].
  destruct (Hk (data_path sp l)) as [Kd1 Kd2]; [apply data_ne_manifest|by rewrite Hsd; eauto|].
  split; cbn [slotPath_ set_runtime writer_ runtime_]; fold sp; rewrite ?Ep.
  - done.
  - eauto.
  - by rewrite Ki1.
  - by rewrite Ki2.
  - done.
  - exists l, sd. rewrite Hlast Kd1 Kd2. done.
Qed.

(** The writer is opened on the last data file of the manifest. *)
Lemma wpm_reopen (C : disk → Prop) (Q : Slot → res unit → disk → Prop) s d m ids rs i :
  let sp := slotPath_ s in
  durable sp d m ids rs → content d (index_path sp m) = Some (WriteHeader ++ encode_all rs) →
  lookup_ino d (manifest_path sp) = Some i → runtime_ s = MkRuntime m (snap rs) i true →
  (∀ id, id ∈ ids → is_Some (content d (data_path sp id))) →
  (∀ s', running s' d m ids rs → same_config s s' → Q s' (Ok tt) d) →
  wpm C (init_writer m) Q s d.
Proof.
  intros sp Hd Hidx Hi Hrt Hall HQ. assert (ids ≠ []) as Hne by apply (du_state _ _ _ _ _ Hd).
  destruct (last ids) as [l|] eqn:Hl; [|by apply last_None in Hl].
  destruct (Hall l) as [sd Hsd]; [by eapply last_Some_elem_of|].
  eapply wpm_init_writer; [apply Hd|by eapply durable_dir|apply Hd|exact Hidx|done|exact Hsd|].
  intros w W1 W2 W3 W4 W5. apply HQ; [|done].
  split; cbn [slotPath_ set_writer writer_ runtime_]; fold sp; [done|by exists i|done|done|done|]. by exists l, sd.
Qed.

Lemma small_index d p rs : small d → content d p = Some (WriteHeader ++ encode_all rs) → zsize (WriteHeader ++ encode_all rs) < 2 ^ 62.
Proof. intros H E. by apply H in E. Qed.

Section allocate.
Context (s : Slot) (d : disk) (m : SlotManifestData) (ids : list Z) (rs : list SlotRecord) (σ : store).
Let sp := slotPath_ s.
Hypothesis Hrun : running s d m ids rs.
Hypothesis Hrep : represents d sp rs σ.
Hypothesis Hroom : max_id ids < 2 ^ 32 - 1.
Hypothesis Hsmall : small d.

(** The manifest gets one more data file, after the files [a]. *)
Lemma wpm_add_file (C : disk → Prop) Q a b :
  let n := max_id ids + 1 in
  let m' := set_activeData (FormatDataFileName <$> (a ++ n :: b)) m in
  ids = a ++ b → (∀ d', holds sp σ d' → C d') →
  (∀ d' i, durable sp d' m' (a ++ n :: b) rs → represents d' sp rs σ → lookup_ino d' (manifest_path sp) = Some i →
     frame (λ q, q = manifest_path sp ∨ missing_data d sp (a ++ n :: b) q) d d' →
     (∀ id, id ∈ a ++ n :: b → ∃ x, content d' (data_path sp id) = Some x ∧ zsize x < 2 ^ 62) →
     Q (set_runtime (MkRuntime m' (snap rs) i true) s) (Ok tt) d') →
  wpm C (PersistManifest m') Q (set_rt_manifest m' s) d.
Proof.
  intros n m' Hids HC HQ. destruct (next_id ids Hroom) as (Hn & Hnin & _). fold n in Hn, Hnin.
  pose proof (ru_durable _ _ _ _ _ Hrun) as Hd. destruct (ru_manifest _ _ _ _ _ Hrun) as (j & _ & Hrt).
  pose proof (du_state _ _ _ _ _ Hd) as (_ & _ & _ & _ & _ & Hdata & _ & Hall).
  apply (wpm_PersistManifest _ _ (set_rt_manifest m' s) d m ids rs σ (a ++ n :: b)); [exact Hd|exact Hrep|by cbn; rewrite Hrt| | | | |exact HC|].
  - cbn [slotPath_ set_rt_manifest set_runtime]. rewrite (ru_index _ _ _ _ _ Hrun). apply good_header_ok.
  - rewrite Hids. intros x. rewrite !elem_of_app elem_of_cons. tauto.
  - rewrite Hids in Hall. apply Forall_app in Hall as [? ?]. by apply Forall_app; split; [|constructor].
  - rewrite fmap_app fmap_cons. etransitivity; [apply zsize_manifest_more; by rewrite Hdata Hids fmap_app|].
    pose proof (Hsmall _ _ (du_manifest _ _ _ _ _ Hd)). unfold SSIZE_MAX. lia.
  - intros d' i D R Hi F Hex. cbn [slotPath_ set_rt_manifest set_runtime runtime_ rt_snapshot] in *. rewrite Hrt. cbn [rt_snapshot].
    apply HQ; [done..|]. intros id Hid. exists (default [] (content d (data_path sp id))). split; [by apply Hex|].
    destruct (content d (data_path sp id)) as [y|] eqn:Ey; cbn [default from_option]; [by eapply Hsmall|]. unfold zsize. cbn. lia.
Qed.

End allocate.

(** [RotateWritableDataFileLocked]: the slot keeps its contents, and the active file has the number returned. *)
Lemma wpm_rotate (C : disk → Prop) (Q : Slot → res Z → disk → Prop) s d m ids rs σ size :
  running s d m ids rs → represents d (slotPath_ s) rs σ → max_id ids < 2 ^ 32 - 1 → small d →
  (∀ d', holds (slotPath_ s) σ d' → C d') →
  (∀ s' d' m' ids', running s' d' m' ids' rs → represents d' (slotPath_ s) rs σ → same_config s s' →
     activeDataSize_ (writer_ s') < 2 ^ 62 → Q s' (Ok (activeDataFileId_ (writer_ s'))) d') →
  wpm C (RotateWritableDataFileLocked size) Q s d.
Proof.
  intros Hrun Hrep Hroom Hsmall HC HQ. pose proof (ru_durable _ _ _ _ _ Hrun) as Hd.
  destruct (ru_manifest _ _ _ _ _ Hrun) as (j & Hj & Hrt).
  pose proof (du_state _ _ _ _ _ Hd) as (_ & _ & _ & _ & Hi & Hdata & Hne & Hall).
  unfold RotateWritableDataFileLocked, wpm. rewrite Hrt. cbn [rt_initialized rt_manifest].
  rewrite Hdata bool_decide_false; [by destruct ids|]. apply wpm_then, wpm_done. apply wpm_then, wpm_read.
  destruct (u64 _ <=? _) eqn:Esz.
  { apply wpm_done. apply (HQ s d m ids Hrun Hrep); [done|].
    destruct (ru_data _ _ _ _ _ Hrun) as (l & sd & _ & Hsd & _ & _ & ->). by eapply Hsmall. }
  apply wpm_then. eapply wpm_Flush; [exact Hrun|]. intros s1 Hrun1 Hcfg. apply wpm_then.
  assert (slotPath_ s1 = slotPath_ s) as Hsp by apply Hcfg. rewrite -Hsp in HC, HQ, Hrep.
  destruct (ru_manifest _ _ _ _ _ Hrun1) as (j1 & Hj1 & Hrt1).
  apply (wpm_allocate _ _ s1 d ids); [by rewrite Hrt1|by rewrite Hrt1|done|done|]. cbn [rt_manifest].
  apply wpm_then, wpm_modify, wpm_then, wpm_read, wpm_then. rewrite Hrt1. cbn [rt_manifest]. rewrite Hdata.
  change ((FormatDataFileName <$> ids) ++ [FormatDataFileName (max_id ids + 1)])
    with ((FormatDataFileName <$> ids) ++ (FormatDataFileName <$> [max_id ids + 1])). rewrite -fmap_app.
  eapply (wpm_add_file s1 d m ids rs σ Hrun1 Hrep Hroom Hsmall _ _ ids []); [by rewrite app_nil_r|done|].
  intros d' i D R Hi' F Hex. apply wpm_then, wpm_read, wpm_then. cbn [rt_manifest runtime_ set_runtime].
  eapply (wpm_reopen _ _ _ d' _ (ids ++ [max_id ids + 1]) rs i); [exact D| |exact Hi'|reflexivity| |].
  - cbn [slotPath_ set_runtime]. rewrite (fr_content _ _ _ F); [|apply (ru_index _ _ _ _ _ Hrun1)].
    intros [E|(id & _ & E & _)]; [by apply (index_ne_manifest (slotPath_ s1) m)|by apply (index_ne_data (slotPath_ s1) m id)].
  - intros id Hid. destruct (Hex id Hid) as (x & Hx & _). cbn [slotPath_ set_runtime]. by rewrite Hx.
  - intros s2 Hrun2 Hcfg2. apply wpm_done. destruct (ru_data _ _ _ _ _ Hrun2) as (l & sd & Hl & Hsd & _ & Hid & Hsz).
    rewrite last_snoc in Hl. injection Hl as <-. rewrite -Hid. apply (HQ s2 d' _ _ Hrun2 R); [by eapply same_config_trans; [|eapply same_config_trans; [|exact Hcfg2]]|].
    rewrite Hsz. destruct (Hex (max_id ids + 1)) as (x & Hx & Hlt); [rewrite elem_of_app elem_of_cons; tauto|].
    assert (slotPath_ s2 = slotPath_ s1) as Hsp2 by apply Hcfg2. rewrite Hsp2 in Hsd. rewrite Hx in Hsd. by injection Hsd as <-.
Qed.

Lemma running_frame (P : path → Prop) s d d' m ids rs l :
  running s d m ids rs → durable (slotPath_ s) d' m ids rs → frame P d d' → last ids = Some l →
  ¬ P (manifest_path (slotPath_ s)) → ¬ P (index_path (slotPath_ s) m) → ¬ P (data_path (slotPath_ s) l) →
  running s d' m ids rs.
Proof.
  intros [Hd (i & Hi & Hrt) H3 H4 H5 (l0 & sd & Hl0 & Hsd & H8 & H9 & H10)] Hd' F Hl P1 P2 P3.
  assert (l0 = l) as -> by congruence.
  split; [done| | | |done|].
  - exists i. by rewrite (fr_ino _ _ _ F).
  - by rewrite (fr_content _ _ _ F).
  - by rewrite (fr_ino _ _ _ F).
  - exists l, sd. by rewrite (fr_content _ _ _ F) ?(fr_ino _ _ _ F).
Qed.

Lemma insert_before_last_snoc x l y : insert_before_last x (l ++ [y]) = l ++ [x; y].
Proof. unfold insert_before_last. by rewrite last_snoc removelast_last. Qed.

(** [AllocateExclusiveDataFileLocked]: the new file goes before the active one. *)
Lemma wpm_exclusive_file (C : disk → Prop) (Q : Slot → res Z → disk → Prop) s d m ids rs σ :
  running s d m ids rs → represents d (slotPath_ s) rs σ → max_id ids < 2 ^ 32 - 1 → small d →
  (∀ d', holds (slotPath_ s) σ d' → C d') →
  (∀ s' d' m' ids' n x, running s' d' m' ids' rs → represents d' (slotPath_ s) rs σ → same_config s s' →
     n ∈ ids' → n ∉ ids → last ids' ≠ Some n → puts_stored d' (slotPath_ s) ids rs →
     content d' (data_path (slotPath_ s) n) = Some x → zsize x < 2 ^ 62 → Q s' (Ok n) d') →
  wpm C AllocateExclusiveDataFileLocked Q s d.
Proof.
  intros Hrun Hrep Hroom Hsmall HC HQ. pose proof (ru_durable _ _ _ _ _ Hrun) as Hd.
  destruct (ru_manifest _ _ _ _ _ Hrun) as (j & Hj & Hrt).
  pose proof (du_state _ _ _ _ _ Hd) as (_ & _ & _ & _ & Hi & Hdata & Hne & Hall).
  unfold AllocateExclusiveDataFileLocked, wpm. rewrite Hrt. cbn [rt_initialized rt_manifest].
  rewrite Hdata bool_decide_false; [by destruct ids|]. cbn [negb]. apply wpm_then.
  apply (wpm_allocate _ _ s d ids); [by rewrite Hrt|by rewrite Hrt|done|done|].
  apply wpm_then, wpm_modify, wpm_then, wpm_read, wpm_then. rewrite Hrt. cbn [rt_manifest]. rewrite Hdata.
  destruct (exists_last Hne) as (a & l & Hids). set (n := max_id ids + 1).
  destruct (next_id ids Hroom) as (Hnok & Hnin & _). fold n in Hnok, Hnin.
  assert (insert_before_last (FormatDataFileName n) (FormatDataFileName <$> ids) = FormatDataFileName <$> (a ++ n :: [l])) as ->.
  { rewrite Hids fmap_app (insert_before_last_snoc _ (FormatDataFileName <$> a)). by rewrite fmap_app. }
  eapply (wpm_add_file s d m ids rs σ Hrun Hrep Hroom Hsmall _ _ a [l]); [done|done|].
  intros d' i D R Hi' F Hex. apply wpm_done. destruct (Hex n) as (x & Hx & Hxs); [rewrite elem_of_app elem_of_cons; tauto|].
  assert (last (a ++ [n; l]) = last ids) as Hlast.
  { rewrite Hids last_snoc. change (a ++ [n; l]) with (a ++ ([n] ++ [l])). by rewrite app_assoc last_snoc. }
  eapply HQ; [|done|done| |exact Hnin| | |exact Hx|exact Hxs].
  - eapply running_more; [exact Hrun|exact D|done|exact Hi'|exact Hlast|exact F].
  - rewrite elem_of_app elem_of_cons. tauto.
  - rewrite Hlast. intros E. apply Hnin. by eapply last_Some_elem_of.
  - intros p Hp. destruct (du_puts _ _ _ _ _ Hd _ Hp) as [Hid Hst]. split; [done|].
    by destruct (du_puts _ _ _ _ _ D _ Hp).
Qed.

(** [WriteExclusivePayloadLocked] on a file that no record is in. *)
Lemma wpm_write_exclusive (C : disk → Prop) (Q : Slot → res unit → disk → Prop) s d m ids ids0 rs σ n x body :
  running s d m ids rs → represents d (slotPath_ s) rs σ → n ∈ ids → n ∉ ids0 → last ids ≠ Some n →
  puts_stored d (slotPath_ s) ids0 rs → content d (data_path (slotPath_ s) n) = Some x →
  zsize body < 2 ^ 62 → Forall id_ok ids0 →
  (∀ d', holds (slotPath_ s) σ d' → C d') →
  (∀ d', running s d' m ids rs → represents d' (slotPath_ s) rs σ → put_ready d' (slotPath_ s) ids n 0 (zsize body) body → Q s (Ok tt) d') →
  wpm C (WriteExclusivePayloadLocked body n (zsize body)) Q s d.
Proof.
  intros Hrun Hrep Hin Hnin Hlast Hp0 Hx Hbody Hids0 HC HQ. pose proof (ru_durable _ _ _ _ _ Hrun) as Hd.
  assert (index_ok m) as Hi by apply (du_state _ _ _ _ _ Hd).
  assert (Forall id_ok ids) as Hids by apply (du_state _ _ _ _ _ Hd).
  destruct (content_ino _ _ _ Hx) as (fd & Hfd & _). set (sp := slotPath_ s) in *.
  assert (id_ok n) as Hn by (rewrite Forall_forall in Hids; by apply Hids).
  assert (∀ d', frame (eq (data_path sp n)) d d' → durable sp d' m ids rs ∧ represents d' sp rs σ) as Hkeep.
  { intros d' F. assert (grows d d' sp ids0) as Hg.
    { apply grows_same. intros id Hid. apply (fr_content _ _ _ F). intros E. rewrite Forall_forall in Hids0.
      apply data_path_inj in E as <-; [done|done|by apply Hids0]. }
    split; [|eapply represents_grow; [apply Hd|exact Hp0|done..]].
    eapply durable_grow; [done|exact Hp0|apply F| | |done].
    - apply (fr_content _ _ _ F). apply data_ne_manifest.
    - eapply log_of_same; [|apply Hd]. apply (fr_content _ _ _ F). intros E. by apply (index_ne_data sp m n). }
  unfold WriteExclusivePayloadLocked, wpm. fold sp. change (sp, FormatDataFileName n) with (data_path sp n).
  apply wpm_lift, wp_bind_ok. apply wp_EnsureFile; [apply Hd|by eapply durable_dir|done| |intros; congruence].
  intros _ _. apply wp_bind_ok, wp_query. rewrite Hfd. apply wp_bind_ok, wp_bind_ok. pose proof (zsize_nonneg body).
  eapply (wp_WriteChunks _ _ (data_path sp n) fd x (stream_chunks body) []); [apply Hd|done|by rewrite overwrite_nil; [lia|]| | |].
  - rewrite concat_stream. change (zsize []) with 0. unfold SSIZE_MAX. lia.
  - intros d' F. apply HC. destruct (Hkeep _ F). by exists m, ids, rs.
  - rewrite concat_stream. cbn [app]. intros d' (F & Cn & L). change (zsize []) with 0. rewrite Z.add_0_l Z.sub_0_r u64_small; [lia|].
    apply wp_ret. rewrite Z.eqb_refl. apply wp_ret. destruct (Hkeep _ F) as [Hd' Hr'].
    destruct (last ids) as [l|] eqn:El; [|apply last_None in El; subst; by apply not_elem_of_nil in Hin].
    apply HQ; [|done|].
    + eapply running_frame; [exact Hrun|done|exact F|exact El|apply data_ne_manifest| |].
      * intros E. by apply (index_ne_data sp m n).
      * intros E. apply Hlast. f_equal. rewrite Forall_forall in Hids.
        apply data_path_inj in E; [congruence|done|]. apply Hids. by eapply last_Some_elem_of.
    + split; [done|]. split; [lia|]. exists (overwrite x 0 body). split; [done|].
      assert (List.length (overwrite x 0 body) = Nat.max (List.length x) (List.length body)) as Hlen by (rewrite length_overwrite; lia).
      unfold zsize. rewrite Hlen Nat2Z.id. split; [lia|]. cbn [drop Z.to_nat]. unfold overwrite. cbn [take replicate Nat.sub app].
      rewrite take_app_length. done.
Qed.

Lemma list_elem_of_singleton_PUT p q : PUT p ∈ [PUT q] → p = q.
Proof. intros H%list_elem_of_singleton. by injection H. Qed.

(** ** The record of an operation *)
(** The end of [Save] and [Delete]: the record is appended to the index and to the snapshot in memory. *)
Definition record_tail (encoded : chars) (bytes : Z) (f : SlotSnapshot → SlotSnapshot) : method unit :=
  let* w := read writer_ in
  let* w := lift (AppendIndexPayload encoded w) in
  let* _ := modify (set_writer (RecordOperation bytes w)) in
  let* _ := modify (λ s, set_rt_snapshot (f (rt_snapshot (runtime_ s))) s) in
  FlushRuntimeLocked false.

Lemma wpm_record (C : disk → Prop) (Q : Slot → res unit → disk → Prop) s d m ids rs σ σ' r bytes f :
  running s d m ids rs → represents d (slotPath_ s) rs σ → record_ok r → closed all_valid (rs ++ [r]) →
  puts_stored d (slotPath_ s) ids (rs ++ [r]) → represents d (slotPath_ s) (rs ++ [r]) σ' → f (snap rs) = snap (rs ++ [r]) →
  zsize (WriteHeader ++ encode_all rs) < 2 ^ 62 →
  (∀ d', holds (slotPath_ s) σ d' ∨ holds (slotPath_ s) σ' d' → C d') →
  (∀ s' d', running s' d' m ids (rs ++ [r]) → represents d' (slotPath_ s) (rs ++ [r]) σ' → same_config s s' → Q s' (Ok tt) d') →
  wpm C (record_tail (encode r) bytes f) Q s d.
Proof.
  intros Hrun Hrep Hok Hcl Hps Hrep' Hf Hsz HC HQ. pose proof (ru_durable _ _ _ _ _ Hrun) as Hd.
  assert (index_ok m) as Hi by apply (du_state _ _ _ _ _ Hd). set (sp := slotPath_ s) in *.
  assert (zsize (WriteHeader ++ encode_all (rs ++ [r])) ≤ SSIZE_MAX) as Hmax.
  { rewrite encode_all_app app_assoc (zsize_app (WriteHeader ++ encode_all rs)). change (encode_all [r]) with (encode r ++ []).
    rewrite app_nil_r. pose proof (zsize_encode r Hok). unfold SSIZE_MAX. lia. }
  unfold record_tail. apply wpm_then, wpm_read, wpm_then, wpm_lift.
  eapply (wp_append_record _ _ sp d m ids rs σ σ' r); [exact Hd|exact Hrep|apply (ru_index _ _ _ _ _ Hrun)|apply (ru_indexFd _ _ _ _ _ Hrun)
    |apply (ru_indexSize _ _ _ _ _ Hrun)|done|done|done|done|done|done|].
  intros d' w' Hd' Hr' F L Cn ->. apply wpm_then, wpm_modify, wpm_then, wpm_modify.
  destruct Hrun as [_ (i & Hi1 & Hrt) H3 H4 H5 (l & sd & Hl & Hsd & H8 & H9 & H10)]. fold sp in Hi1, H3, H4, Hsd, H8.
  eapply wpm_Flush; [|intros s2 R2 E2; apply HQ; [exact R2|exact Hr'|eapply same_config_trans; [|exact E2]; done]].
  split; cbn [slotPath_ set_writer set_rt_snapshot set_runtime writer_ runtime_ RecordOperation activeDataFd_ activeIndexFd_ activeDataFileId_ activeDataSize_ activeIndexSize_]; fold sp.
  - done.
  - exists i. split; [rewrite (fr_ino _ _ _ F); [by apply index_ne_manifest|done]|]. rewrite Hrt. cbn. by rewrite Hf.
  - done.
  - by rewrite H4 L.
  - done.
  - exists l, sd. rewrite (fr_content _ _ _ F); [by apply index_ne_data|]. rewrite (fr_ino _ _ _ F); [by apply index_ne_data|]. done.
Qed.

Lemma encode_put_ok p : key_ok (put_key p) → EncodePut p = Ok (encode (PUT p)).
Proof. intros [Hk _]. unfold EncodePut. by rewrite bool_decide_false. Qed.
Lemma encode_delete_ok x : key_ok (del_key x) → EncodeDelete x = Ok (encode (DELETE x)).
Proof. intros [Hk _]. unfold EncodeDelete. by rewrite bool_decide_false. Qed.

Lemma closed_snoc rs r : closed all_valid rs → is_mark r = false → closed all_valid (rs ++ [r]).
Proof. intros Hc Hm. unfold closed. destruct r; try done; [by rewrite snap_put|by rewrite snap_delete]. Qed.

(** ** Save *)
(** What a save needs: the key and the numbers are in the range of the format, files and payload are not
    huge, and there is a file number left. *)
Definition save_fits (d : disk) (ids : list Z) (key : chars) (version : Z) (body : chars) (writeMode ttlSecond : Z) : Prop :=
  key_ok key ∧ 0 ≤ version < 2 ^ 64 ∧ 0 ≤ writeMode < 2 ^ 8 ∧ 0 ≤ ttlSecond < 2 ^ 32 ∧ zsize body < 2 ^ 62 ∧ small d
  ∧ max_id ids < 2 ^ 32 - 1.

(** The record of a payload that has been written. *)
Lemma wpm_save_tail (C : disk → Prop) (Q : Slot → res unit → disk → Prop) s d m ids rs σ key version body writeMode ttlSecond fileId offset :
  running s d m ids rs → represents d (slotPath_ s) rs σ → put_ready d (slotPath_ s) ids fileId offset (zsize body) body →
  key_ok key → 0 ≤ version < 2 ^ 64 → 0 ≤ writeMode < 2 ^ 8 → 0 ≤ ttlSecond < 2 ^ 32 → zsize body < 2 ^ 62 →
  zsize (WriteHeader ++ encode_all rs) < 2 ^ 62 →
  (∀ d', holds (slotPath_ s) σ d' ∨ holds (slotPath_ s) (spec_save key version body σ) d' → C d') →
  (∀ s' d' rs', running s' d' m ids rs' → represents d' (slotPath_ s) rs' (spec_save key version body σ) → same_config s s' → Q s' (Ok tt) d') →
  let record := MkPut key fileId offset (zsize body) version writeMode ttlSecond in
  wpm C (let* encoded := lift (ret (EncodePut record)) in
         record_tail encoded (u64 (zsize body + zsize encoded)) (ApplyPut record)) Q s d.
Proof.
  intros Hrun Hrep (Hin & Ho & x & Hx & Hlen & Hbytes) Hk Hv Hw Ht Hb Hsz HC HQ record.
  pose proof (ru_durable _ _ _ _ _ Hrun) as Hd. pose proof (zsize_nonneg body).
  assert (id_ok fileId) as Hid. { assert (Forall id_ok ids) as H2 by apply (du_state _ _ _ _ _ Hd). rewrite Forall_forall in H2. by apply H2. }
  assert (record_ok (PUT record)) as Hok. { cbn [record_ok]. unfold put_ok. cbn. unfold id_ok in Hid. split_and!; try done; lia. }
  apply wpm_then, wpm_lift, wp_ret. rewrite (encode_put_ok record Hk).
  eapply (wpm_record _ _ _ _ _ ids rs σ (spec_save key version body σ) (PUT record)); [done|done|done| | | | |done|done|].
  - by apply closed_snoc; [apply Hd|].
  - intros p [Hp| ->%list_elem_of_singleton_PUT]%elem_of_app; [by apply (du_puts _ _ _ _ _ Hd)|].
    split; [done|]. by exists x.
  - apply (represents_put _ _ _ _ record body); [apply Hd|done|]. unfold bytes_of. cbn. rewrite Hx. cbn. by rewrite Hbytes.
  - unfold snap, snapshot_of. rewrite snap_put; [apply Hd|done].
  - intros s' d' R' P' E'. by eapply HQ.
Qed.

(** What [Save] does once the slot is open. *)
Definition save_rest (maxDataFileBytes : Z) (key : chars) (version : Z) (body : chars) (writeMode ttlSecond : Z) : method unit :=
  let* m := manifest_of in
  let* _ := EnsureWritable m in
  let payloadSize := zsize body in
  let useExclusiveFile := maxDataFileBytes <=? payloadSize in
  let* fileId := (if useExclusiveFile then AllocateExclusiveDataFileLocked else RotateWritableDataFileLocked payloadSize) in
  let* offset := (if useExclusiveFile then let* _ := WriteExclusivePayloadLocked body fileId payloadSize in done 0
                  else AppendPayloadToActiveFileLocked body payloadSize) in
  let record := MkPut key fileId offset payloadSize version writeMode ttlSecond in
  let* encoded := lift (ret (EncodePut record)) in
  record_tail encoded (u64 (payloadSize + zsize encoded)) (ApplyPut record).

Lemma wpm_save_rest (C : disk → Prop) (Q : Slot → res unit → disk → Prop) s d m ids rs σ maxBytes key version body writeMode ttlSecond :
  let σ' := spec_save key version body σ in
  running s d m ids rs → represents d (slotPath_ s) rs σ → save_fits d ids key version body writeMode ttlSecond →
  (∀ d', holds (slotPath_ s) σ d' ∨ holds (slotPath_ s) σ' d' → C d') →
  (∀ s' d' m' ids' rs', running s' d' m' ids' rs' → represents d' (slotPath_ s) rs' σ' → same_config s s' → Q s' (Ok tt) d') →
  wpm C (save_rest maxBytes key version body writeMode ttlSecond) Q s d.
Proof.
  intros σ' Hrun Hrep (Hk & Hv & Hw & Ht & Hb & Hsmall & Hroom) HC HQ. pose proof (ru_durable _ _ _ _ _ Hrun) as Hd.
  pose proof (small_index _ _ _ Hsmall (ru_index _ _ _ _ _ Hrun)) as Hsz.
  assert (∀ d', holds (slotPath_ s) σ d' → C d') as HC1 by (intros; apply HC; by left).
  destruct (ru_manifest _ _ _ _ _ Hrun) as (j & Hj & Hrt).
  assert (IsNormalManifest m = true) as Hnorm by apply (du_state _ _ _ _ _ Hd).
  assert (Forall id_ok ids) as Hids by apply (du_state _ _ _ _ _ Hd).
  apply wpm_then, wpm_read, wpm_then.
  unfold EnsureWritable. rewrite Hrt. cbn [rt_manifest]. rewrite Hnorm. apply wpm_done.
  apply wpm_then. pose proof (zsize_nonneg body). destruct (maxBytes <=? zsize body).
  - eapply wpm_exclusive_file; [done..|]. intros s1 d1 m1 ids1 n x R1 P1 E1 Hn1 Hn2 Hn3 Hps Hx _.
    assert (slotPath_ s1 = slotPath_ s) as Esp by apply E1. rewrite -Esp in HC, HC1, HQ, P1, Hps, Hx |- *.
    apply wpm_then, wpm_then. eapply (wpm_write_exclusive _ _ s1 d1 m1 ids1 ids); [done..|]. intros d2 R2 P2 Hready. apply wpm_done.
    eapply wpm_save_tail; [done..|]. intros s3 d3 rs3 R3 P3 E3. eapply HQ; [done|done|by eapply same_config_trans].
  - eapply wpm_rotate; [done..|]. intros s1 d1 m1 ids1 R1 P1 E1 Hsz1.
    assert (slotPath_ s1 = slotPath_ s) as Esp by apply E1. rewrite -Esp in HC, HC1, HQ, P1 |- *.
    apply wpm_then. eapply (wpm_append_payload _ _ s1 d1 m1 ids1 rs σ); [done|done|unfold SSIZE_MAX; lia|done|].
    intros s2 d2 offset R2 P2 E2 Hready. assert (slotPath_ s2 = slotPath_ s1) as Esp2 by apply E2.
    rewrite -Esp2 in HC, HC1, HQ, P2, Hready |- *.
    eapply wpm_save_tail; [done..|]. intros s3 d3 rs3 R3 P3 E3.
    eapply HQ; [done|done|]. eapply same_config_trans; [exact E1|]. by eapply same_config_trans.
Qed.

(** ** Delete *)
Definition delete_fits (d : disk) (key : chars) (version : Z) : Prop := key_ok key ∧ 0 ≤ version < 2 ^ 64 ∧ small d.

Definition delete_rest (key : chars) (version : Z) (all : bool) : method unit :=
  let* m := manifest_of in
  let* _ := EnsureWritable m in
  let record := MkDelete key (if all then 2 ^ 64 - 1 else version) in
  let* encoded := lift (ret (EncodeDelete record)) in
  record_tail encoded (zsize encoded) (ApplyDelete record).

Lemma wpm_delete_rest (C : disk → Prop) (Q : Slot → res unit → disk → Prop) s d m ids rs σ key version all :
  let upTo := if all : bool then 2 ^ 64 - 1 else version in
  let σ' := spec_delete key upTo σ in
  running s d m ids rs → represents d (slotPath_ s) rs σ → delete_fits d key version →
  (∀ d', holds (slotPath_ s) σ d' ∨ holds (slotPath_ s) σ' d' → C d') →
  (∀ s' d' rs', running s' d' m ids rs' → represents d' (slotPath_ s) rs' σ' → same_config s s' → Q s' (Ok tt) d') →
  wpm C (delete_rest key version all) Q s d.
Proof.
  intros upTo σ' Hrun Hrep (Hk & Hv & Hsmall) HC HQ. pose proof (ru_durable _ _ _ _ _ Hrun) as Hd.
  pose proof (small_index _ _ _ Hsmall (ru_index _ _ _ _ _ Hrun)) as Hsz.
  destruct (ru_manifest _ _ _ _ _ Hrun) as (j & Hj & Hrt).
  assert (IsNormalManifest m = true) as Hnorm by apply (du_state _ _ _ _ _ Hd).
  apply wpm_then, wpm_read, wpm_then.
  unfold EnsureWritable. rewrite Hrt. cbn [rt_manifest]. rewrite Hnorm. apply wpm_done. fold upTo.
  set (record := MkDelete key upTo). apply wpm_then, wpm_lift, wp_ret. rewrite (encode_delete_ok record Hk).
  assert (record_ok (DELETE record)) as Hok. { cbn. split; [done|]. subst upTo. destruct all; lia. }
  eapply (wpm_record _ _ _ _ _ ids rs σ σ' (DELETE record)); [done|done|done| | | | |done|done|].
  - by apply closed_snoc; [apply Hd|].
  - intros p [Hp|Hp]%elem_of_app; [by apply (du_puts _ _ _ _ _ Hd)|]. by apply list_elem_of_singleton in Hp.
  - apply (represents_delete _ _ _ _ record); [apply Hd|done].
  - unfold snap, snapshot_of. rewrite snap_delete; [apply Hd|done].
  - intros s' d' R' P' E'. by eapply HQ.
Qed.

(** ** Get *)
(** The bytes of [x] from [offset] on. *)
Definition slice (offset size : Z) (x : chars) : chars := take (Z.to_nat size) (drop (Z.to_nat offset) x).

Lemma slice_split offset a b x : 0 ≤ offset → 0 ≤ a → 0 ≤ b → slice offset a x ++ slice (offset + a) b x = slice offset (a + b) x.
Proof.
  intros Ho Ha Hb. unfold slice. rewrite !Z2Nat.inj_add //. rewrite -drop_drop.
  rewrite -(take_drop (Z.to_nat a) (take (Z.to_nat a + Z.to_nat b) (drop (Z.to_nat offset) x))).
  rewrite take_take skipn_firstn_comm. f_equal; [f_equal; lia|]. f_equal. lia.
Qed.

Lemma zsize_slice offset size x : 0 ≤ offset → 0 ≤ size → offset + size ≤ zsize x → zsize (slice offset size x) = size.
Proof. unfold zsize, slice. intros Ho Hs Hl. rewrite length_take length_drop. lia. Qed.

Lemma wp_ReadChunks (C : disk → Prop) Q d fd x bufferSize fuel : ∀ remaining offset,
  inodes d !! fd = Some x → 0 ≤ offset → 0 ≤ remaining → offset + remaining ≤ zsize x → zsize x < 2 ^ 62 →
  (remaining = 0 ∨ 0 < bufferSize) → remaining < Z.of_nat fuel →
  Q (Ok (slice offset remaining x)) d → wp C (ReadChunks fuel fd bufferSize remaining offset) Q d.
Proof.
  revert Q. induction fuel as [|fuel IH]; intros Q remaining offset Hx Ho Hr Hl Hs Hb Hf HQ; cbn [ReadChunks];
    destruct (Z.leb_spec remaining 0) as [Hz|Hz]; try lia.
  - apply wp_ret. by replace remaining with 0 in HQ by lia.
  - destruct Hb as [|Hb]; [lia|]. set (n := Z.min remaining bufferSize). assert (0 < n ≤ remaining) as Hn by lia.
    apply wp_bind_ok. unfold ReadFile. rewrite i64_id; [unfold SSIZE_MAX; lia|]. destruct (Z.leb_spec 0 offset); [|lia].
    apply wp_query. rewrite Hx. cbn [default from_option]. change (take _ (drop _ _)) with (slice offset n x).
    rewrite zsize_slice; [lia..|]. rewrite Z.eqb_refl. apply wp_bind_ok. rewrite u64_small; [lia|].
    apply IH; [done|lia|lia|lia|done|by right|lia|]. apply wp_ret. rewrite slice_split; [lia..|].
    by replace (n + (remaining - n)) with remaining by lia.
Qed.

Lemma FindExact_put x key version :
  FindExact x key version = match put_at x key version with
    | None => Fail K_NOT_FOUND_IN_L2CACHE
    | Some p => check! match deletedUpToByKey_ x !! key with None => true | Some y => y <? version end
                  else K_NOT_FOUND_IN_L2CACHE in Ok (value_of key p)
    end.
Proof. unfold FindExact, put_at. by destruct (putsByKey_ x !! key). Qed.

Definition get_rest (sp key : chars) (version : Z) : method chars :=
  let* snapshot := read (λ s, rt_snapshot (runtime_ s)) in
  let* value := lift (ret (FindExact snapshot key version)) in
  lift (ReadRecordData sp value).

(** [Get] returns what the store has and changes nothing. *)
Lemma wpm_get_rest (C : disk → Prop) (Q : Slot → res chars → disk → Prop) s d m ids rs σ key version :
  running s d m ids rs → represents d (slotPath_ s) rs σ → small d →
  Q s (spec_get key version σ) d → wpm C (get_rest (slotPath_ s) key version) Q s d.
Proof.
  intros Hrun [H1 H2] Hsmall HQ. pose proof (ru_durable _ _ _ _ _ Hrun) as Hd. destruct (ru_manifest _ _ _ _ _ Hrun) as (j & Hj & Hrt).
  apply wpm_then, wpm_read, wpm_then, wpm_lift, wp_ret.
  rewrite Hrt. cbn [rt_snapshot]. rewrite FindExact_put H2. unfold spec_get in HQ. rewrite H1 in HQ.
  destruct (put_at (snap rs) key version) as [p|] eqn:Ep; cbn [mbind option_bind] in HQ; [|done].
  apply snapshot_puts in Ep. destruct (du_puts _ _ _ _ _ Hd _ Ep) as [Hid (x & Hx & Hl)].
  destruct (record_ok_put _ _ (du_records _ _ _ _ _ Hd) Ep) as (_ & _ & Ho & Hz & _).
  unfold bytes_of in HQ. rewrite Hx in HQ. cbn [mbind option_bind] in HQ.
  destruct (match deleted σ !! key with None => true | Some y => y <? version end); [|done].
  apply wpm_lift. unfold ReadRecordData, value_of. cbn [val_fileId val_size val_offset].
  change (slotPath_ s, FormatDataFileName (put_fileId p)) with (data_path (slotPath_ s) (put_fileId p)).
  destruct (content_ino _ _ _ Hx) as (fd & Hfd & Hfx). apply wp_bind_ok, wp_query. rewrite Hfd. apply wp_bind, wp_query. rewrite Hfx.
  change (default [] (Some x)) with x. pose proof (Hsmall _ _ Hx). pose proof (zsize_nonneg x).
  eapply wp_ReadChunks; [exact Hfx|lia|lia|lia|done| |unfold zsize in *; lia|exact HQ].
  destruct (decide (put_size p = 0)); [by left|right]. unfold SLOT_IO_CHUNK_BYTES. lia.
Qed.

(** ** Opening *)
Lemma wp_CreateDir (C : disk → Prop) Q dir d : has_dir d dir → C d → Q (Ok tt) d → wp C (CreateDir dir) Q d.
Proof.
  intros Hdir HC HQ. unfold CreateDir. apply wp_bind, wp_act; unfold sys_mkdir, dir_exists; cbn [fst snd]; rewrite (bool_decide_true _ Hdir); [done|].
  by apply wp_ret.
Qed.

Lemma wp_Load (C : disk → Prop) Q sp d m ids rs : durable sp d m ids rs → Q (Ok m) d → wp C (Load sp) Q d.
Proof.
  intros Hd HQ. unfold wp. rewrite (Load_text _ _ _ (du_manifest _ _ _ _ _ Hd)). rewrite manifest_roundtrip_spec; [apply (du_state _ _ _ _ _ Hd)|].
  split; [by apply Forall_nil|exact HQ].
Qed.

(** A log that is read is cut to its records. *)
Lemma take_log rs t : take (Z.to_nat (HEADER_SIZE + zsize (encode_all rs))) (WriteHeader ++ encode_all rs ++ t) = WriteHeader ++ encode_all rs.
Proof.
  rewrite app_assoc. apply take_app_length'. rewrite length_app. change (List.length WriteHeader) with 32%nat.
  unfold HEADER_SIZE, zsize. lia.
Qed.

(** [Replay] of a slot on the disk gives the snapshot of its records. *)
Lemma wp_replay_slot (C : disk → Prop) Q sp d m ids rs σ :
  durable sp d m ids rs → represents d sp rs σ → (∀ d', holds sp σ d' → C d') →
  (∀ d', durable sp d' m ids rs → represents d' sp rs σ → frame (eq (index_path sp m)) d d' →
     content d' (index_path sp m) = Some (WriteHeader ++ encode_all rs) → Q (Ok (snap rs)) d') →
  wp C (Replay sp m) Q d.
Proof.
  intros Hd Hr HC HQ. assert (index_ok m) as Hi by apply (du_state _ _ _ _ _ Hd). pose proof (du_log _ _ _ _ _ Hd) as Hl.
  destruct Hl as (t & Et & Ht).
  apply wp_Replay; [apply Hd|by eapply durable_dir|apply Hi| |]; change (sp, m_activeIndex m) with (index_path sp m).
  - intros k d' Hg F Hc. apply HC. exists m, ids, rs. eapply index_frame; [done..|]. destruct Hc as [-> | ->]; [by exists t|].
    rewrite ensured_torn (bad_header_empty d (index_path sp m) rs); [by exists t|done|]. exists []. split; [|by left]. done.
  - rewrite Et parse_log_spec; [apply Hd|done|]. cbn [fst snd]. rewrite frames_of_records take_log.
    rewrite (replay_valid _ _ ids); [apply Hd|apply Hd|]. intros d' F S Cn.
    destruct (index_frame sp d d' m ids rs σ _ Hd Hr F Cn) as [Hd' Hr'].
    { exists []. split; [|by left]. rewrite app_nil_r. apply ensured_ok. }
    split; [apply HC; by exists m, ids, rs|]. by apply HQ.
Qed.

Lemma small_frame (P : path → Prop) d d' :
  small d → frame P d d' → (∀ q x, P q → content d' q = Some x → zsize x < 2 ^ 62) → small d'.
Proof.
  intros Hs F HP q x Hx. destruct (decide (content d q = Some x)) as [E|E]; [by eapply Hs|].
  destruct (decide (content d' q = content d q)) as [E2|E2]; [congruence|].
  apply dec_stable. intros Hn. apply E2, (fr_content _ _ _ F). intros HPq. by apply Hn, (HP q x).
Qed.

Lemma zsize_ensured d p : small d → zsize (ensured (content d p)) < 2 ^ 62.
Proof.
  intros Hs. unfold ensured. destruct (good_header (content d p)) eqn:E; [|by vm_compute].
  destruct (content d p) as [x|] eqn:Ex; [|done]. by apply (Hs p).
Qed.

(** The files of a slot are there after [EnsureActiveFiles]. *)
Lemma wp_open_files (C : disk → Prop) Q sp d m ids rs σ :
  durable sp d m ids rs → represents d sp rs σ → small d → (∀ d', holds sp σ d' → C d') →
  (∀ d', durable sp d' m ids rs → represents d' sp rs σ → small d' → (∀ id, id ∈ ids → is_Some (content d' (data_path sp id))) → Q (Ok tt) d') →
  wp C (EnsureActiveFiles sp m) Q d.
Proof.
  intros Hd Hr Hs HC HQ. eapply wp_EnsureActiveFiles; [done..|]. intros d1 Hd1 Hr1 F1 S1 C1 Hall1.
  apply HQ; [done|done| |intros id Hid; rewrite Hall1; eauto].
  eapply small_frame; [exact Hs|exact F1|]. intros q x [-> |(id & Hid & -> & Hn)] Hx.
  - rewrite C1 in Hx. injection Hx as <-. by apply zsize_ensured.
  - rewrite Hall1 in Hx; [done|]. injection Hx as <-. rewrite Hn. by vm_compute.
Qed.

(** The rest of [BuildRuntimeStateLocked]. *)
Lemma wpm_load_slot (C : disk → Prop) (Q : Slot → res unit → disk → Prop) s d m ids rs σ :
  durable (slotPath_ s) d m ids rs → represents d (slotPath_ s) rs σ → small d →
  (∀ id, id ∈ ids → is_Some (content d (data_path (slotPath_ s) id))) → (∀ d', holds (slotPath_ s) σ d' → C d') →
  (∀ s' d', running s' d' m ids rs → represents d' (slotPath_ s) rs σ → small d' → same_config s s' → Q s' (Ok tt) d') →
  wpm C (let* m := LoadManifest in
         let* m := RecoverManifestIfNeeded m in
         let* snapshot := lift (Replay (slotPath_ s) m) in
         load_runtime m snapshot) Q s d.
Proof.
  intros Hd1 Hr1 Hs1 Hall1 HC HQ. set (sp := slotPath_ s) in *. assert (index_ok m) as Hi by apply (du_state _ _ _ _ _ Hd1).
  pose proof (du_state _ _ _ _ _ Hd1) as (_ & Hnorm & Hgc & _).
  apply wpm_then. as_method (lift (Load sp) : method SlotManifestData). apply wpm_lift. eapply wp_Load; [exact Hd1|].
  apply wpm_then. unfold RecoverManifestIfNeeded. apply wpm_then.
  unfold IsNormalManifest in Hnorm. rewrite !andb_true_iff !bool_decide_eq_true in Hnorm.
  assert (m_state m = NORMAL) as Hst by tauto. unfold IsTransferManifest. rewrite Hst.
  change (bool_decide (NORMAL = IN_OPERATION)) with false. cbn [andb]. apply wpm_done. rewrite Hgc. apply wpm_done.
  apply wpm_then, wpm_lift. eapply wp_replay_slot; [exact Hd1|exact Hr1|done|]. intros d2 Hd2 Hr2 F2 C2.
  assert (small d2) as Hs2.
  { eapply small_frame; [exact Hs1|exact F2|]. intros q x <- Hx. assert (x = WriteHeader ++ encode_all rs) as -> by congruence.
    destruct (du_log _ _ _ _ _ Hd1) as (t & Et & _). pose proof (zsize_ensured d (index_path sp m) Hs1) as Hz. rewrite Et in Hz.
    rewrite (app_assoc WriteHeader) (zsize_app (WriteHeader ++ encode_all rs)) in Hz. pose proof (zsize_nonneg t). lia. }
  destruct (content_ino _ _ _ (du_manifest _ _ _ _ _ Hd2)) as (i & Hi2 & _).
  assert (∀ id, id ∈ ids → is_Some (content d2 (data_path sp id))) as Hall2.
  { intros id Hid. rewrite (fr_content _ _ _ F2); [by apply index_ne_data|]. by apply Hall1. }
  as_method (load_runtime m (snap rs) : method unit). unfold load_runtime.
  apply wpm_then, wpm_modify, wpm_then, wpm_lift. unfold GetFileIdentity. apply wp_query. fold sp.
  change (sp, MANIFEST_FILE) with (manifest_path sp). rewrite Hi2. apply wpm_then, wpm_modify.
  eapply (wpm_reopen _ _ _ d2 m ids rs i); [exact Hd2|exact C2|exact Hi2|reflexivity|exact Hall2|].
  intros s' R' E'. eapply HQ; [exact R'|exact Hr2|exact Hs2|]. eapply same_config_trans; [|exact E']. done.
Qed.

(** A slot that is on the disk is opened. *)
Lemma wpm_build (C : disk → Prop) (Q : Slot → res unit → disk → Prop) s d m ids rs σ :
  durable (slotPath_ s) d m ids rs → represents d (slotPath_ s) rs σ → small d →
  (∀ d', holds (slotPath_ s) σ d' → C d') →
  (∀ s' d', running s' d' m ids rs → represents d' (slotPath_ s) rs σ → small d' → same_config s s' → Q s' (Ok tt) d') →
  wpm C BuildRuntimeStateLocked Q s d.
Proof.
  intros Hd Hr Hs HC HQ. set (sp := slotPath_ s) in *. assert (C d) as HCd by (apply HC; by exists m, ids, rs).
  apply wpm_then. apply wpm_then, wpm_lift, wp_CreateDir; [by eapply durable_dir|done|].
  apply wpm_try, wpm_lift. eapply wp_Load; [exact Hd|]. apply wpm_lift. eapply wp_open_files; [exact Hd|exact Hr|done|done|].
  intros d1 Hd1 Hr1 Hs1 Hall1. by eapply wpm_load_slot.
Qed.

(** ** A new slot *)
(** The directory has no manifest, no index and no data; it need not exist. *)
Definition vacant (sp : chars) (d : disk) : Prop :=
  disk_wf d ∧ sp ≠ [] ∧ plain sp ∧ zsize sp < 2 ^ 61 ∧ content d (manifest_path sp) = None
  ∧ ∀ n, is_Some (lookup_ino d (sp, n)) →
      glob_match (lit_str "index") (lit_str ".log") n = false ∧ glob_match (lit_str "data_") (lit_str ".bin") n = false.

Lemma mkdir_spec dir d : disk_wf d →
  let d' := (sys_mkdir dir d).2 in
  disk_wf d' ∧ has_dir d' dir ∧ (∀ q, lookup_ino d' q = lookup_ino d q) ∧ (∀ q, content d' q = content d q).
Proof.
  intros Hwf. unfold sys_mkdir, dir_exists. cbn [snd]. case_bool_decide as Hd; [done|].
  assert (∀ q, lookup_ino (set_dir dir ∅ d) q = lookup_ino d q) as Hl.
  { intros q. rewrite lookup_set_dir. case_bool_decide as E; [|done]. unfold lookup_ino. rewrite E.
    destruct (dirs d !! dir) eqn:E2; [by destruct Hd; eauto|]. done. }
  split_and!; [| |done|].
  - split; [intros p q i; rewrite !Hl; apply Hwf|intros p i; rewrite Hl; apply Hwf|apply Hwf].
  - unfold has_dir, set_dir. cbn. rewrite lookup_insert_eq. eauto.
  - intros q. unfold content. by rewrite Hl.
Qed.

Lemma tmp_not_found sp n : tmp_of (manifest_path sp) (sp, n) →
  glob_match (lit_str "index") (lit_str ".log") n = false ∧ glob_match (lit_str "data_") (lit_str ".bin") n = false.
Proof. intros (k & E). apply (f_equal snd) in E. cbn [snd] in E. by rewrite E. Qed.

(** At most temporary files of the manifest are added. *)
Lemma vacant_same sp d d' : vacant sp d → disk_wf d' →
  (∀ n, ¬ tmp_of (manifest_path sp) (sp, n) → lookup_ino d' (sp, n) = lookup_ino d (sp, n)) → vacant sp d'.
Proof.
  intros (Hwf & H1 & H2 & H3 & H4 & H5) Hwf' H. split_and!; try done.
  - apply content_none; [done|]. unfold manifest_path. rewrite H; [|by apply content_none].
    intros Ht. apply (manifest_not_tmp sp). by eapply tmp_of_is_tmp.
  - intros n Hn. apply dec_stable. intros Hf. apply Hf. apply H5. rewrite -H; [|done].
    intros Ht. apply Hf. by apply (tmp_not_found sp).
Qed.

Lemma Glob_none (C : disk → Prop) Q sp a b d :
  (∀ n, is_Some (lookup_ino d (sp, n)) → glob_match a b n = false) → Q (Ok []) d → wp C (Glob sp a b) Q d.
Proof.
  intros H HQ. apply wp_query. rewrite list_filter_none; [|done]. apply Forall_forall. intros n Hn Hm.
  unfold names_in in Hn. apply list_elem_of_fmap in Hn as ([n' i] & -> & Hn). cbn [fst] in *. apply elem_of_map_to_list in Hn.
  rewrite H in Hm; [|done]. unfold lookup_ino. cbn [fst snd]. destruct (dirs d !! sp) as [mm|]; cbn in *; [eauto|by rewrite lookup_empty in Hn].
Qed.

(** The manifest of a new slot. *)
Definition first_manifest (sp : chars) : SlotManifestData := set_homeSlotPath sp Bootstrap.

Lemma zsize_first sp : zsize sp < 2 ^ 61 → zsize (Encode (first_manifest sp)) < 2 ^ 62.
Proof.
  intros H. set (pre := take 7 (manifest_fields Bootstrap)). set (post := drop 8 (manifest_fields Bootstrap)).
  assert (Encode (first_manifest sp) = text_of pre ++ (lit_str "home_slot_path=" ++ sp) ++ [newline] ++ text_of post) as ->.
  { unfold Encode, text_of. change (manifest_fields (first_manifest sp)) with (pre ++ (lit_str "home_slot_path", sp) :: post).
    rewrite fmap_app concat_app. f_equal. cbn [fmap list_fmap List.concat]. unfold line_of at 1. cbn [fst snd]. by rewrite -!app_assoc. }
  rewrite (zsize_app (text_of pre)) (zsize_app (lit_str "home_slot_path=" ++ _)) (zsize_app (lit_str "home_slot_path=")) (zsize_app [newline]).
  assert (zsize (text_of pre) + zsize (lit_str "home_slot_path=") + zsize [newline] + zsize (text_of post) < 1000) as Hc by (by vm_compute). lia.
Qed.

Lemma first_manifest_state sp : sp ≠ [] → plain sp → manifest_state (first_manifest sp) [1].
Proof.
  intros Hne Hp. unfold manifest_state, index_ok, index_name.
  split_and!; [|reflexivity|reflexivity|exact Hne|discriminate|reflexivity|cbv; lia|reflexivity|discriminate|].
  - destruct bootstrap_ok as [K1 K2 K3 K4 K5 K6 K7]. split; [exact K1|exact K2|exact K3|exact K4|exact K5| |exact K7].
    repeat (apply Forall_cons in K6 as [? K6]). repeat (apply Forall_cons; split; [assumption|]). by apply Forall_nil.
  - apply Forall_singleton. unfold id_ok. lia.
Qed.

Lemma vacant_none sp d n : vacant sp d → glob_match (lit_str "index") (lit_str ".log") n = true ∨ glob_match (lit_str "data_") (lit_str ".bin") n = true →
  content d (sp, n) = None.
Proof.
  intros (Hwf & _ & _ & _ & _ & H) Hm. apply content_none; [done|]. destruct (lookup_ino d (sp, n)) as [i|] eqn:E; [|done].
  destruct (H n) as [E1 E2]; [by exists i|]. destruct Hm; congruence.
Qed.

(** Once its manifest is there, a new slot holds nothing. *)
Lemma first_durable sp d d' : vacant sp d → replaced d d' (manifest_path sp) (Encode (first_manifest sp)) →
  durable sp d' (first_manifest sp) [1] [] ∧ represents d' sp [] empty_store.
Proof.
  intros Hv (F & Cn & _). pose proof Hv as (Hwf & Hne & Hp & _). pose proof (first_manifest_state sp Hne Hp) as Hst. split.
  - split; [apply F|done|done| |by apply Forall_nil|done|by intros p ?%elem_of_nil].
    exists []. split; [|by left]. rewrite (fr_content _ _ _ F); [intros E; by apply (f_equal snd) in E|].
    unfold index_path. rewrite (vacant_none sp d); [done|by left|]. done.
  - split; [|done]. intros k v. unfold put_at. cbn. by rewrite !lookup_empty.
Qed.

Lemma Load_none sp d : content d (manifest_path sp) = None → disk_wf d → Load sp d = ([], Fail K_NOT_FOUND, d).
Proof.
  intros Hc Hwf. apply content_none in Hc; [|done]. unfold Load, bind, FileExist, query.
  change (sp, MANIFEST_FILE) with (manifest_path sp). rewrite Hc. rewrite (bool_decide_false (is_Some None)); [by intros [? ?]|done].
Qed.

(** The store [σ] is what the disk holds, or the slot is new and [σ] is empty. *)
Definition stores (sp : chars) (σ : store) (d : disk) : Prop := holds sp σ d ∨ vacant sp d ∧ σ = empty_store.

Lemma wpm_build_vacant (C : disk → Prop) (Q : Slot → res unit → disk → Prop) s d :
  vacant (slotPath_ s) d → small d → rt_initialized (runtime_ s) = false →
  (∀ d', stores (slotPath_ s) empty_store d' → C d') →
  (∀ s' d' m, running s' d' m [1] [] → represents d' (slotPath_ s) [] empty_store → small d' → same_config s s' → Q s' (Ok tt) d') →
  wpm C BuildRuntimeStateLocked Q s d.
Proof.
  intros Hv Hs Hrt HC HQ. set (sp := slotPath_ s) in *. apply wpm_then. apply wpm_then, wpm_lift.
  destruct (mkdir_spec sp d) as (W1 & D1 & L1 & K1); [apply Hv|]. set (d1 := (sys_mkdir sp d).2) in *.
  assert (vacant sp d1) as Hv1 by (eapply vacant_same; [exact Hv|done|]; intros n _; by rewrite L1).
  assert (small d1) as Hs1 by (intros q x; rewrite K1; apply Hs).
  unfold CreateDir. apply wp_bind, wp_act; [apply HC; by right|]. fold d1. apply wp_ret.
  apply wpm_try, wpm_lift. unfold wp at 1. rewrite Load_none; [apply Hv1|done|]. split; [by apply Forall_nil|]. cbn [outcome final fst snd].
  pose proof Hv1 as (_ & Hne & Hpl & Hsz & _ & Hnone).
  apply wpm_then, wpm_lift. unfold BuildBootstrapManifestFromDisk. apply wp_bind_ok, Glob_none; [intros n Hn; by apply Hnone|].
  apply wp_bind. cbn [best_index]. apply wp_ret. change (nonempty []) with false. cbn beta iota zeta.
  apply wp_bind_ok, Glob_none; [intros n Hn; by apply Hnone|]. apply wp_ret. change (merge_sort id_le (parsed_files [])) with (@nil (Z * chars)).
  cbn beta iota. apply wpm_then.
  as_method (let* _ := lift (StoreAtomic sp (first_manifest sp)) in
             let* _ := lift (EnsureActiveFiles sp (first_manifest sp)) in
             if rt_initialized (runtime_ s) then
               let* _ := modify (set_rt_manifest (first_manifest sp)) in
               let* i := lift (GetFileIdentity (sp, MANIFEST_FILE)) in
               modify (set_rt_inode i)
             else done tt). rewrite Hrt. apply wpm_then, wpm_lift.
  pose proof (zsize_first sp Hsz) as Hz. apply wp_StoreAtomic_tmp; [done|done|unfold SSIZE_MAX; lia| |].
  { intros d' F. apply HC. right. split; [|done]. eapply vacant_same; [exact Hv1|apply F|]. intros n Hn. by apply (fr_ino _ _ _ F). }
  intros d2 Hrep. destruct (first_durable sp d1 d2 Hv1 Hrep) as [Hd2 Hr2].
  assert (∀ d', holds sp empty_store d' → C d') as HC2 by (intros d' Hh; apply HC; by left).
  assert (small d2) as Hs2.
  { destruct Hrep as (F2 & C2 & _). eapply small_frame; [exact Hs1|exact F2|]. intros q x <- Hx. change (sp, MANIFEST_FILE) with (manifest_path sp) in *. congruence. }
  split; [apply HC2; by exists (first_manifest sp), [1], []|].
  apply wpm_then, wpm_lift. eapply wp_open_files; [exact Hd2|exact Hr2|done|done|]. intros d3 Hd3 Hr3 Hs3 Hall3. apply wpm_done.
  apply wpm_lift. change (EnsureActiveFiles (slotPath_ s) Bootstrap) with (EnsureActiveFiles sp (first_manifest sp)).
  eapply wp_open_files; [exact Hd3|exact Hr3|done|done|]. intros d4 Hd4 Hr4 Hs4 Hall4.
  eapply wpm_load_slot; [exact Hd4|exact Hr4|done|done|done|]. intros s' d' R' P' S' E'. by eapply HQ.
Qed.

(** ** The operations, whatever state the slot is in *)
(** The slot is open, or it has not been opened yet. *)
Definition usable (s : Slot) (σ : store) (d : disk) : Prop :=
  (∃ m ids rs, running s d m ids rs ∧ represents d (slotPath_ s) rs σ)
  ∨ rt_initialized (runtime_ s) = false ∧ stores (slotPath_ s) σ d.

(** There is room for one more operation: no file has 2^62 bytes and the last file number is not used. *)
Definition room (sp : chars) (d : disk) : bool :=
  forallb (λ x, zsize x <? 2 ^ 62) (map_to_list (inodes d)).*2
  && match outcome (Load sp d) with
     | Ok m => match max_active_id (m_activeData m) 0 with Ok n => n <? 2 ^ 32 - 1 | Fail _ => false end
     | Fail _ => true
     end.

Lemma room_small sp d : room sp d = true → small d.
Proof.
  intros [H _]%andb_true_iff p x (i & _ & Hx)%content_lookup. rewrite forallb_forall in H. apply Z.ltb_lt, H.
  apply list_elem_of_In, list_elem_of_fmap. exists (i, x). split; [done|]. by apply elem_of_map_to_list.
Qed.

Lemma room_ids sp d m ids rs : room sp d = true → durable sp d m ids rs → max_id ids < 2 ^ 32 - 1.
Proof.
  intros [_ H]%andb_true_iff Hd. pose proof (du_state _ _ _ _ _ Hd) as (Hok & _ & _ & _ & _ & Hdata & _ & Hall).
  rewrite (Load_text _ _ _ (du_manifest _ _ _ _ _ Hd)) in H. unfold outcome in H. cbn [fst snd] in H.
  rewrite manifest_roundtrip_spec in H; [done|]. rewrite Hdata max_active_id_spec in H; [done|]. by apply Z.ltb_lt.
Qed.

Lemma wpm_use (C : disk → Prop) (Q : Slot → res unit → disk → Prop) s d σ :
  usable s σ d → room (slotPath_ s) d = true → (∀ d', stores (slotPath_ s) σ d' → C d') →
  (∀ s' d' m ids rs, running s' d' m ids rs → represents d' (slotPath_ s) rs σ → small d' → max_id ids < 2 ^ 32 - 1 → same_config s s' →
     Q s' (Ok tt) d') →
  wpm C EnsureRuntimeReadyLocked Q s d.
Proof.
  intros Hu Hroom HC HQ. pose proof (room_small _ _ Hroom) as Hs.
  destruct Hu as [(m & ids & rs & Hrun & Hrep)|[Hrt Hst]].
  { eapply wpm_ready; [exact Hrun|]. eapply HQ; [done|done|done| |done]. eapply room_ids; [done|apply Hrun]. }
  as_method (let* stale := lift (io_ok (IsRuntimeStaleLocked s)) in
             if rt_initialized (runtime_ s) && negb stale then done tt
             else let* _ := ResetRuntimeLocked in BuildRuntimeStateLocked).
  apply wpm_then, wpm_lift. unfold io_ok, IsRuntimeStaleLocked. rewrite Hrt. cbn [negb]. apply wp_bind, wp_ret, wp_ret. cbn [andb].
  apply wpm_then, wpm_modify. set (s1 := set_writer Close (set_runtime runtime_reset s)).
  destruct Hst as [(m & ids & rs & Hd & Hr)|[Hv ->]].
  - eapply (wpm_build _ _ s1 d m ids rs σ); [done|done|done|intros d' Hh; apply HC; by left|].
    intros s' d' R' P' S' E'. eapply HQ; [done|done|done|by eapply room_ids|by eapply same_config_trans; [|exact E']].
  - apply (wpm_build_vacant _ _ s1 d); [done|done|done|done|].
    intros s' d' m R' P' S' E'. eapply HQ; [done|done|done|by vm_compute|by eapply same_config_trans; [|exact E']].
Qed.

Inductive op :=
| OpSave (key : chars) (version : Z) (body : chars) (writeMode ttlSecond : Z)
| OpDelete (key : chars) (version : Z) (deleteAllVersion : bool)
| OpGet (key : chars) (version : Z).

Definition run_op (o : op) : method chars :=
  match o with
  | OpSave key version body writeMode ttlSecond => let* _ := Save key version body writeMode ttlSecond in done []
  | OpDelete key version all => let* _ := Delete key version all in done []
  | OpGet key version => Get key version
  end.

(** The operation on the store: its new contents and what it returns. *)
Definition spec_op (o : op) (σ : store) : store * res chars :=
  match o with
  | OpSave key version body _ _ => (spec_save key version body σ, Ok [])
  | OpDelete key version all => (spec_delete key (if all then 2 ^ 64 - 1 else version) σ, Ok [])
  | OpGet key version => (σ, spec_get key version σ)
  end.

(** Arguments in the range of their types. *)
Definition op_fits (o : op) : Prop :=
  match o with
  | OpSave key version body writeMode ttlSecond =>
      key_ok key ∧ 0 ≤ version < 2 ^ 64 ∧ 0 ≤ writeMode < 2 ^ 8 ∧ 0 ≤ ttlSecond < 2 ^ 32 ∧ zsize body < 2 ^ 62
  | OpDelete key version _ => key_ok key ∧ 0 ≤ version < 2 ^ 64
  | OpGet _ _ => True
  end.

Lemma running_usable s d m ids rs σ : running s d m ids rs → represents d (slotPath_ s) rs σ → usable s σ d.
Proof. intros H1 H2. left. by exists m, ids, rs. Qed.

Lemma wpm_op (C : disk → Prop) (Q : Slot → res chars → disk → Prop) s d σ o :
  usable s σ d → room (slotPath_ s) d = true → op_fits o →
  (∀ d', stores (slotPath_ s) σ d' ∨ stores (slotPath_ s) (spec_op o σ).1 d' → C d') →
  (∀ s' d', usable s' (spec_op o σ).1 d' → same_config s s' → Q s' (spec_op o σ).2 d') →
  wpm C (run_op o) Q s d.
Proof.
  intros Hu Hroom Hfits HC HQ.
  assert (∀ d', holds (slotPath_ s) σ d' ∨ holds (slotPath_ s) (spec_op o σ).1 d' → C d') as HC1.
  { intros d' [H|H]; apply HC; [left|right]; by left. }
  destruct o as [key version body writeMode ttl|key version all|key version]; cbn [run_op spec_op fst snd] in *.
  - apply wpm_then. as_method (let* _ := EnsureRuntimeReadyLocked in save_rest (maxDataFileBytes_ s) key version body writeMode ttl).
    apply wpm_then. eapply wpm_use; [exact Hu|done|intros; apply HC; by left|]. intros s1 d1 m ids rs R1 P1 S1 N1 E1.
    assert (slotPath_ s1 = slotPath_ s) as Esp by apply E1. rewrite -Esp in HC1, P1. destruct Hfits as (? & ? & ? & ? & ?).
    eapply wpm_save_rest; [exact R1|exact P1|done|exact HC1|]. intros s2 d2 m2 ids2 rs2 R2 P2 E2. apply wpm_done.
    apply HQ; [|by eapply same_config_trans]. eapply running_usable; [exact R2|]. by replace (slotPath_ s2) with (slotPath_ s1) by (symmetry; apply E2).
  - apply wpm_then. as_method (let* _ := EnsureRuntimeReadyLocked in delete_rest key version all).
    apply wpm_then. eapply wpm_use; [exact Hu|done|intros; apply HC; by left|]. intros s1 d1 m ids rs R1 P1 S1 N1 E1.
    assert (slotPath_ s1 = slotPath_ s) as Esp by apply E1. rewrite -Esp in HC1, P1. destruct Hfits as (? & ?).
    eapply wpm_delete_rest; [exact R1|exact P1|done|exact HC1|]. intros s2 d2 rs2 R2 P2 E2. apply wpm_done.
    apply HQ; [|by eapply same_config_trans]. eapply running_usable; [exact R2|]. by replace (slotPath_ s2) with (slotPath_ s1) by (symmetry; apply E2).
  - as_method (let* _ := EnsureRuntimeReadyLocked in get_rest (slotPath_ s) key version).
    apply wpm_then. eapply wpm_use; [exact Hu|done|intros; apply HC; by left|]. intros s1 d1 m ids rs R1 P1 S1 N1 E1.
    assert (slotPath_ s1 = slotPath_ s) as Esp by apply E1. rewrite -Esp in P1 |- *.
    eapply wpm_get_rest; [exact R1|exact P1|done|]. apply HQ; [by eapply running_usable|done].
Qed.

(** ** Histories *)
(** What happens to a slot: an operation returns, or the process dies during one and the slot is opened again. *)
Inductive event := Did (o : op) (r : res chars) | Crashed (o : op).

Definition set_now (now : Z) (s : Slot) : Slot :=
  MkSlot (slotId_ s) (slotPath_ s) (maxDataFileBytes_ s) (sync_interval_ms s) (sync_batch_bytes s) now (runtime_ s) (writer_ s)
    (transferIntentActive_ s).
Definition reopened (s : Slot) : Slot :=
  Slot_new (slotId_ s) (slotPath_ s) (maxDataFileBytes_ s) (sync_interval_ms s) (sync_batch_bytes s) (now_ms s).

Inductive slot_trace : Slot → disk → list event → Slot → disk → Prop :=
| trace_nil s d : slot_trace s d [] s d
| trace_time s d now evs s' d' : slot_trace (set_now now s) d evs s' d' → slot_trace s d evs s' d'
| trace_op s d o r evs s' d' :
    op_fits o → room (slotPath_ s) d = true → r = (outcome (run_op o s d)).2 →
    slot_trace (outcome (run_op o s d)).1 (final (run_op o s d)) evs s' d' → slot_trace s d (Did o r :: evs) s' d'
| trace_crash s d o d1 evs s' d' :
    op_fits o → room (slotPath_ s) d = true → d1 ∈ d :: crash_states (run_op o s d) →
    slot_trace (reopened s) d1 evs s' d' → slot_trace s d (Crashed o :: evs) s' d'.

(** The same on a store: an operation that was cut off has taken effect or not. *)
Inductive store_trace : store → list event → store → Prop :=
| store_nil σ : store_trace σ [] σ
| store_op σ o evs σ' : store_trace (spec_op o σ).1 evs σ' → store_trace σ (Did o (spec_op o σ).2 :: evs) σ'
| store_crash σ o σ1 evs σ' : σ1 = σ ∨ σ1 = (spec_op o σ).1 → store_trace σ1 evs σ' → store_trace σ (Crashed o :: evs) σ'.

Lemma usable_stores s σ d : usable s σ d → stores (slotPath_ s) σ d.
Proof. intros [(m & ids & rs & Hr & Hp)|[_ H]]; [|done]. left. exists m, ids, rs. split; [apply Hr|done]. Qed.

Lemma usable_now now s σ d : usable s σ d → usable (set_now now s) σ d.
Proof. intros [(m & ids & rs & [] & Hp)|H]; [left|by right]. by exists m, ids, rs. Qed.

Lemma op_spec s d σ o : usable s σ d → room (slotPath_ s) d = true → op_fits o →
  let run := run_op o s d in
  Forall (λ d', stores (slotPath_ s) σ d' ∨ stores (slotPath_ s) (spec_op o σ).1 d') (crash_states run)
  ∧ (outcome run).2 = (spec_op o σ).2 ∧ usable (outcome run).1 (spec_op o σ).1 (final run).
Proof.
  intros Hu Hr Hf. apply (wpm_op (λ d', stores (slotPath_ s) σ d' ∨ stores (slotPath_ s) (spec_op o σ).1 d')
    (λ s' r d', r = (spec_op o σ).2 ∧ usable s' (spec_op o σ).1 d') s d σ o); [done..|]. by intros s' d' H _.
Qed.

Lemma trace_refines s d evs s' d' σ : slot_trace s d evs s' d' → usable s σ d → ∃ σ', store_trace σ evs σ' ∧ usable s' σ' d'.
Proof.
  intros H. revert σ. induction H as [s d|s d now evs s' d' H IH|s d o r evs s' d' Hf Hr -> H IH|s d o d1 evs s' d' Hf Hr Hd1 H IH]; intros σ Hu.
  - exists σ. split; [constructor|done].
  - by apply IH, usable_now.
  - destruct (op_spec s d σ o Hu Hr Hf) as (_ & E & Hu'). destruct (IH _ Hu') as (σ' & Hσ & Hu2). exists σ'. split; [|done].
    rewrite E. by constructor.
  - assert (∃ σ1, (σ1 = σ ∨ σ1 = (spec_op o σ).1) ∧ stores (slotPath_ s) σ1 d1) as (σ1 & Hσ1 & Hst).
    { apply elem_of_cons in Hd1 as [-> |Hd1]; [exists σ; split; [by left|by apply usable_stores]|].
      destruct (op_spec s d σ o Hu Hr Hf) as (Hc & _). rewrite Forall_forall in Hc. destruct (Hc _ Hd1); eauto. }
    destruct (IH σ1) as (σ' & Hσ & Hu2); [by right|]. exists σ'. split; [|done]. by eapply store_crash.
Qed.

(** C2: a slot implements the store, also across crashes.  Whatever saves, deletions and reads are called on it,
    and wherever the process dies in the middle of one and opens the slot again, each call returns
    what a store that maps keys and versions to contents would return, and an operation that was cut off has
    taken effect as a whole or not at all. *)
Theorem slot_refines_store (s s' : Slot) (d d' : disk) (evs : list event) (σ : store) :
  usable s σ d → slot_trace s d evs s' d' → ∃ σ', store_trace σ evs σ' ∧ usable s' σ' d'.
Proof. intros Hu H. by eapply trace_refines. Qed.

(** C3: every operation returns what the specification says and leaves the slot representing the new contents, and each
    disk it goes through holds the contents before it or the contents after it, so that a crash never
    leaves a slot that is damaged, that has lost another object or that has a part of one. *)
Theorem slot_operation_atomic (s : Slot) (d : disk) (σ : store) (o : op) :
  usable s σ d → room (slotPath_ s) d = true → op_fits o →
  let run := run_op o s d in
  Forall (λ d', stores (slotPath_ s) σ d' ∨ stores (slotPath_ s) (spec_op o σ).1 d') (crash_states run)
  ∧ (outcome run).2 = (spec_op o σ).2 ∧ usable (outcome run).1 (spec_op o σ).1 (final run).
Proof. apply op_spec. Qed.

(** *** Objects survive *)
Definition visible (σ : store) (key : chars) (version : Z) : bool :=
  match deleted σ !! key with None => true | Some x => x <? version end.

(** The event neither overwrites the object nor deletes it. *)
Definition spares (key : chars) (version : Z) (e : event) : bool :=
  match e with
  | Did (OpSave k v _ _ _) _ | Crashed (OpSave k v _ _ _) => negb (bool_decide (k = key ∧ v = version))
  | Did (OpDelete k v all) _ | Crashed (OpDelete k v all) =>
      negb (bool_decide (k = key)) || ((if all then 2 ^ 64 - 1 else v) <? version)
  | Did (OpGet _ _) _ | Crashed (OpGet _ _) => true
  end.

Lemma spares_op σ o r key version body :
  0 < version → spares key version (Did o r) = true → objects σ !! (key, version) = Some body → visible σ key version = true →
  objects (spec_op o σ).1 !! (key, version) = Some body ∧ visible (spec_op o σ).1 key version = true.
Proof.
  intros Hpos Hs Ho Hv. destruct o as [k v b w t|k v all|k v]; cbn [spares spec_op fst objects spec_save spec_delete] in *; [| |done].
  - split; [|exact Hv]. apply negb_true_iff, bool_decide_eq_false in Hs. rewrite lookup_insert_ne; [|done]. intros [= -> ->]. by apply Hs.
  - split; [done|]. unfold visible in *. cbn [deleted]. destruct (decide (k = key)) as [->|Hne]; [|by rewrite lookup_insert_ne].
    rewrite lookup_insert_eq. rewrite bool_decide_true // in Hs. cbn [negb orb] in Hs. apply Z.ltb_lt in Hs. apply Z.ltb_lt.
    destruct (deleted σ !! key) as [x|]; [change (default 0 (Some x)) with x; apply Z.ltb_lt in Hv|change (default 0 None) with 0]; lia.
Qed.

Lemma store_trace_app σ evs1 evs2 σ' : store_trace σ (evs1 ++ evs2) σ' → ∃ σ1, store_trace σ evs1 σ1 ∧ store_trace σ1 evs2 σ'.
Proof.
  revert σ. induction evs1 as [|e evs1 IH]; intros σ H; [exists σ; split; [constructor|done]|].
  cbn [app] in H. inversion H; subst.
  - destruct (IH _ ltac:(eassumption)) as (σ1 & ? & ?). exists σ1. split; [by constructor|done].
  - destruct (IH _ ltac:(eassumption)) as (σ2 & ? & ?). exists σ2. split; [by eapply store_crash|done].
Qed.

Lemma spares_trace σ evs σ' key version body : store_trace σ evs σ' →
  0 < version → forallb (spares key version) evs = true → objects σ !! (key, version) = Some body → visible σ key version = true →
  objects σ' !! (key, version) = Some body ∧ visible σ' key version = true.
Proof.
  intros H Hpos. induction H as [σ|σ o evs σ' H IH|σ o σ1 evs σ' Hσ1 H IH]; intros Hs Ho Hv; [done| |];
    cbn [forallb] in Hs; apply andb_true_iff in Hs as [Hs1 Hs2].
  - destruct (spares_op σ o (spec_op o σ).2 key version body) as [? ?]; [done..|]. by apply IH.
  - destruct Hσ1 as [-> | ->]; [by apply IH|].
    destruct (spares_op σ o (spec_op o σ).2 key version body) as [? ?]; [done..|]. by apply IH.
Qed.

(** C4: an object whose save has returned is durable.  Take a usable slot, a version above 0, and a key none of whose earlier deletions covers
    that version (the newest deletion mark of the key is below it; deleting all versions of a key sets the mark to the largest number, after
    which no version of the key can be saved readably).  Then the save succeeds, and however many operations follow, and wherever they are interrupted by
    crashes, the object can be read, provided that none of them saves the same version of the key again or deletes a version of the key
    at least as new, or all of them. *)
Theorem saved_object_survives (s s' : Slot) (d d' : disk) (σ : store) (key body : chars) (version writeMode ttlSecond : Z)
    (evs : list event) (r1 r2 : res chars) :
  usable s σ d → visible σ key version = true → 0 < version → forallb (spares key version) evs = true →
  slot_trace s d (Did (OpSave key version body writeMode ttlSecond) r1 :: evs ++ [Did (OpGet key version) r2]) s' d' →
  r1 = Ok [] ∧ r2 = Ok body.
Proof.
  intros Hu Hv Hpos Hs H. destruct (trace_refines _ _ _ _ _ _ H Hu) as (σ' & Hσ & _).
  inversion Hσ as [|? ? ? ? Hσ1|]; subst. split; [done|]. cbn [spec_op fst snd] in *.
  apply store_trace_app in Hσ1 as (σ2 & Hσ2 & Hσ3).
  destruct (spares_trace _ _ _ key version body Hσ2) as [Ho2 Hv2]; [done|done| |done|].
  { cbn [objects spec_save]. by rewrite lookup_insert_eq. }
  inversion Hσ3; subst. cbn [spec_op snd]. unfold spec_get. rewrite Ho2. unfold visible in Hv2. by rewrite Hv2.
Qed.

(** ** A concrete history *)
(** On an empty disk an object is saved, the process dies in the middle of a second save, and the object is
    read by the next process. *)
Definition demo_slot : Slot := Slot_new 1 (lit_str "/w/slot_0001") 20 1000 100 0.
Definition demo_disk : disk := MkDisk ∅ ∅ 0.
Definition demo_save : op := OpSave (lit_str "k1") 5 (lit_str "hello world") 1 0.
Definition demo_save2 : op := OpSave (lit_str "k2") 6 (lit_str "second body here") 1 0.
Definition demo_get : op := OpGet (lit_str "k1") 5.
Definition demo_run : list disk * (Slot * res chars) * disk := run_op demo_save demo_slot demo_disk.
Definition demo_crash : disk :=
  default (final demo_run) (crash_states (run_op demo_save2 (outcome demo_run).1 (final demo_run)) !! 400%nat).
Definition demo_read : list disk * (Slot * res chars) * disk := run_op demo_get (reopened (outcome demo_run).1) demo_crash.

Lemma demo_vacant : vacant (lit_str "/w/slot_0001") demo_disk.
Proof.
  assert (∀ q, lookup_ino demo_disk q = None) as Hl by (intros q; unfold lookup_ino, demo_disk; cbn; by rewrite lookup_empty).
  split_and!.
  - split; [intros p q i; by rewrite Hl|intros p i; by rewrite Hl|intros i [x Hx]; cbn in Hx; by rewrite lookup_empty in Hx].
  - done.
  - by apply absent_spec.
  - by vm_compute.
  - unfold content. by rewrite Hl.
  - intros n. rewrite Hl. by intros [? ?].
Qed.

Lemma demo_usable : usable demo_slot empty_store demo_disk.
Proof. right. split; [done|]. right. split; [exact demo_vacant|done]. Qed.

Lemma demo_fits : op_fits demo_save ∧ op_fits demo_save2 ∧ op_fits demo_get.
Proof. cbn. unfold key_ok. split_and!; try done; by vm_compute. Qed.

Lemma default_elem {A} (a : A) l n : default a (l !! n) ∈ a :: l.
Proof. destruct (l !! n) as [x|] eqn:E; cbn; [right; by eapply list_elem_of_lookup_2|by left]. Qed.

Lemma demo_rooms : room (slotPath_ demo_slot) demo_disk = true ∧ room (slotPath_ (outcome demo_run).1) (final demo_run) = true
  ∧ room (slotPath_ (reopened (outcome demo_run).1)) demo_crash = true.
Proof. vm_compute. done. Qed.

Lemma demo_trace : slot_trace demo_slot demo_disk
  (Did demo_save (outcome demo_run).2 :: [Crashed demo_save2] ++ [Did demo_get (outcome demo_read).2]) (outcome demo_read).1 (final demo_read).
Proof.
  destruct demo_fits as (F1 & F2 & F3). destruct demo_rooms as (R1 & R2 & R3).
  apply trace_op; [exact F1|exact R1|reflexivity|]. apply (trace_crash _ _ _ demo_crash); [exact F2|exact R2|apply default_elem|].
  apply trace_op; [exact F3|exact R3|reflexivity|]. apply trace_nil.
Qed.

Lemma slot_refines_store_witness : ∃ σ',
  store_trace empty_store (Did demo_save (outcome demo_run).2 :: [Crashed demo_save2] ++ [Did demo_get (outcome demo_read).2]) σ'
  ∧ usable (outcome demo_read).1 σ' (final demo_read).
Proof. exact (slot_refines_store _ _ _ _ _ _ demo_usable demo_trace). Defined.

Lemma slot_operation_atomic_witness :
  (outcome demo_run).2 = Ok [] ∧ usable (outcome demo_run).1 (spec_op demo_save empty_store).1 (final demo_run).
Proof. exact (proj2 (slot_operation_atomic _ _ _ demo_save demo_usable (proj1 demo_rooms) (proj1 demo_fits))). Defined.

Lemma saved_object_survives_witness : (outcome demo_run).2 = Ok [] ∧ (outcome demo_read).2 = Ok (lit_str "hello world").
Proof.
  apply (saved_object_survives demo_slot (outcome demo_read).1 demo_disk (final demo_read) empty_store (lit_str "k1") (lit_str "hello world") 5 1 0
    [Crashed demo_save2]); [exact demo_usable|reflexivity|lia|reflexivity|exact demo_trace].
Defined.

End SlotRefine.
