(* ===== verification/SlotCompact.v ===== *)
(** * SlotCompact: compaction of a slot

    Model of [src/datasystem/common/l2cache/slot_client/slot_compactor.{h,cpp}] and of [Slot::Compact]: the live objects of
    a slot are copied to new data files with a new index, records that are saved meanwhile are caught up
    with, and the manifest is switched over.  The theorem is about a save that comes between.

    [Compact] holds the lock of the slot only in parts, so it is the composition of programs between which
    other operations of the slot can run: [compact_prepare], [compact_build], the rounds of
    [compact_catchup], [compact_final_delta] and [compact_commit]. *)
From S2P Require Import Prelude NetUtil KeyHelper SlotFile SlotIndex SlotManifest SlotSnapshot SlotPlan Slot.
From Stdlib Require Import Ascii String.
Import NetUtil KeyHelper SlotFile FileUtil SlotNames DiskSpec SlotIndex SlotText SlotManifest SlotSnapshot SlotPlan.
Import SlotWriter Slot SlotFiles SlotTransfer SlotOps.

Module SlotCompactor.
Local Open Scope Z_scope.

Record SlotCompactBuildResult := MkResult { res_indexFile : chars; res_dataFiles : list chars }.

Definition INDEX_BUFFER_BYTES : Z := 1024 * 1024.

(** The variables of a build: the result so far, the current target file, the index file and its buffer, and the source files that are
    open. *)
Record builder := MkBuilder {
  b_result : SlotCompactBuildResult;
  b_nextFileId : Z;
  b_targetFd : option nat;
  b_targetSize : Z;
  b_indexFd : option nat;
  b_indexOffset : Z;
  b_indexBuffer : chars;
  b_sourceFds : gmap Z nat
}.
Definition builder_init (result : SlotCompactBuildResult) : builder := MkBuilder result 0 None 0 None 0 [] ∅.

Definition set_result (x : SlotCompactBuildResult) (b : builder) : builder :=
  MkBuilder x (b_nextFileId b) (b_targetFd b) (b_targetSize b) (b_indexFd b) (b_indexOffset b) (b_indexBuffer b) (b_sourceFds b).
Definition set_nextFileId (x : Z) (b : builder) : builder :=
  MkBuilder (b_result b) x (b_targetFd b) (b_targetSize b) (b_indexFd b) (b_indexOffset b) (b_indexBuffer b) (b_sourceFds b).
Definition set_target (fd : option nat) (size : Z) (b : builder) : builder :=
  MkBuilder (b_result b) (b_nextFileId b) fd size (b_indexFd b) (b_indexOffset b) (b_indexBuffer b) (b_sourceFds b).
Definition set_index (fd : option nat) (offset : Z) (buffer : chars) (b : builder) : builder :=
  MkBuilder (b_result b) (b_nextFileId b) (b_targetFd b) (b_targetSize b) fd offset buffer (b_sourceFds b).
Definition set_sourceFds (x : gmap Z nat) (b : builder) : builder :=
  MkBuilder (b_result b) (b_nextFileId b) (b_targetFd b) (b_targetSize b) (b_indexFd b) (b_indexOffset b) (b_indexBuffer b) x.

(** [CopyRecordToTargetFile], chunk by chunk. *)
Fixpoint copy_chunks (fuel : nat) (sourceFd targetFd : nat) (bufferSize readOffset writeOffset remaining : Z) : io (res unit) :=
  if remaining <=? 0 then ret (Ok tt)
  else match fuel with
       | O => ret (Fail K_IO_ERROR)
       | S fuel' =>
         let bytesToCopy := Z.min remaining bufferSize in
         do! bytes := ReadFile sourceFd bytesToCopy (i64 readOffset) in
         do! _ := WriteFile targetFd bytes (i64 writeOffset) in
         copy_chunks fuel' sourceFd targetFd bufferSize (u64 (readOffset + bytesToCopy)) (u64 (writeOffset + bytesToCopy)) (remaining - bytesToCopy)
       end.

Definition CopyRecordToTargetFile (sourceFd : nat) (sourceOffset size : Z) (targetFd : nat) (targetOffset : Z) : io (res unit) :=
  io! fileSize := FdFileSize sourceFd in
  copy_chunks (S (Z.to_nat fileSize)) sourceFd targetFd (Z.min size SLOT_IO_CHUNK_BYTES) sourceOffset targetOffset size.

(** [openTargetDataFile]: in a catch-up a file that is the last one already is not listed again. *)
Definition openTargetDataFile (catchup : bool) (slotPath : chars) (fileId : Z) : prog builder unit :=
  let filename := FormatDataFileName fileId in
  let* _ := modify (set_target None 0) in
  let* _ := modify (λ b, let files := res_dataFiles (b_result b) in
     if catchup && bool_decide (last files = Some filename) then b
     else set_result (MkResult (res_indexFile (b_result b)) (files ++ [filename])) b) in
  let* x := lift (open_data (slotPath, filename)) in
  modify (set_target (Some x.1) x.2).

Definition open_next (catchup : bool) (slotPath : chars) : prog builder unit :=
  let* _ := modify (λ b, set_nextFileId (u32 (b_nextFileId b + 1)) b) in
  let* id := read b_nextFileId in
  openTargetDataFile catchup slotPath id.

Definition flush_index : prog builder unit := λ b,
  match b_indexFd b with
  | None => ret (b, Fail K_INVALID)
  | Some fd =>
    (let* offset := lift (AppendEncodedRecords_fd fd (b_indexOffset b) (b_indexBuffer b)) in
     modify (set_index (Some fd) offset [])) b
  end.

Definition flush_index_if_full : prog builder unit := λ b,
  if INDEX_BUFFER_BYTES <=? zsize (b_indexBuffer b) then flush_index b else ret (b, Ok tt).

Definition append_index (encoded : chars) : prog builder unit :=
  modify (λ b, set_index (b_indexFd b) (b_indexOffset b) (b_indexBuffer b ++ encoded) b).

Definition source_fd (slotPath : chars) (fileId : Z) : prog builder nat := λ b,
  match b_sourceFds b !! fileId with
  | Some fd => ret (b, Ok fd)
  | None => (let* fd := lift (OpenFile (slotPath, FormatDataFileName fileId)) in
             let* _ := modify (set_sourceFds (<[fileId := fd]> (b_sourceFds b))) in done fd) b
  end.

(** The body of the two loops for a put: where the object goes, its copy and its new record. *)
Definition copy_put (catchup : bool) (slotPath : chars) (maxDataFileBytes : Z) (p : SlotPutRecord) : prog builder unit :=
  let* sourceFd := source_fd slotPath (put_fileId p) in
  let* b := read id in
  let* _ := (if bool_decide (b_targetFd b = None) then
               let* _ := modify (λ b, set_nextFileId (if b_nextFileId b =? 0 then 1 else b_nextFileId b) b) in
               let* id := read b_nextFileId in openTargetDataFile catchup slotPath id
             else done tt) in
  let dedicateFile := maxDataFileBytes <=? put_size p in
  let* size := read b_targetSize in
  let* _ := (if negb dedicateFile && (maxDataFileBytes <? u64 (size + put_size p)) && (0 <? size) then open_next catchup slotPath else done tt) in
  let* size := read b_targetSize in
  let* _ := (if dedicateFile && (0 <? size) then open_next catchup slotPath else done tt) in
  let offset := if dedicateFile && (0 <? size) then 0 else size in
  let* b := read id in
  let* targetFd := (match b_targetFd b with Some fd => done fd | None => fail K_INVALID end) in
  let* _ := lift (CopyRecordToTargetFile sourceFd (put_offset p) (put_size p) targetFd offset) in
  let compacted := MkPut (put_key p) (b_nextFileId b) offset (put_size p) (put_version p) (put_writeMode p) (put_ttlSecond p) in
  let* encoded := lift (ret (EncodePut compacted)) in
  let* _ := append_index encoded in
  let* _ := modify (λ b, set_target (b_targetFd b) (u64 (offset + put_size p)) b) in
  if dedicateFile then open_next catchup slotPath else done tt.

(** The order in which the puts are copied. *)
Definition copy_before (a b : SlotPutRecord) : Prop :=
  put_fileId a < put_fileId b
  ∨ put_fileId a = put_fileId b ∧ (put_offset a < put_offset b ∨ put_offset a = put_offset b ∧ put_before a b).
#[export] Instance copy_before_dec a b : Decision (copy_before a b).
Proof. unfold copy_before. apply _. Defined.

Fixpoint copy_puts (slotPath : chars) (maxDataFileBytes : Z) (puts : list SlotPutRecord) : prog builder unit :=
  match puts with
  | [] => done tt
  | p :: puts' =>
    let* _ := copy_put false slotPath maxDataFileBytes p in
    let* _ := flush_index_if_full in
    copy_puts slotPath maxDataFileBytes puts'
  end.

Fixpoint first_free_index (fuel : nat) (slotPath : chars) (reserved : list chars) (candidateEpochMs : Z) : io (res chars) :=
  match fuel with
  | O => ret (Fail K_RUNTIME_ERROR)
  | S fuel' =>
    let candidate := FormatCompactIndexFileName candidateEpochMs in
    io! e := FileExist (slotPath, candidate) in
    if bool_decide (candidate ∈ reserved) || e then first_free_index fuel' slotPath reserved (u64 (candidateEpochMs + 1))
    else ret (Ok candidate)
  end.

Definition AllocateCompactIndexFile (slotPath : chars) (m : SlotManifestData) (compactEpochMs : Z) : io (res chars) :=
  first_free_index (Z.to_nat 1024) slotPath (m_activeIndex m :: filter (λ n, n ≠ []) [m_pendingIndex m; m_obsoleteIndex m]) compactEpochMs.

Definition GetNextDataFileId (slotPath : chars) (m : SlotManifestData) : io (res Z) :=
  do! names := Glob slotPath (lit_str "data_") (lit_str ".bin") in
  let maxFileId := foldl max_id 0 (names ++ m_activeData m ++ m_pendingData m ++ m_obsoleteData m) in
  ret (Ok (if maxFileId =? 0 then 1 else u32 (maxFileId + 1))).

Definition delete_if_exists (p : path) : io unit :=
  io! e := FileExist p in
  if e : bool then io! _ := DeleteFile p in ret tt else ret tt.

Fixpoint delete_each (slotPath : chars) (names : list chars) : io unit :=
  match names with [] => ret tt | n :: ns => io! _ := delete_if_exists (slotPath, n) in delete_each slotPath ns end.

Definition CleanupArtifacts (slotPath : chars) (result : SlotCompactBuildResult) : io unit :=
  io! _ := (if nonempty (res_indexFile result) then delete_if_exists (slotPath, res_indexFile result) else ret tt) in
  delete_each slotPath (res_dataFiles result).

Definition build_artifacts (slotPath : chars) (maxDataFileBytes : Z) (m : SlotManifestData) (snapshot : SlotSnapshot) (compactEpochMs : Z) :
    prog builder unit :=
  let* indexFile := lift (AllocateCompactIndexFile slotPath m compactEpochMs) in
  let* _ := modify (λ b, set_result (MkResult indexFile (res_dataFiles (b_result b))) b) in
  let* x := lift (open_index (slotPath, indexFile)) in
  let* _ := modify (set_index (Some x.1) x.2 []) in
  let visiblePuts := merge_sort copy_before (CollectVisiblePuts snapshot) in
  let* nextFileId := lift (GetNextDataFileId slotPath m) in
  let* _ := modify (set_nextFileId nextFileId) in
  let* _ := openTargetDataFile false slotPath nextFileId in
  if bool_decide (visiblePuts = []) then done tt
  else
    let* _ := copy_puts slotPath maxDataFileBytes visiblePuts in
    flush_index.

(** [BuildArtifacts]: what was made is removed on failure. *)
Definition BuildArtifacts (slotPath : chars) (maxDataFileBytes : Z) (m : SlotManifestData) (snapshot : SlotSnapshot) (compactEpochMs : Z) :
    io (res SlotCompactBuildResult) :=
  io! x := build_artifacts slotPath maxDataFileBytes m snapshot compactEpochMs (builder_init (MkResult [] [])) in
  match x.2 with
  | Ok _ => ret (Ok (b_result x.1))
  | Fail c => io! _ := CleanupArtifacts slotPath (b_result x.1) in ret (Fail c)
  end.

Fixpoint apply_delta (slotPath : chars) (maxDataFileBytes : Z) (records : list SlotRecord) : prog builder unit :=
  match records with
  | [] => done tt
  | r :: rs =>
    let* _ := (match r with
               | PUT p => copy_put true slotPath maxDataFileBytes p
               | DELETE x => let* encoded := lift (ret (EncodeDelete x)) in append_index encoded
               | IMPORT_BEGIN _ | IMPORT_END _ => fail K_TRY_AGAIN
               end) in
    let* _ := flush_index_if_full in
    apply_delta slotPath maxDataFileBytes rs
  end.

(** [ApplyDeltaRecords] updates the result it is given, also when it fails. *)
Definition ApplyDeltaRecords (slotPath : chars) (maxDataFileBytes : Z) (records : list SlotRecord) : prog SlotCompactBuildResult unit := λ result,
  if negb (nonempty (res_indexFile result)) then ret (result, Fail K_INVALID)
  else if bool_decide (records = []) then ret (result, Ok tt)
  else
    io! x := (let* x := lift (open_index (slotPath, res_indexFile result)) in
              let* _ := modify (set_index (Some x.1) x.2 []) in
              let* _ := (match last (res_dataFiles result) with
                         | None => done tt
                         | Some f => let* id := lift (ret (ParseDataFileId f)) in
                                     let* _ := modify (set_nextFileId id) in
                                     openTargetDataFile true slotPath id
                         end) in
              let* _ := apply_delta slotPath maxDataFileBytes records in
              flush_index) (builder_init result) in
    ret (b_result x.1, x.2).

End SlotCompactor.

Module SlotCompact.
Import SlotCompactor.
Local Open Scope Z_scope.

Definition DISTRIBUTED_DISK_COMPACT_CUTOVER_BYTES : Z := 1024 * 1024.
Definition DISTRIBUTED_DISK_COMPACT_CUTOVER_RECORDS : Z := 1024.

(** What [Compact] remembers: the manifest it started from, the index up to which records are copied, and
    the files it has built. *)
Record compaction := MkCompaction {
  c_base : SlotManifestData;
  c_frontier : Z;
  c_epochMs : Z;
  c_result : SlotCompactBuildResult
}.

Definition CheckCompactTransferPreemptionLocked : method unit := λ s,
  (require* negb (transferIntentActive_ s) else K_TRY_AGAIN in done tt) s.

Fixpoint delta_frames (frames : list SlotRecordFrame) (startOff endOff : Z) : res (list SlotRecord) :=
  match frames with
  | [] => Ok []
  | f :: fs =>
    if endOffset f <=? startOff then delta_frames fs startOff endOff
    else if endOff <=? startOffset f then Ok []
    else
      check! (startOff <=? startOffset f) && (endOffset f <=? endOff) else K_RUNTIME_ERROR in
      let! rs := delta_frames fs startOff endOff in Ok (frame_record f :: rs)
  end.

(** [ReadIndexDeltaRecords]: the records and their bytes. *)
Definition ReadIndexDeltaRecords (indexPath : path) (startOff endOff : Z) : io (res (list SlotRecord * Z)) :=
  assert! startOff <=? endOff else K_INVALID in
  if endOff =? startOff then ret (Ok ([], 0))
  else
    do! x := ReadAllRecordFrames indexPath in
    assert! endOff <=? x.2 else K_RUNTIME_ERROR in
    do! rs := ret (delta_frames x.1 startOff endOff) in
    ret (Ok (rs, endOff - startOff)).

(** The first locked section: the manifest, the snapshot and the frontier. *)
Definition compact_prepare : method (SlotManifestData * SlotSnapshot * Z) :=
  let* _ := Repair in
  let* _ := EnsureRuntimeReadyLocked in
  let* _ := FlushRuntimeLocked true in
  let* _ := CheckCompactTransferPreemptionLocked in
  let* m := manifest_of in
  let* _ := EnsureWritable m in
  read (λ s, (rt_manifest (runtime_ s), rt_snapshot (runtime_ s), activeIndexSize_ (writer_ s))).

Definition compact_build (base : SlotManifestData * SlotSnapshot * Z) (compactEpochMs : Z) : method compaction := λ s,
  let '(m, snapshot, frontier) := base in
  (let* result := lift (BuildArtifacts (slotPath_ s) (maxDataFileBytes_ s) m snapshot compactEpochMs) in
   done (MkCompaction m frontier compactEpochMs result)) s.

(** A program of the compaction: the slot and the files built so far are passed on. *)
Definition on_slot {A} (p : method A) : prog (Slot * compaction) A := λ x,
  io! y := p x.1 in ret ((y.1, x.2), y.2).
Definition on_result {A} (p : prog SlotCompactBuildResult A) : prog (Slot * compaction) A := λ x,
  io! y := p (c_result x.2) in
  ret ((x.1, MkCompaction (c_base x.2) (c_frontier x.2) (c_epochMs x.2) y.1), y.2).
Definition set_frontier (f : Z) (c : compaction) : compaction := MkCompaction (c_base c) f (c_epochMs c) (c_result c).

(** The locked part of a round: the frontier up to which there is something to catch up with. *)
Definition check_frontier : prog (Slot * compaction) Z := λ x,
  on_slot (let* _ := EnsureRuntimeReadyLocked in
           let* _ := CheckCompactTransferPreemptionLocked in
           let* m := manifest_of in
           let* _ := EnsureWritable m in
           require* bool_decide (m_activeIndex m = m_activeIndex (c_base x.2)) else K_TRY_AGAIN in
           let* _ := FlushRuntimeLocked true in
           read (λ s, activeIndexSize_ (writer_ s))) x.

Definition delta_to (frontier : Z) : prog (Slot * compaction) (list SlotRecord * Z) := λ x,
  lift (ReadIndexDeltaRecords (slotPath_ x.1, m_activeIndex (c_base x.2)) (c_frontier x.2) frontier) x.

(** A round of the catch-up loop: whether it was the last one. *)
Definition compact_catchup : prog (Slot * compaction) bool := λ x,
  (let* catchupFrontier := check_frontier in
   let* y := delta_to catchupFrontier in
   let '(deltaRecords, deltaBytes) := y in
   let* _ := (if bool_decide (deltaRecords = []) then done tt
              else
                let* _ := on_result (ApplyDeltaRecords (slotPath_ x.1) (maxDataFileBytes_ x.1) deltaRecords) in
                modify (λ x, (x.1, set_frontier catchupFrontier x.2))) in
   done ((deltaBytes <=? DISTRIBUTED_DISK_COMPACT_CUTOVER_BYTES)
         && (Z.of_nat (List.length deltaRecords) <=? DISTRIBUTED_DISK_COMPACT_CUTOVER_RECORDS))) x.

(** The last locked section up to the first manifest: the final records, and the manifest that commits to the new files. *)
Definition compact_final_delta : prog (Slot * compaction) SlotManifestData := λ x,
  (let* finalFrontier := check_frontier in
   let* y := delta_to finalFrontier in
   let* _ := (if bool_decide (y.1 = []) then done tt
              else on_result (ApplyDeltaRecords (slotPath_ x.1) (maxDataFileBytes_ x.1) y.1)) in
   on_slot manifest_of) x.

Definition switching_manifest (m : SlotManifestData) (c : compaction) : SlotManifestData :=
  set_state IN_OPERATION (set_opType COMPACT (set_opPhase COMPACT_COMMITTING (set_role LOCAL
    (set_txnId (u64_to_string (c_epochMs c)) (set_pendingIndex (res_indexFile (c_result c))
      (set_pendingData (res_dataFiles (c_result c)) (set_lastCompactEpochMs (c_epochMs c) m))))))).

Definition active_manifest (m : SlotManifestData) (c : compaction) : SlotManifestData :=
  set_pendingData [] (set_pendingIndex [] (set_gcPending true
    (set_activeData (res_dataFiles (c_result c)) (set_activeIndex (res_indexFile (c_result c))
      (set_obsoleteData (m_activeData m) (set_obsoleteIndex (m_activeIndex m) (to_normal (switching_manifest m c)))))))).

(** From here on the new files are kept. *)
Definition compact_commit (m : SlotManifestData) (c : compaction) : method unit :=
  let* _ := PersistManifest (switching_manifest m c) in
  let* _ := PersistManifest (active_manifest m c) in
  let* _ := ContinueGc (active_manifest m c) in
  let* _ := ResetRuntimeLocked in
  BuildRuntimeStateLocked.

Fixpoint catchup_loop (rounds : nat) : prog (Slot * compaction) unit :=
  match rounds with
  | O => fail K_TRY_AGAIN
  | S rounds' => let* last_ := compact_catchup in if last_ : bool then done tt else catchup_loop rounds'
  end.

(** [Compact] with another operation that gets the lock of the slot after the files are built; the number of rounds
    is not bounded in the code, and one is enough when no record is added during it. *)
Definition compact_during (other : method unit) (compactEpochMs : Z) (rounds : nat) : method unit := λ s,
  (let* base := compact_prepare in
   let* c := compact_build base compactEpochMs in
   let* _ := other in
   λ s,
     io! y := (let* _ := catchup_loop rounds in compact_final_delta) (s, c) in
     match y.2 with
     | Ok m => compact_commit m y.1.2 y.1.1
     | Fail code => io! _ := CleanupArtifacts (slotPath_ s) (c_result y.1.2) in ret (y.1.1, Fail code)
     end) s.

(** [Compact] when nothing else runs. *)
Definition Compact : Z → nat → method unit := compact_during (done tt).

(** ** A save during a compaction *)
(** A slot with data files of at most 20 bytes, on an empty disk. *)
Definition race_slot : Slot := Slot_new 1 (lit_str "/slot_0001") 20 1000 100 0.
Definition race_disk : disk := MkDisk ∅ ∅ 0.

Definition race_history : method unit :=
  let* _ := Save (lit_str "k1") 5 (lit_str "hello world") 1 0 in
  let* _ := Save (lit_str "k2") 6 (lit_str "second body here") 1 0 in
  let* _ := Save (lit_str "k3") 6 (lit_str "a body of thirty bytes, on its") 1 0 in
  let* _ := Save (lit_str "k1") 7 (lit_str "new") 1 0 in
  Delete (lit_str "k2") 6 false.

(** What [Get] returns after the history, a compaction during which [other] runs, and nothing else. *)
Definition get_after_compaction (other : method unit) (key : chars) (version : Z) : res chars :=
  (outcome ((let* _ := race_history in
             let* _ := compact_during other 1000 1 in
             Get key version) race_slot race_disk)).2.

Definition race_save : method unit := Save (lit_str "k9") 1 (lit_str "nineteen byte body!") 1 0.

(** A save that is accepted while a compaction runs can destroy another object.  The save rotates to the
    next data file that the manifest does not list, which is a file that the compaction has already
    filled but not yet committed; the cutover then lists this file both as active and as obsolete, and
    its garbage collection deletes it.  The object [k1] of
    version 5 can be read after a compaction, and is gone when [k9] is saved during it, although both operations
    succeed and [k1] was never deleted. *)
Example compaction_loses_object :
  get_after_compaction (done tt) (lit_str "k1") 5 = Ok (lit_str "hello world")
  ∧ get_after_compaction race_save (lit_str "k9") 1 = Ok (lit_str "nineteen byte body!")
  ∧ get_after_compaction race_save (lit_str "k1") 5 = Fail K_NOT_FOUND_IN_L2CACHE.
Proof. vm_compute. repeat split. Qed.

End SlotCompact.
