(* ===== verification/EvictionList.v ===== *)
(** * EvictionList: the clock that chooses the objects a worker evicts

    Model of [src/datasystem/worker/object_cache/eviction_list.{h,cpp}].  The objects are nodes of a linked list with a hand,
    [oldest_], on one of them; [indexTable_] finds the node of a key.  A node carries a counter: an access raises it, the hand
    lowers it as it goes round, and the first node the hand finds at zero is the candidate.

    [oldest_] and the entries of [indexTable_] are iterators.  A node is therefore a number with its contents, an iterator is the
    number of its node, [None] is [end()] or an iterator that has not been assigned, and dereferencing or advancing anything that is
    not a node of the list is undefined behaviour: such a call has the outcome [None].

    [Add] and [Erase] take the lock of the key's entry in [indexTable_] first and the mutex of the list after that, so
    operations on other keys run between the two: they are cut there ([Add_index], [Add_list], [Erase_find], [Erase_list]), and [step] is
    their interleaving.  The other operations hold the mutex throughout. *)
From S2P Require Import Prelude.

Module EvictionList.
Local Open Scope Z_scope.

Definition Q1 : Z := 1.
Definition Q2 : Z := 2.
Definition Q3 : Z := 3.
Definition READD_COUNTER : Z := 5.

Record Node := MkNode { objectKey : string; curCounter : Z; maxCounter : Z }.
Definition NewNode (objKey : string) (curCnt : Z) : Node := MkNode objKey curCnt curCnt.

Abbreviation iterator := (option nat).
(** [next_] is the number the next node gets. *)
Record evlist := MkList { list_ : list (nat * Node); oldest_ : iterator; indexTable_ : gmap string iterator; next_ : nat }.

Definition EvictionList : evlist := MkList [] None ∅ 0.

(** ** std::list *)
Definition begin_ (l : list (nat * Node)) : iterator := fst <$> head l.

(** [*it]. *)
Fixpoint deref (it : nat) (l : list (nat * Node)) : option Node :=
  match l with
  | [] => None
  | (i, n) :: l' => if bool_decide (i = it) then Some n else deref it l'
  end.

(** [++it]; the outer [None] is undefined behaviour. *)
Fixpoint incr (it : nat) (l : list (nat * Node)) : option iterator :=
  match l with
  | [] => None
  | (i, _) :: l' => if bool_decide (i = it) then Some (begin_ l') else incr it l'
  end.

(** Assignments to the fields of [*it]. *)
Fixpoint update (it : nat) (f : Node → Node) (l : list (nat * Node)) : list (nat * Node) :=
  match l with
  | [] => []
  | (i, n) :: l' => if bool_decide (i = it) then (i, f n) :: l' else (i, n) :: update it f l'
  end.

(** [list_.erase(it)]. *)
Fixpoint erase (it : nat) (l : list (nat * Node)) : list (nat * Node) :=
  match l with
  | [] => []
  | (i, n) :: l' => if bool_decide (i = it) then l' else (i, n) :: erase it l'
  end.

(** ** Add *)
(** [indexTable_.insert(accessor, objectKey)], which takes the lock of the entry. *)
Definition Add_index (s : evlist) (k : string) : evlist * bool :=
  match indexTable_ s !! k with
  | Some _ => (s, false)
  | None => (MkList (list_ s) (oldest_ s) (<[k := None]> (indexTable_ s)) (next_ s), true)
  end.

Definition count_access (n : Node) : Node :=
  if curCounter n <? maxCounter n then MkNode (objectKey n) ((curCounter n + 1) mod 256) (maxCounter n) else n.

(** The section under [listMutex_]; [throws] says whether [emplace_back] does. *)
Definition Add_list (s : evlist) (k : string) (counter : Z) (inserted throws : bool) : option evlist :=
  if inserted then
    if throws then Some (MkList (list_ s) (oldest_ s) (delete k (indexTable_ s)) (next_ s))
    else
      let l := list_ s ++ [(next_ s, NewNode k counter)] in
      Some (MkList l (if bool_decide (List.length l = 1%nat) then begin_ l else oldest_ s)
              (<[k := Some (next_ s)]> (indexTable_ s)) (S (next_ s)))
  else
    match indexTable_ s !! k with
    | Some (Some it) =>
      match deref it (list_ s) with
      | Some _ => Some (MkList (update it count_access (list_ s)) (oldest_ s) (indexTable_ s) (next_ s))
      | None => None
      end
    | _ => None
    end.

Definition Add (s : evlist) (k : string) (counter : Z) (throws : bool) : option evlist :=
  let '(s1, inserted) := Add_index s k in Add_list s1 k counter inserted throws.

(** ** Erase *)
Definition Erase_find (s : evlist) (k : string) : bool := bool_decide (is_Some (indexTable_ s !! k)).

(** The section under [listMutex_]: the hand leaves the node first, and goes to the beginning when it was the last. *)
Definition Erase_list (s : evlist) (k : string) : option evlist :=
  match oldest_ s, indexTable_ s !! k with
  | Some o, Some (Some it) =>
    match deref o (list_ s), deref it (list_ s), incr o (list_ s) with
    | Some n, Some _, Some next =>
      let moved := if bool_decide (objectKey n = k) then next else Some o in
      let reassign := bool_decide (objectKey n = k) && bool_decide (next = None) in
      let l := erase it (list_ s) in
      Some (MkList l (if reassign then begin_ l else moved) (delete k (indexTable_ s)) (next_ s))
    | _, _, _ => None
    end
  | _, _ => None
  end.

Definition Erase (s : evlist) (k : string) : option (evlist * res unit) :=
  if Erase_find s k then s' ← Erase_list s k; Some (s', Ok tt) else Some (s, Fail K_NOT_FOUND).

Definition Size (s : evlist) : nat := List.length (list_ s).

(** ** FindEvictCandidate *)
Definition lower (n : Node) : Node := MkNode (objectKey n) ((curCounter n - 1) mod 256) (maxCounter n).

Fixpoint find_loop (fuel : nat) (it : nat) (l : list (nat * Node)) : option (list (nat * Node) * nat * string) :=
  match fuel with
  | O => None
  | S fuel' =>
    match deref it l with
    | None => None
    | Some n =>
      if bool_decide (curCounter n = 0) then Some (l, it, objectKey n)
      else
        let l' := update it lower l in
        match incr it l' with
        | None => None
        | Some (Some next) => find_loop fuel' next l'
        | Some None => match begin_ l' with Some next => find_loop fuel' next l' | None => None end
        end
    end
  end.

(** A counter is a [uint8_t], so the hand goes round at most 256 times. *)
Definition find_fuel (s : evlist) : nat := 256 * List.length (list_ s).

Definition FindEvictCandidate (s : evlist) : option (evlist * res string) :=
  if bool_decide (list_ s = []) then Some (s, Fail K_RUNTIME_ERROR)
  else
    match oldest_ s with
    | None => None
    | Some o => '(l, it, k) ← find_loop (find_fuel s) o (list_ s); Some (MkList l (Some it) (indexTable_ s) (next_ s), Ok k)
    end.

(** ** Reading *)
Definition GetObjectInfo (s : evlist) (k : string) : option (res Node) :=
  match indexTable_ s !! k with
  | None => Some (Fail K_NOT_FOUND)
  | Some (Some it) => Ok <$> deref it (list_ s)
  | Some None => None
  end.

Definition GetOldestObjectInfo (s : evlist) : option (res Node) :=
  if bool_decide (list_ s = []) then Some (Fail K_RUNTIME_ERROR)
  else o ← oldest_ s; Ok <$> deref o (list_ s).

(** The loop both snapshots share: copy the node, advance, wrap, until the scan is long enough or is back at [o]. *)
Fixpoint scan (count : nat) (it o : nat) (l : list (nat * Node)) : option (list Node) :=
  match count with
  | O => Some []
  | S count' =>
    n ← deref it l;
    next ← incr it l;
    next ← (match next with Some j => Some j | None => begin_ l end);
    if bool_decide (next = o) then Some [n] else rest ← scan count' next o l; Some (n :: rest)
  end.

(** The loop has no bound of its own; one round is as many nodes as there are. *)
Definition GetAllObjectsInfo (s : evlist) : option (list Node * option Node) :=
  if bool_decide (list_ s = []) then Some ([], None)
  else
    o ← oldest_ s;
    n ← deref o (list_ s);
    nodes ← scan (S (List.length (list_ s))) o o (list_ s);
    Some (nodes, Some n).

Definition GetObjectsInfoFromOldest (s : evlist) (maxScanCount : nat) : option (list Node) :=
  if bool_decide (maxScanCount = 0%nat) then Some []
  else if bool_decide (list_ s = []) then Some []
  else o ← oldest_ s; scan maxScanCount o o (list_ s).

(** [count] does not take the lock of the entry. *)
Definition Exist (s : evlist) (k : string) : bool := bool_decide (is_Some (indexTable_ s !! k)).

(** ** The interleaving of the threads

    A thread that is between the two locks of [Add] or [Erase] holds the entry of its key, and no other can take it. *)
Inductive pending := Adding (counter : Z) (inserted : bool) | Erasing.
Record world := MkWorld { w_list : evlist; w_locks : gmap string pending }.
Inductive call := CAddIndex (k : string) (counter : Z) | CAddList (k : string) (counter : Z) (throws : bool) | CEraseFind (k : string)
  | CEraseList (k : string) | CFind | CAll | CFromOldest (n : nat) | COldest | CInfo (k : string).
(** What the caller gets: nothing, a status, a key, or nodes. *)
Inductive answer := AVoid | AStatus (r : res unit) | AKey (r : res string) | ANode (r : res Node) | ANodes (l : list Node).

(** A step ends in a world and an answer, or in [None] when it is undefined. *)
Inductive step : world → call → option (world * answer) → Prop :=
| step_add_index s locks k c s' inserted :
    locks !! k = None → 0 ≤ c < 256 → Add_index s k = (s', inserted) →
    step (MkWorld s locks) (CAddIndex k c) (Some (MkWorld s' (<[k := Adding c inserted]> locks), AVoid))
| step_add_list s locks k c inserted throws :
    locks !! k = Some (Adding c inserted) →
    step (MkWorld s locks) (CAddList k c throws)
      (s' ← Add_list s k c inserted throws; Some (MkWorld s' (delete k locks), AVoid))
| step_erase_missing s locks k :
    locks !! k = None → Erase_find s k = false →
    step (MkWorld s locks) (CEraseFind k) (Some (MkWorld s locks, AStatus (Fail K_NOT_FOUND)))
| step_erase_find s locks k :
    locks !! k = None → Erase_find s k = true →
    step (MkWorld s locks) (CEraseFind k) (Some (MkWorld s (<[k := Erasing]> locks), AVoid))
| step_erase_list s locks k :
    locks !! k = Some Erasing →
    step (MkWorld s locks) (CEraseList k) (s' ← Erase_list s k; Some (MkWorld s' (delete k locks), AStatus (Ok tt)))
| step_find s locks :
    step (MkWorld s locks) CFind ('(s', r) ← FindEvictCandidate s; Some (MkWorld s' locks, AKey r))
| step_all s locks :
    step (MkWorld s locks) CAll ('(l, _) ← GetAllObjectsInfo s; Some (MkWorld s locks, ANodes l))
| step_from_oldest s locks n :
    step (MkWorld s locks) (CFromOldest n) (l ← GetObjectsInfoFromOldest s n; Some (MkWorld s locks, ANodes l))
| step_oldest s locks :
    step (MkWorld s locks) COldest (r ← GetOldestObjectInfo s; Some (MkWorld s locks, ANode r))
| step_info s locks k :
    locks !! k = None →
    step (MkWorld s locks) (CInfo k) (r ← GetObjectInfo s k; Some (MkWorld s locks, ANode r)).

Inductive reachable : world → Prop :=
| reach_init : reachable (MkWorld EvictionList ∅)
| reach_step w c w' a : reachable w → step w c (Some (w', a)) → reachable w'.

(** ** The clock the list promises to be

    The nodes before the hand, and those from the hand on. *)
Record clock := MkClock { before : list Node; from : list Node }.

Definition ring (z : clock) : list Node := from z ++ before z.
Definition nodes (z : clock) : list Node := before z ++ from z.
Definition norm (b f : list Node) : clock := match f with [] => MkClock [] b | _ => MkClock b f end.
Definition has_key (k : string) (l : list Node) : bool := bool_decide (k ∈ (objectKey <$> l)).
Definition others (k : string) (l : list Node) : list Node := filter (λ n, objectKey n ≠ k) l.
Definition access (k : string) (l : list Node) : list Node := (λ n, if bool_decide (objectKey n = k) then count_access n else n) <$> l.

Definition clock_add (z : clock) (k : string) (counter : Z) (throws : bool) : clock :=
  if has_key k (nodes z) then MkClock (access k (before z)) (access k (from z))
  else if throws then z else MkClock (before z) (from z ++ [NewNode k counter]).

Definition clock_erase (z : clock) (k : string) : clock := norm (others k (before z)) (others k (from z)).

(** The candidate is the first node from the hand on with the least counter [m]; it and the nodes after it have lost [m], which
    is one for each full turn, and those the hand has passed since have lost one more. *)
Definition least (l : list Node) : Z := foldr (λ n m, Z.min (curCounter n) m) 255 l.
Fixpoint index_of (m : Z) (l : list Node) : nat :=
  match l with [] => O | n :: l' => if bool_decide (curCounter n = m) then O else S (index_of m l') end.
Definition lose (m : Z) (l : list Node) : list Node := (λ n, MkNode (objectKey n) (curCounter n - m) (maxCounter n)) <$> l.

Definition clock_find (z : clock) : clock :=
  let m := least (ring z) in
  let j := index_of m (ring z) in
  if bool_decide (j < List.length (from z))%nat
  then MkClock (lose m (before z) ++ lose (m + 1) (take j (from z))) (lose m (drop j (from z)))
  else let i := (j - List.length (from z))%nat in
       MkClock (lose (m + 1) (take i (before z))) (lose m (drop i (before z)) ++ lose (m + 1) (from z)).

Definition head_res {A} (l : list A) (c : StatusCode) : res A := match l with [] => Fail c | n :: _ => Ok n end.
Definition node_of (k : string) (l : list Node) : option Node := snd <$> list_find (λ n, objectKey n = k) l.

(** The promised effect of a call and its promised answer. *)
Definition clock_call (z : clock) (c : call) : clock * answer :=
  match c with
  | CAddIndex _ _ => (z, AVoid)
  | CAddList k counter throws => (clock_add z k counter throws, AVoid)
  | CEraseFind k => (z, if has_key k (nodes z) then AVoid else AStatus (Fail K_NOT_FOUND))
  | CEraseList k => (clock_erase z k, AStatus (Ok tt))
  | CFind => (if bool_decide (nodes z = []) then z else clock_find z,
              AKey (let! n := head_res (ring (clock_find z)) K_RUNTIME_ERROR in Ok (objectKey n)))
  | CAll => (z, ANodes (ring z))
  | CFromOldest n => (z, ANodes (take n (ring z)))
  | COldest => (z, ANode (head_res (ring z) K_RUNTIME_ERROR))
  | CInfo k => (z, ANode (from_option Ok (Fail K_NOT_FOUND) (node_of k (nodes z))))
  end.

(** The clock a list is. *)
Fixpoint split_hand (o : iterator) (l : list (nat * Node)) : list Node * list Node :=
  match l with
  | [] => ([], [])
  | (i, n) :: l' => if bool_decide (Some i = o) then ([], snd <$> l) else let '(a, b) := split_hand o l' in (n :: a, b)
  end.
Definition view (s : evlist) : clock := let '(a, b) := split_hand (oldest_ s) (list_ s) in MkClock a b.

(** ** Iterators of a list without repetitions *)
Abbreviation ids := (fmap (M:=list) (fst (A:=nat) (B:=Node))).

Lemma deref_mid a i n b : i ∉ ids a → deref i (a ++ (i, n) :: b) = Some n.
Proof.
  induction a as [|[j x] a IH]; simpl; intros Hi; first by rewrite bool_decide_true.
  rewrite bool_decide_false; [set_solver|]. apply IH. set_solver.
Qed.

Lemma incr_mid a i n b : i ∉ ids a → incr i (a ++ (i, n) :: b) = Some (begin_ b).
Proof.
  induction a as [|[j x] a IH]; simpl; intros Hi; first by rewrite bool_decide_true.
  rewrite bool_decide_false; [set_solver|]. apply IH. set_solver.
Qed.

Lemma update_mid f a i n b : i ∉ ids a → update i f (a ++ (i, n) :: b) = a ++ (i, f n) :: b.
Proof.
  induction a as [|[j x] a IH]; simpl; intros Hi; first by rewrite bool_decide_true.
  rewrite bool_decide_false; [set_solver|]. f_equal. apply IH. set_solver.
Qed.

Lemma erase_mid a i n b : i ∉ ids a → erase i (a ++ (i, n) :: b) = a ++ b.
Proof.
  induction a as [|[j x] a IH]; simpl; intros Hi; first by rewrite bool_decide_true.
  rewrite bool_decide_false; [set_solver|]. f_equal. apply IH. set_solver.
Qed.

Lemma split_hand_mid a i n b : i ∉ ids a → split_hand (Some i) (a ++ (i, n) :: b) = (snd <$> a, n :: (snd <$> b)).
Proof.
  induction a as [|[j x] a IH]; simpl; intros Hi; first by rewrite bool_decide_true.
  rewrite bool_decide_false; [set_solver|]. rewrite IH; [set_solver|done].
Qed.

Lemma ids_mid a i n b : NoDup (ids (a ++ (i, n) :: b)) → (i ∉ ids a) ∧ (i ∉ ids b).
Proof. rewrite fmap_app fmap_cons NoDup_app NoDup_cons /=. set_solver. Qed.

Lemma in_ids i n l : (i, n) ∈ l → i ∈ ids l.
Proof. intros H. apply list_elem_of_fmap. by exists (i, n). Qed.

Lemma ids_set a i n m b : ids (a ++ (i, n) :: b) = ids (a ++ (i, m) :: b).
Proof. by rewrite !fmap_app !fmap_cons. Qed.

Lemma begin_nil : begin_ [] = None.
Proof. done. Qed.
Lemma begin_cons i n l : begin_ ((i, n) :: l) = Some i.
Proof. done. Qed.
Lemma begin_app a b : a ≠ [] → begin_ (a ++ b) = begin_ a.
Proof. by destruct a. Qed.

(** ** The list and its hand *)
Record repr (s : evlist) (pre post : list (nat * Node)) : Prop := {
  r_list : list_ s = pre ++ post;
  r_ids : NoDup (ids (pre ++ post));
  r_next : Forall (λ p, (p.1 < next_ s)%nat) (pre ++ post);
  r_hand : oldest_ s = begin_ post;
  r_end : post = [] → pre = [] }.

Lemma repr_view s pre post : repr s pre post → view s = MkClock (snd <$> pre) (snd <$> post).
Proof.
  intros H. rewrite /view (r_list _ _ _ H) (r_hand _ _ _ H).
  destruct post as [|[i n] post]; simpl; first by rewrite (r_end _ _ _ H).
  rewrite split_hand_mid; [|done]. apply (ids_mid _ _ _ _ (r_ids _ _ _ H)).
Qed.

(** Where a node is. *)
Lemma node_split s pre post i n : repr s pre post → (i, n) ∈ list_ s →
  (∃ a b, pre = a ++ (i, n) :: b) ∨ (∃ b, post = (i, n) :: b) ∨ (∃ o a b, post = o :: a ++ (i, n) :: b).
Proof.
  intros H. rewrite (r_list _ _ _ H) elem_of_app. intros [Hin|Hin].
  - left. by apply list_elem_of_split in Hin.
  - right. apply list_elem_of_split in Hin as ([|o a]&b&->); eauto.
Qed.

(** ** The walk of the hand *)
Fixpoint walk (fuel : nat) (z : clock) : option clock :=
  match fuel with
  | O => None
  | S fuel' =>
    match from z with
    | [] => None
    | n :: f => if bool_decide (curCounter n = 0) then Some z else walk fuel' (norm (before z ++ [lower n]) f)
    end
  end.

Lemma find_loop_walk fuel : ∀ pre i n post,
  NoDup (ids (pre ++ (i, n) :: post)) → ∀ z, walk fuel (MkClock (snd <$> pre) (n :: (snd <$> post))) = Some z →
  ∃ pre' j m post', find_loop fuel i (pre ++ (i, n) :: post) = Some (pre' ++ (j, m) :: post', j, objectKey m) ∧
    ids (pre' ++ (j, m) :: post') = ids (pre ++ (i, n) :: post) ∧ z = MkClock (snd <$> pre') (m :: (snd <$> post')).
Proof.
  induction fuel as [|fuel IH]; [done|]. intros pre i n post Hnd z. pose proof (ids_mid _ _ _ _ Hnd) as [Hi Hi'].
  cbn [walk from before find_loop]. rewrite deref_mid //.
  case_bool_decide; [intros [= <-]; by exists pre, i, n, post|].
  rewrite update_mid // incr_mid //.
  destruct post as [|[j m] post]; rewrite ?fmap_nil ?fmap_cons ?begin_nil ?begin_cons; cbn [norm snd].
  - destruct pre as [|[j m] pre]; rewrite ?fmap_nil ?fmap_cons -?app_comm_cons ?begin_cons; intros Hw.
    + apply (IH [] i (lower n) [] Hnd z) in Hw as (a&j&m&b&H1&H2&H3). by exists a, j, m, b.
    + destruct (IH [] j m (pre ++ [(i, lower n)])) with z as (a&j'&m'&b&H1&H2&H3).
      * eapply eq_ind; [exact Hnd|]. apply (ids_set ((j, m) :: pre) i n (lower n) []).
      * by rewrite fmap_app.
      * exists a, j', m', b. split_and!; [exact H1|rewrite H2|done]. apply (ids_set ((j, m) :: pre) i (lower n) n []).
  - intros Hw. destruct (IH (pre ++ [(i, lower n)]) j m post) with z as (a&j'&m'&b&H1&H2&H3).
    + rewrite -app_assoc. eapply eq_ind; [exact Hnd|]. apply ids_set.
    + by rewrite fmap_app.
    + rewrite -app_assoc in H1; rewrite -app_assoc in H2. exists a, j', m', b. split_and!; [exact H1|rewrite H2; apply ids_set|done].
Qed.

Definition counter_ok (n : Node) : Prop := 0 ≤ curCounter n ≤ maxCounter n ∧ maxCounter n < 256.
Definition turning (n : Node) : Prop := 1 ≤ curCounter n < 256.

Lemma lower_lose a : Forall turning a → lower <$> a = lose 1 a.
Proof.
  intros H. rewrite /lose. apply list_fmap_ext; intros i n Hn. pose proof (Forall_lookup_1 _ _ _ _ H Hn) as Ht.
  rewrite /lower Z.mod_small //. unfold turning in Ht. lia.
Qed.

Lemma lose_lose m p l : lose m (lose p l) = lose (p + m) l.
Proof. rewrite /lose -list_fmap_compose. apply list_fmap_ext; intros i n Hn; simpl. f_equal. lia. Qed.
Lemma lose_0 l : lose 0 l = l.
Proof.
  rewrite /lose. etrans; [|apply list_fmap_id]. apply list_fmap_ext; intros i [k c x] Hn; rewrite /= Z.sub_0_r //.
Qed.
Lemma lose_app m a b : lose m (a ++ b) = lose m a ++ lose m b.
Proof. apply fmap_app. Qed.
Lemma lose_length m l : List.length (lose m l) = List.length l.
Proof. apply length_fmap. Qed.

(** The hand passes [a] without reaching the end of the list, and with reaching it. *)
Lemma walk_within a : ∀ fuel b f, f ≠ [] → Forall turning a →
  walk (List.length a + fuel) (MkClock b (a ++ f)) = walk fuel (MkClock (b ++ lose 1 a) f).
Proof.
  intros fuel b f Hf Ha. rewrite -lower_lose //. revert b.
  induction a as [|n a IH]; intros b; [by rewrite fmap_nil app_nil_r|].
  apply Forall_cons_1 in Ha as [Hn Ha]. cbn [List.length Nat.add app walk from before].
  rewrite bool_decide_false; [unfold turning in Hn; lia|].
  assert (norm (b ++ [lower n]) (a ++ f) = MkClock (b ++ [lower n]) (a ++ f)) as -> by (destruct a, f; done).
  rewrite IH // fmap_cons -app_assoc //.
Qed.

Lemma walk_wrap a : ∀ fuel b, a ≠ [] → Forall turning a →
  walk (List.length a + fuel) (MkClock b a) = walk fuel (MkClock [] (b ++ lose 1 a)).
Proof.
  intros fuel b Hne Ha. destruct (exists_last Hne) as (c&n&->). apply Forall_app in Ha as [Hc Hn].
  rewrite length_app -Nat.add_assoc walk_within //. cbn [List.length Nat.add walk from before].
  pose proof (Forall_cons_1 _ _ _ Hn) as [Hn' _].
  rewrite bool_decide_false; [unfold turning in Hn'; lia|]. cbn [norm].
  rewrite -app_assoc lose_app -(lower_lose [n]) //.
Qed.

(** One turn. *)
Lemma walk_turn fuel b f : f ≠ [] → Forall turning (f ++ b) →
  walk (List.length (f ++ b) + fuel) (MkClock b f) = walk fuel (MkClock (lose 1 b) (lose 1 f)).
Proof.
  intros Hf [Hf1 Hb1]%Forall_app. rewrite length_app -Nat.add_assoc walk_wrap // walk_within //.
  by destruct f.
Qed.

Lemma least_le l n : n ∈ l → least l ≤ curCounter n.
Proof. induction 1; simpl; lia. Qed.
Lemma least_ge l m : m ≤ 255 → Forall (λ n, m ≤ curCounter n) l → m ≤ least l.
Proof. induction 2; simpl; lia. Qed.
Lemma least_255 l : least l ≤ 255.
Proof. induction l; simpl; lia. Qed.

Lemma least_attained l : l ≠ [] → Forall (λ n, curCounter n ≤ 255) l → (index_of (least l) l < List.length l)%nat.
Proof.
  intros Hne Hle. assert (∃ n, n ∈ l ∧ curCounter n = least l) as (n&Hn&Hm).
  { induction Hle as [|n l Hn Hl IH]; [done|]. destruct l as [|n' l].
    - exists n. simpl. split; [set_solver|lia].
    - destruct IH as (x&Hx&Hm); [done|]. change (least (n :: n' :: l)) with (Z.min (curCounter n) (least (n' :: l))).
      destruct (decide (curCounter n ≤ least (n' :: l))); [exists n|exists x]; (split; [set_solver|lia]). }
  revert Hm. generalize (least l) as m. clear Hle Hne.
  induction l as [|x l IH]; intros m Hm; [by apply not_elem_of_nil in Hn|]. simpl. case_bool_decide; [lia|].
  apply elem_of_cons in Hn as [->|Hn]; [done|]. specialize (IH Hn m Hm). lia.
Qed.

Lemma index_of_take m l : Forall (λ n, curCounter n ≠ m) (take (index_of m l) l).
Proof. induction l as [|n l IH]; simpl; [constructor|]. case_bool_decide; simpl; by constructor. Qed.
Lemma index_of_drop m l : (index_of m l < List.length l)%nat → ∃ n r, drop (index_of m l) l = n :: r ∧ curCounter n = m.
Proof.
  induction l as [|n l IH]; simpl; [lia|]. case_bool_decide as He; simpl; [intros _; by exists n, l|].
  intros Hlt. apply IH. lia.
Qed.
Lemma index_of_lose m p l : index_of (m - p) (lose p l) = index_of m l.
Proof.
  induction l as [|n l IH]; [done|]. cbn [lose fmap list_fmap index_of curCounter]. fold (lose p l).
  do 2 case_bool_decide; lia.
Qed.
Lemma least_lose l : l ≠ [] → Forall turning l → least (lose 1 l) = least l - 1.
Proof.
  induction l as [|n l IH]; [done|]. intros _ [Hn Hl]%Forall_cons_1.
  destruct l as [|n' l]; [simpl; unfold turning in Hn; lia|].
  change (Z.min (curCounter n - 1) (least (lose 1 (n' :: l))) = Z.min (curCounter n) (least (n' :: l)) - 1).
  rewrite IH //. lia.
Qed.

Lemma clock_find_turn b f : f ≠ [] → Forall turning (f ++ b) →
  clock_find (MkClock (lose 1 b) (lose 1 f)) = clock_find (MkClock b f).
Proof.
  intros Hf Ht. assert (f ++ b ≠ []) as Hne by (by destruct f).
  rewrite /clock_find /ring /= -lose_app least_lose // index_of_lose !lose_length.
  set (m := least (f ++ b)). rewrite /lose -!fmap_take -!fmap_drop -!/(lose _ _) !lose_lose.
  replace (1 + (m - 1)) with m by lia. replace (1 + (m - 1 + 1)) with (m + 1) by lia. done.
Qed.

Definition in_range (n : Node) : Prop := 0 ≤ curCounter n < 256.

Lemma take_turning l j : Forall in_range l → Forall (λ n, curCounter n ≠ 0) (take j l) → Forall turning (take j l).
Proof.
  intros Hr Hz. apply Forall_lookup; intros i n Hn. pose proof (Forall_lookup_1 _ _ _ _ Hz Hn) as H0.
  assert (in_range n) as Hin by (eapply Forall_lookup_1; [by apply Forall_take|done]).
  unfold turning, in_range in *; simpl in *. lia.
Qed.

(** The last turn. *)
Lemma walk_last fuel b f : f ≠ [] → Forall in_range (f ++ b) → least (f ++ b) = 0 →
  (List.length (f ++ b) ≤ fuel)%nat → walk fuel (MkClock b f) = Some (clock_find (MkClock b f)).
Proof.
  intros Hf Hr H0 Hfuel. assert (Hlt : (index_of 0 (f ++ b) < List.length (f ++ b))%nat).
  { rewrite -H0. apply least_attained; [by destruct f|]. eapply Forall_impl; [exact Hr|]. unfold in_range. simpl. lia. }
  pose proof (take_turning _ _ Hr (index_of_take 0 (f ++ b))) as Ht.
  destruct (index_of_drop _ _ Hlt) as (n&r&Hd&Hn).
  rewrite /clock_find /ring /= H0. set (j := index_of 0 (f ++ b)) in *. rewrite !lose_0 Z.add_0_l.
  rewrite length_app in Hlt, Hfuel. case_bool_decide as Hj.
  - rewrite take_app_le in Ht; [lia|]. rewrite drop_app_le in Hd; [lia|].
    destruct (drop j f) as [|n' f'] eqn:Hdf; [apply (f_equal List.length) in Hdf; rewrite length_drop /= in Hdf; lia|].
    simplify_list_eq. rewrite -{1}(take_drop j f) Hdf.
    replace fuel with (List.length (take j f) + S (fuel - j - 1))%nat by (rewrite length_take; lia).
    rewrite walk_within //= bool_decide_true //.
  - rewrite take_app_ge in Ht; [lia|]. rewrite drop_app_ge in Hd; [lia|]. apply Forall_app in Ht as [Ht1 Ht2].
    set (i := (j - List.length f)%nat) in *.
    replace fuel with (List.length f + (List.length (take i b) + S (fuel - j - 1)))%nat by (rewrite length_take; lia).
    rewrite walk_wrap //. replace (b ++ lose 1 f) with (take i b ++ drop i b ++ lose 1 f) by (by rewrite app_assoc take_drop).
    rewrite walk_within //; [by rewrite Hd|]. rewrite Hd /= bool_decide_true //.
Qed.

Lemma walk_exact b f fuel : f ≠ [] → Forall in_range (f ++ b) → (256 * List.length (f ++ b) ≤ fuel)%nat →
  walk fuel (MkClock b f) = Some (clock_find (MkClock b f)).
Proof.
  intros Hf Hr Hfuel.
  assert (0 ≤ least (f ++ b)) as Hpos by (apply least_ge; [lia|]; eapply Forall_impl; [exact Hr|]; unfold in_range; simpl; lia).
  pose proof (least_255 (f ++ b)) as Hmax.
  assert (Hfuel' : ((Z.to_nat (least (f ++ b)) + 1) * List.length (f ++ b) ≤ fuel)%nat) by (nia).
  clear Hfuel Hmax. revert Hfuel'. remember (Z.to_nat (least (f ++ b))) as m eqn:Hm.
  revert b f fuel Hf Hr Hpos Hm. induction m as [|m IH]; intros b f fuel Hf Hr Hpos Hm Hfuel.
  { apply walk_last; [done..|lia|lia]. }
  assert (Ht : Forall turning (f ++ b)).
  { apply Forall_forall; intros n Hn. pose proof (least_le _ _ Hn). pose proof (proj1 (Forall_forall _ _) Hr _ Hn) as Hin.
    unfold turning, in_range in *. lia. }
  rewrite -clock_find_turn //.
  replace fuel with (List.length (f ++ b) + (fuel - List.length (f ++ b)))%nat by lia. rewrite walk_turn //.
  assert (f ++ b ≠ []) as Hne by (by destruct f).
  apply IH; rewrite -?lose_app ?least_lose ?lose_length //; [by destruct f| |lia..].
  apply Forall_fmap. eapply Forall_impl; [exact Ht|]. unfold turning, in_range; simpl; lia.
Qed.

(** ** The invariant of the threads *)
Record inv (w : world) : Prop := {
  i_repr : ∃ pre post, repr (w_list w) pre post;
  i_counters : Forall counter_ok (snd <$> list_ (w_list w));
  i_index : ∀ k i, indexTable_ (w_list w) !! k = Some (Some i) ↔ ∃ n, (i, n) ∈ list_ (w_list w) ∧ objectKey n = k;
  i_adding : ∀ k, indexTable_ (w_list w) !! k = Some None ↔ ∃ c, w_locks w !! k = Some (Adding c true);
  i_held : ∀ k p, w_locks w !! k = Some p →
    (∃ c, p = Adding c true) ∨ (∃ i, indexTable_ (w_list w) !! k = Some (Some i));
  i_counter : ∀ k c b, w_locks w !! k = Some (Adding c b) → 0 ≤ c < 256 }.

(** The node [i] is the one of the key [k]. *)
Definition node_is (i : nat) (k : string) (l : list (nat * Node)) : Prop := ∀ p, p ∈ l → p.1 = i ↔ objectKey p.2 = k.

Lemma node_is_app i k a b : node_is i k (a ++ b) ↔ node_is i k a ∧ node_is i k b.
Proof. unfold node_is. set_solver. Qed.

Lemma node_is_cons i k p l : node_is i k (p :: l) ↔ (p.1 = i ↔ objectKey p.2 = k) ∧ node_is i k l.
Proof.
  unfold node_is. split; [intros H; split; [|intros q Hq]; apply H; set_solver|].
  intros [H1 H2] q [->|Hq]%elem_of_cons; auto.
Qed.

Lemma nodup_ids_fun (l : list (nat * Node)) i n m : NoDup (ids l) → (i, n) ∈ l → (i, m) ∈ l → n = m.
Proof.
  induction l as [|[j x] l IH]; [set_solver|]. rewrite fmap_cons NoDup_cons. intros [Hj Hnd].
  intros [?|H1]%elem_of_cons [?|H2]%elem_of_cons; simplify_eq; auto;
    exfalso; apply Hj; apply list_elem_of_fmap; [by exists (j, m)|by exists (j, n)].
Qed.

Lemma index_node w k i : inv w → indexTable_ (w_list w) !! k = Some (Some i) → node_is i k (list_ (w_list w)).
Proof.
  intros H Hi [j m] Hp; simpl. split.
  - intros ->. apply (i_index w H) in Hi as (n&Hn&<-). destruct (i_repr w H) as (a&b&Hr).
    f_equal. eapply nodup_ids_fun; [|done..]. rewrite (r_list _ _ _ Hr). apply (r_ids _ _ _ Hr).
  - intros Hk. assert (indexTable_ (w_list w) !! k = Some (Some j)) as Hj by (apply (i_index w H); eauto). congruence.
Qed.

Lemma update_fmap i f l : NoDup (ids l) → update i f l = (λ p, if bool_decide (p.1 = i) then (p.1, f p.2) else p) <$> l.
Proof.
  induction l as [|[j n] l IH]; [done|]. rewrite !fmap_cons NoDup_cons /=. intros [Hj Hnd].
  case_bool_decide; [|by rewrite IH]. f_equal. subst.
  etrans; [symmetry; apply list_fmap_id|]. apply list_fmap_ext; intros x [y m] Hy%list_elem_of_lookup_2; simpl.
  rewrite bool_decide_false //. intros ?. apply Hj, list_elem_of_fmap. by exists (y, m).
Qed.

Lemma erase_filter i l : NoDup (ids l) → erase i l = filter (λ p, p.1 ≠ i) l.
Proof.
  induction l as [|[j n] l IH]; [done|]. rewrite fmap_cons NoDup_cons filter_cons /=. intros [Hj Hnd].
  case_bool_decide; [|rewrite decide_True // IH //]. rewrite decide_False; [tauto|]. subst.
  symmetry. apply list_filter_all, Forall_forall; intros [y m] Hy; simpl. intros ?.
  apply Hj, list_elem_of_fmap. by exists (y, m).
Qed.

Lemma access_view i k l : node_is i k l →
  snd <$> ((λ p : nat * Node, if bool_decide (p.1 = i) then (p.1, count_access p.2) else p) <$> l) = access k (snd <$> l).
Proof.
  intros H. rewrite /access -!list_fmap_compose. apply list_fmap_ext; intros j p Hp%list_elem_of_lookup_2; simpl.
  specialize (H p Hp). do 2 case_bool_decide; try done; tauto.
Qed.

Lemma others_view i k l : node_is i k l → snd <$> filter (λ p : nat * Node, p.1 ≠ i) l = others k (snd <$> l).
Proof.
  induction l as [|p l IH]; [done|]. rewrite node_is_cons. intros [Hp Hl].
  rewrite fmap_cons /others !filter_cons. destruct (decide (p.1 ≠ i)), (decide (objectKey p.2 ≠ k)); try tauto; rewrite ?fmap_cons IH //.
Qed.

Lemma filter_absent i (l : list (nat * Node)) : i ∉ ids l → filter (λ p : nat * Node, p.1 ≠ i) l = l.
Proof. intros H. apply list_filter_all, Forall_forall. intros p Hp Hi. apply H, list_elem_of_fmap. eauto. Qed.

Lemma ids_fmap (g : nat * Node → nat * Node) l : (∀ p, (g p).1 = p.1) → ids (g <$> l) = ids l.
Proof. intros H. rewrite -list_fmap_compose. apply list_fmap_ext; intros i p _. apply H. Qed.

Lemma nodup_filter_ids (P : nat * Node → Prop) `{∀ p, Decision (P p)} l : NoDup (ids l) → NoDup (ids (filter P l)).
Proof. intros H'. eapply sublist_NoDup; [exact H'|]. apply fmap_sublist, sublist_filter. Qed.

Lemma Forall_filter_keep {A} (P Q : A → Prop) `{∀ x, Decision (P x)} l : Forall Q l → Forall Q (filter P l).
Proof. rewrite !Forall_forall. intros HQ x [_ Hx]%list_elem_of_filter. auto. Qed.

(** ** The operations on the list *)
Lemma view_nodes s : nodes (view s) = snd <$> list_ s.
Proof.
  rewrite /view /nodes. generalize (oldest_ s) as o. induction (list_ s) as [|[i n] l IH]; intros o; [done|]. cbn [split_hand].
  case_bool_decide; [done|]. specialize (IH o). destruct (split_hand o l) as [a b]. simpl in *. by rewrite IH.
Qed.

Lemma repr_append s pre post k c : repr s pre post →
  repr (MkList (list_ s ++ [(next_ s, NewNode k c)])
          (if bool_decide (List.length (list_ s ++ [(next_ s, NewNode k c)]) = 1%nat)
           then begin_ (list_ s ++ [(next_ s, NewNode k c)]) else oldest_ s)
          (<[k := Some (next_ s)]> (indexTable_ s)) (S (next_ s))) pre (post ++ [(next_ s, NewNode k c)]).
Proof.
  intros [Hl Hi Hn Ho He]. split; simpl.
  - by rewrite Hl app_assoc.
  - rewrite app_assoc fmap_app NoDup_app. split_and!; [done| |apply NoDup_singleton].
    intros i (p&->&Hp)%list_elem_of_fmap. pose proof (proj1 (Forall_forall _ _) Hn p Hp) as Hlt. simpl in Hlt.
    rewrite /= list_elem_of_singleton. lia.
  - rewrite app_assoc. apply Forall_app_2; [|repeat constructor]. eapply Forall_impl; [exact Hn|]. simpl. lia.
  - rewrite Hl length_app /=. destruct post as [|p post].
    + rewrite He //.
    + rewrite bool_decide_false; [rewrite length_app /=; lia|]. by rewrite Ho.
  - by destruct post.
Qed.

Lemma repr_access s pre post i (g : nat * Node → nat * Node) :
  (∀ p, (g p).1 = p.1) → repr s pre post → list_ i = g <$> list_ s → oldest_ i = oldest_ s → next_ i = next_ s →
  repr i (g <$> pre) (g <$> post).
Proof.
  intros Hg [Hl Hi Hn Ho He] Hl' Ho' Hn'. split.
  - by rewrite Hl' Hl fmap_app.
  - rewrite -fmap_app ids_fmap //.
  - rewrite -fmap_app Hn'. apply Forall_fmap. eapply Forall_impl; [exact Hn|]. intros p; simpl. by rewrite Hg.
  - rewrite Ho' Ho. destruct post as [|p post]; [done|]. rewrite fmap_cons /begin_ /= Hg //.
  - destruct post; [|done]. by rewrite He.
Qed.

(** [Erase_list] for the node [i] of the key [k]. *)
Lemma Erase_list_spec s pre post k i n : repr s pre post → node_is i k (list_ s) → indexTable_ s !! k = Some (Some i) →
  (i, n) ∈ list_ s →
  ∃ s' pre' post', Erase_list s k = Some s' ∧ repr s' pre' post' ∧ pre' ++ post' = filter (λ p, p.1 ≠ i) (list_ s) ∧
    indexTable_ s' = delete k (indexTable_ s) ∧ view s' = clock_erase (view s) k.
Proof.
  intros [Hl Hids Hn Ho He] Hk Hx Hin. destruct post as [|[o x] post]; [rewrite He // in Hl; rewrite Hl in Hin; set_solver|].
  pose proof (ids_mid _ _ _ _ Hids) as [Ho1 Ho2].
  assert (deref i (list_ s) = Some n) as Hdi.
  { apply list_elem_of_split in Hin as (a&b&Hab). rewrite Hab. apply deref_mid.
    rewrite -Hl Hab in Hids. by apply ids_mid in Hids as [? ?]. }
  pose proof Hk as Hk0. rewrite Hl node_is_app node_is_cons in Hk. destruct Hk as (Hkp&Hko&Hkq). simpl in Hko.
  pose (pre' := filter (λ p : nat * Node, p.1 ≠ i) pre). pose (post' := filter (λ p : nat * Node, p.1 ≠ i) ((o, x) :: post)).
  rewrite /Erase_list Ho Hx begin_cons Hdi Hl deref_mid // incr_mid // -Hl erase_filter; [by rewrite Hl|].
  set (l := filter _ (list_ s)). assert (Hl' : l = pre' ++ post') by (by rewrite /l Hl filter_app).
  set (s' := MkList l _ _ _).
  assert (Hor : oldest_ s' = begin_ (match post' with [] => pre' | _ => post' end)).
  { rewrite /s' /=. case_bool_decide as Hkx.
    - apply Hko in Hkx. subst o. assert (post' = post) as Hpp.
      { rewrite /post' filter_cons decide_False; [tauto|]. by apply filter_absent. }
      rewrite Hl' Hpp. destruct post as [|[q y] post]; [|done]. by rewrite bool_decide_true // /= app_nil_r.
    - rewrite /= /post' filter_cons decide_True //. simpl. tauto. }
  assert (Hv : view s = MkClock (snd <$> pre) (snd <$> ((o, x) :: post))) by (apply repr_view; split; done).
  assert (Hids' : NoDup (ids (pre' ++ post'))).
  { rewrite -Hl' /l Hl. by apply nodup_filter_ids. }
  assert (Hn' : Forall (λ p, (p.1 < next_ s)%nat) (pre' ++ post')) 
    by (rewrite -Hl' /l Hl; by apply Forall_filter_keep).
  assert (Hce : clock_erase (view s) k = norm (snd <$> pre') (snd <$> post')).
  { rewrite Hv /clock_erase /= /pre' /post' !(others_view i k) //. by rewrite node_is_cons. }
  destruct post' as [|q r] eqn:Hq.
  - exists s', [], pre'. rewrite app_nil_r in Hl', Hids', Hn'. split_and!; [done| |by rewrite -Hl'|done|].
    + split; done.
    + rewrite Hce. apply (repr_view s' [] pre'). split; done.
  - exists s', pre', (q :: r). split_and!; [done| |by rewrite -Hl'|done|].
    + split; done.
    + rewrite Hce. apply (repr_view s' pre' (q :: r)). split; done.
Qed.

(** The walk keeps the keys where they are and the counters in range. *)
Lemma walk_keeps fuel z z' : Forall counter_ok (nodes z) → walk fuel z = Some z' →
  Forall counter_ok (nodes z') ∧ objectKey <$> nodes z' = objectKey <$> nodes z.
Proof.
  revert z. induction fuel as [|fuel IH]; intros [b f] Hc; [done|]. cbn [walk from before].
  destruct f as [|n f]; [done|]. case_bool_decide as H0; [by intros [= <-]|]. intros Hw.
  assert (nodes (norm (b ++ [lower n]) f) = b ++ lower n :: f) as Hn
    by (destruct f; rewrite /nodes /= ?app_nil_r -?app_assoc //).
  rewrite /nodes /= in Hc. apply Forall_app in Hc as [Hb [Hx Hf]%Forall_cons_1].
  apply IH in Hw as [H1 H2].
  - split; [done|]. by rewrite H2 Hn /nodes /= !fmap_app !fmap_cons.
  - rewrite Hn. apply Forall_app_2; [done|]. constructor; [|done]. destruct Hx. unfold counter_ok, lower; simpl.
    rewrite Z.mod_small; lia.
Qed.

Definition tags (l : list (nat * Node)) : list (nat * string) := (λ p, (p.1, objectKey p.2)) <$> l.

Lemma tags_eq a b : ids a = ids b → objectKey <$> (snd <$> a) = objectKey <$> (snd <$> b) → tags a = tags b.
Proof.
  revert b. induction a as [|[i n] a IH]; intros [|[j m] b]; [done..|]. rewrite /tags !fmap_cons /=.
  intros [= -> ?] [= -> ?]. f_equal. by apply IH.
Qed.

Lemma elem_of_tags i k l : (i, k) ∈ tags l ↔ ∃ n, (i, n) ∈ l ∧ objectKey n = k.
Proof.
  rewrite /tags list_elem_of_fmap. split.
  - intros ([j n]&?&?); simplify_eq/=. eauto.
  - intros (n&?&<-). by exists (i, n).
Qed.

Lemma clock_find_hand b f : f ≠ [] → Forall counter_ok (f ++ b) → ∃ z, walk (256 * List.length (f ++ b)) (MkClock b f) = Some z ∧
  clock_find (MkClock b f) = z.
Proof.
  intros Hf Hc. eexists. split; [apply walk_exact; [done| |lia]|done].
  eapply Forall_impl; [exact Hc|]. unfold counter_ok, in_range. simpl. lia.
Qed.

Lemma FindEvictCandidate_spec s pre post : repr s pre post → Forall counter_ok (snd <$> list_ s) → list_ s ≠ [] →
  ∃ s' pre' post' n, FindEvictCandidate s = Some (s', Ok (objectKey n)) ∧ repr s' pre' post' ∧
    tags (list_ s') = tags (list_ s) ∧ Forall counter_ok (snd <$> list_ s') ∧ indexTable_ s' = indexTable_ s ∧
    view s' = clock_find (view s) ∧ head (ring (clock_find (view s))) = Some n.
Proof.
  intros Hr Hc Hne. pose proof (repr_view _ _ _ Hr) as Hv. destruct Hr as [Hl Hids Hn Ho He].
  destruct post as [|[o x] post]; [by rewrite He // in Hl|].
  rewrite fmap_cons in Hv. simpl in Hv.
  destruct (clock_find_hand (snd <$> pre) (x :: (snd <$> post))) as (z&Hw&Hz); [done| |].
  { rewrite Hl fmap_app fmap_cons in Hc. apply Forall_app in Hc as [H1 H2]. apply Forall_app_2; done. }
  pose proof Hw as Hk. apply walk_keeps in Hk as [Hok Hkeys]; [|by rewrite /nodes; cbn [before from];
    change (x :: (snd <$> post)) with (snd <$> ((o, x) :: post)); rewrite -fmap_app -Hl].
  assert (Hlen : (256 * List.length ((x :: (snd <$> post)) ++ (snd <$> pre)) = find_fuel s)%nat).
  { rewrite /find_fuel Hl !length_app /= !length_fmap. lia. }
  rewrite Hlen in Hw. apply (find_loop_walk _ _ o _ _ Hids) in Hw as (pre'&j&m&post'&Hf&Hi&Hz').
  rewrite /FindEvictCandidate bool_decide_false // Ho begin_cons Hl Hf /=.
  exists (MkList (pre' ++ (j, m) :: post') (Some j) (indexTable_ s) (next_ s)), pre', ((j, m) :: post'), m.
  rewrite Hz' /nodes in Hok, Hkeys; cbn [before from] in Hok, Hkeys. change (m :: (snd <$> post')) with (snd <$> ((j, m) :: post')) in Hok, Hkeys.
  change (x :: (snd <$> post)) with (snd <$> ((o, x) :: post)) in Hkeys. rewrite -!fmap_app in Hok, Hkeys.
  assert (Hr' : repr (MkList (pre' ++ (j, m) :: post') (Some j) (indexTable_ s) (next_ s)) pre' ((j, m) :: post')).
  { split; [done|by rewrite Hi| |done|done]. apply (proj1 (Forall_fmap fst (λ i, (i < next_ s)%nat) _)).
    rewrite Hi. by apply Forall_fmap. }
  split_and!; [done|done|by apply tags_eq|done|done| |].
  - rewrite (repr_view _ _ _ Hr') Hv Hz Hz' //.
  - rewrite Hv Hz Hz' //.
Qed.

(** ** The snapshots *)
Lemma scan_cons count it o l n next : deref it l = Some n → incr it l = Some next →
  scan (S count) it o l =
    next ← (match next with Some j => Some j | None => begin_ l end);
    if bool_decide (next = o) then Some [n] else rest ← scan count next o l; Some (n :: rest).
Proof. intros Hd Hi. cbn [scan]. by rewrite Hd /= Hi. Qed.

Lemma take_cons_bind {A} c (n : A) l : (rest ← Some (take c l); Some (n :: rest)) = Some (take (S c) (n :: l)).
Proof. done. Qed.

(** From a node before the hand: up to the hand. *)
Lemma scan_before o x q : ∀ b1 count a i n, NoDup (ids (a ++ (i, n) :: b1 ++ (o, x) :: q)) →
  scan count i o (a ++ (i, n) :: b1 ++ (o, x) :: q) = Some (take count (n :: (snd <$> b1))).
Proof.
  induction b1 as [|[j m] b1 IH]; intros [|count] a i n Hnd; [done| |done|]; pose proof (ids_mid _ _ _ _ Hnd) as [Hi Hi'].
  - rewrite (scan_cons _ _ _ _ n _ (deref_mid _ _ _ _ Hi) (incr_mid _ _ _ _ Hi)); cbn [app]; rewrite ?begin_cons ?begin_nil /= bool_decide_true // take_nil //.
  - rewrite (scan_cons _ _ _ _ n _ (deref_mid _ _ _ _ Hi) (incr_mid _ _ _ _ Hi)); cbn [app]; rewrite ?begin_cons ?begin_nil. cbn [mbind option_bind].
    rewrite bool_decide_false.
    { intros ->. rewrite app_comm_cons app_assoc in Hnd. apply ids_mid in Hnd as [Hnd _]. apply Hnd, (in_ids o m). set_solver. }
    assert (Heq : a ++ (i, n) :: (j, m) :: b1 ++ (o, x) :: q = (a ++ [(i, n)]) ++ (j, m) :: b1 ++ (o, x) :: q) by (by rewrite -app_assoc).
    cbn [app] in Hnd. rewrite Heq in Hnd. rewrite Heq (IH count (a ++ [(i, n)]) j m Hnd) fmap_cons //.
Qed.

(** From the hand or a node after it: to the end, and from the beginning up to the hand. *)
Lemma scan_after o x pre : ∀ b count q i n, NoDup (ids (q ++ (i, n) :: b)) → (∃ r, q ++ [(i, n)] = pre ++ (o, x) :: r) →
  scan count i o (q ++ (i, n) :: b) = Some (take count (n :: (snd <$> b) ++ (snd <$> pre))).
Proof.
  induction b as [|[j m] b IH]; intros [|count] q i n Hnd (r&Hq); [done| |done|]; pose proof (ids_mid _ _ _ _ Hnd) as [Hi Hi'].
  - rewrite (scan_cons _ _ _ _ n _ (deref_mid _ _ _ _ Hi) (incr_mid _ _ _ _ Hi)); cbn [app]; rewrite ?begin_cons ?begin_nil.
    rewrite Hq. rewrite Hq in Hnd. destruct pre as [|[j m] pre]; cbn [app]; rewrite begin_cons; cbn [mbind option_bind].
    + rewrite bool_decide_true // /= take_nil //.
    + rewrite bool_decide_false.
      { intros ->. apply ids_mid in Hnd as [Hnd _]. apply Hnd, (in_ids o m). set_solver. }
      rewrite (scan_before o x r pre count [] j m) //.
  - rewrite (scan_cons _ _ _ _ n _ (deref_mid _ _ _ _ Hi) (incr_mid _ _ _ _ Hi)); cbn [app]; rewrite ?begin_cons ?begin_nil. cbn [mbind option_bind].
    rewrite bool_decide_false.
    { intros ->. assert (o ∈ ids (q ++ [(i, n)])) as Ho by (rewrite Hq; apply (in_ids o x); set_solver).
      assert (Heq : q ++ (i, n) :: (o, m) :: b = (q ++ [(i, n)]) ++ (o, m) :: b) by (by rewrite -app_assoc).
      rewrite Heq in Hnd. apply ids_mid in Hnd as [Hnd _]. done. }
    assert (Heq : q ++ (i, n) :: (j, m) :: b = (q ++ [(i, n)]) ++ (j, m) :: b) by (by rewrite -app_assoc).
    rewrite Heq. rewrite Heq in Hnd. rewrite IH //.
    exists (r ++ [(j, m)]). by rewrite Hq -app_assoc.
Qed.

(** ** Every step of every thread *)
Lemma has_key_index w k : inv w → has_key k (nodes (view (w_list w))) = true ↔ ∃ i, indexTable_ (w_list w) !! k = Some (Some i).
Proof.
  intros H. destruct (i_repr w H) as (a&b&Hr). rewrite /has_key bool_decide_eq_true view_nodes list_elem_of_fmap. split.
  - intros (n&->&([i x]&->&Hp)%list_elem_of_fmap). exists i. apply (i_index w H). eauto.
  - intros (i&(n&Hn&<-)%(i_index w H)). exists n. split; [done|]. apply list_elem_of_fmap. by exists (i, n).
Qed.

(** The conclusion for a call. *)
Definition refines (w : world) (c : call) (o : option (world * answer)) : Prop :=
  ∃ w' a, o = Some (w', a) ∧ inv w' ∧ (view (w_list w'), a) = clock_call (view (w_list w)) c.

(** A thread takes the entry of [k], which changes nothing that is in the list. *)
Lemma inv_lock s locks k p t :
  inv (MkWorld s locks) → locks !! k = None → list_ t = list_ s → oldest_ t = oldest_ s → next_ t = next_ s →
  (match p with
   | Adding c true => 0 ≤ c < 256 ∧ indexTable_ s !! k = None ∧ indexTable_ t = <[k := None]> (indexTable_ s)
   | Adding c false => 0 ≤ c < 256 ∧ is_Some (indexTable_ s !! k) ∧ indexTable_ t = indexTable_ s
   | Erasing => is_Some (indexTable_ s !! k) ∧ indexTable_ t = indexTable_ s
   end) → inv (MkWorld t (<[k := p]> locks)) ∧ view t = view s.
Proof.
  intros [(a&b&Hr) Hc Hi Ha Hh Hcc] Hk Hl Ho Hn Hp; simpl in *. split; [|by rewrite /view Hl Ho].
  assert (Hnone : indexTable_ s !! k ≠ Some None) by (intros (c&Hx)%Ha; congruence).
  split; simpl.
  - destruct Hr as [H1 H2 H3 H4 H5]. exists a, b. split; rewrite ?Hl ?Ho ?Hn //.
  - by rewrite Hl.
  - intros k' i. rewrite Hl -Hi. destruct p as [c [|]|]; destruct_and?;
      match goal with H : indexTable_ t = _ |- _ => rewrite H // end. destruct (decide (k' = k)) as [->|]; simplify_map_eq; naive_solver.
  - intros k'. destruct (decide (k' = k)) as [->|Hne].
    + rewrite lookup_insert_eq. destruct p as [c [|]|]; destruct_and?;
        match goal with H : indexTable_ t = _ |- _ => rewrite H end; rewrite ?lookup_insert_eq; naive_solver.
    + rewrite lookup_insert_ne // -Ha. destruct p as [c [|]|]; destruct_and?;
        match goal with H : indexTable_ t = _ |- _ => rewrite H end; rewrite ?lookup_insert_ne //.
  - intros k' q. destruct (decide (k' = k)) as [->|Hne].
    + rewrite lookup_insert_eq. intros [= <-]. destruct p as [c [|]|]; destruct_and?; [eauto|right..];
        match goal with H : indexTable_ t = _, H' : is_Some _ |- _ => rewrite H; destruct H' as [[i|] Hx]; [eauto|done] end.
    + rewrite lookup_insert_ne //. intros [?|(i&Hx)]%Hh; [by left|right; exists i]. destruct p as [c [|]|]; destruct_and?;
        match goal with H : indexTable_ t = _ |- _ => rewrite H end; rewrite ?lookup_insert_ne //.
  - intros k' c q. destruct (decide (k' = k)) as [->|Hne]; [|rewrite lookup_insert_ne //; apply Hcc].
    rewrite lookup_insert_eq. intros [= ->]. destruct q; tauto.
Qed.

(** The thread that holds the entry of [k] gives it back, having replaced the nodes of [k]. *)
Lemma inv_unlock s locks k p t pre post :
  inv (MkWorld s locks) → locks !! k = Some p → repr t pre post → Forall counter_ok (snd <$> list_ t) →
  (∀ i k', k' ≠ k → (i, k') ∈ tags (list_ t) ↔ (i, k') ∈ tags (list_ s)) →
  (∀ k', k' ≠ k → indexTable_ t !! k' = indexTable_ s !! k') →
  (∀ i, indexTable_ t !! k = Some (Some i) ↔ (i, k) ∈ tags (list_ t)) → indexTable_ t !! k ≠ Some None →
  inv (MkWorld t (delete k locks)).
Proof.
  intros [_ Hc Hi Ha Hh Hcc] Hk Hr Hct Htags Hindex Hkk Hn; simpl in *. split; simpl; [eauto|done|..].
  - intros k' i. rewrite -elem_of_tags. destruct (decide (k' = k)) as [->|Hne]; [done|].
    rewrite Htags // Hindex // elem_of_tags. apply Hi.
  - intros k'. destruct (decide (k' = k)) as [->|Hne]; [rewrite lookup_delete_eq; naive_solver|].
    rewrite Hindex // lookup_delete_ne //.
  - intros k' q [Hne Hq]%lookup_delete_Some. rewrite Hindex //. eauto.
  - intros k' c q [Hne Hq]%lookup_delete_Some. eauto.
Qed.

Lemma refines_add_index s locks k c s' inserted :
  inv (MkWorld s locks) → locks !! k = None → 0 ≤ c < 256 → Add_index s k = (s', inserted) →
  refines (MkWorld s locks) (CAddIndex k c) (Some (MkWorld s' (<[k := Adding c inserted]> locks), AVoid)).
Proof.
  intros H Hk Hc. rewrite /Add_index. destruct (indexTable_ s !! k) eqn:Hx; intros [= <- <-].
  - destruct (inv_lock s locks k (Adding c false) s) as [H' Hv]; [done..|split_and!; [lia|lia|by rewrite Hx|done]|].
    do 2 eexists. split_and!; [done|exact H'|done].
  - destruct (inv_lock s locks k (Adding c true) (MkList (list_ s) (oldest_ s) (<[k := None]> (indexTable_ s)) (next_ s)))
      as [H' Hv]; [done..|]. do 2 eexists. split_and!; [done|exact H'|]. by rewrite /= Hv.
Qed.

Lemma refines_add_throws s locks k c :
  inv (MkWorld s locks) → locks !! k = Some (Adding c true) →
  refines (MkWorld s locks) (CAddList k c true)
    (Some (MkWorld (MkList (list_ s) (oldest_ s) (delete k (indexTable_ s)) (next_ s)) (delete k locks), AVoid)).
Proof.
  intros H Hk. assert (indexTable_ s !! k = Some None) as Hx by (apply (i_adding _ H); eauto).
  assert (has_key k (nodes (view s)) = false) as Hf.
  { apply not_true_iff_false. intros (i&Hi)%(has_key_index _ _ H). simpl in Hi. congruence. }
  do 2 eexists. split_and!; [done| |by rewrite /= /clock_add Hf].
  destruct (i_repr _ H) as (a&b&[H1 H2 H3 H4 H5]).
  eapply (inv_unlock s locks k _ _ a b H Hk); simpl; [by split|apply (i_counters _ H)|done| | |by rewrite lookup_delete_eq].
  - intros k' Hne. by rewrite lookup_delete_ne.
  - intros i. rewrite lookup_delete_eq elem_of_tags. split; [done|]. intros Hi%(i_index _ H). simpl in Hi. congruence.
Qed.

Lemma refines_add_new s locks k c :
  inv (MkWorld s locks) → locks !! k = Some (Adding c true) →
  refines (MkWorld s locks) (CAddList k c false)
    (s' ← Add_list s k c true false; Some (MkWorld s' (delete k locks), AVoid)).
Proof.
  intros H Hk. assert (indexTable_ s !! k = Some None) as Hx by (apply (i_adding _ H); eauto).
  assert (has_key k (nodes (view s)) = false) as Hf.
  { apply not_true_iff_false. intros (i&Hi)%(has_key_index _ _ H). simpl in Hi. congruence. }
  assert (Habs : ∀ i, (i, k) ∉ tags (list_ s)).
  { intros i. rewrite elem_of_tags. intros Hi%(i_index _ H). simpl in Hi. congruence. }
  destruct (i_repr _ H) as (a&b&Hr). simpl in Hr. pose proof (repr_append s a b k c Hr) as Hr'.
  pose proof (i_counter _ H _ _ _ Hk) as Hc. cbn [Add_list mbind option_bind]. do 2 eexists. split_and!; [done| |].
  - eapply (inv_unlock s locks k _ _ a _ H Hk Hr'); simpl; rewrite /tags ?fmap_app.
    + apply Forall_app_2; [apply (i_counters _ H)|]. repeat constructor; simpl; lia.
    + intros i k' Hne. rewrite elem_of_app list_elem_of_singleton. naive_solver.
    + intros k' Hne. by rewrite lookup_insert_ne.
    + intros i. rewrite lookup_insert_eq elem_of_app list_elem_of_singleton. specialize (Habs i). rewrite /tags in Habs. naive_solver.
    + by rewrite lookup_insert_eq.
  - rewrite (repr_view _ _ _ Hr') /= /clock_add Hf (repr_view _ _ _ Hr) /= fmap_app //.
Qed.

Lemma count_access_ok n : counter_ok n → counter_ok (count_access n).
Proof. unfold counter_ok, count_access. case_match; simpl; [|done]. intros ?. rewrite Z.mod_small; lia. Qed.
Lemma count_access_key n : objectKey (count_access n) = objectKey n.
Proof. unfold count_access. by case_match. Qed.

Lemma refines_add_access s locks k c throws :
  inv (MkWorld s locks) → locks !! k = Some (Adding c false) →
  refines (MkWorld s locks) (CAddList k c throws)
    (s' ← Add_list s k c false throws; Some (MkWorld s' (delete k locks), AVoid)).
Proof.
  intros H Hk. destruct (i_held _ H _ _ Hk) as [(?&?)|(i&Hi)]; [done|]. simpl in Hi.
  pose proof (index_node _ _ _ H Hi) as Hnode. pose proof (proj1 (i_index _ H k i) Hi) as (n&Hn&Hnk). simpl in *.
  destruct (i_repr _ H) as (a&b&Hr). simpl in Hr. pose proof (r_ids _ _ _ Hr) as Hids. rewrite -(r_list _ _ _ Hr) in Hids.
  assert (has_key k (nodes (view s)) = true) as Ht by (apply (has_key_index _ _ H); simpl; eauto).
  set (g := λ p : nat * Node, if bool_decide (p.1 = i) then (p.1, count_access p.2) else p).
  assert (Hg : ∀ p, (g p).1 = p.1) by (intros p; rewrite /g; by case_bool_decide).
  assert (deref i (list_ s) = Some n) as Hd.
  { apply list_elem_of_split in Hn as (x&y&Hxy). rewrite Hxy in Hids. rewrite Hxy. by apply deref_mid, (ids_mid _ _ _ _ Hids). }
  rewrite /Add_list Hi Hd update_fmap // -/g. cbn [mbind option_bind]. set (t := MkList _ _ _ _).
  pose proof (repr_access s a b t g Hg Hr eq_refl eq_refl eq_refl) as Hr'.
  assert (Htags : tags (list_ t) = tags (list_ s)).
  { rewrite /tags /t /= -list_fmap_compose. apply list_fmap_ext; intros j p Hp%list_elem_of_lookup_2; simpl. rewrite Hg /g.
    case_bool_decide; simpl; [|done]. by rewrite count_access_key. }
  rewrite (r_list _ _ _ Hr) node_is_app in Hnode. destruct Hnode as [Hna Hnb].
  do 2 eexists. split_and!; [done| |].
  - eapply (inv_unlock s locks k _ t _ _ H Hk Hr').
    + rewrite /t /=. apply Forall_fmap, Forall_fmap. eapply Forall_impl; [exact (proj1 (Forall_fmap _ _ _) (i_counters _ H))|].
      intros p Hp; rewrite /= /g. case_bool_decide; [by apply count_access_ok|done].
    + intros j k' Hne. by rewrite Htags.
    + done.
    + intros j. rewrite Htags elem_of_tags. apply (i_index _ H).
    + rewrite /t /= Hi //.
  - rewrite /= (repr_view _ _ _ Hr') /clock_add Ht (repr_view _ _ _ Hr) /= /g !(access_view i k) //.
Qed.

Lemma index_unlocked w k : inv w → w_locks w !! k = None →
  match indexTable_ (w_list w) !! k with Some None => False | _ => True end.
Proof. intros H Hk. destruct (indexTable_ (w_list w) !! k) as [[i|]|] eqn:Hx; try done. apply (i_adding w H) in Hx as (c&Hc). congruence. Qed.

Lemma refines_erase_find s locks k :
  inv (MkWorld s locks) → locks !! k = None →
  refines (MkWorld s locks) (CEraseFind k)
    (if Erase_find s k then Some (MkWorld s (<[k := Erasing]> locks), AVoid)
     else Some (MkWorld s locks, AStatus (Fail K_NOT_FOUND))).
Proof.
  intros H Hk. pose proof (index_unlocked _ _ H Hk) as Hun. simpl in Hun.
  assert (Heq : has_key k (nodes (view s)) = Erase_find s k).
  { apply eq_true_iff_eq. rewrite (has_key_index (MkWorld s locks) k H) /Erase_find bool_decide_eq_true /=.
    destruct (indexTable_ s !! k) as [[i|]|]; [|done|]; split; [intros _; eauto|eauto|intros (?&?); done|intros (?&?); done]. }
  destruct (Erase_find s k) eqn:He.
  - destruct (inv_lock s locks k Erasing s) as [H' _]; [done..|split; [by apply bool_decide_eq_true in He|done]|].
    do 2 eexists. split_and!; [done|exact H'|by rewrite /= Heq].
  - do 2 eexists. split_and!; [done|exact H|by rewrite /= Heq].
Qed.

Lemma refines_erase_list s locks k :
  inv (MkWorld s locks) → locks !! k = Some Erasing →
  refines (MkWorld s locks) (CEraseList k) (s' ← Erase_list s k; Some (MkWorld s' (delete k locks), AStatus (Ok tt))).
Proof.
  intros H Hk. destruct (i_held _ H _ _ Hk) as [(?&?)|(i&Hi)]; [done|]. simpl in Hi.
  pose proof (index_node _ _ _ H Hi) as Hnode. pose proof (proj1 (i_index _ H k i) Hi) as (n&Hn&Hnk). simpl in *.
  destruct (i_repr _ H) as (a&b&Hr). simpl in Hr.
  destruct (Erase_list_spec s a b k i n Hr Hnode Hi Hn) as (t&a'&b'&->&Hr'&Hl&Hx&Hv).
  rewrite -(r_list _ _ _ Hr') in Hl. cbn [mbind option_bind]. do 2 eexists. split_and!; [done| |by rewrite /= Hv].
  eapply (inv_unlock s locks k _ t a' b' H Hk Hr'); rewrite ?Hl ?Hx.
  - apply Forall_fmap. apply Forall_filter_keep. exact (proj1 (Forall_fmap _ _ _) (i_counters _ H)).
  - intros j k' Hne. rewrite !elem_of_tags. apply exist_proper; intros m. rewrite list_elem_of_filter /=.
    split; [tauto|]. intros [Hm <-]. split_and!; [|done..]. intros ->. apply Hne. by apply (Hnode (i, m)).
  - intros k' Hne. by rewrite lookup_delete_ne.
  - intros j. rewrite lookup_delete_eq elem_of_tags. split; [done|]. intros (m&[Hm1 Hm2]%list_elem_of_filter&Hmk).
    exfalso. apply Hm1. by apply (Hnode (j, m)).
  - by rewrite lookup_delete_eq.
Qed.

Lemma view_empty s pre post : repr s pre post → list_ s = [] → view s = MkClock [] [].
Proof. intros Hr Hl. by rewrite /view Hl. Qed.

Lemma refines_find s locks :
  inv (MkWorld s locks) →
  refines (MkWorld s locks) CFind ('(s', r) ← FindEvictCandidate s; Some (MkWorld s' locks, AKey r)).
Proof.
  intros H. destruct (i_repr _ H) as (a&b&Hr). simpl in Hr. destruct (decide (list_ s = [])) as [Hl|Hl].
  { rewrite /FindEvictCandidate bool_decide_true //. do 2 eexists. split_and!; [done|exact H|].
    by rewrite /= (view_empty _ _ _ Hr Hl). }
  destruct (FindEvictCandidate_spec s a b Hr (i_counters _ H) Hl) as (t&a'&b'&n&->&Hr'&Ht&Hc&Hx&Hv&Hh).
  cbn [mbind option_bind]. do 2 eexists. split_and!; [done| |].
  - destruct H as [_ _ Hi Ha Hh' Hcc]; simpl in *. split; simpl; rewrite ?Hx; [eauto|done| |done..].
    intros k i. rewrite -elem_of_tags Ht elem_of_tags. apply Hi.
  - rewrite /= Hv view_nodes bool_decide_false; [by destruct (list_ s)|].
    destruct (ring (clock_find (view s))) as [|m r]; [done|]. by injection Hh as ->.
Qed.

Lemma repr_ring s pre o n post : repr s pre ((o, n) :: post) → ring (view s) = n :: (snd <$> post) ++ (snd <$> pre).
Proof. intros Hr. by rewrite (repr_view _ _ _ Hr). Qed.

Lemma scan_ring s pre o n post count : repr s pre ((o, n) :: post) → scan count o o (list_ s) = Some (take count (ring (view s))).
Proof.
  intros Hr. rewrite (repr_ring _ _ _ _ _ Hr) (r_list _ _ _ Hr). eapply scan_after; [apply (r_ids _ _ _ Hr)|]. by exists [].
Qed.

Lemma refines_reads s locks n :
  inv (MkWorld s locks) →
  refines (MkWorld s locks) CAll ('(l, _) ← GetAllObjectsInfo s; Some (MkWorld s locks, ANodes l)) ∧
  refines (MkWorld s locks) (CFromOldest n) (l ← GetObjectsInfoFromOldest s n; Some (MkWorld s locks, ANodes l)) ∧
  refines (MkWorld s locks) COldest (r ← GetOldestObjectInfo s; Some (MkWorld s locks, ANode r)).
Proof.
  intros H. destruct (i_repr _ H) as (a&b&Hr). simpl in Hr.
  rewrite /GetAllObjectsInfo /GetObjectsInfoFromOldest /GetOldestObjectInfo.
  destruct (decide (list_ s = [])) as [Hl|Hl].
  { pose proof (view_empty _ _ _ Hr Hl) as Hv. rewrite !(bool_decide_true (list_ s = [])) //.
    split_and!; [..|]; try case_bool_decide; do 2 eexists; (split_and!; [done|exact H|by rewrite /= Hv ?take_nil]). }
  rewrite !(bool_decide_false (list_ s = [])) // (r_hand _ _ _ Hr).
  destruct b as [|[o x] b]; [by destruct Hl; rewrite (r_list _ _ _ Hr) (r_end _ _ _ Hr)|].
  assert (deref o (list_ s) = Some x) as Hd.
  { rewrite (r_list _ _ _ Hr). apply deref_mid, (ids_mid _ _ _ _ (r_ids _ _ _ Hr)). }
  assert (Hlen : List.length (ring (view s)) = List.length (list_ s)).
  { rewrite (repr_ring _ _ _ _ _ Hr) (r_list _ _ _ Hr) /= !length_app /= !length_fmap. lia. }
  rewrite begin_cons; cbn [mbind option_bind]; rewrite Hd !(scan_ring _ _ _ _ _ _ Hr); cbn [mbind option_bind fmap option_fmap option_map].
  split_and!.
  - do 2 eexists. split_and!; [done|exact H|]. cbn [clock_call w_list]. rewrite take_ge // Hlen. lia.
  - case_bool_decide as Hn; do 2 eexists; (split_and!; [done|exact H|]); [by rewrite Hn|done].
  - do 2 eexists. split_and!; [done|exact H|]. by rewrite /= (repr_ring _ _ _ _ _ Hr).
Qed.

Lemma node_of_none k l : has_key k l = false → node_of k l = None.
Proof.
  rewrite /has_key bool_decide_eq_false. intros H. rewrite /node_of (proj2 (list_find_None _ _)) //.
  apply Forall_forall; intros n Hn Hk. apply H, list_elem_of_fmap. eauto.
Qed.

Lemma node_of_mid k a n b : objectKey n = k → Forall (λ m, objectKey m ≠ k) a → node_of k (a ++ n :: b) = Some n.
Proof.
  intros Hn. rewrite /node_of. induction 1 as [|m a Hm Ha IH]; simpl; [by rewrite decide_True|].
  rewrite decide_False //. destruct (list_find _ (a ++ n :: b)) as [[i x]|]; by simplify_eq/=.
Qed.

Lemma refines_info s locks k :
  inv (MkWorld s locks) → locks !! k = None →
  refines (MkWorld s locks) (CInfo k) (r ← GetObjectInfo s k; Some (MkWorld s locks, ANode r)).
Proof.
  intros H Hk. pose proof (index_unlocked _ _ H Hk) as Hun. pose proof (has_key_index _ k H) as Hhk. simpl in Hun, Hhk.
  destruct (i_repr _ H) as (a&b&Hr). simpl in Hr. rewrite /GetObjectInfo.
  destruct (indexTable_ s !! k) as [[i|]|] eqn:Hi; [|done|].
  - pose proof (index_node _ _ _ H Hi) as Hnode. pose proof (proj1 (i_index _ H k i) Hi) as (n&Hn&Hnk). simpl in *.
    pose proof (r_ids _ _ _ Hr) as Hids. rewrite -(r_list _ _ _ Hr) in Hids.
    apply list_elem_of_split in Hn as (x&y&Hxy). rewrite Hxy in Hids, Hnode. pose proof (ids_mid _ _ _ _ Hids) as [Hx _].
    rewrite Hxy deref_mid //. do 2 eexists. split_and!; [done|exact H|].
    rewrite /= view_nodes Hxy fmap_app fmap_cons node_of_mid //.
    apply Forall_fmap, Forall_forall; intros [j m] Hm Hmk. apply Hx. rewrite -(proj2 (Hnode (j, m) ltac:(set_solver)) Hmk).
    by apply (in_ids _ m).
  - do 2 eexists. split_and!; [done|exact H|]. rewrite /= node_of_none //. apply not_true_iff_false. naive_solver.
Qed.

Lemma step_refines w c o : inv w → step w c o → refines w c o.
Proof.
  intros H Hs. destruct Hs as [s locks k c s' ins Hk Hc Ha|s locks k c ins throws Hk|s locks k Hk He|s locks k Hk He| | | | | |].
  - by apply refines_add_index.
  - destruct ins; [destruct throws|]; [by apply refines_add_throws|by apply refines_add_new|by apply refines_add_access].
  - pose proof (refines_erase_find _ _ _ H Hk) as Hr. by rewrite He in Hr.
  - pose proof (refines_erase_find _ _ _ H Hk) as Hr. by rewrite He in Hr.
  - by apply refines_erase_list.
  - by apply refines_find.
  - by apply (refines_reads s locks 0).
  - by apply (refines_reads s locks n).
  - by apply (refines_reads s locks 0).
  - by apply refines_info.
Qed.

Lemma threads_inv w : reachable w → inv w.
Proof.
  induction 1 as [|w c w' a Hw IH Hs].
  - split; simpl; [exists [], []; by split; try constructor|constructor|..]; set_solver.
  - destruct (step_refines _ _ _ IH Hs) as (w1&a1&[= <- <-]&H&_). done.
Qed.

(** ** What the list promises *)
Lemma keys_nodup w : inv w → NoDup (objectKey <$> nodes (view (w_list w))).
Proof.
  intros H. destruct (i_repr w H) as (a&b&Hr). rewrite view_nodes. pose proof (r_ids _ _ _ Hr) as Hids.
  rewrite -(r_list _ _ _ Hr) in Hids. rewrite -list_fmap_compose.
  assert (Hinj : ∀ p, p ∈ list_ (w_list w) → indexTable_ (w_list w) !! objectKey p.2 = Some (Some p.1)).
  { intros [i n] Hp. apply (i_index w H). eauto. }
  revert Hids Hinj. generalize (list_ (w_list w)) as l, (indexTable_ (w_list w)) as m. clear.
  induction l as [|p l IH]; intros m; [constructor|]. rewrite !fmap_cons !NoDup_cons. intros [Hp Hnd] Hm.
  split; [|apply (IH m); [done|]; intros q Hq; apply Hm; set_solver].
  intros (q&Hq&Hin)%list_elem_of_fmap. simpl in Hq. apply Hp, list_elem_of_fmap. exists q. split; [|done].
  pose proof (Hm p ltac:(set_solver)) as H1. pose proof (Hm q ltac:(set_solver)) as H2. rewrite Hq in H1. congruence.
Qed.

(** C8: however the threads of a worker interleave between the locks of [Add] and [Erase] and whatever [emplace_back] does, no call
    on the eviction list is undefined or runs for ever: each has exactly the effect and the answer of the
    clock, in particular [FindEvictCandidate] stops, at the first node from the hand on with the least counter. *)
Theorem eviction_list_refines w c o :
  reachable w → step w c o → ∃ w' a, o = Some (w', a) ∧ (view (w_list w'), a) = clock_call (view (w_list w)) c.
Proof.
  intros Hw Hs. destruct (step_refines w c o (threads_inv w Hw) Hs) as (w'&a&->&_&Heq). by exists w', a.
Qed.

(** in every reachable state the keys of the list are different, counters are within their maximum, the hand is on a
    node unless the list is empty, and a key no thread holds exists for [Exist] exactly when it is in the list. *)
Theorem eviction_list_sound w :
  reachable w → NoDup (objectKey <$> nodes (view (w_list w))) ∧ Forall counter_ok (nodes (view (w_list w))) ∧
    (from (view (w_list w)) = [] → list_ (w_list w) = []) ∧ Size (w_list w) = List.length (nodes (view (w_list w))) ∧
    ∀ k, w_locks w !! k = None → Exist (w_list w) k = has_key k (nodes (view (w_list w))).
Proof.
  intros H%threads_inv. destruct (i_repr w H) as (a&b&Hr). pose proof (view_nodes (w_list w)) as Hn.
  split_and!; [by apply keys_nodup|rewrite Hn; apply (i_counters w H)| |rewrite Hn length_fmap //|].
  - rewrite (repr_view _ _ _ Hr) /= (r_list _ _ _ Hr). intros Hb%fmap_nil_inv. by rewrite Hb (r_end _ _ _ Hr).
  - intros k Hk. pose proof (index_unlocked w k H Hk) as Hun. apply eq_true_iff_eq. rewrite has_key_index // /Exist bool_decide_eq_true.
    destruct (indexTable_ (w_list w) !! k) as [[i|]|]; naive_solver.
Qed.

(** One eviction: the candidate is erased. *)
Definition evict (s : evlist) : option (evlist * option string) :=
  '(s1, r) ← FindEvictCandidate s;
  match r with
  | Ok k => '(s2, _) ← Erase s1 k; Some (s2, Some k)
  | Fail _ => Some (s1, None)
  end.

Fixpoint evict_all (n : nat) (s : evlist) : option (evlist * list string) :=
  match n with
  | O => Some (s, [])
  | S n' => '(s1, k) ← evict s; '(s2, ks) ← evict_all n' s1; Some (s2, option_list k ++ ks)
  end.

Lemma others_head k l : k ∈ (objectKey <$> l) → NoDup (objectKey <$> l) →
  (objectKey <$> l) ≡ₚ k :: (objectKey <$> others k l).
Proof.
  induction l as [|n l IH]; [set_solver|]. rewrite !fmap_cons NoDup_cons elem_of_cons /others filter_cons.
  intros Hk [Hn Hnd]. destruct (decide (objectKey n ≠ k)) as [Hne|He].
  - destruct Hk as [->|Hk]; [done|]. rewrite fmap_cons (IH Hk Hnd). apply Permutation_swap.
  - apply dec_stable in He. subst k. rewrite list_filter_all //. apply Forall_forall; intros m Hm Heq. apply Hn. rewrite -Heq.
    by apply list_elem_of_fmap_2.
Qed.

Lemma norm_nodes b f : nodes (norm b f) = b ++ f.
Proof. destruct f; rewrite /nodes /= ?app_nil_r //. Qed.

Lemma evict_spec s : inv (MkWorld s ∅) → nodes (view s) ≠ [] →
  ∃ s' k, evict s = Some (s', Some k) ∧ inv (MkWorld s' ∅) ∧
    (objectKey <$> nodes (view s)) ≡ₚ k :: (objectKey <$> nodes (view s')).
Proof.
  intros H Hne. destruct (i_repr _ H) as (a&b&Hr). simpl in Hr. rewrite view_nodes in Hne.
  destruct (FindEvictCandidate_spec s a b Hr (i_counters _ H)) as (s1&a1&b1&n&Hf&Hr1&Ht&_&_&Hv&Hh); [by intros Hl; rewrite Hl in Hne|].
  destruct (refines_find s ∅ H) as (w1&x1&E1&H1&_). rewrite Hf in E1. injection E1 as <- <-.
  assert (Hk : has_key (objectKey n) (nodes (view s1)) = true).
  { apply bool_decide_eq_true. rewrite Hv. apply list_elem_of_fmap_2.
    destruct (clock_find (view s)) as [cb cf]. rewrite /ring /= in Hh. rewrite /nodes /=.
    assert (n ∈ cf ++ cb) as Hn by (destruct (cf ++ cb); simplify_eq/=; set_solver). set_solver. }
  assert (Hef : Erase_find s1 (objectKey n) = true).
  { apply (has_key_index _ _ H1) in Hk as (i&Hi). apply bool_decide_eq_true. simpl in Hi. rewrite Hi. eauto. }
  pose proof (refines_erase_find s1 ∅ (objectKey n) H1 (lookup_empty _)) as (w2&x2&E2&H2&_). rewrite Hef in E2. injection E2 as <- <-.
  pose proof (refines_erase_list s1 _ (objectKey n) H2 (lookup_insert_eq _ _ _)) as (w3&x3&E3&H3&E3').
  destruct (Erase_list s1 (objectKey n)) as [s2|] eqn:He; [|done]. injection E3 as <- <-.
  exists s2, (objectKey n). rewrite delete_insert_eq delete_empty in H3. rewrite /evict Hf /= /Erase Hef He /=. split_and!; [done|done|].
  injection E3' as ->. rewrite /= /clock_erase norm_nodes /others -filter_app -/(nodes (view s1)).
  assert (objectKey <$> nodes (view s) = objectKey <$> nodes (view s1)) as ->.
  { rewrite !view_nodes -!list_fmap_compose. apply (f_equal (fmap snd)) in Ht.
    rewrite /tags -!list_fmap_compose in Ht. symmetry. exact Ht. }
  apply others_head; [by apply bool_decide_eq_true in Hk|apply (keys_nodup _ H1)].
Qed.

Lemma evict_all_spec n : ∀ s, inv (MkWorld s ∅) → List.length (nodes (view s)) = n →
  ∃ s' ks, evict_all n s = Some (s', ks) ∧ nodes (view s') = [] ∧ ks ≡ₚ objectKey <$> nodes (view s).
Proof.
  induction n as [|n IH]; intros s H Hn.
  - exists s, []. apply nil_length_inv in Hn. rewrite Hn. done.
  - destruct (evict_spec s H) as (s1&k&He&H1&Hp); [by intros Hx; rewrite Hx in Hn|].
    destruct (IH s1 H1) as (s2&ks&Ha&Hz&Hk).
    { apply Permutation_length in Hp. rewrite /= !length_fmap in Hp. lia. }
    exists s2, (k :: ks). rewrite /= He /= Ha /=. split_and!; [done|done|]. rewrite Hp Hk //.
Qed.

(** C35: evicting as many times as there are objects empties the list and evicts every object exactly once, whatever their counters. *)
Theorem evictions_drain w :
  reachable w → w_locks w = ∅ →
  ∃ s' ks, evict_all (Size (w_list w)) (w_list w) = Some (s', ks) ∧ Size s' = O ∧ ks ≡ₚ objectKey <$> nodes (view (w_list w)).
Proof.
  intros H%threads_inv Hl. destruct w as [s locks]; simpl in Hl; subst. destruct (i_repr _ H) as (a&b&Hr). simpl in *.
  destruct (evict_all_spec (Size s) s H) as (s'&ks&He&Hz&Hk); [by rewrite view_nodes length_fmap|].
  exists s', ks. split_and!; [done| |done]. rewrite view_nodes in Hz. apply fmap_nil_inv in Hz. by rewrite /Size Hz.
Qed.

(** A call of [Add] that is not interrupted, and one of [FindEvictCandidate]. *)
Lemma reach_add s locks k c throws s' : reachable (MkWorld s locks) → locks !! k = None → 0 ≤ c < 256 → Add s k c throws = Some s' →
  reachable (MkWorld s' locks).
Proof.
  intros Hr Hk Hc. rewrite /Add. destruct (Add_index s k) as [s1 ins] eqn:Hi. intros Ha.
  eapply reach_step in Hr; [|by eapply step_add_index].
  pose proof (step_add_list s1 (<[k := Adding c ins]> locks) k c ins throws (lookup_insert_eq _ _ _)) as Hs.
  rewrite Ha /= delete_insert_id // in Hs. by eapply reach_step.
Qed.

Lemma reach_find s locks s' r : reachable (MkWorld s locks) → FindEvictCandidate s = Some (s', r) → reachable (MkWorld s' locks).
Proof. intros Hr Hf. pose proof (step_find s locks) as Hs. rewrite Hf in Hs. by eapply reach_step. Qed.

(** C36: a new object goes to the end of the list, which is where the hand gets before it starts again: it is reached after
    the objects from the hand on, and before those the hand has passed. *)
Theorem new_object_position w k c throws s' :
  reachable w → w_locks w !! k = None → 0 ≤ c < 256 → has_key k (nodes (view (w_list w))) = false →
  Add (w_list w) k c throws = Some s' →
  ring (view s') = from (view (w_list w)) ++ (if throws then [] else [NewNode k c]) ++ before (view (w_list w)).
Proof.
  intros Hw Hk Hc Hf Ha. destruct w as [s locks]; simpl in *. rewrite /Add in Ha.
  destruct (Add_index s k) as [s1 ins] eqn:Hi.
  destruct (refines_add_index s locks k c s1 ins (threads_inv _ Hw) Hk Hc Hi) as (w1&a1&[= <- <-]&H1&Hv).
  simpl in Hv. injection Hv as Hv.
  pose proof (step_add_list s1 (<[k := Adding c ins]> locks) k c ins throws (lookup_insert_eq _ _ _)) as Hs.
  destruct (step_refines _ _ _ H1 Hs) as (w2&a2&E2&_&Hv2). rewrite Ha /= in E2. injection E2 as <- <-. injection Hv2 as Hv2.
  rewrite /= in Hv2. rewrite Hv2 Hv /clock_add Hf. destruct throws; rewrite /ring /= -?app_assoc //.
Qed.

(** ** A run *)
(** Two objects, the first accessed more often; the hand has come to the second. *)
Definition two_objects : evlist :=
  default EvictionList (s ← Add EvictionList "a" Q3 false; s ← Add s "b" Q1 false; fst <$> FindEvictCandidate s).

Lemma two_objects_reachable : reachable (MkWorld two_objects ∅).
Proof.
  pose proof (reach_add _ ∅ "a" Q3 false _ reach_init eq_refl ltac:(unfold Q3; lia) eq_refl) as H1.
  pose proof (reach_add _ ∅ "b" Q1 false _ H1 eq_refl ltac:(unfold Q1; lia) eq_refl) as H2.
  pose proof (reach_find _ _ _ _ H2 eq_refl) as H3. vm_compute in H3. vm_compute. exact H3.
Qed.

Lemma eviction_list_refines_witness :
  ∃ w' a, ('(s', r) ← FindEvictCandidate two_objects; Some (MkWorld s' ∅, AKey r)) = Some (w', a) ∧
    (view (w_list w'), a) = (MkClock [MkNode "a" 1 3] [MkNode "b" 0 1], AKey (Ok "b")).
Proof. exact (eviction_list_refines (MkWorld two_objects ∅) CFind _ two_objects_reachable (step_find _ _)). Defined.

Lemma eviction_list_sound_witness :
  reachable (MkWorld two_objects ∅) ∧ NoDup (objectKey <$> nodes (view two_objects)) ∧ Size two_objects = 2%nat.
Proof.
  split_and!; [apply two_objects_reachable|exact (proj1 (eviction_list_sound _ two_objects_reachable))|done].
Defined.

Lemma evictions_drain_witness :
  ∃ s' ks, evict_all 2 two_objects = Some (s', ks) ∧ Size s' = O ∧ ks ≡ₚ ["a"; "b"].
Proof. exact (evictions_drain _ two_objects_reachable eq_refl). Defined.

(** The third object is next in line after ["b"], and the first one has to wait. *)
Lemma new_object_position_witness :
  ∃ s', Add two_objects "c" Q1 false = Some s' ∧ objectKey <$> ring (view s') = ["b"; "c"; "a"].
Proof.
  eexists. split; [vm_compute; reflexivity|].
  erewrite (new_object_position (MkWorld two_objects ∅) "c" Q1 false _ two_objects_reachable); [|done|unfold Q1; lia|done|done].
  reflexivity.
Defined.

End EvictionList.
