(* ===== verification/ObjectRef.v ===== *)
(** * ObjectRef: who holds a reference to which object

    Model of [ObjectRefInfo] and [ObjectGlobalRefTable] of [src/datasystem/common/object_cache/object_ref_info.h].  A reference
    is kept twice, in the row of the client (or, on the master, of the worker) that holds it and in the row of the
    object; with persistence functions registered, which is what the master does, also in a store.  The first reference to an object and the last one
    are reported to the caller, who tells the master or deletes the object.

    Callers hold the reference lock of every object of a call, so calls for the same object do not overlap, and an operation is
    one step here.  The store is a parameter: a type of states and the two functions, either of which may fail. *)
From S2P Require Import Prelude.

Module ObjectRef.
Local Open Scope Z_scope.

(** ** The references of one holder *)
Section ObjectRefInfo.
Context {T : Type} `{Countable T}.

Record ObjectRefInfo := MkInfo { objectKeys_ : gmap T Z; isUniqueCnt_ : bool }.
Definition NewRefInfo (isUniqueCnt : bool) : ObjectRefInfo := MkInfo ∅ isUniqueCnt.

Definition AddRef (i : ObjectRefInfo) (objectKey : T) (ref : Z) : ObjectRefInfo * bool :=
  match objectKeys_ i !! objectKey with
  | None => (MkInfo (<[objectKey := ref]> (objectKeys_ i)) (isUniqueCnt_ i), true)
  | Some n =>
    if isUniqueCnt_ i then (i, false)
    else (MkInfo (<[objectKey := u32 (n + ref)]> (objectKeys_ i)) (isUniqueCnt_ i), true)
  end.

(** The count that is left, and whether there was a reference. *)
Definition RemoveAndGetRefCnt (i : ObjectRefInfo) (objectKey : T) : ObjectRefInfo * bool * Z :=
  match objectKeys_ i !! objectKey with
  | None => (i, false, 0)
  | Some n =>
    if isUniqueCnt_ i then (MkInfo (delete objectKey (objectKeys_ i)) (isUniqueCnt_ i), true, 0)
    else
      let refCount := u32 (n - 1) in
      (MkInfo (if refCount =? 0 then delete objectKey (objectKeys_ i) else <[objectKey := refCount]> (objectKeys_ i))
         (isUniqueCnt_ i), true, refCount)
  end.

Definition RemoveRef (i : ObjectRefInfo) (objectKey : T) : ObjectRefInfo * bool := fst (RemoveAndGetRefCnt i objectKey).

Definition Contains (i : ObjectRefInfo) (objectKey : T) : bool := bool_decide (is_Some (objectKeys_ i !! objectKey)).
Definition GetRefCount (i : ObjectRefInfo) (objectKey : T) : Z := default 0 (objectKeys_ i !! objectKey).

Definition UpdateRefCount (i : ObjectRefInfo) (objectKey : T) (count : Z) : ObjectRefInfo * res unit :=
  if count <? 0 then (i, Fail K_INVALID)
  else
    match objectKeys_ i !! objectKey with
    | Some _ =>
      if isUniqueCnt_ i && (1 <? count) then (i, Fail K_DUPLICATED)
      else (MkInfo (<[objectKey := u32 count]> (objectKeys_ i)) (isUniqueCnt_ i), Ok tt)
    | None => (MkInfo (<[objectKey := u32 count]> (objectKeys_ i)) (isUniqueCnt_ i), Ok tt)
    end.

(** In the order of the hash map, which is not specified. *)
Definition GetRefIds (i : ObjectRefInfo) : list T := elements (dom (objectKeys_ i)).
Definition CheckIsNoneRef (i : ObjectRefInfo) (objectKey : T) : bool := bool_decide (default 0 (objectKeys_ i !! objectKey) = 0).
Definition CheckIsRefIdsEmpty (i : ObjectRefInfo) : bool := bool_decide (objectKeys_ i = ∅).
End ObjectRefInfo.
Arguments ObjectRefInfo T {_ _}.

(** ** The table of all references *)
Section ObjectGlobalRefTable.
Context {K : Type} `{Countable K} {KV : Type}.

(** [RegisterPersistenceFunc]. *)
Abbreviation persistence := (option (KV → K → string → bool → KV * res unit)).

Record table := MkTable {
  clientRefTable_ : gmap K (ObjectRefInfo string); objectRefTable_ : gmap string (gset K); remoteClientIdTable_ : gset K;
  saveToKvStore_ : persistence; removeFromKvStore_ : persistence }.

Definition ObjectGlobalRefTable : table := MkTable ∅ ∅ ∅ None None.
Definition RegisterPersistenceFunc (t : table) (save remove : persistence) : table :=
  MkTable (clientRefTable_ t) (objectRefTable_ t) (remoteClientIdTable_ t) save remove.
Definition with_clients (t : table) (m : gmap K (ObjectRefInfo string)) : table :=
  MkTable m (objectRefTable_ t) (remoteClientIdTable_ t) (saveToKvStore_ t) (removeFromKvStore_ t).
Definition with_objects (t : table) (m : gmap string (gset K)) : table :=
  MkTable (clientRefTable_ t) m (remoteClientIdTable_ t) (saveToKvStore_ t) (removeFromKvStore_ t).
Definition with_remote (t : table) (m : gset K) : table :=
  MkTable (clientRefTable_ t) (objectRefTable_ t) m (saveToKvStore_ t) (removeFromKvStore_ t).

(** [std::sort]. *)
Definition sorted (l : list string) : list string := merge_sort String.le l.

(** The row of the client, created when it is missing. *)
Definition client_row (t : table) (refId : K) (isRemoteClient : bool) : table * ObjectRefInfo string :=
  match clientRefTable_ t !! refId with
  | Some i => (t, i)
  | None =>
    let t := with_clients t (<[refId := NewRefInfo true]> (clientRefTable_ t)) in
    ((if isRemoteClient then with_remote t ({[refId]} ∪ remoteClientIdTable_ t) else t), NewRefInfo true)
  end.

(** What the loop over the keys carries. *)
Record loop := MkLoop { l_info : ObjectRefInfo string; l_kv : KV; l_rc : res unit; l_success : list string; l_failed : list string }.

Definition increase_one (save : persistence) (refId : K) (isRemoteClient : bool) (s : loop) (objectKey : string) : loop :=
  let '(i, added) := AddRef (l_info s) objectKey 1 in
  if negb added then MkLoop i (l_kv s) (l_rc s) (l_success s) (l_failed s)
  else
    match save with
    | None => MkLoop i (l_kv s) (l_rc s) (if is_ok (l_rc s) then l_success s ++ [objectKey] else l_success s) (l_failed s)
    | Some f =>
      let '(kv, rc) := f (l_kv s) refId objectKey isRemoteClient in
      if is_ok rc then MkLoop i kv rc (l_success s ++ [objectKey]) (l_failed s)
      else MkLoop (fst (RemoveRef i objectKey)) kv rc (l_success s) (l_failed s ++ [objectKey])
    end.

(** The rows of the objects; the objects that had no reference before. *)
Definition increase_object (refId : K) (s : gmap string (gset K) * list string) (objectKey : string) : gmap string (gset K) * list string :=
  let '(m, first) := s in
  let holders := default ∅ (m !! objectKey) in
  (<[objectKey := {[refId]} ∪ holders]> m, if bool_decide (holders = ∅) then first ++ [objectKey] else first).

(** The status, [failedIncIds] and [firstIncIds]. *)
Definition GIncreaseRef (t : table) (kv : KV) (refId : K) (objectKeys : list string) (isRemoteClient : bool)
    : table * KV * res unit * list string * list string :=
  let '(t, i) := client_row t refId isRemoteClient in
  let s := fold_left (increase_one (saveToKvStore_ t) refId isRemoteClient) objectKeys (MkLoop i kv (Ok tt) [] []) in
  let '(m, first) := fold_left (increase_object refId) (sorted (l_success s)) (objectRefTable_ t, []) in
  (with_objects (with_clients t (<[refId := l_info s]> (clientRefTable_ t))) m, l_kv s, l_rc s, l_failed s, first).

Definition decrease_one (remove : persistence) (refId : K) (isRemoteClient : bool) (s : loop) (objectKey : string) : loop :=
  let '(i, removed) := RemoveRef (l_info s) objectKey in
  if negb removed then MkLoop i (l_kv s) (l_rc s) (l_success s) (l_failed s)
  else
    let success := l_success s ++ [objectKey] in
    match remove with
    | None => MkLoop i (l_kv s) (l_rc s) success (l_failed s)
    | Some f =>
      let '(kv, rc) := f (l_kv s) refId objectKey isRemoteClient in
      if is_ok rc then MkLoop i kv rc success (l_failed s)
      else MkLoop (fst (AddRef i objectKey 1)) kv rc success (l_failed s ++ [objectKey])
    end.

Definition TryEraseClientId (t : table) (refId : K) (isRemoteClient : bool) : table :=
  let '(t, isRemoteClientIdRefEmpty) :=
    match clientRefTable_ t !! refId with
    | None => (t, true)
    | Some i => if CheckIsRefIdsEmpty i then (with_clients t (delete refId (clientRefTable_ t)), true) else (t, false)
    end in
  if isRemoteClient && isRemoteClientIdRefEmpty then with_remote t (remoteClientIdTable_ t ∖ {[refId]}) else t.

(** The rows of the objects; a key whose row or whose reference is missing ends the call. *)
Fixpoint decrease_objects (refId : K) (keys : list string) (m : gmap string (gset K)) (finish : list string)
    : gmap string (gset K) * res unit * list string :=
  match keys with
  | [] => (m, Ok tt, finish)
  | objectKey :: keys' =>
    match m !! objectKey with
    | None => (m, Fail K_RUNTIME_ERROR, finish)
    | Some holders =>
      if bool_decide (refId ∈ holders) then
        let holders' := holders ∖ {[refId]} in
        if bool_decide (holders' = ∅) then decrease_objects refId keys' (delete objectKey m) (finish ++ [objectKey])
        else decrease_objects refId keys' (<[objectKey := holders']> m) finish
      else (m, Fail K_RUNTIME_ERROR, finish)
    end
  end.

(** The status, [failedDecIds] and [finishDecIds]. *)
Definition GDecreaseRef (t : table) (kv : KV) (refId : K) (objectKeys : list string) (isRemoteClient : bool)
    : table * KV * res unit * list string * list string :=
  match clientRefTable_ t !! refId with
  | None => (t, kv, Ok tt, [], [])
  | Some i =>
    let s := fold_left (decrease_one (removeFromKvStore_ t) refId isRemoteClient) objectKeys (MkLoop i kv (Ok tt) [] []) in
    let t := TryEraseClientId (with_clients t (<[refId := l_info s]> (clientRefTable_ t))) refId isRemoteClient in
    let '(m, rc, finish) := decrease_objects refId (sorted (l_success s)) (objectRefTable_ t) [] in
    (with_objects t m, l_kv s, (if is_ok rc then l_rc s else rc), l_failed s, finish)
  end.

(** ** Reading *)
Definition GetAllRef (t : table) : gmap string (gset K) := objectRefTable_ t.
Definition GetAllClientRef (t : table) : gmap K (list string) :=
  omap (λ i, match GetRefIds i with [] => None | ids => Some ids end) (clientRefTable_ t).
Definition GetRemoteClientIds (t : table) : gset K := remoteClientIdTable_ t.
Definition GetClientRefIds (t : table) (refId : K) : list string :=
  match clientRefTable_ t !! refId with Some i => GetRefIds i | None => [] end.
Definition IsNotExistRemoteClientId (t : table) (refId : K) : bool := negb (bool_decide (refId ∈ remoteClientIdTable_ t)).
Definition GetRefWorkerCount (t : table) (objectKey : string) : Z :=
  match objectRefTable_ t !! objectKey with Some holders => u32 (Z.of_nat (size holders)) | None => 0 end.
Definition GetRefWorkerCounts (t : table) (objectKeys : list string) : list Z := GetRefWorkerCount t <$> objectKeys.
Definition GetObjRefIds (t : table) (objectKey : string) : list K :=
  match objectRefTable_ t !! objectKey with Some holders => elements holders | None => [] end.
Definition GetClientRefCount (t : table) : nat := size (clientRefTable_ t).
Definition GetObjectRefCount (t : table) : nat := size (objectRefTable_ t).
Definition GetRemoteClientCount (t : table) : nat := size (remoteClientIdTable_ t).
End ObjectGlobalRefTable.
Arguments table K {_ _} KV.
Arguments loop KV : clear implicits.

(** ** The two sides of a reference *)
Section Theory.
Context {K : Type} `{Countable K} {KV : Type}.
Implicit Types (t : table K KV) (c : K) (o : string) (i : ObjectRefInfo string).

Abbreviation keys_of i := (dom (objectKeys_ i)).
Definition client_holds t c o : Prop := ∃ i, clientRefTable_ t !! c = Some i ∧ o ∈ keys_of i.
Definition object_held t c o : Prop := ∃ holders, objectRefTable_ t !! o = Some holders ∧ c ∈ holders.

(** The two tables tell the same, no object has an empty row, and the global counts are unique ones. *)
Record consistent t : Prop := {
  c_agree : ∀ c o, client_holds t c o ↔ object_held t c o;
  c_rows : ∀ o holders, objectRefTable_ t !! o = Some holders → holders ≠ ∅;
  c_unique : ∀ c i, clientRefTable_ t !! c = Some i → isUniqueCnt_ i = true }.

Lemma AddRef_unique i o : isUniqueCnt_ i = true →
  let '(i', b) := AddRef i o 1 in isUniqueCnt_ i' = true ∧ (∀ x, x ∈ keys_of i' ↔ x = o ∨ x ∈ keys_of i) ∧ b = bool_decide (o ∉ keys_of i).
Proof.
  intros Hu. rewrite /AddRef. destruct (objectKeys_ i !! o) as [n|] eqn:Ho; rewrite ?Hu /=.
  - assert (o ∈ keys_of i) by (apply elem_of_dom; eauto). split_and!; [done|set_solver|]. rewrite bool_decide_false //. tauto.
  - apply not_elem_of_dom in Ho. split_and!; [done|set_solver|by rewrite bool_decide_true].
Qed.

Lemma RemoveRef_unique i o : isUniqueCnt_ i = true →
  let '(i', b) := RemoveRef i o in isUniqueCnt_ i' = true ∧ (∀ x, x ∈ keys_of i' ↔ x ∈ keys_of i ∧ x ≠ o) ∧ b = bool_decide (o ∈ keys_of i).
Proof.
  intros Hu. rewrite /RemoveRef /RemoveAndGetRefCnt. destruct (objectKeys_ i !! o) as [n|] eqn:Ho; rewrite ?Hu /=.
  - assert (o ∈ keys_of i) by (apply elem_of_dom; eauto). split_and!; [done|set_solver|by rewrite bool_decide_true].
  - apply not_elem_of_dom in Ho. split_and!; [done|set_solver|by rewrite bool_decide_false].
Qed.

(** ** The loops over the keys *)
Record increased (save : option (KV → K → string → bool → KV * res unit)) i (keys : list string) (s : loop KV) : Prop := {
  inc_unique : isUniqueCnt_ (l_info s) = true;
  inc_keys : ∀ o, o ∈ keys_of (l_info s) ↔ o ∈ keys_of i ∨ o ∈ l_success s;
  inc_nodup : NoDup (l_success s);
  inc_new : ∀ o, o ∈ l_success s → o ∉ keys_of i;
  inc_sub : ∀ o, o ∈ l_success s ∨ o ∈ l_failed s → o ∈ keys;
  inc_all : ∀ o, o ∈ keys → o ∈ keys_of (l_info s) ∨ o ∈ l_failed s;
  inc_free : save = None → l_rc s = Ok tt ∧ l_failed s = [] }.

Lemma elem_of_snoc (x o : string) l : x ∈ l ++ [o] ↔ x ∈ l ∨ x = o.
Proof. by rewrite elem_of_app list_elem_of_singleton. Qed.
Lemma NoDup_snoc (o : string) l : NoDup l → o ∉ l → NoDup (l ++ [o]).
Proof. intros Hl Ho. apply NoDup_app. split_and!; [done|set_solver|apply NoDup_singleton]. Qed.

Lemma increased_skip save i keys s o : increased save i keys s → o ∈ keys_of (l_info s) → increased save i (keys ++ [o]) s.
Proof.
  intros [] Ho. split; try done; intros x; rewrite ?elem_of_snoc; naive_solver.
Qed.

Lemma increased_success save i keys s o i' kv : increased save i keys s → o ∉ keys_of (l_info s) → isUniqueCnt_ i' = true →
  (∀ x, x ∈ keys_of i' ↔ x = o ∨ x ∈ keys_of (l_info s)) →
  increased save i (keys ++ [o]) (MkLoop i' kv (Ok tt) (l_success s ++ [o]) (l_failed s)).
Proof.
  intros [Hu Hk Hn Hnew Hsub Hall Hf] Ho Hu' Hk'. rewrite Hk in Ho. split; simpl.
  - done.
  - intros x. rewrite Hk' Hk elem_of_snoc. tauto.
  - apply NoDup_snoc; [done|tauto].
  - intros x. rewrite elem_of_snoc. naive_solver.
  - intros x. rewrite !elem_of_snoc. naive_solver.
  - intros x. rewrite elem_of_snoc Hk'. naive_solver.
  - naive_solver.
Qed.

Lemma increased_failure save i keys s o i' kv e : increased (Some save) i keys s → o ∉ keys_of (l_info s) → isUniqueCnt_ i' = true →
  (∀ x, x ∈ keys_of i' ↔ (x = o ∨ x ∈ keys_of (l_info s)) ∧ x ≠ o) →
  increased (Some save) i (keys ++ [o]) (MkLoop i' kv (Fail e) (l_success s) (l_failed s ++ [o])).
Proof.
  intros [Hu Hk Hn Hnew Hsub Hall Hf] Ho Hu' Hk'.
  assert (Hk2 : ∀ x, x ∈ keys_of i' ↔ x ∈ keys_of (l_info s)) by (intros x; rewrite Hk'; split; [tauto|]; intros Hx; split; [tauto|]; by intros ->).
  clear Hk'. split; simpl; try done.
  - intros x. by rewrite Hk2.
  - intros x. rewrite !elem_of_snoc. naive_solver.
  - intros x. rewrite !elem_of_snoc Hk2. naive_solver.
Qed.

Lemma increase_one_spec save c remote i keys s o :
  increased save i keys s → increased save i (keys ++ [o]) (increase_one save c remote s o).
Proof.
  intros Hs. pose proof (inc_unique _ _ _ _ Hs) as Hu. rewrite /increase_one.
  pose proof (AddRef_unique (l_info s) o Hu) as Ha. destruct (AddRef (l_info s) o 1) as [i' b] eqn:Hadd. destruct Ha as (Hu'&Hk'&->).
  case_bool_decide as Ho; simpl.
  - destruct save as [f|].
    + destruct (f (l_kv s) c o remote) as [kv [[]|e]]; simpl; [by apply increased_success|].
      pose proof (RemoveRef_unique i' o Hu') as Hr. destruct (RemoveRef i' o) as [i2 b2]. destruct Hr as (Hu2&Hk2&_). simpl.
      apply increased_failure; [done..|]. intros x. by rewrite Hk2 Hk'.
    + destruct (inc_free _ _ _ _ Hs eq_refl) as [Hrc _]. rewrite Hrc /=. by apply increased_success.
  - assert (i' = l_info s) as ->.
    { revert Hadd. rewrite /AddRef. apply elem_of_dom in Ho as [n ->]. rewrite Hu. by intros [= <-]. }
    destruct s. by apply increased_skip.
Qed.

Lemma increase_loop save c remote i kv keys : isUniqueCnt_ i = true →
  increased save i keys (fold_left (increase_one save c remote) keys (MkLoop i kv (Ok tt) [] [])).
Proof.
  intros Hu. induction keys as [|o keys IH] using rev_ind.
  - split; simpl; [done|set_solver|constructor|set_solver..|done].
  - rewrite fold_left_app. by apply increase_one_spec.
Qed.

(** The rows of the objects after [increase_object] for [ks]. *)
Lemma increase_objects_spec c ks : ∀ (m : gmap string (gset K)) first, NoDup ks →
  ∃ m', fold_left (increase_object c) ks (m, first) = (m', first ++ filter (λ o, default ∅ (m !! o) = ∅) ks) ∧
    ∀ o, m' !! o = if decide (o ∈ ks) then Some ({[c]} ∪ default ∅ (m !! o)) else m !! o.
Proof.
  induction ks as [|k ks IH]; intros m first Hnd; [exists m; by rewrite /= filter_nil app_nil_r|].
  apply NoDup_cons in Hnd as [Hk Hnd]. cbn [fold_left increase_object].
  destruct (IH (<[k := {[c]} ∪ default ∅ (m !! k)]> m)
    (if bool_decide (default ∅ (m !! k) = ∅) then first ++ [k] else first) Hnd) as (m'&->&Hm').
  exists m'. split.
  - f_equal. rewrite filter_cons. assert (filter (λ o, default ∅ (<[k:={[c]} ∪ default ∅ (m !! k)]> m !! o) = ∅) ks
      = filter (λ o, default ∅ (m !! o) = ∅) ks) as ->.
    { apply list_filter_ext_in; intros o Ho. rewrite lookup_insert_ne //. by intros ->. }
    case_bool_decide; [rewrite decide_True //|rewrite decide_False //]. by rewrite -app_assoc.
  - intros o. rewrite Hm'. destruct (decide (o = k)) as [->|Hne].
    + rewrite decide_False // decide_True; [set_solver|]. by rewrite lookup_insert_eq.
    + rewrite lookup_insert_ne //. destruct (decide (o ∈ ks)); [rewrite decide_True //|rewrite decide_False //]; set_solver.
Qed.

(** As long as no removal has failed. *)
Record decreased i (keys : list string) (s : loop KV) : Prop := {
  dec_unique : isUniqueCnt_ (l_info s) = true;
  dec_keys : ∀ o, o ∈ keys_of (l_info s) ↔ o ∈ keys_of i ∧ o ∉ keys;
  dec_success : ∀ o, o ∈ l_success s ↔ o ∈ keys_of i ∧ o ∈ keys;
  dec_nodup : NoDup (l_success s);
  dec_rc : l_rc s = Ok tt }.

Lemma decrease_one_spec remove c remote i keys s o :
  decreased i keys s → l_failed (decrease_one remove c remote s o) = [] → decreased i (keys ++ [o]) (decrease_one remove c remote s o).
Proof.
  intros [Hu Hk Hsu Hnd Hrc]. rewrite /decrease_one. pose proof (RemoveRef_unique (l_info s) o Hu) as Hr.
  destruct (RemoveRef (l_info s) o) as [i' b]. destruct Hr as (Hu'&Hk'&->). setoid_rewrite Hk in Hk'.
  case_bool_decide as Ho; rewrite Hk in Ho; simpl.
  - assert (Hall : ∀ kv, decreased i (keys ++ [o]) (MkLoop i' kv (Ok tt) (l_success s ++ [o]) (l_failed s))).
    { intros kv. split; simpl; [done| | |apply NoDup_snoc; [done|rewrite Hsu; tauto]|done];
        intros x; rewrite ?Hk' ?elem_of_snoc ?Hsu; (destruct (decide (x = o)) as [->|]; [pose proof (eq_refl o)|]; tauto). }
    destruct remove as [f|]; [|by rewrite Hrc]. destruct (f (l_kv s) c o remote) as [kv [[]|e]]; simpl; [done|].
    by intros [_ ?]%app_nil.
  - intros _. assert (o ∈ keys_of i → o ∈ keys) by (intros ?; destruct (decide (o ∈ keys)); tauto).
    split; simpl; [done| | |done|done]; intros x; rewrite ?Hk' ?elem_of_snoc ?Hsu;
      (destruct (decide (x = o)) as [->|]; [pose proof (eq_refl o)|]; tauto).
Qed.

Lemma decrease_failed remove c remote (s : loop KV) o : l_failed (decrease_one remove c remote s o) = [] → l_failed s = [].
Proof.
  rewrite /decrease_one. destruct (RemoveRef (l_info s) o) as [i' [|]]; [|done]. destruct remove as [f|]; [|done]. simpl.
  destruct (f (l_kv s) c o remote) as [kv [[]|e]]; simpl; [done|]. by intros [? _]%app_nil.
Qed.

Lemma decrease_loop remove c remote i kv keys : isUniqueCnt_ i = true →
  let s := fold_left (decrease_one remove c remote) keys (MkLoop i kv (Ok tt) [] []) in l_failed s = [] → decreased i keys s.
Proof.
  intros Hu. induction keys as [|o keys IH] using rev_ind; simpl.
  - intros _. split; simpl; [done| | |constructor|done]; set_solver.
  - rewrite fold_left_app /=. intros Hf. apply decrease_one_spec; [|done]. apply IH. by eapply decrease_failed.
Qed.

(** The row of an object without [c]. *)
Definition without c (holders : gset K) : option (gset K) := if decide (holders ∖ {[c]} = ∅) then None else Some (holders ∖ {[c]}).

Lemma decrease_objects_spec c ks : ∀ (m : gmap string (gset K)) finish, NoDup ks →
  (∀ o, o ∈ ks → ∃ holders, m !! o = Some holders ∧ c ∈ holders) →
  ∃ m', decrease_objects c ks m finish = (m', Ok tt, finish ++ filter (λ o, default ∅ (m !! o) ∖ {[c]} = ∅) ks) ∧
    ∀ o, m' !! o = if decide (o ∈ ks) then m !! o ≫= without c else m !! o.
Proof.
  induction ks as [|k ks IH]; intros m finish Hnd Hall; [exists m; by rewrite /= filter_nil app_nil_r|].
  apply NoDup_cons in Hnd as [Hk Hnd]. destruct (Hall k) as (holders&Hh&Hc); [set_solver|].
  cbn [decrease_objects]. rewrite Hh (bool_decide_true (c ∈ holders)) //.
  pose (m1 := partial_alter (λ _, without c holders) k m).
  assert (Hm1 : ∀ o, o ≠ k → m1 !! o = m !! o) by (intros o Ho; by rewrite lookup_partial_alter_ne).
  destruct (IH m1 (finish ++ if decide (holders ∖ {[c]} = ∅) then [k] else []) Hnd) as (m'&Hd&Hm').
  { intros o Ho. rewrite Hm1; [set_solver|]. apply Hall. set_solver. }
  exists m'. split.
  - rewrite filter_cons Hh /=. assert (filter (λ o, default ∅ (m1 !! o) ∖ {[c]} = ∅) ks
      = filter (λ o, default ∅ (m !! o) ∖ {[c]} = ∅) ks) as Hfe.
    { apply list_filter_ext_in; intros o Ho. rewrite Hm1 //. by intros ->. }
    rewrite Hfe -app_assoc in Hd. rewrite /m1 /without in Hd.
    case_bool_decide as He.
    + rewrite !(decide_True (P := holders ∖ {[c]} = ∅) _ _ He) in Hd. rewrite decide_True //.
    + rewrite !(decide_False (P := holders ∖ {[c]} = ∅) _ _ He) app_nil_r in Hd. rewrite decide_False //.
  - intros o. rewrite Hm'. destruct (decide (o = k)) as [->|Hne].
    + rewrite decide_False // decide_True; [set_solver|]. rewrite lookup_partial_alter_eq Hh //.
    + rewrite Hm1 //. destruct (decide (o ∈ ks)); [rewrite decide_True //|rewrite decide_False //]; set_solver.
Qed.

(** ** Increasing *)
Lemma client_row_spec t c remote : consistent t →
  let '(t1, i) := client_row t c remote in
  clientRefTable_ t1 !! c = Some i ∧ isUniqueCnt_ i = true ∧ objectRefTable_ t1 = objectRefTable_ t ∧ saveToKvStore_ t1 = saveToKvStore_ t ∧
  (∀ o, o ∈ keys_of i ↔ client_holds t c o) ∧ (∀ c', c' ≠ c → clientRefTable_ t1 !! c' = clientRefTable_ t !! c').
Proof.
  intros Hc. rewrite /client_row. destruct (clientRefTable_ t !! c) as [i|] eqn:Hi.
  - split_and!; [done|by apply (c_unique t Hc c)|done..| |done]. intros o. rewrite /client_holds Hi. naive_solver.
  - assert (Hno : ∀ o, o ∈ keys_of (NewRefInfo true) ↔ client_holds t c o).
    { intros o. rewrite /client_holds Hi /=. set_solver. }
    destruct remote; simpl; (split_and!; [by rewrite lookup_insert_eq|done..|exact Hno|]; intros c' Hne; by rewrite lookup_insert_ne).
Qed.

Lemma sorted_spec l : sorted l ≡ₚ l.
Proof. apply merge_sort_Permutation. Qed.

(** Rows with the new keys of [c]. *)
Lemma consistent_increase t t' c i' (ks : list string) : consistent t → isUniqueCnt_ i' = true →
  clientRefTable_ t' !! c = Some i' → (∀ c', c' ≠ c → clientRefTable_ t' !! c' = clientRefTable_ t !! c') →
  (∀ o, o ∈ keys_of i' ↔ client_holds t c o ∨ o ∈ ks) →
  (∀ o, objectRefTable_ t' !! o = if decide (o ∈ ks) then Some ({[c]} ∪ default ∅ (objectRefTable_ t !! o)) else objectRefTable_ t !! o) →
  consistent t' ∧ ∀ c' o, object_held t' c' o ↔ object_held t c' o ∨ (c' = c ∧ o ∈ ks).
Proof.
  intros Hc Hu Hi Hother Hk Ho.
  assert (Hobj : ∀ c' o, object_held t' c' o ↔ object_held t c' o ∨ (c' = c ∧ o ∈ ks)).
  { intros c' o. rewrite /object_held Ho. destruct (decide (o ∈ ks)); [|naive_solver].
    split.
    - intros (?&[= <-]&[Hin%elem_of_singleton|Hin]%elem_of_union); [by right|].
      destruct (objectRefTable_ t !! o) as [h|]; simpl in Hin; [eauto|by apply not_elem_of_empty in Hin].
    - intros Hin. eexists. split; [done|]. apply elem_of_union. destruct Hin as [(h&->&Hin)|[-> _]]; [by right|left].
      by apply elem_of_singleton. }
  split; [split|exact Hobj].
  - intros c' o. rewrite Hobj -(c_agree t Hc). destruct (decide (c' = c)) as [->|Hne].
    + rewrite {1}/client_holds Hi. naive_solver.
    + rewrite /client_holds Hother //. naive_solver.
  - intros o h. rewrite Ho. destruct (decide (o ∈ ks)); [intros [= <-]; set_solver|apply (c_rows t Hc)].
  - intros c' x. destruct (decide (c' = c)) as [->|Hne]; [naive_solver|]. rewrite Hother //. apply (c_unique t Hc).
Qed.

Lemma GIncreaseRef_spec t kv c keys remote t' kv' rc failed first :
  consistent t → GIncreaseRef t kv c keys remote = (t', kv', rc, failed, first) →
  ∃ ks, (∀ o, o ∈ ks → o ∈ keys ∧ ¬ client_holds t c o) ∧ (∀ o, o ∈ keys → client_holds t c o ∨ o ∈ ks ∨ o ∈ failed) ∧
    (∀ o, o ∈ failed → o ∈ keys) ∧ consistent t' ∧
    (∀ c' o, object_held t' c' o ↔ object_held t c' o ∨ (c' = c ∧ o ∈ ks)) ∧
    first = filter (λ o, default ∅ (objectRefTable_ t !! o) = ∅) (sorted ks) ∧ NoDup ks ∧
    (saveToKvStore_ t = None → rc = Ok tt ∧ failed = []).
Proof.
  intros Hc. rewrite /GIncreaseRef. pose proof (client_row_spec t c remote Hc) as Hr. destruct (client_row t c remote) as [t1 i].
  destruct Hr as (Hi&Hu&Hobj&Hsave&Hk&Hother). rewrite Hsave Hobj.
  pose proof (increase_loop (saveToKvStore_ t) c remote i kv keys Hu) as Hs.
  set (s := fold_left _ keys _) in *. destruct Hs as [Hu' Hks Hnd Hnew Hsub Hall Hfree].
  assert (Hnd' : NoDup (sorted (l_success s))) by (by rewrite sorted_spec).
  destruct (increase_objects_spec c (sorted (l_success s)) (objectRefTable_ t) [] Hnd') as (m&->&Hm).
  intros [= <- <- <- <- <-]. exists (l_success s).
  assert (Hdone : ∀ o, o ∈ keys_of (l_info s) ↔ client_holds t c o ∨ o ∈ l_success s) by (intros o; by rewrite Hks Hk).
  edestruct (consistent_increase t (with_objects (with_clients t1 (<[c:=l_info s]> (clientRefTable_ t1))) m) c (l_info s) (l_success s))
    as [Hc' Hobj']; [done|done|by rewrite /= lookup_insert_eq| |done| |].
  { intros c' Hne. rewrite /= lookup_insert_ne //. by apply Hother. }
  { intros o. rewrite /= Hm. apply decide_ext. by rewrite sorted_spec. }
  split_and!; [| |auto|done|done|done|done|done].
  - intros o Ho. rewrite -Hk. auto.
  - intros o Ho. destruct (Hall o Ho) as [Hin|?]; [|tauto]. apply Hdone in Hin. tauto.
Qed.

(** ** Decreasing *)
Lemma TryEraseClientId_spec t c remote i : clientRefTable_ t !! c = Some i →
  let t' := TryEraseClientId t c remote in
  objectRefTable_ t' = objectRefTable_ t ∧ (∀ c', c' ≠ c → clientRefTable_ t' !! c' = clientRefTable_ t !! c') ∧
  (∀ i', clientRefTable_ t' !! c = Some i' → i' = i) ∧ (∀ o, client_holds t' c o ↔ o ∈ keys_of i).
Proof.
  intros Hi. rewrite /TryEraseClientId Hi /CheckIsRefIdsEmpty.
  case_bool_decide as He.
  - assert (Hno : ∀ o, o ∉ keys_of i) by (intros o; rewrite He; set_solver).
    destruct remote; rewrite /= /client_holds /=; (split_and!; [done| | |]);
      try (intros c' Hne; by rewrite lookup_delete_ne); rewrite lookup_delete_eq; naive_solver.
  - rewrite andb_false_r. rewrite /client_holds Hi. split_and!; [done|done|naive_solver|naive_solver].
Qed.

Lemma without_spec c c' (h : gset K) : (∃ h', without c h = Some h' ∧ c' ∈ h') ↔ c' ∈ h ∧ c' ≠ c.
Proof.
  rewrite /without. destruct (decide (h ∖ {[c]} = ∅)) as [He|He].
  - split; [naive_solver|]. intros [Hin Hne]. assert (c' ∈ h ∖ {[c]}) as Hd by set_solver. rewrite He in Hd. set_solver.
  - split; [intros (?&[= <-]&Hin); set_solver|]. intros [Hin Hne]. eexists; split; [done|set_solver].
Qed.

(** Rows without the keys [ks] of [c]. *)
Lemma consistent_decrease t t' c i i' (ks : list string) : consistent t → clientRefTable_ t !! c = Some i →
  (∀ x, clientRefTable_ t' !! c = Some x → isUniqueCnt_ x = true) →
  (∀ c', c' ≠ c → clientRefTable_ t' !! c' = clientRefTable_ t !! c') →
  (∀ o, client_holds t' c o ↔ o ∈ keys_of i') → (∀ o, o ∈ keys_of i' ↔ o ∈ keys_of i ∧ o ∉ ks) →
  (∀ o, objectRefTable_ t' !! o = if decide (o ∈ ks) then objectRefTable_ t !! o ≫= without c else objectRefTable_ t !! o) →
  consistent t' ∧ ∀ c' o, object_held t' c' o ↔ object_held t c' o ∧ ¬ (c' = c ∧ o ∈ ks).
Proof.
  intros Hc Hi Hu Hother Hcl Hk Ho.
  assert (Hobj : ∀ c' o, object_held t' c' o ↔ object_held t c' o ∧ ¬ (c' = c ∧ o ∈ ks)).
  { intros c' o. rewrite /object_held Ho. destruct (decide (o ∈ ks)) as [Hin|Hin]; [|naive_solver].
    destruct (objectRefTable_ t !! o) as [h|]; simpl; [rewrite without_spec|]; naive_solver. }
  split; [split|exact Hobj].
  - intros c' o. rewrite Hobj -(c_agree t Hc). destruct (decide (c' = c)) as [->|Hne].
    + rewrite Hcl Hk /client_holds Hi. naive_solver.
    + rewrite /client_holds Hother //. naive_solver.
  - intros o h. rewrite Ho. destruct (decide (o ∈ ks)); [|apply (c_rows t Hc)].
    destruct (objectRefTable_ t !! o) as [h'|]; simpl; [|done]. rewrite /without. case_decide; naive_solver.
  - intros c' x. destruct (decide (c' = c)) as [->|Hne]; [auto|]. rewrite Hother //. apply (c_unique t Hc).
Qed.

Lemma GDecreaseRef_spec t kv c keys remote t' kv' rc finish :
  consistent t → GDecreaseRef t kv c keys remote = (t', kv', rc, [], finish) →
  ∃ ks, (∀ o, o ∈ ks ↔ o ∈ keys ∧ client_holds t c o) ∧ NoDup ks ∧ rc = Ok tt ∧ consistent t' ∧
    (∀ c' o, object_held t' c' o ↔ object_held t c' o ∧ ¬ (c' = c ∧ o ∈ keys)) ∧
    finish = filter (λ o, default ∅ (objectRefTable_ t !! o) ∖ {[c]} = ∅) (sorted ks).
Proof.
  intros Hc. rewrite /GDecreaseRef. destruct (clientRefTable_ t !! c) as [i|] eqn:Hi.
  2: { intros [= <- <- <- <-]. exists []. assert (Hno : ∀ o, ¬ client_holds t c o) by (rewrite /client_holds Hi; naive_solver).
       split_and!; [|constructor|done|done| |done].
       - intros o. specialize (Hno o). rewrite elem_of_nil. tauto.
       - intros c' o. specialize (Hno o). rewrite (c_agree t Hc) in Hno. destruct (decide (c' = c)) as [->|]; tauto. }
  pose proof (decrease_loop (removeFromKvStore_ t) c remote i kv keys (c_unique t Hc c i Hi)) as Hs.
  set (s := fold_left _ keys _) in *. simpl in Hs. set (t1 := with_clients t _).
  pose proof (TryEraseClientId_spec t1 c remote (l_info s) (lookup_insert_eq _ _ _)) as (Ht1&Ht2&Ht3&Ht4).
  set (t2 := TryEraseClientId t1 c remote) in *. rewrite Ht1 /=.
  assert (Hholds : ∀ o, client_holds t c o ↔ o ∈ keys_of i) by (intros o; rewrite /client_holds Hi; naive_solver).
  destruct (decide (l_failed s = [])) as [Hf|Hf].
  2: { destruct (decrease_objects c (sorted (l_success s)) (objectRefTable_ t) []) as [[m rc'] fin]. intros [=]. done. }
  destruct (Hs Hf) as [Hu Hk Hsu Hnd Hrc].
  assert (Hnd' : NoDup (sorted (l_success s))) by (by rewrite sorted_spec).
  destruct (decrease_objects_spec c (sorted (l_success s)) (objectRefTable_ t) [] Hnd') as (m&->&Hm).
  { intros o. rewrite sorted_spec Hsu. intros [Hin _]. apply (c_agree t Hc). by apply Hholds. }
  intros [= <- <- <- _ <-]. exists (l_success s). rewrite Hrc. edestruct (consistent_decrease t (with_objects t2 m) c i (l_info s) (l_success s))
    as [Hc' Hobj']; [done|done|intros x Hx; by rewrite (Ht3 x Hx)| |exact Ht4| | |].
  { intros c' Hne. rewrite /= Ht2 // /t1 /= lookup_insert_ne //. }
  { intros o. rewrite Hk Hsu. destruct (decide (o ∈ keys)); tauto. }
  { intros o. rewrite /= Hm. apply decide_ext. by rewrite sorted_spec. }
  split_and!; [|done|done|done| |done].
  - intros o. rewrite Hsu Hholds. tauto.
  - intros c' o. rewrite Hobj' Hsu -Hholds (c_agree t Hc). destruct (decide (c' = c)) as [->|]; tauto.
Qed.

(** ** What the table promises *)
Definition held t o : Prop := ∃ c, object_held t c o.

Lemma row_empty t o : consistent t → default ∅ (objectRefTable_ t !! o) = ∅ ↔ ¬ held t o.
Proof.
  intros Hc. rewrite /held /object_held. destruct (objectRefTable_ t !! o) as [h|] eqn:Ho; simpl; [|naive_solver].
  split; [intros ->; naive_solver set_solver|]. intros Hn. destruct (c_rows t Hc o h Ho). apply elem_of_equiv_empty_L. naive_solver.
Qed.

(** C10: raising the references of a client keeps the two tables consistent; nothing is lost, only the given keys of
    this client are added, each of them is held afterwards unless the store refused it, which is reported, and the objects reported as
    held for the first time are exactly those that nobody held before and somebody holds now. *)
Theorem increase_exact t kv c keys remote t' kv' rc failed first :
  consistent t → GIncreaseRef t kv c keys remote = (t', kv', rc, failed, first) →
  consistent t' ∧ (∀ c' o, object_held t c' o → object_held t' c' o) ∧
  (∀ c' o, object_held t' c' o → object_held t c' o ∨ (c' = c ∧ o ∈ keys)) ∧
  (∀ o, o ∈ keys → object_held t' c o ∨ o ∈ failed) ∧ (∀ o, o ∈ failed → o ∈ keys) ∧
  (∀ o, o ∈ first ↔ held t' o ∧ ¬ held t o) ∧ NoDup first ∧
  (saveToKvStore_ t = None → rc = Ok tt ∧ failed = []).
Proof.
  intros Hc HG. destruct (GIncreaseRef_spec _ _ _ _ _ _ _ _ _ _ Hc HG) as (ks&Hks&Hall&Hf&Hc'&Hh&->&Hnd&Hfree).
  split_and!; [done|naive_solver|naive_solver| |done| |by apply NoDup_filter; rewrite sorted_spec|done].
  - intros o Ho. rewrite Hh. destruct (Hall o Ho) as [Hx|[Hx|Hx]]; [left; left; by apply (c_agree t Hc)|naive_solver|naive_solver].
  - intros o. rewrite list_elem_of_filter sorted_spec row_empty // /held. setoid_rewrite Hh. naive_solver.
Qed.

(** C9: lowering the references of a client, when the store refuses nothing, succeeds, keeps the two tables consistent and
    removes exactly the given keys of this client; the objects reported as finished are exactly those somebody held before and
    nobody holds now. *)
Theorem decrease_exact t kv c keys remote t' kv' rc finish :
  consistent t → GDecreaseRef t kv c keys remote = (t', kv', rc, [], finish) →
  consistent t' ∧ rc = Ok tt ∧ (∀ c' o, object_held t' c' o ↔ object_held t c' o ∧ ¬ (c' = c ∧ o ∈ keys)) ∧
  (∀ o, o ∈ finish ↔ held t o ∧ ¬ held t' o) ∧ NoDup finish.
Proof.
  intros Hc HG. destruct (GDecreaseRef_spec _ _ _ _ _ _ _ _ _ Hc HG) as (ks&Hks&Hnd&->&Hc'&Hh&->).
  split_and!; [done|done|done| |by apply NoDup_filter; rewrite sorted_spec].
  intros o. rewrite list_elem_of_filter sorted_spec Hks (c_agree t Hc). split.
  - intros (He&Hk&(h&Ho&Hin)). split; [exists c, h; done|]. rewrite /held. setoid_rewrite Hh. intros (c'&(h'&Ho'&Hin')&Hn).
    rewrite Ho /= in He. assert (h' = h) as -> by congruence.
    assert (c' ∈ h ∖ {[c]}) as Hx by (apply elem_of_difference; split; [done|rewrite elem_of_singleton; tauto]). rewrite He in Hx. set_solver.
  - intros ((c'&Hx)&Hn). rewrite /held in Hn. setoid_rewrite Hh in Hn.
    assert (Hall : ∀ d, object_held t d o → d = c ∧ o ∈ keys).
    { intros d Hd. destruct (decide (d = c ∧ o ∈ keys)); [done|]. destruct Hn. eauto. }
    destruct (Hall c' Hx) as [-> Hk]. split_and!; [|done|done]. destruct Hx as (h&Ho&Hin). rewrite Ho /=. apply elem_of_equiv_empty_L.
    intros d [Hd Hd']%elem_of_difference. destruct (Hall d) as [-> _]; [by exists h|]. set_solver.
Qed.

(** The call in which the store refuses. *)
Lemma decrease_refused t kv c o remote f kv1 e i h :
  consistent t → removeFromKvStore_ t = Some f → f kv c o remote = (kv1, Fail e) → clientRefTable_ t !! c = Some i → o ∈ keys_of i →
  objectRefTable_ t !! o = Some h → c ∈ h →
  ∃ i2, o ∈ keys_of i2 ∧ isUniqueCnt_ i2 = true ∧
    GDecreaseRef t kv c [o] remote =
      (with_objects (with_clients t (<[c := i2]> (clientRefTable_ t))) (partial_alter (λ _, without c h) o (objectRefTable_ t)),
       kv1, Fail e, [o], if decide (h ∖ {[c]} = ∅) then [o] else []).
Proof.
  intros Hc Hf He Hi Ho Hh Hin. pose proof (c_unique t Hc c i Hi) as Hu.
  pose proof (RemoveRef_unique i o Hu) as Hr. destruct (RemoveRef i o) as [i1 b1] eqn:Hrm. destruct Hr as (Hu1&Hk1&->).
  pose proof (AddRef_unique i1 o Hu1) as Ha. destruct (AddRef i1 o 1) as [i2 b2] eqn:Hadd. destruct Ha as (Hu2&Hk2&_).
  assert (Ho2 : o ∈ keys_of i2) by (apply Hk2; by left). exists i2. split_and!; [done|done|].
  rewrite /GDecreaseRef Hi Hf /= /decrease_one /= Hrm bool_decide_true //= He /= Hadd /=.
  rewrite /TryEraseClientId /= lookup_insert_eq /CheckIsRefIdsEmpty bool_decide_false; [intros Hx; rewrite Hx in Ho2; set_solver|].
  rewrite andb_false_r /= Hh bool_decide_true // /without. destruct (decide (h ∖ {[c]} = ∅)) as [Hd|Hd].
  - by rewrite bool_decide_true.
  - by rewrite bool_decide_false.
Qed.

(** C37: when the store refuses the removal of a reference, the client keeps it and the object loses it: the object is
    reported as finished if nobody else held it, and raising the reference again, which is how the callers undo a decrease, does not
    bring it back. *)
Theorem failed_removal_drops_reference t kv c o remote f kv1 e t' kv' rc failed finish :
  consistent t → removeFromKvStore_ t = Some f → f kv c o remote = (kv1, Fail e) → client_holds t c o →
  GDecreaseRef t kv c [o] remote = (t', kv', rc, failed, finish) →
  rc = Fail e ∧ failed = [o] ∧ client_holds t' c o ∧ ¬ object_held t' c o ∧
  (o ∈ finish ↔ ∀ c', object_held t c' o → c' = c) ∧
  ∀ kv2 t2 kv2' rc2 failed2 first2, GIncreaseRef t' kv2 c [o] remote = (t2, kv2', rc2, failed2, first2) → ¬ object_held t2 c o.
Proof.
  intros Hc Hf He (i&Hi&Ho) HG. pose proof (c_unique t Hc c i Hi) as Hu. destruct (proj1 (c_agree t Hc c o)) as (h&Hh&Hin); [by exists i|].
  destruct (decrease_refused t kv c o remote f kv1 e i h) as (i2&Ho2&Hu2&HG'); [done..|].
  rewrite HG' in HG. injection HG as <- <- <- <- <-. set (t' := with_objects _ _).
  assert (Hrow : clientRefTable_ t' !! c = Some i2) by (by rewrite /= lookup_insert_eq).
  assert (Hobj : objectRefTable_ t' !! o = without c h) by (by rewrite /= lookup_partial_alter_eq).
  assert (Hno : ∀ d, object_held t' d o ↔ object_held t d o ∧ d ≠ c).
  { intros d. rewrite /object_held Hobj Hh without_spec. naive_solver. }
  split_and!; [done|done|by exists i2|rewrite Hno; tauto| |].
  - destruct (decide (h ∖ {[c]} = ∅)) as [Hd|Hd].
    + split; [|intros _; apply list_elem_of_singleton; done]. intros _ c' (h'&Ho'&Hin'). assert (h' = h) as -> by congruence.
      destruct (decide (c' = c)); [done|]. assert (c' ∈ h ∖ {[c]}) as Hx by set_solver. rewrite Hd in Hx. set_solver.
    + split; [by intros ?%not_elem_of_nil|]. intros Hall. exfalso. apply Hd, elem_of_equiv_empty_L. intros d [Hd1 Hd2]%elem_of_difference.
      apply Hd2, elem_of_singleton, Hall. by exists h.
  - intros kv2 t2 kv2' rc2 failed2 first2. rewrite /GIncreaseRef /client_row Hrow /= /increase_one.
    destruct (AddRef (l_info (MkLoop i2 kv2 (Ok ()) [] [])) o 1) as [i3 b] eqn:Ha. pose proof (AddRef_unique i2 o Hu2) as Hb.
    simpl in Ha. rewrite Ha in Hb. destruct Hb as (_&_&->). rewrite bool_decide_false; [tauto|]. simpl.
    intros [= <- _ _ _ _] Hx. by apply (Hno c).
Qed.

(** Tables that calls lead to, with any store, as long as it does not refuse a removal. *)
Inductive reached (save remove : option (KV → K → string → bool → KV * res unit)) : table K KV → Prop :=
| reached_init : reached save remove (RegisterPersistenceFunc ObjectGlobalRefTable save remove)
| reached_increase t kv c keys remote t' kv' rc failed first :
    reached save remove t → GIncreaseRef t kv c keys remote = (t', kv', rc, failed, first) → reached save remove t'
| reached_decrease t kv c keys remote t' kv' rc finish :
    reached save remove t → GDecreaseRef t kv c keys remote = (t', kv', rc, [], finish) → reached save remove t'.

Lemma empty_consistent save remove : consistent (RegisterPersistenceFunc (K := K) (KV := KV) ObjectGlobalRefTable save remove).
Proof.
  split; rewrite /client_holds /object_held /=.
  - intros c o. rewrite !lookup_empty. naive_solver.
  - intros o h. by rewrite lookup_empty.
  - intros c i. by rewrite lookup_empty.
Qed.

Lemma reached_consistent save remove t : reached save remove t → consistent t.
Proof.
  induction 1 as [|t kv c keys remote t' kv' rc failed first _ IH HG|t kv c keys remote t' kv' rc finish _ IH HG].
  - apply empty_consistent.
  - by destruct (GIncreaseRef_spec _ _ _ _ _ _ _ _ _ _ IH HG) as (?&_&_&_&?&_).
  - by destruct (GDecreaseRef_spec _ _ _ _ _ _ _ _ _ IH HG) as (?&_&_&_&?&_).
Qed.

(** whatever calls led to a table, an object names a client among its holders exactly when the client names the object
    among its references, and an object with a row has a holder. *)
Theorem references_agree save remove t : reached save remove t →
  (∀ c o, c ∈ GetObjRefIds t o ↔ o ∈ GetClientRefIds t c) ∧ (∀ o, is_Some (GetAllRef t !! o) → GetObjRefIds t o ≠ []).
Proof.
  intros Hc%reached_consistent. split.
  - intros c o. rewrite /GetObjRefIds /GetClientRefIds /GetRefIds. pose proof (c_agree t Hc c o) as Ha. rewrite /client_holds /object_held in Ha.
    destruct (objectRefTable_ t !! o) as [h|], (clientRefTable_ t !! c) as [i|]; rewrite ?elem_of_elements ?elem_of_nil; naive_solver.
  - intros o [h Hh]. rewrite /GetAllRef in Hh. rewrite /GetObjRefIds Hh. pose proof (c_rows t Hc o h Hh) as Hne. intros He.
    apply Hne. by apply leibniz_equiv, elements_empty_inv.
Qed.
End Theory.

(** ** A run *)
(** A store that counts its calls and refuses removals on request. *)
Definition counting_save (n : nat) (_ _ : string) (_ : bool) : nat * res unit := (S n, Ok tt).
Definition refusing_remove (n : nat) (_ _ : string) (_ : bool) : nat * res unit := (S n, if bool_decide (n = 7%nat) then Fail K_KVSTORE_ERROR else Ok tt).
Definition fresh : table string nat := RegisterPersistenceFunc ObjectGlobalRefTable (Some counting_save) (Some refusing_remove).
Definition one_reference : table string nat := (GIncreaseRef fresh 0%nat "w1" ["o"; "o"] false).1.1.1.1.

Lemma fresh_reached : reached (Some counting_save) (Some refusing_remove) fresh.
Proof. apply reached_init. Qed.
Lemma one_reference_reached : reached (Some counting_save) (Some refusing_remove) one_reference.
Proof. eapply (reached_increase _ _ _ 0%nat "w1" ["o"; "o"] false); [apply fresh_reached|]. vm_compute. reflexivity. Qed.

Lemma increase_exact_witness :
  ∃ t' kv' rc failed first, GIncreaseRef one_reference 1%nat "w2" ["o"; "p"] false = (t', kv', rc, failed, first) ∧ consistent t' ∧ first = ["p"].
Proof.
  do 5 eexists. split; [vm_compute; reflexivity|]. split; [|reflexivity].
  eapply (increase_exact one_reference 1%nat "w2" ["o"; "p"] false); [eapply reached_consistent, one_reference_reached|vm_compute; reflexivity].
Defined.

Lemma decrease_exact_witness :
  ∃ t' kv' rc finish, GDecreaseRef one_reference 1%nat "w1" ["o"; "q"] false = (t', kv', rc, [], finish) ∧ consistent t' ∧ finish = ["o"].
Proof.
  do 4 eexists. split; [vm_compute; reflexivity|]. split; [|reflexivity].
  eapply (decrease_exact one_reference 1%nat "w1" ["o"; "q"] false); [eapply reached_consistent, one_reference_reached|vm_compute; reflexivity].
Defined.

Lemma failed_removal_drops_reference_witness :
  ∃ t' kv', GDecreaseRef one_reference 7%nat "w1" ["o"] false = (t', kv', Fail K_KVSTORE_ERROR, ["o"], ["o"]) ∧
    client_holds t' "w1" "o" ∧ ¬ object_held t' "w1" "o".
Proof.
  do 2 eexists. split; [vm_compute; reflexivity|].
  edestruct (failed_removal_drops_reference one_reference 7%nat "w1" "o" false refusing_remove) as (_&_&H1&H2&_);
    [eapply reached_consistent, one_reference_reached|reflexivity|vm_compute; reflexivity| |vm_compute; reflexivity|split; [exact H1|exact H2]].
  eexists. split; [reflexivity|]. apply elem_of_dom. eexists. vm_compute. reflexivity.
Defined.

Lemma references_agree_witness : "w1" ∈ GetObjRefIds one_reference "o" ∧ "o" ∈ GetClientRefIds one_reference "w1".
Proof.
  pose proof (proj1 (references_agree _ _ _ one_reference_reached) "w1" "o") as [H _].
  assert ("w1" ∈ GetObjRefIds one_reference "o") as Hw by (apply (bool_decide_unpack _); by vm_compute). split; [exact Hw|exact (H Hw)].
Defined.

End ObjectRef.
