(* ===== verification/ShmRef.v ===== *)
(** * ShmRef: the shared memory the clients of a worker have mapped

    Model of [SharedMemoryRefTable] of [src/datasystem/common/object_cache/object_ref_info.{h,cpp}].  A unit of shared memory stays
    allocated while a client holds it.  A reference is kept in the row of the client and in that of the unit, the
    unit counts its references, and since a client may never learn of a reference it was given (its request has timed out), every
    reference is also put into a queue: after a delay it is offered to the client, who tells which ones it does not have.

    Units are shared, so a unit is a number and its contents are in [units_]; a null or dangling pointer makes a call undefined ([None]).
    A method that locks the row of its client and that of the unit for its whole length is one step.  [FlushMaybeExpiredQueue] takes
    its locks one by one and is cut into its sections: taking the expired items out of the queue, and for each of them the
    question whether the client holds the unit, the entry in the table, and the return to the queue.  [RemoveClient] and [ReconcileClientShmRefs] are
    steps, and so are their sections: their last one takes ids off the offer under a lock of its own.  Metrics are not modelled, the
    page counts of the allocator are. *)
From S2P Require Import Prelude ObjectRef.
Import ObjectRef.

Module ShmRef.
Local Open Scope Z_scope.

Definition SHM_REF_RECONCILE_MIN_EXPIRE_MS : Z := 1000.
Definition SHM_REF_RECONCILE_MAX_EXPIRE_MS : Z := 60 * 1000.
Definition MAX_MAYBE_EXPIRED_SHM_IDS_PER_RECONCILE : nat := 1024.

(** The fields of [ShmUnitInfo] the table uses; [refCount] is an [int32_t]. *)
Record ShmUnit := MkUnit { u_id : string; u_refCount : Z }.
Definition i32 (z : Z) : Z := (z + 2 ^ 31) mod 2 ^ 32 - 2 ^ 31.
Definition IncrementRefCount (u : ShmUnit) : ShmUnit := MkUnit (u_id u) (i32 (u_refCount u + 1)).
Definition DecrementRefCount (u : ShmUnit) : ShmUnit := MkUnit (u_id u) (i32 (u_refCount u - 1)).

Record MaybeExpiredShmItem := MkItem { m_requestTimeoutMs : Z; m_expireTimeMs : Z; m_clientId : string; m_shmId : string }.

Record state := MkState {
  clients_ : gmap string (ObjectRefInfo string); shms_ : gmap string (nat * gset string); units_ : gmap nat ShmUnit;
  queue_ : list MaybeExpiredShmItem; table_ : gmap string (gset string); noRefPages_ : Z; refPages_ : Z }.

Definition with_clients s m := MkState m (shms_ s) (units_ s) (queue_ s) (table_ s) (noRefPages_ s) (refPages_ s).
Definition with_shms s m := MkState (clients_ s) m (units_ s) (queue_ s) (table_ s) (noRefPages_ s) (refPages_ s).
Definition with_units s m := MkState (clients_ s) (shms_ s) m (queue_ s) (table_ s) (noRefPages_ s) (refPages_ s).
Definition with_queue s m := MkState (clients_ s) (shms_ s) (units_ s) m (table_ s) (noRefPages_ s) (refPages_ s).
Definition with_table s m := MkState (clients_ s) (shms_ s) (units_ s) (queue_ s) m (noRefPages_ s) (refPages_ s).
(** [ChangeNoRefPageCount(-n)] and [ChangeRefPageCount(n)]. *)
Definition move_pages s (n : Z) := MkState (clients_ s) (shms_ s) (units_ s) (queue_ s) (table_ s) (noRefPages_ s - n) (refPages_ s + n).

(** ** The queue of references that may have expired *)
Definition GetMaybeExpiredDeadlineMs (requestTimeoutMs now : Z) : Z :=
  u64 (now + Z.min (Z.max requestTimeoutMs SHM_REF_RECONCILE_MIN_EXPIRE_MS) SHM_REF_RECONCILE_MAX_EXPIRE_MS).

Definition RecordMaybeExpiredShm (s : state) (clientId shmId : string) (requestTimeoutMs now : Z) : state :=
  with_queue s (queue_ s ++ [MkItem requestTimeoutMs (GetMaybeExpiredDeadlineMs requestTimeoutMs now) clientId shmId]).

(** In the order of the hash set, which is not specified. *)
Definition GetMaybeExpiredShmIds (s : state) (clientId : string) : list string :=
  match table_ s !! clientId with
  | None => []
  | Some ids => take MAX_MAYBE_EXPIRED_SHM_IDS_PER_RECONCILE (elements ids)
  end.

Definition ClearMaybeExpiredShmIds (s : state) (clientId : string) (shmIds : list string) : state :=
  match shmIds, table_ s !! clientId with
  | [], _ | _, None => s
  | _, Some ids =>
    let left := ids ∖ list_to_set shmIds in
    with_table s (if bool_decide (left = ∅) then delete clientId (table_ s) else <[clientId := left]> (table_ s))
  end.

(** ** References *)
Definition GetShmUnit (s : state) (shmId : string) : res nat :=
  match shms_ s !! shmId with Some (p, _) => Ok p | None => Fail K_NOT_FOUND end.

Definition ClientTableGetOrInsert (s : state) (clientId : string) : state * ObjectRefInfo string :=
  match clients_ s !! clientId with
  | Some i => (s, i)
  | None => (with_clients s (<[clientId := NewRefInfo true]> (clients_ s)), NewRefInfo true)
  end.

Definition InitShmRefForClient (s : state) (clientId : string) (supportMultiShmRefCount : bool) : state :=
  match clients_ s !! clientId with
  | Some _ => s
  | None => with_clients s (<[clientId := NewRefInfo (negb supportMultiShmRefCount)]> (clients_ s))
  end.

(** The body both ways of adding share, with the row of the client at hand. *)
Definition add_unit (s : state) (clientId : string) (i : ObjectRefInfo string) (p : nat) (requestTimeoutMs now : Z) : option state :=
  u ← units_ s !! p;
  let shmId := u_id u in
  let '(i', added) := AddRef i shmId 1 in
  let u := if added then IncrementRefCount u else u in
  let s := with_units (with_clients s (<[clientId := i']> (clients_ s))) (<[p := u]> (units_ s)) in
  let '(q, holders) := default (p, ∅) (shms_ s !! shmId) in
  let s := with_shms s (<[shmId := (q, {[clientId]} ∪ holders)]> (shms_ s)) in
  let s := if bool_decide (u_refCount u = 1) then move_pages s 1 else s in
  Some (RecordMaybeExpiredShm s clientId shmId requestTimeoutMs now).

Definition AddShmUnit (s : state) (clientId : string) (p : nat) (requestTimeoutMs now : Z) : option state :=
  let '(s, i) := ClientTableGetOrInsert s clientId in add_unit s clientId i p requestTimeoutMs now.

(** The caller has the row of the client; [None] in the list is a null pointer. *)
Definition AddShmUnits (s : state) (clientId : string) (ps : list (option nat)) (requestTimeoutMs now : Z) : option state :=
  fold_left (λ r p, s ← r;
    match p with
    | None => Some s
    | Some p => i ← clients_ s !! clientId; add_unit s clientId i p requestTimeoutMs now
    end) ps (Some s).

(** With the rows of the client and of the unit at hand; the row of the client is written back. *)
Definition RemoveShmUnitDetail (s : state) (clientId : string) (forceRemoveClient : bool) (key : string) (i : ObjectRefInfo string)
    (p : nat) (clientIds : gset string) : option state :=
  u ← units_ s !! p;
  let '(i', removed, refCount) := RemoveAndGetRefCnt i (u_id u) in
  let u := if removed && (0 <? u_refCount u) then DecrementRefCount u else u in
  let s := with_units (with_clients s (<[clientId := i']> (clients_ s))) (<[p := u]> (units_ s)) in
  let s := if bool_decide (u_refCount u = 0) then move_pages s (-1) else s in
  if negb forceRemoveClient && (0 <? refCount) then Some s
  else
    let left := clientIds ∖ {[clientId]} in
    Some (with_shms s (if bool_decide (left = ∅) then delete key (shms_ s) else <[key := (p, left)]> (shms_ s))).

Definition RemoveShmUnit (s : state) (clientId shmId : string) : option state :=
  match clients_ s !! clientId, shms_ s !! shmId with
  | Some i, Some (p, clientIds) =>
    s ← RemoveShmUnitDetail s clientId false shmId i p clientIds;
    Some (ClearMaybeExpiredShmIds s clientId [shmId])
  | _, _ => Some s
  end.

(** The loop of [RemoveClient] over the units of the client. *)
Fixpoint remove_units (s : state) (clientId : string) (shmIds : list string) : option state :=
  match shmIds with
  | [] => Some s
  | shmId :: rest =>
    match clients_ s !! clientId, shms_ s !! shmId with
    | Some i, Some (p, clientIds) => s ← RemoveShmUnitDetail s clientId true shmId i p clientIds; remove_units s clientId rest
    | _, _ => remove_units s clientId rest
    end
  end.

(** The part of [RemoveClient] with the row of the client at hand, and the part after it is gone. *)
Definition remove_client_rows (s : state) (clientId : string) (i : ObjectRefInfo string) : option state :=
  s ← remove_units s clientId (GetRefIds i); Some (with_clients s (delete clientId (clients_ s))).
Definition forget_offers (s : state) (clientId : string) : state := with_table s (delete clientId (table_ s)).

Definition RemoveClient (s : state) (clientId : string) : option state :=
  match clients_ s !! clientId with
  | None => Some s
  | Some i => s ← remove_client_rows s clientId i; Some (forget_offers s clientId)
  end.

Definition ClientContainsShm (s : state) (clientId shmId : string) : bool :=
  match clients_ s !! clientId with Some i => Contains i shmId | None => false end.
Definition GetClientRefIds (s : state) (clientId : string) : list string :=
  match clients_ s !! clientId with Some i => GetRefIds i | None => [] end.

Fixpoint reconcile_loop (s : state) (clientId : string) (shmIds : list string) : option state :=
  match shmIds with
  | [] => Some s
  | shmId :: rest => s ← RemoveShmUnit s clientId shmId; reconcile_loop s clientId rest
  end.

Definition ReconcileClientShmRefs (s : state) (clientId : string) (confirmedExpiredShmIds : list string) : option (state * list string) :=
  s ← reconcile_loop s clientId confirmedExpiredShmIds;
  let s := ClearMaybeExpiredShmIds s clientId confirmedExpiredShmIds in
  Some (s, GetMaybeExpiredShmIds s clientId).

(** ** Flushing *)
Definition expire_le (a b : MaybeExpiredShmItem) : Prop := m_expireTimeMs a ≤ m_expireTimeMs b.
#[export] Instance expire_le_dec : RelDecision expire_le.
Proof. intros a b. unfold expire_le. apply _. Defined.

(** Under the lock of the queue: the items that have expired, earliest first. *)
Definition flush_pop (s : state) (nowMs : Z) : state * list MaybeExpiredShmItem :=
  (with_queue s (filter (λ x, ¬ m_expireTimeMs x ≤ nowMs) (queue_ s)),
   merge_sort expire_le (filter (λ x, m_expireTimeMs x ≤ nowMs) (queue_ s))).

(** Under the lock of the table: the entry of an item whose client holds the unit, and the items to queue again. *)
Definition flush_insert (a : state * list MaybeExpiredShmItem) (x : MaybeExpiredShmItem) : state * list MaybeExpiredShmItem :=
  let '(s, failedItems) := a in
  let ids := default ∅ (table_ s !! m_clientId x) in
  if bool_decide (m_shmId x ∈ ids) then (with_table s (<[m_clientId x := ids]> (table_ s)), failedItems ++ [x])
  else (with_table s (<[m_clientId x := {[m_shmId x]} ∪ ids]> (table_ s)), failedItems).

(** One item. *)
Definition flush_item (a : state * list MaybeExpiredShmItem) (x : MaybeExpiredShmItem) : state * list MaybeExpiredShmItem :=
  if negb (ClientContainsShm a.1 (m_clientId x) (m_shmId x)) then a else flush_insert a x.

Definition flush_again (now : Z) (s : state) (x : MaybeExpiredShmItem) : state :=
  RecordMaybeExpiredShm s (m_clientId x) (m_shmId x) (m_requestTimeoutMs x) now.

Definition FlushMaybeExpiredQueue (s : state) (nowMs now : Z) : state :=
  let '(s, expiredItems) := flush_pop s nowMs in
  let '(s, failedItems) := fold_left flush_item expiredItems (s, []) in
  fold_left (flush_again now) failedItems s.

(** ** Reading the tables *)
Definition cnt (s : state) (c k : string) : Z := match clients_ s !! c with Some i => GetRefCount i k | None => 0 end.
Definition holders (s : state) (k : string) : gset string := default ∅ (snd <$> shms_ s !! k).
Definition queued (s : state) (c k : string) : Z :=
  Z.of_nat (List.length (filter (λ x, m_clientId x = c ∧ m_shmId x = k) (queue_ s))).
Definition offered (s : state) (c k : string) : bool := bool_decide (k ∈ default ∅ (table_ s !! c)).
(** How often the reference is going to be offered to its client. *)
Definition pending (s : state) (c k : string) : Z := queued s c k + (if offered s c k then 1 else 0).

Definition counts_ok (i : ObjectRefInfo string) : Prop :=
  ∀ k n, objectKeys_ i !! k = Some n → 1 ≤ n < 2 ^ 32 ∧ (isUniqueCnt_ i = true → n = 1).

(** The rows of the two tables, whatever the queue holds. *)
Record rows_ok (s : state) : Prop := {
  v_counts : ∀ c i, clients_ s !! c = Some i → counts_ok i;
  v_rows : ∀ k p h, shms_ s !! k = Some (p, h) → h ≠ ∅ ∧ ∃ u, units_ s !! p = Some u ∧ u_id u = k;
  v_ids : ∀ p q u v, units_ s !! p = Some u → units_ s !! q = Some v → u_id u = u_id v → p = q }.

(** [hand]: how often a reference is in the hands of a thread that flushes. *)
Record inv (hand : string → string → Z) (s : state) : Prop := {
  v_ok : rows_ok s;
  v_agree : ∀ c k, 0 < cnt s c k ↔ c ∈ holders s k;
  v_pending : ∀ c k, cnt s c k ≤ pending s c k + hand c k }.
Arguments v_ok {hand} s _.
Arguments v_agree {hand} s _.
Arguments v_pending {hand} s _.

Lemma cnt_nonneg s c k : rows_ok s → 0 ≤ cnt s c k.
Proof.
  intros H. rewrite /cnt /GetRefCount. destruct (clients_ s !! c) as [i|] eqn:Hi; [|done].
  destruct (objectKeys_ i !! k) as [n|] eqn:Hn; simpl; [|done]. apply (v_counts s H c i Hi) in Hn. lia.
Qed.

Lemma contains_cnt s c k : rows_ok s → ClientContainsShm s c k = true ↔ 0 < cnt s c k.
Proof.
  intros H. rewrite /ClientContainsShm /cnt /Contains /GetRefCount. destruct (clients_ s !! c) as [i|] eqn:Hi; [|split; [done|lia]].
  rewrite bool_decide_eq_true. destruct (objectKeys_ i !! k) as [n|] eqn:Hn; simpl.
  - apply (v_counts s H c i Hi) in Hn. split; [lia|eauto].
  - split; [by intros [? ?]|lia].
Qed.

(** ** One reference more *)
Lemma AddRef_counts i k i' b : counts_ok i → GetRefCount i k + 1 < 2 ^ 32 → AddRef i k 1 = (i', b) →
  counts_ok i' ∧ isUniqueCnt_ i' = isUniqueCnt_ i ∧ (∀ k', k' ≠ k → GetRefCount i' k' = GetRefCount i k') ∧
  GetRefCount i' k = GetRefCount i k + (if b then 1 else 0) ∧ 0 < GetRefCount i' k ∧
  (b = false → isUniqueCnt_ i = true ∧ i' = i) ∧ (isUniqueCnt_ i = true → b = true → GetRefCount i k = 0).
Proof.
  intros Hok Hb. rewrite /AddRef /GetRefCount in Hb |- *. destruct (objectKeys_ i !! k) as [n|] eqn:Hn; simpl in *.
  - pose proof (Hok k n Hn) as [Hr Hu]. destruct (isUniqueCnt_ i) eqn:Hui; intros [= <- <-].
    + rewrite Hn /=. split_and!; [done..|lia|lia|done|done].
    + rewrite /= u32_small; [lia|]. split_and!; [|done| | | |done|done].
      * intros k' m. simpl. destruct (decide (k' = k)) as [->|]; simplify_map_eq; [intros [= <-]; split; [lia|done]|]. intros Hm. split; [by apply (Hok k')|done].
      * intros k' Hne. by rewrite lookup_insert_ne.
      * by rewrite lookup_insert_eq.
      * rewrite lookup_insert_eq /=. lia.
  - intros [= <- <-]. simpl. split_and!; [|done| | | |done|done].
    + intros k' m. simpl. destruct (decide (k' = k)) as [->|]; simplify_map_eq; [intros [= <-]; split; [lia|done]|]. apply Hok.
    + intros k' Hne. by rewrite lookup_insert_ne.
    + by rewrite lookup_insert_eq.
    + by rewrite lookup_insert_eq.
Qed.

Lemma i32_small z : - 2 ^ 31 ≤ z < 2 ^ 31 → i32 z = z.
Proof. intros Hz. rewrite /i32 Z.mod_small; lia. Qed.

Lemma queued_snoc s c k x : queued (with_queue s (queue_ s ++ [x])) c k =
  queued s c k + (if bool_decide (m_clientId x = c ∧ m_shmId x = k) then 1 else 0).
Proof.
  rewrite /queued /= filter_app length_app filter_cons. case_bool_decide; [rewrite decide_True //|rewrite decide_False //]; simpl; lia.
Qed.

(** ** One reference less *)
Lemma RemoveRef_counts i k i' b n : counts_ok i → RemoveAndGetRefCnt i k = (i', b, n) →
  counts_ok i' ∧ isUniqueCnt_ i' = isUniqueCnt_ i ∧ (∀ k', k' ≠ k → GetRefCount i' k' = GetRefCount i k') ∧
  GetRefCount i' k = n ∧ n = Z.max 0 (GetRefCount i k - 1) ∧ (b = true ↔ 0 < GetRefCount i k).
Proof.
  intros Hok. rewrite /RemoveAndGetRefCnt /GetRefCount. destruct (objectKeys_ i !! k) as [m|] eqn:Hm; simpl.
  - pose proof (Hok k m Hm) as [Hr Hu]. destruct (isUniqueCnt_ i) eqn:Hui.
    + intros [= <- <- <-]. simpl. rewrite lookup_delete_eq (Hu eq_refl) /=. split_and!; [|done| |done|done|split; [lia|done]].
      * intros k' x; simpl. intros [Hne Hx]%lookup_delete_Some. apply (Hok k') in Hx as [? Hx]. split; [done|]. auto.
      * intros k' Hne. by rewrite lookup_delete_ne.
    + rewrite u32_small; [lia|]. intros [= <- <- <-]. simpl. case_match eqn:He.
      * apply Z.eqb_eq in He. rewrite lookup_delete_eq He /=. split_and!; [|done| |done|lia|split; [lia|done]].
        -- intros k' x; simpl. intros [Hne Hx]%lookup_delete_Some. split; [by apply (Hok k')|done].
        -- intros k' Hne. by rewrite lookup_delete_ne.
      * apply Z.eqb_neq in He. rewrite lookup_insert_eq /=. split_and!; [|done| |done|lia|split; [lia|done]].
        -- intros k' x. simpl. destruct (decide (k' = k)) as [->|]; simplify_map_eq; [intros [= <-]; split; [lia|done]|]. intros Hx. split; [by apply (Hok k')|done].
        -- intros k' Hne. by rewrite lookup_insert_ne.
  - intros [= <- <- <-]. rewrite Hm /=. by split_and!.
Qed.

(** ** The effect on the rows *)
Definition at_key (c k c' k' : string) : bool := bool_decide (c' = c ∧ k' = k).

Lemma cnt_row s c i : clients_ s !! c = Some i → ∀ k, cnt s c k = GetRefCount i k.
Proof. intros Hi k. by rewrite /cnt Hi. Qed.

(** Writing back the row of [c], in which only the count of [k] is another. *)
Lemma cnt_write s s' c i' k n : clients_ s' = <[c := i']> (clients_ s) → (∀ k', k' ≠ k → GetRefCount i' k' = cnt s c k') → GetRefCount i' k = n →
  ∀ c' k', cnt s' c' k' = if at_key c k c' k' then n else cnt s c' k'.
Proof.
  intros Hc Hk Hn c' k'. rewrite {1}/cnt Hc /at_key. destruct (decide (c' = c)) as [->|Hne].
  - rewrite lookup_insert_eq. case_bool_decide as Hx; [by destruct Hx as [_ ->]|]. apply Hk. intros ->. tauto.
  - rewrite lookup_insert_ne // bool_decide_false; [tauto|]. done.
Qed.

(** Writing back a unit. *)
Lemma units_write s p u u' q v : units_ s !! p = Some u → u_id u' = u_id u → <[p := u']> (units_ s) !! q = Some v →
  ∃ w, units_ s !! q = Some w ∧ u_id v = u_id w.
Proof. intros Hu Hid. destruct (decide (q = p)) as [->|Hne]; simplify_map_eq; [|naive_solver]. intros Hv; simplify_eq. eauto. Qed.

Lemma rows_ok_write s s' p u u' c i' :
  rows_ok s → units_ s !! p = Some u → u_id u' = u_id u → counts_ok i' →
  clients_ s' = <[c := i']> (clients_ s) → units_ s' = <[p := u']> (units_ s) →
  (∀ k q h, shms_ s' !! k = Some (q, h) → h ≠ ∅ ∧ ∃ v, units_ s !! q = Some v ∧ u_id v = k) → rows_ok s'.
Proof.
  intros [Hc Hr Hids] Hu Hid Hi Hcl Hun Hsh. split.
  - intros c' j. rewrite Hcl. destruct (decide (c' = c)) as [->|Hne]; simplify_map_eq; [naive_solver|]. apply Hc.
  - intros k q h Hk. destruct (Hsh k q h Hk) as [Hne (v&Hv&Hvk)]. split; [done|]. rewrite Hun.
    destruct (decide (q = p)) as [->|Hqp]; simplify_map_eq; eauto.
  - intros a b x y. rewrite Hun. intros Ha Hb Hxy. apply (units_write _ _ _ _ _ _ Hu Hid) in Ha as (x'&Ha&Hx).
    apply (units_write _ _ _ _ _ _ Hu Hid) in Hb as (y'&Hb&Hy). eapply Hids; [done..|congruence].
Qed.

Lemma holders_insert s s' k p h : shms_ s' = <[k := (p, h)]> (shms_ s) →
  ∀ k', holders s' k' = if bool_decide (k' = k) then h else holders s k'.
Proof. intros Hs k'. rewrite /holders Hs. case_bool_decide as Hk; [by rewrite Hk lookup_insert_eq|by rewrite lookup_insert_ne]. Qed.

Lemma holders_delete s s' k : shms_ s' = delete k (shms_ s) → ∀ k', holders s' k' = if bool_decide (k' = k) then ∅ else holders s k'.
Proof. intros Hs k'. rewrite /holders Hs. case_bool_decide as Hk; [by rewrite Hk lookup_delete_eq|by rewrite lookup_delete_ne]. Qed.

(** What adding the unit [p] with the id [k] to [c] does. *)
Record added (s : state) (c : string) (p : nat) (k : string) (s' : state) (u : ShmUnit) (b : bool) : Prop := {
  a_ok : rows_ok s';
  a_cnt : ∀ c' k', cnt s' c' k' = if at_key c k c' k' then cnt s c k + (if b then 1 else 0) else cnt s c' k';
  a_pos : 0 < cnt s' c k;
  a_holders : ∀ k', holders s' k' = if bool_decide (k' = k) then {[c]} ∪ holders s k else holders s k';
  a_queue : ∃ x, queue_ s' = queue_ s ++ [x] ∧ m_clientId x = c ∧ m_shmId x = k;
  a_table : table_ s' = table_ s;
  a_units : units_ s' = <[p := if b then IncrementRefCount u else u]> (units_ s);
  a_unique : (∃ i', clients_ s' = <[c := i']> (clients_ s) ∧ isUniqueCnt_ i' = default true (isUniqueCnt_ <$> clients_ s !! c)) ∧
             (default true (isUniqueCnt_ <$> clients_ s !! c) = true → b = true → cnt s c k = 0);
  a_again : b = false → 0 < cnt s c k }.

Lemma add_unit_spec s c i p u req now : rows_ok s → clients_ s !! c = Some i → units_ s !! p = Some u → cnt s c (u_id u) + 1 < 2 ^ 32 →
  ∃ s' b, add_unit s c i p req now = Some s' ∧ added s c p (u_id u) s' u b.
Proof.
  intros Hok Hi Hu Hb. rewrite /add_unit Hu /=. destruct (AddRef i (u_id u) 1) as [i' b] eqn:Ha.
  rewrite (cnt_row s c i Hi) in Hb. destruct (AddRef_counts i (u_id u) i' b (v_counts s Hok c i Hi) Hb Ha) as (H1&H2&H3&H4&H5&H6&H7).
  assert (Hp : default (p, ∅) (shms_ s !! u_id u) = (p, holders s (u_id u))).
  { rewrite /holders. destruct (shms_ s !! u_id u) as [[q h]|] eqn:Hq; [|done]. simpl. f_equal.
    destruct (v_rows s Hok _ _ _ Hq) as [_ (v&Hv&Hvk)]. by eapply (v_ids s Hok). }
  rewrite Hp. set (u' := if b then IncrementRefCount u else u). set (s1 := with_shms _ _).
  exists (RecordMaybeExpiredShm (if bool_decide (u_refCount u' = 1) then move_pages s1 1 else s1) c (u_id u) req now), b. split; [done|].
  assert (Hs : ∀ r : state, r = (if bool_decide (u_refCount u' = 1) then move_pages s1 1 else s1) →
     clients_ r = <[c := i']> (clients_ s) ∧ units_ r = <[p := u']> (units_ s) ∧ queue_ r = queue_ s ∧ table_ r = table_ s ∧
     shms_ r = <[u_id u := (p, {[c]} ∪ holders s (u_id u))]> (shms_ s)) by (intros r ->; by case_bool_decide).
  destruct (Hs _ eq_refl) as (E1&E2&E3&E4&E5). set (r := if bool_decide _ then _ else _) in *. clearbody r. clear Hs s1.
  assert (Hcnt : ∀ k, GetRefCount i k = cnt s c k) by (intros k; by rewrite (cnt_row s c i Hi)).
  pose proof (cnt_write s (RecordMaybeExpiredShm r c (u_id u) req now) c i' (u_id u) _ E1 ltac:(intros; rewrite H3 //) H4) as Hc'.
  split; simpl; try done.
  - eapply (rows_ok_write s _ p u u' c i'); try done; [by rewrite /u'; case_match|]. intros k q h. simpl. rewrite E5.
    destruct (decide (k = u_id u)) as [->|Hne]; simplify_map_eq.
    + intros [= <- <-]. split; [set_solver|eauto].
    + apply (v_rows s Hok).
  - intros c' k'. rewrite Hc' Hcnt //.
  - rewrite Hc' /at_key bool_decide_true // -H4. done.
  - by apply (holders_insert s _ (u_id u) p).
  - rewrite E3. eexists. split_and!; done.
  - rewrite Hi /=. split; [by exists i'|]. intros. rewrite -Hcnt. auto.
  - intros ->. rewrite -Hcnt. destruct (H6 eq_refl) as [_ ->]. lia.
Qed.

(** What removing the unit [p] with the id [k] from [c] does. *)
Record dropped (s : state) (c : string) (force : bool) (p : nat) (k : string) (s' : state) (u : ShmUnit) : Prop := {
  d_ok : rows_ok s';
  d_cnt : ∀ c' k', cnt s' c' k' = if at_key c k c' k' then Z.max 0 (cnt s c k - 1) else cnt s c' k';
  d_holders : ∀ k', holders s' k' = if bool_decide (k' = k) && (force || (cnt s c k <=? 1)) then holders s k ∖ {[c]} else holders s k';
  d_queue : queue_ s' = queue_ s;
  d_table : table_ s' = table_ s;
  d_units : units_ s' = <[p := if (0 <? cnt s c k) && (0 <? u_refCount u) then DecrementRefCount u else u]> (units_ s);
  d_rows : ∀ k' q h', shms_ s' !! k' = Some (q, h') → ∃ h, shms_ s !! k' = Some (q, h);
  d_unique : ∃ i', clients_ s' = <[c := i']> (clients_ s) ∧ Some (isUniqueCnt_ i') = isUniqueCnt_ <$> clients_ s !! c }.

Lemma RemoveShmUnitDetail_spec s c force k i p h : rows_ok s → clients_ s !! c = Some i → shms_ s !! k = Some (p, h) →
  ∃ s' u, RemoveShmUnitDetail s c force k i p h = Some s' ∧ units_ s !! p = Some u ∧ u_id u = k ∧ dropped s c force p k s' u.
Proof.
  intros Hok Hi Hk. destruct (v_rows s Hok k p h Hk) as [Hne (u&Hu&Hid)]. rewrite /RemoveShmUnitDetail Hu /= Hid.
  destruct (RemoveAndGetRefCnt i k) as [[i' b] n] eqn:Ha.
  destruct (RemoveRef_counts i k i' b n (v_counts s Hok c i Hi) Ha) as (H1&H2&H3&H4&H5&H6).
  assert (Hcnt : ∀ k, GetRefCount i k = cnt s c k) by (intros x; by rewrite (cnt_row s c i Hi)). rewrite Hcnt in H5, H6.
  assert (Hb : b = (0 <? cnt s c k)) by (apply eq_true_iff_eq; by rewrite H6 Z.ltb_lt).
  rewrite Hb. set (u' := if (0 <? cnt s c k) && (0 <? u_refCount u) then DecrementRefCount u else u).
  set (s1 := if bool_decide (u_refCount u' = 0) then _ else _).
  assert (Hs : clients_ s1 = <[c := i']> (clients_ s) ∧ units_ s1 = <[p := u']> (units_ s) ∧ queue_ s1 = queue_ s ∧ table_ s1 = table_ s ∧
     shms_ s1 = shms_ s) by (rewrite /s1; by case_bool_decide).
  destruct Hs as (E1&E2&E3&E4&E5). clearbody s1. rewrite E5.
  set (s' := if _ && _ then _ else _). assert (Hs' : ∃ t, s' = Some t ∧ clients_ t = clients_ s1 ∧ units_ t = units_ s1 ∧ queue_ t = queue_ s1 ∧
    table_ t = table_ s1 ∧ shms_ t = if force || (cnt s c k <=? 1) then (if bool_decide (h ∖ {[c]} = ∅) then delete k (shms_ s) else <[k := (p, h ∖ {[c]})]> (shms_ s)) else shms_ s).
  { rewrite /s'. assert (Hn : negb force && (0 <? n) = negb (force || (cnt s c k <=? 1))) by (destruct force; simpl; lia).
    rewrite Hn. destruct (force || _); simpl; eexists; (split; [done|]); simpl; by rewrite ?E5. }
  clearbody s'. destruct Hs' as (t&->&F1&F2&F3&F4&F5). rewrite E1 in F1. rewrite E2 in F2. exists t, u. split_and!; [done|done|done|].
  assert (Hh : holders s k = h) by (by rewrite /holders Hk).
  assert (Hrow : ∀ k' q h', shms_ t !! k' = Some (q, h') → h' ≠ ∅ ∧ ∃ h, shms_ s !! k' = Some (q, h)).
  { intros k' q h'. rewrite F5. assert (shms_ s !! k' = Some (q, h') → h' ≠ ∅ ∧ ∃ h, shms_ s !! k' = Some (q, h)) as Hsame
      by (intros Hx; split; [by apply (v_rows s Hok k' q)|eauto]).
    destruct (force || _); [|done]. case_bool_decide as He.
    - by intros [_ Hx]%lookup_delete_Some; apply Hsame.
    - destruct (decide (k' = k)) as [->|Hkk]; simplify_map_eq; [|done]. intros [= <- <-]. eauto. }
  split; try congruence.
  - eapply (rows_ok_write s t p u u' c i'); try done; [by rewrite /u'; destruct (_ && _)|]. intros k' q h' Hx. destruct (Hrow k' q h' Hx) as [Hne' (h0&Hx0)].
    split; [done|]. by apply (v_rows s Hok k' q h0).
  - apply (cnt_write s t c i' k _ F1); [intros; rewrite H3 //|by rewrite H4 H5].
  - intros k'. destruct (force || (cnt s c k <=? 1)) eqn:Hf; rewrite ?andb_true_r ?andb_false_r; [|by rewrite /holders F5].
    rewrite Hh. case_bool_decide as He; [rewrite (holders_delete s t k F5); case_bool_decide; [by rewrite He|done]|by apply (holders_insert s t k p)].
  - exact F2.
  - intros k' q h' Hx. by destruct (Hrow k' q h' Hx).
  - exists i'. split; [done|]. by rewrite Hi /= H2.
Qed.

(** ** The queue *)
Lemma clear_offered s c ks c' k : ks ≠ [] →
  offered (ClearMaybeExpiredShmIds s c ks) c' k = offered s c' k && negb (bool_decide (c' = c ∧ k ∈ ks)).
Proof.
  intros Hks. rewrite /ClearMaybeExpiredShmIds. destruct ks as [|k0 ks]; [done|]. set (l := k0 :: ks) in *. clearbody l. clear k0 ks.
  rewrite /offered. destruct (table_ s !! c) as [ids|] eqn:Ht.
  - assert (Hd : default ∅ (table_ (with_table s (if bool_decide (ids ∖ list_to_set l = ∅) then delete c (table_ s)
        else <[c := ids ∖ list_to_set l]> (table_ s))) !! c') = if bool_decide (c' = c) then ids ∖ list_to_set l else default ∅ (table_ s !! c')).
    { simpl. case_bool_decide as He; case_bool_decide as Hc; try subst c';
        rewrite ?lookup_delete_eq ?lookup_insert_eq ?lookup_delete_ne ?lookup_insert_ne //=. }
    rewrite Hd. apply eq_true_iff_eq. rewrite andb_true_iff negb_true_iff !bool_decide_eq_true bool_decide_eq_false.
    destruct (decide (c' = c)) as [->|Hc].
    + rewrite bool_decide_true // Ht /= elem_of_difference elem_of_list_to_set. tauto.
    + rewrite bool_decide_false //. tauto.
  - apply eq_true_iff_eq. rewrite andb_true_iff negb_true_iff !bool_decide_eq_true bool_decide_eq_false. split; [|tauto].
    intros Hin. split; [done|]. intros [-> _]. rewrite Ht /= in Hin. set_solver.
Qed.

Lemma clear_others s c ks : let t := ClearMaybeExpiredShmIds s c ks in
  clients_ t = clients_ s ∧ shms_ t = shms_ s ∧ units_ t = units_ s ∧ queue_ t = queue_ s.
Proof. rewrite /ClearMaybeExpiredShmIds. destruct ks, (table_ s !! c); done.
Qed.

(** ** The invariant *)
Lemma queued_nonneg s c k : 0 ≤ queued s c k.
Proof. rewrite /queued. lia. Qed.

Section Hand.
Context (hand : string → string → Z) (Hhand : ∀ c k, 0 ≤ hand c k).
Abbreviation inv := (inv hand).

Lemma new_client s c b : clients_ s !! c = None → inv s → inv (with_clients s (<[c := NewRefInfo b]> (clients_ s))).
Proof.
  intros Hc [[H1 H2 H3] Ha Hp].
  assert (Hcnt : ∀ c' k, cnt (with_clients s (<[c := NewRefInfo b]> (clients_ s))) c' k = cnt s c' k).
  { intros c' k. rewrite /cnt /=. destruct (decide (c' = c)) as [->|Hne]; [rewrite lookup_insert_eq Hc|rewrite lookup_insert_ne]; done. }
  split; [split; [|done|done]|..].
  - intros c' i; simpl. destruct (decide (c' = c)) as [->|Hne]; simplify_map_eq; [|apply H1]. by intros [= <-].
  - intros c' k. rewrite Hcnt. apply Ha.
  - intros c' k. rewrite Hcnt. apply Hp.
Qed.

Lemma at_key_true c k c' k' : at_key c k c' k' = true ↔ c' = c ∧ k' = k.
Proof. apply bool_decide_eq_true. Qed.
Lemma at_key_false c k c' k' : at_key c k c' k' = false ↔ ¬ (c' = c ∧ k' = k).
Proof. apply bool_decide_eq_false. Qed.

Lemma inv_added s c p k s' u b : inv s → added s c p k s' u b → inv s'.
Proof.
  intros [Hok Ha Hp] [Hok' Hc Hpos Hh (x&Hq&Hx1&Hx2) Ht _ _ Hag]. split; [done|..]; intros c' k'.
  - rewrite Hh. destruct (at_key c k c' k') eqn:He.
    + apply at_key_true in He as [-> ->]. rewrite bool_decide_true //. set_solver.
    + rewrite Hc He Ha. apply at_key_false in He. case_bool_decide as Hk; [subst k'|done]. rewrite elem_of_union elem_of_singleton. tauto.
  - specialize (Hp c' k'). rewrite Hc /pending /offered Ht -/(offered s c' k').
    assert (queued s' c' k' = queued s c' k' + if at_key c k c' k' then 1 else 0) as ->.
    { rewrite {1}/queued Hq filter_app length_app filter_cons. subst c k. rewrite /at_key /queued.
      destruct (decide (m_clientId x = c' ∧ m_shmId x = k')) as [[<- <-]|Hn]; [rewrite bool_decide_true //; simpl; lia|].
      rewrite bool_decide_false; [naive_solver|]. simpl. lia. }
    rewrite /pending in Hp. destruct (at_key c k c' k') eqn:He; [|lia]. apply at_key_true in He as [-> ->]. destruct b; lia.
Qed.

Lemma inv_dropped s c p k s' u : inv s → dropped s c false p k s' u → inv (ClearMaybeExpiredShmIds s' c [k]).
Proof.
  intros [Hok Ha Hp] [Hok' Hc Hh Hq Ht _ _ _]. pose proof (clear_others s' c [k]) as (E1&E2&E3&E4). set (t := ClearMaybeExpiredShmIds s' c [k]) in *.
  assert (Hct : ∀ c' k', cnt t c' k' = cnt s' c' k') by (intros; by rewrite /cnt E1).
  split.
  - destruct Hok' as [H1 H2 H3]. split; rewrite ?E1 ?E2 ?E3 //.
  - intros c' k'. rewrite Hct Hc /holders E2 -/(holders s' k') Hh /=. destruct (at_key c k c' k') eqn:He.
    + apply at_key_true in He as [-> ->]. rewrite bool_decide_true //=. specialize (Ha c k). destruct (cnt s c k <=? 1) eqn:Hle.
      * rewrite elem_of_difference elem_of_singleton. split; [lia|tauto].
      * rewrite -Ha. lia.
    + rewrite Ha. apply at_key_false in He. destruct (bool_decide (k' = k) && _) eqn:Hb; [|done].
      apply andb_true_iff in Hb as [->%bool_decide_eq_true _]. rewrite elem_of_difference elem_of_singleton. tauto.
  - intros c' k'. rewrite Hct Hc /pending clear_offered // /offered Ht -/(offered s c' k') /queued E4 Hq -/(queued s c' k').
    specialize (Hp c' k'). rewrite /pending in Hp. pose proof (queued_nonneg s c' k'). pose proof (Hhand c' k').
    destruct (at_key c k c' k') eqn:He.
    + apply at_key_true in He as [-> ->]. rewrite (bool_decide_true (c = c ∧ k ∈ [k])); [split; [done|set_solver]|].
      rewrite andb_false_r. destruct (offered s c k); lia.
    + rewrite bool_decide_false; [apply at_key_false in He; set_solver|]. by rewrite andb_true_r.
Qed.

Lemma AddShmUnit_spec s c p u req now : inv s → units_ s !! p = Some u → cnt s c (u_id u) + 1 < 2 ^ 32 →
  ∃ s' b, AddShmUnit s c p req now = Some s' ∧ inv s' ∧
    added (fst (ClientTableGetOrInsert s c)) c p (u_id u) s' u b ∧ inv (fst (ClientTableGetOrInsert s c)).
Proof.
  intros Hv Hu Hb. rewrite /AddShmUnit /ClientTableGetOrInsert. destruct (clients_ s !! c) as [i|] eqn:Hi; simpl.
  - destruct (add_unit_spec s c i p u req now (v_ok s Hv) Hi Hu Hb) as (s'&b&->&Ha). exists s', b. split_and!; [done|by eapply inv_added|done|done].
  - pose proof (new_client s c true Hi Hv) as Hv'. set (s1 := with_clients s _) in *.
    destruct (add_unit_spec s1 c (NewRefInfo true) p u req now (v_ok s1 Hv')) as (s'&b&->&Ha); [by rewrite /= lookup_insert_eq|done| |].
    { rewrite /cnt /= lookup_insert_eq /GetRefCount /= lookup_empty /=. lia. }
    exists s', b. split_and!; [done|by eapply inv_added|done|done].
Qed.

Lemma RemoveShmUnit_spec s c k : inv s → ∃ s', RemoveShmUnit s c k = Some s' ∧ inv s' ∧
  (∀ c' k', cnt s' c' k' = if at_key c k c' k' then Z.max 0 (cnt s c k - 1) else cnt s c' k') ∧
  (∀ c' k', offered s' c' k' = true → offered s c' k' = true) ∧ (0 < cnt s c k → offered s' c k = false).
Proof.
  intros Hv. assert (Hstay : cnt s c k = 0 → ∀ c' k', cnt s c' k' = if at_key c k c' k' then Z.max 0 (cnt s c k - 1) else cnt s c' k').
  { intros Hz c' k'. destruct (at_key c k c' k') eqn:He; [|done]. apply at_key_true in He as [-> ->]. lia. }
  rewrite /RemoveShmUnit. destruct (clients_ s !! c) as [i|] eqn:Hi.
  2: { assert (Hz : cnt s c k = 0) by (by rewrite /cnt Hi). exists s. split_and!; [done|done|auto|done|lia]. }
  destruct (shms_ s !! k) as [[p h]|] eqn:Hk.
  2: { assert (Hz : cnt s c k = 0).
       { pose proof (cnt_nonneg s c k (v_ok s Hv)). destruct (decide (0 < cnt s c k)) as [Hpos|]; [|lia].
         apply (v_agree s Hv) in Hpos. rewrite /holders Hk /= in Hpos. set_solver. }
       exists s. split_and!; [done|done|auto|done|lia]. }
  destruct (RemoveShmUnitDetail_spec s c false k i p h (v_ok s Hv) Hi Hk) as (s1&u&->&Hu&Hid&Hd). simpl.
  pose proof (clear_others s1 c [k]) as (E1&_). exists (ClearMaybeExpiredShmIds s1 c [k]).
  assert (Ho : ∀ c' k', offered s1 c' k' = offered s c' k') by (intros; by rewrite /offered (d_table _ _ _ _ _ _ _ Hd)).
  split_and!; [done|by eapply inv_dropped|..].
  - intros c' k'. rewrite /cnt E1 -/(cnt s1 c' k'). apply (d_cnt _ _ _ _ _ _ _ Hd).
  - intros c' k'. rewrite clear_offered // Ho. by intros [? _]%andb_true_iff.
  - intros _. rewrite clear_offered // bool_decide_true; [split; [done|set_solver]|]. by rewrite andb_false_r.
Qed.

Lemma reconcile_loop_spec c ks : ∀ s, inv s → ∃ s', reconcile_loop s c ks = Some s' ∧ inv s' ∧
  (∀ c' k, cnt s' c' k ≤ cnt s c' k) ∧ (∀ c' k, offered s' c' k = true → offered s c' k = true) ∧
  (∀ c' k, ¬ (c' = c ∧ k ∈ ks) → cnt s' c' k = cnt s c' k) ∧ (∀ k, k ∈ ks → cnt s' c k = 0 ∨ offered s' c k = false).
Proof.
  induction ks as [|k ks IH]; intros s Hv; [exists s; split_and!; try done; set_solver|].
  destruct (RemoveShmUnit_spec s c k Hv) as (s1&H1&Hv1&Hc1&Ho1&Hz1). simpl. rewrite H1 /=.
  destruct (IH s1 Hv1) as (s2&H2&Hv2&Hc2&Ho2&Hn2&Hz2). exists s2.
  assert (Hle : ∀ c' k', cnt s1 c' k' ≤ cnt s c' k').
  { intros c' k'. rewrite Hc1. pose proof (cnt_nonneg s c k (v_ok s Hv)). destruct (at_key c k c' k') eqn:He; [|lia].
    apply at_key_true in He as [-> ->]. lia. }
  split_and!; [done|done| |auto| |].
  - intros c' k'. etrans; [apply Hc2|apply Hle].
  - intros c' k' Hn. rewrite Hn2; [set_solver|]. rewrite Hc1. destruct (at_key c k c' k') eqn:He; [|done].
    apply at_key_true in He as [-> ->]. set_solver.
  - intros k' [->|Hk']%elem_of_cons; [|auto]. destruct (decide (0 < cnt s c k)) as [Hpos|Hz].
    + right. destruct (offered s2 c k) eqn:Hx; [|done]. apply Ho2 in Hx. rewrite (Hz1 Hpos) in Hx. done.
    + left. pose proof (Hc2 c k). pose proof (Hle c k). pose proof (cnt_nonneg s2 c k (v_ok s2 Hv2)). lia.
Qed.

Lemma inv_clear s c ks : inv s → (∀ k, k ∈ ks → cnt s c k = 0 ∨ offered s c k = false) → inv (ClearMaybeExpiredShmIds s c ks).
Proof.
  intros [[H1 H2 H3] Ha Hp] Hks. destruct (decide (ks = [])) as [->|Hne]; [by split|].
  pose proof (clear_others s c ks) as (E1&E2&E3&E4). set (t := ClearMaybeExpiredShmIds s c ks) in *. split; [split|..].
  - by rewrite E1.
  - by rewrite E2 E3.
  - by rewrite E3.
  - intros c' k. rewrite /cnt /holders E1 E2. apply Ha.
  - intros c' k. specialize (Hp c' k). rewrite /pending in Hp. rewrite /cnt E1 -/(cnt s c' k) /pending /t clear_offered // -/t /queued E4 -/(queued s c' k).
    pose proof (queued_nonneg s c' k). pose proof (Hhand c' k). case_bool_decide as Hb; [|by rewrite andb_true_r]. destruct Hb as [-> Hk]. rewrite andb_false_r.
    destruct (Hks k Hk) as [Hz|Hz]; [lia|]. rewrite Hz in Hp. lia.
Qed.

Lemma ReconcileClientShmRefs_spec s c ks : inv s → ∃ s', ReconcileClientShmRefs s c ks = Some (s', GetMaybeExpiredShmIds s' c) ∧ inv s' ∧
  (∀ c' k, ¬ (c' = c ∧ k ∈ ks) → cnt s' c' k = cnt s c' k).
Proof.
  intros Hv. destruct (reconcile_loop_spec c ks s Hv) as (s1&H1&Hv1&_&_&Hn&Hz). rewrite /ReconcileClientShmRefs H1 /=.
  exists (ClearMaybeExpiredShmIds s1 c ks). split_and!; [done|by apply inv_clear|].
  intros c' k Hk. rewrite /cnt (proj1 (clear_others s1 c ks)) -/(cnt s1 c' k). by apply Hn.
Qed.

(** ** A client goes *)
Record leaving (s : state) (c : string) (rest : list string) (t : state) : Prop := {
  g_ok : rows_ok t;
  g_cnt : ∀ c' k, c' ≠ c → cnt t c' k = cnt s c' k;
  g_holders : ∀ c' k, c' ≠ c → c' ∈ holders t k ↔ c' ∈ holders s k;
  g_rest : ∀ k, c ∈ holders t k → k ∈ rest;
  g_queue : queue_ t = queue_ s;
  g_table : table_ t = table_ s;
  g_clients : ∀ c', c' ≠ c → clients_ t !! c' = clients_ s !! c';
  g_row : is_Some (clients_ t !! c) }.

Lemma leaving_step s c k rest t t' p u : leaving s c (k :: rest) t → dropped t c true p k t' u → leaving s c rest t'.
Proof.
  intros [Hok Hc Hh Hr Hq Ht Hcl Hrow] [Hok' Hc' Hh' Hq' Ht' _ _ (i'&Hcl'&_)]. split; [done|..|congruence|congruence| |].
  - intros c' k' Hne. rewrite Hc' -(Hc c' k' Hne). destruct (at_key c k c' k') eqn:He; [by apply at_key_true in He as [? _]|done].
  - intros c' k' Hne. rewrite Hh' -(Hh c' k' Hne) andb_true_r. case_bool_decide as Hk; [subst k'|done].
    rewrite elem_of_difference elem_of_singleton. tauto.
  - intros k'. rewrite Hh' andb_true_r. case_bool_decide as Hk; [set_solver|]. intros [?|?]%Hr%elem_of_cons; done.
  - intros c' Hne. rewrite Hcl' lookup_insert_ne //. by apply Hcl.
  - rewrite Hcl' lookup_insert_eq. eauto.
Qed.

Lemma remove_units_spec s c ks : ∀ t, leaving s c ks t → ∃ t', remove_units t c ks = Some t' ∧ leaving s c [] t'.
Proof.
  induction ks as [|k ks IH]; intros t Hl; [by exists t|]. simpl. destruct (g_row _ _ _ _ Hl) as [i Hi]. rewrite Hi.
  destruct (shms_ t !! k) as [[p h]|] eqn:Hk.
  - destruct (RemoveShmUnitDetail_spec t c true k i p h (g_ok _ _ _ _ Hl) Hi Hk) as (t1&u&->&_&_&Hd). simpl.
    apply IH. by eapply leaving_step.
  - apply IH. destruct Hl as [? ? ? Hr]. split; try done. intros k' Hk'. pose proof (Hr k' Hk') as Hx.
    apply elem_of_cons in Hx as [->|?]; [|done].
    rewrite /holders Hk /= in Hk'. set_solver.
Qed.

Lemma remove_client_rows_spec s c i : inv s → clients_ s !! c = Some i → ∃ s', remove_client_rows s c i = Some s' ∧ inv s' ∧ clients_ s' !! c = None ∧
  (∀ c' k, cnt s' c' k = if bool_decide (c' = c) then 0 else cnt s c' k) ∧ (∀ k, c ∉ holders s' k).
Proof.
  intros Hv Hi. rewrite /remove_client_rows. destruct (remove_units_spec s c (GetRefIds i) s) as (t&->&[Hok Hc Hh Hr Hq Ht Hcl Hrow]).
  { split; try done; [apply (v_ok s Hv)|]. intros k Hk. apply (v_agree s Hv) in Hk. rewrite (cnt_row s c i Hi) /GetRefCount in Hk.
    apply elem_of_elements, elem_of_dom. destruct (objectKeys_ i !! k); [eauto|simpl in Hk; lia]. }
  simpl. set (s' := with_clients _ _).
  assert (Hcnt : ∀ c' k, cnt s' c' k = if bool_decide (c' = c) then 0 else cnt s c' k).
  { intros c' k. rewrite /cnt /=. case_bool_decide as He; [by rewrite He lookup_delete_eq|]. rewrite lookup_delete_ne // Hcl //. }
  assert (Hno : ∀ k, c ∉ holders s' k) by (intros k Hk%Hr; set_solver).
  exists s'. split_and!; [done| |by rewrite /= lookup_delete_eq|done|done]. split.
  - destruct Hok as [H1 H2 H3]. split; [|done|done]. intros c' j; simpl. rewrite lookup_delete_Some. intros [_ Hj]. by apply (H1 c').
  - intros c' k. rewrite Hcnt. case_bool_decide as He; [subst c'; specialize (Hno k); split; [lia|done]|].
    rewrite (v_agree s Hv). symmetry. by apply (Hh c' k).
  - intros c' k. rewrite Hcnt. pose proof (Hhand c' k). case_bool_decide as He; [rewrite /pending; pose proof (queued_nonneg s' c' k); case_match; lia|].
    etrans; [apply (v_pending s Hv)|]. rewrite /pending /queued /= Hq /offered /= Ht. lia.
Qed.

(** Taking all ids of a client off the offer. *)
Lemma inv_forget s c : inv s → (∀ k, cnt s c k = 0 ∨ offered s c k = false) → inv (forget_offers s c).
Proof.
  intros [[H1 H2 H3] Ha Hp] Hz. split; [by split|done|]. intros c' k. specialize (Hp c' k). pose proof (Hhand c' k). rewrite /pending in Hp |- *.
  pose proof (queued_nonneg s c' k) as Hq. change (queued (forget_offers s c) c' k) with (queued s c' k). change (cnt (forget_offers s c) c' k) with (cnt s c' k).
  rewrite /offered /=. destruct (decide (c' = c)) as [->|Hne]; [|by rewrite lookup_delete_ne]. rewrite lookup_delete_eq /= bool_decide_false; [set_solver|].
  destruct (Hz k) as [Hz'|Hz']; [lia|]. rewrite Hz' in Hp. lia.
Qed.

Lemma RemoveClient_spec s c : inv s → ∃ s', RemoveClient s c = Some s' ∧ inv s' ∧ clients_ s' !! c = None ∧
  (∀ c' k, cnt s' c' k = if bool_decide (c' = c) then 0 else cnt s c' k) ∧ (∀ k, c ∉ holders s' k).
Proof.
  intros Hv. rewrite /RemoveClient. destruct (clients_ s !! c) as [i|] eqn:Hi.
  - destruct (remove_client_rows_spec s c i Hv Hi) as (t&->&Hvt&Hct&Hcnt&Hno). exists (forget_offers t c). split_and!; try done. apply inv_forget; [done|].
    intros k. left. by rewrite Hcnt bool_decide_true.
  - assert (Hz : ∀ k, cnt s c k = 0) by (intros k; by rewrite /cnt Hi). exists s. split_and!; [done|done|done| |].
    + intros c' k. case_bool_decide as He; [by rewrite He|done].
    + intros k. rewrite -(v_agree s Hv) Hz. lia.
Qed.

End Hand.

(** ** Flushing *)
Definition matches (c k : string) (x : MaybeExpiredShmItem) : bool := bool_decide (m_clientId x = c ∧ m_shmId x = k).
Definition matching (l : list MaybeExpiredShmItem) (c k : string) : Z :=
  Z.of_nat (List.length (filter (λ x, m_clientId x = c ∧ m_shmId x = k) l)).

Lemma matching_nil c k : matching [] c k = 0.
Proof. done. Qed.
Lemma matching_app a b c k : matching (a ++ b) c k = matching a c k + matching b c k.
Proof. rewrite /matching filter_app length_app. lia. Qed.
Lemma matching_cons x b c k : matching (x :: b) c k = (if matches c k x then 1 else 0) + matching b c k.
Proof.
  rewrite /matching filter_cons /matches. case_bool_decide; [rewrite decide_True //|rewrite decide_False //]; simpl; lia.
Qed.
#[export] Instance matching_perm : Proper ((≡ₚ) ==> eq ==> eq ==> eq) matching.
Proof. intros a b Hab c ? <- k ? <-. rewrite /matching. by rewrite Hab. Qed.

(** The state a flush works on: as [s] but for the queue and the table. *)
Definition same_rows (s t : state) : Prop := clients_ t = clients_ s ∧ shms_ t = shms_ s ∧ units_ t = units_ s.

(** What is not lost: the reference is still to be offered as often as before, when it is held. *)
Lemma flush_item_spec s t failed x : rows_ok s → same_rows s t → let '(t', failed') := flush_item (t, failed) x in
  same_rows s t' ∧ queue_ t' = queue_ t ∧ (∀ c k, 0 < cnt s c k → matching failed' c k + (if offered t' c k then 1 else 0) =
    matching failed c k + (if offered t c k then 1 else 0) + (if matches c k x then 1 else 0)) ∧
  (∀ c k, offered t c k = true → offered t' c k = true) ∧
  (0 < cnt s (m_clientId x) (m_shmId x) → offered t' (m_clientId x) (m_shmId x) = true).
Proof.
  intros Hok (E1&E2&E3). rewrite /flush_item /flush_insert. cbn [fst].
  assert (Hcon : ClientContainsShm t (m_clientId x) (m_shmId x) = true ↔ 0 < cnt s (m_clientId x) (m_shmId x)).
  { rewrite -(contains_cnt s _ _ Hok) /ClientContainsShm E1 //. }
  destruct (ClientContainsShm t (m_clientId x) (m_shmId x)) eqn:Hx; cbn [negb].
  2: { split_and!; [done..| |done|].
       - intros c k Hpos. assert (matches c k x = false) as ->; [|lia]. apply bool_decide_eq_false. intros [<- <-]. apply Hcon in Hpos. done.
       - intros Hpos%Hcon. done. }
  assert (Hoff : ∀ ids c k, offered (with_table t (<[m_clientId x := ids]> (table_ t))) c k = if bool_decide (m_clientId x = c) then bool_decide (k ∈ ids) else offered t c k).
  { intros ids c k. rewrite /offered /=. destruct (decide (m_clientId x = c)) as [<-|Hc].
    - rewrite (bool_decide_true (m_clientId x = m_clientId x)) // lookup_insert_eq //.
    - rewrite (bool_decide_false (m_clientId x = c)) // lookup_insert_ne //. }
  case_bool_decide as Hin.
  - assert (Hsame : ∀ c k, offered (with_table t (<[m_clientId x := default ∅ (table_ t !! m_clientId x)]> (table_ t))) c k = offered t c k).
    { intros c k. rewrite Hoff. case_bool_decide as Hc; [by rewrite /offered -Hc|done]. }
    split_and!; [done..| | |].
    + intros c k _. rewrite Hsame matching_app matching_cons /=. rewrite {2}/matching filter_nil /=. lia.
    + intros c k. by rewrite Hsame.
    + intros _. rewrite Hsame. by apply bool_decide_eq_true.
  - split_and!; [done..| | |].
    + intros c k _. rewrite Hoff /matches. case_bool_decide as Hc; [|rewrite bool_decide_false; [tauto|]; lia].
      subst c. destruct (decide (m_shmId x = k)) as [<-|Hk].
      * rewrite (bool_decide_true (m_shmId x ∈ _)); [set_solver|]. rewrite (bool_decide_true (m_clientId x = m_clientId x ∧ _)) //.
        rewrite /offered bool_decide_false //. lia.
      * rewrite (bool_decide_false (m_clientId x = m_clientId x ∧ _)); [tauto|].
        assert (bool_decide (k ∈ {[m_shmId x]} ∪ default ∅ (table_ t !! m_clientId x)) = offered t (m_clientId x) k) as ->; [|lia].
        apply bool_decide_ext. set_solver.
    + intros c k Ho. rewrite Hoff. case_bool_decide as Hc; [|done]. subst c. apply bool_decide_eq_true in Ho. apply bool_decide_eq_true. set_solver.
    + intros _. rewrite Hoff bool_decide_true //. apply bool_decide_eq_true. set_solver.
Qed.

Lemma matching_split (P : MaybeExpiredShmItem → Prop) `{∀ x, Decision (P x)} l c k :
  matching l c k = matching (filter (λ x, ¬ P x) l) c k + matching (filter P l) c k.
Proof.
  induction l as [|x l IH]; [done|]. rewrite !filter_cons matching_cons IH. destruct (decide (P x)).
  - rewrite decide_False; [tauto|]. rewrite matching_cons. lia.
  - rewrite decide_True // matching_cons. lia.
Qed.

Lemma flush_loop_spec s l : rows_ok s → ∀ t failed, same_rows s t → let '(t', failed') := fold_left flush_item l (t, failed) in
  same_rows s t' ∧ queue_ t' = queue_ t ∧ (∀ c k, 0 < cnt s c k → matching failed' c k + (if offered t' c k then 1 else 0) =
    matching failed c k + (if offered t c k then 1 else 0) + matching l c k) ∧
  (∀ c k, offered t c k = true → offered t' c k = true) ∧
  (∀ x, x ∈ l → 0 < cnt s (m_clientId x) (m_shmId x) → offered t' (m_clientId x) (m_shmId x) = true).
Proof.
  intros Hok. induction l as [|x l IH]; intros t failed Hs.
  { cbn [fold_left]. split_and!; [apply Hs..|done| |done|set_solver]. intros c k _. rewrite {3}/matching filter_nil /=. lia. }
  cbn [fold_left]. pose proof (flush_item_spec s t failed x Hok Hs) as Hx. destruct (flush_item (t, failed) x) as [t1 failed1].
  destruct Hx as (Hs1&Hq1&Hc1&Hm1&Ho1). specialize (IH t1 failed1 Hs1). destruct (fold_left flush_item l (t1, failed1)) as [t2 failed2].
  destruct IH as (Hs2&Hq2&Hc2&Hm2&Ho2). split_and!; [apply Hs2..|congruence| |auto|].
  - intros c k Hpos. rewrite (Hc2 c k Hpos) (Hc1 c k Hpos) matching_cons. lia.
  - intros y [->|Hy]%elem_of_cons; auto.
Qed.

Lemma flush_again_spec now l : ∀ s, let s' := fold_left (flush_again now) l s in
  same_rows s s' ∧ table_ s' = table_ s ∧ ∀ c k, queued s' c k = queued s c k + matching l c k.
Proof.
  induction l as [|x l IH]; intros s; cbn [fold_left].
  { split_and!; [done..|]. intros c k. rewrite /matching filter_nil /=. lia. }
  destruct (IH (flush_again now s x)) as ((E1&E2&E3)&Ht&Hq). split_and!; [done..|]. intros c k.
  rewrite Hq matching_cons /flush_again /RecordMaybeExpiredShm queued_snoc /=. rewrite /matches. lia.
Qed.

(** A flush that is not interrupted. *)
Lemma FlushMaybeExpiredQueue_spec s nowMs now : rows_ok s → let s' := FlushMaybeExpiredQueue s nowMs now in
  same_rows s s' ∧ (∀ c k, offered s c k = true → offered s' c k = true) ∧
  (∀ x, x ∈ queue_ s → m_expireTimeMs x ≤ nowMs → 0 < cnt s (m_clientId x) (m_shmId x) → offered s' (m_clientId x) (m_shmId x) = true).
Proof.
  intros Hok. rewrite /FlushMaybeExpiredQueue /flush_pop. set (l := merge_sort _ _). set (t := with_queue s _).
  pose proof (flush_loop_spec s l Hok t [] ltac:(done)) as Hl. destruct (fold_left flush_item l (t, [])) as [t1 failed].
  destruct Hl as (Hs1&Hq1&Hc1&Hm1&Ho1). pose proof (flush_again_spec now failed t1) as Ha. simpl in Ha. set (s' := fold_left _ failed t1) in *.
  destruct Ha as (Hs2&Ht2&Hq2).
  assert (Hoff : ∀ c k, offered s' c k = offered t1 c k) by (intros; by rewrite /offered Ht2).
  split_and!; [destruct Hs1 as (?&?&?), Hs2 as (?&?&?); split_and!; congruence| |].
  - intros c k Ho. rewrite Hoff. by apply Hm1.
  - intros x Hx He Hpos. rewrite Hoff. apply Ho1; [|done]. rewrite /l elem_of_merge_sort. apply list_elem_of_filter. done.
Qed.

(** *** Flushes that are interrupted

    A thread that flushes: the items it has still to look at, the one whose client was found to hold it, and those to queue again. *)
Record flush := MkFlush { f_todo : list MaybeExpiredShmItem; f_found : option MaybeExpiredShmItem; f_failed : list MaybeExpiredShmItem }.

(** The next section of a flush; nothing when it is over. *)
Definition flush_section (now : Z) (s : state) (f : flush) : state * flush :=
  match f_found f, f_todo f, f_failed f with
  | Some x, todo, failed => let '(s', failed') := flush_insert (s, failed) x in (s', MkFlush todo None failed')
  | None, x :: todo, failed => (s, MkFlush todo (if ClientContainsShm s (m_clientId x) (m_shmId x) then Some x else None) failed)
  | None, [], x :: failed => (flush_again now s x, MkFlush [] None failed)
  | None, [], [] => (s, f)
  end.

Definition items_of (f : flush) : list MaybeExpiredShmItem := option_list (f_found f) ++ f_todo f ++ f_failed f.
Definition in_hands (fs : list flush) (c k : string) : Z := matching (fs ≫= items_of) c k.

Lemma in_hands_nonneg fs c k : 0 ≤ in_hands fs c k.
Proof. rewrite /in_hands /matching. lia. Qed.

Lemma in_hands_middle fs1 f fs2 c k : in_hands (fs1 ++ f :: fs2) c k = matching (items_of f) c k + in_hands (fs1 ++ fs2) c k.
Proof. rewrite /in_hands !bind_app bind_cons !matching_app. lia. Qed.

(** Another queue and table, and other hands: no held reference may be promised less often. *)
Lemma inv_moved hand hand' s t : inv hand s → same_rows s t →
  (∀ c k, 0 < cnt s c k → pending s c k + hand c k ≤ pending t c k + hand' c k) → (∀ c k, 0 ≤ hand' c k) → inv hand' t.
Proof.
  intros [[H1 H2 H3] Ha Hp] (E1&E2&E3) Hm Hh. split; [split; rewrite ?E1 ?E2 ?E3 //|..]; intros c k; rewrite /cnt E1 -/(cnt s c k).
  - rewrite /holders E2. apply Ha.
  - destruct (decide (0 < cnt s c k)) as [Hpos|Hz]; [specialize (Hp c k); specialize (Hm c k Hpos); lia|].
    rewrite /pending. pose proof (queued_nonneg t c k). specialize (Hh c k). case_match; lia.
Qed.

Lemma flush_pop_inv s fs nowMs : inv (in_hands fs) s →
  inv (in_hands (fs ++ [MkFlush (flush_pop s nowMs).2 None []])) (flush_pop s nowMs).1.
Proof.
  intros Hv. eapply inv_moved; [exact Hv|done| |intros; apply in_hands_nonneg]. intros c k _. rewrite in_hands_middle app_nil_r /items_of /= app_nil_r.
  rewrite /pending. change (offered (with_queue s _) c k) with (offered s c k).
  assert (queued s c k = queued (flush_pop s nowMs).1 c k + matching (flush_pop s nowMs).2 c k) as ->; [|simpl; lia].
  rewrite /flush_pop /= (merge_sort_Permutation expire_le). apply matching_split.
Qed.

Lemma flush_insert_spec s failed x : let '(s', failed') := flush_insert (s, failed) x in
  same_rows s s' ∧ queue_ s' = queue_ s ∧ ∀ c k, matching failed' c k + (if offered s' c k then 1 else 0) =
    matching failed c k + (if offered s c k then 1 else 0) + (if matches c k x then 1 else 0).
Proof.
  rewrite /flush_insert. set (ids := default ∅ _).
  assert (Hoff : ∀ ids' c k, offered (with_table s (<[m_clientId x := ids']> (table_ s))) c k = if bool_decide (m_clientId x = c) then bool_decide (k ∈ ids') else offered s c k).
  { intros ids' c k. rewrite /offered /=. destruct (decide (m_clientId x = c)) as [<-|Hc].
    - rewrite (bool_decide_true (m_clientId x = m_clientId x)) // lookup_insert_eq //.
    - rewrite (bool_decide_false (m_clientId x = c)) // lookup_insert_ne //. }
  case_bool_decide as Hin; (split_and!; [done..|]); intros c k; rewrite Hoff.
  - rewrite matching_app matching_cons {2}/matching filter_nil /=. case_bool_decide as Hc; [|lia]. subst c. rewrite /offered -/ids. lia.
  - rewrite /matches. case_bool_decide as Hc; [|rewrite bool_decide_false; [tauto|]; lia]. subst c. rewrite /offered -/ids. destruct (decide (m_shmId x = k)) as [<-|Hk].
    + rewrite (bool_decide_true (m_shmId x ∈ _)); [set_solver|]. rewrite (bool_decide_true (m_clientId x = m_clientId x ∧ _)) // (bool_decide_false (m_shmId x ∈ ids)) //. lia.
    + rewrite (bool_decide_false (m_clientId x = m_clientId x ∧ _)); [tauto|]. assert (bool_decide (k ∈ {[m_shmId x]} ∪ ids) = bool_decide (k ∈ ids)) as ->; [|lia].
      apply bool_decide_ext. set_solver.
Qed.

(** A section of one flush among others: a held reference is still promised as often as before. *)
Lemma flush_section_inv now s fs1 f fs2 : inv (in_hands (fs1 ++ f :: fs2)) s →
  inv (in_hands (fs1 ++ (flush_section now s f).2 :: fs2)) (flush_section now s f).1.
Proof.
  intros Hv. rewrite /flush_section. destruct f as [todo [x|] failed]; cbn [f_found f_todo f_failed].
  - pose proof (flush_insert_spec s failed x) as Hx. destruct (flush_insert (s, failed) x) as [s' failed']. destruct Hx as (Hr&Hq&Hc). cbn [fst snd].
    eapply inv_moved; [exact Hv|done| |intros; apply in_hands_nonneg]. intros c k _. rewrite !in_hands_middle /items_of /= matching_cons !matching_app /pending.
    specialize (Hc c k). assert (queued s' c k = queued s c k) as -> by (by rewrite /queued Hq). lia.
  - destruct todo as [|x todo]; [destruct failed as [|x failed]; [done|]|]; cbn [fst snd].
    + eapply inv_moved; [exact Hv|done| |intros; apply in_hands_nonneg]. intros c k _. rewrite !in_hands_middle /items_of /= matching_cons /pending.
      change (offered (flush_again now s x) c k) with (offered s c k). rewrite /flush_again /RecordMaybeExpiredShm queued_snoc /= /matches. lia.
    + eapply inv_moved; [exact Hv|done| |intros; apply in_hands_nonneg]. intros c k Hpos. rewrite !in_hands_middle /items_of /= !matching_app matching_cons.
      destruct (ClientContainsShm s (m_clientId x) (m_shmId x)) eqn:Hx; cbn [option_list app]; rewrite ?matching_cons ?matching_nil ?matching_app; [lia|].
      assert (matches c k x = false) as ->; [|lia]. apply bool_decide_eq_false. intros [<- <-].
      apply (contains_cnt s _ _ (v_ok s Hv)) in Hpos. congruence.
Qed.

(** ** Counts of clients that hold a unit at most once *)
Definition unique_clients (s : state) : Prop := ∀ c i, clients_ s !! c = Some i → isUniqueCnt_ i = true.

Definition count_ok (s : state) (u : ShmUnit) : Prop :=
  u_refCount u = Z.of_nat (size (holders s (u_id u))) ∧ u_refCount u < 2 ^ 31.

Record exact (s : state) : Prop := {
  e_ok : rows_ok s;
  e_agree : ∀ c k, 0 < cnt s c k ↔ c ∈ holders s k;
  e_unique : unique_clients s;
  e_ref : ∀ p u, units_ s !! p = Some u → count_ok s u }.

Lemma unique_cnt s c k : rows_ok s → unique_clients s → cnt s c k ≤ 1.
Proof.
  intros Hok Hu. rewrite /cnt /GetRefCount. destruct (clients_ s !! c) as [i|] eqn:Hi; [|lia].
  destruct (objectKeys_ i !! k) as [n|] eqn:Hn; simpl; [|lia]. apply (v_counts s Hok c i Hi) in Hn as [_ Hn]. rewrite (Hn (Hu c i Hi)). lia.
Qed.

(** Another unit than the one that is written. *)
Lemma exact_other s s' p u u' k : rows_ok s → (∀ p u, units_ s !! p = Some u → count_ok s u) →
  units_ s !! p = Some u → u_id u = k → u_id u' = k → units_ s' = <[p := u']> (units_ s) → (∀ k', k' ≠ k → holders s' k' = holders s k') →
  u_refCount u' = Z.of_nat (size (holders s' k)) → u_refCount u' < 2 ^ 31 → ∀ q v, units_ s' !! q = Some v → count_ok s' v.
Proof.
  intros Hok Href Hu Hid Hid' Hun Hh Hc Hlt q v. rewrite Hun. destruct (decide (q = p)) as [->|Hne]; simplify_map_eq.
  - intros [= <-]. split; [by rewrite Hid'|done].
  - intros Hv. rewrite /count_ok Hh; [intros He; apply Hne, (v_ids s Hok q p v u Hv Hu); congruence|]. by apply (Href q).
Qed.

Lemma exact_added s c p k s' u b : exact s → units_ s !! p = Some u → u_id u = k → u_refCount u + 1 < 2 ^ 31 → added s c p k s' u b → exact s'.
Proof.
  intros [Hok Ha Hun Href] Hu Hid Hb [Hok' Hc Hpos Hh _ _ Hunits ((i'&Hcl&Hi')&Hnew) Hag].
  assert (Hd : default true (isUniqueCnt_ <$> clients_ s !! c) = true) by (destruct (clients_ s !! c) eqn:Hx; [by apply (Hun c)|done]).
  split; [done|..].
  - intros c' k'. rewrite Hh. destruct (at_key c k c' k') eqn:He.
    + apply at_key_true in He as [-> ->]. rewrite bool_decide_true //. set_solver.
    + rewrite Hc He Ha. apply at_key_false in He. case_bool_decide as Hk; [subst k'|done]. rewrite elem_of_union elem_of_singleton. tauto.
  - intros c' j. rewrite Hcl. destruct (decide (c' = c)) as [->|Hne]; simplify_map_eq; [naive_solver|apply Hun].
  - eapply (exact_other s s' p u _ k Hok Href Hu Hid); [|exact Hunits|..]; [by destruct b|intros k' Hne; by rewrite Hh bool_decide_false|..].
    2: { destruct (Href p u Hu). destruct b; simpl; [|lia]. rewrite i32_small; lia. }
    rewrite Hh bool_decide_true //. destruct (Href p u Hu) as [Hr _]. rewrite Hid in Hr. destruct b.
    + assert (c ∉ holders s k) by (rewrite -Ha (Hnew Hd eq_refl); lia). rewrite size_union; [set_solver|]. rewrite size_singleton /= i32_small; lia.
    + assert (c ∈ holders s k) by (apply Ha, Hag; done). rewrite Hr. do 2 f_equal. set_solver.
Qed.

Lemma AddShmUnits_spec hand (Hhand : ∀ c k, 0 ≤ hand c k) c ps req now : ∀ s, inv hand s → is_Some (clients_ s !! c) →
  (∀ p, Some p ∈ ps → ∃ u, units_ s !! p = Some u ∧ cnt s c (u_id u) + Z.of_nat (List.length ps) < 2 ^ 32 ∧
    u_refCount u + Z.of_nat (List.length ps) < 2 ^ 31 ∧ - 2 ^ 31 ≤ u_refCount u) →
  ∃ s', AddShmUnits s c ps req now = Some s' ∧ inv hand s' ∧ (exact s → exact s').
Proof.
  induction ps as [|[p|] ps IH]; intros s Hv Hc Hall; [by exists s| |]; cbn [AddShmUnits fold_left mbind option_bind].
  - destruct Hc as [i Hi]. destruct (Hall p) as (u&Hu&Hb&Hr&Hr'); [set_solver|]. rewrite Hi /=. cbn [List.length] in Hb, Hr.
    destruct (add_unit_spec s c i p u req now (v_ok s Hv) Hi Hu) as (s1&b&->&Ha); [lia|].
    destruct (IH s1) as (s2&H2&Hv2&He2).
    + by eapply inv_added.
    + destruct (proj1 (a_unique _ _ _ _ _ _ _ Ha)) as (i'&->&_). rewrite lookup_insert_eq. eauto.
    + intros q Hq. destruct (Hall q) as (v&Hv'&Hb'&Hq'&Hq''); [set_solver|]. rewrite (a_units _ _ _ _ _ _ _ Ha).
      pose proof (a_cnt _ _ _ _ _ _ _ Ha c (u_id v)) as Hcnt. cbn [List.length] in Hb', Hq'.
      assert (cnt s1 c (u_id v) ≤ cnt s c (u_id v) + 1).
      { rewrite Hcnt. destruct (at_key c (u_id u) c (u_id v)) eqn:He; [apply at_key_true in He as [_ ->]; destruct b; lia|lia]. }
      destruct (decide (q = p)) as [->|Hne]; simplify_map_eq; [|exists v; split_and!; [done|lia..]].
      eexists. split; [done|]. destruct b; simpl; [rewrite i32_small|]; lia.
    + exists s2. split_and!; [done|done|]. intros He. apply He2. eapply (exact_added s c p (u_id u)); [done..|lia|done].
  - apply (IH s); [done|done|]. intros q Hq. destruct (Hall q) as (v&Hv'&Hb'&Hq'&Hq''); [set_solver|]. exists v. cbn [List.length] in Hb', Hq'.
    split_and!; [done|lia..].
Qed.

Lemma exact_dropped s c force p k s' u : exact s → units_ s !! p = Some u → u_id u = k →
  is_Some (clients_ s !! c) → dropped s c force p k s' u → exact s'.
Proof.
  intros [Hok Ha Hun Href] Hu Hid [i Hi] [Hok' Hc Hh _ _ Hunits _ (i'&Hcl&Hi')].
  pose proof (unique_cnt s c k Hok Hun) as Hle. pose proof (cnt_nonneg s c k Hok) as Hge.
  assert (Hui : isUniqueCnt_ i' = true) by (rewrite Hi /= in Hi'; injection Hi' as ->; by apply (Hun c)).
  assert (Hh' : ∀ k', holders s' k' = if bool_decide (k' = k) then holders s k ∖ {[c]} else holders s k').
  { intros k'. rewrite Hh. assert (force || (cnt s c k <=? 1) = true) as ->; [|by rewrite andb_true_r]. apply orb_true_iff. right. lia. }
  split; [done|..].
  - intros c' k'. rewrite Hh'. destruct (at_key c k c' k') eqn:He.
    + pose proof He as [-> ->]%at_key_true. rewrite Hc He bool_decide_true //. rewrite elem_of_difference elem_of_singleton. split; [lia|tauto].
    + rewrite Hc He Ha. apply at_key_false in He. case_bool_decide as Hk; [subst k'|done]. rewrite elem_of_difference elem_of_singleton. tauto.
  - intros c' j. rewrite Hcl. destruct (decide (c' = c)) as [->|Hne]; simplify_map_eq; [naive_solver|apply Hun].
  - eapply (exact_other s s' p u _ k Hok Href Hu Hid); [|exact Hunits|..]; [by destruct (_ && _)|intros k' Hne; by rewrite Hh' bool_decide_false|..].
    2: { destruct (Href p u Hu). destruct (_ && _) eqn:Hx; simpl; [|lia]. apply andb_true_iff in Hx as [_ Hx]. rewrite i32_small; lia. }
    rewrite Hh' bool_decide_true //. destruct (Href p u Hu) as [Hr Hb]. rewrite Hid in Hr. specialize (Ha c k).
    destruct (0 <? cnt s c k) eqn:Hpos; simpl.
    + assert (Hin : c ∈ holders s k) by (apply Ha; lia). pose proof (size_difference (holders s k) {[c]}) as Hsz. rewrite size_singleton in Hsz.
      assert (size (holders s k) ≠ 0%nat) by (intros Hz; apply size_empty_inv in Hz; set_solver).
      assert ((0 <? u_refCount u) = true) as -> by lia. rewrite Hsz; [set_solver|]. simpl. rewrite i32_small; lia.
    + rewrite Hr. do 2 f_equal. assert (c ∉ holders s k) by (rewrite -Ha; lia). set_solver.
Qed.

Lemma exact_rows s t : exact s → same_rows s t → exact t.
Proof.
  intros [[H1 H2 H3] Ha Hu Hr] (E1&E2&E3). assert (Hh : ∀ k, holders t k = holders s k) by (intros; by rewrite /holders E2).
  split; [split; rewrite ?E1 ?E2 ?E3 //|..].
  - intros c k. rewrite Hh /cnt E1. apply Ha.
  - intros c i. rewrite E1. apply Hu.
  - intros p u. rewrite E3 /count_ok Hh. apply Hr.
Qed.

Lemma exact_new_client s c : exact s → clients_ s !! c = None → exact (with_clients s (<[c := NewRefInfo true]> (clients_ s))).
Proof.
  intros [[H1 H2 H3] Ha Hu Hr] Hc. split; [split; [|done|done]|..]; simpl.
  - intros c' i; simpl. destruct (decide (c' = c)) as [->|Hne]; simplify_map_eq; [|apply H1]. by intros [= <-].
  - intros c' k. rewrite -(Ha c' k) /cnt /=. destruct (decide (c' = c)) as [->|Hne]; [rewrite lookup_insert_eq Hc|rewrite lookup_insert_ne]; done.
  - intros c' i; simpl. destruct (decide (c' = c)) as [->|Hne]; simplify_map_eq; [|apply Hu]. by intros [= <-].
  - exact Hr.
Qed.

Lemma exact_remove_units c ks : ∀ s s', exact s → remove_units s c ks = Some s' → exact s'.
Proof.
  induction ks as [|k ks IH]; intros s s' He; [by intros [= <-]|]. simpl.
  destruct (clients_ s !! c) as [i|] eqn:Hi; [|by apply IH]. destruct (shms_ s !! k) as [[p h]|] eqn:Hk; [|by apply IH].
  destruct (RemoveShmUnitDetail_spec s c true k i p h (e_ok s He) Hi Hk) as (t1&u&->&Hu&Hid&Hd). simpl. apply IH.
  exact (exact_dropped s c true p k t1 u He Hu Hid (mk_is_Some _ _ Hi) Hd).
Qed.

Lemma exact_RemoveShmUnit s c k s' : exact s → RemoveShmUnit s c k = Some s' → exact s'.
Proof.
  intros He. rewrite /RemoveShmUnit. destruct (clients_ s !! c) as [i|] eqn:Hi; [|by intros [= <-]].
  destruct (shms_ s !! k) as [[p h]|] eqn:Hk; [|by intros [= <-]].
  destruct (RemoveShmUnitDetail_spec s c false k i p h (e_ok s He) Hi Hk) as (t1&u&->&Hu&Hid&Hd). simpl. intros [= <-].
  apply (exact_rows t1); [exact (exact_dropped s c false p k t1 u He Hu Hid (mk_is_Some _ _ Hi) Hd)|]. destruct (clear_others t1 c [k]) as (?&?&?&_). done.
Qed.

Lemma exact_remove_client_rows hand s c i s' :
  (∀ c k, 0 ≤ hand c k) → inv hand s → exact s → clients_ s !! c = Some i → remove_client_rows s c i = Some s' → exact s'.
Proof.
  intros Hh Hv He Hi. destruct (remove_client_rows_spec hand Hh s c i Hv Hi) as (s2&H2&Hv2&_). rewrite H2. intros [= <-]. rewrite /remove_client_rows in H2.
  destruct (remove_units s c (GetRefIds i)) as [t|] eqn:Ht; [|done]. injection H2 as <-.
  pose proof (exact_remove_units _ _ _ _ He Ht) as [Hok Ha Hu Hr]. split.
  - apply (v_ok _ Hv2).
  - apply (v_agree _ Hv2).
  - intros c' j; simpl. rewrite lookup_delete_Some. intros [_ Hj]. by apply (Hu c').
  - exact Hr.
Qed.

Lemma exact_RemoveClient hand s c s' : (∀ c k, 0 ≤ hand c k) → inv hand s → exact s → RemoveClient s c = Some s' → exact s'.
Proof.
  intros Hh Hv He. rewrite /RemoveClient. destruct (clients_ s !! c) as [i|] eqn:Hi; [|by intros [= <-]].
  destruct (remove_client_rows s c i) as [t|] eqn:Ht; [|done]. intros [= <-]. apply (exact_rows t); [|done]. by eapply exact_remove_client_rows.
Qed.

Lemma exact_reconcile c ks : ∀ s s', exact s → reconcile_loop s c ks = Some s' → exact s'.
Proof.
  induction ks as [|k ks IH]; intros s s' He; [by intros [= <-]|]. simpl. destruct (RemoveShmUnit s c k) as [s1|] eqn:H1; [|done]. simpl.
  apply IH. by eapply exact_RemoveShmUnit.
Qed.

(** ** Runs of a worker *)
Definition SharedMemoryRefTable : state := MkState ∅ ∅ ∅ [] ∅ 0 0.

(** The allocator hands out a unit with a new id and counts its page as one without reference. *)
Definition allocate (s : state) (p : nat) (id : string) : state :=
  MkState (clients_ s) (shms_ s) (<[p := MkUnit id 0]> (units_ s)) (queue_ s) (table_ s) (noRefPages_ s + 1) (refPages_ s).

(** The table and the threads that flush it.  [multi]: some clients count their references.  The last two rules are the ends of a
    reconciliation and of the removal of a client that were interrupted before they take ids off the offer: they find no id
    that the client holds again and that is on offer again. *)
Inductive run (multi : bool) : state → list flush → Prop :=
| run_start : run multi SharedMemoryRefTable []
| run_allocate s fs p id : run multi s fs → units_ s !! p = None → (∀ q u, units_ s !! q = Some u → u_id u ≠ id) →
    run multi (allocate s p id) fs
| run_client s fs c b : run multi s fs → (b = true → multi = true) → run multi (InitShmRefForClient s c b) fs
| run_add s fs c p u req now s' : run multi s fs → units_ s !! p = Some u → cnt s c (u_id u) + 1 < 2 ^ 32 → u_refCount u + 1 < 2 ^ 31 →
    AddShmUnit s c p req now = Some s' → run multi s' fs
| run_add_many s fs c ps req now s' : run multi s fs → is_Some (clients_ s !! c) →
    (∀ p, Some p ∈ ps → ∃ u, units_ s !! p = Some u ∧ cnt s c (u_id u) + Z.of_nat (List.length ps) < 2 ^ 32 ∧
      u_refCount u + Z.of_nat (List.length ps) < 2 ^ 31 ∧ - 2 ^ 31 ≤ u_refCount u) →
    AddShmUnits s c ps req now = Some s' → run multi s' fs
| run_remove s fs c k s' : run multi s fs → RemoveShmUnit s c k = Some s' → run multi s' fs
| run_remove_client s fs c s' : run multi s fs → RemoveClient s c = Some s' → run multi s' fs
| run_reconcile s fs c ks s' out : run multi s fs → ReconcileClientShmRefs s c ks = Some (s', out) → run multi s' fs
| run_flush s fs nowMs : run multi s fs → run multi (flush_pop s nowMs).1 (fs ++ [MkFlush (flush_pop s nowMs).2 None []])
| run_section s fs1 f fs2 now : run multi s (fs1 ++ f :: fs2) →
    run multi (flush_section now s f).1 (fs1 ++ (flush_section now s f).2 :: fs2)
| run_client_rows s fs c i s' : run multi s fs → clients_ s !! c = Some i → remove_client_rows s c i = Some s' → run multi s' fs
| run_late_forget s fs c : run multi s fs → (∀ k, cnt s c k = 0 ∨ offered s c k = false) → run multi (forget_offers s c) fs
| run_late_clear s fs c ks : run multi s fs → (∀ k, k ∈ ks → cnt s c k = 0 ∨ offered s c k = false) → run multi (ClearMaybeExpiredShmIds s c ks) fs.

(** A flush that is not interrupted is one of them. *)
Lemma flush_uninterrupted multi s fs nowMs now : run multi s fs → run multi (FlushMaybeExpiredQueue s nowMs now) (fs ++ [MkFlush [] None []]).
Proof.
  intros H%(run_flush multi s fs nowMs). rewrite /FlushMaybeExpiredQueue. destruct (flush_pop s nowMs) as [t todo]. cbn [fst snd] in H.
  assert (∀ todo t failed, run multi t (fs ++ [MkFlush todo None failed]) →
    let '(t', failed') := fold_left flush_item todo (t, failed) in run multi t' (fs ++ [MkFlush [] None failed'])) as Hitems.
  { clear. induction todo as [|x todo IH]; intros t failed H; [done|]. cbn [fold_left]. apply (run_section multi t fs _ [] 0) in H.
    rewrite /flush_section /= in H. rewrite {2}/flush_item. cbn [fst]. destruct (ClientContainsShm t (m_clientId x) (m_shmId x)); cbn [negb]; [|by apply IH].
    apply (run_section multi t fs _ [] 0) in H. rewrite /flush_section in H. cbn [f_found f_todo f_failed] in H. destruct (flush_insert (t, failed) x) as [t1 failed1]. by apply IH. }
  assert (∀ failed t, run multi t (fs ++ [MkFlush [] None failed]) → run multi (fold_left (flush_again now) failed t) (fs ++ [MkFlush [] None []])) as Hagain.
  { clear. induction failed as [|x failed IH]; intros t H; [done|]. apply (run_section multi t fs _ [] now) in H. by apply IH. }
  specialize (Hitems todo t [] H). destruct (fold_left flush_item todo (t, [])) as [t1 failed]. by apply Hagain.
Qed.

Lemma inv_allocate hand s p id : inv hand s → units_ s !! p = None → (∀ q u, units_ s !! q = Some u → u_id u ≠ id) → inv hand (allocate s p id).
Proof.
  intros [[H1 H2 H3] Ha Hp] Hnone Hnew. split; [split; [done|..]|done|done]; simpl.
  - intros k q h Hk. destruct (H2 k q h Hk) as [Hne (u&Hu&Hid)]. split; [done|]. exists u. split; [|done]. rewrite lookup_insert_ne //. congruence.
  - intros a b x y. destruct (decide (a = p)) as [->|], (decide (b = p)) as [->|]; simplify_map_eq; [done| | |apply H3].
    + intros [= <-] Hy He. simpl in He. destruct (Hnew b y Hy). done.
    + intros Hx [= <-] He. simpl in He. destruct (Hnew a x Hx). done.
Qed.

Lemma exact_allocate hand s p id : exact s → inv hand (allocate s p id) → (∀ q u, units_ s !! q = Some u → u_id u ≠ id) → exact (allocate s p id).
Proof.
  intros [Hok Ha Hu Hr] Hv Hnew. assert (Hid : shms_ s !! id = None).
  { destruct (shms_ s !! id) as [[q h]|] eqn:Hq; [|done]. destruct (v_rows s Hok _ _ _ Hq) as [_ (u&Hq'&Hid)]. by destruct (Hnew q u Hq'). } split; [apply (v_ok _ Hv)|apply (v_agree _ Hv)|exact Hu|]. intros q u; simpl.
  destruct (decide (q = p)) as [->|Hne]; simplify_map_eq; [|apply Hr]. intros [= <-]. rewrite /count_ok /holders /= Hid. done.
Qed.

Lemma shm_start_inv : inv (in_hands []) SharedMemoryRefTable ∧ exact SharedMemoryRefTable.
Proof.
  assert (Hok : rows_ok SharedMemoryRefTable) by (split; simpl; set_solver).
  assert (Ha : ∀ c k, 0 < cnt SharedMemoryRefTable c k ↔ c ∈ holders SharedMemoryRefTable k).
  { intros c k. rewrite /cnt /holders /= !lookup_empty /=. split; [lia|set_solver]. }
  split; (split; [done|done|..]).
  - intros c k. rewrite /cnt /= lookup_empty /pending. pose proof (queued_nonneg SharedMemoryRefTable c k). pose proof (in_hands_nonneg [] c k). case_match; lia.
  - intros c i. simpl. by rewrite lookup_empty.
  - intros p u. simpl. by rewrite lookup_empty.
Qed.

Lemma run_inv multi s fs : run multi s fs → inv (in_hands fs) s ∧ (multi = false → exact s).
Proof.
  pose proof in_hands_nonneg as Hh.
  induction 1 as [|s fs p id _ [Hv He] Hn Hnew|s fs c b _ [Hv He] Hb|s fs c p u req now s' _ [Hv He] Hu Hc Hr Ha
    |s fs c ps req now s' _ [Hv He] Hc Hall Ha|s fs c k s' _ [Hv He] Hx|s fs c s' _ [Hv He] Hx|s fs c ks s' out _ [Hv He] Hx
    |s fs nowMs _ [Hv He]|s fs1 f fs2 now _ [Hv He]|s fs c i s' _ [Hv He] Hi Hx|s fs c _ [Hv He] Hz|s fs c ks _ [Hv He] Hz].
  - destruct shm_start_inv. done.
  - pose proof (inv_allocate _ s p id Hv Hn Hnew) as Hv'. split; [done|]. intros Hm. by apply (exact_allocate _ s p id (He Hm) Hv').
  - rewrite /InitShmRefForClient. destruct (clients_ s !! c) eqn:Hi; [done|]. split; [by apply new_client|]. intros Hm.
    destruct b; [by rewrite Hb in Hm|]. apply exact_new_client; auto.
  - destruct (AddShmUnit_spec _ (Hh fs) s c p u req now Hv Hu Hc) as (s1&b&H1&Hv1&Had&_). rewrite Ha in H1. injection H1 as <-. split; [done|].
    intros Hm. specialize (He Hm). revert Had. rewrite /ClientTableGetOrInsert. destruct (clients_ s !! c) eqn:Hi; simpl; intros Had.
    + by eapply (exact_added s c p (u_id u)).
    + eapply (exact_added _ c p (u_id u)); [by apply exact_new_client|done..].
  - destruct (AddShmUnits_spec _ (Hh fs) c ps req now s Hv Hc Hall) as (s1&H1&Hv1&He1). rewrite Ha in H1. injection H1 as <-. auto.
  - destruct (RemoveShmUnit_spec _ (Hh fs) s c k Hv) as (s1&H1&Hv1&_). rewrite Hx in H1. injection H1 as <-. split; [done|]. intros Hm.
    exact (exact_RemoveShmUnit s c k s' (He Hm) Hx).
  - destruct (RemoveClient_spec _ (Hh fs) s c Hv) as (s1&H1&Hv1&_). rewrite Hx in H1. injection H1 as <-. split; [done|]. intros Hm.
    exact (exact_RemoveClient _ s c s' (Hh fs) Hv (He Hm) Hx).
  - destruct (ReconcileClientShmRefs_spec _ (Hh fs) s c ks Hv) as (s1&H1&Hv1&_). rewrite Hx in H1. injection H1 as <- _. split; [done|]. intros Hm.
    rewrite /ReconcileClientShmRefs in Hx. destruct (reconcile_loop s c ks) as [t|] eqn:Ht; [|done]. simpl in Hx. injection Hx as <- _.
    apply (exact_rows t); [exact (exact_reconcile c ks s t (He Hm) Ht)|]. destruct (clear_others t c ks) as (?&?&?&_). done.
  - split; [by apply flush_pop_inv|]. intros Hm. by apply (exact_rows s); [apply He|].
  - split; [by apply flush_section_inv|]. intros Hm. apply (exact_rows s); [by apply He|]. rewrite /flush_section /flush_insert.
    destruct f as [[|x todo] [y|] failed]; cbn [f_found f_todo f_failed]; repeat case_match; by simplify_eq/=.
  - destruct (remove_client_rows_spec _ (Hh fs) s c i Hv Hi) as (s1&H1&Hv1&_). rewrite Hx in H1. injection H1 as <-. split; [done|]. intros Hm.
    exact (exact_remove_client_rows _ s c i s' (Hh fs) Hv (He Hm) Hi Hx).
  - split; [by apply inv_forget|]. intros Hm. by apply (exact_rows s); [apply He|].
  - split; [by apply inv_clear|]. intros Hm. apply (exact_rows s); [by apply He|]. destruct (clear_others s c ks) as (?&?&?&_). done.
Qed.

(** ** What the table promises *)

(** C11: no reference is forgotten.  In every run, whatever clients do and in whatever order, and wherever the threads that flush the queue are
    between two of their sections, a reference of a client is in the row of the unit and the other way round, and as long as it is held it
    waits in the queue, is in the hands of a thread that flushes, or is on offer to the client for confirmation, at least as often, together, as
    the client holds it.  When no thread is flushing, it waits or is on offer.  The counts are assumed not to overflow.  A reconciliation and
    the removal of a client may be interrupted before they take ids off the offer; the runs are those in which they then find no id that
    the client holds again and that is on offer again. *)
Theorem no_reference_forgotten multi s fs : run multi s fs →
  (∀ c k, ClientContainsShm s c k = true ↔ c ∈ holders s k) ∧ (∀ k, is_ok (GetShmUnit s k) = true ↔ holders s k ≠ ∅) ∧
  (∀ c k, cnt s c k ≤ pending s c k + in_hands fs c k) ∧ ((∀ f, f ∈ fs → items_of f = []) → ∀ c k, cnt s c k ≤ pending s c k).
Proof.
  intros [Hv _]%run_inv. split_and!.
  - intros c k. rewrite (contains_cnt s c k (v_ok s Hv)). apply (v_agree s Hv).
  - intros k. rewrite /GetShmUnit /holders. destruct (shms_ s !! k) as [[p h]|] eqn:Hk; simpl; [|done].
    destruct (v_rows s (v_ok s Hv) k p h Hk). done.
  - apply (v_pending s Hv).
  - intros Hf c k. assert (in_hands fs c k = 0) as Hz; [|pose proof (v_pending s Hv c k); lia]. rewrite /in_hands.
    assert (fs ≫= items_of = []) as ->; [|done]. clear Hv. induction fs as [|f fs IH]; [done|]. rewrite bind_cons Hf; [by left|]. apply IH. intros g Hg. apply Hf. by right.
Qed.

(** C34: a reference that is held when its deadline has passed is offered to its client by the next flush that is not interrupted, and no reference is taken
    off the offer by a flush. *)
Theorem expired_reference_offered multi s fs x nowMs now : run multi s fs →
  x ∈ queue_ s → m_expireTimeMs x ≤ nowMs → ClientContainsShm s (m_clientId x) (m_shmId x) = true →
  offered (FlushMaybeExpiredQueue s nowMs now) (m_clientId x) (m_shmId x) = true ∧
  ∀ c k, offered s c k = true → offered (FlushMaybeExpiredQueue s nowMs now) c k = true.
Proof.
  intros [Hv _]%run_inv Hx He Hc. destruct (FlushMaybeExpiredQueue_spec s nowMs now (v_ok s Hv)) as (_&Hm&Ho). split; [|exact Hm].
  apply Ho; [done|done|]. by apply (contains_cnt s _ _ (v_ok s Hv)).
Qed.

(** while no client counts its references, the count of a unit is the number of clients that hold it, and removing a
    client takes all its references back and no others. *)
Theorem shm_count_exact s fs : run false s fs →
  (∀ p u, units_ s !! p = Some u → u_refCount u = Z.of_nat (size (holders s (u_id u)))) ∧
  ∀ c, ∃ s', RemoveClient s c = Some s' ∧ (∀ k, c ∉ holders s' k) ∧ (∀ c' k, c' ≠ c → ClientContainsShm s' c' k = ClientContainsShm s c' k).
Proof.
  intros [Hv He]%run_inv. specialize (He eq_refl). split; [intros p u Hu; apply (e_ref s He p u Hu)|]. intros c.
  destruct (RemoveClient_spec _ (in_hands_nonneg fs) s c Hv) as (s'&H'&Hv'&_&Hc&Hno). exists s'. split_and!; [done|done|]. intros c' k Hne.
  apply eq_true_iff_eq. rewrite !contains_cnt; [apply (v_ok _ Hv')|apply (v_ok _ Hv)|]. by rewrite Hc bool_decide_false.
Qed.

(** The unit [p] in the loop of [RemoveClient]: its own id takes one reference off its count, the others leave it alone. *)
Lemma remove_units_unit c ks p u : ∀ t t', rows_ok t → units_ t !! p = Some u → NoDup ks → c ∈ holders t (u_id u) → remove_units t c ks = Some t' →
  is_Some (clients_ t !! c) →
  units_ t' !! p = Some (if bool_decide (u_id u ∈ ks) && (0 <? cnt t c (u_id u)) && (0 <? u_refCount u) then DecrementRefCount u else u).
Proof.
  induction ks as [|k ks IH]; intros t t' Hok Hu Hnd Hc; cbn [remove_units]; [by intros [= <-] _; rewrite Hu|]. apply NoDup_cons in Hnd as [Hk Hnd].
  intros Hr [i Hi]. rewrite Hi in Hr. destruct (shms_ t !! k) as [[q h]|] eqn:Eq.
  2: { rewrite (IH t t' Hok Hu Hnd Hc Hr); [eauto|]. rewrite (bool_decide_ext (u_id u ∈ k :: ks) (u_id u ∈ ks)) //. rewrite elem_of_cons. split; [|tauto].
       intros [Hx|]; [|done]. rewrite /holders Hx Eq /= in Hc. set_solver. }
  destruct (RemoveShmUnitDetail_spec t c true k i q h Hok Hi Eq) as (t1&v&H1&Hv&Hvk&[Hok1 Hc1 Hh1 _ _ Hu1 _ (i'&Hcl&_)]). rewrite H1 /= in Hr.
  assert (is_Some (clients_ t1 !! c)) as Hs by (rewrite Hcl lookup_insert_eq; eauto). destruct (decide (k = u_id u)) as [->|Hne].
  - assert (q = p) as -> by (by eapply (v_ids t Hok)). assert (v = u) as -> by congruence. rewrite (bool_decide_true (u_id u ∈ _)); [by left|]. cbn [andb].
    clear IH. set (w := if (0 <? cnt t c (u_id u)) && (0 <? u_refCount u) then DecrementRefCount u else u) in *. assert (units_ t1 !! p = Some w) as Hw by (by rewrite Hu1 lookup_insert_eq).
    assert (u_id w = u_id u) as Hwk by (rewrite /w; by case_match). clearbody w.
    assert (∀ ks t, rows_ok t → is_Some (clients_ t !! c) → units_ t !! p = Some w → u_id u ∉ ks → ∀ t', remove_units t c ks = Some t' → units_ t' !! p = Some w) as Hrest; [|by eapply Hrest].
    clear -Hwk. induction ks as [|k ks IH]; intros t Hok [i Hi] Hw Hk t'; cbn [remove_units]; [by intros [= <-]|]. apply not_elem_of_cons in Hk as [Hk Hks]. rewrite Hi.
    destruct (shms_ t !! k) as [[q h]|] eqn:Eq; [|by apply IH; eauto].
    destruct (RemoveShmUnitDetail_spec t c true k i q h Hok Hi Eq) as (t1&v&H1&Hv&Hvk&[Hok1 _ _ _ _ Hu1 _ (i'&Hcl&_)]). rewrite H1 /=.
    apply IH; [done|by rewrite Hcl lookup_insert_eq; eauto| |done]. rewrite Hu1 lookup_insert_ne //. intros ->. congruence.
  - assert (units_ t1 !! p = Some u) as Hp by (rewrite Hu1 lookup_insert_ne //; intros ->; congruence).
    assert (holders t1 (u_id u) = holders t (u_id u)) as Hh by (rewrite Hh1 bool_decide_false //; congruence).
    rewrite (IH t1 t' Hok1 Hp Hnd ltac:(by rewrite Hh) Hr Hs) Hc1. rewrite /at_key (bool_decide_false (c = c ∧ u_id u = k)); [naive_solver|].
    rewrite (bool_decide_ext (u_id u ∈ k :: ks) (u_id u ∈ ks)) //. rewrite elem_of_cons. naive_solver.
Qed.

(** C38: a client that goes takes one reference off the count of each unit it holds, however many it has.  In every run, for a client that holds a
    unit [n] times, [RemoveClient] removes the client from the holders of the unit but lowers the unit's count by one only: of the [n] references of a
    client that counts them, [n] - 1 stay counted with nobody to give them back, and if it was the last holder, the unit is out of
    the table with a count above zero, so that its page stays among the referenced ones, whenever [n] is at least two and the count is exact. *)
Theorem disconnect_leaks_count multi s fs c p u : run multi s fs → units_ s !! p = Some u → 0 < cnt s c (u_id u) → 0 < u_refCount u < 2 ^ 31 →
  ∃ s' u', RemoveClient s c = Some s' ∧ units_ s' !! p = Some u' ∧ c ∉ holders s' (u_id u) ∧ u_refCount u' = u_refCount u - 1 ∧
    (holders s (u_id u) = {[c]} → u_refCount u = cnt s c (u_id u) → holders s' (u_id u) = ∅ ∧ u_refCount u' = cnt s c (u_id u) - 1).
Proof.
  intros [Hv _]%run_inv Hu Hpos Href. pose proof (proj1 (v_agree s Hv c (u_id u)) Hpos) as Hin.
  destruct (RemoveClient_spec _ (in_hands_nonneg fs) s c Hv) as (s'&Hs'&Hv'&_&Hc&Hno).
  destruct (clients_ s !! c) as [i|] eqn:Hi; [|by rewrite /cnt Hi in Hpos]. pose proof Hs' as Hr. rewrite /RemoveClient Hi /remove_client_rows in Hr.
  destruct (remove_units s c (GetRefIds i)) as [t|] eqn:Ht; [|done]. injection Hr as <-.
  assert (u_id u ∈ GetRefIds i) as Hk.
  { apply elem_of_elements, elem_of_dom. rewrite (cnt_row s c i Hi) /GetRefCount in Hpos. destruct (objectKeys_ i !! u_id u); [eauto|simpl in Hpos; lia]. }
  pose proof (remove_units_unit c (GetRefIds i) p u s t (v_ok s Hv) Hu (NoDup_elements _) Hin Ht (mk_is_Some _ _ Hi)) as Hunit.
  rewrite bool_decide_true // (proj2 (Z.ltb_lt 0 _) Hpos) (proj2 (Z.ltb_lt 0 _) (proj1 Href)) /= in Hunit.
  eexists _, _. split_and!; [exact Hs'|exact Hunit|apply Hno|simpl; rewrite i32_small; lia|]. intros Hone Heq. split; [|simpl; rewrite i32_small; lia].
  apply leibniz_equiv, set_equiv. intros c'. split; [|set_solver]. intros Hc'. destruct (decide (c' = c)) as [->|Hne]; [by destruct (Hno (u_id u))|].
  apply (v_agree _ Hv') in Hc'. rewrite Hc bool_decide_false // in Hc'. apply (v_agree s Hv) in Hc'. rewrite Hone in Hc'. set_solver.
Qed.

(** ** Runs *)
Definition run_calls (multi : bool) (calls : list (state → option state)) : option state :=
  fold_left (λ r f, s ← r; f s) calls (Some (InitShmRefForClient (allocate SharedMemoryRefTable 0 "m") "c" multi)).

(** A unit held by one client; its deadline is at 1000. *)
Definition held_once : state := default SharedMemoryRefTable (run_calls false [λ s, AddShmUnit s "c" 0 0 0]).

Lemma held_once_run : run false held_once [].
Proof.
  assert (run false (InitShmRefForClient (allocate SharedMemoryRefTable 0 "m") "c" false) []) as H1.
  { apply run_client; [|done]. apply run_allocate; [apply run_start|done|]. intros q u. simpl. by rewrite lookup_empty. }
  assert (∃ s, AddShmUnit (InitShmRefForClient (allocate SharedMemoryRefTable 0 "m") "c" false) "c" 0 0 0 = Some s ∧ held_once = s) as (s&H2&->)
    by (eexists; split; vm_compute; reflexivity).
  apply (run_add false _ [] "c" 0 (MkUnit "m" 0) 0 0 s H1); [done|vm_compute; reflexivity|vm_compute; reflexivity|exact H2].
Qed.

(** The same unit while a thread has taken the reference out of the queue. *)
Definition popped_once : state := (flush_pop held_once 1000).1.
Definition popped_flush : flush := MkFlush (flush_pop held_once 1000).2 None [].

Lemma popped_once_run : run false popped_once [popped_flush].
Proof. exact (run_flush false held_once [] 1000 held_once_run). Qed.

Lemma no_reference_forgotten_witness :
  run false popped_once [popped_flush] ∧ cnt popped_once "c" "m" = 1 ∧ pending popped_once "c" "m" = 0 ∧ 1 ≤ in_hands [popped_flush] "c" "m".
Proof.
  split_and!; [exact popped_once_run|vm_compute; reflexivity|vm_compute; reflexivity|].
  exact (proj1 (proj2 (proj2 (no_reference_forgotten false popped_once [popped_flush] popped_once_run))) "c" "m").
Defined.

Lemma expired_reference_offered_witness : offered (FlushMaybeExpiredQueue held_once 1000 1000) "c" "m" = true.
Proof.
  refine (proj1 (expired_reference_offered false held_once [] (MkItem 0 1000 "c" "m") 1000 1000 held_once_run _ _ _));
    [apply list_elem_of_In; vm_compute; left; reflexivity|vm_compute; discriminate|vm_compute; reflexivity].
Defined.

(** A unit held twice by a client that counts. *)
Definition held_twice : state := default SharedMemoryRefTable (run_calls true [λ s, AddShmUnit s "c" 0 0 0; λ s, AddShmUnit s "c" 0 0 0]).

Lemma held_twice_run : run true held_twice [].
Proof.
  assert (run true (InitShmRefForClient (allocate SharedMemoryRefTable 0 "m") "c" true) []) as H1.
  { apply run_client; [|done]. apply run_allocate; [apply run_start|done|]. intros q u. simpl. by rewrite lookup_empty. }
  destruct (AddShmUnit (InitShmRefForClient (allocate SharedMemoryRefTable 0 "m") "c" true) "c" 0 0 0) as [s1|] eqn:E1; [|by vm_compute in E1].
  pose proof (run_add true _ [] "c" 0 (MkUnit "m" 0) 0 0 s1 H1 ltac:(done) ltac:(vm_compute; reflexivity) ltac:(vm_compute; reflexivity) E1) as H2.
  assert (AddShmUnit s1 "c" 0 0 0 = Some held_twice) as E2 by (vm_compute in E1; injection E1 as <-; vm_compute; reflexivity).
  apply (run_add true s1 [] "c" 0 (MkUnit "m" 1) 0 0 held_twice H2); [..|exact E2]; clear H2 E2; vm_compute in E1; injection E1 as <-; vm_compute; reflexivity.
Qed.

Lemma disconnect_leaks_count_witness :
  ∃ s' u', RemoveClient held_twice "c" = Some s' ∧ units_ s' !! 0%nat = Some u' ∧ holders s' "m" = ∅ ∧ u_refCount u' = 1.
Proof.
  destruct (disconnect_leaks_count true held_twice [] "c" 0 (MkUnit "m" 2) held_twice_run) as (s' & u' & H1 & H2 & _ & _ & H5);
    [vm_compute; reflexivity|vm_compute; reflexivity|vm_compute; split; congruence|].
  exists s', u'. destruct H5 as [H5 H6]; [vm_compute; reflexivity|vm_compute; reflexivity|]. split_and!; [exact H1|exact H2|exact H5|].
  rewrite H6. vm_compute. reflexivity.
Defined.

Lemma shm_count_exact_witness : ∃ s', RemoveClient held_once "c" = Some s' ∧ "c" ∉ holders s' "m".
Proof.
  destruct (proj2 (shm_count_exact held_once [] held_once_run) "c") as (s'&H1&H2&_). exists s'. split; [exact H1|exact (H2 "m")].
Defined.

End ShmRef.
